(* ===== verification/_CoqProject ===== *)
-Q . S2P
Prelude.v
Scheduler.v
AdmissionPlanner.v
PlannerQueues.v
PlannerEquiv.v
PlannerSafety.v
Interleave.v
PoolRouting.v
TargetBreaker.v
InstancePhase.v
InstanceRun.v
LaunchQuery.v
SerialTask.v
RelaySession.v
Holds.v
LeaseOwner.v
CapacityRuntime.v
NodeEvents.v
JsString.v
IpLiteral.v
CommandRender.v
ReleaseVersion.v
AgentUpdate.v
AgentUpdateRun.v
AgentUpdateSafety.v
SpendModel.v
SpendSettle.v
SpendLedger.v
SpendInvariant.v
SpendSafety.v
SpendRepair.v
ReservationMatching.v
ClaimOverlap.v
PlacementFit.v
PlacementSearch.v
PlacementFitSafety.v
ClaimHolds.v
PlacementModel.v
PlacementRules.v
PlacementSteps.v
PlacementPlanner.v
PlacementLogic.v
PlacementReach.v
PlacementSound.v
PlacementChoice.v
PlacementPorts.v
PlacementSafety.v
PlacementReplay.v
PlacementExample.v
Utf8.v
Sse.v
SseStream.v
RelayFrames.v
ProviderEgress.v
EgressSafety.v
WireExample.v
JsNumber.v
MetricRouting.v
EngineLoad.v
MetricRoutingSafety.v
RoutingVerdicts.v
RoutingVerdictsSafety.v
MetricOrder.v
McpAdmission.v
Shutdown.v
JsRound.v
KvEviction.v
KvEvictionSafety.v
WarmProtection.v
WarmProtectionSafety.v
KvFeedback.v
KvFeedbackSafety.v
Fences.v
FencesSafety.v
CanonicalJson.v
CanonicalJsonSafety.v
Profiles.v
ProfileStore.v
ProfilesSafety.v
ProfileApply.v
