(* ===== verification/Prelude.v ===== *)
(** * WS Model Proxy: a verification library

    The repository is a proxy for language models. Users register nodes (machines with a CLI
    agent, [apps/cli]); runtimes are started on them as instances and served behind pools. The
    server ([apps/server], with the rules shared with its routers in [packages/api/src/lib]) admits
    requests to the capacity of an instance, routes them over the members of a pool, relays them
    over the node's socket, and drives the lifecycle of the instances. This library models those
    parts of the server that carry its guarantees and proves them.

    ** Parts, files and what they correspond to

    - Capacity ([src/apps/server/src/model-api/capacity/]). [Scheduler] is [scheduler.ts]
      (priority classes, weighted deficit round robin); [AdmissionPlanner] is
      [admission-planner.ts] ([planGrants], with its queues as arrays) and
      [admission-planner.reference.ts]; [PlannerQueues], [PlannerEquiv] and [PlannerSafety] prove
      them. [LeaseOwner] is [lease-owner.ts] on the heartbeat, release, reclaim and orphan-sweep
      updates of [postgres-store.ts]; [CapacityRuntime] is the acquire of [runtime.ts] against an interface of
      the store ([AttemptStore]), with the rows of one attempt of [postgres-store.ts] as its
      instance. The planner decides who gets a slot, the store persists the grant as a lease, the
      runtime waits for it and hands it to an owner that keeps it alive.
    - Routing. [PoolRouting] is [src/packages/api/src/lib/pool-routing.ts] (the circuit breaker's
      state, its database predicates, the routes a request may take, smooth weighted round
      robin); [TargetBreaker] has the breaker's writes (outcomes, half-open trials, disconnects)
      as programs of atomic statements. [MetricRouting] and [EngineLoad] are [metric-routing.ts]
      and [engine-load.ts] of [packages/api/src/lib] (rules, series and verdicts);
      [RoutingVerdicts] is [relay/metric-routing-evaluator.ts] (publishing verdicts) and
      [MetricOrder] is [model-api/metric-routing-order.ts] (using them);
      [MetricRoutingSafety] and [RoutingVerdictsSafety] prove them.
    - Warm sessions ([src/apps/server/src/model-api/]). [WarmProtection] is [warm-protection.ts] and
      the step of [routes.ts] that applies it; [KvEviction] is
      [packages/api/src/lib/kv-eviction-budget.ts] and the row upsert of
      [kv-eviction-feedback.ts]; [KvFeedback] is the rest of that file (evidence, the ledger of
      engine resets, the write buffer). [WarmProtectionSafety], [KvEvictionSafety] and
      [KvFeedbackSafety] prove them. After affinity and metric rules order a request's candidates,
      protection moves members with protected warm sessions last; eviction feedback lowers the
      budget that decides it.
    - Instances ([src/packages/api/src/lib/], [src/apps/server/src/runtimes/lifecycle.ts]).
      [InstancePhase] is [instance-phase.ts] and the engine's phase writes and restart rule;
      [InstanceRun] is [instance-run.ts], [claim-release.ts] and [operator-need.ts] (which run owns
      the claims, what its steps prove, the one write that releases a claim); [LaunchQuery] is the
      raw query of [instance-run.ts] against its per-rank form; [Holds] is [reservations.ts] (what
      stays held while a replaced run may still be running). [CommandRender] and [IpLiteral] are
      [command-render.ts] and [ip-literal.ts].
    - Placement ([src/packages/api/src/lib/placement.ts]). [PlacementFit], [PlacementSearch] (whether a
      claim fits on a node), [ReservationMatching], [ClaimOverlap] ([claim-overlap.ts]),
      [ClaimHolds] ([nodes/hardware.ts]), [PlacementModel], [PlacementRules], [PlacementSteps],
      [PlacementPlanner] (the planner); [PlacementFitSafety], [PlacementLogic], [PlacementReach],
      [PlacementSound], [PlacementChoice], [PlacementPorts], [PlacementSafety] and
      [PlacementReplay] prove it; [PlacementExample] runs it.
    - Agent updates. [ReleaseVersion], [AgentUpdate], [AgentUpdateRun], [AgentUpdateSafety]:
      [agent-update-wire.ts], [agent-updates.ts] and [nodes/agent-update.ts].
    - Cloud spend ([src/apps/server/src/model-api/provider-budget.ts]). [SpendModel], [SpendSettle]
      model admission and settlement; [SpendLedger], [SpendInvariant], [SpendSafety] and
      [SpendRepair] prove them and run one month of an account.
    - The wire. [Utf8], [Sse], [SseStream]: [protocols/sse.ts]; [RelayFrames]: the binary frames of
      [relay/protocol.ts]; [ProviderEgress], [EgressSafety]: [packages/api/src/lib/provider-egress.ts];
      [WireExample].
    - Lock order. [Fences] is the fence part of [src/packages/db/src/capacity-lock-order.ts] and the
      database function [wsmp_acquire_fences] of [schema-hardening.sql], with transactions that
      use them; [FencesSafety] proves it.
    - Profiles ([src/packages/api/src/]). [CanonicalJson] is [lib/canonical-json.ts] with the hashes
      of [runtime-launch-hash.ts] and [preview-fingerprint.ts], which identify launches and
      previews; [Profiles] is [profiles/plan.ts] with [lib/profile-holds.ts] and
      [lib/profile-save.ts] (what an apply keeps, stops, starts and holds, through the placement
      planner) and the warnings of [lib/runtime-spec.ts]; [ProfileStore] is [profiles/procedures.ts]
      (save, delete, preview, apply) on the rows it reads and writes, with the callers of
      [contracts/auth-context.ts] and [lib/caller-actor.ts]. [CanonicalJsonSafety],
      [ProfilesSafety] and [ProfileApply] prove them and run an example. An apply plans
      on one state and writes on a later one; its guards decide what may have changed between.
      The running instances, the versions and the holds are queries of the tables; the hardware
      snapshot (nodes, other claimants, fabrics, blocked agents) enters as a record of facts.
    - Server shell. [SerialTask] is [src/apps/server/src/serial-task.ts]; [RelaySession] is
      [relay/session-phase.ts] and [relay/terminal-tickets.ts] (Modules [SessionPhase] and
      [TerminalTickets]); [NodeEvents] is [node-events/hub.ts]; [McpAdmission] is
      [mcp/admission.ts]; [Shutdown] is [graceful-shutdown.ts] with the wiring of
      [server-shutdown.ts].
    - Shared. [Prelude] (this file) has the JavaScript values and errors, insertion-ordered maps,
      stable sorting and comparators, the tactics and hint database [wsmp] and generic list lemmas;
      [Interleave] has programs of atomic statements, their interleavings and the proof methods
      for them ([safe]: an invariant all programs keep; [wp]: one program among others; [rsafe]:
      rely and guarantee); [JsString] has strings as UTF-16 code units, [JsNumber] and [JsRound]
      numbers as IEEE 754 binary64 and the facts about their rounding.

    ** How the code is modelled

    A pure function is a function; a class is a record with one function per method; a function
    that throws answers a [result]; Prisma rows are records, a [where] a boolean predicate, an
    [updateMany] one atomic statement. Transactions that hold the instance's fences are functions
    on the tables; operations of several statements are programs ([Interleave]). Timers, answers of
    the database and callbacks are events of a step relation. Numbers are [Z] where the code keeps
    safe integers (counts, milliseconds, generations, cents and hundredths) and binary64 where it
    computes with fractions (metrics, shares, cuts); maps whose order shows are association
    lists. What is not in the sources is a parameter: string collation ([Collation], with the laws
    of a total order), SHA-256 and random draws, JSON and its schemas, [Date.parse], Node's
    [isIP] and URL parser.

    ** What the theorems show

    - Admission: the optimised planner computes the reference plan; a plan respects the limit and
      the scopes, keeps reserved slots for their owners, wastes no slot, grants each waiter once
      and in order within a class, and is found in bounded time. The scheduler refines its
      specification, starves no class and shares by weight.
    - Leases: while an owner may stream, its lease is unexpired in the database and its row is active
      unless the lease's target, capacity or user was deleted; an owner releases once; a call of acquire
      that returns no lease leaves none behind, and its wait ends after an abort or the deadline.
    - Routing: a half-open trial is exclusive under every interleaving until its owner, its expiry or a
      disconnect of its own node ends it; failures open the breaker; a disconnect and reconnect
      restore it; the SQL predicates are the state functions; the route
      sequence is complete, with or without alternatives that defer a group, and its first
      choices have exactly the weights' shares. A stored verdict is right until it expires and
      follows the rules in force once all edits and passes are done, those of a pass cut short by
      the end of its session excepted; ordering by verdicts never empties the candidates.
    - Warm sessions: protection only reorders candidates; its threshold is the exact integer
      one although it is computed in binary64; every user's protected sessions stay within the
      share; the eviction row's SQL is the pure module's step; the effective budget stays between
      half and all of the reported one and needs two sessions' evidence; resets fence older
      evidence for ever; the write buffer is bounded and paced.
    - Instances: a claim is released exactly by a proof of the run that owns it and never by a stale
      one; runs increase; lifecycle columns agree with the phase; automatic restarts stay within
      their budget; a person is asked exactly while a step waits for one; the launch query agrees
      with the per-rank lookup; a restart lets go of nothing that a launch may still
      hold, a person's release without a proof excepted; a command shown, read by a POSIX shell's
      own rules, is the command that runs.
    - Placement: a placement over-commits no node, stops only what the caller may stop, uses
      distinct eligible nodes and free ports; the replay of existing claims counts their overlap;
      a refusal for memory is right; the matching of reservations is complete.
    - Agent updates: frames go out only under live authority and "Update all" waits for its canary.
    - Spend: exposure exceeds the larger of the cap and what it was when the run began only by what
      settlements raised above reservations; settlement is exact and idempotent; the crash
      sweep settles every attempt expired by its clock when the database's is not behind it.
    - The wire: the event decoder does not depend on chunks and reads back what is written, for events of one line
      per field within the buffer's bound; binary
      frames split exactly; addresses are classified by value and no private one is reached.
    - Lock order: fences exclude, and no deadlock passes through a wait for one.
    - Profiles: a canonical text identifies its value; no sequence of agents' saves, deletes and
      applies releases a person's hold; a successful apply reaches the profile's counts and holds
      on the owned nodes (an agent's releases only its own profile's holds, a verified person's any);
      a person applies what the confirmed preview showed.
    - Shell: background passes never overlap and stop; a socket's handshake happens once; terminal
      tickets are used once; event streams are bounded, private and closed by a sign-out; the MCP
      gate counts its permits; the process exits by its shutdown deadline.

    ** Fuel

    [planGrants] loops at most once per waiter of the window ([planGrants_terminates] proves its
    fuel enough); the breaker's retry loop runs under a fuel its deadline bounds
    ([disconnect_retries_terminate]); the acquire loops wait for the outside and take any fuel,
    with [acquire_wait_ends] giving the turns left once the wait is over. The planner's loop over
    node sets has [MAX_SET_TRIES + 1] rounds ([place_answers] proves them enough), the augmenting
    search the number of nodes; the crash sweep's pages are bounded by its own limit; the event
    decoder drains within the length of its buffer, and [split] within the length of its string.

    ** Not modelled, and why

    The web application (React) and the CLI (Rust); authentication, mail, media and environment
    packages (third-party libraries and I/O); RPC routers, contracts and MCP tools (schemas and
    calls of the rules above); the HTTP handlers and protocol translation of the model API; live
    transcription and the session manager's sockets; token estimation. Of components marked partly
    modelled, the manifest names what is left: the store's admission of a whole capacity, the lifecycle engine's dispatch loop, the warm-session and affinity queries. *)

From Stdlib Require Export ZArith Lia Bool.
From stdpp Require Export base gmap strings list sorting.

#[global] Open Scope Z_scope.
#[global] Set Default Goal Selector "!".

(** ** Errors: a JavaScript call returns a value or throws *)

Inductive js_error :=
| RangeError (message : string)
| TypeError (message : string)
| PlainError (message : string).

Inductive result (A : Type) :=
| Ok (value : A)
| Throw (error : js_error).
Arguments Ok {A} value.
Arguments Throw {A} error.

Definition result_bind {A B} (m : result A) (k : A → result B) : result B :=
  match m with
  | Ok a => k a
  | Throw e => Throw e
  end.

Declare Scope js_scope.
Delimit Scope js_scope with js.
Notation "'let!' x ':=' m 'in' k" := (result_bind m (λ x, k))
  (at level 10, x name, m at level 100, k at level 200) : js_scope.
Notation "'check!' m 'in' k" := (result_bind m (λ _ : unit, k))
  (at level 10, m at level 100, k at level 200) : js_scope.
#[global] Open Scope js_scope.

(** [a || b] on numbers: the left operand unless it is zero. *)
Definition num_or (a b : Z) : Z := if a =? 0 then b else a.

(** [throw_when b e] is the statement [if (b) throw e]. *)
Definition throw_when (b : bool) (e : js_error) : result unit :=
  if b then Throw e else Ok tt.

(** ** Automation *)

Create HintDb wsmp.

Ltac split_ands :=
  repeat match goal with
    | H : _ ∧ _ |- _ => destruct H
    | H : (_ && _)%bool = true |- _ => apply andb_true_iff in H
    | H : (_ || _)%bool = false |- _ => apply orb_false_iff in H
    | H : negb _ = true |- _ => apply negb_true_iff in H
    | H : negb _ = false |- _ => apply negb_false_iff in H
    end.

Ltac bool_to_prop :=
  repeat match goal with
    | H : (_ <? _) = true |- _ => apply Z.ltb_lt in H
    | H : (_ <? _) = false |- _ => apply Z.ltb_ge in H
    | H : (_ <=? _) = true |- _ => apply Z.leb_le in H
    | H : (_ <=? _) = false |- _ => apply Z.leb_gt in H
    | H : (_ =? _) = true |- _ => apply Z.eqb_eq in H
    | H : (_ =? _) = false |- _ => apply Z.eqb_neq in H
    | H : bool_decide _ = true |- _ => apply bool_decide_eq_true in H
    | H : bool_decide _ = false |- _ => apply bool_decide_eq_false in H
    end.

(** Case analysis on the scrutinee of the first [match] or [if] of the goal. *)
Ltac case_goal :=
  match goal with
  | |- context [match ?x with _ => _ end] => destruct x eqn:?
  end.

Ltac crush := split_ands; bool_to_prop; simplify_eq/=; try done; try lia; auto with wsmp.

(** ** Lists *)

Lemma list_snoc_cases {A} (l : list A) : l = [] ∨ ∃ l' x, l = l' ++ [x].
Proof. destruct l as [|x l] using rev_ind; eauto. Qed.

Lemma last_cons {A} (x d : A) (l : list A) : List.last (x :: l) d = List.last l x.
Proof. revert x d. induction l as [|y l IH]; intros x d; [done|]. rewrite (IH y x). exact (IH y d). Qed.

Lemma filter_filter {A} (P Q : A → bool) (l : list A) :
  List.filter P (List.filter Q l) = List.filter (λ x, Q x && P x) l.
Proof.
  induction l as [|x l IH]; simpl; [done|].
  destruct (Q x); simpl; [destruct (P x); by rewrite IH|done].
Qed.

Lemma filter_ext_In {A} (P Q : A → bool) (l : list A) :
  (∀ x, In x l → P x = Q x) → List.filter P l = List.filter Q l.
Proof.
  induction l as [|x l IH]; simpl; [done|]. intros H.
  rewrite (H x) by auto. rewrite IH by auto. done.
Qed.

Lemma find_head_filter {A} (P : A → bool) (l : list A) : List.find P l = head (List.filter P l).
Proof. induction l as [|x l IH]; simpl; [done|]. by destruct (P x). Qed.

Lemma filter_comm {A} (P Q : A → bool) (l : list A) :
  List.filter P (List.filter Q l) = List.filter Q (List.filter P l).
Proof. rewrite !filter_filter. apply filter_ext. intros x. apply andb_comm. Qed.

Lemma omap_ext {A B} (f g : A → option B) (l : list A) : (∀ x, f x = g x) → omap f l = omap g l.
Proof.
  intros H. induction l as [|x l IH]; [done|].
  change (omap f (x :: l)) with (match f x with Some y => y :: omap f l | None => omap f l end).
  change (omap g (x :: l)) with (match g x with Some y => y :: omap g l | None => omap g l end).
  by rewrite H, IH.
Qed.

Lemma map_filter_omap {A B} (f : A → B) (p : A → bool) (l : list A) :
  map f (List.filter p l) = omap (λ a, if p a then Some (f a) else None) l.
Proof. induction l as [|a l IH]; cbn; [done|]. destruct (p a); cbn; by rewrite IH. Qed.

Lemma filter_none {A} (p : A → bool) l : (∀ a, In a l → p a = false) → List.filter p l = [].
Proof.
  induction l as [|a l IH]; intros Hl; cbn; [done|]. rewrite Hl by by left. auto with datatypes.
Qed.

Lemma NoDup_filter_bool {A} (p : A → bool) (l : list A) : NoDup l → NoDup (List.filter p l).
Proof.
  induction l as [|x l IH]; simpl; [done|]. intros [Hx Hnd]%NoDup_cons.
  destruct (p x); [|by apply IH]. constructor; [|by apply IH].
  intros Hin. apply Hx. apply list_elem_of_In, filter_In in Hin as [Hin _]. by apply list_elem_of_In.
Qed.

Lemma filter_split_perm {A} (p : A → bool) (l : list A) :
  List.filter p l ++ List.filter (λ a, negb (p a)) l ≡ₚ l.
Proof.
  induction l as [|a l IH]; cbn; [done|]. destruct (p a); cbn; [by f_equiv|].
  rewrite <- Permutation_middle. by f_equiv.
Qed.

Lemma NoDup_map_inj {A B} (f : A → B) (l : list A) a b :
  NoDup (map f l) → In a l → In b l → f a = f b → a = b.
Proof.
  induction l as [|c l IH]; cbn; [done|]. intros [Hc Hnd]%NoDup_cons [<-|Ha] [<-|Hb] Heq; auto.
  - exfalso. apply Hc. rewrite Heq. by apply list_elem_of_In, in_map.
  - exfalso. apply Hc. rewrite <- Heq. by apply list_elem_of_In, in_map.
Qed.

Lemma NoDup_map_filter {A} (key : A → string) (p : A → bool) (l : list A) :
  NoDup (map key l) → NoDup (map key (List.filter p l)).
Proof.
  induction l as [|x l IH]; cbn; [done|]. intros [Hx Hnd]%NoDup_cons. destruct (p x); [|by apply IH].
  cbn. constructor; [|by apply IH]. intros (y & Hy & [Hin _]%filter_In)%list_elem_of_In%in_map_iff.
  apply Hx. rewrite <- Hy. by apply list_elem_of_In, in_map.
Qed.

(** The row with a key, among rows with distinct keys. *)
Lemma filter_unique {A} (key : A → string) (l : list A) a :
  NoDup (map key l) → In a l → List.filter (λ b, bool_decide (key b = key a)) l = [a].
Proof.
  induction l as [|b l IH]; cbn; [done|]. intros [Hb Hnd]%NoDup_cons [->|Ha].
  - rewrite bool_decide_eq_true_2 by done. f_equal. apply filter_none. intros x Hx.
    apply bool_decide_eq_false_2. intros Heq. apply Hb. rewrite <- Heq. by apply list_elem_of_In, in_map.
  - rewrite bool_decide_eq_false_2; [by apply IH|]. intros Heq. apply Hb. rewrite Heq.
    by apply list_elem_of_In, in_map.
Qed.

(** ** Stable sorting: [Array.prototype.sort] with a comparator

    The standard requires a stable sort; the insertion sort below inserts an element
    before the first one that is not smaller, from the right, so equal elements keep
    their order. [sort_by_filter], [sort_by_sorted] and [sort_by_perm] are what the
    clients use. *)

Section SortBy.
Context {A : Type} (cmp : A → A → Z).

Fixpoint insert_by (x : A) (l : list A) : list A :=
  match l with
  | [] => [x]
  | y :: l' => if cmp x y <=? 0 then x :: l else y :: insert_by x l'
  end.

Fixpoint sort_by (l : list A) : list A :=
  match l with
  | [] => []
  | x :: l' => insert_by x (sort_by l')
  end.

(** What a comparator must satisfy for the sort to be determined. *)
Class Comparator : Prop := {
  cmp_total : ∀ x y, cmp x y ≤ 0 ∨ cmp y x ≤ 0;
  cmp_trans : ∀ x y z, cmp x y ≤ 0 → cmp y z ≤ 0 → cmp x z ≤ 0;
}.

Fixpoint sorted_by (l : list A) : Prop :=
  match l with
  | [] => True
  | x :: l' => (∀ y, In y l' → cmp x y ≤ 0) ∧ sorted_by l'
  end.

Lemma insert_by_perm x l : insert_by x l ≡ₚ x :: l.
Proof.
  induction l as [|y l IH]; simpl; [done|].
  destruct (_ <=? _); [done|]. rewrite IH. apply perm_swap.
Qed.

Lemma sort_by_perm l : sort_by l ≡ₚ l.
Proof.
  induction l as [|x l IH]; simpl; [done|]. by rewrite insert_by_perm, IH.
Qed.

Lemma sort_by_in x l : In x (sort_by l) ↔ In x l.
Proof. split; apply Permutation_in; [|symmetry]; apply sort_by_perm. Qed.

Lemma insert_by_in x y l : In y (insert_by x l) ↔ y = x ∨ In y l.
Proof.
  split.
  - intros Hin. destruct (Permutation_in y (insert_by_perm x l) Hin); auto.
  - intros Hin. apply (Permutation_in y (symmetry (insert_by_perm x l))).
    destruct Hin as [->|]; simpl; auto.
Qed.

Context {Hcmp : Comparator}.

Lemma insert_by_sorted x l : sorted_by l → sorted_by (insert_by x l).
Proof.
  induction l as [|y l IH]; simpl; [intros _; split; [intros ? []|done]|].
  intros [Hy Hl]. destruct (cmp x y <=? 0) eqn:E; bool_to_prop.
  - split; [|by split]. intros z [<-|Hz]; [done|].
    eapply cmp_trans; eauto.
  - split; [|by apply IH]. intros z [->|Hz]%insert_by_in; [|by apply Hy].
    destruct (cmp_total x y); [lia|done].
Qed.

Lemma sort_by_sorted l : sorted_by (sort_by l).
Proof. induction l; simpl; [done|]. by apply insert_by_sorted. Qed.

Lemma insert_by_head x l : (∀ y, In y l → cmp x y ≤ 0) → insert_by x l = x :: l.
Proof.
  destruct l as [|y l]; [done|]. intros Hx. simpl.
  destruct (Z.leb_spec (cmp x y) 0) as [|Hgt]; [done|].
  specialize (Hx y (or_introl eq_refl)). lia.
Qed.

Lemma sort_by_id l : sorted_by l → sort_by l = l.
Proof.
  induction l as [|x l IH]; simpl; [done|].
  intros [Hx Hl]. rewrite IH by done. by apply insert_by_head.
Qed.

Lemma sorted_by_filter (p : A → bool) l : sorted_by l → sorted_by (List.filter p l).
Proof.
  induction l as [|x l IH]; simpl; [done|]. intros [Hx Hl].
  destruct (p x); [|by apply IH]. split; [|by apply IH].
  intros y Hy. apply Hx. by apply filter_In in Hy as [? _].
Qed.

Lemma insert_by_filter_in (p : A → bool) x l :
  sorted_by l → p x = true →
  List.filter p (insert_by x l) = insert_by x (List.filter p l).
Proof.
  intros Hs Hx. induction l as [|y l IH]; simpl; [by rewrite Hx|].
  destruct Hs as [Hy Hs]. destruct (cmp x y <=? 0) eqn:E; bool_to_prop; simpl.
  - rewrite Hx. destruct (p y) eqn:Hpy.
    + simpl. apply Z.leb_le in E. by rewrite E.
    + rewrite insert_by_head; [done|]. intros z [Hz _]%filter_In.
      eapply cmp_trans; eauto.
  - destruct (p y) eqn:Hpy; [|by apply IH].
    simpl. apply Z.leb_gt in E. rewrite E. f_equal. by apply IH.
Qed.

Lemma insert_by_filter_out (p : A → bool) x l :
  p x = false → List.filter p (insert_by x l) = List.filter p l.
Proof.
  intros Hx. induction l as [|y l IH]; simpl; [by rewrite Hx|].
  destruct (_ <=? _); simpl; [by rewrite Hx|].
  destruct (p y); congruence.
Qed.

(** Filtering before or after a stable sort is the same. *)
Lemma sort_by_filter (p : A → bool) l :
  sort_by (List.filter p l) = List.filter p (sort_by l).
Proof.
  induction l as [|x l IH]; simpl; [done|].
  destruct (p x) eqn:Hx; simpl.
  - rewrite IH, insert_by_filter_in; auto using sort_by_sorted.
  - by rewrite IH, insert_by_filter_out.
Qed.
End SortBy.
Arguments Comparator {A} cmp.

(** A sort commutes with a map that carries one order to the other. *)
Lemma sort_by_map {A B} (cmp : A → A → Z) (ord : B → B → Z) (f : A → B) l :
  (∀ a b, In a l → In b l → ord (f a) (f b) = cmp a b) →
  sort_by ord (map f l) = map f (sort_by cmp l).
Proof.
  assert (Hins : ∀ x l, (∀ b, In b l → ord (f x) (f b) = cmp x b) →
    insert_by ord (f x) (map f l) = map f (insert_by cmp x l)).
  { intros x. induction l0 as [|y l0 IH]; intros Hx; simpl; [done|].
    rewrite Hx by by left. destruct (_ <=? 0); simpl; [done|]. f_equal. apply IH. auto with datatypes. }
  induction l as [|x l IH]; intros Hl; simpl; [done|].
  rewrite IH by auto with datatypes. apply Hins. intros b Hb. apply Hl; [by left|right].
  by apply (sort_by_in cmp).
Qed.

(** ** Comparator algebra

    A comparator that is sign-antisymmetric and transitive; lexicographic composition
    with [num_or] is how the code chains comparators ([a || b || c]). *)

Class CmpOrder {A : Type} (cmp : A → A → Z) : Prop := {
  cmp_antisym : ∀ x y, Z.sgn (cmp y x) = - Z.sgn (cmp x y);
  cmp_le_trans : ∀ x y z, cmp x y ≤ 0 → cmp y z ≤ 0 → cmp x z ≤ 0;
}.

Section CmpOrder.
Context {A : Type}.

Lemma cmp_order_flip (c : A → A → Z) `{!CmpOrder c} x y :
  (c x y < 0 ↔ 0 < c y x) ∧ (c x y = 0 ↔ c y x = 0).
Proof. pose proof (cmp_antisym x y). lia. Qed.

Lemma cmp_lt_le_trans (c : A → A → Z) `{!CmpOrder c} x y z :
  c x y < 0 → c y z ≤ 0 → c x z < 0.
Proof.
  intros H1 H2. destruct (Z.ltb_spec (c x z) 0); [done|].
  pose proof (cmp_order_flip c x z). pose proof (cmp_order_flip c x y).
  assert (c y x ≤ 0) by (apply (cmp_le_trans y z x); lia). lia.
Qed.

Lemma cmp_le_lt_trans (c : A → A → Z) `{!CmpOrder c} x y z :
  c x y ≤ 0 → c y z < 0 → c x z < 0.
Proof.
  intros H1 H2. destruct (Z.ltb_spec (c x z) 0); [done|].
  pose proof (cmp_order_flip c x z). pose proof (cmp_order_flip c y z).
  assert (c z y ≤ 0) by (apply (cmp_le_trans z x y); lia). lia.
Qed.

#[export] Instance cmp_order_comparator (c : A → A → Z) : CmpOrder c → Comparator c.
Proof.
  intros Hc. split; [|apply cmp_le_trans]. intros x y.
  pose proof (cmp_antisym x y). lia.
Qed.

#[export] Instance cmp_order_lex (c1 c2 : A → A → Z) :
  CmpOrder c1 → CmpOrder c2 → CmpOrder (λ x y, num_or (c1 x y) (c2 x y)).
Proof.
  intros H1 H2. split; unfold num_or.
  - intros x y. pose proof (cmp_antisym (cmp:=c1) x y). pose proof (cmp_antisym (cmp:=c2) x y).
    destruct (Z.eqb_spec (c1 x y) 0), (Z.eqb_spec (c1 y x) 0); lia.
  - intros x y z.
    pose proof (cmp_le_trans (cmp:=c1) x y z). pose proof (cmp_le_trans (cmp:=c2) x y z).
    pose proof (cmp_lt_le_trans c1 x y z). pose proof (cmp_le_lt_trans c1 x y z).
    destruct (Z.eqb_spec (c1 x y) 0), (Z.eqb_spec (c1 y z) 0), (Z.eqb_spec (c1 x z) 0); lia.
Qed.

#[export] Instance cmp_order_contramap {B : Type} (f : A → B) (c : B → B → Z) :
  CmpOrder c → CmpOrder (λ x y, c (f x) (f y)).
Proof. intros H1. split; intros; [apply cmp_antisym|eapply cmp_le_trans; eauto]. Qed.
End CmpOrder.

#[export] Instance cmp_order_sub : CmpOrder Z.sub.
Proof. split; intros; lia. Qed.

(** [a !== b ? (a < b ? -1 : 1) : 0] on big integers. *)
Definition bigint_compare (a b : Z) : Z :=
  if negb (a =? b) then (if a <? b then -1 else 1) else 0.

#[export] Instance cmp_order_bigint : CmpOrder bigint_compare.
Proof.
  split; unfold bigint_compare; intros;
    repeat match goal with
      | |- context [?a =? ?b] => destruct (Z.eqb_spec a b)
      | |- context [?a <? ?b] => destruct (Z.ltb_spec a b)
      | H : context [?a =? ?b] |- _ => destruct (Z.eqb_spec a b)
      | H : context [?a <? ?b] |- _ => destruct (Z.ltb_spec a b)
      end; simpl in *; lia.
Qed.

(** ** String collation

    [String.prototype.localeCompare] is implementation-defined: the standard requires a
    consistent total order on strings in which canonically equivalent strings may compare
    equal. The components take it as an interface; [code_unit_collation] is an
    implementation of it. *)

Class Collation := localeCompare : string → string → Z.
Class CollationLaws (C : Collation) : Prop :=
  collation_order :: CmpOrder (@localeCompare C).

Fixpoint code_units (s : string) : list Z :=
  match s with
  | EmptyString => []
  | String c s' => Z.of_nat (Ascii.nat_of_ascii c) :: code_units s'
  end.

Fixpoint code_units_compare (a b : list Z) : Z :=
  match a, b with
  | [], [] => 0
  | [], _ => -1
  | _, [] => 1
  | x :: a', y :: b' => num_or (bigint_compare x y) (code_units_compare a' b')
  end.

#[export] Instance cmp_order_code_units : CmpOrder code_units_compare.
Proof.
  split.
  - intros x. induction x as [|a x IH]; intros [|b y]; simpl; try done.
    specialize (IH y). unfold num_or. pose proof (cmp_antisym (cmp:=bigint_compare) a b).
    destruct (Z.eqb_spec (bigint_compare b a) 0), (Z.eqb_spec (bigint_compare a b) 0); lia.
  - intros x. induction x as [|a x IH]; intros [|b y] [|c z]; simpl; try lia.
    specialize (IH y z). unfold num_or.
    pose proof (cmp_le_trans (cmp:=bigint_compare) a b c).
    pose proof (cmp_lt_le_trans bigint_compare a b c).
    pose proof (cmp_le_lt_trans bigint_compare a b c).
    destruct (Z.eqb_spec (bigint_compare a b) 0), (Z.eqb_spec (bigint_compare b c) 0),
      (Z.eqb_spec (bigint_compare a c) 0); lia.
Qed.

Definition code_unit_collation : Collation :=
  λ a b, code_units_compare (code_units a) (code_units b).

#[export] Instance code_unit_collation_laws : CollationLaws code_unit_collation.
Proof. exact (cmp_order_contramap code_units code_units_compare _). Qed.

(** ** Insertion-ordered maps: the JavaScript [Map]

    [set] on a present key keeps its position, on a new key appends; iteration
    follows the list. Well-formed maps have no duplicate key. *)

Definition jsmap (K V : Type) := list (K * V).

Section JsMap.
Context {K : Type} `{!EqDecision K} {V : Type}.
Implicit Types m : list (K * V).

Fixpoint map_get (k : K) (m : list (K * V)) : option V :=
  match m with
  | [] => None
  | (k', v) :: m' => if decide (k' = k) then Some v else map_get k m'
  end.

Fixpoint map_set (k : K) (v : V) (m : list (K * V)) : list (K * V) :=
  match m with
  | [] => [(k, v)]
  | (k', v') :: m' =>
      if decide (k' = k) then (k, v) :: m' else (k', v') :: map_set k v m'
  end.

Fixpoint map_delete (k : K) (m : list (K * V)) : list (K * V) :=
  match m with
  | [] => []
  | (k', v') :: m' => if decide (k' = k) then map_delete k m' else (k', v') :: map_delete k m'
  end.

Definition map_has (k : K) m : bool := bool_decide (is_Some (map_get k m)).
Definition map_keys m : list K := m.*1.

Lemma map_get_set_eq k v m : map_get k (map_set k v m) = Some v.
Proof.
  induction m as [|[k' v'] m IH]; simpl; [by rewrite decide_True|].
  case_decide; simpl; [by rewrite decide_True|]. by rewrite decide_False.
Qed.

Lemma map_get_set_ne k k' v m : k ≠ k' → map_get k' (map_set k v m) = map_get k' m.
Proof.
  intros Hne. induction m as [|[k0 v0] m IH]; simpl; [by rewrite decide_False|].
  case_decide; simpl; subst; [by rewrite !decide_False|]. by rewrite IH.
Qed.

Lemma map_get_set k k' v m :
  map_get k' (map_set k v m) = if decide (k = k') then Some v else map_get k' m.
Proof.
  case_decide; subst; [apply map_get_set_eq|by apply map_get_set_ne].
Qed.

Lemma map_get_delete k k' m :
  map_get k' (map_delete k m) = if decide (k = k') then None else map_get k' m.
Proof.
  induction m as [|[k0 v0] m IH]; simpl; [by case_decide|].
  destruct (decide (k0 = k)) as [->|Hk0]; simpl.
  - rewrite IH. by case_decide.
  - destruct (decide (k0 = k')) as [->|]; [|done].
    by rewrite decide_False.
Qed.

Lemma map_get_In k v m : map_get k m = Some v → In (k, v) m.
Proof.
  induction m as [|[k' v'] m IH]; simpl; [done|].
  case_decide; [intros [= ->]; subst; auto|auto].
Qed.

Lemma map_get_keys k m : is_Some (map_get k m) ↔ k ∈ map_keys m.
Proof.
  unfold map_keys. induction m as [|[k' v'] m IH]; simpl.
  - rewrite elem_of_nil. split; [by intros [? ?]|done].
  - rewrite elem_of_cons, <- IH. case_decide; subst.
    + split; [auto|eauto].
    + split; [auto|intros [?|?]; [congruence|done]].
Qed.

Lemma map_get_NoDup k v m :
  NoDup (map_keys m) → In (k, v) m → map_get k m = Some v.
Proof.
  unfold map_keys. induction m as [|[k' v'] m IH]; simpl; [done|].
  intros [Hk' Hnd]%NoDup_cons [[= -> ->]|Hin]; [by rewrite decide_True|].
  rewrite decide_False; [by apply IH|]. intros ->. apply Hk'.
  apply list_elem_of_In, in_map_iff. by exists (k, v).
Qed.

Lemma elem_of_map_keys_set k k' v m :
  k' ∈ map_keys (map_set k v m) ↔ k' = k ∨ k' ∈ map_keys m.
Proof.
  rewrite <- !map_get_keys, map_get_set. case_decide as Hk; [subst; split; eauto|].
  split; [auto|]. by intros [?|?]; [congruence|].
Qed.

Lemma map_set_NoDup k v m : NoDup (map_keys m) → NoDup (map_keys (map_set k v m)).
Proof.
  unfold map_keys. induction m as [|[k' v'] m IH]; simpl; [intros _; apply NoDup_singleton|].
  intros [Hk' Hnd]%NoDup_cons. destruct (decide (k' = k)) as [->|Hne]; simpl; [by constructor|].
  constructor; [|by apply IH].
  by intros [?|?]%(elem_of_map_keys_set k k' v m).
Qed.

Lemma map_keys_delete k m : map_keys (map_delete k m) = List.filter (λ k', negb (bool_decide (k' = k))) (map_keys m).
Proof.
  unfold map_keys. induction m as [|[k' v'] m IH]; simpl; [done|].
  destruct (decide (k' = k)).
  - by rewrite bool_decide_true.
  - rewrite bool_decide_false by done. simpl. by f_equal.
Qed.
End JsMap.
