(* ===== verification/Scheduler.v ===== *)
(** * Priority classes and the weighted deficit round robin scheduler

    [src/apps/server/src/model-api/capacity/scheduler.ts] and the priority classes of
    [capacity/types.ts]. The definitions follow the source; [pick_class] is the abstract
    specification (classes only, no queues) the scheduler is proved to refine, on which
    the fairness theorems are stated. *)

From S2P Require Import Prelude.

(** ** Priority classes ([capacity/types.ts]) *)

Inductive PriorityClass := BACKGROUND | NORMAL | HIGH.

#[export] Instance PriorityClass_eq_dec : EqDecision PriorityClass.
Proof. solve_decision. Defined.

Definition PRIORITY_CLASSES : list PriorityClass := [BACKGROUND; NORMAL; HIGH].
Definition PRIORITY_CLASS_COUNT : Z := 3.
Definition NORMAL_PRIORITY_RANK : Z := 1.

(** [indexOf]: the first index, or -1. *)
Fixpoint index_of (c : PriorityClass) (l : list PriorityClass) : Z :=
  match l with
  | [] => -1
  | x :: l' =>
      if bool_decide (x = c) then 0
      else let i := index_of c l' in if i =? -1 then -1 else i + 1
  end.

Definition priorityClassRank (c : PriorityClass) : Z := index_of c PRIORITY_CLASSES.

Definition assertPriority (priority : Z) : result Z :=
  if (priority <? 0) || (PRIORITY_CLASS_COUNT <=? priority)
  then Throw (RangeError "Admission priority must be a class rank from 0 through 2.")
  else Ok priority.

(** ** Data ([capacity/scheduler.ts]) *)

Definition SCHEDULER_VERSION : Z := 2.
Definition PRIORITY_CLASS_QUANTA : list Z := [1; 4; 16].
Definition defaultPriorityQuanta : list Z := PRIORITY_CLASS_QUANTA.

Record SchedulerCandidate := mkCandidate {
  c_admissionRequestId : string;
  c_waiterId : string;
  c_candidateOrder : Z;
  c_priority : Z;
  c_enqueueSequence : Z;
  c_eligible : bool;
}.

#[export] Instance SchedulerCandidate_eq_dec : EqDecision SchedulerCandidate.
Proof. solve_decision. Defined.

Record SchedulerState := mkSchedulerState {
  cursor : Z;
  deficits : list Z;
  version : Z;
}.

Record SchedulerDecision := mkDecision {
  winner : option SchedulerCandidate;
  next_state : SchedulerState;
}.

(** The legacy single-candidate predicate: physical and member limits, then reserved slots. *)
Definition capacityCandidateEligible (physicalLimit : option Z) (physicalActive : Z)
    (memberLimit : option Z) (memberActive reservedSlots : Z)
    (reservationOwnerWaiting borrowing : bool) : bool :=
  if match physicalLimit with Some l => l <=? physicalActive | None => false end then false
  else if match memberLimit with Some l => l <=? memberActive | None => false end then false
  else if reservationOwnerWaiting && borrowing then false
  else if match physicalLimit with
          | Some l => (0 <? reservedSlots) && negb borrowing
                      && (Z.max 0 (l - reservedSlots) <=? physicalActive)
          | None => false
          end then false
  else true.

Section WithCollation.
Context `{C : Collation}.

(** FIFO by enqueue sequence, then request id, candidate order and waiter id. *)
Definition compareSchedulerCandidates (a b : SchedulerCandidate) : Z :=
  if negb (c_enqueueSequence a =? c_enqueueSequence b)
  then (if c_enqueueSequence a <? c_enqueueSequence b then -1 else 1)
  else num_or (localeCompare (c_admissionRequestId a) (c_admissionRequestId b))
         (num_or (c_candidateOrder a - c_candidateOrder b)
            (localeCompare (c_waiterId a) (c_waiterId b))).

Definition validateScheduler (state : SchedulerState) (quanta : list Z) : result unit :=
  check! throw_when ((cursor state <? 0) || (PRIORITY_CLASS_COUNT <=? cursor state))
      (RangeError "Scheduler cursor is invalid.") in
  check! throw_when (negb (Z.of_nat (length (deficits state)) =? PRIORITY_CLASS_COUNT)
                     || negb (Z.of_nat (length quanta) =? PRIORITY_CLASS_COUNT))
      (RangeError "Scheduler arrays must contain 3 priority classes.") in
  throw_when (existsb (λ quantum, quantum <=? 0) quanta)
    (RangeError "Every scheduler quantum must be a positive integer.").

(** The loop that files eligible candidates under their class. *)
Fixpoint fileCandidates (candidates : list SchedulerCandidate)
    (queues : jsmap Z (list SchedulerCandidate)) : result (jsmap Z (list SchedulerCandidate)) :=
  match candidates with
  | [] => Ok queues
  | candidate :: rest =>
      let! priority := assertPriority (c_priority candidate) in
      if negb (c_eligible candidate) then fileCandidates rest queues
      else fileCandidates rest
             (map_set priority (default [] (map_get priority queues) ++ [candidate]) queues)
  end.

Definition sortQueues (queues : jsmap Z (list SchedulerCandidate)) :
    jsmap Z (list SchedulerCandidate) :=
  map (λ '(p, queue), (p, sort_by compareSchedulerCandidates queue)) queues.

(** [deficits[priority] = 0] for every class without a queue. *)
Definition resetIdle (has : Z → bool) (ds : list Z) : list Z :=
  imap (λ i d, if has (Z.of_nat i) then d else 0) ds.

Definition deficit (ds : list Z) (priority : Z) : Z := default 0 (ds !! Z.to_nat priority).
Definition setDeficit (ds : list Z) (priority v : Z) : list Z := <[Z.to_nat priority := v]> ds.

(** The visit loop: [visited] counts up to the class count; [fuel] is what is left. *)
Fixpoint visitClasses (queues : jsmap Z (list SchedulerCandidate)) (quanta : list Z)
    (start : Z) (fuel : nat) (visited : Z) (ds : list Z) : SchedulerDecision :=
  match fuel with
  | O => mkDecision None (mkSchedulerState start ds SCHEDULER_VERSION)
  | S fuel =>
      let priority := (start + visited) mod PRIORITY_CLASS_COUNT in
      match map_get priority queues with
      | Some (first :: _) =>
          let ds := if deficit ds priority <? 1
                    then setDeficit ds priority (deficit quanta priority) else ds in
          if deficit ds priority <? 1
          then visitClasses queues quanta start fuel (visited + 1) ds
          else
            let ds := setDeficit ds priority (deficit ds priority - 1) in
            mkDecision (Some first)
              (mkSchedulerState
                 (if 1 <=? deficit ds priority then priority
                  else (priority + 1) mod PRIORITY_CLASS_COUNT)
                 ds SCHEDULER_VERSION)
      | _ => visitClasses queues quanta start fuel (visited + 1) ds
      end
  end.

Definition scheduleWeightedDeficitRoundRobin (candidates : list SchedulerCandidate)
    (state : SchedulerState) (quanta : list Z) : result SchedulerDecision :=
  check! validateScheduler state quanta in
  let! queues := fileCandidates candidates [] in
  let queues := sortQueues queues in
  let ds := resetIdle (λ p, map_has p queues) (deficits state) in
  Ok (visitClasses queues quanta (cursor state) (Z.to_nat PRIORITY_CLASS_COUNT) 0 ds).

(** ** Abstract specification: which class is served

    [has p] says class [p] has an eligible candidate. *)

Definition next_class (p : Z) : Z := (p + 1) mod 3.

(** The deficit of class [p] after its refill. *)
Definition refilled (ds quanta : list Z) (p : Z) : Z :=
  if deficit ds p <? 1 then deficit quanta p else deficit ds p.

Definition first_class (has : Z → bool) (start : Z) : option Z :=
  let p0 := start in let p1 := next_class p0 in let p2 := next_class p1 in
  if has p0 then Some p0 else if has p1 then Some p1 else if has p2 then Some p2 else None.

Definition pick_class (has : Z → bool) (quanta : list Z) (st : SchedulerState) :
    option Z * SchedulerState :=
  let ds := resetIdle has (deficits st) in
  match first_class has (cursor st) with
  | None => (None, mkSchedulerState (cursor st) ds SCHEDULER_VERSION)
  | Some p =>
      let d := refilled ds quanta p - 1 in
      (Some p, mkSchedulerState (if 1 <=? d then p else next_class p) (setDeficit ds p d)
                 SCHEDULER_VERSION)
  end.

(** The queue of class [p] and whether it has anyone. *)
Definition in_class (p : Z) (c : SchedulerCandidate) : bool :=
  c_eligible c && (c_priority c =? p).
Definition class_queue (p : Z) (cs : list SchedulerCandidate) : list SchedulerCandidate :=
  sort_by compareSchedulerCandidates (List.filter (in_class p) cs).
Definition class_waiting (cs : list SchedulerCandidate) (p : Z) : bool :=
  existsb (in_class p) cs.

(** Well-formed inputs: what [validateScheduler] and [assertPriority] accept. *)
Definition priority_ok (p : Z) : Prop := 0 ≤ p < 3.
Definition quanta_ok (quanta : list Z) : Prop :=
  length quanta = 3%nat ∧ ∀ q, q ∈ quanta → 0 < q.
Definition state_ok (st : SchedulerState) : Prop :=
  priority_ok (cursor st) ∧ length (deficits st) = 3%nat.
Definition candidates_ok (cs : list SchedulerCandidate) : Prop :=
  ∀ c, In c cs → priority_ok (c_priority c).
End WithCollation.

(** ** The comparator is a total preorder *)

#[export] Instance compare_candidates_order `{C : Collation} `{!CollationLaws C} :
  CmpOrder compareSchedulerCandidates.
Proof.
  pose proof (cmp_order_lex
    (λ a b, bigint_compare (c_enqueueSequence a) (c_enqueueSequence b))
    (λ a b, num_or (localeCompare (c_admissionRequestId a) (c_admissionRequestId b))
         (num_or (c_candidateOrder a - c_candidateOrder b)
            (localeCompare (c_waiterId a) (c_waiterId b)))) _ _) as [Hanti Htrans].
  assert (Heq : ∀ a b, compareSchedulerCandidates a b =
    num_or (bigint_compare (c_enqueueSequence a) (c_enqueueSequence b))
      (num_or (localeCompare (c_admissionRequestId a) (c_admissionRequestId b))
         (num_or (c_candidateOrder a - c_candidateOrder b)
            (localeCompare (c_waiterId a) (c_waiterId b))))).
  { intros a b. unfold compareSchedulerCandidates, bigint_compare.
    destruct (_ =? _); [done|]. simpl. by destruct (_ <? _). }
  split.
  - intros x y. rewrite !Heq. apply Hanti.
  - intros x y z. rewrite !Heq. apply Htrans.
Qed.

(** ** Filing and sorting the queues *)

Section Lemmas.
Context `{C : Collation}.

Definition queue_opt (l : list SchedulerCandidate) : option (list SchedulerCandidate) :=
  match l with [] => None | _ => Some l end.

Lemma assertPriority_ok p : priority_ok p → assertPriority p = Ok p.
Proof.
  unfold priority_ok, assertPriority, PRIORITY_CLASS_COUNT. intros H.
  destruct (Z.ltb_spec p 0), (Z.leb_spec 3 p); try lia; done.
Qed.

Lemma default_queue_opt l : default [] (queue_opt l) = l.
Proof. by destruct l. Qed.

Lemma queue_opt_snoc l c : queue_opt (l ++ [c]) = Some (l ++ [c]).
Proof. by destruct l. Qed.

Lemma fileCandidates_spec cs queues (Q : Z → list SchedulerCandidate) :
  candidates_ok cs → (∀ p, map_get p queues = queue_opt (Q p)) →
  ∃ qs, fileCandidates cs queues = Ok qs ∧
    ∀ p, map_get p qs = queue_opt (Q p ++ List.filter (in_class p) cs).
Proof.
  revert queues Q. induction cs as [|c cs IH]; simpl; intros queues Q Hok HQ.
  { exists queues. split; [done|]. intros p. by rewrite app_nil_r. }
  assert (candidates_ok cs) by (intros c' ?; apply Hok; by right).
  rewrite assertPriority_ok by (apply Hok; by left). simpl.
  assert (Hc : ∀ p, in_class p c = c_eligible c && (c_priority c =? p)) by done.
  destruct (c_eligible c) eqn:He; simpl.
  2: { destruct (IH queues Q) as (qs & Hqs & Hget); [done..|].
       exists qs. split; [done|]. intros p. by rewrite Hc. }
  destruct (IH (map_set (c_priority c)
      (default [] (map_get (c_priority c) queues) ++ [c]) queues)
      (λ p, if c_priority c =? p then Q p ++ [c] else Q p)) as (qs & Hqs & Hget); [done| |].
  { intros p. rewrite map_get_set, HQ, default_queue_opt.
    destruct (Z.eqb_spec (c_priority c) p) as [->|Hne].
    - by rewrite decide_True, queue_opt_snoc.
    - by rewrite decide_False, HQ. }
  exists qs. split; [done|]. intros p. rewrite Hget, Hc. simpl.
  destruct (c_priority c =? p); [|done]. by rewrite <- app_assoc.
Qed.

Lemma map_get_sortQueues p qs :
  map_get p (sortQueues qs) = sort_by compareSchedulerCandidates <$> map_get p qs.
Proof.
  unfold sortQueues. induction qs as [|[p' q] qs IH]; simpl; [done|].
  by case_decide.
Qed.

Lemma sort_queue_opt l :
  sort_by compareSchedulerCandidates <$> queue_opt l
  = queue_opt (sort_by compareSchedulerCandidates l).
Proof.
  destruct l as [|c l]; simpl; [done|].
  destruct (insert_by _ _ _) eqn:E; [|done].
  assert (In c []) as [].
  { rewrite <- E. apply insert_by_in. by left. }
Qed.

Lemma sort_by_nil_iff (l : list SchedulerCandidate) :
  sort_by compareSchedulerCandidates l = [] ↔ l = [].
Proof.
  pose proof (sort_by_perm compareSchedulerCandidates l) as Hp.
  split; intros E; [|by rewrite E]. rewrite E in Hp. by apply Permutation_nil in Hp.
Qed.

Lemma class_waiting_queue cs p : class_waiting cs p = negb (bool_decide (class_queue p cs = [])).
Proof.
  unfold class_waiting, class_queue. destruct (existsb _ _) eqn:E.
  - rewrite bool_decide_false; [done|]. rewrite sort_by_nil_iff. intros Hn.
    apply existsb_exists in E as (c & Hin & Hc).
    assert (Hf : In c (List.filter (in_class p) cs)) by (by apply filter_In).
    by rewrite Hn in Hf.
  - rewrite bool_decide_true; [done|]. rewrite sort_by_nil_iff.
    destruct (List.filter _ _) as [|c l] eqn:Hf; [done|]. exfalso.
    assert (Hin : In c (List.filter (in_class p) cs)) by (rewrite Hf; by left).
    apply filter_In in Hin as [? ?].
    assert (existsb (in_class p) cs = true) by (apply existsb_exists; eauto). congruence.
Qed.

Lemma class_queue_head cs p c rest :
  class_queue p cs = c :: rest → In c cs ∧ c_eligible c = true ∧ c_priority c = p.
Proof.
  intros Hq. assert (Hin : In c (class_queue p cs)) by (rewrite Hq; by left).
  unfold class_queue in Hin. apply sort_by_in, filter_In in Hin as [Hin Hc].
  unfold in_class in Hc. crush.
Qed.

Lemma deficit_setDeficit_eq ds p v :
  priority_ok p → length ds = 3%nat → deficit (setDeficit ds p v) p = v.
Proof.
  unfold priority_ok, deficit, setDeficit. intros Hp Hl.
  rewrite list_lookup_insert_eq by lia. done.
Qed.

Lemma setDeficit_setDeficit ds p v w :
  setDeficit (setDeficit ds p v) p w = setDeficit ds p w.
Proof. unfold setDeficit. apply list_insert_insert_eq. Qed.

Lemma length_setDeficit ds p v : length (setDeficit ds p v) = length ds.
Proof. apply length_insert. Qed.

Lemma length_resetIdle has ds : length (resetIdle has ds) = length ds.
Proof. apply length_imap. Qed.

Lemma deficit_quanta quanta p : quanta_ok quanta → priority_ok p → 0 < deficit quanta p.
Proof.
  intros [Hl Hq] Hp. unfold deficit, priority_ok in *.
  destruct (lookup_lt_is_Some_2 quanta (Z.to_nat p)) as [q Hqp]; [lia|].
  rewrite Hqp. simpl. apply Hq. by eapply list_elem_of_lookup_2.
Qed.

Lemma next_class_ok p : priority_ok p → priority_ok (next_class p).
Proof. unfold priority_ok, next_class. intros _. apply Z.mod_pos_bound. lia. Qed.

Lemma visit_one queues quanta start fuel visited ds p first rest :
  quanta_ok quanta → length ds = 3%nat →
  (start + visited) mod 3 = p → priority_ok p → map_get p queues = Some (first :: rest) →
  visitClasses queues quanta start (S fuel) visited ds
  = let d := refilled ds quanta p - 1 in
    mkDecision (Some first)
      (mkSchedulerState (if 1 <=? d then p else next_class p) (setDeficit ds p d)
         SCHEDULER_VERSION).
Proof.
  intros Hq Hl Hp Hpok Hget. simpl. unfold PRIORITY_CLASS_COUNT.
  rewrite Hp, Hget. unfold refilled. pose proof (deficit_quanta quanta p Hq Hpok).
  destruct (Z.ltb_spec (deficit ds p) 1) as [Hlt|Hge].
  - rewrite deficit_setDeficit_eq by done.
    destruct (Z.ltb_spec (deficit quanta p) 1); [lia|].
    rewrite setDeficit_setDeficit, deficit_setDeficit_eq by done. done.
  - destruct (Z.ltb_spec (deficit ds p) 1); [lia|].
    by rewrite deficit_setDeficit_eq.
Qed.

Lemma visit_skip queues quanta start fuel visited ds p :
  (start + visited) mod 3 = p → map_get p queues = None →
  visitClasses queues quanta start (S fuel) visited ds
  = visitClasses queues quanta start fuel (visited + 1) ds.
Proof. intros Hp Hget. simpl. unfold PRIORITY_CLASS_COUNT. by rewrite Hp, Hget. Qed.

Lemma validate_ok st quanta : state_ok st → quanta_ok quanta → validateScheduler st quanta = Ok tt.
Proof.
  intros [Hc Hl] [Hq Hpos]. unfold validateScheduler, throw_when, PRIORITY_CLASS_COUNT, priority_ok in *.
  rewrite Hl, Hq. destruct (Z.ltb_spec (cursor st) 0), (Z.leb_spec 3 (cursor st)); try lia. simpl.
  destruct (existsb _ _) eqn:E; [|done].
  apply existsb_exists in E as (q & Hin & Hle). bool_to_prop.
  apply list_elem_of_In in Hin. specialize (Hpos q Hin). lia.
Qed.
End Lemmas.

Section Refinement.
Context `{C : Collation}.
Implicit Types (cs : list SchedulerCandidate) (st : SchedulerState) (quanta : list Z).

Lemma resetIdle_ext has has' ds : (∀ p, has p = has' p) → resetIdle has ds = resetIdle has' ds.
Proof. intros H. unfold resetIdle. apply imap_ext. intros i d _. by rewrite H. Qed.

Lemma visit_spec queues quanta start ds (has : Z → bool) :
  priority_ok start → quanta_ok quanta → length ds = 3%nat →
  (∀ p, has p = false → map_get p queues = None) →
  (∀ p, has p = true → ∃ c rest, map_get p queues = Some (c :: rest)) →
  visitClasses queues quanta start 3 0 ds
  = match first_class has start with
    | None => mkDecision None (mkSchedulerState start ds SCHEDULER_VERSION)
    | Some p =>
        let d := refilled ds quanta p - 1 in
        mkDecision (map_get p queues ≫= head)
          (mkSchedulerState (if 1 <=? d then p else next_class p) (setDeficit ds p d)
             SCHEDULER_VERSION)
    end.
Proof.
  intros Hs Hq Hl Hno Hyes. unfold first_class.
  set (p1 := next_class start). set (p2 := next_class p1).
  assert (H0 : (start + 0) mod 3 = start) by (rewrite Z.add_0_r; apply Z.mod_small; apply Hs).
  assert (H1 : (start + 1) mod 3 = p1) by done.
  assert (H2 : (start + 2) mod 3 = p2).
  { unfold p2, p1, next_class. rewrite Z.add_mod_idemp_l by lia. f_equal. lia. }
  assert (Hp1 : priority_ok p1) by (by apply next_class_ok).
  assert (Hp2 : priority_ok p2) by (by apply next_class_ok).
  destruct (has start) eqn:E0.
  { destruct (Hyes _ E0) as (c & rest & Hg).
    rewrite (visit_one _ _ _ _ _ _ start c rest) by done. by rewrite Hg. }
  rewrite (visit_skip _ _ _ _ _ _ start) by auto.
  destruct (has p1) eqn:E1.
  { destruct (Hyes _ E1) as (c & rest & Hg).
    rewrite (visit_one _ _ _ _ _ _ p1 c rest) by done. by rewrite Hg. }
  rewrite (visit_skip _ _ _ _ _ _ p1) by auto.
  destruct (has p2) eqn:E2.
  { destruct (Hyes _ E2) as (c & rest & Hg).
    rewrite (visit_one _ _ _ _ _ _ p2 c rest) by done. by rewrite Hg. }
  by rewrite (visit_skip _ _ _ _ _ _ p2) by auto.
Qed.

(** The scheduler serves the class [pick_class] names, with the head of that class's queue. *)
Lemma schedule_spec cs st quanta :
  state_ok st → quanta_ok quanta → candidates_ok cs →
  scheduleWeightedDeficitRoundRobin cs st quanta
  = let '(p, st') := pick_class (class_waiting cs) quanta st in
    Ok (mkDecision (p ≫= λ p, head (class_queue p cs)) st').
Proof.
  intros Hst Hq Hcs. unfold scheduleWeightedDeficitRoundRobin.
  rewrite validate_ok by done. cbn [result_bind].
  destruct (fileCandidates_spec cs [] (λ _, [])) as (qs & -> & Hget); [done..|].
  cbn [result_bind]. change (Z.to_nat PRIORITY_CLASS_COUNT) with 3%nat.
  assert (Hg : ∀ p, map_get p (sortQueues qs) = queue_opt (class_queue p cs)).
  { intros p. by rewrite map_get_sortQueues, Hget, sort_queue_opt. }
  assert (Hhas : ∀ p, map_has p (sortQueues qs) = class_waiting cs p).
  { intros p. unfold map_has. rewrite Hg, class_waiting_queue.
    by destruct (class_queue p cs). }
  rewrite (resetIdle_ext _ (class_waiting cs)) by done.
  destruct Hst as [Hcur Hlen].
  rewrite (visit_spec _ _ _ _ (class_waiting cs)); [|done|done|by rewrite length_resetIdle| |].
  - unfold pick_class. destruct (first_class _ _) as [p|]; [|done].
    simpl. do 2 f_equal. rewrite Hg. by destruct (class_queue p cs).
  - intros p Hp. rewrite class_waiting_queue in Hp. rewrite Hg.
    destruct (class_queue p cs); done.
  - intros p Hp. rewrite class_waiting_queue in Hp. rewrite Hg.
    destruct (class_queue p cs); [done|]. eauto.
Qed.

(** ** Facts about [pick_class] *)

Lemma first_class_spec has start :
  priority_ok start →
  match first_class has start with
  | Some p => has p = true ∧ priority_ok p
  | None => ∀ p, priority_ok p → has p = false
  end.
Proof.
  unfold first_class. intros Hs.
  pose proof (next_class_ok _ Hs) as H1. pose proof (next_class_ok _ H1) as H2.
  destruct (has start) eqn:E0; [done|].
  destruct (has (next_class start)) eqn:E1; [done|].
  destruct (has (next_class (next_class start))) eqn:E2; [done|].
  intros p Hp. unfold priority_ok, next_class in *.
  assert (start = 0 ∨ start = 1 ∨ start = 2) as [->|[->| ->]] by lia;
    (assert (p = 0 ∨ p = 1 ∨ p = 2) as [->|[->| ->]] by lia); by simpl in *.
Qed.

(** Deficits between zero and the quantum of their class. *)
Definition deficits_ok (quanta ds : list Z) : Prop :=
  length ds = 3%nat ∧ ∀ p, priority_ok p → 0 ≤ deficit ds p ≤ deficit quanta p.

Lemma deficit_resetIdle has ds p :
  priority_ok p → length ds = 3%nat →
  deficit (resetIdle has ds) p = if has p then deficit ds p else 0.
Proof.
  intros Hp Hl. unfold deficit, resetIdle, priority_ok in *.
  rewrite list_lookup_imap.
  destruct (lookup_lt_is_Some_2 ds (Z.to_nat p)) as [d Hd]; [lia|].
  rewrite Hd. simpl. rewrite Z2Nat.id by lia. done.
Qed.

Lemma deficit_setDeficit ds p p' v :
  priority_ok p → priority_ok p' → length ds = 3%nat →
  deficit (setDeficit ds p v) p' = if p =? p' then v else deficit ds p'.
Proof.
  intros Hp Hp' Hl. destruct (Z.eqb_spec p p') as [<-|Hne]; [by apply deficit_setDeficit_eq|].
  unfold deficit, setDeficit, priority_ok in *. rewrite list_lookup_insert_ne by lia. done.
Qed.

Lemma pick_class_state_ok has quanta st : state_ok st → state_ok (pick_class has quanta st).2.
Proof.
  intros [Hc Hl]. unfold pick_class.
  pose proof (first_class_spec has _ Hc) as Hf.
  destruct (first_class _ _) as [p|]; simpl; split; simpl.
  - destruct Hf as [_ Hf]. destruct (_ <=? _); [done|by apply next_class_ok].
  - by rewrite length_setDeficit, length_resetIdle.
  - done.
  - by rewrite length_resetIdle.
Qed.

Lemma pick_class_deficits_ok has quanta st :
  quanta_ok quanta → priority_ok (cursor st) → deficits_ok quanta (deficits st) →
  deficits_ok quanta (deficits (pick_class has quanta st).2).
Proof.
  intros Hq Hc [Hl Hd]. unfold pick_class.
  pose proof (first_class_spec has _ Hc) as Hf.
  assert (Hr : length (resetIdle has (deficits st)) = 3%nat) by (by rewrite length_resetIdle).
  destruct (first_class _ _) as [p|]; simpl.
  - destruct Hf as [Hhas Hp]. split; [by rewrite length_setDeficit|].
    intros p' Hp'. rewrite deficit_setDeficit by done. unfold refilled.
    rewrite !deficit_resetIdle by done. rewrite Hhas.
    pose proof (Hd p Hp). pose proof (Hd p' Hp'). pose proof (deficit_quanta quanta p Hq Hp).
    destruct (Z.eqb_spec p p') as [<-|]; [destruct (_ <? _) eqn:E; bool_to_prop; lia|].
    destruct (has p'); lia.
  - split; [done|]. intros p' Hp'. rewrite deficit_resetIdle by done.
    pose proof (Hd p' Hp'). destruct (has p'); lia.
Qed.
End Refinement.

(** ** Fairness *)

Section Fairness.
Context `{C : Collation}.

(** Consecutive admissions of one capacity: one decision per queue snapshot. *)
Fixpoint drr_run (backlog : list (list SchedulerCandidate)) (st : SchedulerState)
    (quanta : list Z) : result (list SchedulerDecision * SchedulerState) :=
  match backlog with
  | [] => Ok ([], st)
  | cs :: rest =>
      let! d := scheduleWeightedDeficitRoundRobin cs st quanta in
      let! r := drr_run rest (next_state d) quanta in
      Ok (d :: r.1, r.2)
  end.

(** The grants the other classes can take together before class [p] is due. *)
Definition max_wait (quanta : list Z) (p : Z) : Z :=
  deficit quanta (next_class p) + deficit quanta (next_class (next_class p)).

(** The grants that may still precede class [p] in state [st]. *)
Definition grants_ahead (quanta : list Z) (st : SchedulerState) (p : Z) : Z :=
  let c := cursor st in
  if c =? p then 0
  else refilled (deficits st) quanta c
       + (if next_class c =? p then 0 else deficit quanta (next_class c)).

Definition winner_class (d : SchedulerDecision) : option Z := c_priority <$> winner d.

(** The decision at the level of classes. *)
Lemma schedule_class cs st quanta :
  state_ok st → quanta_ok quanta → candidates_ok cs →
  ∃ d, scheduleWeightedDeficitRoundRobin cs st quanta = Ok d ∧
    winner_class d = (pick_class (class_waiting cs) quanta st).1 ∧
    next_state d = (pick_class (class_waiting cs) quanta st).2.
Proof.
  intros Hst Hq Hcs. rewrite schedule_spec by done.
  pose proof (first_class_spec (class_waiting cs) _ (proj1 Hst)) as Hf. unfold pick_class.
  destruct (first_class _ _) as [p|]; eexists; (split; [reflexivity|]); [|done].
  split; [|done]. unfold winner_class. simpl. destruct Hf as [Hw _].
  rewrite class_waiting_queue in Hw. destruct (class_queue p cs) as [|c rest] eqn:E; [done|].
  simpl. by apply class_queue_head in E as (_ & _ & ->).
Qed.

Lemma three_classes p : priority_ok p → p = 0 ∨ p = 1 ∨ p = 2.
Proof. unfold priority_ok. lia. Qed.

Lemma third_class c p :
  priority_ok c → priority_ok p → c ≠ p → next_class c ≠ p → next_class (next_class c) = p.
Proof.
  intros Hc Hp. unfold next_class.
  destruct (three_classes c Hc) as [->|[->| ->]], (three_classes p Hp) as [->|[->| ->]]; done.
Qed.

Lemma refilled_bounds quanta ds p :
  quanta_ok quanta → deficits_ok quanta ds → priority_ok p →
  1 ≤ refilled ds quanta p ≤ deficit quanta p.
Proof.
  intros Hq [_ Hd] Hp. unfold refilled. pose proof (deficit_quanta quanta p Hq Hp).
  specialize (Hd p Hp). destruct (Z.ltb_spec (deficit ds p) 1); lia.
Qed.

Lemma refilled_served ds quanta p d :
  priority_ok p → length ds = 3%nat → 1 ≤ d → refilled (setDeficit ds p d) quanta p = d.
Proof.
  intros Hp Hl Hd. unfold refilled. rewrite deficit_setDeficit_eq by done.
  destruct (Z.ltb_spec d 1); lia.
Qed.

Lemma refilled_resetIdle has ds quanta p :
  priority_ok p → length ds = 3%nat → has p = true →
  refilled (resetIdle has ds) quanta p = refilled ds quanta p.
Proof. intros Hp Hl Hh. unfold refilled. by rewrite !deficit_resetIdle, Hh by done. Qed.

(** While class [p] waits, every grant of another class brings [p] closer. *)
Lemma grants_ahead_step quanta has st p p' :
  quanta_ok quanta → priority_ok (cursor st) → deficits_ok quanta (deficits st) →
  priority_ok p → has p = true → (pick_class has quanta st).1 = Some p' → p' ≠ p →
  0 ≤ grants_ahead quanta (pick_class has quanta st).2 p < grants_ahead quanta st p.
Proof.
  intros Hq Hc Hd Hp Hhas Hpick Hne.
  pose proof (pick_class_deficits_ok has quanta st Hq Hc Hd) as Hd'.
  pose proof (next_class_ok _ Hc) as Hn. set (n := next_class (cursor st)) in *.
  pose proof (refilled_bounds _ _ _ Hq Hd Hc). pose proof (refilled_bounds _ _ _ Hq Hd Hn).
  pose proof (refilled_bounds _ _ _ Hq Hd' Hn).
  assert (Hl : length (deficits st) = 3%nat) by apply Hd.
  assert (Hl' : length (resetIdle has (deficits st)) = 3%nat) by (by rewrite length_resetIdle).
  unfold pick_class, first_class, grants_ahead in *. fold n in Hpick |- *. fold n in Hd'.
  destruct (Z.eqb_spec (cursor st) p) as [Hcp|Hcp].
  { rewrite Hcp, Hhas in Hpick. simpl in Hpick. congruence. }
  destruct (has (cursor st)) eqn:E0; simpl in *.
  - rewrite refilled_resetIdle in * by done.
    destruct (Z.leb_spec 1 (refilled (deficits st) quanta (cursor st) - 1)); simpl.
    + rewrite refilled_served by done. fold n. destruct (Z.eqb_spec (cursor st) p); [done|].
      destruct (_ =? p); [lia|]. pose proof (deficit_quanta _ _ Hq Hn). lia.
    + fold n. destruct (Z.eqb_spec n p) as [|Hnp]; [lia|].
      rewrite (proj2 (Z.eqb_eq _ p)) by (by apply third_class). lia.
  - destruct (Z.eqb_spec n p) as [Hnp|Hnp].
    { rewrite Hnp, Hhas in Hpick. simpl in Hpick. congruence. }
    assert (Hthird : next_class n = p) by (by apply third_class).
    destruct (has n) eqn:E1; simpl in *.
    + rewrite refilled_resetIdle in * by done.
      destruct (Z.leb_spec 1 (refilled (deficits st) quanta n - 1)); simpl.
      * rewrite refilled_served by done. rewrite Hthird, Z.eqb_refl.
        destruct (n =? p); lia.
      * rewrite Hthird, Z.eqb_refl. lia.
    + rewrite Hthird, Hhas in Hpick. simpl in Hpick. congruence.
Qed.

Lemma drr_run_ok backlog st quanta :
  state_ok st → quanta_ok quanta → Forall candidates_ok backlog →
  ∃ r, drr_run backlog st quanta = Ok r.
Proof.
  intros Hst Hq Hb. revert st Hst. induction Hb as [|cs rest Hcs _ IH]; intros st Hst; simpl.
  { by eexists. }
  destruct (schedule_class cs st quanta Hst Hq Hcs) as (d & -> & _ & Hn). simpl.
  rewrite Hn. destruct (IH _ (pick_class_state_ok (class_waiting cs) quanta st Hst)) as [ds ->].
  simpl. eauto.
Qed.

Lemma drr_run_serves backlog st quanta p :
  priority_ok (cursor st) → deficits_ok quanta (deficits st) → quanta_ok quanta →
  priority_ok p →
  Forall (λ cs, candidates_ok cs ∧ class_waiting cs p = true) backlog →
  grants_ahead quanta st p < Z.of_nat (length backlog) →
  ∃ ds st' d, drr_run backlog st quanta = Ok (ds, st') ∧ In d ds ∧ winner_class d = Some p.
Proof.
  intros Hc Hd Hq Hp Hb. revert st Hc Hd.
  induction Hb as [|cs rest [Hcs Hw] Hrest IH]; intros st Hc Hd Hlt; simpl in *.
  { exfalso. unfold grants_ahead in Hlt. pose proof (refilled_bounds _ _ _ Hq Hd Hc).
    pose proof (deficit_quanta _ _ Hq (next_class_ok _ Hc)).
    destruct (_ =? p) in Hlt; [lia|]. destruct (_ =? p) in Hlt; lia. }
  assert (Hst : state_ok st) by (split; [done|apply Hd]).
  destruct (schedule_class cs st quanta Hst Hq Hcs) as (d & -> & Hwc & Hn). simpl.
  assert (Hst' := pick_class_state_ok (class_waiting cs) quanta st Hst).
  rewrite Hn. destruct (decide (winner_class d = Some p)) as [Hwin|Hwin].
  - destruct (drr_run_ok rest _ quanta Hst' Hq) as [ds ->];
      [eapply Forall_impl; [exact Hrest|]; by intros ? []|].
    simpl. exists (d :: ds.1), ds.2, d. split; [done|]. split; [by left|done].
  - destruct (IH (pick_class (class_waiting cs) quanta st).2) as (ds & st' & d' & -> & Hin & Hd').
    + apply Hst'.
    + by apply pick_class_deficits_ok.
    + assert (∃ p', (pick_class (class_waiting cs) quanta st).1 = Some p' ∧ p' ≠ p)
        as (p' & Hp' & Hne).
      { pose proof (first_class_spec (class_waiting cs) _ Hc) as Hf. revert Hwc.
        unfold pick_class. destruct (first_class _ _) as [p'|]; simpl; intros Hwc.
        - exists p'. split; [done|congruence].
        - rewrite (Hf p Hp) in Hw. done. }
      pose proof (grants_ahead_step quanta _ st p p' Hq Hc Hd Hp Hw Hp' Hne). lia.
    + simpl. exists (d :: ds), st', d'. split; [done|]. split; [by right|done].
Qed.

Lemma grants_ahead_max quanta st p :
  quanta_ok quanta → priority_ok (cursor st) → deficits_ok quanta (deficits st) → priority_ok p →
  grants_ahead quanta st p ≤ max_wait quanta p.
Proof.
  destruct st as [cur ds v]. simpl. intros Hq Hc Hd Hp. unfold grants_ahead, max_wait. simpl.
  pose proof (refilled_bounds _ _ _ Hq Hd Hc).
  pose proof (deficit_quanta _ _ Hq (next_class_ok _ Hp)).
  pose proof (deficit_quanta _ _ Hq (next_class_ok _ (next_class_ok _ Hp))).
  pose proof (deficit_quanta _ _ Hq (next_class_ok _ Hc)).
  pose proof (deficit_quanta _ _ Hq Hc).
  destruct (three_classes _ Hc) as [->|[->| ->]], (three_classes p Hp) as [->|[->| ->]];
    change (next_class 0) with 1 in *; change (next_class 1) with 2 in *;
    change (next_class 2) with 0 in *; cbn -[deficit refilled] in *;
    change (next_class 0) with 1 in *; change (next_class 1) with 2 in *;
    change (next_class 2) with 0 in *; cbn -[deficit refilled] in *; lia.
Qed.

(** The schedule at the level of classes, for a backlog in which every class waits. *)
Fixpoint class_run (n : nat) (quanta : list Z) (st : SchedulerState) :
    list (option Z) * SchedulerState :=
  match n with
  | O => ([], st)
  | S n =>
      let '(p, st') := pick_class (λ _, true) quanta st in
      let '(ps, st'') := class_run n quanta st' in (p :: ps, st'')
  end.

Definition all_waiting (cs : list SchedulerCandidate) : Prop :=
  candidates_ok cs ∧ ∀ p, priority_ok p → class_waiting cs p = true.

Lemma pick_class_all_waiting cs quanta st :
  state_ok st → all_waiting cs →
  pick_class (class_waiting cs) quanta st = pick_class (λ _, true) quanta st.
Proof.
  intros [Hc Hl] [_ Hw]. unfold pick_class, first_class. rewrite (Hw _ Hc).
  assert (Hr : resetIdle (class_waiting cs) (deficits st) = resetIdle (λ _, true) (deficits st)).
  { unfold resetIdle. apply imap_ext. intros i d Hi%lookup_lt_Some.
    rewrite Hw; [done|]. unfold priority_ok. lia. }
  by rewrite Hr.
Qed.

Lemma drr_run_all_waiting backlog st quanta :
  state_ok st → quanta_ok quanta → Forall all_waiting backlog →
  ∃ ds, drr_run backlog st quanta = Ok (ds, (class_run (length backlog) quanta st).2) ∧
    map winner_class ds = (class_run (length backlog) quanta st).1.
Proof.
  intros Hst Hq Hb. revert st Hst.
  induction Hb as [|cs rest Hcs _ IH]; intros st Hst; [by exists []|].
  cbn [drr_run class_run length].
  destruct (schedule_class cs st quanta Hst Hq (proj1 Hcs)) as (d & -> & Hw & Hn).
  cbn [result_bind]. rewrite pick_class_all_waiting in Hw, Hn by done.
  assert (Hst' := pick_class_state_ok (λ _, true) quanta st Hst).
  rewrite Hn. destruct (IH _ Hst') as (ds & -> & Hws). cbn [result_bind].
  exists (d :: ds). destruct (pick_class _ _ _) as [p st']. cbn in Hw, Hws |- *.
  destruct (class_run _ _ _) as [ps st'']. cbn in Hws |- *. by rewrite Hw, Hws.
Qed.
End Fairness.

(** ** Properties of the scheduler *)

Section Properties.
Context `{C : Collation}.

Lemma validate_inv st quanta :
  validateScheduler st quanta = Ok tt → state_ok st ∧ quanta_ok quanta.
Proof.
  unfold validateScheduler, throw_when, PRIORITY_CLASS_COUNT, state_ok, quanta_ok, priority_ok.
  destruct ((cursor st <? 0) || _) eqn:E1; [discriminate|]. cbn [result_bind].
  destruct (negb _ || _) eqn:E2; [discriminate|]. cbn [result_bind].
  destruct (existsb _ _) eqn:E3; [discriminate|]. intros _. split_ands; bool_to_prop.
  split; [lia|]. split; [lia|]. intros q Hq%list_elem_of_In.
  destruct (Z.ltb_spec 0 q) as [|Hle]; [done|].
  assert (existsb (λ quantum, quantum <=? 0) quanta = true); [|congruence].
  apply existsb_exists. exists q. split; [done|]. by apply Z.leb_le.
Qed.

Lemma fileCandidates_inv cs queues qs :
  fileCandidates cs queues = Ok qs → candidates_ok cs.
Proof.
  revert queues. induction cs as [|c cs IH]; intros queues; simpl; [by intros _ c []|].
  destruct (assertPriority (c_priority c)) as [p|] eqn:Ep; simpl; [|done]. intros H.
  assert (Hcs : candidates_ok cs) by (destruct (negb (c_eligible c)); eapply IH; eauto).
  intros c' [<-|Hin]; [|by apply Hcs].
  unfold assertPriority, PRIORITY_CLASS_COUNT in Ep.
  destruct ((c_priority c <? 0) || _) eqn:E; [discriminate|].
  split_ands; bool_to_prop. split; lia.
Qed.

Lemma pick_class_none has quanta st :
  priority_ok (cursor st) →
  ((pick_class has quanta st).1 = None ↔ ∀ p, priority_ok p → has p = false).
Proof.
  intros Hc. pose proof (first_class_spec has _ Hc) as Hf. unfold pick_class.
  destruct (first_class _ _) as [p|]; simpl; [|done]. split; [done|].
  intros H. destruct Hf as [Hf Hp]. by rewrite H in Hf.
Qed.

(** C40. On valid input the scheduler never fails and is work conserving: it picks nobody exactly
    when no candidate is eligible; the pick is an eligible candidate of the class the deficit
    round robin names, and the first of that class in FIFO order; and the next state is again
    valid, with every deficit between zero and its class's quantum. *)
Theorem schedule_correct `{!CollationLaws C} (cs : list SchedulerCandidate)
    (st : SchedulerState) (quanta : list Z) :
  state_ok st → quanta_ok quanta → deficits_ok quanta (deficits st) → candidates_ok cs →
  ∃ d, scheduleWeightedDeficitRoundRobin cs st quanta = Ok d ∧
    (winner d = None ↔ ∀ c, In c cs → c_eligible c = false) ∧
    (∀ c, winner d = Some c →
       In c cs ∧ c_eligible c = true ∧
       Some (c_priority c) = (pick_class (class_waiting cs) quanta st).1 ∧
       (∀ c', In c' cs → c_eligible c' = true → c_priority c' = c_priority c →
          compareSchedulerCandidates c c' ≤ 0)) ∧
    next_state d = (pick_class (class_waiting cs) quanta st).2 ∧
    state_ok (next_state d) ∧ deficits_ok quanta (deficits (next_state d)).
Proof.
  intros Hst Hq Hd Hcs.
  pose proof (pick_class_none (class_waiting cs) quanta st (proj1 Hst)) as Hnone.
  pose proof (pick_class_state_ok (class_waiting cs) quanta st Hst) as Hst'.
  pose proof (pick_class_deficits_ok (class_waiting cs) quanta st Hq (proj1 Hst) Hd) as Hd'.
  pose proof (first_class_spec (class_waiting cs) _ (proj1 Hst)) as Hf.
  rewrite schedule_spec by done. unfold pick_class in *.
  destruct (first_class _ _) as [p|]; eexists; (split; [reflexivity|]); simpl in *.
  - destruct Hf as [Hw Hp]. rewrite class_waiting_queue in Hw.
    destruct (class_queue p cs) as [|c0 rest] eqn:Eq; [done|]. simpl.
    destruct (class_queue_head _ _ _ _ Eq) as (Hin & He & Hpr).
    split_and!; try done.
    + split; [done|]. intros H. specialize (H c0 Hin). congruence.
    + intros c [= <-]. split_and!; [done|done|by rewrite Hpr|].
      intros c' Hin' He' Hpr'.
      assert (Hs := sort_by_sorted compareSchedulerCandidates (List.filter (in_class p) cs)).
      assert (Hc' : In c' (class_queue p cs)).
      { apply sort_by_in, filter_In. split; [done|]. unfold in_class.
        rewrite He', Hpr', Hpr, Z.eqb_refl. done. }
      unfold class_queue in Eq, Hc'. rewrite Eq in Hs, Hc'. simpl in Hs.
      destruct Hc' as [<-|Hc']; [|by apply Hs].
      pose proof (cmp_antisym (cmp:=compareSchedulerCandidates) c0 c0). lia.
  - split_and!; try done. split; [|done]. intros _ c Hin.
    destruct (c_eligible c) eqn:He; [|done]. exfalso.
    pose proof (Hf (c_priority c) (Hcs c Hin)) as Hw.
    assert (class_waiting cs (c_priority c) = true); [|congruence].
    apply existsb_exists. exists c. split; [done|]. unfold in_class. by rewrite He, Z.eqb_refl.
Qed.

(** C38. No starvation: a class that keeps an eligible candidate is served within as many decisions
    as the other classes' quanta together plus one (21 for BACKGROUND, 18 for NORMAL, 6 for HIGH),
    whatever the other queues do and whatever the valid starting state. *)
Theorem schedule_no_starvation (backlog : list (list SchedulerCandidate)) (st : SchedulerState)
    (quanta : list Z) (p : Z) :
  state_ok st → quanta_ok quanta → deficits_ok quanta (deficits st) → priority_ok p →
  Forall (λ cs, candidates_ok cs ∧ class_waiting cs p = true) backlog →
  Z.of_nat (length backlog) = max_wait quanta p + 1 →
  ∃ ds st' d c, drr_run backlog st quanta = Ok (ds, st') ∧ In d ds ∧
    winner d = Some c ∧ c_priority c = p.
Proof.
  intros Hst Hq Hd Hp Hb Hlen.
  pose proof (grants_ahead_max quanta st p Hq (proj1 Hst) Hd Hp).
  destruct (drr_run_serves backlog st quanta p) as (ds & st' & d & Hr & Hin & Hw);
    [apply Hst|done..|lia|].
  unfold winner_class in Hw. destruct (winner d) as [c|] eqn:Ew; simplify_eq/=. eauto 10.
Qed.

(** Weighted share: from a fresh state, when all three classes keep waiting, 21 consecutive
    decisions serve BACKGROUND once, NORMAL four times and HIGH sixteen times, in that order, and
    end in the state they started from. *)
Theorem schedule_weighted_share (backlog : list (list SchedulerCandidate)) :
  length backlog = 21%nat → Forall all_waiting backlog →
  let fresh := mkSchedulerState 0 [0; 0; 0] SCHEDULER_VERSION in
  ∃ ds, drr_run backlog fresh defaultPriorityQuanta = Ok (ds, fresh) ∧
    map winner_class ds = [Some 0] ++ replicate 4 (Some 1) ++ replicate 16 (Some 2).
Proof.
  intros Hl Hb fresh.
  destruct (drr_run_all_waiting backlog fresh defaultPriorityQuanta) as (ds & Hr & Hw);
    [by split| |done|].
  - split; [done|]. intros q. unfold defaultPriorityQuanta, PRIORITY_CLASS_QUANTA.
    rewrite !elem_of_cons, elem_of_nil. lia.
  - rewrite Hl in Hr, Hw. exists ds. split; [exact Hr|exact Hw].
Qed.

(** The scheduler accepts exactly the valid inputs: it returns a decision if and only if the
    cursor is a class rank, both tables have three entries, every quantum is positive and every
    candidate's priority is a class rank; otherwise it throws. *)
Theorem schedule_accepts_iff_valid (cs : list SchedulerCandidate) (st : SchedulerState)
    (quanta : list Z) :
  (∃ d, scheduleWeightedDeficitRoundRobin cs st quanta = Ok d) ↔
  state_ok st ∧ quanta_ok quanta ∧ candidates_ok cs.
Proof.
  split.
  - intros [d Hd]. unfold scheduleWeightedDeficitRoundRobin in Hd.
    destruct (validateScheduler st quanta) as [[]|] eqn:Ev; [|done].
    apply validate_inv in Ev as [Hst Hq]. simpl in Hd.
    destruct (fileCandidates cs []) as [qs|] eqn:Ef; [|done].
    apply fileCandidates_inv in Ef. done.
  - intros (Hst & Hq & Hcs). destruct (schedule_class cs st quanta Hst Hq Hcs) as (d & -> & _).
    eauto.
Qed.
End Properties.

(** ** Witnesses *)

Definition demo_candidate (id : string) (p seq : Z) : SchedulerCandidate :=
  mkCandidate id id 0 p seq true.
Definition demo_backlog : list SchedulerCandidate :=
  [demo_candidate "high" 2 1; demo_candidate "low" 0 2; demo_candidate "mid" 1 3;
   demo_candidate "late" 2 9].
Definition demo_state : SchedulerState := mkSchedulerState 0 [0; 0; 0] SCHEDULER_VERSION.

Lemma demo_quanta_ok : quanta_ok defaultPriorityQuanta.
Proof.
  split; [done|]. intros q. unfold defaultPriorityQuanta, PRIORITY_CLASS_QUANTA.
  rewrite !elem_of_cons, elem_of_nil. lia.
Qed.

Lemma demo_candidates_ok : candidates_ok demo_backlog.
Proof. intros c Hin. repeat destruct Hin as [<-|Hin]; done. Qed.

Lemma demo_deficits_ok : deficits_ok defaultPriorityQuanta (deficits demo_state).
Proof.
  split; [done|]. intros p Hp. destruct (three_classes p Hp) as [->|[->| ->]]; done.
Qed.

Lemma demo_all_waiting : all_waiting demo_backlog.
Proof.
  split; [apply demo_candidates_ok|].
  intros p Hp. destruct (three_classes p Hp) as [->|[->| ->]]; done.
Qed.

Lemma schedule_correct_witness :
  state_ok demo_state ∧
  ∃ d, scheduleWeightedDeficitRoundRobin (C:=code_unit_collation) demo_backlog demo_state
         defaultPriorityQuanta = Ok d ∧ state_ok (next_state d).
Proof.
  split; [done|].
  destruct (schedule_correct (C:=code_unit_collation) demo_backlog demo_state
    defaultPriorityQuanta ltac:(done) demo_quanta_ok demo_deficits_ok demo_candidates_ok)
    as (d & Hd & _ & _ & _ & Hs & _).
  exists d. done.
Defined.

Lemma schedule_no_starvation_witness :
  max_wait defaultPriorityQuanta 0 = 20 ∧
  ∃ ds st' d c, drr_run (C:=code_unit_collation) (replicate 21 demo_backlog) demo_state
      defaultPriorityQuanta = Ok (ds, st') ∧ In d ds ∧ winner d = Some c ∧ c_priority c = 0.
Proof.
  split; [reflexivity|].
  apply (schedule_no_starvation (C:=code_unit_collation) (replicate 21 demo_backlog) demo_state
    defaultPriorityQuanta 0);
    [done|apply demo_quanta_ok|apply demo_deficits_ok|done| |reflexivity].
  apply Forall_replicate. split; [apply demo_candidates_ok|done].
Defined.

Lemma schedule_weighted_share_witness :
  length (replicate 21 demo_backlog) = 21%nat ∧
  ∃ ds, drr_run (C:=code_unit_collation) (replicate 21 demo_backlog) demo_state
          defaultPriorityQuanta = Ok (ds, demo_state) ∧
    map winner_class ds = [Some 0] ++ replicate 4 (Some 1) ++ replicate 16 (Some 2).
Proof.
  split; [reflexivity|].
  apply (schedule_weighted_share (C:=code_unit_collation) (replicate 21 demo_backlog));
    [reflexivity|]. apply Forall_replicate, demo_all_waiting.
Defined.
