(* ===== verification/AdmissionPlanner.v ===== *)
(** * The admission planner and its reference

    [src/apps/server/src/model-api/capacity/admission-planner.ts] ([planGrants], the one
    enforcement point for who gets a slot of a capacity) and
    [capacity/admission-planner.reference.ts] ([referencePlanGrants], the direct statement
    of the rules). The optimised planner keeps per-class and per-owner FIFO queues as arrays
    with a head index and a [next] array from which dead entries are unlinked lazily; they
    are modelled with those arrays, as the mutable state the loop threads through.

    Instants are milliseconds ([Z]); a [Date | null] is an [option Z]. *)

From S2P Require Import Prelude Scheduler.

(** ** Data *)

Record PlannerWaiter := mkWaiter {
  waiterId : string;
  admissionRequestId : string;
  candidateOrder : Z;
  enqueueSequence : Z;
  priority : Z;
  notBefore : option Z;
  deadlineAt : option Z;
  requestDeadlineAt : option Z;
  ownerKey : string;
  scopeLimits : list (string * Z);
  borrowReserved : bool;
  leaseScopeKeys : list string;
}.

Record AdmissionSnapshot := mkSnapshot {
  capacityLimit : option Z;
  s_active : Z;
  s_activeByOwner : gmap string Z;
  reservationsByOwner : jsmap string Z;
  s_scopeActive : gmap string Z;
  waiters : list PlannerWaiter;
  s_scheduler : SchedulerState;
}.

Record PlannerOptions := mkOptions {
  requestId : option string;
  creatingRequestId : option string;
  lastChanceWaiterIds : list string;
  maxGrants : option Z;
}.

Record PlannedGrant := mkGrant {
  g_waiterId : string;
  g_admissionRequestId : string;
  g_borrowed : bool;
  g_reservationClass : Z;
  g_schedulerAfter : SchedulerState;
}.

Inductive StoppedBy := by_requested | by_none | by_limit | by_maxGrants | by_progress.

#[export] Instance StoppedBy_eq_dec : EqDecision StoppedBy.
Proof. solve_decision. Defined.

Record GrantPlan := mkPlan {
  p_grants : list PlannedGrant;
  p_scheduler : SchedulerState;
  stoppedBy : StoppedBy;
}.

Record Entry := mkEntry {
  waiter : PlannerWaiter;
  candidate : SchedulerCandidate;
}.

(** ** Eligibility by time *)

Definition inWindow (w : PlannerWaiter) (now : Z) (creatingRequest : option string)
    (lastChance : list string) : bool :=
  let creating := match creatingRequest with
                  | Some id => bool_decide (admissionRequestId w = id)
                  | None => false
                  end in
  let waiterOpen := match deadlineAt w with
                    | None => true
                    | Some d => (now <? d) || (creating && (now <=? d))
                                || bool_decide (waiterId w ∈ lastChance)
                    end in
  let requestOpen := match requestDeadlineAt w with
                     | None => true
                     | Some d => (now <? d) || creating
                     end in
  waiterOpen && requestOpen.

(** [!waiter.notBefore || waiter.notBefore <= now] *)
Definition grantable (now : Z) (w : PlannerWaiter) : bool :=
  match notBefore w with
  | None => true
  | Some t => t <=? now
  end.

Definition entryOf (w : PlannerWaiter) : Entry :=
  mkEntry w (mkCandidate (admissionRequestId w) (waiterId w) (candidateOrder w) (priority w)
               (enqueueSequence w) true).

(** [scopeLimits.every(({key, limit}) => (scopeActive.get(key) ?? 0) < limit)] *)
Definition scopeHasRoom (scopeActive : gmap string Z) (w : PlannerWaiter) : bool :=
  forallb (λ '(key, limit), default 0 (scopeActive !! key) <? limit) (scopeLimits w).

(** [for (key of leaseScopeKeys) if (scopeActive.has(key)) scopeActive.set(key, +1)] *)
Definition bumpScopes (keys : list string) (scopeActive : gmap string Z) : gmap string Z :=
  foldl (λ m key, match m !! key with
                  | Some n => <[key := n + 1]> m
                  | None => m
                  end) scopeActive keys.

Definition MAX_SAFE_INTEGER : Z := 9007199254740991.

(** Whether a slot taken by an owner with [ownerRemaining] unmet kept slots is one that
    other owners keep. *)
Definition isBorrowed (limit : option Z) (active ownerRemaining reservedTotal : Z) : bool :=
  let reservedForOthers := Z.min (default MAX_SAFE_INTEGER limit) (reservedTotal - ownerRemaining) in
  match limit with
  | None => false
  | Some l => (ownerRemaining =? 0) && (0 <? reservedForOthers) && (l - active <=? reservedForOthers)
  end.

(** [options.requestId !== undefined && winner.admissionRequestId === options.requestId] *)
Definition isRequested (options : PlannerOptions) (w : PlannerWaiter) : bool :=
  match requestId options with
  | Some id => bool_decide (admissionRequestId w = id)
  | None => false
  end.

Definition grantsExhausted (options : PlannerOptions) (grants : list PlannedGrant) : bool :=
  match maxGrants options with
  | Some m => m <=? Z.of_nat (length grants)
  | None => false
  end.

Definition limitReached (limit : option Z) (active : Z) : bool :=
  match limit with
  | Some l => l <=? active
  | None => false
  end.

Definition grantOf (w : PlannerWaiter) (borrowed : bool) (sched : SchedulerState) : PlannedGrant :=
  mkGrant (waiterId w) (admissionRequestId w) borrowed (priority w) sched.

(** [eligible.find((entry) => entry.candidate === decision.winner)] *)
Definition findWinner (decision : SchedulerDecision) (eligible : list Entry) : option Entry :=
  match winner decision with
  | Some c => List.find (λ e, bool_decide (candidate e = c)) eligible
  | None => None
  end.

(** The [borrowedByWaiter] map a step fills while it collects the eligible entries. *)
Definition borrowedByWaiter (eligible : list (Entry * bool)) : jsmap string bool :=
  foldl (λ m '(e, b), map_set (waiterId (waiter e)) b m) [] eligible.

Section Planners.
Context `{C : Collation}.

(** ** The reference planner *)

Record RefState := mkRef {
  r_entries : list Entry;
  r_active : Z;
  r_activeByOwner : gmap string Z;
  r_scopeActive : gmap string Z;
  r_scheduler : SchedulerState;
  r_grants : list PlannedGrant;
}.

Definition ownerActive (activeByOwner : gmap string Z) (owner : string) : Z :=
  default 0 (activeByOwner !! owner).

(** [Math.max(0, (reservations.get(owner) ?? 0) - ownerActive(owner))] *)
Definition ref_remaining (reservations : jsmap string Z) (activeByOwner : gmap string Z)
    (owner : string) : Z :=
  Z.max 0 (default 0 (map_get owner reservations) - ownerActive activeByOwner owner).

Definition ref_reservedTotal (reservations : jsmap string Z) (activeByOwner : gmap string Z) : Z :=
  foldr Z.add 0 (map (ref_remaining reservations activeByOwner) (map_keys reservations)).

(** Owners with an unmet reservation and a grantable waiter whose scopes have room. *)
Definition ref_needy (now : Z) (reservations : jsmap string Z) (st : RefState) : list string :=
  map (λ e, ownerKey (waiter e))
    (List.filter (λ e,
        grantable now (waiter e)
        && negb (default 0 (map_get (ownerKey (waiter e)) reservations)
                 <=? ownerActive (r_activeByOwner st) (ownerKey (waiter e)))
        && scopeHasRoom (r_scopeActive st) (waiter e)) (r_entries st)).

Definition waitingBesides (needy : list string) (owner : string) : bool :=
  existsb (λ o, negb (bool_decide (o = owner))) needy.

Definition ref_borrowed (limit : option Z) (reservations : jsmap string Z) (st : RefState)
    (e : Entry) : bool :=
  isBorrowed limit (r_active st)
    (ref_remaining reservations (r_activeByOwner st) (ownerKey (waiter e)))
    (ref_reservedTotal reservations (r_activeByOwner st)).

Definition ref_eligible (now : Z) (limit : option Z) (reservations : jsmap string Z)
    (st : RefState) (e : Entry) : bool :=
  if negb (grantable now (waiter e)) then false
  else if negb (scopeHasRoom (r_scopeActive st) (waiter e)) then false
  else
    let borrowed := ref_borrowed limit reservations st e in
    if borrowed && waitingBesides (ref_needy now reservations st) (ownerKey (waiter e)) then false
    else if borrowed && negb (borrowReserved (waiter e)) then false
    else true.

(** The state after granting [e]. *)
Definition ref_apply (st : RefState) (e : Entry) (borrowed : bool) (sched : SchedulerState) :
    RefState :=
  let w := waiter e in
  mkRef
    (List.filter (λ e', negb (bool_decide (admissionRequestId (waiter e') = admissionRequestId w)))
       (r_entries st))
    (r_active st + 1)
    (<[ownerKey w := ownerActive (r_activeByOwner st) (ownerKey w) + 1]> (r_activeByOwner st))
    (bumpScopes (leaseScopeKeys w) (r_scopeActive st))
    sched
    (r_grants st ++ [grantOf w borrowed sched]).

Definition ref_plan (st : RefState) (why : StoppedBy) : GrantPlan :=
  mkPlan (r_grants st) (r_scheduler st) why.

Fixpoint ref_loop (now : Z) (limit : option Z) (reservations : jsmap string Z)
    (options : PlannerOptions) (steps : nat) (st : RefState) : result GrantPlan :=
  match steps with
  | O => Ok (ref_plan st by_progress)
  | S steps =>
      if grantsExhausted options (r_grants st) then Ok (ref_plan st by_maxGrants)
      else if limitReached limit (r_active st) then Ok (ref_plan st by_limit)
      else match r_entries st with
      | [] => Ok (ref_plan st by_none)
      | _ =>
          let eligible := map (λ e, (e, ref_borrowed limit reservations st e))
              (List.filter (ref_eligible now limit reservations st) (r_entries st)) in
          match eligible with
          | [] => Ok (ref_plan st by_none)
          | _ =>
              let! decision := scheduleWeightedDeficitRoundRobin
                (map (λ '(e, _), candidate e) eligible) (r_scheduler st) defaultPriorityQuanta in
              match findWinner decision eligible.*1 with
              | None => Ok (ref_plan st by_none)
              | Some e =>
                  let borrowed := default false
                    (map_get (waiterId (waiter e)) (borrowedByWaiter eligible)) in
                  let st' := ref_apply st e borrowed (next_state decision) in
                  if isRequested options (waiter e) then Ok (ref_plan st' by_requested)
                  else ref_loop now limit reservations options steps st'
              end
          end
      end
  end.

Definition sortedEntries (ws : list PlannerWaiter) : list Entry :=
  sort_by (λ a b, compareSchedulerCandidates (candidate a) (candidate b)) (map entryOf ws).

Definition referencePlanGrants (snapshot : AdmissionSnapshot) (now : Z)
    (options : PlannerOptions) : result GrantPlan :=
  let entries := sortedEntries
    (List.filter (λ w, inWindow w now (creatingRequestId options) (lastChanceWaiterIds options))
       (waiters snapshot)) in
  ref_loop now (capacityLimit snapshot) (reservationsByOwner snapshot) options
    (S (length (waiters snapshot)))
    (mkRef entries (s_active snapshot) (s_activeByOwner snapshot) (s_scopeActive snapshot)
       (s_scheduler snapshot) []).

(** ** The optimised planner: queues *)

(** [{ entries, head, next }]: the arrays of one class's or owner's FIFO. *)
Record Queue := mkQueue {
  q_entries : list Entry;
  q_head : nat;
  q_next : list nat;
}.

Definition emptyQueue : Queue := mkQueue [] 0 [].

(** [queue.entries.push(entry); queue.next.push(queue.entries.length)] *)
Definition queuePush (q : Queue) (e : Entry) : Queue :=
  mkQueue (q_entries q ++ [e]) (q_head q) (q_next q ++ [length (q_entries q ++ [e])]).

Definition nextOf (next : list nat) (i : nat) : nat := default O (next !! i).

(** [while (head < entries.length && dead(entries[head])) head = next[head]]; every
    iteration moves the head forward, so the entry count bounds the iterations. *)
Fixpoint pruneFrom (dead : Entry → bool) (entries : list Entry) (next : list nat)
    (fuel head : nat) : nat :=
  match fuel with
  | O => head
  | S fuel =>
      match entries !! head with
      | Some e => if dead e then pruneFrom dead entries next fuel (nextOf next head) else head
      | None => head
      end
  end.

Definition pruneHead (dead : Entry → bool) (q : Queue) : Queue :=
  mkQueue (q_entries q)
    (pruneFrom dead (q_entries q) (q_next q) (S (length (q_entries q))) (q_head q)) (q_next q).

(** The step-local arbitration state: the owner queues (pruned on demand) and the lazily
    computed [needyOwners] (at most two). *)
Record Arbitration := mkArb {
  a_ownerQueues : jsmap string Queue;
  a_needyOwners : option (list string);
}.

(** The loop over [remaining.keys()] that collects up to two needy owners. *)
Fixpoint collectNeedy (dead : Entry → bool) (owners : list string)
    (ownerQueues : jsmap string Queue) (needy : list string) :
    list string * jsmap string Queue :=
  match owners with
  | [] => (needy, ownerQueues)
  | owner :: rest =>
      match map_get owner ownerQueues with
      | None => collectNeedy dead rest ownerQueues needy
      | Some queue =>
          let queue := pruneHead dead queue in
          let ownerQueues := map_set owner queue ownerQueues in
          match q_entries queue !! q_head queue with
          | None => collectNeedy dead rest ownerQueues needy
          | Some _ =>
              let needy := needy ++ [owner] in
              if bool_decide (length needy = 2%nat) then (needy, ownerQueues)
              else collectNeedy dead rest ownerQueues needy
          end
      end
  end.

Definition ownerWaitingBesides (dead : Entry → bool) (remaining : jsmap string Z)
    (owner : string) (arb : Arbitration) : bool * Arbitration :=
  match a_needyOwners arb with
  | Some needy => (waitingBesides needy owner, arb)
  | None =>
      let '(needy, ownerQueues) := collectNeedy dead (map_keys remaining) (a_ownerQueues arb) [] in
      (waitingBesides needy owner, mkArb ownerQueues (Some needy))
  end.

(** The scan of one class queue for the first entry that is neither dead nor blocked by
    the borrowing rule. Dead entries are unlinked; blocked ones are kept and remembered in
    [previous]. Returns the queue, the arbitration state and the entry with its flag. *)
Section Scan.
Variables (dead : Entry → bool) (limit : option Z) (active : Z).
Variables (remaining : jsmap string Z) (reservedRemainingTotal : Z).

Definition opt_borrowed (w : PlannerWaiter) : bool :=
  isBorrowed limit active (default 0 (map_get (ownerKey w) remaining)) reservedRemainingTotal.

(** [borrowed && (!waiter.borrowReserved || ownerWaitingBesides(waiter.ownerKey))] *)
Definition opt_blocked (w : PlannerWaiter) (arb : Arbitration) : bool * Arbitration :=
  if opt_borrowed w then
    if negb (borrowReserved w) then (true, arb)
    else ownerWaitingBesides dead remaining (ownerKey w) arb
  else (false, arb).

Definition unlink (q : Queue) (previous : option nat) (next : nat) : Queue :=
  match previous with
  | None => mkQueue (q_entries q) next (q_next q)
  | Some p => mkQueue (q_entries q) (q_head q) (<[p := next]> (q_next q))
  end.

Fixpoint scanQueue (fuel : nat) (q : Queue) (previous : option nat) (index : nat)
    (arb : Arbitration) : Queue * Arbitration * option (Entry * bool) :=
  match fuel with
  | O => (q, arb, None)
  | S fuel =>
      match q_entries q !! index with
      | None => (q, arb, None)
      | Some entry =>
          let next := nextOf (q_next q) index in
          if dead entry then scanQueue fuel (unlink q previous next) previous next arb
          else
            let '(blocked, arb) := opt_blocked (waiter entry) arb in
            if blocked then scanQueue fuel q (Some index) next arb
            else (q, arb, Some (entry, opt_borrowed (waiter entry)))
      end
  end.

(** [for (const queue of classes.values())]: the eligible head of each class. *)
Fixpoint scanClasses (classes : jsmap Z Queue) (arb : Arbitration) :
    jsmap Z Queue * Arbitration * list (Entry * bool) :=
  match classes with
  | [] => ([], arb, [])
  | (p, queue) :: rest =>
      let queue := pruneHead dead queue in
      let '(queue, arb, found) :=
        scanQueue (S (length (q_entries queue))) queue None (q_head queue) arb in
      let '(rest, arb, eligible) := scanClasses rest arb in
      ((p, queue) :: rest, arb,
       match found with Some r => r :: eligible | None => eligible end)
  end.
End Scan.

(** ** The optimised planner: state and loop *)

Record PlanState := mkState {
  o_active : Z;
  o_activeByOwner : gmap string Z;
  o_scopeActive : gmap string Z;
  o_scheduler : SchedulerState;
  o_grants : list PlannedGrant;
  o_classes : jsmap Z Queue;
  o_ownerQueues : jsmap string Queue;
  o_takenRequests : gset string;
  o_remaining : jsmap string Z;
  o_reservedTotal : Z;
}.

Definition opt_dead (st : PlanState) (e : Entry) : bool :=
  bool_decide (admissionRequestId (waiter e) ∈ o_takenRequests st)
  || negb (scopeHasRoom (o_scopeActive st) (waiter e)).

Definition opt_plan (st : PlanState) (why : StoppedBy) : GrantPlan :=
  mkPlan (o_grants st) (o_scheduler st) why.

(** The state after granting [e]: counts, kept slots, scopes and taken requests. *)
Definition opt_apply (st : PlanState) (classes : jsmap Z Queue) (ownerQueues : jsmap string Queue)
    (e : Entry) (borrowed : bool) (sched : SchedulerState) : PlanState :=
  let w := waiter e in
  let slots := default 0 (map_get (ownerKey w) (o_remaining st)) in
  mkState (o_active st + 1)
    (<[ownerKey w := ownerActive (o_activeByOwner st) (ownerKey w) + 1]> (o_activeByOwner st))
    (bumpScopes (leaseScopeKeys w) (o_scopeActive st))
    sched
    (o_grants st ++ [grantOf w borrowed sched])
    classes ownerQueues
    ({[admissionRequestId w]} ∪ o_takenRequests st)
    (if 0 <? slots then
       if slots =? 1 then map_delete (ownerKey w) (o_remaining st)
       else map_set (ownerKey w) (slots - 1) (o_remaining st)
     else o_remaining st)
    (if 0 <? slots then o_reservedTotal st - 1 else o_reservedTotal st).

Fixpoint opt_loop (limit : option Z) (options : PlannerOptions) (entries : list Entry)
    (steps : nat) (st : PlanState) : result GrantPlan :=
  match steps with
  | O => Ok (opt_plan st by_progress)
  | S steps =>
      if grantsExhausted options (o_grants st) then Ok (opt_plan st by_maxGrants)
      else if limitReached limit (o_active st) then Ok (opt_plan st by_limit)
      else match entries with
      | [] => Ok (opt_plan st by_none)
      | _ =>
          let '(classes, arb, eligible) :=
            scanClasses (opt_dead st) limit (o_active st) (o_remaining st) (o_reservedTotal st)
              (o_classes st) (mkArb (o_ownerQueues st) None) in
          match eligible with
          | [] => Ok (opt_plan st by_none)
          | _ =>
              let! decision := scheduleWeightedDeficitRoundRobin
                (map (λ '(e, _), candidate e) eligible) (o_scheduler st) defaultPriorityQuanta in
              match findWinner decision eligible.*1 with
              | None => Ok (opt_plan st by_none)
              | Some e =>
                  let borrowed := default false
                    (map_get (waiterId (waiter e)) (borrowedByWaiter eligible)) in
                  let st' := opt_apply st classes (a_ownerQueues arb) e borrowed
                               (next_state decision) in
                  if isRequested options (waiter e) then Ok (opt_plan st' by_requested)
                  else opt_loop limit options entries steps st'
              end
          end
      end
  end.

(** The initial [remaining] map and total: owners with unmet kept slots, in map order. *)
Definition initialRemaining (reservations : jsmap string Z) (activeByOwner : gmap string Z) :
    jsmap string Z * Z :=
  foldl (λ '(remaining, total) '(owner, reserved),
           let slots := Z.max 0 (reserved - ownerActive activeByOwner owner) in
           (if 0 <? slots then map_set owner slots remaining else remaining, total + slots))
    ([], 0) reservations.

(** The indexing loop: every entry joins its class queue, and its owner's queue when that
    owner has unmet kept slots. *)
Definition indexEntry (remaining : jsmap string Z)
    (acc : jsmap Z Queue * jsmap string Queue) (e : Entry) :
    jsmap Z Queue * jsmap string Queue :=
  let '(classes, ownerQueues) := acc in
  let w := waiter e in
  let classes := map_set (priority w)
    (queuePush (default emptyQueue (map_get (priority w) classes)) e) classes in
  if negb (map_has (ownerKey w) remaining) then (classes, ownerQueues)
  else (classes, map_set (ownerKey w)
          (queuePush (default emptyQueue (map_get (ownerKey w) ownerQueues)) e) ownerQueues).

Definition planGrants (snapshot : AdmissionSnapshot) (now : Z) (options : PlannerOptions) :
    result GrantPlan :=
  let entries := sortedEntries
    (List.filter (λ w, inWindow w now (creatingRequestId options) (lastChanceWaiterIds options)
                       && grantable now w)
       (waiters snapshot)) in
  let '(remaining, total) :=
    initialRemaining (reservationsByOwner snapshot) (s_activeByOwner snapshot) in
  let '(classes, ownerQueues) := foldl (indexEntry remaining) ([], []) entries in
  opt_loop (capacityLimit snapshot) options entries (S (length (waiters snapshot)))
    (mkState (s_active snapshot) (s_activeByOwner snapshot) (s_scopeActive snapshot)
       (s_scheduler snapshot) [] classes ownerQueues ∅ remaining total).
End Planners.
