(* ===== verification/PlannerQueues.v ===== *)
(** * The planner's queues: lazily unlinked FIFO arrays

    The invariant of the [{ entries, head, next }] arrays of [admission-planner.ts], and what
    [pruneHead], the class scan and the needy-owner collection compute under it: skipped
    entries are dead, so a scan finds exactly the first live and unblocked entry. *)

From S2P Require Import Prelude Scheduler AdmissionPlanner.

(** ** The queue invariant *)

(** Everything before the head, and everything jumped over by a [next] link, is dead. *)
Record queue_inv (dead : Entry → bool) (es : list Entry) (q : Queue) : Prop := {
  qi_entries : q_entries q = es;
  qi_length : length (q_next q) = length es;
  qi_next : ∀ i, (i < length es)%nat → (i < nextOf (q_next q) i ≤ length es)%nat;
  qi_head : (q_head q ≤ length es)%nat;
  qi_before : ∀ j e, (j < q_head q)%nat → es !! j = Some e → dead e = true;
  qi_skipped : ∀ i j e, (i < length es)%nat → (i < j < nextOf (q_next q) i)%nat →
    es !! j = Some e → dead e = true;
}.

(** A queue nothing was removed from. *)
Definition queue_of (es : list Entry) : Queue := mkQueue es 0 (seq 1 (length es)).

Lemma queue_inv_mono (dead dead' : Entry → bool) es q :
  (∀ e, dead e = true → dead' e = true) → queue_inv dead es q → queue_inv dead' es q.
Proof. intros Hmono []. split; eauto. Qed.

Lemma nextOf_seq n i : (i < n)%nat → nextOf (seq 1 n) i = S i.
Proof. intros Hi. unfold nextOf. by rewrite lookup_seq_lt. Qed.

Lemma queue_of_inv dead es : queue_inv dead es (queue_of es).
Proof.
  split; simpl; try done.
  - apply length_seq.
  - intros i Hi. rewrite nextOf_seq by done. lia.
  - lia.
  - intros; lia.
  - intros i j e Hi. rewrite nextOf_seq by done. lia.
Qed.

Lemma queuePush_queue_of es e : queuePush (queue_of es) e = queue_of (es ++ [e]).
Proof.
  unfold queuePush, queue_of. simpl. f_equal.
  rewrite length_app, seq_app. simpl. do 2 f_equal. lia.
Qed.

(** ** Pruning *)

Lemma pruneFrom_spec dead es next fuel head :
  length next = length es →
  (∀ i, (i < length es)%nat → (i < nextOf next i ≤ length es)%nat) →
  (∀ i j e, (i < length es)%nat → (i < j < nextOf next i)%nat → es !! j = Some e → dead e = true) →
  (head ≤ length es)%nat → (length es - head < fuel)%nat →
  (∀ j e, (j < head)%nat → es !! j = Some e → dead e = true) →
  let head' := pruneFrom dead es next fuel head in
  (head' ≤ length es)%nat ∧ (∀ j e, (j < head')%nat → es !! j = Some e → dead e = true) ∧
  (∀ e, es !! head' = Some e → dead e = false).
Proof.
  intros Hl Hnext Hskip. revert head. induction fuel as [|fuel IH]; intros head Hh Hf Hbefore; [lia|].
  simpl. destruct (es !! head) as [e|] eqn:He; [|split_and!; auto; congruence].
  destruct (dead e) eqn:Hd; [|split_and!; auto; intros; simplify_eq; done].
  assert (head < length es)%nat as Hlt by (by eapply lookup_lt_Some).
  pose proof (Hnext head Hlt).
  apply IH; [lia|lia|]. intros j e' Hj He'.
  destruct (decide (j < head)%nat); [eauto|].
  destruct (decide (j = head)) as [->|]; [congruence|].
  apply (Hskip head j e'); auto; lia.
Qed.

Lemma pruneHead_inv dead es q :
  queue_inv dead es q →
  queue_inv dead es (pruneHead dead q) ∧
  (∀ e, es !! q_head (pruneHead dead q) = Some e → dead e = false).
Proof.
  intros [He Hl Hn Hh Hb Hs]. unfold pruneHead. rewrite He.
  destruct (pruneFrom_spec dead es (q_next q) (S (length es)) (q_head q))
    as (H1 & H2 & H3); auto; [lia|].
  split; [|done]. by split.
Qed.

(** After pruning, the head entry exists exactly when some entry is alive. *)
Lemma pruneHead_alive dead es q :
  queue_inv dead es q →
  (is_Some (es !! q_head (pruneHead dead q)) ↔ ∃ e, In e es ∧ dead e = false).
Proof.
  intros Hq. destruct (pruneHead_inv dead es q Hq) as [[He Hl Hn Hh Hb Hs] Hd]. split.
  - intros [e He']. exists e. split; [|by eapply Hd].
    apply list_elem_of_In. by eapply list_elem_of_lookup_2.
  - intros (e & Hin & Halive). apply list_elem_of_In, list_elem_of_lookup in Hin as [j Hj].
    apply lookup_lt_is_Some_2. destruct (decide (j < q_head (pruneHead dead q))%nat) as [Hlt|Hge].
    + rewrite (Hb j e Hlt Hj) in Halive. done.
    + apply lookup_lt_Some in Hj. lia.
Qed.

(** ** Needy owners *)

Section Needy.
Variables (dead : Entry → bool) (all : list Entry) (needed : string → bool).

Definition of_owner (o : string) (e : Entry) : bool := bool_decide (ownerKey (waiter e) = o).

(** An owner with unmet kept slots ([needed]) and a live entry. *)
Definition needy_owner (o : string) : bool :=
  needed o && existsb (λ e, of_owner o e && negb (dead e)) all.

(** What the owner queues must hold for the owners that still matter. *)
Definition owner_queues_inv (oqs : jsmap string Queue) : Prop :=
  ∀ o, needed o = true →
    match map_get o oqs with
    | Some q => queue_inv dead (List.filter (of_owner o) all) q
    | None => List.filter (of_owner o) all = []
    end.

Lemma needy_owner_alive o :
  needed o = true →
  (needy_owner o = true ↔ ∃ e, In e (List.filter (of_owner o) all) ∧ dead e = false).
Proof.
  intros Hn. unfold needy_owner. rewrite Hn. simpl. rewrite existsb_exists.
  split; intros (e & H1 & H2); exists e.
  - split_ands. split; [by apply filter_In|done].
  - apply filter_In in H1 as [? Ho]. by rewrite Ho, H2.
Qed.

Lemma collectNeedy_spec owners oqs needy :
  owner_queues_inv oqs → NoDup (needy ++ owners) → (length needy < 2)%nat →
  (∀ o, o ∈ owners → needed o = true) → (∀ o, o ∈ needy → needy_owner o = true) →
  let r := collectNeedy dead owners oqs needy in
  owner_queues_inv r.2 ∧
  ∀ o, waitingBesides r.1 o = true ↔
    ∃ o', o' ∈ needy ++ owners ∧ needy_owner o' = true ∧ o' ≠ o.
Proof.
  revert oqs needy. induction owners as [|ow rest IH]; intros oqs needy Hinv Hnd Hlen Hneed Hny;
    cbn [collectNeedy].
  { split; [done|]. cbn [fst]. intros o. unfold waitingBesides. rewrite existsb_exists, app_nil_r.
    setoid_rewrite <- list_elem_of_In.
    split; intros (o' & Ho' & H); exists o'; split_ands; bool_to_prop; [auto|].
    split; [done|]. by rewrite bool_decide_false. }
  assert (Hrest : ∀ o, o ∈ rest → needed o = true) by (intros; apply Hneed; by right).
  assert (How : needed ow = true) by (apply Hneed; by left).
  assert (Hdrop : needy_owner ow = false → NoDup (needy ++ rest) ∧ ∀ o,
    (∃ o', o' ∈ needy ++ ow :: rest ∧ needy_owner o' = true ∧ o' ≠ o) ↔
    (∃ o', o' ∈ needy ++ rest ∧ needy_owner o' = true ∧ o' ≠ o)).
  { intros Hf. split.
    - rewrite <- Permutation_middle in Hnd. by apply NoDup_cons in Hnd as [_ ?].
    - intros o. setoid_rewrite elem_of_app. setoid_rewrite elem_of_cons.
      split; intros (o' & Ho' & H1 & H2); exists o';
        [destruct Ho' as [?|[->|?]]; [auto|congruence|auto]|tauto]. }
  pose proof (Hinv ow How) as Hq. destruct (map_get ow oqs) as [q|] eqn:Eq.
  2: { destruct Hdrop as [Hnd' Hiff].
       { apply not_true_is_false. intros Hn%needy_owner_alive; [|done].
         rewrite Hq in Hn. by destruct Hn as (? & [] & _). }
       destruct (IH oqs needy) as [H1 H2]; auto. split; [done|]. intros o. by rewrite H2, Hiff. }
  destruct (pruneHead_inv _ _ _ Hq) as [Hq' _].
  pose proof (pruneHead_alive _ _ _ Hq) as Halive.
  assert (Hinv' : owner_queues_inv (map_set ow (pruneHead dead q) oqs)).
  { intros o Ho. rewrite map_get_set. case_decide; subst; [done|]. by apply Hinv. }
  rewrite (qi_entries _ _ _ Hq').
  destruct (_ !! _) as [e0|] eqn:E0.
  - assert (Hnow : needy_owner ow = true) by (apply needy_owner_alive, Halive; eauto).
    assert (Hny' : ∀ o, o ∈ needy ++ [ow] → needy_owner o = true).
    { intros o [?|Ho%list_elem_of_singleton]%elem_of_app; [auto|by subst]. }
    rewrite cons_middle, (app_assoc needy) in Hnd.
    case_bool_decide as Htwo.
    + simpl. split; [done|]. intros o. destruct needy as [|o1 [|]]; simpl in *; try lia.
      apply NoDup_cons in Hnd as [Hne _].
      assert (o1 ≠ ow) by (intros ->; apply Hne; left).
      assert (needy_owner o1 = true) by (apply Hny; left).
      split; [intros _|intros _; unfold waitingBesides; simpl].
      * destruct (decide (o1 = o)) as [->|]; [exists ow|exists o1]; (split; [set_solver|]);
          split; congruence.
      * destruct (decide (o1 = o)) as [->|]; [rewrite (bool_decide_false (ow = o)) by congruence|
          rewrite (bool_decide_false (o1 = o)) by done]; simpl; auto using orb_true_r.
    + destruct (IH (map_set ow (pruneHead dead q) oqs) (needy ++ [ow])) as [H1 H2]; auto.
      { rewrite length_app in *. simpl in *. lia. }
      split; [done|]. intros o. rewrite H2, <- app_assoc. done.
  - destruct Hdrop as [Hnd' Hiff].
    { apply not_true_is_false. intros Hn%needy_owner_alive; [|done].
      apply Halive in Hn as [? ?]. congruence. }
    destruct (IH (map_set ow (pruneHead dead q) oqs) needy) as [H1 H2]; auto.
    split; [done|]. intros o. by rewrite H2, Hiff.
Qed.
End Needy.

(** ** Scanning a class *)

Section Scan.
Variables (dead : Entry → bool) (all : list Entry) (limit : option Z) (active : Z).
Variables (remaining : jsmap string Z) (total : Z).
Hypothesis remaining_nodup : NoDup (map_keys remaining).

Definition needed (o : string) : bool := map_has o remaining.

(** Some other owner with unmet kept slots has a live entry. *)
Definition others_needy (o : string) : bool :=
  existsb (λ o', needy_owner dead all needed o' && negb (bool_decide (o' = o)))
    (map_keys remaining).

Definition blocked (e : Entry) : bool :=
  opt_borrowed limit active remaining total (waiter e)
  && (negb (borrowReserved (waiter e)) || others_needy (ownerKey (waiter e))).

Definition arb_inv (arb : Arbitration) : Prop :=
  owner_queues_inv dead all needed (a_ownerQueues arb) ∧
  match a_needyOwners arb with
  | None => True
  | Some needy => ∀ o, waitingBesides needy o = others_needy o
  end.

Lemma ownerWaitingBesides_spec o arb :
  arb_inv arb →
  let r := ownerWaitingBesides dead remaining o arb in
  r.1 = others_needy o ∧ arb_inv r.2.
Proof.
  intros [Hq Hn]. unfold ownerWaitingBesides.
  destruct (a_needyOwners arb) as [needy|] eqn:En.
  { simpl. split; [auto|]. split; [done|]. by rewrite En. }
  destruct (collectNeedy_spec dead all needed (map_keys remaining) (a_ownerQueues arb) [])
    as [H1 H2]; auto; simpl; try lia.
  { intros o' Ho'. unfold needed, map_has. apply bool_decide_eq_true. by apply map_get_keys. }
  { by intros o' ?%not_elem_of_nil. }
  destruct (collectNeedy _ _ _ _) as [needy oqs]. simpl in *.
  assert (Heq : ∀ o, waitingBesides needy o = others_needy o).
  { intros o'. apply eq_true_iff_eq. rewrite H2. unfold others_needy. rewrite existsb_exists.
    split; intros (x & Hx & Hy); exists x.
    - destruct Hy as [-> Hne]. split; [by apply list_elem_of_In|]. by rewrite bool_decide_false.
    - split_ands. bool_to_prop. split; [by apply list_elem_of_In|done]. }
  split; [apply Heq|]. by split.
Qed.

Lemma opt_blocked_spec e arb :
  arb_inv arb →
  let r := opt_blocked dead limit active remaining total (waiter e) arb in
  r.1 = blocked e ∧ arb_inv r.2.
Proof.
  intros Ha. unfold opt_blocked, blocked.
  destruct (opt_borrowed _ _ _ _ _); simpl; [|done].
  destruct (negb (borrowReserved _)); simpl; [done|].
  by apply ownerWaitingBesides_spec.
Qed.

(** Entries a class scan returns. *)
Definition pickable (e : Entry) : bool := negb (dead e) && negb (blocked e).

Lemma find_drop (P : Entry → bool) es i j :
  (i ≤ j ≤ length es)%nat →
  (∀ k e, (i ≤ k < j)%nat → es !! k = Some e → P e = false) →
  List.find P (drop i es) = List.find P (drop j es).
Proof.
  intros Hij Hno. remember (j - i)%nat as n eqn:En. revert i Hij Hno En.
  induction n as [|n IH]; intros i Hij Hno En.
  { by replace j with i by lia. }
  destruct (lookup_lt_is_Some_2 es i) as [e He]; [lia|].
  rewrite (drop_S es e i He). simpl. rewrite (Hno i e) by (done || lia).
  apply IH; [lia| |lia]. intros k e' Hk. apply Hno. lia.
Qed.

Lemma nextOf_insert next p v i :
  (p < length next)%nat → nextOf (<[p:=v]> next) i = if decide (i = p) then v else nextOf next i.
Proof.
  intros Hp. unfold nextOf. case_decide as E; subst.
  - by rewrite list_lookup_insert_eq.
  - by rewrite list_lookup_insert_ne.
Qed.

(** Where the scan stands: nothing pickable before [index], and the gap since [previous]
    (or since the start) is dead. *)
Definition scan_at (es : list Entry) (previous : option nat) (index : nat) : Prop :=
  (index ≤ length es)%nat ∧
  match previous with
  | None => ∀ j e, (j < index)%nat → es !! j = Some e → dead e = true
  | Some p => (p < index)%nat ∧
              ∀ j e, (p < j < index)%nat → es !! j = Some e → dead e = true
  end.

Lemma unlink_inv es q previous index e :
  queue_inv dead es q → scan_at es previous index →
  es !! index = Some e → dead e = true →
  let next := nextOf (q_next q) index in
  queue_inv dead es (unlink q previous next) ∧ scan_at es previous next.
Proof.
  intros [He Hl Hn Hh Hb Hs] [Hi Hprev] Hidx Hdead. simpl.
  assert (index < length es)%nat as Hlt by (by eapply lookup_lt_Some).
  pose proof (Hn index Hlt) as Hnx. set (next := nextOf (q_next q) index) in *.
  assert (Hgap : ∀ j e', (index ≤ j < next)%nat → es !! j = Some e' → dead e' = true).
  { intros j e' Hj He'. destruct (decide (j = index)) as [->|]; [congruence|].
    apply (Hs index j e'); auto; lia. }
  destruct previous as [p|]; simpl in *; split; try split; simpl; auto; try lia.
  - by rewrite length_insert.
  - intros i Hi'. rewrite nextOf_insert by lia. case_decide; subst; [lia|auto].
  - intros i j e' Hi' Hj He'. rewrite nextOf_insert in Hj by lia. case_decide; subst; [|eauto].
    destruct (decide (j < index)%nat); [eapply Hprev; eauto; lia|eapply Hgap; eauto; lia].
  - split; [lia|]. intros j e' Hj He'.
    destruct (decide (j < index)%nat); [eapply Hprev; eauto; lia|eapply Hgap; eauto; lia].
  - intros j e' Hj He'.
    destruct (decide (j < index)%nat); [eapply Hprev; eauto; lia|eapply Hgap; eauto; lia].
  - intros j e' Hj He'.
    destruct (decide (j < index)%nat); [eapply Hprev; eauto; lia|eapply Hgap; eauto; lia].
Qed.

Lemma unlink_entries q previous next : q_entries (unlink q previous next) = q_entries q.
Proof. by destruct previous. Qed.

Lemma skip_not_pickable es q index j e :
  queue_inv dead es q → (index < length es)%nat → (index < j < nextOf (q_next q) index)%nat →
  es !! j = Some e → pickable e = false.
Proof. intros Hq Hi Hj He. unfold pickable. by rewrite (qi_skipped _ _ _ Hq index j e). Qed.

Lemma scanQueue_spec fuel es q previous index arb :
  queue_inv dead es q → scan_at es previous index → arb_inv arb →
  (length es - index < fuel)%nat →
  let '(q', arb', found) := scanQueue dead limit active remaining total fuel q previous index arb in
  queue_inv dead es q' ∧ arb_inv arb' ∧
  found = (λ e, (e, opt_borrowed limit active remaining total (waiter e)))
            <$> List.find pickable (drop index es).
Proof.
  revert q previous index arb.
  induction fuel as [|fuel IH]; intros q previous index arb Hq Hat Ha Hf; [lia|].
  cbn [scanQueue]. rewrite (qi_entries _ _ _ Hq).
  destruct (es !! index) as [e|] eqn:He.
  2: { split_and!; auto. apply lookup_ge_None in He. by rewrite drop_ge. }
  assert (index < length es)%nat as Hlt by (by eapply lookup_lt_Some).
  pose proof (qi_next _ _ _ Hq index Hlt) as Hnx.
  assert (Hskip : pickable e = false →
    List.find pickable (drop index es)
    = List.find pickable (drop (nextOf (q_next q) index) es)).
  { intros Hp. apply find_drop; [lia|]. intros k e' Hk He'.
    destruct (decide (k = index)) as [->|]; [congruence|].
    eapply (skip_not_pickable es q index k); eauto; lia. }
  destruct (dead e) eqn:Hd.
  - rewrite Hskip by (unfold pickable; by rewrite Hd).
    destruct (unlink_inv es q previous index e) as [Hq' Hat']; auto.
    apply IH; auto. lia.
  - destruct (opt_blocked_spec e arb Ha) as [Hb Ha'].
    destruct (opt_blocked _ _ _ _ _ _ _) as [b arb'] eqn:Eb. simpl in Hb, Ha'. subst b.
    destruct (blocked e) eqn:Hbl.
    + rewrite Hskip by (unfold pickable; by rewrite Hbl, andb_false_r).
      apply IH; auto; [|lia]. split; [lia|]. split; [lia|].
      intros j e' Hj. by apply (qi_skipped _ _ _ Hq index).
    + split_and!; auto. rewrite (drop_S es e index He). simpl.
      unfold pickable at 1. by rewrite Hd, Hbl.
Qed.

Lemma scan_class_spec es q arb :
  queue_inv dead es q → arb_inv arb →
  let q0 := pruneHead dead q in
  let '(q', arb', found) := scanQueue dead limit active remaining total
    (S (length (q_entries q0))) q0 None (q_head q0) arb in
  queue_inv dead es q' ∧ arb_inv arb' ∧
  found = (λ e, (e, opt_borrowed limit active remaining total (waiter e)))
            <$> List.find pickable es.
Proof.
  intros Hq Ha q0. destruct (pruneHead_inv dead es q Hq) as [Hq0 _].
  fold q0 in Hq0. rewrite (qi_entries _ _ _ Hq0).
  pose proof (scanQueue_spec (S (length es)) es q0 None (q_head q0) arb Hq0) as Hs.
  destruct (scanQueue _ _ _ _ _ _ _ _ _ _) as [[q' arb'] found].
  destruct Hs as (H1 & H2 & H3); auto; [|lia|].
  { split; [apply (qi_head _ _ _ Hq0)|apply (qi_before _ _ _ Hq0)]. }
  split_and!; auto. rewrite H3. f_equal. symmetry.
  rewrite <- (drop_0 es) at 1. apply find_drop; [split; [lia|apply (qi_head _ _ _ Hq0)]|].
  intros k e Hk He. unfold pickable.
  by rewrite (qi_before _ _ _ Hq0 k e) by (lia || done).
Qed.

(** The entries of class [p]. *)
Definition of_class (p : Z) (e : Entry) : bool := priority (waiter e) =? p.

Definition classes_inv (classes : jsmap Z Queue) : Prop :=
  Forall (λ '(p, q), queue_inv dead (List.filter (of_class p) all) q) classes.

Definition class_pick (p : Z) : option Entry :=
  List.find pickable (List.filter (of_class p) all).

Lemma scanClasses_spec classes arb :
  classes_inv classes → arb_inv arb →
  let '(classes', arb', eligible) := scanClasses dead limit active remaining total classes arb in
  classes_inv classes' ∧ map_keys classes' = map_keys classes ∧ arb_inv arb' ∧
  eligible = map (λ e, (e, opt_borrowed limit active remaining total (waiter e)))
               (omap class_pick (map_keys classes)).
Proof.
  intros Hc. revert arb. induction Hc as [|[p q] classes Hq _ IH]; intros arb Ha.
  { split_and!; try done; by apply Forall_nil. }
  cbn [scanClasses]. pose proof (scan_class_spec _ q arb Hq Ha) as Hs. cbv zeta in Hs.
  destruct (scanQueue _ _ _ _ _ _ _ _ _ _) as [[q' arb'] found].
  destruct Hs as (Hq' & Ha' & ->). specialize (IH arb' Ha').
  destruct (scanClasses _ _ _ _ _ _ _) as [[classes' arb''] eligible].
  destruct IH as (H1 & H2 & H3 & ->). split_and!; auto.
  - by apply Forall_cons.
  - unfold map_keys in *. simpl. by f_equal.
  - unfold map_keys. simpl. unfold class_pick at 3.
    destruct (List.find pickable _); done.
Qed.
End Scan.
