(* ===== verification/PlannerEquiv.v ===== *)
(** * The optimised planner computes exactly the reference plan

    A simulation between the loops of [planGrants] and [referencePlanGrants]: the queues,
    the incremental kept-slot counters and the lazy needy-owner search of the former agree,
    at every step, with the direct statement of the rules in the latter. *)

From S2P Require Import Prelude Scheduler AdmissionPlanner PlannerQueues.

(** ** Scheduling the class heads is scheduling everyone *)

Section ClassHeads.
Context `{C : Collation} `{!CollationLaws C}.

Notation entry_cmp := (λ a b, compareSchedulerCandidates (candidate a) (candidate b)).

(** Entries as the planners build them. *)
Definition entry_ok (e : Entry) : Prop :=
  candidate e = candidate (entryOf (waiter e)) ∧ priority_ok (priority (waiter e)).

Definition class_heads (ps : list Z) (E : list Entry) : list Entry :=
  omap (λ p, head (List.filter (of_class p) E)) ps.

Lemma in_class_candidate p e : entry_ok e → in_class p (candidate e) = of_class p e.
Proof. intros [-> _]. done. Qed.

Lemma filter_in_class p E :
  Forall entry_ok E →
  List.filter (in_class p) (map candidate E) = map candidate (List.filter (of_class p) E).
Proof.
  induction 1 as [|e E He _ IH]; simpl; [done|].
  rewrite in_class_candidate by done. destruct (of_class p e); simpl; by rewrite IH.
Qed.

Lemma sorted_candidates E :
  sorted_by entry_cmp E → sorted_by compareSchedulerCandidates (map candidate E).
Proof.
  induction E as [|e E IH]; simpl; [done|]. intros [He HE]. split; [|auto].
  intros c (e' & <- & Hin)%in_map_iff. by apply He.
Qed.

Lemma filter_head_in p E e : head (List.filter (of_class p) E) = Some e → In e E ∧ of_class p e = true.
Proof.
  intros Hh. apply filter_In. destruct (List.filter _ _); [done|]. simplify_eq/=. by left.
Qed.

Lemma class_heads_in ps E e : In e (class_heads ps E) → In e E.
Proof.
  unfold class_heads. rewrite <- !list_elem_of_In. rewrite list_elem_of_omap.
  intros (p & _ & Hp). apply list_elem_of_In. by apply filter_head_in in Hp as [? _].
Qed.

Lemma class_heads_filter p ps E :
  NoDup ps → (∀ e, In e E → priority (waiter e) ∈ ps) →
  List.filter (of_class p) (class_heads ps E) = option_list (head (List.filter (of_class p) E)).
Proof.
  intros Hnd Hcover.
  assert (Hno : ∀ ps, p ∉ ps → List.filter (of_class p) (class_heads ps E) = []).
  { intros ps' Hp. unfold class_heads. induction ps' as [|p' ps' IH]; [done|]. simpl.
    apply not_elem_of_cons in Hp as [Hp Hps].
    destruct (head _) as [e|] eqn:Eh; [|by apply IH]. simpl.
    apply filter_head_in in Eh as [_ He]. unfold of_class in *. bool_to_prop.
    rewrite (proj2 (Z.eqb_neq _ _)) by congruence. by apply IH. }
  destruct (decide (p ∈ ps)) as [Hin|Hout].
  - apply list_elem_of_split in Hin as (l1 & l2 & ->).
    apply NoDup_app in Hnd as (_ & Hdisj & [Hp2 _]%NoDup_cons).
    unfold class_heads. rewrite omap_app, List.filter_app.
    fold (class_heads l1 E). rewrite (Hno l1) by (intros H; apply (Hdisj p H); by left).
    simpl. destruct (head _) as [e|] eqn:Eh; simpl.
    + pose proof (filter_head_in _ _ _ Eh) as [_ He]. rewrite He. simpl. f_equal.
      apply (Hno l2 Hp2).
    + apply (Hno l2 Hp2).
  - rewrite (Hno ps Hout). destruct (head _) as [e|] eqn:Eh; [|done].
    apply filter_head_in in Eh as [HinE He]. unfold of_class in He. bool_to_prop.
    apply Hcover in HinE. congruence.
Qed.

Lemma class_queue_entries p E :
  Forall entry_ok E → sorted_by entry_cmp E →
  class_queue p (map candidate E) = map candidate (List.filter (of_class p) E).
Proof.
  intros Hok Hs. unfold class_queue. rewrite filter_in_class by done. apply sort_by_id.
  by apply sorted_candidates, sorted_by_filter.
Qed.

Lemma Forall_class_heads (P : Entry → Prop) ps E : Forall P E → Forall P (class_heads ps E).
Proof.
  rewrite !Forall_forall. intros HE e Hin%list_elem_of_In. apply HE.
  apply list_elem_of_In. by eapply class_heads_in.
Qed.

Lemma class_queue_heads p ps E :
  NoDup ps → (∀ e, In e E → priority (waiter e) ∈ ps) →
  Forall entry_ok E →
  class_queue p (map candidate (class_heads ps E))
  = map candidate (option_list (head (List.filter (of_class p) E))).
Proof.
  intros Hnd Hcov Hok. unfold class_queue.
  rewrite filter_in_class by (by apply Forall_class_heads).
  rewrite class_heads_filter by done. by destruct (head _).
Qed.

Lemma pick_class_ext has has' quanta st :
  (∀ p, has p = has' p) → pick_class has quanta st = pick_class has' quanta st.
Proof.
  intros H. unfold pick_class, first_class. rewrite !H.
  by rewrite (resetIdle_ext has has' (deficits st) H).
Qed.

(** The decision depends on the first entry of each class only. *)
Lemma schedule_class_heads ps E st quanta :
  NoDup ps → (∀ e, In e E → priority (waiter e) ∈ ps) →
  Forall entry_ok E → sorted_by entry_cmp E →
  scheduleWeightedDeficitRoundRobin (map candidate (class_heads ps E)) st quanta
  = scheduleWeightedDeficitRoundRobin (map candidate E) st quanta.
Proof.
  intros Hnd Hcov Hok Hs.
  destruct (validateScheduler st quanta) as [[]|err] eqn:Ev.
  2: { unfold scheduleWeightedDeficitRoundRobin. by rewrite Ev. }
  apply validate_inv in Ev as [Hst Hq].
  assert (Hcok : ∀ E, Forall entry_ok E → candidates_ok (map candidate E)).
  { intros E' HE' c (e & <- & Hin)%in_map_iff.
    rewrite Forall_forall in HE'. destruct (HE' e) as [-> Hp]; [by apply list_elem_of_In|done]. }
  rewrite !schedule_spec by (auto using Forall_class_heads).
  assert (Hhead : ∀ p, head (class_queue p (map candidate (class_heads ps E)))
                       = head (class_queue p (map candidate E))).
  { intros p. rewrite class_queue_heads, class_queue_entries by done.
    by destruct (List.filter (of_class p) E). }
  rewrite (pick_class_ext _ (class_waiting (map candidate E))).
  - destruct (pick_class _ _ _) as [[p|] st']; simpl; [by rewrite Hhead|done].
  - intros p. rewrite !class_waiting_queue. specialize (Hhead p).
    destruct (class_queue p (map candidate (class_heads ps E))),
      (class_queue p (map candidate E)); done.
Qed.

(** ** Who won *)

Lemma find_unique (P : Entry → bool) (l : list Entry) e :
  In e l → P e = true → (∀ e', In e' l → P e' = true → e' = e) → List.find P l = Some e.
Proof.
  induction l as [|x l IH]; [done|]. intros Hin HP Huniq. simpl.
  destruct (P x) eqn:Ex; [f_equal; apply Huniq; [by left|done]|].
  destruct Hin as [->|Hin]; [congruence|]. apply IH; auto. intros; apply Huniq; [by right|done].
Qed.

(** Waiter ids identify entries. *)
Definition ids_unique (E : list Entry) : Prop :=
  ∀ e e', In e E → In e' E → waiterId (waiter e) = waiterId (waiter e') → e = e'.

Lemma candidate_waiterId e : entry_ok e → c_waiterId (candidate e) = waiterId (waiter e).
Proof. intros [-> _]. done. Qed.

Lemma findWinner_heads ps E decision st quanta :
  NoDup ps → (∀ e, In e E → priority (waiter e) ∈ ps) →
  Forall entry_ok E → sorted_by entry_cmp E → ids_unique E →
  scheduleWeightedDeficitRoundRobin (map candidate E) st quanta = Ok decision →
  findWinner decision (class_heads ps E) = findWinner decision E.
Proof.
  intros Hnd Hcov Hok Hs Hids Hsched. unfold findWinner.
  destruct (winner decision) as [c|] eqn:Ew; [|done].
  assert (Hv : state_ok st ∧ quanta_ok quanta ∧ candidates_ok (map candidate E)).
  { unfold scheduleWeightedDeficitRoundRobin in Hsched.
    destruct (validateScheduler st quanta) as [[]|] eqn:Ev; [|done].
    destruct (fileCandidates (map candidate E) []) eqn:Ef; [|done].
    apply fileCandidates_inv in Ef. by apply validate_inv in Ev as []. }
  destruct Hv as (Hst & Hq & Hc). rewrite schedule_spec in Hsched by done.
  destruct (pick_class _ _ _) as [[p|] st']; simplify_eq/=.
  rewrite class_queue_entries in Ew by done.
  destruct (List.filter (of_class p) E) as [|e rest] eqn:Ef; simplify_eq/=.
  assert (Hhead : head (List.filter (of_class p) E) = Some e) by (by rewrite Ef).
  pose proof (filter_head_in _ _ _ Hhead) as [HinE Hpe].
  assert (Huniq : ∀ e', In e' E → bool_decide (candidate e' = candidate e) = true → e' = e).
  { intros e' Hin' Heq. bool_to_prop. apply Hids; auto.
    rewrite Forall_forall in Hok.
    rewrite <- !candidate_waiterId by (apply Hok; by apply list_elem_of_In). by rewrite Heq. }
  assert (HinH : In e (class_heads ps E)).
  { apply list_elem_of_In, list_elem_of_omap. exists p. split; [|done].
    unfold of_class in Hpe. bool_to_prop. subst p. by apply Hcov. }
  rewrite (find_unique _ (class_heads ps E) e), (find_unique _ E e); auto using bool_decide_eq_true_2.
  intros e' Hin'. apply Huniq. by eapply class_heads_in.
Qed.

(** ** The borrowed flags *)

Lemma borrowedByWaiter_lookup (b : Entry → bool) (E : list Entry) e :
  In e E → (∀ e', In e' E → waiterId (waiter e') = waiterId (waiter e) → b e' = b e) →
  map_get (waiterId (waiter e)) (borrowedByWaiter (map (λ e, (e, b e)) E)) = Some (b e).
Proof.
  unfold borrowedByWaiter. generalize (@nil (string * bool)) as m.
  induction E as [|x E IH] using rev_ind; [done|]. intros m Hin Hb.
  rewrite map_app, foldl_app. simpl. rewrite map_get_set.
  destruct (decide (waiterId (waiter x) = waiterId (waiter e))) as [Heq|Hne].
  - f_equal. apply Hb; [apply in_app_iff; right; by left|done].
  - apply in_app_iff in Hin as [Hin|[->|[]]]; [|done].
    apply IH; auto. intros e' Hin'. apply Hb. apply in_app_iff. by left.
Qed.
End ClassHeads.

(** ** The simulation relation *)

Section Simulation.
Context `{C : Collation} `{!CollationLaws C}.
Variables (now : Z) (limit : option Z) (reservations : jsmap string Z).
Variables (options : PlannerOptions) (all : list Entry).
Hypothesis reservations_nodup : NoDup (map_keys reservations).
Hypothesis all_grantable : ∀ e, In e all → grantable now (waiter e) = true.
Hypothesis all_ok : Forall entry_ok all.
Hypothesis all_sorted :
  sorted_by (λ a b, compareSchedulerCandidates (candidate a) (candidate b)) all.
Hypothesis all_ids : ids_unique all.

Definition not_taken (o : PlanState) (e : Entry) : bool :=
  negb (bool_decide (admissionRequestId (waiter e) ∈ o_takenRequests o)).

(** The counters both planners keep, and the derived data of the optimised one. *)
Record sim (r : RefState) (o : PlanState) : Prop := {
  sim_active : o_active o = r_active r;
  sim_owners : o_activeByOwner o = r_activeByOwner r;
  sim_scopes : o_scopeActive o = r_scopeActive r;
  sim_sched : o_scheduler o = r_scheduler r;
  sim_grants : o_grants o = r_grants r;
  sim_counts : ∀ ow, 0 ≤ ownerActive (r_activeByOwner r) ow;
  sim_entries : List.filter (λ e, grantable now (waiter e)) (r_entries r)
                = List.filter (not_taken o) all;
  sim_remaining : ∀ ow, default 0 (map_get ow (o_remaining o))
                        = ref_remaining reservations (r_activeByOwner r) ow;
  sim_positive : ∀ ow n, map_get ow (o_remaining o) = Some n → 0 < n;
  sim_nodup : NoDup (map_keys (o_remaining o));
  sim_total : o_reservedTotal o = ref_reservedTotal reservations (r_activeByOwner r);
  sim_classes : classes_inv (opt_dead o) all (o_classes o);
  sim_class_keys : NoDup (map_keys (o_classes o)) ∧
                   ∀ e, In e all → priority (waiter e) ∈ map_keys (o_classes o);
  sim_owner_queues : owner_queues_inv (opt_dead o) all (needed (o_remaining o)) (o_ownerQueues o);
}.

Lemma sim_needed r o ow :
  sim r o → needed (o_remaining o) ow = (0 <? ref_remaining reservations (r_activeByOwner r) ow).
Proof.
  intros Hs. unfold needed, map_has. rewrite <- (sim_remaining r o Hs).
  destruct (map_get ow (o_remaining o)) as [n|] eqn:E.
  - rewrite bool_decide_true by eauto. simpl. symmetry.
    apply Z.ltb_lt. by eapply (sim_positive r o).
  - rewrite bool_decide_false by (by intros [? ?]). done.
Qed.

Lemma sim_unmet r o ow :
  sim r o →
  needed (o_remaining o) ow
  = negb (default 0 (map_get ow reservations) <=? ownerActive (r_activeByOwner r) ow).
Proof.
  intros Hs. rewrite (sim_needed r) by done. unfold ref_remaining.
  destruct (Z.leb_spec (default 0 (map_get ow reservations))
    (ownerActive (r_activeByOwner r) ow)); simpl; [apply Z.ltb_ge|apply Z.ltb_lt]; lia.
Qed.

Lemma filter_eq_In {A} (P Q : A → bool) (l1 l2 : list A) x :
  List.filter P l1 = List.filter Q l2 → (In x l1 ∧ P x = true ↔ In x l2 ∧ Q x = true).
Proof. intros Heq. rewrite <- !filter_In. by rewrite Heq. Qed.

Lemma sim_others_needy r o ow :
  sim r o →
  others_needy (opt_dead o) all (o_remaining o) ow
  = waitingBesides (ref_needy now reservations r) ow.
Proof.
  intros Hs. apply eq_true_iff_eq. unfold others_needy, waitingBesides.
  rewrite !existsb_exists.
  assert (Hneedy : ∀ ow', needy_owner (opt_dead o) all (needed (o_remaining o)) ow' = true ↔
    In ow' (ref_needy now reservations r)).
  { intros ow'. unfold needy_owner, ref_needy. rewrite in_map_iff, andb_true_iff, existsb_exists.
    split.
    - intros (Hn & e & Hin & He). unfold of_owner, opt_dead in He. split_ands. bool_to_prop.
      exists e. split; [done|]. apply filter_In.
      destruct (proj2 (filter_eq_In _ _ _ _ e (sim_entries r o Hs))) as [Hin' Hg].
      { split; [done|]. unfold not_taken. by rewrite bool_decide_false. }
      split; [done|]. rewrite Hg. simpl. rewrite <- (sim_scopes r o Hs).
      rewrite <- (sim_unmet r o) by done. subst ow'. rewrite Hn. simpl. done.
    - intros (e & <- & [Hin He]%filter_In). split_ands.
      destruct (proj1 (filter_eq_In _ _ _ _ e (sim_entries r o Hs))) as [Hin' Hnt]; [done|].
      rewrite (sim_unmet r o) by done.
      split; [by apply negb_true_iff|]. exists e. split; [done|].
      unfold of_owner, opt_dead. rewrite bool_decide_true by done. simpl.
      unfold not_taken in Hnt. rewrite (sim_scopes r o Hs).
      match goal with H : scopeHasRoom _ _ = true |- _ => rewrite H end.
      apply negb_true_iff in Hnt. by rewrite Hnt. }
  split; intros (ow' & H1 & H2); exists ow'; split_ands.
  - split; [by apply Hneedy|]. bool_to_prop. by rewrite bool_decide_false.
  - assert (Hn : needy_owner (opt_dead o) all (needed (o_remaining o)) ow' = true)
      by (by apply Hneedy).
    split; [|rewrite Hn; simpl; by apply negb_true_iff].
    unfold needy_owner in Hn. split_ands. unfold needed, map_has in *. bool_to_prop.
    apply list_elem_of_In. by apply map_get_keys.
Qed.

(** The entries the reference finds eligible are the ones the class scans may pick. *)
Definition opt_pickable (o : PlanState) : Entry → bool :=
  pickable (opt_dead o) all limit (o_active o) (o_remaining o) (o_reservedTotal o).

Lemma sim_borrowed r o e :
  sim r o →
  opt_borrowed limit (o_active o) (o_remaining o) (o_reservedTotal o) (waiter e)
  = ref_borrowed limit reservations r e.
Proof.
  intros Hs. unfold opt_borrowed, ref_borrowed.
  by rewrite (sim_remaining r o), (sim_total r o), (sim_active r o).
Qed.

Lemma sim_pickable r o e :
  sim r o → In e all →
  opt_pickable o e = not_taken o e && ref_eligible now limit reservations r e.
Proof.
  intros Hs Hin. unfold opt_pickable, pickable, blocked, ref_eligible.
  rewrite (sim_others_needy r) by done. rewrite (sim_borrowed r) by done.
  rewrite (all_grantable e Hin). unfold opt_dead, not_taken. rewrite (sim_scopes r o) by done.
  destruct (bool_decide _); [done|]. simpl.
  destruct (scopeHasRoom _ _); [|done]. simpl.
  destruct (ref_borrowed _ _ _ _); [|done]. simpl.
  destruct (borrowReserved _), (waitingBesides _ _); done.
Qed.

Lemma sim_eligible r o :
  sim r o →
  List.filter (ref_eligible now limit reservations r) (r_entries r)
  = List.filter (opt_pickable o) all.
Proof.
  intros Hs. rewrite (filter_ext_In (opt_pickable o) _ all (λ e, sim_pickable r o e Hs)).
  rewrite <- filter_filter, <- (sim_entries r o Hs), filter_filter. apply filter_ext.
  intros e. unfold ref_eligible. by destruct (grantable now (waiter e)).
Qed.

(** The picks of the class scans are the class heads of the eligible entries. *)
Lemma class_picks o ps :
  omap (class_pick (opt_dead o) all limit (o_active o) (o_remaining o) (o_reservedTotal o)) ps
  = class_heads ps (List.filter (opt_pickable o) all).
Proof.
  unfold class_heads. apply omap_ext. intros p. unfold class_pick.
  rewrite find_head_filter. fold (opt_pickable o). by rewrite filter_comm.
Qed.

(** ** One grant preserves the relation *)

Lemma bumpScopes_mono keys m k :
  default 0 (m !! k) ≤ default 0 (bumpScopes keys m !! k).
Proof.
  revert m. induction keys as [|key keys IH]; intros m; simpl; [lia|].
  etrans; [|apply IH]. destruct (m !! key) as [n|] eqn:E; [|done].
  rewrite lookup_insert. case_decide; subst; [rewrite E; simpl; lia|done].
Qed.

Lemma scopeHasRoom_bump keys m w :
  scopeHasRoom (bumpScopes keys m) w = true → scopeHasRoom m w = true.
Proof.
  unfold scopeHasRoom. rewrite !forallb_forall. intros H [key l] Hin.
  specialize (H _ Hin). simpl in H. pose proof (bumpScopes_mono keys m key).
  apply Z.ltb_lt. apply Z.ltb_lt in H. lia.
Qed.

Lemma opt_dead_apply o classes oqs e b sched e' :
  opt_dead o e' = true → opt_dead (opt_apply o classes oqs e b sched) e' = true.
Proof.
  unfold opt_dead. simpl. rewrite !orb_true_iff. intros [H|H].
  - left. bool_to_prop. apply bool_decide_eq_true. set_solver.
  - right. apply negb_true_iff in H. apply negb_true_iff, not_true_is_false.
    intros Hr%scopeHasRoom_bump. congruence.
Qed.

Lemma ref_remaining_insert abo ow ow' :
  ref_remaining reservations (<[ow := ownerActive abo ow + 1]> abo) ow'
  = if decide (ow = ow')
    then Z.max 0 (default 0 (map_get ow reservations) - (ownerActive abo ow + 1))
    else ref_remaining reservations abo ow'.
Proof.
  unfold ref_remaining, ownerActive. rewrite lookup_insert. by case_decide; subst.
Qed.

Lemma sum_update (f g : string → Z) (l : list string) ow d :
  NoDup l → (∀ x, x ≠ ow → g x = f x) → g ow = f ow - d →
  foldr Z.add 0 (map g l) = foldr Z.add 0 (map f l) - (if decide (ow ∈ l) then d else 0).
Proof.
  intros Hnd Hne Heq. induction l as [|x l IH]; [done|].
  apply NoDup_cons in Hnd as [Hx Hnd]. cbn [map foldr]. rewrite IH by done.
  destruct (decide (x = ow)) as [->|Hxo].
  - rewrite Heq, (decide_False (P:=ow ∈ l)) by done. rewrite decide_True by (by left). lia.
  - rewrite (Hne x Hxo). destruct (decide (ow ∈ l)).
    + rewrite decide_True by (by right). lia.
    + rewrite decide_False; [lia|]. by intros [?|?]%elem_of_cons.
Qed.

Lemma ref_reservedTotal_insert abo ow :
  (∀ x, 0 ≤ ownerActive abo x) →
  ref_reservedTotal reservations (<[ow := ownerActive abo ow + 1]> abo)
  = ref_reservedTotal reservations abo
    - (if 0 <? ref_remaining reservations abo ow then 1 else 0).
Proof.
  intros Hc. unfold ref_reservedTotal.
  rewrite (sum_update (ref_remaining reservations abo)
    (ref_remaining reservations (<[ow := ownerActive abo ow + 1]> abo)) _ ow
    (if 0 <? ref_remaining reservations abo ow then 1 else 0)); [|done| |].
  - destruct (decide (ow ∈ map_keys reservations)) as [|Hout]; [done|].
    unfold ref_remaining. destruct (map_get ow reservations) as [n|] eqn:E.
    + destruct Hout. apply map_get_keys. eauto.
    + simpl. specialize (Hc ow). destruct (Z.ltb_spec 0 (Z.max 0 (0 - ownerActive abo ow))); lia.
  - intros x Hx. rewrite ref_remaining_insert. by rewrite decide_False by congruence.
  - rewrite ref_remaining_insert. rewrite decide_True by done. unfold ref_remaining.
    destruct (Z.ltb_spec 0 (Z.max 0 (default 0 (map_get ow reservations) - ownerActive abo ow))); lia.
Qed.

(** The remaining map after a grant, by lookup. *)
Lemma opt_apply_remaining o classes oqs e b sched ow' :
  (∀ ow n, map_get ow (o_remaining o) = Some n → 0 < n) →
  map_get ow' (o_remaining (opt_apply o classes oqs e b sched))
  = if decide (ownerKey (waiter e) = ow')
    then match map_get ow' (o_remaining o) with
         | Some n => if n =? 1 then None else Some (n - 1)
         | None => None
         end
    else map_get ow' (o_remaining o).
Proof.
  intros Hpos. simpl. set (ow := ownerKey (waiter e)).
  destruct (map_get ow (o_remaining o)) as [n|] eqn:E; simpl.
  - rewrite (proj2 (Z.ltb_lt 0 n)) by eauto.
    destruct (Z.eqb_spec n 1); [rewrite map_get_delete|rewrite map_get_set]; case_decide; subst; try done.
    + by rewrite E.
    + rewrite E. by rewrite (proj2 (Z.eqb_neq n 1)).
  - case_decide; subst; [by rewrite E|done].
Qed.

Lemma opt_apply_remaining_nodup o classes oqs e b sched :
  NoDup (map_keys (o_remaining o)) →
  NoDup (map_keys (o_remaining (opt_apply o classes oqs e b sched))).
Proof.
  intros Hnd. simpl. destruct (map_get _ _) as [n|] eqn:E; simpl; [|done].
  destruct (0 <? n); [|done]. destruct (n =? 1).
  - rewrite map_keys_delete. by apply NoDup_ListNoDup, List.NoDup_filter, NoDup_ListNoDup.
  - by apply map_set_NoDup.
Qed.

Lemma needed_apply o classes oqs e b sched ow :
  (∀ ow n, map_get ow (o_remaining o) = Some n → 0 < n) →
  needed (o_remaining (opt_apply o classes oqs e b sched)) ow = true →
  needed (o_remaining o) ow = true.
Proof.
  intros Hpos. unfold needed, map_has. rewrite !bool_decide_eq_true.
  rewrite opt_apply_remaining by done. case_decide; [|done].
  destruct (map_get ow (o_remaining o)); [eauto|]. by intros [? ?].
Qed.

Lemma sim_apply r o classes oqs e b sched :
  sim r o →
  classes_inv (opt_dead o) all classes → map_keys classes = map_keys (o_classes o) →
  owner_queues_inv (opt_dead o) all (needed (o_remaining o)) oqs →
  sim (ref_apply r e b sched) (opt_apply o classes oqs e b sched).
Proof.
  intros Hs Hcl Hkeys Hoq. pose proof (opt_dead_apply o classes oqs e b sched) as Hdead.
  pose proof (opt_apply_remaining o classes oqs e b sched) as Hrem.
  specialize (Hrem).
  split; unfold ref_apply; cbn [r_active r_activeByOwner r_scopeActive r_scheduler r_grants r_entries].
  - simpl. by rewrite (sim_active r o).
  - simpl. by rewrite (sim_owners r o).
  - simpl. by rewrite (sim_scopes r o).
  - done.
  - simpl. by rewrite (sim_grants r o).
  - intros ow. pose proof (sim_counts r o Hs ow) as Hc.
    pose proof (sim_counts r o Hs (ownerKey (waiter e))).
    unfold ownerActive in *. rewrite lookup_insert. case_decide; [simpl; lia|done].
  - rewrite filter_comm, (sim_entries r o Hs), filter_filter. apply filter_ext. intros e'.
    unfold not_taken. simpl. rewrite <- negb_orb. f_equal.
    rewrite <- bool_decide_or. apply bool_decide_ext. set_solver.
  - intros ow. rewrite Hrem by apply (sim_positive r o Hs). rewrite ref_remaining_insert.
    pose proof (sim_remaining r o Hs ow) as Hr. case_decide as Ho; subst; [|done].
    unfold ref_remaining in Hr.
    destruct (map_get (ownerKey (waiter e)) (o_remaining o)) as [n|] eqn:En; simpl in *; [|lia].
    pose proof (sim_positive r o Hs _ _ En). destruct (Z.eqb_spec n 1); simpl; lia.
  - intros ow n. rewrite Hrem by apply (sim_positive r o Hs).
    case_decide; [|apply (sim_positive r o Hs)].
    destruct (map_get ow (o_remaining o)) as [m|] eqn:Em; [|done].
    pose proof (sim_positive r o Hs _ _ Em). destruct (Z.eqb_spec m 1); [done|].
    intros [= <-]. lia.
  - apply opt_apply_remaining_nodup, (sim_nodup r o Hs).
  - rewrite ref_reservedTotal_insert by apply (sim_counts r o Hs).
    simpl. rewrite (sim_remaining r o Hs), (sim_total r o Hs). destruct (0 <? _); lia.
  - eapply Forall_impl; [exact Hcl|]. intros [p q]. by apply queue_inv_mono.
  - simpl. rewrite Hkeys. apply (sim_class_keys r o Hs).
  - intros ow Hn%needed_apply; [|apply (sim_positive r o Hs)].
    specialize (Hoq ow Hn). simpl. destruct (map_get ow oqs); [|done].
    by eapply queue_inv_mono.
Qed.

(** ** The loops agree *)

Lemma match_nil_nil {A B T} (l1 : list A) (l2 : list B) (a x : T) :
  (l1 = [] → l2 = []) →
  match l1 with [] => a | _ => match l2 with [] => a | _ => x end end
  = match l2 with [] => a | _ => x end.
Proof. destruct l1; [|done]. intros H. by rewrite H. Qed.

Lemma match_not_nil {A T} (l : list A) (a x : T) :
  l ≠ [] → match l with [] => a | _ => x end = x.
Proof. by destruct l. Qed.

Lemma class_heads_nil ps : class_heads ps [] = [].
Proof. unfold class_heads. by induction ps. Qed.

Lemma class_heads_nil_inv ps E :
  (∀ e, In e E → priority (waiter e) ∈ ps) → class_heads ps E = [] → E = [].
Proof.
  intros Hcov Hnil. destruct E as [|e E]; [done|]. exfalso.
  assert (Hin : ∃ e', In e' (class_heads ps (e :: E))).
  { destruct (head (List.filter (of_class (priority (waiter e))) (e :: E))) as [e'|] eqn:Eh.
    - exists e'. apply list_elem_of_In, list_elem_of_omap. exists (priority (waiter e)).
      split; [|done]. apply Hcov. by left.
    - simpl in Eh. unfold of_class in Eh at 1. by rewrite Z.eqb_refl in Eh. }
  destruct Hin as [e' Hin]. by rewrite Hnil in Hin.
Qed.

Lemma map_pair_fst {B} (b : Entry → B) E : map (λ '(e, _), candidate e) (map (λ e, (e, b e)) E) = map candidate E.
Proof. rewrite map_map. by apply map_ext. Qed.

Lemma map_fst_pair {B} (b : Entry → B) (E : list Entry) : (map (λ e, (e, b e)) E).*1 = E.
Proof. induction E as [|e E IH]; simpl; [done|]. by f_equal. Qed.


Lemma sim_loop steps r o :
  sim r o → opt_loop limit options all steps o = ref_loop now limit reservations options steps r.
Proof.
  revert r o. induction steps as [|steps IH]; intros r o Hs.
  { simpl. unfold opt_plan, ref_plan. by rewrite (sim_grants r o), (sim_sched r o). }
  assert (Hplan : ∀ why, opt_plan o why = ref_plan r why).
  { intros why. unfold opt_plan, ref_plan. by rewrite (sim_grants r o), (sim_sched r o). }
  cbn [opt_loop ref_loop]. rewrite !Hplan, (sim_grants r o), (sim_active r o) by done.
  destruct (grantsExhausted _ _); [done|]. destruct (limitReached _ _); [done|].
  rewrite (sim_eligible r o Hs).
  set (E := List.filter (opt_pickable o) all).
  destruct (sim_class_keys r o Hs) as [Hknd Hkcov].
  pose proof (scanClasses_spec (opt_dead o) all limit (o_active o) (o_remaining o)
    (o_reservedTotal o) (sim_nodup r o Hs) (o_classes o) (mkArb (o_ownerQueues o) None)
    (sim_classes r o Hs)) as Hscan.
  rewrite (sim_active r o) in Hscan by done.
  destruct (scanClasses _ _ _ _ _ _ _) as [[classes arb] eligible].
  destruct Hscan as (Hcl & Hkeys & [Hoq _] & Hel).
  { split; [apply (sim_owner_queues r o Hs)|done]. }
  rewrite <- (sim_active r o Hs) in Hel. rewrite class_picks in Hel. fold E in Hel.
  assert (HinE : ∀ e, In e E → In e all) by (intros e He; by apply filter_In in He as [? _]).
  assert (HEok : Forall entry_ok E).
  { rewrite Forall_forall in all_ok |- *. intros e He%list_elem_of_In.
    apply all_ok, list_elem_of_In. auto. }
  assert (HEs : sorted_by (λ a b, compareSchedulerCandidates (candidate a) (candidate b)) E)
    by (by apply sorted_by_filter).
  assert (HEids : ids_unique E) by (intros e e' He He'; apply all_ids; auto).
  assert (Hcov : ∀ e, In e E → priority (waiter e) ∈ map_keys (o_classes o)) by auto.
  rewrite Hel.
  rewrite (match_nil_nil all (map _ (class_heads _ E)))
    by (intros Hall; unfold E; rewrite Hall; simpl; by rewrite class_heads_nil).
  rewrite (match_nil_nil (r_entries r) (map _ E)) by (intros Hr; unfold E;
    rewrite <- (sim_eligible r o Hs), Hr; done).
  destruct E as [|e0 E'] eqn:HE; [by rewrite class_heads_nil|]. rewrite <- HE in *.
  rewrite (match_not_nil (map _ E)) by (by rewrite HE).
  rewrite match_not_nil by (intros Hn%map_eq_nil; apply class_heads_nil_inv in Hn;
    [by rewrite HE in Hn|done]).
  rewrite !map_pair_fst, !map_fst_pair.
  rewrite schedule_class_heads, (sim_sched r o) by done.
  destruct (scheduleWeightedDeficitRoundRobin _ _ _) as [decision|err] eqn:Hsched; [|done].
  cbn [result_bind].
  rewrite (findWinner_heads (map_keys (o_classes o)) E decision _ _ Hknd Hcov HEok HEs HEids Hsched).
  destruct (findWinner decision E) as [e|] eqn:Hfw; [|done].
  assert (He : In e E ∧ In e (class_heads (map_keys (o_classes o)) E)).
  { pose proof (findWinner_heads (map_keys (o_classes o)) E decision _ _ Hknd Hcov HEok HEs HEids
      Hsched) as Hfw'. rewrite Hfw in Hfw'. unfold findWinner in *.
    destruct (winner decision); [|done]. apply find_some in Hfw, Hfw'. tauto. }
  destruct He as [HeE HeH].
  rewrite (borrowedByWaiter_lookup (λ e, opt_borrowed limit (o_active o) (o_remaining o)
    (o_reservedTotal o) (waiter e)) (class_heads _ E) e HeH).
  2: { intros e' He' Heq. by rewrite (HEids e' e) by (eauto using class_heads_in). }
  rewrite (borrowedByWaiter_lookup (ref_borrowed limit reservations r) E e HeE)
    by (intros e' He' Heq; by rewrite (HEids e' e)).
  rewrite (sim_borrowed r o e Hs). cbn [default from_option id].
  assert (Hs' := sim_apply r o classes (a_ownerQueues arb) e (ref_borrowed limit reservations r e)
    (next_state decision) Hs Hcl Hkeys Hoq).
  destruct (isRequested _ _); [|by apply IH].
  unfold opt_plan, ref_plan. by rewrite (sim_grants _ _ Hs'), (sim_sched _ _ Hs').
Qed.
End Simulation.

(** ** The initial states are related *)

Section Initial.
Context `{C : Collation} `{!CollationLaws C}.

Definition slots_of (abo : gmap string Z) (ow : string) (reserved : Z) : Z :=
  Z.max 0 (reserved - ownerActive abo ow).

Lemma map_get_snoc (m : jsmap string Z) k k' v :
  map_get k (m ++ [(k', v)])
  = match map_get k m with
    | Some n => Some n
    | None => if decide (k' = k) then Some v else None
    end.
Proof.
  induction m as [|[k0 v0] m IH]; simpl; [done|]. by destruct (decide (k0 = k)).
Qed.

Lemma initialRemaining_spec (reservations : jsmap string Z) abo :
  NoDup (map_keys reservations) →
  let '(remaining, total) := initialRemaining reservations abo in
  NoDup (map_keys remaining) ∧
  (∀ ow, map_get ow remaining
         = match map_get ow reservations with
           | Some n => if 0 <? slots_of abo ow n then Some (slots_of abo ow n) else None
           | None => None
           end) ∧
  total = foldr Z.add 0 (map (λ '(ow, n), slots_of abo ow n) reservations).
Proof.
  unfold initialRemaining. induction reservations as [|[ow n] res IH] using rev_ind; intros Hnd.
  { simpl. split_and!; [constructor|done|done]. }
  unfold map_keys in Hnd. rewrite fmap_app in Hnd. simpl in Hnd.
  apply NoDup_app in Hnd as (Hnd & Hdisj & _).
  specialize (IH Hnd). rewrite foldl_app. simpl.
  destruct (foldl _ _ res) as [remaining total].
  destruct IH as (Hnd' & Hget & ->). fold (slots_of abo ow n).
  assert (Hnone : map_get ow res = None).
  { destruct (map_get ow res) eqn:E; [|done]. exfalso.
    apply (Hdisj ow); [apply map_get_keys; eauto|by left]. }
  split_and!.
  - destruct (0 <? _); [by apply map_set_NoDup|done].
  - intros ow'. rewrite map_get_snoc.
    destruct (0 <? slots_of abo ow n) eqn:Es.
    + rewrite map_get_set, Hget. case_decide; subst; [by rewrite Hnone, Es|].
      by destruct (map_get ow' res).
    + rewrite Hget. destruct (map_get ow' res) eqn:E'; [done|].
      case_decide; subst; [by rewrite Es|done].
  - rewrite map_app, foldr_app. simpl. clear.
    generalize (slots_of abo ow n) as z. intros z. rewrite Z.add_0_r.
    induction res as [|[k v] res IH]; simpl; lia.
Qed.

Lemma reservedTotal_sub (res sub : jsmap string Z) abo :
  (∀ p, In p sub → map_get p.1 res = Some p.2) →
  foldr Z.add 0 (map (ref_remaining res abo) (map_keys sub))
  = foldr Z.add 0 (map (λ '(ow, n), slots_of abo ow n) sub).
Proof.
  unfold map_keys. induction sub as [|[k v] sub IH]; intros Hsub; [done|]. csimpl.
  rewrite IH by (intros p Hp; apply Hsub; by right). f_equal.
  unfold ref_remaining, slots_of.
  assert (Hk : map_get k res = Some v) by (apply (Hsub (k, v)); by left). by rewrite Hk.
Qed.

Lemma reservedTotal_pairs (reservations : jsmap string Z) abo :
  NoDup (map_keys reservations) →
  ref_reservedTotal reservations abo
  = foldr Z.add 0 (map (λ '(ow, n), slots_of abo ow n) reservations).
Proof.
  intros Hnd. apply reservedTotal_sub. intros [k v] Hin. by apply map_get_NoDup.
Qed.

(** What the indexing loop builds from a prefix of the entries. *)
Definition queue_for (es : list Entry) : option Queue :=
  match es with [] => None | _ => Some (queue_of es) end.

Lemma queue_for_snoc es e :
  Some (queuePush (default emptyQueue (queue_for es)) e) = queue_for (es ++ [e]).
Proof.
  destruct es as [|x es]; [done|]. cbn [queue_for default from_option id].
  by rewrite queuePush_queue_of.
Qed.

Lemma index_spec remaining es :
  let '(classes, ownerQueues) := foldl (indexEntry remaining) ([], []) es in
  NoDup (map_keys classes) ∧
  (∀ p, map_get p classes = queue_for (List.filter (of_class p) es)) ∧
  (∀ ow, map_has ow remaining = true →
         map_get ow ownerQueues = queue_for (List.filter (of_owner ow) es)).
Proof.
  induction es as [|e es IH] using rev_ind; [split_and!; [constructor|done|done]|].
  rewrite foldl_app. simpl. destruct (foldl _ _ es) as [classes oqs].
  destruct IH as (Hnd & Hc & Ho).
  assert (Hc' : ∀ p, map_get p (map_set (priority (waiter e))
      (queuePush (default emptyQueue (map_get (priority (waiter e)) classes)) e) classes)
    = queue_for (List.filter (of_class p) (es ++ [e]))).
  { intros p. rewrite map_get_set, List.filter_app. simpl.
    unfold of_class at 2. case_decide as Hp; [subst p|].
    - by rewrite Z.eqb_refl, Hc, queue_for_snoc.
    - rewrite (proj2 (Z.eqb_neq _ _)) by done. by rewrite app_nil_r. }
  unfold indexEntry. destruct (map_has (ownerKey (waiter e)) remaining) eqn:Eh; simpl.
  - split_and!; [by apply map_set_NoDup|done|]. intros ow How.
    rewrite map_get_set, List.filter_app. simpl. unfold of_owner at 2.
    case_decide as Hp; [subst ow; rewrite bool_decide_true by done|rewrite bool_decide_false by done].
    + by rewrite Ho, queue_for_snoc by done.
    + rewrite app_nil_r. by apply Ho.
  - split_and!; [by apply map_set_NoDup|done|]. intros ow How.
    rewrite List.filter_app. simpl. unfold of_owner at 2.
    rewrite bool_decide_false by congruence. rewrite app_nil_r. by apply Ho.
Qed.

(** ** Well-formed snapshots

    Waiter ids are primary keys, priorities are class ranks (a database check), the
    reservation map has one entry per owner and counts are not negative. *)
Record snapshot_ok (s : AdmissionSnapshot) : Prop := {
  so_ids : NoDup (map waiterId (waiters s));
  so_priorities : ∀ w, In w (waiters s) → priority_ok (priority w);
  so_reservations : NoDup (map_keys (reservationsByOwner s));
  so_counts : ∀ ow, 0 ≤ ownerActive (s_activeByOwner s) ow;
}.

Lemma filter_map_entryOf (p : PlannerWaiter → bool) ws :
  List.filter (λ e, p (waiter e)) (map entryOf ws) = map entryOf (List.filter p ws).
Proof.
  induction ws as [|w ws IH]; simpl; [done|]. destruct (p w); simpl; by rewrite IH.
Qed.

Lemma sortedEntries_filter (p : PlannerWaiter → bool) ws :
  List.filter (λ e, p (waiter e)) (sortedEntries ws) = sortedEntries (List.filter p ws).
Proof.
  unfold sortedEntries. rewrite <- filter_map_entryOf. symmetry.
  apply sort_by_filter, cmp_order_comparator.
  exact (cmp_order_contramap candidate compareSchedulerCandidates _).
Qed.

Lemma sortedEntries_in ws e : In e (sortedEntries ws) → ∃ w, In w ws ∧ e = entryOf w.
Proof.
  unfold sortedEntries. rewrite sort_by_in, in_map_iff. intros (w & <- & Hw). eauto.
Qed.

Lemma sortedEntries_sorted ws :
  sorted_by (λ a b, compareSchedulerCandidates (candidate a) (candidate b)) (sortedEntries ws).
Proof.
  apply sort_by_sorted, cmp_order_comparator.
  exact (cmp_order_contramap candidate compareSchedulerCandidates _).
Qed.

(** The two planners agree on every well-formed snapshot. *)
Lemma planGrants_reference snapshot now options :
  snapshot_ok snapshot → planGrants snapshot now options = referencePlanGrants snapshot now options.
Proof.
  intros [Hids Hprio Hres Hcounts]. unfold planGrants, referencePlanGrants.
  set (inw := λ w, inWindow w now (creatingRequestId options) (lastChanceWaiterIds options)).
  assert (Hf : List.filter (λ w, inw w && grantable now w) (waiters snapshot)
               = List.filter (grantable now) (List.filter inw (waiters snapshot)))
    by (by rewrite filter_filter).
  change (λ w, inWindow w now (creatingRequestId options)
    (lastChanceWaiterIds options) && grantable now w) with (λ w, inw w && grantable now w).
  rewrite Hf. set (ws := List.filter inw (waiters snapshot)).
  set (all := sortedEntries (List.filter (grantable now) ws)).
  assert (Hall : ∀ e, In e all → ∃ w, In w (waiters snapshot) ∧ grantable now w = true ∧ e = entryOf w).
  { intros e (w & Hw & ->)%sortedEntries_in. apply filter_In in Hw as [Hw ?].
    apply filter_In in Hw as [? _]. eauto. }
  pose proof (initialRemaining_spec (reservationsByOwner snapshot) (s_activeByOwner snapshot) Hres)
    as Hinit.
  destruct (initialRemaining _ _) as [remaining total]. destruct Hinit as (Hrnd & Hrget & Htotal).
  pose proof (index_spec remaining all) as Hidx.
  destruct (foldl _ _ all) as [classes oqs]. destruct Hidx as (Hknd & Hkget & Hoget).
  apply sim_loop; auto.
  - intros e He. by destruct (Hall e He) as (w & _ & Hg & ->).
  - apply Forall_forall. intros e He%list_elem_of_In.
    destruct (Hall e He) as (w & Hw & _ & ->). split; [done|]. by apply Hprio.
  - apply sortedEntries_sorted.
  - intros e e' He He' Heq. destruct (Hall e He) as (w & Hw & _ & ->).
    destruct (Hall e' He') as (w' & Hw' & _ & ->). f_equal.
    by apply (NoDup_map_inj waiterId (waiters snapshot)).
  - split; simpl; auto.
    + unfold all. rewrite sortedEntries_filter. symmetry. unfold not_taken. simpl.
      apply forallb_filter_id, forallb_forall. intros e _.
      by rewrite bool_decide_false by set_solver.
    + intros ow. rewrite Hrget. unfold ref_remaining.
      destruct (map_get ow _) as [n|]; simpl; unfold slots_of.
      * destruct (Z.ltb_spec 0 (Z.max 0 (n - ownerActive (s_activeByOwner snapshot) ow))); simpl; lia.
      * specialize (Hcounts ow). lia.
    + intros ow n. rewrite Hrget. destruct (map_get ow _) as [m|]; [|done].
      destruct (Z.ltb_spec 0 (slots_of (s_activeByOwner snapshot) ow m)); [|done].
      intros [= <-]. lia.
    + by rewrite Htotal, reservedTotal_pairs.
    + apply Forall_forall. intros [p q] Hin%list_elem_of_In.
      apply map_get_NoDup in Hin; [|done]. rewrite Hkget in Hin.
      destruct (List.filter (of_class p) all) eqn:E; [done|]. simplify_eq/=. apply queue_of_inv.
    + split; [done|]. intros e He. apply map_get_keys. rewrite Hkget.
      destruct (List.filter _ all) as [|x l] eqn:E; [|by eexists]. exfalso.
      assert (Hin : In e (List.filter (of_class (priority (waiter e))) all)).
      { apply filter_In. split; [done|]. unfold of_class. apply Z.eqb_refl. }
      by rewrite E in Hin.
    + intros ow Hn. rewrite Hoget by done.
      destruct (List.filter (of_owner ow) all) eqn:E; [done|]. apply queue_of_inv.
Qed.
End Initial.
