(* ===== verification/PlannerSafety.v ===== *)
(** * What an admission plan guarantees

    The reference loop as a step relation ([grant_step], one admitted waiter; [grant_run],
    a sequence of them), its invariants by rule induction, and the guarantees they give
    [planGrants] through the equivalence of [PlannerEquiv]. *)

From S2P Require Import Prelude Scheduler AdmissionPlanner PlannerQueues PlannerEquiv.

(** ** Replaying the grants of a plan on the snapshot *)

Definition waiter_of (s : AdmissionSnapshot) (id : string) : option PlannerWaiter :=
  List.find (λ w, bool_decide (waiterId w = id)) (waiters s).

Definition scopes_after (s : AdmissionSnapshot) (gs : list PlannedGrant) : gmap string Z :=
  foldl (λ m g, match waiter_of s (g_waiterId g) with
                | Some w => bumpScopes (leaseScopeKeys w) m
                | None => m
                end) (s_scopeActive s) gs.

Definition owners_after (s : AdmissionSnapshot) (gs : list PlannedGrant) : gmap string Z :=
  foldl (λ m g, match waiter_of s (g_waiterId g) with
                | Some w => <[ownerKey w := ownerActive m (ownerKey w) + 1]> m
                | None => m
                end) (s_activeByOwner s) gs.

(** Unmet kept slots of an owner after the grants [gs]. *)
Definition unmet_after (s : AdmissionSnapshot) (gs : list PlannedGrant) (ow : string) : Z :=
  ref_remaining (reservationsByOwner s) (owners_after s gs) ow.
Definition unmet_total_after (s : AdmissionSnapshot) (gs : list PlannedGrant) : Z :=
  ref_reservedTotal (reservationsByOwner s) (owners_after s gs).

(** A waiter that could be granted after [gs] as far as time and scopes go. *)
Definition could_run (s : AdmissionSnapshot) (now : Z) (options : PlannerOptions)
    (gs : list PlannedGrant) (w : PlannerWaiter) : Prop :=
  In w (waiters s) ∧
  inWindow w now (creatingRequestId options) (lastChanceWaiterIds options) = true ∧
  grantable now w = true ∧
  admissionRequestId w ∉ map g_admissionRequestId gs ∧
  scopeHasRoom (scopes_after s gs) w = true.

(** ** The step relation *)

Section Run.
Context `{C : Collation} `{!CollationLaws C}.
Variables (now : Z) (limit : option Z) (reservations : jsmap string Z) (options : PlannerOptions).

Definition eligible_entries (st : RefState) : list Entry :=
  List.filter (ref_eligible now limit reservations st) (r_entries st).

Inductive grant_step : RefState → Entry → RefState → Prop :=
| grant_step_intro st e decision :
    grantsExhausted options (r_grants st) = false →
    limitReached limit (r_active st) = false →
    scheduleWeightedDeficitRoundRobin (map candidate (eligible_entries st)) (r_scheduler st)
      defaultPriorityQuanta = Ok decision →
    findWinner decision (eligible_entries st) = Some e →
    grant_step st e
      (ref_apply st e (ref_borrowed limit reservations st e) (next_state decision)).

Inductive grant_run : RefState → list Entry → RefState → Prop :=
| run_nil st : grant_run st [] st
| run_cons st e st1 es st2 :
    grant_step st e st1 → grant_run st1 es st2 → grant_run st (e :: es) st2.

(** Why a run ends in [st] after granting [es]. *)
Definition stop_condition (steps : nat) (es : list Entry) (st : RefState) (why : StoppedBy) : Prop :=
  match why with
  | by_maxGrants => grantsExhausted options (r_grants st) = true
  | by_limit => limitReached limit (r_active st) = true
  | by_none => eligible_entries st = []
  | by_requested => True
  | by_progress => length es = steps
  end.

(** Offer mode: only the last grant can be the requested one. *)
Definition offer_condition (es : list Entry) (why : StoppedBy) : Prop :=
  match why with
  | by_requested => ∃ es' e, es = es' ++ [e] ∧ isRequested options (waiter e) = true ∧
      Forall (λ e, isRequested options (waiter e) = false) es'
  | _ => Forall (λ e, isRequested options (waiter e) = false) es
  end.

Definition entries_ok (st : RefState) : Prop :=
  Forall entry_ok (r_entries st) ∧ ids_unique (r_entries st).

Lemma eligible_in st e : In e (eligible_entries st) → In e (r_entries st).
Proof. intros H. by apply filter_In in H as [? _]. Qed.

Lemma winner_in st decision e :
  findWinner decision (eligible_entries st) = Some e → In e (eligible_entries st).
Proof. unfold findWinner. destruct (winner decision); [|done]. by intros [? _]%find_some. Qed.

Lemma entries_ok_apply st e b sched : entries_ok st → entries_ok (ref_apply st e b sched).
Proof.
  intros [Hok Hids]. unfold ref_apply. split; simpl.
  - rewrite Forall_forall in Hok |- *. intros e' He'%list_elem_of_In.
    apply filter_In in He' as [He' _]. by apply Hok, list_elem_of_In.
  - intros e1 e2 H1 H2. apply filter_In in H1 as [H1 _], H2 as [H2 _]. by apply Hids.
Qed.

Lemma eligible_ok st : entries_ok st → candidates_ok (map candidate (eligible_entries st)).
Proof.
  intros [Hok _] c (e & <- & Hin)%in_map_iff. apply eligible_in in Hin.
  rewrite Forall_forall in Hok. by destruct (Hok e) as [-> ?]; [by apply list_elem_of_In|].
Qed.

(** A nonempty set of eligible entries always yields a winner. *)
Lemma winner_exists st decision :
  entries_ok st → eligible_entries st ≠ [] →
  scheduleWeightedDeficitRoundRobin (map candidate (eligible_entries st)) (r_scheduler st)
      defaultPriorityQuanta = Ok decision →
  findWinner decision (eligible_entries st) ≠ None.
Proof.
  intros Hok Hne Hs.
  assert (Hst : state_ok (r_scheduler st)).
  { unfold scheduleWeightedDeficitRoundRobin in Hs.
    destruct (validateScheduler (r_scheduler st) _) as [[]|] eqn:Ev; [|discriminate].
    exact (proj1 (validate_inv _ _ Ev)). }
  pose proof (eligible_ok st Hok) as Hc.
  rewrite schedule_spec in Hs by (auto using demo_quanta_ok).
  pose proof (pick_class_none (class_waiting (map candidate (eligible_entries st)))
    defaultPriorityQuanta _ (proj1 Hst)) as Hnone.
  pose proof (first_class_spec (class_waiting (map candidate (eligible_entries st)))
    _ (proj1 Hst)) as Hf.
  destruct (eligible_entries st) as [|e0 E] eqn:HE; [done|].
  unfold pick_class in *. destruct (first_class _ _) as [p|]; injection Hs as <-.
  - destruct Hf as [Hw _]. rewrite class_waiting_queue in Hw. unfold findWinner. cbn [winner].
    destruct (class_queue p (map candidate (e0 :: E))) as [|c rest] eqn:Hq; [done|].
    change (candidate e0 :: map candidate E) with (map candidate (e0 :: E)). rewrite Hq.
    cbn [mbind option_bind head]. apply class_queue_head in Hq as (Hin & _).
    apply in_map_iff in Hin as (e & <- & Hin). intros Hfind.
    pose proof (find_none _ _ Hfind e Hin) as Hb. simpl in Hb.
    by rewrite bool_decide_true in Hb.
  - exfalso. destruct Hok as [Hok _]. rewrite Forall_forall in Hok.
    assert (Hin0 : In e0 (r_entries st)) by (apply eligible_in; rewrite HE; by left).
    destruct (Hok e0) as [Hcand Hp]; [by apply list_elem_of_In|].
    specialize (Hf (priority (waiter e0)) Hp). unfold class_waiting in Hf. simpl in Hf.
    unfold in_class in Hf at 1. rewrite Hcand in Hf. simpl in Hf. by rewrite Z.eqb_refl in Hf.
Qed.

(** The loop is a run of grant steps with the stop reason it reports. *)
Lemma ref_loop_run steps st plan :
  entries_ok st → ref_loop now limit reservations options steps st = Ok plan →
  ∃ es st', grant_run st es st' ∧ plan = ref_plan st' (stoppedBy plan) ∧
    stop_condition steps es st' (stoppedBy plan) ∧ offer_condition es (stoppedBy plan).
Proof.
  revert st. induction steps as [|steps IH]; intros st Hok Hl.
  { simpl in Hl. simplify_eq. exists [], st. split_and!; [constructor|done|done|by constructor]. }
  cbn [ref_loop] in Hl.
  destruct (grantsExhausted _ _) eqn:Hex; [simplify_eq; exists [], st; split_and!; [constructor|done|done|by constructor]|].
  destruct (limitReached _ _) eqn:Hlim; [simplify_eq; exists [], st; split_and!; [constructor|done|done|by constructor]|].
  rewrite match_nil_nil in Hl by (by intros ->).
  fold (eligible_entries st) in Hl.
  destruct (eligible_entries st) as [|e0 E] eqn:HE.
  { simplify_eq/=. exists [], st. split_and!; [constructor|done|done|by constructor]. }
  rewrite <- HE in Hl. rewrite match_not_nil in Hl by (by rewrite HE).
  rewrite map_pair_fst, map_fst_pair in Hl.
  destruct (scheduleWeightedDeficitRoundRobin _ _ _) as [decision|] eqn:Hs; [|done].
  cbn [result_bind] in Hl.
  destruct (findWinner decision (eligible_entries st)) as [e|] eqn:Hw.
  2: { exfalso. eapply winner_exists; eauto. by rewrite HE. }
  rewrite (borrowedByWaiter_lookup (ref_borrowed limit reservations st)) in Hl.
  2: { by eapply winner_in. }
  2: { intros e' He' Heq. f_equal. apply (proj2 Hok); eauto using eligible_in, winner_in. }
  cbn [default from_option id] in Hl.
  assert (Hstep := grant_step_intro st e decision Hex Hlim Hs Hw).
  set (st1 := ref_apply st e _ _) in *.
  destruct (isRequested options (waiter e)) eqn:Hreq.
  - simplify_eq/=. exists [e], st1. split_and!; [by apply (run_cons _ _ st1); [|apply run_nil]|done|done|].
    by exists [], e.
  - destruct (IH st1) as (es & st' & Hrun & Hplan & Hstop & Hoff); [by apply entries_ok_apply|done|].
    exists (e :: es), st'. split_and!; [by econstructor|done| |].
    + destruct (stoppedBy plan); simpl in *; auto.
    + destruct (stoppedBy plan); simpl in *; auto using Forall_cons_2.
      destruct Hoff as (es' & e' & -> & ? & ?). exists (e :: es'), e'.
      split_and!; [done|done|by apply Forall_cons].
Qed.
End Run.

(** ** The state after a prefix of the plan *)

Section Replay.
Context `{C : Collation} `{!CollationLaws C}.
Variables (s : AdmissionSnapshot) (now : Z) (options : PlannerOptions).

Definition window_waiters : list PlannerWaiter :=
  List.filter (λ w, inWindow w now (creatingRequestId options) (lastChanceWaiterIds options))
    (waiters s).

Definition initial_ref : RefState :=
  mkRef (sortedEntries window_waiters) (s_active s) (s_activeByOwner s) (s_scopeActive s)
    (s_scheduler s) [].

Definition ungranted (gs : list PlannedGrant) (e : Entry) : bool :=
  negb (bool_decide (admissionRequestId (waiter e) ∈ map g_admissionRequestId gs)).

Record replayed (st : RefState) : Prop := {
  rp_active : r_active st = s_active s + Z.of_nat (length (r_grants st));
  rp_scopes : r_scopeActive st = scopes_after s (r_grants st);
  rp_owners : r_activeByOwner st = owners_after s (r_grants st);
  rp_entries : r_entries st = List.filter (ungranted (r_grants st)) (sortedEntries window_waiters);
  rp_ok : entries_ok st;
}.

Definition step := grant_step now (capacityLimit s) (reservationsByOwner s) options.
Definition run := grant_run now (capacityLimit s) (reservationsByOwner s) options.

Hypothesis Hs : snapshot_ok s.

Lemma window_entry e :
  In e (sortedEntries window_waiters) →
  In (waiter e) (waiters s) ∧ e = entryOf (waiter e) ∧
  inWindow (waiter e) now (creatingRequestId options) (lastChanceWaiterIds options) = true.
Proof. intros (w & Hw & ->)%sortedEntries_in. by apply filter_In in Hw as [? ?]. Qed.

Lemma waiter_of_in w : In w (waiters s) → waiter_of s (waiterId w) = Some w.
Proof.
  intros Hin. unfold waiter_of.
  destruct (List.find _ _) as [w'|] eqn:E.
  - apply find_some in E as [Hin' Heq]. bool_to_prop. f_equal.
    by apply (NoDup_map_inj waiterId (waiters s)); [apply (so_ids s Hs)|..].
  - pose proof (find_none _ _ E w Hin) as Hn. simpl in Hn. by rewrite bool_decide_true in Hn.
Qed.

Lemma initial_replayed : replayed initial_ref.
Proof.
  split; simpl; try done.
  - lia.
  - symmetry. apply forallb_filter_id, forallb_forall. intros e _.
    unfold ungranted. by rewrite bool_decide_false by apply not_elem_of_nil.
  - split.
    + apply Forall_forall. intros e (Hin & -> & _)%list_elem_of_In%window_entry.
      split; [done|]. by apply (so_priorities s Hs).
    + intros e e' (Hin & -> & _)%window_entry (Hin' & -> & _)%window_entry Heq. f_equal.
      by apply (NoDup_map_inj waiterId (waiters s)); [apply (so_ids s Hs)|..].
Qed.

Lemma step_grants st e st' :
  step st e st' →
  r_grants st' = r_grants st
    ++ [grantOf (waiter e) (ref_borrowed (capacityLimit s) (reservationsByOwner s) st e)
          (r_scheduler st')].
Proof. by intros []. Qed.

Lemma step_eligible st e st' :
  step st e st' → In e (eligible_entries now (capacityLimit s) (reservationsByOwner s) st).
Proof. intros []. by eapply winner_in. Qed.

Lemma replayed_entry st e :
  replayed st → In e (r_entries st) →
  In (waiter e) (waiters s) ∧ e = entryOf (waiter e) ∧
  inWindow (waiter e) now (creatingRequestId options) (lastChanceWaiterIds options) = true ∧
  admissionRequestId (waiter e) ∉ map g_admissionRequestId (r_grants st).
Proof.
  intros Hr Hin. rewrite (rp_entries st Hr) in Hin. apply filter_In in Hin as [Hin Hu].
  unfold ungranted in Hu. split_ands. bool_to_prop.
  apply window_entry in Hin as (? & ? & ?). auto.
Qed.

Lemma step_replayed st e st' : replayed st → step st e st' → replayed st'.
Proof.
  intros Hr Hstep. pose proof (step_grants st e st' Hstep) as Hg.
  assert (Hin : In e (r_entries st)) by (eapply eligible_in, step_eligible, Hstep).
  destruct (replayed_entry st e Hr Hin) as (Hw & _ & _ & _).
  destruct Hstep as [st e decision _ _ _ _].
  split; cbn [ref_apply r_active r_scopeActive r_activeByOwner r_entries r_grants].
  - rewrite (rp_active st Hr), length_app. simpl. lia.
  - unfold scopes_after. rewrite foldl_app. simpl. rewrite (waiter_of_in _ Hw).
    by rewrite (rp_scopes st Hr).
  - unfold owners_after. rewrite foldl_app. simpl. rewrite (waiter_of_in _ Hw).
    by rewrite (rp_owners st Hr).
  - rewrite (rp_entries st Hr), filter_filter. apply filter_ext. intros e'.
    unfold ungranted. rewrite map_app. simpl. rewrite <- negb_orb, <- bool_decide_or.
    f_equal. apply bool_decide_ext. rewrite elem_of_app, list_elem_of_singleton. done.
  - apply entries_ok_apply, (rp_ok st Hr).
Qed.

(** Every grant of a run is one step from the state its prefix leads to. *)
Lemma run_every_grant st es st' :
  replayed st → run st es st' →
  replayed st' ∧
  ∀ g1 g g2, r_grants st' = g1 ++ g :: g2 → (length (r_grants st) ≤ length g1)%nat →
    ∃ st1 e st2, replayed st1 ∧ r_grants st1 = g1 ∧ step st1 e st2 ∧
      g = grantOf (waiter e) (ref_borrowed (capacityLimit s) (reservationsByOwner s) st1 e)
            (r_scheduler st2).
Proof.
  intros Hr Hrun. induction Hrun as [st|st e st1 es st2 Hstep Hrun IH].
  - split; [done|]. intros g1 g g2 Heq Hlen. exfalso.
    rewrite Heq, length_app in Hlen. simpl in Hlen. lia.
  - destruct IH as [Hr2 Hsplit]; [by eapply step_replayed|]. split; [done|].
    intros g1 g g2 Heq Hlen.
    destruct (decide (length (r_grants st1) ≤ length g1)%nat) as [|Hgt]; [by eapply Hsplit|].
    pose proof (step_grants st e st1 Hstep) as Hg1. rewrite Hg1, length_app in Hgt. simpl in Hgt.
    assert (Hpre : ∃ rest, r_grants st2 = r_grants st1 ++ rest).
    { clear -Hrun. induction Hrun as [st|st e st1 es st2 Hstep Hrun [rest IH]].
      - exists []. by rewrite app_nil_r.
      - rewrite IH, (step_grants st e st1 Hstep), <- app_assoc. eauto. }
    destruct Hpre as [rest Hpre]. rewrite Hpre, Hg1, <- app_assoc in Heq. simpl in Heq.
    apply app_inj_1 in Heq as [<- Heq]; [|lia]. simplify_eq/=. eauto 10.
Qed.

(** The plan as a run from the snapshot. *)
Lemma plan_is_run plan :
  planGrants s now options = Ok plan →
  ∃ es st', run initial_ref es st' ∧ replayed st' ∧ p_grants plan = r_grants st' ∧
    stop_condition now (capacityLimit s) (reservationsByOwner s) options
      (S (length (waiters s))) es st' (stoppedBy plan) ∧
    offer_condition options es (stoppedBy plan) ∧
    ∀ g1 g g2, p_grants plan = g1 ++ g :: g2 →
      ∃ st1 e st2, replayed st1 ∧ r_grants st1 = g1 ∧ step st1 e st2 ∧
        g = grantOf (waiter e) (ref_borrowed (capacityLimit s) (reservationsByOwner s) st1 e)
              (r_scheduler st2).
Proof.
  rewrite planGrants_reference by done. unfold referencePlanGrants. intros Hl.
  destruct (ref_loop_run now (capacityLimit s) (reservationsByOwner s) options
    (S (length (waiters s))) initial_ref plan) as (es & st' & Hrun & Hplan & Hstop & Hoff);
    [apply initial_replayed|exact Hl|].
  destruct (run_every_grant initial_ref es st' initial_replayed Hrun) as [Hr' Hsplit].
  assert (Hg : p_grants plan = r_grants st') by (by rewrite Hplan).
  exists es, st'. split_and!; auto. intros g1 g g2 Heq. rewrite Hg in Heq.
  apply (Hsplit g1 g g2 Heq). simpl. lia.
Qed.
End Replay.

(** ** Guarantees *)

Section Guarantees.
Context `{C : Collation} `{!CollationLaws C}.
Implicit Types (s : AdmissionSnapshot) (now : Z) (options : PlannerOptions) (plan : GrantPlan).

Lemma run_entries_length now limit reservations options st es st' :
  grant_run now limit reservations options st es st' →
  (length es + length (r_entries st') ≤ length (r_entries st))%nat.
Proof.
  induction 1 as [st|st e st1 es st2 Hstep _ IH]; simpl; [lia|].
  assert (length (r_entries st1) < length (r_entries st))%nat; [|lia].
  destruct Hstep as [st e decision _ _ _ Hw]. apply winner_in, eligible_in in Hw. simpl.
  clear IH. induction (r_entries st) as [|x l IHl]; [done|]. simpl.
  destruct Hw as [->|Hw].
  - rewrite bool_decide_true by done. simpl. pose proof (List.filter_length_le (λ e',
      negb (bool_decide (admissionRequestId (waiter e') = admissionRequestId (waiter e)))) l). lia.
  - specialize (IHl Hw). destruct (negb _); simpl; lia.
Qed.

Lemma window_length s now options :
  (length (sortedEntries (window_waiters s now options)) ≤ length (waiters s))%nat.
Proof.
  unfold sortedEntries. rewrite (sort_by_perm _ _), length_map. apply List.filter_length_le.
Qed.

Lemma ref_loop_total now limit reservations options steps st :
  entries_ok st → state_ok (r_scheduler st) →
  ∃ plan, ref_loop now limit reservations options steps st = Ok plan.
Proof.
  revert st. induction steps as [|steps IH]; intros st Hok Hst; cbn [ref_loop]; [eauto|].
  destruct (grantsExhausted _ _); [eauto|]. destruct (limitReached _ _); [eauto|].
  rewrite match_nil_nil by (by intros ->).
  fold (eligible_entries now limit reservations st).
  destruct (eligible_entries now limit reservations st) as [|e0 E] eqn:HE; [eauto|].
  rewrite <- HE, match_not_nil by (by rewrite HE). rewrite map_pair_fst, map_fst_pair.
  destruct (schedule_class (map candidate (eligible_entries now limit reservations st))
    (r_scheduler st) defaultPriorityQuanta) as (d & -> & _ & Hn);
    [done|apply demo_quanta_ok|by apply eligible_ok|]. cbn [result_bind].
  destruct (findWinner _ _); [|eauto]. destruct (isRequested _ _); [eauto|].
  apply IH; [by apply entries_ok_apply|]. simpl. rewrite Hn. by apply pick_class_state_ok.
Qed.

(** C1. The optimised planner and the reference planner return the same plan (grants with their
    borrowed flags and scheduler states, final scheduler state and stop reason) on every
    well-formed snapshot, at every instant and for all options. *)
Theorem planGrants_equals_reference s now options :
  snapshot_ok s → planGrants s now options = referencePlanGrants s now options.
Proof. apply planGrants_reference. Qed.

(** With a valid scheduler state the planner always returns a plan, and its step bound is
    never what stops it: every grant removes a waiter, so a plan has at most one grant per
    waiter and the ["progress"] outcome is unreachable. *)
Theorem planGrants_terminates s now options :
  snapshot_ok s → state_ok (s_scheduler s) →
  ∃ plan, planGrants s now options = Ok plan ∧ stoppedBy plan ≠ by_progress ∧
    (length (p_grants plan) ≤ length (waiters s))%nat.
Proof.
  intros Hs Hst.
  destruct (ref_loop_total now (capacityLimit s) (reservationsByOwner s) options
    (S (length (waiters s))) (initial_ref s now options)) as [plan Hplan];
    [apply initial_replayed; auto|done|].
  exists plan. assert (Hp : planGrants s now options = Ok plan)
    by (by rewrite planGrants_reference).
  destruct (plan_is_run s now options Hs plan Hp) as (es & st' & Hrun & Hr & Hg & Hstop & _ & _).
  pose proof (run_entries_length _ _ _ _ _ _ _ Hrun) as Hlen.
  pose proof (window_length s now options). simpl in Hlen. split_and!; auto.
  - intros Heq. rewrite Heq in Hstop. simpl in Hstop. lia.
  - assert (Hge : ∀ st es st', run s now options st es st' →
      length (r_grants st') = (length (r_grants st) + length es)%nat).
    { clear. induction 1 as [st|st e st1 es st2 Hstep _ IH]; simpl; [lia|].
      rewrite IH, (step_grants _ _ _ _ _ _ Hstep), length_app. simpl. lia. }
    rewrite Hg, (Hge _ _ _ Hrun). simpl. lia.
Qed.

(** The physical limit is never exceeded: a plan grants at most the free slots (none when the
    capacity is already at or over its limit), and a plan that stopped at the limit filled it. *)
Theorem planGrants_respects_limit s now options plan L :
  snapshot_ok s → planGrants s now options = Ok plan → capacityLimit s = Some L →
  Z.of_nat (length (p_grants plan)) ≤ Z.max 0 (L - s_active s) ∧
  (stoppedBy plan = by_limit → L ≤ s_active s + Z.of_nat (length (p_grants plan))).
Proof.
  intros Hs Hp HL. destruct (plan_is_run s now options Hs plan Hp)
    as (es & st' & Hrun & Hr & Hg & Hstop & _ & Hsplit).
  split.
  - destruct (list_snoc_cases (p_grants plan)) as [->|(gs & g & Heq)]; [simpl; lia|].
    destruct (Hsplit gs g []) as (st1 & e & st2 & Hr1 & Hg1 & Hstep & _); [done|].
    destruct Hstep as [st e decision _ Hlim _ _]. rewrite HL in Hlim. simpl in Hlim. bool_to_prop.
    rewrite (rp_active _ _ _ _ Hr1), Hg1 in Hlim. rewrite Heq, length_app. simpl. lia.
  - intros Heq. rewrite Heq in Hstop. simpl in Hstop. rewrite HL in Hstop. simpl in Hstop.
    bool_to_prop. rewrite Hg. by rewrite (rp_active _ _ _ _ Hr) in Hstop.
Qed.

(** The waiter a grant names. *)
Definition grants_waiter s (g : PlannedGrant) (w : PlannerWaiter) : Prop :=
  In w (waiters s) ∧ g_waiterId g = waiterId w ∧
  g_admissionRequestId g = admissionRequestId w ∧ g_reservationClass g = priority w.

(** What holds of the granted waiter when it is granted. *)
Lemma planned_grant s now options plan g1 g g2 :
  snapshot_ok s → planGrants s now options = Ok plan → p_grants plan = g1 ++ g :: g2 →
  ∃ st e st', replayed s now options st ∧ r_grants st = g1 ∧ step s now options st e st' ∧
    e = entryOf (waiter e) ∧ grants_waiter s g (waiter e) ∧
    could_run s now options g1 (waiter e) ∧
    g_borrowed g = ref_borrowed (capacityLimit s) (reservationsByOwner s) st e ∧
    ref_eligible now (capacityLimit s) (reservationsByOwner s) st e = true.
Proof.
  intros Hs Hp Hsplit. destruct (plan_is_run s now options Hs plan Hp) as (_ & _ & _ & _ & _ & _ & _ & H).
  destruct (H g1 g g2 Hsplit) as (st & e & st' & Hr & Hg1 & Hstep & ->).
  pose proof (step_eligible _ _ _ _ _ _ Hstep) as Hel.
  pose proof (eligible_in _ _ _ _ _ Hel) as Hin.
  destruct (replayed_entry _ _ _ _ _ Hr Hin) as (Hw & He & Hwin & Hung).
  apply filter_In in Hel as [_ Hel]. exists st, e, st'. split_and!; auto; [by repeat split|].
  unfold could_run. rewrite <- Hg1, <- (rp_scopes _ _ _ _ Hr).
  unfold ref_eligible in Hel. destruct (grantable now (waiter e)) eqn:Hgr; [|done].
  destruct (scopeHasRoom _ _) eqn:Hroom; [|done]. done.
Qed.

(** Entries that could run are in the state's queue. *)
Lemma could_run_entry s now options st w :
  replayed s now options st → could_run s now options (r_grants st) w →
  In (entryOf w) (r_entries st) ∧ scopeHasRoom (r_scopeActive st) w = true.
Proof.
  intros Hr (Hin & Hwin & Hgr & Hung & Hroom). rewrite (rp_scopes _ _ _ _ Hr).
  split; [|done]. rewrite (rp_entries _ _ _ _ Hr). apply filter_In. split.
  - unfold sortedEntries. apply sort_by_in, in_map, filter_In. done.
  - unfold ungranted. simpl. by rewrite bool_decide_false.
Qed.

(** A plan only grants waiters of the snapshot that are inside their deadlines and past their
    spill-over instant, with the class the waiter has, and grants no request twice. *)
Theorem planGrants_grants_waiters_once s now options plan :
  snapshot_ok s → planGrants s now options = Ok plan →
  NoDup (map g_admissionRequestId (p_grants plan)) ∧
  ∀ g, In g (p_grants plan) → ∃ w, grants_waiter s g w ∧
    inWindow w now (creatingRequestId options) (lastChanceWaiterIds options) = true ∧
    grantable now w = true.
Proof.
  intros Hs Hp. split.
  - assert (Hall : ∀ g1 g2, p_grants plan = g1 ++ g2 → NoDup (map g_admissionRequestId g1)).
    { induction g1 as [|g g1 IH] using rev_ind; intros g2 Heq; [constructor|].
      rewrite <- app_assoc in Heq. simpl in Heq.
      destruct (planned_grant s now options plan g1 g g2 Hs Hp Heq)
        as (_ & e & _ & _ & _ & _ & _ & (_ & _ & Hrid & _) & (_ & _ & _ & Hung & _) & _).
      rewrite map_app. simpl. apply NoDup_app. split; [by eapply IH|]. split; [|apply NoDup_singleton].
      intros x Hx ->%list_elem_of_singleton. congruence. }
    apply (Hall (p_grants plan) []). by rewrite app_nil_r.
  - intros g (g1 & g2 & Heq)%in_split.
    destruct (planned_grant s now options plan g1 g g2 Hs Hp Heq)
      as (_ & e & _ & _ & _ & _ & _ & Hg & (_ & Hw & Hgr & _) & _). eauto.
Qed.

(** Grants that take a lease of scope [k]. *)
Definition takes_scope s (k : string) (g : PlannedGrant) : bool :=
  match waiter_of s (g_waiterId g) with
  | Some w => bool_decide (k ∈ leaseScopeKeys w)
  | None => false
  end.

Lemma bumpScopes_other keys m k : k ∉ keys → bumpScopes keys m !! k = m !! k.
Proof.
  revert m. induction keys as [|k' keys IH]; intros m; [done|].
  intros [Hne Hk]%not_elem_of_cons. simpl. rewrite IH by done.
  destruct (m !! k') as [n|]; [|done]. by rewrite lookup_insert_ne.
Qed.

Lemma bumpScopes_lookup keys m k n :
  NoDup keys → m !! k = Some n →
  bumpScopes keys m !! k = Some (if bool_decide (k ∈ keys) then n + 1 else n).
Proof.
  revert m n. induction keys as [|k' keys IH]; intros m n Hnd Hm; [done|].
  apply NoDup_cons in Hnd as [Hk' Hnd]. simpl.
  destruct (decide (k' = k)) as [->|Hne].
  - rewrite bool_decide_true by (by left). rewrite Hm. rewrite bumpScopes_other by done.
    by rewrite lookup_insert_eq.
  - assert (Hm' : (match m !! k' with Some n0 => <[k':=n0 + 1]> m | None => m end) !! k = Some n).
    { destruct (m !! k'); [|done]. by rewrite lookup_insert_ne. }
    rewrite (IH _ n Hnd Hm'). f_equal.
    rewrite (bool_decide_ext (k ∈ k' :: keys) (k ∈ keys)); [done|].
    rewrite elem_of_cons. naive_solver.
Qed.

Lemma scopes_after_count s gs k n :
  (∀ w, In w (waiters s) → NoDup (leaseScopeKeys w)) → s_scopeActive s !! k = Some n →
  scopes_after s gs !! k = Some (n + Z.of_nat (length (List.filter (takes_scope s k) gs))).
Proof.
  intros Hnd Hn. induction gs as [|g gs IH] using rev_ind; [simpl; by rewrite Z.add_0_r|].
  unfold scopes_after in *. rewrite foldl_app, List.filter_app, length_app. simpl.
  unfold takes_scope at 2. destruct (waiter_of s (g_waiterId g)) as [w|] eqn:Ew.
  - rewrite (bumpScopes_lookup _ _ _ _ (Hnd w (proj1 (find_some _ _ Ew))) IH).
    f_equal. destruct (bool_decide _); simpl; lia.
  - rewrite IH. f_equal. simpl. lia.
Qed.

(** Concurrency scopes are never over-filled: when every waiter that takes a lease of scope [k]
    is bound by the ceiling [l] on [k], the leases of [k] after the plan are at most [l] (or what
    they already were, if that was more). *)
Theorem planGrants_respects_scopes s now options plan k l n :
  snapshot_ok s → planGrants s now options = Ok plan →
  (∀ w, In w (waiters s) → NoDup (leaseScopeKeys w)) →
  (∀ w, In w (waiters s) → k ∈ leaseScopeKeys w → In (k, l) (scopeLimits w)) →
  s_scopeActive s !! k = Some n →
  n + Z.of_nat (length (List.filter (takes_scope s k) (p_grants plan))) ≤ Z.max n l.
Proof.
  intros Hs Hp Hnd Hlim Hn.
  assert (Hall : ∀ g1 g2, p_grants plan = g1 ++ g2 →
    n + Z.of_nat (length (List.filter (takes_scope s k) g1)) ≤ Z.max n l).
  { induction g1 as [|g g1 IH] using rev_ind; intros g2 Heq; [simpl; lia|].
    rewrite <- app_assoc in Heq. simpl in Heq. specialize (IH _ Heq).
    destruct (planned_grant s now options plan g1 g g2 Hs Hp Heq)
      as (_ & e & _ & _ & _ & _ & _ & (Hw & Hid & _ & _) & (_ & _ & _ & _ & Hroom) & _).
    rewrite List.filter_app, length_app. simpl.
    destruct (takes_scope s k g) eqn:Ht; simpl; [|lia].
    unfold takes_scope in Ht. rewrite Hid, (waiter_of_in s Hs _ Hw) in Ht. bool_to_prop.
    pose proof (scopes_after_count s g1 k n Hnd Hn) as Hcount.
    unfold scopeHasRoom in Hroom. rewrite forallb_forall in Hroom.
    specialize (Hroom (k, l) (Hlim _ Hw Ht)). simpl in Hroom. rewrite Hcount in Hroom.
    simpl in Hroom. bool_to_prop. lia. }
  apply (Hall _ []). by rewrite app_nil_r.
Qed.

(** ** Kept slots, work conservation, order *)

Lemma replayed_unmet s now options st ow :
  replayed s now options st →
  ref_remaining (reservationsByOwner s) (r_activeByOwner st) ow = unmet_after s (r_grants st) ow.
Proof. intros Hr. unfold unmet_after. by rewrite (rp_owners _ _ _ _ Hr). Qed.

Lemma replayed_borrowed s now options st e :
  replayed s now options st →
  ref_borrowed (capacityLimit s) (reservationsByOwner s) st e
  = isBorrowed (capacityLimit s) (s_active s + Z.of_nat (length (r_grants st)))
      (unmet_after s (r_grants st) (ownerKey (waiter e))) (unmet_total_after s (r_grants st)).
Proof.
  intros Hr. unfold ref_borrowed, unmet_after, unmet_total_after.
  by rewrite (rp_active _ _ _ _ Hr), (rp_owners _ _ _ _ Hr).
Qed.

Lemma grants_waiter_unique s g w w' :
  snapshot_ok s → grants_waiter s g w → grants_waiter s g w' → w = w'.
Proof.
  intros Hs (Hw & Hid & _) (Hw' & Hid' & _).
  apply (NoDup_map_inj waiterId (waiters s)); auto; [apply (so_ids s Hs)|congruence].
Qed.

(** The needy owners of a state are those of the waiters that could run with unmet kept slots. *)
Lemma replayed_needy s now options st ow :
  replayed s now options st →
  (waitingBesides (ref_needy now (reservationsByOwner s) st) ow = true ↔
   ∃ w', could_run s now options (r_grants st) w' ∧
         0 < unmet_after s (r_grants st) (ownerKey w') ∧ ownerKey w' ≠ ow).
Proof.
  intros Hr. unfold waitingBesides, ref_needy. rewrite existsb_exists.
  setoid_rewrite in_map_iff. split.
  - intros (ow' & (e & <- & [Hin He]%filter_In) & Hne). split_ands. bool_to_prop.
    destruct (replayed_entry _ _ _ _ _ Hr Hin) as (Hw & _ & Hwin & Hung).
    exists (waiter e). split_and!; auto.
    + unfold could_run. by rewrite <- (rp_scopes _ _ _ _ Hr).
    + rewrite <- (replayed_unmet _ now options _ _ Hr). unfold ref_remaining. lia.
  - intros (w' & Hrun & Hunmet & Hne). exists (ownerKey w').
    destruct (could_run_entry _ _ _ _ _ Hr Hrun) as [Hin Hroom].
    destruct Hrun as (_ & _ & Hgr & _). split; [|by rewrite bool_decide_false].
    exists (entryOf w'). split; [done|]. apply filter_In. split; [done|]. simpl.
    rewrite Hgr, Hroom. rewrite <- (replayed_unmet _ now options _ _ Hr) in Hunmet.
    unfold ref_remaining in Hunmet. rewrite (proj2 (Z.leb_gt _ _)) by lia. done.
Qed.

(** C2. Kept slots are a guarantee. A grant that borrows a slot other owners keep is made only to
    a waiter whose policy allows borrowing, and only when no waiter that could run (in its window,
    past its spill instant, not granted yet, scopes with room) belongs to an owner with unmet
    kept slots. A grant that does not borrow either uses one of its owner's own kept slots or
    leaves enough free slots for everything the other owners keep. *)
Theorem planGrants_kept_slots s now options plan g1 g g2 w L :
  snapshot_ok s → planGrants s now options = Ok plan → p_grants plan = g1 ++ g :: g2 →
  grants_waiter s g w → capacityLimit s = Some L →
  (g_borrowed g = true →
     borrowReserved w = true ∧
     ∀ w', could_run s now options g1 w' → unmet_after s g1 (ownerKey w') ≤ 0) ∧
  (g_borrowed g = false →
     0 < unmet_after s g1 (ownerKey w) ∨
     Z.min L (unmet_total_after s g1 - unmet_after s g1 (ownerKey w))
       ≤ L - (s_active s + Z.of_nat (length g1)) - 1).
Proof.
  intros Hs Hp Heq Hg HL.
  destruct (planned_grant s now options plan g1 g g2 Hs Hp Heq)
    as (st & e & st' & Hr & Hg1 & Hstep & _ & Hge & _ & Hb & Hel).
  rewrite (grants_waiter_unique s g w (waiter e)) by done. subst g1.
  rewrite (replayed_borrowed _ _ _ _ _ Hr), HL in Hb. unfold isBorrowed in Hb. simpl in Hb.
  assert (Hlim : s_active s + Z.of_nat (length (r_grants st)) < L).
  { destruct Hstep as [st e d _ Hlim _ _]. rewrite HL in Hlim. simpl in Hlim. bool_to_prop.
    by rewrite (rp_active _ _ _ _ Hr) in Hlim. }
  split; intros Hbor; rewrite Hbor in Hb; symmetry in Hb.
  - split_ands. bool_to_prop. unfold ref_eligible in Hel.
    rewrite (replayed_borrowed _ _ _ _ _ Hr), HL in Hel. unfold isBorrowed in Hel. simpl in Hel.
    rewrite (proj2 (Z.eqb_eq _ _)), (proj2 (Z.ltb_lt _ _)), (proj2 (Z.leb_le _ _)) in Hel by done.
    simpl in Hel. destruct (grantable _ _), (scopeHasRoom _ _), (waitingBesides _ _) eqn:Hwait,
      (borrowReserved (waiter e)); try done. split; [done|]. intros w' Hw'.
    destruct (Z.leb_spec (unmet_after s (r_grants st) (ownerKey w')) 0); [done|].
    destruct (decide (ownerKey w' = ownerKey (waiter e))) as [Heqo|Hne]; [rewrite Heqo in *; lia|].
    assert (Ht : waitingBesides (ref_needy now (reservationsByOwner s) st)
      (ownerKey (waiter e)) = true); [|congruence].
    apply (replayed_needy _ _ _ _ _ Hr). eauto.
  - assert (0 ≤ unmet_after s (r_grants st) (ownerKey (waiter e)))
      by (unfold unmet_after, ref_remaining; lia).
    destruct (Z.eqb_spec (unmet_after s (r_grants st) (ownerKey (waiter e))) 0); [|left; lia].
    right. simpl in Hb. apply andb_false_iff in Hb as [Hb|Hb]; bool_to_prop; lia.
Qed.

(** C37. Work conservation: a plan that stopped because nobody was eligible leaves no waiter that
    could run unserved, except those the kept-slot rule holds back: the free slots are all kept
    by other owners, and the waiter may not borrow or such an owner has a waiter of its own. *)
Theorem planGrants_work_conserving s now options plan w :
  snapshot_ok s → planGrants s now options = Ok plan → stoppedBy plan = by_none →
  could_run s now options (p_grants plan) w →
  isBorrowed (capacityLimit s) (s_active s + Z.of_nat (length (p_grants plan)))
    (unmet_after s (p_grants plan) (ownerKey w)) (unmet_total_after s (p_grants plan)) = true ∧
  (borrowReserved w = false ∨
   ∃ w', could_run s now options (p_grants plan) w' ∧
         0 < unmet_after s (p_grants plan) (ownerKey w') ∧ ownerKey w' ≠ ownerKey w).
Proof.
  intros Hs Hp Hnone Hrun.
  destruct (plan_is_run s now options Hs plan Hp) as (es & st & _ & Hr & Hg & Hstop & _).
  rewrite Hnone in Hstop. simpl in Hstop. rewrite Hg in *.
  destruct (could_run_entry _ _ _ _ _ Hr Hrun) as [Hin Hroom].
  assert (Hel : ref_eligible now (capacityLimit s) (reservationsByOwner s) st (entryOf w) = false).
  { apply not_true_is_false. intros Ht.
    assert (Hin' : In (entryOf w) (eligible_entries now (capacityLimit s) (reservationsByOwner s) st))
      by (by apply filter_In). by rewrite Hstop in Hin'. }
  unfold ref_eligible in Hel. simpl in Hel. destruct Hrun as (_ & _ & Hgr & _).
  rewrite Hgr, Hroom in Hel. simpl in Hel.
  pose proof (replayed_borrowed s now options st (entryOf w) Hr) as Hb. simpl in Hb.
  rewrite Hb in Hel. destruct (isBorrowed _ _ _ _); [|done]. split; [done|].
  simpl in Hel. destruct (waitingBesides _ _) eqn:Hwait.
  - right. by apply (replayed_needy _ _ _ _ _ Hr).
  - left. by destruct (borrowReserved w).
Qed.

(** The winner of a step precedes every eligible entry of its class. *)
Lemma winner_first st E decision e e' :
  Forall entry_ok E → ids_unique E →
  scheduleWeightedDeficitRoundRobin (map candidate E) st defaultPriorityQuanta = Ok decision →
  findWinner decision E = Some e → In e' E → priority (waiter e') = priority (waiter e) →
  compareSchedulerCandidates (candidate e) (candidate e') ≤ 0.
Proof.
  intros Hok Hids Hs Hw Hin Hp.
  assert (Hv : state_ok st ∧ candidates_ok (map candidate E)).
  { unfold scheduleWeightedDeficitRoundRobin in Hs.
    destruct (validateScheduler st _) as [[]|] eqn:Ev; [|discriminate].
    destruct (fileCandidates (map candidate E) []) eqn:Ef; [|discriminate].
    apply fileCandidates_inv in Ef. by apply validate_inv in Ev as []. }
  destruct Hv as [Hst Hc]. rewrite schedule_spec in Hs by (auto using demo_quanta_ok).
  destruct (pick_class _ _ _) as [[p|] st']; injection Hs as <-; [|done].
  unfold findWinner in Hw. cbn [winner mbind option_bind] in Hw.
  destruct (class_queue p (map candidate E)) as [|c rest] eqn:Hq; [done|]. cbn in Hw.
  apply find_some in Hw as [HinE Heq]. bool_to_prop.
  destruct (class_queue_head _ _ _ _ Hq) as (_ & _ & Hpc).
  rewrite Forall_forall in Hok.
  assert (Hoke : entry_ok e) by (by apply Hok, list_elem_of_In).
  assert (Hoke' : entry_ok e') by (by apply Hok, list_elem_of_In).
  assert (Hin' : In (candidate e') (class_queue p (map candidate E))).
  { apply sort_by_in, filter_In. split; [by apply in_map|].
    rewrite in_class_candidate by done. unfold of_class. rewrite Hp. apply Z.eqb_eq.
    rewrite <- Hpc, <- Heq. by destruct Hoke as [-> _]. }
  pose proof (sort_by_sorted compareSchedulerCandidates (List.filter (in_class p) (map candidate E)))
    as Hsorted. unfold class_queue in Hq, Hin'. rewrite Hq in Hsorted, Hin'. simpl in Hsorted.
  rewrite Heq. destruct Hin' as [<-|Hin']; [|by apply Hsorted].
  pose proof (cmp_antisym (cmp:=compareSchedulerCandidates) c c). lia.
Qed.

(** First come first served within a class: when a waiter is granted, no waiter of the same
    class that could also run without borrowing comes earlier in the durable queue order
    (enqueue sequence, then request id, candidate order and waiter id). *)
Theorem planGrants_fifo_in_class s now options plan g1 g g2 w w' :
  snapshot_ok s → planGrants s now options = Ok plan → p_grants plan = g1 ++ g :: g2 →
  grants_waiter s g w → could_run s now options g1 w' → priority w' = priority w →
  isBorrowed (capacityLimit s) (s_active s + Z.of_nat (length g1))
    (unmet_after s g1 (ownerKey w')) (unmet_total_after s g1) = false →
  compareSchedulerCandidates (candidate (entryOf w)) (candidate (entryOf w')) ≤ 0.
Proof.
  intros Hs Hp Heq Hg Hrun Hprio Hnb.
  destruct (planned_grant s now options plan g1 g g2 Hs Hp Heq)
    as (st & e & st' & Hr & Hg1 & Hstep & He & Hge & _ & _ & _).
  rewrite (grants_waiter_unique s g w (waiter e)) in * by done. subst g1. rewrite <- He.
  destruct (could_run_entry _ _ _ _ _ Hr Hrun) as [Hin Hroom].
  destruct Hstep as [st e d _ _ Hsched Hw].
  eapply winner_first; [| |exact Hsched|exact Hw| |done].
  - destruct (rp_ok _ _ _ _ Hr) as [Hok _]. rewrite Forall_forall in Hok |- *.
    intros x Hx%list_elem_of_In%eligible_in. by apply Hok, list_elem_of_In.
  - intros x y Hx%eligible_in Hy%eligible_in. by apply (proj2 (rp_ok _ _ _ _ Hr)).
  - apply filter_In. split; [done|]. unfold ref_eligible. simpl.
    destruct Hrun as (_ & _ & Hgr & _). rewrite Hgr, Hroom. simpl.
    pose proof (replayed_borrowed s now options st (entryOf w') Hr) as Hb. simpl in Hb.
    by rewrite Hb, Hnb.
Qed.

Lemma run_request_ids s now options st es st' :
  run s now options st es st' →
  map g_admissionRequestId (r_grants st')
  = map g_admissionRequestId (r_grants st) ++ map (λ e, admissionRequestId (waiter e)) es.
Proof.
  induction 1 as [st|st e st1 es st2 Hstep _ IH]; [by rewrite app_nil_r|].
  rewrite IH, (step_grants _ _ _ _ _ _ Hstep), map_app, <- app_assoc. done.
Qed.

(** Offer mode serves the polling request and stops: a plan for request [r] reports
    ["requested"] exactly when [r] was granted, and then [r]'s grant is the last one. *)
Theorem planGrants_offer_mode s now options plan r :
  snapshot_ok s → planGrants s now options = Ok plan → requestId options = Some r →
  (stoppedBy plan = by_requested ↔ r ∈ map g_admissionRequestId (p_grants plan)) ∧
  (stoppedBy plan = by_requested →
     ∃ gs g, p_grants plan = gs ++ [g] ∧ g_admissionRequestId g = r ∧
       r ∉ map g_admissionRequestId gs).
Proof.
  intros Hs Hp Hr. destruct (plan_is_run s now options Hs plan Hp)
    as (es & st & Hrun & _ & Hg & _ & Hoff & _).
  pose proof (run_request_ids _ _ _ _ _ _ Hrun) as Hids. simpl in Hids. rewrite <- Hg in Hids.
  assert (Hnot : ∀ es, Forall (λ e, isRequested options (waiter e) = false) es →
    r ∉ map (λ e, admissionRequestId (waiter e)) es).
  { intros es' Hall Hin. apply list_elem_of_In, in_map_iff in Hin as (e & He & Hin).
    rewrite Forall_forall in Hall. specialize (Hall e ltac:(by apply list_elem_of_In)).
    unfold isRequested in Hall. rewrite Hr in Hall. bool_to_prop. congruence. }
  assert (Hreq : stoppedBy plan = by_requested → ∃ es' e, es = es' ++ [e] ∧
    admissionRequestId (waiter e) = r ∧ r ∉ map (λ e, admissionRequestId (waiter e)) es').
  { intros Hby. rewrite Hby in Hoff. destruct Hoff as (es' & e & -> & Hq & Hall).
    exists es', e. split_and!; auto. unfold isRequested in Hq. rewrite Hr in Hq. by bool_to_prop. }
  split; [split|].
  - intros (es' & e & -> & He & _)%Hreq. rewrite Hids, map_app. simpl. rewrite He.
    apply elem_of_app. right. by left.
  - intros Hin. destruct (decide (stoppedBy plan = by_requested)) as [|Hne]; [done|].
    rewrite Hids in Hin. exfalso. apply (Hnot es); [|done]. by destruct (stoppedBy plan).
  - intros (es' & e & -> & He & Hn)%Hreq. rewrite map_app in Hids. simpl in Hids.
    destruct (list_snoc_cases (p_grants plan)) as [Hnil|(gs & g & Heq)].
    { rewrite Hnil in Hids. by destruct es'. }
    rewrite Heq, map_app in Hids. simpl in Hids. apply app_inj_tail in Hids as [Hgs Hlast].
    exists gs, g. rewrite Hgs. split_and!; congruence.
Qed.
End Guarantees.

(** ** Witnesses: a capacity with one kept slot and three waiters *)

Definition demo_waiter (id request owner : string) (p seq : Z) : PlannerWaiter :=
  mkWaiter id request 0 seq p None (Some 100) None owner [("POOL:p", 2)] true ["POOL:p"].
Definition demo_w1 := demo_waiter "w1" "r1" "member:a" 1 1.
Definition demo_w2 := demo_waiter "w2" "r2" "member:b" 2 2.
Definition demo_w3 := demo_waiter "w3" "r1" "member:b" 2 3.
Definition demo_snapshot : AdmissionSnapshot :=
  mkSnapshot (Some 3) 1 ∅ [("member:c", 1)] {[ "POOL:p" := 0 ]} [demo_w2; demo_w1; demo_w3]
    demo_state.
Definition demo_options : PlannerOptions := mkOptions None None [] None.
Definition offer_options : PlannerOptions := mkOptions (Some "r1") None [] None.

Lemma demo_snapshot_ok : snapshot_ok demo_snapshot.
Proof.
  split.
  - apply (bool_decide_unpack _). by vm_compute.
  - intros w Hin. repeat destruct Hin as [<-|Hin]; done.
  - apply (bool_decide_unpack _). by vm_compute.
  - intros ow. done.
Qed.

#[local] Existing Instance code_unit_collation.

Definition demo_plan : GrantPlan :=
  mkPlan
    [mkGrant "w1" "r1" false 1 (mkSchedulerState 1 [0; 3; 0] 2);
     mkGrant "w2" "r2" true 2 (mkSchedulerState 2 [0; 0; 15] 2)]
    (mkSchedulerState 2 [0; 0; 15] 2) by_limit.

Lemma demo_plan_ok : planGrants demo_snapshot 10 demo_options = Ok demo_plan.
Proof. vm_compute. reflexivity. Qed.

Lemma planGrants_equals_reference_witness :
  snapshot_ok demo_snapshot ∧
  planGrants demo_snapshot 10 demo_options = referencePlanGrants demo_snapshot 10 demo_options.
Proof.
  split; [apply demo_snapshot_ok|].
  apply (planGrants_equals_reference demo_snapshot 10 demo_options). apply demo_snapshot_ok.
Defined.

Lemma planGrants_terminates_witness :
  ∃ plan, planGrants demo_snapshot 10 demo_options = Ok plan ∧ stoppedBy plan ≠ by_progress ∧
    (length (p_grants plan) ≤ 3)%nat.
Proof.
  apply (planGrants_terminates demo_snapshot 10 demo_options); [apply demo_snapshot_ok|done].
Defined.

Lemma planGrants_respects_limit_witness :
  Z.of_nat (length (p_grants demo_plan)) ≤ Z.max 0 (3 - 1) ∧
  (stoppedBy demo_plan = by_limit → 3 ≤ 1 + Z.of_nat (length (p_grants demo_plan))).
Proof.
  apply (planGrants_respects_limit demo_snapshot 10 demo_options demo_plan 3);
    [apply demo_snapshot_ok|apply demo_plan_ok|reflexivity].
Defined.

Lemma planGrants_grants_waiters_once_witness :
  NoDup (map g_admissionRequestId (p_grants demo_plan)).
Proof.
  apply (planGrants_grants_waiters_once demo_snapshot 10 demo_options demo_plan);
    [apply demo_snapshot_ok|apply demo_plan_ok].
Defined.

Lemma planGrants_respects_scopes_witness :
  0 + Z.of_nat (length (List.filter (takes_scope demo_snapshot "POOL:p") (p_grants demo_plan)))
  ≤ Z.max 0 2.
Proof.
  apply (planGrants_respects_scopes demo_snapshot 10 demo_options demo_plan "POOL:p" 2 0);
    [apply demo_snapshot_ok|apply demo_plan_ok| | |reflexivity].
  - intros w Hin. repeat destruct Hin as [<-|Hin]; apply NoDup_singleton || done.
  - intros w Hin _. repeat destruct Hin as [<-|Hin]; [by left..|done].
Defined.

Lemma planGrants_kept_slots_witness :
  borrowReserved demo_w2 = true ∧
  ∀ w', could_run demo_snapshot 10 demo_options (take 1 (p_grants demo_plan)) w' →
    unmet_after demo_snapshot (take 1 (p_grants demo_plan)) (ownerKey w') ≤ 0.
Proof.
  apply (planGrants_kept_slots demo_snapshot 10 demo_options demo_plan
    (take 1 (p_grants demo_plan)) (mkGrant "w2" "r2" true 2 (mkSchedulerState 2 [0; 0; 15] 2)) []
    demo_w2 3); [apply demo_snapshot_ok|apply demo_plan_ok|reflexivity| |reflexivity|reflexivity].
  split; [by left|]. done.
Defined.

(** Nobody may borrow the only free slot, which another owner keeps. *)
Definition held_waiter : PlannerWaiter :=
  mkWaiter "w1" "r1" 0 1 1 None (Some 100) None "member:a" [] false [].
Definition held_snapshot : AdmissionSnapshot :=
  mkSnapshot (Some 2) 1 ∅ [("member:c", 1)] ∅ [held_waiter] demo_state.
Definition held_plan : GrantPlan := mkPlan [] demo_state by_none.

Lemma held_snapshot_ok : snapshot_ok held_snapshot.
Proof.
  split.
  - apply (bool_decide_unpack _). by vm_compute.
  - intros w Hin. repeat destruct Hin as [<-|Hin]; done.
  - apply (bool_decide_unpack _). by vm_compute.
  - intros ow. done.
Qed.

Lemma planGrants_work_conserving_witness :
  planGrants held_snapshot 10 demo_options = Ok held_plan ∧
  isBorrowed (Some 2) 1 (unmet_after held_snapshot [] "member:a")
    (unmet_total_after held_snapshot []) = true.
Proof.
  split; [vm_compute; reflexivity|].
  apply (planGrants_work_conserving held_snapshot 10 demo_options held_plan held_waiter);
    [apply held_snapshot_ok|vm_compute; reflexivity|reflexivity|].
  split_and!; [by left|reflexivity|reflexivity|apply not_elem_of_nil|reflexivity].
Defined.

Definition demo_w4 := demo_waiter "w4" "r4" "member:a" 2 5.
Definition fifo_snapshot : AdmissionSnapshot :=
  mkSnapshot None 0 ∅ [] {[ "POOL:p" := 0 ]} [demo_w4; demo_w2] demo_state.
Definition fifo_grant (id request : string) (d : Z) : PlannedGrant :=
  mkGrant id request false 2 (mkSchedulerState 2 [0; 0; d] 2).
Definition fifo_plan : GrantPlan :=
  mkPlan [fifo_grant "w2" "r2" 15; fifo_grant "w4" "r4" 14] (mkSchedulerState 2 [0; 0; 14] 2) by_none.

Lemma fifo_snapshot_ok : snapshot_ok fifo_snapshot.
Proof.
  split.
  - apply (bool_decide_unpack _). by vm_compute.
  - intros w Hin. repeat destruct Hin as [<-|Hin]; done.
  - constructor.
  - intros ow. done.
Qed.

Lemma planGrants_fifo_in_class_witness :
  planGrants fifo_snapshot 10 demo_options = Ok fifo_plan ∧
  compareSchedulerCandidates (candidate (entryOf demo_w2)) (candidate (entryOf demo_w4)) ≤ 0.
Proof.
  split; [vm_compute; reflexivity|].
  apply (planGrants_fifo_in_class fifo_snapshot 10 demo_options fifo_plan []
    (fifo_grant "w2" "r2" 15) [fifo_grant "w4" "r4" 14] demo_w2 demo_w4);
    [apply fifo_snapshot_ok|vm_compute; reflexivity|reflexivity| | |reflexivity|reflexivity].
  - split; [by right; left|]. done.
  - split_and!; [by left|reflexivity|reflexivity|apply not_elem_of_nil|reflexivity].
Defined.

Definition offer_plan : GrantPlan :=
  mkPlan [mkGrant "w1" "r1" false 1 (mkSchedulerState 1 [0; 3; 0] 2)]
    (mkSchedulerState 1 [0; 3; 0] 2) by_requested.

Lemma planGrants_offer_mode_witness :
  planGrants demo_snapshot 10 offer_options = Ok offer_plan ∧
  (stoppedBy offer_plan = by_requested ↔ "r1" ∈ map g_admissionRequestId (p_grants offer_plan)).
Proof.
  split; [vm_compute; reflexivity|].
  apply (planGrants_offer_mode demo_snapshot 10 offer_options offer_plan "r1");
    [apply demo_snapshot_ok|vm_compute; reflexivity|reflexivity].
Defined.
