(* ===== verification/Interleave.v ===== *)
(** * Interleaved database programs

    The server's database operations are sequences of atomic statements; between two
    statements of one operation any other request may run its own. An operation is a program
    [prog S A]: a tree of atomic statements on the shared store [S] that answers an [A].
    [run] executes one alone. [step] interleaves any number of them, one statement at a time.
    [safe] is the proof obligation of one program under an invariant of the store that every
    statement of every program keeps, and [safe_sound] composes it over all interleavings. *)

From S2P Require Import Prelude.

Inductive prog (S A : Type) : Type :=
| Done (a : A)
| Stmt (B : Type) (f : S → B * S) (k : B → prog S A).
Arguments Done {S A} a.
Arguments Stmt {S A B} f k.

Fixpoint prog_bind {S A B} (p : prog S A) (g : A → prog S B) : prog S B :=
  match p with
  | Done a => g a
  | Stmt f k => Stmt f (λ b, prog_bind (k b) g)
  end.

Definition prog_map {S A B} (g : A → B) (p : prog S A) : prog S B :=
  prog_bind p (λ a, Done (g a)).

(** [let? x := m in k] is [const x = await m; k]. *)
Notation "'let?' x ':=' m 'in' k" := (prog_bind m (λ x, k))
  (at level 10, x name, m at level 100, k at level 200) : js_scope.

Definition stmt {S B} (f : S → B * S) : prog S B := Stmt f Done.

(** A loop over a list of rows, one program per element, in order. *)
Fixpoint prog_fold {S A B} (g : B → A → prog S B) (b : B) (l : list A) : prog S B :=
  match l with
  | [] => Done b
  | a :: l => prog_bind (g b a) (λ b', prog_fold g b' l)
  end.

Fixpoint run {S A} (p : prog S A) (s : S) : A * S :=
  match p with
  | Done a => (a, s)
  | Stmt f k => run (k (f s).1) (f s).2
  end.

Lemma run_bind {S A B} (p : prog S A) (g : A → prog S B) s :
  run (prog_bind p g) s = run (g (run p s).1) (run p s).2.
Proof. revert s. induction p as [a|C f k IH]; intros s; simpl; [done|]. by rewrite IH. Qed.

Lemma run_map {S A B} (g : A → B) (p : prog S A) s :
  run (prog_map g p) s = (g (run p s).1, (run p s).2).
Proof. unfold prog_map. by rewrite run_bind. Qed.

Lemma prog_bind_assoc {S A B C} (p : prog S A) (g : A → prog S B) (h : B → prog S C) s :
  run (prog_bind (prog_bind p g) h) s = run (prog_bind p (λ a, prog_bind (g a) h)) s.
Proof. by rewrite !run_bind. Qed.

(** ** Interleaving *)

Section Interleave.
Context {S A : Type}.

(** One statement of one of the running programs. *)
Inductive step : S * list (prog S A) → S * list (prog S A) → Prop :=
| step_stmt s ps i B (f : S → B * S) k :
    ps !! i = Some (Stmt f k) →
    step (s, ps) ((f s).2, <[i := k (f s).1]> ps).

Variable inv : S → Prop.

(** Every statement keeps [inv], reading only stores where it holds, and the answer
    satisfies [Q]. *)
Fixpoint safe (Q : A → Prop) (p : prog S A) : Prop :=
  match p with
  | Done a => Q a
  | Stmt f k => ∀ s, inv s → inv (f s).2 ∧ safe Q (k (f s).1)
  end.

Lemma safe_step (Q : nat → A → Prop) s ps s' ps' :
  step (s, ps) (s', ps') → inv s → (∀ i p, ps !! i = Some p → safe (Q i) p) →
  inv s' ∧ ∀ i p, ps' !! i = Some p → safe (Q i) p.
Proof.
  intros Hstep Hinv Hps. inversion Hstep as [? ? i B f k Hi]; subst.
  pose proof (Hps _ _ Hi s Hinv) as [Hinv' Hk]. split; [done|].
  intros j p Hj. destruct (decide (i = j)) as [<-|Hne].
  - rewrite list_lookup_insert_eq in Hj by (by eapply lookup_lt_Some). by simplify_eq.
  - rewrite list_lookup_insert_ne in Hj by done. eauto.
Qed.

(** Soundness: in every interleaving the invariant holds, and every program that finished
    answered as promised. *)
Lemma safe_sound (Q : nat → A → Prop) s ps s' ps' :
  rtc step (s, ps) (s', ps') → inv s → (∀ i p, ps !! i = Some p → safe (Q i) p) →
  inv s' ∧ ∀ i a, ps' !! i = Some (Done a) → Q i a.
Proof.
  intros Hsteps Hinv Hps.
  enough (inv s' ∧ ∀ i p, ps' !! i = Some p → safe (Q i) p) as [? Hall].
  { split; [done|]. intros i a Hi. apply (Hall _ _ Hi). }
  remember (s, ps) as c eqn:Hc. remember (s', ps') as c' eqn:Hc'. revert s ps Hc Hinv Hps.
  induction Hsteps as [c|c [s1 ps1] c' Hstep _ IH]; intros s ps -> Hinv Hps; simplify_eq.
  - done.
  - destruct (safe_step Q _ _ _ _ Hstep Hinv Hps) as [? ?]. by apply (IH eq_refl s1 ps1).
Qed.
End Interleave.

Lemma safe_mono {S A} (inv : S → Prop) (Q Q' : A → Prop) (p : prog S A) :
  (∀ a, Q a → Q' a) → safe inv Q p → safe inv Q' p.
Proof.
  intros HQ. induction p as [a|B f k IH]; simpl; [apply HQ|].
  intros Hp s Hs. destruct (Hp s Hs) as [? ?]. split; [done|]. by apply IH.
Qed.

Lemma safe_bind {S A B} (inv : S → Prop) (Q : A → Prop) (R : B → Prop)
    (p : prog S A) (g : A → prog S B) :
  safe inv Q p → (∀ a, Q a → safe inv R (g a)) → safe inv R (prog_bind p g).
Proof.
  intros Hp Hg. induction p as [a|C f k IH]; simpl in *; [by apply Hg|].
  intros s Hs. destruct (Hp s Hs) as [? ?]. split; [done|]. by apply IH.
Qed.

Lemma safe_map {S A B} (inv : S → Prop) (Q : B → Prop) (g : A → B) (p : prog S A) :
  safe inv (λ a, Q (g a)) p → safe inv Q (prog_map g p).
Proof. intros Hp. by eapply safe_bind. Qed.

Lemma safe_fold {S A B} (inv : S → Prop) (Q : B → Prop) (g : B → A → prog S B) b l :
  Q b → (∀ b a, Q b → safe inv Q (g b a)) → safe inv Q (prog_fold g b l).
Proof.
  intros Hb Hg. revert b Hb. induction l as [|a l IH]; intros b Hb; simpl; [done|].
  eapply safe_bind; [by apply Hg|]. done.
Qed.

(** The same when the body is safe only for the elements of the list. *)
Lemma safe_fold_in {S A B} (inv : S → Prop) (Q : B → Prop) (g : B → A → prog S B) b l :
  Q b → (∀ b a, In a l → Q b → safe inv Q (g b a)) → safe inv Q (prog_fold g b l).
Proof.
  intros Hb Hg. revert b Hb. induction l as [|a l IH]; intros b Hb; simpl; [done|].
  eapply safe_bind; [apply Hg; [by left|done]|]. apply IH. intros b' a' Ha. apply Hg. by right.
Qed.

(** A program that runs alone is one of the interleavings. *)
Lemma safe_run {S A} (inv : S → Prop) (Q : A → Prop) (p : prog S A) s :
  safe inv Q p → inv s → Q (run p s).1 ∧ inv (run p s).2.
Proof.
  revert s. induction p as [a|B f k IH]; intros s; simpl; [done|].
  intros Hp Hs. destruct (Hp s Hs) as [? ?]. by apply IH.
Qed.

(** Running one of the programs to its end is one of the interleavings. *)
Lemma steps_run {S A} (p : prog S A) s ps i :
  ps !! i = Some p → rtc step (s, ps) ((run p s).2, <[i := Done (run p s).1]> ps).
Proof.
  revert s ps. induction p as [a|B f k IH]; intros s ps Hi; cbn.
  - by rewrite list_insert_id.
  - eapply rtc_l; [by apply (step_stmt s ps i B f k)|].
    rewrite <- (list_insert_insert_eq ps i (Done (run (k (f s).1) (f s).2).1) (k (f s).1)).
    apply IH. apply list_lookup_insert_eq. by eapply lookup_lt_Some.
Qed.

(** ** One program among others

    When only one program matters, the others are a relation [rely] on the store: what they may
    do between two of its statements. [exec] is an execution of the program; [wp] is what must
    hold of the store for every execution to end in [Q]. *)

Section Rely.
Context {S : Type} (rely : S → S → Prop).

Inductive exec {A} : prog S A → S → A → S → Prop :=
| exec_done a s : exec (Done a) s a s
| exec_stmt B (f : S → B * S) k s s1 a s' :
    rely s s1 → exec (k (f s1).1) (f s1).2 a s' → exec (Stmt f k) s a s'.

Fixpoint wp {A} (p : prog S A) (Q : A → S → Prop) (s : S) : Prop :=
  match p with
  | Done a => Q a s
  | Stmt f k => ∀ s1, rely s s1 → wp (k (f s1).1) Q (f s1).2
  end.

Lemma wp_sound {A} (p : prog S A) Q s a s' : exec p s a s' → wp p Q s → Q a s'.
Proof. induction 1 as [|B f k s s1 a s' Hr _ IH]; cbn; [done|]. intros Hw. by apply IH, Hw. Qed.

Lemma wp_mono {A} (p : prog S A) (Q Q' : A → S → Prop) s :
  (∀ a s', Q a s' → Q' a s') → wp p Q s → wp p Q' s.
Proof. intros HQ. revert s. induction p as [a|B f k IH]; cbn; intros s; [apply HQ|]. eauto. Qed.

Lemma wp_bind {A B} (p : prog S A) (g : A → prog S B) Q s :
  wp p (λ a s', wp (g a) Q s') s → wp (prog_bind p g) Q s.
Proof. revert s. induction p as [a|C f k IH]; cbn; intros s; eauto. Qed.

(** An invariant of the store that the program and the others keep. *)
Lemma wp_safe {A} (inv : S → Prop) (p : prog S A) (P : A → Prop) Q s :
  (∀ s s', rely s s' → inv s → inv s') → safe inv P p → inv s →
  wp p Q s → wp p (λ a s', Q a s' ∧ inv s') s.
Proof.
  intros Hst. revert s. induction p as [a|B f k IH]; cbn; intros s Hsafe Hi Hw; [done|].
  intros s1 Hr. destruct (Hsafe s1 (Hst _ _ Hr Hi)) as [Hi' Hk]. by apply IH; [| |apply Hw].
Qed.

(** Undisturbed, a program runs. *)
Lemma exec_run {A} (p : prog S A) s : (∀ s, rely s s) → exec p s (run p s).1 (run p s).2.
Proof. intros Hrefl. revert s. induction p as [a|B f k IH]; intros s; cbn; econstructor; eauto. Qed.
End Rely.

(** ** Facts that last

    When every program respects a common preorder [R] of the store (rows that are never taken
    back, phases that only move forward, a trace that only grows), what a program read stays true
    up to [R] while it awaits. [gsafe] carries the store of the program's last statement; any
    number of such programs compose. *)

Section Evolve.
Context {S : Type} (inv : S → Prop) (R : S → S → Prop) `{!PreOrder R}.

Fixpoint gsafe {A} (Q : S → A → Prop) (p : prog S A) (s0 : S) : Prop :=
  match p with
  | Done a => Q s0 a
  | Stmt f k => ∀ s, inv s → R s0 s → inv (f s).2 ∧ R s (f s).2 ∧ gsafe Q (k (f s).1) (f s).2
  end.

Definition stable {A} (Q : S → A → Prop) : Prop := ∀ s s' a, R s s' → Q s a → Q s' a.

Lemma gsafe_evolve {A} (Q : S → A → Prop) p s s' : stable Q → R s s' → gsafe Q p s → gsafe Q p s'.
Proof.
  intros HQ HR. destruct p as [a|B f k]; cbn; [by apply HQ|].
  intros H s1 Hi HR1. apply H; [done|]. by transitivity s'.
Qed.

Lemma gsafe_mono {A} (Q Q' : S → A → Prop) p s :
  (∀ s a, Q s a → Q' s a) → gsafe Q p s → gsafe Q' p s.
Proof.
  intros HQ. revert s. induction p as [a|B f k IH]; cbn; intros s; [apply HQ|].
  intros H s1 Hi HR. destruct (H s1 Hi HR) as (? & ? & ?). eauto.
Qed.

Lemma gsafe_bind {A B} (Q : S → A → Prop) (Q' : S → B → Prop) p (g : A → prog S B) s :
  gsafe Q p s → (∀ a s', Q s' a → gsafe Q' (g a) s') → gsafe Q' (prog_bind p g) s.
Proof.
  intros Hp Hg. revert s Hp. induction p as [a|C f k IH]; cbn; intros s Hp; [by apply Hg|].
  intros s1 Hi HR. destruct (Hp s1 Hi HR) as (? & ? & ?). eauto.
Qed.

Lemma gsafe_fold {A B} (Q : S → B → Prop) (g : B → A → prog S B) b l s :
  Q s b → (∀ b a s, Q s b → gsafe Q (g b a) s) → gsafe Q (prog_fold g b l) s.
Proof.
  intros Hb Hg. revert b s Hb. induction l as [|a l IH]; intros b s Hb; cbn; [done|].
  eapply gsafe_bind; [by apply Hg|]. auto.
Qed.

(** In every interleaving of such programs the invariant holds, the store evolved by [R], and
    every program that finished answered as promised. *)
Lemma gsafe_sound {A} (Q : nat → S → A → Prop) s ps s' ps' :
  (∀ i, stable (Q i)) →
  rtc step (s, ps) (s', ps') → inv s → (∀ i p, ps !! i = Some p → gsafe (Q i) p s) →
  inv s' ∧ R s s' ∧ ∀ i a, ps' !! i = Some (Done a) → Q i s' a.
Proof.
  intros HQ Hsteps Hinv Hps.
  enough (inv s' ∧ R s s' ∧ ∀ i p, ps' !! i = Some p → gsafe (Q i) p s') as (? & ? & Hall).
  { split_and!; [done..|]. intros i a Hi. apply (Hall _ _ Hi). }
  remember (s, ps) as c eqn:Hc. remember (s', ps') as c' eqn:Hc'. revert s ps Hc Hinv Hps.
  induction Hsteps as [c|c [s1 ps1] c' Hstep _ IH]; intros s ps -> Hinv Hps; simplify_eq.
  { split_and!; [done|reflexivity|done]. }
  inversion Hstep as [? ? i B f k Hi]; subst.
  destruct (Hps _ _ Hi s Hinv ltac:(reflexivity)) as (Hinv' & HR & Hk).
  destruct (IH eq_refl _ _ eq_refl Hinv') as (? & ? & ?).
  - intros j p Hj. destruct (decide (i = j)) as [<-|Hne].
    + rewrite list_lookup_insert_eq in Hj by (by eapply lookup_lt_Some). by simplify_eq.
    + rewrite list_lookup_insert_ne in Hj by done. eapply gsafe_evolve; eauto.
  - split_and!; [done| |done]. by transitivity (f s).2.
Qed.
End Evolve.

(** ** Each program under its own rely

    What a program knows about the part of the store only it writes: [Rely i] is what the others
    may do while program [i] awaits, and every statement of a program keeps the others' relies. *)

Section RelyGuarantee.
Context {S : Type} (inv : S → Prop) (Rely : nat → S → S → Prop) {Hpre : ∀ i, PreOrder (Rely i)}.

Fixpoint rsafe (i : nat) {A} (Q : S → A → Prop) (p : prog S A) (s0 : S) : Prop :=
  match p with
  | Done a => Q s0 a
  | Stmt f k =>
      ∀ s, inv s → Rely i s0 s →
           inv (f s).2 ∧ (∀ j, j ≠ i → Rely j s (f s).2) ∧ rsafe i Q (k (f s).1) (f s).2
  end.

Definition rstable (i : nat) {A} (Q : S → A → Prop) : Prop := ∀ s s' a, Rely i s s' → Q s a → Q s' a.

Lemma rsafe_evolve i {A} (Q : S → A → Prop) p s s' : rstable i Q → Rely i s s' → rsafe i Q p s → rsafe i Q p s'.
Proof.
  intros HQ HR. destruct p as [a|B f k]; cbn; [by apply HQ|].
  intros H s1 Hi HR1. apply H; [done|]. by transitivity s'.
Qed.

Lemma rsafe_mono i {A} (Q Q' : S → A → Prop) p s : (∀ s a, Q s a → Q' s a) → rsafe i Q p s → rsafe i Q' p s.
Proof.
  intros HQ. revert s. induction p as [a|B f k IH]; cbn; intros s; [apply HQ|].
  intros H s1 Hi HR. destruct (H s1 Hi HR) as (? & ? & ?). eauto.
Qed.

Lemma rsafe_bind i {A B} (Q : S → A → Prop) (Q' : S → B → Prop) p (g : A → prog S B) s :
  rsafe i Q p s → (∀ a s', Q s' a → rsafe i Q' (g a) s') → rsafe i Q' (prog_bind p g) s.
Proof.
  intros Hp Hg. revert s Hp. induction p as [a|C f k IH]; cbn; intros s Hp; [by apply Hg|].
  intros s1 Hi HR. destruct (Hp s1 Hi HR) as (? & ? & ?). eauto.
Qed.

(** A loop whose assertion names the elements still to come. *)
Lemma rsafe_fold i {A B} (Q : list A → S → B → Prop) (g : B → A → prog S B) b l s :
  Q l s b → (∀ b a l s, Q (a :: l) s b → rsafe i (Q l) (g b a) s) → rsafe i (Q []) (prog_fold g b l) s.
Proof.
  intros Hb Hg. revert b s Hb. induction l as [|a l IH]; intros b s Hb; cbn; [done|].
  eapply rsafe_bind; [by apply Hg|]. auto.
Qed.

Lemma rsafe_sound {A} (Q : nat → S → A → Prop) s ps s' ps' :
  (∀ i, rstable i (Q i)) →
  rtc step (s, ps) (s', ps') → inv s → (∀ i p, ps !! i = Some p → rsafe i (Q i) p s) →
  inv s' ∧ ∀ i a, ps' !! i = Some (Done a) → Q i s' a.
Proof.
  intros HQ Hsteps Hinv Hps.
  enough (inv s' ∧ ∀ i p, ps' !! i = Some p → rsafe i (Q i) p s') as (? & Hall).
  { split; [done|]. intros i a Hi. apply (Hall _ _ Hi). }
  remember (s, ps) as c eqn:Hc. remember (s', ps') as c' eqn:Hc'. revert s ps Hc Hinv Hps.
  induction Hsteps as [c|c [s1 ps1] c' Hstep _ IH]; intros s ps -> Hinv Hps; simplify_eq; [done|].
  inversion Hstep as [? ? i B f k Hi]; subst.
  destruct (Hps _ _ Hi s Hinv ltac:(reflexivity)) as (Hinv' & HR & Hk).
  apply (IH eq_refl _ _ eq_refl Hinv'). intros j p Hj. destruct (decide (i = j)) as [<-|Hne].
  - rewrite list_lookup_insert_eq in Hj by (by eapply lookup_lt_Some). by simplify_eq.
  - rewrite list_lookup_insert_ne in Hj by done. eapply rsafe_evolve; [apply HQ| |by apply Hps]. by apply HR.
Qed.
End RelyGuarantee.

(** ** What every statement does *)

Section Each.
Context {S : Type} (P : S → S → Prop).

Fixpoint each {A} (p : prog S A) : Prop :=
  match p with
  | Done _ => True
  | Stmt f k => ∀ s, P s (f s).2 ∧ each (k (f s).1)
  end.

Lemma each_bind {A B} (p : prog S A) (g : A → prog S B) : each p → (∀ a, each (g a)) → each (prog_bind p g).
Proof. intros Hp Hg. induction p as [a|C f k IH]; cbn in *; [done|]. intros s. destruct (Hp s). eauto. Qed.

Lemma each_fold {A B} (g : B → A → prog S B) b l : (∀ b a, each (g b a)) → each (prog_fold g b l).
Proof. intros Hg. revert b. induction l as [|a l IH]; intros b; cbn; [done|]. by apply each_bind. Qed.

Lemma each_stmt {B} (f : S → B * S) : (∀ s, P s (f s).2) → each (stmt f).
Proof. intros Hf s. by split. Qed.

(** Each step of such a program leaves such programs. *)
Lemma each_step {A} s (ps : list (prog S A)) s1 ps1 :
  (∀ i p, ps !! i = Some p → each p) → step (s, ps) (s1, ps1) →
  P s s1 ∧ ∀ i p, ps1 !! i = Some p → each p.
Proof.
  intros Hps Hstep. inversion Hstep as [? ? i B f k Hi]; subst.
  destruct (Hps _ _ Hi s) as [HP Hk]. split; [done|]. intros j p Hj.
  destruct (decide (i = j)) as [<-|Hne]; [|rewrite list_lookup_insert_ne in Hj by done; eauto].
  rewrite list_lookup_insert_eq in Hj by (by eapply lookup_lt_Some). by simplify_eq.
Qed.

(** In any interleaving of such programs, every step is one of theirs. *)
Lemma each_steps {A} s (ps : list (prog S A)) s1 ps1 s2 ps2 :
  (∀ i p, ps !! i = Some p → each p) → rtc step (s, ps) (s1, ps1) → step (s1, ps1) (s2, ps2) → P s1 s2.
Proof.
  intros Hps Hsteps.
  assert (∀ i p, ps1 !! i = Some p → each p) as Hps1.
  { remember (s, ps) as c eqn:Hc. remember (s1, ps1) as c1 eqn:Hc1. revert s ps Hc Hps.
    induction Hsteps as [c|c [s0 ps0] c1 Hstep _ IH]; intros s ps -> Hps; simplify_eq; [done|].
    apply (IH eq_refl _ _ eq_refl). by apply (each_step _ _ _ _ Hps Hstep). }
  intros Hstep. by apply (each_step _ _ _ _ Hps1 Hstep).
Qed.
End Each.

Lemma each_mono {S A} (P P' : S → S → Prop) (p : prog S A) :
  (∀ s s', P s s' → P' s s') → each P p → each P' p.
Proof.
  intros HP. induction p as [a|B f k IH]; cbn; [done|]. intros Hp s. destruct (Hp s). auto.
Qed.

(** ** An invariant with a way out

    Some program may end the invariant for good: [esc] holds from then on. [ksafe] asks of a
    program what [safe] does, up to that. *)

Section WayOut.
Context {S : Type} (inv esc : S → Prop).

Fixpoint ksafe {A} (Q : A → Prop) (p : prog S A) : Prop :=
  match p with
  | Done a => Q a
  | Stmt f k => ∀ s, inv s → (inv (f s).2 ∧ ksafe Q (k (f s).1)) ∨ esc (f s).2
  end.

Lemma safe_ksafe {A} (Q : A → Prop) (p : prog S A) : safe inv Q p → ksafe Q p.
Proof.
  induction p as [a|B f k IH]; cbn; [done|]. intros Hp s Hs. destruct (Hp s Hs). left. auto.
Qed.

Lemma ksafe_bind {A B} (Q : A → Prop) (R : B → Prop) (p : prog S A) (g : A → prog S B) :
  ksafe Q p → (∀ a, Q a → ksafe R (g a)) → ksafe R (prog_bind p g).
Proof.
  intros Hp Hg. induction p as [a|C f k IH]; cbn in *; [by apply Hg|].
  intros s Hs. destruct (Hp s Hs) as [[? ?]|?]; [left|by right]. auto.
Qed.

Lemma ksafe_fold {A B} (Q : B → Prop) (g : B → A → prog S B) b l :
  Q b → (∀ b a, Q b → ksafe Q (g b a)) → ksafe Q (prog_fold g b l).
Proof.
  intros Hb Hg. revert b Hb. induction l as [|a l IH]; intros b Hb; cbn; [done|].
  eapply ksafe_bind; [by apply Hg|]. done.
Qed.

(** In every interleaving the invariant holds and every finished program answered as promised,
    or the invariant has been ended for good. *)
Lemma ksafe_sound {A} (Q : nat → A → Prop) s ps s' ps' :
  rtc step (s, ps) (s', ps') → inv s → (∀ i p, ps !! i = Some p → ksafe (Q i) p) →
  (∀ i p, ps !! i = Some p → each (λ s s', esc s → esc s') p) →
  (inv s' ∧ ∀ i a, ps' !! i = Some (Done a) → Q i a) ∨ esc s'.
Proof.
  intros Hsteps Hinv Hps Heach.
  enough ((inv s' ∧ ∀ i p, ps' !! i = Some p → ksafe (Q i) p) ∨ esc s') as [[? Hall]|]; [|by right|].
  { left. split; [done|]. intros i a Hi. apply (Hall _ _ Hi). }
  assert ((inv s ∧ ∀ i p, ps !! i = Some p → ksafe (Q i) p) ∨ esc s) as Hst by (left; auto).
  clear Hinv Hps. remember (s, ps) as c eqn:Hc. remember (s', ps') as c' eqn:Hc'. revert s ps Hc Hst Heach.
  induction Hsteps as [c|c [s1 ps1] c' Hstep _ IH]; intros s ps -> Hst Heach; simplify_eq; [done|].
  destruct (each_step _ _ _ _ _ Heach Hstep) as [Hesc Heach'].
  apply (IH eq_refl s1 ps1 eq_refl); [|done]. destruct Hst as [[Hinv Hps]|]; [|by right; apply Hesc].
  inversion Hstep as [? ? i B f k Hi]; subst.
  destruct (Hps _ _ Hi s Hinv) as [[Hinv' Hk]|]; [left; split; [done|]|by right].
  intros j p Hj. destruct (decide (i = j)) as [<-|Hne].
  - rewrite list_lookup_insert_eq in Hj by (by eapply lookup_lt_Some). by simplify_eq.
  - rewrite list_lookup_insert_ne in Hj by done. eauto.
Qed.
End WayOut.

Lemma ksafe_mono_esc {S A} (inv esc esc' : S → Prop) (Q : A → Prop) (p : prog S A) :
  (∀ s, esc s → esc' s) → ksafe inv esc Q p → ksafe inv esc' Q p.
Proof.
  intros HE. induction p as [a|B f k IH]; cbn; [done|].
  intros Hp s Hs. destruct (Hp s Hs) as [[? ?]|?]; [left|right]; auto.
Qed.
