(* ===== verification/PoolRouting.v ===== *)
(** * Pool routing and the target circuit breaker

    [src/packages/api/src/lib/pool-routing.ts]: health of an execution target (circuit
    breaker with leased half-open trials), which routes of a pool may serve a request, the
    smooth weighted round robin over them, and the database writes that move the breaker.

    A row of [execution_target] is a record; a Prisma [where] is a boolean predicate on it
    (a comparison with NULL is false, as in SQL); an [updateMany] is one atomic statement. The
    operations of several statements, and their interleavings, are in [TargetBreaker]. *)

From S2P Require Import Prelude.

(** ** Constants and data *)

Definition TARGET_UNHEALTHY_AFTER_RETRYABLE_FAILURES : Z := 3.
Definition TARGET_HEALTH_COOLDOWN_MS : Z := 60000.
Definition TARGET_HALF_OPEN_LEASE_MS : Z := 16 * 60000.
Definition TARGET_RECOVERY_BACKOFF_MS : list Z := [1000; 3000; 5000; 10000; 15000; 20000; 30000].

Inductive TargetHealthStatus := UNKNOWN | HEALTHY | HALF_OPEN | DEGRADED | UNHEALTHY.
Inductive TargetFailureClass :=
  TRANSPORT | RELAY_TIMEOUT | WEBSOCKET_DISCONNECTED | STALE_SESSION | UPSTREAM_5XX.
Inductive RelayFailureClass :=
  rf_transport | rf_timeout | rf_disconnected | rf_upstream_5xx | rf_upstream_4xx
| rf_unsupported_capability | rf_not_found | rf_access_denied | rf_rate_limited
| rf_request_too_large | rf_cancelled | rf_protocol_error | rf_unknown.

#[export] Instance TargetHealthStatus_eq_dec : EqDecision TargetHealthStatus.
Proof. solve_decision. Defined.
#[export] Instance TargetFailureClass_eq_dec : EqDecision TargetFailureClass.
Proof. solve_decision. Defined.
#[export] Instance RelayFailureClass_eq_dec : EqDecision RelayFailureClass.
Proof. solve_decision. Defined.

(** The failure classes that mean "the node is away". *)
Definition nodeUnavailableFailureClass (c : TargetFailureClass) : bool :=
  match c with WEBSOCKET_DISCONNECTED | STALE_SESSION => true | _ => false end.

Record TargetHealthSnapshot := mkHealth {
  health : TargetHealthStatus;
  lastFailureClass : option TargetFailureClass;
  consecutiveRetryableFailures : Z;
  lastFailureAt : option Z;
  nextRetryAt : option Z;
  halfOpenTrialStartedAt : option Z;
}.

#[export] Instance TargetHealthSnapshot_eq_dec : EqDecision TargetHealthSnapshot.
Proof. solve_decision. Defined.

Record PoolRouteRow := mkRoute {
  rr_health : TargetHealthSnapshot;
  poolMemberId : string;
  poolId : string;
  runtimeModelId : string;
  upstreamModelId : string;
  executionTargetId : string;
  instanceId : string;
  instanceHandle : string;
  nodeId : option string;
  instanceReady : bool;
  nodeOnline : bool;
  memberActive : bool;
  weight : Z;
}.

Inductive RoutingHealth := RouteHealthy | RouteHalfOpen.

#[export] Instance RoutingHealth_eq_dec : EqDecision RoutingHealth.
Proof. solve_decision. Defined.

Record PoolRouteCandidate := mkCandidateRoute {
  pc_poolMemberId : string;
  pc_poolId : string;
  pc_runtimeModelId : string;
  pc_upstreamModelId : string;
  pc_executionTargetId : string;
  pc_instanceId : string;
  pc_instanceHandle : string;
  pc_nodeId : string;
  pc_weight : Z;
  pc_health : RoutingHealth;
  pc_consecutiveRetryableFailures : Z;
  pc_lastFailureClass : option TargetFailureClass;
  pc_lastFailureAt : option Z;
  pc_nextRetryAt : option Z;
  pc_degradedFallback : bool;
}.

(** ** Health transitions *)

Definition targetFailureClassForRelayFailure (f : RelayFailureClass) : option TargetFailureClass :=
  match f with
  | rf_transport => Some TRANSPORT
  | rf_timeout => Some RELAY_TIMEOUT
  | rf_disconnected => Some WEBSOCKET_DISCONNECTED
  | rf_upstream_5xx => Some UPSTREAM_5XX
  | rf_protocol_error => Some TRANSPORT
  | _ => None
  end.

Definition targetHealthFailure (f : RelayFailureClass) (adapted : bool) : RelayFailureClass :=
  if adapted && (bool_decide (f = rf_upstream_5xx) || bool_decide (f = rf_protocol_error))
  then rf_unknown else f.

Definition isRetryableTargetRelayFailure (f : RelayFailureClass) : bool :=
  match targetFailureClassForRelayFailure f with Some _ => true | None => false end.

Definition resetTargetHealth : TargetHealthSnapshot := mkHealth HEALTHY None 0 None None None.

Definition targetRecoveryDelayMs (consecutiveFailures : Z) : Z :=
  let index := Z.min (Z.max (consecutiveFailures - 1) 0)
                 (Z.of_nat (length TARGET_RECOVERY_BACKOFF_MS) - 1) in
  default TARGET_HEALTH_COOLDOWN_MS (TARGET_RECOVERY_BACKOFF_MS !! Z.to_nat index).

(** A trial is live iff it was claimed after [now - lease]. *)
Definition targetTrialLive (startedAt : option Z) (now : Z) : bool :=
  match startedAt with
  | None => false
  | Some t => now - TARGET_HALF_OPEN_LEASE_MS <? t
  end.

Record TargetHalfOpenTrial := mkTrial { tr_startedAt : Z; tr_live : bool }.

Inductive TargetBreakerState :=
| Closed
| BDegraded (retryAt : option Z) (due : bool)
| BOpen (retryAt : option Z) (due : bool)
| BHalfOpen (trial : option TargetHalfOpenTrial).

Definition retryDue (retryAt : option Z) (now : Z) : bool :=
  match retryAt with Some t => t <=? now | None => false end.

Definition targetBreakerState (target : TargetHealthSnapshot) (now : Z) : TargetBreakerState :=
  match health target with
  | HEALTHY | UNKNOWN => Closed
  | HALF_OPEN =>
      BHalfOpen (match halfOpenTrialStartedAt target with
                 | Some t => Some (mkTrial t (targetTrialLive (Some t) now))
                 | None => None
                 end)
  | DEGRADED => BDegraded (nextRetryAt target) (retryDue (nextRetryAt target) now)
  | UNHEALTHY => BOpen (nextRetryAt target) (retryDue (nextRetryAt target) now)
  end.

Definition transitionTargetHealthAfterRetryableFailure (target : TargetHealthSnapshot)
    (failureClass : TargetFailureClass) (now : Z) : TargetHealthSnapshot :=
  let failures := consecutiveRetryableFailures target + 1 in
  let cooldownUntil := now + targetRecoveryDelayMs failures in
  let failedHalfOpenTrial := match targetBreakerState target now with
                             | BHalfOpen _ => true
                             | BOpen _ due => due
                             | _ => false
                             end in
  mkHealth
    (if failedHalfOpenTrial || (TARGET_UNHEALTHY_AFTER_RETRYABLE_FAILURES <=? failures)
     then UNHEALTHY else DEGRADED)
    (Some failureClass) failures (Some now) (Some cooldownUntil) None.

Definition transitionTargetHealthForNodeUnavailable (failureClass : TargetFailureClass) (now : Z) :
    TargetHealthSnapshot :=
  mkHealth UNHEALTHY (Some failureClass) TARGET_UNHEALTHY_AFTER_RETRYABLE_FAILURES (Some now)
    (Some (now + TARGET_HEALTH_COOLDOWN_MS)) None.

Definition targetTrialInFlight (state : TargetBreakerState) : bool :=
  match state with BHalfOpen (Some trial) => tr_live trial | _ => false end.

Definition targetTrialHeldBy (state : TargetBreakerState) (trialStartedAt : Z) : bool :=
  match state with BHalfOpen (Some trial) => tr_startedAt trial =? trialStartedAt | _ => false end.

(** ** SQL forms of the breaker predicates *)

Definition lapsedTrialCutoff (now : Z) : Z := now - TARGET_HALF_OPEN_LEASE_MS.

(** [{ column: { lte: bound } }] and [{ column: { gt: bound } }] on a nullable column. *)
Definition sql_lte (column : option Z) (bound : Z) : bool :=
  match column with Some t => t <=? bound | None => false end.
Definition sql_gt (column : option Z) (bound : Z) : bool :=
  match column with Some t => bound <? t | None => false end.
Definition sql_null {A} (column : option A) : bool :=
  match column with None => true | Some _ => false end.
Definition has_health (t : TargetHealthSnapshot) (h : TargetHealthStatus) : bool :=
  bool_decide (health t = h).

Definition targetNoTrialInFlightWhere (now : Z) (t : TargetHealthSnapshot) : bool :=
  negb (has_health t HALF_OPEN)
  || sql_null (halfOpenTrialStartedAt t)
  || sql_lte (halfOpenTrialStartedAt t) (lapsedTrialCutoff now).

Definition targetDueWhere (now : Z) (t : TargetHealthSnapshot) : bool :=
  (has_health t DEGRADED || has_health t UNHEALTHY) && sql_lte (nextRetryAt t) now.

Definition targetOpenCoolingDownWhere (now : Z) (t : TargetHealthSnapshot) : bool :=
  has_health t UNHEALTHY && (sql_null (nextRetryAt t) || sql_gt (nextRetryAt t) now).

Definition targetCoolingDownWhere (now : Z) (t : TargetHealthSnapshot) : bool :=
  (has_health t DEGRADED || has_health t UNHEALTHY)
  && (sql_null (nextRetryAt t) || sql_gt (nextRetryAt t) now).

Definition targetHalfOpenClaimableWhere (now : Z) (allowDegraded : bool)
    (t : TargetHealthSnapshot) : bool :=
  (has_health t UNHEALTHY && sql_lte (nextRetryAt t) now)
  || (has_health t HALF_OPEN && sql_null (halfOpenTrialStartedAt t))
  || (has_health t HALF_OPEN && sql_lte (halfOpenTrialStartedAt t) (lapsedTrialCutoff now))
  || (allowDegraded && (has_health t DEGRADED && sql_lte (nextRetryAt t) now)).

(** ** Routing *)

Definition targetRoutingHealth (target : TargetHealthSnapshot) (now : Z) (allowDegraded : bool) :
    option RoutingHealth :=
  match targetBreakerState target now with
  | Closed => Some RouteHealthy
  | BHalfOpen trial =>
      if match trial with Some t => tr_live t | None => false end then None else Some RouteHalfOpen
  | BDegraded _ due => if allowDegraded && due then Some RouteHalfOpen else None
  | BOpen _ due => if due then Some RouteHalfOpen else None
  end.

Definition servable (online : gset string) (route : PoolRouteRow) : bool :=
  instanceReady route && nodeOnline route
  && match nodeId route with Some n => bool_decide (n ∈ online) | None => false end
  && memberActive route && (0 <? weight route).

Definition healthyRow (route : PoolRouteRow) : bool :=
  has_health (rr_health route) HEALTHY || has_health (rr_health route) UNKNOWN.

Definition routeCandidate (route : PoolRouteRow) (node : string) (h : RoutingHealth)
    (degradedFallback : bool) : PoolRouteCandidate :=
  mkCandidateRoute (poolMemberId route) (poolId route) (runtimeModelId route)
    (upstreamModelId route) (executionTargetId route) (instanceId route) (instanceHandle route)
    node (weight route) h (consecutiveRetryableFailures (rr_health route))
    (lastFailureClass (rr_health route)) (lastFailureAt (rr_health route))
    (nextRetryAt (rr_health route)) degradedFallback.

(** The body of the loop over [routes]: the candidate a route yields, if any. *)
Definition routableRoute (online : gset string) (now : Z) (healthyAlternative degradedTrials : bool)
    (route : PoolRouteRow) : option PoolRouteCandidate :=
  let degradedFallback :=
    (degradedTrials || negb healthyAlternative) && has_health (rr_health route) DEGRADED in
  match targetRoutingHealth (rr_health route) now degradedFallback with
  | None => None
  | Some h =>
      if negb (servable online route) then None
      else match nodeId route with
           | None => None
           | Some node => Some (routeCandidate route node h degradedFallback)
           end
  end.

Definition routablePoolRoutes (routes : list PoolRouteRow) (onlineNodeIds : gset string) (now : Z)
    (alternatives : list PoolRouteRow) (degradedTrials : bool) : list PoolRouteCandidate :=
  let healthyAlternative :=
    existsb (λ route, healthyRow route && servable onlineNodeIds route) alternatives in
  omap (routableRoute onlineNodeIds now healthyAlternative degradedTrials) routes.

(** ** Smooth weighted round robin *)

Definition routeKey (member target : string) : string := member +:+ ":" +:+ target.
Definition candidateKey (route : PoolRouteCandidate) : string :=
  routeKey (pc_poolMemberId route) (pc_executionTargetId route).

Record Weighted := mkWeighted { wt_id : string; wt_weight : Z; wt_route : PoolRouteCandidate }.

Definition weighted (route : PoolRouteCandidate) : Weighted :=
  mkWeighted (candidateKey route) (pc_weight route) route.

(** The loop of [pickSmoothWeighted]: the next state, and the selected candidate with its
    current weight ([None] stands for the initial minus infinity). *)
Fixpoint smoothScan (candidates : list Weighted) (state next : gmap string Z)
    (selected : option (Weighted * Z)) : gmap string Z * option (Weighted * Z) :=
  match candidates with
  | [] => (next, selected)
  | candidate :: rest =>
      let current := default 0 (state !! wt_id candidate) + wt_weight candidate in
      let better := match selected with None => true | Some (_, w) => w <? current end in
      smoothScan rest state (<[wt_id candidate := current]> next)
        (if better then Some (candidate, current) else selected)
  end.

Definition pickSmoothWeighted (candidates : list Weighted) (state : gmap string Z) :
    result (Weighted * gmap string Z) :=
  let totalWeight := foldl (λ sum candidate, sum + wt_weight candidate) 0 candidates in
  let '(next, selected) := smoothScan candidates state ∅ None in
  match selected with
  | None => Throw (PlainError "Cannot select from an empty weighted candidate list.")
  | Some (candidate, _) =>
      Ok (candidate,
          <[wt_id candidate := default 0 (next !! wt_id candidate) - totalWeight]> next)
  end.

(** The [while (remaining.length > 0)] loop; every round removes the picked route. *)
Fixpoint failoverOrder (fuel : nat) (remaining : list PoolRouteCandidate) (cursor : gmap string Z)
    (ordered : list PoolRouteCandidate) : result (list PoolRouteCandidate) :=
  match fuel, remaining with
  | _, [] => Ok ordered
  | O, _ => Throw (PlainError "out of fuel")
  | S fuel, _ =>
      let! pick := pickSmoothWeighted (map weighted remaining) cursor in
      failoverOrder fuel
        (List.filter (λ route, negb (bool_decide (candidateKey route = wt_id pick.1))) remaining)
        pick.2 (ordered ++ [wt_route pick.1])
  end.

Inductive PoolRouteSequenceResult :=
| RouteSequence (candidates : list PoolRouteCandidate) (state : gmap string Z)
| NoRoutablePoolMembers.

Definition buildPoolRouteSequence (routes : list PoolRouteRow) (onlineNodeIds : gset string)
    (now : Z) (state : gmap string Z) (alternatives : option (list PoolRouteRow))
    (degradedTrials : bool) : result PoolRouteSequenceResult :=
  let candidates := routablePoolRoutes routes onlineNodeIds now (default routes alternatives)
                      degradedTrials in
  match candidates with
  | [] => Ok NoRoutablePoolMembers
  | _ =>
      let! primary := pickSmoothWeighted (map weighted candidates) state in
      let remaining := List.filter
        (λ route, negb (bool_decide (candidateKey route = wt_id primary.1))) candidates in
      let! ordered := failoverOrder (length candidates) remaining primary.2
                        [wt_route primary.1] in
      Ok (RouteSequence ordered primary.2)
  end.

(** ** Parity of the SQL predicates with the breaker state *)

Lemma sql_retry_split (at_ : option Z) now :
  sql_null at_ || sql_gt at_ now = negb (retryDue at_ now).
Proof. destruct at_ as [t|]; simpl; [|done]. by rewrite Z.leb_antisym, negb_involutive. Qed.

Lemma sql_trial_lapsed (at_ : option Z) now :
  sql_null at_ || sql_lte at_ (lapsedTrialCutoff now) = negb (targetTrialLive at_ now).
Proof. destruct at_ as [t|]; simpl; [|done]. by rewrite Z.leb_antisym. Qed.

Lemma sql_lte_due (at_ : option Z) now : sql_lte at_ now = retryDue at_ now.
Proof. by destruct at_. Qed.

(** What each predicate says of the breaker state. *)
Definition breaker_cooling (s : TargetBreakerState) : bool :=
  match s with BDegraded _ due | BOpen _ due => negb due | _ => false end.
Definition breaker_due (s : TargetBreakerState) : bool :=
  match s with BDegraded _ due | BOpen _ due => due | _ => false end.
Definition breaker_open (s : TargetBreakerState) : bool :=
  match s with BOpen _ _ => true | _ => false end.

Lemma noTrialWhere_parity now t :
  targetNoTrialInFlightWhere now t = negb (targetTrialInFlight (targetBreakerState t now)).
Proof.
  unfold targetNoTrialInFlightWhere, targetBreakerState, has_health.
  rewrite <- orb_assoc, sql_trial_lapsed.
  destruct (health t); try done. by destruct (halfOpenTrialStartedAt t).
Qed.

Lemma dueWhere_parity now t :
  targetDueWhere now t = breaker_due (targetBreakerState t now).
Proof.
  unfold targetDueWhere, targetBreakerState, has_health. rewrite sql_lte_due.
  by destruct (health t).
Qed.

Lemma coolingDownWhere_parity now t :
  targetCoolingDownWhere now t = breaker_cooling (targetBreakerState t now).
Proof.
  unfold targetCoolingDownWhere, targetBreakerState, has_health. rewrite sql_retry_split.
  by destruct (health t).
Qed.

Lemma openCoolingDownWhere_parity now t :
  targetOpenCoolingDownWhere now t =
  breaker_open (targetBreakerState t now) && breaker_cooling (targetBreakerState t now).
Proof.
  unfold targetOpenCoolingDownWhere, targetBreakerState, has_health. rewrite sql_retry_split.
  by destruct (health t).
Qed.

Lemma claimableWhere_parity now allow t :
  targetHalfOpenClaimableWhere now allow t =
  bool_decide (targetRoutingHealth t now allow = Some RouteHalfOpen).
Proof.
  unfold targetHalfOpenClaimableWhere, targetRoutingHealth, targetBreakerState, has_health.
  rewrite !sql_lte_due. destruct (health t); simpl; rewrite ?andb_false_r; try done.
  - rewrite orb_false_r. destruct (halfOpenTrialStartedAt t) as [s|]; simpl; [|done].
    rewrite Z.leb_antisym. by destruct (_ <? s).
  - by destruct allow, (retryDue _ _).
  - rewrite orb_false_r. by destruct (retryDue _ _).
Qed.

(** Every SQL predicate of the breaker selects exactly the rows whose in-memory breaker
    state has the property the predicate is named for, on every row and at every time: "no
    trial in flight", "due", "cooling down", "open and cooling down" and "a request may claim
    the half-open trial", NULL columns included. *)
Theorem breaker_where_parity (t : TargetHealthSnapshot) (now : Z) (allowDegraded : bool) :
  targetNoTrialInFlightWhere now t = negb (targetTrialInFlight (targetBreakerState t now)) ∧
  targetDueWhere now t = breaker_due (targetBreakerState t now) ∧
  targetCoolingDownWhere now t = breaker_cooling (targetBreakerState t now) ∧
  targetOpenCoolingDownWhere now t =
    (breaker_open (targetBreakerState t now) && breaker_cooling (targetBreakerState t now)) ∧
  targetHalfOpenClaimableWhere now allowDegraded t =
    bool_decide (targetRoutingHealth t now allowDegraded = Some RouteHalfOpen).
Proof.
  repeat split; [apply noTrialWhere_parity|apply dueWhere_parity|apply coolingDownWhere_parity
    |apply openCoolingDownWhere_parity|apply claimableWhere_parity].
Qed.

(** ** Which routes a request may try *)

(** A route that can serve and whose breaker lets a request through: closed, due, or
    half-open with no live trial. *)
Definition admissible (online : gset string) (now : Z) (route : PoolRouteRow) : bool :=
  servable online route
  && match targetBreakerState (rr_health route) now with
     | Closed => true
     | BDegraded _ due | BOpen _ due => due
     | BHalfOpen trial => negb (match trial with Some t => tr_live t | None => false end)
     end.

Lemma servable_node online route :
  servable online route = true → ∃ node, nodeId route = Some node ∧ node ∈ online.
Proof.
  unfold servable. intros Hs. destruct (nodeId route) as [n|]; split_ands; [|done].
  exists n. split; [done|]. by crush.
Qed.

Lemma routableRoute_Some online now ha dt route :
  is_Some (routableRoute online now ha dt route) ↔
  servable online route = true ∧
  is_Some (targetRoutingHealth (rr_health route) now
             ((dt || negb ha) && has_health (rr_health route) DEGRADED)).
Proof.
  unfold routableRoute. destruct (targetRoutingHealth _ _ _) as [h|]; [|split; [by intros [? ?]|by intros [_ [? ?]]]].
  destruct (servable online route) eqn:Hs; simpl; [|split; [by intros [? ?]|by intros [? _]]].
  destruct (servable_node _ _ Hs) as (n & -> & _). split; eauto.
Qed.

Lemma routable_nil routes online now alts dt :
  routablePoolRoutes routes online now alts dt = [] ↔
  ∀ route, In route routes →
    routableRoute online now (existsb (λ r, healthyRow r && servable online r) alts) dt route = None.
Proof.
  unfold routablePoolRoutes. set (f := routableRoute _ _ _ _).
  induction routes as [|r rs IH]; simpl; [split; [by intros _ ? []|done]|].
  destruct (f r) eqn:Hf; split.
  - done.
  - intros Hall. specialize (Hall r (or_introl eq_refl)). congruence.
  - intros Hnil r' [<-|Hin]; [done|]. by apply IH.
  - intros Hall. apply IH. auto.
Qed.

(** A degraded route gives way to a healthy one that can serve, unless the caller asked for trials
    of degraded routes. *)
Definition deferred (online : gset string) (alternatives : list PoolRouteRow) (degradedTrials : bool)
    (route : PoolRouteRow) : bool :=
  has_health (rr_health route) DEGRADED && negb degradedTrials
  && existsb (λ alternative, healthyRow alternative && servable online alternative) alternatives.

Lemma routable_iff online now alternatives dt route :
  is_Some (routableRoute online now (existsb (λ r, healthyRow r && servable online r) alternatives) dt route) ↔
  admissible online now route = true ∧ deferred online alternatives dt route = false.
Proof.
  rewrite routableRoute_Some. unfold admissible, deferred. set (ha := existsb _ alternatives).
  destruct (servable online route); [|naive_solver]. cbn [andb].
  unfold targetRoutingHealth, targetBreakerState, has_health.
  destruct (health (rr_health route)); cbn;
    try (destruct (retryDue _ _), dt, ha; cbn);
    try (destruct (halfOpenTrialStartedAt _) as [t|]; cbn -[Z.ltb]; try destruct (_ <? _)); naive_solver.
Qed.

Lemma healthy_routable online now ha dt route :
  healthyRow route = true → servable online route = true → is_Some (routableRoute online now ha dt route).
Proof.
  intros Hh Hs. apply routableRoute_Some. split; [done|].
  unfold healthyRow, has_health in Hh. unfold targetRoutingHealth, targetBreakerState.
  destruct (health (rr_health route)); simpl in *; eauto; done.
Qed.

(** ** The weighted pick *)

Section Pick.
Variable state : gmap string Z.

(** The weight a candidate competes with in this round. *)
Definition current (c : Weighted) : Z := default 0 (state !! wt_id c) + wt_weight c.

Lemma smoothScan_lookup cs next sel k :
  k ∉ map wt_id cs → (smoothScan cs state next sel).1 !! k = next !! k.
Proof.
  revert next sel. induction cs as [|c cs IH]; intros next sel; simpl; [done|].
  rewrite not_elem_of_cons. intros [Hne Hk]. rewrite IH by done.
  by rewrite lookup_insert_ne.
Qed.

Lemma smoothScan_current cs next sel c :
  NoDup (map wt_id cs) → In c cs →
  (smoothScan cs state next sel).1 !! wt_id c = Some (current c).
Proof.
  revert next sel. induction cs as [|c' cs IH]; intros next sel; simpl; [done|].
  intros [Hc' Hnd]%NoDup_cons [->|Hin]; [|by apply IH].
  rewrite smoothScan_lookup by done. by rewrite lookup_insert_eq.
Qed.

Lemma smoothScan_max cs next sel :
  match (smoothScan cs state next sel).2 with
  | None => cs = [] ∧ sel = None
  | Some (c, v) =>
      (sel = Some (c, v) ∨ (In c cs ∧ v = current c)) ∧
      (∀ c', In c' cs → current c' ≤ v) ∧ (∀ c0 v0, sel = Some (c0, v0) → v0 ≤ v)
  end.
Proof.
  revert next sel. induction cs as [|c cs IH]; intros next sel; simpl.
  - destruct sel as [[c v]|]; [|done].
    split; [by left|]. split; [done|]. intros ?? [= -> ->]. lia.
  - fold (current c). destruct sel as [[c1 v1]|]; simpl.
    + destruct (Z.ltb_spec v1 (current c)).
      * specialize (IH (<[wt_id c:=current c]> next) (Some (c, current c))).
        destruct (smoothScan _ _ _ _).2 as [[c2 v2]|]; [|by destruct IH].
        destruct IH as (Hs & Hm & Hsel). specialize (Hsel _ _ eq_refl).
        split; [right; destruct Hs as [[= -> ->]|[? ?]]; auto|].
        split; [intros c' [<-|?]; auto|]. intros ?? [= -> ->]. lia.
      * specialize (IH (<[wt_id c:=current c]> next) (Some (c1, v1))).
        destruct (smoothScan _ _ _ _).2 as [[c2 v2]|]; [|by destruct IH].
        destruct IH as (Hs & Hm & Hsel). specialize (Hsel _ _ eq_refl).
        split; [destruct Hs as [?|[? ?]]; auto|].
        split; [intros c' [<-|?]; auto; lia|]. intros ?? [= -> ->]. lia.
    + specialize (IH (<[wt_id c:=current c]> next) (Some (c, current c))).
      destruct (smoothScan _ _ _ _).2 as [[c2 v2]|]; [|by destruct IH].
      destruct IH as (Hs & Hm & Hsel). specialize (Hsel _ _ eq_refl).
      split; [right; destruct Hs as [[= -> ->]|[? ?]]; auto|].
      split; [intros c' [<-|?]; auto|done].
Qed.

Definition total_weight (cs : list Weighted) : Z := foldl (λ sum c, sum + wt_weight c) 0 cs.

Lemma pick_spec cs :
  cs ≠ [] →
  ∃ c next, pickSmoothWeighted cs state = Ok (c, next) ∧ In c cs ∧
    (∀ c', In c' cs → current c' ≤ current c) ∧
    (NoDup (map wt_id cs) → ∀ c', In c' cs →
       default 0 (next !! wt_id c') =
       current c' - if bool_decide (wt_id c' = wt_id c) then total_weight cs else 0).
Proof.
  intros Hne. unfold pickSmoothWeighted.
  pose proof (smoothScan_max cs ∅ None) as Hmax.
  pose proof (λ c, smoothScan_current cs ∅ None c) as Hcur.
  destruct (smoothScan cs state ∅ None) as [next [[c v]|]]; simpl in *; [|by destruct Hmax].
  destruct Hmax as ([?|[Hin ->]] & Hmax & _); [done|].
  exists c, (<[wt_id c:=default 0 (next !! wt_id c) - total_weight cs]> next).
  split; [done|]. split; [done|]. split; [done|]. intros Hnd c' Hin'.
  case_bool_decide as Hid.
  - rewrite Hid, lookup_insert_eq. simpl. rewrite <- Hid. by rewrite (Hcur c').
  - rewrite lookup_insert_ne by done. rewrite (Hcur c') by done. simpl. lia.
Qed.
End Pick.

(** ** The failover order *)

Definition without_key (k : string) (rs : list PoolRouteCandidate) : list PoolRouteCandidate :=
  List.filter (λ route, negb (bool_decide (candidateKey route = k))) rs.

Lemma without_key_In k rs r : In r (without_key k rs) ↔ In r rs ∧ candidateKey r ≠ k.
Proof.
  unfold without_key. rewrite filter_In, negb_true_iff, bool_decide_eq_false. done.
Qed.

Lemma without_key_fresh k rs : k ∉ map candidateKey rs → without_key k rs = rs.
Proof.
  induction rs as [|r rs IH]; simpl; [done|]. rewrite not_elem_of_cons. intros [Hne Hk].
  rewrite bool_decide_false by congruence. simpl. f_equal. by apply IH.
Qed.

Lemma without_key_perm rs r :
  NoDup (map candidateKey rs) → In r rs → r :: without_key (candidateKey r) rs ≡ₚ rs.
Proof.
  induction rs as [|r' rs IH]; simpl; [done|].
  intros [Hr' Hnd]%NoDup_cons [->|Hin].
  - rewrite bool_decide_true by done. simpl. by rewrite (without_key_fresh _ _ Hr').
  - rewrite bool_decide_false.
    + simpl. rewrite <- (IH Hnd Hin) at 2. apply perm_swap.
    + intros Heq. apply Hr'. rewrite Heq. by apply list_elem_of_In, in_map.
Qed.

Lemma without_key_length rs r : In r rs → (length (without_key (candidateKey r) rs) < length rs)%nat.
Proof.
  induction rs as [|r' rs IH]; simpl; [done|]. intros [->|Hin].
  - rewrite bool_decide_true by done. simpl. apply Nat.lt_succ_r, List.filter_length_le.
  - destruct (negb _); simpl; specialize (IH Hin); lia.
Qed.

Lemma without_key_NoDup k rs :
  NoDup (map candidateKey rs) → NoDup (map candidateKey (without_key k rs)).
Proof.
  induction rs as [|r rs IH]; simpl; [done|]. intros [Hr Hnd]%NoDup_cons.
  destruct (negb _); simpl; [|by apply IH]. constructor; [|by apply IH].
  intros (r' & Hk & Hin)%list_elem_of_In%in_map_iff. apply Hr. rewrite <- Hk.
  apply list_elem_of_In, in_map. by apply without_key_In in Hin as [? _].
Qed.

Lemma map_weighted_id rs : map wt_id (map weighted rs) = map candidateKey rs.
Proof. rewrite map_map. done. Qed.

(** One pick among the remaining routes selects one of them. *)
Lemma pick_route rs state :
  rs ≠ [] → ∃ r next, In r rs ∧ pickSmoothWeighted (map weighted rs) state = Ok (weighted r, next).
Proof.
  intros Hne. destruct (pick_spec state (map weighted rs)) as (c & next & Hp & Hin & _).
  - by destruct rs.
  - apply in_map_iff in Hin as (r & <- & Hr). eauto.
Qed.

Lemma failoverOrder_spec fuel rs cursor acc :
  (length rs ≤ fuel)%nat →
  ∃ rest, failoverOrder fuel rs cursor acc = Ok (acc ++ rest) ∧
    (∀ r, In r rest → In r rs) ∧
    (∀ r, In r rs → In (candidateKey r) (map candidateKey rest)) ∧
    NoDup (map candidateKey rest) ∧
    (NoDup (map candidateKey rs) → rest ≡ₚ rs).
Proof.
  revert rs cursor acc. induction fuel as [|fuel IH]; intros rs cursor acc Hlen.
  all: destruct rs as [|r0 rs0]; cbn [failoverOrder].
  1,3: exists []; rewrite app_nil_r; split_and!; simpl; try done; apply NoDup_nil_2.
  - simpl in Hlen. lia.
  - destruct (pick_route (r0 :: rs0) cursor) as (r & next & Hin & Hp); [done|].
    remember (r0 :: rs0) as rs. rewrite Hp. cbn [result_bind fst snd weighted wt_id wt_route].
    pose proof (without_key_length rs r Hin) as Hlt. fold (without_key (candidateKey r) rs).
    destruct (IH (without_key (candidateKey r) rs) next (acc ++ [r])) as (rest & Hr & Hsub & Hall & Hnd & Hperm);
      [lia|].
    exists (r :: rest). rewrite Hr, <- app_assoc. split; [done|]. split_and!.
    + intros r' [<-|Hr']; [done|]. by apply Hsub, without_key_In in Hr' as [? _].
    + intros r' Hr'. simpl. destruct (decide (candidateKey r' = candidateKey r)) as [->|Hne]; [by left|].
      right. apply Hall, without_key_In. done.
    + simpl. constructor; [|done].
      intros (r' & Hk & Hr')%list_elem_of_In%in_map_iff.
      by apply Hsub, without_key_In in Hr' as [_ ?].
    + intros Hnd'. rewrite Hperm by by apply without_key_NoDup. by apply without_key_perm.
Qed.

(** The result of [buildPoolRouteSequence] on the candidates it computed. *)
Lemma sequence_spec routes online now state alts dt :
  let cands := routablePoolRoutes routes online now (default routes alts) dt in
  (cands = [] ∧ buildPoolRouteSequence routes online now state alts dt = Ok NoRoutablePoolMembers) ∨
  (∃ r next rest,
     In r cands ∧ pickSmoothWeighted (map weighted cands) state = Ok (weighted r, next) ∧
     buildPoolRouteSequence routes online now state alts dt = Ok (RouteSequence (r :: rest) next) ∧
     (∀ r', In r' rest → In r' cands) ∧
     (∀ r', In r' cands → In (candidateKey r') (map candidateKey (r :: rest))) ∧
     NoDup (map candidateKey (r :: rest)) ∧
     (NoDup (map candidateKey cands) → r :: rest ≡ₚ cands)).
Proof.
  intros cands. unfold buildPoolRouteSequence. fold cands.
  destruct (decide (cands = [])) as [->|Hne]; [by left|right].
  destruct (pick_route cands state Hne) as (r & next & Hin & Hp).
  destruct (failoverOrder_spec (length cands) (without_key (candidateKey r) cands) next [r])
    as (rest & Hr & Hsub & Hall & Hnd & Hperm).
  { pose proof (without_key_length cands r Hin). lia. }
  exists r, next, rest. split; [done|]. split; [done|]. split.
  - destruct cands as [|r0 cs] eqn:Hc; [done|]. rewrite Hp.
    cbn [result_bind fst snd weighted wt_id wt_route].
    fold (without_key (candidateKey r) (r0 :: cs)). by rewrite Hr.
  - split_and!.
    + intros r' Hr'. by apply Hsub, without_key_In in Hr' as [? _].
    + intros r' Hr'. simpl. destruct (decide (candidateKey r' = candidateKey r)) as [->|]; [by left|].
      right. by apply Hall, without_key_In.
    + simpl. constructor; [|done]. intros (r' & Hk & Hr')%list_elem_of_In%in_map_iff.
      by apply Hsub, without_key_In in Hr' as [_ ?].
    + intros Hnd'. rewrite Hperm by by apply without_key_NoDup. by apply without_key_perm.
Qed.

(** A candidate comes from an admissible route of the request that is not deferred, on an online node. *)
Lemma routable_source routes online now alts dt c :
  In c (routablePoolRoutes routes online now alts dt) →
  ∃ route, In route routes ∧ admissible online now route = true ∧ deferred online alts dt route = false ∧
    candidateKey c = routeKey (poolMemberId route) (executionTargetId route) ∧
    nodeId route = Some (pc_nodeId c) ∧ pc_nodeId c ∈ online.
Proof.
  unfold routablePoolRoutes. intros (route & Hin & Hc)%list_elem_of_In%list_elem_of_omap.
  apply list_elem_of_In in Hin. exists route. split; [done|].
  destruct (proj1 (routable_iff online now alts dt route) ltac:(eauto)) as [Ha Hd].
  split; [done|]. split; [done|].
  unfold routableRoute in Hc. destruct (targetRoutingHealth _ _ _) as [h|]; [|done].
  destruct (servable online route) eqn:Hs; [|done]. simpl in Hc.
  destruct (servable_node _ _ Hs) as (n & Hn & Hon). rewrite Hn in *. by simplify_eq/=.
Qed.

(** Such a route yields a candidate with its key. *)
Lemma routable_member routes online now alts dt route :
  In route routes → admissible online now route = true → deferred online alts dt route = false →
  ∃ c, In c (routablePoolRoutes routes online now alts dt) ∧
    candidateKey c = routeKey (poolMemberId route) (executionTargetId route).
Proof.
  intros Hin Ha Hd. destruct (proj2 (routable_iff online now alts dt route) (conj Ha Hd)) as [c Hc].
  exists c. split; [apply list_elem_of_In, list_elem_of_omap; exists route; by rewrite list_elem_of_In|].
  unfold routableRoute in Hc. destruct (targetRoutingHealth _ _ _); [|done].
  destruct (negb _); [done|]. destruct (nodeId route); by simplify_eq.
Qed.

(** C34. Route selection is total and exact. The call never throws and its failover loop
    terminates. Say that a route of the request can be tried when it can serve with a breaker that
    is closed, due for a trial, or half-open without a live trial, and is not deferred: a degraded
    route gives way while one of the alternatives (the caller's other routes; the routes themselves
    when none are passed) is healthy and can serve, unless degraded trials are asked for. The
    answer is "no routable member" exactly when no route can be tried, so a request whose
    alternatives are among its routes is refused only when no route can serve with a breaker that
    lets it through. Otherwise it returns candidates of routes that can be tried only, each (member,
    target) key once, every such route's key tried, and a permutation of the routable candidates
    when keys are distinct. *)
Theorem route_sequence_complete (routes : list PoolRouteRow) (online : gset string) (now : Z)
    (state : gmap string Z) (alternatives : option (list PoolRouteRow)) (degradedTrials : bool) :
  let alts := default routes alternatives in
  match buildPoolRouteSequence routes online now state alternatives degradedTrials with
  | Throw _ => False
  | Ok NoRoutablePoolMembers =>
      (∀ route, In route routes → admissible online now route = true →
         deferred online alts degradedTrials route = true) ∧
      ((∀ alt, In alt alts → In alt routes) → ∀ route, In route routes → admissible online now route = false)
  | Ok (RouteSequence candidates _) =>
      candidates ≠ [] ∧
      (∀ c, In c candidates → ∃ route, In route routes ∧ admissible online now route = true ∧
         deferred online alts degradedTrials route = false ∧
         candidateKey c = routeKey (poolMemberId route) (executionTargetId route) ∧
         nodeId route = Some (pc_nodeId c) ∧ pc_nodeId c ∈ online) ∧
      (∀ route, In route routes → admissible online now route = true →
         deferred online alts degradedTrials route = false →
         In (routeKey (poolMemberId route) (executionTargetId route)) (map candidateKey candidates)) ∧
      NoDup (map candidateKey candidates) ∧
      let routable := routablePoolRoutes routes online now alts degradedTrials in
      (NoDup (map candidateKey routable) → candidates ≡ₚ routable)
  end.
Proof.
  intros alts. pose proof (sequence_spec routes online now state alternatives degradedTrials) as Hspec.
  fold alts in Hspec. cbv zeta in Hspec.
  destruct Hspec as [[Hnil ->]|(r & next & rest & Hr & _ & -> & Hsub & Hall & Hnd & Hperm)].
  - assert (Hdef : ∀ route, In route routes → admissible online now route = true →
      deferred online alts degradedTrials route = true).
    { intros route Hin Ha. destruct (deferred online alts degradedTrials route) eqn:Hd; [done|].
      destruct (routable_member routes online now alts degradedTrials route Hin Ha Hd) as (c & Hc & _).
      by rewrite Hnil in Hc. }
    split; [done|]. intros Hin route Hroute. destruct (admissible online now route) eqn:Ha; [|done].
    pose proof (Hdef route Hroute Ha) as Hd. unfold deferred in Hd.
    apply andb_prop in Hd as [_ (alt & Halt & [Hh Hs]%andb_prop)%existsb_exists].
    rewrite routable_nil in Hnil. specialize (Hnil alt (Hin _ Halt)).
    destruct (healthy_routable online now (existsb (λ r, healthyRow r && servable online r) alts) degradedTrials alt Hh Hs) as [c Hc].
    congruence.
  - split_and!; [done| | |done|done].
    + intros c [<-|Hc]; eapply routable_source; eauto.
    + intros route Hin Ha Hd.
      destruct (routable_member routes online now alts degradedTrials route Hin Ha Hd) as (c & Hc & <-). by apply Hall.
Qed.

(** ** Fairness of the first pick

    A stream of requests, each with its own routes, online nodes and clock, threads the
    round-robin state; [primaries] collects the keys of the first routes tried. *)

Record RouteRequest := mkRouteRequest {
  rq_routes : list PoolRouteRow;
  rq_online : gset string;
  rq_now : Z;
  rq_alternatives : option (list PoolRouteRow);
  rq_degradedTrials : bool;
}.

Definition rq_candidates (q : RouteRequest) : list PoolRouteCandidate :=
  routablePoolRoutes (rq_routes q) (rq_online q) (rq_now q)
    (default (rq_routes q) (rq_alternatives q)) (rq_degradedTrials q).

Fixpoint primaries (qs : list RouteRequest) (state : gmap string Z) :
    result (list string * gmap string Z) :=
  match qs with
  | [] => Ok ([], state)
  | q :: qs =>
      let! res := buildPoolRouteSequence (rq_routes q) (rq_online q) (rq_now q) state
                    (rq_alternatives q) (rq_degradedTrials q) in
      match res with
      | NoRoutablePoolMembers => primaries qs state
      | RouteSequence candidates state =>
          let! tail := primaries qs state in
          Ok (option_list (candidateKey <$> head candidates) ++ tail.1, tail.2)
      end
  end.

Definition occurrences (k : string) (ks : list string) : Z :=
  Z.of_nat (count_occ String.string_dec ks k).

Definition key_weights (cs : list PoolRouteCandidate) : list (string * Z) :=
  map (λ c, (candidateKey c, pc_weight c)) cs.

Definition zsum (l : list Z) : Z := foldr Z.add 0 l.

Section Share.
Variable kws : list (string * Z).
Hypothesis kws_NoDup : NoDup kws.*1.
Hypothesis kws_positive : ∀ k w, In (k, w) kws → 0 < w.

Definition share_total : Z := zsum kws.*2.

(** After [n] picks of which [picks] are the keys. *)
Definition share_inv (state : gmap string Z) (picks : list string) : Prop :=
  (∀ p, In p picks → In p kws.*1) ∧
  ∀ k w, In (k, w) kws →
    default 0 (state !! k) = Z.of_nat (length picks) * w - share_total * occurrences k picks ∧
    - share_total < default 0 (state !! k).

Lemma zsum_app l l' : zsum (l ++ l') = zsum l + zsum l'.
Proof. unfold zsum. induction l; simpl; lia. Qed.

Lemma zsum_nonpos (l : list Z) : (∀ x, In x l → x ≤ 0) → zsum l ≤ 0.
Proof.
  unfold zsum. induction l as [|x l IH]; simpl; [lia|]. intros Hl.
  pose proof (Hl x (or_introl eq_refl)). specialize (IH (λ y Hy, Hl y (or_intror Hy))). lia.
Qed.

Lemma occurrences_cons k p ps :
  occurrences k (ps ++ [p]) = occurrences k ps + if bool_decide (k = p) then 1 else 0.
Proof.
  unfold occurrences. rewrite count_occ_app. simpl.
  destruct (String.string_dec p k) as [->|]; [rewrite bool_decide_true by done; lia|].
  rewrite bool_decide_false by congruence. lia.
Qed.

Definition indicator (p k : string) : Z := if bool_decide (k = p) then 1 else 0.

Lemma indicator_absent p ks : p ∉ ks → zsum (map (indicator p) ks) = 0.
Proof.
  unfold zsum, indicator. induction ks as [|k ks IH]; simpl; [done|].
  rewrite not_elem_of_cons. intros [? ?]. rewrite bool_decide_false by done. by rewrite IH.
Qed.

Lemma indicator_present p ks : NoDup ks → In p ks → zsum (map (indicator p) ks) = 1.
Proof.
  induction ks as [|k ks IH]; simpl; [done|]. intros [Hk Hnd]%NoDup_cons Hp.
  unfold zsum in *. simpl. unfold indicator at 1. destruct Hp as [->|Hp].
  - rewrite bool_decide_true by done. fold (zsum (map (indicator p) ks)).
    by rewrite indicator_absent.
  - rewrite bool_decide_false by (intros ->; apply Hk; by apply list_elem_of_In).
    by rewrite IH.
Qed.

Lemma occurrences_snoc_sum ks p ps :
  zsum (map (λ k, occurrences k (ps ++ [p])) ks) =
  zsum (map (λ k, occurrences k ps) ks) + zsum (map (indicator p) ks).
Proof.
  unfold zsum. induction ks as [|k ks IH]; simpl; [done|].
  rewrite IH, occurrences_cons. unfold indicator at 2. lia.
Qed.

(** Every pick is one of the distinct keys, so the counts add up to the number of picks. *)
Lemma occurrences_sum ks picks :
  NoDup ks → (∀ p, In p picks → In p ks) →
  zsum (map (λ k, occurrences k picks) ks) = Z.of_nat (length picks).
Proof.
  intros Hnd. induction picks as [|p picks IH] using rev_ind; intros Hin.
  - clear. unfold zsum. induction ks as [|k ks IH]; [done|]. cbn in IH |- *. by rewrite IH.
  - rewrite occurrences_snoc_sum, indicator_present by (auto using in_or_app, in_eq).
    rewrite IH by (intros; auto using in_or_app). rewrite length_app. simpl. lia.
Qed.

(** The round's weights add up to the total weight. *)
Lemma share_round_sum state picks :
  share_inv state picks →
  zsum (map (λ kw, default 0 (state !! kw.1) + kw.2) kws) = share_total.
Proof.
  intros [Hin Hst].
  assert (∀ l, (∀ kw, In kw l → In kw kws) →
    zsum (map (λ kw, default 0 (state !! kw.1) + kw.2) l) =
    (Z.of_nat (length picks) + 1) * zsum l.*2
    - share_total * zsum (map (λ k, occurrences k picks) l.*1)) as Hsum.
  { unfold zsum. induction l as [|[k w] l IH]; intros Hl; [simpl; lia|].
    csimpl. destruct (Hst k w) as [-> _]; [apply Hl; by left|].
    rewrite IH by (intros; apply Hl; by right). ring. }
  rewrite Hsum by done. rewrite occurrences_sum by done. unfold share_total. lia.
Qed.

Lemma NoDup_fst_weight k w w' : In (k, w) kws → In (k, w') kws → w = w'.
Proof.
  intros H1 H2. pose proof (map_get_NoDup _ _ _ kws_NoDup H1).
  pose proof (map_get_NoDup _ _ _ kws_NoDup H2). congruence.
Qed.

Lemma share_total_positive : kws ≠ [] → 0 < share_total.
Proof.
  unfold share_total, zsum. destruct kws as [|[k w] l]; [done|]. intros _. csimpl.
  pose proof (kws_positive k w (or_introl eq_refl)).
  assert (0 ≤ foldr Z.add 0 l.*2); [|lia].
  assert (Hl : ∀ x, In x l.*2 → 0 ≤ x).
  { intros x ([k' w'] & <- & Hx)%in_map_iff. simpl.
    pose proof (kws_positive k' w' (or_intror Hx)). lia. }
  clear -Hl. induction l as [|x l IH]; csimpl in *; [done|].
  pose proof (Hl x.2 (or_introl eq_refl)). specialize (IH (λ y Hy, Hl y (or_intror Hy))). lia.
Qed.

(** The winner of a round has a positive weight before the total is taken off. *)
Lemma share_winner_positive state picks cs c :
  kws ≠ [] → key_weights cs = kws → share_inv state picks →
  (∀ c', In c' cs → current state (weighted c') ≤ current state (weighted c)) →
  0 < current state (weighted c).
Proof.
  intros Hne Hkws Hinv Hmax.
  destruct (Z.ltb_spec 0 (current state (weighted c))) as [|Hle]; [done|].
  pose proof (share_round_sum _ _ Hinv) as Hsum. pose proof (share_total_positive Hne).
  pose proof (zsum_nonpos (map (λ kw, default 0 (state !! kw.1) + kw.2) kws)) as Hnp.
  rewrite Hsum in Hnp. enough (share_total ≤ 0) by lia. apply Hnp.
  intros x ([k w] & <- & Hx)%in_map_iff. rewrite <- Hkws in Hx.
  apply in_map_iff in Hx as (c' & [= <- <-] & Hc'). specialize (Hmax c' Hc').
  unfold current in Hmax, Hle. simpl in *. lia.
Qed.

Lemma share_step state picks cs c next :
  kws ≠ [] → key_weights cs = kws → share_inv state picks →
  In c cs →
  (∀ c', In c' cs → current state (weighted c') ≤ current state (weighted c)) →
  (∀ c', In c' cs → default 0 (next !! candidateKey c') =
     current state (weighted c')
     - if bool_decide (candidateKey c' = candidateKey c) then share_total else 0) →
  share_inv next (picks ++ [candidateKey c]).
Proof.
  intros Hne Hkws Hinv Hc Hmax Hnext.
  assert (Hkw : ∀ c', In c' cs → In (candidateKey c', pc_weight c') kws).
  { intros c' Hc'. rewrite <- Hkws. unfold key_weights. apply in_map_iff. eauto. }
  pose proof (share_winner_positive _ _ _ _ Hne Hkws Hinv Hmax) as Hpos.
  destruct Hinv as [Hin Hst]. split.
  - intros p [Hp|[<-|[]]]%in_app_or; [auto|]. apply in_map_iff. eexists. split; [|by apply Hkw]. done.
  - intros k w Hk. assert (Hk' := Hk). rewrite <- Hkws in Hk'. apply in_map_iff in Hk' as (c' & [= <- <-] & Hc').
    destruct (Hst _ _ Hk) as [Heq Hgt]. rewrite (Hnext c' Hc'), occurrences_cons, length_app.
    unfold current in *. simpl in *. pose proof (kws_positive _ _ Hk).
    case_bool_decide as Hid; [|rewrite Heq in *; lia].
    assert (Hw : pc_weight c' = pc_weight c).
    { eapply (NoDup_fst_weight (candidateKey c)); [rewrite <- Hid|]; by apply Hkw. }
    rewrite Hid, Hw in *. rewrite Heq in *. lia.
Qed.
Lemma total_weight_zsum cs : total_weight (map weighted cs) = zsum (key_weights cs).*2.
Proof.
  unfold total_weight, zsum, key_weights.
  enough (∀ z, foldl (λ sum c, sum + wt_weight c) z (map weighted cs) =
    z + foldr Z.add 0 (map (λ c, (candidateKey c, pc_weight c)) cs).*2) as ->; [lia|].
  induction cs as [|c cs IH]; intros z; csimpl; [lia|]. rewrite IH. simpl. lia.
Qed.

Lemma primaries_share qs state picks :
  kws ≠ [] → (∀ q, In q qs → key_weights (rq_candidates q) = kws) →
  share_inv state picks →
  ∃ ps state', primaries qs state = Ok (ps, state') ∧ length ps = length qs ∧
    share_inv state' (picks ++ ps).
Proof.
  intros Hne. revert state picks. induction qs as [|q qs IH]; intros state picks Hq Hinv.
  - exists [], state. by rewrite app_nil_r.
  - pose proof (Hq q (or_introl eq_refl)) as Hkws. cbn [primaries].
    destruct (sequence_spec (rq_routes q) (rq_online q) (rq_now q) state (rq_alternatives q)
      (rq_degradedTrials q)) as [[Hnil _]|(r & next & rest & Hr & Hp & -> & _)].
    { fold (rq_candidates q) in Hnil. rewrite Hnil in Hkws. by destruct Hne. }
    fold (rq_candidates q) in Hr, Hp. cbn [result_bind head option_list fmap option_fmap option_map].
    destruct (pick_spec state (map weighted (rq_candidates q))) as (c & next' & Hp' & _ & Hmax & Hnext).
    { by destruct (rq_candidates q). }
    rewrite Hp in Hp'. injection Hp' as <- <-.
    destruct (IH next (picks ++ [candidateKey r])) as (ps & st & -> & Hlen & Hinv').
    + intros; apply Hq; by right.
    + eapply share_step; eauto.
      * intros c' Hc'. by apply Hmax, in_map.
      * intros c' Hc'. unfold share_total. rewrite <- Hkws, <- total_weight_zsum.
        apply (Hnext ltac:(rewrite map_weighted_id; rewrite <- Hkws in kws_NoDup;
          unfold key_weights in kws_NoDup; by rewrite <- list_fmap_compose in kws_NoDup)
          (weighted c')). by apply in_map.
    + exists (candidateKey r :: ps), st. simpl. rewrite Hlen. split_and!; [done|done|].
      by rewrite <- app_assoc in Hinv'.
Qed.

Lemma zsum_le (l : list (Z * Z)) : (∀ xy, In xy l → xy.1 ≤ xy.2) → zsum l.*1 ≤ zsum l.*2.
Proof.
  unfold zsum. induction l as [|[x y] l IH]; csimpl; [lia|]. intros Hle.
  pose proof (Hle (x, y) (or_introl eq_refl)). specialize (IH (λ z Hz, Hle z (or_intror Hz))).
  simpl in *. lia.
Qed.

Lemma zsum_pointwise (l : list (Z * Z)) :
  (∀ xy, In xy l → xy.1 ≤ xy.2) → zsum l.*1 = zsum l.*2 → ∀ xy, In xy l → xy.1 = xy.2.
Proof.
  induction l as [|[x y] l IH]; [done|]. intros Hle Heq.
  pose proof (zsum_le l (λ z Hz, Hle z (or_intror Hz))).
  pose proof (Hle (x, y) (or_introl eq_refl)). unfold zsum in *. csimpl in *.
  intros xy [<-|Hin]; simpl; [lia|]. apply IH; [auto|lia|done].
Qed.

(** Over a whole number of cycles every key is picked exactly its weight per cycle. *)
Lemma share_exact state picks (m : Z) :
  kws ≠ [] → share_inv state picks → Z.of_nat (length picks) = m * share_total →
  ∀ k w, In (k, w) kws → occurrences k picks = m * w.
Proof.
  intros Hne [Hin Hst] Hlen k w Hk. pose proof (share_total_positive Hne).
  apply (zsum_pointwise (map (λ kw, (occurrences kw.1 picks, m * kw.2)) kws)
    ) with (xy := (occurrences k picks, m * w)).
  - intros xy ([k' w'] & <- & Hk')%in_map_iff. simpl.
    destruct (Hst _ _ Hk') as [Heq Hgt]. rewrite Hlen in Heq. nia.
  - assert (∀ l, zsum (map (λ kw, (occurrences kw.1 picks, m * kw.2)) l).*1 =
      zsum (map (λ k, occurrences k picks) l.*1)) as ->.
    { unfold zsum. induction l as [|[a b] l IH]; csimpl; [done|]. by rewrite IH. }
    assert (∀ l : list (string * Z), zsum (map (λ kw, (occurrences kw.1 picks, m * kw.2)) l).*2 = m * zsum l.*2) as ->.
    { unfold zsum. induction l as [|[a b] l IH]; csimpl; [lia|]. rewrite IH. lia. }
    by rewrite occurrences_sum.
  - apply in_map_iff. by exists (k, w).
Qed.
End Share.

Lemma candidate_weight_positive routes online now alts dt c :
  In c (routablePoolRoutes routes online now alts dt) → 0 < pc_weight c.
Proof.
  unfold routablePoolRoutes. intros (route & Hin & Hc)%list_elem_of_In%list_elem_of_omap.
  unfold routableRoute in Hc. destruct (targetRoutingHealth _ _ _) as [h|]; [|done].
  destruct (servable online route) eqn:Hs; [|done]. simpl in Hc.
  destruct (nodeId route); [|done]. simplify_eq/=. unfold servable in Hs. by crush.
Qed.

(** Smooth weighted round robin shares first picks exactly. Take requests whose routable
    candidates have the distinct keys and the weights of those of [q0], of total W, from the
    empty state. After n of them each key was picked first fewer than n*w/W + 1 times, and
    whenever n is a multiple m of W, exactly m*w times. *)
Theorem primary_share_exact (q0 : RouteRequest) (qs : list RouteRequest) :
  let kws := key_weights (rq_candidates q0) in
  rq_candidates q0 ≠ [] → NoDup (map candidateKey (rq_candidates q0)) →
  (∀ q, In q qs → key_weights (rq_candidates q) = kws) →
  ∃ picks state, primaries qs ∅ = Ok (picks, state) ∧ length picks = length qs ∧
    ∀ k w, In (k, w) kws →
      zsum kws.*2 * (occurrences k picks - 1) < Z.of_nat (length qs) * w ∧
      ∀ m, Z.of_nat (length qs) = m * zsum kws.*2 → occurrences k picks = m * w.
Proof.
  intros kws Hc0 Hnd0 Hq.
  assert (Hne : kws ≠ []) by (unfold kws; by destruct (rq_candidates q0)).
  assert (Hnd : NoDup kws.*1) by (unfold kws, key_weights; by rewrite <- list_fmap_compose).
  assert (Hpos : ∀ k w, In (k, w) kws → 0 < w).
  { intros k w (c & [= <- <-] & Hc)%in_map_iff. by eapply candidate_weight_positive. }
  destruct (primaries_share kws Hnd Hpos qs ∅ []) as (ps & st & Hp & Hlen & Hinv); [done|done| |].
  { split; [done|]. intros k w Hk. rewrite lookup_empty. unfold occurrences. simpl.
    pose proof (share_total_positive kws Hnd Hpos Hne). lia. }
  exists ps, st. split_and!; [done|done|]. intros k w Hk. split.
  - destruct Hinv as [_ Hst]. destruct (Hst k w Hk) as [Heq Hgt].
    simpl in *. unfold share_total in *. rewrite Hlen in *. lia.
  - intros m Hm. eapply (share_exact kws Hnd Hpos _ _ m Hne Hinv); [|done].
    simpl. by rewrite Hlen.
Qed.

(** A pool of two members, weights 2 and 1, both healthy on an online node. *)
Definition demo_route (member target : string) (w : Z) : PoolRouteRow :=
  mkRoute resetTargetHealth member "pool" "rm" "um" target "inst" "handle" (Some "n1")
    true true true w.
Definition demo_request : RouteRequest :=
  mkRouteRequest [demo_route "a" "t1" 2; demo_route "b" "t2" 1] {[ "n1" ]} 0 None false.

Lemma primary_share_exact_witness :
  ∃ picks state, primaries (repeat demo_request 6) ∅ = Ok (picks, state) ∧
    occurrences "a:t1" picks = 4 ∧ occurrences "b:t2" picks = 2.
Proof.
  destruct (primary_share_exact demo_request (repeat demo_request 6)) as (ps & st & Hp & _ & Hs).
  - vm_compute. done.
  - vm_compute. apply (bool_decide_unpack _). vm_compute. done.
  - intros q Hin. by apply repeat_spec in Hin as ->.
  - exists ps, st. split; [done|]. split.
    + apply (proj2 (Hs "a:t1" 2 ltac:(vm_compute; auto)) 2). reflexivity.
    + apply (proj2 (Hs "b:t2" 1 ltac:(vm_compute; auto)) 2). reflexivity.
Defined.
