(* ===== verification/TargetBreaker.v ===== *)
(** * Database writes of the target circuit breaker

    The second half of [src/packages/api/src/lib/pool-routing.ts]: relay outcomes, half-open
    trials and their leases, node disconnects and reconnects. Each Prisma call is one atomic
    statement; theorems about several callers quantify over all interleavings of their
    statements. *)

From S2P Require Import Prelude Interleave PoolRouting.

(** ** Rows *)

Inductive ClaimState := HELD | RELEASED | HELD_UNKNOWN.
#[export] Instance ClaimState_eq_dec : EqDecision ClaimState.
Proof. solve_decision. Defined.

Inductive NodeConnection := ONLINE | OFFLINE.

Record InstanceRank := mkRank { rank_nodeId : option string; rank_claim : ClaimState }.

(** A row of [execution_target] with what the statements read of its instance: the ranks,
    and the node of an always-on runtime. *)
Record TargetRow := mkTarget {
  t_health : TargetHealthSnapshot;
  t_lastRoutedAt : option Z;
  t_ranks : list InstanceRank;
  t_alwaysOnNode : option string;
}.

Record NodeRow := mkNode {
  n_connection : NodeConnection;
  n_lastDisconnectedAt : option Z;
  n_connectionGeneration : Z;
}.

Record DB := mkDB { nodes : gmap string NodeRow; targets : gmap string TargetRow }.

Definition with_targets (db : DB) (ts : gmap string TargetRow) : DB := mkDB (nodes db) ts.

(** [data] replacing the health columns, and only some of them. *)
Definition set_health (h : TargetHealthSnapshot) (r : TargetRow) : TargetRow :=
  mkTarget h (t_lastRoutedAt r) (t_ranks r) (t_alwaysOnNode r).
Definition claim_trial (now : Z) (r : TargetRow) : TargetRow :=
  let h := t_health r in
  set_health (mkHealth HALF_OPEN (lastFailureClass h) (consecutiveRetryableFailures h)
                (lastFailureAt h) (nextRetryAt h) (Some now)) r.
Definition open_until (retryAt : Z) (r : TargetRow) : TargetRow :=
  let h := t_health r in
  set_health (mkHealth UNHEALTHY (lastFailureClass h) (consecutiveRetryableFailures h)
                (lastFailureAt h) (Some retryAt) None) r.
Definition drop_trial (r : TargetRow) : TargetRow :=
  let h := t_health r in
  set_health (mkHealth (health h) (lastFailureClass h) (consecutiveRetryableFailures h)
                (lastFailureAt h) (nextRetryAt h) None) r.
Definition retry_now (now : Z) (r : TargetRow) : TargetRow :=
  let h := t_health r in
  set_health (mkHealth (health h) (lastFailureClass h) (consecutiveRetryableFailures h)
                (lastFailureAt h) (Some now) (halfOpenTrialStartedAt h)) r.

(** ** Statements *)

(** [updateMany({ where: { id, ...where }, data })]: the count of changed rows. *)
Definition updateMany (id : string) (cond : TargetRow → bool) (data : TargetRow → TargetRow)
    (db : DB) : Z * DB :=
  match targets db !! id with
  | Some r => if cond r then (1, with_targets db (<[id := data r]> (targets db))) else (0, db)
  | None => (0, db)
  end.

Definition findUnique (id : string) (db : DB) : option TargetRow * DB := (targets db !! id, db).

(** [findMany({ where, orderBy: { id: "asc" }, select: { id: true } })]; the database's
    collation orders the ids. *)
Definition findMany `{Collation} (cond : TargetRow → bool) (db : DB) : list string * DB :=
  (sort_by localeCompare (map fst (List.filter (λ kr, cond kr.2) (map_to_list (targets db)))), db).

Definition where_health (w : TargetHealthSnapshot → bool) (r : TargetRow) : bool := w (t_health r).

(** The fence of a write by the owner of the trial claimed at [trialStartedAt]. *)
Definition trial_is (trialStartedAt : Z) (t : TargetHealthSnapshot) : bool :=
  has_health t HALF_OPEN && bool_decide (halfOpenTrialStartedAt t = Some trialStartedAt).

Definition targetOutcomeFence (trialStartedAt : option Z) (now : Z) (t : TargetHealthSnapshot) : bool :=
  match trialStartedAt with
  | Some s => trial_is s t
  | None => targetNoTrialInFlightWhere now t
  end.

(** ** Operations on one target *)

Definition returnTargetTrial (executionTargetId : string) (trialStartedAt now : Z) : prog DB unit :=
  let? target := stmt (findUnique executionTargetId) in
  match target with
  | None => Done tt
  | Some target =>
      let failures := consecutiveRetryableFailures (t_health target) in
      let? _count := stmt (updateMany executionTargetId (where_health (trial_is trialStartedAt))
                             (open_until (now + targetRecoveryDelayMs failures))) in
      Done tt
  end.

Definition releaseTargetHalfOpenTrial (executionTargetId : string) (trialStartedAt : Z) : prog DB bool :=
  let? count := stmt (updateMany executionTargetId (where_health (trial_is trialStartedAt))
                        drop_trial) in
  Done (count =? 1).

(** The compare-and-set of one recording attempt: the columns the transition depends on are
    unchanged, and no trial is in flight for a caller that owns none. *)
Definition failure_cas (target : TargetHealthSnapshot) (trialStartedAt : option Z) (now : Z)
    (t : TargetHealthSnapshot) : bool :=
  has_health t (health target)
  && bool_decide (halfOpenTrialStartedAt t = halfOpenTrialStartedAt target)
  && (consecutiveRetryableFailures t =? consecutiveRetryableFailures target)
  && match trialStartedAt with Some _ => true | None => targetOutcomeFence None now t end.

Record FailureRecord := mkFailureRecord { retryable : bool; update : option TargetHealthSnapshot }.

Definition owns_target (trialStartedAt : option Z) (breaker : TargetBreakerState) : bool :=
  match trialStartedAt with
  | Some s => targetTrialHeldBy breaker s
  | None => negb (targetTrialInFlight breaker)
  end.

(** The loop of [recordTargetRelayFailure]: at most three attempts. *)
Fixpoint recordAttempts (attempts : nat) (executionTargetId : string)
    (failureClass : TargetFailureClass) (trialStartedAt : option Z) (now : Z) :
    prog DB FailureRecord :=
  match attempts with
  | O => Done (mkFailureRecord true None)
  | S attempts =>
      let? target := stmt (findUnique executionTargetId) in
      match target with
      | None => Done (mkFailureRecord true None)
      | Some target =>
          let breaker := targetBreakerState (t_health target) now in
          if negb (owns_target trialStartedAt breaker) then Done (mkFailureRecord true None)
          else
            let update := transitionTargetHealthAfterRetryableFailure (t_health target)
                            failureClass now in
            let? count := stmt (updateMany executionTargetId
                                  (where_health (failure_cas (t_health target) trialStartedAt now))
                                  (set_health update)) in
            if count =? 1 then Done (mkFailureRecord true (Some update))
            else recordAttempts attempts executionTargetId failureClass trialStartedAt now
      end
  end.

Definition recordTargetRelayFailure (executionTargetId : string) (failure : RelayFailureClass)
    (trialStartedAt : option Z) (now : Z) : prog DB FailureRecord :=
  match targetFailureClassForRelayFailure failure with
  | None =>
      match trialStartedAt with
      | Some s => let? _u := returnTargetTrial executionTargetId s now in
                  Done (mkFailureRecord false None)
      | None => Done (mkFailureRecord false None)
      end
  | Some WEBSOCKET_DISCONNECTED =>
      match trialStartedAt with
      | Some s => let? _b := releaseTargetHalfOpenTrial executionTargetId s in
                  Done (mkFailureRecord true None)
      | None => Done (mkFailureRecord true None)
      end
  | Some failureClass => recordAttempts 3 executionTargetId failureClass trialStartedAt now
  end.

Definition markTargetRelaySuccess (executionTargetId : string) (trialStartedAt : option Z)
    (now : Z) : prog DB unit :=
  let? _count := stmt (updateMany executionTargetId
                         (where_health (targetOutcomeFence trialStartedAt now))
                         (λ r, mkTarget resetTargetHealth (Some now) (t_ranks r) (t_alwaysOnNode r))) in
  Done tt.

Definition claimTargetRecoveryTrial (executionTargetId : string) (now : Z) : prog DB (option Z) :=
  let? count := stmt (updateMany executionTargetId (where_health (targetDueWhere now))
                        (claim_trial now)) in
  Done (if count =? 1 then Some now else None).

Definition settleTargetRecoveryTrial (executionTargetId : string) (trialStartedAt : Z)
    (healthy : bool) (now : Z) : prog DB bool :=
  let? target := stmt (findUnique executionTargetId) in
  match target with
  | None => Done false
  | Some target =>
      if negb (targetTrialHeldBy (targetBreakerState (t_health target) now) trialStartedAt)
      then Done false
      else
        let data := if healthy then resetTargetHealth
                    else transitionTargetHealthAfterRetryableFailure (t_health target) TRANSPORT now in
        let? count := stmt (updateMany executionTargetId (where_health (trial_is trialStartedAt))
                              (set_health data)) in
        Done (count =? 1)
  end.

Definition abandonTargetRecoveryTrial (executionTargetId : string) (trialStartedAt now : Z) :
    prog DB bool :=
  let? count := stmt (updateMany executionTargetId (where_health (trial_is trialStartedAt))
                        (open_until now)) in
  Done (count =? 1).

Definition markTargetHalfOpenTrial (executionTargetId : string) (allowDegradedFallback : bool)
    (now : Z) : prog DB Z :=
  stmt (updateMany executionTargetId
          (where_health (targetHalfOpenClaimableWhere now allowDegradedFallback))
          (claim_trial now)).

(** ** Operations on the targets of a node *)

Definition targetsOnNode (node : string) (r : TargetRow) : bool :=
  existsb (λ k, bool_decide (rank_nodeId k = Some node) && negb (bool_decide (rank_claim k = RELEASED)))
    (t_ranks r)
  || bool_decide (t_alwaysOnNode r = Some node).

(** Cooling down for a failure of its own: it keeps its class and cooldown. *)
Definition realFailureCoolingDown (now : Z) (t : TargetHealthSnapshot) : bool :=
  targetCoolingDownWhere now t
  && match lastFailureClass t with
     | Some c => negb (nodeUnavailableFailureClass c)
     | None => false
     end.

Definition markTargetsForNodeUnavailable `{Collation} (node : string)
    (failureClass : TargetFailureClass) (now : Z) : prog DB unit :=
  let? ids := stmt (findMany (λ r, negb (realFailureCoolingDown now (t_health r))
                                   && targetsOnNode node r)) in
  prog_fold (λ _ id,
    let? _count := stmt (updateMany id (where_health (λ t, negb (realFailureCoolingDown now t)))
                           (set_health (transitionTargetHealthForNodeUnavailable failureClass now))) in
    Done tt) tt ids.

Definition updateNodeAtGeneration (node : string) (generation now : Z) (db : DB) : Z * DB :=
  match nodes db !! node with
  | Some n =>
      if n_connectionGeneration n =? generation
      then (1, mkDB (<[node := mkNode OFFLINE (Some now) (n_connectionGeneration n)]> (nodes db))
                 (targets db))
      else (0, db)
  | None => (0, db)
  end.

(** The body of the disconnect transaction. *)
Definition disconnectTransaction `{Collation} (node : string) (generation : Z)
    (failureClass : TargetFailureClass) (now : Z) : prog DB bool :=
  let? claimed := stmt (updateNodeAtGeneration node generation now) in
  if claimed =? 0 then Done false
  else let? _u := markTargetsForNodeUnavailable node failureClass now in Done true.

Definition markTargetsDueAfterNodeReconnect `{Collation} (node : string) (now : Z) : prog DB Z :=
  let eligible := λ t, targetOpenCoolingDownWhere now t
                       && match lastFailureClass t with
                          | Some c => nodeUnavailableFailureClass c
                          | None => false
                          end in
  let? ids := stmt (findMany (λ r, eligible (t_health r) && targetsOnNode node r)) in
  prog_fold (λ count id,
    let? n := stmt (updateMany id (where_health eligible) (retry_now now)) in
    Done (count + n)) 0 ids.

(** ** The disconnect retry loop

    An attempt commits or throws; a thrown transaction is rolled back. [attemptError i] is the
    error of attempt [i] ([None]: it commits) and [clock i] the time its handler reads. *)

Definition DISCONNECT_TRANSACTION_MAX_ATTEMPTS : Z := 5.
Definition DISCONNECT_RETRY_BACKOFF_MS : Z := 100.
Definition DISCONNECT_LOCK_RETRY_BUDGET_MS : Z := 30000.

Section Disconnect.
Context `{Collation} {error : Type}.
Variables (isLockTimeout isRetryableDisconnectError : error → bool).
Variables (attemptError : nat → option error) (clock : nat → Z).

Fixpoint disconnectLoop (fuel attempt : nat) (otherFailures lockRetryDeadline : Z)
    (transaction : prog DB bool) : option (prog DB (bool + error)) :=
  match fuel with
  | O => None
  | S fuel =>
      match attemptError attempt with
      | None => Some (prog_map inl transaction)
      | Some e =>
          let lockTimeout := isLockTimeout e in
          let otherFailures := if lockTimeout then otherFailures else otherFailures + 1 in
          let exhausted := if lockTimeout then lockRetryDeadline <=? clock attempt
                           else (DISCONNECT_TRANSACTION_MAX_ATTEMPTS <=? otherFailures)
                                || negb (isRetryableDisconnectError e) in
          if exhausted then Some (Done (inr e))
          else disconnectLoop fuel (S attempt) otherFailures lockRetryDeadline transaction
      end
  end.

Definition disconnectNodeAtGeneration (fuel : nat) (start : Z) (node : string) (generation : Z)
    (failureClass : TargetFailureClass) (now : Z) : option (prog DB (bool + error)) :=
  disconnectLoop fuel 0 0 (start + DISCONNECT_LOCK_RETRY_BUDGET_MS)
    (disconnectTransaction node generation failureClass now).
End Disconnect.

(** ** A live trial belongs to its claimant *)

(** The operations other requests, probes, disconnects and reconnects run on targets, with a
    common type of answers. *)
Inductive Operation :=
| OpFailure (id : string) (failure : RelayFailureClass) (trial : option Z) (now : Z)
| OpSuccess (id : string) (trial : option Z) (now : Z)
| OpClaimRecovery (id : string) (now : Z)
| OpSettle (id : string) (trial : Z) (healthy : bool) (now : Z)
| OpAbandon (id : string) (trial now : Z)
| OpHalfOpen (id : string) (allowDegraded : bool) (now : Z)
| OpReturn (id : string) (trial now : Z)
| OpRelease (id : string) (trial now : Z)
| OpReconnect (node : string) (now : Z)
| OpDisconnect (node : string) (generation : Z) (failureClass : TargetFailureClass) (now : Z).

Inductive Answer :=
| AUnit
| ABool (b : bool)
| ACount (n : Z)
| AClaim (startedAt : option Z)
| AFailure (record : FailureRecord).

Definition op_prog `{Collation} (op : Operation) : prog DB Answer :=
  match op with
  | OpFailure id failure trial now => prog_map AFailure (recordTargetRelayFailure id failure trial now)
  | OpSuccess id trial now => prog_map (λ _, AUnit) (markTargetRelaySuccess id trial now)
  | OpClaimRecovery id now => prog_map AClaim (claimTargetRecoveryTrial id now)
  | OpSettle id trial healthy now => prog_map ABool (settleTargetRecoveryTrial id trial healthy now)
  | OpAbandon id trial now => prog_map ABool (abandonTargetRecoveryTrial id trial now)
  | OpHalfOpen id allow now => prog_map ACount (markTargetHalfOpenTrial id allow now)
  | OpReturn id trial now => prog_map (λ _, AUnit) (returnTargetTrial id trial now)
  | OpRelease id trial _ => prog_map ABool (releaseTargetHalfOpenTrial id trial)
  | OpReconnect node now => prog_map ACount (markTargetsDueAfterNodeReconnect node now)
  | OpDisconnect node generation fc now => prog_map ABool (disconnectTransaction node generation fc now)
  end.

Definition op_target (op : Operation) : option string :=
  match op with
  | OpFailure id _ _ _ | OpSuccess id _ _ | OpClaimRecovery id _ | OpSettle id _ _ _
  | OpAbandon id _ _ | OpHalfOpen id _ _ | OpReturn id _ _ | OpRelease id _ _ => Some id
  | OpReconnect _ _ | OpDisconnect _ _ _ _ => None
  end.

Definition op_now (op : Operation) : Z :=
  match op with
  | OpFailure _ _ _ now | OpSuccess _ _ now | OpClaimRecovery _ now | OpSettle _ _ _ now
  | OpAbandon _ _ now | OpHalfOpen _ _ now | OpReturn _ _ now | OpRelease _ _ now
  | OpReconnect _ now | OpDisconnect _ _ _ now => now
  end.

Definition op_trial (op : Operation) : option Z :=
  match op with
  | OpFailure _ _ trial _ | OpSuccess _ trial _ => trial
  | OpSettle _ trial _ _ | OpAbandon _ trial _ | OpReturn _ trial _ | OpRelease _ trial _ =>
      Some trial
  | _ => None
  end.

(** The operations that start a trial. *)
Definition op_claims (op : Operation) : bool :=
  match op with OpClaimRecovery _ _ | OpHalfOpen _ _ _ => true | _ => false end.

(** The disconnects of a node the target is on. *)
Definition op_disconnects (row : TargetRow) (op : Operation) : bool :=
  match op with OpDisconnect node _ _ _ => targetsOnNode node row | _ => false end.

(** The answers that report "nothing was changed". *)
Definition refused (a : Answer) : Prop :=
  match a with
  | AUnit => True
  | ABool b => b = false
  | ACount n => n = 0
  | AClaim s => s = None
  | AFailure r => update r = None
  end.

Lemma findMany_elem `{Collation} cond db i :
  i ∈ (findMany cond db).1 ↔ ∃ r, targets db !! i = Some r ∧ cond r = true.
Proof.
  unfold findMany. cbn [fst]. rewrite list_elem_of_In, sort_by_in, in_map_iff. split.
  - intros ([k r] & <- & [Hin Hc]%filter_In). exists r. simpl in *. split; [|done].
    by apply elem_of_map_to_list, list_elem_of_In.
  - intros (r & Hr & Hc). exists (i, r). split; [done|]. apply filter_In. split; [|done].
    by apply list_elem_of_In, elem_of_map_to_list.
Qed.

Section Trial.
Context `{Collation}.
Variables (x : string) (row : TargetRow) (s : Z).
Hypothesis row_trial : trial_is s (t_health row) = true.

Definition row_kept (db : DB) : Prop := targets db !! x = Some row.

Lemma row_columns : health (t_health row) = HALF_OPEN ∧ halfOpenTrialStartedAt (t_health row) = Some s.
Proof. unfold trial_is, has_health in row_trial. by crush. Qed.

(** A statement whose condition the row fails leaves it, and reports nothing when it names it. *)
Lemma updateMany_kept id cond data db :
  (id = x → cond row = false) → row_kept db →
  row_kept (updateMany id cond data db).2 ∧ (id = x → (updateMany id cond data db).1 = 0).
Proof.
  unfold row_kept, updateMany. intros Hc Hx. destruct (decide (id = x)) as [->|Hne].
  - rewrite Hx, Hc by done. done.
  - destruct (targets db !! id) as [r|]; [|done]. destruct (cond r); [|done].
    split; [|done]. simpl. by rewrite lookup_insert_ne.
Qed.

Lemma safe_update {A} id cond data (k : Z → prog DB A) (Q : A → Prop) :
  (id = x → cond row = false) → (∀ n, (id = x → n = 0) → safe row_kept Q (k n)) →
  safe row_kept Q (let? count := stmt (updateMany id cond data) in k count).
Proof.
  intros Hc Hk db Hdb. destruct (updateMany_kept id cond data db Hc Hdb) as [? Hn].
  split; [done|]. simpl. by apply Hk.
Qed.

Lemma other_trial s' : s' ≠ s → trial_is s' (t_health row) = false.
Proof.
  destruct row_columns as [_ Hs]. intros Hne. unfold trial_is. rewrite Hs.
  rewrite bool_decide_false by congruence. by rewrite andb_false_r.
Qed.

Context (now : Z).
Hypothesis live : now < s + TARGET_HALF_OPEN_LEASE_MS.

Lemma row_in_flight : targetTrialInFlight (targetBreakerState (t_health row) now) = true.
Proof.
  destruct row_columns as [Hh Hs]. unfold targetBreakerState. rewrite Hh, Hs. simpl.
  apply Z.ltb_lt. lia.
Qed.

Lemma row_not_free : targetNoTrialInFlightWhere now (t_health row) = false.
Proof. by rewrite noTrialWhere_parity, row_in_flight. Qed.

Lemma row_not_due : targetDueWhere now (t_health row) = false.
Proof. rewrite dueWhere_parity. unfold targetBreakerState. by rewrite (proj1 row_columns). Qed.

Lemma row_not_cooling : targetOpenCoolingDownWhere now (t_health row) = false.
Proof.
  rewrite openCoolingDownWhere_parity. unfold targetBreakerState. by rewrite (proj1 row_columns).
Qed.

Lemma row_not_claimable allow : targetHalfOpenClaimableWhere now allow (t_health row) = false.
Proof.
  rewrite claimableWhere_parity. destruct row_columns as [Hh Hs].
  unfold targetRoutingHealth, targetBreakerState. rewrite Hh, Hs. simpl.
  assert (now - TARGET_HALF_OPEN_LEASE_MS <? s = true) as -> by (apply Z.ltb_lt; lia). done.
Qed.

Lemma row_fence trial : trial ≠ Some s → targetOutcomeFence trial now (t_health row) = false.
Proof.
  destruct trial as [s'|]; simpl; [|intros _; apply row_not_free].
  intros Hne. apply other_trial. congruence.
Qed.

Lemma row_not_owned trial :
  trial ≠ Some s → owns_target trial (targetBreakerState (t_health row) now) = false.
Proof.
  intros Hne. destruct trial as [s'|]; simpl; [|by rewrite row_in_flight].
  destruct row_columns as [Hh Hs]. unfold targetBreakerState. rewrite Hh, Hs. simpl.
  apply Z.eqb_neq. congruence.
Qed.

Lemma safe_find {A} id (k : option TargetRow → prog DB A) (Q : A → Prop) :
  (id = x → safe row_kept Q (k (Some row))) → (id ≠ x → ∀ r, safe row_kept Q (k r)) →
  safe row_kept Q (let? target := stmt (findUnique id) in k target).
Proof.
  intros Hx Hne db Hdb. split; [done|]. simpl. destruct (decide (id = x)) as [->|].
  - unfold row_kept in Hdb. rewrite Hdb. auto.
  - auto.
Qed.

Definition quiet (id : string) (P : Prop) : Prop := id = x → P.

Lemma safe_return id s' :
  (id = x → s' ≠ s) → safe row_kept (λ _, True) (returnTargetTrial id s' now).
Proof.
  intros Hne. unfold returnTargetTrial. apply safe_find; [intros ->|intros Hid [r|]; [|done]].
  all: apply safe_update; [|done]; intros ?; apply other_trial; auto.
Qed.

Lemma safe_release id s' :
  (id = x → s' ≠ s) →
  safe row_kept (λ b, quiet id (b = false)) (releaseTargetHalfOpenTrial id s').
Proof.
  intros Hne. apply safe_update; [intros ?; apply other_trial; auto|].
  intros n Hn Hid. simpl. by rewrite Hn.
Qed.

Lemma safe_attempts n id fc trial :
  (id = x → trial ≠ Some s) →
  safe row_kept (λ r, quiet id (update r = None)) (recordAttempts n id fc trial now).
Proof.
  intros Hne. induction n as [|n IH]; cbn [recordAttempts]; [by intros ?|].
  apply safe_find; [intros ->|intros Hid [r|]; [|by intros ?]].
  - rewrite row_not_owned by auto. by intros ?.
  - destruct (negb _); [by intros ?|].
    apply safe_update; [done|]. intros c _. destruct (c =? 1); [by intros ?|done].
Qed.

Lemma safe_failure id f trial :
  (id = x → trial ≠ Some s) →
  safe row_kept (λ r, quiet id (update r = None)) (recordTargetRelayFailure id f trial now).
Proof.
  intros Hne. unfold recordTargetRelayFailure.
  destruct (targetFailureClassForRelayFailure f) as [[]|];
    try (by apply safe_attempts); destruct trial as [s'|]; try (by intros ?).
  - eapply safe_bind; [apply safe_release; intros Hid ->; by apply Hne|]. by intros ? _ ?.
  - eapply safe_bind; [apply safe_return; intros Hid ->; by apply Hne|]. by intros ? _ ?.
Qed.

Lemma safe_settle id s' healthy :
  (id = x → s' ≠ s) →
  safe row_kept (λ b, quiet id (b = false)) (settleTargetRecoveryTrial id s' healthy now).
Proof.
  intros Hne. apply safe_find; [intros ->|intros Hid [r|]; [|by intros ?]].
  - pose proof (row_not_owned (Some s')) as Ho. simpl in Ho.
    rewrite Ho by (intros [= ->]; by apply Hne). by intros ?.
  - destruct (negb _); [by intros ?|]. apply safe_update; [done|]. by intros n _ ?.
Qed.

Lemma safe_reconnect node : safe row_kept (λ _, True) (markTargetsDueAfterNodeReconnect node now).
Proof.
  intros db Hdb. split; [done|]. apply safe_fold; [done|]. intros c id _.
  apply safe_update; [|done]. intros _. unfold where_health. by rewrite row_not_cooling.
Qed.

Lemma node_write_kept node generation at_ db :
  row_kept db → row_kept (updateNodeAtGeneration node generation at_ db).2.
Proof. unfold updateNodeAtGeneration. intros Hdb. by repeat case_match. Qed.

(** The disconnect of a node the target is not on. *)
Lemma safe_disconnect node generation fc :
  targetsOnNode node row = false →
  safe row_kept (λ _, True) (disconnectTransaction node generation fc now).
Proof.
  intros Hon. apply (safe_bind _ (λ _, True)).
  { intros db Hdb. split; [|done]. by apply node_write_kept. }
  intros c _. destruct (c =? 0); [done|]. apply (safe_bind _ (λ _, True)); [|done].
  intros db Hdb. split; [done|]. apply safe_fold_in; [done|]. intros b id Hid _. apply safe_update; [|done]. intros ->.
  apply list_elem_of_In, findMany_elem in Hid as (r & Hr & Hc).
  unfold row_kept in Hdb. rewrite Hdb in Hr. simplify_eq. by rewrite Hon, andb_false_r in Hc.
Qed.

Lemma safe_operation op :
  op_now op = now → (op_target op = Some x → op_trial op ≠ Some s) → op_disconnects row op = false →
  safe row_kept (λ a, op_target op = Some x → refused a) (op_prog op).
Proof.
  intros Hnow Htr Hd. destruct op; simpl in Hnow, Htr, Hd; subst; apply safe_map; cbn [op_target].
  - eapply safe_mono; [|apply safe_failure; intros ->; by apply Htr].
    intros r Hq [= ->]. by apply Hq.
  - unfold markTargetRelaySuccess. apply safe_update; [intros ->; apply row_fence; by apply Htr|done].
  - unfold claimTargetRecoveryTrial. apply safe_update; [intros _; by apply row_not_due|].
    intros n Hn [= ->]. simpl. by rewrite Hn.
  - eapply safe_mono; [|apply safe_settle; intros -> ->; by apply Htr]. intros b Hq [= ->]. by apply Hq.
  - unfold abandonTargetRecoveryTrial. apply safe_update; [intros ->; apply other_trial; intros ->; by apply Htr|].
    intros n Hn [= ->]. simpl. by rewrite Hn.
  - intros db Hdb. destruct (updateMany_kept id (where_health (targetHalfOpenClaimableWhere now allowDegraded))
      (claim_trial now) db) as [? Hn]; [by intros _; apply row_not_claimable|done|].
    split; [done|]. intros [= ->]. by apply Hn.
  - eapply safe_mono; [|apply safe_return; intros -> ->; by apply Htr]. done.
  - eapply safe_mono; [|apply safe_release; intros -> ->; by apply Htr]. intros b Hq [= ->]. by apply Hq.
  - eapply safe_mono; [|apply safe_reconnect]. done.
  - eapply safe_mono; [|by apply safe_disconnect]. done.
Qed.

(** The trial is over: the row exists and no longer carries it. *)
Definition trial_over (db : DB) : Prop :=
  ∃ r, targets db !! x = Some r ∧ trial_is s (t_health r) = false.

(** What a disconnect writes over the row ends the trial. *)
Lemma ksafe_disconnect node generation fc :
  ksafe row_kept trial_over (λ _, True) (disconnectTransaction node generation fc now).
Proof.
  apply (ksafe_bind _ _ (λ _, True)).
  { intros db Hdb. left. split; [|done]. by apply node_write_kept. }
  intros c _. destruct (c =? 0); [done|]. apply (ksafe_bind _ _ (λ _, True)); [|done].
  intros db Hdb. left. split; [done|]. apply ksafe_fold; [done|].
  intros b id _. clear db Hdb. intros db Hdb. cbn. unfold updateMany, row_kept, trial_over in *.
  destruct (decide (id = x)) as [->|Hne].
  - rewrite Hdb. destruct (where_health _ row); [right|by left]. cbn.
    rewrite lookup_insert_eq. by eexists.
  - left. split; [|done]. destruct (targets db !! id) as [r|]; [|done]. destruct (where_health _ r); [|done].
    cbn. by rewrite lookup_insert_ne.
Qed.
End Trial.

(** A trial that is over is not taken up again: its start time is its claimant's. *)
Section TrialOver.
Context `{Collation}.
Variables (x : string) (s : Z).

Notation kept_over := (λ db db' : DB, trial_over x s db → trial_over x s db').

Lemma update_over id cond data :
  (∀ r, trial_is s (t_health r) = false → trial_is s (t_health (data r)) = false) →
  each kept_over (stmt (updateMany id cond data)).
Proof.
  intros Hd. apply each_stmt. intros db (r & Hr & Ht). unfold updateMany, trial_over.
  destruct (decide (id = x)) as [->|Hne].
  - rewrite Hr. destruct (cond r); cbn; [|by eauto]. rewrite lookup_insert_eq. eauto.
  - destruct (targets db !! id) as [r'|]; [destruct (cond r')|]; cbn; try by eauto.
    rewrite lookup_insert_ne by done. eauto.
Qed.

(** Data without a trial, and data of another claimant. *)
Lemma no_trial_is h : halfOpenTrialStartedAt h ≠ Some s → trial_is s h = false.
Proof. intros Hn. unfold trial_is. by rewrite bool_decide_false, andb_false_r. Qed.

Lemma node_write_over node generation now :
  each kept_over (stmt (updateNodeAtGeneration node generation now)).
Proof. apply each_stmt. intros db Ho. unfold updateNodeAtGeneration. by repeat case_match. Qed.

Ltac over :=
  repeat lazymatch goal with
    | |- each _ (let? _ := _ in _) => apply each_bind; [|intros ?]
    | |- each _ (prog_fold _ _ _) => apply each_fold; intros ? ?
    | |- each _ (stmt (updateMany _ _ _)) => apply update_over; intros ? ?
    | |- each _ (stmt (updateNodeAtGeneration _ _ _)) => apply node_write_over
    | |- each _ (stmt _) => apply each_stmt; intros ?; exact id
    | |- each _ (Done _) => exact I
    | |- each _ (match ?o with _ => _ end) => destruct o
    | |- trial_is _ (t_health (set_health (if ?b then _ else _) _)) = false => destruct b
    | |- trial_is _ _ = false => first [assumption | apply no_trial_is; cbn; congruence]
    end.

Lemma attempts_over n id fc trial now : each kept_over (recordAttempts n id fc trial now).
Proof. induction n as [|n IH]; cbn [recordAttempts]; over. exact IH. Qed.

Lemma operation_over op : (op_claims op = true → op_now op ≠ s) → each kept_over (op_prog op).
Proof.
  intros Hc. destruct op; cbn [op_prog op_claims op_now] in *; (apply each_bind; [|done]).
  - unfold recordTargetRelayFailure, releaseTargetHalfOpenTrial, returnTargetTrial.
    destruct (targetFailureClassForRelayFailure failure) as [[]|]; try apply attempts_over; over.
  - unfold markTargetRelaySuccess. over.
  - specialize (Hc eq_refl). unfold claimTargetRecoveryTrial. over.
  - unfold settleTargetRecoveryTrial. over.
  - unfold abandonTargetRecoveryTrial. over.
  - specialize (Hc eq_refl). unfold markTargetHalfOpenTrial. over.
  - unfold returnTargetTrial. over.
  - unfold releaseTargetHalfOpenTrial. over.
  - unfold markTargetsDueAfterNodeReconnect. over.
  - unfold disconnectTransaction, markTargetsForNodeUnavailable. over.
Qed.
End TrialOver.


Definition demo_target (h : TargetHealthSnapshot) : TargetRow :=
  mkTarget h None [mkRank (Some "n1") HELD] None.
Definition demo_trial : TargetHealthSnapshot :=
  mkHealth HALF_OPEN (Some TRANSPORT) 3 (Some 0) (Some 5000) (Some 6000).
Definition demo_db : DB := mkDB {[ "n1" := mkNode ONLINE None 7 ]} {[ "t1" := demo_target demo_trial ]}.


(** The disconnect of the target's own node does end the trial. *)
Example disconnect_ends_trial :
  t_health <$> targets (run (disconnectTransaction (H:=code_unit_collation) "n1" 7 WEBSOCKET_DISCONNECTED 7002)
                          demo_db).2 !! "t1" =
  Some (transitionTargetHealthForNodeUnavailable WEBSOCKET_DISCONNECTED 7002).
Proof. vm_compute. reflexivity. Qed.

(** ** Recording failures *)

Definition counted_failure (f : RelayFailureClass) : option TargetFailureClass :=
  match targetFailureClassForRelayFailure f with
  | Some WEBSOCKET_DISCONNECTED => None
  | c => c
  end.

Lemma failure_cas_self t now :
  targetTrialInFlight (targetBreakerState t now) = false → failure_cas t None now t = true.
Proof.
  intros Hf. unfold failure_cas, has_health, targetOutcomeFence.
  rewrite !bool_decide_true by done. rewrite Z.eqb_refl, noTrialWhere_parity, Hf. done.
Qed.

(** Alone on a target without a trial in flight, one attempt settles the outcome. *)
Lemma record_alone db id r f fc now :
  targets db !! id = Some r → counted_failure f = Some fc →
  targetTrialInFlight (targetBreakerState (t_health r) now) = false →
  let upd := transitionTargetHealthAfterRetryableFailure (t_health r) fc now in
  run (recordTargetRelayFailure id f None now) db =
    (mkFailureRecord true (Some upd), with_targets db (<[id := set_health upd r]> (targets db))).
Proof.
  intros Hr Hf Hflight upd.
  assert (run (recordAttempts 3 id fc None now) db =
    (mkFailureRecord true (Some upd), with_targets db (<[id := set_health upd r]> (targets db)))) as Hrun.
  { cbn. rewrite Hr. cbn [owns_target]. rewrite Hflight. cbn.
    unfold updateMany, where_health. rewrite Hr, failure_cas_self by done. done. }
  unfold counted_failure in Hf. unfold recordTargetRelayFailure.
  destruct (targetFailureClassForRelayFailure f) as [[]|]; simplify_eq; exact Hrun.
Qed.

(** The failures of one target, each reported by a request without a trial. *)
Definition record_all (id : string) (evs : list (RelayFailureClass * Z)) : prog DB unit :=
  prog_fold (λ _ ev, let? _r := recordTargetRelayFailure id ev.1 None ev.2 in Done tt) tt evs.

(** The health after [n] failures in a row, the last of class [fc] at [now]. *)
Definition failed_health (n : Z) (fc : TargetFailureClass) (now : Z) : TargetHealthSnapshot :=
  mkHealth (if TARGET_UNHEALTHY_AFTER_RETRYABLE_FAILURES <=? n then UNHEALTHY else DEGRADED)
    (Some fc) n (Some now) (Some (now + targetRecoveryDelayMs n)) None.

Lemma transition_from_closed t fc now :
  targetBreakerState t now = Closed →
  transitionTargetHealthAfterRetryableFailure t fc now =
  failed_health (consecutiveRetryableFailures t + 1) fc now.
Proof. intros Hc. unfold transitionTargetHealthAfterRetryableFailure. by rewrite Hc. Qed.

Lemma transition_from_failed n fc0 now0 fc now :
  1 ≤ n →
  transitionTargetHealthAfterRetryableFailure (failed_health n fc0 now0) fc now =
  failed_health (n + 1) fc now.
Proof.
  intros Hn. unfold transitionTargetHealthAfterRetryableFailure, failed_health. cbn.
  unfold targetBreakerState. cbn. f_equal. unfold TARGET_UNHEALTHY_AFTER_RETRYABLE_FAILURES.
  destruct (Z.leb_spec 3 n), (Z.leb_spec 3 (n + 1)); cbn; rewrite ?orb_true_r; try done; lia.
Qed.

Lemma failed_not_in_flight n fc now0 now :
  targetTrialInFlight (targetBreakerState (failed_health n fc now0) now) = false.
Proof. unfold failed_health, targetBreakerState. cbn. by destruct (_ <=? n). Qed.

Lemma record_all_failed id evs : ∀ db r n fc0 now0 fcs,
  targets db !! id = Some r → t_health r = failed_health n fc0 now0 → 1 ≤ n →
  map (counted_failure ∘ fst) evs = map Some fcs →
  t_health <$> targets (run (record_all id evs) db).2 !! id =
  Some (failed_health (n + Z.of_nat (length evs)) (List.last fcs fc0) (List.last evs.*2 now0)).
Proof.
  induction evs as [|[f now] evs IH]; intros db r n fc0 now0 fcs Hr Hh Hn Hfc.
  - destruct fcs; [|done]. simpl. rewrite Hr, Z.add_0_r. simpl. by rewrite Hh.
  - destruct fcs as [|fc fcs]; [done|]. injection Hfc as Hf Hfc.
    unfold record_all. cbn [prog_fold fst snd]. rewrite run_bind, run_bind.
    rewrite (record_alone db id r f fc now) by (rewrite ?Hh; auto using failed_not_in_flight).
    cbn [fst snd run]. rewrite Hh, transition_from_failed by done.
    fold (record_all id evs).
    rewrite (IH _ (set_health (failed_health (n + 1) fc now) r) (n + 1) fc now fcs); [|by apply lookup_insert_eq|done|lia|done].
    f_equal. f_equal; [simpl; lia|..].
    + symmetry. apply last_cons.
    + symmetry. exact (last_cons now now0 evs.*2).
Qed.

(** Three strikes open the circuit. From a closed target with no failure counted, a run of
    counted relay failures [evs] (each recorded by a request that owns no trial) leaves the
    target DEGRADED after the first and the second and UNHEALTHY from the third on, with the
    count of failures, the class and time of the last one, and a retry time that is the last
    failure plus the backoff of the count; the breaker then lets no request through before it. *)
Theorem consecutive_failures_open (db : DB) (id : string) (r : TargetRow)
    (f : RelayFailureClass) (now : Z) (evs : list (RelayFailureClass * Z)) (fcs : list TargetFailureClass) :
  targets db !! id = Some r →
  targetBreakerState (t_health r) now = Closed → consecutiveRetryableFailures (t_health r) = 0 →
  map (counted_failure ∘ fst) ((f, now) :: evs) = map Some fcs →
  let n := 1 + Z.of_nat (length evs) in
  let lastNow := List.last (map snd ((f, now) :: evs)) 0 in
  ∃ r', targets (run (record_all id ((f, now) :: evs)) db).2 !! id = Some r' ∧
    t_health r' = mkHealth (if 3 <=? n then UNHEALTHY else DEGRADED) (List.last (map Some fcs) None)
                    n (Some lastNow) (Some (lastNow + targetRecoveryDelayMs n)) None ∧
    ∀ t allow, t < lastNow + targetRecoveryDelayMs n → targetRoutingHealth (t_health r') t allow = None.
Proof.
  intros Hr Hc Hz Hfc n lastNow. destruct fcs as [|fc fcs]; [done|].
  injection Hfc as Hf Hfc. unfold record_all. cbn [prog_fold fst snd]. rewrite run_bind, run_bind.
  rewrite (record_alone db id r f fc now) by (rewrite ?Hc; auto).
  cbn [fst snd run]. rewrite transition_from_closed, Hz by done. fold (record_all id evs).
  pose proof (record_all_failed id evs (with_targets db (<[id:=set_health (failed_health 1 fc now) r]> (targets db)))
    (set_health (failed_health 1 fc now) r) 1 fc now fcs (lookup_insert_eq _ _ _) eq_refl ltac:(lia) Hfc) as Hrun.
  apply fmap_Some in Hrun as (r' & Hr' & Hrun). symmetry in Hrun.
  assert (Hlast : lastNow = List.last evs.*2 now) by (unfold lastNow; apply last_cons).
  assert (Hcls : List.last (map Some (fc :: fcs)) None = Some (List.last fcs fc)).
  { cbn [map]. rewrite last_cons. clear. revert fc. induction fcs as [|a l IH]; intros fc; [done|].
    cbn [map]. rewrite !last_cons. apply IH. }
  exists r'. split; [done|]. rewrite Hrun, Hlast, Hcls. split; [done|].
  intros t allow Ht. unfold targetRoutingHealth, targetBreakerState, failed_health. cbn.
  fold n. assert (List.last evs.*2 now + targetRecoveryDelayMs n <=? t = false) as -> by (apply Z.leb_gt; lia).
  destruct (_ <=? n); cbn; [done|]. by rewrite andb_false_r.
Qed.

Lemma consecutive_failures_open_witness :
  ∃ r', targets (run (record_all "t1" [(rf_transport, 1000); (rf_timeout, 2500); (rf_upstream_5xx, 9000)])
                   (mkDB ∅ {[ "t1" := demo_target resetTargetHealth ]})).2 !! "t1" = Some r' ∧
    t_health r' = mkHealth UNHEALTHY (Some UPSTREAM_5XX) 3 (Some 9000) (Some 14000) None.
Proof.
  destruct (consecutive_failures_open (mkDB ∅ {[ "t1" := demo_target resetTargetHealth ]}) "t1"
    (demo_target resetTargetHealth) rf_transport 1000 [(rf_timeout, 2500); (rf_upstream_5xx, 9000)]
    [TRANSPORT; RELAY_TIMEOUT; UPSTREAM_5XX]) as (r' & Hr & Hh & _);
    [reflexivity|reflexivity|reflexivity|reflexivity|].
  exists r'. split; [exact Hr|exact Hh].
Defined.

(** ** Node disconnect and reconnect *)

Section NodeWrites.
Context `{C : Collation}.

Lemma findMany_NoDup cond db : NoDup (findMany cond db).1.
Proof.
  unfold findMany. cbn [fst]. rewrite sort_by_perm.
  pose proof (NoDup_fst_map_to_list (targets db)) as Hnd. revert Hnd.
  generalize (map_to_list (targets db)). induction l as [|[k r] l IH]; simpl; [done|].
  intros [Hk Hnd]%NoDup_cons. destruct (cond r); simpl; [|by apply IH].
  constructor; [|by apply IH]. intros (kr & <- & [Hin _]%filter_In)%list_elem_of_In%in_map_iff.
  apply Hk. apply list_elem_of_In, in_map_iff. eauto.
Qed.

(** A sweep of one [updateMany] per id. *)
Lemma run_sweep {B} cond data (h : B → Z → B) ids b db i :
  NoDup ids →
  let db' := (run (prog_fold (λ b id, let? n := stmt (updateMany id cond data) in Done (h b n)) b ids) db).2 in
  nodes db' = nodes db ∧
  targets db' !! i =
    (λ r, if bool_decide (i ∈ ids) && cond r then data r else r) <$> targets db !! i.
Proof.
  revert b db. induction ids as [|id ids IH]; intros b db; cbn [prog_fold].
  - intros _. cbn. split; [done|]. by destruct (targets db !! i).
  - intros [Hid Hnd]%NoDup_cons. rewrite run_bind. cbn [stmt prog_bind run fst snd].
    destruct (IH (h b (updateMany id cond data db).1) (updateMany id cond data db).2 Hnd) as [Hn Ht].
    split; [etrans; [exact Hn|]|etrans; [exact Ht|]]; clear Hn Ht IH; unfold updateMany.
    { destruct (targets db !! id) as [r|]; [|done]. by destruct (cond r). }
    destruct (targets db !! id) as [r|] eqn:Hr; [destruct (cond r) eqn:Hc|]; cbn [snd nodes targets with_targets].
    all: destruct (decide (i = id)) as [->|Hne]; [rewrite ?lookup_insert_eq, ?Hr|rewrite ?lookup_insert_ne by done].
    all: try destruct (targets db !! i) as [r'|]; cbn [fmap option_fmap option_map]; try done.
    all: f_equal; rewrite ?(bool_decide_false (id ∈ ids)) by done.
    all: rewrite ?(bool_decide_true (id ∈ id :: ids)) by (by left).
    all: cbn [andb]; rewrite ?Hc; try done.
    all: by rewrite (bool_decide_ext (i ∈ id :: ids) (i ∈ ids)) by set_solver.
Qed.

(** A sweep over the rows found by a stronger condition changes exactly those. *)
Lemma sweep_found (found cond : TargetRow → bool) data db i :
  (∀ r, targets db !! i = Some r → found r = true → cond r = true) →
  (λ r, if bool_decide (i ∈ (findMany found db).1) && cond r then data r else r) <$> targets db !! i =
  (λ r : TargetRow, if found r then data r else r) <$> targets db !! i.
Proof.
  intros Hc. destruct (targets db !! i) as [r|] eqn:Hr; cbn; [|done]. f_equal.
  destruct (found r) eqn:Hb.
  - rewrite bool_decide_true by (apply findMany_elem; eauto). by rewrite (Hc r).
  - rewrite bool_decide_false; [done|]. intros (r0 & Hr0 & Hb0)%findMany_elem. congruence.
Qed.

Definition opened_by_disconnect (node : string) (now : Z) (r : TargetRow) : bool :=
  negb (realFailureCoolingDown now (t_health r)) && targetsOnNode node r.

Lemma run_markUnavailable node fc now db :
  let db' := (run (markTargetsForNodeUnavailable node fc now) db).2 in
  nodes db' = nodes db ∧
  ∀ i, targets db' !! i =
    (λ r, if opened_by_disconnect node now r
          then set_health (transitionTargetHealthForNodeUnavailable fc now) r else r) <$> targets db !! i.
Proof.
  unfold markTargetsForNodeUnavailable. rewrite run_bind. cbn [run stmt fst snd].
  set (ids := (findMany _ db).1). set (cond := where_health _). set (data := set_health _).
  pose proof (λ i, run_sweep cond data (λ _ _, tt) ids tt db i (findMany_NoDup _ _)) as Hs.
  split; [apply (Hs EmptyString)|]. intros i. etrans; [exact (proj2 (Hs i))|].
  apply sweep_found. intros r Hr. unfold opened_by_disconnect, cond, where_health.
  by destruct (realFailureCoolingDown now (t_health r)).
Qed.

Definition made_due (node : string) (now : Z) (r : TargetRow) : bool :=
  targetOpenCoolingDownWhere now (t_health r)
  && match lastFailureClass (t_health r) with
     | Some c => nodeUnavailableFailureClass c
     | None => false
     end
  && targetsOnNode node r.

Lemma run_reconnect node now db :
  let db' := (run (markTargetsDueAfterNodeReconnect node now) db).2 in
  nodes db' = nodes db ∧
  ∀ i, targets db' !! i = (λ r, if made_due node now r then retry_now now r else r) <$> targets db !! i.
Proof.
  unfold markTargetsDueAfterNodeReconnect. rewrite run_bind. cbn [run stmt fst snd].
  set (ids := (findMany _ db).1). set (cond := where_health _).
  pose proof (λ i, run_sweep cond (retry_now now) (λ c n, c + n) ids 0 db i (findMany_NoDup _ _)) as Hs.
  split; [apply (Hs EmptyString)|]. intros i. etrans; [exact (proj2 (Hs i))|].
  apply (sweep_found (made_due node now)). intros r Hr. unfold made_due, cond, where_health.
  intros Hm. by apply andb_true_iff in Hm as [Hm _].
Qed.
End NodeWrites.

(** The disconnect write is fenced by the connection generation, and a reconnect undoes
    only what it did. When the node's generation is no longer the caller's, nothing is written
    and the answer is false. Otherwise the node is OFFLINE, every target of the node that is not
    cooling down for a failure of its own is circuit-opened, and every other row is unchanged.
    A reconnect sweep within the cooldown then makes exactly the opened targets due at once,
    and a target cooling down for a failure of its own keeps its row throughout. *)
Theorem disconnect_reconnect `{C : Collation} (node : string) (generation : Z)
    (fc : TargetFailureClass) (now : Z) (db : DB) :
  let res := run (disconnectTransaction node generation fc now) db in
  let fenced := match nodes db !! node with
                | Some n => n_connectionGeneration n =? generation
                | None => false
                end in
  if fenced then
    res.1 = true ∧
    (∀ n, nodes db !! node = Some n →
       nodes res.2 !! node = Some (mkNode OFFLINE (Some now) generation)) ∧
    (∀ i, targets res.2 !! i =
       (λ r, if opened_by_disconnect node now r
             then set_health (transitionTargetHealthForNodeUnavailable fc now) r else r)
       <$> targets db !! i) ∧
    ∀ now', nodeUnavailableFailureClass fc = true → now ≤ now' < now + TARGET_HEALTH_COOLDOWN_MS →
      ∀ i r, targets db !! i = Some r → targetsOnNode node r = true →
        ∃ r'', targets (run (markTargetsDueAfterNodeReconnect node now') res.2).2 !! i = Some r'' ∧
          if realFailureCoolingDown now (t_health r) then r'' = r
          else targetDueWhere now' (t_health r'') = true ∧ health (t_health r'') = UNHEALTHY
  else res = (false, db).
Proof.
  intros res fenced. unfold res, disconnectTransaction. rewrite run_bind.
  cbn [run stmt fst snd]. unfold updateNodeAtGeneration, fenced.
  destruct (nodes db !! node) as [n|] eqn:Hn; [|done].
  destruct (Z.eqb_spec (n_connectionGeneration n) generation) as [<-|]; [|done].
  cbn [fst snd]. change (1 =? 0) with false. cbn [negb]. rewrite run_bind. cbn [run fst snd].
  set (db1 := mkDB _ (targets db)).
  destruct (run_markUnavailable node fc now db1) as [Hnodes Htargets].
  split; [done|]. split; [|split; [done|]].
  - intros n' _. rewrite Hnodes. apply lookup_insert_eq.
  - intros now' Hfc Hnow i r Hr Hon.
    pose proof (proj2 (run_reconnect node now' (run (markTargetsForNodeUnavailable node fc now) db1).2) i) as Hi.
    rewrite Hi, Htargets. cbn [targets db1]. rewrite Hr. cbn [fmap option_fmap option_map].
    eexists. split; [done|]. unfold opened_by_disconnect. rewrite Hon, andb_true_r.
    destruct (realFailureCoolingDown now (t_health r)) eqn:Hreal; cbn [negb].
    + unfold realFailureCoolingDown in Hreal. unfold made_due.
      apply andb_true_iff in Hreal as [_ Hclass].
      destruct (lastFailureClass (t_health r)) as [c|]; [|done].
      apply negb_true_iff in Hclass. rewrite Hclass. by rewrite andb_false_r.
    + assert (Hdue : made_due node now' (set_health (transitionTargetHealthForNodeUnavailable fc now) r) = true).
      { unfold made_due, targetOpenCoolingDownWhere. apply andb_true_iff. split; [|done].
        apply andb_true_iff. split; [apply Z.ltb_lt; simpl; lia|done]. }
      rewrite Hdue. unfold targetDueWhere. split; [apply Z.leb_refl|done].
Qed.

Lemma disconnect_reconnect_witness :
  (run (disconnectTransaction (H:=code_unit_collation) "n1" 6 STALE_SESSION 9000) demo_db).1 = false ∧
  (run (disconnectTransaction (H:=code_unit_collation) "n1" 7 STALE_SESSION 9000) demo_db).1 = true.
Proof.
  split.
  - exact (f_equal fst (disconnect_reconnect (C:=code_unit_collation) "n1" 6 STALE_SESSION 9000 demo_db)).
  - exact (proj1 (disconnect_reconnect (C:=code_unit_collation) "n1" 7 STALE_SESSION 9000 demo_db)).
Defined.


(** ** The retry loop terminates *)

Section Retry.
Context `{Collation} {error : Type}.
Variables (isLockTimeout isRetryable : error → bool).
Variables (attemptError : nat → option error) (clock : nat → Z).
Variables (start : Z) (transaction : prog DB bool).
(** Between two handlers the loop sleeps at least one backoff. *)
Hypothesis clock_start : start ≤ clock 0.
Hypothesis clock_backoff : ∀ i, clock i + DISCONNECT_RETRY_BACKOFF_MS ≤ clock (S i).

Lemma clock_lower i : start + DISCONNECT_RETRY_BACKOFF_MS * Z.of_nat i ≤ clock i.
Proof.
  unfold DISCONNECT_RETRY_BACKOFF_MS in *. induction i as [|i IH]; [lia|].
  specialize (clock_backoff i). lia.
Qed.

(** Other errors are counted, and lock timeouts end at the deadline, which the clock passes
    after 300 backoffs. *)
Lemma disconnectLoop_total fuel attempt other :
  other < DISCONNECT_TRANSACTION_MAX_ATTEMPTS →
  Z.max 0 (300 - Z.of_nat attempt) + (DISCONNECT_TRANSACTION_MAX_ATTEMPTS - other) ≤ Z.of_nat fuel →
  ∃ p, disconnectLoop isLockTimeout isRetryable attemptError clock fuel attempt other
         (start + DISCONNECT_LOCK_RETRY_BUDGET_MS) transaction = Some p ∧
    (p = prog_map inl transaction ∨ ∃ e, p = Done (inr e)).
Proof.
  revert attempt other. induction fuel as [|fuel IH]; intros attempt other Ho Hf; [lia|].
  cbn [disconnectLoop]. destruct (attemptError attempt) as [e|]; [|eauto].
  pose proof (clock_lower attempt) as Hclock. unfold DISCONNECT_RETRY_BACKOFF_MS in Hclock.
  destruct (isLockTimeout e).
  - destruct (Z.leb_spec (start + DISCONNECT_LOCK_RETRY_BUDGET_MS) (clock attempt)) as [|Hlt];
      [eauto|]. unfold DISCONNECT_LOCK_RETRY_BUDGET_MS in Hlt. apply IH; lia.
  - destruct (Z.leb_spec DISCONNECT_TRANSACTION_MAX_ATTEMPTS (other + 1)) as [|Hlt]; [eauto|].
    cbn [orb]. destruct (isRetryable e); [|eauto]. apply IH; lia.
Qed.

End Retry.

(** The disconnect retry loop always ends: whatever errors the attempts raise, if at least
    one backoff passes between two handlers the loop stops within 305 attempts, either running
    the transaction once or rethrowing an error of an attempt, with nothing written. *)
Theorem disconnect_retries_terminate `{Collation} {error : Type}
    (isLockTimeout isRetryable : error → bool) (attemptError : nat → option error)
    (clock : nat → Z) (start : Z) (node : string) (generation : Z) (fc : TargetFailureClass) (now : Z) :
  start ≤ clock 0%nat → (∀ i, clock i + DISCONNECT_RETRY_BACKOFF_MS ≤ clock (S i)) →
  ∃ p, disconnectNodeAtGeneration isLockTimeout isRetryable attemptError clock 305 start
         node generation fc now = Some p ∧
    (p = prog_map inl (disconnectTransaction node generation fc now) ∨
     ∃ e, p = Done (inr e)).
Proof.
  intros Hstart Hback. by apply disconnectLoop_total.
Qed.

(** Every attempt waits out the lock timeout: the last handler runs past the budget. *)
Lemma disconnect_retries_terminate_witness :
  ∃ p, disconnectNodeAtGeneration (H:=code_unit_collation) (λ _ : unit, true) (λ _, true)
         (λ _, Some tt) (λ i, 2000 + 2100 * Z.of_nat i) 305 0 "n1" 7 STALE_SESSION 0 = Some p.
Proof.
  destruct (disconnect_retries_terminate (H:=code_unit_collation) (λ _ : unit, true) (λ _, true)
    (λ _, Some tt) (λ i, 2000 + 2100 * Z.of_nat i) 0 "n1" 7 STALE_SESSION 0) as (p & Hp & _).
  - simpl. lia.
  - intros i. unfold DISCONNECT_RETRY_BACKOFF_MS. lia.
  - eauto.
Defined.
