(* ===== verification/InstancePhase.v ===== *)
(** * The runtime instance lifecycle

    [src/packages/api/src/lib/instance-phase.ts]: the phases of a runtime instance, the moves
    between them and the column bundle each move writes, with the writers of the lifecycle
    engine that go with it ([src/apps/server/src/runtimes/lifecycle.ts]: the guarded phase
    write, the gang stop, the restart rule of a settled stop, the delayed retake;
    [src/packages/api/src/lib/operator-need.ts]: the need written by the step rules). A Prisma
    update is a bundle of optional columns; an absent column keeps the row's value. *)

From S2P Require Import Prelude.

(** ** Data *)

Inductive InstancePhase := STARTING | READY | UNHEALTHY | UNAVAILABLE | STOPPING | STOPPED | FAILED.
Inductive OperatorNeed := STEP | RESTART | MARK_STOPPED.
Inductive DesiredState := DesiredRunning | DesiredStopped.
Inductive AlwaysOnPhase := AlwaysReady | AlwaysUnhealthy | AlwaysUnavailable.

#[export] Instance InstancePhase_eq_dec : EqDecision InstancePhase.
Proof. solve_decision. Defined.
#[export] Instance OperatorNeed_eq_dec : EqDecision OperatorNeed.
Proof. solve_decision. Defined.
#[export] Instance DesiredState_eq_dec : EqDecision DesiredState.
Proof. solve_decision. Defined.

Definition INSTANCE_PHASES : list InstancePhase :=
  [STARTING; READY; UNHEALTHY; UNAVAILABLE; STOPPING; STOPPED; FAILED].

Inductive RestartBudget := BudgetReset | BudgetSpend.
Inductive ReadyVia := ViaReadiness | ViaRecovered | ViaHealth.
Inductive StoppedAfter :=
| Stay
| RestartByPerson
| RestartAt (at_ : Z) (restartsInWindow : Z) (restartWindowStartedAt : Z).

Inductive InstancePhaseChange :=
| ToStartingNew (reason : string) (fabricId : option string) (budget : RestartBudget)
| ToStartingResume
| ToReady (via : ReadyVia)
| ToUnhealthy (detail : option string)
| ToUnavailable (reason : string) (since : option Z)
| ToStopping (reason : string) (desiredState : DesiredState)
| ToStopped (reason : option string) (after : StoppedAfter)
| ToFailed (reason : option string).

Definition change_to (change : InstancePhaseChange) : InstancePhase :=
  match change with
  | ToStartingNew _ _ _ | ToStartingResume => STARTING
  | ToReady _ => READY
  | ToUnhealthy _ => UNHEALTHY
  | ToUnavailable _ _ => UNAVAILABLE
  | ToStopping _ _ => STOPPING
  | ToStopped _ _ => STOPPED
  | ToFailed _ => FAILED
  end.

(** The lifecycle columns of a [runtime_instance] row. *)
Record Instance := mkInstance {
  phase : InstancePhase;
  phaseChangedAt : Z;
  phaseReason : option string;
  desiredState : option DesiredState;
  needsOperator : option OperatorNeed;
  needsOperatorSince : option Z;
  nextRestartAt : option Z;
  unavailableSince : option Z;
  unhealthySince : option Z;
  healthDetail : option string;
  healthFailures : Z;
  healthSuccesses : Z;
  lastHealthAt : option Z;
  fabricId : option string;
  restartsInWindow : Z;
  restartWindowStartedAt : option Z;
}.

Inductive IntWrite := IntSet (n : Z) | IntIncrement (n : Z).

(** The bundle: [None] is an absent column, [Some None] writes NULL. *)
Record InstancePhaseColumns := mkColumns {
  c_phase : InstancePhase;
  c_phaseChangedAt : Z;
  c_phaseReason : option (option string);
  c_desiredState : option DesiredState;
  c_needsOperator : option (option OperatorNeed);
  c_needsOperatorSince : option (option Z);
  c_nextRestartAt : option (option Z);
  c_unavailableSince : option (option Z);
  c_unhealthySince : option (option Z);
  c_healthDetail : option (option string);
  c_healthFailures : option Z;
  c_healthSuccesses : option Z;
  c_lastHealthAt : option Z;
  c_fabricId : option (option string);
  c_restartsInWindow : option IntWrite;
  c_restartWindowStartedAt : option (option Z);
}.

(** ** Moves *)

Definition SERVING : list InstancePhase := [STARTING; READY; UNHEALTHY; UNAVAILABLE].

Definition instanceTransitionFrom (change : InstancePhaseChange) : list InstancePhase :=
  match change with
  | ToStartingNew _ _ _ => INSTANCE_PHASES
  | ToStartingResume => [UNAVAILABLE]
  | ToReady ViaReadiness => [STARTING]
  | ToReady ViaRecovered => [UNAVAILABLE]
  | ToReady ViaHealth => [UNHEALTHY]
  | ToUnhealthy _ => [READY]
  | ToUnavailable _ _ => SERVING
  | ToStopping _ DesiredStopped => INSTANCE_PHASES
  | ToStopping _ DesiredRunning => SERVING ++ [STOPPING]
  | ToStopped _ _ => [STOPPING]
  | ToFailed _ => [STOPPING; STOPPED]
  end.

Definition instanceTransitionAllowed (from : Instance) (change : InstancePhaseChange) : bool :=
  match desiredState from with
  | None => false
  | Some _ => bool_decide (phase from ∈ instanceTransitionFrom change)
  end.

Definition assertInstanceTransition (from : Instance) (change : InstancePhaseChange) : result unit :=
  throw_when (negb (instanceTransitionAllowed from change))
    (PlainError "InstanceTransitionError").

(** ** Column bundles *)

Definition instancePhaseData (change : InstancePhaseChange) (now : Z) : InstancePhaseColumns :=
  match change with
  | ToStartingResume =>
      mkColumns STARTING now (Some None) None None None None (Some None) (Some None)
        None None None None None None None
  | ToStartingNew reason fabric budget =>
      mkColumns STARTING now (Some (Some reason)) (Some DesiredRunning) (Some None) (Some None)
        (Some None) (Some None) (Some None) (Some None) (Some 0) (Some 0) None (Some fabric)
        (Some (match budget with BudgetReset => IntSet 0 | BudgetSpend => IntIncrement 1 end))
        (match budget with BudgetReset => Some None | BudgetSpend => None end)
  | ToReady via =>
      let readiness := match via with ViaReadiness => true | _ => false end in
      mkColumns READY now (Some None) None None None (Some None) (Some None) (Some None) (Some None)
        (if readiness then Some 0 else None) (if readiness then Some 0 else None)
        (if readiness then Some now else None) None None None
  | ToUnhealthy detail =>
      mkColumns UNHEALTHY now (Some (Some "health_failed")) None None None None (Some None)
        (Some (Some now)) (Some detail) None None None None None None
  | ToUnavailable reason since =>
      mkColumns UNAVAILABLE now (Some (Some reason)) None None None None
        (Some (Some (default now since))) (Some None) None None None None None None None
  | ToStopping reason desired =>
      mkColumns STOPPING now (Some (Some reason)) (Some desired) (Some None) (Some None) (Some None)
        (Some None) (Some None) None None None None None None None
  | ToStopped reason after =>
      let stopped need since restart used window :=
        mkColumns STOPPED now (Some reason) None (Some need) (Some since) (Some restart)
          (Some None) (Some None) None None None None (Some None) used window in
      match after with
      | RestartByPerson => stopped (Some RESTART) (Some now) None None None
      | RestartAt at_ used window =>
          stopped None None (Some at_) (Some (IntSet used)) (Some (Some window))
      | Stay => stopped None None None None None
      end
  | ToFailed reason =>
      mkColumns FAILED now (Some reason) None (Some None) (Some None) (Some None) (Some None)
        (Some None) None None None None (Some None) None None
  end.

Definition always_on_phase (p : AlwaysOnPhase) : InstancePhase :=
  match p with
  | AlwaysReady => READY
  | AlwaysUnhealthy => UNHEALTHY
  | AlwaysUnavailable => UNAVAILABLE
  end.

Definition alwaysOnPhaseData (p : AlwaysOnPhase) (reason : option string) (now : Z) :
    InstancePhaseColumns :=
  mkColumns (always_on_phase p) now (Some reason) None None None None None None None None None
    None None None None.

(** [update({ data })] on the row. *)
Definition apply_columns (c : InstancePhaseColumns) (i : Instance) : Instance :=
  mkInstance (c_phase c) (c_phaseChangedAt c)
    (default (phaseReason i) (c_phaseReason c))
    (match c_desiredState c with Some d => Some d | None => desiredState i end)
    (default (needsOperator i) (c_needsOperator c))
    (default (needsOperatorSince i) (c_needsOperatorSince c))
    (default (nextRestartAt i) (c_nextRestartAt c))
    (default (unavailableSince i) (c_unavailableSince c))
    (default (unhealthySince i) (c_unhealthySince c))
    (default (healthDetail i) (c_healthDetail c))
    (default (healthFailures i) (c_healthFailures c))
    (default (healthSuccesses i) (c_healthSuccesses c))
    (match c_lastHealthAt c with Some t => Some t | None => lastHealthAt i end)
    (default (fabricId i) (c_fabricId c))
    (match c_restartsInWindow c with
     | None => restartsInWindow i
     | Some (IntSet n) => n
     | Some (IntIncrement n) => restartsInWindow i + n
     end)
    (default (restartWindowStartedAt i) (c_restartWindowStartedAt c)).

(** The guarded write of the lifecycle engine. *)
Definition writePhase (i : Instance) (change : InstancePhaseChange) (now : Z) : result Instance :=
  check! assertInstanceTransition i change in
  Ok (apply_columns (instancePhaseData change now) i).

(** ** The engine's other writers of these columns *)

Definition RESTART_BACKOFF_BASE_MS : Z := 10000.
Definition RESTART_BACKOFF_MAX_MS : Z := 5 * 60000.
Definition RETAKE_RETRY_MS : Z := 30000.
Definition CLI_UPGRADE_REQUIRED : string := "cli_upgrade_required".

Definition TERMINAL_START_ERRORS : gset string :=
  {[ "trust_relay"; "definition_frozen"; "interactive_unsupported"; "operator_terminals_disabled";
     "process_detached"; CLI_UPGRADE_REQUIRED ]}.

(** What the restart rule reads of the launched version. *)
Record LaunchRules := mkRules {
  interactiveStart : bool;
  restartBudget : Z;
  restartWindowMin : Z;
}.

(** [settleStopped]: every claim is released or marked stopped. *)
Definition settleStoppedChange (i : Instance) (rules : LaunchRules) (now : Z) : InstancePhaseChange :=
  let reason := phaseReason i in
  if negb (bool_decide (desiredState i = Some DesiredRunning)) then ToStopped reason Stay
  else if match reason with Some r => bool_decide (r ∈ TERMINAL_START_ERRORS) | None => false end
  then ToFailed reason
  else if interactiveStart rules then ToStopped reason RestartByPerson
  else
    let windowMs := restartWindowMin rules * 60000 in
    let windowOpen := match restartWindowStartedAt i with
                      | Some t => now - t <? windowMs
                      | None => false
                      end in
    let used := if windowOpen then restartsInWindow i else 0 in
    if restartBudget rules <=? used then ToFailed (Some "restart_budget_exhausted")
    else
      let backoff := Z.min (RESTART_BACKOFF_BASE_MS * 2 ^ used) RESTART_BACKOFF_MAX_MS in
      ToStopped reason
        (RestartAt (now + backoff) used
           (if windowOpen then default now (restartWindowStartedAt i) else now)).

Definition settleStopped (i : Instance) (rules : LaunchRules) (now : Z) : result Instance :=
  writePhase i (settleStoppedChange i rules now) now.

(** [gangStop]: the run ends, the desired state is kept. *)
Definition gangStop (i : Instance) (reason : string) (now : Z) : result Instance :=
  writePhase i (ToStopping reason (default DesiredRunning (desiredState i))) now.

(** The stop request of a person or an agent: desired RUNNING is the whole guard. *)
Definition requestStop (i : Instance) (reason : string) (now : Z) : Instance :=
  if bool_decide (desiredState i = Some DesiredRunning)
  then apply_columns (instancePhaseData (ToStopping reason DesiredStopped) now) i else i.

Definition set_need (need : option OperatorNeed) (since : option Z) (i : Instance) : Instance :=
  mkInstance (phase i) (phaseChangedAt i) (phaseReason i) (desiredState i) need since
    (nextRestartAt i) (unavailableSince i) (unhealthySince i) (healthDetail i) (healthFailures i)
    (healthSuccesses i) (lastHealthAt i) (fabricId i) (restartsInWindow i) (restartWindowStartedAt i).

Definition set_nextRestart (reason : option string) (at_ : Z) (i : Instance) : Instance :=
  mkInstance (phase i) (phaseChangedAt i) reason (desiredState i) (needsOperator i)
    (needsOperatorSince i) (Some at_) (unavailableSince i) (unhealthySince i) (healthDetail i)
    (healthFailures i) (healthSuccesses i) (lastHealthAt i) (fabricId i) (restartsInWindow i)
    (restartWindowStartedAt i).

(** [restartDue] and [retake] when the restart cannot begin yet: a step is still out, the
    planner refused (with its waiting reason), or the retake raised. *)
Definition delayRestart (i : Instance) (waiting : option string) (now : Z) : Instance :=
  if bool_decide (phase i = STOPPED) && bool_decide (desiredState i = Some DesiredRunning)
  then set_nextRestart (match waiting with Some r => Some r | None => phaseReason i end)
         (now + RETAKE_RETRY_MS) i
  else i.

(** ** The need of the step rules *)

Definition stepRuleNeed (current : option OperatorNeed) (waiting : bool) : option OperatorNeed :=
  match current with
  | Some MARK_STOPPED | Some RESTART => current
  | _ => if waiting then Some STEP else None
  end.

Definition writeOperatorNeed (i : Instance) (need : option OperatorNeed) (now : Z) : Instance :=
  if bool_decide (needsOperator i = need) then i
  else set_need need (match need with Some _ => Some now | None => None end) i.

Definition syncNeedsOperator (i : Instance) (waiting : bool) (now : Z) : Instance :=
  match needsOperator i with
  | Some MARK_STOPPED | Some RESTART => i
  | current => writeOperatorNeed i (stepRuleNeed current waiting) now
  end.

(** The end of [settleStopping] while claims are still held. *)
Definition settleStoppingNeed (i : Instance) (needsMarkStopped waiting : bool) (now : Z) : Instance :=
  if bool_decide (phase i = STOPPING)
  then writeOperatorNeed i
         (if needsMarkStopped then Some MARK_STOPPED else if waiting then Some STEP else None) now
  else i.

(** ** The phase-scoped columns agree with the phase *)

Definition is_set {A} (x : option A) : Prop := is_Some x.

(** The table in the header of [instance-phase.ts], with the step rules' STEP need left to
    the steps. *)
Record columns_ok (i : Instance) : Prop := {
  ok_managed : is_set (desiredState i);
  ok_unavailable : is_set (unavailableSince i) ↔ phase i = UNAVAILABLE;
  ok_unhealthy : is_set (unhealthySince i) ↔ phase i = UNHEALTHY;
  ok_nextRestart : is_set (nextRestartAt i) →
                   phase i = STOPPED ∧ desiredState i = Some DesiredRunning;
  ok_fabric : is_set (fabricId i) → phase i ≠ STOPPED ∧ phase i ≠ FAILED;
  ok_markStopped : needsOperator i = Some MARK_STOPPED → phase i = STOPPING;
  ok_restartNeed : needsOperator i = Some RESTART →
                   phase i = STOPPED ∧ desiredState i = Some DesiredRunning;
  ok_since : is_set (needsOperatorSince i) ↔ is_set (needsOperator i);
}.

(** Every write to these columns of a managed instance. *)
Inductive lifecycle_step (rules : LaunchRules) : Instance → Instance → Prop :=
| step_phase i i' change now :
    change_to change ≠ STOPPED → writePhase i change now = Ok i' → lifecycle_step rules i i'
| step_gangStop i i' reason now : gangStop i reason now = Ok i' → lifecycle_step rules i i'
| step_settle i i' now : settleStopped i rules now = Ok i' → lifecycle_step rules i i'
| step_request i reason now : lifecycle_step rules i (requestStop i reason now)
| step_delay i waiting now : lifecycle_step rules i (delayRestart i waiting now)
| step_sync i waiting now : lifecycle_step rules i (syncNeedsOperator i waiting now)
| step_stopNeed i mark waiting now : lifecycle_step rules i (settleStoppingNeed i mark waiting now).

Lemma writePhase_Ok i change now i' :
  writePhase i change now = Ok i' ↔
  instanceTransitionAllowed i change = true ∧ i' = apply_columns (instancePhaseData change now) i.
Proof.
  unfold writePhase, assertInstanceTransition, throw_when.
  destruct (instanceTransitionAllowed i change); simpl; split.
  - by intros [= <-].
  - by intros [_ ->].
  - done.
  - by intros [? _].
Qed.

Lemma not_set_None {A} : is_set (@None A) ↔ False.
Proof. split; [by intros [? ?]|done]. Qed.

Lemma is_set_Some {A} (a : A) : is_set (Some a).
Proof. by exists a. Qed.
#[export] Hint Resolve is_set_Some : wsmp.

(** Discharges the columns a bundle writes as constants. *)
Ltac columns :=
  repeat match goal with
    | H : is_set None |- _ => by destruct H
    | |- _ ↔ _ => split; intros ?
    | |- is_set (Some _) => apply is_set_Some
    | |- _ → _ => intros ?
    end; simplify_eq/=; try done.

Lemma change_keeps_columns i change now :
  columns_ok i → instanceTransitionAllowed i change = true →
  (∀ reason at_ used window, change = ToStopped reason (RestartAt at_ used window) →
     desiredState i = Some DesiredRunning) →
  (∀ reason, change = ToStopped reason RestartByPerson → desiredState i = Some DesiredRunning) →
  columns_ok (apply_columns (instancePhaseData change now) i).
Proof.
  intros [Hm Hua Huh Hnr Hf Hms Hrn Hsi] Hal Hat Hby. unfold instanceTransitionAllowed in Hal.
  destruct (desiredState i) as [d|] eqn:Hd; [|done].
  destruct change as [r f []| |[]|d0|r s|r []|r a|r]; destruct (phase i) eqn:Hp;
    try (vm_compute in Hal; discriminate Hal).
  all: clear Hal; try destruct a.
  all: constructor; cbn; rewrite ?Hd, ?not_set_None; try solve [columns].
  all: try naive_solver.
Qed.

Lemma settle_keeps_columns i rules now i' :
  columns_ok i → settleStopped i rules now = Ok i' → columns_ok i'.
Proof.
  unfold settleStopped. intros Hok [Hal ->]%writePhase_Ok.
  apply change_keeps_columns; [done|done|..]; unfold settleStoppedChange;
    destruct (bool_decide_reflect (desiredState i = Some DesiredRunning)); simpl; intros; simplify_eq; done.
Qed.

Lemma need_keeps_columns i need now :
  columns_ok i → (need = Some MARK_STOPPED → phase i = STOPPING) → need ≠ Some RESTART →
  columns_ok (writeOperatorNeed i need now).
Proof.
  intros [] Hms Hrs. unfold writeOperatorNeed. case_bool_decide; [done|].
  constructor; cbn; try done. destruct need; columns.
Qed.

(** C39. The phase-scoped columns always agree with the phase. From a row that agrees, every
    sequence of writes (guarded phase moves, gang stops, stop requests, the restart rule of a
    settled stop, delayed restarts and the need writes of the step and stop rules) leaves a row
    that agrees: [unavailableSince] is set exactly while UNAVAILABLE and [unhealthySince] exactly
    while UNHEALTHY; a planned restart exists only while STOPPED with desired RUNNING; no fabric
    is held once STOPPED or FAILED; "mark as stopped" is asked only while STOPPING and "restart"
    only while STOPPED with desired RUNNING; the need's stamp exists exactly with the need; and
    the instance keeps a desired state. *)
Theorem lifecycle_columns_agree (rules : LaunchRules) (i i' : Instance) :
  columns_ok i → rtc (lifecycle_step rules) i i' → columns_ok i'.
Proof.
  intros Hok Hsteps. induction Hsteps as [|i i1 i2 Hstep _ IH]; [done|]. apply IH. clear IH.
  destruct Hstep as [i i' change now Hne [Hal ->]%writePhase_Ok|i i' reason now Hg|i i' now Hs
    |i reason now|i waiting now|i waiting now|i mark waiting now].
  - apply change_keeps_columns; [done|done|..]; intros; by subst.
  - apply writePhase_Ok in Hg as [Hal ->]. by apply change_keeps_columns.
  - by eapply settle_keeps_columns.
  - unfold requestStop. case_bool_decide as Hd; [|done].
    apply change_keeps_columns; [done| |done|done]. unfold instanceTransitionAllowed. rewrite Hd.
    apply bool_decide_eq_true. by destruct (phase i); cbn; set_solver.
  - unfold delayRestart. destruct (_ && _) eqn:Hc; [|done]. split_ands. bool_to_prop.
    destruct Hok. constructor; cbn; try done. 
  - unfold syncNeedsOperator. destruct (needsOperator i) as [[]|] eqn:Hn; try done.
    all: apply need_keeps_columns; [done|..]; by destruct waiting.
  - unfold settleStoppingNeed. case_bool_decide as Hp; [|done].
    apply need_keeps_columns; [done|done|]. by destruct mark, waiting.
Qed.

Definition demo_instance : Instance :=
  mkInstance READY 0 None (Some DesiredRunning) None None None None None None 0 0 (Some 0)
    (Some "fab") 0 None.
Definition demo_rules : LaunchRules := mkRules false 3 10.

(** A gang stop settled by the restart rule. *)
Lemma lifecycle_columns_agree_witness :
  ∃ i1 i2, gangStop demo_instance "health_failed" 5000 = Ok i1 ∧
    settleStopped i1 demo_rules 6000 = Ok i2 ∧ nextRestartAt i2 = Some 16000 ∧ columns_ok i2.
Proof.
  eexists _, _. split; [reflexivity|]. split; [reflexivity|]. split; [reflexivity|].
  eapply (lifecycle_columns_agree demo_rules demo_instance).
  - constructor; cbn; rewrite ?not_set_None; columns; eauto with wsmp.
  - eapply rtc_l; [eapply (step_gangStop _ _ _ "health_failed" 5000); reflexivity|].
    eapply rtc_l; [eapply (step_settle _ _ _ 6000); reflexivity|]. apply rtc_refl.
Defined.

(** ** The restart budget *)

(** A run that fails at [stop] (every claim released at once) and, when the restart rule plans a
    restart, is retaken at [restart]. *)
Fixpoint run_crashes (rules : LaunchRules) (reason : string) (times : list (Z * Z)) (i : Instance) :
    result Instance :=
  match times with
  | [] => Ok i
  | (stop, restart) :: times =>
      let! i := gangStop i reason stop in
      let! i := settleStopped i rules stop in
      if bool_decide (phase i = STOPPED)
      then let! i := writePhase i (ToStartingNew "restarting" None BudgetSpend) restart in
           run_crashes rules reason times i
      else Ok i
  end.

Section Budget.
Variables (rules : LaunchRules) (reason : string) (t0 : Z).
Hypothesis automatic : interactiveStart rules = false.
Hypothesis reason_ok : reason ∉ TERMINAL_START_ERRORS.

(** Serving, and the window [t0] open with [used] restarts spent. *)
Definition spending (used : Z) (i : Instance) : Prop :=
  phase i ∈ SERVING ∧ desiredState i = Some DesiredRunning ∧
  restartsInWindow i = used ∧ restartWindowStartedAt i = Some t0.

Definition stopping_of (i : Instance) (now : Z) : Instance :=
  apply_columns (instancePhaseData (ToStopping reason DesiredRunning) now) i.

Lemma gangStop_serving i now :
  phase i ∈ SERVING → desiredState i = Some DesiredRunning →
  gangStop i reason now = Ok (stopping_of i now).
Proof.
  intros Hp Hd. apply writePhase_Ok. rewrite Hd. split; [|done].
  unfold instanceTransitionAllowed. rewrite Hd. apply bool_decide_eq_true. cbn. set_solver.
Qed.

Definition window_start (i : Instance) (now : Z) : Z :=
  match restartWindowStartedAt i with
  | Some t => if now - t <? restartWindowMin rules * 60000 then t else now
  | None => now
  end.

Definition window_used (i : Instance) (now : Z) : Z :=
  match restartWindowStartedAt i with
  | Some t => if now - t <? restartWindowMin rules * 60000 then restartsInWindow i else 0
  | None => 0
  end.

(** The restart rule on a stopping instance that wants to run. *)
Lemma settle_rule i now :
  settleStopped (stopping_of i now) rules now =
  Ok (apply_columns (instancePhaseData
        (if restartBudget rules <=? window_used i now
         then ToFailed (Some "restart_budget_exhausted")
         else ToStopped (Some reason)
                (RestartAt (now + Z.min (RESTART_BACKOFF_BASE_MS * 2 ^ window_used i now)
                                        RESTART_BACKOFF_MAX_MS)
                   (window_used i now) (window_start i now))) now) (stopping_of i now)).
Proof.
  apply writePhase_Ok.
  assert (Hch : settleStoppedChange (stopping_of i now) rules now =
    if restartBudget rules <=? window_used i now
    then ToFailed (Some "restart_budget_exhausted")
    else ToStopped (Some reason)
           (RestartAt (now + Z.min (RESTART_BACKOFF_BASE_MS * 2 ^ window_used i now)
                                   RESTART_BACKOFF_MAX_MS)
              (window_used i now) (window_start i now))).
  { unfold settleStoppedChange, stopping_of.
    cbn [apply_columns instancePhaseData phaseReason desiredState restartWindowStartedAt restartsInWindow
         c_phaseReason c_desiredState c_restartWindowStartedAt c_restartsInWindow from_option id].
    rewrite bool_decide_true by done. cbn [negb]. rewrite bool_decide_false, automatic by done.
    unfold window_used, window_start. destruct (restartWindowStartedAt i) as [t|]; [|done].
    by destruct (_ <? _). }
  rewrite Hch. split; [|done]. by destruct (_ <=? _).
Qed.

(** One crash in the open window: a restart is spent, or the budget ends the run. *)
Lemma crash_in_window i used now restart times :
  spending used i → now < t0 + restartWindowMin rules * 60000 →
  if restartBudget rules <=? used
  then ∃ i', run_crashes rules reason ((now, restart) :: times) i = Ok i' ∧ phase i' = FAILED ∧
         phaseReason i' = Some "restart_budget_exhausted"
  else ∃ i', run_crashes rules reason ((now, restart) :: times) i = run_crashes rules reason times i' ∧
         spending (used + 1) i' ∧ phase i' = STARTING.
Proof.
  intros (Hp & Hd & Hu & Hw) Hnow. cbn [run_crashes].
  rewrite gangStop_serving by done. cbn [result_bind]. rewrite settle_rule. cbn [result_bind].
  unfold window_used, window_start. rewrite Hw, Hu.
  assert (now - t0 <? restartWindowMin rules * 60000 = true) as -> by (apply Z.ltb_lt; lia).
  destruct (Z.leb_spec (restartBudget rules) used).
  - eexists. by split.
  - rewrite bool_decide_true by done.
    set (i1 := apply_columns _ (stopping_of i now)).
    assert (writePhase i1 (ToStartingNew "restarting" None BudgetSpend) restart =
      Ok (apply_columns (instancePhaseData (ToStartingNew "restarting" None BudgetSpend) restart) i1)) as ->
      by (apply writePhase_Ok; done).
    eexists. split; [done|]. split; [|done]. split; [cbn; set_solver|]. done.
Qed.

Lemma crashes_in_window times : ∀ i used,
  spending used i → 0 ≤ used ≤ restartBudget rules →
  (∀ t, In t times → t.1 < t0 + restartWindowMin rules * 60000) →
  ∃ i', run_crashes rules reason times i = Ok i' ∧
    if used + Z.of_nat (length times) <=? restartBudget rules
    then spending (used + Z.of_nat (length times)) i'
    else phase i' = FAILED ∧ phaseReason i' = Some "restart_budget_exhausted".
Proof.
  induction times as [|[now restart] times IH]; intros i used Hs Hu Ht.
  - exists i. split; [done|]. rewrite Z.add_0_r.
    destruct (Z.leb_spec used (restartBudget rules)); [done|lia].
  - pose proof (crash_in_window i used now restart times Hs (Ht _ (or_introl eq_refl))) as Hc.
    destruct (Z.leb_spec (restartBudget rules) used).
    + destruct Hc as (i' & -> & Hf & Hr). exists i'. split; [done|].
      destruct (Z.leb_spec (used + Z.of_nat (length ((now, restart) :: times))) (restartBudget rules));
        [simpl in *; lia|done].
    + destruct Hc as (i' & -> & Hs' & _).
      destruct (IH i' (used + 1) Hs') as (i2 & -> & Hi2); [lia|intros; apply Ht; by right|].
      exists i2. split; [done|]. cbn [length]. rewrite Nat2Z.inj_succ.
      by replace (used + Z.succ (Z.of_nat (length times)))
        with (used + 1 + Z.of_nat (length times)) by lia.
Qed.
End Budget.

(** The restart budget holds. A run that was started with a fresh budget and then fails
    repeatedly for a reason that is not terminal, all within one restart window of its first
    failure, is restarted automatically as often as the budget allows and no more: up to
    [restartBudget] failures leave it starting again with that many restarts counted, and one
    more ends it FAILED with "restart_budget_exhausted". *)
Theorem restart_budget_bounds (rules : LaunchRules) (reason : string) (i : Instance)
    (t0 r0 : Z) (times : list (Z * Z)) :
  interactiveStart rules = false → reason ∉ TERMINAL_START_ERRORS → 0 ≤ restartBudget rules →
  phase i ∈ SERVING → desiredState i = Some DesiredRunning → restartWindowStartedAt i = None →
  (∀ t, In t times → t.1 < t0 + restartWindowMin rules * 60000) →
  let failures := Z.of_nat (length ((t0, r0) :: times)) in
  ∃ i', run_crashes rules reason ((t0, r0) :: times) i = Ok i' ∧
    if failures <=? restartBudget rules
    then phase i' ∈ SERVING ∧ restartsInWindow i' = failures
    else phase i' = FAILED ∧ phaseReason i' = Some "restart_budget_exhausted".
Proof.
  intros Ha Hr Hb Hp Hd Hnone Ht failures. cbn [run_crashes].
  rewrite (gangStop_serving rules) by done. cbn [result_bind]. rewrite settle_rule by done. cbn [result_bind].
  unfold window_used, window_start. rewrite Hnone.
  destruct (Z.leb_spec (restartBudget rules) 0).
  - eexists. split; [done|]. unfold failures. cbn [length].
    destruct (Z.leb_spec (Z.of_nat (S (length times))) (restartBudget rules)); [lia|done].
  - rewrite bool_decide_true by done. set (i1 := apply_columns _ (stopping_of reason i t0)).
    assert (writePhase i1 (ToStartingNew "restarting" None BudgetSpend) r0 =
      Ok (apply_columns (instancePhaseData (ToStartingNew "restarting" None BudgetSpend) r0) i1)) as ->
      by (apply writePhase_Ok; done). cbn [result_bind].
    destruct (crashes_in_window rules reason t0 Ha Hr times
      (apply_columns (instancePhaseData (ToStartingNew "restarting" None BudgetSpend) r0) i1) 1)
      as (i2 & -> & Hi2); [|lia|done|].
    { split; [cbn; set_solver|]. repeat split. }
    exists i2. split; [done|]. unfold failures. cbn [length].
    replace (Z.of_nat (S (length times))) with (1 + Z.of_nat (length times)) by lia.
    destruct (_ <=? _); [|done]. by destruct Hi2 as (? & _ & ? & _).
Qed.

(** Budget 2 in a window of ten minutes: the third failure ends it. *)
Lemma restart_budget_bounds_witness :
  ∃ i', run_crashes (mkRules false 2 10) "health_failed"
          [(1000, 12000); (20000, 41000); (60000, 0)] demo_instance = Ok i' ∧
    phase i' = FAILED ∧ phaseReason i' = Some "restart_budget_exhausted".
Proof.
  destruct (restart_budget_bounds (mkRules false 2 10) "health_failed" demo_instance 1000 12000
    [(20000, 41000); (60000, 0)]) as (i' & Hrun & Hi).
  - reflexivity.
  - apply (bool_decide_unpack _). vm_compute. done.
  - simpl. lia.
  - apply (bool_decide_unpack _). vm_compute. done.
  - reflexivity.
  - reflexivity.
  - intros t [<-|[<-|[]]]; reflexivity.
  - exists i'. split; [exact Hrun|exact Hi].
Defined.
