(* ===== verification/InstanceRun.v ===== *)
(** * Runs, steps and claims of an instance

    [src/packages/api/src/lib/instance-run.ts] (which run owns an instance's claims, what its
    steps prove about what was launched), [src/packages/api/src/lib/claim-release.ts] (the one
    write that releases a rank's claim) and the step half of
    [src/packages/api/src/lib/operator-need.ts]. Every operation runs in a transaction that
    holds the instance's fences, so it is a function on the tables. *)

From S2P Require Import Prelude TargetBreaker InstancePhase.

(** ** Tables *)

Inductive StepPhase := SP_PREPARE | SP_START | SP_AFTER_JOIN | SP_READINESS | SP_HEALTH | SP_STOP | SP_STATUS.
Inductive StepState := PENDING | RUNNING | AWAITING_OPERATOR | SUCCEEDED | STEP_FAILED | CANCELLED.
Inductive RequestState := REQ_PENDING | REQ_APPROVED | REQ_DECLINED | REQ_WITHDRAWN | REQ_EXPIRED | REQ_CLEARED.

#[export] Instance StepPhase_eq_dec : EqDecision StepPhase.
Proof. solve_decision. Defined.
#[export] Instance StepState_eq_dec : EqDecision StepState.
Proof. solve_decision. Defined.
#[export] Instance RequestState_eq_dec : EqDecision RequestState.
Proof. solve_decision. Defined.

(** An [instance_step] row. [s_intent] is the stored JSON, [s_operationId] its operation. *)
Record Step := mkStep {
  s_id : string;
  s_instanceId : string;
  s_nodeId : string;
  s_rank : Z;
  s_phase : StepPhase;
  s_sequence : Z;
  s_generation : Z;
  s_state : StepState;
  s_intent : string;
  s_operationId : option string;
  s_headAddr : option string;
  s_attempts : Z;
  s_deadline : option Z;
  s_errorCode : option string;
  s_operatorHold : option string;
  s_operatorAcceptedAt : option Z;
  s_mayHaveRun : bool;
  s_rankIdle : option bool;
}.

Record PrevClaim := mkPrev {
  prevResources : string; prevPort : Z; prevDistPort : option Z; prevGeneration : Z;
}.

Record Unproven := mkUnproven { up_at : Z; up_by : string; up_reason : string }.

(** An [instance_rank] row. *)
Record Rank := mkRankRow {
  r_id : string;
  r_instanceId : string;
  r_nodeId : option string;
  r_rank : Z;
  r_claim : ClaimState;
  r_claimChangedAt : Z;
  r_stoppedAt : option Z;
  r_stoppedThroughRun : Z;
  r_unproven : option Unproven;
  r_prev : option PrevClaim;
}.

(** The columns of [runtime_instance] the run rules read. *)
Record RunRow := mkRunRow {
  i_userId : string;
  i_runGeneration : Z;
  i_phase : InstancePhase;
  i_operationId : option string;
  i_needsOperator : option OperatorNeed;
  i_needsOperatorSince : option Z;
}.

Record ReleaseRequest := mkRequest {
  q_rankId : string;
  q_pendingRankId : option string;
  q_state : RequestState;
  q_expiresAt : Z;
  q_decidedAt : option Z;
}.

Record Tables := mkTables {
  instances : gmap string RunRow;
  rankRows : gmap string Rank;
  steps : list Step;
  requests : list ReleaseRequest;
}.

(** ** Order inside a run *)

Definition GENERATION_STRIDE : Z := 100.
Definition RUN_START_PHASES : list StepPhase := [SP_PREPARE; SP_START; SP_AFTER_JOIN; SP_READINESS].

Definition isRunStartPhase (p : StepPhase) : bool := bool_decide (p ∈ RUN_START_PHASES).

Definition slotOf (s : Step) : Z :=
  match s_phase s with
  | SP_STOP => if s_sequence s =? s_generation s * GENERATION_STRIDE then 0 else 50
  | SP_PREPARE => 10
  | SP_START => 20
  | SP_AFTER_JOIN => 30
  | SP_READINESS => 40
  | SP_HEALTH => 60
  | SP_STATUS => 70
  end.

Definition isLeadingStop (s : Step) : bool := bool_decide (s_phase s = SP_STOP) && (slotOf s =? 0).

Definition owned (s : Step) (run : Z) : bool := s_generation s =? run.

(** ** The current run *)

Definition unpreparedPhase (p : InstancePhase) : bool :=
  match p with STARTING | UNAVAILABLE => true | _ => false end.

Definition stepsOf (db : Tables) (instanceId : string) : list Step :=
  List.filter (λ s, bool_decide (s_instanceId s = instanceId)) (steps db).

Definition legacyRun (db : Tables) (instanceId : string) (row : RunRow) : Z :=
  let own := stepsOf db instanceId in
  let generations := map s_generation
    (List.filter (λ s, negb (bool_decide (s_phase s = SP_HEALTH))) own) in
  let latest := match generations with [] => 0 | g :: gs => foldl Z.max g gs end in
  let unprepared :=
    unpreparedPhase (i_phase row)
    && match i_operationId row with
       | None => false
       | Some op =>
           (length (List.filter (λ s, isRunStartPhase (s_phase s)
                                      && bool_decide (s_operationId s = Some op)) own) =? 0)%nat
       end in
  Z.max 1 (latest + (if unprepared then 1 else 0)).

Definition set_run (run : Z) (row : RunRow) : RunRow :=
  mkRunRow (i_userId row) run (i_phase row) (i_operationId row) (i_needsOperator row)
    (i_needsOperatorSince row).

Definition with_instance (db : Tables) (id : string) (row : RunRow) : Tables :=
  mkTables (<[id := row]> (instances db)) (rankRows db) (steps db) (requests db).

Definition resolveRun (instanceId : string) (db : Tables) : Z * Tables :=
  match instances db !! instanceId with
  | None => (0, db)
  | Some row =>
      if 0 <? i_runGeneration row then (i_runGeneration row, db)
      else
        let run := legacyRun db instanceId row in
        (run, if i_runGeneration row =? 0 then with_instance db instanceId (set_run run row) else db)
  end.

Definition peekRun (instanceId : string) (db : Tables) : Z :=
  match instances db !! instanceId with
  | None => 0
  | Some row => if 0 <? i_runGeneration row then i_runGeneration row else legacyRun db instanceId row
  end.

(** The next run begins; updating a missing instance raises. *)
Definition beginRun (instanceId : string) (db : Tables) : result (Z * Tables) :=
  let '(current, db) := resolveRun instanceId db in
  let run := current + 1 in
  match instances db !! instanceId with
  | None => Throw (PlainError "P2025")
  | Some row => Ok (run, with_instance db instanceId (set_run run row))
  end.

Definition fresh (db : Tables) (s : Step) (run : Z) : bool :=
  let slot := slotOf s in
  if 50 <=? slot then true
  else forallb (λ launch, slotOf launch <=? slot)
         (List.filter (λ l, (s_rank l =? s_rank s) && (s_generation l =? run)
                            && isRunStartPhase (s_phase l) && (0 <? s_attempts l))
            (stepsOf db (s_instanceId s))).

(** ** What a step's answer proves *)

Definition RUNTIME_JOB_PRE_ADMISSION_ERRORS : list string :=
  ["execution_mechanism_unavailable"; "bad_job"; "interactive_unsupported";
   "operator_terminals_disabled"; "trust_relay"; "definition_missing"; "definition_frozen";
   "local_config_unavailable"; "session_disconnected"].

Definition notRefusedBeforeAdmissionWhere (s : Step) : bool :=
  s_mayHaveRun s
  || match s_errorCode s with
     | None => true
     | Some code => negb (bool_decide (code ∈ RUNTIME_JOB_PRE_ADMISSION_ERRORS))
     end.

Definition refusedBeforeAdmission (s : Step) : bool :=
  negb (s_mayHaveRun s)
  && bool_decide (default EmptyString (s_errorCode s) ∈ RUNTIME_JOB_PRE_ADMISSION_ERRORS).

(** [None]: the flag is left as it is. *)
Definition mayHaveRunAfterRequeue (attempts : Z) : option bool :=
  if 0 <? attempts then Some true else None.

Definition PHYSICAL_LAUNCH_minAttempts : Z := 1.

Definition launchedAfterWhere (instanceId : string) (rank after : Z) (s : Step) : bool :=
  bool_decide (s_instanceId s = instanceId) && (s_rank s =? rank) && (after <? s_generation s)
  && isRunStartPhase (s_phase s) && (PHYSICAL_LAUNCH_minAttempts <=? s_attempts s)
  && notRefusedBeforeAdmissionWhere s.

Inductive LaunchesEnded := AllEnded | ThroughRun (run : Z).

Definition launchesEnded (r : Rank) : LaunchesEnded :=
  if bool_decide (r_claim r = RELEASED) && bool_decide (r_unproven r = None)
  then AllEnded else ThroughRun (r_stoppedThroughRun r).

(** [findUnique({ where: { instanceId_rank } })] *)
Definition rankOf (db : Tables) (instanceId : string) (rank : Z) : option Rank :=
  List.find (λ r, bool_decide (r_instanceId r = instanceId) && (r_rank r =? rank))
    (map snd (map_to_list (rankRows db))).

Definition liveRunsAfter (db : Tables) (instanceId : string) (rank : Z) : option Z :=
  match rankOf db instanceId rank with
  | None => Some 0
  | Some row => match launchesEnded row with AllEnded => None | ThroughRun run => Some run end
  end.

Definition unresolvedStartsWhere (instanceId : string) (rank after : Z) (before : option Z)
    (s : Step) : bool :=
  bool_decide (s_instanceId s = instanceId) && (s_rank s =? rank) && (after <? s_generation s)
  && match before with None => true | Some b => s_generation s <? b end
  && isRunStartPhase (s_phase s)
  && (bool_decide (s_state s = RUNNING) || bool_decide (s_state s = AWAITING_OPERATOR)
      || (bool_decide (s_state s = PENDING) && (0 <? s_attempts s))).

Definition startsUnresolved (db : Tables) (instanceId : string) (rank : Z) (before : option Z) : bool :=
  match liveRunsAfter db instanceId rank with
  | None => false
  | Some after =>
      (0 <? length (List.filter (unresolvedStartsWhere instanceId rank after before) (steps db)))%nat
  end.

(** [orderBy: [{ generation: "desc" }, { sequence: "desc" }]] *)
Definition newest_first (a b : Step) : Z :=
  num_or (s_generation b - s_generation a) (s_sequence b - s_sequence a).

Definition physicalLaunch (db : Tables) (instanceId : string) (rank : Z) :
    option (string * option string) :=
  let row := rankOf db instanceId rank in
  if match row with
     | Some r => match launchesEnded r with AllEnded => true | ThroughRun _ => false end
     | None => false
     end
  then None
  else
    let after := match row with Some r => r_stoppedThroughRun r | None => 0 end in
    (λ latest, (s_intent latest, s_headAddr latest)) <$>
      head (sort_by newest_first (List.filter (launchedAfterWhere instanceId rank after) (steps db))).

Definition set_stoppedThrough (run : Z) (r : Rank) : Rank :=
  mkRankRow (r_id r) (r_instanceId r) (r_nodeId r) (r_rank r) (r_claim r) (r_claimChangedAt r)
    (r_stoppedAt r) run (r_unproven r) (r_prev r).

Definition recordStoppedThrough (instanceId : string) (rank throughRun : Z) (db : Tables) : Tables :=
  mkTables (instances db)
    ((λ r, if bool_decide (r_instanceId r = instanceId) && (r_rank r =? rank)
              && (r_stoppedThroughRun r <? throughRun)
           then set_stoppedThrough throughRun r else r) <$> rankRows db)
    (steps db) (requests db).

(** The one-query form: the joined rows in [ORDER BY] order, the first of each
    (instance, rank) kept by [DISTINCT ON]. *)
Record RankPhysicalLaunch := mkLaunch {
  pl_instanceId : string; pl_rank : Z; pl_nodeId : string; pl_intent : string;
}.

Definition sql_launch_row (db : Tables) (userId : string) (nodeIds : list string) (s : Step) (r : Rank) :
    bool :=
  bool_decide (r_instanceId r = s_instanceId s) && (r_rank r =? s_rank s)
  && match instances db !! s_instanceId s with
     | Some i => bool_decide (i_userId i = userId)
     | None => false
     end
  && match r_nodeId r with Some n => bool_decide (n ∈ nodeIds) | None => false end
  && negb (bool_decide (r_claim r = RELEASED) && bool_decide (r_unproven r = None))
  && (r_stoppedThroughRun r <? s_generation s)
  && bool_decide (s_phase s ∈ RUN_START_PHASES)
  && (PHYSICAL_LAUNCH_minAttempts <=? s_attempts s)
  && (s_mayHaveRun s || bool_decide (s_errorCode s = None)
      || negb (match s_errorCode s with
               | Some c => bool_decide (c ∈ RUNTIME_JOB_PRE_ADMISSION_ERRORS)
               | None => false
               end)).

(** [DISTINCT ON] keeps the first row of each key. *)
Fixpoint distinct_on {A K} `{EqDecision K} (key : A → K) (seen : list K) (l : list A) : list A :=
  match l with
  | [] => []
  | a :: l => if bool_decide (key a ∈ seen) then distinct_on key seen l
              else a :: distinct_on key (key a :: seen) l
  end.

Definition launch_key (sr : Step * Rank) : string * Z := (s_instanceId sr.1, s_rank sr.1).

Definition launch_order `{Collation} (a b : Step * Rank) : Z :=
  num_or (localeCompare (s_instanceId a.1) (s_instanceId b.1))
    (num_or (s_rank a.1 - s_rank b.1) (newest_first a.1 b.1)).

Definition physicalLaunchIntents `{Collation} (db : Tables) (userId : string) (nodeIds : list string) :
    list RankPhysicalLaunch :=
  match nodeIds with
  | [] => []
  | _ =>
      let joined := List.filter (λ sr, sql_launch_row db userId nodeIds sr.1 sr.2)
                      (list_prod (steps db) (map snd (map_to_list (rankRows db)))) in
      map (λ sr, mkLaunch (s_instanceId sr.1) (s_rank sr.1)
                   (default EmptyString (r_nodeId sr.2)) (s_intent sr.1))
        (distinct_on launch_key [] (sort_by launch_order joined))
  end.

(** ** Releasing a claim *)

Definition RELEASE_REQUEST_TTL_MS : Z := 24 * 3600000.

Inductive ClaimRelease :=
| ByResult (stepId : string)
| ByObservation (stepId : string) (rankIdle : bool)
| ByNeverRan
| ByUnproven (by_ reason : string).

Inductive Modality := MResult | MObservation (observedIdle : bool).

Definition stepById (db : Tables) (id : string) : option Step :=
  List.find (λ s, bool_decide (s_id s = id)) (steps db).

(** The checks of a recorded result, beyond the binding to the claim. *)
Definition resultAccepted (db : Tables) (rank : Rank) (step : Step) : bool :=
  (bool_decide (s_phase step = SP_STOP) || bool_decide (s_phase step = SP_STATUS))
  && bool_decide (s_state step = SUCCEEDED)
  && negb (isLeadingStop step && negb (bool_decide (r_claim rank = HELD_UNKNOWN)))
  && (if bool_decide (s_phase step = SP_STATUS) && negb (bool_decide (r_claim rank = HELD_UNKNOWN))
      then match instances db !! r_instanceId rank with
           | Some i => bool_decide (i_phase i = STOPPING)
           | None => false
           end
      else true).

Definition proofHolds (rank : Rank) (stepId : string) (modality : Modality) (db : Tables) :
    bool * Tables :=
  match stepById db stepId with
  | None => (false, db)
  | Some step =>
      if negb (bool_decide (s_instanceId step = r_instanceId rank) && (s_rank step =? r_rank rank)
               && bool_decide (Some (s_nodeId step) = r_nodeId rank)) then (false, db)
      else if match modality with
              | MResult => negb (resultAccepted db rank step)
              | MObservation _ => false
              end then (false, db)
      else if negb (bool_decide (match modality with
                                 | MResult => s_rankIdle step
                                 | MObservation idle => Some idle
                                 end = Some true)) then (false, db)
      else
        let '(run, db) := resolveRun (r_instanceId rank) db in
        (owned step run && fresh db step run, db)
  end.

Definition neverRan (db : Tables) (rank : Rank) : bool :=
  (length (List.filter (launchedAfterWhere (r_instanceId rank) (r_rank rank)
                          (r_stoppedThroughRun rank)) (steps db)) =? 0)%nat.

Definition claim_live (c : ClaimState) : bool := negb (bool_decide (c = RELEASED)).

(** The evidence of a release that is not a person's. *)
Definition proven (rank : Rank) (release : ClaimRelease) (db : Tables) : bool * Tables :=
  match release with
  | ByResult stepId => proofHolds rank stepId MResult db
  | ByObservation stepId idle => proofHolds rank stepId (MObservation idle) db
  | ByNeverRan => (neverRan db rank, db)
  | ByUnproven _ _ => (false, db)
  end.

Definition released_row (now : Z) (unproven : option Unproven) (r : Rank) : Rank :=
  mkRankRow (r_id r) (r_instanceId r) (r_nodeId r) (r_rank r) RELEASED now (Some now)
    (r_stoppedThroughRun r) (match unproven with Some u => Some u | None => r_unproven r end) None.

Definition decide_request (state : RequestState) (now : Z) (q : ReleaseRequest) : ReleaseRequest :=
  mkRequest (q_rankId q) None state (q_expiresAt q) (Some now).

Definition pending (q : ReleaseRequest) : bool := bool_decide (q_state q = REQ_PENDING).

Definition update_requests (cond : ReleaseRequest → bool) (data : ReleaseRequest → ReleaseRequest)
    (db : Tables) : Z * Tables :=
  (Z.of_nat (length (List.filter cond (requests db))),
   mkTables (instances db) (rankRows db) (steps db)
     (map (λ q, if cond q then data q else q) (requests db))).

Definition clearReleaseRequests (rankIds : list string) (now : Z) (db : Tables) : Tables :=
  match rankIds with
  | [] => db
  | _ => (update_requests (λ q, match q_pendingRankId q with
                                | Some r => bool_decide (r ∈ rankIds)
                                | None => false
                                end && pending q) (decide_request REQ_CLEARED now) db).2
  end.

Definition rank_where (cond : Rank → bool) (db : Tables) (rankId : string) : bool :=
  match rankRows db !! rankId with Some r => cond r | None => false end.

Definition clearInstanceReleaseRequests (instanceId : string) (now : Z) (db : Tables) : Tables :=
  (update_requests (λ q, pending q
     && rank_where (λ r, bool_decide (r_instanceId r = instanceId)) db (q_rankId q))
     (decide_request REQ_CLEARED now) db).2.

Definition sweepReleaseRequests (now : Z) (db : Tables) : Z * Tables :=
  let '(expired, db) := update_requests (λ q, pending q && (q_expiresAt q <=? now))
                          (decide_request REQ_EXPIRED now) db in
  let '(cleared, db) := update_requests (λ q, pending q
       && rank_where (λ r, negb (bool_decide (r_claim r = HELD_UNKNOWN))) db (q_rankId q))
                          (decide_request REQ_CLEARED now) db in
  (expired + cleared, db).

(** The guarded write every release ends in, and the requests it clears. *)
Definition writeRelease (rankId : string) (now : Z) (unproven : option Unproven) (db : Tables) :
    bool * Tables :=
  match rankRows db !! rankId with
  | None => (false, db)
  | Some r =>
      if match unproven with
         | Some _ => bool_decide (r_claim r = HELD_UNKNOWN)
         | None => claim_live (r_claim r)
         end
      then (true, clearReleaseRequests [rankId] now
                    (mkTables (instances db) (<[rankId := released_row now unproven r]> (rankRows db))
                       (steps db) (requests db)))
      else (false, db)
  end.

Definition releaseClaim (rankId : string) (now : Z) (release : ClaimRelease) (db : Tables) :
    bool * Tables :=
  match release with
  | ByUnproven by_ reason => writeRelease rankId now (Some (mkUnproven now by_ reason)) db
  | _ =>
      match rankRows db !! rankId with
      | None => (false, db)
      | Some rank =>
          if negb (claim_live (r_claim rank)) then (false, db)
          else
            let '(ok, db) := proven rank release db in
            if ok then writeRelease rankId now None db else (false, db)
      end
  end.

(** ** Steps that wait for a person *)

Definition isHeldStep (s : Step) : bool :=
  bool_decide (s_state s = PENDING) && negb (bool_decide (s_operatorHold s = None)).

Definition overdueAcceptedRunWhere (now : Z) (s : Step) : bool :=
  bool_decide (s_state s = RUNNING) && negb (bool_decide (s_operatorAcceptedAt s = None))
  && match s_deadline s with Some d => d <=? now | None => false end.

Definition stepNeedsPersonWhere (now : Z) (run : option Z) (s : Step) : bool :=
  let waiting := bool_decide (s_state s = AWAITING_OPERATOR)
                 || (bool_decide (s_state s = PENDING) && negb (bool_decide (s_operatorHold s = None))) in
  match run with
  | None => waiting
  | Some run => (s_generation s =? run) && waiting
  end || overdueAcceptedRunWhere now s.

Definition stepNeedsPerson (s : Step) (now : Z) (run : option Z) : bool :=
  let overdue := bool_decide (s_state s = RUNNING) && negb (bool_decide (s_operatorAcceptedAt s = None))
                 && negb (bool_decide (s_deadline s = None)) && (default 0 (s_deadline s) <=? now) in
  if overdue then true
  else if match run with Some run => negb (s_generation s =? run) | None => false end then false
  else bool_decide (s_state s = AWAITING_OPERATOR) || isHeldStep s.

Definition operatorStepWaiting (instanceId : string) (now : Z) (db : Tables) : bool * Tables :=
  let '(run, db) := resolveRun instanceId db in
  ((0 <? length (List.filter (stepNeedsPersonWhere now (Some run)) (stepsOf db instanceId)))%nat, db).

Definition set_row_need (need : option OperatorNeed) (since : option Z) (row : RunRow) : RunRow :=
  mkRunRow (i_userId row) (i_runGeneration row) (i_phase row) (i_operationId row) need since.

(** [writeOperatorNeed] with the stored need given. *)
Definition writeNeed (instanceId : string) (need stored : option OperatorNeed) (now : Z) (db : Tables) :
    Tables :=
  if bool_decide (stored = need) then db
  else match instances db !! instanceId with
       | None => db
       | Some row => with_instance db instanceId
                       (set_row_need need (match need with Some _ => Some now | None => None end) row)
       end.

(** [syncNeedsOperator] on the tables. *)
Definition syncNeeds (instanceId : string) (now : Z) (db : Tables) : Tables :=
  match instances db !! instanceId with
  | None => db
  | Some row =>
      match i_needsOperator row with
      | Some MARK_STOPPED | Some RESTART => db
      | stored =>
          let '(waiting, db) := operatorStepWaiting instanceId now db in
          writeNeed instanceId (stepRuleNeed stored waiting) stored now db
      end
  end.

Definition end_step (state : StepState) (errorCode : option (option string)) (s : Step) : Step :=
  mkStep (s_id s) (s_instanceId s) (s_nodeId s) (s_rank s) (s_phase s) (s_sequence s) (s_generation s)
    state (s_intent s) (s_operationId s) (s_headAddr s) (s_attempts s) (s_deadline s)
    (default (s_errorCode s) errorCode) None (s_operatorAcceptedAt s) (s_mayHaveRun s) (s_rankIdle s).

Inductive StepEndData := EndCancelled | EndFailed (errorCode : option string).

Definition apply_end (e : StepEndData) : Step → Step :=
  match e with
  | EndCancelled => end_step CANCELLED None
  | EndFailed code => end_step STEP_FAILED (match code with Some c => Some (Some c) | None => None end)
  end.

(** [callerNeed]: the caller recomputes the need itself. *)
Definition endSteps (instanceId : string) (cond : Step → bool) (data : StepEndData) (now : Z)
    (callerNeed : bool) (db : Tables) : Z * Tables :=
  let matches s := bool_decide (s_instanceId s = instanceId) && cond s in
  let changed := Z.of_nat (length (List.filter matches (steps db))) in
  let db := mkTables (instances db) (rankRows db)
              (map (λ s, if matches s then apply_end data s else s) (steps db)) (requests db) in
  (changed, if (0 <? changed) && negb callerNeed then syncNeeds instanceId now db else db).

Definition endedNeverSentOr (attempts : Z) (code : string) : StepEndData :=
  if attempts =? 0 then EndCancelled else EndFailed (Some code).

(** ** Runs only grow *)

Lemma resolve_peek id db : (resolveRun id db).1 = peekRun id db.
Proof.
  unfold resolveRun, peekRun. destruct (instances db !! id) as [row|]; [|done].
  by destruct (0 <? i_runGeneration row).
Qed.

Lemma legacyRun_positive db id row : 1 ≤ legacyRun db id row.
Proof. unfold legacyRun. lia. Qed.

(** Generations are never negative; the column has a CHECK. *)
Definition runs_ok (db : Tables) : Prop := ∀ id row, instances db !! id = Some row → 0 ≤ i_runGeneration row.

(** After a read the run is stored, whatever was read. *)
Lemma resolve_stored id db row :
  runs_ok db → instances db !! id = Some row →
  instances (resolveRun id db).2 !! id = Some (set_run (peekRun id db) row) ∧
  0 < peekRun id db ∧
  rankRows (resolveRun id db).2 = rankRows db ∧ steps (resolveRun id db).2 = steps db ∧
  requests (resolveRun id db).2 = requests db.
Proof.
  intros Hok Hrow. pose proof (Hok _ _ Hrow). pose proof (legacyRun_positive db id row).
  unfold resolveRun, peekRun. rewrite Hrow.
  destruct (Z.ltb_spec 0 (i_runGeneration row)); cbn [fst snd].
  - split_and!; try done. rewrite Hrow. by destruct row.
  - destruct (Z.eqb_spec (i_runGeneration row) 0); [|lia].
    split_and!; try done; [apply lookup_insert_eq|lia].
Qed.

Lemma peek_positive id db row :
  instances db !! id = Some row → 0 < i_runGeneration row → peekRun id db = i_runGeneration row.
Proof.
  intros Hrow Hpos. unfold peekRun. rewrite Hrow.
  by destruct (Z.ltb_spec 0 (i_runGeneration row)); [|lia].
Qed.

Lemma beginRun_stored id db row :
  runs_ok db → instances db !! id = Some row →
  ∃ db', beginRun id db = Ok (peekRun id db + 1, db') ∧
    instances db' !! id = Some (set_run (peekRun id db + 1) row) ∧
    rankRows db' = rankRows db ∧ steps db' = steps db ∧ 0 < peekRun id db.
Proof.
  intros Hok Hrow. destruct (resolve_stored id db row Hok Hrow) as (Hi & Hpos & Hr & Hs & Hq).
  unfold beginRun. pose proof (resolve_peek id db) as Hp.
  destruct (resolveRun id db) as [run db1]. cbn [fst snd] in *. subst run. rewrite Hi.
  eexists. split; [done|]. split_and!; try done. apply lookup_insert_eq.
Qed.

Lemma resolve_ok id db : runs_ok db → runs_ok (resolveRun id db).2.
Proof.
  intros Hok i row'. unfold resolveRun. destruct (instances db !! id) as [row|] eqn:Hrow; [|apply Hok].
  destruct (0 <? _); [apply Hok|]. destruct (_ =? 0); [|apply Hok]. cbn.
  intros [[<- <-]|[_ Hi]]%lookup_insert_Some; [|by eapply Hok].
  cbn. pose proof (legacyRun_positive db id row). lia.
Qed.

Lemma beginRun_ok id db run db' : runs_ok db → beginRun id db = Ok (run, db') → runs_ok db'.
Proof.
  intros Hok Hb. pose proof (resolve_ok id db Hok) as Hok1. unfold beginRun in Hb.
  pose proof (resolve_peek id db) as Hp. destruct (resolveRun id db) as [cur db1]. cbn in *.
  destruct (instances db1 !! id) as [row|] eqn:Hrow; [|done]. injection Hb as <- <-.
  assert (0 ≤ cur).
  { rewrite Hp. unfold peekRun. destruct (instances db !! id) as [row0|] eqn:Hr0; [|done].
    pose proof (Hok _ _ Hr0). pose proof (legacyRun_positive db id row0).
    destruct (0 <? _); lia. }
  intros i row'. cbn. intros [[<- <-]|[_ Hi]]%lookup_insert_Some; [cbn; lia|by eapply Hok1].
Qed.

(** Runs are stable and only grow. Reading the run of an instance stores what it read and
    changes nothing else, so every later read agrees, whatever steps are added meanwhile; the
    read-only form agrees with it. A restart begins the next run: the stored run is exactly one
    more than every read before it, no step, rank or claim changes, and a missing instance
    raises. *)
Theorem runs_increase (db : Tables) (id : string) (row : RunRow) (more : list Step) :
  runs_ok db → instances db !! id = Some row →
  let read := resolveRun id db in
  let later := mkTables (instances read.2) (rankRows read.2) (steps read.2 ++ more) (requests read.2) in
  read.1 = peekRun id db ∧ 1 ≤ read.1 ∧
  resolveRun id later = (read.1, later) ∧ peekRun id later = read.1 ∧
  rankRows read.2 = rankRows db ∧ steps read.2 = steps db ∧
  ∃ db', beginRun id later = Ok (read.1 + 1, db') ∧ peekRun id db' = read.1 + 1 ∧
    rankRows db' = rankRows db ∧ steps db' = steps db ++ more.
Proof.
  intros Hok Hrow read later.
  destruct (resolve_stored id db row Hok Hrow) as (Hi & Hpos & Hr & Hs & Hq).
  assert (Hrun : read.1 = peekRun id db) by apply resolve_peek.
  assert (Hl : instances later !! id = Some (set_run (peekRun id db) row)) by done.
  assert (Hp : peekRun id later = read.1) by (rewrite Hrun; by apply (peek_positive _ _ _ Hl)).
  assert (Hres : resolveRun id later = (read.1, later)).
  { unfold resolveRun. rewrite Hl. cbn [i_runGeneration set_run].
    destruct (Z.ltb_spec 0 (peekRun id db)); [by rewrite Hrun|lia]. }
  split_and!; try done; [lia|].
  unfold beginRun. rewrite Hres, Hl. eexists. split; [done|]. split_and!.
  - rewrite Hrun. apply (peek_positive _ _ (set_run (peekRun id db + 1) row)); [|cbn; lia].
    apply lookup_insert_eq.
  - cbn. apply Hr.
  - cbn. f_equal. apply Hs.
Qed.

(** A rank of run 3, a step of each run, and a marked-stopped claim with a pending request. *)
Definition demo_step (id : string) (ph : StepPhase) (seq gen : Z) (st : StepState) (attempts : Z) : Step :=
  mkStep id "i1" "n1" 0 ph seq gen st ("intent:" +:+ id) None None attempts None None None None
    false (Some true).
Definition demo_tables : Tables :=
  mkTables {[ "i1" := mkRunRow "u1" 3 STOPPING None None None ]}
    {[ "r1" := mkRankRow "r1" "i1" (Some "n1") 0 HELD 0 None 0 None None ]}
    [demo_step "s1" SP_START 101 1 SUCCEEDED 1; demo_step "s2" SP_STOP 250 2 SUCCEEDED 1;
     demo_step "s3" SP_START 301 3 SUCCEEDED 1; demo_step "s4" SP_STOP 350 3 SUCCEEDED 1]
    [].

Lemma runs_increase_witness :
  (resolveRun "i1" demo_tables).1 = 3 ∧
  ∃ db', beginRun "i1" demo_tables = Ok (4, db').
Proof.
  destruct (runs_increase demo_tables "i1" (mkRunRow "u1" 3 STOPPING None None None) [])
    as (_ & _ & _ & _ & _ & _ & db' & Hb & _).
  - intros id row. unfold demo_tables. cbn. intros [_ <-]%lookup_singleton_Some. cbn. lia.
  - reflexivity.
  - split; [reflexivity|]. exists db'. exact Hb.
Defined.

(** ** What releases a claim *)

(** Nothing of [run] was launched on the rank after the observed point. *)
Definition nothing_launched_after (db : Tables) (s : Step) (run : Z) : Prop :=
  50 ≤ slotOf s ∨
  ∀ l, In l (steps db) → s_instanceId l = s_instanceId s → s_rank l = s_rank s →
       s_generation l = run → s_phase l ∈ RUN_START_PHASES → 0 < s_attempts l → slotOf l ≤ slotOf s.

Lemma fresh_spec db s run : fresh db s run = true ↔ nothing_launched_after db s run.
Proof.
  unfold fresh, nothing_launched_after. destruct (Z.leb_spec 50 (slotOf s)); [split; [by left|done]|].
  rewrite forallb_forall. split.
  - intros Hall. right. intros l Hin Hi Hr Hg Hp Ha. apply Z.leb_le, Hall.
    apply filter_In. split; [apply filter_In; by rewrite bool_decide_true|].
    unfold isRunStartPhase. rewrite bool_decide_true by done.
    rewrite Hr, Hg, !Z.eqb_refl. cbn. by apply Z.ltb_lt.
  - intros [?|Hall] l [[Hin Hi]%filter_In Hc]%filter_In; [lia|].
    unfold isRunStartPhase in Hc. split_ands. bool_to_prop. apply Z.leb_le. by apply Hall.
Qed.

(** A node's answer that counts: bound to the claim, of the current run, with the node idle for
    the rank and nothing of the run launched after it. *)
Definition node_proof (db : Tables) (r : Rank) (s : Step) (idle : option bool) : Prop :=
  s_instanceId s = r_instanceId r ∧ s_rank s = r_rank r ∧ Some (s_nodeId s) = r_nodeId r ∧
  idle = Some true ∧ s_generation s = peekRun (r_instanceId r) db ∧
  nothing_launched_after db s (peekRun (r_instanceId r) db).

(** The evidence each kind of release needs. *)
Definition evidence (db : Tables) (r : Rank) (release : ClaimRelease) : Prop :=
  match release with
  | ByResult id => ∃ s, stepById db id = Some s ∧ resultAccepted db r s = true ∧ node_proof db r s (s_rankIdle s)
  | ByObservation id idle => ∃ s, stepById db id = Some s ∧ node_proof db r s (Some idle)
  | ByNeverRan => ∀ s, In s (steps db) → s_instanceId s = r_instanceId r → s_rank s = r_rank r →
                    r_stoppedThroughRun r < s_generation s → s_phase s ∈ RUN_START_PHASES →
                    1 ≤ s_attempts s → refusedBeforeAdmission s = true
  | ByUnproven _ _ => r_claim r = HELD_UNKNOWN
  end.

(** The SQL filter is the complement of the predicate. *)
Lemma refused_parity s : notRefusedBeforeAdmissionWhere s = negb (refusedBeforeAdmission s).
Proof.
  unfold notRefusedBeforeAdmissionWhere, refusedBeforeAdmission.
  destruct (s_mayHaveRun s); simpl; [done|]. by destruct (s_errorCode s) as [c|].
Qed.

Lemma launchedAfter_spec i k a s :
  launchedAfterWhere i k a s = true ↔
  s_instanceId s = i ∧ s_rank s = k ∧ a < s_generation s ∧ s_phase s ∈ RUN_START_PHASES ∧
  1 ≤ s_attempts s ∧ refusedBeforeAdmission s = false.
Proof.
  unfold launchedAfterWhere, isRunStartPhase, PHYSICAL_LAUNCH_minAttempts. rewrite refused_parity.
  rewrite !andb_true_iff, !bool_decide_eq_true, Z.eqb_eq, Z.ltb_lt, Z.leb_le, negb_true_iff. tauto.
Qed.

Lemma neverRan_spec db r : neverRan db r = true ↔ evidence db r ByNeverRan.
Proof.
  unfold neverRan, evidence. rewrite Nat.eqb_eq, length_zero_iff_nil. split.
  - intros Hnil s Hin Hi Hk Hg Hp Ha. destruct (refusedBeforeAdmission s) eqn:Hr; [done|].
    exfalso. apply (in_nil (a:=s)). rewrite <- Hnil. apply filter_In. split; [done|].
    by apply launchedAfter_spec.
  - intros Hall. destruct (List.filter _ _) as [|s l] eqn:Hf; [done|].
    assert (Hin : In s (s :: l)) by by left. rewrite <- Hf in Hin.
    apply filter_In in Hin as [Hin (Hi & Hk & Hg & Hp & Ha & Hr)%launchedAfter_spec].
    rewrite Hall in Hr by done. done.
Qed.

Lemma proofHolds_spec db r id m :
  runs_ok db → is_Some (instances db !! r_instanceId r) →
  (proofHolds r id m db).1 = true ↔
  ∃ s, stepById db id = Some s ∧
    match m with
    | MResult => resultAccepted db r s = true ∧ node_proof db r s (s_rankIdle s)
    | MObservation idle => node_proof db r s (Some idle)
    end.
Proof.
  intros Hok [row Hrow]. destruct (resolve_stored _ db row Hok Hrow) as (_ & _ & _ & Hst & _).
  pose proof (resolve_peek (r_instanceId r) db) as Hpk.
  unfold proofHolds, node_proof. destruct (stepById db id) as [s|]; [|split; [done|by intros (? & ? & _)]].
  assert (Hfr : ∀ run, fresh (resolveRun (r_instanceId r) db).2 s run = fresh db s run)
    by (intros; unfold fresh, stepsOf; by rewrite Hst).
  destruct (resolveRun (r_instanceId r) db) as [run db1]. cbn [fst snd] in *. subst run.
  pose proof (fresh_spec db s (peekRun (r_instanceId r) db)) as Hfs. unfold owned.
  destruct (bool_decide_reflect (s_instanceId s = r_instanceId r)) as [Hi|Hi],
    (Z.eqb_spec (s_rank s) (r_rank r)) as [Hk|Hk],
    (bool_decide_reflect (Some (s_nodeId s) = r_nodeId r)) as [Hn|Hn]; cbn [andb negb fst].
  all: try (split; [done|]; intros (s' & Hs' & Hm); injection Hs' as <-; exfalso;
    destruct m; [destruct Hm as [_ Hm]|]; by destruct Hm as (? & ? & ? & _)).
  destruct m as [|idle].
  - destruct (resultAccepted db r s) eqn:Hra; cbn [negb fst].
    2: { split; [done|]. intros (s' & Hs' & Ha & _). injection Hs' as <-. congruence. }
    destruct (bool_decide_reflect (s_rankIdle s = Some true)); cbn [negb fst].
    2: { split; [done|]. intros (s' & Hs' & _ & _ & _ & _ & ? & _). by injection Hs' as <-. }
    rewrite Hfr, andb_true_iff, Z.eqb_eq, Hfs. split.
    + intros [? ?]. by exists s.
    + intros (s' & Hs' & _ & _ & _ & _ & _ & ?). by injection Hs' as <-.
  - destruct (bool_decide_reflect (Some idle = Some true)); cbn [negb fst].
    2: { split; [done|]. by intros (s' & Hs' & _ & _ & _ & ? & _). }
    rewrite Hfr, andb_true_iff, Z.eqb_eq, Hfs. split.
    + intros [? ?]. by exists s.
    + intros (s' & Hs' & _ & _ & _ & _ & ?). by injection Hs' as <-.
Qed.

Lemma proven_spec db r release :
  runs_ok db → is_Some (instances db !! r_instanceId r) →
  (∀ b c, release ≠ ByUnproven b c) →
  (proven r release db).1 = true ↔ evidence db r release.
Proof.
  intros Hok Hi Hne. destruct release as [id|id idle| |b c]; cbn [proven evidence].
  - rewrite proofHolds_spec by done. done.
  - rewrite proofHolds_spec by done. done.
  - apply neverRan_spec.
  - by destruct (Hne b c).
Qed.

(** Gathering the evidence writes at most the run it resolved. *)
Lemma proven_tables r release db :
  (proven r release db).2 = db ∨ (proven r release db).2 = (resolveRun (r_instanceId r) db).2.
Proof.
  destruct release as [id|id idle| |b c]; cbn; auto.
  all: unfold proofHolds; destruct (stepById db id) as [s|]; auto.
  all: repeat (match goal with |- context [if ?b then _ else _] => destruct b end; auto).
  all: destruct (resolveRun _ _); auto.
Qed.

Definition with_rank (db : Tables) (id : string) (r : Rank) : Tables :=
  mkTables (instances db) (<[id := r]> (rankRows db)) (steps db) (requests db).

Lemma clear_rankRows ids now db : rankRows (clearReleaseRequests ids now db) = rankRows db.
Proof. unfold clearReleaseRequests. by destruct ids. Qed.

Definition release_mark (now : Z) (release : ClaimRelease) : option Unproven :=
  match release with ByUnproven b c => Some (mkUnproven now b c) | _ => None end.

Lemma releaseClaim_spec db id r now release :
  runs_ok db → rankRows db !! id = Some r → is_Some (instances db !! r_instanceId r) →
  let res := releaseClaim id now release db in
  (res.1 = true ↔ r_claim r ≠ RELEASED ∧ evidence db r release) ∧
  rankRows res.2 = (if res.1 then <[id := released_row now (release_mark now release) r]> (rankRows db)
                    else rankRows db).
Proof.
  intros Hok Hr Hi. unfold releaseClaim.
  destruct release as [sid|sid idle| |b c] eqn:Hrel; rewrite ?Hr.
  4: { unfold writeRelease, release_mark. rewrite Hr. cbn [evidence].
       destruct (bool_decide_reflect (r_claim r = HELD_UNKNOWN)) as [Hc|Hc]; cbn [fst snd].
       - rewrite Hc, clear_rankRows. done.
       - split; [|done]. split; [done|]. by intros [_ ?]. }
  all: rewrite <- Hrel in *; unfold claim_live;
    destruct (bool_decide_reflect (r_claim r = RELEASED)) as [Hc|Hc]; cbn [negb fst snd];
    [split; [split; [done|by intros [? _]]|done]|].
  all: assert (Hne : ∀ b c, release ≠ ByUnproven b c) by (intros; subst; done).
  all: pose proof (proven_spec db r release Hok Hi Hne) as Hps.
  all: pose proof (proven_tables r release db) as Hpt.
  all: assert (Hrows : rankRows (proven r release db).2 = rankRows db)
    by (destruct Hi as [row Hrow]; destruct Hpt as [->| ->]; [done|];
        by destruct (resolve_stored _ _ _ Hok Hrow) as (_ & _ & ? & _)).
  all: subst release; destruct (proven r _ db) as [ok db1]; cbn [fst snd] in *.
  all: destruct ok; cbn [fst snd]; [|rewrite Hrows; split; [split; [done|intros [_ ?]; by apply Hps]|done]].
  all: unfold writeRelease; rewrite Hrows, Hr; unfold claim_live; rewrite bool_decide_false by done;
    cbn [negb fst snd]; rewrite clear_rankRows; cbn; rewrite ?Hrows; split; [|done]; split; [|done];
    intros _; split; [done|by apply Hps].
Qed.

(** C18. A claim is released exactly on evidence. A release of a rank's claim takes effect if and
    only if the claim is still held and its evidence holds: a node's answer bound to the claim's
    instance, rank and node, of the instance's current run, given while the node had nothing else
    in flight for the rank, with nothing of that run launched after it (and for a recorded
    result, an accepted stop or status step); or no dispatched start step since the last proven
    stop that was not refused before admission; or, for a person's release, a claim marked
    stopped. Then exactly that rank is RELEASED, with no replaced claim left and the person's
    mark if any; otherwise no rank changes. A second release by proof is a no-op. *)
Theorem release_claim_exact (db : Tables) (id : string) (r : Rank) (now : Z) (release : ClaimRelease) :
  runs_ok db → rankRows db !! id = Some r → is_Some (instances db !! r_instanceId r) →
  let res := releaseClaim id now release db in
  (res.1 = true ↔ r_claim r ≠ RELEASED ∧ evidence db r release) ∧
  rankRows res.2 = (if res.1 then <[id := released_row now (release_mark now release) r]> (rankRows db)
                    else rankRows db) ∧
  (res.1 = true → ∀ later again, releaseClaim id later again res.2 = (false, res.2)).
Proof.
  intros Hok Hr Hi res. destruct (releaseClaim_spec db id r now release Hok Hr Hi) as [Hiff Hrows].
  fold res in Hiff, Hrows. split; [done|]. split; [done|]. intros Ht later again.
  rewrite Ht in Hrows.
  assert (Hr' : rankRows res.2 !! id = Some (released_row now (release_mark now release) r))
    by (rewrite Hrows; apply lookup_insert_eq).
  unfold releaseClaim, writeRelease. by destruct again; rewrite Hr'.
Qed.

Lemma release_claim_exact_witness :
  (releaseClaim "r1" 9000 (ByResult "s4") demo_tables).1 = true ∧
  (releaseClaim "r1" 9000 (ByResult "s2") demo_tables).1 = false.
Proof.
  assert (Hok : runs_ok demo_tables)
    by (intros id row; cbn; intros [_ <-]%lookup_singleton_Some; cbn; lia).
  split; [|reflexivity].
  apply (release_claim_exact demo_tables "r1" (mkRankRow "r1" "i1" (Some "n1") 0 HELD 0 None 0 None None)
           9000 (ByResult "s4") Hok); [reflexivity|by eexists|].
  split; [done|]. exists (demo_step "s4" SP_STOP 350 3 SUCCEEDED 1).
  split; [reflexivity|]. split; [reflexivity|]. repeat split. left. vm_compute. discriminate.
Defined.

(** A restart's claim survives every late answer of an earlier run. Once a restart began the
    next run, no result or observation of a step of an earlier run (every step recorded before
    the restart) releases a claim of the instance: the call answers false and no rank changes,
    whatever the step's state and whatever was added since at the new run. *)
Theorem stale_run_never_releases (db db1 : Tables) (inst : string) (row : RunRow) (run : Z)
    (more : list Step) (rankId : string) (r : Rank) (s : Step) (stepId : string) (idle : bool) (now : Z) :
  runs_ok db → instances db !! inst = Some row →
  (∀ s', In s' (steps db) → s_instanceId s' = inst → s_generation s' ≤ peekRun inst db) →
  beginRun inst db = Ok (run, db1) →
  let later := mkTables (instances db1) (rankRows db1) (steps db1 ++ more) (requests db1) in
  rankRows later !! rankId = Some r → r_instanceId r = inst →
  stepById later stepId = Some s → In s (steps db) →
  ∀ release, release = ByResult stepId ∨ release = ByObservation stepId idle →
  (releaseClaim rankId now release later).1 = false ∧
  rankRows (releaseClaim rankId now release later).2 = rankRows later.
Proof.
  intros Hok Hrow Hgen Hbegin later Hr Hinst Hs Hin release Hrel.
  destruct (beginRun_stored inst db row Hok Hrow) as (db' & Hb & Hi & Hrr & Hss & Hpos).
  rewrite Hb in Hbegin. injection Hbegin as <- <-.
  assert (Hpeek : peekRun inst later = peekRun inst db + 1)
    by (apply (peek_positive _ _ (set_run (peekRun inst db + 1) row)); [done|cbn; lia]).
  assert (Hok' : runs_ok later) by (apply (beginRun_ok inst db _ _ Hok Hb)).
  destruct (releaseClaim_spec later rankId r now release Hok' Hr) as [Hiff Hrows].
  { rewrite Hinst. cbn. eauto. }
  enough (Hf : (releaseClaim rankId now release later).1 = false) by (rewrite Hf in Hrows; auto).
  destruct (releaseClaim rankId now release later).1; [|done]. exfalso.
  destruct (proj1 Hiff eq_refl) as [_ Hev].
  assert (∃ x, node_proof later r s x) as [x (Hsi & _ & _ & _ & Hg & _)].
  { destruct Hrel as [-> | ->]; cbn [evidence] in Hev.
    - destruct Hev as (s' & Hs' & _ & Hn). rewrite Hs in Hs'. injection Hs' as <-. eauto.
    - destruct Hev as (s' & Hs' & Hn). rewrite Hs in Hs'. injection Hs' as <-. eauto. }
  rewrite Hinst, Hpeek in Hg. specialize (Hgen s Hin). rewrite Hsi, Hinst in Hgen.
  specialize (Hgen eq_refl). lia.
Qed.

(** The stop of run 2 answers after the restart that began run 4. *)
Lemma stale_run_never_releases_witness :
  ∃ db1, beginRun "i1" demo_tables = Ok (4, db1) ∧
    (releaseClaim "r1" 9000 (ByResult "s4") db1).1 = false.
Proof.
  assert (Hok : runs_ok demo_tables)
    by (intros id row; cbn; intros [_ <-]%lookup_singleton_Some; cbn; lia).
  pose (db1 := with_instance demo_tables "i1" (mkRunRow "u1" 4 STOPPING None None None)).
  exists db1. split; [reflexivity|].
  destruct (stale_run_never_releases demo_tables db1 "i1" (mkRunRow "u1" 3 STOPPING None None None) 4 []
    "r1" (mkRankRow "r1" "i1" (Some "n1") 0 HELD 0 None 0 None None)
    (demo_step "s4" SP_STOP 350 3 SUCCEEDED 1) "s4" true 9000 Hok) with (release := ByResult "s4") as [Hf _].
  - reflexivity.
  - intros s' Hin _. repeat destruct Hin as [<-|Hin]; [vm_compute; discriminate..|destruct Hin].
  - reflexivity.
  - reflexivity.
  - reflexivity.
  - reflexivity.
  - simpl. auto.
  - by left.
  - exact Hf.
Defined.

(** ** The operator need follows the steps *)

Lemma needs_person_parity now run s : stepNeedsPersonWhere now run s = stepNeedsPerson s now run.
Proof.
  unfold stepNeedsPersonWhere, stepNeedsPerson, overdueAcceptedRunWhere, isHeldStep.
  destruct (s_state s), run as [run|], (s_operatorAcceptedAt s), (s_deadline s), (s_operatorHold s);
    cbn -[Z.leb Z.eqb]; repeat match goal with
      | |- context [?a =? ?b] => destruct (a =? b); cbn -[Z.leb Z.eqb]
      | |- context [?a <=? ?b] => destruct (a <=? b); cbn -[Z.leb Z.eqb]
      end; done.
Qed.

Definition waiting_step (db : Tables) (inst : string) (now : Z) : Prop :=
  ∃ s, In s (steps db) ∧ s_instanceId s = inst ∧
       stepNeedsPerson s now (Some (peekRun inst db)) = true.

Lemma operatorStepWaiting_spec inst now db row :
  runs_ok db → instances db !! inst = Some row →
  (operatorStepWaiting inst now db).1 = true ↔ waiting_step db inst now.
Proof.
  intros Hok Hrow. destruct (resolve_stored inst db row Hok Hrow) as (_ & _ & _ & Hs & _).
  pose proof (resolve_peek inst db) as Hp. unfold operatorStepWaiting, stepsOf.
  destruct (resolveRun inst db) as [run db1]. cbn [fst snd] in *. subst run. rewrite Hs.
  rewrite Nat.ltb_lt. unfold waiting_step. split.
  - intros Hlen. destruct (List.filter _ (List.filter _ _)) as [|s l] eqn:Hf; [cbn in Hlen; lia|].
    assert (Hin : In s (s :: l)) by by left. rewrite <- Hf in Hin.
    apply filter_In in Hin as [[Hin Hi]%filter_In Hw]. rewrite needs_person_parity in Hw.
    bool_to_prop. eauto.
  - intros (s & Hin & Hi & Hw). rewrite <- needs_person_parity in Hw.
    assert (In s (List.filter (stepNeedsPersonWhere now (Some (peekRun inst db)))
      (List.filter (λ s, bool_decide (s_instanceId s = inst)) (steps db)))) as Hf.
    { apply filter_In. split; [|done]. apply filter_In. by rewrite bool_decide_true. }
    destruct (List.filter _ _); [done|cbn; lia].
Qed.

Lemma operatorStepWaiting_tables inst now db :
  (operatorStepWaiting inst now db).2 = (resolveRun inst db).2.
Proof. unfold operatorStepWaiting. by destruct (resolveRun inst db). Qed.

(** What the sync leaves, on an instance the stop and restart rules do not own. *)
Lemma syncNeeds_spec inst now db row :
  runs_ok db → instances db !! inst = Some row →
  let db' := syncNeeds inst now db in
  steps db' = steps db ∧
  ∃ row', instances db' !! inst = Some row' ∧
    match i_needsOperator row with
    | Some MARK_STOPPED | Some RESTART => i_needsOperator row' = i_needsOperator row
    | _ => (i_needsOperator row' = Some STEP ∧ waiting_step db inst now) ∨
           (i_needsOperator row' = None ∧ ¬ waiting_step db inst now)
    end.
Proof.
  intros Hok Hrow. destruct (resolve_stored inst db row Hok Hrow) as (Hi & _ & _ & Hs & _).
  pose proof (operatorStepWaiting_spec inst now db row Hok Hrow) as Hw.
  pose proof (operatorStepWaiting_tables inst now db) as Ht.
  unfold syncNeeds. rewrite Hrow. destruct (operatorStepWaiting inst now db) as [waiting db1].
  cbn [fst snd] in *. subst db1.
  assert (Hsync : ∀ stored, i_needsOperator row = stored → (stored = None ∨ stored = Some STEP) →
    let db' := writeNeed inst (stepRuleNeed stored waiting) stored now (resolveRun inst db).2 in
    steps db' = steps db ∧
    ∃ row', instances db' !! inst = Some row' ∧
      ((i_needsOperator row' = Some STEP ∧ waiting_step db inst now) ∨
       (i_needsOperator row' = None ∧ ¬ waiting_step db inst now))).
  { intros stored Hst Hcase. unfold writeNeed. cbv zeta.
    assert (Hn : stepRuleNeed stored waiting = if waiting then Some STEP else None)
      by by destruct Hcase as [-> | ->].
    rewrite Hn. destruct (bool_decide_reflect (stored = if waiting then Some STEP else None)) as [Heq|Heq].
    - split; [done|]. eexists. split; [exact Hi|]. cbn [i_needsOperator set_run]. rewrite Hst, Heq.
      destruct waiting; [left; split; [done|by apply Hw]|].
      right. split; [done|]. intros Hx. by apply Hw in Hx.
    - rewrite Hi. split; [done|]. eexists. split; [apply lookup_insert_eq|]. cbn [i_needsOperator set_row_need].
      destruct waiting; [left; split; [done|by apply Hw]|].
      right. split; [done|]. intros Hx. by apply Hw in Hx. }
  destruct (i_needsOperator row) as [[]|] eqn:Hneed.
  - by apply Hsync; [|right].
  - split; [done|]. exists row. by rewrite Hneed.
  - split; [done|]. exists row. by rewrite Hneed.
  - by apply Hsync; [|left].
Qed.

Definition ended_tables (inst : string) (cond : Step → bool) (data : StepEndData) (db : Tables) : Tables :=
  mkTables (instances db) (rankRows db)
    (map (λ s, if bool_decide (s_instanceId s = inst) && cond s then apply_end data s else s) (steps db))
    (requests db).

(** The operator need follows the steps. The SQL filter of "steps waiting for a person" and
    its in-memory form select the same steps, with or without a run. When steps of an instance
    end, each ended step is CANCELLED or FAILED without a hold and no longer waits for a person,
    and no other step changes. If any ended, the instance's need is then STEP exactly when a step
    of its current run (or an overdue accepted one) still waits, and none otherwise, except that
    MARK_STOPPED and RESTART are kept. *)
Theorem need_follows_steps (db : Tables) (inst : string) (row : RunRow) (cond : Step → bool)
    (data : StepEndData) (now : Z) :
  runs_ok db → instances db !! inst = Some row →
  (∀ s run, stepNeedsPersonWhere now run s = stepNeedsPerson s now run) ∧
  (∀ s run, stepNeedsPerson (apply_end data s) now run = false ∧ s_operatorHold (apply_end data s) = None ∧
     (s_state (apply_end data s) = CANCELLED ∨ s_state (apply_end data s) = STEP_FAILED)) ∧
  let res := endSteps inst cond data now false db in
  steps res.2 = steps (ended_tables inst cond data db) ∧
  (0 < res.1 →
   ∃ row', instances res.2 !! inst = Some row' ∧
     match i_needsOperator row with
     | Some MARK_STOPPED | Some RESTART => i_needsOperator row' = i_needsOperator row
     | _ => (i_needsOperator row' = Some STEP ∧ waiting_step (ended_tables inst cond data db) inst now) ∨
            (i_needsOperator row' = None ∧ ¬ waiting_step (ended_tables inst cond data db) inst now)
     end).
Proof.
  intros Hok Hrow. split; [intros; apply needs_person_parity|]. split.
  { intros s run. destruct data as [|code], run as [run|]; cbn -[Z.eqb]; split; auto.
    all: unfold stepNeedsPerson; cbn -[Z.eqb]; by destruct (s_generation s =? run). }
  destruct (syncNeeds_spec inst now (ended_tables inst cond data db) row) as (Hs & row' & Hi & Hn);
    [done|done|].
  unfold endSteps. cbn [fst snd negb]. rewrite andb_true_r. fold (ended_tables inst cond data db).
  destruct (Z.ltb_spec 0 (Z.of_nat (length (List.filter
    (λ s, bool_decide (s_instanceId s = inst) && cond s) (steps db))))).
  - split; [done|]. intros _. eauto.
  - split; [done|]. intros Hpos. lia.
Qed.

Lemma need_follows_steps_witness :
  let db := mkTables {[ "i1" := mkRunRow "u1" 3 READY None (Some STEP) (Some 5) ]} ∅
              [demo_step "s5" SP_READINESS 340 3 AWAITING_OPERATOR 1] [] in
  (endSteps "i1" (λ _, true) (EndFailed (Some "stopped")) 9 false db).1 = 1 ∧
  ∃ row', instances (endSteps "i1" (λ _, true) (EndFailed (Some "stopped")) 9 false db).2 !! "i1" = Some row' ∧
    i_needsOperator row' = None.
Proof.
  intros db. split; [reflexivity|].
  destruct (need_follows_steps db "i1" (mkRunRow "u1" 3 READY None (Some STEP) (Some 5)) (λ _, true)
    (EndFailed (Some "stopped")) 9) as (_ & _ & _ & Hn).
  - intros id row. cbn. intros [_ <-]%lookup_singleton_Some. cbn. lia.
  - reflexivity.
  - destruct (Hn ltac:(reflexivity)) as (row' & Hi & [[_ Hw]|[Hnone _]]).
    + exfalso. destruct Hw as (s & [<-|[]] & _ & Hw). vm_compute in Hw. discriminate Hw.
    + eauto.
Defined.
