(* ===== verification/LaunchQuery.v ===== *)
(** * The physical launches of a node: one query against the per-rank lookup

    [physicalLaunch] and [physicalLaunchIntents] of
    [src/packages/api/src/lib/instance-run.ts] read the same rule in two forms: a per-rank
    [findFirst], and one raw query with a join and [DISTINCT ON] over all ranks of a user on a
    set of nodes. This file proves that they agree. *)

From S2P Require Import Prelude TargetBreaker InstanceRun.

(** ** Generic facts *)

Section DistinctOn.
Context {A K : Type} `{EqDecision K} (key : A → K).

Definition with_key (k : K) (l : list A) : list A := List.filter (λ a, bool_decide (key a = k)) l.

(** The first row of each key not seen yet. *)
Lemma distinct_on_In seen l a :
  In a (distinct_on key seen l) ↔ key a ∉ seen ∧ head (with_key (key a) l) = Some a.
Proof.
  revert seen. induction l as [|b l IH]; intros seen; cbn; [split; [done|by intros [_ ?]]|].
  destruct (bool_decide_reflect (key b ∈ seen)) as [Hs|Hs].
  - rewrite IH. split.
    + intros [Ha Hh]. split; [done|]. rewrite bool_decide_false by congruence. done.
    + intros [Ha Hh]. split; [done|]. rewrite bool_decide_false in Hh by congruence. done.
  - cbn. rewrite IH. destruct (bool_decide_reflect (key b = key a)) as [Hk|Hk]; cbn.
    + split.
      * intros [->|[Hn _]]; [done|]. destruct Hn. rewrite Hk. by left.
      * intros [_ [= ->]]. by left.
    + split.
      * intros [->|[Hn Hh]]; [done|]. split; [|done]. by intros ?; apply Hn; right.
      * intros [Hn Hh]. right. split; [|done]. rewrite not_elem_of_cons. by split; [congruence|].
Qed.

Lemma distinct_on_NoDup seen l : NoDup (map key (distinct_on key seen l)).
Proof.
  revert seen. induction l as [|a l IH]; intros seen; cbn; [apply NoDup_nil_2|].
  case_bool_decide; [apply IH|]. cbn. constructor; [|apply IH].
  intros (b & Hb & [Hn _]%distinct_on_In)%list_elem_of_In%in_map_iff. apply Hn. rewrite Hb. by left.
Qed.
End DistinctOn.

(** The join of a table with the one matching row of another. *)
Lemma filter_prod_unique {A B} (p : A * B → bool) (q : A → bool) (b : B) (l : list A) (l' : list B) :
  NoDup l' → In b l' → (∀ a, p (a, b) = q a) →
  (∀ a b', In b' l' → b' ≠ b → p (a, b') = false) →
  List.filter p (list_prod l l') = map (λ a, (a, b)) (List.filter q l).
Proof.
  intros Hnd Hin Hp Hne.
  assert (Hrow : ∀ a, List.filter p (map (λ y, (a, y)) l') = if q a then [(a, b)] else []).
  { intros a. apply in_split in Hin as (l1 & l2 & ->).
    assert (Hb : ∀ l0, (∀ y, In y l0 → In y (l1 ++ b :: l2) ∧ y ≠ b) →
      List.filter p (map (λ y, (a, y)) l0) = []).
    { intros l0 Hl0. apply filter_none. intros ? (y & <- & Hy)%in_map_iff.
      destruct (Hl0 y Hy). by apply Hne. }
    apply NoDup_app in Hnd as (_ & Hd & [Hb2 _]%NoDup_cons).
    rewrite map_app, List.filter_app. cbn. rewrite !Hb.
    - rewrite Hp. by destruct (q a).
    - intros y Hy. split; [apply in_or_app; cbn; auto|]. intros ->. by apply Hb2, list_elem_of_In.
    - intros y Hy. split; [apply in_or_app; auto|]. intros ->.
      apply (Hd b); [by apply list_elem_of_In|by left]. }
  induction l as [|a l IH]; cbn; [done|]. rewrite List.filter_app, Hrow, IH. by destruct (q a).
Qed.

Section Launches.
Context `{CL : CollationLaws}.

#[local] Instance cmp_order_desc : CmpOrder (λ x y : Z, y - x).
Proof. split; intros; lia. Qed.

#[local] Instance newest_first_order : CmpOrder newest_first.
Proof.
  unfold newest_first.
  exact (cmp_order_lex (λ a b, s_generation b - s_generation a) (λ a b, s_sequence b - s_sequence a)
    (cmp_order_contramap s_generation _ _) (cmp_order_contramap s_sequence _ _)).
Qed.

#[local] Instance launch_order_order : CmpOrder (launch_order).
Proof.
  unfold launch_order.
  apply (cmp_order_lex (λ a b : Step * Rank, localeCompare (s_instanceId a.1) (s_instanceId b.1))).
  - apply (cmp_order_contramap (λ a : Step * Rank, s_instanceId a.1)). apply CL.
  - apply (cmp_order_lex (λ a b : Step * Rank, s_rank a.1 - s_rank b.1)).
    + apply (cmp_order_contramap (λ a : Step * Rank, s_rank a.1)). apply _.
    + apply (cmp_order_contramap (λ a : Step * Rank, a.1)). apply _.
Qed.

Lemma localeCompare_refl s : localeCompare s s = 0.
Proof. pose proof (cmp_antisym (cmp:=localeCompare) s s). lia. Qed.

(** Ranks are unique by (instance, rank): the table's key. *)
Definition ranks_unique (db : Tables) : Prop :=
  ∀ k k' r r', rankRows db !! k = Some r → rankRows db !! k' = Some r' →
    r_instanceId r = r_instanceId r' → r_rank r = r_rank r' → k = k'.

Definition rank_list (db : Tables) : list Rank := map snd (map_to_list (rankRows db)).

Lemma rank_list_In db r : In r (rank_list db) ↔ ∃ k, rankRows db !! k = Some r.
Proof.
  unfold rank_list. rewrite in_map_iff. split.
  - intros ([k r'] & <- & Hin%list_elem_of_In%elem_of_map_to_list). eauto.
  - intros (k & Hk). exists (k, r). split; [done|]. by apply list_elem_of_In, elem_of_map_to_list.
Qed.

Lemma rank_list_key db r r' :
  ranks_unique db → In r (rank_list db) → In r' (rank_list db) →
  r_instanceId r = r_instanceId r' → r_rank r = r_rank r' → r = r'.
Proof.
  intros Hu (k & Hk)%rank_list_In (k' & Hk')%rank_list_In Hi Hr.
  assert (k = k') as <- by eauto. congruence.
Qed.

Lemma rank_list_NoDup db : ranks_unique db → NoDup (rank_list db).
Proof.
  intros Hu. apply (NoDup_fmap_2_strong snd); [|apply NoDup_map_to_list].
  intros [k r] [k' r'] Hk%elem_of_map_to_list Hk'%elem_of_map_to_list. cbn. intros <-.
  f_equal. eauto.
Qed.

Lemma rankOf_unique db r :
  ranks_unique db → In r (rank_list db) → rankOf db (r_instanceId r) (r_rank r) = Some r.
Proof.
  intros Hu Hin. unfold rankOf. fold (rank_list db).
  destruct (List.find _ _) as [r'|] eqn:Hf.
  - apply find_some in Hf as [Hin' Hb]. split_ands. bool_to_prop. f_equal. symmetry.
    by apply (rank_list_key db).
  - apply (find_none _ _ Hf) in Hin. rewrite bool_decide_true, Z.eqb_refl in Hin by done. done.
Qed.

Variables (db : Tables) (userId : string) (nodeIds : list string).
Hypothesis unique : ranks_unique db.

(** The ranks the query covers. *)
Definition covered (r : Rank) : bool :=
  match instances db !! r_instanceId r with
  | Some i => bool_decide (i_userId i = userId)
  | None => false
  end
  && match r_nodeId r with Some n => bool_decide (n ∈ nodeIds) | None => false end.

Definition joined : list (Step * Rank) :=
  List.filter (λ sr, sql_launch_row db userId nodeIds sr.1 sr.2) (list_prod (steps db) (rank_list db)).

(** The launches of a rank that may still run. *)
Definition live_launches (r : Rank) : list Step :=
  match launchesEnded r with
  | AllEnded => []
  | ThroughRun run => List.filter (launchedAfterWhere (r_instanceId r) (r_rank r) run) (steps db)
  end.

Lemma sql_row_rule s r :
  sql_launch_row db userId nodeIds s r =
  bool_decide (r_instanceId r = s_instanceId s) && (r_rank r =? s_rank s) && covered r
  && match launchesEnded r with
     | AllEnded => false
     | ThroughRun run => launchedAfterWhere (r_instanceId r) (r_rank r) run s
     end.
Proof.
  unfold sql_launch_row, covered, launchesEnded, launchedAfterWhere, notRefusedBeforeAdmissionWhere, isRunStartPhase.
  destruct (bool_decide_reflect (r_instanceId r = s_instanceId s)) as [<-|]; cbn [andb]; [|done].
  rewrite (bool_decide_true (r_instanceId r = r_instanceId r)) by done. rewrite (Z.eqb_sym (s_rank s)).
  destruct (r_rank r =? s_rank s); cbn [andb]; [|done].
  destruct (instances db !! r_instanceId r) as [i|]; cbn [andb]; [|done].
  destruct (bool_decide (i_userId i = userId)); cbn [andb]; [|done].
  destruct (r_nodeId r) as [n|]; cbn [andb]; [|done].
  destruct (bool_decide (n ∈ nodeIds)); cbn [andb]; [|done].
  destruct (_ && bool_decide (r_unproven r = None)); cbn [andb negb]; [done|].
  f_equal. rewrite <- orb_assoc. f_equal. by destruct (s_errorCode s).
Qed.

(** The joined rows of one covered rank are its live launches. *)
Lemma joined_rank r :
  In r (rank_list db) →
  with_key launch_key (r_instanceId r, r_rank r) joined =
  if covered r then map (λ s, (s, r)) (live_launches r) else [].
Proof.
  intros Hr. unfold with_key, joined. rewrite filter_filter.
  rewrite (filter_prod_unique _ (λ s, covered r && match launchesEnded r with
    | AllEnded => false
    | ThroughRun run => launchedAfterWhere (r_instanceId r) (r_rank r) run s
    end) r); [..|by apply rank_list_NoDup|done| |].
  - unfold live_launches. destruct (covered r); cbn [andb].
    + destruct (launchesEnded r); [|done]. by rewrite filter_none.
    + by rewrite filter_none.
  - intros s. cbn [fst snd]. rewrite sql_row_rule. unfold launch_key. cbn [fst].
    destruct (bool_decide_reflect ((s_instanceId s, s_rank s) = (r_instanceId r, r_rank r))) as [[= -> ->]|Hne].
    + rewrite bool_decide_true, Z.eqb_refl by done. cbn [andb]. by rewrite andb_true_r.
    + rewrite andb_false_r. unfold launchedAfterWhere.
      destruct (launchesEnded r); [by rewrite andb_false_r|].
      destruct (bool_decide_reflect (s_instanceId s = r_instanceId r)), (Z.eqb_spec (s_rank s) (r_rank r));
        cbn [andb]; rewrite ?andb_false_r; congruence.
  - intros s r' Hr' Hne. cbn [fst snd]. rewrite sql_row_rule. unfold launch_key. cbn [fst].
    destruct (bool_decide_reflect (r_instanceId r' = s_instanceId s)) as [Hi|], (Z.eqb_spec (r_rank r') (s_rank s)) as [Hk|];
      cbn [andb]; try done.
    rewrite bool_decide_false; [by rewrite andb_false_r|]. intros [= Hi' Hk']. apply Hne.
    apply (rank_list_key db); [done|done|done|congruence|congruence].
Qed.

Lemma joined_In s r : In (s, r) joined → In r (rank_list db) ∧ launch_key (s, r) = (r_instanceId r, r_rank r).
Proof.
  unfold joined. intros [[_ Hr]%in_prod_iff Hb]%filter_In. split; [done|].
  cbn [fst snd] in Hb. rewrite sql_row_rule in Hb. split_ands. bool_to_prop. unfold launch_key. cbn. congruence.
Qed.

Lemma sort_live r :
  sort_by launch_order (map (λ s, (s, r)) (live_launches r)) =
  map (λ s, (s, r)) (sort_by newest_first (live_launches r)).
Proof.
  apply sort_by_map. intros a b Ha Hb. unfold launch_order. cbn [fst].
  assert (Hkey : ∀ s, In s (live_launches r) → s_instanceId s = r_instanceId r ∧ s_rank s = r_rank r).
  { intros s. unfold live_launches. destruct (launchesEnded r); [done|].
    by intros [_ (? & ? & _)%launchedAfter_spec]%filter_In. }
  destruct (Hkey _ Ha) as [-> ->], (Hkey _ Hb) as [-> ->].
  rewrite localeCompare_refl, Z.sub_diag. done.
Qed.

(** The query's row of a covered rank is the newest of its live launches. *)
Lemma query_rank r s :
  In r (rank_list db) →
  In (s, r) (distinct_on launch_key [] (sort_by launch_order joined)) ↔
  covered r = true ∧ head (sort_by newest_first (live_launches r)) = Some s.
Proof.
  intros Hr. rewrite distinct_on_In. unfold with_key. rewrite <- sort_by_filter by apply _.
  fold (with_key launch_key (launch_key (s, r)) joined). split.
  - intros [_ Hh].
    assert (Hk : launch_key (s, r) = (r_instanceId r, r_rank r)).
    { apply joined_In. apply head_Some_elem_of, list_elem_of_In in Hh.
      apply sort_by_in, filter_In in Hh as [? _]. done. }
    rewrite Hk, joined_rank in Hh by done. destruct (covered r); [|done]. split; [done|].
    rewrite sort_live in Hh.
    destruct (sort_by newest_first (live_launches r)); cbn in *; congruence.
  - intros [Hc Hh]. split; [apply not_elem_of_nil|].
    assert (Hk : launch_key (s, r) = (r_instanceId r, r_rank r)).
    { apply head_Some_elem_of, list_elem_of_In in Hh. apply sort_by_in in Hh. unfold live_launches in Hh.
      destruct (launchesEnded r); [done|]. apply filter_In in Hh as [_ (? & ? & _)%launchedAfter_spec].
      unfold launch_key. cbn. congruence. }
    rewrite Hk, joined_rank, Hc, sort_live by done.
    destruct (sort_by newest_first (live_launches r)); cbn in *; congruence.
Qed.

(** The per-rank lookup reads the same list. *)
Lemma lookup_rank r :
  In r (rank_list db) →
  physicalLaunch db (r_instanceId r) (r_rank r) =
  (λ s, (s_intent s, s_headAddr s)) <$> head (sort_by newest_first (live_launches r)).
Proof.
  intros Hr. unfold physicalLaunch, live_launches. rewrite rankOf_unique by done.
  unfold launchesEnded. by destruct (_ && _).
Qed.
End Launches.

(** The one-query form and the per-rank form of "what physically runs" agree. For a user and
    a set of nodes, [physicalLaunchIntents] has one row per (instance, rank), and its rows are
    exactly: for each rank of one of the user's instances on one of the nodes whose per-rank
    lookup [physicalLaunch] finds a launch, that rank's node and that launch's intent. A live
    claim has no such launch exactly when the never-ran evidence holds for it. *)
Theorem launch_query_agrees `{CL : CollationLaws} (db : Tables) (userId : string) (nodeIds : list string) :
  ranks_unique db → nodeIds ≠ [] →
  let rows := physicalLaunchIntents db userId nodeIds in
  NoDup (map (λ e, (pl_instanceId e, pl_rank e)) rows) ∧
  (∀ e, In e rows ↔
     ∃ k r n a, rankRows db !! k = Some r ∧ r_nodeId r = Some n ∧ n ∈ nodeIds ∧
       (∃ i, instances db !! r_instanceId r = Some i ∧ i_userId i = userId) ∧
       physicalLaunch db (r_instanceId r) (r_rank r) = Some (pl_intent e, a) ∧
       e = mkLaunch (r_instanceId r) (r_rank r) n (pl_intent e)) ∧
  (∀ k r, rankRows db !! k = Some r → r_claim r ≠ RELEASED →
     (neverRan db r = true ↔ physicalLaunch db (r_instanceId r) (r_rank r) = None)).
Proof.
  intros Hu Hne rows.
  assert (Hrows : rows = map (λ sr, mkLaunch (s_instanceId sr.1) (s_rank sr.1)
    (default EmptyString (r_nodeId sr.2)) (s_intent sr.1))
      (distinct_on launch_key [] (sort_by launch_order (joined db userId nodeIds)))).
  { unfold rows, physicalLaunchIntents, joined. by destruct nodeIds. }
  rewrite Hrows. split_and!.
  - rewrite map_map. apply (distinct_on_NoDup launch_key).
  - intros e. rewrite in_map_iff. split.
    + intros ([s r] & <- & Hin). cbn [fst snd pl_intent].
      assert (Hj : In (s, r) (joined db userId nodeIds)).
      { apply distinct_on_In in Hin as [_ Hh]. apply head_Some_elem_of, list_elem_of_In, filter_In in Hh as [Hh _].
        by apply sort_by_in in Hh. }
      apply joined_In in Hj as [Hr [= Hi Hk]].
      apply query_rank in Hin as [Hc Hh]; [|done|done].
      apply rank_list_In in Hr as (k & Hkr).
      unfold covered in Hc. destruct (instances db !! r_instanceId r) as [i|] eqn:Hinst; [|done].
      destruct (r_nodeId r) as [n|] eqn:Hn; [|by rewrite andb_false_r in Hc]. split_ands. bool_to_prop.
      exists k, r, n, (s_headAddr s). rewrite lookup_rank; [|done|apply rank_list_In; eauto].
      rewrite Hh, Hi, Hk. split_and!; try done. eauto.
    + intros (k & r & n & a & Hkr & Hn & Hnin & (i & Hinst & Hiu) & Hpl & ->). cbn [pl_intent] in *.
      assert (Hr : In r (rank_list db)) by (apply rank_list_In; eauto).
      rewrite lookup_rank in Hpl by done. apply fmap_Some in Hpl as (s & Hh & [= Hint Ha]).
      assert (Hin : In (s, r) (distinct_on launch_key [] (sort_by launch_order (joined db userId nodeIds)))).
      { apply query_rank; [done|done|]. split; [|done]. unfold covered. rewrite Hinst, Hn.
        by rewrite !bool_decide_true. }
      exists (s, r). split; [|done]. cbn [fst snd]. rewrite Hn, <- Hint. cbn.
      apply distinct_on_In in Hin as [_ Hin]. apply head_Some_elem_of, list_elem_of_In, filter_In in Hin as [Hin _].
      apply sort_by_in, joined_In in Hin as [_ [= -> ->]]. done.
  - intros k r Hkr Hc. rewrite lookup_rank by (try done; apply rank_list_In; eauto).
    unfold live_launches, launchesEnded. rewrite bool_decide_false by done. cbn [andb].
    unfold neverRan. rewrite Nat.eqb_eq, length_zero_iff_nil.
    pose proof (sort_by_perm newest_first (List.filter
      (launchedAfterWhere (r_instanceId r) (r_rank r) (r_stoppedThroughRun r)) (steps db))) as Hp.
    destruct (sort_by newest_first _) as [|s l]; cbn.
    + apply Permutation_nil in Hp. done.
    + split; [|done]. intros Hnil. rewrite Hnil in Hp. symmetry in Hp. by apply Permutation_nil in Hp.
Qed.

Lemma launch_query_agrees_witness :
  physicalLaunchIntents (H:=code_unit_collation) demo_tables "u1" ["n1"] =
    [mkLaunch "i1" 0 "n1" "intent:s3"] ∧
  In (mkLaunch "i1" 0 "n1" "intent:s3")
     (physicalLaunchIntents (H:=code_unit_collation) demo_tables "u1" ["n1"]).
Proof.
  split; [vm_compute; reflexivity|].
  apply (launch_query_agrees (CL:=code_unit_collation_laws) demo_tables "u1" ["n1"]); [|done|].
  - intros k k' r r'. cbn. intros [<- _]%lookup_singleton_Some [<- _]%lookup_singleton_Some. done.
  - exists "r1", (mkRankRow "r1" "i1" (Some "n1") 0 HELD 0 None 0 None None), "n1", None.
    split_and!; try reflexivity; [by left|]. eexists. by split.
Defined.
