(* ===== verification/SerialTask.v ===== *)
(** * The single-flight background task

    [src/apps/server/src/serial-task.ts]. The event loop runs one callback at a time, so the
    task is a state machine over events: calls of its methods, timers, and the end of the pass
    that [await options.run()] waits for. Times are the clock readings of each event; the
    answers of the caller's callbacks ([nextPassMs], whether a pass failed) come with the event
    that asks for them. [log] records the passes and the promises settled, newest first. *)

From S2P Require Import Prelude.

Inductive Overlap := OverlapRerun | OverlapDrop.

Record SerialTaskOptions := mkTaskOptions {
  overlap : Overlap;
  minIntervalMs : option Z;
  intervalMs : option Z;
}.

(** The phases; a scheduled pass holds its timer and when it is due. *)
Inductive State :=
| Idle (next : option nat)
| Scheduled (timer : nat) (due : Z)
| RunningPass
| RunningRerun
| Stopped.

(** A [runOnce] caller: settled by the first pass numbered above [after]. *)
Record Probe := mkProbe { pr_id : nat; after : Z }.

Inductive Entry :=
| PassStarted (pass : Z) (at_ : Z)
| PassEnded (pass : Z) (failed : bool)
| ProbeSettled (id : nat) (after : Z) (pass : Z) (failed : bool)
| BusySettled (busy : nat).

Record Task := mkTask {
  state : State;
  lastStartMs : option Z;
  started : bool;
  interval : bool;
  inPass : bool;
  passes : Z;
  probes : list Probe;
  busy : option nat;
  nextId : nat;
  log : list Entry;
}.

Definition initialTask : Task := mkTask (Idle None) None false false false 0 [] None 0 [].

Definition with_state (st : State) (s : Task) : Task :=
  mkTask st (lastStartMs s) (started s) (interval s) (inPass s) (passes s) (probes s) (busy s)
    (nextId s) (log s).

Section Task.
Variable options : SerialTaskOptions.

(** A promise that settles when the busy period ends; the open one is shared. *)
Definition openBusy (s : Task) : Task :=
  match busy s with
  | Some _ => s
  | None => mkTask (state s) (lastStartMs s) (started s) (interval s) (inPass s) (passes s)
              (probes s) (Some (nextId s)) (S (nextId s)) (log s)
  end.

Definition closeBusy (s : Task) : Task :=
  mkTask (state s) (lastStartMs s) (started s) (interval s) (inPass s) (passes s) (probes s) None
    (nextId s) (match busy s with Some b => BusySettled b :: log s | None => log s end).

Definition schedule (now : Z) (s : Task) : Task :=
  let gapMs := default 0 (minIntervalMs options) in
  let waitMs := match lastStartMs s with None => 0 | Some t => Z.max 0 (t + gapMs - now) end in
  mkTask (Scheduled (nextId s) (now + waitMs)) (lastStartMs s) (started s) (interval s) (inPass s)
    (passes s) (probes s) (busy s) (S (nextId s)) (log s).

(** The idle state at the end of a pass, with the follow-up timer when one is asked for. *)
Definition armNext (nextPassMs : option Z) (s : Task) : Task :=
  match nextPassMs with
  | None => with_state (Idle None) s
  | Some _ => mkTask (Idle (Some (nextId s))) (lastStartMs s) (started s) (interval s) (inPass s)
                (passes s) (probes s) (busy s) (S (nextId s)) (log s)
  end.

Definition settleProbes (pass : Z) (failed : bool) (s : Task) : Task :=
  let settled := List.filter (λ p, after p <? pass) (probes s) in
  mkTask (state s) (lastStartMs s) (started s) (interval s) (inPass s) (passes s)
    (List.filter (λ p, negb (after p <? pass)) (probes s)) (busy s) (nextId s)
    (map (λ p, ProbeSettled (pr_id p) (after p) pass failed) settled ++ log s).

(** The loop up to its [await]: a pass starts. *)
Definition loop (now : Z) (s : Task) : Task :=
  mkTask (match state s with Stopped => Stopped | _ => RunningPass end) (Some now) (started s)
    (interval s) true (passes s + 1) (probes s) (busy s) (nextId s)
    (PassStarted (passes s + 1) now :: log s).

(** The loop from its [await] to the next one or its return: the pass ended. *)
Definition passEnds (failed : bool) (now : Z) (nextPassMs : option Z) (s : Task) : Task :=
  let s := mkTask (state s) (lastStartMs s) (started s) (interval s) false (passes s) (probes s)
             (busy s) (nextId s) (PassEnded (passes s) failed :: log s) in
  let s := settleProbes (passes s) failed s in
  let waiting := match probes s with [] => false | _ => true end in
  match state s with
  | Stopped => if waiting then loop now s else closeBusy s
  | st =>
      if match st with RunningRerun => true | _ => waiting end
      then match minIntervalMs options with Some _ => schedule now s | None => loop now s end
      else closeBusy (armNext nextPassMs s)
  end.

(** The promise answered: settled at once, or the busy period's. *)
Definition trigger (now : Z) (s : Task) : option nat * Task :=
  match state s with
  | Stopped => (None, s)
  | Scheduled _ _ | RunningRerun => let s := openBusy s in (busy s, s)
  | RunningPass =>
      let s := match overlap options with
               | OverlapRerun => with_state RunningRerun s
               | OverlapDrop => s
               end in
      let s := openBusy s in (busy s, s)
  | Idle _ =>
      let s := openBusy (with_state (Idle None) s) in
      (busy s, match minIntervalMs options with Some _ => schedule now s | None => loop now s end)
  end.

Definition runOnce (now : Z) (s : Task) : nat * Task :=
  let id := nextId s in
  let s := mkTask (state s) (lastStartMs s) (started s) (interval s) (inPass s) (passes s)
             (probes s ++ [mkProbe id (passes s)]) (busy s) (S (nextId s)) (log s) in
  (id, match state s with
       | Idle _ => (trigger now s).2
       | Stopped => if negb (inPass s) then loop now (openBusy s) else s
       | _ => s
       end).

Definition start (now : Z) (s : Task) : Task :=
  if match state s with Stopped => true | _ => started s end then s
  else (trigger now (mkTask (state s) (lastStartMs s) true
          (match intervalMs options with Some _ => true | None => interval s end) (inPass s)
          (passes s) (probes s) (busy s) (nextId s) (log s))).2.

(** The promise answered: the busy period's, or settled at once. *)
Definition stop (now : Z) (s : Task) : option nat * Task :=
  let wasScheduled := match state s with Scheduled _ _ => true | _ => false end in
  let s := mkTask Stopped (lastStartMs s) (started s) false (inPass s) (passes s) (probes s) (busy s)
             (nextId s) (log s) in
  (busy s,
   if inPass s then s
   else if wasScheduled && match probes s with [] => false | _ => true end then loop now s
   else closeBusy s).

(** ** Events *)

Inductive Event :=
| EvTrigger (now : Z)
| EvRunOnce (now : Z)
| EvStart (now : Z)
| EvStop (now : Z)
| EvTimer (timer : nat) (now : Z)
| EvInterval (now : Z)
| EvPassEnds (failed : bool) (nextPassMs : option Z) (now : Z).

(** A one-shot timer's callback. Any timer may fire, cleared ones too: only the one the state
    holds does anything, and a scheduled pass's not before it is due. *)
Definition fireTimer (timer : nat) (now : Z) (s : Task) : Task :=
  match state s with
  | Scheduled t due => if (t =? timer)%nat && (due <=? now) then loop now s else s
  | Idle (Some t) => if (t =? timer)%nat then (trigger now (with_state (Idle None) s)).2 else s
  | _ => s
  end.

Definition handle (e : Event) (s : Task) : Task :=
  match e with
  | EvTrigger now => (trigger now s).2
  | EvRunOnce now => (runOnce now s).2
  | EvStart now => start now s
  | EvStop now => (stop now s).2
  | EvTimer timer now => fireTimer timer now s
  | EvInterval now => if interval s then (trigger now s).2 else s
  | EvPassEnds failed nextPassMs now => if inPass s then passEnds failed now nextPassMs s else s
  end.

Definition run_events (es : list Event) (s : Task) : Task := foldl (λ s e, handle e s) s es.
End Task.

(** ** Passes never overlap *)

(** The history of passes, newest first: [open] while pass [n] runs, else [n] passes ended. *)
Inductive serial : bool → Z → list Entry → Prop :=
| serial_nil : serial false 0 []
| serial_start n at_ l : serial false n l → serial true (n + 1) (PassStarted (n + 1) at_ :: l)
| serial_end n f l : serial true n l → serial false n (PassEnded n f :: l)
| serial_probe open n id a f l :
    serial open n l → In (PassEnded (a + 1) f) l → serial open n (ProbeSettled id a (a + 1) f :: l)
| serial_busy open n b l : serial open n l → serial open n (BusySettled b :: l).

(** Consecutive pass starts are at least [gap] apart, given the last one. *)
Fixpoint spaced (gap : Z) (last : option Z) (l : list Entry) : Prop :=
  match l with
  | [] => last = None
  | PassStarted _ at_ :: l =>
      last = Some at_ ∧ ∃ prev, spaced gap prev l ∧ match prev with Some t => t + gap ≤ at_ | None => True end
  | _ :: l => spaced gap last l
  end.

Record task_ok (s : Task) : Prop := {
  ok_state : match state s with
             | Idle _ => inPass s = false ∧ busy s = None ∧ probes s = []
             | Scheduled _ _ => inPass s = false ∧ is_Some (busy s)
             | RunningPass | RunningRerun => inPass s = true ∧ is_Some (busy s)
             | Stopped => if inPass s then is_Some (busy s) else busy s = None ∧ probes s = []
             end;
  ok_probes : ∀ p, In p (probes s) →
    after p = passes s ∨ (inPass s = true ∧ after p = passes s - 1);
  ok_log : serial (inPass s) (passes s) (log s);
}.

Section Invariant.
Variable options : SerialTaskOptions.

Lemma openBusy_some s : is_Some (busy (openBusy s)).
Proof. unfold openBusy. destruct (busy s) eqn:E; cbn; rewrite ?E; eauto. Qed.

Lemma openBusy_fields s :
  state (openBusy s) = state s ∧ inPass (openBusy s) = inPass s ∧ passes (openBusy s) = passes s ∧
  probes (openBusy s) = probes s ∧ log (openBusy s) = log s ∧ lastStartMs (openBusy s) = lastStartMs s.
Proof. unfold openBusy. by destruct (busy s). Qed.

(** A pass starts only when none runs. *)
Lemma loop_ok now s :
  inPass s = false → is_Some (busy s) → (∀ p, In p (probes s) → after p = passes s) →
  serial false (passes s) (log s) → task_ok (loop now s).
Proof.
  intros Hp Hb Hpr Hl. constructor; cbn.
  - by destruct (state s).
  - intros p Hin. right. split; [done|]. rewrite (Hpr p Hin). lia.
  - by constructor.
Qed.

Lemma schedule_ok now s :
  inPass s = false → is_Some (busy s) → (∀ p, In p (probes s) → after p = passes s) →
  serial false (passes s) (log s) → task_ok (schedule options now s).
Proof. intros Hp Hb Hpr Hl. constructor; cbn; [done|auto|by rewrite Hp]. Qed.

Lemma closeBusy_log open n s : serial open n (log s) → serial open n (log (closeBusy s)).
Proof. cbn. destruct (busy s); [by constructor|done]. Qed.

(** Begins a pass now, or schedules it when a gap is configured. *)
Definition begin (now : Z) (s : Task) : Task :=
  match minIntervalMs options with Some _ => schedule options now s | None => loop now s end.

Lemma begin_ok now s :
  inPass s = false → is_Some (busy s) → (∀ p, In p (probes s) → after p = passes s) →
  serial false (passes s) (log s) → task_ok (begin now s).
Proof. intros. unfold begin. destruct (minIntervalMs options); [by apply schedule_ok|by apply loop_ok]. Qed.

Lemma trigger_idle_ok now s next :
  state s = Idle next → inPass s = false → (∀ p, In p (probes s) → after p = passes s) →
  serial (inPass s) (passes s) (log s) → task_ok (trigger options now s).2.
Proof.
  intros Hs Hp Hpr Hl. unfold trigger. rewrite Hs. cbn [snd]. fold (begin now).
  destruct (openBusy_fields (with_state (Idle None) s)) as (_ & H1 & H2 & H3 & H4 & _).
  change (task_ok (begin now (openBusy (with_state (Idle None) s)))).
  apply begin_ok; rewrite ?H1, ?H2, ?H3, ?H4; auto using openBusy_some.
  by rewrite Hp in Hl.
Qed.

Lemma trigger_ok now s : task_ok s → task_ok (trigger options now s).2.
Proof.
  intros Hok. pose proof Hok as [Hst Hpr Hl]. destruct (state s) as [next|t due| | |] eqn:Hs.
  - destruct Hst as (Hp & _ & Hnil). eapply trigger_idle_ok; eauto. by rewrite Hnil.
  - unfold trigger. rewrite Hs. unfold openBusy. destruct Hst as [? [b ->]]. done.
  - unfold trigger. rewrite Hs. destruct Hst as [Hp [b Hb]]. unfold openBusy.
    destruct (overlap options); cbn; rewrite Hb; [|done]. constructor; cbn; [rewrite Hp, Hb; eauto|done|done].
  - unfold trigger. rewrite Hs. unfold openBusy. destruct Hst as [? [b ->]]. done.
  - unfold trigger. by rewrite Hs.
Qed.

Lemma runOnce_ok now s : task_ok s → task_ok (runOnce options now s).2.
Proof.
  intros [Hst Hpr Hl]. unfold runOnce. cbn [snd state].
  set (s1 := mkTask (state s) _ _ _ _ _ _ _ _ _).
  assert (Hpr1 : ∀ p, In p (probes s1) → after p = passes s1 ∨ (inPass s1 = true ∧ after p = passes s1 - 1)).
  { intros p [Hin|[<-|[]]]%in_app_or; cbn; auto. }
  destruct (state s) as [next|t due| | |] eqn:Hs.
  - destruct Hst as (Hp & _ & Hnil). eapply trigger_idle_ok; [done|done| |done].
    intros p Hin. destruct (Hpr1 p Hin) as [?|[? _]]; [done|]. cbn in *. congruence.
  - constructor; [by subst s1; cbn|done|done].
  - constructor; [by subst s1; cbn|done|done].
  - constructor; [by subst s1; cbn|done|done].
  - subst s1. cbn [inPass]. destruct (inPass s) eqn:Hp; cbn [negb].
    + constructor; cbn; [by rewrite ?Hp|done|by rewrite ?Hp].
    + destruct Hst as [Hb Hnil]. set (s2 := mkTask _ _ _ _ _ _ _ _ _ _) in *.
      destruct (openBusy_fields s2) as (_ & H1 & H2 & H3 & H4 & _).
      apply loop_ok; rewrite ?H1, ?H2, ?H3, ?H4; auto using openBusy_some.
      intros p Hin. destruct (Hpr1 p Hin) as [?|[? _]]; [done|]. done.
Qed.

Lemma stop_ok now s : task_ok s → task_ok (stop now s).2.
Proof.
  intros [Hst Hpr Hl]. unfold stop. cbn [snd inPass]. destruct (inPass s) eqn:Hp.
  - constructor; cbn; rewrite ?Hp; [|done|done]. destruct (state s); naive_solver.
  - assert (Hpr' : ∀ p, In p (probes s) → after p = passes s)
      by (intros p Hin; by destruct (Hpr p Hin) as [?|[? _]]).
    destruct (_ && _) eqn:Hc.
    + apply loop_ok; cbn; [done| |done|done]. split_ands. destruct (state s); naive_solver.
    + constructor; [|intros p Hin; left; by apply Hpr'|by apply closeBusy_log].
      cbn. split; [done|]. destruct (state s); try naive_solver. by destruct (probes s).
Qed.

Lemma settle_log n f ps l :
  (∀ p, In p ps → after p = n - 1) → In (PassEnded n f) l → serial false n l →
  serial false n (map (λ p, ProbeSettled (pr_id p) (after p) n f) ps ++ l).
Proof.
  intros Hps Hin Hl. induction ps as [|p ps IH]; cbn; [done|].
  rewrite (Hps p) by by left. replace n with (n - 1 + 1) at 3 by lia.
  constructor; [apply IH; auto with datatypes|]. apply in_or_app. right.
  by replace (n - 1 + 1) with n by lia.
Qed.

Lemma passEnds_ok failed now next s :
  task_ok s → inPass s = true → task_ok (passEnds options failed now next s).
Proof.
  intros [Hst Hpr Hl] Hp. unfold passEnds. rewrite Hp in *.
  set (s1 := settleProbes _ _ _).
  assert (Hp1 : inPass s1 = false) by done.
  assert (Hb1 : is_Some (busy s1)) by (cbn; destruct (state s); naive_solver).
  assert (Hl1 : serial false (passes s1) (log s1)).
  { cbn. apply settle_log; [|by left|by constructor]. intros p [Hin Hlt]%filter_In.
    apply Z.ltb_lt in Hlt. cbn [passes] in *. destruct (Hpr p Hin) as [He|[_ He]]; lia. }
  assert (Hpr1 : ∀ p, In p (probes s1) → after p = passes s1).
  { intros p [Hin Hlt]%filter_In. apply negb_true_iff, Z.ltb_ge in Hlt. cbn [passes] in *.
    change (passes s1) with (passes s). destruct (Hpr p Hin) as [He|[_ He]]; lia. }
  assert (Hclose : ∀ s2, inPass s2 = false → passes s2 = passes s1 → log s2 = log s1 → probes s2 = [] →
    (state s2 = Stopped ∨ ∃ t, state s2 = Idle t) → task_ok (closeBusy s2)).
  { intros s2 H1 H2 H3 H4 H5. constructor; [|cbn; by rewrite H4|].
    - cbn. rewrite H1, H4. by destruct H5 as [-> |[t ->]].
    - cbn [inPass closeBusy passes]. rewrite H1, H2. apply closeBusy_log. by rewrite H3. }
  assert (Hbegin : task_ok (begin now s1)) by by apply begin_ok.
  destruct (state s1) as [t|t d| | |] eqn:Hs1; destruct (probes s1) as [|p ps] eqn:Hps; try exact Hbegin.
  all: try (apply Hclose; unfold armNext; destruct next; cbn; eauto; fail).
  rewrite <- Hps in Hpr1. by apply loop_ok.
Qed.

Lemma handle_ok e s : task_ok s → task_ok (handle options e s).
Proof.
  intros Hok. destruct e as [now|now|now|now|timer now|now|f nx now]; cbn [handle].
  - by apply trigger_ok.
  - by apply runOnce_ok.
  - unfold start. destruct (match state s with Stopped => true | _ => started s end); [done|].
    apply trigger_ok. by destruct Hok.
  - by apply stop_ok.
  - unfold fireTimer. pose proof Hok as [Hst Hpr Hl]. destruct (state s) as [[t|]|t due| | |] eqn:Hs; try done.
    + destruct (_ =? timer)%nat; [|done]. destruct Hst as (Hp & Hb & Hnil).
      eapply trigger_idle_ok; [done|done|cbn; by rewrite Hnil|done].
    + destruct (_ && _); [|done]. destruct Hst as [Hp Hb]. rewrite Hp in *. apply loop_ok; auto.
      intros p Hin. by destruct (Hpr p Hin) as [?|[? _]].
  - destruct (interval s); [by apply trigger_ok|done].
  - destruct (inPass s) eqn:Hp; [by apply passEnds_ok|done].
Qed.

Lemma run_events_ok es s : task_ok s → task_ok (run_events options es s).
Proof.
  unfold run_events. revert s. induction es as [|e es IH]; intros s Hok; cbn; [done|].
  by apply IH, handle_ok.
Qed.
End Invariant.

(** ** The gap between passes *)

Definition is_stop (e : Event) : bool := match e with EvStop _ => true | _ => false end.
Definition is_runOnce (e : Event) : bool := match e with EvRunOnce _ => true | _ => false end.
Definition is_scheduled (s : Task) : bool := match state s with Scheduled _ _ => true | _ => false end.

Section Gap.
Variables (options : SerialTaskOptions) (gap : Z).
Hypothesis configured : minIntervalMs options = Some gap.

Definition gap_ok (s : Task) : Prop :=
  state s ≠ Stopped ∧ spaced gap (lastStartMs s) (log s) ∧
  match state s with
  | Scheduled _ due => ∀ t, lastStartMs s = Some t → t + gap ≤ due
  | _ => True
  end.

Lemma spaced_settled last ps n f l :
  spaced gap last l → spaced gap last (map (λ p, ProbeSettled (pr_id p) (after p) n f) ps ++ l).
Proof. intros Hl. by induction ps. Qed.

Lemma gap_schedule now s : spaced gap (lastStartMs s) (log s) → gap_ok (schedule options now s).
Proof.
  intros Hl. split; [done|]. split; [done|]. cbn. intros t ->. rewrite configured. cbn. lia.
Qed.

Lemma gap_trigger now s : gap_ok s → gap_ok (trigger options now s).2.
Proof.
  intros (Hns & Hl & Hd). unfold trigger. destruct (state s) as [next|t due| | |] eqn:Hs; try done.
  - rewrite configured. cbn [snd]. apply gap_schedule.
    destruct (openBusy_fields (with_state (Idle None) s)) as (_ & _ & _ & _ & -> & ->). done.
  - cbn [snd]. unfold openBusy. destruct (busy s); unfold gap_ok; cbn; rewrite Hs; done.
  - cbn [snd]. unfold openBusy. destruct (overlap options); cbn; destruct (busy s);
      unfold gap_ok; cbn; rewrite ?Hs; done.
  - cbn [snd]. unfold openBusy. destruct (busy s); unfold gap_ok; cbn; rewrite Hs; done.
Qed.

Lemma gap_handle e s : is_stop e = false → gap_ok s → gap_ok (handle options e s).
Proof.
  intros He Hok. pose proof Hok as (Hns & Hl & Hd).
  destruct e as [now|now|now|now|timer now|now|f nx now]; cbn [handle]; try done.
  - by apply gap_trigger.
  - unfold runOnce. cbn [snd state]. destruct (state s) eqn:Hs; try done; [apply gap_trigger|..].
    all: unfold gap_ok; cbn; rewrite ?Hs; done.
  - unfold start. destruct (match state s with Stopped => true | _ => started s end); [done|].
    by apply gap_trigger.
  - unfold fireTimer. destruct (state s) as [[t|]|t due| | |] eqn:Hs; try done.
    + destruct (_ =? timer)%nat; [|done]. apply gap_trigger. by split.
    + destruct (t =? timer)%nat, (Z.leb_spec due now); cbn [andb]; try done.
      unfold gap_ok. cbn. rewrite Hs. split_and!; try done. eexists. split; [done|].
      destruct (lastStartMs s) as [t0|]; [|done]. specialize (Hd t0 eq_refl). lia.
  - destruct (interval s); [by apply gap_trigger|done].
  - destruct (inPass s); [|done]. unfold passEnds.
    set (s1 := settleProbes _ _ _).
    assert (Hl1 : spaced gap (lastStartMs s1) (log s1)) by (cbn; by apply spaced_settled).
    assert (Hbegin : gap_ok (schedule options now s1)) by by apply gap_schedule.
    assert (Hclose : gap_ok (closeBusy (armNext nx s1))).
    { unfold gap_ok, closeBusy, armNext. by destruct nx; cbn; destruct (busy s). }
    assert (Hs1 : state s1 = state s) by done. rewrite configured.
    destruct (state s1); try (by rewrite <- Hs1 in Hns); by destruct (probes s1).
Qed.

Lemma gap_run es s :
  existsb is_stop es = false → gap_ok s → gap_ok (run_events options es s).
Proof.
  unfold run_events. revert s. induction es as [|e es IH]; intros s Hes Hok; cbn in *; [done|].
  apply orb_false_iff in Hes as [He Hes]. apply IH; [done|]. by apply gap_handle.
Qed.
End Gap.

(** The task is single-flight and keeps its promises. After any sequence of triggers, starts,
    stops, [runOnce] calls, pass ends and timers (stale ones too): passes start and end one at a
    time, numbered in order; each settled [runOnce] was settled by the first pass that started
    after its call, with that pass's outcome; a promise is pending exactly while a pass runs or is
    scheduled, and a waiting [runOnce] always has such a pass ahead. With a minimum gap, and until
    the task is stopped, consecutive passes start at least the gap apart. *)
Theorem serial_task_single_flight (options : SerialTaskOptions) (es : list Event) :
  let s := run_events options es initialTask in
  serial (inPass s) (passes s) (log s) ∧
  (is_Some (busy s) ↔ inPass s = true ∨ is_scheduled s = true) ∧
  (probes s ≠ [] → inPass s = true ∨ is_scheduled s = true) ∧
  (∀ gap, minIntervalMs options = Some gap → existsb is_stop es = false →
     spaced gap (lastStartMs s) (log s)).
Proof.
  intros s. assert (Hok : task_ok s).
  { apply run_events_ok. constructor; cbn; [done|done|constructor]. }
  destruct Hok as [Hst Hpr Hl]. split_and!.
  - done.
  - assert (Hnone : busy s = None → is_Some (busy s) → False) by (intros ->; by intros [? ?]).
    unfold is_scheduled. destruct (state s), (inPass s); naive_solver.
  - unfold is_scheduled. destruct (state s), (inPass s); naive_solver.
  - intros gap Hg Hes. apply (gap_run options gap Hg es); [done|]. by repeat split.
Qed.

(** Two triggers and a probe during a pass; the follow-up pass waits for its gap. *)
Lemma serial_task_single_flight_witness :
  let options := mkTaskOptions OverlapRerun (Some 1000) None in
  let s := run_events options
    [EvTrigger 0; EvTimer 1 0; EvTrigger 10; EvRunOnce 20; EvPassEnds false None 30; EvTimer 3 1000]
    initialTask in
  passes s = 2 ∧ spaced 1000 (lastStartMs s) (log s).
Proof.
  split; [reflexivity|].
  apply (serial_task_single_flight (mkTaskOptions OverlapRerun (Some 1000) None)); reflexivity.
Defined.

(** ** Stopping *)

Definition at_rest (n : Z) (s : Task) : Prop := state s = Stopped ∧ probes s = [] ∧ passes s = n.

Lemma rest_handle options n e s :
  is_runOnce e = false → at_rest n s →
  at_rest n (handle options e s) ∧ (inPass (handle options e s) = true → inPass s = true).
Proof.
  intros He (Hs & Hp & Hn). destruct e as [now|now|now|now|timer now|now|f nx now]; cbn [handle]; try done.
  - unfold trigger. by rewrite Hs.
  - unfold start. by rewrite Hs.
  - unfold stop. cbn [snd inPass probes]. rewrite Hp, andb_false_r. unfold at_rest.
    destruct (inPass s) eqn:Hi; cbn; by rewrite ?Hi.
  - unfold fireTimer. by rewrite Hs.
  - destruct (interval s); [|done]. unfold trigger. by rewrite Hs.
  - destruct (inPass s) eqn:Hi; [|by rewrite ?Hi]. unfold passEnds. cbn [settleProbes state probes].
    rewrite Hs, Hp. cbn. done.
Qed.

Lemma rest_run options n es : ∀ s,
  existsb is_runOnce es = false → at_rest n s →
  at_rest n (run_events options es s) ∧ (inPass (run_events options es s) = true → inPass s = true).
Proof.
  unfold run_events. induction es as [|e es IH]; intros s Hes Hr; cbn in *; [done|].
  apply orb_false_iff in Hes as [He Hes].
  destruct (rest_handle options n e s He Hr) as [Hr' Hi].
  destruct (IH (handle options e s) Hes Hr') as [Hr2 Hi2]. auto.
Qed.

(** Stopped is final. Once a task with no [runOnce] waiting is stopped, no trigger, start,
    interval or timer starts another pass: whatever follows (short of a new [runOnce]) the task
    stays stopped with the same number of passes, only a pass already in flight may still end,
    and when none runs every promise it gave is settled. *)
Theorem serial_task_stops (options : SerialTaskOptions) (before later : list Event) (now : Z) :
  let s := run_events options before initialTask in
  probes s = [] → existsb is_runOnce later = false →
  let s' := run_events options later (stop now s).2 in
  state s' = Stopped ∧ passes s' = passes s ∧ (inPass s' = true → inPass s = true) ∧
  (inPass s' = false → busy s' = None).
Proof.
  intros s Hp Hlater s'.
  assert (Hok : task_ok s) by (apply run_events_ok; constructor; cbn; [done|done|constructor]).
  assert (Hok' : task_ok s') by by apply run_events_ok, stop_ok.
  assert (Hrest : at_rest (passes s) (stop now s).2 ∧ (inPass (stop now s).2 = true → inPass s = true)).
  { unfold stop. cbn [snd inPass probes]. rewrite Hp, andb_false_r. unfold at_rest.
    destruct (inPass s) eqn:Hi; cbn; by rewrite ?Hi. }
  destruct Hrest as [Hrest Hin]. destruct (rest_run options _ later _ Hlater Hrest) as [(Hs & Hq & Hn) Hi].
  fold s' in Hs, Hq, Hn, Hi. split_and!; [done|done|auto|].
  intros Hnp. destruct Hok' as [Hst _ _]. rewrite Hs, Hnp in Hst. by destruct Hst.
Qed.

Lemma serial_task_stops_witness :
  let options := mkTaskOptions OverlapRerun None (Some 5000) in
  let s := run_events options [EvStart 0; EvTrigger 5] initialTask in
  passes s = 1 ∧
  passes (run_events options [EvPassEnds false None 9; EvInterval 5000; EvTrigger 5001] (stop 7 s).2) = 1.
Proof.
  split; [reflexivity|].
  apply (serial_task_stops (mkTaskOptions OverlapRerun None (Some 5000)) [EvStart 0; EvTrigger 5]
    [EvPassEnds false None 9; EvInterval 5000; EvTrigger 5001] 7); reflexivity.
Defined.
