(* ===== verification/RelaySession.v ===== *)
(** * Relay sessions: handshake phases and terminal tickets

    [src/apps/server/src/relay/session-phase.ts] (the phases of one node socket and of the
    session manager) and [src/apps/server/src/relay/terminal-tickets.ts] (one-use tickets of the
    browser terminal socket). *)

From S2P Require Import Prelude.

(** ** Session phases *)

Module SessionPhase.

(** A session's node is a shared object: the phase holds a reference to it. *)
Definition NodeRef := nat.
Definition Timer := nat.

Inductive SessionPhase :=
| AwaitingHello (nonce : string) (deadline : Timer)
| Registering (deadline : Timer)
| Registered (node : NodeRef)
| Ready (node : NodeRef)
| Closed (node : option NodeRef).

(** The holder with the timers cleared so far. *)
Record PhaseHolder := mkHolder { ph : SessionPhase; cleared : list Timer }.

Definition awaitingHello (nonce : string) (deadline : Timer) : SessionPhase :=
  AwaitingHello nonce deadline.

Definition beginRegistration (h : PhaseHolder) : option string * PhaseHolder :=
  match ph h with
  | AwaitingHello nonce deadline => (Some nonce, mkHolder (Registering deadline) (cleared h))
  | _ => (None, h)
  end.

Definition installRegistered (node : NodeRef) (h : PhaseHolder) : bool * PhaseHolder :=
  match ph h with
  | Registering deadline => (true, mkHolder (Registered node) (deadline :: cleared h))
  | _ => (false, h)
  end.

Definition acknowledgeHello (h : PhaseHolder) : bool * PhaseHolder :=
  match ph h with
  | Registered node => (true, mkHolder (Ready node) (cleared h))
  | _ => (false, h)
  end.

Definition closePhase (h : PhaseHolder) : (bool * option NodeRef) * PhaseHolder :=
  match ph h with
  | Closed _ => ((false, None), h)
  | AwaitingHello _ deadline | Registering deadline =>
      ((true, None), mkHolder (Closed None) (deadline :: cleared h))
  | Registered node | Ready node => ((true, Some node), mkHolder (Closed (Some node)) (cleared h))
  end.

Definition preRegistration (p : SessionPhase) : bool :=
  match p with AwaitingHello _ _ | Registering _ => true | _ => false end.

Definition registeredNode (p : SessionPhase) : option NodeRef :=
  match p with
  | AwaitingHello _ _ | Registering _ => None
  | Registered node | Ready node => Some node
  | Closed node => node
  end.

Definition liveNode (p : SessionPhase) : option NodeRef :=
  match p with Registered node | Ready node => Some node | _ => None end.

Definition readyNode (p : SessionPhase) : option NodeRef :=
  match p with Ready node => Some node | _ => None end.

Inductive ManagerLifecycle := Running | Draining | Disposed.

Definition LIFECYCLE_ORDER (l : ManagerLifecycle) : Z :=
  match l with Running => 0 | Draining => 1 | Disposed => 2 end.

Definition advanceLifecycle (current next : ManagerLifecycle) : ManagerLifecycle :=
  if LIFECYCLE_ORDER current <? LIFECYCLE_ORDER next then next else current.

(** *** Histories *)

Inductive Op := OpBegin | OpInstall (node : NodeRef) | OpAck | OpClose.

(** What a call reported when it changed the session. *)
Inductive Outcome := Consumed (nonce : string) | Installed (node : NodeRef) | Acked | ClosedWith (node : option NodeRef).

Definition perform (op : Op) (h : PhaseHolder) : list Outcome * PhaseHolder :=
  match op with
  | OpBegin => let '(nonce, h) := beginRegistration h in (option_list (Consumed <$> nonce), h)
  | OpInstall node => let '(ok, h) := installRegistered node h in (if ok then [Installed node] else [], h)
  | OpAck => let '(ok, h) := acknowledgeHello h in (if ok then [Acked] else [], h)
  | OpClose => let '((closed, node), h) := closePhase h in (if closed then [ClosedWith node] else [], h)
  end.

Fixpoint perform_all (ops : list Op) (h : PhaseHolder) : list Outcome * PhaseHolder :=
  match ops with
  | [] => ([], h)
  | op :: ops =>
      let '(out, h) := perform op h in
      let '(rest, h) := perform_all ops h in
      (out ++ rest, h)
  end.

(** The only histories a session may report from each phase on. *)
Inductive history : SessionPhase → list Outcome → SessionPhase → Prop :=
| history_refl p : history p [] p
| history_begin nonce d l p : history (Registering d) l p → history (AwaitingHello nonce d) (Consumed nonce :: l) p
| history_install d node l p : history (Registered node) l p → history (Registering d) (Installed node :: l) p
| history_ack node l p : history (Ready node) l p → history (Registered node) (Acked :: l) p
| history_close_early q : preRegistration q = true → history q [ClosedWith None] (Closed None)
| history_close_node q node : liveNode q = Some node → history q [ClosedWith (Some node)] (Closed (Some node)).

Lemma history_closed node l p : history (Closed node) l p → l = [] ∧ p = Closed node.
Proof. inversion 1; simplify_eq; done. Qed.

Lemma history_closed_node p l q node :
  history p l q → q = Closed (Some node) →
  (registeredNode p = Some node ∨ In (Installed node) l) ∧ (p = q ∨ In (ClosedWith (Some node)) l).
Proof.
  induction 1 as [p|nonce d l p _ IH|d node' l p _ IH|node' l p _ IH|q Hq|q node' Hq]; intros Heq; subst.
  - auto.
  - destruct (IH eq_refl) as [[?|?] [?|?]]; cbn; auto; done.
  - destruct (IH eq_refl) as [[Hn|?] [?|?]]; cbn in *; simplify_eq; auto.
  - destruct (IH eq_refl) as [[Hn|?] [?|?]]; cbn in *; simplify_eq; auto.
  - done.
  - simplify_eq. split; [left|right; by left]. by destruct q.
Qed.

Lemma perform_step op h l q :
  history (ph (perform op h).2) l q → history (ph h) ((perform op h).1 ++ l) q.
Proof.
  destruct h as [p c].
  destruct op as [|n| |], p as [nonce d|d|node|node|node]; cbn; try done; try (by constructor).
  all: intros [-> ->]%history_closed; by constructor.
Qed.

Lemma perform_history ops : ∀ h, history (ph h) (perform_all ops h).1 (ph (perform_all ops h).2).
Proof.
  induction ops as [|op ops IH]; intros h; cbn; [constructor|].
  pose proof (perform_step op h) as Hs. destruct (perform op h) as [out h1]. cbn [fst snd] in Hs.
  specialize (IH h1). destruct (perform_all ops h1) as [rest h2]. cbn in *. by apply Hs.
Qed.

(** The registration deadline is armed exactly while the session is before its registration. *)
Definition deadline_ok (d : Timer) (h : PhaseHolder) : Prop :=
  match ph h with
  | AwaitingHello _ d' | Registering d' => d' = d ∧ cleared h = []
  | _ => cleared h = [d]
  end.

Lemma perform_deadline d ops : ∀ h, deadline_ok d h → deadline_ok d (perform_all ops h).2.
Proof.
  induction ops as [|op ops IH]; intros [p c] Hok; cbn; [done|].
  destruct (perform op (mkHolder p c)) as [out h] eqn:Hp.
  destruct (perform_all ops h) as [rest h'] eqn:Hr. cbn.
  assert (deadline_ok d h).
  { unfold deadline_ok in *.
    destruct op, p; cbn in Hp, Hok; simplify_eq; cbn; naive_solver. }
  specialize (IH h). rewrite Hr in IH. auto.
Qed.

(** A session follows its handshake once. Whatever calls are made in whatever order, what
    they report is a prefix of: the nonce consumed once, one registration installed, one
    acknowledgement, one close, where the close may come at any point, reports the node exactly
    when one was installed, and nothing is reported after it. The registration deadline is
    cleared exactly once, when the session leaves its challenge phases, and a manager's lifecycle
    never moves back. *)
Theorem session_handshake_once (nonce : string) (deadline : Timer) (ops : list Op) :
  let h := mkHolder (awaitingHello nonce deadline) [] in
  let res := perform_all ops h in
  history (ph h) res.1 (ph res.2) ∧
  cleared res.2 = (if preRegistration (ph res.2) then [] else [deadline]) ∧
  (∀ node, readyNode (ph res.2) = Some node →
     res.1 = [Consumed nonce; Installed node; Acked]) ∧
  (∀ node, ph res.2 = Closed (Some node) → In (Installed node) res.1 ∧ In (ClosedWith (Some node)) res.1) ∧
  ∀ a b, LIFECYCLE_ORDER a ≤ LIFECYCLE_ORDER (advanceLifecycle a b) ∧
         LIFECYCLE_ORDER b ≤ LIFECYCLE_ORDER (advanceLifecycle a b).
Proof.
  intros h res. pose proof (perform_history ops h) as Hh. fold res in Hh.
  pose proof (perform_deadline deadline ops h ltac:(by split)) as Hd. fold res in Hd.
  split; [done|]. split.
  { unfold deadline_ok in Hd. destruct (ph res.2); cbn; try done; by destruct Hd. }
  unfold h in Hh. cbn in Hh. split_and!.
  - intros node Hr. destruct (ph res.2); simplify_eq/=.
    repeat match goal with H : history _ _ (Ready _) |- _ => inversion H; clear H; simplify_eq/= end; done.
  - intros node Hc. rewrite Hc in Hh.
    destruct (history_closed_node _ _ _ node Hh eq_refl) as [[?|?] [?|?]]; done.
  - intros [] []; cbn; lia.
Qed.
End SessionPhase.

(** ** Terminal tickets *)

Module TerminalTickets.

Definition TERMINAL_TICKET_TTL_MS : Z := 60000.
Definition TERMINAL_TICKETS_PER_USER : Z := 16.

Definition ticket_char (c : Ascii.ascii) : bool :=
  let n := Z.of_nat (Ascii.nat_of_ascii c) in
  ((65 <=? n) && (n <=? 90)) || ((97 <=? n) && (n <=? 122)) || ((48 <=? n) && (n <=? 57))
  || (n =? 95) || (n =? 45).

(** [/^[A-Za-z0-9_-]{43}$/] *)
Definition TERMINAL_TICKET_PATTERN (ticket : string) : bool :=
  (String.length ticket =? 43)%nat && forallb ticket_char (String.list_ascii_of_string ticket).

Record TicketEntry := mkEntry {
  userId : string;
  sessionId : string;
  impersonatedBy : option string;
  nodeId : string;
  terminalId : string;
  stepId : option string;
  shell : option string;
  expiresAt : Z;
}.

Inductive RedeemedTerminalTicket :=
| RedeemedOpen (nodeId terminalId : string) (shell : option string)
| RedeemedAttach (nodeId terminalId stepId : string).

Record MintInput := mkMint {
  m_userId : string;
  m_sessionId : string;
  m_impersonatedBy : option string;
  m_nodeId : string;
  m_attach : option (string * string); (** step, terminal *)
  m_shell : option string;
}.

Definition Store := jsmap string TicketEntry.

Section Tickets.
(** SHA-256 in base64url, and the store's lifetime. *)
Variables (digest : string → string) (ttlMs : Z).

(** [for (const [key, entry] of map) if (cond) map.delete(key)] *)
Definition delete_where (cond : TicketEntry → bool) (s : Store) : Store :=
  List.filter (λ ke, negb (cond ke.2)) s.

Definition prune (now : Z) (s : Store) : Store := delete_where (λ e, expiresAt e <=? now) s.

Definition held (user : string) (s : Store) : list (string * TicketEntry) :=
  List.filter (λ ke, bool_decide (userId ke.2 = user)) s.

Definition delete_keys (ks : list string) (s : Store) : Store :=
  foldl (λ s k, map_delete k s) s ks.

(** [ticket] and [freshTerminalId] are the random strings this call drew. *)
Definition mint (now : Z) (input : MintInput) (ticket freshTerminalId : string) (s : Store) :
    (string * string * Z) * Store :=
  let s := prune now s in
  let mine := held (m_userId input) s in
  let excess := Z.max 0 (Z.of_nat (length mine) - TERMINAL_TICKETS_PER_USER + 1) in
  let s := delete_keys (map fst (take (Z.to_nat excess) mine)) s in
  let terminal := match m_attach input with Some (_, t) => t | None => freshTerminalId end in
  let expires := now + ttlMs in
  ((ticket, terminal, expires),
   map_set (digest ticket)
     (mkEntry (m_userId input) (m_sessionId input) (m_impersonatedBy input) (m_nodeId input) terminal
        (fst <$> m_attach input)
        (match m_attach input with Some _ => None | None => m_shell input end) expires) s).

Definition redeemed (e : TicketEntry) : RedeemedTerminalTicket :=
  match stepId e with
  | None => RedeemedOpen (nodeId e) (terminalId e) (shell e)
  | Some step => RedeemedAttach (nodeId e) (terminalId e) step
  end.

Definition redeem (now : Z) (ticket user session : string) (s : Store) :
    option RedeemedTerminalTicket * Store :=
  if negb (TERMINAL_TICKET_PATTERN ticket) then (None, s)
  else match map_get (digest ticket) s with
       | None => (None, s)
       | Some e =>
           let s := map_delete (digest ticket) s in
           if expiresAt e <=? now then (None, s)
           else if negb (bool_decide (userId e = user) && bool_decide (sessionId e = session))
           then (None, s)
           else (Some (redeemed e), s)
       end.

Definition revokeForUser (user : string) (s : Store) : Store :=
  delete_where (λ e, bool_decide (userId e = user) || bool_decide (impersonatedBy e = Some user)) s.

Definition revokeForSession (session : string) (s : Store) : Store :=
  delete_where (λ e, bool_decide (sessionId e = session)) s.

(** *** Histories *)

Inductive TicketOp :=
| OpMint (now : Z) (input : MintInput) (ticket freshTerminalId : string)
| OpRedeem (now : Z) (ticket user session : string)
| OpRevokeUser (user : string)
| OpRevokeSession (session : string).

Definition apply_op (op : TicketOp) (s : Store) : Store :=
  match op with
  | OpMint now input ticket fresh => (mint now input ticket fresh s).2
  | OpRedeem now ticket user session => (redeem now ticket user session s).2
  | OpRevokeUser user => revokeForUser user s
  | OpRevokeSession session => revokeForSession session s
  end.

Definition apply_ops (ops : list TicketOp) (s : Store) : Store := foldl (λ s op, apply_op op s) s ops.

Definition mints (d : string) (op : TicketOp) : bool :=
  match op with OpMint _ _ ticket _ => bool_decide (digest ticket = d) | _ => false end.

(** *** Lemmas *)

Lemma delete_where_NoDup cond s : NoDup (map_keys s) → NoDup (map_keys (delete_where cond s)).
Proof.
  unfold map_keys, delete_where. induction s as [|[k e] s IH]; cbn; [done|].
  intros [Hk Hnd]%NoDup_cons. destruct (negb (cond e)); cbn; [|by apply IH].
  constructor; [|by apply IH]. intros (ke & <- & [Hin _]%filter_In)%list_elem_of_In%in_map_iff.
  apply Hk, list_elem_of_In, in_map_iff. eauto.
Qed.

Lemma map_delete_filter k (s : Store) :
  map_delete k s = List.filter (λ ke, negb (bool_decide (ke.1 = k))) s.
Proof.
  induction s as [|[k' e] s IH]; cbn; [done|]. destruct (decide (k' = k)).
  - by rewrite bool_decide_true.
  - rewrite bool_decide_false by done. cbn. by rewrite IH.
Qed.

Lemma delete_keys_filter ks s :
  delete_keys ks s = List.filter (λ ke, negb (bool_decide (ke.1 ∈ ks))) s.
Proof.
  unfold delete_keys. revert s. induction ks as [|k ks IH]; intros s; cbn.
  - clear. induction s as [|ke s IH]; [done|]. cbn [List.filter].
    rewrite bool_decide_false by apply not_elem_of_nil. cbn. by rewrite <- IH.
  - rewrite IH, map_delete_filter, filter_filter. apply filter_ext. intros ke.
    rewrite <- negb_orb, <- bool_decide_or. f_equal. apply bool_decide_ext. by rewrite elem_of_cons.
Qed.

Lemma map_get_delete_where cond k (s : Store) :
  NoDup (map_keys s) →
  map_get k (delete_where cond s) =
  match map_get k s with Some e => if cond e then None else Some e | None => None end.
Proof.
  unfold delete_where. induction s as [|[k' e] s IH]; cbn; [done|]. intros [Hk Hnd]%NoDup_cons.
  destruct (decide (k' = k)) as [->|Hne].
  - destruct (cond e); cbn; [|by rewrite decide_True].
    destruct (map_get k _) as [e'|] eqn:Hg; [|done]. exfalso. apply Hk.
    apply map_get_In, filter_In in Hg as [Hin _]. apply list_elem_of_In, in_map_iff. by exists (k, e').
  - destruct (cond e); cbn; [by apply IH|]. rewrite decide_False by done. by apply IH.
Qed.

(** Filtering a map keeps each user's share small. *)
Definition count_user (user : string) (s : Store) : nat := length (held user s).

Lemma count_filter user p (s : Store) :
  (count_user user (List.filter p s) ≤ count_user user s)%nat.
Proof.
  unfold count_user, held. rewrite filter_comm. apply List.filter_length_le.
Qed.

Lemma count_set user k e (s : Store) :
  (count_user user (map_set k e s) ≤ count_user user s + (if bool_decide (userId e = user) then 1 else 0))%nat.
Proof.
  unfold count_user, held. induction s as [|[k' e'] s IH]; cbn.
  - by destruct (bool_decide _).
  - destruct (decide (k' = k)); cbn.
    + destruct (bool_decide (userId e = user)), (bool_decide (userId e' = user)); cbn; lia.
    + destruct (bool_decide (userId e' = user)); cbn; lia.
Qed.

Lemma filter_drop n (l : list (string * TicketEntry)) :
  NoDup l.*1 →
  List.filter (λ ke, negb (bool_decide (ke.1 ∈ map fst (take n l)))) l = drop n l.
Proof.
  revert l. induction n as [|n IH]; intros l Hnd; cbn.
  - rewrite drop_0. induction l as [|ke l IHl]; cbn; [done|].
    rewrite bool_decide_false by apply not_elem_of_nil. cbn. f_equal. apply IHl. csimpl in Hnd. by apply NoDup_cons in Hnd as [_ ?].
  - destruct l as [|[k e] l]; cbn; [done|]. csimpl in Hnd. apply NoDup_cons in Hnd as [Hk Hnd].
    rewrite bool_decide_true by by left. cbn [negb]. rewrite <- (IH l Hnd). apply filter_ext_In.
    intros ke Hin. f_equal. apply bool_decide_ext. rewrite elem_of_cons. split; [|auto].
    intros [Heq|?]; [|done]. destruct Hk. apply list_elem_of_In, in_map_iff. eauto.
Qed.

Lemma held_NoDup user s : NoDup (map_keys s) → NoDup (held user s).*1.
Proof.
  intros Hnd. unfold held.
  apply (delete_where_NoDup (λ e, negb (bool_decide (userId e = user)))) in Hnd.
  unfold delete_where, map_keys in Hnd. erewrite filter_ext; [exact Hnd|]. intros ke. cbn.
  by rewrite negb_involutive.
Qed.

(** Making room drops the oldest tickets of the user. *)
Lemma mint_room user s :
  NoDup (map_keys s) →
  let excess := Z.to_nat (Z.max 0 (Z.of_nat (length (held user s)) - TERMINAL_TICKETS_PER_USER + 1)) in
  (count_user user (delete_keys (map fst (take excess (held user s))) s) < 16)%nat.
Proof.
  intros Hnd excess. rewrite delete_keys_filter. unfold count_user.
  assert (Heq : held user (List.filter (λ ke, negb (bool_decide (ke.1 ∈ map fst (take excess (held user s))))) s) =
    drop excess (held user s)).
  { unfold held at 1. rewrite filter_comm. fold (held user s). apply filter_drop. by apply held_NoDup. }
  rewrite Heq, length_drop. unfold excess, TERMINAL_TICKETS_PER_USER. lia.
Qed.

Definition store_ok (s : Store) : Prop :=
  NoDup (map_keys s) ∧ ∀ user, (count_user user s ≤ 16)%nat.

Lemma filter_store_ok (p : string * TicketEntry → bool) (s : Store) :
  NoDup (map_keys (List.filter p s)) → store_ok s → store_ok (List.filter p s).
Proof.
  intros Hnd' [Hnd Hc]. split; [done|]. intros user. pose proof (count_filter user p s).
  specialize (Hc user). lia.
Qed.

Lemma delete_keys_NoDup ks (s : Store) : NoDup (map_keys s) → NoDup (map_keys (delete_keys ks s)).
Proof.
  unfold delete_keys. revert s. induction ks as [|k ks IH]; intros s Hnd; cbn; [done|].
  apply IH. rewrite map_keys_delete. by apply NoDup_filter_bool.
Qed.

Lemma delete_where_ok cond s : store_ok s → store_ok (delete_where cond s).
Proof. intros Hok. apply filter_store_ok; [apply delete_where_NoDup, Hok|done]. Qed.

Lemma map_delete_ok k s : store_ok s → store_ok (map_delete k s).
Proof.
  intros Hok. pose proof Hok as [Hnd _]. rewrite map_delete_filter. apply filter_store_ok; [|done].
  rewrite <- map_delete_filter, map_keys_delete. by apply NoDup_filter_bool.
Qed.

Lemma mint_ok now input ticket fresh s : store_ok s → store_ok (mint now input ticket fresh s).2.
Proof.
  intros Hok. unfold mint. cbn [snd]. pose proof (delete_where_ok (λ e, expiresAt e <=? now) s Hok) as Hp.
  fold (prune now s) in Hp. set (s1 := prune now s) in *. destruct Hp as [Hnd Hc].
  set (ks := map fst (take _ (held _ s1))).
  split; [by apply map_set_NoDup, delete_keys_NoDup|]. intros user.
  pose proof (count_set user (digest ticket) (mkEntry (m_userId input) (m_sessionId input)
    (m_impersonatedBy input) (m_nodeId input)
    (match m_attach input with Some (_, t) => t | None => fresh end) (fst <$> m_attach input)
    (match m_attach input with Some _ => None | None => m_shell input end) (now + ttlMs))
    (delete_keys ks s1)) as Hset.
  cbn [userId] in Hset. destruct (bool_decide_reflect (m_userId input = user)) as [Hu|_].
  - assert (Hroom : (count_user (m_userId input) (delete_keys ks s1) < 16)%nat)
      by exact (mint_room (m_userId input) s1 Hnd).
    rewrite Hu in Hroom. unfold count_user in *. lia.
  - pose proof (count_filter user (λ ke, negb (bool_decide (ke.1 ∈ ks))) s1) as Hle.
    rewrite <- delete_keys_filter in Hle. specialize (Hc user). lia.
Qed.

Lemma apply_op_ok op s : store_ok s → store_ok (apply_op op s).
Proof.
  intros Hok. destruct op as [now input ticket fresh|now ticket user session|user|session]; cbn [apply_op].
  - by apply mint_ok.
  - unfold redeem. destruct (negb (TERMINAL_TICKET_PATTERN ticket)); [done|].
    destruct (map_get (digest ticket) s) as [e|]; [|done].
    repeat (match goal with |- context [if ?b then _ else _] => destruct b end; cbn); by apply map_delete_ok.
  - by apply delete_where_ok.
  - by apply delete_where_ok.
Qed.

(** Where an entry of the store comes from. *)
Definition minted_by (op : TicketOp) (d : string) (e : TicketEntry) : Prop :=
  match op with
  | OpMint now input ticket fresh => d = digest ticket ∧ map_get d (mint now input ticket fresh []).2 = Some e
  | _ => False
  end.

Lemma apply_op_get op s d e :
  NoDup (map_keys s) → map_get d (apply_op op s) = Some e → minted_by op d e ∨ map_get d s = Some e.
Proof.
  intros Hnd. destruct op as [now input ticket fresh|now ticket user session|user|session]; cbn [apply_op].
  - unfold mint. cbn [snd]. rewrite map_get_set. destruct (decide (digest ticket = d)) as [<-|Hne].
    + intros [= <-]. left. split; [done|]. unfold mint. cbn [snd]. by rewrite map_get_set, decide_True by done.
    + intros Hg. right. rewrite delete_keys_filter in Hg.
      apply map_get_In, filter_In in Hg as [Hin _]. apply filter_In in Hin as [Hin _].
      by apply map_get_NoDup.
  - unfold redeem. destruct (negb (TERMINAL_TICKET_PATTERN ticket)); [auto|].
    destruct (map_get (digest ticket) s) as [e'|]; [|auto].
    assert (Hdel : map_get d (map_delete (digest ticket) s) = Some e → map_get d s = Some e).
    { rewrite map_get_delete. by destruct (decide _). }
    repeat (match goal with |- context [if ?b then _ else _] => destruct b end; cbn); auto.
  - unfold revokeForUser. rewrite map_get_delete_where by done. destruct (map_get d s); [|auto].
    by destruct (_ || _); auto.
  - unfold revokeForSession. rewrite map_get_delete_where by done. destruct (map_get d s); [|auto].
    by destruct (bool_decide _); auto.
Qed.

Lemma absent_stays d ops : ∀ s,
  store_ok s → map_get d s = None → existsb (mints d) ops = false → map_get d (apply_ops ops s) = None.
Proof.
  unfold apply_ops. induction ops as [|op ops IH]; intros s Hok Hn Hm; cbn in *; [done|].
  apply orb_false_iff in Hm as [Hm Hms]. apply IH; [by apply apply_op_ok| |done].
  destruct (map_get d (apply_op op s)) as [e|] eqn:Hg; [|done]. exfalso.
  apply apply_op_get in Hg as [Hmint|Hg]; [|congruence|by apply Hok].
  destruct op; try done. destruct Hmint as [-> _]. cbn in Hm. by rewrite bool_decide_true in Hm.
Qed.

Lemma apply_ops_ok ops : ∀ s, store_ok s → store_ok (apply_ops ops s).
Proof.
  unfold apply_ops. induction ops as [|op ops IH]; intros s Hok; cbn; [done|]. by apply IH, apply_op_ok.
Qed.

Lemma apply_ops_get ops d e : ∀ s,
  store_ok s → map_get d (apply_ops ops s) = Some e →
  (∃ op, In op ops ∧ minted_by op d e) ∨ map_get d s = Some e.
Proof.
  unfold apply_ops. induction ops as [|op ops IH]; intros s Hok Hg; cbn in *; [auto|].
  destruct (IH _ (apply_op_ok op s Hok) Hg) as [(op' & ? & ?)|Hg']; [eauto|].
  apply apply_op_get in Hg' as [?|?]; [eauto|auto|by apply Hok].
Qed.

Lemma redeem_burns now ticket user session s :
  TERMINAL_TICKET_PATTERN ticket = true →
  map_get (digest ticket) (redeem now ticket user session s).2 = None.
Proof.
  intros Hpat. unfold redeem. rewrite Hpat. cbn [negb].
  destruct (map_get (digest ticket) s) as [e|] eqn:Hg; [|done].
  assert (Hd : map_get (digest ticket) (map_delete (digest ticket) s) = None)
    by (rewrite map_get_delete; by destruct (decide _)).
  repeat (match goal with |- context [if ?b then _ else _] => destruct b end; cbn); done.
Qed.

Lemma redeem_Some now ticket user session s r s' :
  redeem now ticket user session s = (Some r, s') →
  TERMINAL_TICKET_PATTERN ticket = true ∧
  ∃ e, map_get (digest ticket) s = Some e ∧ now < expiresAt e ∧ userId e = user ∧ sessionId e = session ∧
       r = redeemed e.
Proof.
  unfold redeem. destruct (TERMINAL_TICKET_PATTERN ticket); cbn [negb]; [|done].
  destruct (map_get (digest ticket) s) as [e|]; [|done].
  destruct (Z.leb_spec (expiresAt e) now); [done|].
  destruct (bool_decide_reflect (userId e = user)), (bool_decide_reflect (sessionId e = session)); cbn [andb negb]; try done.
  intros [= <- _]. split; [done|]. by exists e.
Qed.

(** Terminal tickets are one-use, bound and bounded. After any sequence of mints, redemptions
    and revocations: no user holds more than 16 tickets; a redemption that succeeds is of a ticket
    minted for that very user and session, before its expiry, and answers the node, terminal and
    step it was minted with; presenting a ticket uses it up whatever the outcome, so no later
    redemption of it succeeds (as long as no mint draws a ticket of the same digest); and after a
    user or session is revoked none of their tickets is left. *)
Theorem terminal_tickets_one_use (ops : list TicketOp) :
  let s := apply_ops ops [] in
  (∀ user, (count_user user s ≤ 16)%nat) ∧
  (∀ now ticket user session r s', redeem now ticket user session s = (Some r, s') →
     ∃ mintedAt input ticket' fresh e, In (OpMint mintedAt input ticket' fresh) ops ∧
       digest ticket' = digest ticket ∧ m_userId input = user ∧ m_sessionId input = session ∧
       now < mintedAt + ttlMs ∧
       map_get (digest ticket) (mint mintedAt input ticket' fresh []).2 = Some e ∧ r = redeemed e) ∧
  (∀ now ticket user session later now' user' session',
     TERMINAL_TICKET_PATTERN ticket = true → existsb (mints (digest ticket)) later = false →
     (redeem now' ticket user' session' (apply_ops later (redeem now ticket user session s).2)).1 = None) ∧
  (∀ user d e, map_get d (revokeForUser user s) = Some e → userId e ≠ user ∧ impersonatedBy e ≠ Some user) ∧
  (∀ session d e, map_get d (revokeForSession session s) = Some e → sessionId e ≠ session).
Proof.
  intros s. assert (Hok0 : store_ok []) by (split; [apply NoDup_nil_2|intros ?; cbn; lia]).
  pose proof (apply_ops_ok ops [] Hok0) as Hok. fold s in Hok. split_and!.
  - apply Hok.
  - intros now ticket user session r s' (_ & e & Hg & Hexp & Hu & Hs & ->)%redeem_Some.
    destruct (apply_ops_get ops _ _ _ Hok0 Hg) as [(op & Hop & Hm)|Hg0]; [|done].
    destruct op as [mintedAt input ticket' fresh| | |]; try done. destruct Hm as [Hd Hm].
    exists mintedAt, input, ticket', fresh, e. pose proof Hm as Hm'. unfold mint in Hm'. cbn [snd] in Hm'.
    rewrite map_get_set, decide_True in Hm' by done. injection Hm' as <-. cbn in *. auto 10.
  - intros now ticket user session later now' user' session' Hpat Hm.
    assert (Hn : map_get (digest ticket) (apply_ops later (redeem now ticket user session s).2) = None).
    { apply absent_stays; [|by apply redeem_burns|done].
      exact (apply_op_ok (OpRedeem now ticket user session) s Hok). }
    unfold redeem at 1. rewrite Hpat, Hn. done.
  - intros user d e. unfold revokeForUser. rewrite map_get_delete_where by apply Hok.
    destruct (map_get d s) as [e'|]; [|done].
    destruct (bool_decide_reflect (userId e' = user)), (bool_decide_reflect (impersonatedBy e' = Some user));
      cbn; try done. by intros [= <-].
  - intros session d e. unfold revokeForSession. rewrite map_get_delete_where by apply Hok.
    destruct (map_get d s) as [e'|]; [|done].
    destruct (bool_decide_reflect (sessionId e' = session)); [done|]. by intros [= <-].
Qed.
End Tickets.
End TerminalTickets.
