(* ===== verification/Holds.v ===== *)
(** * What a restart keeps holding

    [src/packages/api/src/lib/reservations.ts]: a new run retakes its instance's claims. While
    the run it replaces may still be running, what that run holds (the ranks' previous claims,
    the superseded reservation rows) stays held beside the new plan until its stop is proven.
    The writes around it are those of the lifecycle engine
    ([src/apps/server/src/runtimes/lifecycle.ts], [claimStep]), [recordStoppedThrough] of
    [src/packages/api/src/lib/instance-run.ts], a person's mark ([runtimes.ts]) and
    [src/packages/api/src/lib/claim-release.ts].

    Resources are the canonical JSON text the code compares them by. *)

From S2P Require Import Prelude TargetBreaker.

(** ** A rank's claim *)

Record RankClaim := mkClaim { resources : string; port : Z; distPort : option Z }.

#[export] Instance RankClaim_eq_dec : EqDecision RankClaim.
Proof. solve_decision. Defined.

(** The claim columns of an [instance_rank] row; [prev] is the replaced claim and its
    generation ([prevResources], [prevPort], [prevDistPort], [prevGeneration]). *)
Record RankClaimRow := mkClaimRow {
  claim : ClaimState;
  current : RankClaim;
  plannedGeneration : Z;
  prev : option (RankClaim * Z);
  stoppedThroughRun : Z;
  releasedUnproven : bool;
}.

(** [_max: { generation }] of the rank's dispatched start steps, 0 when none. *)
Definition latestDispatched (generations : list Z) : Z := foldr Z.max 0 generations.

(** The body of the loop of [keepPreviousRankClaims]: [old] is the row before the retake and
    [now] the claim the new run wrote over it. *)
Definition keepPreviousRankClaim (old : RankClaimRow) (now : RankClaim) (dispatchedGenerations : list Z)
    (run : Z) : result RankClaimRow :=
  let latest := run - 1 in
  let changed := negb (bool_decide (current old = now)) in
  let kept := prev old in
  let released := bool_decide (claim old = RELEASED) in
  let! previous :=
    (if released then Ok None
     else if changed then
       let dispatched := latestDispatched dispatchedGenerations in
       if plannedGeneration old <? dispatched then
         match kept with
         | Some _ => Throw (PlainError "A rank's previous claim is still held while its current claim was dispatched.")
         | None => Ok (Some (current old, latest))
         end
       else Ok kept
     else Ok kept) in
  let planned := if changed || released then latest else plannedGeneration old in
  let stopped := if released && negb (releasedUnproven old)
                 then Z.max latest (stoppedThroughRun old) else stoppedThroughRun old in
  Ok (mkClaimRow HELD now planned previous stopped false).

(** [dropSupersededHolds] on a rank. *)
Definition dropPrevious (generation : Z) (r : RankClaimRow) : RankClaimRow :=
  match prev r with
  | Some (_, g) => if g <? generation
                   then mkClaimRow (claim r) (current r) (plannedGeneration r) None
                          (stoppedThroughRun r) (releasedUnproven r)
                   else r
  | None => r
  end.

(** [recordStoppedThrough]. *)
Definition recordStoppedThrough (throughRun : Z) (r : RankClaimRow) : RankClaimRow :=
  if stoppedThroughRun r <? throughRun
  then mkClaimRow (claim r) (current r) (plannedGeneration r) (prev r) throughRun (releasedUnproven r)
  else r.

(** A person marks a held claim stopped. *)
Definition markStopped (r : RankClaimRow) : RankClaimRow :=
  if bool_decide (claim r = HELD)
  then mkClaimRow HELD_UNKNOWN (current r) (plannedGeneration r) (prev r) (stoppedThroughRun r) (releasedUnproven r)
  else r.

(** The update of [releaseClaim]: a released claim holds nothing, a replaced run's included. *)
Definition releaseUpdate (unproven : bool) (r : RankClaimRow) : RankClaimRow :=
  if (if unproven then bool_decide (claim r = HELD_UNKNOWN) else negb (bool_decide (claim r = RELEASED)))
  then mkClaimRow RELEASED (current r) (plannedGeneration r) None (stoppedThroughRun r) (unproven || releasedUnproven r)
  else r.

(** [launchesEnded]: the run through which the rank's launches are proven stopped; [None]: all. *)
Definition launchesEnded (r : RankClaimRow) : option Z :=
  if bool_decide (claim r = RELEASED) && negb (releasedUnproven r) then None else Some (stoppedThroughRun r).

(** ** Reservations *)

Record Reservation := mkReservation {
  v_id : nat;
  v_index : Z;
  v_nodeId : option string;
  v_labels : list string;
  v_resources : string;
  supersededGeneration : option Z;
  v_plannedGeneration : Z;
}.

Record ReservationWrite := mkWrite {
  w_index : Z; w_nodeId : string; w_labels : list string; w_resources : string;
}.

Definition ReservationKey := (Z * option string * string)%type.
Definition reservationRowKey (r : Reservation) : ReservationKey := (v_index r, v_nodeId r, v_resources r).
Definition writeKey (w : ReservationWrite) : ReservationKey := (w_index w, Some (w_nodeId w), w_resources w).

(** A reservation's claim from its instance's rank claims. *)
Definition reservationClaim (ranks : list ClaimState) : ClaimState :=
  if existsb (λ c, bool_decide (c = HELD)) ranks then HELD
  else if existsb (λ c, bool_decide (c = HELD_UNKNOWN)) ranks then HELD_UNKNOWN
  else RELEASED.

Definition is_current (r : Reservation) : bool := bool_decide (supersededGeneration r = None).

(** The loop over [next]: the ids reused, the new labels of reused rows, the rows to create. *)
Record Matching := mkMatching {
  reused : list nat; relabelled : list (nat * list string); created : list ReservationWrite;
}.

Definition match_step (ordered : list Reservation) (m : Matching) (w : ReservationWrite) : Matching :=
  match List.find (λ r, negb (bool_decide (v_id r ∈ reused m)) && bool_decide (reservationRowKey r = writeKey w))
          ordered with
  | None => mkMatching (reused m) (relabelled m) (created m ++ [w])
  | Some r => mkMatching (reused m ++ [v_id r])
                (if bool_decide (v_labels r = w_labels w) then relabelled m
                 else relabelled m ++ [(v_id r, w_labels w)]) (created m)
  end.

Definition matchReservations (rows : list Reservation) (next : list ReservationWrite) : Matching :=
  let ordered := List.filter is_current rows ++ List.filter (λ r, negb (is_current r)) rows in
  foldl (match_step ordered) (mkMatching [] [] []) next.

Definition set_superseded (g : option Z) (r : Reservation) : Reservation :=
  mkReservation (v_id r) (v_index r) (v_nodeId r) (v_labels r) (v_resources r) g (v_plannedGeneration r).
Definition set_labels (ls : list string) (r : Reservation) : Reservation :=
  mkReservation (v_id r) (v_index r) (v_nodeId r) ls (v_resources r) (supersededGeneration r)
    (v_plannedGeneration r).

(** [rowOf] with the id the insert draws. *)
Definition rowOf (latest : Z) (id : nat) (w : ReservationWrite) : Reservation :=
  mkReservation id (w_index w) (Some (w_nodeId w)) (w_labels w) (w_resources w) None latest.

Definition createRows (latest : Z) (firstId : nat) (ws : list ReservationWrite) : list Reservation :=
  imap (λ i w, rowOf latest (firstId + i) w) ws.

(** [replaceInstanceReservations] on the rows of the instance; [dispatched] is the latest
    generation of its dispatched start steps. *)
Definition replaceInstanceReservations (rows : list Reservation) (next : list ReservationWrite)
    (oldRunStopped : bool) (dispatched run : Z) (firstId : nat) : list Reservation :=
  let latest := run - 1 in
  if oldRunStopped then createRows latest firstId next
  else
    let m := matchReservations rows next in
    let dropped r := is_current r && negb (bool_decide (v_id r ∈ reused m)) in
    let rows1 := List.filter (λ r, negb (dropped r && (dispatched <=? v_plannedGeneration r))) rows in
    let rows2 := map (λ r, if dropped r && (v_plannedGeneration r <? dispatched)
                           then set_superseded (Some latest) r else r) rows1 in
    let rows3 := map (λ r, if negb (is_current r) && bool_decide (v_id r ∈ reused m)
                           then set_superseded None r else r) rows2 in
    let rows4 := map (λ r, match List.find (λ p, (p.1 =? v_id r)%nat) (relabelled m) with
                           | Some (_, ls) => set_labels ls r
                           | None => r
                           end) rows3 in
    rows4 ++ createRows latest firstId (created m).

Definition dropSuperseded (generation : Z) (rows : list Reservation) : list Reservation :=
  List.filter (λ r, match supersededGeneration r with Some g => negb (g <? generation) | None => true end) rows.

(** ** Every launch that may still run is held *)

(** A dispatched launch: its run, the claim it uses, whether its process may still run, and
    whether a person released the claim without proof since. *)
Record Launch := mkLaunch { l_run : Z; l_claim : RankClaim; l_running : bool; l_excused : bool }.

(** A rank with its history: the instance's run and the dispatched launches. *)
Record RankHistory := mkHistory { row : RankClaimRow; run : Z; launches : list Launch }.

Definition initialHistory (c : RankClaim) : RankHistory :=
  mkHistory (mkClaimRow HELD c 0 None 0 false) 1 [].

Definition end_launch (ended : Launch → bool) (l : Launch) : Launch :=
  if ended l then mkLaunch (l_run l) (l_claim l) false (l_excused l) else l.
Definition excuse (l : Launch) : Launch := mkLaunch (l_run l) (l_claim l) (l_running l) true.

(** The writes to the rank's row, with what the world does. A proof is taken to be true: when a
    leading stop succeeds with the rank idle, or is satisfied, no launch of an earlier run still
    runs; when [releaseClaim] finds its evidence (the node's stopped and idle answer, or no launch
    since the last proven stop), no launch not yet proven stopped still runs. *)
Inductive hold_step : RankHistory → RankHistory → Prop :=
(** Processes end by themselves. *)
| hold_end h ended : hold_step h (mkHistory (row h) (run h) (map (end_launch ended) (launches h)))
(** A restart writes the claim [now] and begins the next run. *)
| hold_retake h now row' :
    keepPreviousRankClaim (row h) now (map l_run (launches h)) (run h + 1) = Ok row' →
    hold_step h (mkHistory row' (run h + 1) (launches h))
(** The run's leading stop succeeded or was satisfied. *)
| hold_leadingStop h :
    (∀ l, In l (launches h) → l_run l < run h → l_running l = false) →
    hold_step h (mkHistory (recordStoppedThrough (run h - 1) (row h)) (run h) (launches h))
(** A start step of the run is claimed and dispatched: the claim is held, and after the first run
    its leading stop succeeded. *)
| hold_dispatch h :
    claim (row h) = HELD → (run h = 1 ∨ run h - 1 ≤ stoppedThroughRun (row h)) →
    hold_step h (mkHistory (dropPrevious (run h) (row h)) (run h)
                   (mkLaunch (run h) (current (row h)) true false :: launches h))
(** A start step of another rank is claimed: every leading stop of the run, this rank's too,
    succeeded. *)
| hold_drop h :
    run h = 1 ∨ run h - 1 ≤ stoppedThroughRun (row h) →
    hold_step h (mkHistory (dropPrevious (run h) (row h)) (run h) (launches h))
| hold_mark h : hold_step h (mkHistory (markStopped (row h)) (run h) (launches h))
(** The claim is released with proof. *)
| hold_release h :
    (∀ l, In l (launches h) → stoppedThroughRun (row h) < l_run l → l_running l = false) →
    hold_step h (mkHistory (releaseUpdate false (row h)) (run h) (launches h))
(** A person releases a claim marked stopped, without proof. *)
| hold_releaseUnproven h :
    claim (row h) = HELD_UNKNOWN →
    hold_step h (mkHistory (releaseUpdate true (row h)) (run h) (map excuse (launches h))).

Record holds_ok (h : RankHistory) : Prop := {
  hk_planned : 0 ≤ plannedGeneration (row h) < run h;
  hk_bound : stoppedThroughRun (row h) < run h;
  hk_launches : ∀ l, In l (launches h) → 1 ≤ l_run l ≤ run h;
  hk_current : ∀ l, In l (launches h) → plannedGeneration (row h) < l_run l → l_claim l = current (row h);
  hk_prev : ∀ c q, prev (row h) = Some (c, q) →
            q ≤ plannedGeneration (row h) ∧ ∀ l, In l (launches h) → l_run l ≤ q;
  hk_stopped : ∀ l, In l (launches h) → l_run l ≤ stoppedThroughRun (row h) → l_running l = false;
  hk_held : claim (row h) ≠ RELEASED → ∀ l, In l (launches h) → l_running l = true → l_excused l = false →
            l_run l ≤ plannedGeneration (row h) → ∃ q, prev (row h) = Some (l_claim l, q);
  hk_released : claim (row h) = RELEASED → ∀ l, In l (launches h) → l_running l = true →
                l_excused l = true ∧ releasedUnproven (row h) = true;
}.

Lemma latestDispatched_lt x gs : 0 ≤ x → x < latestDispatched gs ↔ ∃ g, In g gs ∧ x < g.
Proof.
  intros Hx. unfold latestDispatched. induction gs as [|g gs IH]; cbn.
  - split; [lia|]. by intros (? & [] & _).
  - split.
    + intros Hlt. destruct (Z.lt_ge_cases x g); [eauto|].
      destruct (proj1 IH) as (g' & ? & ?); [lia|]. eauto.
    + intros (g' & [<-|Hin] & Hlt); [lia|]. assert (x < foldr Z.max 0 gs) by (apply IH; eauto). lia.
Qed.

(** A dispatched launch uses the current claim exactly when it is after its plan. *)
Lemma dispatched_after h :
  holds_ok h →
  plannedGeneration (row h) < latestDispatched (map l_run (launches h)) ↔
  ∃ l, In l (launches h) ∧ plannedGeneration (row h) < l_run l.
Proof.
  intros Hok. pose proof (hk_planned _ Hok). rewrite latestDispatched_lt by lia. split.
  - intros (g & (l & <- & Hin)%in_map_iff & Hlt). eauto.
  - intros (l & Hin & Hlt). exists (l_run l). split; [|done]. by apply in_map.
Qed.

(** The error of a second previous claim never happens. *)
Lemma keepPrevious_total h now :
  holds_ok h → ∃ row', keepPreviousRankClaim (row h) now (map l_run (launches h)) (run h + 1) = Ok row'.
Proof.
  intros Hok. pose proof (dispatched_after h Hok) as Hd. pose proof (hk_prev _ Hok) as Hprev.
  unfold keepPreviousRankClaim. destruct (bool_decide (claim (row h) = RELEASED)); [eauto|].
  destruct (negb _); [|eauto].
  destruct (Z.ltb_spec (plannedGeneration (row h)) (latestDispatched (map l_run (launches h)))) as [Hlt|];
    [|eauto].
  destruct (prev (row h)) as [[c q]|]; [|eauto]. exfalso.
  destruct (Hprev c q eq_refl) as [Hq Hall]. apply Hd in Hlt as (l & Hin & Hlt).
  specialize (Hall _ Hin). lia.
Qed.

Lemma retake_ok h now row' :
  holds_ok h → keepPreviousRankClaim (row h) now (map l_run (launches h)) (run h + 1) = Ok row' →
  holds_ok (mkHistory row' (run h + 1) (launches h)).
Proof.
  intros Hok Hk. pose proof (dispatched_after h Hok) as Hd.
  destruct Hok as [Hp Hb Hl Hc Hprev Hs Hh Hr]. unfold keepPreviousRankClaim in Hk.
  replace (run h + 1 - 1) with (run h) in Hk by lia.
  assert (Hl' : ∀ l, In l (launches h) → 1 ≤ l_run l ≤ run h + 1)
    by (intros l Hin; specialize (Hl _ Hin); lia).
  assert (Hnew : ∀ l, In l (launches h) → run h < l_run l → l_claim l = now)
    by (intros l Hin; specialize (Hl _ Hin); lia).
  destruct (bool_decide_reflect (claim (row h) = RELEASED)) as [Hrel|Hrel].
  { cbn in Hk. rewrite orb_true_r in Hk. injection Hk as <-. specialize (Hr Hrel).
    constructor; cbn -[Z.max]; try done; [lia|destruct (releasedUnproven (row h)); cbn -[Z.max]; lia| |].
    - intros l Hin Hle. destruct (l_running l) eqn:Hrun; [|done]. destruct (Hr _ Hin Hrun) as [_ Hu].
      rewrite Hu in Hle. cbn in Hle. by rewrite Hs in Hrun.
    - intros _ l Hin Hrun Hex. destruct (Hr _ Hin Hrun). congruence. }
  specialize (Hh Hrel).
  destruct (bool_decide_reflect (current (row h) = now)) as [Heq|Hne]; cbn [negb orb] in Hk.
  { cbn in Hk. injection Hk as <-. constructor; cbn; try done; [lia|lia|].
    intros l Hin Hg. rewrite <- Heq. eauto. }
  destruct (Z.ltb_spec (plannedGeneration (row h)) (latestDispatched (map l_run (launches h)))) as [Hlt|Hge].
  - destruct (prev (row h)) as [[c q]|] eqn:Hpr; [done|]. cbn in Hk. injection Hk as <-.
    constructor; cbn; try done; [lia|lia| |].
    + intros c q [= <- <-]. split; [lia|]. intros l Hin. specialize (Hl _ Hin). lia.
    + intros _ l Hin Hrun Hex _. destruct (Z.lt_ge_cases (plannedGeneration (row h)) (l_run l)) as [Hgt|Hle].
      * rewrite (Hc _ Hin Hgt). eauto.
      * destruct (Hh _ Hin Hrun Hex Hle) as (q & Hq). done.
  - cbn in Hk. injection Hk as <-.
    assert (Hle : ∀ l, In l (launches h) → l_run l ≤ plannedGeneration (row h)).
    { intros l Hin. destruct (Z.lt_ge_cases (plannedGeneration (row h)) (l_run l)) as [Hgt|]; [|done].
      assert (plannedGeneration (row h) < latestDispatched (map l_run (launches h))) by (apply Hd; eauto). lia. }
    constructor; cbn; try done; [lia|lia| |].
    + intros c q Hpr. destruct (Hprev _ _ Hpr). split; [lia|done].
    + intros _ l Hin Hrun Hex _. eauto.
Qed.

Lemma dropPrevious_fields h :
  holds_ok h →
  prev (dropPrevious (run h) (row h)) = None ∧
  current (dropPrevious (run h) (row h)) = current (row h) ∧
  plannedGeneration (dropPrevious (run h) (row h)) = plannedGeneration (row h) ∧
  claim (dropPrevious (run h) (row h)) = claim (row h) ∧
  stoppedThroughRun (dropPrevious (run h) (row h)) = stoppedThroughRun (row h) ∧
  releasedUnproven (dropPrevious (run h) (row h)) = releasedUnproven (row h).
Proof.
  intros Hok. pose proof (hk_planned _ Hok) as Hp. unfold dropPrevious.
  destruct (prev (row h)) as [[c q]|] eqn:Hpr; [|by rewrite Hpr].
  destruct (hk_prev _ Hok c q Hpr) as [Hq _]. destruct (Z.ltb_spec q (run h)); [done|lia].
Qed.

(** Once the leading stop of the run succeeded, what an earlier run used needs no hold. *)
Lemma drop_ok h :
  holds_ok h → run h = 1 ∨ run h - 1 ≤ stoppedThroughRun (row h) →
  holds_ok (mkHistory (dropPrevious (run h) (row h)) (run h) (launches h)).
Proof.
  intros Hok Hstop. destruct (dropPrevious_fields h Hok) as (E1 & E2 & E3 & E4 & E5 & E6).
  destruct Hok as [Hp Hb Hl Hc Hprev Hs Hh Hr].
  constructor; cbn [row run launches]; rewrite ?E1, ?E2, ?E3, ?E4, ?E5, ?E6; try done.
  intros _ l Hin Hrun _ Hle. exfalso. specialize (Hl _ Hin).
  destruct Hstop as [?|?]; [lia|]. rewrite (Hs _ Hin) in Hrun by lia. done.
Qed.

(** Launches changed one by one, none coming back to life. *)
Lemma launches_ok h f :
  (∀ l, l_run (f l) = l_run l ∧ l_claim (f l) = l_claim l ∧
        (l_running (f l) = true → l_running l = true) ∧ (l_excused (f l) = false → l_excused l = false)) →
  (claim (row h) = RELEASED → ∀ l, l_excused l = true → l_excused (f l) = true) →
  holds_ok h → holds_ok (mkHistory (row h) (run h) (map f (launches h))).
Proof.
  intros Hf Hex [Hp Hb Hl Hc Hprev Hs Hh Hr].
  constructor; cbn; try done.
  - intros l' (l & <- & Hin)%in_map_iff. destruct (Hf l) as (-> & _). eauto.
  - intros l' (l & <- & Hin)%in_map_iff. destruct (Hf l) as (-> & -> & _). eauto.
  - intros c q Hpr. destruct (Hprev c q Hpr) as [Hq Hall]. split; [done|].
    intros l' (l & <- & Hin)%in_map_iff. destruct (Hf l) as (-> & _). eauto.
  - intros l' (l & <- & Hin)%in_map_iff. destruct (Hf l) as (-> & _ & Hrun & _). intros Hle.
    destruct (l_running (f l)); [|done]. rewrite <- (Hs l Hin Hle). symmetry. by apply Hrun.
  - intros Hrel l' (l & <- & Hin)%in_map_iff. destruct (Hf l) as (-> & -> & H1 & H2). intros Hrun He. eauto.
  - intros Hrel l' (l & <- & Hin)%in_map_iff Hrun. destruct (Hf l) as (_ & _ & H1 & _).
    destruct (Hr Hrel l Hin (H1 Hrun)). auto.
Qed.

Lemma release_proven_ok h :
  holds_ok h → (∀ l, In l (launches h) → stoppedThroughRun (row h) < l_run l → l_running l = false) →
  holds_ok (mkHistory (releaseUpdate false (row h)) (run h) (launches h)).
Proof.
  intros Hok Hproof. unfold releaseUpdate. destruct (bool_decide_reflect (claim (row h) = RELEASED)); [by destruct h|].
  destruct Hok as [Hp Hb Hl Hc Hprev Hs Hh Hr]. constructor; cbn; try done.
  intros _ l Hin Hrun. exfalso. destruct (Z.lt_ge_cases (stoppedThroughRun (row h)) (l_run l)) as [Hlt|Hle].
  - by rewrite (Hproof _ Hin Hlt) in Hrun.
  - by rewrite (Hs _ Hin Hle) in Hrun.
Qed.

Lemma release_unproven_ok h :
  holds_ok h → claim (row h) = HELD_UNKNOWN →
  holds_ok (mkHistory (releaseUpdate true (row h)) (run h) (map excuse (launches h))).
Proof.
  intros Hok Hmark. assert (Hok' : holds_ok (mkHistory (row h) (run h) (map excuse (launches h)))).
  { apply launches_ok; [by intros [? ? ? []]|done|done]. }
  unfold releaseUpdate. rewrite Hmark. cbn. destruct Hok' as [Hp Hb Hl Hc Hprev Hs Hh Hr].
  constructor; cbn; try done. intros _ l (l0 & <- & _)%in_map_iff _. done.
Qed.

Lemma hold_step_ok h h' : hold_step h h' → holds_ok h → holds_ok h'.
Proof.
  intros Hstep Hok.
  destruct Hstep as [h ended|h now row' Hk|h Hproof|h Hheld Hstop|h Hstop|h|h Hproof|h Hmark].
  - apply launches_ok; [| |done].
    + intros l. unfold end_launch. destruct (ended l); cbn; split_and!; done.
    + intros _ l. unfold end_launch. by destruct (ended l).
  - by eapply retake_ok.
  - destruct Hok as [Hp Hb Hl Hc Hprev Hs Hh Hr]. unfold recordStoppedThrough.
    destruct (Z.ltb_spec (stoppedThroughRun (row h)) (run h - 1)); [|by constructor].
    constructor; cbn; try done; [lia|]. intros l Hin Hle. apply Hproof; [done|lia].
  - destruct (drop_ok h Hok Hstop) as [Hp Hb Hl Hc Hprev Hs Hh Hr].
    destruct (dropPrevious_fields h Hok) as (E1 & E2 & E3 & E4 & E5 & E6).
    cbn [row run launches] in *. constructor; cbn [row run launches]; try done.
    + intros l [<-|Hin]; [cbn; lia|eauto].
    + intros l [<-|Hin]; [cbn; by rewrite E2|eauto].
    + rewrite E1. done.
    + intros l [<-|Hin]; [cbn; lia|eauto].
    + intros Hrel l [<-|Hin]; [cbn; lia|eauto].
    + rewrite E4, Hheld. done.
  - by apply drop_ok.
  - destruct Hok as [Hp Hb Hl Hc Hprev Hs Hh Hr]. unfold markStopped.
    destruct (bool_decide_reflect (claim (row h) = HELD)) as [Hheld|]; [|by constructor].
    constructor; cbn; try done. intros _. apply Hh. by rewrite Hheld.
  - by apply release_proven_ok.
  - by apply release_unproven_ok.
Qed.

(** C29. A restart never lets go of what may still run. From an instance's first run on, through
    any sequence of restarts (each writing whatever claim it planned), leading stops, dispatches,
    marks and releases with or without proof, with processes ending at any time and every proof
    true: a launch that may still run, unless a person has released its claim without proof since
    it was dispatched, has the claim it runs on held, as the rank's current claim or as its
    previous one. [launchesEnded] says that a launch is proven stopped only of launches that no
    longer run, those a person released included. And the retake never meets its error case of a
    second previous claim. *)
Theorem restart_keeps_holds (c0 : RankClaim) (h : RankHistory) :
  rtc hold_step (initialHistory c0) h →
  (∀ l, In l (launches h) → l_running l = true → l_excused l = false →
     claim (row h) ≠ RELEASED ∧ (l_claim l = current (row h) ∨ ∃ q, prev (row h) = Some (l_claim l, q))) ∧
  (∀ l, In l (launches h) → l_running l = true → ∃ through, launchesEnded (row h) = Some through ∧ through < l_run l) ∧
  (∀ now, ∃ row', keepPreviousRankClaim (row h) now (map l_run (launches h)) (run h + 1) = Ok row').
Proof.
  intros Hsteps. assert (Hok : holds_ok h).
  { assert (Hini : holds_ok (initialHistory c0)) by (constructor; cbn; try done; lia).
    revert Hini. induction Hsteps as [h|h1 h2 h3 Hs _ IH]; [done|]. intros Hok1. by apply IH, (hold_step_ok h1). }
  split; [|split; [|intros now; by apply keepPrevious_total]]; destruct Hok as [Hp Hb Hl Hc Hprev Hs Hh Hr].
  - intros l Hin Hrun Hex. assert (Hrel : claim (row h) ≠ RELEASED).
    { intros Hrel. destruct (Hr Hrel l Hin Hrun). congruence. }
    split; [done|]. destruct (Z.lt_ge_cases (plannedGeneration (row h)) (l_run l)) as [Hgt|Hle]; [left; eauto|right; eauto].
  - intros l Hin Hrun. exists (stoppedThroughRun (row h)). split.
    + unfold launchesEnded. destruct (bool_decide_reflect (claim (row h) = RELEASED)) as [Hrel|]; [|done].
      destruct (Hr Hrel l Hin Hrun) as [_ ->]. done.
    + destruct (Z.lt_ge_cases (stoppedThroughRun (row h)) (l_run l)) as [|Hle]; [done|].
      by rewrite (Hs l Hin Hle) in Hrun.
Qed.

Definition claim_a : RankClaim := mkClaim "{gpu:0}" 8000 None.
Definition claim_b : RankClaim := mkClaim "{gpu:1}" 8001 None.

(** Run 1 is dispatched on [claim_a]; the restart plans [claim_b]: both are held. *)
Lemma restart_keeps_holds_witness :
  ∃ h, rtc hold_step (initialHistory claim_a) h ∧ current (row h) = claim_b ∧
    launches h = [mkLaunch 1 claim_a true false] ∧ (claim_a = current (row h) ∨ ∃ q, prev (row h) = Some (claim_a, q)).
Proof.
  pose (h1 := mkHistory (mkClaimRow HELD claim_a 0 None 0 false) 1 [mkLaunch 1 claim_a true false]).
  pose (h := mkHistory (mkClaimRow HELD claim_b 1 (Some (claim_a, 1)) 0 false) 2 [mkLaunch 1 claim_a true false]).
  assert (Hsteps : rtc hold_step (initialHistory claim_a) h).
  { eapply rtc_l with h1; [apply (hold_dispatch (initialHistory claim_a)); [done|by left]|].
    eapply rtc_l with h; [apply (hold_retake h1 claim_b); reflexivity|apply rtc_refl]. }
  exists h. split; [done|]. split; [done|]. split; [done|].
  apply (proj1 (restart_keeps_holds claim_a h Hsteps) (mkLaunch 1 claim_a true false)); [by left|done|done].
Defined.

(** ** The rows of a replaced plan *)

(** What the loop over [next] leaves: each write is either assigned a row holding the same, each
    row at most once, or created. *)
Record matching_ok (rows : list Reservation) (done : list ReservationWrite)
    (asg : list (Reservation * ReservationWrite)) (m : Matching) : Prop := {
  mo_reused : reused m = map (v_id ∘ fst) asg;
  mo_nodup : NoDup (reused m);
  mo_rows : ∀ r w, In (r, w) asg → In r rows ∧ reservationRowKey r = writeKey w;
  mo_perm : done ≡ₚ map snd asg ++ created m;
  mo_labels : relabelled m = map (λ p, (v_id p.1, w_labels p.2))
                (List.filter (λ p, negb (bool_decide (v_labels p.1 = w_labels p.2))) asg);
}.

Lemma match_step_ok rows ordered done asg m w :
  ordered ≡ₚ rows → matching_ok rows done asg m →
  ∃ asg', matching_ok rows (done ++ [w]) asg' (match_step ordered m w).
Proof.
  intros Hord [Hre Hnd Hin Hperm Hlab]. unfold match_step.
  destruct (List.find _ ordered) as [r|] eqn:Hfind.
  - apply find_some in Hfind as [Hr [Hnew Hkey]%andb_prop].
    apply negb_true_iff, bool_decide_eq_false in Hnew. apply bool_decide_eq_true in Hkey.
    exists (asg ++ [(r, w)]). split; cbn.
    + by rewrite map_app, Hre.
    + apply NoDup_app. split; [done|]. split; [|apply NoDup_singleton].
      intros x Hx ->%list_elem_of_singleton. done.
    + intros r' w' [|[[= <- <-]|[]]]%in_app_or; [eauto|]. split; [|done].
      apply list_elem_of_In. rewrite <- Hord. by apply list_elem_of_In.
    + rewrite Hperm, map_app, <- !app_assoc. f_equiv. apply Permutation_app_comm.
    + rewrite List.filter_app, map_app, Hlab. cbn.
      destruct (bool_decide _); cbn; by rewrite ?app_nil_r.
  - exists asg. split; cbn; try done. by rewrite Hperm, <- app_assoc.
Qed.

Lemma matchReservations_ok rows next : ∃ asg, matching_ok rows next asg (matchReservations rows next).
Proof.
  unfold matchReservations. set (ordered := _ ++ _).
  assert (Hord : ordered ≡ₚ rows) by apply filter_split_perm.
  clearbody ordered. induction next as [|w next [asg IH]] using rev_ind.
  - exists []. split; cbn; try done. apply NoDup_nil_2.
  - rewrite foldl_app. by apply (match_step_ok rows ordered next asg).
Qed.

(** What becomes of one row. *)
Definition labels_of (m : Matching) (r : Reservation) : list string :=
  match List.find (λ p, (p.1 =? v_id r)%nat) (relabelled m) with
  | Some (_, ls) => ls
  | None => v_labels r
  end.

Definition replace_row (m : Matching) (dispatched latest : Z) (r : Reservation) : option Reservation :=
  if bool_decide (v_id r ∈ reused m) then Some (set_labels (labels_of m r) (set_superseded None r))
  else if is_current r then
    (if v_plannedGeneration r <? dispatched then Some (set_superseded (Some latest) r) else None)
  else Some r.

Lemma unreused_labels rows next asg m r :
  matching_ok rows next asg m → v_id r ∉ reused m →
  List.find (λ p, (p.1 =? v_id r)%nat) (relabelled m) = None.
Proof.
  intros [Hre _ _ _ Hlab] Hnot. destruct (List.find _ _) as [[i ls]|] eqn:Hf; [|done]. exfalso.
  apply find_some in Hf as [Hin Hi%Nat.eqb_eq]. cbn in Hi. subst i. apply Hnot. rewrite Hre.
  rewrite Hlab in Hin. apply in_map_iff in Hin as ([r' w] & [= Hid _] & [Hin _]%filter_In).
  rewrite <- Hid. apply list_elem_of_In, in_map_iff. by exists (r', w).
Qed.

Lemma replace_rows next asg m rows all dispatched latest firstId :
  matching_ok all next asg m →
  let dropped r := is_current r && negb (bool_decide (v_id r ∈ reused m)) in
  map (λ r, match List.find (λ p, (p.1 =? v_id r)%nat) (relabelled m) with
            | Some (_, ls) => set_labels ls r | None => r end)
    (map (λ r, if negb (is_current r) && bool_decide (v_id r ∈ reused m) then set_superseded None r else r)
      (map (λ r, if dropped r && (v_plannedGeneration r <? dispatched)
                 then set_superseded (Some latest) r else r)
        (List.filter (λ r, negb (dropped r && (dispatched <=? v_plannedGeneration r))) rows)))
    ++ createRows latest firstId (created m) =
  omap (replace_row m dispatched latest) rows ++ createRows latest firstId (created m).
Proof.
  intros Hok dropped. f_equal. rewrite !map_map, map_filter_omap. apply omap_ext. intros r.
  pose proof (unreused_labels _ _ _ _ r Hok) as Hun. unfold dropped, replace_row.
  destruct (bool_decide_reflect (v_id r ∈ reused m)) as [Hr|Hr]; cbn [negb andb].
  - rewrite !andb_false_r. cbn [negb andb]. rewrite (bool_decide_true (v_id r ∈ reused m)), andb_true_r by done.
    unfold labels_of, is_current.
    destruct r as [id ix nd ls rs sup pl]; cbn in *.
    destruct sup; cbn; rewrite ?bool_decide_true by done; cbn; by destruct (List.find _ _) as [[? ?]|].
  - specialize (Hun Hr). rewrite !andb_true_r. destruct (is_current r) eqn:Hc; cbn [andb].
    + destruct (Z.leb_spec dispatched (v_plannedGeneration r)) as [Hle|Hgt];
        destruct (Z.ltb_spec (v_plannedGeneration r) dispatched); cbn [negb]; try lia; [done|].
      replace (v_id (set_superseded (Some latest) r)) with (v_id r) by done.
      rewrite (bool_decide_false (v_id r ∈ reused m)), andb_false_r by done.
      cbn [v_id set_superseded]. by rewrite Hun.
    + cbn [negb andb]. by rewrite Hc, (bool_decide_false (v_id r ∈ reused m)), andb_false_r, Hun.
Qed.

(** A reused row has the labels of the write it was assigned to. *)
Lemma labels_of_assigned rows next asg m r w :
  matching_ok rows next asg m → In (r, w) asg → labels_of m r = w_labels w.
Proof.
  intros [Hre Hnd Hin _ Hlab] Hrw. unfold labels_of.
  assert (Huniq : ∀ r' w', In (r', w') asg → v_id r' = v_id r → (r', w') = (r, w)).
  { intros r' w' Hrw' Hid. rewrite Hre in Hnd. by eapply (NoDup_map_inj (v_id ∘ fst)). }
  destruct (List.find _ _) as [[i ls]|] eqn:Hf.
  - apply find_some in Hf as [Hf Hi%Nat.eqb_eq]. cbn in Hi. subst i. rewrite Hlab in Hf.
    apply in_map_iff in Hf as ([r' w'] & [= Hid <-] & [Hin' _]%filter_In).
    apply (Huniq _ _ Hin') in Hid. by injection Hid as -> ->.
  - destruct (decide (v_labels r = w_labels w)) as [|Hne]; [done|]. exfalso.
    enough (He : (v_id r =? v_id r)%nat = false) by by rewrite Nat.eqb_refl in He.
    apply (find_none _ _ Hf (v_id r, w_labels w)). rewrite Hlab. apply in_map_iff. exists (r, w).
    split; [done|]. apply filter_In. split; [done|]. by rewrite bool_decide_false.
Qed.

(** What a row holds and why its node was chosen; the same of a wanted reservation. *)
Definition view (r : Reservation) : ReservationKey * list string := (reservationRowKey r, v_labels r).
Definition wanted (w : ReservationWrite) : ReservationKey * list string := (writeKey w, w_labels w).

Lemma created_current latest firstId ws :
  List.filter is_current (createRows latest firstId ws) = createRows latest firstId ws ∧
  map view (createRows latest firstId ws) = map wanted ws.
Proof.
  unfold createRows. revert firstId. induction ws as [|w ws IH]; intros firstId; [done|]. cbn.
  destruct (IH (S firstId)) as [IH1 IH2].
  assert (Hs : imap ((λ i w0, rowOf latest (firstId + i) w0) ∘ S) ws =
    imap (λ i w0, rowOf latest (S firstId + i) w0) ws).
  { apply imap_ext. intros i w' _. cbn. f_equal. lia. }
  rewrite Hs, IH1, IH2. done.
Qed.

Lemma current_replaced m dispatched latest rows :
  map view (List.filter is_current (omap (replace_row m dispatched latest) rows)) =
  map (λ r, (reservationRowKey r, labels_of m r)) (List.filter (λ r, bool_decide (v_id r ∈ reused m)) rows).
Proof.
  induction rows as [|r rows IH]; [done|]. cbn [omap list_omap List.filter]. unfold replace_row at 1.
  destruct (bool_decide (v_id r ∈ reused m)); [cbn; by rewrite IH|].
  destruct (is_current r) eqn:Hc; [|cbn; by rewrite Hc].
  by destruct (v_plannedGeneration r <? dispatched).
Qed.

Lemma reused_rows rows next asg m :
  NoDup (map v_id rows) → matching_ok rows next asg m →
  List.filter (λ r, bool_decide (v_id r ∈ reused m)) rows ≡ₚ map fst asg.
Proof.
  intros Hids [Hre Hnd Hin _ _]. rewrite Hre in Hnd. apply NoDup_Permutation.
  - apply NoDup_filter_bool. apply (NoDup_fmap_1 v_id), Hids.
  - apply (NoDup_fmap_1 v_id). rewrite <- (map_map fst v_id asg : _ = map (v_id ∘ fst) asg) in Hnd. exact Hnd.
  - intros r. rewrite !list_elem_of_In, filter_In, bool_decide_eq_true, Hre, list_elem_of_In, !in_map_iff.
    split.
    + intros (Hr & [r' w] & Hid & Hrw). exists (r', w). split; [|done]. cbn in *.
      apply (NoDup_map_inj v_id rows); [done| |done|done]. by apply (Hin r' w).
    + intros ([r' w] & Heq & Hrw). cbn in Heq. subst r'. split; [by apply (Hin r w)|]. by exists (r, w).
Qed.

(** The current rows after a replacement are those of the plan. *)
Lemma replaced_current rows next stopped dispatched run firstId :
  NoDup (map v_id rows) →
  map view (List.filter is_current (replaceInstanceReservations rows next stopped dispatched run firstId))
    ≡ₚ map wanted next.
Proof.
  intros Hids. unfold replaceInstanceReservations. destruct stopped.
  { destruct (created_current (run - 1) firstId next) as [-> ->]. done. }
  destruct (matchReservations_ok rows next) as [asg Hok]. cbv zeta.
  rewrite (replace_rows _ _ _ rows _ dispatched (run - 1) firstId Hok).
  destruct (created_current (run - 1) firstId (created (matchReservations rows next))) as [E1 E2].
  rewrite List.filter_app, map_app, E1, E2, current_replaced, (reused_rows _ _ _ _ Hids Hok).
  transitivity (map wanted (map snd asg ++ created (matchReservations rows next)));
    [|symmetry; apply Permutation_map, Hok].
  rewrite map_app. f_equiv.
  rewrite !map_map. erewrite map_ext_in; [reflexivity|]. intros [r w] Hrw. cbn. unfold wanted.
  by rewrite (labels_of_assigned _ _ _ _ _ _ Hok Hrw), (proj2 (mo_rows _ _ _ _ Hok _ _ Hrw)).
Qed.

(** Nothing an earlier run may use is let go. *)
Lemma replaced_kept rows next dispatched run firstId r :
  In r rows → is_current r = false ∨ v_plannedGeneration r < dispatched →
  ∃ r', In r' (replaceInstanceReservations rows next false dispatched run firstId) ∧
        v_id r' = v_id r ∧ reservationRowKey r' = reservationRowKey r.
Proof.
  intros Hr Hused. unfold replaceInstanceReservations.
  destruct (matchReservations_ok rows next) as [asg Hok]. cbv zeta.
  rewrite (replace_rows _ _ _ rows _ dispatched (run - 1) firstId Hok).
  enough (∃ r', replace_row (matchReservations rows next) dispatched (run - 1) r = Some r' ∧
            v_id r' = v_id r ∧ reservationRowKey r' = reservationRowKey r) as (r' & Hrr & Heq).
  { exists r'. split; [|done]. apply in_or_app. left. apply list_elem_of_In, list_elem_of_omap.
    exists r. by rewrite list_elem_of_In. }
  unfold replace_row. destruct (bool_decide (v_id r ∈ _)); [by eexists|].
  destruct (is_current r); [|by eexists]. destruct Hused as [|Hlt]; [done|].
  destruct (Z.ltb_spec (v_plannedGeneration r) dispatched); [by eexists|lia].
Qed.

(** A start step of the run leaves exactly its plan. *)
Lemma replaced_dropped rows next stopped dispatched run firstId :
  (∀ r g, In r rows → supersededGeneration r = Some g → g < run) →
  let out := replaceInstanceReservations rows next stopped dispatched run firstId in
  dropSuperseded run out = List.filter is_current out.
Proof.
  intros Hold out. unfold dropSuperseded. apply filter_ext_In. intros r Hr. unfold is_current.
  destruct (supersededGeneration r) as [g|] eqn:Hg; [|done]. rewrite bool_decide_false by done.
  apply negb_false_iff, Z.ltb_lt. unfold out, replaceInstanceReservations in Hr. destruct stopped.
  { rewrite <- (proj1 (created_current _ _ _)) in Hr. apply filter_In in Hr as [_ Hc].
    unfold is_current in Hc. by rewrite Hg in Hc. }
  destruct (matchReservations_ok rows next) as [asg Hok]. cbv zeta in Hr.
  rewrite (replace_rows _ _ _ rows _ dispatched (run - 1) firstId Hok) in Hr.
  apply in_app_or in Hr as [Hr|Hr]; cycle 1.
  { rewrite <- (proj1 (created_current _ _ _)) in Hr. apply filter_In in Hr as [_ Hc].
    unfold is_current in Hc. by rewrite Hg in Hc. }
  apply list_elem_of_In, list_elem_of_omap in Hr as (r0 & Hr0%list_elem_of_In & Hrep).
  unfold replace_row in Hrep. destruct (bool_decide _); [by injection Hrep as <-|].
  destruct (is_current r0); [|injection Hrep as <-; eauto].
  destruct (_ <? _); [|done]. injection Hrep as <-. cbn in Hg. injection Hg as <-. lia.
Qed.

(** A restart's reservations, whatever rows there were. The instance's current rows are
    exactly the new plan's, with its nodes, resources and labels (a row already holding the same
    is reused, each one once). Unless the old run was proven stopped, every row that may be in
    use (superseded, or dispatched since its plan) still holds its memory on its node. And once a
    start of the new run is claimed, exactly the plan's rows are left. *)
Theorem reservations_follow_plan (rows : list Reservation) (next : list ReservationWrite)
    (stopped : bool) (dispatched run : Z) (firstId : nat) :
  NoDup (map v_id rows) →
  (∀ r g, In r rows → supersededGeneration r = Some g → g < run) →
  let out := replaceInstanceReservations rows next stopped dispatched run firstId in
  map view (List.filter is_current out) ≡ₚ map wanted next ∧
  (stopped = false → ∀ r, In r rows → is_current r = false ∨ v_plannedGeneration r < dispatched →
     ∃ r', In r' out ∧ v_id r' = v_id r ∧ reservationRowKey r' = reservationRowKey r) ∧
  map view (dropSuperseded run out) ≡ₚ map wanted next.
Proof.
  intros Hids Hold out. split; [by apply replaced_current|]. split.
  - intros ->. intros r. apply replaced_kept.
  - unfold out. rewrite replaced_dropped by done. by apply replaced_current.
Qed.

Definition row_a : Reservation := mkReservation 1 0 (Some "n1") ["big"] "8" None 0.
Definition row_b : Reservation := mkReservation 2 1 (Some "n2") [] "4" None 0.

(** Run 1 used both rows; the restart keeps the first, relabelled, and moves the second. *)
Lemma reservations_follow_plan_witness :
  map view (dropSuperseded 2
    (replaceInstanceReservations [row_a; row_b] [mkWrite 0 "n1" [] "8"; mkWrite 1 "n3" [] "4"] false 1 2 3))
    ≡ₚ [((0, Some "n1", "8"), []); ((1, Some "n3", "4"), [])].
Proof.
  apply (reservations_follow_plan [row_a; row_b] [mkWrite 0 "n1" [] "8"; mkWrite 1 "n3" [] "4"] false 1 2 3).
  - repeat constructor; set_solver.
  - intros r g [<-|[<-|[]]]; done.
Defined.
