(* ===== verification/LeaseOwner.v ===== *)
(** * The lease owner: heartbeats and release

    [src/apps/server/src/model-api/capacity/lease-owner.ts] ([CapacityLeaseOwner],
    [releaseCapacityLeaseWithRetry]), with the [heartbeat] and [release] updates of
    [postgres-store.ts] it runs on, the reclaim and the orphan sweep that may end its lease, and
    the request scope of [request-scope.ts].

    The owner is a state machine over what wakes it: its interval, its timeouts, an answer of the
    database, an abort. Between two events only time passes. One clock stands for
    [performance.now()] and the database's clock (both run at the same rate); a timeout fires at
    most [lag] after its time. Every step that changes the owner's fields is the code between two
    awaits. *)

From S2P Require Import Prelude.

(** ** The lease row *)

(** The row of the lease with this owner's fencing token: [active] is its ACTIVE state, [orphaned]
    whether the target, the capacity or the user it names was deleted. *)
Record LeaseRow := mkLease { active : bool; expiresAt : Z; orphaned : bool }.

(** The update of [PostgresCapacityAdmissionStore.heartbeat]: the row after it and the answer. *)
Definition store_heartbeat (extensionMs now : Z) (row : LeaseRow) : LeaseRow * bool :=
  let boundedExtensionMs := Z.min extensionMs (5 * 60000) in
  if active row && (now <? expiresAt row) then (mkLease true (now + boundedExtensionMs) (orphaned row), true)
  else (row, false).

(** The lease part of [PostgresCapacityAdmissionStore.release]. *)
Definition store_release (row : LeaseRow) : LeaseRow * bool :=
  (mkLease false (expiresAt row) (orphaned row), active row).

(** The update of [reclaimExpired]. *)
Definition store_reclaimExpired (now : Z) (row : LeaseRow) : LeaseRow :=
  if active row && (expiresAt row <=? now) then mkLease false (expiresAt row) (orphaned row) else row.

(** The lease part of [sweepOrphans]: an ACTIVE lease is released, expired or not, once its target,
    capacity or user is gone. *)
Definition store_sweepOrphans (row : LeaseRow) : LeaseRow :=
  if active row && orphaned row then mkLease false (expiresAt row) true else row.

(** ** The owner *)

Inductive CapacityLeaseLossKind :=
  ownership_lost | heartbeat_timeout | heartbeat_failed | max_lifetime | request_scope_closed.

(** The reasons [release] is called with. *)
Inductive Reason := LeaseLost (kind : CapacityLeaseLossKind) | ParentAborted | ReleasedByCaller.

Definition CAPACITY_HEARTBEAT_RETRY_DELAYS_MS : list Z := [1000; 2000; 4000].
Definition CAPACITY_HEARTBEAT_RETRY_MARGIN_MS : Z := 2000.
Definition RELEASE_DELAYS_MS : list Z := [0; 25; 100; 250].

(** Where [heartbeat] is: not running, awaiting the store (started at, retry, the answer once the
    database has executed it), or in [waitForRetry] (the end of the delay, [None] once woken). *)
Inductive Heartbeat :=
| HbIdle
| HbFlight (startedAt : Z) (retry : nat) (answer : option bool)
| HbBackoff (until : option Z) (retry : nat).

(** [releasePromise]: the attempts of [releaseCapacityLeaseWithRetry] still to make, with the
    time the next one is made, or its result. *)
Inductive Releasing := RelNone | RelTrying (attempts : list Z) (at_ : Z) | RelDone (ok : bool).

(** What the world sees of an owner, in order. *)
Inductive Effect := HeartbeatSent | DispatchAborted (reason : Reason) | ReleaseSent (ok : bool).

Record Owner := mkOwner {
  timer : bool;
  hb : Heartbeat;
  watchdog : option Z;
  lifetimeCap : option Z;
  acknowledgedUntil : Z;
  releasePromise : Releasing;
  stopped : bool;
  listening : bool; (* to the parent's abort *)
  ready : bool;
  effects : list Effect;
}.

(** [heartbeatRunning] is true exactly between the start of [heartbeat] and its [finally]. *)
Definition heartbeatRunning (o : Owner) : bool := match hb o with HbIdle => false | _ => true end.

Definition set_hb (h : Heartbeat) (o : Owner) : Owner :=
  mkOwner (timer o) h (watchdog o) (lifetimeCap o) (acknowledgedUntil o) (releasePromise o)
    (stopped o) (listening o) (ready o) (effects o).

(** The end of [heartbeat]; the first one resolves [ready]. *)
Definition endHeartbeat (o : Owner) : Owner :=
  mkOwner (timer o) HbIdle (watchdog o) (lifetimeCap o) (acknowledgedUntil o) (releasePromise o)
    (stopped o) (listening o) true (effects o).

Definition sendHeartbeat (now : Z) (retry : nat) (o : Owner) : Owner :=
  mkOwner (timer o) (HbFlight now retry None) (watchdog o) (lifetimeCap o) (acknowledgedUntil o)
    (releasePromise o) (stopped o) (listening o) (ready o) (effects o ++ [HeartbeatSent]).

Definition heartbeat (now : Z) (o : Owner) : Owner :=
  if stopped o || heartbeatRunning o then o else sendHeartbeat now 0 o.

Definition wakeRetry (h : Heartbeat) : Heartbeat :=
  match h with HbBackoff _ retry => HbBackoff None retry | _ => h end.

Definition release (reason : Reason) (now : Z) (o : Owner) : Owner :=
  match releasePromise o with
  | RelNone =>
      mkOwner false (wakeRetry (hb o)) None None (acknowledgedUntil o)
        (RelTrying RELEASE_DELAYS_MS now) true false (ready o) (effects o ++ [DispatchAborted reason])
  | _ => o
  end.

Definition watchOwnership (milliseconds now : Z) (o : Owner) : Owner :=
  mkOwner (timer o) (hb o) (Some (now + Z.max 0 milliseconds)) (lifetimeCap o) (acknowledgedUntil o)
    (releasePromise o) (stopped o) (listening o) (ready o) (effects o).

Definition set_acknowledgedUntil (t : Z) (o : Owner) : Owner :=
  mkOwner (timer o) (hb o) (watchdog o) (lifetimeCap o) t (releasePromise o) (stopped o) (listening o)
    (ready o) (effects o).

(** The constructor. [scope] is the request scope it registers with, if any: whether it is
    already closing; [parent] is its parent signal, if any: whether it is already aborted. An
    infinite [maxLifetimeMs] is [None]. *)
Definition construct (heartbeatIntervalMs leaseExtensionMs : Z) (renewOnStart : bool)
    (maxLifetimeMs : option Z) (parent scope : option bool) (now : Z) : Owner :=
  let o := mkOwner (0 <? heartbeatIntervalMs) HbIdle
             (if 0 <? heartbeatIntervalMs then Some (now + Z.max 0 leaseExtensionMs) else None)
             (match maxLifetimeMs with
              | Some ms => if 0 <? ms then Some (now + ms) else None
              | None => None
              end)
             (now + leaseExtensionMs) RelNone false false false [] in
  let o := match scope with Some true => release (LeaseLost request_scope_closed) now o | _ => o end in
  let o := match parent with
           | Some aborted =>
               let o := mkOwner (timer o) (hb o) (watchdog o) (lifetimeCap o) (acknowledgedUntil o)
                          (releasePromise o) (stopped o) true (ready o) (effects o) in
               if aborted then release ParentAborted now o else o
           | None => o
           end in
  if renewOnStart && negb (stopped o) then heartbeat now o
  else mkOwner (timer o) (hb o) (watchdog o) (lifetimeCap o) (acknowledgedUntil o) (releasePromise o)
         (stopped o) (listening o) true (effects o).

(** [heartbeat] after its await: the store threw. *)
Definition heartbeatThrew (now : Z) (retry : nat) (o : Owner) : Owner :=
  if stopped o then endHeartbeat o
  else
    let delay := nth (Nat.min retry 2) CAPACITY_HEARTBEAT_RETRY_DELAYS_MS 0 in
    let remaining := acknowledgedUntil o - now in
    if remaining <=? delay + CAPACITY_HEARTBEAT_RETRY_MARGIN_MS
    then endHeartbeat (release (LeaseLost heartbeat_failed) now o)
    else set_hb (HbBackoff (Some (now + delay)) retry) o.

(** [heartbeat] after [waitForRetry]. *)
Definition retryWoken (now : Z) (retry : nat) (o : Owner) : Owner :=
  if stopped o then endHeartbeat o else sendHeartbeat now (S retry) o.

(** [heartbeat] after its await: the store answered. *)
Definition heartbeatAnswered (leaseExtensionMs startedAt : Z) (retained : bool) (now : Z) (o : Owner) : Owner :=
  if stopped o then endHeartbeat o
  else if negb retained then endHeartbeat (release (LeaseLost ownership_lost) now o)
  else
    let acknowledged := startedAt + leaseExtensionMs in
    let remaining := acknowledged - now in
    if remaining <=? 0 then endHeartbeat (release (LeaseLost heartbeat_timeout) now o)
    else endHeartbeat (watchOwnership remaining now (set_acknowledgedUntil acknowledged o)).

(** One attempt of [releaseCapacityLeaseWithRetry]: [acknowledged] is whether the store answered
    true (false: it answered false or threw). *)
Definition releaseAttempt (acknowledged : bool) (now : Z) (o : Owner) : Owner :=
  match releasePromise o with
  | RelTrying (_ :: rest) _ =>
      mkOwner (timer o) (hb o) (watchdog o) (lifetimeCap o) (acknowledgedUntil o)
        (if acknowledged then RelDone true
         else match rest with [] => RelDone false | delay :: _ => RelTrying rest (now + delay) end)
        (stopped o) (listening o) (ready o) (effects o ++ [ReleaseSent acknowledged])
  | _ => o
  end.

(** ** The owner in its world *)

Record World := mkWorld { owner : Owner; clock : Z; lease : LeaseRow }.

(** The events, for an owner with this extension. A parent's abort, the caller's release and the
    scope's close may come at any time; the interval too (it fires only while it is armed). *)
Inductive owner_step (ext lag : Z) : World → World → Prop :=
(** Time passes, at most [lag] past an armed timeout. *)
| os_time w d :
    0 ≤ d →
    (∀ t, watchdog (owner w) = Some t → clock w + d ≤ t + lag) →
    (∀ t, lifetimeCap (owner w) = Some t → clock w + d ≤ t + lag) →
    owner_step ext lag w (mkWorld (owner w) (clock w + d) (lease w))
| os_interval w :
    timer (owner w) = true →
    owner_step ext lag w (mkWorld (heartbeat (clock w) (owner w)) (clock w) (lease w))
| os_watchdog w t :
    watchdog (owner w) = Some t → t ≤ clock w →
    owner_step ext lag w
      (mkWorld (release (LeaseLost heartbeat_timeout) (clock w) (owner w)) (clock w) (lease w))
| os_lifetime w t :
    lifetimeCap (owner w) = Some t → t ≤ clock w →
    owner_step ext lag w
      (mkWorld (release (LeaseLost max_lifetime) (clock w) (owner w)) (clock w) (lease w))
| os_parentAbort w :
    listening (owner w) = true →
    owner_step ext lag w (mkWorld (release ParentAborted (clock w) (owner w)) (clock w) (lease w))
| os_release w reason :
    reason = ReleasedByCaller ∨ reason = LeaseLost request_scope_closed →
    owner_step ext lag w (mkWorld (release reason (clock w) (owner w)) (clock w) (lease w))
(** The database executes the heartbeat in flight. *)
| os_executed w startedAt retry row' ok :
    hb (owner w) = HbFlight startedAt retry None →
    store_heartbeat ext (clock w) (lease w) = (row', ok) →
    owner_step ext lag w
      (mkWorld (set_hb (HbFlight startedAt retry (Some ok)) (owner w)) (clock w) row')
(** Its answer arrives, or the call fails (executed or not). *)
| os_answered w startedAt retry ok :
    hb (owner w) = HbFlight startedAt retry (Some ok) →
    owner_step ext lag w
      (mkWorld (heartbeatAnswered ext startedAt ok (clock w) (owner w)) (clock w) (lease w))
| os_threw w startedAt retry answer :
    hb (owner w) = HbFlight startedAt retry answer →
    owner_step ext lag w (mkWorld (heartbeatThrew (clock w) retry (owner w)) (clock w) (lease w))
| os_retry w until retry :
    hb (owner w) = HbBackoff until retry → (∀ t, until = Some t → t ≤ clock w) →
    owner_step ext lag w (mkWorld (retryWoken (clock w) retry (owner w)) (clock w) (lease w))
(** A release attempt: the store releases the row (and says so, or its answer is lost), or fails
    before it. *)
| os_releaseAttempt w attempts at_ row' acknowledged :
    releasePromise (owner w) = RelTrying attempts at_ → at_ ≤ clock w →
    (row' = lease w ∧ acknowledged = false ∨
     row' = (store_release (lease w)).1 ∧ (acknowledged = true → acknowledged = (store_release (lease w)).2)) →
    owner_step ext lag w (mkWorld (releaseAttempt acknowledged (clock w) (owner w)) (clock w) row')
(** The database reclaims a lease that ran out. *)
| os_reclaim w :
    owner_step ext lag w (mkWorld (owner w) (clock w) (store_reclaimExpired (clock w) (lease w)))
(** A parent of the lease is deleted; later the sweep releases it (or the drain of a deleted user's
    history deletes the row, which reads the same: no update matches it any more). *)
| os_orphan w :
    owner_step ext lag w (mkWorld (owner w) (clock w) (mkLease (active (lease w)) (expiresAt (lease w)) true))
| os_sweep w :
    owner_step ext lag w (mkWorld (owner w) (clock w) (store_sweepOrphans (lease w))).

(** An owner is made for a granted lease. *)
Definition admitted (interval ext : Z) (renewOnStart : bool) (maxLifetimeMs : option Z)
    (parent scope : option bool) (start : Z) (row : LeaseRow) : World :=
  mkWorld (construct interval ext renewOnStart maxLifetimeMs parent scope start) start row.

(** A lease stands while ACTIVE, unless it ran out or is an orphan. *)
Definition lease_stands (w : World) : Prop :=
  active (lease w) = true ∨ orphaned (lease w) = true ∨ expiresAt (lease w) ≤ clock w.

(** What the owner knows of its lease: nothing until a heartbeat is acknowledged. The trace tells:
    with a renewing constructor, [ready] resolves only after that, or after the owner stopped. *)
Record owner_ok (ext : Z) (w : World) : Prop := {
  (* a running owner is watched, at the acknowledged time *)
  ok_watch : stopped (owner w) = false → watchdog (owner w) = Some (acknowledgedUntil (owner w));
  ok_promise : stopped (owner w) = false ↔ releasePromise (owner w) = RelNone;
  ok_ack : acknowledgedUntil (owner w) ≤ clock w + ext;
  ok_started : ∀ s r a, hb (owner w) = HbFlight s r a → s ≤ clock w;
  (* an executed heartbeat *)
  ok_answer : ∀ s r, stopped (owner w) = false → hb (owner w) = HbFlight s r (Some true) →
              s + ext ≤ expiresAt (lease w) ∧ lease_stands w;
  (* a confirmed lease *)
  ok_ready : stopped (owner w) = false → ready (owner w) = true →
             acknowledgedUntil (owner w) ≤ expiresAt (lease w) ∧ lease_stands w;
  (* a retry fits in the acknowledged time *)
  ok_backoff : ∀ u r, hb (owner w) = HbBackoff u r → stopped (owner w) = false →
               ∃ t, u = Some t ∧ t + CAPACITY_HEARTBEAT_RETRY_MARGIN_MS < acknowledgedUntil (owner w);
}.

(** Of a stopped owner little is left to say. *)
Lemma stopped_ok ext w :
  stopped (owner w) = true → releasePromise (owner w) ≠ RelNone →
  acknowledgedUntil (owner w) ≤ clock w + ext →
  (∀ s r a, hb (owner w) = HbFlight s r a → s ≤ clock w) → owner_ok ext w.
Proof. intros Hs Hp Ha Hh. split; rewrite ?Hs; try done. Qed.

Lemma release_ok ext w reason :
  owner_ok ext w → owner_ok ext (mkWorld (release reason (clock w) (owner w)) (clock w) (lease w)).
Proof.
  intros Hok. unfold release. destruct w as [o t row]; cbn in *.
  destruct (releasePromise o) eqn:Hp; [|exact Hok..].
  apply stopped_ok; cbn; try done; [apply Hok|].
  intros s r a Hh. apply (ok_started _ _ Hok s r a). cbn. by destruct (hb o).
Qed.

Lemma end_ok ext w :
  owner_ok ext w → stopped (owner w) = true →
  owner_ok ext (mkWorld (endHeartbeat (owner w)) (clock w) (lease w)).
Proof.
  intros Hok Hs. apply stopped_ok; cbn; [done| |apply Hok|done].
  intros Hp. apply (ok_promise _ _ Hok) in Hp. congruence.
Qed.

Lemma release_stops ext w reason : owner_ok ext w → stopped (release reason (clock w) (owner w)) = true.
Proof.
  intros Hok. unfold release. destruct (releasePromise (owner w)) eqn:Hp; [done| |];
    destruct (stopped (owner w)) eqn:Hs; try done; apply (ok_promise _ _ Hok) in Hs; congruence.
Qed.

Lemma end_release_ok ext w reason :
  owner_ok ext w →
  owner_ok ext (mkWorld (endHeartbeat (release reason (clock w) (owner w))) (clock w) (lease w)).
Proof.
  intros Hok. apply (end_ok ext (mkWorld (release reason (clock w) (owner w)) (clock w) (lease w))).
  - by apply release_ok.
  - by apply (release_stops ext).
Qed.

Lemma send_ok ext w retry :
  owner_ok ext w → stopped (owner w) = false →
  owner_ok ext (mkWorld (sendHeartbeat (clock w) retry (owner w)) (clock w) (lease w)).
Proof. intros [? ? ? ? ? ? ?] Hs. split; cbn; try done. by intros s r a [= <- <- <-]. Qed.

Lemma heartbeat_ok ext w :
  owner_ok ext w → owner_ok ext (mkWorld (heartbeat (clock w) (owner w)) (clock w) (lease w)).
Proof.
  intros Hok. unfold heartbeat. destruct (stopped (owner w)) eqn:Hs; [by destruct w|].
  destruct (heartbeatRunning (owner w)); [by destruct w|]. by apply send_ok.
Qed.

Lemma answered_ok ext w s r b :
  owner_ok ext w → hb (owner w) = HbFlight s r (Some b) →
  owner_ok ext (mkWorld (heartbeatAnswered ext s b (clock w) (owner w)) (clock w) (lease w)).
Proof.
  intros Hok Hhb. unfold heartbeatAnswered. destruct (stopped (owner w)) eqn:Hs; [by apply end_ok|].
  destruct b; cbn [negb]; [|by apply end_release_ok].
  destruct (Z.leb_spec (s + ext - clock w) 0); [by apply end_release_ok|].
  pose proof (ok_answer _ _ Hok s r Hs Hhb) as Ha. pose proof (ok_started _ _ Hok s r _ Hhb) as Hst.
  pose proof (ok_promise _ _ Hok) as Hp. split; cbn -[Z.max]; try done.
  - intros _. f_equal. lia.
  - lia.
Qed.

Lemma threw_ok ext w s r a :
  owner_ok ext w → hb (owner w) = HbFlight s r a →
  owner_ok ext (mkWorld (heartbeatThrew (clock w) r (owner w)) (clock w) (lease w)).
Proof.
  intros Hok Hhb. unfold heartbeatThrew. destruct (stopped (owner w)) eqn:Hs; [by apply end_ok|].
  set (delay := nth _ _ _). clearbody delay.
  destruct (Z.leb_spec (acknowledgedUntil (owner w) - clock w) (delay + CAPACITY_HEARTBEAT_RETRY_MARGIN_MS));
    [by apply end_release_ok|].
  destruct Hok as [? ? ? ? ? ? ?]. split; cbn; try done.
  intros u r' [= <- <-] _. eexists. split; [done|]. lia.
Qed.

Lemma attempt_ok ext w attempts at_ row' acknowledged :
  owner_ok ext w → releasePromise (owner w) = RelTrying attempts at_ →
  owner_ok ext (mkWorld (releaseAttempt acknowledged (clock w) (owner w)) (clock w) row').
Proof.
  intros Hok Hp. unfold releaseAttempt. rewrite Hp.
  assert (Hs : stopped (owner w) = true).
  { destruct (stopped (owner w)) eqn:Hs; [done|]. apply (ok_promise _ _ Hok) in Hs. congruence. }
  destruct attempts as [|x rest]; (apply stopped_ok; cbn; [done| |apply Hok|apply Hok]); [congruence|].
  destruct acknowledged, rest; done.
Qed.

Lemma executed_ok ext w s r row' b :
  0 < ext ≤ 300000 → owner_ok ext w → hb (owner w) = HbFlight s r None →
  store_heartbeat ext (clock w) (lease w) = (row', b) →
  owner_ok ext (mkWorld (set_hb (HbFlight s r (Some b)) (owner w)) (clock w) row').
Proof.
  intros Hext Hok Hhb Hex. pose proof (ok_started _ _ Hok _ _ _ Hhb) as Hst.
  destruct Hok as [? ? Hack ? ? Hready ?]. unfold store_heartbeat in Hex.
  rewrite Z.min_l in Hex by lia.
  destruct (active (lease w) && (clock w <? expiresAt (lease w))) eqn:Hact; injection Hex as <- <-.
  - split; cbn; try done.
    + by intros ? ? ? [= <- <- <-].
    + intros ? ? _ [= <- <-]. split; [cbn; lia|by left].
    + intros Hs Hr. split; [cbn; lia|by left].
  - split; cbn; try done. by intros ? ? ? [= <- <- <-].
Qed.

(** The database's own writes to the row. *)
Record row_moves (t : Z) (row row' : LeaseRow) : Prop := {
  rm_expiry : expiresAt row' = expiresAt row;
  rm_orphaned : orphaned row = true → orphaned row' = true;
  rm_active : active row' = active row ∨ orphaned row' = true ∨ expiresAt row' ≤ t;
}.

Lemma time_ok ext w w' :
  owner_ok ext w → owner w' = owner w → clock w ≤ clock w' → row_moves (clock w') (lease w) (lease w') →
  owner_ok ext w'.
Proof.
  intros [? ? ? Hst Han Hre ?] Ho Hc [He Hor Ha].
  assert (Hstands : lease_stands w → lease_stands w').
  { unfold lease_stands. intros [Hx|[Hx|Hx]]; [|by auto|right; right; lia].
    destruct Ha as [->|[?|?]]; auto. }
  split; rewrite ?Ho; try done; [lia| | |].
  - intros s r a Hh. specialize (Hst _ _ _ Hh). lia.
  - intros s r Hs Hh. destruct (Han _ _ Hs Hh) as [? Hact]. split; [lia|auto].
  - intros Hs Hr. destruct (Hre Hs Hr) as [? Hact]. split; [lia|auto].
Qed.

Lemma reclaim_moves t row : row_moves t row (store_reclaimExpired t row).
Proof.
  unfold store_reclaimExpired. destruct (active row) eqn:Ha; cbn; [|split; auto].
  destruct (Z.leb_spec (expiresAt row) t); split; cbn; auto.
Qed.

Lemma sweep_moves t row : row_moves t row (store_sweepOrphans row).
Proof.
  unfold store_sweepOrphans. destruct (active row) eqn:Ha; cbn; [|split; auto].
  destruct (orphaned row) eqn:Ho; split; cbn; auto.
Qed.

Lemma owner_step_ok ext lag w w' :
  0 < ext ≤ 300000 → owner_step ext lag w w' → owner_ok ext w → owner_ok ext w'.
Proof.
  intros Hext Hstep Hok. destruct Hstep.
  - apply (time_ok ext w); cbn; auto; [lia|by split; auto].
  - by apply heartbeat_ok.
  - by apply release_ok.
  - by apply release_ok.
  - by apply release_ok.
  - by apply release_ok.
  - by eapply executed_ok.
  - by eapply answered_ok.
  - by eapply threw_ok.
  - unfold retryWoken. destruct (stopped (owner w)) eqn:Hs; [by apply end_ok|by apply send_ok].
  - by eapply attempt_ok.
  - apply (time_ok ext w); cbn; auto; [lia|apply reclaim_moves].
  - apply (time_ok ext w); cbn; auto; [lia|by split; cbn; auto].
  - apply (time_ok ext w); cbn; auto; [lia|apply sweep_moves].
Qed.

(** The constructor's invariant; what it knows is what the grant says, or nothing before the
    renewal answers. *)
Lemma admitted_ok interval ext renew cap parent scope start row :
  0 < interval → 0 < ext →
  (renew = true ∨ active row = true ∧ start + ext ≤ expiresAt row) →
  owner_ok ext (admitted interval ext renew cap parent scope start row).
Proof.
  intros Hi He Hknown. unfold admitted, construct.
  destruct (Z.ltb_spec 0 interval); [|lia]. rewrite Z.max_r by lia.
  set (cap' := match cap with Some ms => _ | None => _ end).
  destruct scope as [[]|], parent as [[]|], renew; cbn; split; cbn; try done; try lia.
  all: try (intros ? ? ? [= <- <- <-]; lia).
  all: destruct Hknown as [|[]]; try done; intros; split; [lia|by left].
Qed.

(** The watchdog stops an owner whose acknowledged time ran out. *)
Lemma owner_step_in_time ext lag w w' :
  0 ≤ lag → owner_step ext lag w w' → owner_ok ext w →
  (stopped (owner w) = false → clock w ≤ acknowledgedUntil (owner w) + lag) →
  stopped (owner w') = false → clock w' ≤ acknowledgedUntil (owner w') + lag.
Proof.
  intros Hlag Hstep Hok Hin.
  destruct Hstep as [w d Hd Hw _|w _|w t _ _|w t _ _|w _|w reason _|w s r row' b Hhb _|w s r b Hhb|w s r a Hhb|
    w u r Hhb _|w att t row' b Hp _ _|w|w|w]; cbn.
  - intros Hs. by apply Hw, (ok_watch _ _ Hok).
  - unfold heartbeat. destruct (stopped (owner w) || heartbeatRunning (owner w)); exact Hin.
  - rewrite (release_stops ext) by done; done.
  - rewrite (release_stops ext) by done; done.
  - rewrite (release_stops ext) by done; done.
  - rewrite (release_stops ext) by done; done.
  - done.
  - unfold heartbeatAnswered. destruct (stopped (owner w)) eqn:Hs; [cbn; by rewrite Hs|].
    destruct b; cbn [negb]; [|cbn; by rewrite (release_stops ext)].
    destruct (Z.leb_spec (s + ext - clock w) 0); cbn; [by rewrite (release_stops ext)|]. intros _. lia.
  - unfold heartbeatThrew. destruct (stopped (owner w)) eqn:Hs; [cbn; by rewrite Hs|].
    destruct (_ <=? _); cbn; [by rewrite (release_stops ext)|]. intros _. by apply Hin.
  - unfold retryWoken. destruct (stopped (owner w)) eqn:Hs; [cbn; by rewrite Hs|]. intros _. cbn. by apply Hin.
  - unfold releaseAttempt. rewrite Hp. destruct att; [by apply Hin|]. cbn. by apply Hin.
  - done.
  - done.
  - done.
Qed.

(** The trace: heartbeats, then one abort of the dispatch, then the release attempts. *)
Definition trace_of (k : nat) (reason : Reason) (releases : list Effect) : list Effect :=
  replicate k HeartbeatSent ++ DispatchAborted reason :: releases.

Definition trace_ok (o : Owner) : Prop :=
  match releasePromise o with
  | RelNone => ∃ k, effects o = replicate k HeartbeatSent
  | RelTrying attempts _ =>
      ∃ k reason j, attempts = drop j RELEASE_DELAYS_MS ∧ (j < length RELEASE_DELAYS_MS)%nat ∧
        effects o = trace_of k reason (replicate j (ReleaseSent false))
  | RelDone true =>
      ∃ k reason j, (j < length RELEASE_DELAYS_MS)%nat ∧
        effects o = trace_of k reason (replicate j (ReleaseSent false) ++ [ReleaseSent true])
  | RelDone false =>
      ∃ k reason, effects o = trace_of k reason (replicate (length RELEASE_DELAYS_MS) (ReleaseSent false))
  end.

Definition disarmed (o : Owner) : Prop :=
  stopped o = true → timer o = false ∧ watchdog o = None ∧ lifetimeCap o = None.

Lemma trace_release reason now o : trace_ok o → trace_ok (release reason now o).
Proof.
  unfold release. intros Ht. destruct (releasePromise o) eqn:Hp; [|done..].
  unfold trace_ok in *. rewrite Hp in Ht. destruct Ht as [k Hk]. cbn. exists k, reason, 0%nat.
  split; [done|]. split; [lia|]. by rewrite Hk.
Qed.

Lemma trace_send now retry o : releasePromise o = RelNone → trace_ok o → trace_ok (sendHeartbeat now retry o).
Proof.
  unfold trace_ok. cbn. intros -> [k ->]. exists (S k). by rewrite <- replicate_cons_app.
Qed.

Lemma trace_attempt b now o : trace_ok o → trace_ok (releaseAttempt b now o).
Proof.
  unfold releaseAttempt. intros Ht. destruct (releasePromise o) as [|[|x rest] t|] eqn:Hp; [done..| |done].
  unfold trace_ok in Ht. rewrite Hp in Ht. destruct Ht as (k & reason & j & Hd & Hj & He).
  unfold trace_ok. cbn [releasePromise effects]. rewrite He. unfold trace_of.
  assert (Hsnoc : ∀ e, (replicate k HeartbeatSent ++ DispatchAborted reason :: replicate j (ReleaseSent false)) ++ [e]
    = replicate k HeartbeatSent ++ DispatchAborted reason :: (replicate j (ReleaseSent false) ++ [e])).
  { intros e. by rewrite <- app_assoc. }
  rewrite Hsnoc. destruct b; [by exists k, reason, j|].
  assert (Hlen : length (x :: rest) = (length RELEASE_DELAYS_MS - j)%nat) by (rewrite Hd; apply length_drop).
  assert (Hrest : rest = drop (S j) RELEASE_DELAYS_MS).
  { change rest with (drop 1 (x :: rest)). rewrite Hd, drop_drop. f_equal. lia. }
  cbn in Hlen, Hj. destruct rest as [|delay rest].
  - exists k, reason. do 2 f_equal. assert (j = 3)%nat as -> by (cbn in Hlen; lia). done.
  - exists k, reason, (S j). split; [done|]. cbn in Hlen. split; [cbn; lia|].
    by rewrite <- replicate_cons_app.
Qed.

Definition owner_good (w : World) : Prop :=
  trace_ok (owner w) ∧ disarmed (owner w) ∧
  (releasePromise (owner w) = RelDone true → active (lease w) = false).

Lemma release_disarmed reason now o :
  (stopped o = false ↔ releasePromise o = RelNone) → disarmed o → disarmed (release reason now o).
Proof. unfold release. by destruct (releasePromise o). Qed.

Lemma released_done reason now o ok : releasePromise (release reason now o) = RelDone ok → releasePromise o = RelDone ok.
Proof. unfold release. by destruct (releasePromise o) eqn:Hp; cbn; rewrite ?Hp. Qed.

Lemma release_good ext w reason :
  owner_ok ext w → owner_good w → owner_good (mkWorld (release reason (clock w) (owner w)) (clock w) (lease w)).
Proof.
  intros Hok (H1 & H2 & H3). split_and!; cbn.
  - by apply trace_release.
  - apply release_disarmed; [apply Hok|done].
  - intros Hd%released_done. by apply H3.
Qed.

Lemma set_hb_good w h row' :
  owner_good w → (active (lease w) = false → active row' = false) →
  owner_good (mkWorld (set_hb h (owner w)) (clock w) row').
Proof. intros (H1 & H2 & H3) Ha. split_and!; cbn; [exact H1|exact H2|]. intros Hd. by apply Ha, H3. Qed.

Lemma end_good w : owner_good w → owner_good (mkWorld (endHeartbeat (owner w)) (clock w) (lease w)).
Proof. intros (H1 & H2 & H3). by split_and!. Qed.

Lemma send_good ext w retry :
  owner_ok ext w → owner_good w → stopped (owner w) = false →
  owner_good (mkWorld (sendHeartbeat (clock w) retry (owner w)) (clock w) (lease w)).
Proof.
  intros Hok (H1 & H2 & H3) Hs. split_and!; cbn; [|exact H2|exact H3].
  apply trace_send; [by apply (ok_promise _ _ Hok)|done].
Qed.

Lemma end_release_good ext w reason :
  owner_ok ext w → owner_good w →
  owner_good (mkWorld (endHeartbeat (release reason (clock w) (owner w))) (clock w) (lease w)).
Proof.
  intros Hok Hg. by apply (end_good (mkWorld (release reason (clock w) (owner w)) (clock w) (lease w))),
    (release_good ext).
Qed.

Lemma attempt_good ext w attempts t row' b :
  owner_ok ext w → owner_good w → releasePromise (owner w) = RelTrying attempts t →
  (b = true → active row' = false) →
  owner_good (mkWorld (releaseAttempt b (clock w) (owner w)) (clock w) row').
Proof.
  intros Hok (H1 & H2 & H3) Hp Hb. split_and!; cbn; [by apply trace_attempt| |].
  - unfold releaseAttempt. by destruct (releasePromise (owner w)) as [|[]|].
  - unfold releaseAttempt. rewrite Hp. destruct attempts as [|x rest]; [congruence|]. cbn.
    destruct b; [auto|]. by destruct rest.
Qed.

Lemma owner_step_good ext lag w w' :
  owner_step ext lag w w' → owner_ok ext w → owner_good w → owner_good w'.
Proof.
  intros Hstep Hok Hg.
  destruct Hstep as [w d Hd Hw _|w _|w t _ _|w t _ _|w _|w reason _|w s r row' b Hhb Hex|w s r b Hhb|w s r a Hhb|
    w u r Hhb _|w att t row' b Hp _ Hrow|w|w|w].
  - exact Hg.
  - unfold heartbeat. destruct (stopped (owner w)) eqn:Hs; [by destruct w|].
    destruct (heartbeatRunning (owner w)); [by destruct w|]. by apply (send_good ext).
  - by apply (release_good ext).
  - by apply (release_good ext).
  - by apply (release_good ext).
  - by apply (release_good ext).
  - apply set_hb_good; [done|]. intros Ha. unfold store_heartbeat in Hex. rewrite Ha in Hex.
    cbn in Hex. by injection Hex as <- <-.
  - unfold heartbeatAnswered. destruct (stopped (owner w)) eqn:Hs; [by apply end_good|].
    destruct b; cbn [negb]; [|by apply (end_release_good ext)].
    destruct (_ <=? _); [by apply (end_release_good ext)|].
    destruct Hg as (H1 & H2 & H3). split_and!; cbn; [exact H1| |exact H3].
    unfold disarmed. cbn. congruence.
  - unfold heartbeatThrew. destruct (stopped (owner w)) eqn:Hs; [by apply end_good|].
    destruct (_ <=? _); [by apply (end_release_good ext)|]. by apply set_hb_good.
  - unfold retryWoken. destruct (stopped (owner w)) eqn:Hs; [by apply end_good|by apply (send_good ext)].
  - eapply (attempt_good ext); eauto. intros ->. destruct Hrow as [[_ ?]|[-> _]]; done.
  - destruct Hg as (H1 & H2 & H3). split_and!; [exact H1|exact H2|]. cbn. intros Hd. unfold store_reclaimExpired. rewrite (H3 Hd). by apply H3.
  - destruct Hg as (H1 & H2 & H3). by split_and!.
  - destruct Hg as (H1 & H2 & H3). split_and!; [exact H1|exact H2|]. cbn. intros Hd. unfold store_sweepOrphans. rewrite (H3 Hd). by apply H3.
Qed.

Lemma admitted_good interval ext renew cap parent scope start row :
  owner_good (admitted interval ext renew cap parent scope start row).
Proof.
  unfold owner_good, disarmed, admitted, construct.
  destruct scope as [[]|], parent as [[]|], renew; cbn; split_and!; try done.
  all: try (exists 0%nat; done). all: try (exists 1%nat; done).
  all: eexists 0%nat, _, 0%nat; split_and!; [done|lia|done].
Qed.

Section reachable.
Context (ext lag interval : Z) (renew : bool) (cap : option Z) (parent scope : option bool) (start : Z)
  (row : LeaseRow).
Hypothesis Hext : 0 < ext ≤ 300000.
Hypothesis Hinterval : 0 < interval.
Hypothesis Hknown : renew = true ∨ active row = true ∧ start + ext ≤ expiresAt row.

Lemma reach_good w :
  rtc (owner_step ext lag) (admitted interval ext renew cap parent scope start row) w →
  owner_ok ext w ∧ owner_good w.
Proof.
  intros Hr.
  assert (Hini : owner_ok ext (admitted interval ext renew cap parent scope start row) ∧
    owner_good (admitted interval ext renew cap parent scope start row)).
  { split; [apply admitted_ok; [done|lia|done]|apply admitted_good]. }
  revert Hini. induction Hr as [w|w1 w2 w3 Hs _ IH]; [done|]. intros [H1 H2]. apply IH. split.
  - by eapply owner_step_ok.
  - by eapply owner_step_good.
Qed.

Lemma reach_in_time w :
  0 ≤ lag → rtc (owner_step ext lag) (admitted interval ext renew cap parent scope start row) w →
  stopped (owner w) = false → clock w ≤ acknowledgedUntil (owner w) + lag.
Proof.
  intros Hlag. revert w. apply (rtc_ind_r (λ w, stopped (owner w) = false → clock w ≤ acknowledgedUntil (owner w) + lag)).
  - intros _. unfold admitted, construct. cbn.
    destruct scope as [[]|], parent as [[]|], renew; cbn; lia.
  - intros w1 w2 Hr Hs IH. apply (owner_step_in_time ext lag w1 w2 Hlag Hs); [|exact IH]. by apply (reach_good w1).
Qed.
End reachable.

(** C20. A dispatch never outlives its lease. Take an owner made for a lease, renewing it first (or
    given a lease granted for its full extension), and any sequence of events: answers in any
    order and delay, failures before or after the database executed a heartbeat, retries, aborts,
    reclaims of expired leases, deletions of the lease's target, capacity or user and orphan
    sweeps. While the owner has not stopped, at most [lag] (the lateness of a timeout) has passed
    since the time it was last acknowledged for; once it is ready (its caller gets the lease only
    then) that time is within the database's expiry, and before it the row is ACTIVE unless its
    target, capacity or user was deleted (only the orphan sweep ends an unexpired lease); and a
    heartbeat is retried only if the retry still fits. *)
Theorem lease_authority (ext lag interval : Z) (renew : bool) (cap : option Z)
    (parent scope : option bool) (start : Z) (row : LeaseRow) (w : World) :
  0 < ext ≤ 300000 → 0 ≤ lag → 0 < interval →
  (renew = true ∨ active row = true ∧ start + ext ≤ expiresAt row) →
  rtc (owner_step ext lag) (admitted interval ext renew cap parent scope start row) w →
  stopped (owner w) = false →
  clock w ≤ acknowledgedUntil (owner w) + lag ∧
  (ready (owner w) = true →
     acknowledgedUntil (owner w) ≤ expiresAt (lease w) ∧
     (clock w < acknowledgedUntil (owner w) → active (lease w) = true ∨ orphaned (lease w) = true)) ∧
  (∀ until retry, hb (owner w) = HbBackoff until retry →
     ∃ t, until = Some t ∧ t + CAPACITY_HEARTBEAT_RETRY_MARGIN_MS < acknowledgedUntil (owner w)).
Proof.
  intros Hext Hlag Hint Hknown Hr Hs.
  destruct (reach_good ext lag interval renew cap parent scope start row Hext Hint Hknown w Hr) as [Hok _].
  split; [by eapply reach_in_time|]. split.
  - intros Hready. destruct (ok_ready _ _ Hok Hs Hready) as [Ha Hact]. split; [done|].
    intros Hlt. destruct Hact as [?|[?|?]]; [by left|by right|lia].
  - intros u r Hh. by apply (ok_backoff _ _ Hok u r).
Qed.

(** An owner releases once, and in order. In any reachable state what it did is: heartbeats,
    then (once it stopped) the abort of the dispatch with the first reason given, then the
    release attempts, at most four, each after a failed one and none after a success; no
    heartbeat is sent after the abort, a stopped owner has no timer armed, and an acknowledged
    release means the row is no longer ACTIVE. *)
Theorem lease_released_once (ext lag interval : Z) (renew : bool) (cap : option Z)
    (parent scope : option bool) (start : Z) (row : LeaseRow) (w : World) :
  0 < ext ≤ 300000 → 0 < interval →
  (renew = true ∨ active row = true ∧ start + ext ≤ expiresAt row) →
  rtc (owner_step ext lag) (admitted interval ext renew cap parent scope start row) w →
  trace_ok (owner w) ∧
  (stopped (owner w) = true ↔ releasePromise (owner w) ≠ RelNone) ∧
  (stopped (owner w) = true → timer (owner w) = false ∧ watchdog (owner w) = None ∧ lifetimeCap (owner w) = None) ∧
  (releasePromise (owner w) = RelDone true → active (lease w) = false).
Proof.
  intros Hext Hint Hknown Hr.
  destruct (reach_good ext lag interval renew cap parent scope start row Hext Hint Hknown w Hr)
    as [Hok (H1 & H2 & H3)].
  split_and!; try done. pose proof (ok_promise _ _ Hok) as Hp.
  destruct (stopped (owner w)); [|naive_solver].
  split; [|done]. intros _ Hn. apply Hp in Hn. done.
Qed.

(** The runtime's owner: a heartbeat every 10 s, extended by 30 s, renewed first. *)
Definition renewed : World :=
  mkWorld (mkOwner true HbIdle (Some 30000) None 30000 RelNone false false true [HeartbeatSent]) 40 (mkLease true 30020 false).

Lemma renewed_reachable :
  rtc (owner_step 30000 5) (admitted 10000 30000 true None None None 0 (mkLease true 10000 false)) renewed.
Proof.
  set (w0 := admitted _ _ _ _ _ _ _ _).
  apply rtc_l with (mkWorld (owner w0) 20 (lease w0)).
  { apply (os_time 30000 5 w0 20); [lia| |]; cbn; intros t [= <-]. lia. }
  apply rtc_l with (mkWorld (set_hb (HbFlight 0 0 (Some true)) (owner w0)) 20 (mkLease true 30020 false)).
  { by eapply (os_executed 30000 5 (mkWorld (owner w0) 20 (lease w0))). }
  apply rtc_l with (mkWorld (set_hb (HbFlight 0 0 (Some true)) (owner w0)) 40 (mkLease true 30020 false)).
  { apply (os_time 30000 5 (mkWorld (set_hb (HbFlight 0 0 (Some true)) (owner w0)) 20 (mkLease true 30020 false)) 20);
      [lia| |]; cbn; intros t [= <-]. lia. }
  apply rtc_once.
  exact (os_answered 30000 5 (mkWorld (set_hb (HbFlight 0 0 (Some true)) (owner w0)) 40 (mkLease true 30020 false))
    0 0 true eq_refl).
Qed.

Lemma lease_authority_witness : clock renewed < acknowledgedUntil (owner renewed) ∧ active (lease renewed) = true.
Proof.
  split; [reflexivity|].
  destruct (lease_authority 30000 5 10000 true None None None 0 (mkLease true 10000 false) renewed
    ltac:(lia) ltac:(lia) ltac:(lia) (or_introl eq_refl) renewed_reachable eq_refl) as (_ & Hready & _).
  destruct (proj2 (Hready eq_refl) eq_refl) as [Ha|Ho]; [exact Ha|discriminate Ho].
Defined.

Lemma lease_released_once_witness : trace_ok (owner renewed).
Proof.
  refine (proj1 (lease_released_once 30000 5 10000 true None None None 0 (mkLease true 10000 false) renewed
    _ _ _ renewed_reachable)); [lia..|by left].
Defined.

(** The capacity is deleted and the sweep runs while the lease has 29 seconds left: the row is
    released under the running owner, whose next heartbeat then finds it gone. *)
Example orphan_swept :
  let row := store_sweepOrphans (mkLease true 30020 true) in
  active row = false ∧ store_heartbeat 30000 1020 row = (row, false).
Proof. done. Qed.
