(* ===== verification/CapacityRuntime.v ===== *)
(** * The capacity runtime's acquire

    [src/apps/server/src/model-api/capacity/runtime.ts] ([StoreCapacityAdmissionRuntime]) and the
    polling of [postgres-store.ts] ([waitWithCapacityPolling]), against an interface of the
    admission store: what one attempt's calls of [acquire], [terminalizeAttempt] and [release]
    promise ([AttemptStore]). The instance [request_store] is the request row and the lease row of
    one attempt as [PostgresCapacityAdmissionStore] reads and writes them.

    The runtime awaits between its statements: meanwhile other servers grant, expire or reclaim
    the attempt, the caller aborts, the runtime closes and its lease owner may stop ([rely]). Any
    store call may fail, before or after it took effect. Polling has no bound of its own, so the
    loops take fuel; [acquire_returns] shows when they end. *)

From S2P Require Import Prelude Interleave LeaseOwner.

(** ** Answers of the store *)

Inductive Terminal := CANCELLED | EXPIRED.

(** [AdmissionResult] and [AdmissionTerminalizationResult]. *)
Inductive AdmissionResult := Granted | Waiting | Ended (state : Terminal).
Inductive AdmissionTerminalizationResult := TzAdmitted | TzWaiting | TzEnded (state : Terminal) | TzTerminal | TzMissing.

(** A store call answers or throws. *)
Inductive call (A : Type) := Answer (a : A) | Failed.
Arguments Answer {A} a.
Arguments Failed {A}.

(** ** The interface *)

(** What the runtime calls, for one attempt. [attempt_ended]: the attempt neither waits nor holds
    an ACTIVE lease; [attempt_admitted]: it does not wait; [attempt_due]: its durable deadline
    has passed. [store_others] is what everyone else does. *)
Class AttemptStore (St : Type) := {
  store_acquire : bool → St → call AdmissionResult * St; (* with candidates *)
  store_terminalize : Terminal → St → call AdmissionTerminalizationResult * St;
  store_releaseLease : St → call bool * St;
  store_sweep : St → call unit * St;
  store_others : St → St → Prop;
  attempt_ended : St → Prop;
  attempt_admitted : St → Prop;
  attempt_due : St → Prop;
}.

Class AttemptStoreLaws (St : Type) `{AttemptStore St} := {
  ended_admitted s : attempt_ended s → attempt_admitted s;
  acquire_answer c s r s' : store_acquire c s = (Answer r, s') →
    match r with Ended _ => attempt_ended s' | Granted => attempt_admitted s' | Waiting => ~ attempt_due s end;
  terminalize_answer t s r s' : store_terminalize t s = (Answer r, s') →
    match r with
    | TzAdmitted => attempt_admitted s'
    | TzWaiting => t = EXPIRED ∧ s' = s ∧ ~ attempt_due s ∧ ~ attempt_admitted s
    | _ => attempt_ended s'
    end;
  release_answer s b s' : attempt_admitted s → store_releaseLease s = (Answer b, s') → attempt_ended s';
  release_failed s s' : attempt_admitted s → store_releaseLease s = (Failed, s') → attempt_admitted s';
  release_ended s r s' : attempt_ended s → store_releaseLease s = (r, s') → attempt_ended s';
  acquire_due c s : attempt_due s → attempt_due (store_acquire c s).2;
  terminalize_due t s : attempt_due s → attempt_due (store_terminalize t s).2;
  sweep_others s r s' : store_sweep s = (r, s') → store_others s s';
  others_ended s s' : store_others s s' → attempt_ended s → attempt_ended s';
  others_admitted s s' : store_others s s' → attempt_admitted s → attempt_admitted s';
  others_due s s' : store_others s s' → attempt_due s → attempt_due s';
}.

(** ** The runtime *)

(** The owner of an admitted lease ([LeaseOwner]): running, or stopped, by a loss or otherwise. *)
Inductive OwnerState := NoOwner | OwnerRunning | OwnerLost | OwnerStopped.

Record Runtime (St : Type) := mkRuntime {
  db : St;
  aborted : bool; (* the caller's signal *)
  rt_closed : bool;
  rt_now : Z;
  lastMaintenanceAt : Z;
  rt_owner : OwnerState;
  releaseErrors : nat; (* release attempts of the owner that threw *)
}.
Arguments mkRuntime {St}.
Arguments db {St}.
Arguments aborted {St}.
Arguments rt_closed {St}.
Arguments rt_now {St}.
Arguments lastMaintenanceAt {St}.
Arguments rt_owner {St}.
Arguments releaseErrors {St}.

Inductive RuntimeAdmissionResult := RtResult (result : AdmissionResult) | LeaseLostAdmission.

(** What an async function ends in. *)
Inductive outcome (A : Type) := Value (a : A) | Threw | OutOfFuel.
Arguments Value {A} a.
Arguments Threw {A}.
Arguments OutOfFuel {A}.

Section Runtime.
Context {St : Type} `{AttemptStore St}.
Notation W := (Runtime St).

Definition set_db (s : St) (w : W) : W :=
  mkRuntime s (aborted w) (rt_closed w) (rt_now w) (lastMaintenanceAt w) (rt_owner w) (releaseErrors w).

(** [AbortSignal.any([signal, this.shutdown.signal])]. *)
Definition signalAborted (w : W) : bool := aborted w || rt_closed w.

Definition read {A} (f : W → A) : prog W A := stmt (λ w, (f w, w)).
Definition on_db {A} (f : St → call A * St) : prog W (call A) :=
  stmt (λ w, let '(a, s) := f (db w) in (a, set_db s w)).

(** [store.acquire] reads the signal, then runs its transaction. *)
Definition call_acquire (candidates : bool) : prog W (call AdmissionResult) :=
  let? cancelled := read signalAborted in
  if cancelled then Done (Answer (Ended CANCELLED)) else on_db (store_acquire candidates).

Section Deadline.
Variable deadlineAt : Z.

(** [waitWithCapacityPolling]; a wait is what happens between two statements. *)
Fixpoint waitWithCapacityPolling (fuel : nat) : prog W (outcome AdmissionResult) :=
  let? observed := read (λ w, (signalAborted w, rt_now w)) in
  let '(cancelled, now) := observed in
  if negb cancelled && (now <? deadlineAt) then
    match fuel with
    | O => Done OutOfFuel
    | S fuel' =>
        let? result := call_acquire false in
        match result with
        | Failed => Done Threw
        | Answer Waiting => waitWithCapacityPolling fuel'
        | Answer r => Done (Value r)
        end
    end
  else
    let? cancelled := read signalAborted in
    Done (Value (Ended (if cancelled then CANCELLED else EXPIRED))).

(** [terminalizeAttempt], then [release] of a lease that won the race: [k] goes on with any other
    answer. *)
Definition terminalizeOr (t : Terminal) (k : AdmissionTerminalizationResult → prog W (outcome AdmissionResult))
    : prog W (outcome AdmissionResult) :=
  let? finalized := on_db (store_terminalize t) in
  match finalized with
  | Failed => Done Threw
  | Answer TzAdmitted =>
      let? released := on_db store_releaseLease in
      match released with
      | Failed => Done Threw
      | Answer _ => Done (Value (Ended t))
      end
  | Answer f => k f
  end.

(** The end of [#acquireUntilTerminal], after its loop. *)
Definition settleResult (result : AdmissionResult) : prog W (outcome AdmissionResult) :=
  let? cancelled := read signalAborted in
  if cancelled then
    terminalizeOr CANCELLED (λ f, Done (Value (match f with TzEnded t => Ended t | _ => Ended CANCELLED end)))
  else
    match result with
    | Ended t => terminalizeOr t (λ _, Done (Value result))
    | _ => Done (Value result)
    end.

(** The loop of [#acquireUntilTerminal]. *)
Fixpoint acquireLoop (fuel : nat) (result : AdmissionResult) (localDeadlineReached : bool)
    : prog W (outcome AdmissionResult) :=
  match result with
  | Waiting =>
      match fuel with
      | O => Done OutOfFuel
      | S fuel' =>
          let? observed := read (λ w, (signalAborted w, rt_now w)) in
          let '(cancelled, now) := observed in
          let terminal :=
            if cancelled then Some CANCELLED
            else if localDeadlineReached || (deadlineAt <=? now) then Some EXPIRED else None in
          match terminal with
          | Some t =>
              terminalizeOr t (λ f,
                match f with
                | TzWaiting =>
                    let? next := call_acquire false in
                    match next with
                    | Failed => Done Threw
                    | Answer r => acquireLoop fuel' r localDeadlineReached
                    end
                | TzEnded t' => Done (Value (Ended t'))
                | _ => Done (Value (Ended t))
                end)
          | None =>
              let? polled := waitWithCapacityPolling fuel' in
              match polled with
              | Value (Ended EXPIRED) => acquireLoop fuel' Waiting true
              | Value r => acquireLoop fuel' r localDeadlineReached
              | Threw => Done Threw
              | OutOfFuel => Done OutOfFuel
              end
          end
      end
  | _ => settleResult result
  end.

Definition acquireUntilTerminal (fuel : nat) : prog W (outcome AdmissionResult) :=
  let? first := call_acquire true in
  match first with
  | Failed => Done Threw
  | Answer r => acquireLoop fuel r false
  end.

(** [maintain]; [maintenanceIntervalMs] between two sweeps. *)
Definition maintain (maintenanceIntervalMs : Z) : prog W (call unit) :=
  let? due := stmt (λ w : W,
    if rt_now w - lastMaintenanceAt w <? maintenanceIntervalMs then (false, w)
    else (true, mkRuntime (db w) (aborted w) (rt_closed w) (rt_now w) (rt_now w) (rt_owner w) (releaseErrors w))) in
  if due then on_db store_sweep else Done (Answer ()).

(** [adopt]: the lease gets an owner, which renews it before it is ready. *)
Definition adopt : prog W unit :=
  stmt (λ w : W, ((), mkRuntime (db w) (aborted w) (rt_closed w) (rt_now w) (lastMaintenanceAt w)
                        OwnerRunning (releaseErrors w))).

(** [owner.release()]: [releaseCapacityLeaseWithRetry]. *)
Definition ownerRelease : prog W (call bool) :=
  stmt (λ w : W, let '(a, s) := store_releaseLease (db w) in
    (a, mkRuntime s (aborted w) (rt_closed w) (rt_now w) (lastMaintenanceAt w) (rt_owner w)
          (match a with Failed => S (releaseErrors w) | Answer _ => releaseErrors w end))).

Fixpoint releaseWithRetry (delays : list Z) : prog W bool :=
  match delays with
  | [] => Done false
  | _ :: rest =>
      let? released := ownerRelease in
      match released with
      | Answer true => Done true
      | _ => releaseWithRetry rest
      end
  end.

(** The [catch] of [acquire]: best effort, then the failure goes on. *)
Definition cleanUp : prog W (outcome RuntimeAdmissionResult) :=
  let? cancelled := read signalAborted in
  let? finalized := on_db (store_terminalize (if cancelled then CANCELLED else EXPIRED)) in
  match finalized with
  | Answer TzAdmitted => let? _ := on_db store_releaseLease in Done Threw
  | _ => Done Threw
  end.

Definition acquire (fuel : nat) (maintenanceIntervalMs : Z) : prog W (outcome RuntimeAdmissionResult) :=
  let? closed := read rt_closed in
  if closed then Done (Value (RtResult (Ended CANCELLED)))
  else
    let? maintained := maintain maintenanceIntervalMs in
    match maintained with
    | Failed => cleanUp
    | Answer _ =>
        let? result := acquireUntilTerminal fuel in
        match result with
        | Threw => cleanUp
        | OutOfFuel => Done OutOfFuel
        | Value Granted =>
            let? _ := adopt in
            let? seen := read (λ w, (rt_closed w, signalAborted w, rt_owner w)) in
            let '(closed, cancelled, owner) := seen in
            match owner, closed with
            | OwnerRunning, false => Done (Value (RtResult Granted))
            | _, _ =>
                let lost := negb closed && negb cancelled && match owner with OwnerLost => true | _ => false end in
                let? _ := releaseWithRetry RELEASE_DELAYS_MS in
                Done (Value (if lost then LeaseLostAdmission else RtResult (Ended CANCELLED)))
            end
        | Value r => Done (Value (RtResult r))
        end
    end.
End Deadline.

(** What may happen between two statements. *)
Record rely (w w' : W) : Prop := {
  rely_db : rtc store_others (db w) (db w');
  rely_aborted : aborted w = true → aborted w' = true;
  rely_closed : rt_closed w = true → rt_closed w' = true;
  rely_now : rt_now w ≤ rt_now w';
  rely_owner : rt_owner w' = rt_owner w ∨ rt_owner w = OwnerRunning ∧ rt_owner w' ≠ NoOwner;
  rely_releaseErrors : releaseErrors w' = releaseErrors w;
}.

Global Instance rely_refl : Reflexive rely.
Proof. intros w. split; [apply rtc_refl|done..|lia|by left|done]. Qed.

(** ** Nothing is left behind *)

Context `{!AttemptStoreLaws St}.

Lemma rely_ended w w' : rely w w' → attempt_ended (db w) → attempt_ended (db w').
Proof. intros [Hdb _ _ _ _ _]. induction Hdb as [|x y z Hxy _ IH]; [done|]. intros He. by eapply IH, others_ended. Qed.

Lemma rely_admitted w w' : rely w w' → attempt_admitted (db w) → attempt_admitted (db w').
Proof. intros [Hdb _ _ _ _ _]. induction Hdb as [|x y z Hxy _ IH]; [done|]. intros He. by eapply IH, others_admitted. Qed.

Lemma rely_due w w' : rely w w' → attempt_due (db w) → attempt_due (db w').
Proof. intros [Hdb _ _ _ _ _]. induction Hdb as [|x y z Hxy _ IH]; [done|]. intros He. by eapply IH, others_due. Qed.

Lemma rely_signal w w' : rely w w' → signalAborted w = true → signalAborted w' = true.
Proof.
  intros [_ Ha Hc _ _ _]. unfold signalAborted. intros [H1|H1]%orb_true_iff; apply orb_true_iff; auto.
Qed.

(** What a result the loop goes on with means. *)
Definition meaning (r : AdmissionResult) (w : W) : Prop :=
  match r with
  | Waiting => True
  | Granted => attempt_admitted (db w)
  | Ended t => attempt_ended (db w) ∨ signalAborted w = true
  end.

(** What the results of [#acquireUntilTerminal] mean. *)
Definition settled (out : outcome AdmissionResult) (w : W) : Prop :=
  match out with
  | Value (Ended _) => attempt_ended (db w)
  | Value Granted => attempt_admitted (db w)
  | Value Waiting => False
  | _ => True
  end.

Lemma meaning_rely r w w' : rely w w' → meaning r w → meaning r w'.
Proof.
  intros Hr. destruct r; cbn; [by apply rely_admitted|done|].
  intros [|]; [left; by eapply rely_ended|right; by eapply rely_signal].
Qed.

Lemma call_acquire_wp c (Q : call AdmissionResult → W → Prop) w :
  (∀ r w', meaning r w' → Q (Answer r) w') → (∀ w', Q Failed w') → wp rely (call_acquire c) Q w.
Proof.
  intros HQ Hf. unfold call_acquire. apply wp_bind. cbn. intros w1 Hr1.
  destruct (signalAborted w1) eqn:Hs; cbn; [apply HQ; by right|].
  intros w2 Hr2. destruct (store_acquire c (db w2)) as [[r|] s] eqn:Ha; cbn; [|apply Hf].
  apply HQ. pose proof (acquire_answer _ _ _ _ Ha) as Hm. destruct r; cbn; auto.
Qed.

Lemma terminalizeOr_wp t k (Q : outcome AdmissionResult → W → Prop) w :
  (∀ w', Q Threw w') → (∀ w', attempt_ended (db w') → Q (Value (Ended t)) w') →
  (∀ f w', f ≠ TzAdmitted →
     (f = TzWaiting → t = EXPIRED ∧ ~ attempt_ended (db w) ∧ ~ attempt_due (db w)) →
     (f ≠ TzWaiting → attempt_ended (db w')) → wp rely (k f) Q w') →
  wp rely (terminalizeOr t k) Q w.
Proof.
  intros Hthrew Hended Hk. unfold terminalizeOr. apply wp_bind. cbn. intros w1 Hr1.
  destruct (store_terminalize t (db w1)) as [[f|] s] eqn:Ht; cbn; [|done].
  apply terminalize_answer in Ht. destruct f; cbn.
  - intros w2 Hr2. destruct (store_releaseLease (db w2)) as [[b|] s2] eqn:Hrel; cbn; [|done].
    apply Hended. eapply release_answer; [|exact Hrel]. by apply (rely_admitted _ _ Hr2).
  - apply Hk; [done| |done]. intros _. destruct Ht as (-> & -> & Hnd & Hna). split_and!; [done|..].
    + intros He. by apply Hna, ended_admitted, (rely_ended _ _ Hr1).
    + intros Hd. by apply Hnd, (rely_due _ _ Hr1).
  - by apply Hk.
  - by apply Hk.
  - by apply Hk.
Qed.

Lemma settleResult_wp result w :
  result ≠ Waiting → meaning result w → wp rely (settleResult result) settled w.
Proof.
  intros Hne Hm. unfold settleResult. apply wp_bind. cbn. intros w1 Hr1. apply (meaning_rely _ _ _ Hr1) in Hm.
  destruct (signalAborted w1) eqn:Hs.
  - apply terminalizeOr_wp; [done|done|]. intros f w' Hna Hw He. destruct f; cbn; try done; try (by apply He).
    by destruct (Hw eq_refl) as [? _].
  - destruct result as [| |t]; cbn; [done|done|]. destruct Hm as [Hm|]; [|congruence].
    apply terminalizeOr_wp; [done|done|]. intros f w' Hna Hw He. cbn. destruct f; try done; try (by apply He).
    by destruct (Hw eq_refl) as (_ & ? & _).
Qed.

Section Deadline.
Variable deadlineAt : Z.

Lemma polling_wp fuel (Q : outcome AdmissionResult → W → Prop) w :
  (∀ r w', r ≠ Waiting → (r = Ended EXPIRED ∨ meaning r w') → Q (Value r) w') →
  (∀ w', Q Threw w') → (∀ w', Q OutOfFuel w') → wp rely (waitWithCapacityPolling deadlineAt fuel) Q w.
Proof.
  intros HQ Ht Ho. revert w. induction fuel as [|fuel IH]; intros w; cbn; intros w1 Hr1;
    destruct (negb (signalAborted w1) && (rt_now w1 <? deadlineAt)); cbn; try apply Ho.
  - intros w2 Hr2. apply HQ; [done|]. destruct (signalAborted w2) eqn:Hs; [right; cbn; by right|by left].
  - apply (wp_bind rely (call_acquire false)). apply call_acquire_wp; [|apply Ht].
    intros r w' Hm. destruct r; cbn; [apply HQ; [done|by right]|apply IH|apply HQ; [done|by right]].
  - intros w2 Hr2. apply HQ; [done|]. destruct (signalAborted w2) eqn:Hs; [right; cbn; by right|by left].
Qed.

Lemma acquireLoop_wp fuel result ld w :
  meaning result w → wp rely (acquireLoop deadlineAt fuel result ld) settled w.
Proof.
  revert result ld w. induction fuel as [|fuel IH]; intros result ld w Hm.
  { destruct result; [by apply settleResult_wp|exact I|by apply settleResult_wp]. }
  destruct result; [by apply settleResult_wp| |by apply settleResult_wp]. cbn [acquireLoop].
  apply wp_bind. cbn. intros w1 Hr1. set (terminal := if signalAborted w1 then _ else _).
  destruct terminal as [t|].
  - apply terminalizeOr_wp; [done|done|]. intros f w' Hna Hw He. destruct f; cbn; try done; try (by apply He).
    apply (wp_bind rely (call_acquire false)). apply call_acquire_wp; [|done]. intros r w2 Hm2. by apply IH.
  - apply wp_bind. apply polling_wp; [|done|done]. intros r w' Hne Hr.
    destruct r as [| |[]]; [|done|..].
    + apply IH. by destruct Hr.
    + apply IH. by destruct Hr.
    + by apply IH.
Qed.

Lemma until_wp fuel w : wp rely (acquireUntilTerminal deadlineAt fuel) settled w.
Proof.
  unfold acquireUntilTerminal. apply wp_bind, call_acquire_wp; [|done]. intros r w' Hm. by apply acquireLoop_wp.
Qed.

(** The owner's release: the attempt ended, or every attempt threw. *)
Lemma releaseWithRetry_ended delays w :
  attempt_ended (db w) → wp rely (releaseWithRetry delays) (λ _ w', attempt_ended (db w')) w.
Proof.
  revert w. induction delays as [|d delays IH]; intros w He; cbn; [done|]. intros w1 Hr1.
  apply (rely_ended _ _ Hr1) in He.
  destruct (store_releaseLease (db w1)) as [a s] eqn:Hrel. apply (release_ended _ _ _ He) in Hrel.
  destruct a as [[]|]; cbn; [done|by apply IH|by apply IH].
Qed.

Lemma releaseWithRetry_wp delays w :
  attempt_admitted (db w) →
  wp rely (releaseWithRetry delays)
    (λ _ w', attempt_ended (db w') ∨ releaseErrors w' = (releaseErrors w + length delays)%nat) w.
Proof.
  revert w. induction delays as [|d delays IH]; intros w Ha; cbn; [right; lia|].
  intros w1 Hr1. apply (rely_admitted _ _ Hr1) in Ha. rewrite <- (rely_releaseErrors _ _ Hr1).
  destruct (store_releaseLease (db w1)) as [[b|] s] eqn:Hrel; cbn.
  - pose proof (release_answer _ _ _ Ha Hrel) as He. destruct b; cbn; [by left|].
    eapply wp_mono; [|by apply releaseWithRetry_ended]. intros ? w' ?. by left.
  - eapply wp_mono; [|apply IH; by apply (release_failed (db w1))]. cbn. intros ? w' [|Hn]; [by left|right; lia].
Qed.

(** ** The loops end *)

Definition returned {A} (out : outcome A) (w : W) : Prop := out ≠ OutOfFuel.

Lemma settleResult_returns result w : wp rely (settleResult result) returned w.
Proof.
  unfold settleResult. apply wp_bind. cbn. intros w1 _. destruct (signalAborted w1).
  - by apply terminalizeOr_wp.
  - destruct result; cbn; [done|done|]. by apply terminalizeOr_wp.
Qed.

Lemma loop_exit fuel result ld w :
  result ≠ Waiting → wp rely (acquireLoop deadlineAt fuel result ld) returned w.
Proof. intros Hne. by destruct fuel, result; try apply settleResult_returns. Qed.

(** The caller is gone. *)
Lemma loop_aborted fuel result ld w :
  signalAborted w = true → wp rely (acquireLoop deadlineAt (S fuel) result ld) returned w.
Proof.
  intros Hs. destruct result; [apply settleResult_returns| |apply settleResult_returns].
  cbn [acquireLoop]. apply wp_bind. cbn. intros w1 Hr1. rewrite (rely_signal _ _ Hr1 Hs).
  apply terminalizeOr_wp; [done|done|]. intros f w' _ Hw _. destruct f; cbn; try done.
  by destruct (Hw eq_refl) as [? _].
Qed.

(** The durable deadline has passed. *)
Lemma call_acquire_due c (Q : call AdmissionResult → W → Prop) w :
  attempt_due (db w) → (∀ r w', r ≠ Waiting → attempt_due (db w') → Q (Answer r) w') → (∀ w', Q Failed w') →
  wp rely (call_acquire c) Q w.
Proof.
  intros Hd HQ Hf. unfold call_acquire. apply wp_bind. cbn. intros w1 Hr1. apply (rely_due _ _ Hr1) in Hd.
  destruct (signalAborted w1) eqn:Hs; cbn; [by apply HQ|].
  intros w2 Hr2. apply (rely_due _ _ Hr2) in Hd. pose proof (acquire_due c _ Hd) as Hd'.
  destruct (store_acquire c (db w2)) as [[r|] s] eqn:Ha; cbn; [|apply Hf]. apply HQ; [|done].
  intros ->. by apply (acquire_answer _ _ _ _ Ha).
Qed.

Lemma loop_due_local fuel result w :
  attempt_due (db w) → wp rely (acquireLoop deadlineAt (S fuel) result true) returned w.
Proof.
  intros Hd. destruct result; [apply settleResult_returns| |apply settleResult_returns].
  cbn [acquireLoop]. apply wp_bind. cbn. intros w1 Hr1. apply (rely_due _ _ Hr1) in Hd.
  destruct (signalAborted w1); (apply terminalizeOr_wp; [done|done|]; intros f w' _ Hw _; destruct f; cbn; try done;
    by destruct (Hw eq_refl) as (? & _ & ?)).
Qed.

Lemma loop_due fuel result ld w :
  attempt_due (db w) → wp rely (acquireLoop deadlineAt (S (S fuel)) result ld) returned w.
Proof.
  intros Hd. destruct result; [apply settleResult_returns| |apply settleResult_returns].
  cbn -[waitWithCapacityPolling]. intros w1 Hr1. apply (rely_due _ _ Hr1) in Hd.
  set (terminal := if signalAborted w1 then _ else _). destruct terminal as [t|].
  { apply terminalizeOr_wp; [done|done|]. intros f w' _ Hw _. destruct f; cbn; try done.
    by destruct (Hw eq_refl) as (_ & _ & ?). }
  apply wp_bind. cbn [waitWithCapacityPolling]. apply wp_bind. cbn. intros w2 Hr2.
  apply (rely_due _ _ Hr2) in Hd.
  destruct (negb (signalAborted w2) && (rt_now w2 <? deadlineAt)); cbn.
  - apply (wp_bind rely (call_acquire false)). apply call_acquire_due; [done| |done].
    intros r w3 Hne Hd3. destruct r as [| |[]]; [exact (settleResult_returns Granted w3)|done|
      exact (settleResult_returns (Ended CANCELLED) w3)|exact (loop_due_local fuel Waiting w3 Hd3)].
  - intros w3 Hr3. apply (rely_due _ _ Hr3) in Hd. destruct (signalAborted w3);
      [exact (settleResult_returns (Ended CANCELLED) w3)|exact (loop_due_local fuel Waiting w3 Hd)].
Qed.
End Deadline.

(** ** Whole calls *)

(** Only the owner's releases count in [releaseErrors]. *)
Section Quiet.
Variables (deadlineAt : Z) (n : nat).
Notation inv := (λ w : W, releaseErrors w = n).
Notation quiet := (safe inv (λ _, True)).

Lemma quiet_read {A} (f : W → A) : quiet (read f).
Proof. done. Qed.

Lemma quiet_on_db {A} (f : St → call A * St) : quiet (on_db f).
Proof. intros w Hw. cbn. by destruct (f (db w)). Qed.

Lemma quiet_bind {A B} (p : prog W A) (g : A → prog W B) : quiet p → (∀ a, quiet (g a)) → quiet (prog_bind p g).
Proof. intros Hp Hg. by eapply safe_bind. Qed.

Lemma quiet_call_acquire c : quiet (call_acquire c).
Proof.
  apply quiet_bind; [apply quiet_read|]. intros []; [done|]. apply quiet_on_db.
Qed.

Lemma quiet_terminalizeOr t k : (∀ f, quiet (k f)) → quiet (terminalizeOr t k).
Proof.
  intros Hk. apply quiet_bind; [apply quiet_on_db|]. intros [[]|]; [|apply Hk..|done].
  apply quiet_bind; [apply quiet_on_db|]. by intros [].
Qed.

Lemma quiet_settle r : quiet (settleResult r).
Proof.
  apply quiet_bind; [apply quiet_read|]. intros []; [by apply quiet_terminalizeOr|].
  destruct r; [done|done|by apply quiet_terminalizeOr].
Qed.

Lemma quiet_polling fuel : quiet (waitWithCapacityPolling deadlineAt fuel).
Proof.
  induction fuel as [|fuel IH]; (apply quiet_bind; [apply quiet_read|]; intros [cancelled now];
    destruct (negb cancelled && (now <? deadlineAt)); [|apply quiet_bind; [apply quiet_read|done]]); [done|].
  apply quiet_bind; [apply quiet_call_acquire|]. by intros [[]|].
Qed.

Lemma quiet_loop fuel result ld : quiet (acquireLoop deadlineAt fuel result ld).
Proof.
  revert result ld. induction fuel as [|fuel IH]; intros result ld.
  { destruct result; [apply quiet_settle|done|apply quiet_settle]. }
  destruct result; [apply quiet_settle| |apply quiet_settle]. cbn [acquireLoop].
  apply quiet_bind; [apply quiet_read|]. intros [cancelled now].
  set (terminal := if cancelled then _ else _). destruct terminal as [t|].
  - apply quiet_terminalizeOr. intros []; try done. apply quiet_bind; [apply quiet_call_acquire|]. by intros [].
  - apply quiet_bind; [apply quiet_polling|]. by intros [[| |[]]| |].
Qed.

Lemma quiet_until fuel : quiet (acquireUntilTerminal deadlineAt fuel).
Proof.
  apply quiet_bind; [apply quiet_call_acquire|]. intros []; [apply quiet_loop|done].
Qed.
End Quiet.


Lemma cleanUp_wp (Q : outcome RuntimeAdmissionResult → W → Prop) w : (∀ w', Q Threw w') → wp rely cleanUp Q w.
Proof.
  intros HQ. unfold cleanUp. apply wp_bind. cbn. intros w1 _ w2 _.
  destruct (store_terminalize _ _) as [[[]|] s]; cbn; try apply HQ. intros w3 _. apply HQ.
Qed.

(** What a call of [acquire] leaves behind. *)
Definition acquired (errors : nat) (out : outcome RuntimeAdmissionResult) (w : W) : Prop :=
  match out with
  | Value (RtResult Granted) => attempt_admitted (db w) ∧ rt_owner w = OwnerRunning ∧ rt_closed w = false
  | Value (RtResult Waiting) => False
  | Value (RtResult (Ended _)) | Value LeaseLostAdmission =>
      attempt_ended (db w) ∨ releaseErrors w = (errors + length RELEASE_DELAYS_MS)%nat
  | _ => True
  end.

Lemma maintain_wp interval (Q : call unit → W → Prop) w :
  (∀ r w', (attempt_ended (db w) → attempt_ended (db w')) → releaseErrors w' = releaseErrors w → Q r w') →
  wp rely (maintain interval) Q w.
Proof.
  intros HQ. unfold maintain. apply wp_bind. cbn. intros w1 Hr1.
  pose proof (rely_releaseErrors _ _ Hr1) as He1.
  destruct (rt_now w1 - lastMaintenanceAt w1 <? interval); cbn.
  - apply HQ; [by apply rely_ended|done].
  - intros w2 Hr2. pose proof (rely_releaseErrors _ _ Hr2) as He2. cbn in He2.
    destruct (store_sweep (db w2)) as [r s] eqn:Hs. cbn. apply HQ; cbn; [|congruence].
    intros He. apply (others_ended _ _ (sweep_others _ _ _ Hs)), (rely_ended _ _ Hr2). by apply (rely_ended w w1).
Qed.

Lemma acquire_wp deadlineAt fuel interval w :
  attempt_ended (db w) → wp rely (acquire deadlineAt fuel interval) (acquired (releaseErrors w)) w.
Proof.
  intros He. unfold acquire. apply wp_bind. cbn [read stmt wp fst snd]. intros w1 Hr1.
  pose proof (rely_releaseErrors _ _ Hr1) as Hn1. apply (rely_ended _ _ Hr1) in He.
  destruct (rt_closed w1); [by left|]. rewrite <- Hn1.
  apply wp_bind, maintain_wp. intros r w2 He2 Hn2. specialize (He2 He). rewrite <- Hn2.
  destruct r; [|by apply cleanUp_wp].
  apply wp_bind. eapply wp_mono; [|apply (wp_safe rely (λ w, releaseErrors w = releaseErrors w2) _ (λ _, True) settled);
    [|apply quiet_until|done|apply until_wp]].
  2:{ intros x y Hxy Hx. by rewrite (rely_releaseErrors _ _ Hxy). }
  cbn beta. intros out w3 [Hset Hn3]. destruct out as [[| |t]| |]; cbn in Hset; [|done|by left|by apply cleanUp_wp|done].
  apply wp_bind. cbn [adopt stmt wp fst snd]. intros w4 Hr4. apply (rely_admitted _ _ Hr4) in Hset.
  pose proof (rely_releaseErrors _ _ Hr4) as Hn4. rewrite <- Hn3, <- Hn4.
  set (w4' := mkRuntime _ _ _ _ _ _ _). apply wp_bind. cbn [read stmt wp fst snd]. intros w5 Hr5.
  apply (rely_admitted w4' w5 Hr5) in Hset. pose proof (rely_releaseErrors _ _ Hr5) as Hn5. cbn in Hn5. rewrite <- Hn5.
  assert (Hrel : ∀ b : bool, wp rely (let? _ := releaseWithRetry RELEASE_DELAYS_MS in
    Done (Value (if b then LeaseLostAdmission else RtResult (Ended CANCELLED)))) (acquired (releaseErrors w5)) w5).
  { intros b. apply wp_bind. eapply wp_mono; [|by apply releaseWithRetry_wp]. cbn beta. intros _ w6 Hw6. by destruct b. }
  destruct (rt_owner w5) eqn:Ho; [apply Hrel| |apply Hrel|apply Hrel].
  destruct (rt_closed w5) eqn:Hc; [apply Hrel|]. by split_and!.
Qed.

(** C28. Capacity is never left behind by a call that does not return it. A new attempt is
    acquired while anything may happen between its statements: other servers grant it, expire it
    or reclaim its lease, the caller aborts, the runtime closes, the owner loses the lease, and
    any store call may throw, before or after it took effect. If the call answers CANCELLED,
    EXPIRED or LEASE_LOST, the attempt neither waits nor holds an ACTIVE lease, unless the lease
    had been adopted and all four of its owner's release attempts threw. It answers ADMITTED only
    with a running owner and an open runtime, and it never answers WAITING. *)
Theorem acquire_leaves_nothing_behind (deadlineAt interval : Z) (fuel : nat) (w w' : W) out :
  attempt_ended (db w) → exec rely (acquire deadlineAt fuel interval) w out w' →
  acquired (releaseErrors w) out w'.
Proof. intros He Hex. exact (wp_sound _ _ _ _ _ _ Hex (acquire_wp deadlineAt fuel interval w He)). Qed.

(** A wait ends. From any state of the acquire loop: once the caller (or the shutdown) has
    aborted, one more turn of the loop returns; once the attempt's durable deadline has passed,
    two do, whatever the process clock says and whatever else happens meanwhile. *)
Theorem acquire_wait_ends (deadlineAt : Z) (fuel : nat) (result : AdmissionResult) (reached : bool) (w w' : W) out :
  signalAborted w = true ∧ (1 ≤ fuel)%nat ∨ attempt_due (db w) ∧ (2 ≤ fuel)%nat →
  exec rely (acquireLoop deadlineAt fuel result reached) w out w' → out ≠ OutOfFuel.
Proof.
  intros Hover Hex. apply (wp_sound _ _ returned _ _ _ Hex). destruct Hover as [[Hs Hf]|[Hd Hf]].
  - destruct fuel; [lia|]. by apply loop_aborted.
  - destruct fuel as [|[|fuel]]; [lia..|]. by apply loop_due.
Qed.
End Runtime.

(** ** The PostgreSQL store, for one attempt *)

Inductive EndState := RqCancelled | RqExpired | RqTerminal.

(** The attempt's request row with its lease, which change in one transaction: no row yet, WAITING,
    ADMITTED with an ACTIVE lease, or ended with none. *)
Inductive AttemptRow := NoRow | RowWaiting | RowAdmitted (expiresAt : Z) | RowEnded (state : EndState).

(** What the admission pass of a poll comes to: the planner grants one of the attempt's waiters,
    leaves one waiting, or none is left alive. *)
Inductive Pass := PassGrant | PassWait | PassNone.

(** The durable deadline is the attempt's (a row without one is given it by the next [acquire]).
    [a_fault]: the next call throws, before it commits or ([true]) after. *)
Record AttemptDb := mkAttemptDb {
  a_row : AttemptRow;
  a_deadlineAt : Z;
  a_heartbeatAt : Z;
  a_now : Z;
  a_pass : Pass;
  a_fault : option bool;
}.

Definition set_row (row : AttemptRow) (d : AttemptDb) : AttemptDb :=
  mkAttemptDb row (a_deadlineAt d) (a_heartbeatAt d) (a_now d) (a_pass d) (a_fault d).
Definition beat (d : AttemptDb) : AttemptDb :=
  mkAttemptDb (a_row d) (a_deadlineAt d) (a_now d) (a_now d) (a_pass d) (a_fault d).

Definition transaction {A} (work : AttemptDb → call A * AttemptDb) (d : AttemptDb) : call A * AttemptDb :=
  match a_fault d with
  | None => work d
  | Some committed => (Failed, if committed then (work d).2 else d)
  end.

Definition endState (t : Terminal) : EndState := match t with CANCELLED => RqCancelled | EXPIRED => RqExpired end.

(** The admission pass and the checks after it ([acquire]'s end). *)
Definition admissionPass (d : AttemptDb) : call AdmissionResult * AttemptDb :=
  match a_pass d with
  | PassGrant => (Answer Granted, set_row (RowAdmitted (a_now d + 30000)) d)
  | PassWait => if a_deadlineAt d <=? a_now d then (Answer (Ended EXPIRED), set_row (RowEnded RqExpired) d)
                else (Answer Waiting, set_row RowWaiting d)
  | PassNone => (Answer (Ended EXPIRED), set_row (RowEnded RqExpired) d)
  end.

Definition pg_acquire (candidates : bool) : AttemptDb → call AdmissionResult * AttemptDb :=
  transaction (λ d,
    match a_row d with
    | NoRow => if candidates then admissionPass (beat d) else (Failed, d)
    | RowAdmitted e => if e <=? a_now d then (Answer (Ended EXPIRED), set_row (RowEnded RqTerminal) d)
                       else (Answer Granted, d)
    | RowEnded RqExpired => (Answer (Ended EXPIRED), d)
    | RowEnded _ => (Answer (Ended CANCELLED), d)
    | RowWaiting => if a_deadlineAt d <=? a_now d then (Answer (Ended EXPIRED), set_row (RowEnded RqExpired) d)
                    else admissionPass (beat d)
    end).

Definition pg_terminalizeAttempt (t : Terminal) : AttemptDb → call AdmissionTerminalizationResult * AttemptDb :=
  transaction (λ d,
    match a_row d with
    | NoRow => (Answer TzMissing, d)
    | RowAdmitted _ => (Answer TzAdmitted, d)
    | RowEnded RqCancelled => (Answer (TzEnded CANCELLED), d)
    | RowEnded RqExpired => (Answer (TzEnded EXPIRED), d)
    | RowEnded RqTerminal => (Answer TzTerminal, d)
    | RowWaiting =>
        if match t with EXPIRED => a_now d <? a_deadlineAt d | CANCELLED => false end then (Answer TzWaiting, d)
        else (Answer (TzEnded t), set_row (RowEnded (endState t)) d)
    end).

Definition pg_release : AttemptDb → call bool * AttemptDb :=
  transaction (λ d,
    match a_row d with
    | RowAdmitted _ => (Answer true, set_row (RowEnded RqTerminal) d)
    | _ => (Answer false, d)
    end).

(** [sweepAbandoned], then [reclaimExpired], on this attempt. *)
Definition pg_sweep : AttemptDb → call unit * AttemptDb :=
  transaction (λ d,
    (Answer (),
     match a_row d with
     | RowWaiting => if a_deadlineAt d <=? a_now d then set_row (RowEnded RqExpired) d
                     else if a_heartbeatAt d <? a_now d - 60000 then set_row (RowEnded RqCancelled) d else d
     | RowAdmitted e => if e <=? a_now d then set_row (RowEnded RqTerminal) d else d
     | _ => d
     end)).

(** Other servers: a waiting attempt is granted or ended, a lease is renewed, released or
    reclaimed; nobody creates the attempt or brings it back. Time passes; passes and faults come
    out as they may. *)
Inductive row_others : AttemptRow → AttemptRow → Prop :=
| ro_same r : row_others r r
| ro_grant e : row_others RowWaiting (RowAdmitted e)
| ro_end s : row_others RowWaiting (RowEnded s)
| ro_renew e e' : row_others (RowAdmitted e) (RowAdmitted e')
| ro_free e s : row_others (RowAdmitted e) (RowEnded s).

Record pg_others (d d' : AttemptDb) : Prop := {
  po_row : row_others (a_row d) (a_row d');
  po_deadline : a_deadlineAt d' = a_deadlineAt d;
  po_now : a_now d ≤ a_now d';
}.

#[export] Instance request_store : AttemptStore AttemptDb := {
  store_acquire := pg_acquire;
  store_terminalize := pg_terminalizeAttempt;
  store_releaseLease := pg_release;
  store_sweep := pg_sweep;
  store_others := pg_others;
  attempt_ended d := match a_row d with NoRow | RowEnded _ => True | _ => False end;
  attempt_admitted d := a_row d ≠ RowWaiting;
  attempt_due d := a_deadlineAt d ≤ a_now d;
}.

Ltac rows d := destruct d as [[| |?e|[]] ?dl ?hbt ?nw [| |] [[]|]]; cbn in *.

Lemma transaction_rows {A} (work : AttemptDb → call A * AttemptDb) (P : AttemptDb → Prop) d :
  P (work d).2 → P d → P (transaction work d).2.
Proof. unfold transaction. by destruct (a_fault d) as [[]|]. Qed.

(** The store keeps the promises of the interface. *)
#[export] Instance request_store_laws : AttemptStoreLaws AttemptDb.
Proof.
  split.
  - intros d. by rows d.
  - intros c d r d'. unfold store_acquire; cbn. unfold pg_acquire, transaction, admissionPass.
    rows d; repeat case_match; intros ?; simplify_eq/=; try done; lia.
  - intros t d r d'. unfold store_terminalize; cbn. unfold pg_terminalizeAttempt, transaction.
    rows d; destruct t; repeat case_match; intros ?; simplify_eq/=; try done; split_and!; try done; naive_solver lia.
  - intros d b d' Ha. unfold store_releaseLease; cbn. unfold pg_release, transaction.
    rows d; intros ?; simplify_eq/=; done.
  - intros d d' Ha. unfold store_releaseLease; cbn. unfold pg_release, transaction.
    rows d; intros ?; simplify_eq/=; done.
  - intros d r d' Ha. unfold store_releaseLease; cbn. unfold pg_release, transaction.
    rows d; intros ?; simplify_eq/=; done.
  - intros c d Hd. cbn in *. unfold pg_acquire, admissionPass.
    apply (transaction_rows _ (λ d, a_deadlineAt d ≤ a_now d)); [|done].
    rows d; repeat case_match; simplify_eq/=; done.
  - intros t d Hd. cbn in *. unfold pg_terminalizeAttempt.
    apply (transaction_rows _ (λ d, a_deadlineAt d ≤ a_now d)); [|done].
    rows d; repeat case_match; simplify_eq/=; done.
  - intros d r d'. cbn. unfold pg_sweep, transaction.
    rows d; repeat case_match; intros ?; simplify_eq/=; (split; cbn; [constructor|done|lia]).
  - intros d d' [Hr _ _]. cbn. by destruct Hr.
  - intros d d' [Hr _ _]. cbn. by destruct Hr.
  - intros d d' [_ Hd Hn]. cbn. lia.
Qed.

(** An attempt whose candidates all turn out unroutable. *)
Definition unroutable : Runtime AttemptDb :=
  mkRuntime (mkAttemptDb NoRow 1000 0 0 PassNone None) false false 0 0 NoOwner 0.

Lemma acquire_leaves_nothing_behind_witness :
  ∃ w', exec rely (acquire 1000 5 5000) unroutable (Value (RtResult (Ended EXPIRED))) w' ∧
        acquired 0 (Value (RtResult (Ended EXPIRED))) w'.
Proof.
  pose (p := acquire (St := AttemptDb) 1000 5 5000).
  assert (Hex : exec rely p unroutable (run p unroutable).1 (run p unroutable).2)
    by (apply exec_run; intros w; apply rely_refl).
  exists (run p unroutable).2. split; [exact Hex|].
  exact (acquire_leaves_nothing_behind 1000 5000 5 unroutable (run p unroutable).2
    (Value (RtResult (Ended EXPIRED))) I Hex).
Defined.

(** A waiting attempt whose caller has gone. *)
Definition abandoned : Runtime AttemptDb :=
  mkRuntime (mkAttemptDb RowWaiting 1000 0 0 PassWait None) true false 0 0 NoOwner 0.

Lemma acquire_wait_ends_witness :
  (run (acquireLoop 1000 1 Waiting false) abandoned).1 ≠ OutOfFuel.
Proof.
  refine (acquire_wait_ends 1000 1 Waiting false abandoned _ _ _
    (exec_run rely (acquireLoop 1000 1 Waiting false) abandoned _)).
  - left. split; [reflexivity|lia].
  - intros w. apply rely_refl.
Defined.
