(* ===== verification/NodeEvents.v ===== *)
(** * The dashboard's node event streams

    [src/apps/server/src/node-events/hub.ts] ([NodeEventHub]) and the calls its route makes
    ([src/apps/server/src/node-events/route.ts]). Subscribers are shared objects: they live in
    the heap [subs] and the hub's sets hold their index. A stream is the queue of its controller
    ([ByteLengthQueuingStrategy]); frames are the bytes the code writes. *)

From stdpp Require Import pretty.
From S2P Require Import Prelude.

(** ** Frames *)

Definition hex_digit (n : nat) : string :=
  match String.get n "0123456789abcdef" with Some c => String c EmptyString | None => EmptyString end.

Definition quote : string := String (Ascii.ascii_of_nat 34) EmptyString.
Definition backslash : string := String (Ascii.ascii_of_nat 92) EmptyString.
Definition newline : string := String (Ascii.ascii_of_nat 10) EmptyString.

(** [JSON.stringify] of a string, character by character. *)
Definition json_char (c : Ascii.ascii) : string :=
  let n := Ascii.nat_of_ascii c in
  if (n =? 34)%nat then backslash +:+ quote
  else if (n =? 92)%nat then backslash +:+ backslash
  else if (n =? 8)%nat then backslash +:+ "b"
  else if (n =? 9)%nat then backslash +:+ "t"
  else if (n =? 10)%nat then backslash +:+ "n"
  else if (n =? 12)%nat then backslash +:+ "f"
  else if (n =? 13)%nat then backslash +:+ "r"
  else if (n <? 32)%nat then backslash +:+ "u00" +:+ hex_digit (n / 16) +:+ hex_digit (n mod 16)
  else String c EmptyString.

Fixpoint json_chars (s : string) : string :=
  match s with
  | EmptyString => EmptyString
  | String c s' => json_char c +:+ json_chars s'
  end.

Definition json_string (s : string) : string := quote +:+ json_chars s +:+ quote.

Inductive Connection := ONLINE | OFFLINE.

Inductive NodeEventKind :=
| NodeConnection (connection : Connection) (generation : option Z)
| NodeTrust | NodeAgentUpdate | NodeAdded | NodeRemoved.

Record NodeEvent := mkNodeEvent { e_userId : string; e_nodeId : string; e_kind : NodeEventKind }.

Inductive UnauthorizedReason := session_ended | access_blocked | two_factor_required | user_deletion_pending.

(** What the hub writes: [retry], [hello], a node event with its time, [unauthorized], a ping. *)
Inductive Frame :=
| RetryFrame | HelloFrame | NodeFrame (event : NodeEvent) (at_ : string)
| UnauthorizedFrame (reason : UnauthorizedReason) | PingFrame.

Definition event_type (k : NodeEventKind) : string :=
  match k with
  | NodeConnection _ _ => "node.connection"
  | NodeTrust => "node.trust" | NodeAgentUpdate => "node.agentUpdate"
  | NodeAdded => "node.added" | NodeRemoved => "node.removed"
  end.

Definition reason_text (r : UnauthorizedReason) : string :=
  match r with
  | session_ended => "session_ended" | access_blocked => "access_blocked"
  | two_factor_required => "two_factor_required" | user_deletion_pending => "user_deletion_pending"
  end.

Definition json_field (name value : string) : string := json_string name +:+ ":" +:+ value.

Definition event_data (e : NodeEvent) (at_ : string) : string :=
  "{" +:+ json_field "v" "1" +:+ "," +:+ json_field "type" (json_string (event_type (e_kind e))) +:+ "," +:+
  json_field "nodeId" (json_string (e_nodeId e)) +:+ "," +:+
  match e_kind e with
  | NodeConnection c g =>
      json_field "connection" (json_string (match c with ONLINE => "ONLINE" | OFFLINE => "OFFLINE" end)) +:+ "," +:+
      json_field "generation" (match g with Some n => pretty n | None => "null" end) +:+ ","
  | _ => ""
  end +:+ json_field "at" (json_string at_) +:+ "}".

(** [frame]. *)
Definition frame (event data : string) : string :=
  "event: " +:+ event +:+ newline +:+ "data: " +:+ data +:+ newline +:+ newline.

Definition NODE_EVENTS_RETRY_MS : Z := 3000.

Definition text (f : Frame) : string :=
  match f with
  | RetryFrame => "retry: " +:+ pretty NODE_EVENTS_RETRY_MS +:+ newline +:+ newline
  | HelloFrame => frame "hello" ("{" +:+ json_field "v" "1" +:+ "}")
  | NodeFrame e at_ => frame "node" (event_data e at_)
  | UnauthorizedFrame r => frame "unauthorized" ("{" +:+ json_field "reason" (json_string (reason_text r)) +:+ "}")
  | PingFrame => ": ping" +:+ newline +:+ newline
  end.

Definition byteLength (f : Frame) : Z := Z.of_nat (String.length (text f)).

Example node_frame_text :
  text (NodeFrame (mkNodeEvent "u" "n1" NodeTrust) "t") =
  "event: node" +:+ newline +:+ "data: {" +:+ quote +:+ "v" +:+ quote +:+ ":1," +:+ quote +:+ "type" +:+ quote +:+ ":" +:+
  quote +:+ "node.trust" +:+ quote +:+ "," +:+ quote +:+ "nodeId" +:+ quote +:+ ":" +:+ quote +:+ "n1" +:+ quote +:+ "," +:+
  quote +:+ "at" +:+ quote +:+ ":" +:+ quote +:+ "t" +:+ quote +:+ "}" +:+ newline +:+ newline.
Proof. reflexivity. Qed.

(** ** Streams and subscribers *)

Definition NODE_EVENTS_MAX_QUEUED_BYTES : Z := 64 * 1024.

(** [sent] is all that was enqueued, [unread] what the reader has not taken yet; [readable] is
    false once the controller was closed or the reader cancelled. *)
Record Stream := mkStream { sent : list Frame; unread : list Frame; readable : bool }.

Definition queuedBytes (fs : list Frame) : Z := foldr (λ f n, byteLength f + n) 0 fs.
Definition desiredSize (s : Stream) : Z :=
  if readable s then NODE_EVENTS_MAX_QUEUED_BYTES - queuedBytes (unread s) else 0.

(** [controller.enqueue], which throws ([None]) once the stream is closed. *)
Definition enqueue (f : Frame) (s : Stream) : option Stream :=
  if readable s then Some (mkStream (sent s ++ [f]) (unread s ++ [f]) true) else None.
Definition close (s : Stream) : Stream := mkStream (sent s) (unread s) false.

Inductive SubState := pending | open | closed.
#[export] Instance SubState_eq_dec : EqDecision SubState.
Proof. solve_decision. Defined.

(** The stream outlives its controller, which is the field [controller]. *)
Record NodeEventSubscriber := mkSub {
  userId : string;
  sessionId : string;
  impersonatedBy : option string;
  state : SubState;
  controller : bool;
  stream : Stream;
}.

Definition set_sub (st : SubState) (c : bool) (s : Stream) (x : NodeEventSubscriber) : NodeEventSubscriber :=
  mkSub (userId x) (sessionId x) (impersonatedBy x) st c s.

Record NodeEventLimits := mkLimits { perUser : Z; perServer : Z }.
Definition NODE_EVENTS_LIMITS : NodeEventLimits := mkLimits 16 2048.

Record NodeEventHub := mkHub {
  subs : list NodeEventSubscriber;
  byUser : list (string * list nat);
  total : Z;
  closing : bool;
  pingTimer : bool;
}.

Definition emptyHub : NodeEventHub := mkHub [] [] 0 false false.
Definition set_subs (l : list NodeEventSubscriber) (h : NodeEventHub) : NodeEventHub :=
  mkHub l (byUser h) (total h) (closing h) (pingTimer h).

Definition all (h : NodeEventHub) : list nat := flat_map snd (byUser h).

(** ** The hub's methods *)

Inductive ReserveResult := Reserved (subscriber : nat) | UserLimit | ServerLimit | Closing.

Definition reserve (limits : NodeEventLimits) (user session : string) (impersonated : option string)
    (h : NodeEventHub) : NodeEventHub * ReserveResult :=
  if closing h then (h, Closing)
  else if perServer limits <=? total h then (h, ServerLimit)
  else
    let own := map_get user (byUser h) in
    if perUser limits <=? Z.of_nat (length (default [] own)) then (h, UserLimit)
    else
      let i := length (subs h) in
      (mkHub (subs h ++ [mkSub user session impersonated pending false (mkStream [] [] false)])
         (map_set user (match own with Some ids => ids ++ [i] | None => [i] end) (byUser h))
         (total h + 1) (closing h) (pingTimer h), Reserved i).

Definition forget (i : nat) (h : NodeEventHub) : NodeEventHub :=
  match subs h !! i with
  | None => h
  | Some x =>
      match map_get (userId x) (byUser h) with
      | Some ids =>
          if bool_decide (i ∈ ids) then
            let rest := List.filter (λ j, negb (j =? i)%nat) ids in
            mkHub (subs h)
              (match rest with
               | [] => map_delete (userId x) (byUser h)
               | _ => map_set (userId x) rest (byUser h)
               end)
              (total h - 1) (closing h)
              (if total h - 1 =? 0 then false else pingTimer h)
          else h
      | None => h
      end
  end.

Definition release (i : nat) (h : NodeEventHub) : NodeEventHub := forget i h.

(** [end] ([end] is a keyword here). *)
Definition end_ (i : nat) (reason : option UnauthorizedReason) (h : NodeEventHub) : NodeEventHub :=
  match subs h !! i with
  | None => h
  | Some x =>
      let wasOpen := bool_decide (state x = open) in
      let stream' :=
        if wasOpen && controller x then
          match reason with
          | Some r => match enqueue (UnauthorizedFrame r) (stream x) with
                      | Some s => close s
                      | None => stream x
                      end
          | None => close (stream x)
          end
        else stream x in
      forget i (set_subs (<[i := set_sub closed false stream' x]> (subs h)) h)
  end.

Definition write (f : Frame) (h : NodeEventHub) (i : nat) : NodeEventHub :=
  match subs h !! i with
  | None => h
  | Some x =>
      if negb (bool_decide (state x = open) && controller x) then h
      else if desiredSize (stream x) <? byteLength f then end_ i None h
      else match enqueue f (stream x) with
           | Some s => set_subs (<[i := set_sub (state x) (controller x) s x]> (subs h)) h
           | None => end_ i None h
           end
  end.

Definition ensurePing (h : NodeEventHub) : NodeEventHub :=
  if pingTimer h || closing h then h else mkHub (subs h) (byUser h) (total h) (closing h) true.

(** [activate]: the flag is whether a stream was returned. *)
Definition activate (i : nat) (h : NodeEventHub) : NodeEventHub * bool :=
  match subs h !! i with
  | None => (h, false)
  | Some x =>
      if bool_decide (state x = pending) then
        let s := mkStream [RetryFrame; HelloFrame] [RetryFrame; HelloFrame] true in
        (ensurePing (set_subs (<[i := set_sub open true s x]> (subs h)) h), true)
      else (h, false)
  end.

(** The stream's [cancel] callback; the reader has dropped what it had not read. *)
Definition cancel (i : nat) (h : NodeEventHub) : NodeEventHub :=
  match subs h !! i with
  | None => h
  | Some x => forget i (set_subs (<[i := set_sub closed false (mkStream (sent (stream x)) [] false) x]> (subs h)) h)
  end.

Definition publish (event : NodeEvent) (at_ : string) (h : NodeEventHub) : NodeEventHub :=
  match map_get (e_userId event) (byUser h) with
  | None => h
  | Some subscribers => foldl (write (NodeFrame event at_)) h subscribers
  end.

Definition end_if (p : NodeEventSubscriber → bool) (reason : option UnauthorizedReason) (h : NodeEventHub) (i : nat)
    : NodeEventHub :=
  match subs h !! i with
  | Some x => if p x then end_ i reason h else h
  | None => h
  end.

Definition endSession (session : string) (reason : UnauthorizedReason) (h : NodeEventHub) : NodeEventHub :=
  foldl (end_if (λ x, bool_decide (sessionId x = session)) (Some reason)) h (all h).

Definition closeUser (user : string) (reason : UnauthorizedReason) (h : NodeEventHub) : NodeEventHub :=
  foldl (end_if (λ x, bool_decide (userId x = user) || bool_decide (impersonatedBy x = Some user)) (Some reason))
    h (all h).

Inductive SessionVerdict := verdict_ok | verdict_ended | verdict_blocked | verdict_two_factor_required.

(** The sessions [recheckSessions] reads, in order, and what it does with one verdict. *)
Definition recheckTargets (h : NodeEventHub) : list string :=
  foldl (λ sessions i,
    match subs h !! i with
    | Some x => if bool_decide (state x = open) && negb (bool_decide (sessionId x ∈ sessions))
                then sessions ++ [sessionId x] else sessions
    | None => sessions
    end) [] (all h).

Definition applyVerdict (session : string) (v : SessionVerdict) (h : NodeEventHub) : NodeEventHub :=
  match v with
  | verdict_ok => h
  | verdict_ended => endSession session session_ended h
  | verdict_blocked => endSession session access_blocked h
  | verdict_two_factor_required => endSession session two_factor_required h
  end.

Definition closeAll (h : NodeEventHub) : NodeEventHub :=
  let h := mkHub (subs h) (byUser h) (total h) true (pingTimer h) in
  let h := foldl (λ h i, end_ i None h) h (all h) in
  mkHub (subs h) (byUser h) (total h) (closing h) false.

(** The ping timer's callback. *)
Definition ping (h : NodeEventHub) : NodeEventHub := foldl (write PingFrame) h (all h).

(** ** The registered subscribers *)

Lemma flat_map_set_some (k : string) (v old : list nat) m :
  map_get k m = Some old →
  ∃ l1 l2, flat_map snd m = l1 ++ old ++ l2 ∧ flat_map snd (map_set k v m) = l1 ++ v ++ l2.
Proof.
  induction m as [|[k' v'] m IH]; cbn; [done|]. case_decide.
  - intros [= ->]. by exists [], (flat_map snd m).
  - intros (l1 & l2 & E1 & E2)%IH. exists (v' ++ l1), l2. cbn. by rewrite E1, E2, <- !app_assoc.
Qed.

Lemma flat_map_set_none (k : string) (v : list nat) m :
  map_get k m = None → flat_map snd (map_set k v m) = flat_map snd m ++ v.
Proof.
  induction m as [|[k' v'] m IH]; cbn; [by rewrite app_nil_r|]. case_decide; [done|].
  intros Hn. cbn. by rewrite IH, app_assoc.
Qed.

Lemma flat_map_delete (k : string) (old : list nat) m :
  NoDup (map_keys m) → map_get k m = Some old →
  ∃ l1 l2, flat_map snd m = l1 ++ old ++ l2 ∧ flat_map snd (map_delete k m) = l1 ++ l2.
Proof.
  unfold map_keys. induction m as [|[k' v'] m IH]; cbn; [done|]. intros [Hk Hnd]%NoDup_cons. case_decide as Hd.
  - intros [= ->]. exists [], (flat_map snd m). split; [done|]. cbn. subst k'. f_equal.
    clear IH Hnd. induction m as [|[k' v''] m IH]; cbn; [done|]. cbn in Hk.
    rewrite decide_False by set_solver. f_equal. apply IH. set_solver.
  - intros (l1 & l2 & E1 & E2)%IH; [|done]. exists (v' ++ l1), l2. cbn. by rewrite E1, E2, <- !app_assoc.
Qed.

(** The map agrees with the heap: each set is its user's, nothing is in it twice. *)
Record registry_ok (h : NodeEventHub) : Prop := {
  rg_keys : NoDup (map_keys (byUser h));
  rg_users : ∀ u ids i, map_get u (byUser h) = Some ids → i ∈ ids → ∃ x, subs h !! i = Some x ∧ userId x = u;
  rg_nonempty : ∀ u ids, map_get u (byUser h) = Some ids → ids ≠ [];
  rg_nodup : NoDup (all h);
  rg_total : total h = Z.of_nat (length (all h));
}.

Definition registered (h : NodeEventHub) (i : nat) : Prop := i ∈ all h.

Lemma registered_iff h i :
  registry_ok h →
  registered h i ↔ ∃ x ids, subs h !! i = Some x ∧ map_get (userId x) (byUser h) = Some ids ∧ i ∈ ids.
Proof.
  intros [Hk Hu _ _ _]. unfold registered, all. rewrite list_elem_of_In, in_flat_map. split.
  - intros ([u ids] & Hin & Hi%list_elem_of_In). cbn in Hi. apply (map_get_NoDup u ids) in Hin; [|done].
    destruct (Hu _ _ _ Hin Hi) as (x & Hx & <-). eauto.
  - intros (x & ids & Hx & Hg & Hi). exists (userId x, ids). split; [by apply map_get_In|by apply list_elem_of_In].
Qed.

Lemma filter_not_id (i : nat) (l : list nat) :
  NoDup l → i ∈ l → ∃ l1 l2, l = l1 ++ i :: l2 ∧ List.filter (λ j, negb (j =? i)%nat) l = l1 ++ l2.
Proof.
  intros Hnd (l1 & l2 & ->)%list_elem_of_split. exists l1, l2. split; [done|].
  apply NoDup_app in Hnd as (_ & Hd & [Hi _]%NoDup_cons).
  assert (Hkeep : ∀ l : list nat, i ∉ l → List.filter (λ j, negb (j =? i)%nat) l = l).
  { intros l Hl. induction l as [|j l IH]; cbn; [done|].
    destruct (Nat.eqb_spec j i); [set_solver|]. cbn. f_equal. set_solver. }
  rewrite List.filter_app. cbn. rewrite Nat.eqb_refl. cbn. rewrite !Hkeep; [done|done|].
  intros Hl. apply (Hd i Hl). by left.
Qed.

(** Same subscribers (up to their state), same sets: same registry. *)
Lemma registry_subs h l :
  registry_ok h → (∀ i x, subs h !! i = Some x → ∃ x', l !! i = Some x' ∧ userId x' = userId x) →
  registry_ok (set_subs l h).
Proof.
  intros [? Hu ? ? ?] Hl. split; cbn; try done.
  intros u ids i Hg Hi. destruct (Hu u ids i Hg Hi) as (x & Hx & <-). by apply Hl.
Qed.

Lemma insert_user (l : list NodeEventSubscriber) (i : nat) x y :
  l !! i = Some x → userId y = userId x →
  ∀ j z, l !! j = Some z → ∃ z', <[i := y]> l !! j = Some z' ∧ userId z' = userId z.
Proof.
  intros Hx Hy j z Hz. destruct (decide (i = j)) as [<-|Hne].
  - exists y. split; [apply list_lookup_insert_eq; by eapply lookup_lt_Some|]. congruence.
  - exists z. by rewrite list_lookup_insert_ne.
Qed.

Definition sets_within (limits : NodeEventLimits) (h : NodeEventHub) : Prop :=
  total h ≤ perServer limits ∧
  ∀ u ids, map_get u (byUser h) = Some ids → Z.of_nat (length ids) ≤ perUser limits.

(** What [forget] does when it finds the subscriber, and when it does not. *)
Lemma forget_in h i :
  registry_ok h → registered h i →
  registry_ok (forget i h) ∧ (∀ j, registered (forget i h) j ↔ registered h j ∧ j ≠ i) ∧
  total (forget i h) = total h - 1 ∧
  (∀ limits, sets_within limits h → sets_within limits (forget i h)) ∧
  pingTimer (forget i h) = (if total h - 1 =? 0 then false else pingTimer h).
Proof.
  intros Hok Hreg. pose proof Hok as [Hk Hu Hne Hnd Ht].
  apply (registered_iff h i Hok) in Hreg as (x & ids & Hx & Hg & Hi).
  unfold forget. rewrite Hx, Hg, bool_decide_true by done.
  destruct (flat_map_set_some (userId x) [] ids _ Hg) as (a1 & a2 & E0 & _).
  assert (Hids : NoDup ids).
  { unfold all in Hnd. rewrite E0 in Hnd. by apply NoDup_app in Hnd as (_ & _ & (? & _)%NoDup_app). }
  destruct (filter_not_id i ids Hids Hi) as (l1 & l2 & El & Ef). cbv zeta. rewrite Ef.
  set (m' := match l1 ++ l2 with [] => _ | _ => _ end).
  assert (Hm : ∀ u, map_get u m' = if decide (userId x = u) then (match l1 ++ l2 with [] => None | _ => Some (l1 ++ l2) end)
                                  else map_get u (byUser h)).
  { intros u. unfold m'. destruct (l1 ++ l2); [by rewrite map_get_delete|by rewrite map_get_set]. }
  assert (Hall : ∃ b1 b2, all h = b1 ++ i :: b2 ∧ flat_map snd m' = b1 ++ b2).
  { unfold m', all. destruct (l1 ++ l2) as [|y rest] eqn:Er.
    - destruct (flat_map_delete (userId x) ids _ Hk Hg) as (c1 & c2 & E1 & E2).
      exists c1, c2. split; [|done]. rewrite E1, El. by apply app_eq_nil in Er as [-> ->].
    - destruct (flat_map_set_some (userId x) (y :: rest) ids _ Hg) as (c1 & c2 & E1 & E2).
      exists (c1 ++ l1), (l2 ++ c2). rewrite E1, E2, El, <- Er. by rewrite <- !app_assoc. }
  destruct Hall as (b1 & b2 & Ea & Eb).
  assert (Hlen : (length (b1 ++ b2) = length (all h) - 1)%nat) by (rewrite Ea, !length_app; cbn; lia).
  split_and!; cbn [byUser total pingTimer closing subs]; try done.
  - split; cbn [byUser total subs all]; unfold all; cbn [byUser].
    + unfold m'. destruct (l1 ++ l2); [|by apply map_set_NoDup].
      rewrite map_keys_delete. by apply NoDup_filter_bool.
    + intros u js j. rewrite Hm. case_decide as Hd; [|apply Hu].
      intros Hjs Hj. apply (Hu u ids j); [by rewrite <- Hd|]. rewrite El.
      destruct (l1 ++ l2) eqn:Er; [done|]. injection Hjs as <-. rewrite <- Er in Hj. set_solver.
    + intros u js. rewrite Hm. case_decide; [|apply Hne]. destruct (l1 ++ l2); [done|]. by intros [= <-].
    + rewrite Eb. rewrite Ea in Hnd. apply NoDup_app in Hnd as (? & Hd & [? ?]%NoDup_cons).
      apply NoDup_app. split_and!; try done. intros j Hj Hj'. apply (Hd j Hj). by right.
    + rewrite Eb, Ht, Hlen, Ea, length_app. cbn. lia.
  - intros j. unfold registered, all. cbn [byUser]. fold (all h). rewrite Eb, Ea.
    rewrite Ea in Hnd. apply NoDup_app in Hnd as (_ & Hd & [Hi2 _]%NoDup_cons).
    assert (i ∉ b1) by (intros Hb; apply (Hd i Hb); by left). set_solver.
  - intros limits [H1 H2]. split; cbn; [lia|]. intros u js. rewrite Hm. case_decide as Hd; [|apply H2].
    specialize (H2 u ids). rewrite <- Hd in H2. specialize (H2 Hg).
    assert (length (l1 ++ l2) < length ids)%nat by (rewrite El, !length_app; cbn; lia).
    destruct (l1 ++ l2); [done|]. intros [= <-]. cbn in *. lia.
Qed.

Lemma forget_out h i : registry_ok h → ~ registered h i → forget i h = h.
Proof.
  intros Hok Hn. unfold forget. destruct (subs h !! i) as [x|] eqn:Hx; [|done].
  destruct (map_get _ _) as [ids|] eqn:Hg; [|done]. case_bool_decide; [|done].
  exfalso. apply Hn, (registered_iff h i Hok). eauto.
Qed.

Lemma forget_subs h i : subs (forget i h) = subs h ∧ closing (forget i h) = closing h.
Proof.
  unfold forget. destruct (subs h !! i); [|done]. destruct (map_get _ _); [|done]. by destruct (bool_decide _).
Qed.

(** ** The invariant *)

(** One subscriber: its stream is its controller's while it is open, holds a bounded queue, and
    has got node events of its own user only. [UNAUTHORIZED_BYTES] covers the last frame. *)
Definition UNAUTHORIZED_BYTES : Z := 80.

Record sub_ok (x : NodeEventSubscriber) : Prop := {
  so_open : state x = open → controller x = true ∧ readable (stream x) = true ∧
            queuedBytes (unread (stream x)) ≤ NODE_EVENTS_MAX_QUEUED_BYTES;
  so_not_open : state x ≠ open → controller x = false ∧ readable (stream x) = false;
  so_queue : queuedBytes (unread (stream x)) ≤ NODE_EVENTS_MAX_QUEUED_BYTES + UNAUTHORIZED_BYTES;
  so_own : ∀ e at_, In (NodeFrame e at_) (sent (stream x)) → e_userId e = userId x;
}.

(** [handled]: the subscribers whose request has called [release] or [activate], each once. *)
Record hub_core (limits : NodeEventLimits) (h : NodeEventHub) (handled : list nat) : Prop := {
  hc_registry : registry_ok h;
  hc_sets : sets_within limits h;
  hc_subs : ∀ i x, subs h !! i = Some x → sub_ok x;
  hc_closed : ∀ i x, subs h !! i = Some x → state x = closed → ~ registered h i;
  hc_open : ∀ i x, subs h !! i = Some x → state x = open → registered h i ∧ i ∈ handled;
  hc_pending : ∀ i x, subs h !! i = Some x → state x = pending → i ∉ handled → registered h i;
  hc_handled : ∀ i, i ∈ handled → (i < length (subs h))%nat;
  hc_ping : pingTimer h = true → 0 < total h;
}.

Definition shut (h : NodeEventHub) : Prop := closing h = true → all h = [] ∧ pingTimer h = false.

Lemma queuedBytes_snoc fs f : queuedBytes (fs ++ [f]) = queuedBytes fs + byteLength f.
Proof. unfold queuedBytes. induction fs as [|g fs IH]; cbn -[byteLength]; [lia|]. rewrite IH. lia. Qed.

Lemma unauthorized_length r : byteLength (UnauthorizedFrame r) ≤ UNAUTHORIZED_BYTES.
Proof. by destruct r; vm_compute. Qed.

(** A subscriber replaced by one in the same state. *)
Lemma core_update limits h hd i x x' :
  hub_core limits h hd → subs h !! i = Some x → sub_ok x' → userId x' = userId x → state x' = state x →
  hub_core limits (set_subs (<[i := x']> (subs h)) h) hd.
Proof.
  intros [Hr Hs Hsub Hcl Hop Hpe Hhd Hpi] Hx Hx' Hu Hst.
  assert (Hlook : ∀ j y, <[i := x']> (subs h) !! j = Some y → j = i ∧ y = x' ∨ j ≠ i ∧ subs h !! j = Some y).
  { intros j y Hj. destruct (decide (i = j)) as [<-|Hne].
    - rewrite list_lookup_insert_eq in Hj by (by eapply lookup_lt_Some). left. by injection Hj as <-.
    - rewrite list_lookup_insert_ne in Hj by done. by right. }
  split; cbn; try done.
  - apply registry_subs; [done|]. by eapply insert_user.
  - intros j y [[-> ->]|[_ Hj]]%Hlook; eauto.
  - intros j y [[-> ->]|[_ Hj]]%Hlook; [rewrite Hst; by apply Hcl|by apply Hcl].
  - intros j y [[-> ->]|[_ Hj]]%Hlook; [rewrite Hst; by apply Hop|by apply Hop].
  - intros j y [[-> ->]|[_ Hj]]%Hlook; [rewrite Hst; by apply Hpe|by apply Hpe].
  - intros j Hj. rewrite length_insert. by apply Hhd.
Qed.

Lemma forget_core limits h i :
  registry_ok h → sets_within limits h → (pingTimer h = true → 0 < total h) →
  registry_ok (forget i h) ∧ sets_within limits (forget i h) ∧
  (pingTimer (forget i h) = true → 0 < total (forget i h)) ∧
  (∀ j, registered (forget i h) j ↔ registered h j ∧ j ≠ i) ∧
  (pingTimer h = false → pingTimer (forget i h) = false).
Proof.
  intros Hr Hs Hp. destruct (decide (i ∈ all h)) as [Hreg|Hnot].
  - destruct (forget_in h i Hr Hreg) as (H1 & H2 & H3 & H4 & H5). split_and!; auto.
    + rewrite H5, H3. destruct (Z.eqb_spec (total h - 1) 0); [done|]. intros ?%Hp. lia.
    + rewrite H5. intros ->. by destruct (_ =? _).
  - rewrite forget_out by done. split_and!; auto. intros j. split; [|by intros []].
    intros Hj. split; [done|]. by intros ->.
Qed.

(** A subscriber closed and forgotten. *)
Lemma core_close limits h hd i x x' :
  hub_core limits h hd → subs h !! i = Some x → sub_ok x' → userId x' = userId x → state x' = closed →
  let h' := forget i (set_subs (<[i := x']> (subs h)) h) in
  hub_core limits h' hd ∧ (∀ j, registered h' j ↔ registered h j ∧ j ≠ i) ∧
  (pingTimer h = false → pingTimer h' = false).
Proof.
  intros [Hr Hs Hsub Hcl Hop Hpe Hhd Hpi] Hx Hx' Hu Hst h'.
  set (h1 := set_subs (<[i := x']> (subs h)) h) in *.
  assert (Hr1 : registry_ok h1) by (apply registry_subs; [done|]; by eapply insert_user).
  destruct (forget_core limits h1 i Hr1 Hs Hpi) as (Hr' & Hs' & Hp' & Hreg & Hping).
  split; [|split; [exact Hreg|exact Hping]].
  destruct (forget_subs h1 i) as [Hsubs _].
  assert (Hlook : ∀ j y, subs h' !! j = Some y → j = i ∧ y = x' ∨ j ≠ i ∧ subs h !! j = Some y).
  { intros j y Hj. unfold h' in Hj. rewrite Hsubs in Hj. cbn in Hj. destruct (decide (i = j)) as [<-|Hne].
    - rewrite list_lookup_insert_eq in Hj by (by eapply lookup_lt_Some). left. by injection Hj as <-.
    - rewrite list_lookup_insert_ne in Hj by done. by right. }
  split; try done; fold h'.
  - intros j y [[-> ->]|[_ Hj]]%Hlook; eauto.
  - intros j y [[-> ->]|[_ Hj]]%Hlook Hcy [Hj1 Hj2]%Hreg; [done|]. by eapply Hcl.
  - intros j y [[-> ->]|[Hne Hj]]%Hlook Hoy; [congruence|].
    destruct (Hop j y Hj Hoy) as [? ?]. split; [|done]. by apply Hreg.
  - intros j y [[-> ->]|[Hne Hj]]%Hlook Hpy Hn; [congruence|]. apply Hreg. split; [by eapply Hpe|done].
  - intros j Hj. unfold h'. rewrite Hsubs. cbn. rewrite length_insert. by apply Hhd.
Qed.

(** ** Each method keeps it *)

Lemma end_stream_ok x reason :
  sub_ok x →
  let stream' :=
    if bool_decide (state x = open) && controller x then
      match reason with
      | Some r => match enqueue (UnauthorizedFrame r) (stream x) with Some s => close s | None => stream x end
      | None => close (stream x)
      end
    else stream x in
  sub_ok (set_sub closed false stream' x).
Proof.
  intros [Ho Hn Hq Hown] stream'. destruct (bool_decide_reflect (state x = open)) as [Hst|Hst]; cbn [andb] in *.
  - destruct (Ho Hst) as (Hc & Hr & Hle). unfold stream'. rewrite Hc. unfold enqueue. rewrite Hr.
    destruct reason as [r|]; split; cbn -[byteLength]; try done.
    + rewrite queuedBytes_snoc. pose proof (unauthorized_length r). lia.
    + intros e at_ [Hin|[|[]]]%in_app_or; [eauto|done].
  - destruct (Hn Hst) as [Hc Hr]. split; cbn; try done.
Qed.

(** How the hub may change but for admissions: registrations and timers only end, a subscriber
    stays the same user's and session's, and a closed one gets nothing more. *)
Definition sub_evolves (x x' : NodeEventSubscriber) : Prop :=
  userId x' = userId x ∧ sessionId x' = sessionId x ∧
  (state x = closed → state x' = closed ∧ sent (stream x') = sent (stream x)).

Definition subs_evolve (l l' : list NodeEventSubscriber) : Prop :=
  ∀ (j : nat) x, l !! j = Some x → ∃ x', l' !! j = Some x' ∧ sub_evolves x x'.

Record evolves (h h' : NodeEventHub) : Prop := {
  ev_registered : ∀ j, registered h' j → registered h j;
  ev_ping : pingTimer h = false → pingTimer h' = false;
  ev_closing : closing h' = closing h;
  ev_subs : subs_evolve (subs h) (subs h');
}.

Lemma sub_evolves_refl x : sub_evolves x x.
Proof. by split_and!. Qed.

#[export] Instance subs_evolve_preorder : PreOrder subs_evolve.
Proof.
  split.
  - intros l j x Hx. exists x. split; [done|apply sub_evolves_refl].
  - intros l1 l2 l3 H12 H23 j x Hx. destruct (H12 j x Hx) as (y & Hy & Hu & Hss & Hc).
    destruct (H23 j y Hy) as (z & Hz & Hu' & Hss' & Hc'). exists z. split; [done|].
    split_and!; [congruence|congruence|]. intros (Hs & Ht)%Hc. destruct (Hc' Hs) as [? ?].
    split; congruence.
Qed.

#[export] Instance evolves_preorder : PreOrder evolves.
Proof.
  split.
  - intros h. split; try done.
  - intros h1 h2 h3 [A1 A2 A3 A4] [B1 B2 B3 B4]. split; [auto|auto|congruence|by etransitivity].
Qed.

Lemma insert_evolves (l : list NodeEventSubscriber) (i : nat) x x' :
  l !! i = Some x → sub_evolves x x' → subs_evolve l (<[i := x']> l).
Proof.
  intros Hx He j y Hy. destruct (decide (i = j)) as [<-|Hne].
  - exists x'. split; [apply list_lookup_insert_eq; by eapply lookup_lt_Some|]. congruence.
  - exists y. rewrite list_lookup_insert_ne by done. split; [done|apply sub_evolves_refl].
Qed.

Lemma end_core limits h hd i reason :
  hub_core limits h hd →
  hub_core limits (end_ i reason h) hd ∧ evolves h (end_ i reason h) ∧
  (∀ j, registered (end_ i reason h) j ↔ registered h j ∧ j ≠ i).
Proof.
  intros Hc. unfold end_. destruct (subs h !! i) as [x|] eqn:Hx.
  - pose proof (hc_subs _ _ _ Hc i x Hx) as Hso. pose proof (end_stream_ok x reason Hso) as Hok.
    destruct (core_close limits h hd i x _ Hc Hx Hok eq_refl eq_refl) as (H1 & H2 & H3).
    split_and!; auto. split; [|done|by rewrite (proj2 (forget_subs _ _))|].
    + intros j Hj. by apply H2 in Hj as [].
    + rewrite (proj1 (forget_subs _ _)). apply (insert_evolves _ _ x); [done|].
      split_and!; [done..|]. cbn. intros ->. done.
  - split_and!; auto; [done|]. intros j. split; [|by intros []]. intros Hj. split; [done|]. intros ->.
    apply (registered_iff h i (hc_registry _ _ _ Hc)) in Hj as (x & _ & ? & _). congruence.
Qed.

Lemma write_core limits h hd i f :
  hub_core limits h hd →
  (∀ x e at_, subs h !! i = Some x → f = NodeFrame e at_ → e_userId e = userId x) →
  hub_core limits (write f h i) hd ∧ evolves h (write f h i).
Proof.
  intros Hc Hf. unfold write. destruct (subs h !! i) as [x|] eqn:Hx; [|done].
  pose proof (hc_subs _ _ _ Hc i x Hx) as [Ho Hn Hq Hown].
  destruct (end_core limits h hd i None Hc) as (E1 & E2 & _).
  destruct (bool_decide_reflect (state x = open)) as [Hst|Hst]; cbn [andb negb]; [|done].
  destruct (Ho Hst) as (Hct & Hr & Hle). rewrite Hct. cbn [negb].
  destruct (Z.ltb_spec (desiredSize (stream x)) (byteLength f)) as [|Hfit]; [done|].
  unfold enqueue. rewrite Hr. unfold desiredSize in Hfit. rewrite Hr in Hfit. split.
  - eapply core_update; [done|done| |done|done].
    split; cbn -[byteLength]; rewrite ?Hst, ?queuedBytes_snoc; try done.
    + intros _. split_and!; try done. lia.
    + unfold UNAUTHORIZED_BYTES. lia.
    + intros e at_ [Hin|[->|[]]]%in_app_or; [eauto|]. by eapply Hf.
  - split; try done. apply (insert_evolves _ _ x); [done|]. split_and!; [done..|]. cbn. congruence.
Qed.

(** Loops over snapshots. *)
Lemma fold_core limits hd (op : NodeEventHub → nat → NodeEventHub) (P : NodeEventHub → Prop) h ids :
  (∀ h i, In i ids → P h → hub_core limits h hd → hub_core limits (op h i) hd ∧ evolves h (op h i)) →
  (∀ h h', P h → evolves h h' → P h') →
  P h → hub_core limits h hd →
  hub_core limits (foldl op h ids) hd ∧ evolves h (foldl op h ids).
Proof.
  intros Hop HP. revert h. induction ids as [|i ids IH]; intros h Hph Hc; [done|]. cbn.
  destruct (Hop h i) as [Hc1 He1]; [by left|done|done|].
  destruct (IH (λ h i Hi, Hop h i (or_intror Hi)) (op h i)) as [Hc2 He2]; [by eapply HP|done|].
  split; [done|]. by etransitivity.
Qed.

Lemma publish_core limits h hd e at_ :
  hub_core limits h hd → hub_core limits (publish e at_ h) hd ∧ evolves h (publish e at_ h).
Proof.
  intros Hc. unfold publish. destruct (map_get _ _) as [ids|] eqn:Hg; [|done].
  apply (fold_core limits hd _ (λ h', ∀ i, In i ids → ∃ x, subs h' !! i = Some x ∧ userId x = e_userId e));
    [| | |done].
  - intros h1 i Hi HP Hc1. apply write_core; [done|]. intros x e' at' Hx [= <- <-].
    destruct (HP i Hi) as (y & Hy & Hu). congruence.
  - intros h1 h2 HP He i Hi. destruct (HP i Hi) as (y & Hy & Hu).
    destruct (ev_subs _ _ He i y Hy) as (x' & Hx' & Hu' & _). exists x'. split; congruence.
  - intros i Hi. apply (rg_users _ (hc_registry _ _ _ Hc) _ ids); [done|by apply list_elem_of_In].
Qed.

Lemma ping_core limits h hd : hub_core limits h hd → hub_core limits (ping h) hd ∧ evolves h (ping h).
Proof.
  intros Hc. unfold ping. apply (fold_core limits hd _ (λ _, True)); auto.
  intros h1 i _ _ Hc1. by apply write_core.
Qed.

Lemma end_if_core limits hd p reason h i :
  hub_core limits h hd → hub_core limits (end_if p reason h i) hd ∧ evolves h (end_if p reason h i).
Proof.
  intros Hc. unfold end_if. destruct (subs h !! i) as [x|]; [|done]. destruct (p x); [|done].
  destruct (end_core limits h hd i reason Hc) as (? & ? & _). done.
Qed.

Lemma ends_core limits hd p reason h ids :
  hub_core limits h hd →
  hub_core limits (foldl (end_if p reason) h ids) hd ∧ evolves h (foldl (end_if p reason) h ids).
Proof. intros Hc. apply (fold_core limits hd _ (λ _, True)); auto. intros. by apply end_if_core. Qed.

Lemma closeAll_core limits h hd :
  hub_core limits h hd →
  hub_core limits (closeAll h) hd ∧ all (closeAll h) = [] ∧ subs_evolve (subs h) (subs (closeAll h)).
Proof.
  intros Hc. unfold closeAll. set (h1 := mkHub _ _ _ true _).
  assert (Hc1 : hub_core limits h1 hd) by (destruct Hc as [[] ? ? ? ? ? ? ?]; constructor; [by constructor|done..]).
  assert (Hfold : ∀ ids h2, hub_core limits h2 hd →
    let h3 := foldl (λ h i, end_ i None h) h2 ids in
    hub_core limits h3 hd ∧ evolves h2 h3 ∧ ∀ j, registered h3 j → j ∉ ids).
  { induction ids as [|i ids IH]; intros h2 Hc2; cbn.
    - split_and!; [done|done|]. intros j _. apply not_elem_of_nil.
    - destruct (end_core limits h2 hd i None Hc2) as (E1 & E2 & E3).
      destruct (IH _ E1) as (F1 & F2 & F3). split_and!; [done|by etransitivity|].
      intros j Hj. apply not_elem_of_cons. split; [|by apply F3].
      by apply (ev_registered _ _ F2), E3 in Hj as []. }
  destruct (Hfold (all h1) h1 Hc1) as (F1 & F2 & F3).
  set (h3 := foldl (λ h i, end_ i None h) h1 (all h1)) in *.
  assert (Hall : all h3 = []).
  { destruct (all h3) as [|j l] eqn:Ha; [done|]. exfalso.
    assert (Hj : registered h3 j) by (unfold registered; rewrite Ha; by left).
    apply (F3 j Hj). by apply (ev_registered _ _ F2). }
  split_and!; [|exact Hall|apply (ev_subs _ _ F2)].
  destruct F1 as [[] ? ? ? ? ? ? ?]. constructor; [by constructor|done..].
Qed.

Lemma cancel_core limits h hd i : hub_core limits h hd → hub_core limits (cancel i h) hd ∧ evolves h (cancel i h).
Proof.
  intros Hc. unfold cancel. destruct (subs h !! i) as [x|] eqn:Hx; [|done].
  pose proof (hc_subs _ _ _ Hc i x Hx) as [Ho Hn Hq Hown].
  assert (Hok : sub_ok (set_sub closed false (mkStream (sent (stream x)) [] false) x)) by (split; cbn; try done).
  destruct (core_close limits h hd i x _ Hc Hx Hok eq_refl eq_refl) as (H1 & H2 & H3).
  split; [done|]. split; [|done|by rewrite (proj2 (forget_subs _ _))|].
  - intros j Hj. by apply H2 in Hj as [].
  - rewrite (proj1 (forget_subs _ _)). apply (insert_evolves _ _ x); [done|]. by split_and!.
Qed.

(** A new subscriber in its user's set. *)
Definition enrol (sub : NodeEventSubscriber) (h : NodeEventHub) : NodeEventHub :=
  let i := length (subs h) in
  mkHub (subs h ++ [sub])
    (map_set (userId sub) (match map_get (userId sub) (byUser h) with Some ids => ids ++ [i] | None => [i] end)
       (byUser h)) (total h + 1) (closing h) (pingTimer h).

Lemma enrol_all h sub :
  ∃ b1 b2, all h = b1 ++ b2 ∧ all (enrol sub h) = b1 ++ length (subs h) :: b2.
Proof.
  unfold enrol, all. cbn [byUser]. set (i := length (subs h)).
  destruct (map_get (userId sub) (byUser h)) as [ids|] eqn:Hown.
  - destruct (flat_map_set_some _ (ids ++ [i]) ids _ Hown) as (l1 & l2 & E1 & E2).
    exists (l1 ++ ids), l2. by rewrite E1, E2, <- !app_assoc.
  - exists (flat_map snd (byUser h)), []. rewrite app_nil_r. split; [done|]. by apply flat_map_set_none.
Qed.

Lemma enrol_lookup h sub j y :
  subs (enrol sub h) !! j = Some y → subs h !! j = Some y ∨ j = length (subs h) ∧ y = sub.
Proof.
  cbn. intros [|[Hge Hy]]%lookup_app_Some; [by left|]. right.
  destruct (j - length (subs h))%nat eqn:Hd; cbn in Hy; [|done]. injection Hy as <-. split; [lia|done].
Qed.

Lemma enrol_registered h sub j : registered (enrol sub h) j ↔ j = length (subs h) ∨ registered h j.
Proof.
  destruct (enrol_all h sub) as (b1 & b2 & Ea & Eb). unfold registered. rewrite Ea, Eb.
  rewrite elem_of_app, elem_of_cons, elem_of_app. naive_solver.
Qed.

Lemma enrol_registry h sub : registry_ok h → registry_ok (enrol sub h).
Proof.
  intros Hok. destruct (enrol_all h sub) as (b1 & b2 & Ea & Eb).
  assert (Hfresh : ~ registered h (length (subs h))).
  { intros (x & _ & Hx & _)%registered_iff; [|done]. apply lookup_lt_Some in Hx. lia. }
  destruct Hok as [Hk Hu Hne Hnd Ht]. set (i := length (subs h)) in *.
  assert (Hnew : (subs h ++ [sub]) !! i = Some sub) by (apply lookup_snoc_Some; by right).
  assert (Hold : ∀ j y, subs h !! j = Some y → (subs h ++ [sub]) !! j = Some y).
  { intros j y Hy. by apply lookup_app_l_Some. }
  constructor; [by apply map_set_NoDup| | | |]; cbn [byUser subs enrol total].
  - intros u ids j. rewrite map_get_set. case_decide as Hd.
    + intros [= <-] Hj. subst u. destruct (map_get (userId sub) (byUser h)) as [ids|] eqn:Hown.
      * apply elem_of_app in Hj as [Hj| ->%list_elem_of_singleton]; [|by exists sub].
        destruct (Hu _ ids j Hown Hj) as (x & Hx & Hux). exists x. split; [by apply Hold|done].
      * apply list_elem_of_singleton in Hj as ->. by exists sub.
    + intros Hg Hj. destruct (Hu u ids j Hg Hj) as (x & Hx & Hux). exists x. split; [by apply Hold|done].
  - intros u ids. rewrite map_get_set. case_decide; [|apply Hne]. intros [= <-].
    by destruct (map_get _ _) as [[]|].
  - rewrite Eb. rewrite <- Permutation_middle. constructor; [by rewrite <- Ea|by rewrite <- Ea].
  - rewrite Eb, Ht, Ea, !length_app. cbn. lia.
Qed.

Lemma enrol_core limits h hd sub :
  hub_core limits h hd → sub_ok sub → state sub = pending → total h < perServer limits →
  Z.of_nat (length (default [] (map_get (userId sub) (byUser h)))) < perUser limits →
  hub_core limits (enrol sub h) hd.
Proof.
  intros [Hr [Hs1 Hs2] Hsub Hclo Hop Hpe Hhd Hpi] Hnew Hst Hserver Huser. constructor.
  - by apply enrol_registry.
  - split; cbn; [lia|]. intros u ids. rewrite map_get_set. case_decide; [|apply Hs2]. intros [= <-].
    destruct (map_get _ _); cbn in Huser |- *; rewrite ?length_app; cbn; lia.
  - intros j y [Hy|[-> ->]]%enrol_lookup; [eauto|done].
  - intros j y [Hy|[-> ->]]%enrol_lookup Hj; [|congruence]. rewrite enrol_registered.
    intros [-> |Hr']; [|by eapply Hclo]. apply lookup_lt_Some in Hy. lia.
  - intros j y [Hy|[-> ->]]%enrol_lookup Hj; [|congruence]. destruct (Hop j y Hy Hj).
    rewrite enrol_registered. auto.
  - intros j y [Hy|[-> ->]]%enrol_lookup Hj Hn; rewrite enrol_registered; [right; by eapply Hpe|by left].
  - intros j Hj%Hhd. cbn. rewrite length_app. cbn. lia.
  - cbn. intros ?%Hpi. lia.
Qed.

Lemma reserve_core limits h hd user session imp h' r :
  hub_core limits h hd → reserve limits user session imp h = (h', r) →
  hub_core limits h' hd ∧ subs_evolve (subs h) (subs h') ∧ (closing h = true → h' = h) ∧ closing h' = closing h.
Proof.
  intros Hc. unfold reserve. destruct (closing h) eqn:Hcl; [by intros [= <- <-]|].
  destruct (Z.leb_spec (perServer limits) (total h)) as [|Hserver]; [by intros [= <- <-]|].
  destruct (Z.leb_spec (perUser limits) (Z.of_nat (length (default [] (map_get user (byUser h))))))
    as [|Huser]; [by intros [= <- <-]|].
  pose (sub := mkSub user session imp pending false (mkStream [] [] false)).
  intros Heq. assert (h' = enrol sub h) as -> by (unfold enrol; rewrite Hcl; by injection Heq as <- _).
  split_and!; [|cbn|congruence|done].
  - by apply (enrol_core limits h hd sub).
  - intros j y Hy. exists y. split; [by apply lookup_app_l_Some|apply sub_evolves_refl].
Qed.

(** The request's one call: [release], or [activate]. *)
Lemma release_core limits h hd i :
  hub_core limits h hd → (i < length (subs h))%nat → (∀ x, subs h !! i = Some x → state x ≠ open) →
  hub_core limits (release i h) (i :: hd) ∧ evolves h (release i h).
Proof.
  intros [Hr Hs Hsub Hclo Hop Hpe Hhd Hpi] Hi Hno. unfold release.
  destruct (forget_core limits h i Hr Hs Hpi) as (Hr' & Hs' & Hp' & Hreg & Hping).
  destruct (forget_subs h i) as [Hsubs Hcl].
  split; [constructor; rewrite ?Hsubs; try done|split; rewrite ?Hsubs; try done].
  - intros j x Hx Hst [Hj _]%Hreg. by eapply Hclo.
  - intros j x Hx Hst. destruct (Hop j x Hx Hst). split; [|by right]. apply Hreg. split; [done|].
    intros ->. by eapply Hno.
  - intros j x Hx Hst [Hne Hn]%not_elem_of_cons. apply Hreg. split; [by eapply Hpe|done].
  - intros j [->|Hj]%elem_of_cons; [done|by apply Hhd].
  - intros j Hj. by apply Hreg in Hj as [].
Qed.

Lemma activate_core limits h hd i :
  hub_core limits h hd → (i < length (subs h))%nat → i ∉ hd → shut h →
  hub_core limits (activate i h).1 (i :: hd) ∧ subs_evolve (subs h) (subs (activate i h).1) ∧
  shut (activate i h).1 ∧ (∀ j, registered (activate i h).1 j ↔ registered h j).
Proof.
  intros [Hr Hs Hsub Hclo Hop Hpe Hhd Hpi] Hi Hn Hshut. unfold activate.
  destruct (subs h !! i) as [x|] eqn:Hx; [|by apply lookup_ge_None in Hx; lia].
  destruct (bool_decide_reflect (state x = pending)) as [Hst|Hst]; cbn [fst].
  - assert (Hreg : registered h i) by by eapply Hpe.
    assert (Hcl : closing h = false).
    { destruct (closing h) eqn:Hcl; [|done]. destruct (Hshut Hcl) as [Ha _]. unfold registered in Hreg.
      rewrite Ha in Hreg. by apply elem_of_nil in Hreg. }
    set (s := mkStream [RetryFrame; HelloFrame] [RetryFrame; HelloFrame] true).
    set (h1 := set_subs (<[i := set_sub open true s x]> (subs h)) h).
    assert (Hpos : 0 < total h).
    { rewrite (rg_total _ Hr). unfold registered in Hreg. destruct (all h); [by apply elem_of_nil in Hreg|cbn; lia]. }
    assert (Hlook : ∀ j y, subs h1 !! j = Some y → j = i ∧ y = set_sub open true s x ∨ j ≠ i ∧ subs h !! j = Some y).
    { intros j y Hj. cbn in Hj. destruct (decide (i = j)) as [<-|Hne].
      - rewrite list_lookup_insert_eq in Hj by (by eapply lookup_lt_Some). left. by injection Hj as <-.
      - rewrite list_lookup_insert_ne in Hj by done. by right. }
    assert (Hc1 : hub_core limits h1 (i :: hd)).
    { constructor; try done.
      - apply registry_subs; [done|]. by eapply insert_user.
      - intros j y [[-> ->]|[_ Hj]]%Hlook; [|eauto]. split; cbn; try done.
        by intros e at_ [|[|[]]].
      - intros j y [[-> ->]|[_ Hj]]%Hlook Hy; [done|by eapply Hclo].
      - intros j y [[-> ->]|[_ Hj]]%Hlook Hy; [split; [done|by left]|].
        destruct (Hop j y Hj Hy). split; [done|by right].
      - intros j y [[-> ->]|[_ Hj]]%Hlook Hy [? ?]%not_elem_of_cons; [done|by eapply Hpe].
      - intros j [->|Hj]%elem_of_cons; cbn; rewrite length_insert; [done|by apply Hhd]. }
    unfold ensurePing. replace (closing h1) with false by done.
    assert (Hev : subs_evolve (subs h) (subs h1)).
    { apply (insert_evolves _ _ x); [done|]. split_and!; [done..|]. congruence. }
    destruct (pingTimer h1) eqn:Hp; cbn [orb].
    + split_and!; try done; intros Hc'; cbn in Hc'; congruence.
    + split_and!; try done.
      destruct Hc1 as [[] ? ? ? ? ? ? ?]. constructor; [by constructor|done..].
  - split_and!; try done. constructor; try done.
    + intros j y Hj Hy. destruct (Hop j y Hj Hy). split; [done|by right].
    + intros j y Hj Hy [? ?]%not_elem_of_cons. by eapply Hpe.
    + intros j [->|Hj]%elem_of_cons; [done|by apply Hhd].
Qed.

(** ** The hub in use *)

Record HubWorld := mkHubWorld { hub : NodeEventHub; handled : list nat }.

(** Reading takes frames off a stream's queue. *)
Definition read (n : nat) (i : nat) (h : NodeEventHub) : NodeEventHub :=
  match subs h !! i with
  | None => h
  | Some x => set_subs (<[i := set_sub (state x) (controller x)
                            (mkStream (sent (stream x)) (drop n (unread (stream x))) (readable (stream x))) x]> (subs h)) h
  end.

(** Every request reserves, then makes one call; the rest happens at any time. *)
Inductive hub_step (limits : NodeEventLimits) : HubWorld → HubWorld → Prop :=
| hs_reserve w user session imp h' r :
    reserve limits user session imp (hub w) = (h', r) → hub_step limits w (mkHubWorld h' (handled w))
| hs_release w i :
    (i < length (subs (hub w)))%nat → i ∉ handled w →
    hub_step limits w (mkHubWorld (release i (hub w)) (i :: handled w))
| hs_activate w i :
    (i < length (subs (hub w)))%nat → i ∉ handled w →
    hub_step limits w (mkHubWorld (activate i (hub w)).1 (i :: handled w))
| hs_cancel w i : i ∈ handled w → hub_step limits w (mkHubWorld (cancel i (hub w)) (handled w))
| hs_read w n i : hub_step limits w (mkHubWorld (read n i (hub w)) (handled w))
| hs_publish w e at_ : hub_step limits w (mkHubWorld (publish e at_ (hub w)) (handled w))
| hs_endSession w s r : hub_step limits w (mkHubWorld (endSession s r (hub w)) (handled w))
| hs_closeUser w u r : hub_step limits w (mkHubWorld (closeUser u r (hub w)) (handled w))
| hs_verdict w s v : hub_step limits w (mkHubWorld (applyVerdict s v (hub w)) (handled w))
| hs_closeAll w : hub_step limits w (mkHubWorld (closeAll (hub w)) (handled w))
| hs_ping w : pingTimer (hub w) = true → hub_step limits w (mkHubWorld (ping (hub w)) (handled w)).

Definition world_ok (limits : NodeEventLimits) (w : HubWorld) : Prop :=
  hub_core limits (hub w) (handled w) ∧ shut (hub w).

Lemma evolves_shut h h' : evolves h h' → shut h → shut h'.
Proof.
  intros He Hs Hc. rewrite (ev_closing _ _ He) in Hc. destruct (Hs Hc) as [Ha Hp]. split.
  - destruct (all h') as [|j l] eqn:Ha'; [done|]. exfalso.
    assert (Hj : registered h j) by (apply (ev_registered _ _ He); unfold registered; rewrite Ha'; by left).
    unfold registered in Hj. rewrite Ha in Hj. by apply elem_of_nil in Hj.
  - by apply (ev_ping _ _ He).
Qed.

Lemma queuedBytes_drop n fs : queuedBytes (drop n fs) ≤ queuedBytes fs.
Proof.
  revert n. induction fs as [|f fs IH]; intros [|n]; cbn -[byteLength]; try lia.
  specialize (IH n). assert (0 ≤ byteLength f) by (unfold byteLength; lia). unfold queuedBytes in *. lia.
Qed.

Lemma read_core limits h hd n i : hub_core limits h hd → hub_core limits (read n i h) hd ∧ evolves h (read n i h).
Proof.
  intros Hc. unfold read. destruct (subs h !! i) as [x|] eqn:Hx; [|done].
  pose proof (hc_subs _ _ _ Hc i x Hx) as [Ho Hn Hq Hown]. pose proof (queuedBytes_drop n (unread (stream x))).
  split.
  - apply (core_update limits h hd i x); try done. split; cbn [set_sub state controller stream unread sent readable userId];
      try done; [|lia].
    intros (? & ? & ?)%Ho. split_and!; try done. lia.
  - split; try done. apply (insert_evolves _ _ x); [done|]. by split_and!.
Qed.

(** A step keeps the invariant, and what a subscriber is. *)
Lemma hub_step_ok limits w w' :
  hub_step limits w w' → world_ok limits w → world_ok limits w' ∧ subs_evolve (subs (hub w)) (subs (hub w')).
Proof.
  intros Hstep [Hc Hs].
  assert (Hkeep : ∀ h', hub_core limits h' (handled w) ∧ evolves (hub w) h' →
    world_ok limits (mkHubWorld h' (handled w)) ∧ subs_evolve (subs (hub w)) (subs h')).
  { intros h' [Hc' He]. split; [|by apply (ev_subs _ _ He)]. split; [done|]. by eapply evolves_shut. }
  destruct Hstep as [w user session imp h' r Hr|w i Hi Hn|w i Hi Hn|w i _|w n i|w e at_|w s r|w u r|w s v|w|w _].
  - destruct (reserve_core _ _ _ _ _ _ _ _ Hc Hr) as (H1 & H2 & H3 & H4). split; [|done]. split; [done|].
    cbn. intros Hcl. rewrite H4 in Hcl. rewrite (H3 Hcl). by apply Hs.
  - destruct (release_core limits (hub w) (handled w) i Hc Hi) as [H1 H2].
    { intros x Hx Ho. by destruct (hc_open _ _ _ Hc i x Hx Ho). }
    split; [|by apply (ev_subs _ _ H2)]. split; [done|]. by eapply evolves_shut.
  - destruct (activate_core limits (hub w) (handled w) i Hc Hi Hn Hs) as (H1 & H2 & H3 & _). split; [by split|done].
  - by apply Hkeep, cancel_core.
  - by apply Hkeep, read_core.
  - by apply Hkeep, publish_core.
  - by apply Hkeep, ends_core.
  - by apply Hkeep, ends_core.
  - apply Hkeep. destruct v; [done|by apply ends_core..].
  - destruct (closeAll_core limits (hub w) (handled w) Hc) as (H1 & H2 & H3). split; [by split|done].
  - by apply Hkeep, ping_core.
Qed.

Lemma hub_steps_ok limits w w' :
  rtc (hub_step limits) w w' → world_ok limits w → world_ok limits w' ∧ subs_evolve (subs (hub w)) (subs (hub w')).
Proof.
  induction 1 as [w|w1 w2 w3 Hs _ IH]; intros Hok; [done|].
  destruct (hub_step_ok _ _ _ Hs Hok) as [Hok2 He]. destruct (IH Hok2) as [Hok3 He3].
  split; [done|]. by etransitivity.
Qed.

Definition initialWorld : HubWorld := mkHubWorld emptyHub [].

Lemma initial_ok limits : 0 ≤ perServer limits → world_ok limits initialWorld.
Proof.
  intros Hl. split; [|done]. constructor; cbn; try done.
  - constructor; cbn; try done; apply NoDup_nil_2.
  - intros i Hi. by apply elem_of_nil in Hi.
Qed.

(** ** Ending sessions *)

Definition ended (reason : option UnauthorizedReason) (x : NodeEventSubscriber) : NodeEventSubscriber :=
  set_sub closed false
    (if bool_decide (state x = open) && controller x then
       match reason with
       | Some r => match enqueue (UnauthorizedFrame r) (stream x) with Some s => close s | None => stream x end
       | None => close (stream x)
       end
     else stream x) x.

Lemma end_if_lookup p reason h (i j : nat) :
  subs (end_if p reason h i) !! j = (λ x, if bool_decide (j = i) && p x then ended reason x else x) <$> subs h !! j.
Proof.
  unfold end_if, end_. destruct (subs h !! i) as [x|] eqn:Hx.
  - destruct (p x) eqn:Hp.
    + rewrite (proj1 (forget_subs _ _)). cbn. destruct (bool_decide_reflect (j = i)) as [->|Hne].
      * rewrite list_lookup_insert_eq by (by eapply lookup_lt_Some). rewrite Hx. cbn. by rewrite Hp.
      * rewrite list_lookup_insert_ne by done. by destruct (subs h !! j).
    + destruct (bool_decide_reflect (j = i)) as [->|Hne]; [rewrite Hx; cbn; by rewrite Hp|].
      by destruct (subs h !! j).
  - destruct (bool_decide_reflect (j = i)) as [->|Hne]; [by rewrite Hx|]. by destruct (subs h !! j).
Qed.

Lemma ends_lookup p reason h ids (j : nat) :
  NoDup ids →
  subs (foldl (end_if p reason) h ids) !! j =
  (λ x, if bool_decide (j ∈ ids) && p x then ended reason x else x) <$> subs h !! j.
Proof.
  revert h. induction ids as [|i ids IH]; intros h Hnd; cbn.
  - by destruct (subs h !! j).
  - apply NoDup_cons in Hnd as [Hi Hnd]. rewrite IH, end_if_lookup by done.
    destruct (subs h !! j) as [x|]; [|done]. cbn. f_equal.
    destruct (bool_decide_reflect (j = i)) as [->|Hne]; cbn [andb].
    + rewrite (bool_decide_false (i ∈ ids)) by done. rewrite (bool_decide_true (i ∈ i :: ids)) by (by left). done.
    + destruct (bool_decide_reflect (j ∈ ids)) as [Hj|Hj]; cbn [andb].
      * by rewrite (bool_decide_true (j ∈ i :: ids)) by (by right).
      * rewrite (bool_decide_false (j ∈ i :: ids)); [done|]. by apply not_elem_of_cons.
Qed.

(** The event streams, through any interleaving of requests, readers, published events,
    session ends and the shutdown. The hub counts its streams exactly and never beyond the caps of
    the server and of each user; every open stream is registered, with its unread bytes within
    the queue's limit; a subscriber's stream only ever got node events of its own user; the ping
    timer runs only while there is a stream, and after [closeAll] no stream is open, none can be
    opened and no timer runs. *)
Theorem streams_bounded_and_private (limits : NodeEventLimits) (w : HubWorld) :
  0 ≤ perServer limits → rtc (hub_step limits) initialWorld w →
  total (hub w) = Z.of_nat (length (all (hub w))) ∧ total (hub w) ≤ perServer limits ∧
  (∀ u ids, map_get u (byUser (hub w)) = Some ids → Z.of_nat (length ids) ≤ perUser limits) ∧
  (∀ i x, subs (hub w) !! i = Some x →
     (state x = open → i ∈ all (hub w) ∧ queuedBytes (unread (stream x)) ≤ NODE_EVENTS_MAX_QUEUED_BYTES) ∧
     (∀ e at_, In (NodeFrame e at_) (sent (stream x)) → e_userId e = userId x)) ∧
  (pingTimer (hub w) = true → 0 < total (hub w)) ∧
  (closing (hub w) = true → pingTimer (hub w) = false ∧
     ∀ i x, subs (hub w) !! i = Some x → state x ≠ open ∧ (i ∉ handled w → (activate i (hub w)).2 = false)).
Proof.
  intros Hl Hr. destruct (hub_steps_ok limits _ _ Hr (initial_ok limits Hl)) as [[Hc Hs] _].
  split_and!; [apply Hc| apply Hc| apply Hc| |apply Hc|].
  - intros i x Hx. pose proof (hc_subs _ _ _ Hc i x Hx) as Hok. split; [|apply Hok].
    intros Ho. split; [by apply (hc_open _ _ _ Hc i x)|]. by apply (so_open _ Hok).
  - intros Hcl. destruct (Hs Hcl) as [Ha Hp]. split; [done|]. intros i x Hx.
    assert (Hreg : ~ registered (hub w) i) by (unfold registered; rewrite Ha; apply not_elem_of_nil).
    split; [intros Ho; by destruct (hc_open _ _ _ Hc i x Hx Ho)|].
    intros Hn. unfold activate. rewrite Hx. case_bool_decide as Hst; [|done]. exfalso.
    by apply Hreg, (hc_pending _ _ _ Hc i x).
Qed.

(** A sign-out wins. When a session ends, in any reachable state: its open streams are closed,
    the last thing each got being the reason; its admissions still waiting for their session
    check can no longer open; streams of other sessions are untouched; and nothing, ever after,
    reaches one of the closed streams. *)
Theorem session_end_final (limits : NodeEventLimits) (w : HubWorld) (session : string) (reason : UnauthorizedReason) :
  0 ≤ perServer limits → rtc (hub_step limits) initialWorld w →
  let h' := endSession session reason (hub w) in
  ∀ i x, subs (hub w) !! i = Some x →
  ∃ x', subs h' !! i = Some x' ∧
    (sessionId x ≠ session → x' = x) ∧
    (sessionId x = session → state x = open →
       state x' = closed ∧ sent (stream x') = sent (stream x) ++ [UnauthorizedFrame reason] ∧
       ∀ w2, rtc (hub_step limits) (mkHubWorld h' (handled w)) w2 →
         ∃ x2, subs (hub w2) !! i = Some x2 ∧ state x2 = closed ∧ sent (stream x2) = sent (stream x')) ∧
    (sessionId x = session → state x = pending → i ∉ handled w → (activate i h').2 = false).
Proof.
  intros Hl Hr h' i x Hx. destruct (hub_steps_ok limits _ _ Hr (initial_ok limits Hl)) as [Hok _].
  pose proof Hok as [Hc Hs]. assert (Hlook := ends_lookup (λ x, bool_decide (sessionId x = session)) (Some reason)
    (hub w) (all (hub w)) i (rg_nodup _ (hc_registry _ _ _ Hc))).
  fold (endSession session reason (hub w)) in Hlook. fold h' in Hlook. rewrite Hx in Hlook. cbn in Hlook.
  eexists. split; [exact Hlook|]. split_and!.
  - intros Hne. rewrite (bool_decide_false (sessionId x = session)) by done. by rewrite andb_false_r.
  - intros Hss Ho. rewrite (bool_decide_true (sessionId x = session)) by done.
    rewrite (bool_decide_true (i ∈ all (hub w))) by (by apply (hc_open _ _ _ Hc i x)). cbn [andb].
    destruct (so_open _ (hc_subs _ _ _ Hc i x Hx) Ho) as (Hct & Hrd & _).
    assert (He : sent (stream (ended (Some reason) x)) = sent (stream x) ++ [UnauthorizedFrame reason]).
    { unfold ended. rewrite Hct, (bool_decide_true (state x = open)) by done. cbn -[enqueue]. unfold enqueue.
      by rewrite Hrd. }
    split_and!; [done|exact He|]. intros w2 Hr2.
    destruct (hub_step_ok limits w _ (hs_endSession limits w session reason) Hok) as [Hok' _].
    destruct (hub_steps_ok limits _ _ Hr2 Hok') as [_ Hev].
    rewrite (bool_decide_true (sessionId x = session)), (bool_decide_true (i ∈ all (hub w))) in Hlook;
      [|by apply (hc_open _ _ _ Hc i x)|done].
    destruct (Hev i _ Hlook) as (x2 & Hx2 & _ & _ & Hcl). exists x2. split; [done|]. by apply Hcl.
  - intros Hss Hp Hn. unfold activate. rewrite Hlook, (bool_decide_true (sessionId x = session)) by done.
    rewrite (bool_decide_true (i ∈ all (hub w))) by (by apply (hc_pending _ _ _ Hc i x)). done.
Qed.

(** One tab of user u, opened and told of a node change. *)
Definition tabHub : NodeEventHub :=
  publish (mkNodeEvent "u" "n" NodeTrust) "t"
    (activate 0 (reserve NODE_EVENTS_LIMITS "u" "s" None emptyHub).1).1.
Definition tabWorld : HubWorld := mkHubWorld tabHub [0%nat].

Lemma tabWorld_reachable : rtc (hub_step NODE_EVENTS_LIMITS) initialWorld tabWorld.
Proof.
  eapply rtc_l; [by eapply (hs_reserve _ initialWorld "u" "s" None)|].
  eapply rtc_l; [apply (hs_activate _ _ 0); [cbn; lia|apply not_elem_of_nil]|].
  apply rtc_once. apply (hs_publish _ (mkHubWorld _ _) (mkNodeEvent "u" "n" NodeTrust) "t").
Qed.

Lemma streams_bounded_and_private_witness : total tabHub = 1 ∧ total tabHub ≤ perServer NODE_EVENTS_LIMITS.
Proof.
  split; [reflexivity|].
  apply (streams_bounded_and_private NODE_EVENTS_LIMITS tabWorld); [vm_compute; congruence|exact tabWorld_reachable].
Defined.

Lemma session_end_final_witness :
  ∃ x', subs (endSession "s" session_ended tabHub) !! 0%nat = Some x' ∧ state x' = closed ∧
    sent (stream x') =
    [RetryFrame; HelloFrame; NodeFrame (mkNodeEvent "u" "n" NodeTrust) "t"; UnauthorizedFrame session_ended].
Proof.
  assert (Hl : 0 ≤ perServer NODE_EVENTS_LIMITS) by (vm_compute; congruence).
  destruct (subs tabHub !! 0%nat) as [x|] eqn:Hx; [|vm_compute in Hx; congruence].
  destruct (session_end_final NODE_EVENTS_LIMITS tabWorld "s" session_ended Hl tabWorld_reachable 0 x Hx)
    as (x' & Hx' & _ & Hopen & _).
  exists x'. split; [exact Hx'|]. vm_compute in Hx. injection Hx as <-.
  destruct (Hopen eq_refl eq_refl) as (H1 & H2 & _). split; [exact H1|exact H2].
Defined.
