(* ===== verification/JsString.v ===== *)
(** * JsString: JavaScript strings as sequences of UTF-16 code units

    The string operations the text components use ([indexOf], [slice], [split], [join],
    [startsWith], [String(n)], [n.toString(16)], [Number.parseInt], the UTF-8 length of a
    [TextEncoder]), on lists of code units, with the lemmas the components share: what the
    first occurrence is, that [split] undoes [join], and that printing a number and reading it
    back are inverse on canonical digit strings. *)
From Stdlib Require Import ssreflect.
From S2P Require Import Prelude.

(** A string is its code units. *)
Definition jstr : Type := list Z.

(** An ASCII literal. *)
Definition js (s : string) : jstr :=
  (λ c, Z.of_nat (Ascii.nat_of_ascii c)) <$> String.list_ascii_of_string s.

Definition chr_quote : Z := 39.
Definition chr_backslash : Z := 92.
Definition chr_dquote : Z := 34.

Definition str_eqb (a b : jstr) : bool := bool_decide (a = b).

(** ** Searching and slicing *)

Fixpoint startsWith (p s : jstr) : bool :=
  match p, s with
  | [], _ => true
  | a :: p', b :: s' => (a =? b) && startsWith p' s'
  | _ :: _, [] => false
  end.

(** [s.indexOf(p)], [None] for -1. *)
Fixpoint indexOf (p s : jstr) : option nat :=
  if startsWith p s then Some O
  else match s with
       | [] => None
       | _ :: s' => S <$> indexOf p s'
       end.

(** [s.split(p)] for a non-empty [p]; the fuel is the length of the string. *)
Fixpoint split_go (fuel : nat) (p s : jstr) : list jstr :=
  match fuel, indexOf p s with
  | S fuel', Some i => take i s :: split_go fuel' p (drop (i + length p) s)
  | _, _ => [s]
  end.

Definition split (p s : jstr) : list jstr := split_go (length s) p s.

(** [parts.join(p)]. *)
Fixpoint join (p : jstr) (parts : list jstr) : jstr :=
  match parts with
  | [] => []
  | [s] => s
  | s :: parts' => s ++ p ++ join p parts'
  end.

(** ** Character classes *)

Definition in_range (a b c : Z) : bool := (a <=? c) && (c <=? b).
Definition is_digit (c : Z) : bool := in_range 48 57 c.
Definition is_digit19 (c : Z) : bool := in_range 49 57 c.
Definition is_lower (c : Z) : bool := in_range 97 122 c.
Definition is_upper (c : Z) : bool := in_range 65 90 c.
Definition is_hex (c : Z) : bool := is_digit c || in_range 97 102 c || in_range 65 70 c.

(** White space, as [String.prototype.trim] and [\s] have it. *)
Definition js_space (c : Z) : bool :=
  in_range 9 13 c || (c =? 32) || (c =? 160) || (c =? 5760) || in_range 8192 8202 c || (c =? 8232)
  || (c =? 8233) || (c =? 8239) || (c =? 8287) || (c =? 12288) || (c =? 65279).

(** A whole number without leading zeros. *)
Definition whole_text (s : jstr) : bool :=
  str_eqb s (js "0") || match s with c :: r => is_digit19 c && forallb is_digit r | [] => false end.

(** ** Numbers *)

Definition digit_char (d : Z) : Z := if d <? 10 then 48 + d else 87 + d.

Definition digit_val (c : Z) : Z :=
  if is_digit c then c - 48 else if in_range 97 102 c then c - 87 else c - 55.

Fixpoint digits_go (fuel : nat) (base n : Z) (acc : jstr) : jstr :=
  match fuel with
  | O => acc
  | S f =>
      let acc' := digit_char (n mod base) :: acc in
      if n <? base then acc' else digits_go f base (n / base) acc'
  end.

(** [n.toString(base)] for an integer; [String(n)] is base 10. *)
Definition toString (base n : Z) : jstr :=
  if n <? 0 then 45 :: digits_go (S (Z.to_nat (Z.log2 (- n)))) base (- n) []
  else digits_go (S (Z.to_nat (Z.log2 n))) base n [].

Definition str_of_int (n : Z) : jstr := toString 10 n.

(** [Number.parseInt(s, base)], and [Number(s)] in base 10, on a string of digits. *)
Definition parse_digits (base : Z) (s : jstr) : Z := fold_left (λ a c, a * base + digit_val c) s 0.

(** ** UTF-8 *)

(** [new TextEncoder().encode(s).length]: a surrogate pair takes four bytes, a lone surrogate
    is replaced by U+FFFD (three bytes). *)
Fixpoint utf8Bytes (s : jstr) : Z :=
  match s with
  | [] => 0
  | c :: s' =>
      if c <? 128 then 1 + utf8Bytes s'
      else if c <? 2048 then 2 + utf8Bytes s'
      else
        match s' with
        | d :: s'' =>
            if in_range 55296 56319 c && in_range 56320 57343 d then 4 + utf8Bytes s''
            else 3 + utf8Bytes s'
        | [] => 3
        end
  end.

(** * Lemmas *)

(** A running sum started at [a]. *)
Lemma fold_add_acc {A} (f : A → Z) l a :
  fold_left (λ b x, b + f x) l a = a + fold_left (λ b x, b + f x) l 0.
Proof.
  revert a; induction l as [|x l IH]; intros a; cbn [fold_left]; [lia|]. rewrite IH (IH (0 + f x)). lia.
Qed.

Lemma startsWith_spec p s : startsWith p s = true ↔ ∃ t, s = p ++ t.
Proof.
  revert s; induction p as [|a p IH]; intros s; cbn [startsWith].
  - split; [by exists s|done].
  - destruct s as [|b s]; [split; [done|by intros [? ?]]|].
    rewrite andb_true_iff Z.eqb_eq IH. split.
    + intros [-> [t ->]]. by exists t.
    + intros [t [= -> ->]]. eauto.
Qed.

Lemma startsWith_app p t : startsWith p (p ++ t) = true.
Proof. apply startsWith_spec. eauto. Qed.

Lemma startsWith_app_r p s t : startsWith p s = true → startsWith p (s ++ t) = true.
Proof. rewrite !startsWith_spec. intros [u ->]. exists (u ++ t). by rewrite app_assoc. Qed.

Lemma indexOf_unfold p s :
  indexOf p s = if startsWith p s then Some O
                else match s with [] => None | _ :: s' => S <$> indexOf p s' end.
Proof. by destruct s. Qed.

(** The string around its first occurrence. *)
Lemma indexOf_Some p s i :
  indexOf p s = Some i → s = take i s ++ p ++ drop (i + length p) s.
Proof.
  revert i; induction s as [|c s IH]; intros i; rewrite indexOf_unfold;
    destruct (startsWith p _) eqn:Hp; intros H; simplify_eq/=.
  - apply startsWith_spec in Hp as [t Ht]. destruct p; [|done]. done.
  - apply startsWith_spec in Hp as [t Ht]. rewrite Ht drop_app_length. by rewrite -Ht.
  - apply fmap_Some in H as (j & Hj & ->). cbn. by rewrite -(IH j Hj).
Qed.

Lemma indexOf_bound p s i : indexOf p s = Some i → (i + length p ≤ length s)%nat.
Proof.
  intros H. pose proof (indexOf_Some _ _ _ H) as E. apply (f_equal length) in E.
  rewrite !length_app length_take length_drop in E.
  destruct (decide (i ≤ length s)%nat) as [Hi|Hi]; [lia|].
  revert i H E Hi; induction s as [|c s IH]; intros i H; rewrite indexOf_unfold in H;
    destruct (startsWith p _); simplify_eq/=; [lia..|].
  apply fmap_Some in H as (j & Hj & ->). intros E Hi. apply IH in Hj; lia.
Qed.

Lemma indexOf_None_app p s t : indexOf p (s ++ t) = None → indexOf p s = None.
Proof.
  induction s as [|c s IH]; intros H; rewrite indexOf_unfold; rewrite indexOf_unfold in H.
  - destruct p as [|a p]; [|done]. destruct t; done.
  - destruct (startsWith p (c :: s)) eqn:Hp.
    + apply (startsWith_app_r _ _ t) in Hp. cbn [app] in Hp, H. by rewrite Hp in H.
    + cbn [app] in H. destruct (startsWith p (c :: s ++ t)); [done|].
      apply fmap_None in H. by rewrite (IH H).
Qed.

Lemma indexOf_None_tail p c s : indexOf p (c :: s) = None → indexOf p s = None.
Proof.
  rewrite indexOf_unfold. destruct (startsWith p (c :: s)); [done|]. by intros ?%fmap_None.
Qed.

(** One character: its first occurrence, and none in a string without it. *)
Lemma indexOf_char_None c s : (∀ d, In d s → d ≠ c) → indexOf [c] s = None.
Proof.
  induction s as [|d s IH]; intros H; [done|].
  rewrite indexOf_unfold. cbn [startsWith]. rewrite (proj2 (Z.eqb_neq c d)).
  - intros ->. by apply (H d); [left|].
  - cbn [andb]. rewrite IH; [|done]. intros; apply H; by right.
Qed.

Lemma indexOf_char_app c s t : (∀ d, In d s → d ≠ c) → indexOf [c] (s ++ c :: t) = Some (length s).
Proof.
  induction s as [|d s IH]; intros H; rewrite indexOf_unfold; cbn [startsWith app].
  - by rewrite Z.eqb_refl.
  - rewrite (proj2 (Z.eqb_neq c d)).
    + intros ->. by apply (H d); [left|].
    + cbn [andb]. rewrite IH; [|done]. intros; apply H; by right.
Qed.

(** Two equal characters: the first occurrence is after [s] when it does not complete one. *)
Lemma indexOf_pair_app c s t :
  indexOf [c; c] (s ++ [c]) = None → indexOf [c; c] (s ++ c :: c :: t) = Some (length s).
Proof.
  induction s as [|d s IH]; intros H; rewrite indexOf_unfold; rewrite indexOf_unfold in H;
    cbn [startsWith app] in *.
  - by rewrite Z.eqb_refl.
  - destruct (c =? d) eqn:E; cbn [andb] in *.
    + destruct s as [|e s]; cbn [app] in *; [by rewrite Z.eqb_refl in H|].
      destruct (c =? e); cbn [andb] in *; [done|]. apply fmap_None in H. by rewrite (IH H).
    + destruct (indexOf [c; c] (s ++ [c])) eqn:E2; [done|]. by rewrite IH.
Qed.

Lemma split_go_fuel p n s :
  p ≠ [] → (length s ≤ n)%nat → split_go n p s = split_go (length s) p s.
Proof.
  intros Hp. revert s; induction n as [n IH] using lt_wf_ind; intros s Hn.
  destruct n as [|n].
  { destruct s; [done|cbn in Hn; lia]. }
  destruct s as [|c s]; [by destruct p|].
  cbn [split_go length]. destruct (indexOf p (c :: s)) as [i|] eqn:E; [|done].
  f_equal. assert (length (drop (i + length p) (c :: s)) ≤ length s)%nat.
  { rewrite length_drop. cbn [length]. destruct p; [done|]. cbn [length]. lia. }
  cbn [length] in Hn.
  rewrite (IH n); [lia|lia|]. rewrite (IH (length s)); [lia|lia|done].
Qed.

Lemma split_unfold p s :
  p ≠ [] →
  split p s = match indexOf p s with
              | Some i => take i s :: split p (drop (i + length p) s)
              | None => [s]
              end.
Proof.
  intros Hp. rewrite /split. destruct s as [|c s].
  { by destruct p. }
  cbn [split_go length]. destruct (indexOf p (c :: s)) as [i|] eqn:E; [|done].
  f_equal. apply split_go_fuel; [done|].
  rewrite length_drop. destruct p; [done|]. cbn [length]. lia.
Qed.

Lemma split_None p s : p ≠ [] → indexOf p s = None → split p s = [s].
Proof. intros Hp H. by rewrite split_unfold // H. Qed.

(** [split] undoes [join] on a separator character no part has. *)
Lemma split_join_char c parts :
  parts ≠ [] → (∀ s d, In s parts → In d s → d ≠ c) → split [c] (join [c] parts) = parts.
Proof.
  induction parts as [|s parts IH]; intros Hne H; [done|].
  destruct parts as [|s' parts].
  - apply split_None; [done|]. apply indexOf_char_None. intros d. apply H. by left.
  - rewrite split_unfold //. cbn [join app].
    rewrite indexOf_char_app; [intros d; apply H; by left|].
    rewrite take_app_length. f_equal.
    rewrite -drop_drop drop_app_length. cbn [length drop].
    apply IH; [done|]. intros; eapply H; [by right|done].
Qed.

Lemma split_nonempty p s : p ≠ [] → split p s ≠ [].
Proof. intros Hp. rewrite split_unfold //. by case_match. Qed.

(** [join] undoes [split]. *)
Lemma join_split p s : p ≠ [] → join p (split p s) = s.
Proof.
  intros Hp. remember (length s) as n eqn:Hn. revert s Hn.
  induction n as [n IH] using lt_wf_ind; intros s ->.
  rewrite split_unfold //. destruct (indexOf p s) as [i|] eqn:E; [|done].
  pose proof (indexOf_bound _ _ _ E). pose proof (indexOf_Some _ _ _ E) as Es.
  set (r := split p (drop (i + length p) s)).
  assert (join p (take i s :: r) = take i s ++ p ++ join p r) as ->.
  { subst r. destruct (split p _) eqn:Er; [|done]. by apply split_nonempty in Er. }
  subst r. erewrite IH; [by symmetry| |done].
  rewrite length_drop. destruct p; [done|]. cbn [length] in *. lia.
Qed.

(** ** Printing and reading numbers *)

Lemma digits_go_acc fuel base n acc : digits_go fuel base n acc = digits_go fuel base n [] ++ acc.
Proof.
  revert n acc; induction fuel as [|f IH]; intros n acc; [done|]. cbn [digits_go].
  destruct (n <? base); [done|]. rewrite (IH _ (_ :: acc)) (IH _ [_]).
  by rewrite -app_assoc.
Qed.

Lemma log2_div base n : 2 ≤ base → base ≤ n → Z.log2 (n / base) < Z.log2 n.
Proof.
  intros Hb Hn. apply Z.le_lt_trans with (Z.log2 (n / 2)).
  - apply Z.log2_le_mono. apply Z.div_le_compat_l; lia.
  - rewrite -(Z.shiftr_div_pow2 n 1) // Z.log2_shiftr; [lia|].
    pose proof (Z.log2_pos n). lia.
Qed.

Lemma digits_go_fuel base n f1 f2 acc :
  2 ≤ base → 0 ≤ n →
  (Z.to_nat (Z.log2 n) < f1)%nat → (Z.to_nat (Z.log2 n) < f2)%nat →
  digits_go f1 base n acc = digits_go f2 base n acc.
Proof.
  intros Hb. revert n f2 acc; induction f1 as [|f1 IH]; intros n f2 acc Hn H1 H2; [lia|].
  destruct f2 as [|f2]; [lia|]. cbn [digits_go].
  destruct (n <? base) eqn:E; [done|]. apply Z.ltb_ge in E.
  assert (Z.log2 (n / base) < Z.log2 n) by (apply log2_div; lia).
  pose proof (Z.log2_nonneg (n / base)).
  apply IH; [apply Z.div_pos; lia|lia|lia].
Qed.

Lemma toString_small base n : 2 ≤ base → 0 ≤ n < base → toString base n = [digit_char n].
Proof.
  intros Hb Hn. rewrite /toString (proj2 (Z.ltb_ge n 0)); [lia|]. cbn [digits_go].
  rewrite (proj2 (Z.ltb_lt n base)); [lia|]. by rewrite Z.mod_small.
Qed.

Lemma toString_step base n :
  2 ≤ base → base ≤ n → toString base n = toString base (n / base) ++ [digit_char (n mod base)].
Proof.
  intros Hb Hn. rewrite /toString (proj2 (Z.ltb_ge n 0)); [lia|].
  rewrite (proj2 (Z.ltb_ge (n / base) 0)); [apply Z.div_pos; lia|].
  assert (Z.log2 (n / base) < Z.log2 n) by (apply log2_div; lia).
  pose proof (Z.log2_nonneg (n / base)).
  rewrite -(digits_go_acc _ _ _ [_]) {1}/digits_go -/digits_go.
  rewrite (proj2 (Z.ltb_ge n base)); [lia|].
  apply digits_go_fuel; [lia|apply Z.div_pos; lia|lia|lia].
Qed.

(** The induction that follows the printed digits. *)
Lemma toString_ind base (P : Z → Prop) :
  2 ≤ base → (∀ n, 0 ≤ n < base → P n) → (∀ n, base ≤ n → P (n / base) → P n) →
  ∀ n, 0 ≤ n → P n.
Proof.
  intros Hb H0 H1 n Hn. revert n Hn. apply (Zlt_0_ind P). intros n IH Hn.
  destruct (decide (n < base)) as [E|E]; [apply H0; lia|].
  apply H1; [lia|]. apply IH. split; [apply Z.div_pos; lia|apply Z.div_lt; lia].
Qed.

Lemma digit_val_char d : 0 ≤ d < 16 → digit_val (digit_char d) = d.
Proof.
  intros Hd. rewrite /digit_val /digit_char /is_digit /in_range.
  repeat (case_match; bool_to_prop); lia.
Qed.

Lemma digit_char_val c : is_digit c || in_range 97 102 c → digit_char (digit_val c) = c.
Proof.
  rewrite /digit_val /digit_char /is_digit /in_range. intros H%Is_true_true.
  repeat (case_match; bool_to_prop); lia.
Qed.

Lemma parse_digits_snoc base s c : parse_digits base (s ++ [c]) = parse_digits base s * base + digit_val c.
Proof. by rewrite /parse_digits fold_left_app. Qed.

(** Reading what was printed. *)
Lemma parse_toString base n : 2 ≤ base ≤ 16 → 0 ≤ n → parse_digits base (toString base n) = n.
Proof.
  intros Hb. revert n. apply (toString_ind base); [lia|..].
  - intros n Hn. rewrite toString_small; [lia..|].
    rewrite /parse_digits. cbn [fold_left]. rewrite digit_val_char; lia.
  - intros n Hn IH. rewrite toString_step; [lia..|].
    rewrite parse_digits_snoc IH digit_val_char.
    + pose proof (Z.mod_pos_bound n base). lia.
    + pose proof (Z.div_mod n base). lia.
Qed.

Lemma toString_digits base n :
  2 ≤ base ≤ 16 → 0 ≤ n →
  toString base n ≠ [] ∧ ∀ c, In c (toString base n) → ∃ d, c = digit_char d ∧ 0 ≤ d < base.
Proof.
  intros Hb. revert n. apply (toString_ind base); [lia|..].
  - intros n Hn. rewrite toString_small; [lia..|].
    split; [done|]. intros c [<-|[]]. eauto.
  - intros n Hn [_ IH]. rewrite toString_step; [lia..|].
    split; [by destruct (toString base (n / base))|].
    intros c [?|[<-|[]]]%in_app_or; [eauto|].
    eexists; split; [done|]. apply Z.mod_pos_bound; lia.
Qed.

(** No leading zero but in the number zero. *)
Lemma toString_head base n :
  2 ≤ base ≤ 16 → 0 < n → ∃ d s, toString base n = digit_char d :: s ∧ 0 < d < base.
Proof.
  intros Hb Hn. assert (0 ≤ n) as H0 by lia. revert n H0 Hn.
  apply (toString_ind base (λ n, 0 < n → ∃ d s, toString base n = digit_char d :: s ∧ 0 < d < base)); [lia|..].
  - intros n Hn ?. rewrite toString_small; [lia..|]. exists n, []. split; [done|lia].
  - intros n Hn IH _. rewrite toString_step; [lia..|].
    destruct IH as (d & s & -> & Hd); [apply Z.div_str_pos; lia|].
    by exists d, (s ++ [digit_char (n mod base)]).
Qed.

Lemma toString_length base k n :
  2 ≤ base ≤ 16 → (0 < k)%nat → 0 ≤ n < base ^ Z.of_nat k → (length (toString base n) ≤ k)%nat.
Proof.
  intros Hb. revert n; induction k as [|k IH]; intros n Hk Hn; [lia|].
  destruct (decide (n < base)) as [E|E].
  { rewrite toString_small; [lia..|]. cbn; lia. }
  rewrite toString_step; [lia..|]. rewrite length_app Nat.add_1_r. apply le_n_S.
  destruct k as [|k]; [rewrite Z.pow_1_r in Hn; lia|].
  apply IH; [lia|]. split; [apply Z.div_pos; lia|].
  apply Z.div_lt_upper_bound; [lia|].
  rewrite Nat2Z.inj_succ Z.pow_succ_r in Hn; lia.
Qed.

(** Canonical digit strings: non-empty, digits of the base in lower case, no leading zero. *)
Definition canonical_digits (base : Z) (s : jstr) : Prop :=
  (∀ c, In c s → (is_digit c || in_range 97 102 c) ∧ digit_val c < base) ∧
  (s = [48] ∨ ∃ c s', s = c :: s' ∧ c ≠ 48).

Lemma digit_val_nonneg c : is_digit c || in_range 97 102 c → 0 ≤ digit_val c.
Proof.
  rewrite /digit_val /is_digit /in_range. intros H%Is_true_true.
  repeat (case_match; bool_to_prop); lia.
Qed.

(** Printing what was read. *)
Lemma toString_parse base s :
  2 ≤ base ≤ 16 → canonical_digits base s → toString base (parse_digits base s) = s.
Proof.
  intros Hb [Hd [->|(c & s' & -> & Hc)]].
  { rewrite toString_small; [lia|cbn; lia|done]. }
  assert (0 < digit_val c) as Hpos.
  { destruct (Hd c) as [H1 H2]; [by left|].
    pose proof (digit_val_nonneg c H1). pose proof (digit_char_val c H1) as E.
    destruct (decide (digit_val c = 0)) as [E0|]; [|lia]. rewrite E0 in E. cbn in E. lia. }
  assert (toString base (parse_digits base (c :: s')) = c :: s' ∧ 0 < parse_digits base (c :: s')) as [E _]; [|exact E].
  induction s' as [|d s' IH] using rev_ind.
  - destruct (Hd c) as [H1 H2]; [by left|]. change (parse_digits base [c]) with (digit_val c).
    rewrite toString_small; [lia..|]. by rewrite digit_char_val.
  - rewrite app_comm_cons parse_digits_snoc.
    destruct IH as [IH1 IH2]. { intros e He. apply Hd. rewrite app_comm_cons. apply in_or_app. by left. }
    destruct (Hd d) as [H1 H2]. { rewrite app_comm_cons. apply in_or_app. right; by left. }
    pose proof (digit_val_nonneg d H1). split; [|nia].
    rewrite toString_step; [lia|nia|].
    rewrite Z.div_add_l ?(Z.div_small (digit_val d)) ?Z.add_0_r; [lia|lia|].
    rewrite Z.add_comm Z.mod_add ?Z.mod_small; [lia|lia|].
    by rewrite IH1 digit_char_val.
Qed.

Lemma digit_char_class base d : 0 ≤ d < base → base ≤ 16 → is_hex (digit_char d) = true.
Proof.
  intros. rewrite /is_hex /is_digit /digit_char /in_range. case_match; bool_to_prop; lia.
Qed.

(** The characters of joined strings come from the separator and the parts. *)
Lemma join_In p parts c : In c (join p parts) → In c p ∨ ∃ s, In s parts ∧ In c s.
Proof.
  induction parts as [|s parts IH]; [done|]. destruct parts as [|s' parts]; cbn [join].
  - intros H. right. exists s. split; [by left|done].
  - intros [H|[H|H]%in_app_or]%in_app_or; [|by left|].
    + right. exists s. split; [by left|done].
    + destruct (IH H) as [?|(u & ? & ?)]; [by left|]. right. exists u. split; [by right|done].
Qed.

(** What a code unit adds to the UTF-8 length, given the unit after it. *)
Definition utf8_weight (c : Z) (next : option Z) : Z :=
  if c <? 128 then 1
  else if c <? 2048 then 2
  else if in_range 55296 56319 c && default false (in_range 56320 57343 <$> next) then 1
  else 3.

Lemma utf8Bytes_unfold c s :
  utf8Bytes (c :: s) =
  if c <? 128 then 1 + utf8Bytes s
  else if c <? 2048 then 2 + utf8Bytes s
  else match s with
       | d :: s' =>
           if in_range 55296 56319 c && in_range 56320 57343 d then 4 + utf8Bytes s' else 3 + utf8Bytes s
       | [] => 3
       end.
Proof. by destruct s. Qed.

Lemma utf8Bytes_low d s : in_range 56320 57343 d = true → utf8Bytes (d :: s) = 3 + utf8Bytes s.
Proof.
  rewrite /in_range utf8Bytes_unfold. intros Hd. bool_to_prop.
  rewrite (proj2 (Z.ltb_ge d 128)); [lia|]. rewrite (proj2 (Z.ltb_ge d 2048)); [lia|].
  destruct s as [|e s]; [done|].
  assert (in_range 55296 56319 d = false) as -> by (rewrite /in_range; bool_to_prop; lia). done.
Qed.

Lemma utf8Bytes_cons c s : utf8Bytes (c :: s) = utf8_weight c (head s) + utf8Bytes s.
Proof.
  rewrite /utf8_weight utf8Bytes_unfold. destruct (c <? 128); [done|]. destruct (c <? 2048); [done|].
  destruct s as [|d s]; cbn [head fmap option_fmap option_map from_option id]; [by rewrite andb_false_r|].
  destruct (in_range 55296 56319 c && in_range 56320 57343 d) eqn:E; [|done].
  apply andb_true_iff in E as [_ Hd]. rewrite utf8Bytes_low //. lia.
Qed.

Lemma utf8Bytes_ascii a t : (∀ c, In c a → c < 128) → utf8Bytes (a ++ t) = Z.of_nat (length a) + utf8Bytes t.
Proof.
  induction a as [|c a IH]; intros Ha; [done|]. cbn [app length]. rewrite utf8Bytes_cons IH.
  - intros; apply Ha; by right.
  - rewrite /utf8_weight (proj2 (Z.ltb_lt c 128)); [|lia]. apply Ha. by left.
Qed.

(** Cutting before an ASCII character splits the length. *)
Lemma utf8Bytes_cut a c t : c < 128 → utf8Bytes (a ++ c :: t) = utf8Bytes a + utf8Bytes (c :: t).
Proof.
  intros Hc. induction a as [|d a IH]; [done|]. cbn [app]. rewrite !utf8Bytes_cons IH.
  assert (utf8_weight d (head (a ++ c :: t)) = utf8_weight d (head a)) as ->; [|rewrite !utf8Bytes_cons; lia].
  destruct a as [|e a]; [|done]. rewrite /utf8_weight /=.
  assert (in_range 56320 57343 c = false) as -> by (rewrite /in_range; bool_to_prop; lia). done.
Qed.
