(* ===== verification/IpLiteral.v ===== *)
(** * IpLiteral: canonical IP literals

    [packages/api/src/lib/ip-literal.ts]: the readers of dotted quads and of IPv6 text, the
    RFC 5952 printer, and the checks built on them. An address is accepted in exactly one text
    form: reading is the inverse of printing ([canonical_ip_exact]), so the same string means
    the same address for the contract, the node and the database. *)
From Stdlib Require Import ssreflect.
From S2P Require Import Prelude JsString.

(** [IPV4_OCTET]: 0, or a digit from 1 to 9 and at most two digits. *)
Definition octet_text (s : jstr) : bool :=
  str_eqb s (js "0")
  || match s with
     | c :: r => is_digit19 c && forallb is_digit r && (length r <=? 2)%nat
     | [] => false
     end.

Definition parse_octet (part : jstr) : option Z :=
  if negb (octet_text part) then None
  else let value := parse_digits 10 part in if 255 <? value then None else Some value.

Definition parseIpv4 (text : jstr) : option (list Z) :=
  let parts := split (js ".") text in
  if negb (length parts =? 4)%nat then None else mapM parse_octet parts.

Definition ipv6_chars (text : jstr) : bool :=
  forallb (λ c, is_hex c || (c =? 58)) text && (2 <=? length text)%nat && (length text <=? 39)%nat.

Definition ipv6_group (group : jstr) : bool :=
  forallb is_hex group && (1 <=? length group)%nat && (length group <=? 4)%nat.

Definition ipv6_half (half : jstr) : list jstr :=
  if str_eqb half [] then [] else split (js ":") half.

Definition parseIpv6 (text : jstr) : option (list Z) :=
  if negb (ipv6_chars text) then None else
  let halves := split (js "::") text in
  if (2 <? length halves)%nat then None else
  let head := ipv6_half (default [] (halves !! 0%nat)) in
  let tail := if (length halves =? 2)%nat then ipv6_half (default [] (halves !! 1%nat)) else [] in
  let all := head ++ tail in
  if existsb (λ g, negb (ipv6_group g)) all then None else
  if (length halves =? 1)%nat && negb (length all =? 8)%nat then None else
  if (length halves =? 2)%nat && (7 <? length all)%nat then None else
  let zeros := (8 - length all)%nat in
  Some ((parse_digits 16 <$> head)
        ++ replicate (if (length halves =? 2)%nat then zeros else O) 0
        ++ (parse_digits 16 <$> tail)).

(** The inner loop of [formatIpv6]: the zero groups at the head of the rest. *)
Fixpoint zero_run (groups : list Z) : nat :=
  match groups with
  | g :: r => if g =? 0 then S (zero_run r) else O
  | [] => O
  end.

(** The outer loop: the first longest run of zero groups, as its start and length. Every turn
    moves [start] forward, so as many turns as there are groups are enough. *)
Fixpoint best_run (fuel : nat) (groups : list Z) (start : nat) (bestStart : Z) (bestLength : nat)
  : Z * nat :=
  match fuel with
  | O => (bestStart, bestLength)
  | S fuel' =>
      if (8 <=? start)%nat then (bestStart, bestLength)
      else
        let run := zero_run (drop start groups) in
        if (run =? 0)%nat then best_run fuel' groups (start + 1) bestStart bestLength
        else if (bestLength <? run)%nat
             then best_run fuel' groups (start + run) (Z.of_nat start) run
             else best_run fuel' groups (start + run) bestStart bestLength
  end.

Definition formatIpv6 (groups : list Z) : jstr :=
  let '(bestStart, bestLength) := best_run 8 groups 0 (-1) 0 in
  let hex := toString 16 <$> groups in
  if (bestLength <? 2)%nat then join (js ":") hex
  else join (js ":") (take (Z.to_nat bestStart) hex)
       ++ js "::"
       ++ join (js ":") (drop (Z.to_nat bestStart + bestLength) hex).

Inductive IpLiteral : Type :=
  | V4 (octets : list Z)
  | V6 (groups : list Z).

Definition parseCanonicalIp (text : jstr) : option IpLiteral :=
  match parseIpv4 text with
  | Some octets => Some (V4 octets)
  | None =>
      match parseIpv6 text with
      | Some groups => if str_eqb (formatIpv6 groups) text then Some (V6 groups) else None
      | None => None
      end
  end.

(** The address test of [isFabricIp]. *)
Definition fabric_address (ip : IpLiteral) : bool :=
  match ip with
  | V4 octets =>
      negb (bool_decide (octets !! 0%nat = Some 0)) && negb (bool_decide (octets !! 0%nat = Some 127))
  | V6 groups =>
      let first80Zero := forallb (λ i, bool_decide (groups !! i = Some 0)) (seq 0 5) in
      negb (first80Zero
            && (bool_decide (groups !! 5%nat = Some 0) || bool_decide (groups !! 5%nat = Some 65535)))
  end.

Definition isFabricIp (text : jstr) : bool :=
  match parseCanonicalIp text with
  | None => false
  | Some ip => fabric_address ip
  end.

Definition isUrlIpHost (hostname : jstr) : bool :=
  if startsWith (js "[") hostname && bool_decide (last hostname = Some 93)
  then bool_decide (is_Some (parseIpv6 (drop 1 (take (length hostname - 1) hostname))))
  else bool_decide (is_Some (parseIpv4 hostname)).

(** ** The addresses and their text *)

Definition ip_wf (ip : IpLiteral) : Prop :=
  match ip with
  | V4 octets => length octets = 4%nat ∧ Forall (λ o, 0 ≤ o < 256) octets
  | V6 groups => length groups = 8%nat ∧ Forall (λ g, 0 ≤ g < 65536) groups
  end.

(** The first longest run of zero groups: every position is tried, a later one must be longer. *)
Definition longest_zero_run (groups : list Z) : nat * nat :=
  fold_left (λ best i, let run := zero_run (drop i groups) in if (best.2 <? run)%nat then (i, run) else best)
    (seq 0 8) (0%nat, 0%nat).

(** RFC 5952, section 4: lower-case hexadecimal without leading zeros; the first longest run of at
    least two zero groups is [::]. *)
Definition rfc5952 (groups : list Z) : jstr :=
  let '(start, len) := longest_zero_run groups in
  let hex := toString 16 <$> groups in
  if (2 <=? len)%nat
  then join (js ":") (take start hex) ++ js "::" ++ join (js ":") (drop (start + len) hex)
  else join (js ":") hex.

Definition ip_print (ip : IpLiteral) : jstr :=
  match ip with
  | V4 octets => join (js ".") (str_of_int <$> octets)
  | V6 groups => rfc5952 groups
  end.

(** The address as a number of 32 or 128 bits. *)
Definition ip_number (ip : IpLiteral) : Z :=
  match ip with
  | V4 octets => fold_left (λ a o, a * 256 + o) octets 0
  | V6 groups => fold_left (λ a g, a * 65536 + g) groups 0
  end.

(** Membership in a prefix block, as the database's [<<=] on [inet] decides it. *)
Definition in_block (bits prefix : Z) (len : Z) (n : Z) : Prop :=
  Z.shiftr n (bits - len) = Z.shiftr prefix (bits - len).

Example ip_e1 : parseCanonicalIp (js "fd00::1:0:0:5") = Some (V6 [64768; 0; 0; 0; 1; 0; 0; 5]).
Proof. vm_compute. reflexivity. Qed.
Example ip_e2 : parseCanonicalIp (js "fd00::0:5") = None.
Proof. vm_compute. reflexivity. Qed.
Example ip_e3 : isFabricIp (js "10.0.0.7") = true ∧ isFabricIp (js "::ffff:1:2") = false ∧ isFabricIp (js "010.0.0.7") = false.
Proof. vm_compute. split_and!; reflexivity. Qed.
Example ip_e4 : formatIpv6 [1;0;0;2;0;0;0;3] = js "1:0:0:2::3".
Proof. vm_compute. reflexivity. Qed.

(** ** Dotted quads *)

Lemma str_eqb_eq a b : str_eqb a b = true ↔ a = b.
Proof. by rewrite /str_eqb bool_decide_eq_true. Qed.

(** Printing an octet gives octet text. *)
Lemma octet_print_ok o : 0 ≤ o < 256 → parse_octet (str_of_int o) = Some o.
Proof.
  intros Ho.
  assert (forallb (λ n, bool_decide (parse_octet (str_of_int (Z.of_nat n)) = Some (Z.of_nat n))) (seq 0 256) = true)
    as H by (vm_compute; reflexivity).
  rewrite forallb_forall in H. specialize (H (Z.to_nat o)).
  rewrite Z2Nat.id in H; [lia|]. apply bool_decide_eq_true in H; [done|]. apply in_seq. lia.
Qed.

Lemma digit_class c : is_digit c = true → (is_digit c || in_range 97 102 c) ∧ digit_val c < 10.
Proof.
  intros H. split; [by rewrite H|]. rewrite /digit_val H.
  rewrite /is_digit /in_range in H. bool_to_prop. lia.
Qed.

Lemma octet_text_canonical s : octet_text s = true → canonical_digits 10 s.
Proof.
  rewrite /octet_text orb_true_iff str_eqb_eq. intros [->|H].
  { split; [|by left]. by intros c [<-|[]]. }
  destruct s as [|c r]; [done|].
  apply andb_true_iff in H as [[H1 H2]%andb_true_iff H3].
  assert (is_digit c = true ∧ c ≠ 48) as [Hc Hc0].
  { rewrite /is_digit19 /is_digit /in_range in H1 *. bool_to_prop. lia. }
  split; [|right; by exists c, r].
  intros d [<-|Hd]; [by apply digit_class|]. apply digit_class.
  rewrite forallb_forall in H2. auto.
Qed.

(** Reading an octet and printing it gives the text back. *)
Lemma parse_octet_Some s o : parse_octet s = Some o → 0 ≤ o < 256 ∧ s = str_of_int o.
Proof.
  rewrite /parse_octet. destruct (octet_text s) eqn:Hs; [|done]. cbn [negb].
  destruct (255 <? parse_digits 10 s) eqn:Hv; [done|]. intros [= <-].
  pose proof (octet_text_canonical _ Hs) as Hc. split; [|by rewrite /str_of_int toString_parse].
  apply Z.ltb_ge in Hv. split; [|lia].
  destruct Hc as [Hd _]. clear -Hd. induction s as [|c s IH] using rev_ind; [done|].
  rewrite parse_digits_snoc. destruct (Hd c) as [Hc _]; [apply in_or_app; right; by left|].
  pose proof (digit_val_nonneg _ Hc).
  assert (0 ≤ parse_digits 10 s); [|lia]. apply IH. intros; apply Hd, in_or_app. by left.
Qed.

Lemma str_of_int_digits n c : 0 ≤ n → In c (str_of_int n) → is_digit c = true.
Proof.
  intros Hn Hc. destruct (toString_digits 10 n) as [_ H]; [lia..|].
  destruct (H c Hc) as (d & -> & Hd). rewrite /digit_char /is_digit /in_range.
  case_match; bool_to_prop; lia.
Qed.

Lemma parseIpv4_exact t os :
  parseIpv4 t = Some os ↔ ip_wf (V4 os) ∧ t = ip_print (V4 os).
Proof.
  rewrite /parseIpv4. cbn [ip_wf ip_print]. split.
  - destruct (length (split (js ".") t) =? 4)%nat eqn:Hl; [|done]. cbn [negb].
    apply Nat.eqb_eq in Hl. intros H%mapM_Some.
    split.
    + split; [by rewrite -(Forall2_length _ _ _ H)|].
      eapply Forall2_Forall_r; [exact H|]. apply Forall_true. intros s o Ho.
      by apply parse_octet_Some in Ho as [? _].
    + rewrite -(join_split (js ".") t) //. f_equal.
      eapply (Forall2_impl _ (λ s o, s = str_of_int o)) in H; [|by intros s o [_ ?]%parse_octet_Some].
      clear Hl. induction H as [|s o l k -> _ IH]; [done|]. cbn. by rewrite IH.
  - intros [[Hl Hw] ->].
    rewrite split_join_char.
    + by destruct os.
    + intros s d (o & <- & Ho)%in_map_iff Hd ->.
      rewrite Forall_forall in Hw. apply list_elem_of_In, Hw in Ho.
      apply str_of_int_digits in Hd; [done|lia].
    + rewrite length_fmap Hl. cbn [Nat.eqb negb]. apply mapM_Some.
      clear Hl. induction Hw as [|o os Ho _ IH]; [constructor|]. cbn.
      constructor; [by apply octet_print_ok|done].
Qed.

(** ** IPv6 text *)

Definition colon_free (w : jstr) : Prop := ∀ d, In d w → d ≠ 58.

Lemma hex_not_colon c : is_hex c = true → c ≠ 58.
Proof. rewrite /is_hex /is_digit /in_range. intros H ->. done. Qed.

Lemma group_colon_free w : ipv6_group w = true → colon_free w ∧ w ≠ [].
Proof.
  rewrite /ipv6_group !andb_true_iff forallb_forall. intros [[H1 H2] _].
  split; [|by destruct w]. intros d Hd. by apply hex_not_colon, H1.
Qed.

(** A group as it is printed. *)
Lemma group_print g : 0 ≤ g < 65536 → ipv6_group (toString 16 g) = true ∧ parse_digits 16 (toString 16 g) = g.
Proof.
  intros Hg. split; [|apply parse_toString; lia].
  destruct (toString_digits 16 g) as [Hne Hd]; [lia..|].
  pose proof (toString_length 16 4 g ltac:(lia) ltac:(lia) ltac:(lia)) as Hl.
  rewrite /ipv6_group !andb_true_iff forallb_forall. split_and!.
  - intros c Hc. destruct (Hd c Hc) as (d & -> & ?). by eapply digit_char_class.
  - by destruct (toString 16 g).
  - by apply Nat.leb_le.
Qed.

Lemma pair_word w t :
  colon_free w → indexOf [58; 58] t = None → indexOf [58; 58] (w ++ t) = None.
Proof.
  induction w as [|c w IH]; intros Hw Ht; [done|].
  rewrite indexOf_unfold. cbn [startsWith app].
  rewrite (proj2 (Z.eqb_neq 58 c)).
  - intros <-. by apply (Hw 58); [left|].
  - cbn [andb]. rewrite IH; [|done|done]. intros d Hd. apply Hw. by right.
Qed.

Lemma pair_colon c t : c ≠ 58 → indexOf [58; 58] (c :: t) = None → indexOf [58; 58] (58 :: c :: t) = None.
Proof.
  intros Hc Ht. rewrite indexOf_unfold. cbn [startsWith].
  by rewrite (proj2 (Z.eqb_neq 58 c)) ?Ht.
Qed.

(** Joined groups have no empty group, also before a colon. *)
Lemma join_no_pair l :
  Forall (λ w, colon_free w ∧ w ≠ []) l → indexOf [58; 58] (join [58] l ++ [58]) = None.
Proof.
  induction 1 as [|w l [Hw Hne] Hl IH]; [done|].
  destruct l as [|w' l]; [by apply pair_word|].
  cbn [join]. rewrite -!app_assoc. apply pair_word; [done|].
  inversion_clear Hl as [|? ? [Hw' Hne'] _].
  destruct w' as [|c w']; [done|]. change ([58] ++ ?t) with (58 :: t).
  assert (c ≠ 58) by (apply Hw'; by left).
  destruct l; cbn [join app] in *; by apply pair_colon.
Qed.

Lemma join_half l :
  Forall (λ w, ipv6_group w = true) l → ipv6_half (join [58] l) = l.
Proof.
  intros Hl. rewrite /ipv6_half. destruct l as [|w l]; [done|].
  inversion Hl as [|? ? Hw Hl']; subst. apply group_colon_free in Hw as [Hw Hne].
  destruct (str_eqb _ []) eqn:E.
  - apply str_eqb_eq in E. destruct l; cbn [join] in E; [done|]. by apply app_eq_nil in E as [? _].
  - apply split_join_char; [done|]. intros s d Hs Hd.
    rewrite Forall_forall in Hl. apply list_elem_of_In, Hl, group_colon_free in Hs as [Hs _]. auto.
Qed.

(** The text of joined groups: its characters and its length. *)
Lemma join_text l :
  Forall (λ w, ipv6_group w = true) l →
  forallb (λ c, is_hex c || (c =? 58)) (join [58] l) = true ∧
  (2 * length l - 1 ≤ length (join [58%Z] l) ≤ 5 * length l - 1)%nat.
Proof.
  induction 1 as [|w l Hw Hl [IH1 IH2]]; [done|].
  rewrite /ipv6_group !andb_true_iff forallb_forall Nat.leb_le Nat.leb_le in Hw.
  destruct Hw as [[Hw H1] H4].
  assert (forallb (λ c, is_hex c || (c =? 58)) w = true) as Hws.
  { apply forallb_forall. intros c Hc. by rewrite Hw. }
  destruct l as [|w' l].
  - cbn [join length] in *. split; [done|lia].
  - cbn [join]. rewrite !forallb_app Hws. cbn [forallb length] in *.
    rewrite !length_app. cbn [length]. cbn [join] in IH1, IH2. rewrite IH1. split; [done|lia].
Qed.

Lemma groups_ok_existsb l :
  Forall (λ w, ipv6_group w = true) l → existsb (λ g, negb (ipv6_group g)) l = false.
Proof.
  induction 1 as [|w l Hw _ IH]; [done|]. cbn [existsb]. by rewrite Hw IH.
Qed.

(** Reading eight groups. *)
Lemma parseIpv6_full l :
  Forall (λ w, ipv6_group w = true) l → length l = 8%nat →
  parseIpv6 (join [58] l) = Some (parse_digits 16 <$> l).
Proof.
  intros Hl H8. destruct (join_text l Hl) as [Hc Hlen]. rewrite H8 in Hlen.
  rewrite /parseIpv6 /ipv6_chars Hc. cbn [andb].
  rewrite (proj2 (Nat.leb_le _ _)); [lia|]. rewrite (proj2 (Nat.leb_le _ _)); [lia|].
  cbn [negb andb]. change (js "::") with [58; 58].
  rewrite split_None //.
  { eapply indexOf_None_app, join_no_pair, Forall_impl; [done|]. apply group_colon_free. }
  cbn [length lookup list_lookup default Nat.ltb Nat.leb Nat.eqb andb].
  rewrite join_half // app_nil_r groups_ok_existsb // H8. cbn. by rewrite app_nil_r.
Qed.

(** Reading two halves around [::]. *)
Lemma parseIpv6_halves a b :
  Forall (λ w, ipv6_group w = true) a → Forall (λ w, ipv6_group w = true) b →
  (length a + length b ≤ 6)%nat →
  parseIpv6 (join [58] a ++ [58; 58] ++ join [58] b) =
    Some ((parse_digits 16 <$> a) ++ replicate (8 - (length a + length b)) 0 ++ (parse_digits 16 <$> b)).
Proof.
  intros Ha Hb H6. destruct (join_text a Ha) as [Hca Hla], (join_text b Hb) as [Hcb Hlb].
  rewrite /parseIpv6 /ipv6_chars !forallb_app Hca Hcb !length_app. cbn [forallb andb orb].
  change (is_hex 58 || (58 =? 58)) with true. cbn [length andb].
  rewrite (proj2 (Nat.leb_le _ _)); [lia|]. rewrite (proj2 (Nat.leb_le _ _)); [lia|].
  cbn [negb andb]. change (js "::") with [58; 58]. rewrite split_unfold //.
  assert (∀ l, Forall (λ w, ipv6_group w = true) l → indexOf [58; 58] (join [58] l ++ [58]) = None) as Hn.
  { intros l Hl. eapply join_no_pair, Forall_impl; [done|]. apply group_colon_free. }
  cbn [app]. rewrite indexOf_pair_app; [by apply Hn|].
  rewrite take_app_length -drop_drop drop_app_length. cbn [length drop].
  rewrite (split_None _ (join [58] b)) //; [by eapply indexOf_None_app, Hn|].
  cbn [length lookup list_lookup default Nat.ltb Nat.leb Nat.eqb andb].
  rewrite !join_half // groups_ok_existsb; [by apply Forall_app|].
  move: H6. move: (length a + length b)%nat => n H6.
  do 7 (destruct n as [|n]; [done|]). lia.
Qed.

(** ** The printer *)

Lemma zero_run_spec l : (zero_run l ≤ length l)%nat ∧ take (zero_run l) l = replicate (zero_run l) 0.
Proof.
  induction l as [|g l [IH1 IH2]]; [done|]. cbn [zero_run].
  destruct (g =? 0) eqn:E; cbn; [|split; [lia|done]].
  apply Z.eqb_eq in E as ->. rewrite IH2. split; [lia|done].
Qed.

(** What the loop keeps: a run of zeros inside the groups. *)
Definition run_ok (groups : list Z) (r : Z * nat) : Prop :=
  r.2 = O ∨ (0 ≤ r.1 ∧ (Z.to_nat r.1 + r.2 ≤ length groups)%nat
             ∧ take r.2 (drop (Z.to_nat r.1) groups) = replicate r.2 0).

Lemma best_run_ok fuel groups start bs bl :
  run_ok groups (bs, bl) → run_ok groups (best_run fuel groups start bs bl).
Proof.
  revert start bs bl; induction fuel as [|f IH]; intros start bs bl Hr; [done|].
  cbn [best_run]. destruct (8 <=? start)%nat; [done|].
  destruct (_ =? 0)%nat eqn:E; [auto|]. destruct (_ <? _)%nat; [|auto].
  apply IH. right. cbn [fst snd]. rewrite Nat2Z.id.
  destruct (zero_run_spec (drop start groups)) as [H1 H2].
  rewrite length_drop in H1. apply Nat.eqb_neq in E. split_and!; [lia|lia|done].
Qed.

Lemma Forall_print g :
  Forall (λ g, 0 ≤ g < 65536) g →
  Forall (λ w, ipv6_group w = true) (toString 16 <$> g) ∧
  (parse_digits 16 <$> (toString 16 <$> g)) = g.
Proof.
  induction 1 as [|x g Hx _ [IH1 IH2]]; [done|].
  destruct (group_print x Hx) as [H1 H2]. cbn. rewrite H2 IH2. split; [by constructor|done].
Qed.

(** Reading a printed address. *)
Lemma parse_formatIpv6 g : ip_wf (V6 g) → parseIpv6 (formatIpv6 g) = Some g.
Proof.
  intros [H8 Hg]. rewrite /formatIpv6.
  pose proof (best_run_ok 8 g 0 (-1) 0 (or_introl eq_refl)) as Hr.
  destruct (best_run 8 g 0 (-1) 0) as [bs bl]. change (js ":") with [58].
  destruct (bl <? 2)%nat eqn:E.
  { destruct (Forall_print g Hg) as [H1 H2]. rewrite parseIpv6_full ?length_fmap //. by rewrite H2. }
  apply Nat.ltb_ge in E. destruct Hr as [Hr|(H0 & Hb & Hz)]; [cbn in Hr; lia|]. cbn [fst snd] in *.
  set (i := Z.to_nat bs) in *. rewrite -fmap_take -fmap_drop.
  destruct (Forall_print (take i g)) as [A1 A2]; [by apply Forall_take|].
  destruct (Forall_print (drop (i + bl) g)) as [B1 B2]; [by apply Forall_drop|].
  assert (length (take i g) + length (drop (i + bl) g) = 8 - bl)%nat as Hlen.
  { rewrite length_take length_drop. lia. }
  change (js "::") with [58; 58]. rewrite parseIpv6_halves // ?length_fmap; [lia|].
  rewrite A2 B2 Hlen. replace (8 - (8 - bl))%nat with bl by lia.
  f_equal. rewrite -Hz -drop_drop take_drop. by rewrite take_drop.
Qed.

(** Reading gives eight groups of sixteen bits. *)
Lemma parse_digits_bound s k :
  forallb is_hex s = true → (length s ≤ k)%nat → 0 ≤ parse_digits 16 s < 16 ^ Z.of_nat k.
Proof.
  revert k; induction s as [|c s IH] using rev_ind; intros k Hs Hk.
  { rewrite /parse_digits /=. lia. }
  rewrite forallb_app /= andb_true_r in Hs. apply andb_true_iff in Hs as [Hs Hc].
  rewrite length_app /= in Hk. destruct k as [|k]; [lia|].
  specialize (IH k Hs ltac:(lia)). rewrite parse_digits_snoc.
  assert (0 ≤ digit_val c < 16).
  { rewrite /digit_val /is_hex /is_digit /in_range in Hc *. repeat (case_match; bool_to_prop); lia. }
  rewrite Nat2Z.inj_succ Z.pow_succ_r; lia.
Qed.

Lemma groups_parse_wf l :
  existsb (λ g, negb (ipv6_group g)) l = false → Forall (λ g, 0 ≤ g < 65536) (parse_digits 16 <$> l).
Proof.
  induction l as [|w l IH]; cbn [existsb]; [constructor|]. rewrite orb_false_iff negb_false_iff.
  rewrite /ipv6_group !andb_true_iff !Nat.leb_le. intros [[[Hw _] H4] Hl].
  constructor; [|by apply IH]. by apply (parse_digits_bound w 4).
Qed.

Lemma parseIpv6_wf t g : parseIpv6 t = Some g → ip_wf (V6 g).
Proof.
  rewrite /parseIpv6. destruct (ipv6_chars t); [|done]. cbn [negb].
  set (halves := split _ t). set (head := ipv6_half _).
  set (tail := if (length halves =? 2)%nat then _ else _).
  destruct (2 <? length halves)%nat eqn:H2; [done|].
  destruct (existsb _ _) eqn:Hg; [done|].
  destruct (_ && negb _) eqn:H1; [done|]. destruct (_ && (7 <? _)%nat) eqn:H3; [done|].
  intros [= <-]. apply Nat.ltb_ge in H2.
  rewrite existsb_app in Hg. apply orb_false_iff in Hg as [G1%groups_parse_wf G2%groups_parse_wf].
  assert (length halves ≠ 0%nat) by (by destruct halves eqn:E; [apply split_nonempty in E|]).
  split.
  - rewrite !length_app !length_fmap length_replicate.
    destruct (length halves =? 2)%nat eqn:E2.
    + apply andb_false_iff in H3 as [|H3%Nat.ltb_ge]; [done|].
      rewrite length_app in H3 *. lia.
    + apply Nat.eqb_neq in E2. rewrite (proj2 (Nat.eqb_eq (length halves) 1)) in H1; [lia|].
      apply negb_false_iff, Nat.eqb_eq in H1. rewrite length_app in H1. lia.
  - apply Forall_app; split; [done|]. apply Forall_app; split; [|done].
    apply Forall_replicate. lia.
Qed.

(** The loop finds the first longest run: only which groups are zero counts, so the 256 patterns
    are enough. *)
Definition zero_pattern (groups : list Z) : list Z := (λ g, if g =? 0 then 0 else 1) <$> groups.

Lemma zero_run_pattern l : zero_run (zero_pattern l) = zero_run l.
Proof. induction l as [|g l IH]; [done|]. cbn. rewrite IH. by destruct (g =? 0). Qed.

Lemma zero_run_drop_pattern i l : zero_run (drop i (zero_pattern l)) = zero_run (drop i l).
Proof. rewrite /zero_pattern -fmap_drop. apply zero_run_pattern. Qed.

Lemma best_run_pattern fuel l start bs bl : best_run fuel (zero_pattern l) start bs bl = best_run fuel l start bs bl.
Proof.
  revert start bs bl; induction fuel as [|f IH]; intros start bs bl; [done|].
  cbn [best_run]. by rewrite zero_run_drop_pattern !IH.
Qed.

Lemma longest_zero_run_pattern l : longest_zero_run (zero_pattern l) = longest_zero_run l.
Proof. rewrite /longest_zero_run. cbn [seq fold_left]. by rewrite !zero_run_drop_pattern. Qed.

Fixpoint patterns (n : nat) : list (list Z) :=
  match n with O => [[]] | S n' => ((cons 0 <$> patterns n') ++ (cons 1 <$> patterns n')) end.

Lemma zero_pattern_In l : In (zero_pattern l) (patterns (length l)).
Proof.
  induction l as [|g l IH]; [by left|]. cbn [length patterns zero_pattern fmap list_fmap].
  apply in_or_app. destruct (g =? 0); [left|right]; by apply in_map.
Qed.

Definition run_agrees (l : list Z) : bool :=
  let '(bs, bl) := best_run 8 l 0 (-1) 0 in
  let '(start, len) := longest_zero_run l in
  (bl =? len)%nat && ((bl =? 0)%nat || (bs =? Z.of_nat start)).

Lemma format_rfc5952 g : length g = 8%nat → formatIpv6 g = rfc5952 g.
Proof.
  intros Hl. assert (forallb run_agrees (patterns 8) = true) as H by (vm_compute; reflexivity).
  rewrite forallb_forall in H. specialize (H (zero_pattern g)). rewrite -Hl in H.
  specialize (H (zero_pattern_In g)). rewrite /run_agrees best_run_pattern longest_zero_run_pattern in H.
  rewrite /formatIpv6 /rfc5952. destruct (best_run 8 g 0 (-1) 0) as [bs bl], (longest_zero_run g) as [start len].
  apply andb_true_iff in H as [->%Nat.eqb_eq H].
  destruct (Nat.ltb_spec len 2) as [|Hlen]; [by rewrite (proj2 (Nat.leb_gt 2 len))|].
  rewrite (proj2 (Nat.leb_le 2 len)) //. apply orb_true_iff in H as [H%Nat.eqb_eq|H%Z.eqb_eq]; [lia|].
  by rewrite H Nat2Z.id.
Qed.

(** IPv6 text is not a dotted quad. *)
Lemma format_no_quad g : ip_wf (V6 g) → parseIpv4 (formatIpv6 g) = None.
Proof.
  intros Hw. pose proof (parse_formatIpv6 g Hw) as Hp. rewrite /parseIpv6 in Hp.
  destruct (ipv6_chars (formatIpv6 g)) eqn:Hc; [|done].
  rewrite /ipv6_chars !andb_true_iff forallb_forall in Hc. destruct Hc as [[Hc _] _].
  rewrite /parseIpv4 split_None //. apply indexOf_char_None.
  intros d Hd ->. by apply Hc in Hd.
Qed.

Lemma parse_canonical_sound text ip : parseCanonicalIp text = Some ip → ip_wf ip ∧ text = ip_print ip.
Proof.
  rewrite /parseCanonicalIp.
  destruct (parseIpv4 text) as [os|] eqn:H4; [intros [= <-]; by apply parseIpv4_exact|].
  destruct (parseIpv6 text) as [g|] eqn:H6; [|done].
  destruct (str_eqb _ _) eqn:E; [|done]. intros [= <-]. apply str_eqb_eq in E.
  pose proof (parseIpv6_wf _ _ H6) as Hw. split; [done|]. cbn [ip_print]. by rewrite -format_rfc5952 //; apply Hw.
Qed.

Lemma parse_canonical_complete ip : ip_wf ip → parseCanonicalIp (ip_print ip) = Some ip.
Proof.
  rewrite /parseCanonicalIp. destruct ip as [os|g]; intros Hw.
  - by rewrite (proj2 (parseIpv4_exact _ os)).
  - cbn [ip_print]. rewrite -format_rfc5952; [apply Hw|]. rewrite format_no_quad // parse_formatIpv6 //.
    by rewrite (proj2 (str_eqb_eq _ _)).
Qed.

(** A text is accepted as an IP literal, with a given meaning, exactly when it is the
    canonical printed form of that well-formed address: four octets below 256 in decimal without
    leading zeros, or eight 16-bit groups in RFC 5952 form. So reading and printing are inverse,
    and no address has two accepted texts. *)
Theorem canonical_ip_exact (text : jstr) (ip : IpLiteral) :
  parseCanonicalIp text = Some ip ↔ ip_wf ip ∧ text = ip_print ip.
Proof.
  split; [apply parse_canonical_sound|].
  intros [Hw ->]. by apply parse_canonical_complete.
Qed.

(** ** Fabric addresses *)

Lemma shiftr_split a k r : 0 ≤ k → 0 ≤ r < 2 ^ k → Z.shiftr (a * 2 ^ k + r) k = a.
Proof.
  intros Hk Hr. rewrite Z.shiftr_div_pow2 // Z.div_add_l; [lia|].
  rewrite Z.div_small; lia.
Qed.

Lemma shiftr_prefix p k : 0 ≤ k → Z.shiftr (p * 2 ^ k) k = p.
Proof. intros Hk. rewrite -(Z.add_0_r (p * 2 ^ k)) shiftr_split //. lia. Qed.

Lemma v4_block a b c d p :
  Forall (λ o, 0 ≤ o < 256) [a; b; c; d] → in_block 32 (p * 2 ^ 24) 8 (ip_number (V4 [a; b; c; d])) ↔ a = p.
Proof.
  rewrite !Forall_cons. intros (Ha & Hb & Hc & Hd & _). rewrite /in_block /ip_number. cbn [fold_left].
  change (32 - 8) with 24. rewrite shiftr_prefix //.
  replace (_ + d) with (a * 2 ^ 24 + ((b * 256 + c) * 256 + d)) by lia.
  by rewrite shiftr_split; [lia|lia|].
Qed.

Lemma v6_block a b c d e f g h p :
  Forall (λ o, 0 ≤ o < 65536) [a; b; c; d; e; f; g; h] → 0 ≤ p < 65536 →
  in_block 128 (p * 2 ^ 32) 96 (ip_number (V6 [a; b; c; d; e; f; g; h]))
    ↔ (a = 0 ∧ b = 0 ∧ c = 0 ∧ d = 0 ∧ e = 0) ∧ f = p.
Proof.
  rewrite !Forall_cons. intros (Ha & Hb & Hc & Hd & He & Hf & Hg & Hh & _) Hp.
  rewrite /in_block /ip_number. cbn [fold_left]. change (128 - 96) with 32. rewrite shiftr_prefix //.
  set (x := ((((0 * 65536 + a) * 65536 + b) * 65536 + c) * 65536 + d) * 65536 + e).
  replace (_ + h) with ((x * 65536 + f) * 2 ^ 32 + (g * 65536 + h)) by (subst x; lia).
  rewrite shiftr_split; [lia|lia|]. subst x. lia.
Qed.

(** Outside the blocks no other node can reach. *)
Definition outside_blocks (ip : IpLiteral) : Prop :=
  match ip with
  | V4 _ => ¬ in_block 32 (0 * 2 ^ 24) 8 (ip_number ip) ∧ ¬ in_block 32 (127 * 2 ^ 24) 8 (ip_number ip)
  | V6 _ => ¬ in_block 128 (0 * 2 ^ 32) 96 (ip_number ip) ∧ ¬ in_block 128 (65535 * 2 ^ 32) 96 (ip_number ip)
  end.

Lemma fabric_address_blocks ip : ip_wf ip → fabric_address ip = true ↔ outside_blocks ip.
Proof.
  rewrite /fabric_address /outside_blocks. destruct ip as [os|gs]; intros [Hl Hf].
  - do 5 (destruct os as [|? os]; try done). rewrite !v4_block //. cbn [lookup list_lookup].
    rewrite andb_true_iff !negb_true_iff !bool_decide_eq_false. naive_solver.
  - do 9 (destruct gs as [|? gs]; try done). rewrite !v6_block //. cbn [lookup list_lookup seq forallb].
    rewrite negb_true_iff -not_true_iff_false !andb_true_iff orb_true_iff !bool_decide_eq_true.
    naive_solver.
Qed.

(** [isFabricIp] accepts exactly the canonical texts of the addresses outside 0.0.0.0/8,
    127.0.0.0/8, ::/96 and ::ffff:0:0/96: the same blocks the database's [wsmp_is_fabric_ip]
    names, tested there on the 32- or 128-bit address. *)
Theorem fabric_ip_exact (text : jstr) :
  isFabricIp text = true ↔ ∃ ip, ip_wf ip ∧ text = ip_print ip ∧ outside_blocks ip.
Proof.
  rewrite /isFabricIp. split.
  - destruct (parseCanonicalIp text) as [ip|] eqn:E; [|done]. intros H.
    destruct (parse_canonical_sound _ _ E) as [Hw ->]. exists ip.
    split_and!; [done..|]. by apply fabric_address_blocks.
  - intros (ip & Hw & -> & H). rewrite parse_canonical_complete //. by apply fabric_address_blocks.
Qed.
