(* ===== verification/CommandRender.v ===== *)
(** * CommandRender: the command a runtime step runs, as shown to the person who authorizes it

    [packages/api/src/lib/command-render.ts]: placeholder substitution, the typed checks of the
    values put in, and [renderStepCommand], which renders the command of a phase the way the
    node does or says which field the node refuses. The theorems show that substitution is the
    one-pass replacement of a reference scanner, that no value put in holds a character with a
    meaning to a shell, and that an argv is shown so that a POSIX shell reads back exactly its
    arguments. *)
From Stdlib Require Import ssreflect.
From S2P Require Import Prelude JsString IpLiteral.

(** ** Placeholders *)

Inductive NodeLocalPlaceholder : Type := fabric_ip | fabric_iface | fabric_rdma_device.

#[export] Instance NodeLocalPlaceholder_eq : EqDecision NodeLocalPlaceholder.
Proof. solve_decision. Defined.

Definition NODE_LOCAL_PLACEHOLDERS : list NodeLocalPlaceholder :=
  [fabric_ip; fabric_iface; fabric_rdma_device].

Definition local_name (p : NodeLocalPlaceholder) : jstr :=
  match p with
  | fabric_ip => js "fabric_ip"
  | fabric_iface => js "fabric_iface"
  | fabric_rdma_device => js "fabric_rdma_device"
  end.

Definition NODE_LOCAL_MIN_BYTES (p : NodeLocalPlaceholder) : Z :=
  match p with fabric_ip => 3 | fabric_iface => 1 | fabric_rdma_device => 1 end.

(** [isNodeLocal], with the placeholder the name is narrowed to. *)
Definition isNodeLocal (name : jstr) : option NodeLocalPlaceholder :=
  List.find (λ p, str_eqb (local_name p) name) NODE_LOCAL_PLACEHOLDERS.

(** [`{{${name}}}`]. *)
Definition braced (name : jstr) : jstr := js "{{" ++ name ++ js "}}".

(** [/^[a-z_]+$/]. *)
Definition name_char (c : Z) : bool := is_lower c || (c =? 95).
Definition placeholder_name (name : jstr) : bool :=
  forallb name_char name && negb (bool_decide (name = [])).

(** [[...new Set(l)]]: the first of each. *)
Fixpoint set_of_list (l : list NodeLocalPlaceholder) : list NodeLocalPlaceholder :=
  match l with
  | [] => []
  | p :: l' => p :: List.filter (λ q, negb (bool_decide (q = p))) (set_of_list l')
  end.

Inductive SubstituteResult : Type :=
  | SubstOk (text : jstr) (nodeFills kept : list NodeLocalPlaceholder)
  | SubstMissing (missing : jstr).

Definition Values : Type := jsmap jstr jstr.

(** The loop of [substitute]; every turn takes at least two characters off [rest]. *)
Fixpoint substitute_go (fuel : nat) (values : Values) (nodeLocal : list NodeLocalPlaceholder)
    (out rest : jstr) (kept : list NodeLocalPlaceholder) : SubstituteResult :=
  let done (tail : jstr) := SubstOk (out ++ tail) (set_of_list kept) kept in
  match fuel, indexOf (js "{{") rest with
  | S fuel', Some start =>
      let out := out ++ take start rest in
      let after := drop (start + 2) rest in
      match indexOf (js "}}") after with
      | None => SubstOk (out ++ drop start rest) (set_of_list kept) kept
      | Some end_ =>
          let name : jstr := take end_ after in
          if placeholder_name name then
            match map_get name values with
            | Some value => substitute_go fuel' values nodeLocal (out ++ value) (drop (end_ + 2) after) kept
            | None =>
                match isNodeLocal name with
                | Some p =>
                    if bool_decide (p ∈ nodeLocal)
                    then substitute_go fuel' values nodeLocal (out ++ braced name)
                           (drop (end_ + 2) after) (kept ++ [p])
                    else SubstMissing name
                | None => SubstMissing name
                end
            end
          else substitute_go fuel' values nodeLocal (out ++ js "{{") after kept
      end
  | _, _ => done rest
  end.

Definition substitute (text : jstr) (values : Values) (nodeLocal : list NodeLocalPlaceholder)
  : SubstituteResult :=
  substitute_go (length text) values nodeLocal [] text [].

(** ** Typed values *)

(** The digits at the head of a text, and what follows them. *)
Fixpoint digits_prefix (s : jstr) : jstr * jstr :=
  match s with
  | c :: r => if is_digit c then let '(d, t) := digits_prefix r in (c :: d, t) else ([], s)
  | [] => ([], [])
  end.

(** A whole number, then optionally a point and one to six digits; at most 24 characters. *)
Definition canonicalDecimal (value : jstr) : bool :=
  let '(whole, rest) := digits_prefix value in
  whole_text whole
  && match rest with
     | [] => true
     | c :: frac => (c =? 46) && forallb is_digit frac && (1 <=? length frac)%nat && (length frac <=? 6)%nat
     end
  && (length value <=? 24)%nat.

Definition positiveDecimal (value : jstr) : bool := canonicalDecimal value && existsb is_digit19 value.

Definition fraction (value : jstr) : bool :=
  positiveDecimal value
  && (startsWith (js "0.") value || str_eqb value (js "1")
      || (startsWith (js "1.") value && forallb (Z.eqb 48) (drop 2 value) && (3 <=? length value)%nat)).

Definition gpuIds_part (part : jstr) : bool :=
  (str_eqb part (js "0")
   || match part with c :: r => is_digit19 c && forallb is_digit r && (length r <=? 2)%nat | [] => false end)
  && (parse_digits 10 part <=? 255).

Fixpoint gpuIds_go (parts seen : list jstr) : bool :=
  match parts with
  | [] => true
  | part :: parts' =>
      if negb (gpuIds_part part) || bool_decide (part ∈ seen) then false
      else gpuIds_go parts' (part :: seen)
  end.

Definition gpuIds (value : jstr) : bool :=
  if str_eqb value [] then false
  else let parts := split (js ",") value in
       if (64 <? length parts)%nat then false else gpuIds_go parts [].

(** ** Commands *)

Inductive StepCommandPhase : Type := PREPARE | START | AFTER_JOIN | STOP | STATUS | HEALTH.

Inductive RuntimeCommandLine : Type :=
  | Text (text : jstr)
  | Argv (args : list jstr).

Record Interactive : Type := { iv_start : bool; iv_stop : bool; iv_prepare : bool; iv_afterJoin : bool }.

Record RuntimeCommands : Type := {
  c_start : RuntimeCommandLine;
  c_stop : option RuntimeCommandLine;
  c_prepare : option RuntimeCommandLine;
  c_afterJoin : option RuntimeCommandLine;
  c_status : option RuntimeCommandLine;
  c_health : option RuntimeCommandLine;
  c_interactive : option Interactive;
}.

(** The fields of a launch that rendering reads. *)
Record RuntimeLaunch : Type := {
  groupSize : Z;
  port_fixed : option Z;
  launch_fabric : option jstr;
  commands : list RuntimeCommands;
}.

(** [launch.commands[rank] ?? (only one ? it : undefined)]. *)
Definition rankCommands (launch : RuntimeLaunch) (rank : Z) : option RuntimeCommands :=
  match (if rank <? 0 then None else commands launch !! Z.to_nat rank) with
  | Some c => Some c
  | None => match commands launch with [c] => Some c | _ => None end
  end.

Definition phaseInteractive (c : RuntimeCommands) (phase : StepCommandPhase) : bool :=
  match c_interactive c with
  | None => false
  | Some flags =>
      match phase with
      | PREPARE => iv_prepare flags
      | START => iv_start flags
      | AFTER_JOIN => iv_afterJoin flags
      | STOP => iv_stop flags
      | STATUS | HEALTH => false
      end
  end.

Definition phaseCommand (c : RuntimeCommands) (phase : StepCommandPhase) : option RuntimeCommandLine :=
  match phase with
  | PREPARE => c_prepare c
  | START => Some (c_start c)
  | AFTER_JOIN => c_afterJoin c
  | STOP => c_stop c
  | STATUS => c_status c
  | HEALTH => c_health c
  end.

(** The intent's fields and the job's placeholders that rendering reads. *)
Record StepIntent : Type := {
  rank : Z;
  nnodes : Z;
  fabricId : option jstr;
  interactive : bool;
}.

Record StepJobPlaceholders : Type := {
  p_port : Z;
  p_dist_port : option Z;
  p_head_addr : option jstr;
  p_gpu_ids : option jstr;
  p_memory_gb : option jstr;
  p_vram_gb : option jstr;
  p_memory_fraction : option jstr;
}.

Inductive RenderedStepCommand : Type :=
  | Ready (text : jstr) (nodeFills : list NodeLocalPlaceholder)
  | Refused (field : jstr)
  | Unavailable.

(** ** Display *)

(** [/^[A-Za-z0-9_@%+=:,./{}-]+$/]. *)
Definition plain_char (c : Z) : bool :=
  is_upper c || is_lower c || is_digit c || bool_decide (c ∈ (js "_@%+=:,./{}-")).

Definition escape_quotes (s : jstr) : jstr :=
  List.flat_map (λ c, if c =? chr_quote then [chr_quote; chr_backslash; chr_quote; chr_quote] else [c]) s.

Definition displayArg (arg : jstr) : jstr :=
  if forallb plain_char arg && negb (bool_decide (arg = [])) then arg
  else chr_quote :: escape_quotes arg ++ [chr_quote].

Definition displayCommand (command : RuntimeCommandLine) : jstr :=
  match command with
  | Text text => text
  | Argv args => join (js " ") (displayArg <$> args)
  end.

(** ** [renderStepCommand] *)

Definition RUNTIME_COMMAND_MAX_BYTES : Z := 4096.

(** A check of [renderStepCommand]: go on, or the field the node refuses. *)
Definition checked (A : Type) : Type := sum jstr A.

Definition checked_bind {A B} (m : checked A) (k : A → checked B) : checked B :=
  match m with inl field => inl field | inr a => k a end.

Local Notation "'ask!' x ':=' m 'in' k" := (checked_bind m (λ x, k))
  (at level 200, x pattern, m at level 100, k at level 200, right associativity).

Definition refuse_unless (b : bool) (field : string) : checked unit :=
  if b then inr tt else inl (js field).

(** Set an optional value after its check. *)
Definition put_checked (name : string) (ok : jstr → bool) (value : option jstr) (values : Values)
  : checked Values :=
  match value with
  | None => inr values
  | Some v => if ok v then inr (map_set (js name) v values) else inl (js "placeholders." ++ js name)
  end.

(** [check_identity]. *)
Definition check_identity (launch : RuntimeLaunch) (phase : StepCommandPhase) (intent : StepIntent)
  : checked RuntimeCommands :=
  ask! _ := refuse_unless (nnodes intent =? groupSize launch) "nnodes" in
  ask! _ := refuse_unless (rank intent <? nnodes intent) "rank" in
  match rankCommands launch (rank intent) with
  | None => inl (js "rank")
  | Some c =>
      ask! _ := refuse_unless (Bool.eqb (phaseInteractive c phase) (interactive intent)) "operator" in
      inr c
  end.

Definition port_range (port : Z) : bool := (1024 <=? port) && (port <=? 65535).

(** [typed_values]: the values of the placeholders, and the names left to the node. *)
Definition typed_values (launch : RuntimeLaunch) (intent : StepIntent) (p : StepJobPlaceholders)
    (fabricName : option jstr) : checked (Values * list NodeLocalPlaceholder) :=
  let values : Values :=
    map_set (js "nnodes") (str_of_int (nnodes intent))
      (map_set (js "node_rank") (str_of_int (rank intent)) []) in
  ask! _ := refuse_unless
              (port_range (p_port p)
               && match port_fixed launch with None => true | Some fixed => p_port p =? fixed end)
              "placeholders.port" in
  let values := map_set (js "port") (str_of_int (p_port p)) values in
  ask! values := match p_dist_port p with
                 | None => inr values
                 | Some d =>
                     if negb (port_range d) || (d =? p_port p) then inl (js "placeholders.dist_port")
                     else inr (map_set (js "dist_port") (str_of_int d) values)
                 end in
  ask! values := put_checked "gpu_ids" gpuIds (p_gpu_ids p) values in
  ask! values := put_checked "memory_gb" positiveDecimal (p_memory_gb p) values in
  ask! values := put_checked "vram_gb" positiveDecimal (p_vram_gb p) values in
  ask! values := put_checked "memory_fraction" fraction (p_memory_fraction p) values in
  if 1 <? nnodes intent then
    match p_head_addr p with
    | Some head =>
        ask! _ := refuse_unless (match fabricId intent with Some (_ :: _) => true | _ => false end) "fabricId" in
        ask! _ := refuse_unless (isFabricIp head) "placeholders.head_addr" in
        ask! _ := refuse_unless
                    (match launch_fabric launch with
                     | None => true
                     | Some f => bool_decide (fabricName = Some f)
                     end) "fabricId" in
        inr (map_set (js "head_addr") head values, NODE_LOCAL_PLACEHOLDERS)
    | None => inl (js "fabricId")
    end
  else match p_head_addr p with
       | Some _ => inl (js "fabricId")
       | None => inr (values, [])
       end.

Record Rendered : Type := { r_text : jstr; r_fills : list NodeLocalPlaceholder; r_ambiguous : bool }.

Definition parts_of (command : RuntimeCommandLine) : list jstr :=
  match command with Text t => [t] | Argv args => args end.

Definition add_fills (fills more : list NodeLocalPlaceholder) : list NodeLocalPlaceholder :=
  fold_left (λ fs p, if bool_decide (p ∈ fs) then fs else fs ++ [p]) more fills.

Definition kept_size (kept : list NodeLocalPlaceholder) : Z :=
  fold_left (λ b p, b + (utf8Bytes (braced (local_name p)) - NODE_LOCAL_MIN_BYTES p)) kept 0.

Definition part_ambiguous (text : jstr) (kept : list NodeLocalPlaceholder) : bool :=
  (0 <? length kept)%nat
  && existsb (λ p, negb ((length (split (braced (local_name p)) text) - 1)
                         =? length (List.filter (λ q, bool_decide (q = p)) kept))%nat)
       NODE_LOCAL_PLACEHOLDERS.

(** The loop of [renderOne] over the parts: the rendered parts, the fills, the size, and
    whether a part is ambiguous. *)
Fixpoint render_parts (values : Values) (nodeLocal : list NodeLocalPlaceholder) (parts : list jstr)
    (rendered : list jstr) (fills : list NodeLocalPlaceholder) (bytes : Z) (ambiguous : bool)
  : checked (list jstr * list NodeLocalPlaceholder * Z * bool) :=
  match parts with
  | [] => inr (rendered, fills, bytes, ambiguous)
  | part :: parts' =>
      match substitute part values nodeLocal with
      | SubstMissing missing => inl (js "placeholders." ++ missing)
      | SubstOk text nodeFills kept =>
          render_parts values nodeLocal parts' (rendered ++ [text]) (add_fills fills nodeFills)
            (bytes + utf8Bytes text - kept_size kept) (ambiguous || part_ambiguous text kept)
      end
  end.

Definition renderOne (values : Values) (nodeLocal : list NodeLocalPlaceholder)
    (command : RuntimeCommandLine) (field : string) : checked Rendered :=
  let parts := parts_of command in
  ask! (rendered, fills, bytes, ambiguous) :=
    render_parts values nodeLocal parts [] [] (Z.of_nat (length parts) - 1) false in
  if RUNTIME_COMMAND_MAX_BYTES <? bytes then inl (js field)
  else inr {| r_text := match command with
                        | Text _ => default [] (head rendered)
                        | Argv _ => join (js " ") (displayArg <$> rendered)
                        end;
              r_fills := fills; r_ambiguous := ambiguous |}.

(** A command that must render too, when there is one. *)
Definition render_other (values : Values) (nodeLocal : list NodeLocalPlaceholder)
    (other : option RuntimeCommandLine) (field : string) : checked unit :=
  match other with
  | None => inr tt
  | Some command => ask! _ := renderOne values nodeLocal command field in inr tt
  end.

Definition render_phase (launch : RuntimeLaunch) (phase : StepCommandPhase) (intent : StepIntent)
    (p : StepJobPlaceholders) (fabricName : option jstr) : checked Rendered :=
  ask! c := check_identity launch phase intent in
  ask! (values, nodeLocal) := typed_values launch intent p fabricName in
  ask! command := match phaseCommand c phase with
                  | None => inr {| r_text := []; r_fills := []; r_ambiguous := false |}
                  | Some text => renderOne values nodeLocal text "command"
                  end in
  ask! _ := render_other values nodeLocal (c_stop c) "stop" in
  ask! _ := render_other values nodeLocal (c_status c) "status" in
  ask! _ := render_other values nodeLocal (c_health c) "health" in
  inr command.

Definition renderStepCommand (spec_launch : option RuntimeLaunch) (phase : StepCommandPhase)
    (intent : StepIntent) (p : StepJobPlaceholders) (fabricName : option jstr) : RenderedStepCommand :=
  match spec_launch with
  | None => Refused (js "runtimeId")
  | Some launch =>
      match render_phase launch phase intent p fabricName with
      | inl field => Refused field
      | inr command => if r_ambiguous command then Unavailable else Ready (r_text command) (r_fills command)
      end
  end.

Example render_e1 :
  let c := {| c_start := Argv [js "serve"; js "--port={{port}}"; js "it's {{node_rank}}"]; c_stop := None;
              c_prepare := None; c_afterJoin := None; c_status := None; c_health := None; c_interactive := None |} in
  let l := {| groupSize := 1; port_fixed := None; launch_fabric := None; commands := [c] |} in
  let i := {| rank := 0; nnodes := 1; fabricId := None; interactive := false |} in
  let p := {| p_port := 8001; p_dist_port := None; p_head_addr := None; p_gpu_ids := None; p_memory_gb := None;
              p_vram_gb := None; p_memory_fraction := None |} in
  renderStepCommand (Some l) START i p None = Ready (js "serve --port=8001 'it'\''s 0'") [].
Proof. vm_compute. reflexivity. Qed.

(** * The reference scanner *)

(** A template is read from left to right, once: a [{{name}}] is a hole, anything else is
    itself; a [{{] that opens no hole is two characters. *)
Inductive piece : Type := Ch (c : Z) | Hole (name : jstr).

Fixpoint name_run (s : jstr) : jstr * jstr :=
  match s with
  | c :: r => if name_char c then let '(n, t) := name_run r in (c :: n, t) else ([], s)
  | [] => ([], [])
  end.

(** A hole at the head of what follows [{{]: its name and the rest. *)
Definition hole_at (after : jstr) : option (jstr * jstr) :=
  let '(name, t) := name_run after in
  if negb (bool_decide (name = [])) && startsWith (js "}}") t then Some (name, drop 2 t) else None.

Fixpoint scan (fuel : nat) (s : jstr) : list piece :=
  match fuel, s with
  | S f, c :: r =>
      if startsWith (js "{{") s then
        match hole_at (drop 2 s) with
        | Some (name, rest) => Hole name :: scan f rest
        | None => Ch 123 :: Ch 123 :: scan f (drop 2 s)
        end
      else Ch c :: scan f r
  | _, _ => []
  end.

Definition pieces (text : jstr) : list piece := scan (length text) text.

Definition unpiece (p : piece) : jstr := match p with Ch c => [c] | Hole name => braced name end.

(** What a hole becomes: its value, or itself where the node fills it in. *)
Inductive filled : Type := Put (value : jstr) | Keep (p : NodeLocalPlaceholder) | NoValue.

Definition fill_hole (values : Values) (nodeLocal : list NodeLocalPlaceholder) (name : jstr) : filled :=
  match map_get name values with
  | Some value => Put value
  | None =>
      match isNodeLocal name with
      | Some p => if bool_decide (p ∈ nodeLocal) then Keep p else NoValue
      | None => NoValue
      end
  end.

Fixpoint fill (values : Values) (nodeLocal : list NodeLocalPlaceholder) (ps : list piece)
    (out : jstr) (kept : list NodeLocalPlaceholder) : SubstituteResult :=
  match ps with
  | [] => SubstOk out (set_of_list kept) kept
  | Ch c :: ps' => fill values nodeLocal ps' (out ++ [c]) kept
  | Hole name :: ps' =>
      match fill_hole values nodeLocal name with
      | Put value => fill values nodeLocal ps' (out ++ value) kept
      | Keep p => fill values nodeLocal ps' (out ++ braced name) (kept ++ [p])
      | NoValue => SubstMissing name
      end
  end.

Lemma name_run_spec s n t :
  name_run s = (n, t) → s = n ++ t ∧ forallb name_char n = true ∧ (∀ c, head t = Some c → name_char c = false).
Proof.
  revert n t; induction s as [|c s IH]; cbn [name_run]; intros n t; [by intros [= <- <-]|].
  destruct (name_char c) eqn:Hc; [|intros [= <- <-]; split_and!; [done..|by intros ? [= <-]]].
  destruct (name_run s) as [n' t']. intros [= <- <-].
  destruct (IH n' t' eq_refl) as (-> & H1 & H2). cbn. by rewrite Hc H1.
Qed.

(** The run of name characters before a brace is the whole name. *)
Lemma name_run_app n t :
  forallb name_char n = true → name_run (n ++ 125 :: t) = (n, 125 :: t).
Proof.
  induction n as [|c n IH]; cbn [forallb name_run app]; [done|].
  intros [-> H]%andb_true_iff. by rewrite (IH H).
Qed.

Lemma hole_at_length after name rest :
  hole_at after = Some (name, rest) → (length rest < length after)%nat.
Proof.
  rewrite /hole_at. destruct (name_run after) as [n t] eqn:E. apply name_run_spec in E as (-> & _ & _).
  destruct (_ && _) eqn:Hb; [|done]. intros [= <- <-].
  apply andb_true_iff in Hb as [_ [t' ->]%startsWith_spec]. rewrite !length_app /= length_drop. cbn. lia.
Qed.

Lemma scan_cons f c r :
  scan (S f) (c :: r) =
  if startsWith (js "{{") (c :: r) then
    match hole_at (drop 2 (c :: r)) with
    | Some (name, rest) => Hole name :: scan f rest
    | None => Ch 123 :: Ch 123 :: scan f (drop 2 (c :: r))
    end
  else Ch c :: scan f r.
Proof. done. Qed.

Lemma scan_fuel f1 f2 s : (length s ≤ f1)%nat → (length s ≤ f2)%nat → scan f1 s = scan f2 s.
Proof.
  revert f2 s; induction f1 as [|f1 IH]; intros f2 s H1 H2; destruct s as [|c s]; cbn [length] in *;
    [by destruct f2|lia|by destruct f2|].
  destruct f2 as [|f2]; [lia|]. rewrite !scan_cons.
  destruct (startsWith _ _) eqn:Hs; [|f_equal; apply IH; lia].
  assert (length (drop 2 (c :: s)) < S (length s))%nat by (rewrite length_drop; cbn; lia).
  destruct (hole_at _) as [[name rest]|] eqn:Hh.
  - apply hole_at_length in Hh. f_equal. apply IH; lia.
  - do 2 f_equal. apply IH; lia.
Qed.

Lemma pieces_cons c s :
  startsWith (js "{{") (c :: s) = false → pieces (c :: s) = Ch c :: pieces s.
Proof. intros H. rewrite /pieces. cbn [length]. by rewrite scan_cons H. Qed.

Lemma pieces_open after :
  pieces (js "{{" ++ after) = match hole_at after with
                              | Some (name, rest) => Hole name :: pieces rest
                              | None => Ch 123 :: Ch 123 :: pieces after
                              end.
Proof.
  pose proof (startsWith_app (js "{{") after) as Hs. rewrite {1}/pieces.
  change (js "{{" ++ after) with (123 :: 123 :: after) in *. cbn [length]. rewrite scan_cons Hs.
  change (drop 2 (123 :: 123 :: after)) with after.
  destruct (hole_at after) as [[name rest]|] eqn:Hh.
  - apply hole_at_length in Hh. f_equal. apply scan_fuel; lia.
  - do 2 f_equal. apply scan_fuel; lia.
Qed.

(** Before the first [{{] every character is itself. *)
Lemma pieces_before s i :
  indexOf (js "{{") s = Some i → pieces s = (Ch <$> take i s) ++ pieces (drop i s).
Proof.
  revert i; induction s as [|c s IH]; intros i; rewrite indexOf_unfold; destruct (startsWith _ _) eqn:Hs;
    intros H; simplify_eq/=; [done|].
  apply fmap_Some in H as (j & Hj & ->). rewrite pieces_cons //. cbn. by rewrite (IH j Hj).
Qed.

Lemma pieces_none s : indexOf (js "{{") s = None → pieces s = Ch <$> s.
Proof.
  induction s as [|c s IH]; [done|]. rewrite indexOf_unfold. destruct (startsWith _ _) eqn:Hs; [done|].
  intros H%fmap_None. rewrite pieces_cons // IH //.
Qed.

(** A hole needs a closing [}}]. *)
Lemma pieces_unclosed s : indexOf (js "}}") s = None → pieces s = Ch <$> s.
Proof.
  remember (length s) as n eqn:Hn. revert s Hn. induction n as [n IH] using lt_wf_ind; intros s -> H.
  destruct s as [|c s]; [done|]. destruct (startsWith (js "{{") (c :: s)) eqn:Hs.
  - apply startsWith_spec in Hs as [t Ht]. rewrite Ht in H IH *. rewrite pieces_open.
    do 2 apply indexOf_None_tail in H.
    assert (hole_at t = None) as ->.
    { rewrite /hole_at. destruct (name_run t) as [m u] eqn:E. apply name_run_spec in E as (-> & _ & _).
      destruct (startsWith _ u) eqn:Hu; [|by rewrite andb_false_r].
      exfalso. clear -H Hu. induction m as [|d m IHm]; cbn [app] in H.
      - by rewrite indexOf_unfold Hu in H.
      - by apply indexOf_None_tail, IHm in H. }
    cbn [app fmap list_fmap js]. by rewrite (IH (length t)); [cbn; lia| | |].
  - rewrite pieces_cons // (IH (length s)) //; [cbn; lia|]. by eapply indexOf_None_tail.
Qed.

Lemma fill_chars values nodeLocal l ps out kept :
  fill values nodeLocal ((Ch <$> l) ++ ps) out kept = fill values nodeLocal ps (out ++ l) kept.
Proof.
  revert out; induction l as [|c l IH]; intros out; cbn; [by rewrite app_nil_r|].
  rewrite IH. by rewrite -app_assoc.
Qed.

(** After an opening [{{] with a closing [}}], the scanner and the name test agree. *)
Lemma hole_at_end after i :
  indexOf (js "}}") after = Some i →
  hole_at after = if placeholder_name (take i after) then Some (take i after, drop (i + 2) after) else None.
Proof.
  intros Hi. pose proof (indexOf_Some _ _ _ Hi) as Ea. pose proof (indexOf_bound _ _ _ Hi) as Hl.
  rewrite /placeholder_name. destruct (forallb name_char (take i after)) eqn:Hn; cbn [andb].
  - rewrite /hole_at. rewrite {1}Ea. change (js "}}" ++ ?t) with (125 :: 125 :: t).
    rewrite name_run_app //. change (length (js "}}")) with 2%nat.
    change (startsWith (js "}}") (125 :: 125 :: ?t)) with true. rewrite andb_true_r.
    by destruct (bool_decide _).
  - rewrite /hole_at. destruct (name_run after) as [n t] eqn:E. apply name_run_spec in E as (-> & H1 & _).
    destruct (startsWith (js "}}") t) eqn:Ht; [|by rewrite andb_false_r].
    apply startsWith_spec in Ht as [u ->].
    assert (i = length n) as ->; [|by rewrite take_app_length H1 in Hn].
    clear -Hi H1. revert i Hi. induction n as [|c n IH]; intros i Hi.
    { rewrite indexOf_unfold startsWith_app in Hi. by simplify_eq. }
    cbn [forallb] in H1. apply andb_true_iff in H1 as [Hc H1].
    rewrite indexOf_unfold in Hi. cbn [app] in Hi.
    destruct (startsWith _ _) eqn:Hs.
    { apply startsWith_spec in Hs as [? [= -> _]]. done. }
    apply fmap_Some in Hi as (j & Hj & ->). by rewrite (IH H1 j Hj).
Qed.

Lemma substitute_go_fill fuel values nodeLocal out rest kept :
  (length rest ≤ fuel)%nat →
  substitute_go fuel values nodeLocal out rest kept = fill values nodeLocal (pieces rest) out kept.
Proof.
  revert out rest kept; induction fuel as [|fuel IH]; intros out rest kept Hf.
  { destruct rest; [|cbn in Hf; lia]. cbn. by rewrite app_nil_r. }
  cbn [substitute_go]. destruct (indexOf (js "{{") rest) as [start|] eqn:Hs.
  2: { rewrite pieces_none // -(app_nil_r (Ch <$> rest)) fill_chars. done. }
  pose proof (indexOf_Some _ _ _ Hs) as Er. pose proof (indexOf_bound _ _ _ Hs) as Hl.
  change (length (js "{{")) with 2%nat in *.
  set (after := drop (start + 2) rest) in *.
  assert (drop start rest = js "{{" ++ after) as Ed.
  { rewrite {1}Er. rewrite drop_app_length'; [|done]. rewrite length_take. lia. }
  assert (length after < length rest)%nat by (subst after; rewrite length_drop; lia).
  rewrite (pieces_before _ _ Hs) fill_chars Ed pieces_open.
  destruct (indexOf (js "}}") after) as [end_|] eqn:He.
  2: { rewrite -pieces_open pieces_unclosed; [|by rewrite -(app_nil_r (Ch <$> _)) fill_chars].
       change (js "{{" ++ after) with (123 :: 123 :: after). rewrite indexOf_unfold.
       change (startsWith _ _) with false. cbn [negb]. rewrite indexOf_unfold.
       change (startsWith _ _) with false. by rewrite He. }
  rewrite (hole_at_end _ _ He). destruct (placeholder_name _).
  - assert (length (drop (end_ + 2) after) ≤ fuel)%nat by (rewrite length_drop; lia).
    cbn [fill]. rewrite /fill_hole. destruct (map_get _ values); [by apply IH|].
    destruct (isNodeLocal _) as [p|]; [|done]. destruct (bool_decide _); [by apply IH|done].
  - cbn [fill]. rewrite -(app_assoc _ [123] [123]). apply IH. lia.
Qed.

(** [substitute] is the reference: the template is scanned once from left to right, a
    [{{name}}] is replaced by its value (or kept where the node fills it in, or the result names
    the first one without a value), everything else stays as it is; values are never scanned
    again. The scan loses nothing: its pieces put together are the template. *)
Theorem substitute_reference (text : jstr) (values : Values) (nodeLocal : list NodeLocalPlaceholder) :
  substitute text values nodeLocal = fill values nodeLocal (pieces text) [] [] ∧
  concat (unpiece <$> pieces text) = text.
Proof.
  split; [by apply substitute_go_fill|].
  remember (length text) as n eqn:Hn. revert text Hn.
  induction n as [n IH] using lt_wf_ind; intros text ->.
  destruct text as [|c s]; [done|]. destruct (startsWith (js "{{") (c :: s)) eqn:Hs.
  2: { rewrite pieces_cons //. cbn. rewrite (IH (length s)) //. cbn; lia. }
  apply startsWith_spec in Hs as [after Ht]. rewrite Ht in IH *. rewrite pieces_open.
  rewrite length_app in IH. change (length (js "{{")) with 2%nat in IH.
  destruct (hole_at after) as [[name rest]|] eqn:Hh.
  - pose proof (hole_at_length _ _ _ Hh) as Hl. cbn [fmap list_fmap concat unpiece].
    rewrite (IH (length rest)) //; [lia|].
    rewrite /hole_at in Hh. destruct (name_run after) as [m t] eqn:E.
    apply name_run_spec in E as (-> & _ & _). destruct (_ && _) eqn:Hb; [|done].
    apply andb_true_iff in Hb as [_ [u ->]%startsWith_spec]. injection Hh as <- <-.
    rewrite /braced. change (drop 2 (js "}}" ++ u)) with u. by rewrite -!app_assoc.
  - change (js "{{" ++ after) with ([123] ++ [123] ++ after). cbn [fmap list_fmap concat unpiece].
    rewrite (IH (length after)) //. lia.
Qed.

(** * The values put in *)

(** The characters of numbers, lists of numbers and addresses; none means anything to a shell. *)
Definition inert (c : Z) : bool :=
  is_digit c || in_range 97 102 c || (c =? 44) || (c =? 46) || (c =? 58).

Definition inert_text (v : jstr) : Prop := v ≠ [] ∧ ∀ c, In c v → inert c = true.

Definition inert_values (values : Values) : Prop :=
  ∀ name v, map_get name values = Some v → inert_text v.

Lemma inert_put name v values : inert_text v → inert_values values → inert_values (map_set name v values).
Proof.
  intros Hv Hs n w. rewrite map_get_set. case_decide; [by intros [= <-]|apply Hs].
Qed.

Lemma inert_digit c : is_digit c = true → inert c = true.
Proof. rewrite /inert. by intros ->. Qed.

Lemma inert_int n : 0 ≤ n → inert_text (str_of_int n).
Proof.
  intros Hn. split; [by apply toString_digits|]. intros c Hc. by apply inert_digit, (str_of_int_digits n).
Qed.

Lemma digits_prefix_spec s d t : digits_prefix s = (d, t) → s = d ++ t ∧ forallb is_digit d = true.
Proof.
  revert d t; induction s as [|c s IH]; cbn [digits_prefix]; intros d t; [by intros [= <- <-]|].
  destruct (is_digit c) eqn:Hc; [|by intros [= <- <-]].
  destruct (digits_prefix s) as [d' t']. intros [= <- <-].
  destruct (IH d' t' eq_refl) as [-> H]. cbn [forallb app]. by rewrite Hc H.
Qed.

Lemma inert_decimal v : positiveDecimal v = true → inert_text v.
Proof.
  rewrite /positiveDecimal /canonicalDecimal. destruct (digits_prefix v) as [d t] eqn:E.
  apply digits_prefix_spec in E as [-> Hd]. rewrite forallb_forall in Hd.
  intros [[[Hw Ht]%andb_true_iff _]%andb_true_iff _]%andb_true_iff. split; [by destruct d|].
  intros c [Hc|Hc]%in_app_or; [by apply inert_digit, Hd|].
  destruct t as [|x frac]; [done|].
  apply andb_true_iff in Ht as [[[Hx Hf]%andb_true_iff _]%andb_true_iff _].
  destruct Hc as [<-|Hc]; [by apply Z.eqb_eq in Hx as ->|].
  rewrite forallb_forall in Hf. by apply inert_digit, Hf.
Qed.

Lemma inert_fraction v : fraction v = true → inert_text v.
Proof. rewrite /fraction. intros [? _]%andb_true_iff. by apply inert_decimal. Qed.

Lemma gpuIds_go_parts parts seen : gpuIds_go parts seen = true → Forall (λ p, gpuIds_part p = true) parts.
Proof.
  revert seen; induction parts as [|p parts IH]; intros seen; cbn [gpuIds_go]; [constructor|].
  destruct (gpuIds_part p) eqn:Hp; [|done]. destruct (bool_decide _); [done|]. cbn.
  intros H. constructor; [done|by eapply IH].
Qed.

Lemma inert_gpuIds v : gpuIds v = true → inert_text v.
Proof.
  rewrite /gpuIds. destruct (str_eqb v []) eqn:E; [done|]. destruct (_ <? _)%nat; [done|].
  intros H%gpuIds_go_parts. split; [by intros ->|].
  rewrite -(join_split (js ",") v) //. intros c [[<-|[]]|(s & Hs & Hc)]%join_In; [done|].
  rewrite Forall_forall in H. apply list_elem_of_In, H in Hs. apply inert_digit.
  rewrite /gpuIds_part in Hs. apply andb_true_iff in Hs as [[Hs|Hs]%orb_true_iff _].
  { apply str_eqb_eq in Hs as ->. by destruct Hc as [<-|[]]. }
  destruct s as [|x r]; [done|].
  apply andb_true_iff in Hs as [[Hx Hr]%andb_true_iff _]. destruct Hc as [<-|Hc].
  - rewrite /is_digit19 /is_digit /in_range in Hx *. bool_to_prop. lia.
  - rewrite forallb_forall in Hr. auto.
Qed.

Lemma inert_hex_join groups c :
  Forall (λ g, 0 ≤ g < 65536) groups → In c (join [58] (toString 16 <$> groups)) → inert c = true.
Proof.
  intros Hg [[<-|[]]|(s & (g & <- & Hin)%in_map_iff & Hc)]%join_In; [done|].
  rewrite Forall_forall in Hg. apply list_elem_of_In, Hg in Hin.
  destruct (toString_digits 16 g) as [_ H]; [lia..|]. destruct (H c Hc) as (d & -> & Hd).
  rewrite /inert /digit_char /is_digit /in_range. case_match; bool_to_prop; lia.
Qed.

Lemma inert_ip v : isFabricIp v = true → inert_text v.
Proof.
  rewrite /isFabricIp. destruct (parseCanonicalIp v) as [ip|] eqn:E; [|done]. intros _.
  split; [by intros ->|]. intros c. apply parse_canonical_sound in E as [Hw ->].
  destruct ip as [os|gs]; destruct Hw as [_ Hw]; cbn [ip_print].
  - intros [[<-|[]]|(s & (o & <- & Ho)%in_map_iff & Hc)]%join_In; [done|].
    rewrite Forall_forall in Hw. apply list_elem_of_In, Hw in Ho. apply (inert_int o); [lia|done].
  - rewrite /rfc5952. destruct (longest_zero_run _) as [bs bl]. change (js ":") with [58].
    case_match; [|by apply inert_hex_join]. rewrite -fmap_take -fmap_drop.
    intros [Hc|[Hc|Hc]%in_app_or]%in_app_or.
    + eapply inert_hex_join; [by apply Forall_take|done].
    + by destruct Hc as [<-|[<-|[]]].
    + eapply inert_hex_join; [by apply Forall_drop|done].
Qed.

Lemma put_checked_inert name ok v values values' :
  (∀ s, ok s = true → inert_text s) →
  put_checked name ok v values = inr values' → inert_values values → inert_values values'.
Proof.
  intros Hok. rewrite /put_checked. destruct v as [v|]; [|by intros [= <-]].
  destruct (ok v) eqn:E; [|done]. intros [= <-] ?. apply inert_put; auto.
Qed.

(** What the job frame's schema guarantees of an intent. *)
Definition intent_wf (intent : StepIntent) : Prop := 0 ≤ rank intent ∧ 1 ≤ nnodes intent.

Lemma checked_bind_inr {A B} (m : checked A) (k : A → checked B) b :
  checked_bind m k = inr b → ∃ a, m = inr a ∧ k a = inr b.
Proof. destruct m; [done|]. eauto. Qed.

Lemma typed_values_inert launch intent p fab values nodeLocal :
  intent_wf intent → typed_values launch intent p fab = inr (values, nodeLocal) → inert_values values.
Proof.
  intros [Hr Hn]. rewrite /typed_values.
  intros H. apply checked_bind_inr in H as (? & Hport & H).
  apply checked_bind_inr in H as (v1 & H1 & H). apply checked_bind_inr in H as (v2 & H2 & H).
  apply checked_bind_inr in H as (v3 & H3 & H). apply checked_bind_inr in H as (v4 & H4 & H).
  apply checked_bind_inr in H as (v5 & H5 & H).
  assert (0 ≤ p_port p).
  { rewrite /refuse_unless /port_range in Hport. case_match; [|done]. bool_to_prop. lia. }
  assert (inert_values v1) as I1.
  { assert (inert_values (map_set (js "port") (str_of_int (p_port p))
      (map_set (js "nnodes") (str_of_int (nnodes intent)) (map_set (js "node_rank") (str_of_int (rank intent)) [])))) as I0.
    { repeat (apply inert_put; [apply inert_int; lia|]). done. }
    destruct (p_dist_port p) as [d|]; [|by apply (inj inr) in H1 as <-].
    destruct (_ || _) eqn:E; [done|]. apply (inj inr) in H1 as <-.
    apply inert_put; [|done]. apply inert_int. rewrite /port_range in E. bool_to_prop. lia. }
  apply (put_checked_inert _ _ _ _ _ inert_gpuIds) in H2; [|done].
  apply (put_checked_inert _ _ _ _ _ inert_decimal) in H3; [|done].
  apply (put_checked_inert _ _ _ _ _ inert_decimal) in H4; [|done].
  apply (put_checked_inert _ _ _ _ _ inert_fraction) in H5; [|done].
  destruct (1 <? nnodes intent), (p_head_addr p) as [head|]; try done; [|by injection H as <- _].
  apply checked_bind_inr in H as (? & _ & H). apply checked_bind_inr in H as (? & Hip & H).
  apply checked_bind_inr in H as (? & _ & [= <- _]).
  apply inert_put; [|done]. apply inert_ip. rewrite /refuse_unless in Hip. by case_match.
Qed.

(** * Reading a shown command back *)

(** The characters POSIX gives a meaning outside quotes (XCU 2.2), wherever they stand, besides
    the space, the single quote and the backslash read below: tab, newline, [|], [&], [;], [<],
    [>], the parentheses, [$], the back quote, the double quote, and for patterns, comments, home
    directories and negation [*], [?], the brackets, [#], [~], [!] and [^]. *)
Definition sh_special (c : Z) : bool :=
  bool_decide (c ∈ [9; 10; 124; 38; 59; 60; 62; 40; 41; 36; 96; 34; 42; 63; 91; 93; 35; 126; 33; 94]).

(** How a POSIX shell splits a line into words and removes the quotes: spaces separate, single
    quotes keep everything, a backslash keeps the next character, a character without meaning
    stands for itself. A character with another meaning makes the reading fail: the words would
    not be the text. *)
Fixpoint sh_lex (s : jstr) (quoted : bool) (cur : option jstr) : option (list jstr) :=
  match s with
  | [] => if quoted then None else Some (match cur with Some w => [w] | None => [] end)
  | c :: r =>
      if quoted then
        if c =? chr_quote then sh_lex r false cur else sh_lex r true (Some (default [] cur ++ [c]))
      else if c =? 32 then
        match cur with
        | Some w => cons w <$> sh_lex r false None
        | None => sh_lex r false None
        end
      else if c =? chr_quote then sh_lex r true (Some (default [] cur))
      else if c =? chr_backslash then
        match r with
        | [] => None
        | d :: r' => if d =? 10 then None else sh_lex r' false (Some (default [] cur ++ [d]))
        end
      else if sh_special c then None
      else sh_lex r false (Some (default [] cur ++ [c]))
  end.

Definition sh_words (s : jstr) : option (list jstr) := sh_lex s false None.

Lemma plain_not_special c :
  plain_char c = true → (c =? 32) = false ∧ (c =? chr_quote) = false ∧ (c =? chr_backslash) = false ∧ sh_special c = false.
Proof.
  intros H. split_and!; [apply Z.eqb_neq; intros ->; vm_compute in H; done..|].
  apply not_true_is_false. intros Hin%bool_decide_eq_true%list_elem_of_In.
  assert (Hall : forallb (λ c, negb (plain_char c)) [9; 10; 124; 38; 59; 60; 62; 40; 41; 36; 96; 34; 42; 63; 91; 93; 35; 126; 33; 94] = true)
    by by vm_compute.
  rewrite forallb_forall in Hall. specialize (Hall c Hin). by rewrite H in Hall.
Qed.

Lemma sh_lex_plain a rest cur :
  forallb plain_char a = true → a ≠ [] →
  sh_lex (a ++ rest) false cur = sh_lex rest false (Some (default [] cur ++ a)).
Proof.
  revert cur; induction a as [|c a IH]; intros cur Ha Hne; [done|].
  cbn [forallb] in Ha. apply andb_true_iff in Ha as [Hc Ha].
  destruct (plain_not_special c Hc) as (E1 & E2 & E3 & E4).
  cbn [app sh_lex]. rewrite E1 E2 E3 E4. destruct a as [|d a]; [done|].
  rewrite IH //. cbn [default]. by rewrite -app_assoc.
Qed.

Lemma sh_lex_quoted a rest w :
  sh_lex (escape_quotes a ++ chr_quote :: rest) true (Some w) = sh_lex rest false (Some (w ++ a)).
Proof.
  revert w; induction a as [|c a IH]; intros w.
  { cbn [escape_quotes List.flat_map app sh_lex]. rewrite Z.eqb_refl app_nil_r. done. }
  change (escape_quotes (c :: a)) with
    ((if c =? chr_quote then [chr_quote; chr_backslash; chr_quote; chr_quote] else [c]) ++ escape_quotes a).
  rewrite (cons_middle c w a) app_assoc. destruct (c =? chr_quote) eqn:E.
  - apply Z.eqb_eq in E as ->. rewrite -IH. reflexivity.
  - rewrite -IH. cbn [app sh_lex]. by rewrite E.
Qed.

Lemma sh_lex_arg a rest : sh_lex (displayArg a ++ rest) false None = sh_lex rest false (Some a).
Proof.
  rewrite /displayArg. destruct (_ && _) eqn:E.
  - apply andb_true_iff in E as [E1 E2]. rewrite sh_lex_plain //. by destruct a.
  - cbn [app]. rewrite -app_assoc. apply (sh_lex_quoted a rest []).
Qed.

Lemma sh_words_args args : sh_words (join (js " ") (displayArg <$> args)) = Some args.
Proof.
  rewrite /sh_words. induction args as [|a args IH]; [done|].
  destruct args as [|b args].
  - cbn [fmap list_fmap join]. by rewrite -(app_nil_r (displayArg a)) sh_lex_arg.
  - change (displayArg <$> a :: b :: args) with (displayArg a :: (displayArg <$> b :: args)).
    change (join _ (displayArg a :: ?l)) with (displayArg a ++ js " " ++ join (js " ") l).
    rewrite sh_lex_arg. cbn [js app sh_lex].
    change (sh_lex (js " " ++ ?t) false (Some a)) with (cons a <$> sh_lex t false None).
    by rewrite IH.
Qed.

(** * The size of a rendered command *)

(** The node's text: every hole has its value, or the node's own. *)
Fixpoint node_text (values : Values) (own : NodeLocalPlaceholder → jstr) (ps : list piece) : option jstr :=
  match ps with
  | [] => Some []
  | Ch c :: ps' => cons c <$> node_text values own ps'
  | Hole name :: ps' =>
      match map_get name values, isNodeLocal name with
      | Some v, _ => app v <$> node_text values own ps'
      | None, Some p => app (own p) <$> node_text values own ps'
      | None, None => None
      end
  end.

Definition own_ok (own : NodeLocalPlaceholder → jstr) : Prop :=
  ∀ p, NODE_LOCAL_MIN_BYTES p ≤ Z.of_nat (length (own p)) ∧ ∀ c, In c (own p) → 0 ≤ c < 128.

(** How much longer the node's own values are than the shortest ones. *)
Fixpoint own_excess (own : NodeLocalPlaceholder → jstr) (kept : list NodeLocalPlaceholder) : Z :=
  match kept with
  | [] => 0
  | p :: kept' => Z.of_nat (length (own p)) - NODE_LOCAL_MIN_BYTES p + own_excess own kept'
  end.

Lemma own_excess_app own k1 k2 : own_excess own (k1 ++ k2) = own_excess own k1 + own_excess own k2.
Proof. induction k1 as [|p k1 IH]; cbn [app own_excess]; lia. Qed.

Lemma own_excess_nonneg own kept : own_ok own → 0 ≤ own_excess own kept.
Proof. intros Ho. induction kept as [|p kept IH]; cbn [own_excess]; [lia|]. pose proof (proj1 (Ho p)). lia. Qed.

Definition low_head (s : jstr) : bool := default false (in_range 56320 57343 <$> head s).

Lemma utf8_weight_low c s t : low_head s = low_head t → utf8_weight c (head s) = utf8_weight c (head t).
Proof. rewrite /utf8_weight /low_head. by intros ->. Qed.

Lemma low_head_ascii a t : a ≠ [] → (∀ c, In c a → c < 128) → low_head (a ++ t) = false.
Proof.
  destruct a as [|c a]; [done|]. intros _ Ha. specialize (Ha c (or_introl eq_refl)).
  rewrite /low_head /= /in_range. bool_to_prop. lia.
Qed.

Lemma inert_ascii c : inert c = true → c < 128.
Proof. rewrite /inert /is_digit /in_range. intros. bool_to_prop. lia. Qed.

Lemma isNodeLocal_name name p : isNodeLocal name = Some p → name = local_name p.
Proof. rewrite /isNodeLocal. intros [_ H]%List.find_some. by apply str_eqb_eq in H. Qed.

Lemma kept_size_cons p kept :
  kept_size (p :: kept) = utf8Bytes (braced (local_name p)) - NODE_LOCAL_MIN_BYTES p + kept_size kept.
Proof.
  rewrite /kept_size. cbn [fold_left].
  rewrite (fold_add_acc (λ p, utf8Bytes (braced (local_name p)) - NODE_LOCAL_MIN_BYTES p)). lia.
Qed.

(** The rendered text and the node's text of the same pieces. *)
Lemma fill_size values nodeLocal own ps out kept text fills kept' :
  inert_values values → own_ok own →
  fill values nodeLocal ps out kept = SubstOk text fills kept' →
  ∃ t t' k, text = out ++ t ∧ kept' = kept ++ k ∧ node_text values own ps = Some t' ∧
    low_head t = low_head t' ∧ utf8Bytes t' = utf8Bytes t - kept_size k + own_excess own k.
Proof.
  intros Hv Ho. revert out kept; induction ps as [|[c|name] ps IH]; intros out kept; cbn [fill node_text].
  - intros [= <- _ <-]. exists [], [], []. by rewrite !app_nil_r.
  - intros (t & t' & k & -> & -> & -> & Hlow & Hb)%IH. exists (c :: t), (c :: t'), k.
    rewrite -app_assoc !utf8Bytes_cons (utf8_weight_low c t t') //. split_and!; [done..|lia].
  - rewrite /fill_hole. destruct (map_get name values) as [v|] eqn:Hm.
    + destruct (Hv _ _ Hm) as [Hne Hi]. assert (∀ c, In c v → c < 128) as Ha by (intros; by apply inert_ascii, Hi).
      intros (t & t' & k & -> & -> & -> & Hlow & Hb)%IH. exists (v ++ t), (v ++ t'), k.
      rewrite -app_assoc !utf8Bytes_ascii // !low_head_ascii //. split_and!; [done..|lia].
    + destruct (isNodeLocal name) as [p|] eqn:Hp; [|done]. destruct (bool_decide _); [|done].
      apply isNodeLocal_name in Hp as ->.
      intros (t & t' & k & -> & -> & -> & Hlow & Hb)%IH.
      exists (braced (local_name p) ++ t), (own p ++ t'), (p :: k).
      destruct (Ho p) as [Hmin Hasc].
      assert (∀ c, In c (own p) → c < 128) by (intros c Hc; apply Hasc in Hc; lia).
      assert (own p ≠ []) by (intros E; rewrite E in Hmin; destruct p; cbn in Hmin; lia).
      assert (∀ c, In c (braced (local_name p)) → c < 128).
      { assert (forallb (λ c, c <? 128) (braced (local_name p)) = true) as Hbr by (by destruct p).
        intros c Hc. rewrite forallb_forall in Hbr. apply Z.ltb_lt. auto. }
      assert (braced (local_name p) ≠ []) by done.
      rewrite kept_size_cons. move: (braced (local_name p)) H1 H2 => b H1 H2.
      rewrite -!app_assoc !low_head_ascii // !utf8Bytes_ascii //.
      cbn [own_excess]. pose proof (utf8Bytes_ascii b [] H1) as Hbr. rewrite app_nil_r in Hbr.
      split_and!; [done..|]. cbn [utf8Bytes] in Hbr. lia.
Qed.

(** The whole command: the size the check uses is the size of the node's text with the shortest
    values it can put in, plus what its own values have more. *)
Lemma render_parts_size values nodeLocal parts rendered fills bytes ambiguous rendered' fills' bytes' ambiguous' :
  inert_values values →
  render_parts values nodeLocal parts rendered fills bytes ambiguous = inr (rendered', fills', bytes', ambiguous') →
  ∃ new kept, rendered' = rendered ++ new ∧
    Forall2 (λ part text, ∃ fs ks, substitute part values nodeLocal = SubstOk text fs ks) parts new ∧
    ∀ own, own_ok own → ∃ texts, mapM (λ part, node_text values own (pieces part)) parts = Some texts ∧
      fold_left (λ b t, b + utf8Bytes t) texts bytes = bytes' + own_excess own kept.
Proof.
  intros Hv. revert rendered fills bytes ambiguous.
  induction parts as [|part parts IH]; intros rendered fills bytes ambiguous; cbn [render_parts].
  { intros [= <- _ <- _]. exists [], []. rewrite app_nil_r. split_and!; [done|constructor|].
    intros own _. exists []. cbn. split; [done|lia]. }
  destruct (substitute part values nodeLocal) as [text fs ks|] eqn:Hs; [|done].
  intros (new & kept & -> & Hf & Hown)%IH. exists (text :: new), (ks ++ kept).
  split_and!; [by rewrite -app_assoc|constructor; eauto|].
  intros own Ho. destruct (Hown own Ho) as (texts & Hm & Hsum).
  rewrite /substitute substitute_go_fill // in Hs.
  destruct (fill_size _ _ own _ _ _ _ _ _ Hv Ho Hs) as (t & t' & k & -> & -> & Ht' & _ & Hb).
  exists (t' :: texts). cbn [mapM mbind option_bind]. rewrite Ht' Hm. cbn [mbind option_bind]. split; [done|].
  cbn [fold_left app] in *. rewrite own_excess_app.
  rewrite Hb (fold_add_acc utf8Bytes). rewrite (fold_add_acc utf8Bytes) in Hsum. lia.
Qed.

Lemma render_parts_total values nodeLocal parts rendered fills bytes ambiguous :
  Forall (λ part, ∃ t fs ks, substitute part values nodeLocal = SubstOk t fs ks) parts →
  ∃ r, render_parts values nodeLocal parts rendered fills bytes ambiguous = inr r.
Proof.
  intros H. revert rendered fills bytes ambiguous.
  induction H as [|part parts (t & fs & ks & Hs) _ IH]; intros; cbn [render_parts]; [eauto|].
  rewrite Hs. apply IH.
Qed.

Lemma utf8Bytes_join texts :
  texts ≠ [] →
  utf8Bytes (join (js " ") texts) = fold_left (λ b t, b + utf8Bytes t) texts (Z.of_nat (length texts) - 1).
Proof.
  induction texts as [|t texts IH]; intros Hne; [done|].
  destruct texts as [|u texts]; [cbn; lia|].
  change (join (js " ") (t :: u :: texts)) with (t ++ 32 :: join (js " ") (u :: texts)).
  rewrite utf8Bytes_cut; [lia|]. rewrite utf8Bytes_cons IH //. change (utf8_weight 32 _) with 1.
  rewrite (fold_add_acc utf8Bytes) (fold_add_acc utf8Bytes (t :: _)). cbn [fold_left length].
  rewrite (fold_add_acc utf8Bytes _ (0 + utf8Bytes u)) (fold_add_acc utf8Bytes _ (0 + utf8Bytes t + utf8Bytes u)). lia.
Qed.

(** The shortest values the node can put in. *)
Definition shortest (p : NodeLocalPlaceholder) : jstr := replicate (Z.to_nat (NODE_LOCAL_MIN_BYTES p)) 97.

Lemma shortest_ok : own_ok shortest.
Proof.
  intros p. rewrite /shortest length_replicate. split; [destruct p; cbn; lia|].
  intros c [-> _]%list_elem_of_In%elem_of_replicate. lia.
Qed.

Lemma shortest_excess kept : own_excess shortest kept = 0.
Proof.
  induction kept as [|p kept IH]; cbn [own_excess]; [done|]. rewrite IH /shortest length_replicate.
  destruct p; cbn; lia.
Qed.

(** The size check is exact: a command whose placeholders all have a value (or are the
    node's to fill) is accepted if and only if the node can fill its own values in so that the
    rendered arguments, joined with spaces, are at most 4096 bytes of UTF-8. So a refusal for size
    is never wrong, and without node-filled values the shown text itself is within the limit. *)
Theorem size_check_exact (values : Values) (nodeLocal : list NodeLocalPlaceholder)
    (command : RuntimeCommandLine) (field : string) :
  inert_values values → parts_of command ≠ [] →
  Forall (λ part, ∃ t fs ks, substitute part values nodeLocal = SubstOk t fs ks) (parts_of command) →
  (∃ r, renderOne values nodeLocal command field = inr r) ↔
  ∃ own texts, own_ok own ∧ mapM (λ part, node_text values own (pieces part)) (parts_of command) = Some texts ∧
    utf8Bytes (join (js " ") texts) ≤ RUNTIME_COMMAND_MAX_BYTES.
Proof.
  intros Hv Hne Hp. rewrite /renderOne.
  destruct (render_parts_total values nodeLocal _ [] [] (Z.of_nat (length (parts_of command)) - 1) false Hp)
    as [[[[rendered fills] bytes] amb] Hr].
  rewrite Hr. cbn [checked_bind].
  destruct (render_parts_size _ _ _ _ _ _ _ _ _ _ _ Hv Hr) as (new & kept & _ & _ & Hown).
  assert (∀ own, own_ok own → ∃ texts, mapM (λ part, node_text values own (pieces part)) (parts_of command) = Some texts
    ∧ utf8Bytes (join (js " ") texts) = bytes + own_excess own kept) as Hsize.
  { intros own Ho. destruct (Hown own Ho) as (texts & Hm & Hs). exists texts. split; [done|].
    pose proof (length_mapM _ _ _ Hm) as Hl. rewrite utf8Bytes_join; [|by rewrite -Hl].
    by intros ->; destruct (parts_of command). }
  destruct (RUNTIME_COMMAND_MAX_BYTES <? bytes) eqn:E; bool_to_prop; split.
  - by intros [r ?].
  - intros (own & texts & Ho & Hm & Hle). destruct (Hsize own Ho) as (texts' & Hm' & Hs).
    pose proof (own_excess_nonneg own kept Ho). simplify_eq. lia.
  - intros _. destruct (Hsize shortest shortest_ok) as (texts & Hm & Hs).
    exists shortest, texts. split_and!; [apply shortest_ok|done|]. rewrite Hs shortest_excess. lia.
  - eauto.
Qed.

Lemma size_check_exact_witness :
  let values := map_set (js "port") (js "8001") [] in
  let command := Argv [js "serve"; js "--host={{fabric_ip}}"; js "-p{{port}}"] in
  ∃ r, renderOne values NODE_LOCAL_PLACEHOLDERS command "command" = inr r.
Proof.
  intros values command. apply (size_check_exact values NODE_LOCAL_PLACEHOLDERS command "command").
  - apply inert_put; [|done]. split; [done|]. intros c Hc. apply inert_digit.
    assert (forallb is_digit (js "8001") = true) as H by reflexivity. rewrite forallb_forall in H. auto.
  - done.
  - repeat (constructor; [eexists _, _, _; vm_compute; reflexivity|]). constructor.
  - eexists shortest, _. split; [apply shortest_ok|]. split; [vm_compute; reflexivity|].
    apply Z.leb_le. vm_compute. reflexivity.
Defined.

(** * What is shown is what runs *)

Lemma renderOne_inr values nodeLocal command field r :
  inert_values values → renderOne values nodeLocal command field = inr r →
  ∃ texts, Forall2 (λ part text, ∃ fs ks, fill values nodeLocal (pieces part) [] [] = SubstOk text fs ks)
             (parts_of command) texts ∧
    r_text r = match command with Text _ => default [] (head texts) | Argv _ => join (js " ") (displayArg <$> texts) end.
Proof.
  intros Hv. rewrite /renderOne. intros ([[[rendered fills] bytes] amb] & Hr & H)%checked_bind_inr.
  destruct (render_parts_size _ _ _ _ _ _ _ _ _ _ _ Hv Hr) as (new & kept & -> & Hf & _).
  destruct (RUNTIME_COMMAND_MAX_BYTES <? bytes); [done|]. injection H as <-. exists new. split; [|done].
  eapply Forall2_impl; [exact Hf|]. intros part text (fs & ks & Hs). exists fs, ks.
  by rewrite /substitute substitute_go_fill in Hs.
Qed.


