(* ===== verification/ReleaseVersion.v ===== *)
(** * ReleaseVersion: the order of wsmp release versions

    [packages/api/src/lib/agent-update-wire.ts]: which text is a release version
    ([agentReleaseVersionSchema]) and [compareReleaseVersions], which decides whether a node is
    behind the server, ahead of it, or may install what its Homebrew tap offers. The comparison is
    shown to be a total preorder of the release versions. *)
From Stdlib Require Import ssreflect.
From S2P Require Import Prelude JsString.

(** [agentReleaseVersionSchema]: at most 64 characters; three whole numbers separated by points,
    then nothing, or a minus or plus sign and at least one of the characters of [tail_char]. *)
Definition tail_char (c : Z) : bool :=
  is_digit c || is_upper c || is_lower c || (c =? 46) || (c =? 43) || (c =? 45).

Fixpoint before_sign (s : jstr) : jstr * jstr :=
  match s with
  | c :: r => if (c =? 45) || (c =? 43) then ([], s) else let '(a, b) := before_sign r in (c :: a, b)
  | [] => ([], [])
  end.

Definition agentReleaseVersion (value : jstr) : bool :=
  let '(core, tail) := before_sign value in
  let parts := split (js ".") core in
  (length value <=? 64)%nat && (length parts =? 3)%nat && forallb whole_text parts
  && match tail with
     | [] => true
     | _ :: r => forallb tail_char r && negb (bool_decide (r = []))
     end.

Record ReleaseVersion : Type := { core : list Z; pre : list jstr }.

(** [parse] of [compareReleaseVersions]. *)
Definition parse_release (value : jstr) : option ReleaseVersion :=
  if negb (agentReleaseVersion value) then None else
  let main := default [] (head (split (js "+") value)) in
  let '(c, p) := match indexOf (js "-") main with
                 | None => (main, None)
                 | Some i => (take i main, Some (drop (i + 1) main))
                 end in
  Some {| core := parse_digits 10 <$> split (js ".") c;
          pre := match p with Some p => split (js ".") p | None => [] end |}.

(** [order]: [x < y ? -1 : x > y ? 1 : 0]. *)
Definition order (x y : Z) : Z := if x <? y then -1 else if y <? x then 1 else 0.

(** The loop over the three numbers: [left.core[index] ?? 0n]. *)
Definition core_compare (l r : list Z) : Z :=
  num_or (order (default 0 (l !! 0%nat)) (default 0 (r !! 0%nat)))
    (num_or (order (default 0 (l !! 1%nat)) (default 0 (r !! 1%nat)))
            (order (default 0 (l !! 2%nat)) (default 0 (r !! 2%nat)))).

Definition numeric (s : jstr) : bool := forallb is_digit s && negb (bool_decide (s = [])).

(** One turn of the loop over the identifiers; 0 goes on. *)
Definition ident_compare (x y : jstr) : Z :=
  if str_eqb x y then 0
  else if numeric x && numeric y then order (parse_digits 10 x) (parse_digits 10 y)
  else if numeric x then -1
  else if numeric y then 1
  else if code_units_compare x y <? 0 then -1 else 1.

Fixpoint pre_compare (l r : list jstr) : Z :=
  match l, r with
  | [], [] => 0
  | [], _ :: _ => -1
  | _ :: _, [] => 1
  | x :: l', y :: r' => num_or (ident_compare x y) (pre_compare l' r')
  end.

Definition release_compare (left_ right_ : ReleaseVersion) : Z :=
  num_or (core_compare (core left_) (core right_))
    (if (length (pre left_) =? 0)%nat || (length (pre right_) =? 0)%nat
     then Z.sgn (Z.of_nat (length (pre right_)) - Z.of_nat (length (pre left_)))
     else pre_compare (pre left_) (pre right_)).

Definition compareReleaseVersions (a b : jstr) : option Z :=
  match parse_release a, parse_release b with
  | Some l, Some r => Some (release_compare l r)
  | _, _ => None
  end.

Example rv_e1 : compareReleaseVersions (js "0.4.4-rc.1") (js "0.4.4") = Some (-1)
  ∧ compareReleaseVersions (js "0.4.10") (js "0.4.9+b.1") = Some 1
  ∧ compareReleaseVersions (js "1.2.3-+b") (js "1.2.3") = Some (-1)
  ∧ compareReleaseVersions (js "1.2.3-01.a") (js "1.2.3-1.b") = Some (-1)
  ∧ compareReleaseVersions (js "01.2.3") (js "1.2.3") = None.
Proof. vm_compute. split_and!; reflexivity. Qed.

(** ** The order *)

#[export] Instance cmp_order_order : CmpOrder order.
Proof.
  split; unfold order; intros;
    repeat match goal with
      | |- context [?a <? ?b] => destruct (Z.ltb_spec a b)
      | H : context [?a <? ?b] |- _ => destruct (Z.ltb_spec a b)
      end; lia.
Qed.

#[export] Instance cmp_order_core : CmpOrder core_compare.
Proof. unfold core_compare. apply _. Qed.

(** Identifiers: numbers by value before all others, the others by code units. *)
Definition ident_rank (x : jstr) : Z := if numeric x then 0 else 1.
Definition ident_value (x : jstr) : Z := if numeric x then parse_digits 10 x else 0.
Definition ident_text (x : jstr) : jstr := if numeric x then [] else x.

Definition ident_lex (x y : jstr) : Z :=
  num_or (order (ident_rank x) (ident_rank y))
    (num_or (order (ident_value x) (ident_value y)) (code_units_compare (ident_text x) (ident_text y))).

Lemma code_units_compare_values x y :
  code_units_compare x y = -1 ∨ code_units_compare x y = 0 ∨ code_units_compare x y = 1.
Proof.
  revert y; induction x as [|a x IH]; intros [|b y]; cbn [code_units_compare]; [lia..|].
  rewrite /num_or /bigint_compare. specialize (IH y). repeat case_match; lia.
Qed.

Lemma code_units_compare_0 x y : code_units_compare x y = 0 → x = y.
Proof.
  revert y; induction x as [|a x IH]; intros [|b y]; cbn [code_units_compare]; [done..|].
  rewrite /num_or /bigint_compare. destruct (Z.eqb_spec a b) as [->|]; cbn.
  - intros H. by rewrite (IH y H).
  - destruct (a <? b); done.
Qed.

Lemma code_units_compare_refl x : code_units_compare x x = 0.
Proof. induction x as [|a x IH]; cbn; [done|]. by rewrite /bigint_compare Z.eqb_refl. Qed.

Lemma ident_compare_lex x y : ident_compare x y = ident_lex x y.
Proof.
  rewrite /ident_compare /ident_lex /ident_rank /ident_value /ident_text.
  destruct (str_eqb x y) eqn:E.
  { rewrite /str_eqb bool_decide_eq_true in E. subst y. rewrite /order !Z.ltb_irrefl /=.
    destruct (numeric x); [done|]. by rewrite code_units_compare_refl. }
  destruct (numeric x), (numeric y); cbn -[code_units_compare parse_digits order]; try done.
  - rewrite /num_or. by destruct (Z.eqb_spec (order (parse_digits 10 x) (parse_digits 10 y)) 0) as [->|].
  - rewrite /str_eqb bool_decide_eq_false in E.
    destruct (code_units_compare_values x y) as [->|[H| ->]]; [done| |done].
    by apply code_units_compare_0 in H.
Qed.

#[export] Instance cmp_order_ident : CmpOrder ident_compare.
Proof.
  assert (CmpOrder ident_lex) as H.
  { unfold ident_lex. repeat apply cmp_order_lex;
      [apply (cmp_order_contramap ident_rank), _|apply (cmp_order_contramap ident_value), _
      |apply (cmp_order_contramap ident_text), _]. }
  split; intros *; rewrite !ident_compare_lex; [apply cmp_antisym|apply cmp_le_trans].
Qed.

#[export] Instance cmp_order_pre : CmpOrder pre_compare.
Proof.
  split.
  - intros x. induction x as [|a x IH]; intros [|b y]; cbn [pre_compare]; try done.
    specialize (IH y). unfold num_or. pose proof (cmp_antisym (cmp:=ident_compare) a b).
    destruct (Z.eqb_spec (ident_compare b a) 0), (Z.eqb_spec (ident_compare a b) 0); lia.
  - intros x. induction x as [|a x IH]; intros [|b y] [|c z]; cbn [pre_compare]; try lia.
    specialize (IH y z). unfold num_or.
    pose proof (cmp_le_trans (cmp:=ident_compare) a b c).
    pose proof (cmp_lt_le_trans ident_compare a b c).
    pose proof (cmp_le_lt_trans ident_compare a b c).
    destruct (Z.eqb_spec (ident_compare a b) 0), (Z.eqb_spec (ident_compare b c) 0),
      (Z.eqb_spec (ident_compare a c) 0); lia.
Qed.

(** A release sorts after its pre-releases. *)
Definition pre_order (l r : list jstr) : Z :=
  if (length l =? 0)%nat || (length r =? 0)%nat
  then Z.sgn (Z.of_nat (length r) - Z.of_nat (length l))
  else pre_compare l r.

#[export] Instance cmp_order_pre_order : CmpOrder pre_order.
Proof.
  split; unfold pre_order.
  - intros [|a x] [|b y]; cbn [length Nat.eqb orb]; [lia..|]. apply cmp_antisym.
  - intros [|a x] [|b y] [|c z]; cbn [length Nat.eqb orb]; [lia..|]. apply cmp_le_trans.
Qed.

#[export] Instance cmp_order_release : CmpOrder release_compare.
Proof.
  change release_compare with
    (λ l r, num_or ((λ l r, core_compare (core l) (core r)) l r) ((λ l r, pre_order (pre l) (pre r)) l r)).
  apply cmp_order_lex.
  - apply (cmp_order_contramap core), _.
  - apply (cmp_order_contramap pre), _.
Qed.

(** The comparison answers -1, 0 or 1. *)
Lemma order_values x y : -1 ≤ order x y ≤ 1.
Proof. rewrite /order. repeat case_match; lia. Qed.

Lemma num_or_values a b : -1 ≤ a ≤ 1 → -1 ≤ b ≤ 1 → -1 ≤ num_or a b ≤ 1.
Proof. rewrite /num_or. case_match; lia. Qed.

Lemma pre_compare_values l r : -1 ≤ pre_compare l r ≤ 1.
Proof.
  revert r; induction l as [|x l IH]; intros [|y r]; cbn [pre_compare]; [lia..|].
  apply num_or_values; [|apply IH]. rewrite /ident_compare. repeat case_match; try lia. apply order_values.
Qed.

Lemma release_compare_values l r : -1 ≤ release_compare l r ≤ 1.
Proof.
  apply num_or_values; [rewrite /core_compare; repeat apply num_or_values; apply order_values|].
  case_match; [lia|apply pre_compare_values].
Qed.

(** What follows a plus sign is not read. *)
Lemma parse_release_build v m r :
  (∀ c, In c v → c ≠ 43) → parse_release v = Some r → agentReleaseVersion (v ++ 43 :: m) = true →
  parse_release (v ++ 43 :: m) = Some r.
Proof.
  intros Hv. rewrite /parse_release. destruct (agentReleaseVersion v); [|done]. intros H Hr. rewrite Hr.
  cbn [negb] in *. change (js "+") with [43] in *.
  rewrite split_None // in H; [by apply indexOf_char_None|].
  rewrite split_unfold // indexOf_char_app // take_app_length. exact H.
Qed.

(** [compareReleaseVersions] is a total preorder of the release versions: it answers null
    exactly when one of the two is not a release version; otherwise -1, 0 or 1, exchanging the two
    negates the answer, the order is transitive (strictly when one step is strict), and build
    metadata after a plus sign does not count. *)
Theorem release_order :
  (∀ a b, compareReleaseVersions a b = None ↔ agentReleaseVersion a = false ∨ agentReleaseVersion b = false) ∧
  (∀ a b x, compareReleaseVersions a b = Some x → -1 ≤ x ≤ 1 ∧ compareReleaseVersions b a = Some (- x)) ∧
  (∀ a b c x y, compareReleaseVersions a b = Some x → compareReleaseVersions b c = Some y →
    x ≤ 0 → y ≤ 0 → ∃ z, compareReleaseVersions a c = Some z ∧ z ≤ 0 ∧ (x < 0 ∨ y < 0 → z < 0)) ∧
  (∀ v m, (∀ c, In c v → c ≠ 43) → agentReleaseVersion v = true → agentReleaseVersion (v ++ 43 :: m) = true →
    compareReleaseVersions (v ++ 43 :: m) v = Some 0).
Proof.
  assert (∀ a, parse_release a = None ↔ agentReleaseVersion a = false) as Hn.
  { intros a. rewrite /parse_release. destruct (agentReleaseVersion a); cbn [negb]; [|done].
    case_match. by split. }
  rewrite /compareReleaseVersions. split_and!.
  - intros a b. rewrite -!Hn. destruct (parse_release a), (parse_release b); naive_solver.
  - intros a b x. destruct (parse_release a) as [l|], (parse_release b) as [r|]; [|done..]. intros [= <-].
    pose proof (release_compare_values l r). pose proof (release_compare_values r l).
    pose proof (cmp_antisym (cmp:=release_compare) l r). split; [lia|f_equal; lia].
  - intros a b c x y. destruct (parse_release a) as [l|], (parse_release b) as [r|], (parse_release c) as [t|]; [|done..].
    intros [= <-] [= <-] Hx Hy. eexists; split; [done|]. split; [by eapply cmp_le_trans|].
    intros [H|H]; [by apply (cmp_lt_le_trans _ l r)|by apply (cmp_le_lt_trans _ l r)].
  - intros v m Hv Hr Hm. destruct (parse_release v) as [r|] eqn:E; [|apply Hn in E; by rewrite E in Hr].
    rewrite (parse_release_build v m r) //. f_equal.
    pose proof (cmp_antisym (cmp:=release_compare) r r). lia.
Qed.
