(* ===== verification/AgentUpdate.v ===== *)
(** * AgentUpdate: who may update which node

    [packages/api/src/lib/agent-updates.ts], the rules without the database: the phases of an
    update and which report may follow which, the server's deadlines, the live gates, eligibility
    and "Install anyway". [AgentUpdateRun] puts them to work on the database. *)
From Stdlib Require Import ssreflect.
From S2P Require Import Prelude JsString ReleaseVersion.

(** ** Phases *)

Inductive AgentUpdatePhase : Type :=
  | requested | waiting_idle | downloading | verifying | armed | swapped | restarting
  | confirmed | rolled_back | failed | refused | timed_out.

#[export] Instance AgentUpdatePhase_eq : EqDecision AgentUpdatePhase.
Proof. solve_decision. Defined.

(** Phases the node reports; the others are the server's. *)
Definition node_phase (p : AgentUpdatePhase) : bool :=
  match p with requested | timed_out => false | _ => true end.

Definition AGENT_UPDATE_TERMINAL (p : AgentUpdatePhase) : bool :=
  match p with confirmed | rolled_back | failed | refused | timed_out => true | _ => false end.

Definition PHASE_ORDER (p : AgentUpdatePhase) : Z :=
  match p with
  | requested => 0
  | waiting_idle => 1
  | downloading => 2
  | verifying => 3
  | armed => 4
  | swapped => 5
  | restarting => 6
  | confirmed | rolled_back | failed | refused | timed_out => 7
  end.

Definition AGENT_UPDATE_REQUESTED_DEADLINE_MS : Z := 120000.
Definition AGENT_UPDATE_WAIT_IDLE_DEADLINE_MS : Z := 31 * 60000.
Definition AGENT_UPDATE_DOWNLOAD_DEADLINE_MS : Z := 15 * 60000.
Definition AGENT_UPDATE_RESTART_SLACK_MS : Z := 120000.
Definition AGENT_UPDATE_RETENTION_MS : Z := 30 * 24 * 3600000.
Definition AGENT_UPDATE_BATCH_OFFLINE_GRACE_MS : Z := 120000.
Definition AGENT_UPDATE_ROLLBACK_SECS_DEFAULT : Z := 180.

Definition agentUpdateDeadline (phase : AgentUpdatePhase) (rollbackAfterSecs now : Z) : option Z :=
  if AGENT_UPDATE_TERMINAL phase then None
  else Some (now + match phase with
                   | requested => AGENT_UPDATE_REQUESTED_DEADLINE_MS
                   | waiting_idle => AGENT_UPDATE_WAIT_IDLE_DEADLINE_MS
                   | downloading | verifying => AGENT_UPDATE_DOWNLOAD_DEADLINE_MS
                   | _ => rollbackAfterSecs * 1000 + AGENT_UPDATE_RESTART_SLACK_MS
                   end).

Definition progressAllowed (current next : AgentUpdatePhase) : bool :=
  if AGENT_UPDATE_TERMINAL current then
    bool_decide (current = timed_out)
    && match next with confirmed | rolled_back | failed => true | _ => false end
  else if bool_decide (next = waiting_idle)
          && (bool_decide (current = downloading) || bool_decide (current = verifying)) then true
  else PHASE_ORDER current <=? PHASE_ORDER next.

(** ** Nodes, releases and sessions *)

Inductive Trust : Type := FULL | RELAY.
#[export] Instance Trust_eq : EqDecision Trust.
Proof. solve_decision. Defined.

Inductive Strategy : Type := self_replace | homebrew.
#[export] Instance Strategy_eq : EqDecision Strategy.
Proof. solve_decision. Defined.

Definition AGENT_UPDATE_STRATEGIES : list (jstr * Strategy) :=
  [(js "self-replace", self_replace); (js "homebrew", homebrew)].

Inductive InstallMethod : Type := script | script_ps1 | m_homebrew | cargo | binstall | npm | source_method | unknown_method.
#[export] Instance InstallMethod_eq : EqDecision InstallMethod.
Proof. solve_decision. Defined.

Record NodeBuild : Type := { b_commit : option jstr; b_installMethod : InstallMethod; b_target : jstr }.

Record NodeSelfUpdate : Type := { su_strategies : list jstr; su_instancesSurvive : bool; su_remoteOff : bool }.

Record Artifact : Type := { a_url : jstr; a_sha256 : jstr }.

Inductive AgentUpdateRelease : Type :=
  | Release (version : jstr) (artifacts : jsmap jstr Artifact)
  | SourceBuild (version : jstr)
  | Unavailable (version : jstr).

Definition release_version (r : AgentUpdateRelease) : jstr :=
  match r with Release v _ | SourceBuild v | Unavailable v => v end.

Record ServerInfo : Type := { sv_version : jstr; sv_commit : option jstr; sv_windowsUpdates : bool }.

(** The live session of a node in this process. *)
Record LiveNode : Type := {
  lv_userId : string;
  lv_generation : Z;
  lv_trust : Trust;
  lv_selfUpdate : option NodeSelfUpdate;
}.

(** A node's row: its JSON columns as their schemas read them ([n_build], [n_selfUpdate]). *)
Record UpdateNodeRow : Type := {
  n_userId : string;
  n_online : bool;
  n_generation : Z;
  n_trust : option Trust;
  n_trustLowerRequested : bool;
  n_cliVersion : option jstr;
  n_build : option NodeBuild;
  n_selfUpdate : option NodeSelfUpdate;
  n_policyOff : bool;
}.

Definition effectiveTrust (n : UpdateNodeRow) : Trust :=
  let lowerPending := n_trustLowerRequested n && negb (bool_decide (n_trust n = Some RELAY)) in
  if bool_decide (n_trust n = Some FULL) && negb lowerPending then FULL else RELAY.

Inductive RefusalReason : Type :=
  | agent_update_in_progress | agent_update_current | node_offline | trust_relay | agent_update_off
  | upgrade_wsmp | agent_update_unsupported | agent_update_platform | agent_update_opted_out
  | agent_update_unavailable | unknown_node.
#[export] Instance RefusalReason_eq : EqDecision RefusalReason.
Proof. solve_decision. Defined.

(** ** Where the browser update is offered *)

Inductive Os : Type := linux | macos | windows.
#[export] Instance Os_eq : EqDecision Os.
Proof. solve_decision. Defined.

(** The operating system, the strategy, and whether it is offered only on opt-in. *)
Definition AGENT_UPDATE_OFFERED : list (Os * Strategy * bool) :=
  [(linux, self_replace, false); (macos, self_replace, false); (macos, homebrew, false);
   (windows, self_replace, true)].

Definition includes (p s : jstr) : bool := bool_decide (is_Some (indexOf p s)).

Definition osOf (target : jstr) : option Os :=
  if includes (js "-linux-") target then Some linux
  else if includes (js "-apple-darwin") target then Some macos
  else if includes (js "-windows-") target then Some windows
  else None.

Definition agentUpdateOffered (build : option NodeBuild) (strategy : Strategy) (server : ServerInfo) : bool :=
  let os := build ≫= λ b, osOf (b_target b) in
  existsb (λ '(o, s, optIn), bool_decide (Some o = os) && bool_decide (s = strategy)
                             && (negb optIn || sv_windowsUpdates server)) AGENT_UPDATE_OFFERED.

(** [(compareReleaseVersions(a, b) ?? 0) > 0]. *)
Definition newer (a b : jstr) : bool := 0 <? default 0 (compareReleaseVersions a b).

Definition isNewerThanServer (version : option jstr) (server : ServerInfo) : bool :=
  match version with None => false | Some v => newer v (sv_version server) end.

Definition isOutdated (version : option jstr) (build : option NodeBuild) (server : ServerInfo) : bool :=
  if negb (bool_decide (version = Some (sv_version server))) then negb (isNewerThanServer version server)
  else match build ≫= b_commit, sv_commit server with
       | Some c, Some c' => negb (str_eqb c c')
       | _, _ => false
       end.

(** ** "Install anyway" *)

(** The node's latest update, as eligibility reads it. *)
Record Latest : Type := {
  l_phase : AgentUpdatePhase;
  l_strategy : Strategy;
  l_versionMismatch : bool; (* [reason === "version_mismatch"] *)
  l_fromVersion : option jstr;
  l_fromCommit : option jstr;
  l_availableVersion : option jstr;
  l_availableGeneration : option Z;
}.

(** The wsmp a node runs now. *)
Record Wsmp : Type := { w_cliVersion : option jstr; w_commit : option jstr; w_generation : option Z }.

Definition sameWsmp (fromVersion fromCommit : option jstr) (availableGeneration : option Z) (now : Wsmp) : bool :=
  match w_cliVersion now with
  | None => false
  | Some v =>
      bool_decide (fromVersion = Some v)
      && match fromCommit, w_commit now with
         | Some was, Some cur => str_eqb was cur
         | None, None =>
             match w_generation now with
             | Some g => bool_decide (availableGeneration = Some g)
             | None => false
             end
         | _, _ => false
         end
  end.

Definition installAnywayVersion (latest : option Latest) (now : Wsmp) (outdated free : bool)
    (strategy : option Strategy) : option jstr :=
  if negb outdated || negb free || negb (bool_decide (strategy = Some homebrew)) then None else
  match latest with
  | None => None
  | Some l =>
      if negb (bool_decide (l_phase l = refused)) || negb (l_versionMismatch l) then None
      else if negb (bool_decide (l_strategy l = homebrew))
              || negb (sameWsmp (l_fromVersion l) (l_fromCommit l) (l_availableGeneration l) now) then None
      else match l_availableVersion l, w_cliVersion now with
           | Some available, Some cli => if newer available cli then Some available else None
           | _, _ => None
           end
  end.

(** ** Gates *)

Definition liveAgentUpdateGate (row : UpdateNodeRow) (live : option LiveNode) (generation : option Z)
  : option RefusalReason :=
  match live with
  | None => Some node_offline
  | Some l =>
      if negb (bool_decide (lv_userId l = n_userId row)) then Some node_offline
      else if match generation with Some g => negb (lv_generation l =? g) | None => false end
           then Some node_offline
      else if negb (bool_decide (lv_trust l = FULL)) || negb (bool_decide (effectiveTrust row = FULL))
           then Some trust_relay
      else if n_policyOff row then Some agent_update_off
      else match lv_selfUpdate l with
           | None => Some upgrade_wsmp
           | Some su => if su_remoteOff su then Some agent_update_opted_out else None
           end
  end.

(** The strategy the server chooses: the node's first that it knows. *)
Definition chooseStrategy (selfUpdate : option NodeSelfUpdate) : option Strategy :=
  selfUpdate ≫= λ su,
    (List.find (λ v, map_has v AGENT_UPDATE_STRATEGIES) (su_strategies su))
      ≫= λ v, map_get v AGENT_UPDATE_STRATEGIES.

Record Eligibility : Type := {
  canUpdate : bool;
  blockedReason : option RefusalReason;
  e_outdated : bool;
  newerThanServer : bool;
  availableVersion : option jstr;
  availableVersionAhead : bool;
  needsHand : bool; (* a manual command is shown *)
  e_strategy : option Strategy;
  e_artifact : option Artifact;
  e_selfUpdate : option NodeSelfUpdate;
  e_build : option NodeBuild;
}.

Definition release_artifact (release : AgentUpdateRelease) (build : option NodeBuild) : option Artifact :=
  match release, build with
  | Release _ artifacts, Some b => map_get (b_target b) artifacts
  | _, _ => None
  end.

(** The gate of [agentUpdateEligibility]: the node's opt-out is named after what this install
    cannot do anyway. *)
Definition eligibility_gate (liveGate : option RefusalReason) (strategy : option Strategy)
    (build : option NodeBuild) (server : ServerInfo) (artifact : option Artifact) : option RefusalReason :=
  match liveGate with
  | Some r =>
      if negb (bool_decide (r = agent_update_opted_out)) then Some r
      else match strategy with
           | None => Some agent_update_unsupported
           | Some s => if negb (agentUpdateOffered build s server) then Some agent_update_platform else Some r
           end
  | None =>
      match strategy with
      | None => Some agent_update_unsupported
      | Some s =>
          if negb (agentUpdateOffered build s server) then Some agent_update_platform
          else match artifact with None => Some agent_update_unavailable | Some _ => None end
      end
  end.

Definition agentUpdateEligibility (row : UpdateNodeRow) (live0 : option LiveNode) (release : AgentUpdateRelease)
    (server : ServerInfo) (active : bool) (latest : option Latest) : Eligibility :=
  let live := match live0 with
              | Some l => if bool_decide (lv_userId l = n_userId row) then Some l else None
              | None => None
              end in
  let build := n_build row in
  let selfUpdate := match live with Some l => lv_selfUpdate l | None => n_selfUpdate row end in
  let outdated := isOutdated (n_cliVersion row) build server in
  let strategy := chooseStrategy selfUpdate in
  let artifact := release_artifact release build in
  let gate := eligibility_gate (liveAgentUpdateGate row live None) strategy build server artifact in
  let blocked := if active then Some agent_update_in_progress
                 else if negb outdated then Some agent_update_current else gate in
  let homebrewFailed := match latest with
                        | Some l => bool_decide (l_strategy l = homebrew)
                                    && (bool_decide (l_phase l = timed_out) || bool_decide (l_phase l = failed))
                        | None => false
                        end in
  let available := installAnywayVersion latest
                     {| w_cliVersion := n_cliVersion row; w_commit := build ≫= b_commit;
                        w_generation := lv_generation <$> live |}
                     outdated (bool_decide (blocked = None)) strategy in
  {| canUpdate := bool_decide (blocked = None);
     blockedReason := blocked;
     e_outdated := outdated;
     newerThanServer := isNewerThanServer (n_cliVersion row) server;
     availableVersion := available;
     availableVersionAhead := match available with Some a => newer a (sv_version server) | None => false end;
     needsHand := match blocked with
                  | Some agent_update_in_progress | Some agent_update_current | None => false
                  | Some _ => true
                  end || homebrewFailed;
     e_strategy := strategy;
     e_artifact := artifact;
     e_selfUpdate := selfUpdate;
     e_build := build |}.
