(* ===== verification/AgentUpdateRun.v ===== *)
(** * AgentUpdateRun: updates and "Update all" runs on the database

    [packages/api/src/lib/agent-updates.ts] and the procedures of [packages/api/src/nodes/agent-update.ts]:
    starting an update (claim, then send under the authority lock, undo), a forced resend, the
    node's progress reports, the server deadline, pruning, and the batch driver, each a program of
    atomic statements ([Interleave]) over the rows, the live sessions and what the server offers.
    A transaction that takes the node's row lock and the update's row lock is one statement.

    [w_trace] is a history variable: the claims, the frames that went out (with the rows and the
    session they were decided on), the reports stored and the positions a run passed. It is never
    read by the code. A row's [id] is random; the database's primary key and the randomness of the
    ids are modelled by refusing an id that was claimed before. *)
From Stdlib Require Import ssreflect.
From S2P Require Import Prelude JsString ReleaseVersion Interleave AgentUpdate.

(** ** Rows *)

Inductive UpdateReason : Type := NoReason | version_mismatch | other_reason | stuck_in (p : AgentUpdatePhase).

Record UpdateRow : Type := mkUpdate {
  u_userId : string;
  u_nodeId : string;
  u_batchId : option string;
  u_fromVersion : option jstr;
  u_fromCommit : option jstr;
  u_toVersion : jstr;
  u_strategy : Strategy;
  u_artifactSha256 : option jstr;
  u_force : bool;
  u_rollbackAfterSecs : Z;
  u_phase : AgentUpdatePhase;
  u_reason : UpdateReason;
  u_deadlineAt : option Z;
  u_endedAt : option Z;
  u_availableVersion : option jstr;
  u_availableGeneration : option Z;
  u_createdAt : Z;
}.

Inductive BatchState : Type := RUNNING | DONE | STOPPED.
#[export] Instance BatchState_eq : EqDecision BatchState.
Proof. solve_decision. Defined.

Inductive BatchStopReason : Type :=
  | stop_stopped | stop_refused | stop_failed | stop_rolled_back | stop_timed_out | stop_release_changed.

Record BatchRow : Type := mkBatch {
  b_userId : string;
  b_nodeIds : list string;
  b_state : BatchState;
  b_position : nat;
  b_currentUpdateId : option string;
  b_currentNodeId : option string;
  b_skippedNodeIds : list string;
  b_targetVersion : option jstr;
  b_targetDigest : option jstr;
  b_stoppedNodeId : option string;
  b_stoppedReason : option BatchStopReason;
  b_updatedAt : Z;
  b_endedAt : option Z;
}.

Record UpdateFrame : Type := {
  fr_version : jstr;
  fr_artifact : Artifact;
  fr_force : bool;
}.

(** ** History *)

Inductive PassedAs : Type := ByUpdate (u : string) | AlreadyCurrent | PassedOver (r : RefusalReason).

Inductive UpdateEvent : Type :=
  | Claimed (u node : string) (batch : option (string * nat))
  | Sent (u node : string) (frame : UpdateFrame) (batch : option (string * nat))
      (row : UpdateNodeRow) (live : LiveNode) (update : UpdateRow)
  | Reported (u : string) (phase : AgentUpdatePhase)
  | Passed (b : string) (position : nat) (how : PassedAs)
  | Created (b : string) (nodeIds : list string) (targetVersion targetDigest : option jstr).

Record World : Type := mkWorld {
  w_nodes : gmap string UpdateNodeRow;
  w_live : gmap string LiveNode;
  w_release : AgentUpdateRelease;
  w_server : ServerInfo;
  w_updates : gmap string UpdateRow;
  w_batches : gmap string BatchRow;
  w_trace : list UpdateEvent;
}.

Definition set_updates (f : gmap string UpdateRow → gmap string UpdateRow) (w : World) : World :=
  mkWorld (w_nodes w) (w_live w) (w_release w) (w_server w) (f (w_updates w)) (w_batches w) (w_trace w).
Definition set_batches (f : gmap string BatchRow → gmap string BatchRow) (w : World) : World :=
  mkWorld (w_nodes w) (w_live w) (w_release w) (w_server w) (w_updates w) (f (w_batches w)) (w_trace w).
Definition log (e : UpdateEvent) (w : World) : World :=
  mkWorld (w_nodes w) (w_live w) (w_release w) (w_server w) (w_updates w) (w_batches w) (w_trace w ++ [e]).

Definition read {A} (f : World → A) : prog World A := stmt (λ w, (f w, w)).

(** ** Queries *)

Definition own_node (userId nodeId : string) (w : World) : option UpdateNodeRow :=
  match w_nodes w !! nodeId with
  | Some n => if bool_decide (n_userId n = userId) then Some n else None
  | None => None
  end.

Definition own_update (userId nodeId u : string) (w : World) : option UpdateRow :=
  match w_updates w !! u with
  | Some r => if bool_decide (u_userId r = userId ∧ u_nodeId r = nodeId) then Some r else None
  | None => None
  end.

(** [activeUpdate]. *)
Definition activeUpdate (userId nodeId : string) (w : World) : option (string * UpdateRow) :=
  head (List.filter (λ '(_, r), bool_decide (u_userId r = userId ∧ u_nodeId r = nodeId ∧ u_endedAt r = None))
          (map_to_list (w_updates w))).

(** [latestUpdate]: by creation, the newest first. *)
Definition latestUpdate (userId nodeId : string) (w : World) : option Latest :=
  (λ '(_, r), {| l_phase := u_phase r; l_strategy := u_strategy r;
                 l_versionMismatch := match u_reason r with version_mismatch => true | _ => false end;
                 l_fromVersion := u_fromVersion r; l_fromCommit := u_fromCommit r;
                 l_availableVersion := u_availableVersion r; l_availableGeneration := u_availableGeneration r |})
    <$> head (sort_by (λ a b, u_createdAt b.2 - u_createdAt a.2)
                (List.filter (λ '(_, r), bool_decide (u_userId r = userId ∧ u_nodeId r = nodeId))
                   (map_to_list (w_updates w)))).

(** ** The update-authority lock *)

(** [agentUpdateAuthorityRefusal] on the locked row and the session read in the same turn. *)
Definition agentUpdateAuthorityRefusal (locked : option UpdateNodeRow) (live : option LiveNode) (generation : Z)
  : option RefusalReason :=
  match locked with
  | None => Some trust_relay
  | Some n =>
      if negb (n_online n) || negb (n_generation n =? generation) then Some node_offline
      else match liveAgentUpdateGate n live (Some generation) with
           | Some r => Some r
           | None =>
               match n_selfUpdate n with
               | None => Some upgrade_wsmp
               | Some su => if su_remoteOff su then Some agent_update_opted_out else None
               end
           end
  end.

Definition lockedWsmp (n : UpdateNodeRow) : Wsmp :=
  {| w_cliVersion := n_cliVersion n; w_commit := n_build n ≫= b_commit; w_generation := Some (n_generation n) |}.

Definition installAnywayStillProved (latest : option Latest) (locked : UpdateNodeRow) (version : jstr) : bool :=
  match latest with
  | None => false
  | Some l =>
      bool_decide (l_phase l = refused) && l_versionMismatch l && bool_decide (l_strategy l = homebrew)
      && bool_decide (l_availableVersion l = Some version)
      && sameWsmp (l_fromVersion l) (l_fromCommit l) (l_availableGeneration l) (lockedWsmp locked)
  end.

Inductive ClaimedSend : Type := first | forced_resend.

Definition claimPermitsSend (row : option UpdateRow) (kind : ClaimedSend) : bool :=
  match row with
  | None => false
  | Some r =>
      if bool_decide (u_endedAt r = None) then
        match kind with
        | first => bool_decide (u_phase r = requested)
        | forced_resend => bool_decide (u_phase r = waiting_idle) && u_force r
        end
      else false
  end.

(** What the database and the socket do to one call: the socket takes the frame; the transaction
    fails before its decision; its commit fails; the second undo fails. *)
Record Faults : Type := { f_socket : bool; f_lock : bool; f_commit : bool; f_undo : bool }.

(** [port.send]: the session is re-checked at the socket. *)
Definition port_send (live : option LiveNode) (generation : Z) (userId : string) (fa : Faults) : bool :=
  match live with
  | None => false
  | Some l =>
      (lv_generation l =? generation)
      && match lv_selfUpdate l with Some su => negb (su_remoteOff su) | None => false end
      && bool_decide (lv_trust l = FULL) && bool_decide (lv_userId l = userId) && f_socket fa
  end.

Inductive SendResult : Type := WasSent | Lost (r : RefusalReason) | SendThrew.

(** The transaction of [sendUnderAuthority]: both locks, the decision, the send in the same turn. *)
Definition send_tx (userId nodeId u : string) (generation : Z) (kind : ClaimedSend) (frame : UpdateFrame)
    (batch : option (string * nat)) (undo : World → World) (fa : Faults) (w : World) : SendResult * World :=
  if f_lock fa then (SendThrew, w) else
  let locked := own_node userId nodeId w in
  let claimed := own_update userId nodeId u w in
  let live := w_live w !! nodeId in
  let lost := match agentUpdateAuthorityRefusal locked live generation with
              | Some r => Some r
              | None => if claimPermitsSend claimed kind then None else Some agent_update_in_progress
              end in
  let sent := bool_decide (lost = None) && port_send live generation userId fa in
  match sent, locked, live, claimed with
  | true, Some n, Some l, Some r => (WasSent, log (Sent u nodeId frame batch n l r) w)
  | _, _, _, _ => if f_commit fa then (SendThrew, w) else (Lost (default node_offline lost), undo w)
  end.

Definition sendUnderAuthority (userId nodeId u : string) (generation : Z) (kind : ClaimedSend)
    (frame : UpdateFrame) (batch : option (string * nat)) (undo : World → World) (fa : Faults)
  : prog World SendResult :=
  let? r := stmt (send_tx userId nodeId u generation kind frame batch undo fa) in
  match r with
  | SendThrew =>
      let? _ := stmt (λ w, (tt, if f_undo fa then w else undo w)) in Done SendThrew
  | _ => Done r
  end.

(** ** Starting an update *)

Inductive StartOutcome : Type :=
  | started (u : string) (generation : Z)
  | start_refused (r : RefusalReason)
  | not_found
  | release_changed
  | start_threw.

Definition claimed_ids (t : list UpdateEvent) : list string :=
  omap (λ e, match e with Claimed u _ _ => Some u | _ => None end) t.

Definition has_active (nodeId : string) (w : World) : bool :=
  existsb (λ '(_, r), bool_decide (u_nodeId r = nodeId ∧ u_endedAt r = None)) (map_to_list (w_updates w)).

Definition set_current (u node : option string) (now : Z) (b : BatchRow) : BatchRow :=
  mkBatch (b_userId b) (b_nodeIds b) (b_state b) (b_position b) u node (b_skippedNodeIds b)
    (b_targetVersion b) (b_targetDigest b) (b_stoppedNodeId b) (b_stoppedReason b) now (b_endedAt b).

(** The claim's transaction: the gates under the lock ([lockClaimGates]), the row, and the
    batch's move to it. Any refusal rolls all of it back. *)
Definition claim_tx (userId nodeId u : string) (generation : Z) (version : option jstr) (row : UpdateRow)
    (batch : option (string * nat)) (now : Z) (w : World) : option RefusalReason * World :=
  match own_node userId nodeId w with
  | None => (Some trust_relay, w)
  | Some locked =>
      match agentUpdateAuthorityRefusal (Some locked) (w_live w !! nodeId) generation with
      | Some r => (Some r, w)
      | None =>
          if match version with
             | Some v => negb (installAnywayStillProved (latestUpdate userId nodeId w) locked v)
             | None => false
             end then (Some agent_update_unavailable, w)
          else if bool_decide (u ∈ claimed_ids (w_trace w)) || has_active nodeId w
               then (Some agent_update_in_progress, w)
          else
            let created := log (Claimed u nodeId batch) (set_updates (insert u row) w) in
            match batch with
            | None => (None, created)
            | Some (b, position) =>
                match w_batches w !! b with
                | Some br =>
                    if bool_decide (b_userId br = userId ∧ b_state br = RUNNING ∧ b_position br = position
                                    ∧ b_currentUpdateId br = None)
                    then (None, set_batches (insert b (set_current (Some u) (Some nodeId) now br)) created)
                    else (Some agent_update_in_progress, w)
                | None => (Some agent_update_in_progress, w)
                end
            end
      end
  end.

(** Not sent: the claim goes, and the batch's move with it. *)
Definition undo_first (userId u : string) (batch : option (string * nat)) (now : Z) (w : World) : World :=
  let w1 := match w_updates w !! u with
            | Some r => if bool_decide (u_userId r = userId ∧ u_phase r = requested)
                        then set_updates (delete u) w else w
            | None => w
            end in
  match batch with
  | None => w1
  | Some (b, _) =>
      match w_batches w1 !! b with
      | Some br => if bool_decide (b_userId br = userId ∧ b_currentUpdateId br = Some u)
                   then set_batches (insert b (set_current None None now br)) w1 else w1
      | None => w1
      end
  end.

Definition set_force (force : bool) (r : UpdateRow) : UpdateRow :=
  mkUpdate (u_userId r) (u_nodeId r) (u_batchId r) (u_fromVersion r) (u_fromCommit r) (u_toVersion r)
    (u_strategy r) (u_artifactSha256 r) force (u_rollbackAfterSecs r) (u_phase r) (u_reason r)
    (u_deadlineAt r) (u_endedAt r) (u_availableVersion r) (u_availableGeneration r) (u_createdAt r).

(** The forced resend's claim: the gates, the wsmp the tap's version was granted to, the mark. *)
Definition mark_forced_tx (userId nodeId u : string) (generation : Z) (active : UpdateRow) (releaseVersion : jstr)
    (w : World) : option RefusalReason * World :=
  match own_node userId nodeId w with
  | None => (Some trust_relay, w)
  | Some locked =>
      match agentUpdateAuthorityRefusal (Some locked) (w_live w !! nodeId) generation with
      | Some r => (Some r, w)
      | None =>
          if negb (str_eqb releaseVersion (u_toVersion active))
             && negb (sameWsmp (u_fromVersion active) (u_fromCommit active) (u_availableGeneration active)
                        (lockedWsmp locked))
          then (Some agent_update_unavailable, w)
          else match own_update userId nodeId u w with
               | Some r => if bool_decide (u_phase r = waiting_idle)
                           then (None, set_updates (insert u (set_force true r)) w)
                           else (Some agent_update_in_progress, w)
               | None => (Some agent_update_in_progress, w)
               end
      end
  end.

Definition undo_forced (userId u : string) (force : bool) (w : World) : World :=
  match w_updates w !! u with
  | Some r => if bool_decide (u_userId r = userId ∧ u_phase r = waiting_idle ∧ u_force r = true)
              then set_updates (insert u (set_force force r)) w else w
  | None => w
  end.

Definition after_send (u : string) (generation : Z) (r : SendResult) : StartOutcome :=
  match r with WasSent => started u generation | Lost reason => start_refused reason | SendThrew => start_threw end.

Definition forceWaitingUpdate (userId nodeId : string) (row : UpdateNodeRow) (u : string) (active : UpdateRow)
    (live : option LiveNode) (fa : Faults) : prog World StartOutcome :=
  match liveAgentUpdateGate row live None, live with
  | Some r, _ => Done (start_refused r)
  | None, None => Done (start_refused node_offline)
  | None, Some l =>
      let? release := read w_release in
      match release_artifact release (n_build row), u_artifactSha256 active with
      | Some artifact, Some (c :: sha) =>
          if negb (str_eqb (a_sha256 artifact) (c :: sha)) then Done (start_refused agent_update_unavailable)
          else
            let anyway := bool_decide (u_strategy active = homebrew)
              && sameWsmp (u_fromVersion active) (u_fromCommit active) (u_availableGeneration active)
                   {| w_cliVersion := n_cliVersion row; w_commit := n_build row ≫= b_commit;
                      w_generation := Some (lv_generation l) |} in
            if negb (str_eqb (release_version release) (u_toVersion active)) && negb anyway
            then Done (start_refused agent_update_unavailable)
            else
              let? marked := stmt (mark_forced_tx userId nodeId u (lv_generation l) active (release_version release)) in
              match marked with
              | Some r => Done (start_refused r)
              | None =>
                  let? r := sendUnderAuthority userId nodeId u (lv_generation l) forced_resend
                              {| fr_version := u_toVersion active; fr_artifact := artifact; fr_force := true |}
                              None (undo_forced userId u (u_force active)) fa in
                  Done (after_send u (lv_generation l) r)
              end
      | _, _ => Done (start_refused agent_update_unavailable)
      end
  end.

Section Sha256.
(** [node:crypto]'s SHA-256, in hexadecimal. *)
Variable sha256 : jstr → jstr.

Definition agentUpdateReleaseDigest (release : AgentUpdateRelease) : option jstr :=
  match release with
  | Release version artifacts =>
      let targets := sort_by code_units_compare (map_keys artifacts) in
      let line target := target ++ js " " ++ default [] (a_sha256 <$> map_get target artifacts) ++ [10] in
      Some (sha256 (version ++ [10] ++ concat (line <$> targets)))
  | _ => None
  end.

Record BatchPin : Type := {
  p_id : string;
  p_position : nat;
  p_targetVersion : option jstr;
  p_targetDigest : option jstr;
}.

(** The run is pinned to another release than the server offers now. *)
Definition pin_changed (pin : BatchPin) (release : AgentUpdateRelease) : bool :=
  match p_targetVersion pin with
  | Some ((_ :: _) as v) => negb (str_eqb (release_version release) v)
  | _ => false
  end
  || match p_targetDigest pin, release with
     | Some ((_ :: _) as d), Release _ _ => negb (bool_decide (agentUpdateReleaseDigest release = Some d))
     | _, _ => false
     end.

Definition new_update (userId nodeId : string) (row : UpdateNodeRow) (strategy : Strategy) (artifact : Artifact)
    (toVersion : jstr) (force : bool) (batch : option BatchPin) (availableGeneration : option Z) (now : Z) : UpdateRow :=
  mkUpdate userId nodeId (p_id <$> batch) (n_cliVersion row) (n_build row ≫= b_commit) toVersion strategy
    (Some (a_sha256 artifact)) force AGENT_UPDATE_ROLLBACK_SECS_DEFAULT requested NoReason
    (agentUpdateDeadline requested AGENT_UPDATE_ROLLBACK_SECS_DEFAULT now) None None availableGeneration now.

(** [startAgentUpdate] after the forced resend's early return. *)
Definition start_new (userId nodeId : string) (row : UpdateNodeRow) (active : bool) (live : option LiveNode)
    (force : bool) (version : option jstr) (batch : option BatchPin) (u : string) (fa : Faults) (now : Z)
  : prog World StartOutcome :=
  if bool_decide (is_Some version) && bool_decide (is_Some batch)
  then Done (start_refused agent_update_unavailable) else
  let? release := read w_release in
  if match batch with Some pin => pin_changed pin release | None => false end then Done release_changed else
  let? server := read w_server in
  let? latest := match version with
                 | Some _ => read (latestUpdate userId nodeId)
                 | None => Done None
                 end in
  let e := agentUpdateEligibility row live release server active latest in
  match canUpdate e, e_strategy e, e_artifact e, live with
  | true, Some strategy, Some artifact, Some l =>
      if match version with
         | Some v => negb (bool_decide (availableVersion e = Some v))
         | None => false
         end then Done (start_refused agent_update_unavailable)
      else
        let toVersion := default (release_version release) version in
        let where_ := (λ pin, (p_id pin, p_position pin)) <$> batch in
        let? lost := stmt (claim_tx userId nodeId u (lv_generation l) version
                             (new_update userId nodeId row strategy artifact toVersion force batch
                                (match version with Some _ => Some (lv_generation l) | None => None end) now)
                             where_ now) in
        match lost with
        | Some r => Done (start_refused r)
        | None =>
            let? r := sendUnderAuthority userId nodeId u (lv_generation l) first
                        {| fr_version := toVersion; fr_artifact := artifact; fr_force := force |}
                        where_ (undo_first userId u where_ now) fa in
            Done (after_send u (lv_generation l) r)
        end
  | _, _, _, _ => Done (start_refused (default agent_update_unavailable (blockedReason e)))
  end.

Definition startAgentUpdate (userId nodeId : string) (force : bool) (version : option jstr)
    (batch : option BatchPin) (u : string) (fa : Faults) (now : Z) : prog World StartOutcome :=
  let? row := read (own_node userId nodeId) in
  match row with
  | None => Done not_found
  | Some row =>
      let? active := read (activeUpdate userId nodeId) in
      let? live := read (λ w, w_live w !! nodeId) in
      match active, batch, force with
      | Some (a, ar), None, true =>
          if bool_decide (u_phase ar = waiting_idle) then forceWaitingUpdate userId nodeId row a ar live fa
          else start_new userId nodeId row true live force version batch u fa now
      | _, _, _ => start_new userId nodeId row (bool_decide (is_Some active)) live force version batch u fa now
      end
  end.

(** ** Progress from the node, the deadline, pruning *)

Record ProgressFrame : Type := {
  pf_updateId : string;
  pf_phase : AgentUpdatePhase;
  pf_reason : UpdateReason;
  pf_availableVersion : option jstr;
}.

(** The row after a report. *)
Definition progress_row (frame : ProgressFrame) (generation : option Z) (now : Z) (r : UpdateRow) : UpdateRow :=
  let offered := match pf_availableVersion frame, pf_phase frame, pf_reason frame with
                 | Some v, refused, version_mismatch => Some v
                 | _, _, _ => None
                 end in
  mkUpdate (u_userId r) (u_nodeId r) (u_batchId r) (u_fromVersion r) (u_fromCommit r) (u_toVersion r)
    (u_strategy r) (u_artifactSha256 r) (u_force r) (u_rollbackAfterSecs r) (pf_phase frame)
    (match pf_phase frame with refused | failed => pf_reason frame | _ => NoReason end)
    (agentUpdateDeadline (pf_phase frame) (u_rollbackAfterSecs r) now)
    (if AGENT_UPDATE_TERMINAL (pf_phase frame) then Some now else None)
    (match offered with Some v => Some v | None => u_availableVersion r end)
    (match offered with Some _ => generation | None => u_availableGeneration r end)
    (u_createdAt r).

(** The conditional write: only while the phase is the one read. *)
Definition progress_write (nodeId userId : string) (frame : ProgressFrame) (generation : option Z)
    (seen : AgentUpdatePhase) (now : Z) (w : World) : bool * World :=
  match own_update userId nodeId (pf_updateId frame) w with
  | Some r =>
      if bool_decide (u_phase r = seen)
      then (true, log (Reported (pf_updateId frame) (pf_phase frame))
                    (set_updates (insert (pf_updateId frame) (progress_row frame generation now r)) w))
      else (false, w)
  | None => (false, w)
  end.

Record ProgressResult : Type := { pr_applied : bool; pr_ended : bool; pr_settled : bool }.

Fixpoint progress_loop (attempts : nat) (nodeId userId : string) (frame : ProgressFrame)
    (generation : option Z) (now : Z) : prog World ProgressResult :=
  match attempts with
  | O => Done {| pr_applied := false; pr_ended := false; pr_settled := false |}
  | S attempts' =>
      let? row := read (own_update userId nodeId (pf_updateId frame)) in
      match row with
      | None => Done {| pr_applied := false; pr_ended := false; pr_settled := true |}
      | Some r =>
          if negb (progressAllowed (u_phase r) (pf_phase frame))
          then Done {| pr_applied := false; pr_ended := false; pr_settled := AGENT_UPDATE_TERMINAL (u_phase r) |}
          else
            let? written := stmt (progress_write nodeId userId frame generation (u_phase r) now) in
            if written
            then let ended := AGENT_UPDATE_TERMINAL (pf_phase frame) in
                 Done {| pr_applied := true; pr_ended := ended; pr_settled := ended |}
            else progress_loop attempts' nodeId userId frame generation now
      end
  end.

Definition AGENT_UPDATE_PROGRESS_ATTEMPTS : nat := 5.

Definition applyAgentUpdateProgress (nodeId userId : string) (frame : ProgressFrame) (generation : option Z)
    (now : Z) : prog World ProgressResult :=
  progress_loop AGENT_UPDATE_PROGRESS_ATTEMPTS nodeId userId frame generation now.

Definition due (now : Z) (r : UpdateRow) : bool :=
  bool_decide (u_endedAt r = None) && match u_deadlineAt r with Some d => d <=? now | None => false end.

Definition time_out (now : Z) (r : UpdateRow) : UpdateRow :=
  mkUpdate (u_userId r) (u_nodeId r) (u_batchId r) (u_fromVersion r) (u_fromCommit r) (u_toVersion r)
    (u_strategy r) (u_artifactSha256 r) (u_force r) (u_rollbackAfterSecs r) timed_out
    (stuck_in (u_phase r)) None (Some now) (u_availableVersion r) (u_availableGeneration r) (u_createdAt r).

Definition expire_write (u : string) (seen : AgentUpdatePhase) (now : Z) (w : World) : Z * World :=
  match w_updates w !! u with
  | Some r => if bool_decide (u_phase r = seen) && due now r
              then (1, set_updates (insert u (time_out now r)) w) else (0, w)
  | None => (0, w)
  end.

Definition expireAgentUpdates (now : Z) : prog World Z :=
  let? dues := read (λ w, take 200 (List.filter (λ '(_, r), due now r) (map_to_list (w_updates w)))) in
  prog_fold (λ ended '(u, r), let? n := stmt (expire_write u (u_phase r) now) in Done (ended + n)) 0 dues.

Definition old (now : Z) (endedAt : option Z) : bool :=
  match endedAt with Some t => t <? now - AGENT_UPDATE_RETENTION_MS | None => false end.

Definition pruneAgentUpdates (now : Z) : prog World unit :=
  let? _ := stmt (λ w, (tt, set_updates (filter (λ '(_, r), old now (u_endedAt r) = false)) w)) in
  stmt (λ w, (tt, set_batches (filter (λ '(_, b), old now (b_endedAt b) = false)) w)).

(** ** Update all *)

Record Candidate : Type := { cd_nodeId : string; cd_slug : jstr; cd_running : Z }.

Definition candidate_compare (a b : Candidate) : Z :=
  num_or (cd_running a - cd_running b) (code_units_compare (cd_slug a) (cd_slug b)).

Definition orderForBatch (candidates : list Candidate) : list string :=
  cd_nodeId <$> sort_by candidate_compare candidates.

Definition chooseCanary (candidates : list Candidate) : option string := head (orderForBatch candidates).

Definition stopReasonOf (phase : option AgentUpdatePhase) : BatchStopReason :=
  match phase with
  | Some rolled_back => stop_rolled_back
  | Some timed_out => stop_timed_out
  | Some refused => stop_refused
  | _ => stop_failed
  end.

Definition stopped (node : option string) (reason : BatchStopReason) (now : Z) (b : BatchRow) : BatchRow :=
  mkBatch (b_userId b) (b_nodeIds b) STOPPED (b_position b) None None (b_skippedNodeIds b)
    (b_targetVersion b) (b_targetDigest b) node (Some reason) now (Some now).

(** A conditional write of a batch row. *)
Definition batch_write (b : string) (cond : BatchRow → bool) (write : BatchRow → BatchRow) (how : BatchRow → option UpdateEvent)
    (w : World) : bool * World :=
  match w_batches w !! b with
  | Some br =>
      if cond br then
        let w1 := set_batches (insert b (write br)) w in
        (true, match how br with Some e => log e w1 | None => w1 end)
      else (false, w)
  | None => (false, w)
  end.

Definition stopBatch (b : string) (br : BatchRow) (node : option string) (reason : BatchStopReason) (now : Z)
  : prog World bool :=
  stmt (batch_write b (λ x, bool_decide (b_userId x = b_userId br ∧ b_state x = RUNNING ∧ b_position x = b_position br))
          (stopped node reason now) (λ _, None)).

Definition next_position (position : nat) (now : Z) (b : BatchRow) : BatchRow :=
  mkBatch (b_userId b) (b_nodeIds b) (b_state b) (position + 1) None None (b_skippedNodeIds b)
    (b_targetVersion b) (b_targetDigest b) (b_stoppedNodeId b) (b_stoppedReason b) now (b_endedAt b).

Definition batch_done (now : Z) (b : BatchRow) : BatchRow :=
  mkBatch (b_userId b) (b_nodeIds b) DONE (b_position b) (b_currentUpdateId b) (b_currentNodeId b)
    (b_skippedNodeIds b) (b_targetVersion b) (b_targetDigest b) (b_stoppedNodeId b) (b_stoppedReason b) now (Some now).

(** [updateMany] of a move past a position, whose data came from the row read before. *)
Definition pass_over (b : string) (br : BatchRow) (reason : RefusalReason) (node : string) (now : Z)
  : World → bool * World :=
  let current := bool_decide (reason = agent_update_current) in
  batch_write b
    (λ x, bool_decide (b_state x = RUNNING ∧ b_position x = b_position br ∧ b_currentUpdateId x = None))
    (λ x, mkBatch (b_userId x) (b_nodeIds x) (b_state x) (b_position br + 1) (b_currentUpdateId x) (b_currentNodeId x)
            (if current then b_skippedNodeIds x else b_skippedNodeIds br ++ [node])
            (b_targetVersion x) (b_targetDigest x) (b_stoppedNodeId x) (b_stoppedReason x) now (b_endedAt x))
    (λ _, Some (Passed b (b_position br) (if current then AlreadyCurrent else PassedOver reason))).

Fixpoint advance_loop (steps : nat) (b : string) (ids : nat → string) (faults : nat → Faults) (now : Z)
  : prog World unit :=
  match steps with
  | O => Done tt
  | S steps' =>
      let? batch := read (λ w, match w_batches w !! b with
                               | Some br => if bool_decide (b_state br = RUNNING) then Some br else None
                               | None => None
                               end) in
      match batch with
      | None => Done tt
      | Some br =>
          match b_currentUpdateId br with
          | Some u =>
              let? phase := read (λ w, match w_updates w !! u with
                                       | Some r => if bool_decide (u_userId r = b_userId br) then Some (u_phase r) else None
                                       | None => None
                                       end) in
              if match phase with Some p => negb (AGENT_UPDATE_TERMINAL p) | None => false end then Done tt
              else if negb (bool_decide (phase = Some confirmed))
                   then let? _ := stopBatch b br (b_currentNodeId br) (stopReasonOf phase) now in Done tt
              else
                let? moved := stmt (batch_write b
                  (λ x, bool_decide (b_state x = RUNNING ∧ b_currentUpdateId x = Some u))
                  (next_position (b_position br) now)
                  (λ _, Some (Passed b (b_position br) (ByUpdate u)))) in
                if moved then advance_loop steps' b ids faults now else Done tt
          | None =>
              match b_nodeIds br !! b_position br with
              | None =>
                  let? _ := stmt (batch_write b
                    (λ x, bool_decide (b_state x = RUNNING ∧ b_position x = b_position br ∧ b_currentUpdateId x = None))
                    (batch_done now) (λ _, None)) in Done tt
              | Some node =>
                  let pin := {| p_id := b; p_position := b_position br; p_targetVersion := b_targetVersion br;
                                p_targetDigest := b_targetDigest br |} in
                  let? outcome := startAgentUpdate (b_userId br) node false None (Some pin) (ids steps') (faults steps') now in
                  match outcome with
                  | started _ _ | start_threw => Done tt
                  | release_changed => let? _ := stopBatch b br None stop_release_changed now in Done tt
                  | start_refused _ | not_found =>
                      let reason := match outcome with start_refused r => r | _ => unknown_node end in
                      if bool_decide (reason = agent_update_in_progress) then Done tt
                      else if bool_decide (reason = node_offline)
                              && (now - b_updatedAt br <? AGENT_UPDATE_BATCH_OFFLINE_GRACE_MS) then Done tt
                      else if negb (bool_decide (reason = agent_update_current)) && (b_position br =? 0)%nat
                           then let? _ := stopBatch b br (Some node) stop_refused now in Done tt
                      else
                        let? moved := stmt (pass_over b br reason node now) in
                        if moved then advance_loop steps' b ids faults now else Done tt
                  end
              end
          end
      end
  end.

Definition advanceAgentUpdateBatch (b : string) (ids : nat → string) (faults : nat → Faults) (now : Z)
  : prog World unit := advance_loop 512 b ids faults now.

(** [batch.nodeIds.slice(position + reached)], passed over first. *)
Definition untouchedNodeIds (b : BatchRow) : list string :=
  if bool_decide (b_state b = STOPPED) then
    let reached := if bool_decide (is_Some (b_stoppedNodeId b)) || bool_decide (is_Some (b_currentUpdateId b))
                   then 1%nat else 0%nat in
    fold_left (λ l id, if bool_decide (id ∈ l) then l else l ++ [id])
      (drop (b_position b + reached) (b_nodeIds b)) (b_skippedNodeIds b)
  else b_skippedNodeIds b.

(** ** The procedures *)

(** A node as the overview shows it. *)
Record NodeView : Type := { nv_candidate : Candidate; nv_canUpdate : bool; nv_blocked : option RefusalReason }.

Definition running_batch (userId : string) (w : World) : bool :=
  existsb (λ '(_, b), bool_decide (b_userId b = userId ∧ b_state b = RUNNING)) (map_to_list (w_batches w)).

Definition new_batch (userId : string) (nodeIds : list string) (release : AgentUpdateRelease) (now : Z) : BatchRow :=
  mkBatch userId nodeIds RUNNING 0 None None [] (Some (release_version release)) (agentUpdateReleaseDigest release)
    None None now None.

Definition created_ids (t : list UpdateEvent) : list string :=
  omap (λ e, match e with Created b _ _ _ => Some b | _ => None end) t.

(** [create], under [node_agent_update_batch_one_running]. *)
Definition create_batch (b userId : string) (nodeIds : list string) (release : AgentUpdateRelease) (now : Z)
    (w : World) : bool * World :=
  if running_batch userId w || bool_decide (b ∈ created_ids (w_trace w)) then (false, w)
  else
    let row := new_batch userId nodeIds release now in
    (true, log (Created b nodeIds (b_targetVersion row) (b_targetDigest row)) (set_batches (insert b row) w)).

Inductive StartAllResult : Type := all_started | all_refused (r : RefusalReason) | all_not_found.

(** [views] is what [loadOverview] read, with the release it read. *)
Definition startAll (userId : string) (canaryNodeId : option string) (views : list NodeView)
    (release : AgentUpdateRelease) (b : string) (ids : nat → string) (faults : nat → Faults) (now : Z)
  : prog World StartAllResult :=
  let? running := read (running_batch userId) in
  if running then Done (all_refused agent_update_in_progress) else
  let candidates := nv_candidate <$> List.filter nv_canUpdate views in
  let canary := match canaryNodeId with
                | Some c =>
                    match List.find (λ v, bool_decide (cd_nodeId (nv_candidate v) = c)) views with
                    | None => inr all_not_found
                    | Some v => if nv_canUpdate v then inl (Some c)
                                else inr (all_refused (default agent_update_unavailable (nv_blocked v)))
                    end
                | None => inl (chooseCanary candidates)
                end in
  match canary with
  | inr r => Done r
  | inl None => Done (all_refused agent_update_unavailable)
  | inl (Some c) =>
      let nodeIds := c :: orderForBatch (List.filter (λ d, negb (bool_decide (cd_nodeId d = c))) candidates) in
      let? created := stmt (create_batch b userId nodeIds release now) in
      if created then let? _ := advanceAgentUpdateBatch b ids faults now in Done all_started
      else Done (all_refused agent_update_in_progress)
  end.

Definition stopAll (b userId : string) (now : Z) : prog World bool :=
  stmt (batch_write b (λ x, bool_decide (b_userId x = userId ∧ b_state x = RUNNING))
          (λ x, mkBatch (b_userId x) (b_nodeIds x) STOPPED (b_position x) (b_currentUpdateId x) (b_currentNodeId x)
                  (b_skippedNodeIds x) (b_targetVersion x) (b_targetDigest x) (b_stoppedNodeId x) (Some stop_stopped)
                  now (Some now)) (λ _, None)).

Definition set_policy (off : bool) (n : UpdateNodeRow) : UpdateNodeRow :=
  Build_UpdateNodeRow (n_userId n) (n_online n) (n_generation n) (n_trust n) (n_trustLowerRequested n) (n_cliVersion n)
    (n_build n) (n_selfUpdate n) off.

Definition setPolicy (userId nodeId : string) (off : bool) : prog World bool :=
  stmt (λ w, match own_node userId nodeId w with
             | Some n => (true, mkWorld (<[nodeId := set_policy off n]> (w_nodes w)) (w_live w) (w_release w) (w_server w)
                                  (w_updates w) (w_batches w) (w_trace w))
             | None => (false, w)
             end).

(** Everyone else: nodes say hello, disconnect, report their trust and features; the server is
    redeployed; a node is deleted, with its updates. *)
Definition others (nodes : gmap string UpdateNodeRow → gmap string UpdateNodeRow) (live : gmap string LiveNode → gmap string LiveNode)
    (release : AgentUpdateRelease) (server : ServerInfo) : prog World unit :=
  stmt (λ w, (tt, mkWorld (nodes (w_nodes w)) (live (w_live w)) release server (w_updates w) (w_batches w) (w_trace w))).

Definition deleteNode (nodeId : string) : prog World unit :=
  stmt (λ w, (tt, mkWorld (delete nodeId (w_nodes w)) (w_live w) (w_release w) (w_server w)
                    (filter (λ '(_, r), u_nodeId r ≠ nodeId) (w_updates w)) (w_batches w) (w_trace w))).

End Sha256.
