(* ===== verification/AgentUpdateSafety.v ===== *)
(** * AgentUpdateSafety: updates under every interleaving

    Any number of starts, forced resends, progress reports, deadline sweeps, prunings, batch
    drivers and procedures ([AgentUpdateRun]), interleaved statement by statement with everything
    that happens to the nodes: an invariant of the rows and of the history ([Inv]) and a preorder
    every program respects ([R]), composed by [gsafe_sound]. *)
From Stdlib Require Import ssreflect.
From S2P Require Import Prelude JsString ReleaseVersion Interleave AgentUpdate AgentUpdateRun.

(** * What holds in every interleaving *)

Definition passed_all (t : list UpdateEvent) (b : string) (p : nat) : Prop :=
  ∀ i, (i < p)%nat → ∃ how, Passed b i how ∈ t.

(** What must hold of a session and the rows when a frame goes out. *)
Definition authorised (row : UpdateNodeRow) (live : LiveNode) (update : UpdateRow) : Prop :=
  n_online row = true ∧ lv_generation live = n_generation row ∧ lv_userId live = n_userId row ∧
  lv_trust live = FULL ∧ effectiveTrust row = FULL ∧ n_policyOff row = false ∧
  (∃ su, lv_selfUpdate live = Some su ∧ su_remoteOff su = false) ∧
  (∃ su, n_selfUpdate row = Some su ∧ su_remoteOff su = false) ∧
  u_endedAt update = None ∧
  (u_phase update = requested ∨ (u_phase update = waiting_idle ∧ u_force update = true)).

Section Runs.
Variable sha256 : jstr → jstr.

(** A frame of a run: the run's node at that position, its pinned release, everything before it
    passed. *)
Definition run_frame (t : list UpdateEvent) (b : string) (p : nat) (node : string) (frame : UpdateFrame) : Prop :=
  passed_all t b p ∧
  ∃ nodeIds tv td, Created b nodeIds tv td ∈ t ∧ nodeIds !! p = Some node ∧
    ∃ version artifacts target,
      pin_changed sha256 {| p_id := b; p_position := p; p_targetVersion := tv; p_targetDigest := td |}
        (Release version artifacts) = false ∧
      fr_version frame = version ∧ map_get target artifacts = Some (fr_artifact frame).

Definition event_ok (t : list UpdateEvent) (e : UpdateEvent) : Prop :=
  match e with
  | Claimed u node batch =>
      u ∉ claimed_ids t ∧ match batch with Some (b, p) => passed_all t b p | None => True end
  | Sent u node frame batch row live update =>
      authorised row live update ∧ u_nodeId update = node ∧
      fr_version frame = u_toVersion update ∧ u_artifactSha256 update = Some (a_sha256 (fr_artifact frame)) ∧
      match batch with Some (b, p) => run_frame t b p node frame | None => True end
  | Reported _ _ => True
  | Passed b p how =>
      passed_all t b p ∧
      match how with
      | ByUpdate u => (∃ node, Claimed u node (Some (b, p)) ∈ t) ∧ Reported u confirmed ∈ t
      | AlreadyCurrent => True
      | PassedOver _ => p ≠ 0%nat
      end
  | Created b _ _ _ => b ∉ created_ids t
  end.

Definition trace_ok (t : list UpdateEvent) : Prop := ∀ pre e post, t = pre ++ e :: post → event_ok pre e.

(** One phase after another. *)
Definition phase_step (p q : AgentUpdatePhase) : Prop :=
  progressAllowed p q = true ∨ (AGENT_UPDATE_TERMINAL p = false ∧ q = timed_out).

Definition row_evolves (r r' : UpdateRow) : Prop :=
  rtc phase_step (u_phase r) (u_phase r') ∧
  u_userId r' = u_userId r ∧ u_nodeId r' = u_nodeId r ∧ u_batchId r' = u_batchId r ∧
  u_toVersion r' = u_toVersion r ∧ u_artifactSha256 r' = u_artifactSha256 r.

Definition row_ok (t : list UpdateEvent) (u : string) (r : UpdateRow) : Prop :=
  u ∈ claimed_ids t ∧
  (u_endedAt r = None ↔ AGENT_UPDATE_TERMINAL (u_phase r) = false) ∧
  (u_deadlineAt r = None ↔ AGENT_UPDATE_TERMINAL (u_phase r) = true) ∧
  (u_phase r = confirmed → Reported u confirmed ∈ t).

Definition batch_ok (t : list UpdateEvent) (b : string) (br : BatchRow) : Prop :=
  Created b (b_nodeIds br) (b_targetVersion br) (b_targetDigest br) ∈ t ∧
  passed_all t b (b_position br) ∧
  ∀ u, b_currentUpdateId br = Some u → ∃ node, Claimed u node (Some (b, b_position br)) ∈ t.

Record Inv (w : World) : Prop := {
  inv_trace : trace_ok (w_trace w);
  inv_rows : ∀ u r, w_updates w !! u = Some r → row_ok (w_trace w) u r;
  inv_one : ∀ u1 u2 r1 r2, w_updates w !! u1 = Some r1 → w_updates w !! u2 = Some r2 →
    u_nodeId r1 = u_nodeId r2 → u_endedAt r1 = None → u_endedAt r2 = None → u1 = u2;
  inv_batches : ∀ b br, w_batches w !! b = Some br → batch_ok (w_trace w) b br;
}.

(** How the database may evolve: the history grows, a row only moves along the phases (or is
    deleted), and a claimed id is never used again. *)
Definition R (w w' : World) : Prop :=
  (∃ t, w_trace w' = w_trace w ++ t) ∧
  ∀ u r', w_updates w' !! u = Some r' →
    (∃ r, w_updates w !! u = Some r ∧ row_evolves r r') ∨ u ∉ claimed_ids (w_trace w).

(** ** The history *)

Lemma claimed_ids_In t u : u ∈ claimed_ids t ↔ ∃ node batch, Claimed u node batch ∈ t.
Proof.
  rewrite /claimed_ids list_elem_of_omap. split.
  - intros (e & He & Hu). destruct e; simplify_eq. eauto.
  - intros (node & batch & H). by eexists.
Qed.

Lemma claimed_ids_app t t' u : u ∈ claimed_ids t → u ∈ claimed_ids (t ++ t').
Proof. rewrite !claimed_ids_In. setoid_rewrite elem_of_app. naive_solver. Qed.

Lemma created_ids_In t b : b ∈ created_ids t ↔ ∃ n v d, Created b n v d ∈ t.
Proof.
  rewrite /created_ids list_elem_of_omap. split.
  - intros (e & He & Hu). destruct e; simplify_eq. eauto.
  - intros (n & v & d & H). by eexists.
Qed.

Lemma trace_ok_snoc t e : trace_ok t → event_ok t e → trace_ok (t ++ [e]).
Proof.
  intros Ht He pre e' post E.
  destruct (list_snoc_cases post) as [->|(post' & x & ->)].
  - apply app_inj_tail in E as [<- <-]. done.
  - rewrite app_comm_cons app_assoc in E. apply app_inj_tail in E as [E <-]. by eapply Ht.
Qed.

(** An id is claimed once, and a run created once. *)
Lemma claimed_once t u n1 b1 n2 b2 :
  trace_ok t → Claimed u n1 b1 ∈ t → Claimed u n2 b2 ∈ t → n1 = n2 ∧ b1 = b2.
Proof.
  intros Ht. assert (∀ n b n' b' t1 t2, t = t1 ++ Claimed u n b :: t2 → Claimed u n' b' ∉ t1) as Hno.
  { intros n b n' b' t1 t2 E Hin. destruct (Ht _ _ _ E) as [Hu _]. apply Hu, claimed_ids_In. eauto. }
  intros (t1 & t2 & E1)%list_elem_of_split H2. rewrite E1 in H2.
  apply elem_of_app in H2 as [H2|[H2|H2]%elem_of_cons].
  - by exfalso; eapply Hno.
  - by simplify_eq.
  - apply list_elem_of_split in H2 as (t3 & t4 & ->).
    exfalso. eapply (Hno n2 b2 n1 b1 (t1 ++ Claimed u n1 b1 :: t3) t4).
    + by rewrite E1 -app_assoc.
    + apply elem_of_app. right. by left.
Qed.

Lemma created_once t b n1 v1 d1 n2 v2 d2 :
  trace_ok t → Created b n1 v1 d1 ∈ t → Created b n2 v2 d2 ∈ t → n1 = n2 ∧ v1 = v2 ∧ d1 = d2.
Proof.
  intros Ht. assert (∀ n v d n' v' d' t1 t2, t = t1 ++ Created b n v d :: t2 → Created b n' v' d' ∉ t1) as Hno.
  { intros n v d n' v' d' t1 t2 E Hin. apply (Ht _ _ _ E), created_ids_In. eauto. }
  intros (t1 & t2 & E1)%list_elem_of_split H2. rewrite E1 in H2.
  apply elem_of_app in H2 as [H2|[H2|H2]%elem_of_cons].
  - by exfalso; eapply Hno.
  - by simplify_eq.
  - apply list_elem_of_split in H2 as (t3 & t4 & ->).
    exfalso. eapply (Hno n2 v2 d2 n1 v1 d1 (t1 ++ Created b n1 v1 d1 :: t3) t4).
    + by rewrite E1 -app_assoc.
    + apply elem_of_app. right. by left.
Qed.

Lemma passed_all_app t t' b p : passed_all t b p → passed_all (t ++ t') b p.
Proof. intros H i Hi. destruct (H i Hi) as [how ?]. exists how. apply elem_of_app. by left. Qed.

Lemma passed_all_snoc t b p how : passed_all t b p → passed_all (t ++ [Passed b p how]) b (p + 1).
Proof.
  intros H i Hi. destruct (decide (i = p)) as [->|Hne].
  - exists how. apply elem_of_app. right. by left.
  - destruct (H i) as [h ?]; [lia|]. exists h. apply elem_of_app. by left.
Qed.

Lemma row_ok_app t t' u r : row_ok t u r → row_ok (t ++ t') u r.
Proof.
  intros (H1 & H2 & H3 & H4). split_and!; [by apply claimed_ids_app|done|done|].
  intros Hc. apply elem_of_app. left. auto.
Qed.

Lemma batch_ok_app t t' b br : batch_ok t b br → batch_ok (t ++ t') b br.
Proof.
  intros (H1 & H2 & H3). split_and!; [apply elem_of_app; by left|by apply passed_all_app|].
  intros u Hu. destruct (H3 u Hu) as [node ?]. exists node. apply elem_of_app. by left.
Qed.

(** ** The preorder *)

Lemma row_evolves_refl r : row_evolves r r.
Proof. split_and!; done. Qed.

#[export] Instance R_preorder : PreOrder R.
Proof.
  split.
  - intros w. split; [exists []; by rewrite app_nil_r|]. intros u r Hr. left. exists r. split; [done|apply row_evolves_refl].
  - intros w1 w2 w3 [[t1 E1] H1] [[t2 E2] H2]. split; [exists (t1 ++ t2); by rewrite E2 E1 app_assoc|].
    intros u r3 Hr3. destruct (H2 u r3 Hr3) as [(r2 & Hr2 & He2)|Hn].
    + destruct (H1 u r2 Hr2) as [(r1 & Hr1 & He1)|Hn]; [|by right].
      left. exists r1. split; [done|]. destruct He1 as (? & ? & ? & ? & ? & ?), He2 as (? & ? & ? & ? & ? & ?).
      split; [by etrans|]. split_and!; congruence.
    + right. intros Hu. apply Hn. rewrite E1. by apply claimed_ids_app.
Qed.

Lemma R_trace w w' e : R w w' → e ∈ w_trace w → e ∈ w_trace w'.
Proof. intros [[t ->] _] He. apply elem_of_app. by left. Qed.

(** A claimed row, as it is found later. *)
Lemma R_row w w' u r r' :
  R w w' → u ∈ claimed_ids (w_trace w) → w_updates w !! u = Some r → w_updates w' !! u = Some r' → row_evolves r r'.
Proof. intros [_ H] Hu Hr Hr'. destruct (H u r' Hr') as [(r0 & ? & ?)|Hn]; [by simplify_eq|done]. Qed.

(** ** Statements *)

Lemma inv_log w e : Inv w → event_ok (w_trace w) e → Inv (log e w) ∧ R w (log e w).
Proof.
  intros [I1 I2 I3 I4] He. split.
  - constructor; cbn.
    + by apply trace_ok_snoc.
    + intros. apply row_ok_app. auto.
    + done.
    + intros. apply batch_ok_app. auto.
  - split; [by exists [e]|]. cbn. intros u r Hr. left. exists r. split; [done|apply row_evolves_refl].
Qed.

(** Rows are only removed. *)
Lemma inv_sub w m : Inv w → m ⊆ w_updates w → Inv (set_updates (λ _, m) w) ∧ R w (set_updates (λ _, m) w).
Proof.
  intros [I1 I2 I3 I4] Hm. split.
  - constructor; cbn; [done| | |done].
    + intros u r Hr. apply I2. by eapply lookup_weaken.
    + intros u1 u2 r1 r2 H1 H2. eapply I3; by eapply lookup_weaken.
  - split; [exists []; cbn; by rewrite app_nil_r|]. cbn. intros u r Hr. left. exists r.
    split; [by eapply lookup_weaken|apply row_evolves_refl].
Qed.

(** A row moves on. *)
Lemma inv_row w u r r' :
  Inv w → w_updates w !! u = Some r → row_evolves r r' → row_ok (w_trace w) u r' →
  (u_endedAt r' = None → u_endedAt r = None) →
  Inv (set_updates (insert u r') w) ∧ R w (set_updates (insert u r') w).
Proof.
  intros [I1 I2 I3 I4] Hr He Hok Hend. split.
  - constructor; cbn; [done| | |done].
    + intros u1 r1 [[<- <-]|[? ?]]%lookup_insert_Some; [done|auto].
    + intros u1 u2 r1 r2 H1 H2 Hn E1 E2. destruct He as (_ & _ & Hnode & _).
      apply lookup_insert_Some in H1 as [[<- <-]|[? H1]], H2 as [[<- <-]|[? H2]]; [done|..].
      * apply (I3 u u2 r r2); try done; [congruence|auto].
      * apply (I3 u1 u r1 r); try done; [congruence|auto].
      * by apply (I3 u1 u2 r1 r2).
  - split; [exists []; cbn; by rewrite app_nil_r|]. cbn.
    intros u1 r1 [[<- <-]|[? ?]]%lookup_insert_Some; left; eauto using row_evolves_refl.
Qed.

Lemma R_same w w' : w_updates w' = w_updates w → w_trace w' = w_trace w → R w w'.
Proof.
  intros E1 E2. split; [exists []; by rewrite E2 app_nil_r|]. rewrite E1. intros u r Hr. left.
  eauto using row_evolves_refl.
Qed.

(** A batch row is written. *)
Lemma inv_batch w b br :
  Inv w → batch_ok (w_trace w) b br → Inv (set_batches (insert b br) w) ∧ R w (set_batches (insert b br) w).
Proof.
  intros [I1 I2 I3 I4] Hb. split; [|by apply R_same].
  constructor; cbn; [done..|]. intros b1 br1 [[<- <-]|[? ?]]%lookup_insert_Some; [done|auto].
Qed.

Lemma inv_env w nodes live release server :
  Inv w → let w' := mkWorld nodes live release server (w_updates w) (w_batches w) (w_trace w) in Inv w' ∧ R w w'.
Proof. intros [I1 I2 I3 I4]. split; [by constructor|by apply R_same]. Qed.

Lemma inv_sub_batches w m : Inv w → m ⊆ w_batches w → Inv (set_batches (λ _, m) w) ∧ R w (set_batches (λ _, m) w).
Proof.
  intros [I1 I2 I3 I4] Hm. split; [|by apply R_same]. constructor; cbn; [done..|].
  intros b br Hb. apply I4. by eapply lookup_weaken.
Qed.

(** ** Programs *)

Notation G := (gsafe Inv R (λ _ _, True)).

Lemma g_read {A B} (f : World → A) (k : A → prog World B) s :
  (∀ s', Inv s' → R s s' → G (k (f s')) s') → G (prog_bind (read f) k) s.
Proof. intros H s' Hi HR. split_and!; [done|reflexivity|]. by apply H. Qed.

Lemma g_stmt {A B} (f : World → A * World) (k : A → prog World B) s :
  (∀ s', Inv s' → R s s' → (Inv (f s').2 ∧ R s' (f s').2) ∧ G (k (f s').1) (f s').2) →
  G (prog_bind (stmt f) k) s.
Proof. intros H s' Hi HR. by destruct (H s' Hi HR) as [[? ?] ?]. Qed.

Lemma g_stmt_last {A} (f : World → A * World) s :
  (∀ s', Inv s' → R s s' → Inv (f s').2 ∧ R s' (f s').2) → G (stmt f) s.
Proof. intros H s' Hi HR. destruct (H s' Hi HR) as [? ?]. done. Qed.

(** The gates hold of what the send read. *)
Lemma refusal_authorised n live generation l r kind fa :
  agentUpdateAuthorityRefusal (Some n) live generation = None → live = Some l →
  port_send live generation (n_userId n) fa = true → claimPermitsSend (Some r) kind = true → authorised n l r.
Proof.
  intros Ha -> Hs Hc. rewrite /agentUpdateAuthorityRefusal in Ha.
  destruct (negb (n_online n) || negb (n_generation n =? generation)) eqn:E1; [done|].
  destruct (liveAgentUpdateGate n (Some l) (Some generation)) eqn:E2; [done|].
  destruct (n_selfUpdate n) as [su|] eqn:E3; [|done]. destruct (su_remoteOff su) eqn:E4; [done|].
  rewrite /liveAgentUpdateGate in E2.
  destruct (bool_decide_reflect (lv_userId l = n_userId n)) as [Hu|]; [|done]. cbn [negb] in E2.
  destruct (negb (lv_generation l =? generation)) eqn:E5; [done|].
  destruct (bool_decide_reflect (lv_trust l = FULL)) as [Ht|]; [|done].
  destruct (bool_decide_reflect (effectiveTrust n = FULL)) as [He|]; [|done]. cbn [negb orb] in E2.
  destruct (n_policyOff n) eqn:E6; [done|].
  destruct (lv_selfUpdate l) as [su'|] eqn:E7; [|done]. destruct (su_remoteOff su') eqn:E8; [done|].
  rewrite /claimPermitsSend in Hc.
  destruct (bool_decide_reflect (u_endedAt r = None)) as [Hend|]; [|done].
  apply orb_false_iff in E1 as [E1%negb_false_iff E9%negb_false_iff]. apply negb_false_iff in E5.
  rewrite Z.eqb_eq in E9. rewrite Z.eqb_eq in E5.
  split_and!; [done|lia|done|done|done|done|eauto|eauto|done|].
  destruct kind; [left; by apply bool_decide_eq_true in Hc|].
  apply andb_true_iff in Hc as [Hc ?]. right. by apply bool_decide_eq_true in Hc.
Qed.

(** A claimed row, if it is still there, has this version and archive. *)
Definition row_like (s : World) (u : string) (version : jstr) (sha : option jstr) : Prop :=
  u ∈ claimed_ids (w_trace s) ∧
  ∀ r, w_updates s !! u = Some r → u_toVersion r = version ∧ u_artifactSha256 r = sha.

Lemma row_like_stable s s' u version sha : R s s' → row_like s u version sha → row_like s' u version sha.
Proof.
  intros HR [Hu Hr]. pose proof HR as [[t E] H]. split; [rewrite E; by apply claimed_ids_app|].
  intros r' Hr'. destruct (H u r' Hr') as [(r & Hr0 & (_ & _ & _ & _ & E1 & E2))|Hn]; [|done].
  rewrite E1 E2. auto.
Qed.

(** The row a claim wrote, as the frame carries it. *)
Definition frame_row (s : World) (u : string) (frame : UpdateFrame) : Prop :=
  row_like s u (fr_version frame) (Some (a_sha256 (fr_artifact frame))).

Lemma run_frame_app t t' b p node frame : run_frame t b p node frame → run_frame (t ++ t') b p node frame.
Proof.
  intros [H1 (nodeIds & tv & td & H2 & H3)]. split; [by apply passed_all_app|].
  exists nodeIds, tv, td. split; [apply elem_of_app; by left|done].
Qed.

Definition run_frame_of (t : list UpdateEvent) (batch : option (string * nat)) (node : string) (frame : UpdateFrame) : Prop :=
  match batch with Some (b, p) => run_frame t b p node frame | None => True end.

Lemma run_frame_of_stable s s' batch node frame :
  R s s' → run_frame_of (w_trace s) batch node frame → run_frame_of (w_trace s') batch node frame.
Proof. intros [[t ->] _]. destruct batch as [[b p]|]; [apply run_frame_app|done]. Qed.

Lemma g_send userId nodeId u generation kind frame batch undo fa s :
  frame_row s u frame → run_frame_of (w_trace s) batch nodeId frame →
  (∀ w, Inv w → Inv (undo w) ∧ R w (undo w)) →
  G (sendUnderAuthority userId nodeId u generation kind frame batch undo fa) s.
Proof.
  intros Hf Hb Hundo. apply g_stmt. intros s' Hi HR.
  assert ((Inv (send_tx userId nodeId u generation kind frame batch undo fa s').2 ∧
           R s' (send_tx userId nodeId u generation kind frame batch undo fa s').2)) as H.
  { rewrite /send_tx. destruct (f_lock fa); [split; [done|reflexivity]|].
    set (lost := match agentUpdateAuthorityRefusal _ _ _ with Some r => Some r | None => _ end).
    destruct (bool_decide (lost = None) && port_send _ _ _ _) eqn:Hsent.
    2: { destruct (f_commit fa); cbn [snd]; [split; [done|reflexivity]|auto]. }
    destruct (own_node userId nodeId s') as [n|] eqn:Hn.
    2: { destruct (f_commit fa); cbn [snd]; [split; [done|reflexivity]|auto]. }
    destruct (w_live s' !! nodeId) as [l|] eqn:Hl.
    2: { destruct (f_commit fa); cbn [snd]; [split; [done|reflexivity]|auto]. }
    destruct (own_update userId nodeId u s') as [r|] eqn:Hr.
    2: { destruct (f_commit fa); cbn [snd]; [split; [done|reflexivity]|auto]. }
    cbn [snd]. apply inv_log; [done|].
    apply andb_true_iff in Hsent as [Hlost%bool_decide_eq_true Hport].
    subst lost. destruct (agentUpdateAuthorityRefusal (Some n) (Some l) generation) eqn:Ha; [done|].
    destruct (claimPermitsSend (Some r) kind) eqn:Hc; [|done].
    rewrite /own_update in Hr. destruct (w_updates s' !! u) as [r0|] eqn:Hr0; [|done].
    case_bool_decide as Hown; [|done]. injection Hr as ->. destruct Hown as [_ Hnode].
    rewrite /own_node in Hn. destruct (w_nodes s' !! nodeId) as [n0|]; [|done].
    case_bool_decide as Huser; [|done]. injection Hn as ->.
    destruct (row_like_stable _ _ _ _ _ HR Hf) as [_ Hfr]. destruct (Hfr r Hr0) as [Hv Hsha].
    split_and!; [|done|done|done|by apply (run_frame_of_stable _ _ batch _ _ HR)].
    eapply refusal_authorised; [exact Ha|done| |exact Hc]. by rewrite Huser. }
  split; [done|]. destruct (send_tx _ _ _ _ _ _ _ _ _ s').1; [done..|].
  apply g_stmt. intros s2 Hi2 _. cbn [snd fst]. split; [|done].
  destruct (f_undo fa); [split; [done|reflexivity]|auto].
Qed.

Lemma has_active_false nodeId w u r :
  has_active nodeId w = false → w_updates w !! u = Some r → u_nodeId r = nodeId → u_endedAt r ≠ None.
Proof.
  rewrite /has_active. intros Hf Hr Hn He. apply not_true_iff_false in Hf. apply Hf.
  apply existsb_exists. exists (u, r). split; [by apply list_elem_of_In, elem_of_map_to_list|].
  by apply bool_decide_eq_true.
Qed.

(** A row is created. *)
Lemma inv_create w u row batch :
  Inv w → u ∉ claimed_ids (w_trace w) → has_active (u_nodeId row) w = false →
  u_phase row = requested → u_endedAt row = None → is_Some (u_deadlineAt row) →
  match batch with Some (b, p) => passed_all (w_trace w) b p | None => True end →
  let w' := log (Claimed u (u_nodeId row) batch) (set_updates (insert u row) w) in Inv w' ∧ R w w'.
Proof.
  intros [I1 I2 I3 I4] Hu Hact Hp He [d Hd] Hb w'. split.
  - constructor; cbn.
    + apply trace_ok_snoc; done.
    + intros u1 r1 [[<- <-]|[? ?]]%lookup_insert_Some; [|apply row_ok_app; auto].
      split_and!.
      * apply claimed_ids_In. exists (u_nodeId row), batch. apply elem_of_app. right. by left.
      * by rewrite Hp.
      * by rewrite Hp Hd.
      * by rewrite Hp.
    + intros u1 u2 r1 r2 H1 H2 Hn E1 E2.
      apply lookup_insert_Some in H1 as [[<- <-]|[? H1]], H2 as [[<- <-]|[? H2]]; [done|..].
      * exfalso. eapply has_active_false; eauto.
      * exfalso. eapply has_active_false; eauto.
      * by eapply I3.
    + intros b br Hbr. apply batch_ok_app. auto.
  - split; [by exists [Claimed u (u_nodeId row) batch]|]. cbn.
    intros u1 r1 [[<- <-]|[? ?]]%lookup_insert_Some; [by right|left; eauto using row_evolves_refl].
Qed.

(** What a driver knows of the run it starts an update for. *)
Definition pin_known (t : list UpdateEvent) (nodeId : string) (batch : option BatchPin) : Prop :=
  match batch with
  | None => True
  | Some pin => ∃ nodeIds, Created (p_id pin) nodeIds (p_targetVersion pin) (p_targetDigest pin) ∈ t ∧
                  nodeIds !! p_position pin = Some nodeId
  end.

Definition where_ (batch : option BatchPin) : option (string * nat) := (λ pin, (p_id pin, p_position pin)) <$> batch.

Lemma set_current_ok t b br u node now :
  batch_ok t b br → (∀ v, u = Some v → ∃ n, Claimed v n (Some (b, b_position br)) ∈ t) →
  batch_ok t b (set_current u node now br).
Proof. intros (H1 & H2 & _) Hu. split_and!; cbn; [done..|]. intros v Hv. auto. Qed.

Lemma claim_tx_ok userId nodeId u generation version row batch now w :
  Inv w → u_nodeId row = nodeId → u_phase row = requested → u_endedAt row = None → is_Some (u_deadlineAt row) →
  let r := claim_tx userId nodeId u generation version row batch now w in
  (Inv r.2 ∧ R w r.2) ∧
  (r.1 = None → u ∈ claimed_ids (w_trace r.2) ∧ w_updates r.2 !! u = Some row ∧
     match batch with Some (b, p) => passed_all (w_trace r.2) b p | None => True end).
Proof.
  intros Hi <- Hp He Hd. rewrite /claim_tx.
  assert ((Inv w ∧ R w w) : Prop) as Hsame by (split; [done|reflexivity]).
  destruct (own_node _ _ _) as [locked|]; [|by split].
  destruct (agentUpdateAuthorityRefusal _ _ _); [by split|].
  destruct (match version with Some _ => _ | None => _ end); [by split|].
  destruct (bool_decide _ || has_active _ w) eqn:Hb; [by split|].
  apply orb_false_iff in Hb as [Hu%bool_decide_eq_false Hact].
  assert (u ∈ claimed_ids (w_trace w ++ [Claimed u (u_nodeId row) batch])) as Hin.
  { apply claimed_ids_In. exists (u_nodeId row), batch. apply elem_of_app. right. by left. }
  destruct batch as [[b p]|].
  2: { destruct (inv_create w u row None Hi Hu Hact Hp He Hd I) as [? ?]. split; [done|].
       intros _. split_and!; [done|apply lookup_insert_eq|done]. }
  destruct (w_batches w !! b) as [br|] eqn:Hbr; [|by split].
  case_bool_decide as Hc; [|by split]. destruct Hc as (_ & _ & Hpos & Hcur).
  pose proof (inv_batches _ Hi b br Hbr) as HB. pose proof HB as (_ & B2 & _). rewrite Hpos in B2.
  destruct (inv_create w u row (Some (b, p)) Hi Hu Hact Hp He Hd B2) as [Hi1 HR1].
  destruct (inv_batch _ b (set_current (Some u) (Some (u_nodeId row)) now br) Hi1) as [Hi2 HR2].
  { apply set_current_ok; [by apply batch_ok_app|].
    intros v [= <-]. rewrite Hpos. exists (u_nodeId row). apply elem_of_app. right. by left. }
  cbn [fst snd]. split; [split; [done|by etrans]|]. intros _. split_and!; [done|apply lookup_insert_eq|].
  by apply passed_all_app.
Qed.

Lemma undo_first_ok userId u batch now w : Inv w → Inv (undo_first userId u batch now w) ∧ R w (undo_first userId u batch now w).
Proof.
  intros Hi. rewrite /undo_first.
  set (w1 := match w_updates w !! u with Some r => _ | None => w end).
  assert (Inv w1 ∧ R w w1) as [Hi1 HR1].
  { subst w1. destruct (w_updates w !! u); [|split; [done|reflexivity]].
    case_bool_decide; [|split; [done|reflexivity]].
    apply (inv_sub w (delete u (w_updates w)) Hi). apply delete_subseteq. }
  destruct batch as [[b p]|]; [|done]. destruct (w_batches w1 !! b) as [br|] eqn:Hbr; [|done].
  case_bool_decide; [|done].
  destruct (inv_batch w1 b (set_current None None now br) Hi1) as [? ?]; [|split; [done|by etrans]].
  apply set_current_ok; [by apply Hi1|done].
Qed.

Lemma set_force_evolves force r : row_evolves r (set_force force r).
Proof. split_and!; done. Qed.

Lemma force_row w u r force :
  Inv w → w_updates w !! u = Some r →
  Inv (set_updates (insert u (set_force force r)) w) ∧ R w (set_updates (insert u (set_force force r)) w).
Proof.
  intros Hi Hr. apply (inv_row w u r); [done|done|apply set_force_evolves| |done].
  exact (inv_rows _ Hi u r Hr).
Qed.

Lemma undo_forced_ok userId u force w : Inv w → Inv (undo_forced userId u force w) ∧ R w (undo_forced userId u force w).
Proof.
  intros Hi. rewrite /undo_forced. destruct (w_updates w !! u) as [r|] eqn:Hr; [|split; [done|reflexivity]].
  case_bool_decide; [by apply force_row|split; [done|reflexivity]].
Qed.

Lemma mark_forced_ok userId nodeId u generation active rv w :
  let r := mark_forced_tx userId nodeId u generation active rv w in
  Inv w → Inv r.2 ∧ R w r.2.
Proof.
  intros r Hi. subst r. rewrite /mark_forced_tx.
  assert ((Inv w ∧ R w w) : Prop) as Hsame by (split; [done|reflexivity]).
  destruct (own_node _ _ _); [|done]. destruct (agentUpdateAuthorityRefusal _ _ _); [done|].
  destruct (_ && _); [done|]. rewrite /own_update. destruct (w_updates w !! u) as [r|] eqn:Hr; [|done].
  case_bool_decide; [|done]. case_bool_decide; [by apply force_row|done].
Qed.

Lemma g_force userId nodeId row u active live fa s :
  row_like s u (u_toVersion active) (u_artifactSha256 active) →
  G (forceWaitingUpdate userId nodeId row u active live fa) s.
Proof.
  intros Hlike. rewrite /forceWaitingUpdate.
  destruct (liveAgentUpdateGate row live None); [done|]. destruct live as [l|]; [|done].
  apply g_read. intros s1 Hi1 HR1.
  destruct (release_artifact (w_release s1) (n_build row)) as [artifact|]; [|done].
  destruct (u_artifactSha256 active) as [[|c sha]|] eqn:Hsha; [done| |done].
  destruct (str_eqb (a_sha256 artifact) (c :: sha)) eqn:Heq; [|done]. cbn [negb].
  rewrite /str_eqb bool_decide_eq_true in Heq.
  destruct (_ && _); [done|]. apply g_stmt. intros s2 Hi2 HR2.
  split; [by apply mark_forced_ok|].
  destruct (mark_forced_ok userId nodeId u (lv_generation l) active (release_version (w_release s1)) s2 Hi2) as [_ HR3].
  destruct (mark_forced_tx _ _ _ _ _ _ s2) as [[r|] s3]; [done|]. cbn [fst snd] in *.
  eapply gsafe_bind; [|done]. apply g_send; [|done|intros w; apply undo_forced_ok].
  rewrite /frame_row /= Heq. eapply row_like_stable; [|exact Hlike].
  etrans; [exact HR1|etrans; [exact HR2|exact HR3]].
Qed.

Lemma release_artifact_Some release build artifact :
  release_artifact release build = Some artifact →
  ∃ version artifacts target, release = Release version artifacts ∧ map_get target artifacts = Some artifact.
Proof.
  destruct release as [v arts|v|v]; [|by destruct build..]. destruct build as [b|]; [|done]. cbn. eauto.
Qed.

Lemma pin_known_stable s s' nodeId batch :
  R s s' → pin_known (w_trace s) nodeId batch → pin_known (w_trace s') nodeId batch.
Proof.
  intros [[t ->] _]. destruct batch as [pin|]; [|done]. intros (nodeIds & H1 & H2).
  exists nodeIds. split; [apply elem_of_app; by left|done].
Qed.

Lemma g_start_new userId nodeId row active live force version batch u fa now s :
  pin_known (w_trace s) nodeId batch →
  G (start_new sha256 userId nodeId row active live force version batch u fa now) s.
Proof.
  intros Hpin. rewrite /start_new. destruct (bool_decide (is_Some version) && _) eqn:Hvb; [done|].
  apply g_read. intros s1 Hi1 HR1. set (release := w_release s1).
  destruct (match batch with Some pin => pin_changed sha256 pin release | None => false end) eqn:Hchanged; [done|].
  apply g_read. intros s2 Hi2 HR2.
  eapply (gsafe_bind _ _ (λ s' _, R s s')).
  { assert (R s s2) by (by etrans). destruct version; [|done].
    intros s3 Hi3 HR3. split_and!; [done|reflexivity|]. cbn. by etrans. }
  intros latest s3 HR3. set (e := agentUpdateEligibility _ _ _ _ _ _).
  destruct (canUpdate e); [|done]. destruct (e_strategy e) as [strategy|]; [|done].
  destruct (e_artifact e) as [artifact|] eqn:Hart; [|done]. destruct live as [l|]; [|done].
  destruct (match version with Some v => _ | None => false end); [done|].
  change (e_artifact e) with (release_artifact release (n_build row)) in Hart.
  apply g_stmt. intros s4 Hi4 HR4.
  set (row' := new_update _ _ _ _ _ _ _ _ _ _).
  destruct (claim_tx_ok userId nodeId u (lv_generation l) version row' (where_ batch) now s4 Hi4) as [Hok Hclaim];
    [done|done|done|by eexists|].
  split; [exact Hok|]. change ((λ pin, (p_id pin, p_position pin)) <$> batch) with (where_ batch).
  destruct (claim_tx _ _ _ _ _ _ _ _ s4) as [[r|] s5]; [done|]. cbn [fst snd] in *.
  destruct (Hclaim eq_refl) as (Hu & Hrow & Hpassed).
  eapply gsafe_bind; [|done]. apply g_send; [| |intros w; apply undo_first_ok].
  - split; [done|]. intros r Hr. by simplify_eq.
  - destruct batch as [pin|]; [|done]. destruct version; [by rewrite bool_decide_eq_true_2 // in Hvb|].
    split; [exact Hpassed|].
    assert (R s s5) as HR by (etrans; [exact HR3|etrans; [exact HR4|apply Hok]]).
    destruct (pin_known_stable _ _ _ _ HR Hpin) as (nodeIds & H1 & H2).
    exists nodeIds, (p_targetVersion pin), (p_targetDigest pin). split_and!; [done|done|].
    destruct (release_artifact_Some _ _ _ Hart) as (v & arts & target & Hrel & Hget).
    exists v, arts, target. cbn. rewrite Hrel in Hchanged *. destruct pin. done.
Qed.

Lemma activeUpdate_row userId nodeId w u r :
  activeUpdate userId nodeId w = Some (u, r) → w_updates w !! u = Some r.
Proof.
  rewrite /activeUpdate => H. assert ((u, r) ∈ map_to_list (w_updates w)) as Hin; [|by apply elem_of_map_to_list].
  destruct (List.filter _ _) as [|x l] eqn:E; [done|]. injection H as ->.
  assert (In (u, r) ((u, r) :: l)) as Hl by (by left). rewrite -E in Hl. apply filter_In in Hl as [Hl _].
  by apply list_elem_of_In.
Qed.

Lemma g_start userId nodeId force version batch u fa now s :
  pin_known (w_trace s) nodeId batch →
  G (startAgentUpdate sha256 userId nodeId force version batch u fa now) s.
Proof.
  intros Hpin. rewrite /startAgentUpdate. apply g_read. intros s1 Hi1 HR1.
  destruct (own_node userId nodeId s1) as [row|]; [|done].
  apply g_read. intros s2 Hi2 HR2. apply g_read. intros s3 Hi3 HR3.
  assert (pin_known (w_trace s3) nodeId batch) as Hp3.
  { eapply pin_known_stable; [|exact Hpin]. etrans; [exact HR1|]. by etrans. }
  destruct (activeUpdate userId nodeId s2) as [[a ar]|] eqn:Ha; [|by apply g_start_new].
  destruct batch as [pin|]; [by apply g_start_new|]. destruct force; [|by apply g_start_new].
  case_bool_decide; [|by apply g_start_new].
  apply activeUpdate_row in Ha. apply g_force. eapply row_like_stable; [exact HR3|].
  split; [by eapply inv_rows|]. intros r Hr. by simplify_eq.
Qed.

(** A report is stored. *)
Lemma progress_write_ok nodeId userId frame generation seen now w :
  progressAllowed seen (pf_phase frame) = true → Inv w →
  let r := progress_write nodeId userId frame generation seen now w in Inv r.2 ∧ R w r.2.
Proof.
  intros Hallow Hi. rewrite /progress_write /own_update.
  assert ((Inv w ∧ R w w) : Prop) as Hsame by (split; [done|reflexivity]).
  destruct (w_updates w !! pf_updateId frame) as [r|] eqn:Hr; [|done].
  case_bool_decide; [|done]. case_bool_decide as Hseen; [|done]. cbn [snd].
  destruct (inv_rows _ Hi _ _ Hr) as (Hu & Hend & Hdead & Hconf).
  set (u := pf_updateId frame) in *. set (q := pf_phase frame) in *.
  destruct (inv_log w (Reported u q) Hi I) as [Hi1 HR1].
  destruct (inv_row (log (Reported u q) w) u r (progress_row frame generation now r) Hi1 Hr) as [Hi2 HR2].
  - split_and!; [|done..]. apply rtc_once. left. by rewrite Hseen.
  - split_and!; cbn; fold q.
    + by apply claimed_ids_app.
    + by destruct (AGENT_UPDATE_TERMINAL q).
    + rewrite /agentUpdateDeadline. by destruct (AGENT_UPDATE_TERMINAL q).
    + intros ->. apply elem_of_app. right. by left.
  - cbn. fold q. destruct (AGENT_UPDATE_TERMINAL q) eqn:Hq; [done|]. intros _. apply Hend.
    destruct (AGENT_UPDATE_TERMINAL (u_phase r)) eqn:Ht; [|done].
    rewrite -Hseen /progressAllowed Ht in Hallow. destruct q; by rewrite ?andb_false_r in Hallow.
  - split; [exact Hi2|]. etrans; [exact HR1|exact HR2].
Qed.

Lemma g_progress n nodeId userId frame generation now s :
  G (progress_loop n nodeId userId frame generation now) s.
Proof.
  revert s; induction n as [|n IH]; intros s; [done|]. cbn [progress_loop].
  apply g_read. intros s1 Hi1 HR1. destruct (own_update _ _ _ s1) as [r|]; [|done].
  destruct (progressAllowed (u_phase r) (pf_phase frame)) eqn:Ha; [|done]. cbn [negb].
  apply g_stmt. intros s2 Hi2 HR2. split; [by apply progress_write_ok|].
  destruct (progress_write _ _ _ _ _ _ s2) as [[] s3]; [done|]. apply IH.
Qed.

Lemma expire_write_ok u seen now w :
  Inv w → let r := expire_write u seen now w in Inv r.2 ∧ R w r.2.
Proof.
  intros Hi. rewrite /expire_write.
  assert ((Inv w ∧ R w w) : Prop) as Hsame by (split; [done|reflexivity]).
  destruct (w_updates w !! u) as [r|] eqn:Hr; [|done].
  destruct (bool_decide _ && due now r) eqn:Hd; [|done]. cbn [snd].
  apply andb_true_iff in Hd as [_ [He%bool_decide_eq_true _]%andb_true_iff].
  destruct (inv_rows _ Hi _ _ Hr) as (Hu & Hend & _ & _).
  apply (inv_row w u r); [done|done| | |done].
  - split_and!; [|done..]. apply rtc_once. right. split; [by apply Hend|done].
  - by split_and!.
Qed.

Lemma g_expire now s : G (expireAgentUpdates now) s.
Proof.
  apply g_read. intros s1 Hi1 HR1. apply gsafe_fold; [done|]. intros n [u r] s2 _.
  apply g_stmt. intros s3 Hi3 _. split; [by apply expire_write_ok|done].
Qed.

Lemma g_prune now s : G (pruneAgentUpdates now) s.
Proof.
  apply g_stmt. intros s1 Hi1 _. cbn [fst snd]. split.
  - apply (inv_sub s1 (filter _ (w_updates s1)) Hi1), map_filter_subseteq.
  - apply g_stmt_last. intros s2 Hi2 _. apply (inv_sub_batches s2 (filter _ (w_batches s2)) Hi2), map_filter_subseteq.
Qed.

(** Writes of a batch row: what the condition found, and what is logged. *)
Lemma batch_write_ok b cond write how w :
  Inv w →
  (∀ br, w_batches w !! b = Some br → cond br = true →
     match how br with
     | Some e => event_ok (w_trace w) e ∧ batch_ok (w_trace w ++ [e]) b (write br)
     | None => batch_ok (w_trace w) b (write br)
     end) →
  Inv (batch_write b cond write how w).2 ∧ R w (batch_write b cond write how w).2.
Proof.
  intros Hi H. rewrite /batch_write. destruct (w_batches w !! b) as [br|] eqn:Hb; [|split; [done|reflexivity]].
  destruct (cond br) eqn:Hc; [|split; [done|reflexivity]]. specialize (H br eq_refl Hc). cbn [snd].
  destruct (how br) as [e|]; [|by apply inv_batch].
  destruct H as [He Hb']. destruct (inv_log w e Hi He) as [Hi1 HR1].
  destruct (inv_batch (log e w) b (write br) Hi1 Hb') as [Hi2 HR2].
  split; [exact Hi2|]. etrans; [exact HR1|exact HR2].
Qed.

Lemma g_stopBatch b br node reason now s : G (stopBatch b br node reason now) s.
Proof.
  apply g_stmt_last. intros s1 Hi1 _. apply batch_write_ok; [done|]. intros x Hx _.
  destruct (inv_batches _ Hi1 b x Hx) as (H1 & H2 & _). by split_and!.
Qed.

Lemma pass_over_ok b br reason node now w :
  Inv w → (reason ≠ agent_update_current → b_position br ≠ 0%nat) →
  Inv (pass_over b br reason node now w).2 ∧ R w (pass_over b br reason node now w).2.
Proof.
  intros Hi Hpos. apply batch_write_ok; [done|]. intros x Hx Hc. apply bool_decide_eq_true in Hc as (_ & Hp & Hcur).
  destruct (inv_batches _ Hi b x Hx) as (H1 & H2 & _). rewrite Hp in H2.
  split; [split; [done|case_bool_decide; [done|auto]]|].
  split_and!; cbn; [apply elem_of_app; by left|by apply passed_all_snoc|by rewrite Hcur].
Qed.

Lemma confirm_ok b br u now w :
  Inv w → (∃ node, Claimed u node (Some (b, b_position br)) ∈ w_trace w) → Reported u confirmed ∈ w_trace w →
  let r := batch_write b (λ x, bool_decide (b_state x = RUNNING ∧ b_currentUpdateId x = Some u))
             (next_position (b_position br) now) (λ _, Some (Passed b (b_position br) (ByUpdate u))) w in
  Inv r.2 ∧ R w r.2.
Proof.
  intros Hi [node Hcl] Hrep. apply batch_write_ok; [done|]. intros x Hx Hc.
  apply bool_decide_eq_true in Hc as [_ Hcur].
  destruct (inv_batches _ Hi b x Hx) as (H1 & H2 & H3). destruct (H3 u Hcur) as [node' Hcl'].
  destruct (claimed_once _ _ _ _ _ _ (inv_trace _ Hi) Hcl Hcl') as [_ [= Hp]]. rewrite -Hp in H2.
  split; [split_and!; eauto|].
  split_and!; cbn; [apply elem_of_app; by left|by apply passed_all_snoc|done].
Qed.

Lemma g_advance n b ids faults now s : G (advance_loop sha256 n b ids faults now) s.
Proof.
  revert s; induction n as [|n IH]; intros s; [done|]. cbn [advance_loop].
  apply g_read. intros s1 Hi1 HR1.
  destruct (w_batches s1 !! b) as [br|] eqn:Hbr; [|done]. case_bool_decide; [|done].
  destruct (inv_batches _ Hi1 b br Hbr) as (B1 & B2 & B3).
  destruct (b_currentUpdateId br) as [u|] eqn:Hcur.
  - apply g_read. intros s2 Hi2 HR2. set (phase := match w_updates s2 !! u with Some r => _ | None => None end).
    destruct (match phase with Some p => _ | None => false end); [done|].
    case_bool_decide as Hph; cbn [negb]; [|eapply gsafe_bind; [apply g_stopBatch|done]].
    apply g_stmt. intros s3 Hi3 HR3. destruct (B3 u eq_refl) as [node Hcl].
    assert (Reported u confirmed ∈ w_trace s3) as Hrep.
    { subst phase. destruct (w_updates s2 !! u) as [r|] eqn:Hr; [|done]. case_bool_decide; [|done].
      injection Hph as Hph. apply (R_trace _ _ _ HR3). by apply (inv_rows _ Hi2 _ _ Hr). }
    split.
    + apply confirm_ok; [done| |done]. exists node. apply (R_trace _ _ _ HR3), (R_trace _ _ _ HR2), Hcl.
    + destruct (batch_write _ _ _ _ s3) as [[] s4]; [apply IH|done].
  - destruct (b_nodeIds br !! b_position br) as [node|] eqn:Hnode.
    2: { apply g_stmt. intros s2 Hi2 _. split; [|done]. apply batch_write_ok; [done|]. intros x Hx _.
         exact (inv_batches _ Hi2 b x Hx). }
    eapply gsafe_bind; [apply g_start; by exists (b_nodeIds br)|].
    intros outcome s2 _.
    assert (∀ reason s2, G (if bool_decide (reason = agent_update_in_progress) then Done tt
                     else if bool_decide (reason = node_offline)
                             && (now - b_updatedAt br <? AGENT_UPDATE_BATCH_OFFLINE_GRACE_MS) then Done tt
                     else if negb (bool_decide (reason = agent_update_current)) && (b_position br =? 0)%nat
                          then let? _ := stopBatch b br (Some node) stop_refused now in Done tt
                     else
                       let? moved := stmt (pass_over b br reason node now) in
                       if moved then advance_loop sha256 n b ids faults now else Done tt) s2) as Hpass.
    { intros reason s2'. case_bool_decide; [done|]. destruct (_ && (_ <? _)); [done|].
      destruct (negb _ && _) eqn:Hc; [eapply gsafe_bind; [apply g_stopBatch|done]|].
      apply g_stmt. intros s3 Hi3 _. split.
      - apply pass_over_ok; [done|]. intros Hr Hp. rewrite Hp /= andb_true_r in Hc.
        by apply negb_false_iff, bool_decide_eq_true in Hc.
      - destruct (pass_over b br reason node now s3) as [[] s4]; [apply IH|done]. }
    destruct outcome; [done|apply Hpass|apply Hpass| |done].
    eapply gsafe_bind; [apply g_stopBatch|done].
Qed.

Lemma create_batch_ok b userId nodeIds release now w :
  Inv w → Inv (create_batch sha256 b userId nodeIds release now w).2 ∧
          R w (create_batch sha256 b userId nodeIds release now w).2.
Proof.
  intros Hi. rewrite /create_batch. destruct (_ || _) eqn:Hc; [split; [done|reflexivity]|]. cbn [snd].
  apply orb_false_iff in Hc as [_ Hb%bool_decide_eq_false].
  set (br := new_batch _ _ _ _ _).
  destruct (inv_log w (Created b nodeIds (b_targetVersion br) (b_targetDigest br)) Hi Hb) as [Hi1 HR1].
  destruct (inv_batch _ b br Hi1) as [Hi2 HR2].
  { split_and!; [apply elem_of_app; right; by left|intros i Hlt; cbn in Hlt; lia|done]. }
  split; [exact Hi2|]. etrans; [exact HR1|exact HR2].
Qed.

Lemma g_startAll userId canary views release b ids faults now s :
  G (startAll sha256 userId canary views release b ids faults now) s.
Proof.
  apply g_read. intros s1 Hi1 _. destruct (running_batch userId s1); [done|].
  cbv zeta. match goal with |- gsafe _ _ _ (match ?x with _ => _ end) _ => destruct x as [[c|]|] end; [|done..].
  apply g_stmt. intros s2 Hi2 _. split; [by apply create_batch_ok|].
  destruct (create_batch _ _ _ _ _ _ s2) as [[] s3]; [|done].
  eapply gsafe_bind; [apply g_advance|done].
Qed.

Lemma g_stopAll b userId now s : G (stopAll b userId now) s.
Proof.
  apply g_stmt_last. intros s1 Hi1 _. apply batch_write_ok; [done|]. intros x Hx _.
  exact (inv_batches _ Hi1 b x Hx).
Qed.

Lemma g_setPolicy userId nodeId off s : G (setPolicy userId nodeId off) s.
Proof.
  apply g_stmt_last. intros s1 Hi1 _. destruct (own_node _ _ _); [by apply inv_env|split; [done|reflexivity]].
Qed.

Lemma g_deleteNode nodeId s : G (deleteNode nodeId) s.
Proof.
  apply g_stmt_last. intros s1 Hi1 _. cbn [snd].
  set (m := filter _ _). destruct (inv_sub s1 m Hi1) as [Hi2 HR2]; [apply map_filter_subseteq|].
  destruct (inv_env (set_updates (λ _, m) s1) (delete nodeId (w_nodes s1)) (w_live s1) (w_release s1) (w_server s1) Hi2)
    as [Hi3 HR3].
  split; [exact Hi3|]. etrans; [exact HR2|exact HR3].
Qed.

(** Everything that runs on the database, on any server, and what happens to the nodes. *)
Inductive UpdateProgram : prog World unit → Prop :=
| up_start userId nodeId force version u fa now :
    UpdateProgram (prog_map (λ _, tt) (startAgentUpdate sha256 userId nodeId force version None u fa now))
| up_progress nodeId userId frame generation now :
    UpdateProgram (prog_map (λ _, tt) (applyAgentUpdateProgress nodeId userId frame generation now))
| up_expire now : UpdateProgram (prog_map (λ _, tt) (expireAgentUpdates now))
| up_prune now : UpdateProgram (pruneAgentUpdates now)
| up_advance b ids faults now : UpdateProgram (advanceAgentUpdateBatch sha256 b ids faults now)
| up_startAll userId canary views release b ids faults now :
    UpdateProgram (prog_map (λ _, tt) (startAll sha256 userId canary views release b ids faults now))
| up_stopAll b userId now : UpdateProgram (prog_map (λ _, tt) (stopAll b userId now))
| up_setPolicy userId nodeId off : UpdateProgram (prog_map (λ _, tt) (setPolicy userId nodeId off))
| up_others nodes live release server : UpdateProgram (others nodes live release server)
| up_deleteNode nodeId : UpdateProgram (deleteNode nodeId).

Lemma program_safe p s : UpdateProgram p → G p s.
Proof.
  intros Hp. assert (∀ A (q : prog World A), G q s → G (prog_map (λ _, tt) q) s) as Hmap.
  { intros A q Hq. by eapply gsafe_bind. }
  destruct Hp; try apply Hmap.
  - by apply g_start.
  - apply g_progress.
  - apply g_expire.
  - apply g_prune.
  - apply g_advance.
  - apply g_startAll.
  - apply g_stopAll.
  - apply g_setPolicy.
  - apply g_stmt_last. intros s1 Hi1 _. by apply inv_env.
  - apply g_deleteNode.
Qed.

(** No update was ever made. *)
Definition blank (w : World) : Prop := w_updates w = ∅ ∧ w_batches w = ∅ ∧ w_trace w = [].

Lemma blank_inv w : blank w → Inv w.
Proof.
  intros (E1 & E2 & E3). constructor; rewrite ?E1 ?E2 ?E3; [|done..].
  intros pre e post E. by destruct pre.
Qed.

Lemma programs_safe w ps w' ps' :
  Inv w → Forall UpdateProgram ps → rtc step (w, ps) (w', ps') → Inv w' ∧ R w w'.
Proof.
  intros Hi Hps Hsteps. destruct (gsafe_sound Inv R (λ _ _ _, True) w ps w' ps') as (? & ? & _); try done.
  intros i p Hp. apply program_safe. rewrite Forall_lookup in Hps. eauto.
Qed.

(** C21. "Update all" is canary first, in every interleaving of any number of drivers and
    everything else: when a frame of a run goes out to the node at position [p], that node is the
    run's at [p]; every position before it was passed; the canary's was not passed over; a
    position passed by an update was passed by that run's own update, after the node's report that
    it is confirmed; and the frame carries the version and an archive of a release that matches
    the run's pin. *)
Theorem update_all_canary_first (w : World) (ps : list (prog World unit)) (w' : World) (ps' : list (prog World unit))
    (pre post : list UpdateEvent) u node frame b p row live update :
  blank w → Forall UpdateProgram ps → rtc step (w, ps) (w', ps') →
  w_trace w' = pre ++ Sent u node frame (Some (b, p)) row live update :: post →
  (∃ nodeIds tv td version artifacts target,
     Created b nodeIds tv td ∈ pre ∧ nodeIds !! p = Some node ∧
     pin_changed sha256 {| p_id := b; p_position := p; p_targetVersion := tv; p_targetDigest := td |}
       (Release version artifacts) = false ∧
     fr_version frame = version ∧ map_get target artifacts = Some (fr_artifact frame)) ∧
  ∀ i, (i < p)%nat → ∃ how, Passed b i how ∈ pre ∧
    match how with
    | ByUpdate v => (∃ n, Claimed v n (Some (b, i)) ∈ pre) ∧ Reported v confirmed ∈ pre
    | AlreadyCurrent => True
    | PassedOver _ => i ≠ 0%nat
    end.
Proof.
  intros Hb Hps Hsteps Ht. destruct (programs_safe _ _ _ _ (blank_inv _ Hb) Hps Hsteps) as [Hi _].
  destruct (inv_trace _ Hi _ _ _ Ht) as (_ & _ & _ & _ & Hpassed & (nodeIds & tv & td & H1 & H2 & v & arts & tg & H3 & H4 & H5)).
  split; [by exists nodeIds, tv, td, v, arts, tg|].
  intros i Hlt. destruct (Hpassed i Hlt) as [how Hin]. exists how. split; [done|].
  apply list_elem_of_split in Hin as (t1 & t2 & Hpre).
  destruct (inv_trace _ Hi t1 (Passed b i how) (t2 ++ Sent u node frame (Some (b, p)) row live update :: post)) as [_ Hok].
  { by rewrite Ht Hpre -app_assoc. }
  destruct how as [v'| |]; [|done..]. destruct Hok as [[n Hn] Hrep].
  split; [exists n|]; rewrite Hpre; apply elem_of_app; by left.
Qed.

(** Every [agent.update] that goes out, in every interleaving, was authorised when it went
    out: on the node's row as locked and the session at the socket, the node was ONLINE on the
    session's own connection, of the same owner, with Full control on both, the browser policy
    not off, and neither the session nor the stored features opted out; the update was not ended
    and still asked for (or waiting and forced); and the frame carried the version and archive of
    that update's own row. *)
Theorem update_frames_authorised (w : World) (ps : list (prog World unit)) (w' : World) (ps' : list (prog World unit))
    u node frame batch row live update :
  blank w → Forall UpdateProgram ps → rtc step (w, ps) (w', ps') →
  Sent u node frame batch row live update ∈ w_trace w' →
  authorised row live update ∧ u_nodeId update = node ∧
  fr_version frame = u_toVersion update ∧ u_artifactSha256 update = Some (a_sha256 (fr_artifact frame)).
Proof.
  intros Hb Hps Hsteps Hin. destruct (programs_safe _ _ _ _ (blank_inv _ Hb) Hps Hsteps) as [Hi _].
  apply list_elem_of_split in Hin as (pre & post & Ht).
  destruct (inv_trace _ Hi _ _ _ Ht) as (H1 & H2 & H3 & H4 & _). done.
Qed.

(** ** Phases *)

Lemma terminal_step p q :
  phase_step p q → AGENT_UPDATE_TERMINAL p = true →
  p = timed_out ∧ (q = confirmed ∨ q = rolled_back ∨ q = failed).
Proof.
  intros [H|[H _]] Ht; [|by rewrite Ht in H]. rewrite /progressAllowed Ht in H.
  apply andb_true_iff in H as [Hp%bool_decide_eq_true Hq]. split; [done|]. destruct q; try done; auto.
Qed.

Lemma terminal_final p q :
  rtc phase_step p q → AGENT_UPDATE_TERMINAL p = true →
  q = p ∨ (p = timed_out ∧ (q = confirmed ∨ q = rolled_back ∨ q = failed)).
Proof.
  induction 1 as [p|p x q Hs Hrest IH]; intros Ht; [by left|]. right.
  destruct (terminal_step _ _ Hs Ht) as [-> Hx]. split; [done|].
  destruct IH as [->|[-> _]]; [by destruct Hx as [->|[->| ->]]|done|by destruct Hx as [?|[?|?]]].
Qed.

Lemma restart_step p q : phase_step p q → 4 ≤ PHASE_ORDER p → PHASE_ORDER p ≤ PHASE_ORDER q.
Proof.
  intros [H|[H ->]] Hp; [|destruct p; cbn in *; lia]. rewrite /progressAllowed in H.
  destruct p; cbn in Hp; try lia; cbn in H; try done; destruct q; cbn in *; try done; lia.
Qed.

Lemma restart_forward p q : rtc phase_step p q → 4 ≤ PHASE_ORDER p → PHASE_ORDER p ≤ PHASE_ORDER q.
Proof.
  induction 1 as [p|p x q Hs Hrest IH]; intros Hp; [lia|]. pose proof (restart_step _ _ Hs Hp). specialize (IH ltac:(lia)). lia.
Qed.

(** The life of an update row, in every interleaving from a state that keeps the invariant:
    it is ended exactly in a terminal phase and has a deadline exactly until then; a node never
    has two updates in flight; a row found again later is the same update (owner, node, version,
    archive), an ended one kept its phase (or the node's final word replaced the server's
    timed_out), and one that was armed never went back before it. *)
Theorem update_row_life (w : World) (ps : list (prog World unit)) (w' : World) (ps' : list (prog World unit)) :
  Inv w → Forall UpdateProgram ps → rtc step (w, ps) (w', ps') →
  (∀ u r, w_updates w' !! u = Some r →
     (u_endedAt r = None ↔ AGENT_UPDATE_TERMINAL (u_phase r) = false) ∧
     (u_deadlineAt r = None ↔ AGENT_UPDATE_TERMINAL (u_phase r) = true)) ∧
  (∀ u1 u2 r1 r2, w_updates w' !! u1 = Some r1 → w_updates w' !! u2 = Some r2 →
     u_nodeId r1 = u_nodeId r2 → AGENT_UPDATE_TERMINAL (u_phase r1) = false →
     AGENT_UPDATE_TERMINAL (u_phase r2) = false → u1 = u2) ∧
  (∀ u r r', w_updates w !! u = Some r → w_updates w' !! u = Some r' →
     u_userId r' = u_userId r ∧ u_nodeId r' = u_nodeId r ∧ u_toVersion r' = u_toVersion r ∧
     u_artifactSha256 r' = u_artifactSha256 r ∧
     (AGENT_UPDATE_TERMINAL (u_phase r) = true →
        u_phase r' = u_phase r ∨
        (u_phase r = timed_out ∧ (u_phase r' = confirmed ∨ u_phase r' = rolled_back ∨ u_phase r' = failed))) ∧
     (4 ≤ PHASE_ORDER (u_phase r) → PHASE_ORDER (u_phase r) ≤ PHASE_ORDER (u_phase r'))).
Proof.
  intros Hi Hps Hsteps. destruct (programs_safe _ _ _ _ Hi Hps Hsteps) as [Hi' HR]. split_and!.
  - intros u r Hr. by destruct (inv_rows _ Hi' u r Hr) as (_ & ? & ? & _).
  - intros u1 u2 r1 r2 H1 H2 Hn Ht1 Ht2. apply (inv_one _ Hi' u1 u2 r1 r2); try done.
    + by apply (inv_rows _ Hi' u1 r1 H1).
    + by apply (inv_rows _ Hi' u2 r2 H2).
  - intros u r r' Hr Hr'.
    destruct (R_row _ _ _ _ _ HR (proj1 (inv_rows _ Hi u r Hr)) Hr Hr') as (Hp & E1 & E2 & _ & E4 & E5).
    split_and!; [done..|by apply terminal_final|by apply restart_forward].
Qed.

End Runs.

(** ** An example run *)

Module ExampleRun.
Definition sha (s : jstr) : jstr := s.
Definition selfUpdate : NodeSelfUpdate :=
  {| su_strategies := [js "self-replace"]; su_instancesSurvive := true; su_remoteOff := false |}.
Definition node : UpdateNodeRow :=
  {| n_userId := "o"; n_online := true; n_generation := 3; n_trust := Some FULL; n_trustLowerRequested := false;
     n_cliVersion := Some (js "0.4.2");
     n_build := Some {| b_commit := None; b_installMethod := script; b_target := js "x86_64-unknown-linux-gnu" |};
     n_selfUpdate := Some selfUpdate; n_policyOff := false |}.
Definition session : LiveNode :=
  {| lv_userId := "o"; lv_generation := 3; lv_trust := FULL; lv_selfUpdate := Some selfUpdate |}.
Definition release : AgentUpdateRelease :=
  Release (js "0.4.3") [(js "x86_64-unknown-linux-gnu", {| a_url := js "https://r/x"; a_sha256 := js "ab" |})].
Definition server : ServerInfo := {| sv_version := js "0.4.3"; sv_commit := None; sv_windowsUpdates := false |}.
Definition w0 : World :=
  mkWorld {[ "n1" := node; "n2" := node ]} {[ "n1" := session; "n2" := session ]} release server ∅ ∅ [].
Definition fine : Faults := {| f_socket := true; f_lock := false; f_commit := false; f_undo := false |}.
Definition view (id : string) (slug : jstr) (running : Z) : NodeView :=
  {| nv_candidate := {| cd_nodeId := id; cd_slug := slug; cd_running := running |}; nv_canUpdate := true; nv_blocked := None |}.
Definition p1 : prog World unit :=
  prog_map (λ _, tt) (startAll sha "o" None [view "n2" (js "b") 2; view "n1" (js "a") 1] release "run" (λ _, "u1"%string) (λ _, fine) 1000).
Definition p2 : prog World unit :=
  prog_map (λ _, tt) (applyAgentUpdateProgress "n1" "o"
    {| pf_updateId := "u1"; pf_phase := confirmed; pf_reason := NoReason; pf_availableVersion := None |} (Some 3) 2000).
Definition p3 : prog World unit := advanceAgentUpdateBatch sha "run" (λ _, "u2"%string) (λ _, fine) 3000.
Definition w1 : World := (run p1 w0).2.
Definition w2 : World := (run p2 w1).2.
Definition w3 : World := (run p3 w2).2.

Lemma steps : rtc step (w0, [p1; p2; p3]) (w3, [Done tt; Done tt; Done tt]).
Proof.
  pose proof (steps_run p1 w0 [p1; p2; p3] 0 eq_refl) as H1.
  pose proof (steps_run p2 w1 [Done (run p1 w0).1; p2; p3] 1 eq_refl) as H2.
  pose proof (steps_run p3 w2 [Done (run p1 w0).1; Done (run p2 w1).1; p3] 2 eq_refl) as H3.
  destruct (run p1 w0).1, (run p2 w1).1, (run p3 w2).1.
  etrans; [exact H1|]. etrans; [exact H2|exact H3].
Qed.

Lemma sent_at n (t : list UpdateEvent) (P : string → UpdateFrame → option (string * nat) → Prop) :
  match drop n t with Sent _ node frame batch _ _ _ :: _ => P node frame batch | _ => False end →
  ∃ u node frame batch row live update post,
    P node frame batch ∧ t = take n t ++ Sent u node frame batch row live update :: post.
Proof.
  intros H. pose proof (take_drop n t) as Ht.
  destruct (drop n t) as [|[|u node frame batch row live update| | |] post]; try done.
  exists u, node, frame, batch, row, live, update, post. by rewrite Ht.
Qed.

Lemma programs : Forall (UpdateProgram sha) [p1; p2; p3].
Proof. repeat constructor. Qed.
End ExampleRun.

Lemma update_all_canary_first_witness :
  ∃ pre u node frame row live update post,
    w_trace ExampleRun.w3 = pre ++ Sent u node frame (Some ("run"%string, 1%nat)) row live update :: post ∧
    node = "n2"%string ∧ fr_version frame = js "0.4.3" ∧
    ∀ i, (i < 1)%nat → ∃ how, Passed "run" i how ∈ pre ∧
      match how with
      | ByUpdate v => (∃ n, Claimed v n (Some ("run"%string, i)) ∈ pre) ∧ Reported v confirmed ∈ pre
      | AlreadyCurrent => True
      | PassedOver _ => i ≠ 0%nat
      end.
Proof.
  destruct (ExampleRun.sent_at 6 (w_trace ExampleRun.w3)
              (λ node frame batch, batch = Some ("run"%string, 1%nat) ∧ node = "n2"%string ∧ fr_version frame = js "0.4.3"))
    as (u & node & frame & batch & row & live & update & post & (-> & Hn & Hv) & Ht).
  { vm_compute. split_and!; reflexivity. }
  exists (take 6 (w_trace ExampleRun.w3)), u, node, frame, row, live, update, post.
  split; [exact Ht|]. split; [exact Hn|]. split; [exact Hv|].
  apply (update_all_canary_first ExampleRun.sha ExampleRun.w0 [ExampleRun.p1; ExampleRun.p2; ExampleRun.p3] ExampleRun.w3
           [Done tt; Done tt; Done tt] (take 6 (w_trace ExampleRun.w3)) post u node frame "run" 1 row live update).
  - split_and!; reflexivity.
  - apply ExampleRun.programs.
  - apply ExampleRun.steps.
  - exact Ht.
Defined.

Lemma update_frames_authorised_witness :
  ∃ u node frame batch row live update, Sent u node frame batch row live update ∈ w_trace ExampleRun.w3 ∧
    authorised row live update ∧ fr_version frame = u_toVersion update.
Proof.
  destruct (ExampleRun.sent_at 2 (w_trace ExampleRun.w3) (λ _ _ _, True))
    as (u & node & frame & batch & row & live & update & post & _ & Ht); [vm_compute; exact I|].
  assert (Sent u node frame batch row live update ∈ w_trace ExampleRun.w3) as Hin.
  { rewrite Ht. apply elem_of_app. right. by left. }
  exists u, node, frame, batch, row, live, update. split; [exact Hin|].
  destruct (update_frames_authorised ExampleRun.sha ExampleRun.w0 [ExampleRun.p1; ExampleRun.p2; ExampleRun.p3] ExampleRun.w3
           [Done tt; Done tt; Done tt] u node frame batch row live update) as (H1 & _ & H2 & _).
  - split_and!; reflexivity.
  - apply ExampleRun.programs.
  - apply ExampleRun.steps.
  - exact Hin.
  - split; [exact H1|exact H2].
Defined.

Lemma update_row_life_witness :
  (∃ r, w_updates ExampleRun.w3 !! "u1" = Some r ∧ u_phase r = confirmed) ∧
  ∀ u1 u2 r1 r2, w_updates ExampleRun.w3 !! u1 = Some r1 → w_updates ExampleRun.w3 !! u2 = Some r2 →
    u_nodeId r1 = u_nodeId r2 → AGENT_UPDATE_TERMINAL (u_phase r1) = false →
    AGENT_UPDATE_TERMINAL (u_phase r2) = false → u1 = u2.
Proof.
  split; [eexists; vm_compute; split; reflexivity|].
  apply (update_row_life ExampleRun.sha ExampleRun.w0 [ExampleRun.p1; ExampleRun.p2; ExampleRun.p3] ExampleRun.w3
           [Done tt; Done tt; Done tt]).
  - apply blank_inv. split_and!; reflexivity.
  - apply ExampleRun.programs.
  - apply ExampleRun.steps.
Defined.
