(* ===== verification/SpendModel.v ===== *)
(** * SpendModel: cloud spend admission and accounting

    [apps/server/src/model-api/provider-budget.ts] (admission, reconciliation, crash repair) over
    the rows [attempt], [spend_reservation], [spend_settlement], [usage_ledger] and [spend_cap],
    and the consumption reads of [packages/db/src/spend.ts].

    A transaction is one step on the tables: admissions of one account (and of one share) are
    serialized by the subject fences, those of one attempt by the attempt fence, and the
    consumption of a cap is read in one statement. Amounts are whole numbers of 10^-9 of the
    currency ([numeric(30, 9)]), added exactly. [SpendSafety] has the theorems. *)
From Stdlib Require Import ssreflect.
From S2P Require Import Prelude JsString.

(** ** Calendar months *)

(** The month of a day since 1970-01-01, in months since year 0 of the proleptic Gregorian
    calendar: [getUTCFullYear() * 12 + getUTCMonth()]. Years are counted from March. *)
Definition month_of_day (day : Z) : Z :=
  let z := day + 719468 in
  let era := z / 146097 in
  let doe := z mod 146097 in
  let yoe := (doe - doe / 1460 + doe / 36524 - doe / 146096) / 365 in
  let doy := doe - (365 * yoe + yoe / 4 - yoe / 100) in
  let mp := (5 * doy + 2) / 153 in
  (era * 400 + yoe) * 12 + mp + 2.

(** The month of an instant in milliseconds. *)
Definition month_of (t : Z) : Z := month_of_day (t / 86400000).

(** [utcMonthWindow]: [start <= t < end] for the month containing [now]. *)
Definition in_month (now t : Z) : bool := month_of t =? month_of now.

(** ** Rows *)

Inductive AttemptState : Type := ACTIVE | COMPLETED | FAILED | CANCELLED | EXPIRED.
#[export] Instance AttemptState_eq : EqDecision AttemptState.
Proof. solve_decision. Defined.

Inductive CapScope : Type := PROVIDER_ACCOUNT | SHARE.
#[export] Instance CapScope_eq : EqDecision CapScope.
Proof. solve_decision. Defined.

Record CapRow : Type := {
  cap_id : string;
  cap_userId : string;
  cap_scope : CapScope;
  cap_subject : string; (* the provider account, or the share *)
  cap_monthlyLimit : Z;
  cap_currency : jstr;
  cap_version : Z;
}.

(** An [attempt] row of kind CLOUD (rows of kind LOCAL carry no liability). *)
Record Anchor : Type := mkAnchor {
  a_id : string;
  a_cloud : bool;
  a_state : AttemptState;
  a_userId : string;
  a_requestId : string;
  a_accountId : string;
  a_modelId : string;
  a_credentialId : option string;
  a_poolId : option string;
  a_shareId : option string;
  a_fencingToken : Z;
  a_expiresAt : Z;
  a_liabilityTokens : option Z;
  a_liabilitySpend : option Z;
  a_liabilityCurrency : option jstr;
  a_pricingVersion : option jstr;
  a_accountingVersion : jstr;
}.

Inductive RevisionKind : Type := SNAPSHOT | DELTA.
#[export] Instance RevisionKind_eq : EqDecision RevisionKind.
Proof. solve_decision. Defined.

Inductive TerminalReason : Type := RCOMPLETED | RFAILED | RCANCELLED | RTIMEOUT | CRASH_RECOVERY.
#[export] Instance TerminalReason_eq : EqDecision TerminalReason.
Proof. solve_decision. Defined.

Inductive UsageConfidence : Type := REPORTED | CALCULATED | ESTIMATED.
#[export] Instance UsageConfidence_eq : EqDecision UsageConfidence.
Proof. solve_decision. Defined.

(** A [usage_ledger] row; rows are only added. *)
Record Revision : Type := {
  r_attemptId : string;
  r_fencingToken : Z;
  r_accountId : string;
  r_shareId : option string;
  r_sequence : Z;
  r_kind : RevisionKind;
  r_settledCost : option Z;
  r_currency : option jstr;
  r_costKnown : bool;
  r_payloadHash : jstr;
  r_billableTotal : option Z;
  r_usageKnown : bool;
  r_confidence : UsageConfidence;
  r_terminalReason : TerminalReason;
  r_createdAt : Z;
}.

Record Reservation : Type := mkReservation {
  v_id : string;
  v_capId : string;
  v_attemptId : string;
  v_fencingToken : Z;
  v_reservedValue : Z;
  v_currency : jstr;
  v_settled : bool; (* RESERVED, then SETTLED *)
  v_settledValue : Z;
}.

Record Settlement : Type := {
  t_reservationId : string;
  t_sequence : Z;
  t_kind : RevisionKind;
  t_settledValue : Z;
  t_confidence : UsageConfidence;
}.

Record ModelRow : Type := { m_id : string; m_userId : string; m_accountId : string; m_enabled : bool }.

Record PricingRow : Type := {
  g_userId : string;
  g_accountId : string;
  g_modelId : string;
  g_version : jstr;
  g_currency : jstr;
  g_inEffect : bool; (* ACTIVE or RETIRED, and activated *)
  g_effectiveAt : Z;
  g_retiredAt : option Z;
}.

Record Db : Type := mkDb {
  db_now : Z; (* [clock_timestamp()] of the transaction *)
  db_caps : list CapRow;
  db_models : list ModelRow;
  db_pricing : list PricingRow;
  db_attempts : list Anchor;
  db_ledger : list Revision;
  db_reservations : list Reservation;
  db_settlements : list Settlement;
}.

(** ** Consumption ([packages/db/src/spend.ts]) *)

Definition sum_of {A} (f : A → Z) (l : list A) : Z := fold_left (λ s a, s + f a) l 0.

Definition of_attempt (id : string) (token : Z) (r : Revision) : bool :=
  bool_decide (r_attemptId r = id) && (r_fencingToken r =? token).

(** The revisions of one attempt fence. *)
Definition revisions (id : string) (token : Z) (ledger : list Revision) : list Revision :=
  List.filter (of_attempt id token) ledger.

(** [MAX("revisionSequence") FILTER (WHERE "revisionKind" = 'SNAPSHOT')]. *)
Definition snapshotSequence (revs : list Revision) : option Z :=
  fold_left (λ m r, if bool_decide (r_kind r = SNAPSHOT)
                    then Some (match m with Some x => Z.max x (r_sequence r) | None => r_sequence r end)
                    else m) revs None.

(** [COUNTED_REVISION]. *)
Definition counted (revs : list Revision) (r : Revision) : bool :=
  bool_decide (is_Some (r_settledCost r))
  && match snapshotSequence revs with None => true | Some s => s <=? r_sequence r end.

(** [first_in_window]: the attempt has a revision in the month and none before it. *)
Definition first_in_window (now : Z) (ledger : list Revision) (id : string) (token : Z) : bool :=
  existsb (λ r, in_month now (r_createdAt r)) (revisions id token ledger)
  && negb (existsb (λ r, month_of (r_createdAt r) <? month_of now) (revisions id token ledger)).

(** [settledLedgerSql]: the counted revisions, in the currency, of the scope's attempts whose
    first revision is in the month. *)
Definition settledSpend (scope : Revision → bool) (currency : jstr) (now : Z) (ledger : list Revision) : Z :=
  sum_of (λ r, default 0 (r_settledCost r))
    (List.filter (λ r,
       existsb (λ x, scope x && of_attempt (r_attemptId r) (r_fencingToken r) x && in_month now (r_createdAt x)) ledger
       && first_in_window now ledger (r_attemptId r) (r_fencingToken r)
       && bool_decide (r_currency r = Some currency)
       && counted (revisions (r_attemptId r) (r_fencingToken r) ledger) r) ledger).

(** [IN_FLIGHT_ATTEMPT]: ACTIVE, with no revision yet. *)
Definition in_flight (ledger : list Revision) (a : Anchor) : bool :=
  a_cloud a && bool_decide (a_state a = ACTIVE)
  && negb (existsb (of_attempt (a_id a) (a_fencingToken a)) ledger).

(** [reservedAttemptSql]. *)
Definition reservedSpend (scope : Anchor → bool) (currency : jstr) (db : Db) : Z :=
  sum_of (λ a, default 0 (a_liabilitySpend a))
    (List.filter (λ a, scope a && bool_decide (a_liabilityCurrency a = Some currency) && in_flight (db_ledger db) a)
       (db_attempts db)).

(** The subject of a cap, on ledger rows and on attempts. *)
Definition ledger_scope (scope : CapScope) (subject : string) (r : Revision) : bool :=
  match scope with
  | PROVIDER_ACCOUNT => bool_decide (r_accountId r = subject)
  | SHARE => bool_decide (r_shareId r = Some subject)
  end.

Definition attempt_scope (scope : CapScope) (subject : string) (a : Anchor) : bool :=
  match scope with
  | PROVIDER_ACCOUNT => bool_decide (a_accountId a = subject)
  | SHARE => bool_decide (a_shareId a = Some subject)
  end.

(** [providerAccountSpend] and [shareSpend]: settled this month and reserved now. *)
Definition spendUsage (scope : CapScope) (subject : string) (currency : jstr) (db : Db) : Z * Z :=
  (settledSpend (ledger_scope scope subject) currency (db_now db) (db_ledger db),
   reservedSpend (attempt_scope scope subject) currency db).

(** ** Admission *)

Definition MAX_SIGNED_BIGINT : Z := 9223372036854775807.

Record Liability : Type := {
  li_tokens : option Z;
  li_spend : option Z;
  li_currency : option jstr;
  li_pricingVersion : option jstr;
  li_accountingVersion : jstr;
}.

Record BudgetAttempt : Type := {
  at_userId : string;
  at_accountId : string;
  at_modelId : string;
  at_credentialId : option string;
  at_poolId : option string;
  at_shareId : option string;
  at_requestId : string;
  at_attemptId : string;
  at_fencingToken : Z;
  at_liability : Liability;
  at_expiresAt : Z;
}.

Inductive Denial : Type :=
  | BUDGET_EXCEEDED | GRANTEE_BUDGET_EXCEEDED | GRANTEE_CAP_UNPRICEABLE | CURRENCY_UNAVAILABLE | PRICING_UNAVAILABLE.

(** A [ProviderBudgetConfigurationError]. *)
Inductive BudgetError : Type :=
  | Invalid_amount | Version_required | Invalid_currency | Invalid_usage | Ambiguous_accounting | Invalid_identity
  | Unpriced_liability | Cap_payer | Expiry_past | Identity_conflict | Not_replayable | Model_unavailable
  | Invalid_fence | Not_sent_shape | Conflicting_completeness | No_attempt | Terminal_conflict
  | Revision_conflict | Stale_revision.

Inductive outcome (A : Type) : Type := Returns (a : A) | Throws (e : BudgetError).
Arguments Returns {A} a.
Arguments Throws {A} e.

Definition outcome_bind {A B} (m : outcome A) (k : A → outcome B) : outcome B :=
  match m with Returns a => k a | Throws e => Throws e end.

Notation "'try!' x ':=' m 'in' k" := (outcome_bind m (λ x, k))
  (at level 200, x pattern, m at level 100, k at level 200, right associativity).

Definition throw_unless (b : bool) (e : BudgetError) : outcome unit := if b then Returns tt else Throws e.

Definition decimal (value : Z) : outcome Z := if value <? 0 then Throws Invalid_amount else Returns value.

Fixpoint trim_start (s : jstr) : jstr :=
  match s with c :: r => if js_space c then trim_start r else s | [] => [] end.

Definition trim (s : jstr) : jstr := rev (trim_start (rev (trim_start s))).

Definition normalizedVersion (value : option jstr) : outcome jstr :=
  match trim <$> value with
  | Some ((_ :: _) as v) => Returns v
  | _ => Throws Version_required
  end.

Definition validToken (value : option Z) : bool :=
  match value with None => true | Some v => (0 <=? v) && (v <=? MAX_SIGNED_BIGINT) end.

Inductive Admission : Type :=
  | Admitted_ (attemptId : string) (reservationIds : list string)
  | Denied (reason : Denial) (capId : string).

Definition capDenial (cap : CapRow) (reason : Denial) : Admission :=
  Denied (match cap_scope cap, reason with
          | SHARE, BUDGET_EXCEEDED => GRANTEE_BUDGET_EXCEEDED
          | SHARE, _ => GRANTEE_CAP_UNPRICEABLE
          | PROVIDER_ACCOUNT, r => r
          end) (cap_id cap).

Section Runtime.
(** [String.prototype.toUpperCase]. *)
Variable toUpperCase : jstr → jstr.

Definition normalizedCurrency (value : option jstr) : outcome (option jstr) :=
  match value with
  | None => Returns None
  | Some v => let n := toUpperCase (trim v) in
              if (length n =? 3)%nat && forallb is_upper n then Returns (Some n) else Throws Invalid_currency
  end.

Definition optional_version (value : option jstr) : outcome (option jstr) :=
  match value with None => Returns None | Some v => try! n := normalizedVersion (Some v) in Returns (Some n) end.

Definition optional_decimal (value : option Z) : outcome (option Z) :=
  match value with None => Returns None | Some v => try! n := decimal v in Returns (Some n) end.

(** The liability as admission reads it, or the configuration error. *)
Record Priced : Type := {
  pr_accountingVersion : jstr;
  pr_currency : option jstr;
  pr_pricingVersion : option jstr;
  pr_spend : option Z;
}.

Definition read_liability (attempt : BudgetAttempt) : outcome Priced :=
  let l := at_liability attempt in
  try! _ := throw_unless ((0 <? at_fencingToken attempt) && (at_fencingToken attempt <=? MAX_SIGNED_BIGINT)
                          && validToken (li_tokens l)) Invalid_identity in
  try! accountingVersion := normalizedVersion (Some (li_accountingVersion l)) in
  try! currency := normalizedCurrency (li_currency l) in
  try! pricingVersion := optional_version (li_pricingVersion l) in
  try! spend := optional_decimal (li_spend l) in
  try! _ := throw_unless (match spend with
                          | Some _ => bool_decide (is_Some currency) && bool_decide (is_Some pricingVersion)
                          | None => true
                          end) Unpriced_liability in
  Returns {| pr_accountingVersion := accountingVersion; pr_currency := currency;
             pr_pricingVersion := pricingVersion; pr_spend := spend |}.

(** [readCaps]: by subject, the account's cap first. *)
Definition binds (attempt : BudgetAttempt) (cap : CapRow) : bool :=
  match cap_scope cap with
  | PROVIDER_ACCOUNT => bool_decide (cap_subject cap = at_accountId attempt)
  | SHARE => match at_shareId attempt with
             | Some ("" as s) => false
             | Some s => bool_decide (cap_subject cap = s)
             | None => false
             end
  end.

Definition cap_compare (l r : CapRow) : Z :=
  if bool_decide (cap_scope l = cap_scope r)
  then (if code_units_compare (code_units (cap_id l)) (code_units (cap_id r)) <? 0 then -1 else 1)
  else if bool_decide (cap_scope l = PROVIDER_ACCOUNT) then -1 else 1.

Definition readCaps (attempt : BudgetAttempt) (db : Db) : outcome (list CapRow) :=
  let caps := List.filter (binds attempt) (db_caps db) in
  if existsb (λ cap, negb (bool_decide (cap_userId cap = at_userId attempt))) caps then Throws Cap_payer
  else Returns (sort_by cap_compare caps).

Definition find_attempt (id : string) (db : Db) : option Anchor :=
  List.find (λ a, bool_decide (a_id a = id)) (db_attempts db).

(** A retried delivery of the same admission. *)
Definition exact_replay (attempt : BudgetAttempt) (p : Priced) (a : Anchor) : bool :=
  a_cloud a
  && bool_decide (a_fencingToken a = at_fencingToken attempt ∧ a_userId a = at_userId attempt
       ∧ a_requestId a = at_requestId attempt ∧ a_accountId a = at_accountId attempt
       ∧ a_modelId a = at_modelId attempt ∧ a_credentialId a = at_credentialId attempt
       ∧ a_poolId a = at_poolId attempt ∧ a_shareId a = at_shareId attempt
       ∧ a_liabilityTokens a = li_tokens (at_liability attempt) ∧ a_liabilitySpend a = pr_spend p
       ∧ a_liabilityCurrency a = pr_currency p ∧ a_pricingVersion a = pr_pricingVersion p
       ∧ a_accountingVersion a = pr_accountingVersion p).

Definition attempt_reservations (id : string) (token : Z) (db : Db) : list Reservation :=
  List.filter (λ v, bool_decide (v_attemptId v = id) && (v_fencingToken v =? token)) (db_reservations db).

(** Ids are ASCII ([cuid]), so the database's order and the code-unit order agree. *)
Definition sort_ids (ids : list string) : list string :=
  sort_by (λ a b, code_units_compare (code_units a) (code_units b)) ids.

Definition replay (attempt : BudgetAttempt) (p : Priced) (a : Anchor) (db : Db) : outcome Admission :=
  try! _ := throw_unless (exact_replay attempt p a) Identity_conflict in
  let mine := attempt_reservations (at_attemptId attempt) (at_fencingToken attempt) db in
  try! _ := throw_unless (bool_decide (a_state a = ACTIVE) && (db_now db <? a_expiresAt a)
                          && negb (existsb (of_attempt (at_attemptId attempt) (at_fencingToken attempt)) (db_ledger db)))
              Not_replayable in
  try! _ := throw_unless (forallb (λ v, negb (v_settled v)) mine) Not_replayable in
  Returns (Admitted_ (a_id a) (sort_ids (v_id <$> mine))).

Definition pricing_in_effect (attempt : BudgetAttempt) (version currency : jstr) (db : Db) : bool :=
  existsb (λ g, bool_decide (g_userId g = at_userId attempt ∧ g_accountId g = at_accountId attempt
                             ∧ g_modelId g = at_modelId attempt ∧ g_version g = version ∧ g_currency g = currency)
                && g_inEffect g && (g_effectiveAt g <=? db_now db)
                && match g_retiredAt g with None => true | Some t => db_now db <? t end) (db_pricing db).

(** The first cap this liability would exceed. *)
Definition exceeded (caps : list CapRow) (attempt : BudgetAttempt) (currency : jstr) (spend : Z) (db : Db) : option CapRow :=
  List.find (λ cap,
    let subject := match cap_scope cap with
                   | SHARE => default ""%string (at_shareId attempt)
                   | PROVIDER_ACCOUNT => at_accountId attempt
                   end in
    let '(spent, reserved) := spendUsage (cap_scope cap) subject currency db in
    cap_monthlyLimit cap <? spent + reserved + spend) caps.

(** The refusal of the caps, if any. *)
Definition caps_refuse (caps : list CapRow) (attempt : BudgetAttempt) (p : Priced) (db : Db) : option Admission :=
  match caps with
  | [] => None
  | cap0 :: _ =>
      match pr_spend p, pr_currency p, pr_pricingVersion p with
      | Some spend, Some currency, Some version =>
          match List.find (λ cap, negb (str_eqb (cap_currency cap) currency)) caps with
          | Some cap => Some (capDenial cap CURRENCY_UNAVAILABLE)
          | None =>
              if negb (pricing_in_effect attempt version currency db) then Some (capDenial cap0 PRICING_UNAVAILABLE)
              else match exceeded caps attempt currency spend db with
                   | Some cap => Some (capDenial cap BUDGET_EXCEEDED)
                   | None => None
                   end
          end
      | _, _, _ => Some (capDenial cap0 PRICING_UNAVAILABLE)
      end
  end.

Definition new_anchor (attempt : BudgetAttempt) (p : Priced) : Anchor :=
  mkAnchor (at_attemptId attempt) true ACTIVE (at_userId attempt) (at_requestId attempt) (at_accountId attempt)
    (at_modelId attempt) (at_credentialId attempt) (at_poolId attempt) (at_shareId attempt) (at_fencingToken attempt)
    (at_expiresAt attempt) (li_tokens (at_liability attempt)) (pr_spend p) (pr_currency p) (pr_pricingVersion p)
    (pr_accountingVersion p).

Definition new_reservations (attempt : BudgetAttempt) (p : Priced) (caps : list CapRow) (ids : list string)
  : list Reservation :=
  zip_with (λ cap id, mkReservation id (cap_id cap) (at_attemptId attempt) (at_fencingToken attempt)
                        (default 0 (pr_spend p)) (cap_currency cap) false 0) caps ids.

(** [admitProviderBudget]; [ids] are the reservations' generated ids. *)
Definition admitProviderBudget (attempt : BudgetAttempt) (ids : list string) (db : Db) : outcome Admission * Db :=
  match read_liability attempt with
  | Throws e => (Throws e, db)
  | Returns p =>
      match readCaps attempt db with
      | Throws e => (Throws e, db)
      | Returns caps =>
          if at_expiresAt attempt <=? db_now db then (Throws Expiry_past, db)
          else match find_attempt (at_attemptId attempt) db with
               | Some a => (replay attempt p a db, db)
               | None =>
                   if negb (existsb (λ m, bool_decide (m_id m = at_modelId attempt ∧ m_userId m = at_userId attempt
                                                       ∧ m_accountId m = at_accountId attempt) && m_enabled m) (db_models db))
                   then (Throws Model_unavailable, db)
                   else match caps_refuse caps attempt p db with
                        | Some refusal => (Returns refusal, db)
                        | None =>
                            let made := new_reservations attempt p caps ids in
                            (Returns (Admitted_ (at_attemptId attempt) (sort_ids (v_id <$> made))),
                             mkDb (db_now db) (db_caps db) (db_models db) (db_pricing db)
                               (db_attempts db ++ [new_anchor attempt p]) (db_ledger db)
                               (db_reservations db ++ made) (db_settlements db))
                        end
               end
      end
  end.
End Runtime.
