(* ===== verification/SpendSettle.v ===== *)
(** * SpendSettle: reconciliation and crash repair of cloud attempts

    The settlement half of [apps/server/src/model-api/provider-budget.ts] ([assertUsage],
    [terminalPayloadHash], [revisionTotal], [reconcileProviderBudget], [repairExpiredAttempt],
    [repairExpiredProviderBudgets]), the token accounting of [provider-budget-accounting.ts], and
    the heartbeat's renewal of an attempt ([provider-attempt-runtime.ts]).

    The ledger row's [createdAt] is the start of its transaction, which waits on the attempt
    fence: it is an argument, not the clock read inside. *)
From Stdlib Require Import ssreflect.
From S2P Require Import Prelude JsString SpendModel.

(** ** Usage *)

Record RawProviderUsage : Type := {
  us_inputTokens : option Z;
  us_outputTokens : option Z;
  us_cacheReadTokens : option Z;
  us_cacheWriteTokens : option Z;
  us_reasoningTokens : option Z;
  us_toolTokens : option Z;
  us_additionalBillableTokens : option Z;
  us_authoritativeBillableTokens : option Z;
  us_reportedTotalTokens : option Z;
  us_categoriesComplete : option bool;
  us_rawUsage : option jstr;
  us_observationComplete : option bool;
  us_reportedCost : option Z;
  us_reportedCostCurrency : option jstr;
  us_reportedCostPricingVersion : option jstr;
  us_reportedCostSource : option jstr;
  us_calculatedCost : option Z;
  us_calculatedCostCurrency : option jstr;
  us_calculatedCostPricingVersion : option jstr;
  us_calculatedCostSource : option jstr;
  us_calculatedCostConfidence : option UsageConfidence;
  us_currency : option jstr;
  us_pricingVersion : option jstr;
  us_accountingVersion : jstr;
  us_confidence : UsageConfidence;
}.

Definition usage_tokens (u : RawProviderUsage) : list (option Z) :=
  [us_inputTokens u; us_outputTokens u; us_cacheReadTokens u; us_cacheWriteTokens u; us_reasoningTokens u;
   us_toolTokens u; us_additionalBillableTokens u; us_authoritativeBillableTokens u; us_reportedTotalTokens u].

(** [providerBillableTokens]: an authoritative total is used instead of the categories, never
    added to them. *)
Definition providerBillableTokens (u : RawProviderUsage) : option Z :=
  match us_authoritativeBillableTokens u, us_categoriesComplete u with
  | Some total, (None | Some true) => Some total
  | _, Some true =>
      Some (sum_of (default 0)
        [us_inputTokens u; us_outputTokens u; us_cacheReadTokens u; us_cacheWriteTokens u; us_reasoningTokens u;
         us_toolTokens u; us_additionalBillableTokens u])
  | _, _ => None
  end.

Record Terminal : Type := {
  te_userId : string;
  te_accountId : string;
  te_modelId : string;
  te_credentialId : option string;
  te_poolId : option string;
  te_requestId : string;
  te_attemptId : string;
  te_fencingToken : Z;
  te_reason : TerminalReason;
  te_notSent : bool; (* [dispatchOutcome === "NOT_SENT"] *)
  te_sourceVersion : option jstr;
  te_revisionSequence : Z;
  te_revisionKind : RevisionKind;
  te_usageSource : option jstr;
  te_observationComplete : option bool;
  te_usage : option RawProviderUsage;
  te_crashExpiredAt : option Z;
}.

(** [a ?? b]. *)
Definition or_else {A} (a b : option A) : option A := match a with Some _ => a | None => b end.

Section Settle.
Variable toUpperCase : jstr → jstr.
Let normalizedCurrency := normalizedCurrency toUpperCase.

Definition assertUsage (usage : option RawProviderUsage) : outcome unit :=
  match usage with
  | None => Returns tt
  | Some u =>
      try! _ := throw_unless (forallb validToken (usage_tokens u)) Invalid_usage in
      try! _ := throw_unless (negb (bool_decide (is_Some (us_authoritativeBillableTokens u))
                                    && bool_decide (us_categoriesComplete u = Some true))) Ambiguous_accounting in
      try! _ := optional_decimal (us_reportedCost u) in
      try! _ := optional_decimal (us_calculatedCost u) in
      try! _ := normalizedVersion (Some (us_accountingVersion u)) in
      try! _ := optional_version (us_pricingVersion u) in
      try! _ := normalizedCurrency (us_currency u) in
      try! _ := normalizedCurrency (us_reportedCostCurrency u) in
      try! _ := normalizedCurrency (us_calculatedCostCurrency u) in
      try! _ := optional_version (us_reportedCostPricingVersion u) in
      try! _ := optional_version (us_calculatedCostPricingVersion u) in
      try! _ := optional_version (us_reportedCostSource u) in
      try! _ := optional_version (us_calculatedCostSource u) in
      Returns tt
  end.

(** The cost fields as settlement reads them: the field, or the usage's common one. *)
Definition reportedCurrency (u : RawProviderUsage) : outcome (option jstr) :=
  normalizedCurrency (or_else (us_reportedCostCurrency u) (us_currency u)).
Definition reportedPricingVersion (u : RawProviderUsage) : option jstr :=
  trim <$> or_else (us_reportedCostPricingVersion u) (us_pricingVersion u).
Definition calculatedCurrency (u : RawProviderUsage) : outcome (option jstr) :=
  normalizedCurrency (or_else (us_calculatedCostCurrency u) (us_currency u)).
Definition calculatedPricingVersion (u : RawProviderUsage) : option jstr :=
  trim <$> or_else (us_calculatedCostPricingVersion u) (us_pricingVersion u).

(** ** The identity of a revision *)

(** The usage a revision's hash covers. *)
Record UsagePayload : Type := {
  up_tokens : list (option Z);
  up_categoriesComplete : option bool;
  up_rawUsage : option jstr;
  up_reportedCost : option Z;
  up_reportedCurrency : option jstr;
  up_reportedPricingVersion : option jstr;
  up_calculatedCost : option Z;
  up_calculatedCurrency : option jstr;
  up_calculatedPricingVersion : option jstr;
  up_calculatedConfidence : option UsageConfidence;
  up_accountingVersion : jstr;
  up_confidence : UsageConfidence;
}.

Record Payload : Type := {
  pl_identity : string * string * string * option string * option string * string * string * Z;
  pl_reason : TerminalReason;
  pl_notSent : bool;
  pl_sourceVersion : jstr;
  pl_revisionSequence : Z;
  pl_revisionKind : RevisionKind;
  pl_observationComplete : option bool;
  pl_usageSource : jstr;
  pl_usage : option UsagePayload;
}.

Definition usage_payload (u : RawProviderUsage) : outcome UsagePayload :=
  try! rc := optional_decimal (us_reportedCost u) in
  try! rcur := reportedCurrency u in
  try! cc := optional_decimal (us_calculatedCost u) in
  try! ccur := calculatedCurrency u in
  try! version := normalizedVersion (Some (us_accountingVersion u)) in
  Returns {| up_tokens := usage_tokens u; up_categoriesComplete := us_categoriesComplete u;
             up_rawUsage := us_rawUsage u; up_reportedCost := rc; up_reportedCurrency := rcur;
             up_reportedPricingVersion := reportedPricingVersion u; up_calculatedCost := cc;
             up_calculatedCurrency := ccur; up_calculatedPricingVersion := calculatedPricingVersion u;
             up_calculatedConfidence := us_calculatedCostConfidence u; up_accountingVersion := version;
             up_confidence := us_confidence u |}.

(** The SHA-256 of the canonical JSON of a payload. *)
Variable digest : Payload → jstr.

Definition terminalPayloadHash (t : Terminal) (sourceVersion usageSource : jstr) (complete : option bool)
  : outcome jstr :=
  try! usage := match te_usage t with
                | None => Returns None
                | Some u => try! p := usage_payload u in Returns (Some p)
                end in
  Returns (digest {|
    pl_identity := (te_userId t, te_accountId t, te_modelId t, te_credentialId t, te_poolId t, te_requestId t,
                    te_attemptId t, te_fencingToken t);
    pl_reason := te_reason t; pl_notSent := te_notSent t; pl_sourceVersion := sourceVersion;
    pl_revisionSequence := te_revisionSequence t; pl_revisionKind := te_revisionKind t;
    pl_observationComplete := complete; pl_usageSource := usageSource; pl_usage := usage |}).

(** ** Settlement *)

(** [revisionTotal]: the latest SNAPSHOT plus every DELTA after it. *)
Definition total_step (total : option Z) (r : Revision) : option Z :=
  match r_kind r, r_settledCost r with
  | SNAPSHOT, cost => cost
  | DELTA, Some cost => Some (default 0 total + cost)
  | DELTA, None => total
  end.

Definition revisionTotal (revs : list Revision) : option Z :=
  fold_left total_step (sort_by (λ l r, if r_sequence l <? r_sequence r then -1 else 1) revs) None.

Definition terminalState (reason : TerminalReason) : AttemptState :=
  match reason with
  | RCOMPLETED => COMPLETED
  | RCANCELLED => CANCELLED
  | CRASH_RECOVERY => EXPIRED
  | RFAILED | RTIMEOUT => FAILED
  end.

(** What the checks before the transaction give. *)
Record Checked : Type := {
  ck_complete : option bool;
  ck_payloadHash : jstr;
}.

Definition check_terminal (t : Terminal) : outcome Checked :=
  try! _ := throw_unless ((0 <? te_fencingToken t) && (te_fencingToken t <=? MAX_SIGNED_BIGINT)
                          && (0 <=? te_revisionSequence t) && (te_revisionSequence t <=? MAX_SIGNED_BIGINT))
              Invalid_fence in
  try! _ := throw_unless (negb (te_notSent t
              && (bool_decide (is_Some (te_usage t)) || bool_decide (te_reason t = RCOMPLETED)
                  || bool_decide (te_reason t = CRASH_RECOVERY) || negb (bool_decide (te_revisionKind t = SNAPSHOT)))))
              Not_sent_shape in
  try! _ := assertUsage (te_usage t) in
  let usageComplete := te_usage t ≫= us_observationComplete in
  try! _ := throw_unless (match te_observationComplete t, usageComplete with
                          | Some a, Some b => Bool.eqb a b
                          | _, _ => true
                          end) Conflicting_completeness in
  let complete := or_else (te_observationComplete t) usageComplete in
  let crash := bool_decide (te_reason t = CRASH_RECOVERY) in
  try! sourceVersion := normalizedVersion
         (or_else (te_sourceVersion t) (Some (if crash then js "crash-recovery-v1" else js "terminal-v1"))) in
  try! usageSource := normalizedVersion
         (or_else (te_usageSource t) (Some (if crash then js "crash-repair" else js "terminal"))) in
  try! hash := terminalPayloadHash t sourceVersion usageSource complete in
  Returns {| ck_complete := complete; ck_payloadHash := hash |}.

(** A cost is in the attempt's own price when its version and its currency are. *)
Definition cost_matches (a : Anchor) (cost : option Z) (version currency : option jstr) : bool :=
  bool_decide (is_Some cost)
  && match a_pricingVersion a with Some (_ :: _) => true | _ => false end
  && match a_liabilityCurrency a with Some (_ :: _) => true | _ => false end
  && bool_decide (version = a_pricingVersion a) && bool_decide (currency = a_liabilityCurrency a).

Record Cost : Type := {
  co_revisionCost : option Z;
  co_currency : option jstr;
  co_known : bool;
  co_confidence : UsageConfidence;
  co_total : option Z;
}.

(** [total]: a SNAPSHOT replaces, a DELTA adds. *)
Definition new_total (kind : RevisionKind) (cost prior : option Z) : option Z :=
  match kind, cost with
  | SNAPSHOT, _ => cost
  | DELTA, None => prior
  | DELTA, Some c => Some (default 0 prior + c)
  end.

(** The cost of a revision ([reportedMatches] to [total]). *)
Definition revision_cost (a : Anchor) (t : Terminal) (complete : option bool) (previous : list Revision) : outcome Cost :=
  let usage := te_usage t in
  try! rcur := match usage with Some u => reportedCurrency u | None => Returns None end in
  try! ccur := match usage with Some u => calculatedCurrency u | None => Returns None end in
  let reportedCost := usage ≫= us_reportedCost in
  let calculatedCost := usage ≫= us_calculatedCost in
  let reportedMatches := cost_matches a reportedCost (usage ≫= reportedPricingVersion) rcur in
  let calculatedMatches := cost_matches a calculatedCost (usage ≫= calculatedPricingVersion) ccur in
  let supplied := if reportedMatches then reportedCost else if calculatedMatches then calculatedCost else None in
  let known := negb (te_notSent t) && bool_decide (is_Some supplied) && bool_decide (complete = Some true) in
  let prior := revisionTotal previous in
  try! (cost, currency, confidence) :=
    (if te_notSent t then Returns (Some 0, a_liabilityCurrency a, ESTIMATED)
     else match known, supplied, a_liabilitySpend a, reportedCost, rcur with
          | true, Some c, _, _, _ =>
              try! c := decimal c in
              Returns (Some c, a_liabilityCurrency a,
                       if reportedMatches then REPORTED
                       else default CALCULATED (usage ≫= us_calculatedCostConfidence))
          | _, _, Some liability, _, _ =>
              Returns (Some (match te_revisionKind t with
                             | SNAPSHOT => liability
                             | DELTA => Z.max 0 (liability - default 0 prior)
                             end), a_liabilityCurrency a, ESTIMATED)
          | _, _, None, Some reported, Some (_ :: _) =>
              try! reported := decimal reported in Returns (Some reported, rcur, REPORTED)
          | _, _, None, _, _ => Returns (None, a_liabilityCurrency a, ESTIMATED)
          end) in
  Returns {| co_revisionCost := cost; co_currency := currency; co_known := known; co_confidence := confidence;
             co_total := new_total (te_revisionKind t) cost prior |}.

(** The [usage_ledger] row. *)
Definition new_revision (a : Anchor) (t : Terminal) (ck : Checked) (c : Cost) (createdAt : Z) : Revision :=
  let accountingMatches :=
    match te_usage t with Some u => str_eqb (trim (us_accountingVersion u)) (a_accountingVersion a) | None => false end in
  let billableTotal := te_usage t ≫= providerBillableTokens in
  {| r_attemptId := te_attemptId t; r_fencingToken := te_fencingToken t; r_accountId := te_accountId t;
     r_shareId := a_shareId a; r_sequence := te_revisionSequence t; r_kind := te_revisionKind t;
     r_settledCost := co_revisionCost c;
     r_currency := match co_revisionCost c with Some _ => co_currency c | None => None end;
     r_costKnown := co_known c; r_payloadHash := ck_payloadHash ck;
     r_billableTotal := if accountingMatches then billableTotal else None;
     r_usageKnown := accountingMatches && bool_decide (ck_complete ck = Some true)
                     && bool_decide (is_Some billableTotal);
     r_confidence := if co_known c then co_confidence c
                     else match accountingMatches, te_usage t with true, Some u => us_confidence u | _, _ => ESTIMATED end;
     r_terminalReason := te_reason t; r_createdAt := createdAt |}.

(** Every reservation of the attempt is settled, with a settlement row that mirrors the revision. *)
Definition of_reservation (t : Terminal) (v : Reservation) : bool :=
  bool_decide (v_attemptId v = te_attemptId t) && (v_fencingToken v =? te_fencingToken t).

Definition settle_reservation (t : Terminal) (c : Cost) (v : Reservation) : Reservation :=
  if of_reservation t v && negb (v_settled v)
  then mkReservation (v_id v) (v_capId v) (v_attemptId v) (v_fencingToken v) (v_reservedValue v) (v_currency v) true
         (default 0 (co_total c))
  else v.

Definition new_settlements (t : Terminal) (c : Cost) (reservations : list Reservation) : list Settlement :=
  (λ v, {| t_reservationId := v_id v; t_sequence := te_revisionSequence t; t_kind := te_revisionKind t;
           t_settledValue := default 0 (co_revisionCost c); t_confidence := co_confidence c |})
  <$> List.filter (of_reservation t) reservations.

(** The end of an attempt: ACTIVE rows only. *)
Definition end_attempt (id : string) (token : Z) (state : AttemptState) (a : Anchor) : Anchor :=
  if bool_decide (a_id a = id) && (a_fencingToken a =? token) && bool_decide (a_state a = ACTIVE)
  then mkAnchor (a_id a) (a_cloud a) state (a_userId a) (a_requestId a) (a_accountId a) (a_modelId a)
         (a_credentialId a) (a_poolId a) (a_shareId a) (a_fencingToken a) (a_expiresAt a) (a_liabilityTokens a)
         (a_liabilitySpend a) (a_liabilityCurrency a) (a_pricingVersion a) (a_accountingVersion a)
  else a.

Definition with_attempts (attempts : list Anchor) (db : Db) : Db :=
  mkDb (db_now db) (db_caps db) (db_models db) (db_pricing db) attempts (db_ledger db) (db_reservations db)
    (db_settlements db).

Definition finalize (t : Terminal) (a : Anchor) (db : Db) : Db :=
  if bool_decide (a_state a = ACTIVE)
  then with_attempts (map (end_attempt (a_id a) (a_fencingToken a) (terminalState (te_reason t))) (db_attempts db)) db
  else db.

(** The revision, its settlements and the settled reservations. *)
Definition append_revision (t : Terminal) (r : Revision) (c : Cost) (db : Db) : Db :=
  mkDb (db_now db) (db_caps db) (db_models db) (db_pricing db) (db_attempts db) (db_ledger db ++ [r])
    (map (settle_reservation t c) (db_reservations db))
    (db_settlements db ++ new_settlements t c (db_reservations db)).

Definition same_identity (t : Terminal) (a : Anchor) : bool :=
  bool_decide (a_userId a = te_userId t ∧ a_accountId a = te_accountId t ∧ a_modelId a = te_modelId t
    ∧ a_poolId a = te_poolId t ∧ a_credentialId a = te_credentialId t ∧ a_requestId a = te_requestId t).

(** [reconcileProviderBudget]. *)
Definition reconcileProviderBudget (createdAt : Z) (t : Terminal) (db : Db) : outcome unit * Db :=
  match check_terminal t with
  | Throws e => (Throws e, db)
  | Returns ck =>
      match find_attempt (te_attemptId t) db with
      | None => (Throws No_attempt, db)
      | Some a =>
          if negb (a_cloud a && (a_fencingToken a =? te_fencingToken t)) then (Throws No_attempt, db)
          else if bool_decide (te_reason t = CRASH_RECOVERY)
                  && ((db_now db <? a_expiresAt a)
                      || match te_crashExpiredAt t with Some at_ => at_ <? a_expiresAt a | None => false end)
          then (Returns tt, db)
          else if negb (same_identity t a) then (Throws Terminal_conflict, db)
          else
            let previous := revisions (te_attemptId t) (te_fencingToken t) (db_ledger db) in
            match List.find (λ r, r_sequence r =? te_revisionSequence t) previous with
            | Some duplicate =>
                if negb (str_eqb (r_payloadHash duplicate) (ck_payloadHash ck))
                   || negb (bool_decide (r_kind duplicate = te_revisionKind t))
                then (Throws Revision_conflict, db)
                else (Returns tt, finalize t a db)
            | None =>
                if bool_decide (te_reason t = CRASH_RECOVERY) && (0 <? length previous)%nat then (Returns tt, db)
                else if existsb (λ r, te_revisionSequence t <? r_sequence r) previous then (Throws Stale_revision, db)
                else match revision_cost a t (ck_complete ck) previous with
                     | Throws e => (Throws e, db)
                     | Returns c =>
                         (Returns tt, finalize t a (append_revision t (new_revision a t ck c createdAt) c db))
                     end
            end
      end
  end.

(** ** Crash repair *)

(** The latest revision's reason, read before the repair's transaction. *)
Definition latest_reason (id : string) (token : Z) (db : Db) : option TerminalReason :=
  r_terminalReason <$> head (sort_by (λ l r, r_sequence r - r_sequence l) (revisions id token (db_ledger db))).

Definition crash_terminal (row : Anchor) (now : Z) : Terminal :=
  {| te_userId := a_userId row; te_accountId := a_accountId row; te_modelId := a_modelId row;
     te_credentialId := a_credentialId row; te_poolId := a_poolId row; te_requestId := a_requestId row;
     te_attemptId := a_id row; te_fencingToken := a_fencingToken row; te_reason := CRASH_RECOVERY;
     te_notSent := false; te_sourceVersion := None; te_revisionSequence := 0; te_revisionKind := SNAPSHOT;
     te_usageSource := None; te_observationComplete := None; te_usage := None; te_crashExpiredAt := Some now |}.

(** The repair's transaction, after [latest] was read. *)
Definition repair_with (latest : option TerminalReason) (createdAt : Z) (row : Anchor) (now : Z) (db : Db)
  : outcome unit * Db :=
  match latest with
  | Some reason =>
      (Returns tt, with_attempts (map (end_attempt (a_id row) (a_fencingToken row) (terminalState reason))
                                    (db_attempts db)) db)
  | None => reconcileProviderBudget createdAt (crash_terminal row now) db
  end.

Definition repairExpiredAttempt (row : Anchor) (now : Z) (db : Db) : outcome unit * Db :=
  if bool_decide (a_accountId row = ""%string) || bool_decide (a_modelId row = ""%string) then (Returns tt, db)
  else repair_with (latest_reason (a_id row) (a_fencingToken row) db) (db_now db) row now db.

Definition REPAIR_BATCH : nat := 500.
Definition REPAIR_MAX_PER_RUN : nat := 5000.

(** The page of expired attempts past the ones already seen. *)
Definition expired_page (now : Z) (scope : option (string * string)) (seen : list string) (db : Db) : list Anchor :=
  take REPAIR_BATCH
    (sort_by (λ a b, a_expiresAt a - a_expiresAt b)
       (List.filter (λ a,
          a_cloud a && bool_decide (a_state a = ACTIVE) && (a_expiresAt a <=? now)
          && negb (bool_decide (a_id a ∈ seen))
          && match scope with
             | None => true
             | Some (u, account) => bool_decide (a_userId a = u ∧ a_accountId a = account)
             end) (db_attempts db))).

(** One row: a failure is logged and the run moves on. *)
Definition repair_row (now : Z) (st : nat * Db) (row : Anchor) : nat * Db :=
  match repairExpiredAttempt row now st.2 with
  | (Returns _, db') => (S st.1, db')
  | (Throws _, _) => st
  end.

Fixpoint repair_pages (fuel : nat) (now : Z) (scope : option (string * string)) (seen : list string)
  (repaired : nat) (db : Db) : option (nat * Db) :=
  match fuel with
  | O => None
  | S fuel' =>
      let page := expired_page now scope seen db in
      let seen' := seen ++ (a_id <$> page) in
      let '(repaired', db') := fold_left (repair_row now) page (repaired, db) in
      if (length page <? REPAIR_BATCH)%nat || (REPAIR_MAX_PER_RUN <=? length seen')%nat then Some (repaired', db')
      else repair_pages fuel' now scope seen' repaired' db'
  end.

(** [repairExpiredProviderBudgets]: a page that continues adds 500 ids, so eleven are enough. *)
Definition repairExpiredProviderBudgets (now : Z) (scope : option (string * string)) (db : Db) : option (nat * Db) :=
  repair_pages 11 now scope [] 0 db.

(** ** Renewal *)

(** The heartbeat's update of a live attempt; [clock] is the replica's. *)
Definition heartbeat (id : string) (token clock extensionMs : Z) (db : Db) : Db :=
  with_attempts
    (map (λ a,
       if bool_decide (a_id a = id) && (a_fencingToken a =? token) && bool_decide (a_state a = ACTIVE)
          && (clock <? a_expiresAt a)
       then mkAnchor (a_id a) (a_cloud a) (a_state a) (a_userId a) (a_requestId a) (a_accountId a) (a_modelId a)
              (a_credentialId a) (a_poolId a) (a_shareId a) (a_fencingToken a) (clock + Z.max 1000 extensionMs)
              (a_liabilityTokens a) (a_liabilitySpend a) (a_liabilityCurrency a) (a_pricingVersion a)
              (a_accountingVersion a)
       else a) (db_attempts db)) db.
End Settle.
