(* ===== verification/SpendLedger.v ===== *)
(** * SpendLedger: the ledger's arithmetic

    What [SpendSafety] needs of the consumption reads: months are monotone in time; the settled
    spend of a subject splits into one attempt's share and the rest, and a new revision moves the
    attempt's share only; likewise for the reserved spend; and the SQL sum of the counted
    revisions of an attempt is what [revisionTotal] computes. *)
From Stdlib Require Import ssreflect.
From S2P Require Import Prelude JsString SpendModel SpendSettle.

(** ** Months *)

Ltac div_lia := Z.to_euclidean_division_equations; lia.

Lemma month_of_day_mono d d' : d ≤ d' → month_of_day d ≤ month_of_day d'.
Proof.
  rewrite /month_of_day. set z := d + 719468. set z' := d' + 719468. intros Hd.
  have Hz : z ≤ z' by (subst z z'; lia). clearbody z z'.
  have Hb : ∀ e, 0 ≤ e < 146097 →
    let y := (e - e / 1460 + e / 36524 - e / 146096) / 365 in
    0 ≤ y < 400 ∧ 0 ≤ e - (365 * y + y / 4 - y / 100) ≤ 366 by (intros e He; cbn zeta; div_lia).
  have H1 := Hb (z mod 146097) ltac:(apply Z.mod_pos_bound; lia).
  have H2 := Hb (z' mod 146097) ltac:(apply Z.mod_pos_bound; lia).
  have Hera : z / 146097 ≤ z' / 146097 by apply Z.div_le_mono; lia.
  have Hmono : z / 146097 = z' / 146097 → z mod 146097 ≤ z' mod 146097 by (intros; div_lia).
  move: H1 H2 Hera Hmono. cbn zeta.
  have := Z.mod_pos_bound z 146097 ltac:(lia). have := Z.mod_pos_bound z' 146097 ltac:(lia).
  generalize (z / 146097) (z' / 146097) (z mod 146097) (z' mod 146097). clear. intros q q' e e' Hre' Hre [Hy Ho] [Hy' Ho'] Hq He.
  set y := (e - e / 1460 + e / 36524 - e / 146096) / 365 in Hy Ho *.
  set y' := (e' - e' / 1460 + e' / 36524 - e' / 146096) / 365 in Hy' Ho' *.
  have Hyy : q = q' → y ≤ y'.
  { intros ->. subst y y'. apply Z.div_le_mono; [lia|]. have := He eq_refl. clear -Hre Hre'. intros. div_lia. }
  have Hm : ∀ o, 0 ≤ o ≤ 366 → 0 ≤ (5 * o + 2) / 153 ≤ 11 by (intros; div_lia).
  have Hmm : y = y' → q = q' → (5 * (e - (365 * y + y / 4 - y / 100)) + 2) / 153
    ≤ (5 * (e' - (365 * y' + y' / 4 - y' / 100)) + 2) / 153.
  { intros -> ->. apply Z.div_le_mono; [lia|]. have := He eq_refl. lia. }
  have := Hm _ Ho. have := Hm _ Ho'. move: Hmm Hyy. clearbody y y'. clear -Hy Hy' Hq.
  generalize ((5 * (e - (365 * y + y / 4 - y / 100)) + 2) / 153)
    ((5 * (e' - (365 * y' + y' / 4 - y' / 100)) + 2) / 153). nia.
Qed.

Lemma month_of_mono t t' : t ≤ t' → month_of t ≤ month_of t'.
Proof. intros. apply month_of_day_mono, Z.div_le_mono; lia. Qed.

(** ** Sums *)

#[global] Arguments sum_of : simpl never.

Section Sums.
Context {A : Type}.
Implicit Types (f g : A → Z) (p q : A → bool) (l : list A).

Lemma sum_of_cons f a l : sum_of f (a :: l) = f a + sum_of f l.
Proof. rewrite /sum_of /=. by rewrite fold_add_acc. Qed.

Lemma sum_of_app f l l' : sum_of f (l ++ l') = sum_of f l + sum_of f l'.
Proof. induction l as [|a l IH]; [done|]. rewrite -app_comm_cons !sum_of_cons IH. lia. Qed.

Lemma sum_of_ext f g l : (∀ a, In a l → f a = g a) → sum_of f l = sum_of g l.
Proof.
  induction l as [|a l IH]; intros H; [done|]. rewrite !sum_of_cons (H a); [by left|].
  rewrite IH; [|done]. intros; apply H. by right.
Qed.

Lemma sum_of_nonneg f l : (∀ a, In a l → 0 ≤ f a) → 0 ≤ sum_of f l.
Proof.
  induction l as [|a l IH]; intros H; [done|]. rewrite sum_of_cons.
  have := H a (or_introl eq_refl). have := IH (λ x Hx, H x (or_intror Hx)). lia.
Qed.

Lemma sum_of_member f l a x : In a l → x = f a → (∀ b, In b l → 0 ≤ f b) → x ≤ sum_of f l.
Proof.
  intros Ha ->. induction l as [|b l IH]; intros Hn; [done|]. rewrite sum_of_cons.
  have Hb := Hn b (or_introl eq_refl). have Hl := sum_of_nonneg f l (λ y Hy, Hn y (or_intror Hy)).
  destruct Ha as [->|Ha]; [lia|]. have := IH Ha (λ y Hy, Hn y (or_intror Hy)). lia.
Qed.

Lemma sum_of_filter f p l : sum_of f (List.filter p l) = sum_of (λ a, if p a then f a else 0) l.
Proof. induction l as [|a l IH]; [done|]. cbn. destruct (p a) eqn:E; rewrite !sum_of_cons IH ?E; lia. Qed.

Lemma sum_of_split f q l :
  sum_of f l = sum_of f (List.filter q l) + sum_of f (List.filter (λ a, negb (q a)) l).
Proof. induction l as [|a l IH]; [done|]. cbn. destruct (q a); cbn; rewrite !sum_of_cons IH; lia. Qed.

End Sums.

Lemma sum_of_map {A B} (h : B → A) (f : A → Z) (l : list B) : sum_of f (map h l) = sum_of (λ b, f (h b)) l.
Proof. induction l as [|b l IH]; [done|]. cbn [map]. by rewrite !sum_of_cons IH. Qed.

(** A sum over rows that each belong to exactly one owner is the sum of the owners' sums. *)
Lemma sum_of_partition {A B} (f : A → Z) (own : B → A → bool) (l : list A) (owners : list B) :
  (∀ a, In a l → ∃ b, List.filter (λ b, own b a) owners = [b]) →
  sum_of f l = sum_of (λ b, sum_of f (List.filter (own b) l)) owners.
Proof.
  induction l as [|a l IH]; intros H; cbn.
  - induction owners as [|b owners IH]; [done|]. rewrite sum_of_cons -IH //.
  - have -> : sum_of (λ b, sum_of f (if own b a then a :: List.filter (own b) l else List.filter (own b) l)) owners
      = sum_of (λ b, if own b a then f a else 0) owners + sum_of (λ b, sum_of f (List.filter (own b) l)) owners.
    { clear. induction owners as [|b owners IH]; [done|]. rewrite !sum_of_cons IH. destruct (own b a); rewrite ?sum_of_cons; lia. }
    rewrite sum_of_cons -IH; [by intros; apply H; right|]. destruct (H a) as [b Hb]; [by left|].
    rewrite -(sum_of_filter (λ _, f a)) Hb sum_of_cons /sum_of /=. lia.
Qed.

(** Two sums over rows with distinct keys that agree off one row. *)
Lemma sum_of_update {A} (key : A → string) (f g : A → Z) l a :
  NoDup (map key l) → In a l → (∀ b, In b l → key b ≠ key a → g b = f b) →
  sum_of g l = sum_of f l - f a + g a.
Proof.
  induction l as [|b l IH]; intros Hnd Hin Hoff; [done|].
  cbn in Hnd. apply NoDup_cons in Hnd as [Hb Hnd]. rewrite !sum_of_cons. destruct Hin as [->|Hin].
  - rewrite (sum_of_ext g f l); [|lia]. intros x Hx. apply Hoff; [by right|]. intros Heq. apply Hb.
    rewrite -Heq. by apply list_elem_of_In, in_map.
  - have -> : g b = f b.
    { apply Hoff; [by left|]. intros Heq. apply Hb. rewrite Heq. by apply list_elem_of_In, in_map. }
    rewrite IH; [done..| |lia]. intros c Hc. apply Hoff. by right.
Qed.

(** ** Revisions of one attempt *)

Lemma of_attempt_iff id token r :
  of_attempt id token r = true ↔ r_attemptId r = id ∧ r_fencingToken r = token.
Proof. rewrite /of_attempt andb_true_iff bool_decide_eq_true Z.eqb_eq. done. Qed.

Lemma of_attempt_self r : of_attempt (r_attemptId r) (r_fencingToken r) r = true.
Proof. by apply of_attempt_iff. Qed.

Lemma revisions_app id token l l' : revisions id token (l ++ l') = revisions id token l ++ revisions id token l'.
Proof. apply List.filter_app. Qed.

Lemma revisions_one id token r : revisions id token [r] = if of_attempt id token r then [r] else [].
Proof. done. Qed.

Lemma In_revisions id token l r :
  In r (revisions id token l) ↔ In r l ∧ r_attemptId r = id ∧ r_fencingToken r = token.
Proof. rewrite /revisions filter_In of_attempt_iff. done. Qed.

Definition revised (id : string) (token : Z) (ledger : list Revision) : bool :=
  existsb (of_attempt id token) ledger.

#[global] Arguments revised : simpl never.
#[global] Arguments revisions : simpl never.

Lemma revised_revisions id token l : revised id token l = negb (bool_decide (revisions id token l = [])).
Proof.
  rewrite /revised /revisions. induction l as [|r l IH]; [done|]. cbn. by destruct (of_attempt id token r).
Qed.

Lemma revised_app id token l r : revised id token (l ++ [r]) = revised id token l || of_attempt id token r.
Proof. by rewrite /revised existsb_app /= orb_false_r. Qed.

Lemma existsb_filter {A} (p q : A → bool) l : existsb p (List.filter q l) = existsb (λ a, q a && p a) l.
Proof. induction l as [|a l IH]; [done|]. cbn. destruct (q a); cbn; by rewrite IH. Qed.

(** ** Settled spend, attempt by attempt *)

Section Settled.
Context (scope : Revision → bool) (currency : jstr) (now : Z).

(** The attempt is in the month's sum: a revision of the scope in the month, and no earlier one. *)
Definition in_sum (revs : list Revision) : bool :=
  existsb (λ r, scope r && in_month now (r_createdAt r)) revs
  && negb (existsb (λ r, month_of (r_createdAt r) <? month_of now) revs).

(** The counted revisions of an attempt, in the currency. *)
Definition counted_total (revs : list Revision) : Z :=
  sum_of (λ r, default 0 (r_settledCost r))
    (List.filter (λ r, bool_decide (r_currency r = Some currency) && counted revs r) revs).

Definition attempt_settled (revs : list Revision) : Z := if in_sum revs then counted_total revs else 0.

Definition row_counts (ledger : list Revision) (r : Revision) : bool :=
  let revs := revisions (r_attemptId r) (r_fencingToken r) ledger in
  in_sum revs && (bool_decide (r_currency r = Some currency) && counted revs r).

Lemma settledSpend_rows ledger :
  settledSpend scope currency now ledger = sum_of (λ r, default 0 (r_settledCost r)) (List.filter (row_counts ledger) ledger).
Proof.
  rewrite /settledSpend. f_equal. apply filter_ext => r. rewrite /row_counts /in_sum /first_in_window.
  set id := r_attemptId r. set token := r_fencingToken r.
  have -> : existsb (λ x, scope x && of_attempt id token x && in_month now (r_createdAt x)) ledger
    = existsb (λ x, scope x && in_month now (r_createdAt x)) (revisions id token ledger).
  { rewrite /revisions existsb_filter. clear. induction ledger as [|x l IH]; [done|]. cbn. rewrite IH.
    by destruct (scope x), (of_attempt id token x), (in_month now (r_createdAt x)). }
  destruct (existsb (λ x, scope x && _) _) eqn:E; [|done].
  have -> : existsb (λ x, in_month now (r_createdAt x)) (revisions id token ledger) = true; [|by rewrite /= -!andb_assoc].
  apply existsb_exists in E as (x & Hx & [_ ?]%andb_true_iff). apply existsb_exists. eauto.
Qed.

Lemma settledSpend_split id token ledger :
  settledSpend scope currency now ledger =
  attempt_settled (revisions id token ledger) +
  sum_of (λ r, default 0 (r_settledCost r)) (List.filter (λ r, row_counts ledger r && negb (of_attempt id token r)) ledger).
Proof.
  rewrite settledSpend_rows (sum_of_split _ (of_attempt id token)) !filter_filter. f_equal.
  rewrite /attempt_settled /counted_total /revisions filter_filter -/(revisions id token ledger).
  transitivity (sum_of (λ r, default 0 (r_settledCost r)) (List.filter (λ r, of_attempt id token r
     && (in_sum (revisions id token ledger) && (bool_decide (r_currency r = Some currency)
         && counted (revisions id token ledger) r))) ledger)).
  - f_equal. apply filter_ext => r. rewrite andb_comm. destruct (of_attempt id token r) eqn:E; [|done].
    apply of_attempt_iff in E as [<- <-]. done.
  - destruct (in_sum _); [done|]. rewrite filter_none; [|done]. intros. by rewrite /= andb_false_r.
Qed.

(** A new revision moves its own attempt's share only. *)
Lemma settledSpend_app ledger r :
  settledSpend scope currency now (ledger ++ [r]) =
  settledSpend scope currency now ledger
  - attempt_settled (revisions (r_attemptId r) (r_fencingToken r) ledger)
  + attempt_settled (revisions (r_attemptId r) (r_fencingToken r) ledger ++ [r]).
Proof.
  rewrite (settledSpend_split (r_attemptId r) (r_fencingToken r) (ledger ++ [r]))
    (settledSpend_split (r_attemptId r) (r_fencingToken r) ledger).
  rewrite revisions_app revisions_one of_attempt_self List.filter_app /= of_attempt_self andb_false_r app_nil_r.
  have -> : List.filter (λ x, row_counts (ledger ++ [r]) x && negb (of_attempt (r_attemptId r) (r_fencingToken r) x)) ledger
    = List.filter (λ x, row_counts ledger x && negb (of_attempt (r_attemptId r) (r_fencingToken r) x)) ledger; [|lia].
  apply filter_ext => x. destruct (of_attempt _ _ x) eqn:E; [by rewrite !andb_false_r|]. f_equal.
  rewrite /row_counts revisions_app revisions_one.
  have -> : of_attempt (r_attemptId x) (r_fencingToken x) r = false; [|by rewrite app_nil_r].
  apply not_true_is_false => /of_attempt_iff [H1 H2]. move: E. rewrite /of_attempt H1 H2 Z.eqb_refl.
  by rewrite bool_decide_eq_true_2.
Qed.

Lemma counted_total_nonneg revs : (∀ r c, In r revs → r_settledCost r = Some c → 0 ≤ c) → 0 ≤ counted_total revs.
Proof.
  intros H. apply sum_of_nonneg => r /filter_In [Hr _]. destruct (r_settledCost r) eqn:E; cbn; [by eapply H|lia].
Qed.

Lemma settledSpend_nonneg ledger :
  (∀ r c, In r ledger → r_settledCost r = Some c → 0 ≤ c) → 0 ≤ settledSpend scope currency now ledger.
Proof.
  intros H. rewrite settledSpend_rows. apply sum_of_nonneg => r /filter_In [Hr _].
  destruct (r_settledCost r) eqn:E; cbn; [by eapply H|lia].
Qed.

Lemma in_sum_out revs : (∀ r, In r revs → in_month now (r_createdAt r) = false) → in_sum revs = false.
Proof.
  intros H. rewrite /in_sum. destruct (existsb _ revs) eqn:E; [|done].
  apply existsb_exists in E as (r & Hr & [_ Hm]%andb_true_iff). by rewrite H in Hm.
Qed.

(** A month no revision is in has no settled spend. *)
Lemma settledSpend_zero ledger :
  (∀ r, In r ledger → in_month now (r_createdAt r) = false) → settledSpend scope currency now ledger = 0.
Proof.
  intros H. rewrite settledSpend_rows filter_none; [|done]. intros r Hr. rewrite /row_counts in_sum_out; [|done].
  intros x [Hx _]%In_revisions. auto.
Qed.
End Settled.

Lemma settledSpend_same_month scope currency now now' ledger :
  month_of now = month_of now' → settledSpend scope currency now ledger = settledSpend scope currency now' ledger.
Proof. intros H. by rewrite /settledSpend /first_in_window /in_month H. Qed.

(** ** [revisionTotal] is the SQL sum *)

Definition increasing (l : list Revision) : Prop := StronglySorted (λ a b, r_sequence a < r_sequence b) l.

Lemma increasing_snoc l r :
  increasing l → (∀ x, In x l → r_sequence x < r_sequence r) → increasing (l ++ [r]).
Proof.
  induction l as [|y l IH]; intros Hl Hr; cbn; [by repeat constructor|].
  inversion Hl as [|? ? Hl' Hy]; subst. constructor; [apply IH; auto with datatypes|].
  apply List.Forall_forall => x /in_app_iff [Hx|[<-|[]]]; [|apply Hr; by left].
  rewrite List.Forall_forall in Hy. auto.
Qed.

Lemma increasing_snoc_inv l r :
  increasing (l ++ [r]) → increasing l ∧ (∀ x, In x l → r_sequence x < r_sequence r).
Proof.
  induction l as [|y l IH]; cbn; intros H; [split; [constructor|done]|].
  inversion H as [|? ? Hl Hy]; subst. destruct (IH Hl) as [Hi Hr]. rewrite List.Forall_forall in Hy.
  split; [|intros x [<-|Hx]; [apply Hy, in_app_iff; right; by left|auto]].
  constructor; [done|]. apply List.Forall_forall => x Hx. apply Hy, in_app_iff. by left.
Qed.

Lemma increasing_inj l a b : increasing l → In a l → In b l → r_sequence a = r_sequence b → a = b.
Proof.
  induction 1 as [|x l _ IH Hx]; [done|]. rewrite List.Forall_forall in Hx. intros [<-|Ha] [<-|Hb] Heq; auto.
  - have := Hx b Hb. lia.
  - have := Hx a Ha. lia.
Qed.

Lemma increasing_sort l :
  increasing l → sort_by (λ a b, if r_sequence a <? r_sequence b then -1 else 1) l = l.
Proof.
  intros Hl. apply sort_by_id. induction Hl as [|r l Hl IH Hr]; cbn; [done|]. split; [|done].
  rewrite List.Forall_forall in Hr. intros y Hy. specialize (Hr y Hy). by rewrite (proj2 (Z.ltb_lt _ _) Hr).
Qed.

Lemma revisionTotal_snoc l r :
  increasing (l ++ [r]) → revisionTotal (l ++ [r]) = total_step (revisionTotal l) r.
Proof.
  intros H. rewrite /revisionTotal increasing_sort // fold_left_app /=.
  by rewrite increasing_sort; [apply increasing_snoc_inv in H as [? _]|].
Qed.

Lemma snapshotSequence_snoc l r :
  snapshotSequence (l ++ [r]) =
  if bool_decide (r_kind r = SNAPSHOT)
  then Some (match snapshotSequence l with Some x => Z.max x (r_sequence r) | None => r_sequence r end)
  else snapshotSequence l.
Proof. by rewrite /snapshotSequence fold_left_app. Qed.

Lemma snapshotSequence_In l s : snapshotSequence l = Some s → ∃ r, In r l ∧ r_sequence r = s.
Proof.
  revert s. induction l as [|r l IH] using rev_ind; intros s; [done|]. rewrite snapshotSequence_snoc.
  destruct (bool_decide _); intros H; simplify_eq/=.
  - destruct (snapshotSequence l) as [x|]; [|exists r; split; [apply in_app_iff; right; by left|done]].
    destruct (Z.max_spec x (r_sequence r)) as [[_ ->]|[_ ->]].
    + exists r. split; [apply in_app_iff; right; by left|done].
    + destruct (IH _ eq_refl) as (y & Hy & ?). exists y. split; [apply in_app_iff; by left|done].
  - destruct (IH _ H) as (y & Hy & ?). exists y. split; [apply in_app_iff; by left|done].
Qed.

(** What a revision adds in a currency. *)
Definition cost_in (currency : jstr) (r : Revision) : Z :=
  if bool_decide (r_currency r = Some currency) then default 0 (r_settledCost r) else 0.

Lemma counted_total_snoc currency l r :
  increasing (l ++ [r]) →
  counted_total currency (l ++ [r]) =
  match r_kind r with SNAPSHOT => cost_in currency r | DELTA => counted_total currency l + cost_in currency r end.
Proof.
  intros [Hl Hr]%increasing_snoc_inv. rewrite /counted_total List.filter_app sum_of_app.
  have Hlast : sum_of (λ r, default 0 (r_settledCost r))
    (List.filter (λ x, bool_decide (r_currency x = Some currency) && counted (l ++ [r]) x) [r]) = cost_in currency r.
  { rewrite sum_of_filter sum_of_cons /cost_in /counted snapshotSequence_snoc.
    destruct (bool_decide (r_currency r = _)); cbn; [|by rewrite /sum_of].
    destruct (r_settledCost r) as [c|]; cbn; [|by rewrite /sum_of].
    have -> : sum_of (λ a, if bool_decide (r_currency a = Some currency) && _ a then default 0 (r_settledCost a) else 0) [] = 0
      by done.
    destruct (bool_decide (r_kind r = _)).
    - have -> : ((match snapshotSequence l with Some x => Z.max x (r_sequence r) | None => r_sequence r end) <=? r_sequence r)
        = true; [|lia].
      apply Z.leb_le. destruct (snapshotSequence l) eqn:E; [|lia]. apply snapshotSequence_In in E as (y & Hy & <-).
      specialize (Hr y Hy). lia.
    - destruct (snapshotSequence l) eqn:E; [|lia]. apply snapshotSequence_In in E as (y & Hy & <-).
      specialize (Hr y Hy). rewrite (proj2 (Z.leb_le _ _)); lia. }
  rewrite Hlast. destruct (r_kind r) eqn:Ek.
  - rewrite filter_none; [|done]. intros x Hx. rewrite /counted snapshotSequence_snoc Ek (bool_decide_eq_true_2 (SNAPSHOT = SNAPSHOT)) //.
    have -> : ((match snapshotSequence l with Some y => Z.max y (r_sequence r) | None => r_sequence r end) <=? r_sequence x)
      = false; [|by rewrite !andb_false_r].
    apply Z.leb_gt. specialize (Hr x Hx). destruct (snapshotSequence l); lia.
  - do 2 f_equal. apply filter_ext => x. by rewrite /counted snapshotSequence_snoc Ek.
Qed.

Lemma revisionTotal_counted currency l :
  increasing l → (∀ r, In r l → is_Some (r_settledCost r) → r_currency r = Some currency) →
  default 0 (revisionTotal l) = counted_total currency l.
Proof.
  induction l as [|r l IH] using rev_ind; intros Hi Hc; [done|].
  rewrite revisionTotal_snoc // counted_total_snoc // -IH;
    [by apply increasing_snoc_inv in Hi as [? _]|intros; apply Hc; [apply in_app_iff; by left|done]|].
  have Hr : cost_in currency r = default 0 (r_settledCost r).
  { rewrite /cost_in. case_bool_decide as Hcur; [done|]. destruct (r_settledCost r) eqn:E; [|done].
    destruct Hcur. apply Hc; [apply in_app_iff; right; by left|by rewrite E]. }
  rewrite Hr /total_step. destruct (r_kind r), (r_settledCost r); cbn; lia.
Qed.
