(* ===== verification/SpendInvariant.v ===== *)
(** * SpendInvariant: the transactions of the spend tables and what they keep

    The tables move by transactions: an admission, a reconciliation, the crash repair's write
    (with the reason it read earlier), a heartbeat, the clock, a configuration edit. [wf] is the
    invariant of the tables; every transaction keeps it. *)
From Stdlib Require Import ssreflect.
From S2P Require Import Prelude JsString SpendModel SpendSettle SpendLedger.

(** ** The invariant *)

Definition in_attempt (a : Anchor) (id : string) (token : Z) : Prop := a_id a = id ∧ a_fencingToken a = token.

(** A cloud attempt: a fence in range, and a price with its liability. *)
Record anchor_ok (a : Anchor) : Prop := {
  ao_token : 0 < a_fencingToken a ≤ MAX_SIGNED_BIGINT;
  ao_ids : a_accountId a ≠ ""%string ∧ a_modelId a ≠ ""%string;
  ao_liability : ∀ l, a_liabilitySpend a = Some l →
    0 ≤ l ∧ is_Some (a_liabilityCurrency a) ∧ is_Some (a_pricingVersion a);
}.

(** A revision of its attempt; a priced attempt's revisions all carry a cost in its currency. *)
Record revision_ok (a : Anchor) (r : Revision) : Prop := {
  ro_account : r_accountId r = a_accountId a;
  ro_share : r_shareId r = a_shareId a;
  ro_cost : ∀ c, r_settledCost r = Some c → 0 ≤ c;
  ro_priced : is_Some (a_liabilitySpend a) → is_Some (r_settledCost r) ∧ r_currency r = a_liabilityCurrency a;
}.

(** The settlements of a reservation and the revisions of its attempt, as (sequence, kind, value). *)
Definition settlement_view (s : Settlement) : Z * RevisionKind * Z := (t_sequence s, t_kind s, t_settledValue s).
Definition revision_view (r : Revision) : Z * RevisionKind * Z :=
  (r_sequence r, r_kind r, default 0 (r_settledCost r)).
Definition settlements_of (id : string) (db : Db) : list Settlement :=
  List.filter (λ s, bool_decide (t_reservationId s = id)) (db_settlements db).

Record reservation_ok (db : Db) (v : Reservation) : Prop := {
  vo_attempt : ∃ a, In a (db_attempts db) ∧ a_cloud a = true ∧ in_attempt a (v_attemptId v) (v_fencingToken v)
    ∧ a_liabilitySpend a = Some (v_reservedValue v) ∧ a_liabilityCurrency a = Some (v_currency v);
  vo_state : v_settled v = revised (v_attemptId v) (v_fencingToken v) (db_ledger db);
  vo_mirror : settlement_view <$> settlements_of (v_id v) db =
    revision_view <$> revisions (v_attemptId v) (v_fencingToken v) (db_ledger db);
}.

Record wf (db : Db) : Prop := {
  wf_ids : NoDup (map a_id (db_attempts db));
  wf_models : ∀ m, In m (db_models db) → m_id m ≠ ""%string ∧ m_accountId m ≠ ""%string;
  wf_anchor : ∀ a, In a (db_attempts db) → a_cloud a = true → anchor_ok a;
  wf_ended : ∀ a, In a (db_attempts db) → a_cloud a = true → a_state a ≠ ACTIVE →
    revised (a_id a) (a_fencingToken a) (db_ledger db) = true;
  wf_revision : ∀ r, In r (db_ledger db) → r_createdAt r ≤ db_now db ∧
    ∃ a, In a (db_attempts db) ∧ a_cloud a = true ∧ in_attempt a (r_attemptId r) (r_fencingToken r) ∧ revision_ok a r;
  wf_order : ∀ id token, increasing (revisions id token (db_ledger db));
  wf_vids : NoDup (map v_id (db_reservations db));
  wf_settlements : ∀ s, In s (db_settlements db) → t_reservationId s ∈ map v_id (db_reservations db);
  wf_reservation : ∀ v, In v (db_reservations db) → reservation_ok db v;
}.

(** A fresh installation. *)
Definition empty_tables (db : Db) : Prop :=
  db_attempts db = [] ∧ db_ledger db = [] ∧ db_reservations db = [] ∧ db_settlements db = []
  ∧ ∀ m, In m (db_models db) → m_id m ≠ ""%string ∧ m_accountId m ≠ ""%string.

Lemma empty_wf db : empty_tables db → wf db.
Proof.
  intros (H1 & H2 & H3 & H4 & Hm). split; rewrite ?H1 ?H2 ?H3 ?H4; try done; try constructor.
Qed.

(** ** Reading the tables *)

Lemma find_attempt_Some id db a :
  find_attempt id db = Some a → In a (db_attempts db) ∧ a_id a = id.
Proof. rewrite /find_attempt. intros [? H]%List.find_some. by bool_to_prop. Qed.

Lemma find_attempt_None id db a : find_attempt id db = None → In a (db_attempts db) → a_id a ≠ id.
Proof. rewrite /find_attempt => H Ha. have := List.find_none _ _ H a Ha. by intros; bool_to_prop. Qed.

Lemma wf_same_attempt db a b :
  wf db → In a (db_attempts db) → In b (db_attempts db) → a_id a = a_id b → a = b.
Proof. intros Hw. apply NoDup_map_inj, Hw. Qed.

Lemma wf_find db a : wf db → In a (db_attempts db) → find_attempt (a_id a) db = Some a.
Proof.
  intros Hw Ha. destruct (find_attempt (a_id a) db) as [b|] eqn:E.
  - apply find_attempt_Some in E as [Hb Heq]. by rewrite (wf_same_attempt db b a).
  - by destruct (find_attempt_None _ _ _ E Ha).
Qed.

(** The revisions under an attempt's id are its own. *)
Lemma wf_own db a r :
  wf db → In a (db_attempts db) → In r (revisions (a_id a) (a_fencingToken a) (db_ledger db)) →
  r_createdAt r ≤ db_now db ∧ revision_ok a r.
Proof.
  intros Hw Ha [Hr [Hid Htok]]%In_revisions. destruct (wf_revision _ Hw r Hr) as [Ht (b & Hb & _ & [Hb1 _] & Hok)].
  split; [done|]. rewrite (wf_same_attempt db a b) //. congruence.
Qed.

Lemma revised_In id token l : revised id token l = true ↔ ∃ r, In r l ∧ r_attemptId r = id ∧ r_fencingToken r = token.
Proof. rewrite /revised existsb_exists. by setoid_rewrite of_attempt_iff. Qed.

Lemma revised_cons_revisions id token l : revised id token l = false ↔ revisions id token l = [].
Proof. rewrite revised_revisions negb_false_iff bool_decide_eq_true. done. Qed.

(** ** Restating an attempt: its state and expiry, nothing else *)

Definition restated (s : AttemptState) (e : Z) (a : Anchor) : Anchor :=
  mkAnchor (a_id a) (a_cloud a) s (a_userId a) (a_requestId a) (a_accountId a) (a_modelId a)
    (a_credentialId a) (a_poolId a) (a_shareId a) (a_fencingToken a) e (a_liabilityTokens a)
    (a_liabilitySpend a) (a_liabilityCurrency a) (a_pricingVersion a) (a_accountingVersion a).

Lemma restated_id a : restated (a_state a) (a_expiresAt a) a = a.
Proof. by destruct a. Qed.

Definition ends (id : string) (token : Z) (a : Anchor) : bool :=
  bool_decide (a_id a = id) && (a_fencingToken a =? token) && bool_decide (a_state a = ACTIVE).

Lemma end_attempt_restated id token state a :
  end_attempt id token state a = restated (if ends id token a then state else a_state a) (a_expiresAt a) a.
Proof. rewrite /end_attempt -/(ends id token a). destruct (ends id token a); [done|]. by rewrite restated_id. Qed.

Lemma wf_restate db (s : Anchor → AttemptState) (e : Anchor → Z) :
  wf db →
  (∀ a, In a (db_attempts db) → a_cloud a = true → s a ≠ ACTIVE →
     a_state a ≠ ACTIVE ∨ revised (a_id a) (a_fencingToken a) (db_ledger db) = true) →
  wf (with_attempts (map (λ a, restated (s a) (e a) a) (db_attempts db)) db).
Proof.
  intros [] Hs. split; cbn; try done.
  - by rewrite map_map.
  - intros a (b & <- & Hb)%in_map_iff Hc. destruct (wf_anchor0 b Hb Hc). by split.
  - intros a (b & <- & Hb)%in_map_iff Hc Hst. destruct (Hs b Hb Hc Hst) as [H|H]; [|exact H]. exact (wf_ended0 b Hb Hc H).
  - intros r Hr. destruct (wf_revision0 r Hr) as [Ht (a & Ha & Hc & Hin & Hok)]. split; [done|].
    exists (restated (s a) (e a) a). split; [by apply (in_map (λ a, restated (s a) (e a) a))|]. split; [done|].
    split; [done|]. destruct Hok. by split.
  - intros v Hv. destruct (wf_reservation0 v Hv) as [(a & Ha & Hc & Hin & Hl) Hst Hm]. split; try done.
    exists (restated (s a) (e a) a). split; [by apply (in_map (λ a, restated (s a) (e a) a))|done].
Qed.

(** Ending attempts under one fence whose revision is in the ledger. *)
Lemma wf_end db id token state :
  wf db → revised id token (db_ledger db) = true →
  wf (with_attempts (map (end_attempt id token state) (db_attempts db)) db).
Proof.
  intros Hw Hr. rewrite (map_ext _ _ (end_attempt_restated id token state)).
  apply (wf_restate db (λ a, if ends id token a then state else a_state a)); [done|].
  intros a Ha Hc. destruct (ends id token a) eqn:E; [|by left]. intros _. right. move: E. rewrite /ends => E.
  split_ands. bool_to_prop. by subst.
Qed.

Lemma wf_finalize db t a :
  wf db → revised (a_id a) (a_fencingToken a) (db_ledger db) = true → wf (finalize t a db).
Proof. intros Hw Hr. rewrite /finalize. case_bool_decide; [|done]. by apply wf_end. Qed.

(** The expiry a heartbeat gives. *)
Definition renewed (id : string) (token clock ext : Z) (a : Anchor) : Z :=
  if bool_decide (a_id a = id) && (a_fencingToken a =? token) && bool_decide (a_state a = ACTIVE)
     && (clock <? a_expiresAt a) then clock + Z.max 1000 ext else a_expiresAt a.

Lemma heartbeat_restated id token clock ext db :
  heartbeat id token clock ext db =
  with_attempts (map (λ a, restated (a_state a) (renewed id token clock ext a) a) (db_attempts db)) db.
Proof.
  rewrite /heartbeat. f_equal. apply map_ext => a. rewrite /renewed. by destruct (_ && _); [|rewrite restated_id].
Qed.

Lemma wf_heartbeat db id token clock ext : wf db → wf (heartbeat id token clock ext db).
Proof. intros Hw. rewrite heartbeat_restated. apply wf_restate; [done|]. by left. Qed.

Lemma wf_clock db now' :
  wf db → db_now db ≤ now' →
  wf (mkDb now' (db_caps db) (db_models db) (db_pricing db) (db_attempts db) (db_ledger db) (db_reservations db)
        (db_settlements db)).
Proof.
  intros [] Hn. split; cbn; try done.
  - intros r Hr. destruct (wf_revision0 r Hr). split; [lia|done].
  - intros v Hv. by destruct (wf_reservation0 v Hv).
Qed.

Lemma wf_config db caps models pricing :
  wf db → (∀ m, In m models → m_id m ≠ ""%string ∧ m_accountId m ≠ ""%string) →
  wf (mkDb (db_now db) caps models pricing (db_attempts db) (db_ledger db) (db_reservations db) (db_settlements db)).
Proof. intros [] Hm. split; cbn; try done. intros v Hv. by destruct (wf_reservation0 v Hv). Qed.

(** ** Reconciliation *)

Lemma outcome_bind_Returns {A B} (m : outcome A) (k : A → outcome B) b :
  outcome_bind m k = Returns b → ∃ a, m = Returns a ∧ k a = Returns b.
Proof. destruct m; cbn; [eauto|done]. Qed.

Lemma decimal_Returns z c : decimal z = Returns c → c = z ∧ 0 ≤ z.
Proof. rewrite /decimal. destruct (Z.ltb_spec z 0); [done|]. intros [= ->]. done. Qed.

Ltac invert_outcome :=
  repeat match goal with
    | H : outcome_bind _ _ = Returns _ |- _ => apply outcome_bind_Returns in H as (? & ? & ?)
    | H : decimal _ = Returns _ |- _ => apply decimal_Returns in H as [-> ?]
    | H : Returns _ = Returns _ |- _ => injection H as H
    | H : throw_unless ?b _ = Returns _ |- _ => unfold throw_unless in H; destruct b eqn:?; [clear H|discriminate H]
    | H : Throws _ = Returns _ |- _ => discriminate H
    end.

Section Transactions.
Context (toUpperCase : jstr → jstr) (digest : Payload → jstr).
Notation reconcile := (reconcileProviderBudget toUpperCase digest).
Notation admission := (admitProviderBudget toUpperCase).

(** The cost of a revision: not sent, the known cost, the liability, the provider's figure, none. *)
Lemma revision_cost_cases a t complete previous c :
  revision_cost toUpperCase a t complete previous = Returns c →
  co_total c = new_total (te_revisionKind t) (co_revisionCost c) (revisionTotal previous) ∧
  ((te_notSent t = true ∧ co_revisionCost c = Some 0 ∧ co_currency c = a_liabilityCurrency a ∧ co_known c = false) ∨
   (te_notSent t = false ∧ co_known c = true ∧ complete = Some true ∧ co_currency c = a_liabilityCurrency a ∧
      ∃ u x, te_usage t = Some u ∧ co_revisionCost c = Some x ∧ 0 ≤ x
             ∧ (us_reportedCost u = Some x ∨ us_calculatedCost u = Some x)) ∨
   (te_notSent t = false ∧ co_known c = false ∧ co_currency c = a_liabilityCurrency a ∧
      ∃ l, a_liabilitySpend a = Some l ∧
        co_revisionCost c = Some (match te_revisionKind t with
                                  | SNAPSHOT => l
                                  | DELTA => Z.max 0 (l - default 0 (revisionTotal previous))
                                  end)) ∨
   (te_notSent t = false ∧ co_known c = false ∧ a_liabilitySpend a = None ∧
      ∀ x, co_revisionCost c = Some x → 0 ≤ x)).
Proof.
  rewrite /revision_cost. intros H. apply outcome_bind_Returns in H as (rcur & _ & H).
  apply outcome_bind_Returns in H as (ccur & _ & H). cbv zeta in H.
  set rm := cost_matches a _ _ rcur in H. set cm := cost_matches a _ _ ccur in H.
  set supplied := (if rm then _ else _) in H.
  have Hs : ∀ x, supplied = Some x → ∃ u, te_usage t = Some u ∧ (us_reportedCost u = Some x ∨ us_calculatedCost u = Some x).
  { intros x. rewrite /supplied. destruct rm, cm, (te_usage t); cbn; intros; simplify_eq; eauto. }
  set known := negb _ && _ && _ in H. apply outcome_bind_Returns in H as ([[cost cur] conf] & Hc & H).
  injection H as <-. cbn. split; [done|]. destruct (te_notSent t) eqn:Hn; [injection Hc as <- <- <-; by left|right].
  have Hk : known = true → ∃ x, supplied = Some x ∧ complete = Some true.
  { rewrite /known /=. intros [Hx Hy]%andb_true_iff. bool_to_prop. destruct Hx as [x ->]. eauto. }
  destruct known eqn:Ek.
  - left. destruct (Hk eq_refl) as (x & Hx & ->). rewrite Hx in Hc. invert_outcome. simplify_eq.
    destruct (Hs x Hx) as (u & ? & ?). naive_solver.
  - right. clearbody known. destruct (a_liabilitySpend a) as [l|].
    + left. have {}Hc : Returns (Some (match te_revisionKind t with SNAPSHOT => l
         | DELTA => Z.max 0 (l - default 0 (revisionTotal previous)) end), a_liabilityCurrency a, ESTIMATED)
       = Returns (cost, cur, conf) by destruct supplied. injection Hc as <- <- <-. eauto 10.
    + right. split_and?; [done..|]. intros x ->.
      destruct (te_usage t ≫= us_reportedCost), rcur as [[|??]|], supplied; invert_outcome; by simplify_eq.
Qed.

Lemma revision_cost_ok a t complete previous c ck createdAt :
  anchor_ok a → te_accountId t = a_accountId a → revision_cost toUpperCase a t complete previous = Returns c →
  revision_ok a (new_revision a t ck c createdAt).
Proof.
  intros Ha Hacc [_ Hc]%revision_cost_cases. split; cbn; [done|done| |].
  - intros x Hx. destruct Hc as [(_ & Hy & _)|[(_ & _ & _ & _ & u & y & _ & Hy & ? & _)|[(_ & _ & _ & l & Hl & Hy)|(_ & _ & _ & Hy)]]].
    + rewrite Hx in Hy. by simplify_eq.
    + rewrite Hx in Hy. by simplify_eq.
    + rewrite Hx in Hy. simplify_eq. destruct (ao_liability _ Ha l Hl) as [? _]. case_match; lia.
    + by apply Hy.
  - intros [l Hl]. destruct Hc as [(_ & Hy & -> & _)|[(_ & _ & _ & -> & u & y & _ & Hy & _)|[(_ & _ & -> & l' & _ & Hy)|(_ & _ & Hy & _)]]];
      try (rewrite Hy; by eauto). congruence.
Qed.

Lemma check_terminal_Returns t ck :
  check_terminal toUpperCase digest t = Returns ck →
  ck_complete ck = or_else (te_observationComplete t) (te_usage t ≫= us_observationComplete)
  ∧ (te_notSent t = true → te_revisionKind t = SNAPSHOT ∧ te_reason t ≠ RCOMPLETED ∧ te_reason t ≠ CRASH_RECOVERY).
Proof.
  rewrite /check_terminal. intros H. invert_outcome. subst ck. split; [done|]. intros Hn.
  match goal with H : negb (te_notSent t && _) = true |- _ => rewrite Hn in H end. cbn in *. split_ands.
  bool_to_prop. done.
Qed.

Lemma reconcile_cases createdAt t db :
  (reconcile createdAt t db).2 = db ∨
  ∃ a ck, check_terminal toUpperCase digest t = Returns ck
    ∧ find_attempt (te_attemptId t) db = Some a ∧ a_cloud a = true ∧ a_fencingToken a = te_fencingToken t
    ∧ te_accountId t = a_accountId a ∧
    ((revised (te_attemptId t) (te_fencingToken t) (db_ledger db) = true ∧ reconcile createdAt t db = (Returns tt, finalize t a db)) ∨
     ∃ c, (∀ r, In r (revisions (te_attemptId t) (te_fencingToken t) (db_ledger db)) → r_sequence r < te_revisionSequence t)
       ∧ revision_cost toUpperCase a t (ck_complete ck) (revisions (te_attemptId t) (te_fencingToken t) (db_ledger db)) = Returns c
       ∧ reconcile createdAt t db =
           (Returns tt, finalize t a (append_revision t (new_revision a t ck c createdAt) c db))).
Proof.
  rewrite /reconcileProviderBudget. destruct (check_terminal _ _ t) as [ck|] eqn:Hck; [|by left].
  destruct (find_attempt _ db) as [a|] eqn:Ha; [|by left].
  destruct (a_cloud a && _) eqn:Hc; [|by left]. cbn [negb]. destruct (bool_decide _ && _); [by left|].
  destruct (same_identity t a) eqn:Hid; [|by left]. cbn [negb].
  move: Hid. rewrite /same_identity. intros (_ & Hacc & _)%bool_decide_eq_true. split_ands. bool_to_prop.
  destruct (List.find _ _) as [d|] eqn:Hd.
  - destruct (negb _ || _); [by left|]. right. exists a, ck. split_and?; try done. left. split; [|done].
    apply List.find_some in Hd as [Hd _]. apply revised_In. apply In_revisions in Hd. eauto.
  - destruct (bool_decide _ && _); [by left|]. destruct (existsb _ _) eqn:Hst; [by left|].
    destruct (revision_cost _ _ _ _ _) as [c|] eqn:Hcost; [|by left].
    right. exists a, ck. split_and?; try done. right. exists c. split_and?; try done. intros r Hr.
    have H1 := List.find_none _ _ Hd r Hr. cbn in H1. bool_to_prop.
    destruct (Z.ltb_spec (te_revisionSequence t) (r_sequence r)); [|lia].
    have : existsb (λ r, te_revisionSequence t <? r_sequence r) (revisions (te_attemptId t) (te_fencingToken t) (db_ledger db)) = true;
      [|by rewrite Hst]. apply existsb_exists. exists r. split; [done|]. by apply Z.ltb_lt.
Qed.

Lemma settle_reservation_keeps t c v :
  let v' := settle_reservation t c v in
  v_id v' = v_id v ∧ v_attemptId v' = v_attemptId v ∧ v_fencingToken v' = v_fencingToken v
  ∧ v_reservedValue v' = v_reservedValue v ∧ v_currency v' = v_currency v
  ∧ v_settled v' = v_settled v || of_reservation t v.
Proof. rewrite /settle_reservation. destruct (of_reservation t v), (v_settled v) eqn:E; cbn; by rewrite ?E. Qed.

Lemma new_settlements_of t c l v :
  NoDup (map v_id l) → In v l →
  settlement_view <$> List.filter (λ s, bool_decide (t_reservationId s = v_id v)) (new_settlements t c l) =
  if of_reservation t v then [(te_revisionSequence t, te_revisionKind t, default 0 (co_revisionCost c))] else [].
Proof.
  intros Hnd Hv. rewrite /new_settlements.
  have -> : ∀ (g : Reservation → Settlement) (l : list Reservation), (∀ x, t_reservationId (g x) = v_id x) →
    List.filter (λ s, bool_decide (t_reservationId s = v_id v)) (g <$> l) =
    g <$> List.filter (λ x, bool_decide (v_id x = v_id v)) l.
  { intros g k Hg. induction k as [|x k IH]; [done|]. cbn. rewrite Hg IH. by case_bool_decide. }
  { done. }
  rewrite filter_comm (filter_unique v_id) //. cbn. by destruct (of_reservation t v).
Qed.

Lemma wf_append db t a ck c createdAt :
  wf db → find_attempt (te_attemptId t) db = Some a → a_cloud a = true → a_fencingToken a = te_fencingToken t →
  createdAt ≤ db_now db →
  (∀ r, In r (revisions (te_attemptId t) (te_fencingToken t) (db_ledger db)) → r_sequence r < te_revisionSequence t) →
  revision_ok a (new_revision a t ck c createdAt) →
  wf (append_revision t (new_revision a t ck c createdAt) c db).
Proof.
  intros Hw [Ha Hid]%find_attempt_Some Hc Htok Ht Hseq Hok. set r := new_revision a t ck c createdAt.
  have Hmap : map v_id (map (settle_reservation t c) (db_reservations db)) = map v_id (db_reservations db).
  { rewrite map_map. apply map_ext => v. apply settle_reservation_keeps. }
  destruct Hw as [? ? ? Hended Hrev Hord Hvids Hset Hres]. split; cbn; try done.
  - intros b Hb Hcb Hst. by rewrite revised_app Hended.
  - intros x [Hx|[<-|[]]]%in_app_iff; [by apply Hrev|]. split; [done|]. exists a. split; [done|]. split; [done|]. by split.
  - intros id token. rewrite revisions_app revisions_one. destruct (of_attempt id token r) eqn:E; [|by rewrite app_nil_r].
    apply of_attempt_iff in E as [<- <-]. by apply increasing_snoc.
  - by rewrite Hmap.
  - rewrite Hmap. intros s [Hs|Hs]%in_app_iff; [by apply Hset|]. move: Hs. rewrite /new_settlements.
    intros (v & <- & [Hv _]%filter_In)%in_map_iff. cbn. apply list_elem_of_In. by apply in_map.
  - intros v' (v & <- & Hv)%in_map_iff. destruct (settle_reservation_keeps t c v) as (H1 & H2 & H3 & H4 & H5 & H6).
    have Hof : of_attempt (v_attemptId v) (v_fencingToken v) r = of_reservation t v.
    { rewrite /of_attempt /of_reservation /r /=. by rewrite Z.eqb_sym (bool_decide_ext _ (v_attemptId v = te_attemptId t)). }
    destruct (Hres v Hv) as [Hatt Hst Hm]. split; cbn; rewrite ?H1 ?H2 ?H3 ?H4 ?H5 ?H6; [done| |].
    + by rewrite revised_app Hst Hof.
    + rewrite revisions_app revisions_one Hof /settlements_of /= List.filter_app !fmap_app.
      rewrite -/(settlements_of (v_id v) db) Hm new_settlements_of //. by destruct (of_reservation t v).
Qed.

(** [reconcileProviderBudget] keeps the invariant. *)
Lemma wf_reconcile createdAt t db : wf db → createdAt ≤ db_now db → wf (reconcile createdAt t db).2.
Proof.
  intros Hw Ht. destruct (reconcile_cases createdAt t db) as [->|(a & ck & _ & Ha & Hc & Htok & Hacc & Hcase)]; [done|].
  have [Hin Hid] := find_attempt_Some _ _ _ Ha.
  destruct Hcase as [[Hr ->]|(c & Hseq & Hcost & ->)]; cbn; apply wf_finalize; rewrite ?Hid ?Htok //.
  - apply wf_append; try done. eapply revision_cost_ok; [by apply (wf_anchor _ Hw)|done|done].
  - cbn. rewrite revised_app. apply orb_true_iff. right. by apply of_attempt_iff.
Qed.

(** ** Admission *)

Lemma read_liability_ok attempt p :
  read_liability toUpperCase attempt = Returns p →
  0 < at_fencingToken attempt ≤ MAX_SIGNED_BIGINT ∧
  ∀ l, pr_spend p = Some l → 0 ≤ l ∧ is_Some (pr_currency p) ∧ is_Some (pr_pricingVersion p).
Proof.
  rewrite /read_liability. intros H. invert_outcome. split_ands. bool_to_prop. split; [done|]. subst p. cbn.
  intros l ->. split_ands. bool_to_prop. split_and?; try done.
  match goal with H : optional_decimal _ = _ |- _ => move: H end. rewrite /optional_decimal.
  destruct (li_spend _) as [sp|]; [|done]. intros Hsp. invert_outcome. by simplify_eq.
Qed.

Lemma admission_cases attempt ids db :
  (admission attempt ids db).2 = db ∨
  ∃ p caps, read_liability toUpperCase attempt = Returns p ∧ readCaps attempt db = Returns caps
    ∧ find_attempt (at_attemptId attempt) db = None ∧ db_now db < at_expiresAt attempt
    ∧ (∃ m, In m (db_models db) ∧ m_id m = at_modelId attempt ∧ m_accountId m = at_accountId attempt)
    ∧ caps_refuse caps attempt p db = None
    ∧ admission attempt ids db =
        (Returns (Admitted_ (at_attemptId attempt) (sort_ids (v_id <$> new_reservations attempt p caps ids))),
         mkDb (db_now db) (db_caps db) (db_models db) (db_pricing db)
           (db_attempts db ++ [new_anchor attempt p]) (db_ledger db)
           (db_reservations db ++ new_reservations attempt p caps ids) (db_settlements db)).
Proof.
  rewrite /admitProviderBudget. destruct (read_liability _ _) as [p|]; [|by left].
  destruct (readCaps _ _) as [caps|]; [|by left]. destruct (_ <=? _) eqn:Hexp; [by left|].
  destruct (find_attempt _ _) as [a|]; [by left|]. destruct (existsb _ _) eqn:Hm; [|by left]. cbn [negb].
  destruct (caps_refuse _ _ _ _) eqn:Hr; [by left|]. right. exists p, caps. bool_to_prop. split_and?; try done.
  apply existsb_exists in Hm as (m & Hin & Hm). split_ands. bool_to_prop. naive_solver.
Qed.

(** Caps are passed only by a priced liability in their currency, within each limit. *)
Lemma caps_refuse_None caps attempt p db cap :
  caps_refuse caps attempt p db = None → In cap caps →
  ∃ spend currency, pr_spend p = Some spend ∧ pr_currency p = Some currency ∧ cap_currency cap = currency
    ∧ let subject := match cap_scope cap with
                     | SHARE => default ""%string (at_shareId attempt)
                     | PROVIDER_ACCOUNT => at_accountId attempt
                     end in
      let usage := spendUsage (cap_scope cap) subject currency db in usage.1 + usage.2 + spend ≤ cap_monthlyLimit cap.
Proof.
  rewrite /caps_refuse. intros H Hin. destruct caps as [|cap0 caps]; [done|].
  destruct (pr_spend p) as [spend|]; [|done]. destruct (pr_currency p) as [currency|]; [|done].
  destruct (pr_pricingVersion p) as [version|]; [|done]. destruct (List.find _ _) eqn:Hf; [done|].
  destruct (negb _); [done|]. destruct (exceeded _ _ _ _ _) eqn:He; [done|].
  exists spend, currency. split_and?; try done.
  - have := List.find_none _ _ Hf cap Hin. rewrite /str_eqb. by intros ?%negb_false_iff%bool_decide_eq_true.
  - have := List.find_none _ _ He cap Hin. cbn beta zeta. destruct (spendUsage _ _ _ _). cbn. intros. bool_to_prop. lia.
Qed.

Lemma In_new_reservations attempt p caps ids v :
  In v (new_reservations attempt p caps ids) →
  ∃ cap, In cap caps ∧ v_id v ∈ ids ∧ v_attemptId v = at_attemptId attempt ∧ v_fencingToken v = at_fencingToken attempt
    ∧ v_reservedValue v = default 0 (pr_spend p) ∧ v_currency v = cap_currency cap ∧ v_settled v = false.
Proof.
  rewrite /new_reservations. intros [i (cap & id & -> & H1 & H2)%lookup_zip_with_Some]%list_elem_of_In%list_elem_of_lookup.
  exists cap. cbn. split_and?; try done; [apply list_elem_of_In|]; by eapply list_elem_of_lookup_2.
Qed.

Lemma new_reservations_NoDup attempt p caps ids :
  NoDup ids → NoDup (map v_id (new_reservations attempt p caps ids)).
Proof.
  rewrite /new_reservations. revert ids. induction caps as [|cap caps IH]; intros [|id ids]; cbn; try by constructor.
  intros [Hid Hnd]%NoDup_cons. constructor; [|by apply IH].
  intros (v & <- & (c & _ & Hin & _)%In_new_reservations)%list_elem_of_In%in_map_iff. done.
Qed.

(** The generated reservation ids are new. *)
Definition fresh_ids (ids : list string) (db : Db) : Prop :=
  NoDup ids ∧ ∀ id, id ∈ ids → id ∉ map v_id (db_reservations db).

Lemma wf_unrevised db id token : wf db → find_attempt id db = None → revisions id token (db_ledger db) = [].
Proof.
  intros Hw Hn. apply revised_cons_revisions, not_true_is_false. intros (r & Hr & Hid & _)%revised_In.
  destruct (wf_revision _ Hw r Hr) as [_ (a & Ha & _ & [Ha1 _] & _)].
  apply (find_attempt_None _ _ _ Hn Ha). congruence.
Qed.

(** [admitProviderBudget] keeps the invariant. *)
Lemma wf_admission attempt ids db : wf db → fresh_ids ids db → wf (admission attempt ids db).2.
Proof.
  intros Hw [Hnd Hfresh].
  destruct (admission_cases attempt ids db) as [->|(p & caps & Hp & Hcaps & Hnone & _ & Hm & Href & ->)]; [done|].
  have Hun := wf_unrevised _ _ (at_fencingToken attempt) Hw Hnone.
  destruct (read_liability_ok _ _ Hp) as [Htok Hspend].
  have Hw' := Hw. destruct Hw' as [Hids Hmod Hanc Hended Hrev Hord Hvids Hset Hres]. split; cbn; try done.
  - rewrite map_app. apply NoDup_app. split_and!; [done| |apply NoDup_singleton].
    intros id (a & <- & Ha)%list_elem_of_In%in_map_iff Hin. apply list_elem_of_singleton in Hin.
    by apply (find_attempt_None _ _ _ Hnone Ha).
  - intros a [Ha|[<-|[]]]%in_app_iff Hc; [by apply Hanc|]. split; cbn; [done| |done].
    destruct Hm as (m & Hin & <- & <-). split; by apply Hmod.
  - intros a [Ha|[<-|[]]]%in_app_iff Hc Hst; [by apply Hended|done].
  - intros r Hr. destruct (Hrev r Hr) as [? (a & Ha & ?)]. split; [done|]. exists a.
    split; [apply in_app_iff; by left|done].
  - rewrite map_app. apply NoDup_app. split_and!; [done| |by apply new_reservations_NoDup].
    intros id Hid (v & <- & (c & _ & Hin & _)%In_new_reservations)%list_elem_of_In%in_map_iff. by apply Hfresh in Hin.
  - intros s Hs. rewrite map_app. apply elem_of_app. left. by apply Hset.
  - intros v [Hv|Hv]%in_app_iff.
    + destruct (Hres v Hv) as [(a & Ha & ?) ? ?]. split; try done. exists a. split; [apply in_app_iff; by left|done].
    + apply In_new_reservations in Hv as (cap & Hcap & Hid & Hvid & Hvtok & Hvres & Hvcur & Hvst).
      destruct (caps_refuse_None _ _ _ _ _ Href Hcap) as (spend & currency & Hs & Hcur & Hceq & _).
      split; cbn; rewrite ?Hvid ?Hvtok ?Hvres ?Hvcur ?Hvst.
      * exists (new_anchor attempt p). split; [apply in_app_iff; right; by left|]. cbn. rewrite Hs Hcur Hceq. done.
      * symmetry. by apply revised_cons_revisions.
      * rewrite Hun /settlements_of filter_none //. intros s Hs'. apply bool_decide_eq_false_2 => Heq.
        apply (Hfresh (v_id v)); [done|]. rewrite -Heq. by apply Hset.
Qed.

(** ** Transactions and runs *)

Inductive step (db : Db) : Db → Prop :=
  | step_admit attempt ids : fresh_ids ids db → step db (admission attempt ids db).2
  | step_reconcile createdAt t : createdAt ≤ db_now db → step db (reconcile createdAt t db).2
  | step_repair latest createdAt row now :
      createdAt ≤ db_now db →
      (latest ≠ None → revised (a_id row) (a_fencingToken row) (db_ledger db) = true) →
      step db (repair_with toUpperCase digest latest createdAt row now db).2
  | step_heartbeat id token clock ext : step db (heartbeat id token clock ext db)
  | step_clock now' : db_now db ≤ now' →
      step db (mkDb now' (db_caps db) (db_models db) (db_pricing db) (db_attempts db) (db_ledger db)
                 (db_reservations db) (db_settlements db))
  | step_config caps models pricing :
      (∀ m, In m models → m_id m ≠ ""%string ∧ m_accountId m ≠ ""%string) →
      step db (mkDb (db_now db) caps models pricing (db_attempts db) (db_ledger db) (db_reservations db)
                 (db_settlements db)).

Lemma wf_step db db' : wf db → step db db' → wf db'.
Proof.
  intros Hw []; [by apply wf_admission|by apply wf_reconcile| |by apply wf_heartbeat|by apply wf_clock|by apply wf_config].
  destruct latest; cbn; [apply wf_end; [done|]; by match goal with H : _ → revised _ _ _ = true |- _ => apply H end|].
  by apply wf_reconcile.
Qed.

Inductive reachable (db0 : Db) : Db → Prop :=
  | reach_start : reachable db0 db0
  | reach_step db db' : reachable db0 db → step db db' → reachable db0 db'.

Lemma wf_reachable db0 db : wf db0 → reachable db0 db → wf db.
Proof. intros Hw. induction 1; eauto using wf_step. Qed.
End Transactions.
