(* ===== verification/SpendSafety.v ===== *)
(** * SpendSafety: spend caps hold

    What the spend transactions guarantee together. A cap's exposure is what its subject has
    settled this month plus what is reserved for its attempts in flight. No run takes the exposure
    over the limit, except by the amount settlements report above what they had reserved; every
    settlement's value is determined by the branch that applies; deliveries are idempotent; and
    the repair sweep ends every expired attempt. *)
From Stdlib Require Import ssreflect.
From S2P Require Import Prelude JsString SpendModel SpendSettle SpendLedger SpendInvariant.

(** ** Exposure *)

Definition exposure (cap : CapRow) (db : Db) : Z :=
  let usage := spendUsage (cap_scope cap) (cap_subject cap) (cap_currency cap) db in usage.1 + usage.2.

(** What one attempt holds in a currency: its liability until its first revision, then its
    counted revisions. *)
Definition held (currency : jstr) (a : Anchor) (db : Db) : Z :=
  if revised (a_id a) (a_fencingToken a) (db_ledger db)
  then counted_total currency (revisions (a_id a) (a_fencingToken a) (db_ledger db))
  else if bool_decide (a_liabilityCurrency a = Some currency) then default 0 (a_liabilitySpend a) else 0.

(** How much a step raises what the cap's cloud attempts already held. *)
Definition raised (cap : CapRow) (db db' : Db) : Z :=
  sum_of (λ a, Z.max 0 (held (cap_currency cap) a db' - held (cap_currency cap) a db))
    (List.filter (λ a, a_cloud a && attempt_scope (cap_scope cap) (cap_subject cap) a) (db_attempts db)).

Definition reserved_term (scope : Anchor → bool) (currency : jstr) (ledger : list Revision) (a : Anchor) : Z :=
  if scope a && bool_decide (a_liabilityCurrency a = Some currency) && in_flight ledger a
  then default 0 (a_liabilitySpend a) else 0.

Lemma reservedSpend_terms scope currency db :
  reservedSpend scope currency db = sum_of (reserved_term scope currency (db_ledger db)) (db_attempts db).
Proof. by rewrite /reservedSpend sum_of_filter. Qed.

Lemma attempt_scope_restated scope subject s e a :
  attempt_scope scope subject (restated s e a) = attempt_scope scope subject a.
Proof. done. Qed.

(** Ending attempts that have a revision, and moving expiries, leave the exposure alone. *)
Lemma exposure_restate cap db (s : Anchor → AttemptState) (e : Anchor → Z) :
  (∀ a, In a (db_attempts db) → s a = a_state a ∨ revised (a_id a) (a_fencingToken a) (db_ledger db) = true) →
  exposure cap (with_attempts (map (λ a, restated (s a) (e a) a) (db_attempts db)) db) = exposure cap db.
Proof.
  intros Hs. rewrite /exposure /spendUsage /=. f_equal. rewrite !reservedSpend_terms /= sum_of_map.
  apply sum_of_ext => a Ha. rewrite /reserved_term attempt_scope_restated /in_flight /=.
  destruct (Hs a Ha) as [->|Hr]; [done|]. by rewrite -/(revised (a_id a) (a_fencingToken a) (db_ledger db)) Hr !andb_false_r.
Qed.

Lemma exposure_end cap db id token state :
  revised id token (db_ledger db) = true →
  exposure cap (with_attempts (map (end_attempt id token state) (db_attempts db)) db) = exposure cap db.
Proof.
  intros Hr. rewrite (map_ext _ _ (end_attempt_restated id token state)).
  apply (exposure_restate cap db (λ a, if ends id token a then state else a_state a)).
  intros a Ha. destruct (ends id token a) eqn:E; [right|by left]. move: E. rewrite /ends => E.
  split_ands. bool_to_prop. by subst.
Qed.

Lemma exposure_finalize cap db t a :
  revised (a_id a) (a_fencingToken a) (db_ledger db) = true → exposure cap (finalize t a db) = exposure cap db.
Proof. intros Hr. rewrite /finalize. case_bool_decide; [|done]. by apply exposure_end. Qed.

(** A revision carries its attempt's subject. *)
Lemma ledger_scope_own scope subject a r :
  revision_ok a r → ledger_scope scope subject r = attempt_scope scope subject a.
Proof. intros [Hacc Hsh]. rewrite /ledger_scope /attempt_scope. by rewrite Hacc Hsh. Qed.

Section Append.
Context (cap : CapRow) (db : Db) (a : Anchor) (r : Revision).
Context (Hw : wf db) (Ha : In a (db_attempts db)) (Hc : a_cloud a = true).
Context (Hid : r_attemptId r = a_id a) (Htok : r_fencingToken r = a_fencingToken a) (Hok : revision_ok a r).
Context (Ht : r_createdAt r ≤ db_now db).
Let scope := ledger_scope (cap_scope cap) (cap_subject cap).
Let revs := revisions (a_id a) (a_fencingToken a) (db_ledger db).
Let now := db_now db.

Lemma append_own x : In x (revs ++ [r]) →
  scope x = attempt_scope (cap_scope cap) (cap_subject cap) a ∧ month_of (r_createdAt x) ≤ month_of now
  ∧ (∀ c, r_settledCost x = Some c → 0 ≤ c).
Proof.
  intros Hx. have [Ht' Hx'] : r_createdAt x ≤ now ∧ revision_ok a x.
  { apply in_app_iff in Hx as [Hx|[<-|[]]]; [by apply (wf_own db)|done]. }
  split; [by apply ledger_scope_own|]. split; [by apply month_of_mono|apply (ro_cost _ _ Hx')].
Qed.

(** In the month's sum: the attempt is of the subject, has revisions, and all are of this month. *)
Lemma in_sum_own l : (∀ x, In x l → In x (revs ++ [r])) →
  in_sum scope now l = attempt_scope (cap_scope cap) (cap_subject cap) a && negb (bool_decide (l = []))
    && negb (existsb (λ x, month_of (r_createdAt x) <? month_of now) l).
Proof.
  intros Hl. rewrite /in_sum. destruct (existsb (λ x, _ <? _) l) eqn:Hb; [by rewrite !andb_false_r|].
  rewrite !andb_true_r. destruct l as [|x l]; [by rewrite /= andb_false_r|]. rewrite bool_decide_eq_false_2 // andb_true_r.
  destruct (append_own x) as (Hs & Hm & _); [apply Hl; by left|]. destruct (attempt_scope _ _ a) eqn:Hsc.
  - apply existsb_exists. exists x. split; [by left|]. rewrite Hs /in_month /=.
    cbn in Hb. apply orb_false_iff in Hb as [Hb _]. bool_to_prop. apply Z.eqb_eq. lia.
  - apply not_true_is_false. intros (y & Hy & [Hsy _]%andb_true_iff)%existsb_exists.
    destruct (append_own y) as (Hs' & _); [by apply Hl|]. congruence.
Qed.

Lemma counted_own l : (∀ x, In x l → In x (revs ++ [r])) → 0 ≤ counted_total (cap_currency cap) l.
Proof. intros Hl. apply counted_total_nonneg => x c Hx. by apply (append_own x), Hl. Qed.

Context (db' : Db) (Hnow : db_now db' = db_now db) (Hatt : db_attempts db' = db_attempts db).
Context (Hled : db_ledger db' = db_ledger db ++ [r]).
Let cur := cap_currency cap.
Let of_cap := attempt_scope (cap_scope cap) (cap_subject cap).

Lemma append_revised : revised (a_id a) (a_fencingToken a) (db_ledger db') = true.
Proof using Hid Htok Hled. apply revised_In. exists r. split; [rewrite Hled; apply in_app_iff; right; by left|done]. Qed.

Lemma append_revs : revisions (a_id a) (a_fencingToken a) (db_ledger db') = revs ++ [r].
Proof using Hid Htok Hled. rewrite Hled revisions_app revisions_one -Hid -Htok of_attempt_self. by rewrite Hid Htok. Qed.

(** Only this attempt's reservation ends. *)
Lemma append_reserved :
  reservedSpend of_cap cur db' = reservedSpend of_cap cur db - reserved_term of_cap cur (db_ledger db) a.
Proof using Hw Ha Hid Htok Hatt Hled.
  rewrite !reservedSpend_terms Hatt
    (sum_of_update a_id (reserved_term of_cap cur (db_ledger db)) (reserved_term of_cap cur (db_ledger db')) _ a);
    [apply Hw|done| |].
  - intros b Hb Hne. rewrite /reserved_term /in_flight Hled existsb_app /=.
    have -> : of_attempt (a_id b) (a_fencingToken b) r = false; [|by rewrite !orb_false_r].
    apply not_true_is_false. intros [H _]%of_attempt_iff. congruence.
  - have -> : reserved_term of_cap cur (db_ledger db') a = 0; [|lia].
    have Hr := append_revised. rewrite /revised in Hr. by rewrite /reserved_term /in_flight Hr !andb_false_r.
Qed.

Lemma reserved_term_nonneg : 0 ≤ reserved_term of_cap cur (db_ledger db) a.
Proof using Hw Ha Hc.
  rewrite /reserved_term. destruct (_ && _); [|done]. destruct (a_liabilitySpend a) as [l|] eqn:El; [|done].
  by apply (ao_liability _ (wf_anchor _ Hw a Ha Hc)).
Qed.

(** Until its first revision the attempt is in flight. *)
Lemma unrevised_reserved : revs = [] → of_cap a = true →
  reserved_term of_cap cur (db_ledger db) a =
  if bool_decide (a_liabilityCurrency a = Some cur) then default 0 (a_liabilitySpend a) else 0.
Proof using Hw Ha Hc.
  intros Er Hsc. have Hr := proj2 (revised_cons_revisions _ _ _) Er. rewrite /reserved_term Hsc /in_flight Hc /=.
  rewrite -/(revised (a_id a) (a_fencingToken a) (db_ledger db)) Hr.
  rewrite (bool_decide_eq_true_2 (a_state a = ACTIVE)); [|by rewrite andb_true_r].
  destruct (decide (a_state a = ACTIVE)) as [|Hna]; [done|]. apply (wf_ended _ Hw) in Hna; [|done..].
  by rewrite Hr in Hna.
Qed.

(** The attempt's own balance. *)
Lemma append_balance :
  attempt_settled scope cur now (revs ++ [r]) ≤
  attempt_settled scope cur now revs + reserved_term of_cap cur (db_ledger db) a
  + if of_cap a then Z.max 0 (held cur a db' - held cur a db) else 0.
Proof using All.
  have Hrt := reserved_term_nonneg. have Hn := counted_own (revs ++ [r]) ltac:(done).
  have Hsub : ∀ x, In x revs → In x (revs ++ [r]) by (intros; apply in_app_iff; by left).
  have Hn' := counted_own revs Hsub. rewrite /attempt_settled !in_sum_own //. fold cur of_cap in Hn, Hn' |- *.
  destruct (of_cap a) eqn:Hsc; [|cbn; lia].
  rewrite existsb_app /= (bool_decide_eq_false_2 (revs ++ [r] = [])); [by destruct revs|]. cbn [negb andb].
  rewrite /held append_revised append_revs. destruct (decide (revs = [])) as [Er|Er].
  - rewrite unrevised_reserved // (proj2 (revised_cons_revisions _ _ _) Er) Er. rewrite Er in Hn. cbn in Hn |- *.
    destruct (negb _), (bool_decide _); lia.
  - have -> : revised (a_id a) (a_fencingToken a) (db_ledger db) = true.
    { rewrite revised_revisions. by rewrite bool_decide_eq_false_2. }
    rewrite bool_decide_eq_false_2 //. cbn [negb andb]. fold revs.
    destruct (existsb _ revs); cbn [negb orb andb]; [lia|]. destruct (negb _); lia.
Qed.

Lemma append_raised : (if of_cap a then Z.max 0 (held cur a db' - held cur a db) else 0) ≤ raised cap db db'.
Proof using Ha Hc.
  rewrite /raised sum_of_filter. apply (sum_of_member _ _ a _ Ha); [by rewrite Hc|].
  intros b _. destruct (_ && _); lia.
Qed.

(** A new revision raises the exposure by at most what it raises its attempt by. *)
Lemma exposure_append : exposure cap db' ≤ exposure cap db + raised cap db db'.
Proof using All.
  have := append_balance. have := append_raised. rewrite /exposure /spendUsage /=. fold cur of_cap.
  rewrite append_reserved Hnow Hled settledSpend_app Hid Htok. fold revs scope now. lia.
Qed.
End Append.

(** ** Every transaction *)

Lemma raised_ledger cap db db1 db2 : db_ledger db1 = db_ledger db2 → raised cap db db1 = raised cap db db2.
Proof. intros H. rewrite /raised /held. by rewrite H. Qed.

Lemma raised_nonneg cap db db' : 0 ≤ raised cap db db'.
Proof. apply sum_of_nonneg. lia. Qed.

Lemma finalize_ledger t a db : db_ledger (finalize t a db) = db_ledger db.
Proof. rewrite /finalize. by case_bool_decide. Qed.

Lemma exposure_clock cap db now' :
  wf db → db_now db ≤ now' →
  exposure cap (mkDb now' (db_caps db) (db_models db) (db_pricing db) (db_attempts db) (db_ledger db)
                  (db_reservations db) (db_settlements db)) ≤ exposure cap db.
Proof.
  intros Hw Hn. rewrite /exposure /spendUsage /= /reservedSpend /=.
  set scope := ledger_scope _ _. have Hm := month_of_mono _ _ Hn. have Hpos : 0 ≤ settledSpend scope (cap_currency cap) (db_now db) (db_ledger db).
  { apply settledSpend_nonneg => r c Hr Hcost. destruct (wf_revision _ Hw r Hr) as [_ (a & _ & _ & _ & Hok)].
    by apply (ro_cost _ _ Hok). }
  destruct (decide (month_of (db_now db) = month_of now')) as [Heq|Hne]; [by rewrite (settledSpend_same_month _ _ _ _ _ Heq)|].
  rewrite settledSpend_zero; [|lia]. intros r Hr. destruct (wf_revision _ Hw r Hr) as [Ht _].
  have := month_of_mono _ _ Ht. rewrite /in_month. intros. apply Z.eqb_neq. lia.
Qed.

Section Caps.
Context (toUpperCase : jstr → jstr) (digest : Payload → jstr).

Lemma exposure_reconcile cap db createdAt t :
  wf db → createdAt ≤ db_now db →
  let db' := (reconcileProviderBudget toUpperCase digest createdAt t db).2 in
  exposure cap db' ≤ exposure cap db + raised cap db db'.
Proof.
  intros Hw Ht db'. subst db'.
  destruct (reconcile_cases toUpperCase digest createdAt t db) as [->|(a & ck & _ & Ha & Hc & Htok & Hacc & Hcase)];
    [have := raised_nonneg cap db db; lia|].
  have [Hin Hid] := find_attempt_Some _ _ _ Ha. destruct Hcase as [[Hr ->]|(c & Hseq & Hcost & ->)]; cbn [snd].
  - rewrite exposure_finalize; [by rewrite Hid Htok|]. have := raised_nonneg cap db (finalize t a db). lia.
  - have Hrok := revision_cost_ok _ _ _ _ _ c ck createdAt (wf_anchor _ Hw a Hin Hc) Hacc Hcost.
    rewrite exposure_finalize; [rewrite /= revised_app (proj2 (of_attempt_iff _ _ _)) ?orb_true_r //; by rewrite Hid Htok|].
    rewrite (raised_ledger _ _ _ _ (finalize_ledger _ _ _)). by apply (exposure_append cap db a (new_revision a t ck c createdAt)).
Qed.

(** An admission passes every cap of its subjects, or changes nothing of them. *)
Lemma exposure_admission cap db attempt ids :
  wf db → In cap (db_caps db) → cap_subject cap ≠ ""%string →
  let db' := (admitProviderBudget toUpperCase attempt ids db).2 in
  exposure cap db' ≤ Z.max (exposure cap db) (cap_monthlyLimit cap).
Proof.
  intros Hw Hcap Hne db'. subst db'.
  destruct (admission_cases toUpperCase attempt ids db) as [->|(p & caps & Hp & Hcaps & Hnone & _ & _ & Href & ->)]; [lia|].
  have Hsplit : exposure cap (mkDb (db_now db) (db_caps db) (db_models db) (db_pricing db)
      (db_attempts db ++ [new_anchor attempt p]) (db_ledger db)
      (db_reservations db ++ new_reservations attempt p caps ids) (db_settlements db))
    = exposure cap db + reserved_term (attempt_scope (cap_scope cap) (cap_subject cap)) (cap_currency cap) (db_ledger db) (new_anchor attempt p).
  { rewrite /exposure /spendUsage /= !reservedSpend_terms /= sum_of_app sum_of_cons.
    rewrite /(sum_of _ []) /=. lia. }
  cbn [snd]. rewrite Hsplit. destruct (attempt_scope (cap_scope cap) (cap_subject cap) (new_anchor attempt p)) eqn:Hsc;
    [|rewrite /reserved_term Hsc /=; lia].
  have [Hbind Hsub] : binds attempt cap = true ∧ cap_subject cap =
    match cap_scope cap with SHARE => default ""%string (at_shareId attempt) | PROVIDER_ACCOUNT => at_accountId attempt end.
  { move: Hsc. rewrite /attempt_scope /binds /=. destruct (cap_scope cap).
    - intros Hs. bool_to_prop. by rewrite Hs bool_decide_eq_true_2.
    - intros Hs. bool_to_prop. rewrite Hs /=. destruct (cap_subject cap) eqn:E; [done|]. by rewrite bool_decide_eq_true_2. }
  have Hin : In cap caps.
  { move: Hcaps. rewrite /readCaps. destruct (existsb _ _); [done|]. intros [= <-]. apply sort_by_in, filter_In. done. }
  destruct (caps_refuse_None _ _ _ _ _ Href Hin) as (spend & currency & Hs & Hcur & Hceq & Hle).
  rewrite /= -Hsub -Hceq in Hle. rewrite /exposure /=. rewrite /reserved_term Hsc /= Hs /=. destruct (_ && _); lia.
Qed.

Lemma exposure_step cap db db' :
  wf db → In cap (db_caps db) → cap_subject cap ≠ ""%string → step toUpperCase digest db db' →
  exposure cap db' ≤ Z.max (exposure cap db) (cap_monthlyLimit cap) + raised cap db db'.
Proof.
  intros Hw Hcap Hne Hst. have Hn := raised_nonneg cap db db'. destruct Hst as [attempt ids Hf|createdAt t Ht|latest createdAt row now Ht Hl|
    id token clock ext|now' Hnow|caps models pricing Hm].
  - have := exposure_admission cap db attempt ids Hw Hcap Hne. cbn zeta. lia.
  - have := exposure_reconcile cap db createdAt t Hw Ht. cbn zeta. lia.
  - destruct latest as [reason|]; cbn in Hn |- *.
    + rewrite exposure_end; [by apply Hl|]. lia.
    + have := exposure_reconcile cap db createdAt (crash_terminal row now) Hw Ht. cbn zeta. lia.
  - rewrite heartbeat_restated in Hn |- *. rewrite exposure_restate; [by left|lia].
  - have := exposure_clock cap db now' Hw Hnow. lia.
  - rewrite {1}/exposure /spendUsage /= /reservedSpend /= -/(reservedSpend _ _ db). rewrite /exposure /spendUsage /= in Hn |- *. lia.
Qed.

(** A run while the cap is in place, with the total its settlements raised. *)
Inductive spend_run (cap : CapRow) (db0 : Db) : Z → Db → Prop :=
  | run_start : spend_run cap db0 0 db0
  | run_step x db db' :
      spend_run cap db0 x db → In cap (db_caps db) → step toUpperCase digest db db' →
      spend_run cap db0 (x + raised cap db db') db'.

Lemma run_wf cap db0 x db : wf db0 → spend_run cap db0 x db → wf db.
Proof. intros Hw. induction 1; eauto using wf_step. Qed.

(** C7. Spend caps hold. From any reachable state [db0] in which a cap (of a named subject) is in
    place, created or lowered below the current spend included, along every run of admissions,
    settlements, repairs, heartbeats, clock moves (month changes included) and configuration edits
    that keep the cap, what its subject has settled this month plus what is reserved for its
    attempts in flight never exceeds the larger of the monthly limit and the exposure of [db0] by
    more than [x], the amount by which settlements raised an attempt above what it already held. *)
Theorem spend_cap_holds cap init db0 x db :
  empty_tables init → reachable toUpperCase digest init db0 →
  cap_subject cap ≠ ""%string → spend_run cap db0 x db →
  exposure cap db ≤ Z.max (exposure cap db0) (cap_monthlyLimit cap) + x.
Proof.
  intros Hinit Hreach Hne Hrun. have Hw := wf_reachable _ _ _ _ (empty_wf _ Hinit) Hreach.
  have [? ?] : 0 ≤ x ∧ exposure cap db ≤ Z.max (exposure cap db0) (cap_monthlyLimit cap) + x; [|done].
  induction Hrun as [|y db db' Hrun IH Hcap Hst]; [split; [done|lia]|].
  have := exposure_step cap db db' (run_wf _ _ _ _ Hw Hrun) Hcap Hne Hst. have := raised_nonneg cap db db'. lia.
Qed.

(** C36. Nothing is under-counted. In every reachable state: a cloud attempt that is no longer
    ACTIVE has a ledger revision; every revision of a priced attempt carries a settled cost in the
    attempt's currency; a reservation is settled exactly when its attempt has a revision; and the
    settlements of a reservation mirror the revisions of its attempt one by one. *)
Theorem spend_tables_consistent init db :
  empty_tables init → reachable toUpperCase digest init db →
  (∀ a, In a (db_attempts db) → a_cloud a = true → a_state a ≠ ACTIVE →
     revised (a_id a) (a_fencingToken a) (db_ledger db) = true) ∧
  (∀ a r, In a (db_attempts db) → is_Some (a_liabilitySpend a) →
     In r (revisions (a_id a) (a_fencingToken a) (db_ledger db)) →
     is_Some (r_settledCost r) ∧ r_currency r = a_liabilityCurrency a) ∧
  (∀ v, In v (db_reservations db) →
     v_settled v = revised (v_attemptId v) (v_fencingToken v) (db_ledger db) ∧
     settlement_view <$> settlements_of (v_id v) db =
     revision_view <$> revisions (v_attemptId v) (v_fencingToken v) (db_ledger db)).
Proof.
  intros Hinit Hreach. have Hw := wf_reachable _ _ _ _ (empty_wf _ Hinit) Hreach. split_and!.
  - apply (wf_ended _ Hw).
  - intros a r Ha Hl Hr. destruct (wf_own _ _ _ Hw Ha Hr) as [_ Hok]. by apply (ro_priced _ _ Hok).
  - intros v Hv. by destruct (wf_reservation _ Hw v Hv).
Qed.

(** The settled spend, attempt by attempt. *)
Lemma settledSpend_attempts scope currency db :
  wf db →
  settledSpend scope currency (db_now db) (db_ledger db) =
  sum_of (λ a, attempt_settled scope currency (db_now db) (revisions (a_id a) (a_fencingToken a) (db_ledger db)))
    (db_attempts db).
Proof.
  intros Hw. rewrite settledSpend_rows sum_of_filter.
  rewrite (sum_of_partition _ (λ a, of_attempt (a_id a) (a_fencingToken a)) _ (db_attempts db)).
  - intros r Hr. destruct (wf_revision _ Hw r Hr) as [_ (a & Ha & _ & [Hid Htok] & _)].
    rewrite (filter_ext_In _ (λ b, bool_decide (a_id b = a_id a))); [|rewrite (filter_unique a_id) //; [apply Hw|by exists a]].
    intros b Hb. rewrite /of_attempt. case_bool_decide as H1; case_bool_decide as H2; try done; try congruence.
    rewrite (wf_same_attempt db b a) //. by rewrite Htok Z.eqb_refl.
  - apply sum_of_ext => a Ha. rewrite -sum_of_filter filter_filter /attempt_settled /counted_total /revisions filter_filter.
    fold (revisions (a_id a) (a_fencingToken a) (db_ledger db)).
    transitivity (sum_of (λ r, default 0 (r_settledCost r)) (List.filter (λ r, of_attempt (a_id a) (a_fencingToken a) r
      && (in_sum scope (db_now db) (revisions (a_id a) (a_fencingToken a) (db_ledger db))
      && (bool_decide (r_currency r = Some currency)
         && counted (revisions (a_id a) (a_fencingToken a) (db_ledger db)) r))) (db_ledger db))).
    + f_equal. apply filter_ext => r. destruct (of_attempt _ _ r) eqn:E; [|done].
      by apply of_attempt_iff in E as [<- <-].
    + destruct (in_sum _ _ _); [done|]. rewrite filter_none //. intros. by rewrite andb_false_r.
Qed.
(** The SQL reading and the writer agree on totals. For a subject whose attempts are priced in
    the currency, the month's settled spend that the cap reads in one statement is the sum, over
    the subject's attempts whose first revision is in the month, of the total [revisionTotal]
    computes for each when it settles. *)
Theorem settled_spend_is_sum_of_totals init db scope subject currency :
  empty_tables init → reachable toUpperCase digest init db →
  (∀ a, In a (db_attempts db) → attempt_scope scope subject a = true →
     is_Some (a_liabilitySpend a) ∧ a_liabilityCurrency a = Some currency) →
  settledSpend (ledger_scope scope subject) currency (db_now db) (db_ledger db) =
  sum_of (λ a, default 0 (revisionTotal (revisions (a_id a) (a_fencingToken a) (db_ledger db))))
    (List.filter (λ a, attempt_scope scope subject a
                       && first_in_window (db_now db) (db_ledger db) (a_id a) (a_fencingToken a)) (db_attempts db)).
Proof.
  intros Hinit Hreach Hpriced. have Hw := wf_reachable _ _ _ _ (empty_wf _ Hinit) Hreach.
  rewrite settledSpend_attempts // sum_of_filter. apply sum_of_ext => a Ha.
  rewrite /attempt_settled /first_in_window. set revs := revisions (a_id a) (a_fencingToken a) (db_ledger db).
  have -> : in_sum (ledger_scope scope subject) (db_now db) revs =
    attempt_scope scope subject a && (existsb (λ r, in_month (db_now db) (r_createdAt r)) revs
      && negb (existsb (λ r, month_of (r_createdAt r) <? month_of (db_now db)) revs)).
  { rewrite /in_sum andb_assoc. f_equal. have : ∀ r, In r revs → ledger_scope scope subject r = attempt_scope scope subject a.
    { intros r Hr. destruct (wf_own _ _ _ Hw Ha Hr) as [_ Hok]. by apply ledger_scope_own. }
    clear. induction revs as [|r l IH]; intros Hr; cbn; [by rewrite andb_false_r|].
    rewrite Hr; [by left|]. rewrite IH; [by intros; apply Hr; right|]. by destruct (attempt_scope _ _ _). }
  destruct (attempt_scope scope subject a) eqn:Hsc; [|done]. cbn [andb]. destruct (existsb _ _ && _); [|done].
  symmetry. destruct (Hpriced a Ha Hsc) as [Hl Hcur]. apply revisionTotal_counted; [apply Hw|].
  intros r Hr _. destruct (wf_own _ _ _ Hw Ha Hr) as [_ Hok]. rewrite -Hcur. by apply (ro_priced _ _ Hok).
Qed.

(** ** Settlement values *)

Lemma held_append cur db a r db' :
  wf db → In a (db_attempts db) → in_attempt a (r_attemptId r) (r_fencingToken r) →
  increasing (revisions (a_id a) (a_fencingToken a) (db_ledger db) ++ [r]) →
  db_ledger db' = db_ledger db ++ [r] →
  held cur a db' = match r_kind r with
                   | SNAPSHOT => cost_in cur r
                   | DELTA => (if revised (a_id a) (a_fencingToken a) (db_ledger db) then held cur a db else 0) + cost_in cur r
                   end.
Proof.
  intros Hw Ha [Hid Htok] Hi Hled. rewrite /held Hled revised_app revisions_app revisions_one.
  have -> : of_attempt (a_id a) (a_fencingToken a) r = true by apply of_attempt_iff. rewrite orb_true_r counted_total_snoc //.
  destruct (r_kind r); [done|]. destruct (revised _ _ _) eqn:E; [done|]. apply revised_cons_revisions in E as ->. done.
Qed.

Lemma held_finalize cur t a b db : held cur b (finalize t a db) = held cur b db.
Proof. by rewrite /held finalize_ledger. Qed.

(** The value of a settlement. When reconciliation appends a revision to an attempt priced at
    liability [l] in [cur], the attempt then holds: nothing when it was never sent; the supplied
    cost (added to the earlier total by a DELTA) when it is known, which needs a complete
    observation; and otherwise the liability, or the earlier total when that is higher and the
    revision is a DELTA. So an unknown cost never lowers what a first settlement holds. *)
Theorem settlement_value db createdAt t db' a l cur :
  wf db → createdAt ≤ db_now db → find_attempt (te_attemptId t) db = Some a →
  a_liabilitySpend a = Some l → a_liabilityCurrency a = Some cur →
  reconcileProviderBudget toUpperCase digest createdAt t db = (Returns tt, db') → db_ledger db' ≠ db_ledger db →
  let prior := if revised (a_id a) (a_fencingToken a) (db_ledger db) then held cur a db else 0 in
  ∃ r, db_ledger db' = db_ledger db ++ [r] ∧
    held cur a db' =
     (if te_notSent t then 0
      else match r_costKnown r, r_kind r with
           | true, SNAPSHOT => default 0 (r_settledCost r)
           | true, DELTA => prior + default 0 (r_settledCost r)
           | false, SNAPSHOT => l
           | false, DELTA => Z.max prior l
           end)
    ∧ (r_costKnown r = true → ∃ u, te_usage t = Some u
         ∧ (us_reportedCost u = r_settledCost r ∨ us_calculatedCost u = r_settledCost r)
         ∧ or_else (te_observationComplete t) (us_observationComplete u) = Some true).
Proof.
  intros Hw Ht Ha Hl Hcur Hrec Hled prior.
  destruct (reconcile_cases toUpperCase digest createdAt t db) as [Hsame|(a' & ck & Hck & Ha' & Hc & Htok & Hacc & Hcase)];
    [by rewrite Hrec in Hsame; cbn in Hsame; subst|].
  rewrite Ha in Ha'. injection Ha' as <-. have [Hin Hid] := find_attempt_Some _ _ _ Ha.
  destruct Hcase as [[_ Heq]|(c & Hseq & Hcost & Heq)]; rewrite Hrec in Heq; injection Heq as ->;
    [by rewrite finalize_ledger in Hled|].
  set r := new_revision a t ck c createdAt. exists r. rewrite finalize_ledger. split; [done|].
  have Hi : increasing (revisions (a_id a) (a_fencingToken a) (db_ledger db) ++ [r]).
  { rewrite Hid Htok. by apply increasing_snoc; [apply Hw|]. }
  have Hprior : default 0 (revisionTotal (revisions (te_attemptId t) (te_fencingToken t) (db_ledger db))) = prior.
  { rewrite (revisionTotal_counted cur); [apply Hw| |rewrite /prior /held -Hid -Htok].
    - intros x Hx Hs. rewrite -Hid -Htok in Hx. apply wf_own in Hx as [_ Hx]; [|done..].
      destruct (ro_priced _ _ Hx) as [_ ->]; [by rewrite Hl|done].
    - destruct (revised _ _ _) eqn:E; [done|]. by apply revised_cons_revisions in E as ->. }
  rewrite held_finalize (held_append cur db a r) //. fold prior. rewrite /cost_in /=.
  have [_ Hcc] := revision_cost_cases _ _ _ _ _ _ Hcost. rewrite Hprior in Hcc.
  destruct Hcc as [(Hn & Hy & Hcur' & Hk)|[(Hn & Hk & Hcomp & Hcur' & u & y & Hu & Hy & Hpos & Hsup)|
    [(Hn & Hk & Hcur' & l' & Hl' & Hy)|(_ & _ & Hnone & _)]]]; [| | |congruence].
  all: rewrite Hn ?Hk Hy Hcur' Hcur bool_decide_eq_true_2 //=.
  - destruct (proj2 (check_terminal_Returns _ _ _ _ Hck) Hn) as [-> _]. done.
  - split; [done|]. intros _. exists u. split; [done|]. split; [done|].
    have [Hcomplete _] := check_terminal_Returns _ _ _ _ Hck. rewrite Hcomp Hu in Hcomplete. done.
  - have {}Hl' : l' = l by congruence. subst l'. split; [|done]. destruct (te_revisionKind t); [done|lia].
Qed.

(** ** Redelivery *)

Lemma find_attempt_map (g : Anchor → Anchor) id db :
  (∀ a, a_id (g a) = a_id a) →
  find_attempt id (with_attempts (map g (db_attempts db)) db) = g <$> find_attempt id db.
Proof.
  intros Hg. rewrite /find_attempt /=. induction (db_attempts db) as [|a l IH]; [done|]. cbn. rewrite Hg.
  by case_bool_decide.
Qed.

(** The row of an attempt after [finalize]. *)
Lemma find_finalize id t a db :
  find_attempt id db = Some a →
  ∃ s, find_attempt id (finalize t a db) = Some (restated s (a_expiresAt a) a) ∧ s ≠ ACTIVE.
Proof.
  intros Ha. rewrite /finalize. case_bool_decide as Hs.
  - exists (terminalState (te_reason t)). split; [|by destruct (te_reason t)]. rewrite find_attempt_map.
    + intros b. by rewrite end_attempt_restated.
    + rewrite Ha /=. rewrite end_attempt_restated /ends Hs. by rewrite !bool_decide_eq_true_2 // Z.eqb_refl.
  - exists (a_state a). by rewrite restated_id Ha.
Qed.

Lemma finalize_idle t a db : a_state a ≠ ACTIVE → finalize t a db = db.
Proof. intros. rewrite /finalize. by case_bool_decide. Qed.

(** The crash sweep stands back: the attempt is not expired, or was renewed since. *)
Definition stands_back (t : Terminal) (a : Anchor) (now : Z) : bool :=
  bool_decide (te_reason t = CRASH_RECOVERY)
  && ((now <? a_expiresAt a) || match te_crashExpiredAt t with Some at_ => at_ <? a_expiresAt a | None => false end).

Lemma finalize_now t a db : db_now (finalize t a db) = db_now db.
Proof. rewrite /finalize. by case_bool_decide. Qed.

(** Once the revision is in the ledger and the attempt ended, a delivery changes nothing. *)
Lemma redelivered createdAt t ck a db d :
  check_terminal toUpperCase digest t = Returns ck → find_attempt (te_attemptId t) db = Some a →
  a_cloud a && (a_fencingToken a =? te_fencingToken t) = true → stands_back t a (db_now db) = false →
  same_identity t a = true →
  List.find (λ r, r_sequence r =? te_revisionSequence t)
    (revisions (te_attemptId t) (te_fencingToken t) (db_ledger db)) = Some d →
  r_payloadHash d = ck_payloadHash ck → r_kind d = te_revisionKind t →
  reconcileProviderBudget toUpperCase digest createdAt t (finalize t a db) = (Returns tt, finalize t a db).
Proof.
  intros Hck Ha Hc Hsb Hsame Hd Hhash Hkind. destruct (find_finalize _ t _ _ Ha) as (s & Hf & Hs).
  rewrite /reconcileProviderBudget Hck Hf /= Hc finalize_now finalize_ledger -/(stands_back t a (db_now db)) Hsb Hd /=.
  rewrite /same_identity /= in Hsame |- *. rewrite Hsame /str_eqb Hhash Hkind !bool_decide_eq_true_2 //=.
  by rewrite finalize_idle.
Qed.

(** A delivery is idempotent: once a terminal was accepted, delivering the same terminal
    again, whenever its transaction starts, is accepted and changes nothing. *)
Theorem delivery_idempotent createdAt createdAt' t db db' :
  reconcileProviderBudget toUpperCase digest createdAt t db = (Returns tt, db') →
  reconcileProviderBudget toUpperCase digest createdAt' t db' = (Returns tt, db').
Proof.
  intros H. have H0 := H. rewrite {1}/reconcileProviderBudget in H.
  destruct (check_terminal _ _ t) as [ck|] eqn:Hck; [|done].
  destruct (find_attempt _ db) as [a|] eqn:Ha; [|done]. destruct (a_cloud a && _) eqn:Hc; [|done]. cbn [negb] in H.
  rewrite -/(stands_back t a (db_now db)) in H. destruct (stands_back t a (db_now db)) eqn:Hsb.
  { injection H as <-. by rewrite /reconcileProviderBudget Hck Ha Hc /= -/(stands_back t a (db_now db)) Hsb. }
  destruct (same_identity t a) eqn:Hsame; [|done]. cbn [negb] in H.
  destruct (List.find _ _) as [d|] eqn:Hd.
  - destruct (str_eqb _ _) eqn:Hh; [|done]. destruct (bool_decide (r_kind d = _)) eqn:Hk; [|done].
    injection H as <-. move: Hh. rewrite /str_eqb => Hh. bool_to_prop. by eapply redelivered.
  - destruct (bool_decide (te_reason t = _) && (0 <? _)%nat) eqn:Hcr.
    { injection H as <-. by rewrite /reconcileProviderBudget Hck Ha Hc /= -/(stands_back t a (db_now db)) Hsb Hsame /= Hd Hcr. }
    destruct (existsb _ _); [done|]. destruct (revision_cost _ _ _ _ _) as [c|]; [|done]. injection H as <-.
    apply (redelivered _ _ ck _ _ (new_revision a t ck c createdAt)); try done. cbn.
    rewrite revisions_app revisions_one (proj2 (of_attempt_iff _ _ _)) // find_head_filter List.filter_app.
    rewrite find_head_filter in Hd. destruct (List.filter _ (revisions _ _ _)); [|done]. cbn. by rewrite Z.eqb_refl.
Qed.

(** A revision is never rewritten: a terminal for a sequence number already in the ledger,
    under another payload or another kind, is refused and changes nothing; so is one older than a
    recorded revision. *)
Theorem revision_conflict_refused createdAt t ck a db r :
  check_terminal toUpperCase digest t = Returns ck → find_attempt (te_attemptId t) db = Some a →
  a_cloud a = true → a_fencingToken a = te_fencingToken t → te_reason t ≠ CRASH_RECOVERY → same_identity t a = true →
  wf db → In r (revisions (te_attemptId t) (te_fencingToken t) (db_ledger db)) →
  (r_sequence r = te_revisionSequence t → (r_payloadHash r, r_kind r) ≠ (ck_payloadHash ck, te_revisionKind t) →
   reconcileProviderBudget toUpperCase digest createdAt t db = (Throws Revision_conflict, db)) ∧
  (te_revisionSequence t < r_sequence r →
   List.find (λ x, r_sequence x =? te_revisionSequence t) (revisions (te_attemptId t) (te_fencingToken t) (db_ledger db)) = None →
   reconcileProviderBudget toUpperCase digest createdAt t db = (Throws Stale_revision, db)).
Proof.
  intros Hck Ha Hc Htok Hcr Hsame Hw Hr. rewrite /reconcileProviderBudget Hck Ha Hc Htok Z.eqb_refl Hsame /=.
  rewrite (bool_decide_eq_false_2 (te_reason t = _)) //=. split.
  - intros Hseq Hne. destruct (List.find _ _) as [d|] eqn:Hd.
    + apply List.find_some in Hd as [Hd Hds]. bool_to_prop.
      have -> : d = r by apply (increasing_inj _ _ _ (wf_order _ Hw (te_attemptId t) (te_fencingToken t))); [done..|congruence].
      rewrite /str_eqb. case_bool_decide; [|done]. case_bool_decide; [|done]. congruence.
    + have := List.find_none _ _ Hd r Hr. cbn. rewrite Hseq Z.eqb_refl. done.
  - intros Hlt ->. have -> : existsb (λ x, te_revisionSequence t <? r_sequence x)
      (revisions (te_attemptId t) (te_fencingToken t) (db_ledger db)) = true; [|done].
    apply existsb_exists. exists r. split; [done|]. by apply Z.ltb_lt.
Qed.
End Caps.
