(* ===== verification/SpendRepair.v ===== *)
(** * SpendRepair: the crash sweep ends every expired attempt

    [repairExpiredProviderBudgets] pages through the expired ACTIVE attempts. The sweep always
    returns, and when fewer than [REPAIR_MAX_PER_RUN] attempts are expired it ends them all, each
    settled at what it held. The file ends with one month of a capped account, which
    instantiates the theorems of the spend files. *)
From Stdlib Require Import ssreflect.
From S2P Require Import Prelude JsString SpendModel SpendSettle SpendLedger SpendInvariant SpendSafety.

Section Repair.
Context (toUpperCase : jstr → jstr) (digest : Payload → jstr).
Notation repair := (repairExpiredAttempt toUpperCase digest).

(** ** One attempt *)

Lemma latest_reason_None id token db :
  latest_reason id token db = None → revisions id token (db_ledger db) = [].
Proof.
  rewrite /latest_reason. destruct (sort_by _ _) as [|r l] eqn:E; [|done]. intros _.
  have Hp := sort_by_perm (λ l r, r_sequence r - r_sequence l) (revisions id token (db_ledger db)).
  rewrite E in Hp. by apply Permutation_nil in Hp.
Qed.

Lemma latest_reason_Some id token db reason :
  latest_reason id token db = Some reason → revised id token (db_ledger db) = true.
Proof.
  rewrite revised_revisions. case_bool_decide as Hr; [|done]. by rewrite /latest_reason Hr.
Qed.

Definition crash_hash (row : Anchor) (now : Z) : jstr :=
  digest {| pl_identity := (a_userId row, a_accountId row, a_modelId row, a_credentialId row, a_poolId row,
                            a_requestId row, a_id row, a_fencingToken row);
            pl_reason := CRASH_RECOVERY; pl_notSent := false; pl_sourceVersion := js "crash-recovery-v1";
            pl_revisionSequence := 0; pl_revisionKind := SNAPSHOT; pl_observationComplete := None;
            pl_usageSource := js "crash-repair"; pl_usage := None |}.

Lemma check_crash row now :
  0 < a_fencingToken row ≤ MAX_SIGNED_BIGINT →
  check_terminal toUpperCase digest (crash_terminal row now) =
  Returns {| ck_complete := None; ck_payloadHash := crash_hash row now |}.
Proof.
  intros [H1 H2]. rewrite /check_terminal [te_fencingToken _]/=.
  by rewrite (proj2 (Z.ltb_lt _ _) H1) (proj2 (Z.leb_le _ _) H2).
Qed.

(** The crash settlement is a snapshot of the liability. *)
Lemma crash_cost row now :
  ∃ c, revision_cost toUpperCase row (crash_terminal row now) None [] = Returns c
    ∧ co_revisionCost c = a_liabilitySpend row ∧ co_currency c = a_liabilityCurrency row.
Proof. rewrite /revision_cost /cost_matches /=. destruct (a_liabilitySpend row); eexists; split; [done..|]; done. Qed.

(** What the repair of one expired attempt does to the tables. *)
Record repaired (a : Anchor) (db db' : Db) : Prop := {
  rp_wf : wf db';
  rp_now : db_now db' = db_now db;
  rp_attempts : ∃ s, s ≠ ACTIVE ∧ db_attempts db' = map (end_attempt (a_id a) (a_fencingToken a) s) (db_attempts db);
  rp_held : ∀ b l cur, In b (db_attempts db) → a_liabilitySpend b = Some l → a_liabilityCurrency b = Some cur →
    held cur b db' = held cur b db;
}.

Lemma repair_one db a now :
  wf db → In a (db_attempts db) → a_cloud a = true → a_state a = ACTIVE → a_expiresAt a ≤ now → now ≤ db_now db →
  ∃ db', repair a now db = (Returns tt, db') ∧ repaired a db db'.
Proof.
  intros Hw Ha Hc Hst Hexp Hnow. have Hok := wf_anchor _ Hw a Ha Hc. have [Hacc Hmod] := ao_ids _ Hok.
  rewrite /repairExpiredAttempt !bool_decide_eq_false_2 //=.
  destruct (latest_reason _ _ _) as [reason|] eqn:Hl; cbn.
  - eexists. split; [done|]. apply latest_reason_Some in Hl. split; [by apply wf_end|done| |done].
    exists (terminalState reason). split; [by destruct reason|done].
  - apply latest_reason_None in Hl. destruct (crash_cost a now) as (c & Hcost & Hcv & Hcc).
    set t := crash_terminal a now. set r := new_revision a t {| ck_complete := None; ck_payloadHash := crash_hash a now |} c (db_now db).
    have Hrun : reconcileProviderBudget toUpperCase digest (db_now db) t db = (Returns tt, finalize t a (append_revision t r c db)).
    { rewrite /reconcileProviderBudget check_crash; [apply Hok|]. rewrite [te_attemptId _]/= wf_find // Hc [te_fencingToken _]/= Z.eqb_refl.
      cbn [andb negb te_crashExpiredAt te_reason t crash_terminal]. rewrite (proj2 (Z.ltb_ge _ _)); [lia|].
      rewrite (proj2 (Z.ltb_ge _ _)); [lia|]. cbn [orb andb]. rewrite andb_false_r.
      rewrite /same_identity /= bool_decide_eq_true_2 //= Hl /=. by rewrite Hcost. }
    exists (finalize t a (append_revision t r c db)). split; [done|]. split.
    + have := wf_reconcile toUpperCase digest (db_now db) t db Hw ltac:(lia). by rewrite Hrun.
    + by rewrite finalize_now.
    + exists EXPIRED. split; [done|]. rewrite /finalize Hst bool_decide_eq_true_2 //.
    + intros b l cur Hb Hbl Hbc. rewrite held_finalize.
      destruct (decide (a_id b = a_id a)) as [Heq|Hne]; [have Hba := wf_same_attempt db b a Hw Hb Ha Heq; subst b|].
      * rewrite (held_append cur db a r) //; [rewrite Hl; apply (increasing_snoc []); [constructor|done]|]. cbn.
        rewrite /cost_in /= Hcv Hbl Hcc Hbc bool_decide_eq_true_2 //=.
        rewrite /held (proj2 (revised_cons_revisions _ _ _) Hl) Hbc bool_decide_eq_true_2 // Hbl. done.
      * rewrite /held /= revised_app revisions_app revisions_one.
        have -> : of_attempt (a_id b) (a_fencingToken b) r = false; [|by rewrite orb_false_r app_nil_r].
        apply not_true_is_false. intros [Hid _]%of_attempt_iff. by apply Hne.
Qed.

(** ** A page *)

(** The tables after the attempts [ids] were repaired: those ended, the others as they were. *)
Record swept (ids : list string) (db db' : Db) : Prop := {
  sw_wf : wf db';
  sw_now : db_now db' = db_now db;
  sw_attempts : ∃ st, db_attempts db' = map (λ a, restated (st a) (a_expiresAt a) a) (db_attempts db)
    ∧ ∀ a, In a (db_attempts db) → if bool_decide (a_id a ∈ ids) then st a ≠ ACTIVE else st a = a_state a;
  sw_held : ∀ b l cur, In b (db_attempts db) → a_liabilitySpend b = Some l → a_liabilityCurrency b = Some cur →
    held cur b db' = held cur b db;
}.

Lemma swept_nil db : wf db → swept [] db db.
Proof.
  intros Hw. split; [done..| |done]. exists a_state. split; [|done].
  rewrite -{1}(map_id (db_attempts db)). apply map_ext => a. by rewrite restated_id.
Qed.

Lemma swept_one a db db' :
  wf db → In a (db_attempts db) → a_state a = ACTIVE → repaired a db db' → swept [a_id a] db db'.
Proof.
  intros Hw Ha Hst [Hw' Hnow (s & Hs & Hatt) Hheld]. split; try done.
  exists (λ b, if ends (a_id a) (a_fencingToken a) b then s else a_state b). split.
  - rewrite Hatt. apply map_ext => b. apply end_attempt_restated.
  - intros b Hb. case_bool_decide as Hin.
    + apply list_elem_of_singleton in Hin. have -> : b = a by apply (wf_same_attempt db).
      rewrite /ends Hst Z.eqb_refl !bool_decide_eq_true_2 //.
    + rewrite /ends bool_decide_eq_false_2 //. intros Heq. apply Hin. by apply list_elem_of_singleton.
Qed.

Lemma swept_trans ids ids' db db1 db2 :
  swept ids db db1 → swept ids' db1 db2 → swept (ids ++ ids') db db2.
Proof.
  intros [Hw1 Hn1 (s1 & Ha1 & Hs1) Hh1] [Hw2 Hn2 (s2 & Ha2 & Hs2) Hh2]. split; [done|congruence| |].
  - exists (λ a, s2 (restated (s1 a) (a_expiresAt a) a)). split; [by rewrite Ha2 Ha1 map_map|]. intros a Ha.
    have H2 := Hs2 (restated (s1 a) (a_expiresAt a) a) ltac:(rewrite Ha1; apply in_map_iff; eauto). cbn in H2.
    have H1 := Hs1 a Ha. rewrite (bool_decide_ext _ (a_id a ∈ ids ∨ a_id a ∈ ids')); [apply elem_of_app|].
    case_bool_decide as E2; case_bool_decide as E1; case_bool_decide as E; try congruence; naive_solver.
  - intros b l cur Hb Hl Hc. rewrite -(Hh1 b l cur) //.
    apply (Hh2 (restated (s1 b) (a_expiresAt b) b) l cur); [rewrite Ha1; apply in_map_iff; eauto|done..].
Qed.

(** An attempt outside the swept ones is still there. *)
Lemma swept_In ids db db' a :
  swept ids db db' → In a (db_attempts db) → a_id a ∉ ids → In a (db_attempts db').
Proof.
  intros [_ _ (st & Hatt & Hst) _] Ha Hid. rewrite Hatt. apply in_map_iff. exists a. split; [|done].
  have := Hst a Ha. rewrite bool_decide_eq_false_2 // => ->. apply restated_id.
Qed.

Definition expired (now : Z) (scope : option (string * string)) (a : Anchor) : bool :=
  a_cloud a && bool_decide (a_state a = ACTIVE) && (a_expiresAt a <=? now)
  && match scope with None => true | Some (u, account) => bool_decide (a_userId a = u ∧ a_accountId a = account) end.

Lemma repair_page now page n db :
  wf db → now ≤ db_now db → NoDup (map a_id page) →
  (∀ a, In a page → In a (db_attempts db) ∧ a_cloud a = true ∧ a_state a = ACTIVE ∧ a_expiresAt a ≤ now) →
  ∃ db', fold_left (repair_row toUpperCase digest now) page (n, db) = ((n + length page)%nat, db')
    ∧ swept (map a_id page) db db'.
Proof.
  revert n db. induction page as [|a page IH]; intros n db Hw Hnow Hnd Hpage.
  - exists db. cbn. rewrite Nat.add_0_r. split; [done|by apply swept_nil].
  - cbn in Hnd. apply NoDup_cons in Hnd as [Ha Hnd]. destruct (Hpage a) as (Hin & Hc & Hst & Hexp); [by left|].
    destruct (repair_one db a now) as (db1 & Hrun & Hrep); try done.
    have Hsw := swept_one _ _ _ Hw Hin Hst Hrep. destruct (IH (S n) db1) as (db' & Hfold & Hsw').
    + apply Hsw.
    + by rewrite (sw_now _ _ _ Hsw).
    + done.
    + intros b Hb. destruct (Hpage b) as (Hbin & ?); [by right|]. split; [|done]. apply (swept_In _ _ _ _ Hsw Hbin).
      intros Heq%list_elem_of_singleton. apply Ha. rewrite -Heq. by apply list_elem_of_In, in_map.
    + exists db'. cbn [fold_left]. rewrite {2}/repair_row /= Hrun Hfold /=. split; [f_equal; lia|].
      by apply (swept_trans [a_id a] (map a_id page) db db1).
Qed.

(** ** The sweep *)

Definition pending (now : Z) (scope : option (string * string)) (seen : list string) (db : Db) : list Anchor :=
  List.filter (λ a, expired now scope a && negb (bool_decide (a_id a ∈ seen))) (db_attempts db).

Lemma expired_page_pending now scope seen db :
  expired_page now scope seen db = take REPAIR_BATCH (sort_by (λ a b, a_expiresAt a - a_expiresAt b) (pending now scope seen db)).
Proof.
  rewrite /expired_page /pending. do 2 f_equal. apply filter_ext => a. rewrite /expired.
  by rewrite -!andb_assoc (andb_comm (negb _)).
Qed.

Lemma In_pending now scope seen db a :
  In a (pending now scope seen db) ↔ In a (db_attempts db) ∧ expired now scope a = true ∧ a_id a ∉ seen.
Proof. rewrite /pending filter_In andb_true_iff negb_true_iff bool_decide_eq_false. done. Qed.

Lemma page_In now scope seen db a :
  In a (expired_page now scope seen db) → In a (pending now scope seen db).
Proof.
  rewrite expired_page_pending. intros (j & Hj & _)%list_elem_of_In%elem_of_take.
  apply (sort_by_in (λ a b, a_expiresAt a - a_expiresAt b)), list_elem_of_In. by eapply list_elem_of_lookup_2.
Qed.

Lemma page_all now scope seen db a :
  (length (expired_page now scope seen db) < REPAIR_BATCH)%nat → In a (pending now scope seen db) →
  In a (expired_page now scope seen db).
Proof.
  rewrite expired_page_pending length_take => Hlen Ha. rewrite take_ge; [lia|]. by apply sort_by_in.
Qed.

Lemma page_NoDup now scope seen db : wf db → NoDup (map a_id (expired_page now scope seen db)).
Proof.
  intros Hw. rewrite expired_page_pending.
  set l := sort_by _ _. apply (NoDup_app (map a_id (take REPAIR_BATCH l)) (map a_id (drop REPAIR_BATCH l))).
  rewrite -map_app take_drop. have -> : map a_id l ≡ₚ map a_id (pending now scope seen db)
    by apply Permutation_map, sort_by_perm. apply NoDup_map_filter, Hw.
Qed.

Lemma expired_facts now scope a :
  expired now scope a = true → a_cloud a = true ∧ a_state a = ACTIVE ∧ a_expiresAt a ≤ now.
Proof. rewrite /expired. intros H. split_ands. by bool_to_prop. Qed.

(** A row expired after a sweep was expired before it, and not swept. *)
Lemma swept_expired now scope seen db0 db a :
  swept seen db0 db → In a (db_attempts db) → expired now scope a = true →
  In a (db_attempts db0) ∧ a_id a ∉ seen.
Proof.
  intros [_ _ (st & Hatt & Hst) _] Ha Hexp. rewrite Hatt in Ha. apply in_map_iff in Ha as (b & Hb & Hin).
  have H := Hst b Hin. destruct (expired_facts _ _ _ Hexp) as (_ & Hact & _). rewrite -Hb /= in Hact.
  destruct (bool_decide _) eqn:E; [done|]. apply bool_decide_eq_false in E. rewrite H restated_id in Hb. subst b. done.
Qed.

(** An attempt listed as due is expired: ids are unique. *)
Lemma due_expired now scope db a :
  wf db → In a (db_attempts db) → a_id a ∈ map a_id (List.filter (expired now scope) (db_attempts db)) →
  expired now scope a = true.
Proof.
  intros Hw Ha (b & Hid & [Hb Hexp]%filter_In)%list_elem_of_In%in_map_iff.
  by rewrite (wf_same_attempt db a b).
Qed.

Section Loop.
Context (now : Z) (scope : option (string * string)) (db0 : Db) (Hw0 : wf db0) (Hnow : now ≤ db_now db0).
Let due := map a_id (List.filter (expired now scope) (db_attempts db0)).

(** What holds at the head of the loop. *)
Record at_head (seen : list string) (n : nat) (db : Db) : Prop := {
  ah_swept : swept seen db0 db;
  ah_NoDup : NoDup seen;
  ah_due : ∀ id, id ∈ seen → id ∈ due;
  ah_count : n = length seen;
}.

Lemma page_step seen n db :
  at_head seen n db → let page := expired_page now scope seen db in
  ∃ db', fold_left (repair_row toUpperCase digest now) page (n, db) = ((n + length page)%nat, db')
    ∧ at_head (seen ++ map a_id page) (n + length page) db'
    ∧ ((length page < REPAIR_BATCH)%nat → ∀ a, In a (db_attempts db') → expired now scope a = false).
Proof using Hw0 Hnow.
  intros [Hsw Hnd Hdue Hn] page.
  have Hpage : ∀ a, In a page → In a (db_attempts db) ∧ expired now scope a = true ∧ a_id a ∉ seen
    by intros a Ha%page_In%In_pending.
  destruct (repair_page now page n db) as (db' & Hfold & Hsw').
  { apply Hsw. } { by rewrite (sw_now _ _ _ Hsw). } { apply page_NoDup, Hsw. }
  { intros a Ha. destruct (Hpage a Ha) as (? & ?%expired_facts & _). done. }
  have Hall := swept_trans _ _ _ _ _ Hsw Hsw'. exists db'. split; [done|]. split.
  - split; [done| | |rewrite length_app length_map; lia].
    + apply NoDup_app. split_and!; [done| |apply page_NoDup, Hsw].
      intros id Hid (a & <- & Ha)%list_elem_of_In%in_map_iff. by apply (Hpage a).
    + intros id [Hid|(a & <- & Ha)%list_elem_of_In%in_map_iff]%elem_of_app; [by apply Hdue|].
      destruct (Hpage a Ha) as (Hin & Hexp & _). destruct (swept_expired _ _ _ _ _ _ Hsw Hin Hexp) as [Hin0 _].
      apply list_elem_of_In, in_map, filter_In. done.
  - intros Hshort a Ha. apply not_true_is_false => Hexp.
    destruct (swept_expired _ _ _ _ _ _ Hall Ha Hexp) as [Hin0 Hun]. apply Hun, elem_of_app. right.
    apply list_elem_of_In, in_map, page_all; [done|]. apply In_pending.
    have Hns : a_id a ∉ seen by (intros ?; apply Hun, elem_of_app; by left). split; [|done]. by apply (swept_In seen db0).
Qed.

Lemma pages_return fuel k seen n db :
  at_head seen n db → length seen = (k * REPAIR_BATCH)%nat → (k < 10)%nat → (k + fuel = 11)%nat →
  ∃ n' seen' db', repair_pages toUpperCase digest fuel now scope seen n db = Some (n', db') ∧ at_head seen' n' db'
    ∧ ((length seen' < REPAIR_MAX_PER_RUN)%nat → ∀ a, In a (db_attempts db') → expired now scope a = false).
Proof using Hw0 Hnow.
  have HM : REPAIR_MAX_PER_RUN = (10 * REPAIR_BATCH)%nat by vm_compute.
  revert k seen n db. induction fuel as [|fuel IH]; intros k seen n db Hhead Hlen Hk Hfuel; [lia|].
  destruct (page_step seen n db Hhead) as (db' & Hfold & Hhead' & Hshort). cbn [repair_pages]. rewrite Hfold.
  set page := expired_page now scope seen db in Hfold Hhead' Hshort |- *.
  have Hpl : (length page ≤ REPAIR_BATCH)%nat by rewrite /page expired_page_pending length_take; lia.
  have -> : a_id <$> page = map a_id page by done.
  destruct (Nat.ltb_spec (length page) REPAIR_BATCH) as [Hs|Hf]; cbn [orb].
  { eexists _, _, _. split; [done|]. split; [done|]. intros _. by apply Hshort. }
  destruct (Nat.leb_spec REPAIR_MAX_PER_RUN (length (seen ++ map a_id page))) as [Hm|Hm].
  { eexists _, _, _. split; [done|]. split; [done|]. lia. }
  apply (IH (S k)); [done| | |lia]; rewrite length_app length_map Hlen in Hm |- *; nia.
Qed.
End Loop.

(** C31. The crash sweep does its work. From every reachable state, with the sweep's clock not
    ahead of the database's (an attempt expired only by the sweep's clock is refused by the
    settlement and stays ACTIVE), [repairExpiredProviderBudgets] returns; the only column of an
    attempt it writes is the state, and only of expired attempts; no priced attempt then holds more
    or less than before (nothing is refunded); and when fewer than 5000 attempts are expired it
    repairs every one of them: the count it returns is theirs, and each has left ACTIVE. *)
Theorem repair_sweep_settles init db now scope :
  empty_tables init → reachable toUpperCase digest init db → now ≤ db_now db →
  let due := List.filter (expired now scope) (db_attempts db) in
  ∃ n db' st, repairExpiredProviderBudgets toUpperCase digest now scope db = Some (n, db')
    ∧ db_attempts db' = map (λ a, restated (st a) (a_expiresAt a) a) (db_attempts db)
    ∧ (∀ a, In a (db_attempts db) → expired now scope a = false → st a = a_state a)
    ∧ (∀ a l cur, In a (db_attempts db) → a_liabilitySpend a = Some l → a_liabilityCurrency a = Some cur →
         held cur a db' = held cur a db)
    ∧ ((length due < REPAIR_MAX_PER_RUN)%nat →
         n = length due ∧ (∀ a, In a due → st a ≠ ACTIVE) ∧
         ∀ a, In a (db_attempts db') → expired now scope a = false).
Proof.
  intros Hinit Hreach Hnow due. have Hw := wf_reachable _ _ _ _ (empty_wf _ Hinit) Hreach.
  have Hstart : at_head now scope db [] 0 db by split; [by apply swept_nil|constructor|by intros ? ?%elem_of_nil|done].
  destruct (pages_return now scope db Hw Hnow 11 0 [] 0 db Hstart) as (n & seen & db' & Hrun & Hhead & Hdone); [done|lia|lia|].
  destruct Hhead as [Hsw Hnd Hdue ->]. destruct (sw_attempts _ _ _ Hsw) as (st & Hatt & Hst).
  exists (length seen), db', st. split; [done|]. split; [done|]. split.
  { intros a Ha Hexp. have := Hst a Ha. rewrite bool_decide_eq_false_2 //. by intros Hin%Hdue%(due_expired _ _ _ _ Hw Ha); rewrite Hexp in Hin. }
  split; [apply Hsw|]. intros Hlt.
  have Hle : (length seen ≤ length due)%nat.
  { rewrite -(length_map a_id due). by apply submseteq_length, NoDup_submseteq. }
  have {}Hdone := Hdone ltac:(lia).
  have Hall : ∀ a, In a due → a_id a ∈ seen.
  { intros a [Ha Hexp]%filter_In. destruct (decide (a_id a ∈ seen)) as [|Hns]; [done|].
    have := Hdone a (swept_In _ _ _ _ Hsw Ha Hns). by rewrite Hexp. }
  split_and!; [..|done].
  - apply Nat.le_antisymm; [done|]. rewrite -(length_map a_id due). apply submseteq_length, NoDup_submseteq.
    + apply NoDup_map_filter, Hw.
    + intros id (a & <- & Ha)%list_elem_of_In%in_map_iff. by apply Hall.
  - intros a Ha. have Hin := Hall a Ha. apply filter_In in Ha as [Ha _]. have := Hst a Ha. by rewrite bool_decide_eq_true_2.
Qed.
End Repair.

(** * One month of one capped account: a USD 100 cap, two attempts and their settlements *)

Definition ascii_upper (s : jstr) : jstr := (λ c, if in_range 97 122 c then c - 32 else c) <$> s.
Definition toy_digest (p : Payload) : jstr :=
  [pl_revisionSequence p; if pl_notSent p then 1 else 0; match pl_usage p with Some u => default 0 (up_reportedCost u) | None => -1 end].

Definition the_cap : CapRow :=
  {| cap_id := "cap"; cap_userId := "u"; cap_scope := PROVIDER_ACCOUNT; cap_subject := "acct";
     cap_monthlyLimit := 100; cap_currency := js "USD"; cap_version := 1 |}.

(** 2023-11-14; the month ends on 2023-12-01. *)
Definition start_time : Z := 1700000000000.

Definition empty_db : Db :=
  mkDb start_time [the_cap] [{| m_id := "m"; m_userId := "u"; m_accountId := "acct"; m_enabled := true |}]
    [{| g_userId := "u"; g_accountId := "acct"; g_modelId := "m"; g_version := js "v1"; g_currency := js "USD";
        g_inEffect := true; g_effectiveAt := 0; g_retiredAt := None |}] [] [] [] [].

Definition an_attempt (id : string) (token spend : Z) : BudgetAttempt :=
  {| at_userId := "u"; at_accountId := "acct"; at_modelId := "m"; at_credentialId := None; at_poolId := None;
     at_shareId := None; at_requestId := "req"; at_attemptId := id; at_fencingToken := token;
     at_liability := {| li_tokens := None; li_spend := Some spend; li_currency := Some (js " usd ");
                        li_pricingVersion := Some (js "v1"); li_accountingVersion := js "a1" |};
     at_expiresAt := start_time + 60000 |}.

Definition a_usage (cost : Z) : RawProviderUsage :=
  {| us_inputTokens := Some 10; us_outputTokens := Some 5; us_cacheReadTokens := None; us_cacheWriteTokens := None;
     us_reasoningTokens := None; us_toolTokens := None; us_additionalBillableTokens := None;
     us_authoritativeBillableTokens := None; us_reportedTotalTokens := None; us_categoriesComplete := Some true;
     us_rawUsage := None; us_observationComplete := Some true; us_reportedCost := Some cost;
     us_reportedCostCurrency := None; us_reportedCostPricingVersion := None; us_reportedCostSource := None;
     us_calculatedCost := None; us_calculatedCostCurrency := None; us_calculatedCostPricingVersion := None;
     us_calculatedCostSource := None; us_calculatedCostConfidence := None; us_currency := Some (js "USD");
     us_pricingVersion := Some (js "v1"); us_accountingVersion := js "a1"; us_confidence := REPORTED |}.

Definition a_terminal (id : string) (token sequence : Z) (usage : option RawProviderUsage) : Terminal :=
  {| te_userId := "u"; te_accountId := "acct"; te_modelId := "m"; te_credentialId := None; te_poolId := None;
     te_requestId := "req"; te_attemptId := id; te_fencingToken := token; te_reason := RCOMPLETED; te_notSent := false;
     te_sourceVersion := None; te_revisionSequence := sequence; te_revisionKind := SNAPSHOT; te_usageSource := None;
     te_observationComplete := None; te_usage := usage; te_crashExpiredAt := None |}.

Notation toy_admit := (admitProviderBudget ascii_upper).
Notation toy_reconcile := (reconcileProviderBudget ascii_upper toy_digest).

(** An attempt at 60, settled at its reported cost 40. *)
Definition db_admitted : Db := (toy_admit (an_attempt "a" 1 60) ["v1"]%string empty_db).2.
Definition first_terminal : Terminal := a_terminal "a" 1 1 (Some (a_usage 40)).
Definition db_settled : Db := (toy_reconcile start_time first_terminal db_admitted).2.

Example second_attempt_refused :
  (toy_admit (an_attempt "b" 2 61) ["v2"]%string db_settled).1 = Returns (Denied BUDGET_EXCEEDED "cap").
Proof. by vm_compute. Qed.

Example second_attempt_fits :
  (toy_admit (an_attempt "b" 2 60) ["v2"]%string db_settled).1 = Returns (Admitted_ "b" ["v2"]%string).
Proof. by vm_compute. Qed.

Lemma empty_db_empty : empty_tables empty_db.
Proof. split_and!; try done. intros m [<-|[]]. done. Qed.

Lemma fresh_empty ids db : NoDup ids → db_reservations db = [] → fresh_ids ids db.
Proof. intros Hnd Hv. split; [done|]. intros id _. rewrite Hv. apply not_elem_of_nil. Qed.

Lemma admitted_step : step ascii_upper toy_digest empty_db db_admitted.
Proof. apply step_admit, fresh_empty; [apply NoDup_singleton|done]. Qed.

Lemma settled_step : step ascii_upper toy_digest db_admitted db_settled.
Proof. by apply step_reconcile; vm_compute. Qed.

Lemma reach_admitted : reachable ascii_upper toy_digest empty_db db_admitted.
Proof. eapply reach_step; [apply reach_start|apply admitted_step]. Qed.

Lemma reach_settled : reachable ascii_upper toy_digest empty_db db_settled.
Proof. eapply reach_step; [apply reach_admitted|apply settled_step]. Qed.

Lemma spend_cap_holds_witness : exposure the_cap db_settled ≤ 100 + 0.
Proof.
  have -> : 100 = Z.max (exposure the_cap empty_db) (cap_monthlyLimit the_cap) by vm_compute.
  apply (spend_cap_holds ascii_upper toy_digest the_cap empty_db empty_db 0 db_settled).
  - apply empty_db_empty.
  - apply reach_start.
  - done.
  - have -> : 0 = 0 + raised the_cap empty_db db_admitted + raised the_cap db_admitted db_settled by vm_compute.
    eapply run_step; [eapply run_step; [apply run_start|by left|apply admitted_step]|by left|apply settled_step].
Defined.

Lemma spend_tables_consistent_witness :
  revised "a" 1 (db_ledger db_settled) = true.
Proof.
  have [H _] := spend_tables_consistent ascii_upper toy_digest empty_db db_settled empty_db_empty reach_settled.
  destruct (db_attempts db_settled) as [|a l] eqn:E; [by vm_compute in E|].
  have Ha : a = List.hd a (db_attempts db_settled) by rewrite E.
  vm_compute in Ha. subst a. by apply (H _ (or_introl eq_refl)).
Defined.

Lemma settled_spend_is_sum_of_totals_witness :
  settledSpend (ledger_scope PROVIDER_ACCOUNT "acct") (js "USD") start_time (db_ledger db_settled) = 40.
Proof.
  etransitivity; [apply (settled_spend_is_sum_of_totals ascii_upper toy_digest empty_db db_settled PROVIDER_ACCOUNT "acct" (js "USD")
     empty_db_empty reach_settled)|by vm_compute].
  intros a Ha _. have : a = List.hd a (db_attempts db_settled) by vm_compute in Ha |- *; destruct Ha as [<-|[]].
  intros ->. by vm_compute; split; [eexists|].
Defined.

Lemma settlement_value_witness :
  ∃ r, db_ledger db_settled = db_ledger db_admitted ++ [r] ∧ r_settledCost r = Some 40.
Proof.
  destruct (settlement_value ascii_upper toy_digest db_admitted start_time first_terminal db_settled
    (List.hd (new_anchor (an_attempt "a" 1 60) {| pr_accountingVersion := []; pr_currency := None; pr_pricingVersion := None; pr_spend := None |})
       (db_attempts db_admitted)) 60 (js "USD")) as (r & Hr & _ & _).
  - apply (wf_reachable ascii_upper toy_digest empty_db); [apply empty_wf, empty_db_empty|apply reach_admitted].
  - by vm_compute.
  - by vm_compute.
  - by vm_compute.
  - by vm_compute.
  - by vm_compute.
  - by vm_compute.
  - exists r. split; [done|]. vm_compute in Hr. by injection Hr as <-.
Defined.

Lemma delivery_idempotent_witness :
  toy_reconcile (start_time + 5) first_terminal db_settled = (Returns tt, db_settled).
Proof. apply (delivery_idempotent ascii_upper toy_digest start_time (start_time + 5) first_terminal db_admitted). by vm_compute. Defined.

Lemma revision_conflict_refused_witness :
  toy_reconcile start_time (a_terminal "a" 1 1 (Some (a_usage 41))) db_settled = (Throws Revision_conflict, db_settled).
Proof.
  destruct (db_ledger db_settled) as [|r l] eqn:E; [by vm_compute in E|].
  destruct (revision_conflict_refused ascii_upper toy_digest start_time (a_terminal "a" 1 1 (Some (a_usage 41)))
    {| ck_complete := Some true; ck_payloadHash := [1; 0; 41] |}
    (List.hd (new_anchor (an_attempt "a" 1 60) {| pr_accountingVersion := []; pr_currency := None; pr_pricingVersion := None; pr_spend := None |})
       (db_attempts db_settled)) db_settled (List.hd r (db_ledger db_settled))) as [H _].
  1-6: by vm_compute.
  - apply (wf_reachable ascii_upper toy_digest empty_db); [apply empty_wf, empty_db_empty|apply reach_settled].
  - vm_compute. by left.
  - apply H; by vm_compute.
Defined.

(** The process died after the admission; the sweep runs a minute and a second later. *)
Definition db_crashed : Db :=
  mkDb (start_time + 61000) (db_caps db_admitted) (db_models db_admitted) (db_pricing db_admitted) (db_attempts db_admitted)
    (db_ledger db_admitted) (db_reservations db_admitted) (db_settlements db_admitted).

Lemma reach_crashed : reachable ascii_upper toy_digest empty_db db_crashed.
Proof. eapply reach_step; [apply reach_admitted|]. by apply step_clock; vm_compute. Qed.

Lemma repair_sweep_settles_witness :
  ∃ db', repairExpiredProviderBudgets ascii_upper toy_digest (start_time + 61000) None db_crashed = Some (1%nat, db')
    ∧ (∀ a, In a (db_attempts db') → expired (start_time + 61000) None a = false).
Proof.
  destruct (repair_sweep_settles ascii_upper toy_digest empty_db db_crashed (start_time + 61000) None)
    as (n & db' & st & Hrun & _ & _ & _ & Hall); [apply empty_db_empty|apply reach_crashed|by vm_compute|].
  destruct Hall as (Hn & _ & Hall); [by apply Nat.ltb_lt; vm_compute|]. vm_compute in Hn. subst n. eauto.
Defined.
