(* ===== verification/ReservationMatching.v ===== *)
(** * ReservationMatching: each reservation its own node

    [assignReservations] of [packages/api/src/lib/placement.ts]: Kuhn's augmenting paths over the
    lists of nodes each reservation may use. The theorem is what the planner relies on: whenever
    an assignment of distinct nodes exists, one is found, whatever the order of the entries, and
    a failure names the first entry that cannot be served together with the ones before it. *)
From Stdlib Require Import ssreflect.
From stdpp Require Import gmap.
From S2P Require Import Prelude.

(** ** The algorithm *)

(** [holderOf], [assigned] and [seen], the state [assign] shares with its caller. *)
Record Match : Type := mkMatch {
  holderOf : gmap string nat;
  assigned : list string;
}.

Inductive Assignment : Type :=
  | Assigned (nodeIds : list string)
  | AssignFailed (index : nat).

Definition take_node (nodeId : string) (index : nat) (m : Match) : Match :=
  mkMatch (<[nodeId := index]> (holderOf m)) (<[index := nodeId]> (assigned m)).

Section Assign.
Context (lists : list (list string)).

(** The loop of [assign] over one entry's list; [rec] is the recursive call. *)
Fixpoint try_nodes (rec : nat → gset string → Match → option (bool * gset string * Match)) (index : nat)
  (nodes : list string) (seen : gset string) (m : Match) : option (bool * gset string * Match) :=
  match nodes with
  | [] => Some (false, seen, m)
  | nodeId :: nodes' =>
      if bool_decide (nodeId ∈ seen) then try_nodes rec index nodes' seen m
      else
        let seen := {[nodeId]} ∪ seen in
        match holderOf m !! nodeId with
        | None => Some (true, seen, take_node nodeId index m)
        | Some holder =>
            match rec holder seen m with
            | None => None
            | Some (true, seen, m) => Some (true, seen, take_node nodeId index m)
            | Some (false, seen, m) => try_nodes rec index nodes' seen m
            end
        end
  end.

(** [assign]; every nested call has one more node seen, so the fuel bounds the depth. *)
Fixpoint assign (fuel : nat) (index : nat) (seen : gset string) (m : Match) : option (bool * gset string * Match) :=
  match fuel with
  | O => None
  | S fuel' => try_nodes (assign fuel') index (default [] (lists !! index)) seen m
  end.

Definition assign_fuel : nat := S (length (concat lists)).

(** The loop over the entries. *)
Fixpoint assign_entries (entries : list (list string)) (index : nat) (m : Match) : option Assignment :=
  match entries with
  | [] => Some (Assigned (assigned m))
  | list_ :: rest =>
      match List.find (λ nodeId, bool_decide (holderOf m !! nodeId = None)) list_ with
      | Some free => assign_entries rest (S index) (take_node free index m)
      | None =>
          match assign assign_fuel index ∅ m with
          | None => None
          | Some (true, _, m) => assign_entries rest (S index) m
          | Some (false, _, _) => Some (AssignFailed index)
          end
      end
  end.

Definition unassigned : Match := mkMatch ∅ ((λ _, "") <$> lists).

Definition assignReservations : option Assignment := assign_entries lists 0 unassigned.
End Assign.

(** ** What an assignment is *)

(** Distinct nodes, one from each list. *)
Definition assigns (lists : list (list string)) (nodes : list string) : Prop :=
  length nodes = length lists ∧ NoDup nodes ∧
  ∀ i node l, nodes !! i = Some node → lists !! i = Some l → node ∈ l.

Section Correct.
Context (lists : list (list string)).
Let list_of (i : nat) : list string := default [] (lists !! i).

(** The entries below [k] hold distinct nodes of their lists, and [holderOf] says which. *)
Record matched (k : nat) (m : Match) : Prop := {
  ma_holder : ∀ n j, holderOf m !! n = Some j ↔ (j < k)%nat ∧ assigned m !! j = Some n;
  ma_list : ∀ j, (j < k)%nat → ∃ n, assigned m !! j = Some n ∧ n ∈ list_of j;
}.

(** The node an entry is being moved off: its own, if it has one. *)
Definition entry_node (k i : nat) (m : Match) : option string :=
  if (i <? k)%nat then assigned m !! i else None.

(** After [assign i] succeeded: entry [i] and those below [k] hold distinct nodes other than
    [old], the node [i] left, whose [holderOf] the caller rewrites. *)
Record moved (k i : nat) (old : option string) (m : Match) : Prop := {
  mv_holder : ∀ n j, Some n ≠ old →
    holderOf m !! n = Some j ↔ (j < k ∨ j = i)%nat ∧ assigned m !! j = Some n;
  mv_list : ∀ j, (j < k ∨ j = i)%nat → ∃ n, assigned m !! j = Some n ∧ n ∈ list_of j ∧ Some n ≠ old;
  mv_length : length (assigned m) = length lists;
}.

(** A failed call: nothing moved, and what was seen meanwhile is held by entries that can use
    nothing unseen. *)
Record stuck (i : nat) (seen seen' : gset string) (m m' : Match) : Prop := {
  st_same : m' = m;
  st_grows : seen ⊆ seen';
  st_closed : ∀ n, n ∈ list_of i → n ∈ seen';
  st_held : ∀ n, n ∈ seen' → n ∉ seen → ∃ h, holderOf m !! n = Some h ∧ ∀ x, x ∈ list_of h → x ∈ seen';
}.

Definition universe : gset string := list_to_set (concat lists).

Lemma list_of_universe i n : n ∈ list_of i → n ∈ universe.
Proof.
  rewrite /list_of /universe elem_of_list_to_set. destruct (lists !! i) as [l|] eqn:E; cbn; [|by intros ?%elem_of_nil].
  intros Hn. apply list_elem_of_In, in_concat. exists l. split; [|by apply list_elem_of_In].
  apply list_elem_of_In. by eapply list_elem_of_lookup_2.
Qed.

(** Taking a node: the entry [i] moves to [n], from a state in which no other entry holds [n]. *)
Lemma take_node_moved k i n m0 m :
  matched k m0 → (i ≤ k)%nat → (k < length lists)%nat → length (assigned m) = length lists → n ∈ list_of i →
  Some n ≠ entry_node k i m0 →
  (∀ x j, x ≠ n → holderOf m !! x = Some j ↔ (j < k)%nat ∧ assigned m !! j = Some x) →
  (∀ j, (j < k)%nat → ∃ x, assigned m !! j = Some x ∧ x ∈ list_of j ∧ x ≠ n) →
  ((i < k)%nat → assigned m !! i = entry_node k i m0) →
  moved k i (entry_node k i m0) (take_node n i m).
Proof.
  intros Hm0 Hik Hk Hlen Hn Hold Hh Hl Hi. have Hil : (i < length (assigned m))%nat by lia. split; cbn.
  - intros x j Hx. destruct (decide (x = n)) as [->|Hne].
    + rewrite lookup_insert_eq. split.
      * intros [= <-]. split; [by right|]. by rewrite list_lookup_insert_eq.
      * intros [Hj Ha]. destruct (decide (j = i)) as [->|Hji]; [done|]. rewrite list_lookup_insert_ne // in Ha.
        destruct (Hl j) as (y & Hy & _ & Hyn); [lia|]. congruence.
    + rewrite lookup_insert_ne // Hh //. destruct (decide (j = i)) as [->|Hji].
      * rewrite list_lookup_insert_eq //. split; [|naive_solver]. intros [Hj Ha]. by rewrite Hi in Ha.
      * rewrite list_lookup_insert_ne //. naive_solver.
  - intros j Hj. destruct (decide (j = i)) as [->|Hji].
    + exists n. by rewrite list_lookup_insert_eq.
    + destruct (Hl j) as (x & Hx & Hxl & Hxn); [lia|]. exists x. rewrite list_lookup_insert_ne //. split; [done|]. split; [done|].
      rewrite /entry_node in Hi |- *. destruct (Nat.ltb_spec i k) as [Hlt|]; [|done].
      rewrite -Hi //. intros Heq.
      have Hhi : holderOf m !! x = Some i by apply Hh.
      have Hhj : holderOf m !! x = Some j by (apply Hh; [done|]; split; [lia|done]). congruence.
  - by rewrite length_insert.
Qed.

(** What a call leaves as it was: the entries whose node was already seen. *)
Definition keeps (i : nat) (seen : gset string) (m m' : Match) : Prop :=
  ∀ j n, j ≠ i → assigned m !! j = Some n → n ∈ seen → assigned m' !! j = Some n.

(** The contract of [assign i] from a matching of the entries below [k]. *)
Definition assign_spec (k i : nat) (seen : gset string) (m : Match) (res : option (bool * gset string * Match)) : Prop :=
  ∃ b seen' m', res = Some (b, seen', m') ∧ seen' ⊆ universe ∧
    if b then moved k i (entry_node k i m) m' ∧ keeps i seen m m' else stuck i seen seen' m m'.

(** Preconditions of a call: the matching, and that the entry's own node is seen. *)
Record callable (k i : nat) (seen : gset string) (m : Match) : Prop := {
  ca_matched : matched k m;
  ca_length : length (assigned m) = length lists;
  ca_bound : (i ≤ k < length lists)%nat;
  ca_seen : seen ⊆ universe;
  ca_own : ∀ n, entry_node k i m = Some n → n ∈ seen;
}.

(** [i] takes a free node. *)
Lemma take_free k i seen m n :
  callable k i seen m → n ∈ list_of i → n ∉ seen → holderOf m !! n = None →
  moved k i (entry_node k i m) (take_node n i m) ∧ keeps i seen m (take_node n i m).
Proof.
  intros [Hm Hlen Hb _ Hown] Hn Hns Hfree. split.
  - apply (take_node_moved k i n m m); try done; try lia.
    + intros Heq. by apply Hns, Hown.
    + intros x j _. apply (ma_holder _ _ Hm).
    + intros j Hj. destruct (ma_list _ _ Hm j Hj) as (x & Hx & Hxl). exists x. split; [done|]. split; [done|]. intros ->.
      have : holderOf m !! n = Some j by apply (ma_holder _ _ Hm). congruence.
    + intros Hik. rewrite /entry_node. by rewrite (proj2 (Nat.ltb_lt _ _) Hik).
  - intros j x Hj Hx _. cbn. by rewrite list_lookup_insert_ne.
Qed.

(** [i] takes the node of [h], which moved elsewhere. *)
Lemma take_moved k i h seen m m' n :
  callable k i seen m → n ∈ list_of i → n ∉ seen → holderOf m !! n = Some h →
  moved k h (Some n) m' → keeps h ({[n]} ∪ seen) m m' →
  moved k i (entry_node k i m) (take_node n i m') ∧ keeps i seen m (take_node n i m').
Proof.
  intros [Hm Hlen Hb _ Hown] Hn Hns Hh Hmv Hkeep. have [Hhk Hah] := proj1 (ma_holder _ _ Hm _ _) Hh.
  have Hhi : h ≠ i.
  { intros ->. apply Hns, Hown. rewrite /entry_node. by rewrite (proj2 (Nat.ltb_lt _ _) Hhk). }
  split.
  - apply (take_node_moved k i n m m'); try done; try lia.
    + apply Hmv.
    + intros Heq. by apply Hns, Hown.
    + intros x j Hx. rewrite (mv_holder _ _ _ _ Hmv); [congruence|]. naive_solver lia.
    + intros j Hj. destruct (mv_list _ _ _ _ Hmv j) as (x & Hx & Hxl & Hxn); [by left|]. exists x.
      split; [done|]. split; [done|]. congruence.
    + intros Hik. destruct (entry_node k i m) as [x|] eqn:Ho.
      * apply Hkeep; [done| |]; [rewrite /entry_node (proj2 (Nat.ltb_lt _ _) Hik) in Ho; done|].
        apply elem_of_union_r. by apply Hown.
      * rewrite /entry_node (proj2 (Nat.ltb_lt _ _) Hik) in Ho. destruct (ma_list _ _ Hm i Hik) as (? & ? & _). congruence.
  - intros j x Hj Hx Hs. cbn. rewrite list_lookup_insert_ne //. apply Hkeep; [|done|by apply elem_of_union_r].
    intros ->. rewrite Hah in Hx. congruence.
Qed.

Lemma try_nodes_spec rec k i m nodes seen0 seen :
  callable k i seen m → seen0 ⊆ seen → (∀ n, n ∈ nodes → n ∈ list_of i) →
  (∀ n, n ∈ list_of i → n ∈ nodes ∨ n ∈ seen) →
  (∀ n, n ∈ seen → n ∉ seen0 → ∃ h, holderOf m !! n = Some h ∧ ∀ x, x ∈ list_of h → x ∈ seen) →
  (∀ h s, seen0 ⊂ s → callable k h s m → assign_spec k h s m (rec h s m)) →
  ∃ b seen' m', try_nodes rec i nodes seen m = Some (b, seen', m') ∧ seen' ⊆ universe ∧
    if b then moved k i (entry_node k i m) m' ∧ keeps i seen0 m m' else stuck i seen0 seen' m m'.
Proof.
  revert seen. induction nodes as [|n nodes IH]; intros seen Hcall Hs0 Hnodes Hall Hheld Hrec.
  - exists false, seen, m. split; [done|]. split; [apply Hcall|]. split; [done|done| |done].
    intros n Hn. destruct (Hall n Hn) as [?%elem_of_nil|]; done.
  - cbn. case_bool_decide as Hns.
    { apply IH; try done.
      - intros x Hx. apply Hnodes. by right.
      - intros x Hx. destruct (Hall x Hx) as [[->|?]%elem_of_cons|]; auto. }
    have Hni : n ∈ list_of i by apply Hnodes; left. have Hkeep : ∀ m', keeps i seen m m' → keeps i seen0 m m'.
    { intros m' H j x Hj Hx Hxs. apply H; [done|done|]. by apply Hs0. }
    have Hsu : {[n]} ∪ seen ⊆ universe.
    { apply union_subseteq. split; [apply singleton_subseteq_l; by eapply list_of_universe|apply Hcall]. }
    destruct (holderOf m !! n) as [h|] eqn:Hh.
    + have [Hhk Hah] := proj1 (ma_holder _ _ (ca_matched _ _ _ _ Hcall) _ _) Hh.
      destruct (Hrec h ({[n]} ∪ seen)) as (b & seen1 & m1 & -> & Hu & Hres).
      { split; [set_solver|]. intros Hsub. apply Hns, Hs0, Hsub, elem_of_union_l. by apply elem_of_singleton. }
      { split; [apply Hcall|apply Hcall|have := ca_bound _ _ _ _ Hcall; lia|done|].
        intros x. rewrite /entry_node (proj2 (Nat.ltb_lt _ _) Hhk) Hah. intros [= <-]. apply elem_of_union_l. by apply elem_of_singleton. }
      have Hoh : entry_node k h m = Some n by rewrite /entry_node (proj2 (Nat.ltb_lt _ _) Hhk).
      destruct b.
      * destruct Hres as [Hmv Hkp]. rewrite Hoh in Hmv. exists true, seen1, (take_node n i m1). split; [done|]. split; [done|].
        destruct (take_moved k i h seen m m1 n) as [? ?]; try done. split; [done|]. by apply Hkeep.
      * destruct Hres as [-> Hg Hcl Hhd]. apply IH; try done.
        -- destruct Hcall. split; try done. intros x Hx. apply Hg, elem_of_union_r. by apply ca_own0.
        -- set_solver.
        -- intros x Hx. apply Hnodes. by right.
        -- intros x Hx. destruct (Hall x Hx) as [[->|?]%elem_of_cons|]; [right|by left|right]; apply Hg; set_solver.
        -- intros x Hx Hx0. destruct (decide (x = n)) as [->|Hxn]; [eauto|].
           destruct (decide (x ∈ seen)) as [Hxs|Hxs]; [|apply Hhd; set_solver].
           destruct (Hheld x Hxs Hx0) as (h' & Hh' & Hl). exists h'. split; [done|]. intros y Hy. apply Hg, elem_of_union_r. auto.
    + exists true, ({[n]} ∪ seen), (take_node n i m). split; [done|]. split; [done|].
      destruct (take_free k i seen m n) as [? ?]; try done. split; [done|]. by apply Hkeep.
Qed.

(** Enough fuel: the nodes not seen yet. *)
Lemma assign_correct fuel k i seen m :
  callable k i seen m → (size (universe ∖ seen) < fuel)%nat → assign_spec k i seen m (assign lists fuel i seen m).
Proof.
  revert i seen. induction fuel as [|fuel IH]; intros i seen Hcall Hfuel; [lia|]. cbn.
  apply (try_nodes_spec (assign lists fuel) k i m (list_of i) seen seen); try done; [by left|].
  intros h s Hsub Hc. apply IH; [done|].
  have Hlt : (size (universe ∖ s) < size (universe ∖ seen))%nat; [|lia].
  apply subset_size. destruct Hsub as [Hsub Hn]. split; [set_solver|]. intros Hback.
  apply Hn. intros x Hx. destruct (decide (x ∈ seen)) as [|Hxs]; [done|].
  have Hu : x ∈ universe by apply (ca_seen _ _ _ _ Hc). set_solver.
Qed.

Lemma assign_fuel_enough : (size (universe ∖ ∅) < assign_fuel lists)%nat.
Proof.
  rewrite /assign_fuel. have -> : size (universe ∖ ∅) = length (elements (universe ∖ ∅)) by done.
  have : (length (elements (universe ∖ ∅)) ≤ length (concat lists))%nat; [|lia].
  apply submseteq_length, NoDup_submseteq; [apply NoDup_elements|]. intros x. rewrite elem_of_elements /universe. set_solver.
Qed.

(** The root entry joins the matching. *)
Lemma moved_matched k m : moved k k None m → matched (S k) m.
Proof.
  intros Hmv. split.
  - intros n j. rewrite (mv_holder _ _ _ _ Hmv) //. naive_solver lia.
  - intros j Hj. destruct (mv_list _ _ _ _ Hmv j) as (n & ? & ? & _); [lia|]. eauto.
Qed.

Lemma entry_node_root k m : entry_node k k m = None.
Proof. rewrite /entry_node. by rewrite (proj2 (Nat.ltb_ge _ _)). Qed.

Lemma callable_root k m :
  matched k m → length (assigned m) = length lists → (k < length lists)%nat → callable k k ∅ m.
Proof. intros Hm Hl Hk. split; [done|done|lia|set_solver|by rewrite entry_node_root]. Qed.

(** Hall's obstruction: the seen nodes are fewer than the entries that can use only them. *)
Lemma stuck_no_assignment k seen m m' :
  matched k m → (k < length lists)%nat → stuck k ∅ seen m m' → ¬ ∃ nodes, assigns (take (S k) lists) nodes.
Proof.
  intros Hm Hk [_ _ Hcl Hheld] (nodes & Hlen & Hnd & Hin). rewrite length_take in Hlen.
  have Hnode : ∀ e, (e ≤ k)%nat → ∃ x, nodes !! e = Some x ∧ x ∈ list_of e.
  { intros e He. destruct (lookup_lt_is_Some_2 nodes e) as [x Hx]; [lia|]. exists x. split; [done|].
    destruct (lookup_lt_is_Some_2 lists e) as [l Hl]; [lia|]. rewrite /list_of Hl.
    apply (Hin e x l Hx). rewrite lookup_take_lt //. lia. }
  have Hh : ∀ n, n ∈ seen → ∃ h, holderOf m !! n = Some h ∧ ∀ x, x ∈ list_of h → x ∈ seen
    by intros n Hn; apply Hheld; [done|set_solver].
  set holder := λ n, default O (holderOf m !! n). set entries := k :: (holder <$> elements seen).
  have Hent : ∀ e, e ∈ entries → (e ≤ k)%nat ∧ ∀ x, x ∈ list_of e → x ∈ seen.
  { intros e [->|(n & -> & Hn%elem_of_elements)%list_elem_of_fmap]%elem_of_cons; [done|].
    destruct (Hh n Hn) as (h & Hnh & Hl). rewrite /holder Hnh /=. split; [|done].
    have [? _] := proj1 (ma_holder _ _ Hm _ _) Hnh. lia. }
  have Hnde : NoDup entries.
  { apply NoDup_cons. split.
    - intros (n & Hn & Hns%elem_of_elements)%list_elem_of_fmap. destruct (Hh n Hns) as (h & Hnh & _).
      rewrite /holder Hnh /= in Hn. have [? _] := proj1 (ma_holder _ _ Hm _ _) Hnh. lia.
    - apply NoDup_fmap_2_strong; [|apply NoDup_elements]. intros x y Hx%elem_of_elements Hy%elem_of_elements.
      destruct (Hh x Hx) as (h & Hxh & _), (Hh y Hy) as (h' & Hyh & _). rewrite /holder Hxh Hyh /=. intros <-.
      have [_ Ha] := proj1 (ma_holder _ _ Hm _ _) Hxh. have [_ Hb] := proj1 (ma_holder _ _ Hm _ _) Hyh. congruence. }
  set image := (λ e, default "" (nodes !! e)) <$> entries.
  have Hle : (length image ≤ length (elements seen))%nat.
  { apply submseteq_length, NoDup_submseteq.
    - apply NoDup_fmap_2_strong; [|done]. intros x y [Hx _]%Hent [Hy _]%Hent.
      destruct (Hnode x Hx) as (a & Ha & _), (Hnode y Hy) as (b & Hb & _). rewrite Ha Hb /=. intros ->.
      exact (NoDup_lookup _ _ _ _ Hnd Ha Hb).
    - intros x (e & -> & [He Hl]%Hent)%list_elem_of_fmap. destruct (Hnode e He) as (a & Ha & Hal). rewrite Ha /=.
      by apply elem_of_elements, Hl. }
  rewrite /image /entries !length_fmap /= !length_fmap in Hle. lia.
Qed.

(** The loop over the entries, from a matching of those before. *)
Lemma assign_entries_correct entries k m :
  matched k m → length (assigned m) = length lists → entries = drop k lists →
  match assign_entries lists entries k m with
  | Some (Assigned nodes) => assigns lists nodes
  | Some (AssignFailed i) => (i < length lists)%nat ∧ ¬ ∃ nodes, assigns (take (S i) lists) nodes
  | None => False
  end.
Proof.
  revert k m. induction entries as [|l entries IH]; intros k m Hm Hlen He; cbn [assign_entries].
  - have Hk : (length lists ≤ k)%nat.
    { have := f_equal length He. rewrite length_drop /=. lia. }
    split; [done|]. split.
    + apply NoDup_alt. intros i j x Hi Hj. have Hil := lookup_lt_Some _ _ _ Hi. have Hjl := lookup_lt_Some _ _ _ Hj.
      have H1 : holderOf m !! x = Some i by apply (ma_holder _ _ Hm); split; [lia|].
      have H2 : holderOf m !! x = Some j by apply (ma_holder _ _ Hm); split; [lia|]. congruence.
    + intros i node l Hi Hl. have Hil := lookup_lt_Some _ _ _ Hi.
      destruct (ma_list _ _ Hm i) as (n & Hn & Hin); [lia|]. rewrite /list_of Hl in Hin. cbn in Hin. congruence.
  - have Hk : (k < length lists)%nat.
    { have := f_equal length He. rewrite length_drop /=. lia. }
    have Hl : lists !! k = Some l by rewrite -(Nat.add_0_r k) -lookup_drop -He.
    have Hrest : entries = drop (S k) lists by rewrite -Nat.add_1_r -drop_drop -He.
    have Hcall := callable_root k m Hm Hlen Hk.
    destruct (List.find _ l) as [free|] eqn:Hf.
    + apply List.find_some in Hf as [Hin Hfree]. bool_to_prop.
      destruct (take_free k k ∅ m free Hcall) as [Hmv _]; [rewrite /list_of Hl; by apply list_elem_of_In|set_solver|done|].
      rewrite entry_node_root in Hmv. apply IH; [by apply moved_matched|apply Hmv|done].
    + destruct (assign_correct (assign_fuel lists) k k ∅ m Hcall assign_fuel_enough) as (b & seen & m' & -> & _ & Hres).
      destruct b.
      * destruct Hres as [Hmv _]. rewrite entry_node_root in Hmv. apply IH; [by apply moved_matched|apply Hmv|done].
      * split; [done|]. by eapply stuck_no_assignment.
Qed.
End Correct.

(** C12. Reservation matching is complete. [assignReservations] always answers; the nodes it gives
    are distinct and each from its entry's list; and when it fails at entry [i] no assignment of
    the entries up to [i] exists at all, in any order: so it succeeds exactly when an assignment
    exists. *)
Theorem assign_reservations_complete lists :
  match assignReservations lists with
  | Some (Assigned nodes) => assigns lists nodes
  | Some (AssignFailed i) =>
      (i < length lists)%nat ∧ (¬ ∃ nodes, assigns (take (S i) lists) nodes) ∧ ¬ ∃ nodes, assigns lists nodes
  | None => False
  end.
Proof.
  have Hm : matched lists 0 (unassigned lists).
  { split; [|lia]. intros n j. rewrite lookup_empty. naive_solver lia. }
  have := assign_entries_correct lists lists 0 (unassigned lists) Hm (length_fmap _ _) eq_refl.
  rewrite /assignReservations. destruct (assign_entries _ _ _ _) as [[nodes|i]|]; [done| |done].
  intros [Hi Hno]. split; [done|]. split; [done|]. intros (nodes & Hlen & Hnd & Hin). apply Hno. exists (take (S i) nodes).
  split; [by rewrite !length_take Hlen|]. split; [by eapply sublist_NoDup; [|apply sublist_take]|]. intros j node l Hj Hl.
  apply lookup_take_Some in Hj as [Hj _], Hl as [Hl _]. by eapply Hin.
Qed.

(** The first entry keeps its second choice when the second entry can use only one node. *)
Example reservations_moved : assignReservations [["a"; "b"]; ["a"]]%string = Some (Assigned ["b"; "a"]%string).
Proof. by vm_compute. Qed.

Example reservations_short : assignReservations [["a"; "b"]; ["a"]; ["b"]; ["c"]]%string = Some (AssignFailed 2).
Proof. by vm_compute. Qed.
