(* ===== verification/ClaimOverlap.v ===== *)
(** * ClaimOverlap: how one instance's claims add up on a node

    [packages/api/src/lib/claim-overlap.ts]. While a restart's old and new claims both hold they
    overlap: per component, the instance holds the larger of the two sides. GiB amounts are whole
    hundredths (the values carry two decimals). [restart_costs_growth] is the algebra the planner
    relies on when it places a restart's claims one by one. *)
From Stdlib Require Import ssreflect.
From S2P Require Import Prelude.

(** Memory, and VRAM per dedicated GPU key. *)
Record ClaimUsage : Type := mkUsage {
  memoryGb : Z;
  gpus : jsmap string Z;
}.

Definition NO_USAGE : ClaimUsage := mkUsage 0 [].

(** [gpus.get(key) ?? 0]. *)
Definition gpu_at (key : string) (m : jsmap string Z) : Z := default 0 (map_get key m).

#[global] Arguments gpu_at : simpl never.

Definition merge (f : Z → Z → Z) (m m' : jsmap string Z) : jsmap string Z :=
  fold_left (λ acc kv, map_set kv.1 (f (gpu_at kv.1 acc) kv.2) acc) m' m.

Definition sumUsage (usages : list ClaimUsage) : ClaimUsage :=
  fold_left (λ acc u, mkUsage (memoryGb acc + memoryGb u) (merge Z.add (gpus acc) (gpus u))) usages NO_USAGE.

Definition maxUsage (a b : ClaimUsage) : ClaimUsage :=
  mkUsage (Z.max (memoryGb a) (memoryGb b)) (merge Z.max (gpus a) (gpus b)).

Definition subtractUsage (a b : ClaimUsage) : ClaimUsage :=
  mkUsage (memoryGb a - memoryGb b) (merge Z.sub (gpus a) (gpus b)).

Definition overlapUsage (current previous : list ClaimUsage) : ClaimUsage :=
  match previous with [] => sumUsage current | _ => maxUsage (sumUsage current) (sumUsage previous) end.

Definition overlapGrowth (floor placed added : ClaimUsage) : ClaimUsage :=
  subtractUsage (maxUsage (sumUsage [placed; added]) floor) (maxUsage placed floor).

Definition overlapMemoryGb (groups : list (list Z * list Z)) : Z :=
  let memory values := mkUsage (fold_left Z.add values 0) [] in
  fold_left (λ sum g, sum + memoryGb (overlapUsage [memory g.1] [memory g.2])) groups 0.

(** ** Usages component by component *)

(** A JavaScript map has one entry per key; a claim takes no negative amount. *)
Record usage_ok (u : ClaimUsage) : Prop := {
  uo_keys : NoDup (map_keys (gpus u));
  uo_memory : 0 ≤ memoryGb u;
  uo_gpus : ∀ k, 0 ≤ gpu_at k (gpus u);
}.

Lemma merge_keys f m m' : NoDup (map_keys m) → NoDup (map_keys (merge f m m')).
Proof.
  rewrite /merge. revert m. induction m' as [|[k v] m' IH]; intros m Hm; cbn; [done|]. by apply IH, map_set_NoDup.
Qed.

Lemma gpu_at_set k k' v m : gpu_at k' (map_set k v m) = if bool_decide (k = k') then v else gpu_at k' m.
Proof.
  rewrite /gpu_at map_get_set. case_bool_decide as H; [by rewrite decide_True|by rewrite decide_False].
Qed.

Lemma gpu_at_cons k k' v m : gpu_at k' ((k, v) :: m) = if bool_decide (k = k') then v else gpu_at k' m.
Proof. rewrite /gpu_at /=. case_bool_decide as H; [by rewrite decide_True|by rewrite decide_False]. Qed.

(** A merge works key by key, on the keys of the second map. *)
Lemma merge_at f m m' k :
  NoDup (map_keys m') → (f (gpu_at k m) 0 = gpu_at k m) → gpu_at k (merge f m m') = f (gpu_at k m) (gpu_at k m').
Proof.
  rewrite /merge. revert m. induction m' as [|[k0 v] m' IH]; intros m Hnd Hf; cbn; [done|].
  cbn in Hnd. apply NoDup_cons in Hnd as [Hk0 Hnd]. destruct (decide (k0 = k)) as [->|Hne].
  - have Hout : ∀ acc, gpu_at k (fold_left (λ acc kv, map_set kv.1 (f (gpu_at kv.1 acc) kv.2) acc) m' acc) = gpu_at k acc.
    { clear -Hk0. induction m' as [|[k1 v1] m' IH]; intros acc; cbn; [done|]. cbn in Hk0. apply not_elem_of_cons in Hk0 as [Hne Hk0].
      rewrite IH // gpu_at_set bool_decide_eq_false_2 //. }
    by rewrite Hout gpu_at_set gpu_at_cons !bool_decide_eq_true_2.
  - rewrite IH // ?gpu_at_set ?gpu_at_cons ?bool_decide_eq_false_2 //.
Qed.

Lemma sum_ok_gen usages acc :
  usage_ok acc → Forall usage_ok usages →
  let s := fold_left (λ acc u, mkUsage (memoryGb acc + memoryGb u) (merge Z.add (gpus acc) (gpus u))) usages acc in
  usage_ok s ∧ memoryGb s = memoryGb acc + fold_left (λ x u, x + memoryGb u) usages 0
  ∧ ∀ k, gpu_at k (gpus s) = gpu_at k (gpus acc) + fold_left (λ x u, x + gpu_at k (gpus u)) usages 0.
Proof.
  revert acc. induction usages as [|u us IH]; intros acc Ha Hf; cbn zeta; cbn [fold_left].
  { split; [done|]. split; [lia|intros; lia]. }
  apply Forall_cons in Hf as [Hu Hf].
  have Hg : ∀ k, gpu_at k (merge Z.add (gpus acc) (gpus u)) = gpu_at k (gpus acc) + gpu_at k (gpus u)
    by (intros k; apply merge_at; [apply Hu|lia]).
  destruct (IH (mkUsage (memoryGb acc + memoryGb u) (merge Z.add (gpus acc) (gpus u)))) as (Hok & Hm & Hk); [|done|].
  { split; cbn; [apply merge_keys, Ha|have := uo_memory _ Ha; have := uo_memory _ Hu; lia|].
    intros k. rewrite Hg. have := uo_gpus _ Ha k. have := uo_gpus _ Hu k. lia. }
  have Hsh : ∀ (h : ClaimUsage → Z) us x, fold_left (λ x u, x + h u) us x = x + fold_left (λ x u, x + h u) us 0.
  { intros h us'. induction us' as [|v vs IHv]; intros x; cbn; [lia|]. rewrite IHv (IHv (h v)). lia. }
  split; [done|]. cbn in Hm, Hk. split.
  - rewrite Hm (Hsh memoryGb us (0 + memoryGb u)). lia.
  - intros k. rewrite Hk Hg (Hsh (λ u, gpu_at k (gpus u)) us (0 + gpu_at k (gpus u))). lia.
Qed.

Lemma no_usage_ok : usage_ok NO_USAGE.
Proof. split; cbn; [constructor|done|done]. Qed.

Lemma two_ok a b : usage_ok a → usage_ok b → Forall usage_ok [a; b].
Proof. intros. by apply Forall_cons_2, Forall_cons_2, Forall_nil_2. Qed.

Lemma sumUsage_ok usages : Forall usage_ok usages → usage_ok (sumUsage usages).
Proof. intros Hf. apply (sum_ok_gen usages NO_USAGE no_usage_ok Hf). Qed.

Lemma sumUsage_memory usages :
  Forall usage_ok usages → memoryGb (sumUsage usages) = fold_left (λ x u, x + memoryGb u) usages 0.
Proof. intros Hf. by destruct (sum_ok_gen usages NO_USAGE no_usage_ok Hf) as (_ & H & _). Qed.

Lemma sumUsage_gpu usages k :
  Forall usage_ok usages → gpu_at k (gpus (sumUsage usages)) = fold_left (λ x u, x + gpu_at k (gpus u)) usages 0.
Proof. intros Hf. by destruct (sum_ok_gen usages NO_USAGE no_usage_ok Hf) as (_ & _ & H). Qed.

Lemma maxUsage_gpu a b k :
  usage_ok a → usage_ok b → gpu_at k (gpus (maxUsage a b)) = Z.max (gpu_at k (gpus a)) (gpu_at k (gpus b)).
Proof. intros Ha Hb. apply merge_at; [apply Hb|]. have := uo_gpus _ Ha k. lia. Qed.

Lemma maxUsage_ok a b : usage_ok a → usage_ok b → usage_ok (maxUsage a b).
Proof.
  intros Ha Hb. split; cbn; [apply merge_keys, Ha|have := uo_memory _ Ha; lia|].
  intros k. rewrite -/(gpus (maxUsage a b)) maxUsage_gpu //. have := uo_gpus _ Ha k. lia.
Qed.

Lemma subtractUsage_gpu a b k :
  usage_ok b → gpu_at k (gpus (subtractUsage a b)) = gpu_at k (gpus a) - gpu_at k (gpus b).
Proof. intros Hb. apply merge_at; [apply Hb|lia]. Qed.

Lemma growth_memory floor placed added :
  usage_ok placed → usage_ok added →
  memoryGb (overlapGrowth floor placed added) =
  Z.max (memoryGb placed + memoryGb added) (memoryGb floor) - Z.max (memoryGb placed) (memoryGb floor).
Proof. intros. cbn. lia. Qed.

Lemma growth_gpu floor placed added k :
  usage_ok floor → usage_ok placed → usage_ok added →
  gpu_at k (gpus (overlapGrowth floor placed added)) =
  Z.max (gpu_at k (gpus placed) + gpu_at k (gpus added)) (gpu_at k (gpus floor))
  - Z.max (gpu_at k (gpus placed)) (gpu_at k (gpus floor)).
Proof.
  intros Hf Hp Ha. have Hs : usage_ok (sumUsage [placed; added]) by apply sumUsage_ok, two_ok.
  rewrite /overlapGrowth subtractUsage_gpu; [by apply maxUsage_ok|]. rewrite !maxUsage_gpu //.
  rewrite (sumUsage_gpu [placed; added]); [by apply two_ok|]. cbn [fold_left]. by do 2 f_equal.
Qed.

(** The growth of a claim is a usage, and zero on GPUs it does not use. *)
Lemma growth_ok floor placed added :
  usage_ok floor → usage_ok placed → usage_ok added → usage_ok (overlapGrowth floor placed added).
Proof.
  intros Hf Hp Ha. split.
  - apply merge_keys, merge_keys. by apply (sumUsage_ok [placed; added]), two_ok.
  - rewrite growth_memory //. have := uo_memory _ Ha. lia.
  - intros k. rewrite growth_gpu //. have := uo_gpus _ Ha k. lia.
Qed.

(** ** Placing a restart *)

(** The claims placed one by one on a node, each taking its growth over the old claims. *)
Fixpoint place_all (floor placed : ClaimUsage) (claims : list ClaimUsage) : list ClaimUsage :=
  match claims with
  | [] => []
  | c :: claims' => overlapGrowth floor placed c :: place_all floor (sumUsage [placed; c]) claims'
  end.

Definition total (f : ClaimUsage → Z) (us : list ClaimUsage) : Z := fold_left (λ x u, x + f u) us 0.

Lemma total_cons f u us : total f (u :: us) = f u + total f us.
Proof.
  have Hsh : ∀ us x, fold_left (λ x u, x + f u) us x = x + total f us.
  { induction us0 as [|v vs IHv]; intros x; rewrite /total; cbn; [lia|]. rewrite IHv (IHv (f v)). lia. }
  rewrite {1}/total. cbn [fold_left]. rewrite Hsh. lia.
Qed.

Lemma place_all_growth floor placed claims :
  usage_ok floor → usage_ok placed → Forall usage_ok claims →
  total memoryGb (place_all floor placed claims) =
    Z.max (memoryGb placed + total memoryGb claims) (memoryGb floor) - Z.max (memoryGb placed) (memoryGb floor) ∧
  ∀ k, total (λ u, gpu_at k (gpus u)) (place_all floor placed claims) =
    Z.max (gpu_at k (gpus placed) + total (λ u, gpu_at k (gpus u)) claims) (gpu_at k (gpus floor))
    - Z.max (gpu_at k (gpus placed)) (gpu_at k (gpus floor)).
Proof.
  revert placed. induction claims as [|c cs IH]; intros placed Hf Hp Hc; cbn [place_all].
  { rewrite /total; cbn. split; [|intros k]; f_equal; lia. }
  apply Forall_cons in Hc as [Hc Hcs]. have H2 : Forall usage_ok [placed; c] by apply two_ok.
  destruct (IH (sumUsage [placed; c])) as [Hm Hk]; [done|by apply sumUsage_ok|done|]. split.
  - rewrite !total_cons Hm growth_memory // sumUsage_memory //. cbn [fold_left]. lia.
  - intros k. rewrite !total_cons Hk growth_gpu // sumUsage_gpu //. cbn [fold_left]. lia.
Qed.

(** A restart costs its growth, never old plus new. Placing a restart's claims one by one on a
    node, each taking [overlapGrowth] over the old claims (which stay held), takes in total
    exactly what the overlap of the new and the old claims exceeds the old ones by, in memory and
    on each GPU, and no single claim gives anything back. So after the placement the node counts
    [overlapUsage claims old] for the instance, whatever the order of the claims. *)
Theorem restart_costs_growth old claims :
  Forall usage_ok old → Forall usage_ok claims → old ≠ [] →
  let floor := sumUsage old in
  let takes := place_all floor NO_USAGE claims in
  Forall usage_ok takes ∧
  memoryGb floor + total memoryGb takes = memoryGb (overlapUsage claims old) ∧
  ∀ k, gpu_at k (gpus floor) + total (λ u, gpu_at k (gpus u)) takes = gpu_at k (gpus (overlapUsage claims old)).
Proof.
  intros Ho Hc Hne floor takes. have Hf : usage_ok floor by apply sumUsage_ok.
  have [Hm Hk] := place_all_growth floor NO_USAGE claims Hf no_usage_ok Hc.
  have Hover : overlapUsage claims old = maxUsage (sumUsage claims) (sumUsage old) by destruct old.
  have Hsc := sumUsage_ok _ Hc. split; [|split].
  - rewrite /takes. have Hn : usage_ok NO_USAGE by apply no_usage_ok. move: Hn Hc. clear -Hf. generalize NO_USAGE.
    induction claims as [|c cs IH]; intros p Hp Hc; cbn [place_all]; [constructor|]. apply Forall_cons in Hc as [Hc Hcs].
    constructor; [by apply growth_ok|]. apply IH; [by apply sumUsage_ok, two_ok|done].
  - rewrite Hm Hover /= -/floor (sumUsage_memory claims) // -/(total memoryGb claims). have := uo_memory _ Hf. lia.
  - intros k. rewrite Hk Hover maxUsage_gpu // (sumUsage_gpu claims) // -/(total (λ u, gpu_at k (gpus u)) claims).
    rewrite -/floor. have -> : gpu_at k (gpus NO_USAGE) = 0 by done. have := uo_gpus _ Hf k. lia.
Qed.
