(* ===== verification/PlacementFit.v ===== *)
(** * PlacementFit: whether a claim fits on a node

    The accounting core of the placement planner ([packages/api/src/lib/placement.ts]): a node's
    budget of memory, GPUs and ports, what a claim takes from it, the search for the GPUs of a
    claim, and [fit] for a new claim and for a restart's claim over its old ones. GiB amounts are
    whole hundredths ("values carry two decimals"), so the comparisons with the slack [EPSILON]
    are the exact ones. [PlacementFitSafety] has the theorems. *)
From Stdlib Require Import ssreflect.
From S2P Require Import Prelude ClaimOverlap.

(** ** Data *)

Inductive GpuVendor : Type := nvidia | amd | intel | apple | other.
#[export] Instance GpuVendor_eq : EqDecision GpuVendor.
Proof. solve_decision. Defined.

Definition vendor_name (v : GpuVendor) : string :=
  match v with nvidia => "nvidia" | amd => "amd" | intel => "intel" | apple => "apple" | other => "other" end.

(** [compareCodePoints] on ASCII text. *)
Fixpoint code_points_compare (a b : list Z) : Z :=
  match a, b with
  | x :: a', y :: b' => if x =? y then code_points_compare a' b' else x - y
  | _, _ => Z.of_nat (length a) - Z.of_nat (length b)
  end.

Definition compareCodePoints (a b : string) : Z := code_points_compare (code_units a) (code_units b).

(** [runtimeResourceSchema]. *)
Inductive RuntimeResource : Type :=
  | Rnone
  | Runified (memoryGb : Z)
  | Rcpu (ramGb : Z)
  | Rdiscrete (gpuCount : nat) (vramGb : Z) (ramGb : option Z) (vendor : option GpuVendor).

Record Needs : Type := mkNeeds {
  n_memoryGb : Z;
  n_gpuCount : nat;
  n_vramGb : Z;
  n_vendor : option GpuVendor;
}.

Definition NO_NEEDS : Needs := mkNeeds 0 0 0 None.

(** [resourceNeeds]; [None] is JSON the schema does not parse. *)
Definition resourceNeeds (resource : option RuntimeResource) : Needs :=
  match resource with
  | None | Some Rnone => NO_NEEDS
  | Some (Runified m) => mkNeeds m 0 0 None
  | Some (Rcpu ram) => mkNeeds ram 0 0 None
  | Some (Rdiscrete count vram ram vendor) => mkNeeds (default 0 ram) count vram vendor
  end.

Record GpuBudget : Type := mkGpu {
  gb_key : string;
  gb_vendor : GpuVendor;
  gb_freeGb : Z;
  gb_unified : bool;
}.

(** [PortClaims]: claimed ports, counted. *)
Definition PortClaims : Type := jsmap Z Z.

Definition port_count (port : Z) (ports : PortClaims) : Z := default 0 (map_get port ports).
Definition port_has (port : Z) (ports : PortClaims) : bool := 0 <? port_count port ports.
Definition port_add (port : Z) (ports : PortClaims) : PortClaims := map_set port (port_count port ports + 1) ports.
Definition port_delete (port : Z) (ports : PortClaims) : PortClaims :=
  let count := port_count port ports - 1 in
  if 0 <? count then map_set port count ports else map_delete port ports.

Record Budget : Type := mkBudget {
  b_memoryGb : Z;
  b_gpus : list GpuBudget;
  b_ports : PortClaims;
  b_definitions : list string;
}.

Definition RUNTIME_DEFINITIONS_MAX : nat := 128.

(** [definitionSlotsFull]. *)
Definition definitionSlotsFull (budget : Budget) (nodeOrigin : bool) (versionId : string) : bool :=
  negb nodeOrigin && negb (bool_decide (versionId ∈ b_definitions budget))
  && (RUNTIME_DEFINITIONS_MAX <=? length (b_definitions budget))%nat.

(** ** Usage *)

Definition find_gpu (key : string) (gpus : list GpuBudget) : option GpuBudget :=
  List.find (λ g, bool_decide (gb_key g = key)) gpus.

Definition gpuFreeGb (budget : Budget) (gpu : GpuBudget) (reserveGb : Z) : Z :=
  if gb_unified gpu then b_memoryGb budget - reserveGb else gb_freeGb gpu.

Definition unifiedCount (budget : Budget) (gpuKeys : list string) : nat :=
  length (List.filter (λ g, gb_unified g && bool_decide (gb_key g ∈ gpuKeys)) (b_gpus budget)).

(** [usageOf]: its memory plus the VRAM of the unified GPUs, and the VRAM of each dedicated one. *)
Definition usageOf (budget : Budget) (needs : Needs) (gpuKeys : list string) : ClaimUsage :=
  fold_left (λ acc key,
    match find_gpu key (b_gpus budget) with
    | None => acc
    | Some gpu =>
        if gb_unified gpu then mkUsage (memoryGb acc + n_vramGb needs) (gpus acc)
        else mkUsage (memoryGb acc) (map_set key (gpu_at key (gpus acc) + n_vramGb needs) (gpus acc))
    end) gpuKeys (mkUsage (n_memoryGb needs) []).

(** [gpu.freeGb -= sign * gb] for the first GPU with the key. *)
Fixpoint take_gpu (key : string) (gb : Z) (gpus : list GpuBudget) : list GpuBudget :=
  match gpus with
  | [] => []
  | g :: gpus' =>
      if bool_decide (gb_key g = key) then mkGpu (gb_key g) (gb_vendor g) (gb_freeGb g - gb) (gb_unified g) :: gpus'
      else g :: take_gpu key gb gpus'
  end.

(** [applyUsage]. *)
Definition applyUsage (budget : Budget) (usage : ClaimUsage) (sign : Z) : Budget :=
  mkBudget (b_memoryGb budget - sign * memoryGb usage)
    (fold_left (λ gs kv, take_gpu kv.1 (sign * kv.2) gs) (gpus usage) (b_gpus budget))
    (b_ports budget) (b_definitions budget).

(** A restart's old claims on one node and its new claims placed there so far. *)
Record Floor : Type := mkFloor {
  f_floor : ClaimUsage;
  f_keys : list string;
  f_placed : ClaimUsage;
}.

Definition grows (growth freeGb : Z) : bool := growth <=? freeGb.

Definition freshFits (budget : Budget) (needs : Needs) (gpuKeys : list string) : bool :=
  let shared := Z.of_nat (unifiedCount budget gpuKeys) in
  negb (b_memoryGb budget <? n_memoryGb needs + shared * n_vramGb needs)
  && forallb (λ key,
       match find_gpu key (b_gpus budget) with
       | Some gpu => negb (negb (gb_unified gpu) && (gb_freeGb gpu <? n_vramGb needs))
       | None => true
       end) gpuKeys.

Definition overFits (budget : Budget) (needs : Needs) (gpuKeys : list string) (floor : Floor) : bool :=
  let take := overlapGrowth (f_floor floor) (f_placed floor) (usageOf budget needs gpuKeys) in
  grows (memoryGb take) (b_memoryGb budget)
  && forallb (λ kv,
       negb (bool_decide (kv.1 ∈ gpuKeys))
       || match find_gpu kv.1 (b_gpus budget) with
          | Some gpu => grows kv.2 (gb_freeGb gpu)
          | None => true
          end) (gpus take).

(** ** The GPU search *)

Definition GPU_SETS_MAX : nat := 4096.

(** The rightmost position that is not at its last value, [while (at >= 0 && ...) at--]; the
    argument is [at + 1]. *)
Fixpoint movable (n count : nat) (indices : list nat) (at1 : nat) : option nat :=
  match at1 with
  | O => None
  | S at_ =>
      if bool_decide (indices !! at_ = Some (n - count + at_)%nat) then movable n count indices at_ else Some at_
  end.

(** The next set of positions in lexicographic order. *)
Definition next_indices (n : nat) (indices : list nat) : option (list nat) :=
  let count := length indices in
  match movable n count indices count with
  | None => None
  | Some at_ => Some (take at_ indices ++ seq (S (nth at_ indices O)) (count - at_))
  end.

Section Search.
Context {A : Type} (feasible : list A → bool).

(** The sets of one vendor's GPUs; [tries] is [GPU_SETS_MAX - tried]. *)
Fixpoint search_sets (tries : nat) (same : list A) (indices : list nat) : option (list A) :=
  match tries with
  | O => None
  | S tries' =>
      let picked := omap (λ i, same !! i) indices in
      if feasible picked then Some picked
      else match next_indices (length same) indices with
           | None => None
           | Some indices' => search_sets tries' same indices'
           end
  end.

Context (vendor : A → GpuVendor).

(** [new Set(xs)] in insertion order. *)
Fixpoint distinct_vendors (seen : list GpuVendor) (vs : list GpuVendor) : list GpuVendor :=
  match vs with
  | [] => []
  | v :: vs' => if bool_decide (v ∈ seen) then distinct_vendors seen vs' else v :: distinct_vendors (v :: seen) vs'
  end.

Fixpoint search_vendors (sorted : list A) (count : nat) (vendors : list GpuVendor) : option (list A) :=
  match vendors with
  | [] => None
  | v :: vendors' =>
      let same := List.filter (λ g, bool_decide (vendor g = v)) sorted in
      if (length same <? count)%nat then search_vendors sorted count vendors'
      else match search_sets GPU_SETS_MAX same (seq 0 count) with
           | Some picked => Some picked
           | None => search_vendors sorted count vendors'
           end
  end.

Definition oneVendorFeasible (sorted : list A) (count : nat) : option (list A) :=
  search_vendors sorted count (distinct_vendors [] (map vendor sorted)).
End Search.

Definition vendor_allowed (needs : Needs) (gpu : GpuBudget) : bool :=
  match n_vendor needs with None => true | Some v => bool_decide (gb_vendor gpu = v) end.

Definition pickGpus (budget : Budget) (needs : Needs) : option (list string) :=
  if (n_gpuCount needs =? 0)%nat then Some []
  else
    let free gpu := gpuFreeGb budget gpu (n_memoryGb needs) in
    let fitting := sort_by (λ a b, num_or (free a - free b) (compareCodePoints (gb_key a) (gb_key b)))
                     (List.filter (λ g, vendor_allowed needs g && (n_vramGb needs <=? free g)) (b_gpus budget)) in
    option_map (map gb_key) (oneVendorFeasible (λ picked, freshFits budget needs (map gb_key picked)) gb_vendor fitting (n_gpuCount needs)).

Definition pickGpusOver (budget : Budget) (needs : Needs) (floor : Floor) : option (list string) :=
  if (n_gpuCount needs =? 0)%nat then Some []
  else
    let growth gpu :=
      if gb_unified gpu
      then memoryGb (overlapGrowth (f_floor floor) (f_placed floor) (mkUsage (n_memoryGb needs + n_vramGb needs) []))
      else gpu_at (gb_key gpu) (gpus (overlapGrowth (f_floor floor) (f_placed floor) (mkUsage 0 [(gb_key gpu, n_vramGb needs)]))) in
    let room gpu := if gb_unified gpu then b_memoryGb budget else gb_freeGb gpu in
    let left gpu := room gpu - growth gpu in
    let holds gpu := if bool_decide (gb_key gpu ∈ f_keys floor) then 1 else 0 in
    let fitting := sort_by (λ a b, num_or (holds b - holds a) (num_or (left a - left b) (compareCodePoints (gb_key a) (gb_key b))))
                     (List.filter (λ g, vendor_allowed needs g && grows (growth g) (room g)) (b_gpus budget)) in
    option_map (map gb_key) (oneVendorFeasible (λ picked, overFits budget needs (map gb_key picked) floor) gb_vendor fitting (n_gpuCount needs)).

(** ** Ports *)

Record RankPort : Type := mkPort { p_fixed : option Z; p_kept : option Z }.

Definition inRange (port : Z) (range : Z * Z) : bool := (range.1 <=? port) && (port <=? range.2).

Definition freePort (budget : Budget) (portRange : Z * Z) (wanted : RankPort) : option Z :=
  match p_fixed wanted with
  | Some fixed => if port_has fixed (b_ports budget) then None else Some fixed
  | None =>
      let lowest := List.find (λ port, negb (port_has port (b_ports budget)))
                      (seqZ portRange.1 (portRange.2 - portRange.1 + 1)) in
      match p_kept wanted with
      | Some kept => if inRange kept portRange && negb (port_has kept (b_ports budget)) then Some kept else lowest
      | None => lowest
      end
  end.

(** ** Fit *)

Inductive FitReason : Type := not_enough_memory | definition_slots_full | port_in_use | no_free_ports.
#[export] Instance FitReason_eq : EqDecision FitReason.
Proof. solve_decision. Defined.

Inductive Fit : Type :=
  | FitOk (port : Z) (gpuKeys : list string) (needs : Needs) (take : ClaimUsage)
  | FitRefused (reason : FitReason).

(** The port of a claim that fits, 0 for a reservation. *)
Definition fit_port (budget : Budget) (portRange : Z * Z) (wanted : RankPort) (needsPort : bool)
  (gpuKeys : list string) (needs : Needs) (take : ClaimUsage) : Fit :=
  if negb needsPort then FitOk 0 gpuKeys needs take
  else match freePort budget portRange wanted with
       | None => FitRefused (match p_fixed wanted with None => no_free_ports | Some _ => port_in_use end)
       | Some port => FitOk port gpuKeys needs take
       end.

Definition fitFresh (portRange : Z * Z) (budget : Budget) (needs : Needs) (wanted : RankPort) (needsPort : bool) : Fit :=
  if b_memoryGb budget <? n_memoryGb needs then FitRefused not_enough_memory
  else match (if (n_gpuCount needs =? 0)%nat then Some [] else pickGpus budget needs) with
       | None => FitRefused not_enough_memory
       | Some gpuKeys =>
           if negb (freshFits budget needs gpuKeys) then FitRefused not_enough_memory
           else fit_port budget portRange wanted needsPort gpuKeys needs (usageOf budget needs gpuKeys)
       end.

Definition fitOver (portRange : Z * Z) (budget : Budget) (needs : Needs) (wanted : RankPort) (needsPort : bool)
  (floor : Floor) : Fit :=
  match (if (n_gpuCount needs =? 0)%nat then Some [] else pickGpusOver budget needs floor) with
  | None => FitRefused not_enough_memory
  | Some gpuKeys =>
      if negb (overFits budget needs gpuKeys floor) then FitRefused not_enough_memory
      else fit_port budget portRange wanted needsPort gpuKeys needs
             (overlapGrowth (f_floor floor) (f_placed floor) (usageOf budget needs gpuKeys))
  end.

Definition vendorTrials (budget : Budget) (needs : Needs) : list Needs :=
  if bool_decide (n_vendor needs ≠ None) || (n_gpuCount needs =? 0)%nat then [needs]
  else
    let vendors := sort_by (λ a b, compareCodePoints (vendor_name a) (vendor_name b))
                     (distinct_vendors [] (map gb_vendor (b_gpus budget))) in
    needs :: map (λ v, mkNeeds (n_memoryGb needs) (n_gpuCount needs) (n_vramGb needs) (Some v)) vendors.

(** The loop of [fit] over the trials; ports do not depend on the vendor. *)
Fixpoint fit_trials (one : Needs → Fit) (refused : Fit) (trials : list Needs) : Fit :=
  match trials with
  | [] => refused
  | needs :: trials' =>
      match one needs with
      | FitRefused not_enough_memory => fit_trials one (FitRefused not_enough_memory) trials'
      | fitted => fitted
      end
  end.

Definition fit (portRange : Z * Z) (budget : Budget) (resources : option RuntimeResource) (wanted : RankPort)
  (needsPort : bool) (floor : option Floor) : Fit :=
  fit_trials (λ needs, match floor with
                       | Some f => fitOver portRange budget needs wanted needsPort f
                       | None => fitFresh portRange budget needs wanted needsPort
                       end)
    (FitRefused not_enough_memory) (vendorTrials budget (resourceNeeds resources)).
