(* ===== verification/PlacementSearch.v ===== *)
(** * PlacementSearch: the GPU sets in lexicographic order

    [oneVendorFeasible] walks sets of positions in place. This file shows the walk is the search
    of the first feasible set among the first [GPU_SETS_MAX] combinations of the vendor's GPUs. *)
From Stdlib Require Import ssreflect.
From S2P Require Import Prelude ClaimOverlap PlacementFit.

(** The combinations of [k] elements, in the order of their positions. *)
Fixpoint combinations {A} (k : nat) (l : list A) : list (list A) :=
  match k, l with
  | O, _ => [[]]
  | S _, [] => []
  | S k', x :: l' => map (cons x) (combinations k' l') ++ combinations (S k') l'
  end.

Lemma combinations_0 {A} (l : list A) : combinations 0 l = [[]].
Proof. by destruct l. Qed.

Lemma combinations_length {A} k (l c : list A) : In c (combinations k l) → length c = k.
Proof.
  revert k c. induction l as [|x l IH]; intros [|k] c; cbn; try by intros [<-|[]]. { done. }
  intros [(d & <- & Hd)%in_map_iff|Hc]%in_app_iff; [cbn; f_equal; by apply IH|by apply IH].
Qed.

Lemma combinations_short {A} k (l : list A) : (length l < k)%nat → combinations k l = [].
Proof.
  revert k. induction l as [|x l IH]; intros [|k]; cbn; try lia; [done|]. intros Hlt. rewrite !IH; [lia|lia|done].
Qed.

Lemma combinations_sublist {A} k (l c : list A) : In c (combinations k l) ↔ c `sublist_of` l ∧ length c = k.
Proof.
  split.
  - intros Hc. split; [|by eapply combinations_length]. revert k c Hc.
    induction l as [|x l IH]; intros [|k] c; cbn; try (intros [<-|[]]; apply sublist_nil_l). { done. }
    intros [(d & <- & Hd)%in_map_iff|Hc]%in_app_iff; [apply sublist_skip|apply sublist_cons]; by eapply IH.
  - intros [Hs <-]. induction Hs as [|x c l Hs IH|x c l Hs IH]; cbn; [by left|apply in_app_iff; left; by apply in_map|].
    destruct c as [|y c]; [by left|]. cbn. apply in_app_iff. by right.
Qed.

(** How many there are. *)
Fixpoint choose (n k : nat) : nat :=
  match k, n with
  | O, _ => 1
  | S _, O => 0
  | S k', S n' => choose n' k' + choose n' (S k')
  end.

Lemma combinations_choose {A} k (l : list A) : length (combinations k l) = choose (length l) k.
Proof.
  revert k. induction l as [|x l IH]; intros [|k]; cbn; try done. by rewrite length_app length_map !IH.
Qed.

Lemma choose_0 n : choose n 0 = 1%nat.
Proof. by destruct n. Qed.

Lemma choose_mono n m k : (n ≤ m)%nat → (choose n k ≤ choose m k)%nat.
Proof.
  intros Hle. induction Hle as [|m Hle IH]; [done|]. destruct k as [|k]; [by rewrite !choose_0|]. cbn. lia.
Qed.

Lemma lookup_map {A B} (f : A → B) l i : map f l !! i = f <$> (l !! i).
Proof. exact (list_lookup_fmap f l i). Qed.

(** ** The next set *)

Fixpoint next_rec (n : nat) (l : list nat) : option (list nat) :=
  match l with
  | [] => None
  | i :: rest =>
      match next_rec n rest with
      | Some rest' => Some (i :: rest')
      | None => if (i =? n - length l)%nat then None else Some (seq (S i) (length l))
      end
  end.

Lemma movable_cons n c i rest at1 :
  (S c ≤ n)%nat →
  movable n (S c) (i :: rest) (S at1) =
  match movable n c rest at1 with
  | Some p => Some (S p)
  | None => if (i =? n - S c)%nat then None else Some O
  end.
Proof.
  intros Hn. induction at1 as [|at1 IH].
  - cbn. rewrite Nat.add_0_r. case_bool_decide as H; [injection H as ->; by rewrite Nat.eqb_refl|].
    destruct (Nat.eqb_spec i (n - S c)); [congruence|done].
  - change (movable n (S c) (i :: rest) (S (S at1))) with
      (if bool_decide ((i :: rest) !! S at1 = Some (n - S c + S at1)%nat) then movable n (S c) (i :: rest) (S at1) else Some (S at1)).
    change (movable n c rest (S at1)) with
      (if bool_decide (rest !! at1 = Some (n - c + at1)%nat) then movable n c rest at1 else Some at1).
    have -> : (i :: rest) !! S at1 = rest !! at1 by done.
    have -> : (n - S c + S at1 = n - c + at1)%nat by lia. by case_bool_decide.
Qed.

Lemma next_indices_rec n l : (length l ≤ n)%nat → next_indices n l = next_rec n l.
Proof.
  rewrite /next_indices. induction l as [|i rest IH]; intros Hn; [done|]. cbn [length] in Hn |- *.
  rewrite movable_cons //. have {}IH := IH ltac:(lia). cbn [next_rec length]. rewrite -IH.
  destruct (movable n (length rest) rest (length rest)) as [p|]; [done|]. by destruct (i =? n - S (length rest))%nat.
Qed.

(** Each entry's successor is the next entry; the last one has none. *)
Definition chain (n : nat) (L : list (list nat)) : Prop := ∀ j x, L !! j = Some x → next_rec n x = L !! S j.

Lemma combinations_head k lo len : (k ≤ len)%nat → combinations k (seq lo len) !! O = Some (seq lo k).
Proof.
  revert k lo. induction len as [|len IH]; intros [|k] lo Hk; cbn; try done; [lia|].
  have := IH k (S lo) ltac:(lia). destruct (combinations k (seq (S lo) len)) as [|x l]; [done|]. cbn. by intros [= ->].
Qed.

Lemma combinations_chain k lo len : (k ≤ len)%nat → chain (lo + len) (combinations k (seq lo len)).
Proof.
  revert k lo. induction len as [|len IH]; intros [|k] lo Hk j x.
  1, 3: by rewrite combinations_0; destruct j as [|j]; [intros [= <-]|].
  { lia. }
  cbn [seq combinations]. set L1 := combinations k (seq (S lo) len). set L2 := combinations (S k) (seq (S lo) len).
  have Hn : (lo + S len = S lo + len)%nat by lia. rewrite Hn.
  intros [Hj|[Hge Hj]]%lookup_app_Some.
  - rewrite lookup_map in Hj. apply fmap_Some in Hj as (y & Hy & ->).
    have Hc := IH k (S lo) ltac:(lia) j y Hy. have Hyl : length y = k.
    { eapply combinations_length. apply list_elem_of_In. by eapply list_elem_of_lookup_2. }
    cbn [next_rec length]. rewrite Hc Hyl. fold L1. destruct (L1 !! S j) as [z|] eqn:Hz.
    + rewrite lookup_app_l; [rewrite length_map; by eapply lookup_lt_Some|]. by rewrite lookup_map Hz.
    + have Hlast : S j = length (map (cons lo) L1).
      { rewrite length_map. apply lookup_lt_Some in Hy. apply lookup_ge_None in Hz. fold L1 in Hy. lia. }
      rewrite lookup_app_r; [lia|]. rewrite Hlast Nat.sub_diag.
      destruct (Nat.eqb_spec lo (S lo + len - S k)) as [Heq|Hne].
      * by rewrite /L2 combinations_short // length_seq; lia.
      * by rewrite /L2 combinations_head; [lia|].
  - rewrite length_map in Hge, Hj. destruct (decide (S k ≤ len)%nat) as [Hle|Hgt].
    + rewrite (IH (S k) (S lo) Hle _ _ Hj). rewrite lookup_app_r length_map; [lia|]. f_equal. fold L1. lia.
    + rewrite /L2 combinations_short in Hj; [rewrite length_seq; lia|done].
Qed.

(** ** The walk is a search of the combinations *)

Lemma combinations_omap {A} (same : list A) k idxs ys :
  Forall2 (λ i y, same !! i = Some y) idxs ys →
  map (omap (λ i, same !! i)) (combinations k idxs) = combinations k ys.
Proof.
  intros H. revert k. induction H as [|i y idxs ys Hi H IH]; intros [|k]; cbn; try done.
  rewrite map_app !map_map (IH (S k)) -(IH k) map_map. f_equal. apply map_ext => c. cbn. by rewrite Hi.
Qed.

Lemma search_sets_chain {A} (feasible : list A → bool) (same : list A) tries L j x :
  (∀ y, In y L → (length y ≤ length same)%nat) → chain (length same) L → L !! j = Some x →
  search_sets feasible tries same x = List.find feasible (take tries (drop j (map (omap (λ i, same !! i)) L))).
Proof.
  intros Hlen Hch. revert j x. induction tries as [|tries IH]; intros j x Hj; cbn; [done|].
  have Hdrop : drop j (map (omap (λ i, same !! i)) L) = omap (λ i, same !! i) x :: drop (S j) (map (omap (λ i, same !! i)) L).
  { apply drop_S. by rewrite lookup_map Hj. }
  rewrite Hdrop /=. destruct (feasible _); [done|].
  rewrite next_indices_rec; [apply Hlen, list_elem_of_In; by eapply list_elem_of_lookup_2|]. rewrite (Hch _ _ Hj).
  destruct (L !! S j) as [y|] eqn:Hy; [by apply IH|]. rewrite drop_ge; [rewrite length_map; by apply lookup_ge_None|].
  by rewrite take_nil.
Qed.

Lemma search_sets_reference {A} (feasible : list A → bool) (same : list A) tries count :
  (count ≤ length same)%nat →
  search_sets feasible tries same (seq 0 count) = List.find feasible (take tries (combinations count same)).
Proof.
  intros Hc. rewrite (search_sets_chain feasible same tries (combinations count (seq 0 (length same))) 0).
  - intros y Hy. apply combinations_length in Hy as ->. done.
  - by apply combinations_chain.
  - by apply combinations_head.
  - rewrite drop_0. do 2 f_equal. apply combinations_omap, Forall2_same_length_lookup_2; [by rewrite length_seq|].
    intros i x y Hx%lookup_seq Hy. destruct Hx as [-> _]. done.
Qed.
