(* ===== verification/PlacementFitSafety.v ===== *)
(** * PlacementFitSafety: a fit is right

    What [fit] promises the planner: a claim that fits takes nothing a node does not have, on one
    vendor's GPUs, with a free port ([fit_within_budget]); a claim refused for memory has no GPU
    set that would fit ([fit_refusal_exact]); taking a claim and giving it back restores the
    budget ([usage_round_trip]). *)
From Stdlib Require Import ssreflect.
From S2P Require Import Prelude ClaimOverlap PlacementFit PlacementSearch.

(** ** Budgets *)

Definition budget_ok (b : Budget) : Prop := NoDup (map gb_key (b_gpus b)).

Record needs_ok (n : Needs) : Prop := { no_memory : 0 ≤ n_memoryGb n; no_vram : 0 ≤ n_vramGb n }.

Lemma find_gpu_In b g : budget_ok b → In g (b_gpus b) → find_gpu (gb_key g) (b_gpus b) = Some g.
Proof.
  intros Hb Hg. rewrite /find_gpu find_head_filter (filter_ext _ (λ x, bool_decide (gb_key x = gb_key g))) //.
  by rewrite (filter_unique gb_key).
Qed.

Lemma find_gpu_Some b key g : find_gpu key (b_gpus b) = Some g → In g (b_gpus b) ∧ gb_key g = key.
Proof. rewrite /find_gpu. intros [? H]%List.find_some. by bool_to_prop. Qed.

(** A GPU less what a usage takes on it. *)
Definition gpu_less (sign : Z) (u : jsmap string Z) (g : GpuBudget) : GpuBudget :=
  mkGpu (gb_key g) (gb_vendor g) (gb_freeGb g - sign * gpu_at (gb_key g) u) (gb_unified g).

Lemma take_gpu_map key gb gs :
  NoDup (map gb_key gs) →
  take_gpu key gb gs = map (λ g, mkGpu (gb_key g) (gb_vendor g) (gb_freeGb g - if bool_decide (gb_key g = key) then gb else 0) (gb_unified g)) gs.
Proof.
  induction gs as [|g gs IH]; cbn; [done|]. intros [Hg Hnd]%NoDup_cons. case_bool_decide as Hk.
  - f_equal. rewrite -{1}(map_id gs). apply map_ext_in => x Hx. rewrite bool_decide_eq_false_2; [|rewrite Z.sub_0_r; by destruct x].
    intros Hxk. apply Hg. rewrite Hk -Hxk. by apply list_elem_of_In, in_map.
  - rewrite IH // Z.sub_0_r. f_equal. by destruct g.
Qed.

Lemma apply_gpus sign u gs :
  NoDup (map gb_key gs) → NoDup (map_keys u) →
  fold_left (λ gs kv, take_gpu kv.1 (sign * kv.2) gs) u gs = map (gpu_less sign u) gs.
Proof.
  revert gs. induction u as [|[k v] u IH]; intros gs Hgs Hu; cbn.
  - rewrite -{1}(map_id gs). apply map_ext => g. rewrite /gpu_less /gpu_at /= Z.mul_0_r Z.sub_0_r. by destruct g.
  - cbn in Hu. apply NoDup_cons in Hu as [Hk Hu]. rewrite take_gpu_map // IH; [by rewrite map_map|done|].
    rewrite map_map. apply map_ext => g. rewrite /gpu_less /=. f_equal. rewrite gpu_at_cons.
    case_bool_decide as H1; case_bool_decide as H2; try congruence; [|lia].
    have -> : gpu_at (gb_key g) u = 0; [|lia]. rewrite /gpu_at H1. destruct (map_get k u) eqn:E; [|done].
    destruct Hk. by apply map_get_keys; rewrite E.
Qed.

(** Taking a claim and giving it back restores the budget exactly. *)
Theorem usage_round_trip b u :
  budget_ok b → NoDup (map_keys (gpus u)) →
  applyUsage (applyUsage b u 1) u (-1) = b ∧ applyUsage (applyUsage b u (-1)) u 1 = b.
Proof.
  intros Hb Hu. have Hkeys : ∀ sign, NoDup (map gb_key (map (gpu_less sign (gpus u)) (b_gpus b))) by intros; rewrite map_map.
  have Hback : ∀ s s', s' = - s → map (gpu_less s' (gpus u)) (map (gpu_less s (gpus u)) (b_gpus b)) = b_gpus b.
  { intros s s' ->. rewrite map_map -{2}(map_id (b_gpus b)). apply map_ext => g. rewrite /gpu_less /=. destruct g as [k v f un]. f_equal. cbn. lia. }
  rewrite /applyUsage /=. destruct b as [mem gs ports defs]. cbn in *. rewrite !(apply_gpus _ _ gs) // !apply_gpus //.
  rewrite !Hback //. split; f_equal; lia.
Qed.

(** ** What a claim takes *)

Definition unified_key (b : Budget) (key : string) : bool :=
  match find_gpu key (b_gpus b) with Some g => gb_unified g | None => false end.

Definition dedicated_key (b : Budget) (key : string) : bool :=
  match find_gpu key (b_gpus b) with Some g => negb (gb_unified g) | None => false end.

Lemma usage_fold b needs keys acc :
  NoDup keys → (∀ k, k ∈ keys → gpu_at k (gpus acc) = 0) →
  let u := fold_left (λ acc key,
    match find_gpu key (b_gpus b) with
    | None => acc
    | Some gpu =>
        if gb_unified gpu then mkUsage (memoryGb acc + n_vramGb needs) (gpus acc)
        else mkUsage (memoryGb acc) (map_set key (gpu_at key (gpus acc) + n_vramGb needs) (gpus acc))
    end) keys acc in
  memoryGb u = memoryGb acc + Z.of_nat (length (List.filter (unified_key b) keys)) * n_vramGb needs
  ∧ (∀ k, gpu_at k (gpus u) = if bool_decide (k ∈ keys) && dedicated_key b k then n_vramGb needs else gpu_at k (gpus acc))
  ∧ (NoDup (map_keys (gpus acc)) → NoDup (map_keys (gpus u))).
Proof.
  revert acc. induction keys as [|key keys IH]; intros acc Hnd Hz; cbn zeta; cbn [fold_left].
  { cbn. split; [lia|]. split; [done|done]. }
  apply NoDup_cons in Hnd as [Hkey Hnd]. set acc' := match find_gpu key _ with Some _ => _ | None => _ end.
  have Hacc : ∀ k, gpu_at k (gpus acc') = if bool_decide (k = key) && dedicated_key b key then n_vramGb needs else gpu_at k (gpus acc).
  { intros k. rewrite /acc' /dedicated_key. destruct (find_gpu key _) as [g|]; [|by rewrite andb_false_r].
    destruct (gb_unified g); cbn; [by rewrite andb_false_r|]. rewrite gpu_at_set andb_true_r.
    case_bool_decide as H1; case_bool_decide as H2; try congruence. rewrite Hz; [by left|lia]. }
  destruct (IH acc' Hnd) as (Hm & Hg & Hn).
  { intros k Hk. rewrite Hacc bool_decide_eq_false_2; [by intros ->|]. apply Hz. by right. }
  split; [|split].
  - rewrite Hm /acc' /unified_key /=. destruct (find_gpu key _) as [g|]; [|done]. destruct (gb_unified g); cbn [memoryGb length]; lia.
  - intros k. rewrite Hg Hacc. destruct (bool_decide (k = key)) eqn:Ek.
    + bool_to_prop. subst k. rewrite (bool_decide_eq_false_2 (key ∈ keys)) // (bool_decide_eq_true_2 (key ∈ key :: keys)); [by left|].
      done.
    + bool_to_prop. rewrite (bool_decide_ext (k ∈ key :: keys) (k ∈ keys)); [rewrite elem_of_cons; naive_solver|]. done.
  - intros Ha. apply Hn. rewrite /acc'. destruct (find_gpu key _) as [g|]; [|done]. destruct (gb_unified g); [done|].
    by apply map_set_NoDup.
Qed.

Lemma unifiedCount_keys b keys :
  budget_ok b → NoDup keys → unifiedCount b keys = length (List.filter (unified_key b) keys).
Proof.
  intros Hb Hk. rewrite /unifiedCount -(length_map gb_key). apply Permutation_length, NoDup_Permutation.
  - by apply NoDup_map_filter.
  - by apply NoDup_filter_bool.
  - intros k. rewrite !list_elem_of_In in_map_iff filter_In. split.
    + intros (g & <- & [Hg [Hu Hin]%andb_true_iff]%filter_In). bool_to_prop. split; [by apply list_elem_of_In|].
      by rewrite /unified_key (find_gpu_In b).
    + intros [Hin Hu]. move: Hu. rewrite /unified_key. destruct (find_gpu k _) as [g|] eqn:E; [|done]. intros Hu.
      apply find_gpu_Some in E as [Hg <-]. exists g. split; [done|]. apply filter_In. split; [done|].
      rewrite Hu. apply bool_decide_eq_true_2. by apply list_elem_of_In.
Qed.

Section Usage.
Context (b : Budget) (needs : Needs) (keys : list string).
Context (Hb : budget_ok b) (Hn : needs_ok needs) (Hk : NoDup keys).

Lemma usageOf_memory :
  memoryGb (usageOf b needs keys) = n_memoryGb needs + Z.of_nat (unifiedCount b keys) * n_vramGb needs.
Proof. destruct (usage_fold b needs keys (mkUsage (n_memoryGb needs) []) Hk) as (H & _); [done|]. by rewrite unifiedCount_keys. Qed.

Lemma usageOf_gpu k :
  gpu_at k (gpus (usageOf b needs keys)) = if bool_decide (k ∈ keys) && dedicated_key b k then n_vramGb needs else 0.
Proof. by destruct (usage_fold b needs keys (mkUsage (n_memoryGb needs) []) Hk) as (_ & H & _). Qed.

Lemma usageOf_ok : usage_ok (usageOf b needs keys).
Proof.
  split.
  - destruct (usage_fold b needs keys (mkUsage (n_memoryGb needs) []) Hk) as (_ & _ & H); [done|]. apply H. constructor.
  - rewrite usageOf_memory. have := no_memory _ Hn. have := no_vram _ Hn. nia.
  - intros k. rewrite usageOf_gpu. have := no_vram _ Hn. destruct (_ && _); lia.
Qed.
End Usage.

(** ** The search *)

Lemma distinct_vendors_In seen vs v : In v (distinct_vendors seen vs) ↔ In v vs ∧ v ∉ seen.
Proof.
  revert seen. induction vs as [|w vs IH]; intros seen; cbn; [tauto|]. case_bool_decide as Hw; cbn; rewrite IH.
  - split; [tauto|]. intros [[->|?] ?]; [done|done].
  - rewrite not_elem_of_cons. destruct (decide (v = w)) as [->|]; naive_solver.
Qed.

Section SearchSpec.
Context {A : Type} (feasible : list A → bool) (vendor : A → GpuVendor).

(** The first [GPU_SETS_MAX] sets of the GPUs of one vendor. *)
Definition sets_of (sorted : list A) (count : nat) (v : GpuVendor) : list (list A) :=
  take GPU_SETS_MAX (combinations count (List.filter (λ g, bool_decide (vendor g = v)) sorted)).

Lemma search_vendors_spec sorted count vendors :
  match search_vendors feasible vendor sorted count vendors with
  | Some picked => feasible picked = true ∧ ∃ v, In picked (sets_of sorted count v)
  | None => ∀ v c, In v vendors → In c (sets_of sorted count v) → feasible c = false
  end.
Proof.
  induction vendors as [|v vendors IH]; cbn [search_vendors]; [done|]. destruct (Nat.ltb_spec (length (List.filter (λ g, bool_decide (vendor g = v)) sorted)) count) as [Hlt|Hge].
  - move: IH. destruct (search_vendors _ _ _ _ _) as [picked|]; [done|]. intros IH v' c [<-|Hv] Hc; [|by eapply IH].
    rewrite /sets_of combinations_short // take_nil in Hc.
  - rewrite search_sets_reference //. fold (sets_of sorted count v). destruct (List.find _ _) as [picked|] eqn:Hf.
    + apply List.find_some in Hf as [Hin Hok]. split; [done|]. by exists v.
    + move: IH. destruct (search_vendors _ _ _ _ _) as [picked|]; [done|]. intros IH v' c [<-|Hv] Hc; [|by eapply IH].
      by eapply List.find_none.
Qed.

Lemma oneVendorFeasible_Some sorted count picked :
  oneVendorFeasible feasible vendor sorted count = Some picked →
  feasible picked = true ∧ length picked = count ∧ picked `sublist_of` sorted ∧
  ∃ v, ∀ g, In g picked → vendor g = v.
Proof.
  rewrite /oneVendorFeasible. intros H. have := search_vendors_spec sorted count (distinct_vendors [] (map vendor sorted)).
  rewrite H. intros [Hf (v & Hin)]. split; [done|].
  have {}Hin : In picked (combinations count (List.filter (λ g, bool_decide (vendor g = v)) sorted)).
  { apply list_elem_of_In in Hin. apply elem_of_take in Hin as (i & Hi & _). apply list_elem_of_In. by eapply list_elem_of_lookup_2. }
  apply combinations_sublist in Hin as [Hs Hlen]. split; [done|]. split.
  - etrans; [exact Hs|]. clear. induction sorted as [|g l IH]; cbn; [constructor|]. case_bool_decide; by constructor.
  - exists v. intros g Hg. have : In g (List.filter (λ g, bool_decide (vendor g = v)) sorted).
    { apply list_elem_of_In. eapply elem_of_sublist; [|exact Hs]. by apply list_elem_of_In. }
    intros [_ ?]%filter_In. by bool_to_prop.
Qed.

(** Refused only after every set of every vendor, when there are few enough to try. *)
Lemma oneVendorFeasible_None sorted count v c :
  oneVendorFeasible feasible vendor sorted count = None → (0 < count)%nat →
  (choose (length (List.filter (λ g, bool_decide (vendor g = v)) sorted)) count ≤ GPU_SETS_MAX)%nat →
  c `sublist_of` sorted → length c = count → (∀ g, In g c → vendor g = v) → feasible c = false.
Proof.
  rewrite /oneVendorFeasible. intros H Hpos Hfew Hs Hlen Hv.
  have := search_vendors_spec sorted count (distinct_vendors [] (map vendor sorted)). rewrite H => Hno.
  apply (Hno v c).
  - destruct c as [|g c]; [cbn in Hlen; lia|]. apply distinct_vendors_In. split; [|by apply not_elem_of_nil].
    rewrite -(Hv g); [by left|]. apply in_map, list_elem_of_In. eapply elem_of_sublist; [|exact Hs]. by left.
  - rewrite /sets_of take_ge; [by rewrite combinations_choose|]. apply combinations_sublist. split; [|done].
    have <- : List.filter (λ g, bool_decide (vendor g = v)) c = c.
    { clear -Hv. induction c as [|g c IH]; cbn; [done|]. rewrite Hv; [by left|]. rewrite bool_decide_eq_true_2 //. f_equal. apply IH.
      intros; apply Hv. by right. }
    clear -Hs. induction Hs as [|x l1 l2 Hs IH|x l1 l2 Hs IH]; cbn; [constructor|case_bool_decide; [by constructor|done]|].
    case_bool_decide; [by constructor|done].
Qed.
End SearchSpec.

(** ** Fits stay within the budget *)

Definition one_vendor (b : Budget) (needs : Needs) (keys : list string) : Prop :=
  ∃ v, ∀ k, k ∈ keys → ∃ g, In g (b_gpus b) ∧ gb_key g = k ∧ gb_vendor g = v ∧ vendor_allowed needs g = true.

(** After the claim is taken the node's memory is not negative, nor is any dedicated GPU it
    uses, and the GPUs it does not use are as they were. *)
Definition within (b : Budget) (keys : list string) (take : ClaimUsage) : Prop :=
  let b' := applyUsage b take 1 in
  0 ≤ b_memoryGb b' ∧
  ∀ g, In g (b_gpus b') → if bool_decide (gb_key g ∈ keys) then gb_unified g = false → 0 ≤ gb_freeGb g else In g (b_gpus b).

Lemma within_intro b keys take :
  budget_ok b → usage_ok take → memoryGb take ≤ b_memoryGb b →
  (∀ g, In g (b_gpus b) → gb_key g ∈ keys → gb_unified g = false → gpu_at (gb_key g) (gpus take) ≤ gb_freeGb g) →
  (∀ k, k ∉ keys → gpu_at k (gpus take) = 0) →
  within b keys take.
Proof.
  intros Hb Hu Hm Hg Ho. rewrite /within /applyUsage /= apply_gpus //; [apply Hu|]. split; [lia|].
  intros g (g0 & <- & Hin)%in_map_iff. rewrite /gpu_less /=. case_bool_decide as Hk.
  - intros Hun. have := Hg g0 Hin Hk Hun. lia.
  - rewrite Ho // Z.mul_0_r Z.sub_0_r. by destruct g0.
Qed.

Lemma fresh_within b needs keys :
  budget_ok b → needs_ok needs → NoDup keys → freshFits b needs keys = true → within b keys (usageOf b needs keys).
Proof.
  intros Hb Hn Hk Hf. rewrite /freshFits in Hf. apply andb_true_iff in Hf as [Hm Hg]. apply negb_true_iff, Z.ltb_ge in Hm.
  rewrite forallb_forall in Hg. apply within_intro; [done|by apply usageOf_ok|by rewrite usageOf_memory| |].
  - intros g Hin Hkey Hun. rewrite usageOf_gpu //. rewrite /dedicated_key (find_gpu_In b) // Hun bool_decide_eq_true_2 //=.
    have := Hg (gb_key g). rewrite -list_elem_of_In (find_gpu_In b) // Hun => {}Hg. have := Hg Hkey. cbn. intros ?%negb_true_iff%Z.ltb_ge. done.
  - intros k Hno. by rewrite usageOf_gpu // bool_decide_eq_false_2.
Qed.

Lemma merge_has f m m' k : k ∈ map_keys (merge f m m') ↔ k ∈ map_keys m ∨ k ∈ map_keys m'.
Proof.
  rewrite /merge. revert m. induction m' as [|[k0 v] m' IH]; intros m; cbn; [rewrite elem_of_nil; tauto|].
  rewrite IH elem_of_map_keys_set elem_of_cons. tauto.
Qed.

Lemma usage_has b needs keys k :
  k ∈ keys → dedicated_key b k = true → k ∈ map_keys (gpus (usageOf b needs keys)).
Proof.
  rewrite /usageOf. generalize (mkUsage (n_memoryGb needs) []). induction keys as [|key keys IH]; intros acc Hin Hd; [by apply elem_of_nil in Hin|].
  cbn [fold_left].
  have Hkeep : ∀ ks acc, k ∈ map_keys (gpus acc) → k ∈ map_keys (gpus (fold_left (λ acc key,
    match find_gpu key (b_gpus b) with
    | None => acc
    | Some gpu =>
        if gb_unified gpu then mkUsage (memoryGb acc + n_vramGb needs) (gpus acc)
        else mkUsage (memoryGb acc) (map_set key (gpu_at key (gpus acc) + n_vramGb needs) (gpus acc))
    end) ks acc)).
  { clear. induction ks as [|key ks IH]; intros acc Ha; cbn; [done|]. apply IH. destruct (find_gpu key _) as [g|]; [|done].
    destruct (gb_unified g); [done|]. cbn. apply elem_of_map_keys_set. by right. }
  apply elem_of_cons in Hin as [->|Hin]; [|by apply IH]. apply Hkeep. move: Hd. rewrite /dedicated_key.
  destruct (find_gpu key _) as [g|]; [|done]. intros Hd. destruct (gb_unified g); [done|]. cbn. apply elem_of_map_keys_set. by left.
Qed.

Definition floor_ok (f : Floor) : Prop := usage_ok (f_floor f) ∧ usage_ok (f_placed f).

Lemma over_within b needs keys f :
  budget_ok b → needs_ok needs → floor_ok f → NoDup keys → overFits b needs keys f = true →
  within b keys (overlapGrowth (f_floor f) (f_placed f) (usageOf b needs keys)).
Proof.
  intros Hb Hn [Hf Hp] Hk Ho. rewrite /overFits in Ho. apply andb_true_iff in Ho as [Hm Hg].
  have Hu := usageOf_ok b needs keys Hb Hn Hk. have Hgr := growth_ok _ _ _ Hf Hp Hu.
  set take := overlapGrowth _ _ _ in Hm Hg Hgr |- *. rewrite forallb_forall in Hg.
  apply within_intro; [done|done|by apply Z.leb_le| |].
  - intros g Hin Hkey Hun. destruct (map_get (gb_key g) (gpus take)) as [v|] eqn:E.
    + have := Hg (gb_key g, v) (map_get_In _ _ _ E). cbn. rewrite bool_decide_eq_true_2 // (find_gpu_In b) //. cbn.
      intros ?%Z.leb_le. by rewrite /gpu_at E.
    + have : gb_key g ∈ map_keys (gpus take).
      { rewrite /take /overlapGrowth /subtractUsage /maxUsage /= !merge_has. left. left. right.
        apply usage_has; [done|]. by rewrite /dedicated_key (find_gpu_In b) // Hun. }
      rewrite -map_get_keys E. by intros [? ?].
  - intros k Hno. rewrite growth_gpu // usageOf_gpu // bool_decide_eq_false_2 //=. lia.
Qed.

Lemma sublist_map {A B} (f : A → B) l1 l2 : l1 `sublist_of` l2 → map f l1 `sublist_of` map f l2.
Proof. induction 1; cbn; by constructor. Qed.

(** The keys a search picked. *)
Lemma picked_keys b needs feasible cmp p count picked :
  budget_ok b → (∀ g, p g = true → vendor_allowed needs g = true) →
  oneVendorFeasible feasible gb_vendor (sort_by cmp (List.filter p (b_gpus b))) count = Some picked →
  feasible picked = true ∧ NoDup (map gb_key picked) ∧ length (map gb_key picked) = count ∧ one_vendor b needs (map gb_key picked).
Proof.
  intros Hb Hp H. apply oneVendorFeasible_Some in H as (Hf & Hlen & Hs & v & Hv). split; [done|].
  have Hin : ∀ g, In g picked → In g (b_gpus b) ∧ p g = true.
  { intros g Hg. apply filter_In, (sort_by_in cmp), list_elem_of_In. eapply elem_of_sublist; [|exact Hs]. by apply list_elem_of_In. }
  split; [|split; [by rewrite length_map|]].
  - eapply sublist_NoDup; [|exact (sublist_map gb_key _ _ Hs)].
    have -> : map gb_key (sort_by cmp (List.filter p (b_gpus b))) ≡ₚ map gb_key (List.filter p (b_gpus b))
      by apply Permutation_map, sort_by_perm. by apply NoDup_map_filter.
  - exists v. intros k (g & <- & Hg)%list_elem_of_In%in_map_iff. destruct (Hin g Hg). exists g. auto.
Qed.

Definition port_ok (b : Budget) (range : Z * Z) (wanted : RankPort) (port : Z) : Prop :=
  port_has port (b_ports b) = false ∧
  match p_fixed wanted with Some fixed => port = fixed | None => inRange port range = true end.

Lemma freePort_Some b range wanted port : freePort b range wanted = Some port → port_ok b range wanted port.
Proof.
  rewrite /freePort /port_ok. destruct (p_fixed wanted) as [f|].
  { destruct (port_has f _) eqn:E; [done|]. by intros [= <-]. }
  have Hlow : List.find (λ port, negb (port_has port (b_ports b))) (seqZ range.1 (range.2 - range.1 + 1)) = Some port →
    port_has port (b_ports b) = false ∧ inRange port range = true.
  { intros [Hin Hn]%List.find_some. apply negb_true_iff in Hn. split; [done|]. apply list_elem_of_In, elem_of_seqZ in Hin.
    apply andb_true_iff. rewrite !Z.leb_le. lia. }
  destruct (p_kept wanted) as [k|]; [|done]. destruct (inRange k range && _) eqn:E; [|done]. intros [= <-]. split_ands. done.
Qed.

(** The lowest free port of the range, when the wish names none. *)
Lemma freePort_None b range wanted :
  freePort b range wanted = None →
  match p_fixed wanted with
  | Some fixed => port_has fixed (b_ports b) = true
  | None => ∀ port, inRange port range = true → port_has port (b_ports b) = true
  end.
Proof.
  rewrite /freePort. destruct (p_fixed wanted) as [f|]; [by destruct (port_has f _)|].
  intros H port Hr. have Hf : List.find (λ port, negb (port_has port (b_ports b))) (seqZ range.1 (range.2 - range.1 + 1)) = None.
  { destruct (p_kept wanted) as [k|]; [|done]. by destruct (inRange k range && _). }
  have := List.find_none _ _ Hf port. rewrite -list_elem_of_In elem_of_seqZ. move: Hr. rewrite /inRange. intros [?%Z.leb_le ?%Z.leb_le]%andb_true_iff Hn.
  apply negb_false_iff, Hn. lia.
Qed.

Lemma fit_port_ok b range wanted np keys needs take port keys' needs' take' :
  fit_port b range wanted np keys needs take = FitOk port keys' needs' take' →
  keys' = keys ∧ needs' = needs ∧ take' = take ∧ (np = true → port_ok b range wanted port).
Proof.
  rewrite /fit_port. destruct np; cbn; [|by intros [= <- <- <- <-]].
  destruct (freePort b range wanted) eqn:E; [|done]. intros [= <- <- <- <-]. split_and!; try done. intros _. by apply freePort_Some.
Qed.

(** What a fit answers. *)
Definition fits_right (b : Budget) (range : Z * Z) (wanted : RankPort) (np : bool) (needs : Needs) (port : Z)
  (keys : list string) (take : ClaimUsage) : Prop :=
  NoDup keys ∧ length keys = n_gpuCount needs ∧ one_vendor b needs keys ∧ within b keys take
  ∧ (np = true → port_ok b range wanted port).

Lemma no_keys b needs : NoDup (A:=string) [] ∧ one_vendor b needs [].
Proof. split; [constructor|]. exists nvidia. by intros k ?%elem_of_nil. Qed.

Lemma fitFresh_ok range b needs wanted np port keys needs' take :
  budget_ok b → needs_ok needs → fitFresh range b needs wanted np = FitOk port keys needs' take →
  needs' = needs ∧ fits_right b range wanted np needs port keys take.
Proof.
  intros Hb Hn. rewrite /fitFresh. destruct (_ <? _); [done|]. destruct (n_gpuCount needs =? 0)%nat eqn:E0.
  - destruct (freshFits b needs []) eqn:Ef; [|done]. cbn [negb]. intros (-> & -> & -> & Hp)%fit_port_ok. split; [done|].
    destruct (no_keys b needs) as [Hnil Hone]. apply Nat.eqb_eq in E0. split_and!; try done. by apply fresh_within.
  - destruct (pickGpus b needs) as [ks|] eqn:Hpick; [|done]. destruct (freshFits b needs ks) eqn:Ef; [|done]. cbn [negb].
    intros (-> & -> & -> & Hp)%fit_port_ok. split; [done|]. move: Hpick. rewrite /pickGpus E0.
    destruct (oneVendorFeasible _ _ _ _) as [picked|] eqn:Hs; [|done]. intros [= <-].
    apply (picked_keys b needs) in Hs as (_ & Hnd & Hlen & Hone); [|done|by intros g [? _]%andb_true_iff].
    split_and!; try done. by apply fresh_within.
Qed.

Lemma fitOver_ok range b needs wanted np f port keys needs' take :
  budget_ok b → needs_ok needs → floor_ok f → fitOver range b needs wanted np f = FitOk port keys needs' take →
  needs' = needs ∧ fits_right b range wanted np needs port keys take.
Proof.
  intros Hb Hn Hf. rewrite /fitOver. destruct (n_gpuCount needs =? 0)%nat eqn:E0.
  - destruct (overFits b needs [] f) eqn:Ef; [|done]. cbn [negb]. intros (-> & -> & -> & Hp)%fit_port_ok. split; [done|].
    destruct (no_keys b needs) as [Hnil Hone]. apply Nat.eqb_eq in E0. split_and!; try done. by apply over_within.
  - destruct (pickGpusOver b needs f) as [ks|] eqn:Hpick; [|done]. destruct (overFits b needs ks f) eqn:Ef; [|done]. cbn [negb].
    intros (-> & -> & -> & Hp)%fit_port_ok. split; [done|]. move: Hpick. rewrite /pickGpusOver E0.
    destruct (oneVendorFeasible _ _ _ _) as [picked|] eqn:Hs; [|done]. intros [= <-].
    apply (picked_keys b needs) in Hs as (_ & Hnd & Hlen & Hone); [|done|by intros g [? _]%andb_true_iff].
    split_and!; try done. by apply over_within.
Qed.

(** A trial is the claim's needs, the vendor pinned when it named none. *)
Definition trial_of (needs trial : Needs) : Prop :=
  n_memoryGb trial = n_memoryGb needs ∧ n_gpuCount trial = n_gpuCount needs ∧ n_vramGb trial = n_vramGb needs
  ∧ (n_vendor needs = None ∨ n_vendor trial = n_vendor needs).

Lemma vendorTrials_In b needs trial : In trial (vendorTrials b needs) → trial_of needs trial.
Proof.
  rewrite /vendorTrials. case_bool_decide as Hv; cbn [orb].
  { intros [<-|[]]. split_and!; try done. by right. }
  have Hnone : n_vendor needs = None by destruct (n_vendor needs); [destruct Hv|].
  destruct (_ =? _)%nat; [intros [<-|[]]|intros [<-|(v & <- & _)%in_map_iff]]; split_and!; cbn; auto.
Qed.

Lemma fit_trials_ok one refused trials port keys needs take :
  fit_trials one refused trials = FitOk port keys needs take → (∃ r, refused = FitRefused r) →
  ∃ trial, In trial trials ∧ one trial = FitOk port keys needs take.
Proof.
  revert refused. induction trials as [|t trials IH]; intros refused; cbn; [by intros -> [r ?]|].
  intros H Hr. destruct (one t) as [p ks n tk|[]] eqn:E; try done; [exists t; split; [by left|congruence]|].
  destruct (IH _ H) as (t' & ? & ?); [eauto|]. exists t'. split; [by right|done].
Qed.

Lemma fit_right range b resources wanted np floor port keys needs take :
  budget_ok b → needs_ok (resourceNeeds resources) → (∀ f, floor = Some f → floor_ok f) →
  fit range b resources wanted np floor = FitOk port keys needs take →
  trial_of (resourceNeeds resources) needs ∧ fits_right b range wanted np (resourceNeeds resources) port keys take.
Proof.
  intros Hb Hn Hf. rewrite /fit. intros (trial & Ht%vendorTrials_In & H)%fit_trials_ok; [|eauto].
  have Hn' : needs_ok trial by destruct Hn, Ht as (H1 & _ & H2 & _); split; lia.
  have Hres : needs = trial ∧ fits_right b range wanted np trial port keys take.
  { destruct floor as [f|]; [apply fitOver_ok in H|apply fitFresh_ok in H]; auto. }
  destruct Hres as [-> (Hnd & Hlen & Hone & Hw & Hp)].
  split; [done|]. destruct Ht as (_ & Hcount & _ & Hv). split_and!; try done; [congruence|].
  destruct Hone as (v & Hone). exists v. intros k Hk. destruct (Hone k Hk) as (g & ? & ? & ? & Ha). exists g. split_and!; try done.
  move: Ha. rewrite /vendor_allowed. by destruct Hv as [-> | ->].
Qed.

(** A claim that fits takes nothing the node does not have. When [fit] accepts, for a new claim
    or a restart's claim over its old ones, it names as many distinct GPUs as the claim asks for,
    all the node's own, of one vendor and of the named one; after taking the claim, node memory is
    not negative, no dedicated GPU the claim uses is over-committed and no other GPU is touched;
    and the port is not claimed: the fixed one, or one of the node's range. *)
Theorem fit_within_budget range b resources wanted np floor port keys needs take :
  budget_ok b → needs_ok (resourceNeeds resources) → (∀ f, floor = Some f → floor_ok f) →
  fit range b resources wanted np floor = FitOk port keys needs take →
  trial_of (resourceNeeds resources) needs ∧ fits_right b range wanted np (resourceNeeds resources) port keys take.
Proof. apply fit_right. Qed.

(** ** Refusals are exact *)

Lemma freshFits_ext b needs l l' : (∀ k, k ∈ l ↔ k ∈ l') → freshFits b needs l = freshFits b needs l'.
Proof.
  intros H. rewrite /freshFits /unifiedCount. f_equal.
  - do 5 f_equal. f_equal. apply filter_ext => g. by rewrite (bool_decide_ext _ _ (H (gb_key g))).
  - apply eq_iff_eq_true. rewrite !forallb_forall. by setoid_rewrite <- list_elem_of_In; setoid_rewrite H.
Qed.

Lemma filter_length_perm {A} (p : A → bool) l l' : l ≡ₚ l' → length (List.filter p l) = length (List.filter p l').
Proof. induction 1; cbn; try (repeat (destruct (p _)); cbn; congruence); congruence. Qed.

(** A GPU of a set that fits has the room the search asks of it. *)
Lemma freshFits_room b needs keys g :
  budget_ok b → needs_ok needs → freshFits b needs keys = true → In g (b_gpus b) → gb_key g ∈ keys →
  n_vramGb needs ≤ gpuFreeGb b g (n_memoryGb needs).
Proof.
  intros Hb Hn Hf Hg Hk. rewrite /freshFits in Hf. apply andb_true_iff in Hf as [Hm Hall]. apply negb_true_iff, Z.ltb_ge in Hm.
  rewrite /gpuFreeGb. destruct (gb_unified g) eqn:Hu.
  - have Hc : (1 ≤ unifiedCount b keys)%nat.
    { rewrite /unifiedCount. have : In g (List.filter (λ g, gb_unified g && bool_decide (gb_key g ∈ keys)) (b_gpus b)).
      { apply filter_In. split; [done|]. by rewrite Hu bool_decide_eq_true_2. }
      destruct (List.filter _ _); cbn; [done|lia]. }
    have := no_vram _ Hn. nia.
  - rewrite forallb_forall in Hall. have := Hall (gb_key g). rewrite -list_elem_of_In (find_gpu_In b) // Hu. intros H.
    have := H Hk. cbn. by intros ?%negb_true_iff%Z.ltb_ge.
Qed.

Lemma pickGpus_complete b needs keys :
  budget_ok b → needs_ok needs → n_gpuCount needs ≠ 0%nat →
  (∀ v, (choose (length (List.filter (λ g, bool_decide (gb_vendor g = v)) (b_gpus b))) (n_gpuCount needs) ≤ GPU_SETS_MAX)%nat) →
  NoDup keys → length keys = n_gpuCount needs → one_vendor b needs keys → freshFits b needs keys = true →
  pickGpus b needs ≠ None.
Proof.
  intros Hb Hn H0 Hfew Hnd Hlen (v & Hone) Hfit. rewrite /pickGpus (proj2 (Nat.eqb_neq _ _) H0).
  set cmp := (λ a b0 : GpuBudget, _). set p := (λ g : GpuBudget, _). destruct (oneVendorFeasible _ _ _ _) as [picked|] eqn:Hs; [done|].
  exfalso. set sorted := sort_by cmp (List.filter p (b_gpus b)) in Hs.
  set c := List.filter (λ g, bool_decide (gb_key g ∈ keys)) sorted.
  have Hsub : ∀ (q : GpuBudget → bool) l, List.filter q l `sublist_of` l.
  { intros q l. induction l as [|x l IH]; cbn; [constructor|]. destruct (q x); by constructor. }
  have Hcin : ∀ g, In g c ↔ In g (b_gpus b) ∧ gb_key g ∈ keys.
  { intros g. rewrite /c filter_In (sort_by_in cmp) filter_In bool_decide_eq_true. split; [tauto|]. intros [Hg Hk]. split; [|done].
    split; [done|]. destruct (Hone _ Hk) as (g' & Hg' & Hkk & _ & Ha). have Heq : g' = g by apply (NoDup_map_inj gb_key (b_gpus b)).
    subst g'. rewrite /p Ha. apply Z.leb_le. by apply (freshFits_room b needs keys). }
  have Hmem : ∀ k, k ∈ map gb_key c ↔ k ∈ keys.
  { intros k. rewrite list_elem_of_In in_map_iff. split.
    - by intros (g & <- & [_ ?]%Hcin).
    - intros Hk. destruct (Hone _ Hk) as (g & Hg & <- & _). exists g. split; [done|]. by apply Hcin. }
  have Hnc : NoDup (map gb_key c).
  { eapply sublist_NoDup; [|apply sublist_map, Hsub]. have -> : map gb_key sorted ≡ₚ map gb_key (List.filter p (b_gpus b))
      by apply Permutation_map, sort_by_perm. by apply NoDup_map_filter. }
  have Hf : freshFits b needs (map gb_key c) = false.
  { apply (oneVendorFeasible_None _ _ _ _ v c Hs); [lia| |apply Hsub| |].
    - etrans; [|apply (Hfew v)]. apply choose_mono. rewrite (filter_length_perm _ _ _ (sort_by_perm cmp _)) filter_comm. apply sublist_length, Hsub.
    - rewrite -(length_map gb_key) -Hlen. by apply Permutation_length, NoDup_Permutation.
    - intros g [Hg Hk]%Hcin. destruct (Hone _ Hk) as (g' & Hg' & Hkk & Hv & _).
      have Heq : g' = g by apply (NoDup_map_inj gb_key (b_gpus b)). by subst. }
  by rewrite (freshFits_ext b needs _ keys Hmem) Hfit in Hf.
Qed.

(** A refusal for memory is exact. When [fit] refuses a new claim with [not_enough_memory], and
    no vendor of the node has more GPU sets than a search tries, then no set of distinct GPUs of
    the node, of one vendor and of the named one, of the size the claim asks for, passes the fit
    rule. *)
Theorem fit_refusal_exact range b resources wanted np keys :
  budget_ok b → needs_ok (resourceNeeds resources) →
  let needs := resourceNeeds resources in
  (∀ v, (choose (length (List.filter (λ g, bool_decide (gb_vendor g = v)) (b_gpus b))) (n_gpuCount needs) ≤ GPU_SETS_MAX)%nat) →
  fit range b resources wanted np None = FitRefused not_enough_memory →
  NoDup keys → length keys = n_gpuCount needs → one_vendor b needs keys → freshFits b needs keys = false.
Proof.
  intros Hb Hn needs Hfew Hfit Hnd Hlen Hone. apply not_true_is_false => Hok.
  have Hfirst : fitFresh range b needs wanted np = FitRefused not_enough_memory.
  { move: Hfit. rewrite /fit /vendorTrials. fold needs. destruct (_ || _); cbn; by destruct (fitFresh range b needs wanted np) as [|[]]. }
  have Hm : n_memoryGb needs ≤ b_memoryGb b.
  { move: Hok. rewrite /freshFits. intros [Hm _]%andb_true_iff. apply negb_true_iff, Z.ltb_ge in Hm. have := no_vram _ Hn. fold needs. nia. }
  rewrite /fitFresh (proj2 (Z.ltb_ge _ _) Hm) in Hfirst. destruct (Nat.eqb_spec (n_gpuCount needs) 0) as [E0|E0].
  - destruct keys; [|cbn in Hlen; lia]. rewrite Hok /= in Hfirst. move: Hfirst. rewrite /fit_port. destruct np; [|done]. cbn.
    destruct (freePort _ _ _); [done|]. by destruct (p_fixed wanted).
  - destruct (pickGpus b needs) as [ks|] eqn:Hp; [|by eapply (pickGpus_complete b needs keys)].
    have Hks : freshFits b needs ks = true.
    { move: Hp. rewrite /pickGpus (proj2 (Nat.eqb_neq _ _) E0). destruct (oneVendorFeasible _ _ _ _) eqn:Hs; [|done].
      intros [= <-]. by apply (picked_keys b needs) in Hs as (? & _); [|done|intros g [? _]%andb_true_iff]. }
    rewrite Hks /= in Hfirst. move: Hfirst. rewrite /fit_port. destruct np; [|done]. cbn.
    destruct (freePort _ _ _); [done|]. by destruct (p_fixed wanted).
Qed.
