(* ===== verification/ClaimHolds.v ===== *)
(** * ClaimHolds: where an existing claim's VRAM may be

    [sharedVramGpuKeys] and [claimVramHolds] of [packages/api/src/nodes/hardware.ts], and the
    planner's [claimUsage]: a claim is charged on every GPU it may be on, so what a node counts
    for it is never less than what its process can hold, also after GPUs were renumbered, lost or
    reclassified ([claim_never_undercounted]). *)
From Stdlib Require Import ssreflect.
From S2P Require Import Prelude ClaimOverlap PlacementFit PlacementFitSafety.

Lemma filter_sublist {A} (p q : A → bool) l :
  (∀ x, p x = true → q x = true) → List.filter p l `sublist_of` List.filter q l.
Proof.
  intros H. induction l as [|x l IH]; cbn; [constructor|]. destruct (p x) eqn:E; [rewrite H //; by constructor|].
  destruct (q x); [by constructor|done].
Qed.

(** Keys covered by labelled groups, each within its bound. *)
Lemma cover_sum (label : string → string) (bound : string → nat) (groups : jsmap string nat) X :
  (∀ v c, In (v, c) groups → (length (List.filter (λ k, bool_decide (label k = v)) X) ≤ Nat.min c (bound v))%nat) →
  (∀ k, In k X → label k ∈ map_keys groups) →
  (length X ≤ list_sum (map (λ vc, Nat.min vc.2 (bound vc.1)) groups))%nat.
Proof.
  revert X. induction groups as [|[v c] groups IH]; intros X Hper Hcov.
  - destruct X as [|k X]; [done|]. have := Hcov k (or_introl eq_refl). by intros ?%elem_of_nil.
  - change (list_sum (map (λ vc, Nat.min vc.2 (bound vc.1)) ((v, c) :: groups))) with
      (Nat.min c (bound v) + list_sum (map (λ vc, Nat.min vc.2 (bound vc.1)) groups))%nat.
    have H1 := Hper v c (or_introl eq_refl). pose proof (Permutation_length (filter_split_perm (λ k, bool_decide (label k = v)) X)) as Hsplit. rewrite length_app in Hsplit.
    have : (length (List.filter (λ k, negb (bool_decide (label k = v))) X)
      ≤ list_sum (map (λ vc, Nat.min vc.2 (bound vc.1)) groups))%nat; [|lia]. apply IH.
    + intros v' c' Hin. etrans; [|apply (Hper v' c' (or_intror Hin))]. rewrite filter_filter. apply sublist_length, filter_sublist => k.
      by intros [_ ?]%andb_true_iff.
    + intros k [Hk Hv]%filter_In. have := Hcov k Hk. cbn. apply negb_true_iff in Hv. bool_to_prop.
      by intros [?|?]%elem_of_cons.
Qed.

(** ** The code *)

(** A discrete claim's [resources] JSON: the recorded GPU keys and the ones recorded unified. *)
Record DiscreteClaim : Type := {
  dc_vramGb : Z;
  dc_gpuCount : nat;
  dc_vendor : option string;
  dc_recorded : option (list string);
  dc_unifiedGpus : option (list string);
}.

(** [key.split(":")[0]]. *)
Fixpoint before_colon (s : string) : string :=
  match s with
  | EmptyString => EmptyString
  | String c s' => if (Ascii.nat_of_ascii c =? 58)%nat then EmptyString else String c (before_colon s')
  end.

Definition is_vendor (vendor : option string) (g : GpuBudget) : bool :=
  match vendor with None => true | Some v => bool_decide (vendor_name (gb_vendor g) = v) end.

(** [sharedVramGpuKeys]: whether a recorded key's VRAM is node memory. *)
Definition shared_key (claim : DiscreteClaim) (gs : list GpuBudget) (key : string) : bool :=
  let gpu := find_gpu key gs in
  match gpu with Some g => gb_unified g | None => false end
  || match dc_unifiedGpus claim with Some us => bool_decide (key ∈ us) | None => false end
  || (bool_decide (dc_unifiedGpus claim = None) && bool_decide (gpu = None)).

Definition sharedVramGpuKeys (claim : DiscreteClaim) (gs : list GpuBudget) : option (list string) :=
  List.filter (shared_key claim gs) <$> dc_recorded claim.

(** [new Set(xs)]. *)
Fixpoint distinct (seen keys : list string) : list string :=
  match keys with
  | [] => []
  | k :: keys' => if bool_decide (k ∈ seen) then distinct seen keys' else k :: distinct (k :: seen) keys'
  end.

Record Holds : Type := mkHolds { h_shared : Z; h_dedicated : jsmap string Z }.

Section Code.
Context (claim : DiscreteClaim) (gs : list GpuBudget).

Definition recorded_keys : list string := distinct [] (default [] (dc_recorded claim)).
Definition own_keys : list string := List.filter (λ k, bool_decide (is_Some (find_gpu k gs))) recorded_keys.

Definition candidates (vendor : option string) : list GpuBudget :=
  List.filter (λ g, is_vendor vendor g && negb (bool_decide (gb_key g ∈ own_keys))) gs.

Definition hold_on (key : string) (dedicated : jsmap string Z) : jsmap string Z :=
  map_set key (Z.max (gpu_at key dedicated) (dc_vramGb claim)) dedicated.

Definition onEveryDedicated (vendor : option string) (dedicated : jsmap string Z) : jsmap string Z :=
  fold_left (λ d g, if gb_unified g then d else hold_on (gb_key g) d) (candidates vendor) dedicated.

Definition unified_candidates (vendor : option string) : nat := length (List.filter gb_unified (candidates vendor)).

(** One recorded key: the memory held, the GPUs held, and per vendor the missing keys that may be
    a unified GPU now. *)
Definition hold_key (st : Z * jsmap string Z * jsmap string nat) (key : string) : Z * jsmap string Z * jsmap string nat :=
  let '(shared, dedicated, maybe) := st in
  let isShared := bool_decide (key ∈ default [] (sharedVramGpuKeys claim gs)) in
  let shared := if isShared then shared + dc_vramGb claim else shared in
  match find_gpu key gs with
  | Some gpu => if gb_unified gpu then (shared, dedicated, maybe) else (shared, hold_on key dedicated, maybe)
  | None =>
      let vendor := before_colon key in
      (shared, onEveryDedicated (Some vendor) dedicated,
       if isShared then maybe else map_set vendor (S (default O (map_get vendor maybe))) maybe)
  end.

Definition claimVramHolds : Holds :=
  if (dc_gpuCount claim =? 0)%nat then mkHolds 0 []
  else match dc_recorded claim with
       | None =>
           let possible := candidates (dc_vendor claim) in
           let count := if (length possible =? 0)%nat then dc_gpuCount claim
                        else Nat.min (dc_gpuCount claim) (unified_candidates (dc_vendor claim)) in
           mkHolds (dc_vramGb claim * Z.of_nat count) (onEveryDedicated (dc_vendor claim) [])
       | Some _ =>
           let '(shared, dedicated, maybe) := fold_left hold_key recorded_keys (0, [], []) in
           mkHolds (fold_left (λ s vc, s + dc_vramGb claim * Z.of_nat (Nat.min vc.2 (unified_candidates (Some vc.1)))) maybe shared)
             dedicated
       end.
End Code.

(** [claimUsage] of the planner. *)
Definition claimUsage (b : Budget) (needs : Needs) (claim : option DiscreteClaim) : ClaimUsage :=
  if (n_gpuCount needs =? 0)%nat then usageOf b needs []
  else let holds := match claim with Some c => claimVramHolds c (b_gpus b) | None => mkHolds 0 [] end in
       mkUsage (n_memoryGb needs + h_shared holds) (h_dedicated holds).

(** ** What a claim's process may hold *)

(** The recorded keys may be GPUs [actual]: a reported key is that GPU; a missing one is some
    other GPU of its vendor, each a different one. *)
Record may_be (claim : DiscreteClaim) (gs : list GpuBudget) (actual : string → GpuBudget) : Prop := {
  mb_reported : ∀ k g, k ∈ recorded_keys claim → find_gpu k gs = Some g → actual k = g;
  mb_missing : ∀ k, k ∈ recorded_keys claim → find_gpu k gs = None →
    In (actual k) (candidates claim gs (Some (before_colon k)));
  mb_distinct : ∀ k k', k ∈ recorded_keys claim → k' ∈ recorded_keys claim → find_gpu k gs = None → find_gpu k' gs = None →
    gb_key (actual k) = gb_key (actual k') → k = k';
}.

Section Holds.
Context (claim : DiscreteClaim) (gs : list GpuBudget).
Context (Hnd : NoDup (map gb_key gs)) (Hvram : 0 ≤ dc_vramGb claim).
Let vram := dc_vramGb claim.

Lemma hold_on_le key d k : gpu_at k d ≤ gpu_at k (hold_on claim key d).
Proof. rewrite /hold_on gpu_at_set. case_bool_decide; [subst|]; lia. Qed.

Lemma hold_on_at key d : vram ≤ gpu_at key (hold_on claim key d).
Proof. rewrite /hold_on gpu_at_set bool_decide_eq_true_2 //. fold vram. lia. Qed.

Lemma every_fold l d k :
  let d' := fold_left (λ d g, if gb_unified g then d else hold_on claim (gb_key g) d) l d in
  gpu_at k d ≤ gpu_at k d' ∧ ∀ g, In g l → gb_unified g = false → vram ≤ gpu_at (gb_key g) d'.
Proof.
  revert d k. induction l as [|x l IH]; intros d k; cbn zeta; cbn [fold_left]; [split; [lia|done]|].
  set d1 := if gb_unified x then d else hold_on claim (gb_key x) d.
  have Hd1 : gpu_at k d ≤ gpu_at k d1 by rewrite /d1; destruct (gb_unified x); [lia|apply hold_on_le].
  destruct (IH d1 k) as [H1 H2]. split; [lia|]. intros g [<-|Hg] Hu; [|by apply H2].
  destruct (IH d1 (gb_key x)) as [H3 _]. have : vram ≤ gpu_at (gb_key x) d1 by rewrite /d1 Hu; apply hold_on_at. lia.
Qed.

Definition missing_unshared (key : string) : bool :=
  bool_decide (find_gpu key gs = None) && negb (shared_key claim gs key).

Lemma distinct_In seen keys k : k ∈ distinct seen keys → In k keys.
Proof.
  revert seen. induction keys as [|x l IH]; intros seen; cbn; [by intros ?%elem_of_nil|].
  case_bool_decide; [by right; eapply IH|]. intros [->|?]%elem_of_cons; [by left|]. right. by eapply IH.
Qed.

Lemma shared_keys_iff key :
  key ∈ recorded_keys claim → bool_decide (key ∈ default [] (sharedVramGpuKeys claim gs)) = shared_key claim gs key.
Proof.
  intros Hk%distinct_In. rename Hk into Hr. rewrite /sharedVramGpuKeys.
  destruct (dc_recorded claim) as [l|]; [|done]. cbn in Hr |- *. apply eq_iff_eq_true.
  rewrite bool_decide_eq_true list_elem_of_In filter_In. tauto.
Qed.

(** What a run of [hold_key] over [keys] adds. *)
Definition held_over (keys : list string) (st st' : Z * jsmap string Z * jsmap string nat) : Prop :=
  let '(s, d, m) := st in
  let '(s', d', m') := st' in
  s' = s + vram * Z.of_nat (length (List.filter (shared_key claim gs) keys))
  ∧ (∀ k, gpu_at k d ≤ gpu_at k d')
  ∧ (∀ k g, k ∈ keys → find_gpu k gs = Some g → gb_unified g = false → vram ≤ gpu_at k d')
  ∧ (∀ k g, k ∈ keys → find_gpu k gs = None → In g (candidates claim gs (Some (before_colon k))) → gb_unified g = false →
       vram ≤ gpu_at (gb_key g) d')
  ∧ (NoDup (map_keys m) → NoDup (map_keys m'))
  ∧ (∀ v, default O (map_get v m') =
       (default O (map_get v m) + length (List.filter (λ k, missing_unshared k && bool_decide (before_colon k = v)) keys))%nat).

Lemma hold_key_over key st : key ∈ recorded_keys claim → held_over [key] st (hold_key claim gs st key).
Proof.
  destruct st as [[s d] m]. intros Hkey. rewrite /held_over /hold_key shared_keys_iff //. cbn [List.filter].
  rewrite /missing_unshared. destruct (find_gpu key gs) as [g|] eqn:Eg.
  - rewrite (bool_decide_eq_false_2 (Some g = None)) //=.
    destruct (gb_unified g) eqn:Eu; destruct (shared_key claim gs key) eqn:Es; cbn [length]; split_and!; try done; try lia.
    all: try (intros k; apply hold_on_le).
    all: try (intros k g' ->%list_elem_of_singleton Hg Hu; rewrite Eg in Hg; simplify_eq; by apply hold_on_at).
    all: intros k g' ->%list_elem_of_singleton Hg; rewrite Eg in Hg; intros; simplify_eq; try done; congruence.
  - have Hev := every_fold (candidates claim gs (Some (before_colon key))) d.
    rewrite (bool_decide_eq_true_2 (None = None)) //=.
    destruct (shared_key claim gs key); cbn [negb andb length]; split_and!; try done; try lia.
    all: try (intros k; apply Hev).
    all: try (intros k g ->%list_elem_of_singleton Hg; congruence).
    all: try (intros k g ->%list_elem_of_singleton _ Hc Hu; by apply (proj2 (Hev (gb_key g)))).
    + intros. by apply map_set_NoDup.
    + intros v. rewrite map_get_set. case_bool_decide as Hv; [rewrite decide_True // Hv; cbn; lia|]. rewrite decide_False //; cbn; lia.
Qed.

Lemma keys_fold keys st :
  (∀ k, k ∈ keys → k ∈ recorded_keys claim) → held_over keys st (fold_left (hold_key claim gs) keys st).
Proof.
  revert st. induction keys as [|key keys IH]; intros st Hk; cbn [fold_left].
  { destruct st as [[s d] m]. cbn. split_and!; try done; try lia; by intros k g ?%elem_of_nil. }
  have H1 := hold_key_over key st (Hk key (list_elem_of_here _ _)).
  have H2 := IH (hold_key claim gs st key) (λ k H, Hk k (list_elem_of_further _ _ _ H)).
  destruct (fold_left _ keys _) as [[s' d'] m'], (hold_key claim gs st key) as [[s1 d1] m1], st as [[s d] m].
  destruct H1 as (Hs1 & Hm1 & Hr1 & Hi1 & Hn1 & Hc1), H2 as (Hs & Hmono & Hrep & Hmis & Hnd' & Hcnt).
  rewrite /held_over. cbn [List.filter] in *. split_and!.
  - rewrite Hs Hs1. destruct (shared_key claim gs key); cbn [length]; lia.
  - intros k. have := Hm1 k. have := Hmono k. lia.
  - intros k g [->|Hin]%elem_of_cons Hg Hu; [|by eapply Hrep]. have := Hr1 key g (list_elem_of_here _ _) Hg Hu. have := Hmono key. lia.
  - intros k g [->|Hin]%elem_of_cons Hg Hc Hu; [|by eapply Hmis]. have := Hi1 key g (list_elem_of_here _ _) Hg Hc Hu.
    have := Hmono (gb_key g). lia.
  - auto.
  - intros v. rewrite Hcnt Hc1. destruct (missing_unshared key && _); cbn [length]; lia.
Qed.

(** Missing keys that are unified GPUs now are at most what the loop over the vendors adds. *)
Lemma maybe_enough (actual : string → GpuBudget) maybe keys :
  may_be claim gs actual → keys = recorded_keys claim → NoDup (recorded_keys claim) → NoDup (map_keys maybe) →
  (∀ v, default O (map_get v maybe) =
     length (List.filter (λ k, missing_unshared k && bool_decide (before_colon k = v)) keys)) →
  (length (List.filter (λ k, missing_unshared k && gb_unified (actual k)) keys)
   ≤ list_sum (map (λ vc, Nat.min vc.2 (unified_candidates claim gs (Some vc.1))) maybe))%nat.
Proof.
  intros [Hrep Hmis Hdis] -> Hndk Hndm Hcnt. set X := List.filter _ _.
  have Hper : ∀ v c, In (v, c) maybe →
    (length (List.filter (λ k, bool_decide (before_colon k = v)) X) ≤ Nat.min c (unified_candidates claim gs (Some v)))%nat.
  { intros v c Hin. have Hget := map_get_NoDup _ _ _ Hndm Hin. have := Hcnt v. rewrite Hget /= => ->. apply Nat.min_glb.
    - rewrite /X filter_filter. apply sublist_length, filter_sublist => k. by destruct (missing_unshared k), (gb_unified (actual k)).
    - rewrite /unified_candidates -(length_map (λ k, gb_key (actual k))) -(length_map gb_key (List.filter _ (candidates _ _ _))).
      apply submseteq_length, NoDup_submseteq.
      + apply NoDup_fmap_2_strong; [|by apply NoDup_filter_bool, NoDup_filter_bool].
        intros k k' [Hk _]%list_elem_of_In%filter_In [Hk' _]%list_elem_of_In%filter_In.
        apply filter_In in Hk as [Hk1 [[Hm1 _]%andb_true_iff _]%andb_true_iff], Hk' as [Hk2 [[Hm2 _]%andb_true_iff _]%andb_true_iff].
        bool_to_prop. apply Hdis; try done; by apply list_elem_of_In.
      + intros x (k & <- & [Hk Hv]%filter_In)%list_elem_of_In%in_map_iff. apply filter_In in Hk as [Hk [[Hm _]%andb_true_iff Hu]%andb_true_iff].
        bool_to_prop. subst v. apply list_elem_of_In, in_map, filter_In. split; [|done]. apply Hmis; [by apply list_elem_of_In|done]. }
  have Hcov : ∀ k, In k X → before_colon k ∈ map_keys maybe.
  { intros k [Hk [Hm _]%andb_true_iff]%filter_In. apply map_get_keys.
    have := Hcnt (before_colon k). destruct (map_get _ _); [eauto|]. cbn. intros Hz. exfalso.
    have : In k (List.filter (λ k0, missing_unshared k0 && bool_decide (before_colon k0 = before_colon k)) (recorded_keys claim)).
    { apply filter_In. split; [done|]. by rewrite Hm bool_decide_eq_true_2. }
    by rewrite (nil_length_inv _ (eq_sym Hz)). }
  by apply (cover_sum before_colon (λ v, unified_candidates claim gs (Some v))).
Qed.

Lemma distinct_NoDup seen keys : NoDup (distinct seen keys) ∧ ∀ k, k ∈ distinct seen keys → k ∉ seen.
Proof.
  revert seen. induction keys as [|x l IH]; intros seen; cbn; [split; [constructor|by intros k ?%elem_of_nil]|].
  case_bool_decide as Hx; [apply IH|]. destruct (IH (x :: seen)) as [Hn Hs]. split.
  - constructor; [|done]. intros Hin. by apply (Hs x Hin); left.
  - intros k [->|Hin]%elem_of_cons; [done|]. intros Hk. by apply (Hs k Hin); right.
Qed.

Lemma maybe_fold maybe s :
  fold_left (λ s vc, s + vram * Z.of_nat (Nat.min vc.2 (unified_candidates claim gs (Some vc.1)))) maybe s =
  s + vram * Z.of_nat (list_sum (map (λ vc, Nat.min vc.2 (unified_candidates claim gs (Some vc.1))) maybe)).
Proof.
  revert s. induction maybe as [|vc maybe IH]; intros s; cbn [fold_left map]; [cbn; lia|]. rewrite IH.
  set rest := map _ maybe. change (list_sum (?x :: rest)) with (x + list_sum rest)%nat. rewrite Nat2Z.inj_add. lia.
Qed.

(** Reported keys that are unified GPUs are shared. *)
Lemma unified_shared (actual : string → GpuBudget) k :
  may_be claim gs actual → k ∈ recorded_keys claim → gb_unified (actual k) = true →
  shared_key claim gs k = true ∨ missing_unshared k = true.
Proof.
  intros Hm Hk Hu. rewrite /missing_unshared. destruct (shared_key claim gs k) eqn:Es; [by left|right].
  destruct (find_gpu k gs) as [g|] eqn:Eg; [|done]. move: Es. rewrite /shared_key Eg.
  have Hg := mb_reported _ _ _ Hm k g Hk Eg. rewrite Hg in Hu. by rewrite Hu.
Qed.
End Holds.

(** A claim is never under-counted. However the GPUs of a claim's recorded keys may have been
    renumbered (a key the node no longer reports being some other GPU of its vendor), the node
    counts for the claim at least its VRAM on every dedicated GPU its process is on and, in node
    memory, at least its VRAM times the number of unified GPUs it is on. *)
Theorem claim_never_undercounted claim gs actual :
  NoDup (map gb_key gs) → 0 ≤ dc_vramGb claim → dc_gpuCount claim ≠ 0%nat → is_Some (dc_recorded claim) →
  may_be claim gs actual →
  let holds := claimVramHolds claim gs in
  dc_vramGb claim * Z.of_nat (length (List.filter (λ k, gb_unified (actual k)) (recorded_keys claim))) ≤ h_shared holds ∧
  ∀ k, k ∈ recorded_keys claim → gb_unified (actual k) = false → dc_vramGb claim ≤ gpu_at (gb_key (actual k)) (h_dedicated holds).
Proof.
  intros Hnd Hvram H0 [l Hl] Hm. rewrite /claimVramHolds (proj2 (Nat.eqb_neq _ _) H0) Hl.
  have Hfold := keys_fold claim gs (recorded_keys claim) (0, [], []) (λ k H, H).
  destruct (fold_left (hold_key claim gs) _ _) as [[s d] maybe]. destruct Hfold as (Hs & _ & Hrep & Hmis & Hndm & Hcnt). cbn [h_shared h_dedicated].
  split.
  - rewrite maybe_fold Hs. have Hndk : NoDup (recorded_keys claim) by apply distinct_NoDup.
    have Hmaybe := maybe_enough claim gs actual maybe _ Hm eq_refl Hndk (Hndm (NoDup_nil_2)) (λ v, Hcnt v).
    have Hle : (length (List.filter (λ k, gb_unified (actual k)) (recorded_keys claim)) ≤
      length (List.filter (shared_key claim gs) (recorded_keys claim))
      + length (List.filter (λ k, missing_unshared claim gs k && gb_unified (actual k)) (recorded_keys claim)))%nat; [|nia].
    have : ∀ k, k ∈ recorded_keys claim → gb_unified (actual k) = true → shared_key claim gs k = true ∨ missing_unshared claim gs k = true
      by intros; eapply unified_shared.
    generalize (recorded_keys claim) => keys. induction keys as [|k keys IH]; intros H; cbn; [lia|].
    have {}IH := IH (λ x Hx, H x (list_elem_of_further _ _ _ Hx)). have Hk := H k (list_elem_of_here _ _).
    destruct (gb_unified (actual k)); cbn; [|destruct (shared_key _ _ k); rewrite andb_false_r; cbn; lia].
    rewrite andb_true_r. destruct (Hk eq_refl) as [-> | ->]; [destruct (missing_unshared _ _ k)|destruct (shared_key _ _ k)]; cbn; lia.
  - intros k Hk Hu. destruct (find_gpu k gs) as [g|] eqn:Eg.
    + have Hg := mb_reported _ _ _ Hm k g Hk Eg. have Hkey : gb_key g = k by apply (find_gpu_Some (mkBudget 0 gs [] [])) in Eg as [_ ?].
      rewrite Hg Hkey. rewrite Hg in Hu. by eapply Hrep.
    + apply (Hmis k); try done. by apply Hm.
Qed.
