(* ===== verification/PlacementModel.v ===== *)
(** * PlacementModel: the planner's inputs, its budgets and its rules

    [packages/api/src/lib/placement.ts] (and [launch-capabilities.ts], which it asks whether a
    node can run a launch): nodes, claims, instances, fabrics and requests; the disruption cost
    of a stop set; the constructor's replay of the existing claims into budgets; and the rules
    that need no search: which nodes are eligible, which instances may be stopped, what freeing
    an instance gives back. The claims' and requests' JSON is parsed data; refusal and warning
    texts are left out (they name reasons and ids the model has). *)
From Stdlib Require Import ssreflect.
From S2P Require Import Prelude ClaimOverlap PlacementFit ClaimHolds.

(** ** Launch capabilities *)

Inductive RuntimeManagement : Type := process | service.
#[export] Instance RuntimeManagement_eq : EqDecision RuntimeManagement.
Proof. solve_decision. Defined.

Inductive RuntimeShell : Type := sh | pwsh | powershell | cmd.
#[export] Instance RuntimeShell_eq : EqDecision RuntimeShell.
Proof. solve_decision. Defined.

Inductive CommandForm : Type := text_command | argv_command.
#[export] Instance CommandForm_eq : EqDecision CommandForm.
Proof. solve_decision. Defined.

Record LaunchCapabilities : Type := {
  lc_management : list RuntimeManagement;
  lc_shells : list RuntimeShell;
}.

(** [LaunchNeeds]; a command set is the forms of its present fields. *)
Record LaunchNeeds : Type := mkLaunchNeeds {
  ln_management : option RuntimeManagement;
  ln_commands : option (list (list CommandForm));
  ln_shell : option RuntimeShell;
}.

Definition usesShell (commands : option (list (list CommandForm))) : bool :=
  existsb (existsb (λ f, bool_decide (f = text_command))) (default [] commands).

Definition launchShell (launch : LaunchNeeds) : option RuntimeShell :=
  if usesShell (ln_commands launch) then Some (default sh (ln_shell launch)) else None.

Definition launchRunsOn (launch : LaunchNeeds) (capabilities : LaunchCapabilities) : bool :=
  if match ln_management launch with Some m => negb (bool_decide (m ∈ lc_management capabilities)) | None => false end then false
  else match launchShell launch with
       | Some shell => bool_decide (shell ∈ lc_shells capabilities)
       | None =>
           match ln_commands launch with
           | None | Some [] => true
           | Some _ => existsb (λ available, negb (bool_decide (available = cmd))) (lc_shells capabilities)
           end
       end.

(** ** Inputs *)

Record PlacementGpu : Type := { pg_key : string; pg_vendor : GpuVendor; pg_vramGb : Z; pg_unified : bool }.

Record PlacementFrozenFabric : Type := mkFrozen {
  ff_fabricId : string;
  ff_name : string;
  ff_memberIps : list string;
}.

Inductive FrozenFabrics : Type :=
  | FrozenAs (fabrics : list PlacementFrozenFabric)
  | FrozenCurrent
  | NotFrozen.

Inductive NodeTrust : Type := Relay | Full.
#[export] Instance NodeTrust_eq : EqDecision NodeTrust.
Proof. solve_decision. Defined.

Record PlacementNode : Type := {
  pn_id : string;
  pn_slug : string;
  pn_online : bool;
  pn_trust : NodeTrust;
  pn_held : bool;
  pn_labels : list string;
  pn_portRange : Z * Z;
  pn_heldVersionIds : list string;
  pn_requiredVersionIds : list string;
  pn_frozenFabrics : FrozenFabrics;
  pn_memoryGb : Z;
  pn_gpus : list PlacementGpu;
  pn_liveFreeMemoryGb : option Z;
  pn_launch : option LaunchCapabilities;
}.

(** A claim's [resources] JSON: the resource spec ([None] when it does not parse) and the GPU keys
    placement recorded. *)
Record Resources : Type := mkResources {
  rs_spec : option RuntimeResource;
  rs_gpus : option (list string);
  rs_unifiedGpus : option (list string);
}.

Inductive RankClaim : Type := Held | HeldUnknown.
#[export] Instance RankClaim_eq : EqDecision RankClaim.
Proof. solve_decision. Defined.

Record PlacementRank : Type := {
  pr_nodeId : option string;
  pr_port : Z;
  pr_distPort : option Z;
  pr_resources : Resources;
  pr_claim : RankClaim;
  pr_reservation : bool;
  pr_previous : bool;
}.

Record PlacementInstance : Type := {
  pi_id : string;
  pi_runtimeId : string;
  pi_ownerId : string;
  pi_startable : bool;
  pi_running : bool;
  pi_ranks : list PlacementRank;
  pi_contributed : bool;
  pi_interactiveStop : bool;
  pi_cleanupNodeIds : list string;
}.

Record PlacementFabric : Type := { pf_id : string; pf_name : string; pf_members : list (string * string) }.

Record PlacementContext : Type := {
  pc_callerId : string;
  pc_agent : bool;
  pc_nodes : list PlacementNode;
  pc_instances : list PlacementInstance;
  pc_fabrics : list PlacementFabric;
  pc_stopping : list string;
  pc_workBudget : option Z;
}.

Record LaunchReservation : Type := { lr_labels : list string; lr_resources : RuntimeResource }.

Record LaunchShape : Type := {
  ls_groupSize : nat;
  ls_resources : list RuntimeResource;
  ls_labels : list string;
  ls_fixedPort : option Z;
  ls_fabric : option string;
  ls_reservations : list LaunchReservation;
  ls_needs : LaunchNeeds;
}.

Record Restart : Type := {
  re_instanceId : string;
  re_ports : list Z;
  re_distPort : option Z;
  re_reservationNodeIds : list (option string);
}.

Record PlacementRequest : Type := {
  rq_runtimeId : string;
  rq_versionId : string;
  rq_launch : LaunchShape;
  rq_nodeIds : option (list string);
  rq_restart : option Restart;
  rq_allowedNodeIds : option (list string);
  rq_reservationNodeIds : option (list string);
  rq_retake : bool;
  rq_checkFrozen : bool;
  rq_nodeOrigin : bool;
  rq_preempt : bool;
}.

(** ** Refusals *)

Inductive RefusalReason : Type :=
  | R_not_enough_memory | R_definition_slots_full | R_port_in_use | R_no_free_ports | R_node_offline | R_node_held
  | R_definition_frozen | R_trust_relay | R_unsupported_platform | R_label_mismatch | R_not_enough_nodes
  | R_unknown_node | R_invalid_node_count | R_no_shared_fabric | R_head_not_in_frozen_fabric
  | R_fabric_port_ranges_disjoint | R_placement_too_complex | R_restart_overlap_no_room.
#[export] Instance RefusalReason_eq : EqDecision RefusalReason.
Proof. solve_decision. Defined.

Definition of_fit (reason : FitReason) : RefusalReason :=
  match reason with
  | not_enough_memory => R_not_enough_memory
  | definition_slots_full => R_definition_slots_full
  | port_in_use => R_port_in_use
  | no_free_ports => R_no_free_ports
  end.

(** [PlacementRefusal] without its message. *)
Record PlacementRefusal : Type := mkRefusal {
  rf_reason : RefusalReason;
  rf_subjectId : option string;
  rf_reservation : option (nat * list string * option string);
}.

Definition refusal (reason : RefusalReason) (subjectId : option string) : PlacementRefusal := mkRefusal reason subjectId None.

Definition REASON_ORDER : list RefusalReason :=
  [R_not_enough_memory; R_definition_slots_full; R_port_in_use; R_no_free_ports; R_node_offline; R_node_held;
   R_definition_frozen; R_trust_relay; R_unsupported_platform; R_label_mismatch; R_not_enough_nodes].

Definition FIT_REASONS : list RefusalReason :=
  [R_not_enough_memory; R_definition_slots_full; R_port_in_use; R_no_free_ports].

Definition GROUP_REASONS : list RefusalReason := [R_no_free_ports; R_head_not_in_frozen_fabric; R_fabric_port_ranges_disjoint].

(** [new Set] and [Set.add], in insertion order. *)
Definition set_add {A} `{EqDecision A} (x : A) (s : list A) : list A := if bool_decide (x ∈ s) then s else s ++ [x].
Definition set_of {A} `{EqDecision A} (l : list A) : list A := fold_left (λ s x, set_add x s) l [].

(** ** Claims *)

Definition resource_needs (r : Resources) : Needs := resourceNeeds (rs_spec r).

Definition recordedGpuKeys (r : Resources) : option (list string) := rs_gpus r.

(** The claim of a rank as [claimVramHolds] reads its JSON. *)
Definition discrete_claim (r : Resources) : option DiscreteClaim :=
  match rs_spec r with
  | Some (Rdiscrete count vram _ vendor) =>
      Some {| dc_vramGb := vram; dc_gpuCount := count; dc_vendor := vendor_name <$> vendor;
              dc_recorded := rs_gpus r; dc_unifiedGpus := rs_unifiedGpus r |}
  | _ => None
  end.

Definition claim_usage (b : Budget) (r : Resources) : ClaimUsage := claimUsage b (resource_needs r) (discrete_claim r).

Definition isHeld (rank : PlacementRank) : bool := bool_decide (pr_claim rank = Held).

Definition currentClaims (instance : PlacementInstance) : list PlacementRank :=
  List.filter (λ rank, negb (pr_previous rank)) (pi_ranks instance).

(** ** Disruption cost *)

Definition gpuGb (r : Resources) : Z := Z.of_nat (n_gpuCount (resource_needs r)) * n_vramGb (resource_needs r).

(** [push] into one side of a group of claims. *)
Definition push_claim (previous : bool) (u : ClaimUsage) (g : list ClaimUsage * list ClaimUsage) : list ClaimUsage * list ClaimUsage :=
  if previous then (g.1, g.2 ++ [u]) else (g.1 ++ [u], g.2).

Definition instanceMemoryGb (instance : PlacementInstance) : Z :=
  let byNode := fold_left (λ (m : jsmap (option string) (list ClaimUsage * list ClaimUsage)) rank,
    map_set (pr_nodeId rank)
      (push_claim (pr_previous rank) (mkUsage (n_memoryGb (resource_needs (pr_resources rank)) + gpuGb (pr_resources rank)) [])
         (default ([], []) (map_get (pr_nodeId rank) m))) m) (pi_ranks instance) [] in
  fold_left (λ sum g, sum + memoryGb (overlapUsage g.2.1 g.2.2)) byNode 0.

Record Disruption : Type := mkCost { ct_numbers : Z * Z * Z * Z; ct_ids : string }.

Definition ZERO_COST : Disruption := mkCost (0, 0, 0, 0) "".

Definition compareCost (a b : Disruption) : Z :=
  let '(a1, a2, a3, a4) := ct_numbers a in
  let '(b1, b2, b3, b4) := ct_numbers b in
  num_or (a1 - b1) (num_or (a2 - b2) (num_or (a3 - b3) (num_or (a4 - b4) (compareCodePoints (ct_ids a) (ct_ids b))))).

Fixpoint join_ids (ids : list string) : string :=
  match ids with
  | [] => ""
  | [id] => id
  | id :: ids' => String.append id (String.append "," (join_ids ids'))
  end.

Definition costOf (victims : list PlacementInstance) : Disruption :=
  match victims with
  | [] => ZERO_COST
  | _ =>
      mkCost (Z.of_nat (length (List.filter pi_contributed victims)), Z.of_nat (length victims),
              fold_left (λ sum v, sum + Z.of_nat (length (currentClaims v))) victims 0,
              fold_left (λ sum v, sum + instanceMemoryGb v) victims 0)
        (join_ids (sort_by compareCodePoints (map pi_id victims)))
  end.

(** ** The planner's state *)

Record ClaimGroup : Type := mkGroup {
  cg_nodeId : string;
  cg_held : bool;
  cg_usage : ClaimUsage;
  cg_keys : list string;
}.

Record PlannedStop : Type := { ps_instanceId : string; ps_runtimeId : string }.

Record Planner : Type := mkPlanner {
  pl_context : PlacementContext;
  pl_budgets : jsmap string Budget;
  pl_groups : jsmap string (list ClaimGroup);
  pl_stopping : list string;
  pl_draining : list string;
  pl_frozen : jsmap string (option (list PlacementFrozenFabric));
  pl_stops : list PlannedStop;
  pl_workLeft : Z;
  pl_workDone : Z;
}.

(** [#nodes] and [#instances]: maps by id. *)
Definition by_id {A} (id : A → string) (l : list A) : jsmap string A := fold_left (λ m x, map_set (id x) x m) l [].

Definition nodes (p : Planner) : jsmap string PlacementNode := by_id pn_id (pc_nodes (pl_context p)).
Definition instances (p : Planner) : jsmap string PlacementInstance := by_id pi_id (pc_instances (pl_context p)).

Definition node_values (p : Planner) : list PlacementNode := map snd (nodes p).
Definition instance_values (p : Planner) : list PlacementInstance := map snd (instances p).

Definition PLACEMENT_WORK_BUDGET : Z := 600000.
Definition MAX_VICTIMS_PER_NODE : nat := 10.
Definition MAX_SET_TRIES : nat := 32.

(** *** The constructor *)

Definition node_budget (node : PlacementNode) : Budget :=
  mkBudget (pn_memoryGb node)
    (map (λ g, mkGpu (pg_key g) (pg_vendor g) (if pg_unified g then 0 else pg_vramGb g) (pg_unified g))
       (sort_by (λ a b, compareCodePoints (pg_key a) (pg_key b)) (pn_gpus node)))
    [] (set_of (pn_requiredVersionIds node)).

Definition frozen_of (context : PlacementContext) (node : PlacementNode) : option (list PlacementFrozenFabric) :=
  match pn_frozenFabrics node with
  | FrozenCurrent =>
      Some (map (λ f, mkFrozen (pf_id f) (pf_name f) (map snd (pf_members f)))
              (List.filter (λ f, existsb (λ m, bool_decide (m.1 = pn_id node)) (pf_members f)) (pc_fabrics context)))
  | FrozenAs l => Some l
  | NotFrozen => None
  end.

Definition draining_of (context : PlacementContext) : list string :=
  set_of (map pi_id (List.filter (λ i, negb (pi_running i) && existsb isHeld (pi_ranks i)) (pc_instances context))).

Definition stopping_of (context : PlacementContext) : list string := set_of (pc_stopping context ++ draining_of context).

(** [budgets.get(id)], changed in place. *)
Definition with_budget (id : string) (f : Budget → Budget) (budgets : jsmap string Budget) : jsmap string Budget :=
  match map_get id budgets with Some b => map_set id (f b) budgets | None => budgets end.

Definition add_ports (rank : PlacementRank) (b : Budget) : Budget :=
  if pr_reservation rank then b
  else
    let ports := port_add (pr_port rank) (b_ports b) in
    mkBudget (b_memoryGb b) (b_gpus b) (match pr_distPort rank with Some d => port_add d ports | None => ports end) (b_definitions b).

(** One claim of the replay: its ports, and its usage unless a stop freed it. *)
Definition replay_claim (stopping : list string) (instanceId : string)
  (st : jsmap string Budget * jsmap (string * nat) ClaimUsage) (ix : nat * PlacementRank) : jsmap string Budget * jsmap (string * nat) ClaimUsage :=
  let '(budgets, usages) := st in
  let rank := ix.2 in
  match pr_nodeId rank with
  | None => st
  | Some nodeId =>
      match map_get nodeId budgets with
      | None => st
      | Some b =>
          let b := add_ports rank b in
          let usage := claim_usage b (pr_resources rank) in
          let b := if bool_decide (instanceId ∈ stopping) && isHeld rank then b else applyUsage b usage 1 in
          (map_set nodeId b budgets, map_set (instanceId, ix.1) usage usages)
      end
  end.

Definition indexed {A} (l : list A) : list (nat * A) := combine (seq 0 (length l)) l.

Definition replay_instance (stopping : list string) st (i : PlacementInstance) :=
  fold_left (replay_claim stopping (pi_id i)) (indexed (pi_ranks i)) st.

(** A group while it is collected: its current and old claims. *)
Record Collecting : Type := mkCollecting {
  cl_nodeId : string;
  cl_held : bool;
  cl_keys : list string;
  cl_claims : list ClaimUsage * list ClaimUsage;
}.

Definition collect (usages : jsmap (string * nat) ClaimUsage) (instanceId : string)
  (m : jsmap (string * RankClaim) Collecting) (ix : nat * PlacementRank) : jsmap (string * RankClaim) Collecting :=
  let rank := ix.2 in
  match pr_nodeId rank, map_get (instanceId, ix.1) usages with
  | Some nodeId, Some usage =>
      let key := (nodeId, pr_claim rank) in
      let group := default (mkCollecting nodeId (isHeld rank) [] ([], [])) (map_get key m) in
      map_set key
        (mkCollecting (cl_nodeId group) (cl_held group)
           (fold_left (λ s k, set_add k s) (map_keys (gpus usage) ++ default [] (recordedGpuKeys (pr_resources rank))) (cl_keys group))
           (push_claim (pr_previous rank) usage (cl_claims group))) m
  | _, _ => m
  end.

Definition collected (usages : jsmap (string * nat) ClaimUsage) (i : PlacementInstance) : list Collecting :=
  map snd (fold_left (collect usages (pi_id i)) (indexed (pi_ranks i)) []).

(** What the replay counted twice of a group is given back. *)
Definition give_back (stopping : list string) (instanceId : string) (budgets : jsmap string Budget) (g : Collecting) : jsmap string Budget :=
  let usage := overlapUsage (cl_claims g).1 (cl_claims g).2 in
  if bool_decide (instanceId ∈ stopping) && cl_held g then budgets
  else with_budget (cl_nodeId g)
         (λ b, applyUsage b (subtractUsage (sumUsage ((cl_claims g).1 ++ (cl_claims g).2)) usage) (-1)) budgets.

Definition group_of (g : Collecting) : ClaimGroup :=
  mkGroup (cl_nodeId g) (cl_held g) (overlapUsage (cl_claims g).1 (cl_claims g).2) (cl_keys g).

Definition overlap_instance (stopping : list string) (usages : jsmap (string * nat) ClaimUsage)
  (st : jsmap string Budget * jsmap string (list ClaimGroup)) (i : PlacementInstance) :=
  let gs := collected usages i in
  (fold_left (give_back stopping (pi_id i)) gs st.1, map_set (pi_id i) (map group_of gs) st.2).

Definition new_planner (context : PlacementContext) : Planner :=
  let stopping := stopping_of context in
  let budgets := fold_left (λ m n, map_set (pn_id n) (node_budget n) m) (pc_nodes context) [] in
  let ordered := sort_by (λ a b, compareCodePoints (pi_id a) (pi_id b)) (pc_instances context) in
  let '(replayed, usages) := fold_left (replay_instance stopping) ordered (budgets, []) in
  let '(budgets, groups) := fold_left (overlap_instance stopping usages) ordered (replayed, []) in
  mkPlanner context budgets groups stopping (draining_of context)
    (fold_left (λ m n, map_set (pn_id n) (frozen_of context n) m) (pc_nodes context) [])
    [] (default PLACEMENT_WORK_BUDGET (pc_workBudget context)) 0.
