(* ===== verification/PlacementRules.v ===== *)
(** * PlacementRules: eligibility, authorization, freeing and taking claims

    The methods of [PlacementPlanner] ([placement.ts]) that need no search: which nodes may take a
    rank or a reservation, which instances a request may stop, what stopping, restarting or
    releasing an instance gives back, how a chosen claim is taken, and the dist port of a
    multi-node instance. *)
From Stdlib Require Import ssreflect.
From S2P Require Import Prelude ClaimOverlap PlacementFit PlacementModel.

(** ** Working state and choices *)

Record Working : Type := mkWorking {
  wk_budgets : jsmap string Budget;
  wk_victims : list string;
  wk_floors : jsmap string Floor;
}.

Record RankChoice : Type := mkChoice {
  rc_node : PlacementNode;
  rc_victims : list PlacementInstance;
  rc_port : Z;
  rc_gpuKeys : list string;
  rc_needs : Needs;
  rc_take : ClaimUsage;
  rc_leftover : Z * Z;
  rc_waits : bool;
  rc_definition : option string;
}.

Record InstanceChoice : Type := mkInstanceChoice {
  ic_working : Working;
  ic_ranks : list RankChoice;
  ic_reservations : list RankChoice;
  ic_fabric : option PlacementFabric;
  ic_cost : Disruption;
  ic_leftover : Z;
}.

Definition waitingRanks (choice : InstanceChoice) : Z := Z.of_nat (length (List.filter rc_waits (ic_ranks choice))).

Definition fabric_size (choice : InstanceChoice) : Z :=
  match ic_fabric choice with Some f => Z.of_nat (length (pf_members f)) | None => 0 end.
Definition fabric_name (choice : InstanceChoice) : string :=
  match ic_fabric choice with Some f => pf_name f | None => "" end.

Definition compareInstanceChoice (a b : InstanceChoice) : Z :=
  num_or (compareCost (ic_cost a) (ic_cost b))
    (num_or (waitingRanks a - waitingRanks b)
       (num_or (fabric_size a - fabric_size b)
          (num_or (ic_leftover a - ic_leftover b) (compareCodePoints (fabric_name a) (fabric_name b))))).

Definition compareRank (a b : RankChoice) : Z :=
  num_or (compareCost (costOf (rc_victims a)) (costOf (rc_victims b)))
    (num_or (Z.b2z (rc_waits a) - Z.b2z (rc_waits b))
       (num_or ((rc_leftover a).1 - (rc_leftover b).1)
          (num_or ((rc_leftover a).2 - (rc_leftover b).2)
             (compareCodePoints (pn_slug (rc_node a)) (pn_slug (rc_node b)))))).

Definition is_node (id : option string) (c : RankChoice) : Z := Z.b2z (bool_decide (Some (pn_id (rc_node c)) = id)).

Definition sortReservationChoices (previous : option string) (choices : list RankChoice) : list RankChoice :=
  sort_by (λ a b, num_or (is_node previous b - is_node previous a) (compareRank a b)) choices.

Definition rankResources (launch : LaunchShape) (rank : nat) : RuntimeResource :=
  default Rnone (ls_resources launch !! (if (length (ls_resources launch) =? 1)%nat then O else rank)).

Definition wantedPort (request : PlacementRequest) (index : nat) : RankPort :=
  match ls_fixedPort (rq_launch request) with
  | Some fixed => mkPort (Some fixed) None
  | None => mkPort None (match rq_restart request with Some r => re_ports r !! index | None => None end)
  end.

(** [rankChoice] of a fit that succeeded. *)
Definition rankChoice (node : PlacementNode) (budget : Budget) (port : Z) (gpuKeys : list string) (needs : Needs) (take : ClaimUsage)
  (victims : list PlacementInstance) (waits : bool) (definition : option string) : RankChoice :=
  let gpuLeft := fold_left (λ sum g, sum + gb_freeGb g - gpu_at (gb_key g) (gpus take))
                   (List.filter (λ g, negb (gb_unified g) && bool_decide (gb_key g ∈ gpuKeys)) (b_gpus budget)) 0 in
  mkChoice node victims port gpuKeys needs take (b_memoryGb budget - memoryGb take, gpuLeft) waits definition.

(** ** Eligibility *)

Definition all_labels (labels : list string) (node : PlacementNode) : bool := forallb (λ l, bool_decide (l ∈ pn_labels node)) labels.

Definition agent_barred (context : PlacementContext) (node : PlacementNode) : bool :=
  pc_agent context && negb (bool_decide (pn_trust node = Full)).

Definition reservationIneligible (context : PlacementContext) (node : PlacementNode) (labels : list string) : option RefusalReason :=
  if negb (all_labels labels node) then Some R_label_mismatch
  else if agent_barred context node then Some R_trust_relay
  else if pn_held node then Some R_node_held
  else if negb (pn_online node) then Some R_node_offline
  else None.

Definition ineligible (context : PlacementContext) (node : PlacementNode) (request : PlacementRequest) : option RefusalReason :=
  if negb (all_labels (ls_labels (rq_launch request)) node) then Some R_label_mismatch
  else if match pn_launch node with Some c => negb (launchRunsOn (ls_needs (rq_launch request)) c) | None => false end
       then Some R_unsupported_platform
  else if agent_barred context node then Some R_trust_relay
  else if rq_checkFrozen request && bool_decide (pn_trust node = Relay) && negb (bool_decide (rq_versionId request ∈ pn_heldVersionIds node))
       then Some R_definition_frozen
  else if pn_held node then Some R_node_held
  else if negb (pn_online node) then Some R_node_offline
  else None.

(** ** Fabrics *)

Definition is_member (fabric : PlacementFabric) (nodeId : string) : bool := existsb (λ m, bool_decide (m.1 = nodeId)) (pf_members fabric).

Definition fabricsFor (context : PlacementContext) (launch : LaunchShape) : list PlacementFabric :=
  sort_by (λ a b, num_or (compareCodePoints (pf_name a) (pf_name b)) (compareCodePoints (pf_id a) (pf_id b)))
    (List.filter (λ f, match ls_fabric launch with None => true | Some n => bool_decide (pf_name f = n) end) (pc_fabrics context)).

Definition in_scope (scope : option (list string)) (id : string) : bool :=
  match scope with None => true | Some ids => bool_decide (id ∈ ids) end.

Definition scopedMembers (p : Planner) (fabric : PlacementFabric) (request : PlacementRequest) : list string :=
  List.filter (λ id, map_has id (nodes p) && in_scope (rq_allowedNodeIds request) id) (map fst (pf_members fabric)).

Definition withinScope (p : Planner) (fabric : PlacementFabric) (request : PlacementRequest) : bool :=
  (0 <? length (scopedMembers p fabric request))%nat.

Definition member_ip (fabric : PlacementFabric) (nodeId : string) : option string :=
  snd <$> List.find (λ m, bool_decide (m.1 = nodeId)) (pf_members fabric).

(** Whether a node's frozen copy of the fabric lists the head's address. *)
Definition frozen_accepts (fabric : PlacementFabric) (launch : LaunchShape) (headAddr : option string) (f : PlacementFrozenFabric) : bool :=
  bool_decide (ff_fabricId f = pf_id fabric)
  && match ls_fabric launch with None => true | Some n => bool_decide (ff_name f = n) end
  && match headAddr with Some a => bool_decide (a ∈ ff_memberIps f) | None => false end.

Definition frozenRefuser (p : Planner) (ns : list PlacementNode) (fabric : option PlacementFabric) (launch : LaunchShape) : option PlacementNode :=
  match fabric, ns with
  | Some fabric, head :: _ =>
      let headAddr := member_ip fabric (pn_id head) in
      List.find (λ node,
        bool_decide (pn_trust node = Relay)
        && match default None (map_get (pn_id node) (pl_frozen p)) with
           | Some frozen => negb (existsb (frozen_accepts fabric launch headAddr) frozen)
           | None => false
           end) ns
  | _, _ => None
  end.

(** ** Stops *)

(** [#heldOn]. *)
Definition heldOn (p : Planner) (instanceId : string) (on : string → bool) : bool :=
  match map_get instanceId (instances p) with
  | Some i => existsb (λ rank, match pr_nodeId rank with Some n => isHeld rank && on n | None => false end) (pi_ranks i)
  | None => false
  end.

Definition full_trust (p : Planner) (nodeId : option string) : bool :=
  match nodeId ≫= (λ id, map_get id (nodes p)) with Some n => bool_decide (pn_trust n = Full) | None => false end.

(** [#preemptible]: the authorization rule. *)
Definition preemptible (p : Planner) (instance : PlacementInstance) (request : PlacementRequest) : bool :=
  if bool_decide (pi_id instance ∈ pl_stopping p) then false
  else if negb (pi_startable instance) || negb (pi_running instance) then false
  else if negb (bool_decide (pi_ownerId instance = pc_callerId (pl_context p))) then false
  else if bool_decide (Some (pi_id instance) = re_instanceId <$> rq_restart request) then false
  else if bool_decide (pi_runtimeId instance = rq_runtimeId request) then false
  else if (length (currentClaims instance) =? 0)%nat then false
  else if pc_agent (pl_context p) then
    if pi_contributed instance || pi_interactiveStop instance then false
    else if negb (forallb (λ rank, full_trust p (pr_nodeId rank)) (pi_ranks instance)) then false
    else forallb (λ id, full_trust p (Some id)) (pi_cleanupNodeIds instance)
  else true.

Definition groups_of (p : Planner) (instanceId : string) : list ClaimGroup := default [] (map_get instanceId (pl_groups p)).

(** [#freeOnNode]. *)
Definition freeOnNode (p : Planner) (instanceId nodeId : string) (budget : Budget) : Budget :=
  fold_left (λ b g, if bool_decide (cg_nodeId g = nodeId) && cg_held g then applyUsage b (cg_usage g) (-1) else b) (groups_of p instanceId) budget.

Inductive FreeMode : Type := stop_mode | restart_mode | release_mode.

Definition free_ports_rank (budgets : jsmap string Budget) (rank : PlacementRank) : jsmap string Budget :=
  match pr_nodeId rank with
  | Some nodeId =>
      if pr_reservation rank then budgets
      else with_budget nodeId (λ b,
             let ports := port_delete (pr_port rank) (b_ports b) in
             mkBudget (b_memoryGb b) (b_gpus b) (match pr_distPort rank with Some d => port_delete d ports | None => ports end) (b_definitions b))
             budgets
  | None => budgets
  end.

(** [#freePorts]. *)
Definition freePorts (w : Working) (instance : PlacementInstance) : Working :=
  mkWorking (fold_left free_ports_rank (pi_ranks instance) (wk_budgets w)) (wk_victims w) (wk_floors w).

(** One group of [#freeInstance]: the budgets, and a restart's floors per node. *)
Definition free_group (mode : FreeMode) (stopped : bool) (st : jsmap string Budget * jsmap string (list ClaimUsage * list string)) (g : ClaimGroup) :=
  let '(budgets, floors) := st in
  match map_get (cg_nodeId g) budgets with
  | None => st
  | Some b =>
      let freed := stopped && cg_held g in
      match mode with
      | restart_mode =>
          let floor := default ([], []) (map_get (cg_nodeId g) floors) in
          (if freed then map_set (cg_nodeId g) (applyUsage b (cg_usage g) 1) budgets else budgets,
           map_set (cg_nodeId g) (floor.1 ++ [cg_usage g], fold_left (λ s k, set_add k s) (cg_keys g) floor.2) floors)
      | stop_mode => if freed || negb (cg_held g) then st else (map_set (cg_nodeId g) (applyUsage b (cg_usage g) (-1)) budgets, floors)
      | release_mode => if freed then st else (map_set (cg_nodeId g) (applyUsage b (cg_usage g) (-1)) budgets, floors)
      end
  end.

(** [#freeInstance]. *)
Definition freeInstance (p : Planner) (w : Working) (instanceId : string) (mode : FreeMode) : Working :=
  match map_get instanceId (instances p) with
  | None => w
  | Some instance =>
      let '(budgets, floors) := fold_left (free_group mode (bool_decide (instanceId ∈ pl_stopping p))) (groups_of p instanceId) (wk_budgets w, []) in
      let w := mkWorking budgets (wk_victims w)
                 (fold_left (λ m nf, map_set nf.1 (mkFloor (sumUsage nf.2.1) nf.2.2 NO_USAGE) m) floors (wk_floors w)) in
      match mode with stop_mode => w | _ => freePorts w instance end
  end.

Definition victims_of (p : Planner) (w : Working) : list PlacementInstance := omap (λ id, map_get id (instances p)) (wk_victims w).

Definition costOfWorking (p : Planner) (w : Working) : Disruption := costOf (victims_of p w).

(** ** Taking a claim *)

Definition with_port (port : Z) (b : Budget) : Budget := mkBudget (b_memoryGb b) (b_gpus b) (port_add port (b_ports b)) (b_definitions b).
Definition without_port (port : Z) (b : Budget) : Budget := mkBudget (b_memoryGb b) (b_gpus b) (port_delete port (b_ports b)) (b_definitions b).

(** [takeClaim] on the node's budget [b] of [w]. *)
Definition takeClaim (w : Working) (b : Budget) (choice : RankChoice) : Working :=
  let id := pn_id (rc_node choice) in
  let taken := applyUsage b (rc_take choice) 1 in
  let b' := mkBudget (b_memoryGb taken) (b_gpus taken) (b_ports taken)
              (match rc_definition choice with Some d => set_add d (b_definitions taken) | None => b_definitions taken end) in
  mkWorking (map_set id b' (wk_budgets w)) (wk_victims w)
    (match map_get id (wk_floors w) with
     | Some floor =>
         map_set id (mkFloor (f_floor floor) (f_keys floor) (sumUsage [f_placed floor; usageOf b' (rc_needs choice) (rc_gpuKeys choice)])) (wk_floors w)
     | None => wk_floors w
     end).

(** Stops the victims not stopped yet, everywhere. *)
Definition stop_victims (p : Planner) (w : Working) (victims : list PlacementInstance) : Working :=
  fold_left (λ w v,
    if bool_decide (pi_id v ∈ wk_victims w) then w
    else freeInstance p (mkWorking (wk_budgets w) (wk_victims w ++ [pi_id v]) (wk_floors w)) (pi_id v) stop_mode) victims w.

(** [#commitRank]: also the choice with the GPUs picked on the freed budget. *)
Definition commitRank (p : Planner) (w : Working) (choice : RankChoice) (withPort : bool) : Working * RankChoice :=
  let w := stop_victims p w (rc_victims choice) in
  let id := pn_id (rc_node choice) in
  match map_get id (wk_budgets w) with
  | None => (w, choice)
  | Some b =>
      let floor := map_get id (wk_floors w) in
      let gpuKeys := default (rc_gpuKeys choice)
                       (match floor with Some f => pickGpusOver b (rc_needs choice) f | None => pickGpus b (rc_needs choice) end) in
      let usage := usageOf b (rc_needs choice) gpuKeys in
      let choice := mkChoice (rc_node choice) (rc_victims choice) (rc_port choice) gpuKeys (rc_needs choice)
                      (match floor with Some f => overlapGrowth (f_floor f) (f_placed f) usage | None => usage end)
                      (rc_leftover choice) (rc_waits choice) (rc_definition choice) in
      let w := takeClaim w b choice in
      (if withPort then mkWorking (with_budget id (with_port (rc_port choice)) (wk_budgets w)) (wk_victims w) (wk_floors w) else w, choice)
  end.

(** ** The dist port *)

Inductive DistPlan : Type :=
  | DistPort (port : Z) (moves : list (nat * Z))
  | DistRefused (reason : RefusalReason).

(** One rank of a candidate port: [None] when the port cannot be used there, else the port its
    serving port moves to, if it must. *)
Definition dist_rank (w : Working) (port : Z) (allowMoves : bool) (rank : RankChoice) : option (option Z) :=
  match map_get (pn_id (rc_node rank)) (wk_budgets w) with
  | None => None
  | Some b =>
      if negb (inRange port (pn_portRange (rc_node rank))) then None
      else if negb (port_has port (b_ports b)) then Some None
      else if negb allowMoves || negb (rc_port rank =? port) then None
      else let '(start, last) := pn_portRange (rc_node rank) in
           match List.find (λ c, negb (c =? port) && negb (port_has c (b_ports b))) (seqZ start (last - start + 1)) with
           | Some moved => Some (Some moved)
           | None => None
           end
  end.

(** [plan(port, allowMoves)]: the moves by rank index. *)
Definition dist_plan_at (w : Working) (ranks : list RankChoice) (port : Z) (allowMoves : bool) : option (list (nat * Z)) :=
  fold_left (λ acc ix,
    match acc, dist_rank w port allowMoves ix.2 with
    | Some moves, Some None => Some moves
    | Some moves, Some (Some moved) => Some (moves ++ [(ix.1, moved)])
    | _, _ => None
    end) (indexed ranks) (Some []).

(** The first port of the list with a plan. *)
Fixpoint first_plan (w : Working) (ranks : list RankChoice) (allowMoves : bool) (ports : list Z) : option (Z * list (nat * Z)) :=
  match ports with
  | [] => None
  | port :: ports' =>
      match dist_plan_at w ranks port allowMoves with Some moves => Some (port, moves) | None => first_plan w ranks allowMoves ports' end
  end.

(** [#distPlan]; it is only asked for a group of at least one rank. *)
Definition distPlan (w : Working) (ranks : list RankChoice) (restart : option Restart) (movable : bool) : DistPlan :=
  match map (λ r, (pn_portRange (rc_node r)).1) ranks, map (λ r, (pn_portRange (rc_node r)).2) ranks with
  | s0 :: starts, e0 :: ends =>
      let start := fold_left Z.max starts s0 in
      let last := fold_left Z.min ends e0 in
      if last <? start then DistRefused R_fabric_port_ranges_disjoint
      else
        let own := match restart with Some r => re_distPort r | None => None end in
        let kept := match own with
                    | Some o => if inRange o (start, last) then (λ moves, (o, moves)) <$> dist_plan_at w ranks o false else None
                    | None => None
                    end in
        let ports := seqZ start (last - start + 1) in
        match kept with
        | Some (port, moves) => DistPort port moves
        | None =>
            match first_plan w ranks false ports with
            | Some (port, moves) => DistPort port moves
            | None =>
                match (if movable then first_plan w ranks true ports else None) with
                | Some (port, moves) => DistPort port moves
                | None => DistRefused R_no_free_ports
                end
            end
        end
  | _, _ => DistRefused R_no_free_ports
  end.
