(* ===== verification/PlacementSteps.v ===== *)
(** * PlacementSteps: placing one rank, and the reservations

    The planner's work budget as a small state and exception monad (every fit tried and every
    node checked is charged; past the budget the [place()] is refused), and the searches of
    [PlacementPlanner] that place one claim on one node ([#rankOn], with the cheapest set of
    stops) and all reservations of a request ([#placeReservations]). *)
From Stdlib Require Import ssreflect.
From S2P Require Import Prelude ClaimOverlap PlacementFit ReservationMatching PlacementModel PlacementRules.

(** ** The effects of one [place()] *)

(** A set-level problem: its reason and the node it is about. *)
Record GroupProblem : Type := mkProblem { gp_reason : RefusalReason; gp_subjectId : option string }.

Record Effects : Type := mkEffects {
  ef_workLeft : Z;
  ef_workDone : Z;
  ef_setTries : nat;
  ef_reservationRefusal : option PlacementRefusal;
  ef_fitReasons : list RefusalReason;
  ef_groupReasons : list GroupProblem;
}.

(** A value, [WorkBudgetSpent], or no answer within the fuel of a loop. *)
Inductive Answer (A : Type) : Type := Value (a : A) | Spent | Stuck.
Arguments Value {A} a.
Arguments Spent {A}.
Arguments Stuck {A}.

Definition M (A : Type) : Type := Effects → Answer A * Effects.

Definition ret {A} (a : A) : M A := λ s, (Value a, s).

Definition bind {A B} (m : M A) (k : A → M B) : M B :=
  λ s, match m s with
       | (Value a, s') => k a s'
       | (Spent, s') => (Spent, s')
       | (Stuck, s') => (Stuck, s')
       end.

Notation "'do!' x ':=' m 'in' k" := (bind m (λ x, k)) (at level 10, x pattern, m at level 100, k at level 200) : js_scope.

Definition stuck {A} : M A := λ s, (Stuck, s).
Definition gets {A} (f : Effects → A) : M A := λ s, (Value (f s), s).
Definition modify (f : Effects → Effects) : M unit := λ s, (Value tt, f s).

Fixpoint foldM {A B} (f : A → B → M A) (l : list B) (a : A) : M A :=
  match l with
  | [] => ret a
  | x :: l' => do! a' := f a x in foldM f l' a'
  end.

Fixpoint mapM {A B} (f : A → M B) (l : list A) : M (list B) :=
  match l with
  | [] => ret []
  | x :: l' => do! y := f x in do! ys := mapM f l' in ret (y :: ys)
  end.

(** [#charge]. *)
Definition charge (units : Z) : M unit :=
  λ s, let left := ef_workLeft s - units in
       let s' := mkEffects left (ef_workDone s + units) (ef_setTries s) (ef_reservationRefusal s) (ef_fitReasons s) (ef_groupReasons s) in
       if left <? 0 then (Spent, s') else (Value tt, s').

Definition set_refusal (r : option PlacementRefusal) : M unit :=
  modify (λ s, mkEffects (ef_workLeft s) (ef_workDone s) (ef_setTries s) r (ef_fitReasons s) (ef_groupReasons s)).
Definition set_tries (n : nat) : M unit :=
  modify (λ s, mkEffects (ef_workLeft s) (ef_workDone s) n (ef_reservationRefusal s) (ef_fitReasons s) (ef_groupReasons s)).
Definition set_reasons (fits : list RefusalReason) (groups : list GroupProblem) : M unit :=
  modify (λ s, mkEffects (ef_workLeft s) (ef_workDone s) (ef_setTries s) (ef_reservationRefusal s) fits groups).

Definition add_fit_reasons (rs : list RefusalReason) : M unit :=
  modify (λ s, mkEffects (ef_workLeft s) (ef_workDone s) (ef_setTries s) (ef_reservationRefusal s)
                 (fold_left (λ l r, set_add r l) rs (ef_fitReasons s)) (ef_groupReasons s)).

(** [noteProblem]: the first of each reason. *)
Definition noteProblem (problem : GroupProblem) : M unit :=
  modify (λ s, mkEffects (ef_workLeft s) (ef_workDone s) (ef_setTries s) (ef_reservationRefusal s) (ef_fitReasons s)
                 (if existsb (λ g, bool_decide (gp_reason g = gp_reason problem)) (ef_groupReasons s) then ef_groupReasons s
                  else ef_groupReasons s ++ [problem])).

(** ** One rank *)

Inductive OnNode : Type := Chosen (choice : RankChoice) | NotOn (reason : FitReason).

(** The subset of a mask. *)
Definition masked {A} (mask : nat) (l : list A) : list A :=
  map snd (List.filter (λ ix, Nat.testbit mask ix.1) (indexed l)).

Definition fit_on (node : PlacementNode) (b : Budget) (resources : RuntimeResource) (wanted : RankPort) (needsPort : bool) (floor : option Floor) : Fit :=
  fit (pn_portRange node) b (Some resources) wanted needsPort floor.

Section Planner.
Context (p : Planner).

(** The instances a stop set is made of: the caller may stop them, and they hold on the node. *)
Definition stop_candidates (w : Working) (request : PlacementRequest) (node : PlacementNode) : list PlacementInstance :=
  take MAX_VICTIMS_PER_NODE
    (sort_by (λ a b, compareCost (costOf [a]) (costOf [b]))
       (List.filter (λ i,
          negb (bool_decide (pi_id i ∈ wk_victims w))
          && existsb (λ claim, bool_decide (pr_nodeId claim = Some (pn_id node))) (pi_ranks i)
          && preemptible p i request) (instance_values p))).

Definition free_on_node (b : Budget) (victims : list PlacementInstance) (nodeId : string) : Budget :=
  fold_left (λ b v, freeOnNode p (pi_id v) nodeId b) victims b.

(** One stop set of [#rankOn]. *)
Definition try_stops (node : PlacementNode) (budget : Budget) (resources : RuntimeResource) (wanted : RankPort) (needsPort : bool)
  (floor : option Floor) (waits : bool) (definition : option string) (candidates : list PlacementInstance)
  (st : option (RankChoice * Disruption) * FitReason) (mask : nat) : M (option (RankChoice * Disruption) * FitReason) :=
  let '(best, reason) := st in
  let victims := masked mask candidates in
  let cost := costOf victims in
  if match best with Some (_, bestCost) => 0 <=? compareCost cost bestCost | None => false end then ret st
  else
    do! _ := charge 1 in
    let trial := free_on_node budget victims (pn_id node) in
    ret match fit_on node trial resources wanted needsPort floor with
        | FitOk port gpuKeys needs take => (Some (rankChoice node trial port gpuKeys needs take victims waits definition, cost), reason)
        | FitRefused r => (best, if bool_decide (r = not_enough_memory) then reason else r)
        end.

(** [#rankOn]. *)
Definition rankOn (w : Working) (request : PlacementRequest) (node : PlacementNode) (resources : RuntimeResource) (wanted : RankPort)
  (preempt needsPort : bool) : M OnNode :=
  do! _ := charge 1 in
  match map_get (pn_id node) (wk_budgets w) with
  | None => ret (NotOn not_enough_memory)
  | Some budget =>
      if needsPort && definitionSlotsFull budget (rq_nodeOrigin request) (rq_versionId request) then ret (NotOn definition_slots_full)
      else
        let definition := if needsPort && negb (rq_nodeOrigin request) then Some (rq_versionId request) else None in
        let waits := existsb (λ id, negb (bool_decide (Some id = re_instanceId <$> rq_restart request))
                                    && heldOn p id (λ n, bool_decide (n = pn_id node))) (pl_draining p) in
        let floor := map_get (pn_id node) (wk_floors w) in
        match fit_on node budget resources wanted needsPort floor with
        | FitOk port gpuKeys needs take => ret (Chosen (rankChoice node budget port gpuKeys needs take [] waits definition))
        | FitRefused reason =>
            if negb preempt || negb (bool_decide (reason = not_enough_memory)) then ret (NotOn reason)
            else
              let candidates := stop_candidates w request node in
              do! st := foldM (try_stops node budget resources wanted needsPort floor waits definition candidates)
                          (seq 1 (2 ^ length candidates - 1)) (None, not_enough_memory) in
              ret match st.1 with Some (choice, _) => Chosen choice | None => NotOn st.2 end
        end
  end.

Definition cloneWorkingCharged (w : Working) : M Working := do! _ := charge (Z.of_nat (length (wk_budgets w))) in ret w.

(** ** Reservations *)

Inductive MissReason : Type := miss_memory | miss_offline | miss_held | miss_relay | miss_runtime_node.
#[export] Instance MissReason_eq : EqDecision MissReason.
Proof. solve_decision. Defined.

Record ReservationMiss : Type := mkMiss { ms_node : PlacementNode; ms_reason : MissReason; ms_freeGb : Z }.

Record ScanEntry : Type := mkScan { sc_reservation : LaunchReservation; sc_candidates : list PlacementNode; sc_misses : list ReservationMiss }.

Definition by_slug (l : list PlacementNode) : list PlacementNode := sort_by (λ a b, compareCodePoints (pn_slug a) (pn_slug b)) l.

(** One node of a reservation's scan. *)
Definition scan_node (request : PlacementRequest) (reservation : LaunchReservation) (st : list PlacementNode * list ReservationMiss)
  (node : PlacementNode) : M (list PlacementNode * list ReservationMiss) :=
  do! _ := charge 1 in
  ret (if negb (in_scope (rq_reservationNodeIds request) (pn_id node)) then st
       else match reservationIneligible (pl_context p) node (lr_labels reservation) with
            | Some R_label_mismatch => st
            | Some R_trust_relay => (st.1, st.2 ++ [mkMiss node miss_relay 0])
            | Some R_node_held => (st.1, st.2 ++ [mkMiss node miss_held 0])
            | Some _ => (st.1, st.2 ++ [mkMiss node miss_offline 0])
            | None => (st.1 ++ [node], st.2)
            end).

(** [#scanReservations]: the entries and, when they cannot all have a node, the first left
    without. *)
Definition scanReservations (request : PlacementRequest) : M (option (list ScanEntry * option nat)) :=
  match ls_reservations (rq_launch request) with
  | [] => ret None
  | reservations =>
      do! entries := mapM (λ r,
        do! cm := foldM (scan_node request r) (by_slug (node_values p)) ([], []) in
        ret (mkScan r cm.1 cm.2)) reservations in
      match assignReservations (map (λ e, map pn_id (sc_candidates e)) entries) with
      | Some (Assigned _) => ret (Some (entries, None))
      | Some (AssignFailed i) => ret (Some (entries, Some i))
      | None => stuck
      end
  end.

Definition budget_memory (w : Working) (id : string) : Z := match map_get id (wk_budgets w) with Some b => b_memoryGb b | None => 0 end.

(** One node of a reservation: a choice or a miss. *)
Definition reservation_on (w : Working) (request : PlacementRequest) (resources : RuntimeResource) (preempt : bool)
  (st : list RankChoice * list ReservationMiss) (node : PlacementNode) : M (list RankChoice * list ReservationMiss) :=
  do! r := rankOn w request node resources (mkPort None None) preempt false in
  ret match r with
      | Chosen choice => (st.1 ++ [choice], st.2)
      | NotOn _ => (st.1, st.2 ++ [mkMiss node miss_memory (budget_memory w (pn_id node))])
      end.

Definition misses_by (reason : MissReason) (misses : list ReservationMiss) : list ReservationMiss :=
  List.filter (λ m, bool_decide (ms_reason m = reason)) misses.

(** [reservationRefusal]: the first part decides the reason and the node. *)
Definition reservationRefusal (index : nat) (reservation : LaunchReservation) (misses : list ReservationMiss) (fitting : list RankChoice) : PlacementRefusal :=
  let memory := match misses_by miss_memory misses with
                | [] => []
                | m :: ms => [(R_not_enough_memory, Some (ms_node (fold_left (λ best miss, if ms_freeGb best <? ms_freeGb miss then miss else best) ms m)))]
                end in
  let of_kind k reason := match misses_by k misses with [] => [] | m :: _ => [(reason, Some (ms_node m))] end in
  let parts := memory ++ of_kind miss_offline R_node_offline ++ of_kind miss_held R_node_held ++ of_kind miss_relay R_trust_relay
               ++ (match fitting with [] => [] | _ => [(R_not_enough_nodes, None)] end)
               ++ (match misses_by miss_runtime_node misses with [] => [] | _ => [(R_not_enough_nodes, None)] end) in
  match parts with
  | [] => mkRefusal R_not_enough_nodes None (Some (index, lr_labels reservation, None))
  | (reason, node) :: _ => mkRefusal reason (pn_id <$> node) (Some (index, lr_labels reservation, pn_slug <$> node))
  end.

Definition misses_by_slug (l : list ReservationMiss) : list ReservationMiss :=
  sort_by (λ a b, compareCodePoints (pn_slug (ms_node a)) (pn_slug (ms_node b))) l.

(** [#unassignable]. *)
Definition unassignable (w : Working) (request : PlacementRequest) (entries : list ScanEntry) (failed : nat) : M PlacementRefusal :=
  match entries !! failed with
  | None => ret (refusal R_not_enough_nodes None)
  | Some entry =>
      do! cm := foldM (reservation_on w request (lr_resources (sc_reservation entry)) (rq_preempt request)) (sc_candidates entry) ([], sc_misses entry) in
      ret (reservationRefusal failed (sc_reservation entry) (misses_by_slug cm.2) cm.1)
  end.

Definition previous_node (request : PlacementRequest) (index : nat) : option string :=
  match rq_restart request with Some r => default None (re_reservationNodeIds r !! index) | None => None end.

(** [ReservationFits]: per reservation its choices and room misses before the rank took a node. *)
Definition ReservationFits : Type := list (list RankChoice * list ReservationMiss).

(** [#reservationFits]. *)
Definition reservationFits (scan : option (list ScanEntry)) (w : Working) (request : PlacementRequest) (preempt : bool) : M ReservationFits :=
  mapM (λ ie : nat * ScanEntry,
    do! cm := foldM (reservation_on w request (lr_resources (sc_reservation ie.2)) preempt) (sc_candidates ie.2) ([], []) in
    ret (sortReservationChoices (previous_node request ie.1) cm.1, cm.2)) (indexed (default [] scan)).

(** Whether a fit worked out before may be reused: the node is not a rank's and not changed. *)
Definition reusable (rankNodes changed : list string) (id : string) : bool :=
  negb (bool_decide (id ∈ rankNodes)) && negb (bool_decide (id ∈ changed)).

(** The choices and misses of one reservation ([options] of [#placeReservations]). *)
Definition reservation_options (w : Working) (request : PlacementRequest) (rankNodes : list string) (preempt : bool)
  (reuse : option (ReservationFits * list string)) (ie : nat * ScanEntry) : M (ScanEntry * list RankChoice * list ReservationMiss) :=
  let '(index, entry) := ie in
  let reused := match reuse with
                | Some (fits, changed) =>
                    match fits !! index with
                    | Some (choices, room) =>
                        Some (choices, room,
                              List.filter (λ c, reusable rankNodes changed (pn_id (rc_node c))) choices,
                              List.filter (λ m, reusable rankNodes changed (pn_id (ms_node m))) room)
                    | None => None
                    end
                | None => None
                end in
  do! _ := match reused with
           | Some (choices, room, _, _) => foldM (λ _ _, charge 1) (seq 0 (length choices + length room)) tt
           | None => ret tt
           end in
  let '(choices0, misses0) := match reused with Some (_, _, c, m) => (c, m) | None => ([], []) end in
  let known := map (λ c, pn_id (rc_node c)) choices0 ++ map (λ m, pn_id (ms_node m)) misses0 in
  do! cm := foldM (λ st node,
    if bool_decide (pn_id node ∈ known) then ret st
    else do! _ := charge 1 in
         if bool_decide (pn_id node ∈ rankNodes) then ret (st.1, st.2 ++ [mkMiss node miss_runtime_node 0])
         else reservation_on w request (lr_resources (sc_reservation entry)) preempt st node)
    (sc_candidates entry) (choices0, sc_misses entry ++ misses0) in
  ret (entry, sortReservationChoices (previous_node request index) cm.1, misses_by_slug cm.2).

(** The commit of one assigned reservation: it is fitted again on the working budgets. *)
Definition commit_reservation (request : PlacementRequest) (preempt : bool) (nodeIds : list string)
  (st : Working * list RankChoice + PlacementRefusal) (io : nat * (ScanEntry * list RankChoice * list ReservationMiss)) :
  M (Working * list RankChoice + PlacementRefusal) :=
  match st with
  | inr r => ret (inr r)
  | inl (w, placed) =>
      let '(index, (entry, choices, misses)) := io in
      let assigned := List.find (λ c, bool_decide (Some (pn_id (rc_node c)) = nodeIds !! index)) choices in
      match assigned with
      | None => ret (inr (reservationRefusal index (sc_reservation entry) misses []))
      | Some c =>
          let node := rc_node c in
          do! r := rankOn w request node (lr_resources (sc_reservation entry)) (mkPort None None) preempt false in
          ret match r with
              | Chosen choice => let '(w', choice') := commitRank p w choice false in inl (w', placed ++ [choice'])
              | NotOn _ => inr (reservationRefusal index (sc_reservation entry) [mkMiss node miss_memory (budget_memory w (pn_id node))] [])
              end
      end
  end.

(** [#placeReservations]. *)
Definition placeReservations (scan : option (list ScanEntry)) (w : Working) (request : PlacementRequest) (ranks : list RankChoice) (preempt : bool)
  (reuse : option (ReservationFits * list string)) : M (Working * list RankChoice + PlacementRefusal) :=
  match ls_reservations (rq_launch request) with
  | [] => ret (inl (w, []))
  | _ =>
      do! scanned := match scan with
                     | Some entries => ret (inl (Some entries))
                     | None =>
                         do! s := scanReservations request in
                         match s with
                         | None => ret (inl None)
                         | Some (entries, Some failed) => do! r := unassignable w request entries failed in ret (inr r)
                         | Some (entries, None) => ret (inl (Some entries))
                         end
                     end in
      match scanned with
      | inr r => ret (inr r)
      | inl None => ret (inl (w, []))
      | inl (Some entries) =>
          let rankNodes := map (λ r, pn_id (rc_node r)) ranks in
          do! options := mapM (reservation_options w request rankNodes preempt reuse) (indexed entries) in
          match assignReservations (map (λ o, map (λ c, pn_id (rc_node c)) o.1.2) options) with
          | None => stuck
          | Some (AssignFailed i) =>
              ret (inr match options !! i with
                       | Some (entry, choices, misses) => reservationRefusal i (sc_reservation entry) misses choices
                       | None => refusal R_not_enough_nodes None
                       end)
          | Some (Assigned nodeIds) => foldM (commit_reservation request preempt nodeIds) (indexed options) (inl (w, []))
          end
      end
  end.
End Planner.
