(* ===== verification/PlacementPlanner.v ===== *)
(** * PlacementPlanner: placing an instance

    The search of [PlacementPlanner] ([placement.ts]): one node per rank greedily, other node sets
    when the best one cannot run, one fabric, preemption seeds, the reservations with the rank,
    the pruning of stops the placement does not need, and [place()], which commits the choice.
    The loop over other node sets runs on fuel: [MAX_SET_TRIES + 1] rounds always suffice
    ([PlacementSafety.place_answers]). *)
From Stdlib Require Import ssreflect.
From S2P Require Import Prelude ClaimOverlap PlacementFit ReservationMatching PlacementModel PlacementRules PlacementSteps.

Section Planner.
Context (p : Planner) (scan : option (list ScanEntry)).

(** ** Greedy groups *)

(** The best node of a rank among the candidates: [None] yet, and the fit reasons. *)
Definition greedy_node (w : Working) (request : PlacementRequest) (index : nat) (used : list string) (head : option string) (preempt : bool)
  (st : option RankChoice * list RefusalReason) (node : PlacementNode) : M (option RankChoice * list RefusalReason) :=
  if bool_decide (pn_id node ∈ used)
     || ((index =? 0)%nat && match head with Some h => negb (bool_decide (pn_id node = h)) | None => false end) then ret st
  else
    do! r := rankOn p w request node (rankResources (rq_launch request) index) (wantedPort request index) preempt true in
    ret match r with
        | NotOn reason => (st.1, st.2 ++ [of_fit reason])
        | Chosen choice =>
            (match st.1 with
             | Some best => if compareRank choice best <? 0 then Some choice else Some best
             | None => Some choice
             end, st.2)
        end.

(** The ranks of a group in order; the fit reasons are kept also when a rank has no node. *)
Fixpoint greedy_ranks (request : PlacementRequest) (candidates : list PlacementNode) (preempt : bool) (head : option string)
  (indices : list nat) (w : Working) (ranks : list RankChoice) (reasons : list RefusalReason) :
  M (option (Working * list RankChoice) * list RefusalReason) :=
  match indices with
  | [] => ret (Some (w, ranks), reasons)
  | index :: indices' =>
      do! br := foldM (greedy_node w request index (map (λ r, pn_id (rc_node r)) ranks) head preempt) candidates (None, reasons) in
      match br.1 with
      | None => ret (None, br.2)
      | Some best =>
          let '(w', best') := commitRank p w best true in
          greedy_ranks request candidates preempt head indices' w' (ranks ++ [best']) br.2
      end
  end.

(** [#changedBy]. *)
Definition changedBy (choice : RankChoice) : list string :=
  fold_left (λ s v, fold_left (λ s rank, match pr_nodeId rank with Some n => set_add n s | None => s end)
                      (match map_get (pi_id v) (instances p) with Some i => pi_ranks i | None => [] end) s)
    (rc_victims choice) [pn_id (rc_node choice)].

(** Commits a rank node and places the reservations beside it. *)
Definition try_option (w : Working) (request : PlacementRequest) (fabric : option PlacementFabric) (preempt : bool) (fits : ReservationFits)
  (choice : RankChoice) : M (option InstanceChoice) :=
  do! w := cloneWorkingCharged w in
  let changed := changedBy choice in
  let '(trial, choice) := commitRank p w choice true in
  do! reserved := placeReservations p scan trial request [choice] preempt (Some (fits, changed)) in
  match reserved with
  | inr r => do! _ := set_refusal (Some r) in ret None
  | inl (trial, reservations) =>
      ret (Some (mkInstanceChoice trial [choice] reservations fabric (costOfWorking p trial) (rc_leftover choice).1))
  end.

(** The rank's nodes in order, the first whose reservations fit; [skipped] is the last one passed
    over without trying it. *)
Fixpoint try_options (w : Working) (request : PlacementRequest) (fabric : option PlacementFabric) (preempt : bool) (fits : ReservationFits)
  (together : bool) (options : list RankChoice) (skipped : option RankChoice) : M (option InstanceChoice) :=
  match options with
  | [] =>
      match skipped with
      | None => ret None
      | Some choice => do! _ := try_option w request fabric preempt fits choice in ret None
      end
  | choice :: options' =>
      if (length (rc_victims choice) =? 0)%nat && negb together then try_options w request fabric preempt fits together options' (Some choice)
      else do! r := try_option w request fabric preempt fits choice in
           match r with
           | Some found => ret (Some found)
           | None => try_options w request fabric preempt fits together options' None
           end
  end.

(** [#greedyWithReservations]. *)
Definition greedyWithReservations (w : Working) (request : PlacementRequest) (candidates : list PlacementNode) (fabric : option PlacementFabric)
  (preempt : bool) (head : option string) : M (option InstanceChoice * list RefusalReason) :=
  do! ors := foldM (λ st node,
    if match head with Some h => negb (bool_decide (pn_id node = h)) | None => false end then ret st
    else do! r := rankOn p w request node (rankResources (rq_launch request) 0) (wantedPort request 0) preempt true in
         ret match r with
             | NotOn reason => (st.1, st.2 ++ [of_fit reason])
             | Chosen choice => (st.1 ++ [choice], st.2)
             end) candidates ([], []) in
  match sort_by compareRank ors.1 with
  | [] => ret (None, ors.2)
  | options =>
      do! fits := reservationFits p scan w request preempt in
      match assignReservations (map (λ f, map (λ c, pn_id (rc_node c)) f.1) fits) with
      | None => stuck
      | Some a =>
          do! r := try_options w request fabric preempt fits (match a with Assigned _ => true | AssignFailed _ => false end) options None in
          ret (r, ors.2)
      end
  end.

(** [#greedyGroup]; the fit reasons are returned for the caller's set. *)
Definition greedyGroup (base : Working) (request : PlacementRequest) (candidates : list PlacementNode) (fabric : option PlacementFabric)
  (preempt : bool) (seed : option PlacementInstance) (head : option string) : M (option InstanceChoice * list RefusalReason) :=
  do! w := cloneWorkingCharged base in
  let w := match seed with
           | Some s => freeInstance p (mkWorking (wk_budgets w) (set_add (pi_id s) (wk_victims w)) (wk_floors w)) (pi_id s) stop_mode
           | None => w
           end in
  let launch := rq_launch request in
  if (0 <? length (ls_reservations launch))%nat && (ls_groupSize launch =? 1)%nat
  then greedyWithReservations w request candidates fabric preempt head
  else
    do! gr := greedy_ranks request candidates preempt head (seq 0 (ls_groupSize launch)) w [] [] in
    match gr.1 with
    | None => ret (None, gr.2)
    | Some (w, ranks) =>
        do! reserved := placeReservations p scan w request ranks preempt None in
        match reserved with
        | inr r => do! _ := set_refusal (Some r) in ret (None, gr.2)
        | inl (w, reservations) =>
            ret (Some (mkInstanceChoice w ranks reservations fabric (costOfWorking p w)
                         (fold_left (λ sum r, sum + (rc_leftover r).1) ranks 0)), gr.2)
        end
    end.

(** ** Other node sets *)

Definition dist_movable (request : PlacementRequest) : bool := bool_decide (ls_fixedPort (rq_launch request) = None).

(** [#groupProblem]. *)
Definition groupProblem (choice : InstanceChoice) (request : PlacementRequest) : option GroupProblem :=
  if (ls_groupSize (rq_launch request) <=? 1)%nat then None
  else match frozenRefuser p (map rc_node (ic_ranks choice)) (ic_fabric choice) (rq_launch request) with
       | Some refuser => Some (mkProblem R_head_not_in_frozen_fabric (Some (pn_id refuser)))
       | None =>
           match distPlan (ic_working choice) (ic_ranks choice) (rq_restart request) (dist_movable request) with
           | DistRefused reason => Some (mkProblem reason ((λ r, pn_id (rc_node r)) <$> head (ic_ranks choice)))
           | DistPort _ _ => None
           end
       end.

Record Trial : Type := mkTrial { tr_left : list string; tr_head : option string }.
#[export] Instance Trial_eq : EqDecision Trial.
Proof. solve_decision. Defined.

(** The sets tried after a set failed: another member as the head, then a member left out. *)
Definition next_trials (t : Trial) (failed : InstanceChoice) : list Trial :=
  let ids := map (λ r, pn_id (rc_node r)) (ic_ranks failed) in
  map (λ id, mkTrial (tr_left t) (Some id)) (drop 1 ids)
  ++ map (λ id, mkTrial (sort_by compareCodePoints (tr_left t ++ [id]))
                  (if bool_decide (tr_head t = Some id) then None else tr_head t)) ids.

Definition better (choice : InstanceChoice) (best : option InstanceChoice) : option InstanceChoice :=
  match best with
  | Some b => if compareInstanceChoice choice b <? 0 then Some choice else Some b
  | None => Some choice
  end.

Section Usable.
Context (request : PlacementRequest) (candidates : list PlacementNode).
Context (greedy : list PlacementNode → option string → M (option InstanceChoice * list RefusalReason)).

(** The trials seen, the failed sets of the next round and the best usable one. *)
Definition Round : Type := list Trial * list (Trial * InstanceChoice) * option InstanceChoice.

Definition one_trial (st : Round) (t : Trial) : M Round :=
  let '(seen, next, best) := st in
  do! tries := gets ef_setTries in
  if bool_decide (t ∈ seen) || (tries =? 0)%nat then ret st
  else
    let seen := seen ++ [t] in
    do! _ := set_tries (pred tries) in
    let pool := List.filter (λ n, negb (bool_decide (pn_id n ∈ tr_left t))) candidates in
    if (length pool <? ls_groupSize (rq_launch request))%nat then ret (seen, next, best)
    else
      do! cr := greedy pool (tr_head t) in
      match cr.1 with
      | None => ret (seen, next, best)
      | Some choice =>
          match groupProblem choice request with
          | Some problem => do! _ := noteProblem problem in ret (seen, next ++ [(t, choice)], best)
          | None => ret (seen, next, better choice best)
          end
      end.

Definition one_round (seen : list Trial) (frontier : list (Trial * InstanceChoice)) : M Round :=
  foldM (λ st tf, foldM one_trial (next_trials tf.1 tf.2) st) frontier (seen, [], None).

Fixpoint usable_loop (fuel : nat) (seen : list Trial) (frontier : list (Trial * InstanceChoice)) : M (option InstanceChoice) :=
  match fuel with
  | O => stuck
  | S fuel' =>
      do! tries := gets ef_setTries in
      if (length frontier =? 0)%nat || (tries =? 0)%nat then ret None
      else
        do! st := one_round seen frontier in
        match st.2 with
        | Some best => ret (Some best)
        | None => usable_loop fuel' st.1.1 st.1.2
        end
  end.
End Usable.

(** [#usableGroup]. *)
Definition usableGroup (base : Working) (request : PlacementRequest) (candidates : list PlacementNode) (fabric : option PlacementFabric)
  (preempt : bool) (seed : option PlacementInstance) : M (option InstanceChoice) :=
  let greedy pool head := greedyGroup base request pool fabric preempt seed head in
  do! fr := greedy candidates None in
  do! _ := add_fit_reasons fr.2 in
  match fr.1 with
  | None => ret None
  | Some first =>
      match groupProblem first request with
      | None => ret (Some first)
      | Some problem =>
          do! _ := noteProblem problem in
          usable_loop request candidates greedy (S MAX_SET_TRIES) [] [(mkTrial [] None, first)]
      end
  end.

(** The seeds of a preemption: instances on several of the candidates. *)
Definition seeds (base : Working) (request : PlacementRequest) (candidates : list PlacementNode) : list PlacementInstance :=
  let ids := map pn_id candidates in
  sort_by (λ a b, compareCodePoints (pi_id a) (pi_id b))
    (List.filter (λ i,
       negb (bool_decide (pi_id i ∈ wk_victims base))
       && (1 <? length (set_of (omap (λ rank, pr_nodeId rank ≫= λ n, if bool_decide (n ∈ ids) then Some n else None) (pi_ranks i))))%nat
       && preemptible p i request) (instance_values p)).

(** [#bestGroup]. *)
Definition bestGroup (base : Working) (request : PlacementRequest) (candidates : list PlacementNode) (fabric : option PlacementFabric)
  (preempt : bool) : M (option InstanceChoice) :=
  do! best := usableGroup base request candidates fabric preempt None in
  if negb preempt || (ls_groupSize (rq_launch request) =? 1)%nat then ret best
  else foldM (λ best seed,
         do! choice := usableGroup base request candidates fabric preempt (Some seed) in
         ret (match choice with Some c => better c best | None => best end)) (seeds base request candidates) best.

(** ** Automatic placement *)

Definition PlaceChoice : Type := InstanceChoice + PlacementRefusal.

(** [pass]: without stops first, then, when allowed, with. *)
Definition pass (request : PlacementRequest) (search : bool → M (option InstanceChoice)) : M (option InstanceChoice) :=
  do! _ := set_tries MAX_SET_TRIES in
  do! plain := search false in
  if bool_decide (is_Some plain) || negb (rq_preempt request) then ret plain
  else
    do! _ := set_reasons [] [] in
    do! _ := set_tries MAX_SET_TRIES in
    search true.

(** The nodes of the request in slug order: the eligible ones, and why not the others. *)
Definition check_node (request : PlacementRequest) (st : list PlacementNode * list (string * RefusalReason)) (node : PlacementNode) :
  M (list PlacementNode * list (string * RefusalReason)) :=
  do! _ := charge 1 in
  ret (if negb (in_scope (rq_allowedNodeIds request) (pn_id node)) then st
       else match ineligible (pl_context p) node request with
            | Some reason => (st.1, map_set (pn_id node) reason st.2)
            | None => (st.1 ++ [node], st.2)
            end).

(** [#autoRefusal]. *)
Definition autoRefusal (reasons : list RefusalReason) : PlacementRefusal :=
  refusal (default R_not_enough_nodes (List.find (λ r, bool_decide (r ∈ reasons)) REASON_ORDER)) None.

Definition members_of (eligible : list PlacementNode) (fabric : PlacementFabric) : list PlacementNode :=
  List.filter (λ n, is_member fabric (pn_id n)) eligible.

(** A single-node instance. *)
Definition place_single (w : Working) (request : PlacementRequest) (eligible : list PlacementNode) (nodeReasons : list (string * RefusalReason)) :
  M PlaceChoice :=
  do! choice := pass request (bestGroup w request eligible None) in
  do! fitReasons := gets ef_fitReasons in
  do! reservation := gets ef_reservationRefusal in
  ret match choice, reservation with
      | Some c, _ => inl c
      | None, Some r => inr r
      | None, None => inr (autoRefusal (set_of (map snd nodeReasons ++ fitReasons)))
      end.

(** A multi-node instance, inside one fabric. *)
Definition place_multi (w : Working) (request : PlacementRequest) (eligible : list PlacementNode) (nodeReasons : list (string * RefusalReason)) :
  M PlaceChoice :=
  let size := ls_groupSize (rq_launch request) in
  let fabrics := List.filter (λ f, withinScope p f request) (fabricsFor (pl_context p) (rq_launch request)) in
  if negb (existsb (λ f, (size <=? length (scopedMembers p f request))%nat) fabrics) then ret (inr (refusal R_no_shared_fabric None))
  else
    let reasons := map snd (List.filter (λ nr, existsb (λ f, is_member f nr.1) fabrics) nodeReasons) in
    do! choice := pass request (λ preempt,
      foldM (λ best fabric,
        let members := members_of eligible fabric in
        if (length members <? size)%nat then ret best
        else do! candidate := bestGroup w request members (Some fabric) preempt in
             ret (match candidate with Some c => better c best | None => best end)) fabrics None) in
    match choice with
    | Some c => ret (inl c)
    | None =>
        do! groups := gets ef_groupReasons in
        match List.find (λ r, existsb (λ g, bool_decide (gp_reason g = r)) groups) GROUP_REASONS with
        | Some reason =>
            ret (inr (refusal reason (match List.find (λ g, bool_decide (gp_reason g = reason)) groups with Some g => gp_subjectId g | None => None end)))
        | None =>
            do! fitReasons := gets ef_fitReasons in
            let reasons := set_of (reasons ++ fitReasons) in
            ret (inr (if negb (existsb (λ f, (size <=? length (members_of eligible f))%nat) fabrics)
                      then refusal (default R_not_enough_nodes
                                      (List.find (λ r, negb (bool_decide (r ∈ FIT_REASONS)) && bool_decide (r ∈ reasons)) REASON_ORDER)) None
                      else autoRefusal reasons))
        end
    end.

(** [#placeAuto]. *)
Definition placeAuto (w : Working) (request : PlacementRequest) : M PlaceChoice :=
  do! en := foldM (check_node request) (by_slug (node_values p)) ([], []) in
  do! _ := set_reasons [] [] in
  if (ls_groupSize (rq_launch request) =? 1)%nat then place_single w request en.1 en.2
  else place_multi w request en.1 en.2.

(** ** Explicit nodes *)

(** The nodes of the ids, all known and (unless a retake) eligible. *)
Fixpoint explicit_nodes (request : PlacementRequest) (ids : list string) : list PlacementNode + PlacementRefusal :=
  match ids with
  | [] => inl []
  | id :: ids' =>
      match map_get id (nodes p) with
      | None => inr (refusal R_unknown_node (Some id))
      | Some node =>
          match (if rq_retake request then None else ineligible (pl_context p) node request) with
          | Some reason => inr (refusal reason (Some (pn_id node)))
          | None => match explicit_nodes request ids' with inl ns => inl (node :: ns) | inr r => inr r end
          end
      end
  end.

(** The fabric of explicit nodes: the first shared one on which every Relay-only rank accepts the
    head. *)
Definition explicit_fabric (request : PlacementRequest) (ns : list PlacementNode) : option PlacementFabric + PlacementRefusal :=
  if (ls_groupSize (rq_launch request) <=? 1)%nat then inl None
  else
    let launch := rq_launch request in
    let sharing := List.filter (λ f, forallb (λ n, is_member f (pn_id n)) ns) (fabricsFor (pl_context p) launch) in
    match List.find (λ f, bool_decide (pn_id <$> frozenRefuser p ns (Some f) launch = None)) sharing with
    | Some fabric => inl (Some fabric)
    | None =>
        match sharing with
        | first :: _ => inr (refusal R_head_not_in_frozen_fabric (pn_id <$> frozenRefuser p ns (Some first) launch))
        | [] => inr (refusal R_no_shared_fabric (pn_id <$> head ns))
        end
    end.

Definition explicit_rank (request : PlacementRequest) (st : Working * list RankChoice + PlacementRefusal) (ix : nat * PlacementNode) :
  M (Working * list RankChoice + PlacementRefusal) :=
  match st with
  | inr r => ret (inr r)
  | inl (w, ranks) =>
      do! r := rankOn p w request ix.2 (rankResources (rq_launch request) ix.1) (wantedPort request ix.1) (rq_preempt request) true in
      ret match r with
          | NotOn reason => inr (refusal (of_fit reason) (Some (pn_id ix.2)))
          | Chosen choice => let '(w', choice') := commitRank p w choice true in inl (w', ranks ++ [choice'])
          end
  end.

(** [#placeOnNodes]. *)
Definition placeOnNodes (w : Working) (request : PlacementRequest) (nodeIds : list string) : M PlaceChoice :=
  if negb (length nodeIds =? ls_groupSize (rq_launch request))%nat || negb (length (set_of nodeIds) =? length nodeIds)%nat
  then ret (inr (refusal R_invalid_node_count (re_instanceId <$> rq_restart request)))
  else match explicit_nodes request nodeIds with
       | inr r => ret (inr r)
       | inl ns =>
           match explicit_fabric request ns with
           | inr r => ret (inr r)
           | inl fabric =>
               do! st := foldM (explicit_rank request) (indexed ns) (inl (w, [])) in
               match st with
               | inr r => ret (inr r)
               | inl (w, ranks) =>
                   do! reserved := placeReservations p scan w request ranks (rq_preempt request) None in
                   ret match reserved with
                       | inr r => inr r
                       | inl (w, reservations) => inl (mkInstanceChoice w ranks reservations fabric (costOfWorking p w) 0)
                       end
               end
           end
       end.

(** ** Pruning stops *)

(** One rank or reservation of [#replayRanks], taken as chosen. *)
Definition replay_choice (w : Working) (choice : RankChoice) (resources : RuntimeResource) (wanted : RankPort) (needsPort : bool)
  (definition : option string) : option (Working * RankChoice) :=
  let id := pn_id (rc_node choice) in
  match map_get id (wk_budgets w) with
  | None => None
  | Some b =>
      match fit_on (rc_node choice) b resources wanted needsPort (map_get id (wk_floors w)) with
      | FitRefused _ => None
      | FitOk port gpuKeys needs take =>
          let c := rankChoice (rc_node choice) b port gpuKeys needs take [] (rc_waits choice) definition in
          let w := takeClaim w b c in
          Some (if needsPort then mkWorking (with_budget id (with_port port) (wk_budgets w)) (wk_victims w) (wk_floors w) else w, c)
      end
  end.

Definition replay_rank (request : PlacementRequest) (st : option (Working * list RankChoice)) (ix : nat * RankChoice) :=
  match st with
  | None => None
  | Some (w, done) =>
      match replay_choice w ix.2 (rankResources (rq_launch request) ix.1) (mkPort (Some (rc_port ix.2)) None) true (rc_definition ix.2) with
      | Some (w', c) => Some (w', done ++ [c])
      | None => None
      end
  end.

Definition replay_reservation (request : PlacementRequest) (st : option (Working * list RankChoice)) (ix : nat * RankChoice) :=
  match st, ls_reservations (rq_launch request) !! ix.1 with
  | Some (w, done), Some reservation =>
      match replay_choice w ix.2 (lr_resources reservation) (mkPort None None) false None with
      | Some (w', c) => Some (w', done ++ [c])
      | None => None
      end
  | _, _ => None
  end.

(** [#replayRanks]. *)
Definition replayRanks (base : Working) (request : PlacementRequest) (ranks : list RankChoice) (victims : list string) (reservations : list RankChoice) :
  M (option (Working * list RankChoice * list RankChoice)) :=
  do! w := cloneWorkingCharged base in
  let w := fold_left (λ w id, freeInstance p (mkWorking (wk_budgets w) (set_add id (wk_victims w)) (wk_floors w)) id stop_mode)
             (sort_by compareCodePoints victims) w in
  ret match fold_left (replay_rank request) (indexed ranks) (Some (w, [])) with
      | None => None
      | Some (w, replayed) =>
          match fold_left (replay_reservation request) (indexed reservations) (Some (w, [])) with
          | None => None
          | Some (w, placed) => Some (w, replayed, placed)
          end
      end.

Definition with_replay (chosen : InstanceChoice) (w : Working) (ranks reservations : list RankChoice) : InstanceChoice :=
  mkInstanceChoice w ranks reservations (ic_fabric chosen) (ic_cost chosen) (ic_leftover chosen).

Definition prune_one (base : Working) (request : PlacementRequest) (st : InstanceChoice * list string) (victim : PlacementInstance) :
  M (InstanceChoice * list string) :=
  let '(chosen, kept) := st in
  let without := List.filter (λ id, negb (bool_decide (id = pi_id victim))) kept in
  do! replay := replayRanks base request (ic_ranks chosen) without (ic_reservations chosen) in
  ret match replay with
      | None => st
      | Some (w, ranks, reservations) => (with_replay chosen w ranks reservations, without)
      end.

(** [#pruneVictims]. *)
Definition pruneVictims (base : Working) (request : PlacementRequest) (chosen : InstanceChoice) : M InstanceChoice :=
  let victims := sort_by (λ a b, compareCost (costOf [b]) (costOf [a])) (victims_of p (ic_working chosen)) in
  do! st := foldM (prune_one base request) victims (chosen, wk_victims (ic_working chosen)) in
  let c := st.1 in
  ret (mkInstanceChoice (ic_working c) (ic_ranks c) (ic_reservations c) (ic_fabric c) (costOfWorking p (ic_working c)) (ic_leftover c)).
End Planner.

(** ** [place()] *)

(** The working state of a request before any choice: a restart's own claims are floors, or (to
    tell why it was refused) free. *)
Definition start_working (p : Planner) (request : PlacementRequest) (ownClaimsFree : bool) : Working :=
  let w := mkWorking (pl_budgets p) [] [] in
  match rq_restart request with
  | Some r => freeInstance p w (re_instanceId r) (if ownClaimsFree then release_mode else restart_mode)
  | None => w
  end.

(** [#choose]. On explicit nodes [#placeOnNodes] updates [working] in place and returns it, so the
    pruning replays on the placement itself ([base] is the chosen working state); the automatic
    search works on clones and leaves [working] as it was. *)
Definition choose_placement (p : Planner) (request : PlacementRequest) (ownClaimsFree : bool) : M PlaceChoice :=
  do! _ := charge (1 + Z.of_nat (length (pl_budgets p))) in
  let w := start_working p request ownClaimsFree in
  do! scanned := scanReservations p request in
  match scanned with
  | Some (entries, Some failed) => do! r := unassignable p w request entries failed in ret (inr r)
  | _ =>
      let scan := fst <$> scanned in
      do! chosen := match rq_nodeIds request with
                    | Some ids => placeOnNodes p scan w request ids
                    | None => placeAuto p scan w request
                    end in
      match chosen with
      | inr r => ret (inr r)
      | inl c =>
          let base := match rq_nodeIds request with Some _ => ic_working c | None => w end in
          if (0 <? length (wk_victims (ic_working c)))%nat then do! c' := pruneVictims p base request c in ret (inl c') else ret (inl c)
      end
  end.

(** [#chooseOnce]: the per-call state reset. *)
Definition chooseOnce (p : Planner) (request : PlacementRequest) (ownClaimsFree : bool) : M PlaceChoice :=
  do! _ := set_refusal None in choose_placement p request ownClaimsFree.

(** The body of the [try] of [place()]. *)
Definition place_choice (p : Planner) (request : PlacementRequest) : M PlaceChoice :=
  do! chosen := chooseOnce p request false in
  match chosen, rq_restart request with
  | inr r, Some restart =>
      if bool_decide (rf_reason r = R_not_enough_memory) && (0 <? length (groups_of p (re_instanceId restart)))%nat
      then do! free := chooseOnce p request true in
           ret (match free with inl _ => inr (refusal R_restart_overlap_no_room (rf_subjectId r)) | inr _ => inr r end)
      else ret (inr r)
  | _, _ => ret chosen
  end.

Inductive WarningCode : Type := low_free_memory | interactive_needs_person | waits_for_stop.

Record PlannedPlacement : Type := mkPlaced {
  pp_nodeId : string;
  pp_nodeSlug : string;
  pp_nodeNumber : nat;
  pp_port : Z;
  pp_fabricIp : option string;
  pp_resources : Resources;
}.

Record PlannedReservation : Type := mkReserved {
  pv_index : nat;
  pv_nodeId : string;
  pv_nodeSlug : string;
  pv_labels : list string;
  pv_resources : Resources;
  pv_memoryGb : Z;
}.

Record PlannedStart : Type := mkStart {
  st_placements : list PlannedPlacement;
  st_reservations : list PlannedReservation;
  st_fabric : option (string * string * string);
  st_distPort : option Z;
  st_blockedBy : list string;
}.

Inductive PlacementResult : Type :=
  | Placed (start : PlannedStart) (stops : list PlannedStop) (warnings : list (WarningCode * option string))
  | Refused (refusal : PlacementRefusal).

(** A claim's recorded resources: the spec and the GPUs it takes, those that share node memory. *)
Definition recorded (spec : RuntimeResource) (node : PlacementNode) (gpuKeys : list string) : Resources :=
  match gpuKeys with
  | [] => mkResources (Some spec) None None
  | _ => mkResources (Some spec) (Some gpuKeys)
           (Some (List.filter (λ k, existsb (λ g, bool_decide (pg_key g = k) && pg_unified g) (pn_gpus node)) gpuKeys))
  end.

(** A rank moved off the dist port. *)
Definition move_rank (moves : list (nat * Z)) (ix : nat * RankChoice) : RankChoice :=
  let c := ix.2 in
  match map_get ix.1 moves with
  | Some port => mkChoice (rc_node c) (rc_victims c) port (rc_gpuKeys c) (rc_needs c) (rc_take c) (rc_leftover c) (rc_waits c) (rc_definition c)
  | None => c
  end.

Definition move_ports (ranks : list RankChoice) (moves : list (nat * Z)) (budgets : jsmap string Budget) : jsmap string Budget :=
  fold_left (λ bs mv, match ranks !! mv.1 with
                      | Some r => with_budget (pn_id (rc_node r)) (λ b, with_port mv.2 (without_port (rc_port r) b)) bs
                      | None => bs
                      end) moves budgets.

(** The dist port of a multi-node choice: the ports of the budgets and of the ranks after it. *)
Definition take_dist (request : PlacementRequest) (chosen : InstanceChoice) :
  (jsmap string Budget * list RankChoice * option Z) + PlacementRefusal :=
  let budgets := wk_budgets (ic_working chosen) in
  if (ls_groupSize (rq_launch request) <=? 1)%nat then inl (budgets, ic_ranks chosen, None)
  else match distPlan (ic_working chosen) (ic_ranks chosen) (rq_restart request) (dist_movable request) with
       | DistRefused reason => inr (refusal reason ((λ r, pn_id (rc_node r)) <$> head (ic_ranks chosen)))
       | DistPort port moves =>
           let ranks := map (move_rank moves) (indexed (ic_ranks chosen)) in
           inl (fold_left (λ bs r, with_budget (pn_id (rc_node r)) (with_port port) bs) ranks (move_ports (ic_ranks chosen) moves budgets),
                ranks, Some port)
       end.

(** A restart's old ports, taken again until its stop is proven. *)
Definition retake_ports (p : Planner) (request : PlacementRequest) (budgets : jsmap string Budget) : jsmap string Budget :=
  match rq_restart request with
  | None => budgets
  | Some r =>
      fold_left (λ bs rank, match pr_nodeId rank with Some n => with_budget n (add_ports rank) bs | None => bs end)
        (match map_get (re_instanceId r) (instances p) with Some i => pi_ranks i | None => [] end) budgets
  end.

(** The warnings of one placed rank or reservation. *)
Definition rank_warnings (p : Planner) (draining blockedBy : list string) (rank : RankChoice) : list (WarningCode * option string) :=
  let on n := bool_decide (n = pn_id (rc_node rank)) in
  let shared := Z.of_nat (length (List.filter (λ g, pg_unified g && bool_decide (pg_key g ∈ rc_gpuKeys rank)) (pn_gpus (rc_node rank))))
                * n_vramGb (rc_needs rank) in
  (if existsb (λ id, bool_decide (id ∈ draining) && heldOn p id on) blockedBy then [(waits_for_stop, Some (pn_id (rc_node rank)))] else [])
  ++ match pn_liveFreeMemoryGb (rc_node rank) with
     | Some live =>
         if negb (existsb (λ id, heldOn p id on) blockedBy) && (live <? n_memoryGb (rc_needs rank) + shared)
         then [(low_free_memory, Some (pn_id (rc_node rank)))] else []
     | None => []
     end.

Definition placement_of (fabric : option PlacementFabric) (launch : LaunchShape) (ix : nat * RankChoice) : PlannedPlacement :=
  let c := ix.2 in
  mkPlaced (pn_id (rc_node c)) (pn_slug (rc_node c)) (S ix.1) (rc_port c)
    (fabric ≫= λ f, member_ip f (pn_id (rc_node c))) (recorded (rankResources launch ix.1) (rc_node c) (rc_gpuKeys c)).

Definition reservation_of (launch : LaunchShape) (ix : nat * RankChoice) : PlannedReservation :=
  let c := ix.2 in
  let r := ls_reservations launch !! ix.1 in
  mkReserved ix.1 (pn_id (rc_node c)) (pn_slug (rc_node c)) (match r with Some r => lr_labels r | None => [] end)
    (recorded (match r with Some r => lr_resources r | None => Rnone end) (rc_node c) (rc_gpuKeys c))
    (n_memoryGb (rc_needs c) + Z.of_nat (n_gpuCount (rc_needs c)) * n_vramGb (rc_needs c)).

(** [#commitChoice]. *)
Definition commitChoice (p : Planner) (request : PlacementRequest) (chosen : InstanceChoice) : Planner * PlacementResult :=
  match take_dist request chosen with
  | inr r => (p, Refused r)
  | inl (budgets, ranks, distPort) =>
      let budgets := retake_ports p request budgets in
      let victims := omap (λ id, map_get id (instances p)) (sort_by compareCodePoints (wk_victims (ic_working chosen))) in
      let stops := map (λ v, {| ps_instanceId := pi_id v; ps_runtimeId := pi_runtimeId v |}) victims in
      let stopping := fold_left (λ s v, set_add (pi_id v) s) victims (pl_stopping p) in
      let own := re_instanceId <$> rq_restart request in
      let all := ranks ++ ic_reservations chosen in
      let nodeIds := map (λ r, pn_id (rc_node r)) all in
      let blockedBy := sort_by compareCodePoints
                         (List.filter (λ id, negb (bool_decide (Some id = own)) && heldOn p id (λ n, bool_decide (n ∈ nodeIds))) stopping) in
      let unowned l := List.filter (λ id, negb (bool_decide (Some id = own))) l in
      let draining := unowned (pl_draining p) in
      let warnings := map (λ _, (interactive_needs_person, None)) (List.filter pi_interactiveStop victims)
                      ++ concat (map (rank_warnings p draining blockedBy) all) in
      let launch := rq_launch request in
      let start := mkStart (map (placement_of (ic_fabric chosen) launch) (indexed ranks))
                     (map (reservation_of launch) (indexed (ic_reservations chosen)))
                     (match ic_fabric chosen, ranks with
                      | Some f, h :: _ => Some (pf_id f, pf_name f, default "" (member_ip f (pn_id (rc_node h))))
                      | _, _ => None
                      end) distPort blockedBy in
      (mkPlanner (pl_context p) budgets (pl_groups p) (unowned stopping) draining (pl_frozen p) (pl_stops p ++ stops) (pl_workLeft p) (pl_workDone p),
       Placed start stops warnings)
  end.

Definition with_work (p : Planner) (left done : Z) : Planner :=
  mkPlanner (pl_context p) (pl_budgets p) (pl_groups p) (pl_stopping p) (pl_draining p) (pl_frozen p) (pl_stops p) left done.

Definition effects_of (p : Planner) : Effects := mkEffects (pl_workLeft p) (pl_workDone p) MAX_SET_TRIES None [] [].

(** [place()]; [None] is a loop out of fuel. *)
Definition place (p : Planner) (request : PlacementRequest) : option (Planner * PlacementResult) :=
  match place_choice p request (effects_of p) with
  | (Stuck, _) => None
  | (Spent, s) => Some (with_work p (-1) (ef_workDone s), Refused (refusal R_placement_too_complex None))
  | (Value (inr r), s) => Some (with_work p (ef_workLeft s) (ef_workDone s), Refused r)
  | (Value (inl chosen), s) => Some (commitChoice (with_work p (ef_workLeft s) (ef_workDone s)) request chosen)
  end.
