(* ===== verification/PlacementLogic.v ===== *)
(** * PlacementLogic: reasoning about the planner's effectful searches

    [yields m P]: every value [m] returns satisfies [P], whatever the work left. [steady m]: [m]
    always answers and leaves the tries of other node sets alone. Both come with one rule per
    construct. [assignReservations] always answers, so the only loop on fuel is the one over
    other node sets; [place_total] shows its fuel always suffices. *)
From Stdlib Require Import ssreflect.
From S2P Require Import Prelude ReservationMatching PlacementFit PlacementModel PlacementRules PlacementSteps PlacementPlanner.

(** ** Results *)

Definition yields {A} (m : M A) (P : A → Prop) : Prop := ∀ s a s', m s = (Value a, s') → P a.

Lemma yields_ret {A} (a : A) (P : A → Prop) : P a → yields (ret a) P.
Proof. intros H s x s' [= <- _]. done. Qed.

Lemma yields_bind {A B} (m : M A) (k : A → M B) Q P : yields m Q → (∀ a, Q a → yields (k a) P) → yields (bind m k) P.
Proof.
  intros Hm Hk s b s'. rewrite /bind. destruct (m s) as [[a| |] s1] eqn:E; [|done|done].
  apply Hk. by eapply Hm.
Qed.

Lemma yields_weaken {A} (m : M A) (P Q : A → Prop) : yields m P → (∀ a, P a → Q a) → yields m Q.
Proof. intros Hm HPQ s a s' H. by eapply HPQ, Hm. Qed.

Lemma yields_True {A} (m : M A) : yields m (λ _, True).
Proof. done. Qed.

(** A step whose value does not matter. *)
Lemma yields_then {A B} (m : M A) (k : A → M B) P : (∀ a, yields (k a) P) → yields (bind m k) P.
Proof. intros H. eapply yields_bind; [apply yields_True|auto]. Qed.

Lemma yields_stuck {A} (P : A → Prop) : yields stuck P.
Proof. by intros s a s'. Qed.

Lemma yields_foldM {A B} (f : A → B → M A) l a (Inv : A → Prop) :
  Inv a → (∀ a x, In x l → Inv a → yields (f a x) Inv) → yields (foldM f l a) Inv.
Proof.
  revert a. induction l as [|x l IH]; intros a Ha Hf; cbn; [by apply yields_ret|].
  eapply yields_bind; [apply Hf; [by left|done]|]. intros a' Ha'. apply IH; [done|]. intros. apply Hf; [by right|done].
Qed.

(** The same with an invariant on the elements done so far. *)
Lemma yields_foldM_done {A B} (f : A → B → M A) l a (Inv : list B → A → Prop) :
  Inv [] a → (∀ before x after a, l = before ++ x :: after → Inv before a → yields (f a x) (Inv (before ++ [x]))) →
  yields (foldM f l a) (Inv l).
Proof.
  intros Ha Hf. have : ∀ rest before a, l = before ++ rest → Inv before a → yields (foldM f rest a) (Inv l); [|by intros H; apply (H l [])].
  induction rest as [|x rest IH]; intros before a' Hl Hi; cbn; [rewrite app_nil_r in Hl; subst; by apply yields_ret|].
  eapply yields_bind; [by eapply Hf|]. intros a2 H2. apply (IH (before ++ [x])); [by rewrite -app_assoc|done].
Qed.

Lemma yields_mapM {A B} (f : A → M B) l (Q : A → B → Prop) :
  (∀ x, In x l → yields (f x) (Q x)) → yields (mapM f l) (Forall2 Q l).
Proof.
  induction l as [|x l IH]; intros Hf; cbn; [apply yields_ret; constructor|].
  eapply yields_bind; [apply Hf; by left|]. intros y Hy. eapply yields_bind; [apply IH; intros; apply Hf; by right|].
  intros ys Hys. apply yields_ret. by constructor.
Qed.

(** ** Answers *)

Definition steady {A} (m : M A) : Prop := ∀ s, (m s).1 ≠ Stuck ∧ ef_setTries (m s).2 = ef_setTries s.

Lemma steady_ret {A} (a : A) : steady (ret a).
Proof. by intros s; split. Qed.

Lemma steady_bind {A B} (m : M A) (k : A → M B) : steady m → (∀ a, steady (k a)) → steady (bind m k).
Proof.
  intros Hm Hk s. rewrite /bind. destruct (Hm s) as [H1 H2]. destruct (m s) as [[a| |] s1]; cbn in *; [|done|done].
  destruct (Hk a s1) as [H3 H4]. split; [done|congruence].
Qed.

Lemma steady_foldM {A B} (f : A → B → M A) l a : (∀ a x, steady (f a x)) → steady (foldM f l a).
Proof. intros Hf. revert a. induction l as [|x l IH]; intros a; cbn; [apply steady_ret|]. by apply steady_bind. Qed.

Lemma steady_mapM {A B} (f : A → M B) l : (∀ x, steady (f x)) → steady (mapM f l).
Proof.
  intros Hf. induction l as [|x l IH]; cbn; [apply steady_ret|]. apply steady_bind; [done|]. intros y. apply steady_bind; [done|].
  intros. apply steady_ret.
Qed.

Lemma steady_charge n : steady (charge n).
Proof. intros s. rewrite /charge. cbn zeta. by destruct (_ <? _); split. Qed.

Lemma steady_modify f : (∀ s, ef_setTries (f s) = ef_setTries s) → steady (modify f).
Proof. intros Hf s. split; [done|apply Hf]. Qed.

Lemma steady_gets {A} (f : Effects → A) : steady (gets f).
Proof. by intros s; split. Qed.

Create HintDb steady.
#[export] Hint Resolve steady_ret steady_charge steady_gets steady_bind steady_foldM steady_mapM : steady.
#[export] Hint Extern 1 (steady (modify _)) => apply steady_modify; done : steady.

(** Case analysis on what a program branches on. *)
Ltac steady_cases :=
  repeat first
    [ progress cbn beta iota zeta
    | apply steady_bind; [|intros]
    | apply steady_foldM; intros
    | apply steady_mapM; intros
    | apply steady_ret | apply steady_charge | apply steady_gets
    | (apply steady_modify; done)
    | match goal with |- steady (match ?x with _ => _ end) => destruct x end
    | match goal with |- steady (let '(_, _) := ?x in _) => destruct x end ].

Lemma assignReservations_spec lists :
  match assignReservations lists with Some (Assigned nodes) => assigns lists nodes | Some (AssignFailed _) => True | None => False end.
Proof.
  have Hm : matched lists 0 (unassigned lists).
  { split; [|lia]. intros n j. rewrite lookup_empty. naive_solver lia. }
  have := assign_entries_correct lists lists 0 (unassigned lists) Hm (length_fmap _ _) eq_refl.
  rewrite /assignReservations. by destruct (assign_entries _ _ _ _) as [[]|].
Qed.

Lemma assignReservations_answers lists : is_Some (assignReservations lists).
Proof. have := assignReservations_spec lists. destruct (assignReservations lists); [eauto|done]. Qed.

Section Steady.
Context (p : Planner).

Lemma rankOn_steady w request node resources wanted preempt np : steady (rankOn p w request node resources wanted preempt np).
Proof. rewrite /rankOn /try_stops. steady_cases. Qed.
Hint Resolve rankOn_steady : steady.

Lemma reservation_on_steady w request resources preempt st node : steady (reservation_on p w request resources preempt st node).
Proof. rewrite /reservation_on. apply steady_bind; [apply rankOn_steady|]. intros; apply steady_ret. Qed.

Lemma scanReservations_steady request : steady (scanReservations p request).
Proof.
  rewrite /scanReservations. destruct (ls_reservations _); [apply steady_ret|]. apply steady_bind; [rewrite /scan_node; steady_cases|].
  intros entries. destruct (assignReservations_answers (map (λ e, map pn_id (sc_candidates e)) entries)) as [[] ->]; apply steady_ret.
Qed.

Lemma unassignable_steady w request entries failed : steady (unassignable p w request entries failed).
Proof.
  rewrite /unassignable. destruct (_ !! _); [|apply steady_ret]. apply steady_bind; [|intros; apply steady_ret].
  apply steady_foldM. intros. apply reservation_on_steady.
Qed.

Lemma reservationFits_steady scan w request preempt : steady (reservationFits p scan w request preempt).
Proof.
  apply steady_mapM. intros ie. apply steady_bind; [|intros; apply steady_ret]. apply steady_foldM. intros. apply reservation_on_steady.
Qed.

Lemma reservation_options_steady w request rankNodes preempt reuse ie : steady (reservation_options p w request rankNodes preempt reuse ie).
Proof.
  destruct ie as [index entry]. rewrite /reservation_options. apply steady_bind; [steady_cases|]. intros _.
  destruct (match _ with Some _ => _ | None => _ end) as [c m]. apply steady_bind; [|intros; apply steady_ret]. apply steady_foldM. intros st node.
  destruct (bool_decide _); [apply steady_ret|]. apply steady_bind; [apply steady_charge|]. intros _.
  destruct (bool_decide _); [apply steady_ret|apply reservation_on_steady].
Qed.

Lemma commit_reservation_steady request preempt ids st io : steady (commit_reservation p request preempt ids st io).
Proof.
  rewrite /commit_reservation. destruct st as [[w placed]|r]; [|apply steady_ret]. destruct io as [index [[entry choices] misses]].
  destruct (List.find _ _); [|apply steady_ret]. apply steady_bind; [apply rankOn_steady|]. intros; apply steady_ret.
Qed.

Lemma placeReservations_steady scan w request ranks preempt reuse : steady (placeReservations p scan w request ranks preempt reuse).
Proof.
  rewrite /placeReservations. destruct (ls_reservations _); [apply steady_ret|]. apply steady_bind.
  { destruct scan; [apply steady_ret|]. apply steady_bind; [apply scanReservations_steady|]. intros [[entries [failed|]]|]; try apply steady_ret.
    apply steady_bind; [apply unassignable_steady|intros; apply steady_ret]. }
  intros [[entries|]|r]; [|apply steady_ret|apply steady_ret]. apply steady_bind; [apply steady_mapM; intros; apply reservation_options_steady|].
  intros options. destruct (assignReservations_answers (map (λ o, map (λ c, pn_id (rc_node c)) o.1.2) options)) as [[ids|i] ->]; [|apply steady_ret].
  apply steady_foldM. intros. apply commit_reservation_steady.
Qed.
End Steady.

(** ** The searches of a group *)

Section Groups.
Context (p : Planner) (scan : option (list ScanEntry)).

Lemma try_option_steady w request fabric preempt fits choice : steady (try_option p scan w request fabric preempt fits choice).
Proof.
  rewrite /try_option /cloneWorkingCharged. apply steady_bind; [steady_cases|]. intros w'. destruct (commitRank _ _ _ _) as [trial c].
  apply steady_bind; [apply placeReservations_steady|]. intros [[w2 r]|r]; [apply steady_ret|]. apply steady_bind; [by apply steady_modify|].
  intros; apply steady_ret.
Qed.

Lemma try_options_steady w request fabric preempt fits together options skipped :
  steady (try_options p scan w request fabric preempt fits together options skipped).
Proof.
  revert skipped. induction options as [|c options IH]; intros skipped; cbn [try_options].
  - destruct skipped; [|apply steady_ret]. apply steady_bind; [apply try_option_steady|intros; apply steady_ret].
  - destruct (_ && _); [apply IH|]. apply steady_bind; [apply try_option_steady|]. intros [found|]; [apply steady_ret|apply IH].
Qed.

Lemma greedyWithReservations_steady w request candidates fabric preempt head :
  steady (greedyWithReservations p scan w request candidates fabric preempt head).
Proof.
  rewrite /greedyWithReservations. apply steady_bind.
  { apply steady_foldM. intros st node. destruct (match head with Some _ => _ | None => _ end); [apply steady_ret|].
    apply steady_bind; [apply rankOn_steady|intros; apply steady_ret]. }
  intros ors. destruct (sort_by _ _); [apply steady_ret|]. apply steady_bind; [apply reservationFits_steady|]. intros fits.
  destruct (assignReservations_answers (map (λ f, map (λ c, pn_id (rc_node c)) f.1) fits)) as [a ->].
  apply steady_bind; [apply try_options_steady|intros; apply steady_ret].
Qed.

Lemma greedy_ranks_steady request candidates preempt head indices w ranks reasons :
  steady (greedy_ranks p request candidates preempt head indices w ranks reasons).
Proof.
  revert w ranks reasons. induction indices as [|i indices IH]; intros w ranks reasons; cbn [greedy_ranks]; [apply steady_ret|].
  apply steady_bind.
  { apply steady_foldM. intros st node. rewrite /greedy_node. destruct (_ || _); [apply steady_ret|].
    apply steady_bind; [apply rankOn_steady|intros; apply steady_ret]. }
  intros br. destruct br.1 as [best|]; [|apply steady_ret]. destruct (commitRank _ _ _ _). apply IH.
Qed.

Lemma greedyGroup_steady base request candidates fabric preempt seed head :
  steady (greedyGroup p scan base request candidates fabric preempt seed head).
Proof.
  rewrite /greedyGroup /cloneWorkingCharged. apply steady_bind; [steady_cases|]. intros w. destruct (_ && _); [apply greedyWithReservations_steady|].
  apply steady_bind; [apply greedy_ranks_steady|]. intros gr. destruct gr.1 as [[w2 ranks]|]; [|apply steady_ret].
  apply steady_bind; [apply placeReservations_steady|]. intros [[w3 r]|r]; [apply steady_ret|].
  apply steady_bind; [by apply steady_modify|intros; apply steady_ret].
Qed.

(** [m] answers, and the tries left are at most those before. *)
Definition sparing {A} (m : M A) (Q : nat → nat → A → Prop) : Prop :=
  ∀ s, match m s with
       | (Value a, s') => (ef_setTries s' ≤ ef_setTries s)%nat ∧ Q (ef_setTries s) (ef_setTries s') a
       | (Spent, s') => (ef_setTries s' ≤ ef_setTries s)%nat
       | (Stuck, _) => False
       end.

Lemma sparing_bind {A B} (m : M A) (k : A → M B) Q R :
  sparing m Q → (∀ n a, sparing (k a) (λ n1 n2 b, (n2 ≤ n1 ≤ n)%nat → Q n n1 a → R n n2 b)) → sparing (bind m k) R.
Proof.
  intros Hm Hk s. rewrite /bind. have := Hm s. destruct (m s) as [[a| |] s1]; [|done|done]. intros [H1 HQ].
  have := Hk (ef_setTries s) a s1. destruct (k a s1) as [[b| |] s2]; [|lia|done]. intros [H2 HR]. split; [lia|]. by apply HR.
Qed.

Lemma steady_sparing {A} (m : M A) Q : steady m → (∀ n a, Q n n a) → sparing m Q.
Proof.
  intros Hm HQ s. destruct (Hm s) as [H1 H2]. destruct (m s) as [[a| |] s']; cbn in *; [|lia|done]. rewrite H2. split; [lia|auto].
Qed.

Lemma sparing_weaken {A} (m : M A) (Q R : nat → nat → A → Prop) : sparing m Q → (∀ n n' a, Q n n' a → R n n' a) → sparing m R.
Proof. intros Hm HQR s. have := Hm s. destruct (m s) as [[a| |] s']; [|done|done]. intros [? ?]. auto. Qed.

Section Usable.
Context (request : PlacementRequest) (candidates : list PlacementNode).
Context (greedy : list PlacementNode → option string → M (option InstanceChoice * list RefusalReason)).
Context (Hgreedy : ∀ pool head, steady (greedy pool head)).

(** A failed set is only kept for the next round when a try was used. *)
Lemma one_trial_sparing st t :
  sparing (one_trial p request candidates greedy st t) (λ n n' st', (n' < n)%nat ∨ st'.1.2 = st.1.2).
Proof.
  destruct st as [[seen next] best]. intros s. rewrite /one_trial {1}/bind /gets. destruct (_ || _) eqn:Eb.
  { cbn. split; [lia|by right]. }
  apply orb_false_iff in Eb as [_ Hz%Nat.eqb_neq]. rewrite {1}/bind /set_tries /modify.
  set s1 := mkEffects _ _ _ _ _ _. have H1 : (ef_setTries s1 < ef_setTries s)%nat by cbn; lia.
  set body := (if (_ <? _)%nat then _ else _). have Hb : steady body.
  { rewrite /body. destruct (_ <? _)%nat; [apply steady_ret|]. apply steady_bind; [apply Hgreedy|]. intros cr. destruct cr.1; [|apply steady_ret].
    destruct (groupProblem _ _ _); [|apply steady_ret]. apply steady_bind; [by apply steady_modify|intros; apply steady_ret]. }
  destruct (Hb s1) as [H2 H3]. destruct (body s1) as [[a| |] s2]; cbn in *; [split; [lia|left; lia]|lia|done].
Qed.

Lemma trials_sparing trials st :
  sparing (foldM (one_trial p request candidates greedy) trials st) (λ n n' st', (n' < n)%nat ∨ st'.1.2 = st.1.2).
Proof.
  revert st. induction trials as [|t trials IH]; intros st; cbn [foldM].
  { intros s. cbn. split; [lia|by right]. }
  eapply sparing_bind; [apply one_trial_sparing|]. intros n st'. eapply sparing_weaken; [apply IH|].
  cbn. intros n1 n2 st2 H1 Hle H2. destruct H1, H2; [left; lia|left; lia|left; lia|right; congruence].
Qed.

Lemma round_sparing seen frontier :
  sparing (one_round p request candidates greedy seen frontier) (λ n n' st', (n' < n)%nat ∨ st'.1.2 = []).
Proof.
  rewrite /one_round. have : ∀ st, sparing (foldM (λ st tf, foldM (one_trial p request candidates greedy) (next_trials tf.1 tf.2) st) frontier st)
    (λ n n' st', (n' < n)%nat ∨ st'.1.2 = st.1.2); [|by intros H; apply H].
  induction frontier as [|tf frontier IH]; intros st; cbn [foldM].
  { intros s. cbn. split; [lia|by right]. }
  eapply sparing_bind; [apply trials_sparing|]. intros n st'. eapply sparing_weaken; [apply IH|].
  cbn. intros n1 n2 st2 H1 Hle H2. destruct H1, H2; [left; lia|left; lia|left; lia|right; congruence].
Qed.

(** Each round uses a try or is the last. *)
Lemma usable_loop_answers fuel seen frontier s :
  (ef_setTries s < fuel)%nat ∨ (frontier = [] ∧ (0 < fuel)%nat) →
  match usable_loop p request candidates greedy fuel seen frontier s with
  | (Stuck, _) => False
  | (_, s') => (ef_setTries s' ≤ ef_setTries s)%nat
  end.
Proof.
  revert seen frontier s. induction fuel as [|fuel IH]; intros seen frontier s Hf; [lia|]. cbn [usable_loop]. rewrite {1}/bind /gets.
  destruct (_ || _) eqn:Eb; [cbn; lia|]. apply orb_false_iff in Eb as [Hn%Nat.eqb_neq Hz%Nat.eqb_neq].
  have Hlt : (ef_setTries s ≤ fuel)%nat by destruct Hf as [?|[-> _]]; [lia|done].
  rewrite /bind. have := round_sparing seen frontier s. destruct (one_round _ _ _ _ _ _ s) as [[st| |] s1]; [|done|done].
  intros [Hle Hor]. destruct st.2 as [best|]; [cbn; lia|].
  have : (ef_setTries s1 < fuel)%nat ∨ st.1.2 = [] ∧ (0 < fuel)%nat by destruct Hor; [left; lia|right; split; [done|lia]].
  intros H. have := IH st.1.1 st.1.2 s1 H. destruct (usable_loop _ _ _ _ _ _ _ s1) as [[] ?]; [lia|lia|done].
Qed.
End Usable.

(** [m] answers from a state with at most [MAX_SET_TRIES] tries, and leaves it so. *)
Definition lives {A} (m : M A) : Prop :=
  ∀ s, (ef_setTries s ≤ MAX_SET_TRIES)%nat → (m s).1 ≠ Stuck ∧ (ef_setTries (m s).2 ≤ MAX_SET_TRIES)%nat.

Lemma steady_lives {A} (m : M A) : steady m → lives m.
Proof. intros Hm s Hs. destruct (Hm s) as [? ->]. done. Qed.

Lemma lives_bind {A B} (m : M A) (k : A → M B) : lives m → (∀ a, lives (k a)) → lives (bind m k).
Proof.
  intros Hm Hk s Hs. rewrite /bind. destruct (Hm s Hs) as [H1 H2]. destruct (m s) as [[a| |] s1]; cbn in *; [by apply Hk|done|done].
Qed.

Lemma lives_foldM {A B} (f : A → B → M A) l a : (∀ a x, lives (f a x)) → lives (foldM f l a).
Proof.
  intros Hf. revert a. induction l as [|x l IH]; intros a; cbn; [apply steady_lives, steady_ret|]. by apply lives_bind.
Qed.

Lemma set_tries_lives n : (n ≤ MAX_SET_TRIES)%nat → lives (set_tries n).
Proof. intros Hn s Hs. by split. Qed.

Lemma usableGroup_lives base request candidates fabric preempt seed : lives (usableGroup p scan base request candidates fabric preempt seed).
Proof.
  rewrite /usableGroup. apply lives_bind; [apply steady_lives, greedyGroup_steady|]. intros fr.
  apply lives_bind; [by apply steady_lives, steady_modify|]. intros _. destruct fr.1 as [first|]; [|apply steady_lives, steady_ret].
  destruct (groupProblem _ _ _); [|apply steady_lives, steady_ret]. apply lives_bind; [by apply steady_lives, steady_modify|]. intros _ s Hs.
  have Hlt : (ef_setTries s < S MAX_SET_TRIES)%nat by lia.
  have := usable_loop_answers request candidates (λ pool head, greedyGroup p scan base request pool fabric preempt seed head)
    (λ _ _, greedyGroup_steady _ _ _ _ _ _ _) (S MAX_SET_TRIES) [] [(mkTrial [] None, first)] s (or_introl Hlt).
  destruct (usable_loop _ _ _ _ _ _ _ s) as [[] s']; cbn; intros H; [split; [done|lia]|split; [done|lia]|done].
Qed.

Lemma bestGroup_lives base request candidates fabric preempt : lives (bestGroup p scan base request candidates fabric preempt).
Proof.
  rewrite /bestGroup. apply lives_bind; [apply usableGroup_lives|]. intros best. destruct (_ || _); [apply steady_lives, steady_ret|].
  apply lives_foldM. intros b seed. apply lives_bind; [apply usableGroup_lives|]. intros; apply steady_lives, steady_ret.
Qed.

Lemma pass_lives request search : (∀ preempt, lives (search preempt)) → lives (pass request search).
Proof.
  intros Hs. rewrite /pass. apply lives_bind; [by apply set_tries_lives|]. intros _. apply lives_bind; [done|]. intros plain.
  destruct (_ || _); [apply steady_lives, steady_ret|]. apply lives_bind; [by apply steady_lives, steady_modify|]. intros _.
  apply lives_bind; [by apply set_tries_lives|done].
Qed.

Lemma placeAuto_lives w request : lives (placeAuto p scan w request).
Proof.
  rewrite /placeAuto /check_node. apply lives_bind; [apply steady_lives; steady_cases|]. intros en.
  apply lives_bind; [by apply steady_lives, steady_modify|]. intros _. destruct (_ =? _)%nat.
  - rewrite /place_single. apply lives_bind; [apply pass_lives; intros; apply bestGroup_lives|]. intros choice. apply steady_lives. steady_cases.
  - rewrite /place_multi. destruct (negb _); [apply steady_lives, steady_ret|]. apply lives_bind.
    { apply pass_lives. intros preempt. apply lives_foldM. intros best fabric. destruct (_ <? _)%nat; [apply steady_lives, steady_ret|].
      apply lives_bind; [apply bestGroup_lives|]. intros; apply steady_lives, steady_ret. }
    intros choice. apply steady_lives. steady_cases.
Qed.

Lemma placeOnNodes_steady w request ids : steady (placeOnNodes p scan w request ids).
Proof.
  rewrite /placeOnNodes. destruct (_ || _); [apply steady_ret|]. destruct (explicit_nodes _ _ _) as [ns|]; [|apply steady_ret].
  destruct (explicit_fabric _ _ _) as [fabric|]; [|apply steady_ret]. apply steady_bind.
  { apply steady_foldM. intros [[w' ranks]|r] ix; cbn; [|apply steady_ret]. apply steady_bind; [apply rankOn_steady|intros; apply steady_ret]. }
  intros [[w' ranks]|r]; [|apply steady_ret]. apply steady_bind; [apply placeReservations_steady|intros; apply steady_ret].
Qed.

Lemma pruneVictims_steady base request chosen : steady (pruneVictims p base request chosen).
Proof.
  rewrite /pruneVictims /prune_one /replayRanks /cloneWorkingCharged. apply steady_bind; [|intros; apply steady_ret]. apply steady_foldM.
  intros [c kept] victim. apply steady_bind; [|intros; apply steady_ret]. apply steady_bind; [|intros; apply steady_ret].
  apply steady_bind; [apply steady_charge|intros; apply steady_ret].
Qed.
End Groups.

Lemma choose_lives p request free : lives (choose_placement p request free).
Proof.
  rewrite /choose_placement. apply lives_bind; [apply steady_lives, steady_charge|]. intros _.
  apply lives_bind; [apply steady_lives, scanReservations_steady|]. intros scanned.
  have Hrest : lives (do! chosen := match rq_nodeIds request with
                                    | Some ids => placeOnNodes p (fst <$> scanned) (start_working p request free) request ids
                                    | None => placeAuto p (fst <$> scanned) (start_working p request free) request
                                    end in
      match chosen with
      | inr r => ret (inr r)
      | inl c =>
          let base := match rq_nodeIds request with Some _ => ic_working c | None => start_working p request free end in
          if (0 <? length (wk_victims (ic_working c)))%nat then do! c' := pruneVictims p base request c in ret (inl c') else ret (inl c)
      end).
  { apply lives_bind; [destruct (rq_nodeIds _); [apply steady_lives, placeOnNodes_steady|apply placeAuto_lives]|].
    intros [c|r]; [|apply steady_lives, steady_ret]. destruct (_ <? _)%nat; [|apply steady_lives, steady_ret].
    apply lives_bind; [apply steady_lives, pruneVictims_steady|intros; apply steady_lives, steady_ret]. }
  destruct scanned as [[entries [failed|]]|]; [|exact Hrest|exact Hrest].
  apply lives_bind; [apply steady_lives, unassignable_steady|intros; apply steady_lives, steady_ret].
Qed.

Lemma place_choice_lives p request : lives (place_choice p request).
Proof.
  have Honce : ∀ free, lives (chooseOnce p request free).
  { intros free. apply lives_bind; [by apply steady_lives, steady_modify|]. intros _. apply choose_lives. }
  apply lives_bind; [apply Honce|]. intros chosen.
  destruct chosen as [c|r], (rq_restart request); try apply steady_lives, steady_ret. destruct (_ && _); [|apply steady_lives, steady_ret].
  apply lives_bind; [apply Honce|]. intros; apply steady_lives, steady_ret.
Qed.

Lemma place_total p request : is_Some (place p request).
Proof.
  rewrite /place. destruct (place_choice_lives p request (effects_of p)) as [H _]; [done|].
  destruct (place_choice p request (effects_of p)) as [[[c|r]| |] s]; [eauto|eauto|eauto|done].
Qed.

