(* ===== verification/PlacementReach.v ===== *)
(** * PlacementReach: what a planned placement is made of

    The working states of one [place()] as a step relation: from the state a request starts in,
    the planner stops an instance the request may stop, or takes a claim that fits on a node that
    may take it. Everything the search commits is such a run ([PlacementSound]); here are the
    invariants of the relation by rule induction: no node that got a claim is over-committed, only
    authorized stops, only free ports. *)
From Stdlib Require Import ssreflect.
From S2P Require Import Prelude ClaimOverlap PlacementFit PlacementFitSafety PlacementModel PlacementRules PlacementSteps PlacementPlanner.

#[global] Arguments port_count : simpl never.
#[global] Arguments port_add : simpl never.
#[global] Arguments port_has : simpl never.

(** ** Budgets under stops *)

Lemma take_gpu_keys key gb gs : map gb_key (take_gpu key gb gs) = map gb_key gs.
Proof. induction gs as [|g gs IH]; cbn; [done|]. case_bool_decide; cbn; [done|by rewrite IH]. Qed.

Lemma applyUsage_keys b u sign : map gb_key (b_gpus (applyUsage b u sign)) = map gb_key (b_gpus b).
Proof.
  rewrite /applyUsage /=. generalize (b_gpus b) as gs. induction (gpus u) as [|kv l IH]; intros gs; cbn; [done|]. by rewrite IH take_gpu_keys.
Qed.

Lemma applyUsage_ok b u sign : budget_ok b → budget_ok (applyUsage b u sign).
Proof. by rewrite /budget_ok applyUsage_keys. Qed.

(** The same GPUs with at least as much free. *)
Definition gpu_eases (g g' : GpuBudget) : Prop :=
  gb_key g' = gb_key g ∧ gb_vendor g' = gb_vendor g ∧ gb_unified g' = gb_unified g ∧ gb_freeGb g ≤ gb_freeGb g'.

(** A budget after claims on it were given back: more room, the same ports. *)
Record eases (b b' : Budget) : Prop := {
  ea_memory : b_memoryGb b ≤ b_memoryGb b';
  ea_gpus : Forall2 gpu_eases (b_gpus b) (b_gpus b');
  ea_ports : b_ports b' = b_ports b;
}.

#[export] Instance gpu_eases_preorder : PreOrder gpu_eases.
Proof.
  split.
  - intros g. by split_and!.
  - intros g1 g2 g3 (?&?&?&?) (?&?&?&?). split_and!; try congruence. lia.
Qed.

#[export] Instance eases_preorder : PreOrder eases.
Proof.
  split.
  - intros b. split; [done|reflexivity|done].
  - intros b1 b2 b3 [H1 H2 H3] [H4 H5 H6]. split; [lia|by etrans|congruence].
Qed.

Lemma give_back_eases b u : budget_ok b → usage_ok u → eases b (applyUsage b u (-1)).
Proof.
  intros Hb Hu. split; cbn [applyUsage b_memoryGb b_gpus b_ports]; [have := uo_memory _ Hu; lia| |done].
  rewrite apply_gpus //; [apply Hu|]. apply Forall2_fmap_r, Forall_Forall2_diag, Forall_forall. intros g _.
  split_and!; try done. cbn. have := uo_gpus _ Hu (gb_key g). lia.
Qed.

Lemma eases_In b b' g' : eases b b' → In g' (b_gpus b') → ∃ g, In g (b_gpus b) ∧ gpu_eases g g'.
Proof.
  intros Hb Hg'. apply list_elem_of_In, list_elem_of_lookup_1 in Hg' as [i Hi].
  destruct (Forall2_lookup_r _ _ _ _ _ (ea_gpus _ _ Hb) Hi) as (g & Hg & He). exists g. split; [|done].
  by eapply list_elem_of_In, list_elem_of_lookup_2.
Qed.

Lemma port_add_count port port' ports :
  port_count port' (port_add port ports) = port_count port' ports + Z.b2z (bool_decide (port = port')).
Proof.
  rewrite /port_count /port_add map_get_set. case_bool_decide as H; [subst; rewrite decide_True // /port_count; cbn; lia|].
  rewrite decide_False //. cbn. lia.
Qed.

(** ** Planners, requests and working states *)

Record planner_ok (p : Planner) : Prop := {
  pk_budgets : ∀ id b, map_get id (pl_budgets p) = Some b → budget_ok b;
  pk_ports : ∀ id b port, map_get id (pl_budgets p) = Some b → 0 ≤ port_count port (b_ports b);
  pk_groups : ∀ id g, In g (groups_of p id) → usage_ok (cg_usage g);
}.

(** GiB amounts of a resource are not negative (the schema asks for positive ones). *)
Definition resource_ok (r : RuntimeResource) : Prop := needs_ok (resourceNeeds (Some r)).

(** The schema's bounds: at least one rank, and no negative amount. *)
Definition request_ok (request : PlacementRequest) : Prop :=
  (1 ≤ ls_groupSize (rq_launch request))%nat ∧
  (∀ r, r ∈ ls_resources (rq_launch request) → resource_ok r) ∧
  ∀ r, r ∈ ls_reservations (rq_launch request) → resource_ok (lr_resources r).

Record working_ok (w : Working) : Prop := {
  wo_budgets : ∀ id b, map_get id (wk_budgets w) = Some b → budget_ok b;
  wo_ports : ∀ id b port, map_get id (wk_budgets w) = Some b → 0 ≤ port_count port (b_ports b);
  wo_floors : ∀ id f, map_get id (wk_floors w) = Some f → floor_ok f;
}.

Lemma rankResources_ok request index : request_ok request → resource_ok (rankResources (rq_launch request) index).
Proof.
  intros (_ & H & _). rewrite /rankResources. destruct (_ !! _) as [r|] eqn:E; cbn; [by eapply H, list_elem_of_lookup_2|]. by split.
Qed.

(** *** Stopping an instance *)

(** What stopping gives back on one node. *)
Definition freed_on (stopped : bool) (nodeId : string) (groups : list ClaimGroup) (b : Budget) : Budget :=
  fold_left (λ b g, if bool_decide (cg_nodeId g = nodeId) && cg_held g && negb stopped then applyUsage b (cg_usage g) (-1) else b) groups b.

Lemma freed_on_cons stopped id g groups b :
  freed_on stopped id (g :: groups) b =
  freed_on stopped id groups (if bool_decide (cg_nodeId g = id) && cg_held g && negb stopped then applyUsage b (cg_usage g) (-1) else b).
Proof. done. Qed.

Lemma free_groups_stop stopped groups bs fl :
  let st := fold_left (free_group stop_mode stopped) groups (bs, fl) in
  st.2 = fl ∧ ∀ id, map_get id st.1 = freed_on stopped id groups <$> map_get id bs.
Proof.
  revert bs. induction groups as [|g groups IH]; intros bs; cbn zeta; cbn [fold_left].
  { split; [done|]. intros id. cbn [fst]. by destruct (map_get id bs). }
  set st1 := free_group stop_mode stopped (bs, fl) g.
  have Hst : st1.2 = fl ∧ ∀ id, map_get id st1.1 =
    (λ b, if bool_decide (cg_nodeId g = id) && cg_held g && negb stopped then applyUsage b (cg_usage g) (-1) else b) <$> map_get id bs.
  { rewrite /st1 /free_group. destruct (map_get (cg_nodeId g) bs) as [b|] eqn:Eb.
    - destruct (cg_held g), stopped; cbn [andb orb negb]; (split; [done|]); intros id; cbn [fst]; rewrite ?andb_false_r; try by destruct (map_get id bs).
      rewrite map_get_set !andb_true_r. destruct (decide (cg_nodeId g = id)) as [<-|Hne].
      + by rewrite Eb bool_decide_eq_true_2.
      + rewrite bool_decide_eq_false_2 //. by destruct (map_get id bs).
    - split; [done|]. intros id. destruct (map_get id bs) as [b|] eqn:E; [|by rewrite E]. rewrite E. cbn.
      rewrite (bool_decide_eq_false_2 (cg_nodeId g = id)); [congruence|done]. }
  destruct st1 as [bs1 fl1]. cbn in Hst. destruct Hst as [-> Hget]. destruct (IH bs1) as [H1 H2]. split; [done|].
  intros id. rewrite H2 Hget. by destruct (map_get id bs).
Qed.

(** A map by id. *)
Lemma by_id_ok {A} (id : A → string) (l : list A) : NoDup (map_keys (by_id id l)) ∧ ∀ k x, In (k, x) (by_id id l) → k = id x.
Proof.
  rewrite /by_id. have : ∀ m : jsmap string A, NoDup (map_keys m) ∧ (∀ k x, In (k, x) m → k = id x) →
    let m' := fold_left (λ m x, map_set (id x) x m) l m in NoDup (map_keys m') ∧ ∀ k x, In (k, x) m' → k = id x;
    [|intros H; apply H; by split; [constructor|]].
  induction l as [|x l IH]; intros m [Hn Hk]; cbn; [done|]. apply IH. split; [by apply map_set_NoDup|].
  intros k y Hy. apply map_get_NoDup in Hy; [|by apply map_set_NoDup]. rewrite map_get_set in Hy. case_decide; [by simplify_eq|].
  eapply Hk. by apply map_get_In.
Qed.

Lemma by_id_get {A} (id : A → string) l x : In x (map snd (by_id id l)) → map_get (id x) (by_id id l) = Some x.
Proof.
  destruct (by_id_ok id l) as [Hn Hk]. intros ([k y] & Hx & Hin)%in_map_iff. cbn in Hx. subst y.
  apply map_get_NoDup; [done|]. by rewrite -(Hk _ _ Hin).
Qed.

Lemma by_id_key {A} (id : A → string) l k x : map_get k (by_id id l) = Some x → id x = k ∧ In x (map snd (by_id id l)).
Proof.
  intros H%map_get_In. destruct (by_id_ok id l) as [_ Hk]. split; [by rewrite (Hk _ _ H)|]. by apply (in_map snd) in H.
Qed.

Lemma by_id_ids {A} (id : A → string) l : NoDup (map id (map snd (by_id id l))).
Proof.
  destruct (by_id_ok id l) as [Hn Hk]. rewrite map_map (map_ext_in _ fst); [|done]. intros [k x] Hin. by rewrite -(Hk _ _ Hin).
Qed.

Section Stops.
Context (p : Planner).

Lemma instance_get i : In i (instance_values p) → map_get (pi_id i) (instances p) = Some i.
Proof. apply by_id_get. Qed.

Lemma freeInstance_stop w iid i :
  map_get iid (instances p) = Some i → iid ∉ pl_stopping p →
  wk_victims (freeInstance p w iid stop_mode) = wk_victims w ∧
  wk_floors (freeInstance p w iid stop_mode) = wk_floors w ∧
  ∀ id, map_get id (wk_budgets (freeInstance p w iid stop_mode)) = freeOnNode p iid id <$> map_get id (wk_budgets w).
Proof.
  intros Hi Hs. rewrite /freeInstance Hi (bool_decide_eq_false_2 (iid ∈ _)) //.
  have := free_groups_stop false (groups_of p iid) (wk_budgets w) [].
  destruct (fold_left _ _ _) as [bs fl]. cbn. intros [-> Hget]. split_and!; try done. intros id. rewrite Hget.
  destruct (map_get id (wk_budgets w)) as [b|]; [|done]. cbn. f_equal. rewrite /freed_on /freeOnNode.
  clear Hget. revert b. induction (groups_of p iid) as [|g gs IH]; intros b; cbn [fold_left]; [done|]. rewrite IH. cbn [negb]. by rewrite andb_true_r.
Qed.

Lemma freeOnNode_eases iid id b : planner_ok p → budget_ok b → budget_ok (freeOnNode p iid id b) ∧ eases b (freeOnNode p iid id b).
Proof.
  intros Hp Hb. rewrite /freeOnNode. have Hg := pk_groups p Hp iid. revert b Hb. induction (groups_of p iid) as [|g gs IH]; intros b Hb; cbn; [by split|].
  have Hu : usage_ok (cg_usage g) by apply Hg; left. set b1 := if _ && _ then _ else _.
  have H1 : budget_ok b1 ∧ eases b b1 by rewrite /b1; destruct (_ && _); [split; [by apply applyUsage_ok|by apply give_back_eases]|by split].
  destruct H1 as [H1 H2]. destruct (IH (λ g' H, Hg g' (or_intror H)) b1 H1) as [H3 H4]. split; [done|by etrans].
Qed.
End Stops.

(** ** The step relation *)

(** What a claim is for: a rank, or a reservation. *)
Inductive ClaimFor : Type := ForRank (index : nat) | ForReservation (r : LaunchReservation).

Definition for_resources (request : PlacementRequest) (k : ClaimFor) : RuntimeResource :=
  match k with ForRank i => rankResources (rq_launch request) i | ForReservation r => lr_resources r end.

Definition for_port (k : ClaimFor) : bool := match k with ForRank _ => true | ForReservation _ => false end.

(** The nodes a claim may use: a rank's are the request's or, automatically, in its scope, and
    eligible (the engine's own restarts keep their nodes); a reservation's have its labels. *)
Definition node_may (p : Planner) (request : PlacementRequest) (k : ClaimFor) (node : PlacementNode) : Prop :=
  match k with
  | ForRank index =>
      match rq_nodeIds request with
      | Some ids => ids !! index = Some (pn_id node) ∧ (rq_retake request = true ∨ ineligible (pl_context p) node request = None)
      | None => in_scope (rq_allowedNodeIds request) (pn_id node) = true ∧ ineligible (pl_context p) node request = None
      end
  | ForReservation r =>
      r ∈ ls_reservations (rq_launch request) ∧ in_scope (rq_reservationNodeIds request) (pn_id node) = true ∧ reservationIneligible (pl_context p) node (lr_labels r) = None
  end.

(** The port of a rank: the launch's fixed one, or one of the node's range. *)
Definition port_wanted (request : PlacementRequest) (k : ClaimFor) (c : RankChoice) : Prop :=
  for_port k = true →
  match ls_fixedPort (rq_launch request) with
  | Some fixed => rc_port c = fixed
  | None => inRange (rc_port c) (pn_portRange (rc_node c)) = true
  end.

Definition take_with (w : Working) (b : Budget) (c : RankChoice) (withPort : bool) : Working :=
  let w' := takeClaim w b c in
  if withPort then mkWorking (with_budget (pn_id (rc_node c)) (with_port (rc_port c)) (wk_budgets w')) (wk_victims w') (wk_floors w') else w'.

Section Reach.
Context (p : Planner) (request : PlacementRequest).

(** A choice that may be taken in [w]. *)
Record takeable (w : Working) (b : Budget) (c : RankChoice) (k : ClaimFor) : Prop := {
  tb_node : node_may p request k (rc_node c);
  tb_budget : map_get (pn_id (rc_node c)) (wk_budgets w) = Some b;
  tb_fit : ∃ wanted, fit_on (rc_node c) b (for_resources request k) wanted (for_port k) (map_get (pn_id (rc_node c)) (wk_floors w)) =
             FitOk (rc_port c) (rc_gpuKeys c) (rc_needs c) (rc_take c);
  tb_port : port_wanted request k c;
}.

Definition stopped_also (w : Working) (i : PlacementInstance) : Working :=
  freeInstance p (mkWorking (wk_budgets w) (wk_victims w ++ [pi_id i]) (wk_floors w)) (pi_id i) stop_mode.

(** The states from [w0], with the claims taken. *)
Inductive reach (w0 : Working) : Working → list (RankChoice * ClaimFor) → Prop :=
  | reach_start : reach w0 w0 []
  | reach_stop w claims i :
      reach w0 w claims → In i (instance_values p) → preemptible p i request = true → rq_preempt request = true →
      pi_id i ∉ wk_victims w → reach w0 (stopped_also w i) claims
  | reach_take w claims b c k :
      reach w0 w claims → takeable w b c k → reach w0 (take_with w b c (for_port k)) (claims ++ [(c, k)]).

Context (Hp : planner_ok p) (Hrequest : request_ok request).

Lemma preemptible_not_stopping i : preemptible p i request = true → pi_id i ∉ pl_stopping p.
Proof. rewrite /preemptible. by case_bool_decide. Qed.

Lemma stopped_get w i :
  In i (instance_values p) → preemptible p i request = true →
  wk_victims (stopped_also w i) = wk_victims w ++ [pi_id i] ∧ wk_floors (stopped_also w i) = wk_floors w ∧
  ∀ id, map_get id (wk_budgets (stopped_also w i)) = freeOnNode p (pi_id i) id <$> map_get id (wk_budgets w).
Proof.
  intros Hi Hpr.
  apply (freeInstance_stop p (mkWorking (wk_budgets w) (wk_victims w ++ [pi_id i]) (wk_floors w)) (pi_id i) i);
    [by apply instance_get|by apply preemptible_not_stopping].
Qed.

(** The budget of the node after a claim was taken there. *)
Definition taken_budget (b : Budget) (c : RankChoice) (withPort : bool) : Budget :=
  let t := applyUsage b (rc_take c) 1 in
  mkBudget (b_memoryGb t) (b_gpus t) (if withPort then port_add (rc_port c) (b_ports t) else b_ports t)
    (match rc_definition c with Some d => set_add d (b_definitions t) | None => b_definitions t end).

Lemma take_with_get w b c np id :
  map_get id (wk_budgets (take_with w b c np)) =
  if bool_decide (id = pn_id (rc_node c)) then Some (taken_budget b c np) else map_get id (wk_budgets w).
Proof.
  rewrite /take_with /takeClaim. set b' := mkBudget _ _ _ _. destruct np; cbn [wk_budgets].
  - rewrite /with_budget map_get_set decide_True // map_get_set. case_bool_decide as Hid.
    + subst. by rewrite decide_True.
    + rewrite decide_False; [congruence|]. by rewrite map_get_set decide_False.
  - rewrite map_get_set. case_bool_decide as Hid; [by rewrite decide_True|by rewrite decide_False].
Qed.

Lemma take_with_victims w b c np : wk_victims (take_with w b c np) = wk_victims w.
Proof. by destruct np. Qed.

Lemma take_with_floors w b c np :
  wk_floors (take_with w b c np) =
  match map_get (pn_id (rc_node c)) (wk_floors w) with
  | Some floor =>
      map_set (pn_id (rc_node c))
        (mkFloor (f_floor floor) (f_keys floor) (sumUsage [f_placed floor; usageOf (taken_budget b c false) (rc_needs c) (rc_gpuKeys c)])) (wk_floors w)
  | None => wk_floors w
  end.
Proof. by destruct np. Qed.

Lemma takeable_right w b c k :
  working_ok w → takeable w b c k →
  ∃ wanted, fits_right b (pn_portRange (rc_node c)) wanted (for_port k) (resourceNeeds (Some (for_resources request k)))
              (rc_port c) (rc_gpuKeys c) (rc_take c) ∧
            n_memoryGb (rc_needs c) = n_memoryGb (resourceNeeds (Some (for_resources request k))) ∧
            n_vramGb (rc_needs c) = n_vramGb (resourceNeeds (Some (for_resources request k))).
Proof.
  intros Hw [Hnode Hb [wanted Hfit] _]. exists wanted.
  have Hn : resource_ok (for_resources request k) by destruct k as [i|r]; [by apply rankResources_ok|apply Hrequest, Hnode].
  destruct (fit_right _ _ _ _ _ _ _ _ _ _ (wo_budgets _ Hw _ _ Hb) Hn (wo_floors _ Hw _) Hfit) as [(H1 & _ & H2 & _) Hr]. done.
Qed.

(** *** Invariants *)

Lemma reach_ok w0 w claims : working_ok w0 → reach w0 w claims → working_ok w.
Proof.
  intros H0. induction 1 as [|w claims i _ IH Hi Hpr _ _|w claims b c k _ IH Ht]; [done| |].
  - destruct (stopped_get w i Hi Hpr) as (_ & Hf & Hg). split; [| |by rewrite Hf; apply IH].
    + intros id b. rewrite Hg. intros (b0 & Hb0 & ->)%fmap_Some. apply freeOnNode_eases; [done|]. by eapply IH.
    + intros id b port. rewrite Hg. intros (b0 & Hb0 & ->)%fmap_Some.
      destruct (freeOnNode_eases p (pi_id i) id b0 Hp) as [_ He]; [by eapply IH|]. rewrite (ea_ports _ _ He). by eapply IH.
  - have Hb := wo_budgets _ IH _ _ (tb_budget _ _ _ _ Ht). split.
    + intros id b'. rewrite take_with_get. case_bool_decide; [|by apply IH]. intros [= <-]. rewrite /budget_ok /=. by apply applyUsage_ok.
    + intros id b' port. rewrite take_with_get. case_bool_decide; [|by apply IH]. intros [= <-]. cbn.
      have := wo_ports _ IH _ _ port (tb_budget _ _ _ _ Ht). destruct (for_port k); [|done]. rewrite port_add_count. destruct (bool_decide _); cbn; lia.
    + intros id f. rewrite take_with_floors. destruct (map_get (pn_id (rc_node c)) (wk_floors w)) as [f0|] eqn:Ef; [|by apply IH].
      rewrite map_get_set. case_decide; [|by apply IH]. intros [= <-]. destruct (wo_floors _ IH _ _ Ef) as [Hf1 Hf2]. split; cbn; [done|].
      apply (sumUsage_ok [_; _]), two_ok; [done|]. destruct (takeable_right _ _ _ _ IH Ht) as (wanted & (Hnd & _) & Hm & Hv).
      have Hn : resource_ok (for_resources request k) by destruct k as [i|r]; [by apply rankResources_ok|apply Hrequest, Ht].
      apply usageOf_ok; [rewrite /budget_ok /=; by apply applyUsage_ok| |done]. destruct Hn. split; lia.
Qed.

(** A node that got a claim is not over-committed, nor is any GPU of its claims. *)
Definition roomy (w : Working) (c : RankChoice) : Prop :=
  ∃ b, map_get (pn_id (rc_node c)) (wk_budgets w) = Some b ∧ 0 ≤ b_memoryGb b ∧
       ∀ g, In g (b_gpus b) → gb_key g ∈ rc_gpuKeys c → gb_unified g = false → 0 ≤ gb_freeGb g.

Lemma reach_roomy w0 w claims : working_ok w0 → reach w0 w claims → ∀ c k, In (c, k) claims → roomy w c.
Proof.
  intros H0. induction 1 as [|w claims i Hr IH Hi Hpr _ _|w claims b c k Hr IH Ht]; [done| |].
  - intros c k Hin. destruct (IH c k Hin) as (b & Hb & Hm & Hg). destruct (stopped_get w i Hi Hpr) as (_ & _ & Hget).
    have Hok := wo_budgets _ (reach_ok _ _ _ H0 Hr) _ _ Hb. destruct (freeOnNode_eases p (pi_id i) (pn_id (rc_node c)) b Hp Hok) as [_ He].
    eexists. split; [by rewrite Hget Hb|]. split; [have := ea_memory _ _ He; lia|]. intros g' Hg' Hk Hu.
    destruct (eases_In _ _ _ He Hg') as (g & Hin' & Hkey & _ & Hun & Hle). etrans; [|exact Hle]. apply Hg; [done|by rewrite -Hkey|by rewrite -Hun].
  - destruct (takeable_right _ _ _ _ (reach_ok _ _ _ H0 Hr) Ht) as (wanted & (_ & _ & _ & [Hm Hg] & _) & _).
    have Hnew : ∀ c', pn_id (rc_node c') = pn_id (rc_node c) →
      (∀ g, In g (b_gpus b) → gb_key g ∈ rc_gpuKeys c' → gb_key g ∉ rc_gpuKeys c → gb_unified g = false → 0 ≤ gb_freeGb g) →
      roomy (take_with w b c (for_port k)) c'.
    { intros c' Hid Hold. exists (taken_budget b c (for_port k)). rewrite take_with_get bool_decide_eq_true_2 //. split_and!; [done|done|].
      intros g Hin Hk Hu. have := Hg g Hin. case_bool_decide as Hkc; [by auto|]. intros Hin'. by apply Hold. }
    intros c' k' [Hin|[= -> ->]%list_elem_of_In%list_elem_of_singleton]%in_app_iff; [|by apply Hnew].
    destruct (IH c' k' Hin) as (b' & Hb' & Hm' & Hg'). destruct (decide (pn_id (rc_node c') = pn_id (rc_node c))) as [Hid|Hne].
    + apply Hnew; [done|]. rewrite Hid (tb_budget _ _ _ _ Ht) in Hb'. simplify_eq. auto.
    + exists b'. by rewrite take_with_get bool_decide_eq_false_2.
Qed.

(** Only instances the request may stop are stopped, and only when it may stop any. *)
Lemma reach_victims w0 w claims :
  reach w0 w claims → wk_victims w0 = [] →
  ∀ id, id ∈ wk_victims w → ∃ i, map_get id (instances p) = Some i ∧ preemptible p i request = true ∧ rq_preempt request = true.
Proof.
  intros Hr H0. induction Hr as [|w claims i Hr IH Hi Hpr Hpre _|w claims b c k Hr IH Ht]; intros id.
  - rewrite H0. by intros ?%elem_of_nil.
  - destruct (stopped_get w i Hi Hpr) as (-> & _ & _). intros [?| ->%list_elem_of_singleton]%elem_of_app; [by apply IH|].
    exists i. by rewrite (instance_get p i Hi).
  - rewrite take_with_victims. apply IH.
Qed.

Lemma reach_victims_NoDup w0 w claims : reach w0 w claims → NoDup (wk_victims w0) → NoDup (wk_victims w).
Proof.
  intros Hr H0. induction Hr as [|w claims i Hr IH Hi Hpr _ Hv|w claims b c k Hr IH Ht]; [done| |by rewrite take_with_victims].
  destruct (stopped_get w i Hi Hpr) as (-> & _ & _). apply NoDup_app. split_and!; [done| |apply NoDup_singleton].
  by intros x Hx ->%list_elem_of_singleton.
Qed.

Lemma reach_claims w0 w claims :
  reach w0 w claims → ∀ c k, In (c, k) claims → node_may p request k (rc_node c) ∧ port_wanted request k c.
Proof.
  induction 1 as [|w claims i Hr IH Hi Hpr _ Hv|w claims b c k Hr IH Ht]; [done|done|].
  intros c' k' [?|[= -> ->]%list_elem_of_In%list_elem_of_singleton]%in_app_iff; [by apply IH|]. split; apply Ht.
Qed.

(** Ports are only added: the ports of every node grow, a rank's own was free before it. *)
Lemma reach_ports w0 w claims :
  reach w0 w claims → working_ok w0 →
  (∀ id b, map_get id (wk_budgets w) = Some b → ∃ b0, map_get id (wk_budgets w0) = Some b0 ∧
     ∀ port, port_count port (b_ports b0) ≤ port_count port (b_ports b)) ∧
  ∀ c k, In (c, k) claims → for_port k = true → port_wanted request k c ∧
    ∃ b0 b, map_get (pn_id (rc_node c)) (wk_budgets w0) = Some b0 ∧ map_get (pn_id (rc_node c)) (wk_budgets w) = Some b ∧
            port_has (rc_port c) (b_ports b0) = false ∧ 
            port_has (rc_port c) (b_ports b) = true.
Proof.
  intros Hr H0. induction Hr as [|w claims i Hr IH Hi Hpr _ _|w claims b c k Hr IH Ht].
  { split; [|done]. intros id b Hb. exists b. split; [done|]. intros; lia. }
  all: have Hw := reach_ok _ _ _ H0 Hr; destruct IH as [IH1 IH2].
  - destruct (stopped_get w i Hi Hpr) as (_ & _ & Hget).
    have Hsame : ∀ id b, map_get id (wk_budgets w) = Some b → b_ports (freeOnNode p (pi_id i) id b) = b_ports b.
    { intros id b Hb. apply (ea_ports b). by apply freeOnNode_eases; [|eapply Hw]. }
    split.
    + intros id b. rewrite Hget. intros (b1 & Hb1 & ->)%fmap_Some. rewrite Hsame //. by apply IH1.
    + intros c k Hin Hk. destruct (IH2 c k Hin Hk) as (Hwant & b0 & b & Hb0 & Hb & Hfree & Hhas). split; [done|].
      exists b0, (freeOnNode p (pi_id i) (pn_id (rc_node c)) b). rewrite Hget Hb Hsame //.
  - have Hb := tb_budget _ _ _ _ Ht. have Hcount : ∀ port, port_count port (b_ports b) ≤ port_count port (b_ports (taken_budget b c (for_port k))).
    { intros port. cbn. destruct (for_port k); [|lia]. rewrite port_add_count. destruct (bool_decide _); cbn; lia. }
    split.
    + intros id b'. rewrite take_with_get. case_bool_decide as Hid; [|apply IH1]. intros [= <-]. subst id.
      destruct (IH1 _ _ Hb) as (b0 & Hb0 & Hle). exists b0. split; [done|]. intros port. have := Hle port. have := Hcount port. lia.
    + intros c' k' [Hin|[= -> ->]%list_elem_of_In%list_elem_of_singleton]%in_app_iff Hk.
      * destruct (IH2 c' k' Hin Hk) as (Hwant & b0 & b' & Hb0 & Hb' & Hfree & Hhas). split; [done|].
        rewrite take_with_get. case_bool_decide as Hid; [|eauto 10]. exists b0, (taken_budget b c (for_port k)). split_and!; try done.
        rewrite Hid Hb in Hb'. simplify_eq. move: Hhas. rewrite /port_has !Z.ltb_lt. have := Hcount (rc_port c'). lia.
      * split; [apply Ht|]. destruct (IH1 _ _ Hb) as (b0 & Hb0 & Hle). exists b0, (taken_budget b c (for_port k)).
        rewrite take_with_get bool_decide_eq_true_2 //. destruct (takeable_right _ _ _ _ Hw Ht) as (wanted & (_ & _ & _ & _ & Hport) & _).
        destruct (Hport Hk) as [Hfree _]. split_and!; try done.
        -- move: Hfree. rewrite /port_has !Z.ltb_ge. have := Hle (rc_port c). lia.
        -- rewrite Hk /port_has /= port_add_count bool_decide_eq_true_2 //. apply Z.ltb_lt.
           have := wo_ports _ Hw _ _ (rc_port c) Hb. cbn. lia.
Qed.
End Reach.
