(* ===== verification/PlacementSound.v ===== *)
(** * PlacementSound: the search only makes allowed steps

    Every choice the planner's searches return is a run of the step relation of [PlacementReach]
    from the request's starting state: each rank and each reservation on a node of its own that
    may take it, with a fit that still holds when it is committed. *)
From Stdlib Require Import ssreflect.
From S2P Require Import Prelude ClaimOverlap PlacementFit PlacementFitSafety ReservationMatching PlacementModel PlacementRules PlacementSteps PlacementPlanner.
From S2P Require Import PlacementLogic PlacementReach.

(** ** One rank *)

(** Picking again on the budget of a fit picks the same GPUs. *)
Lemma fit_repick range b resources wanted np floor port keys needs take :
  fit range b resources wanted np floor = FitOk port keys needs take →
  default keys (match floor with Some f => pickGpusOver b needs f | None => pickGpus b needs end) = keys ∧
  take = match floor with Some f => overlapGrowth (f_floor f) (f_placed f) (usageOf b needs keys) | None => usageOf b needs keys end ∧
  (np = true → port_ok b range wanted port).
Proof.
  rewrite /fit. intros (trial & _ & H)%fit_trials_ok; [|eauto]. destruct floor as [f|].
  - move: H. rewrite /fitOver. destruct (n_gpuCount trial =? 0)%nat eqn:E0.
    + destruct (negb _); [done|]. intros (-> & -> & -> & Hp)%fit_port_ok. by rewrite /pickGpusOver E0.
    + destruct (pickGpusOver b trial f) as [ks|] eqn:Ek; [|done]. destruct (negb _); [done|].
      intros (-> & -> & -> & Hp)%fit_port_ok. by rewrite Ek.
  - move: H. rewrite /fitFresh. destruct (_ <? _); [done|]. destruct (n_gpuCount trial =? 0)%nat eqn:E0.
    + destruct (negb _); [done|]. intros (-> & -> & -> & Hp)%fit_port_ok. by rewrite /pickGpus E0.
    + destruct (pickGpus b trial) as [ks|] eqn:Ek; [|done]. destruct (negb _); [done|].
      intros (-> & -> & -> & Hp)%fit_port_ok. by rewrite Ek.
Qed.

Lemma indexed_lookup {A} (l : list A) i x : In (i, x) (indexed l) ↔ l !! i = Some x.
Proof.
  rewrite /indexed. have : ∀ n, In (i, x) (combine (seq n (length l)) l) ↔ ∃ j, i = (n + j)%nat ∧ l !! j = Some x.
  { induction l as [|y l IH]; intros n; cbn; [split; [done|by intros (j & _ & ?)]|]. rewrite IH. split.
    - intros [[= -> ->]|(j & -> & Hj)]; [by exists 0%nat; split; [lia|]|]. exists (S j). split; [lia|done].
    - intros ([|j] & -> & Hj); [left; cbn in Hj; simplify_eq; by rewrite Nat.add_0_r|]. right. exists j. split; [lia|done]. }
  intros ->. split; [intros (j & -> & ?); done|]. intros. by exists i.
Qed.

Lemma indexed_values {A} (l : list A) : map snd (indexed l) = l.
Proof.
  rewrite /indexed. generalize 0%nat. induction l as [|x l IH]; intros n; cbn; [done|]. by rewrite IH.
Qed.

Lemma indexed_snoc {A} (l : list A) x : indexed (l ++ [x]) = indexed l ++ [(length l, x)].
Proof.
  rewrite /indexed length_app /=. have : ∀ n, combine (seq n (length l + 1)) (l ++ [x]) = combine (seq n (length l)) l ++ [((n + length l)%nat, x)];
    [|by intros ->]. induction l as [|y l IH]; intros n; cbn [app length Nat.add seq combine]; [by rewrite Nat.add_0_r|]. rewrite IH /=. by rewrite Nat.add_succ_r.
Qed.

Lemma indexed_at {A} (l : list A) i ix : indexed l !! i = Some ix → ix.1 = i ∧ l !! i = Some ix.2.
Proof.
  rewrite /indexed. have : ∀ n, combine (seq n (length l)) l !! i = Some ix → ix.1 = (n + i)%nat ∧ l !! i = Some ix.2; [|by intros H; apply (H 0%nat)].
  revert i. induction l as [|y l IH]; intros i n; cbn; [done|]. destruct i as [|i]; cbn; [intros [= <-]; cbn; split; [lia|done]|].
  intros [-> H]%IH. split; [lia|done].
Qed.

Lemma indexed_split {A} (l : list A) before ix after : indexed l = before ++ ix :: after → ix.1 = length before ∧ l !! length before = Some ix.2.
Proof. intros H. apply indexed_at. by rewrite H lookup_app_r // Nat.sub_diag. Qed.

Lemma masked_sublist {A} mask (l : list A) : masked mask l `sublist_of` l.
Proof.
  rewrite /masked -{2}(indexed_values l). generalize (indexed l) as il. induction il as [|ix il IH]; cbn; [constructor|].
  destruct (Nat.testbit _ _); cbn; by constructor.
Qed.

Section Sound.
Context (p : Planner) (request : PlacementRequest).

(** A set of instances the request may stop in [w]. *)
Record stoppable (w : Working) (victims : list PlacementInstance) : Prop := {
  sb_ids : NoDup (map pi_id victims);
  sb_each : ∀ v, In v victims → In v (instance_values p) ∧ preemptible p v request = true ∧ pi_id v ∉ wk_victims w;
}.

(** What [#rankOn] answers. *)
Record chosen_ok (w : Working) (node : PlacementNode) (resources : RuntimeResource) (wanted : RankPort) (preempt np : bool) (c : RankChoice) : Prop := {
  co_node : rc_node c = node;
  co_victims : stoppable w (rc_victims c);
  co_preempt : rc_victims c ≠ [] → preempt = true;
  co_fit : ∃ b, map_get (pn_id node) (wk_budgets w) = Some b ∧
    fit_on node (free_on_node p b (rc_victims c) (pn_id node)) resources wanted np (map_get (pn_id node) (wk_floors w)) =
    FitOk (rc_port c) (rc_gpuKeys c) (rc_needs c) (rc_take c);
}.

Lemma stoppable_nil w : stoppable w [].
Proof. split; [constructor|done]. Qed.

Lemma stop_candidates_ok w node : stoppable w (stop_candidates p w request node).
Proof.
  rewrite /stop_candidates. set l := List.filter _ _. set s := sort_by _ l. have Hs : s ≡ₚ l by apply sort_by_perm.
  have Hin : ∀ v, In v (take MAX_VICTIMS_PER_NODE s) → In v l.
  { intros v Hv. apply list_elem_of_In. rewrite -Hs. apply list_elem_of_In in Hv. by apply elem_of_take in Hv as (j & Hj & _); eapply list_elem_of_lookup_2. }
  split.
  - eapply sublist_NoDup; [|apply sublist_map, sublist_take]. rewrite Hs. rewrite /l. apply NoDup_map_filter.
    apply by_id_ids.
  - intros v Hv%Hin. apply filter_In in Hv as [Hv Hb]. split_ands. split_and!; try done. by bool_to_prop.
Qed.

Lemma stoppable_sublist w victims l : stoppable w l → victims `sublist_of` l → stoppable w victims.
Proof.
  intros [Hn He] Hs. split; [eapply sublist_NoDup; [exact Hn|by apply sublist_map]|].
  intros v Hv. apply He, list_elem_of_In. eapply elem_of_sublist; [|exact Hs]. by apply list_elem_of_In.
Qed.

Lemma rankOn_ok w node resources wanted preempt np :
  yields (rankOn p w request node resources wanted preempt np) (λ r, ∀ c, r = Chosen c → chosen_ok w node resources wanted preempt np c).
Proof.
  rewrite /rankOn. apply yields_then. intros _. destruct (map_get (pn_id node) (wk_budgets w)) as [budget|] eqn:Eb; [|by apply yields_ret].
  destruct (np && _); [by apply yields_ret|]. set floor := map_get _ (wk_floors w). destruct (fit_on _ _ _ _ _ floor) as [port keys needs take|reason] eqn:Ef.
  { apply yields_ret. intros c [= <-]. split; cbn; [done|apply stoppable_nil|done|]. by exists budget. }
  destruct (negb preempt || _) eqn:Epre; [by apply yields_ret|]. apply orb_false_iff in Epre as [Hpre%negb_false_iff _].
  set cands := stop_candidates p w request node. eapply yields_bind.
  - apply (yields_foldM _ _ _ (λ st, ∀ c cost, st.1 = Some (c, cost) → chosen_ok w node resources wanted preempt np c)); [done|].
    intros [best r0] mask _ Hinv. rewrite /try_stops. destruct (match best with Some _ => _ | None => _ end); [by apply yields_ret|].
    apply yields_then. intros _. apply yields_ret. clear Ef.
    destruct (fit_on _ (free_on_node _ _ _ _) _ _ _ _) as [port keys needs take|r] eqn:Ef2; [|exact Hinv].
    intros c cost [= <- <-]. split; cbn; [done| |done|by exists budget].
    eapply stoppable_sublist; [apply stop_candidates_ok|apply masked_sublist].
  - intros st Hinv. apply yields_ret. intros c. destruct st.1 as [[c' cost]|] eqn:Es; [|done]. intros [= <-]. by eapply Hinv.
Qed.

(** ** Committing a rank *)

Lemma stop_victims_reach w0 w claims victims :
  reach p request w0 w claims → stoppable w victims → (victims ≠ [] → rq_preempt request = true) →
  reach p request w0 (stop_victims p w victims) claims ∧
  wk_floors (stop_victims p w victims) = wk_floors w ∧
  ∀ id b, map_get id (wk_budgets w) = Some b → map_get id (wk_budgets (stop_victims p w victims)) = Some (free_on_node p b victims id).
Proof.
  revert w. induction victims as [|v vs IH]; intros w Hr Hs Hpre; cbn; [done|].
  destruct (sb_each _ _ Hs v (or_introl eq_refl)) as (Hv & Hvp & Hvn). rewrite bool_decide_eq_false_2 //. fold (stopped_also p w v).
  destruct (stopped_get p request w v Hv Hvp) as (Hvic & Hfl & Hget).
  destruct (IH (stopped_also p w v)) as (H1 & H2 & H3).
  - apply reach_stop; try done. by apply Hpre.
  - destruct Hs as [Hn He]. cbn in Hn. apply NoDup_cons in Hn as [Hn1 Hn2]. split; [done|]. intros u Hu. destruct (He u (or_intror Hu)) as (? & ? & ?).
    split_and!; try done. rewrite Hvic not_elem_of_app list_elem_of_singleton. split; [done|]. intros Heq. apply Hn1. rewrite -Heq.
    by apply list_elem_of_In, in_map.
  - intros _. by apply Hpre.
  - split_and!; [exact H1|rewrite -Hfl; exact H2|]. intros id b Hb. apply (H3 id (freeOnNode p (pi_id v) id b)). by rewrite Hget Hb.
Qed.

(** A chosen rank is committed as it was chosen. *)
Lemma commit_reach w0 w claims k wanted preempt c :
  reach p request w0 w claims → chosen_ok w (rc_node c) (for_resources request k) wanted preempt (for_port k) c →
  (preempt = true → rq_preempt request = true) → node_may p request k (rc_node c) →
  (for_port k = true → p_fixed wanted = ls_fixedPort (rq_launch request)) →
  ∃ w', commitRank p w c (for_port k) = (w', c) ∧ reach p request w0 w' (claims ++ [(c, k)]).
Proof.
  intros Hr [_ Hv Hpre (b & Hb & Hfit)] Hrq Hnode Hwant. rewrite /commitRank.
  destruct (stop_victims_reach w0 w claims (rc_victims c) Hr Hv) as (Hr1 & Hfl & Hget); [by auto|]. rewrite (Hget _ _ Hb) Hfl.
  set b' := free_on_node _ _ _ _ in Hfit |- *. destruct (fit_repick _ _ _ _ _ _ _ _ _ _ Hfit) as (-> & Htake & Hport). rewrite -Htake.
  set w1 := stop_victims p w (rc_victims c) in Hr1 Hfl Hget |- *.
  have -> : mkChoice (rc_node c) (rc_victims c) (rc_port c) (rc_gpuKeys c) (rc_needs c) (rc_take c) (rc_leftover c) (rc_waits c) (rc_definition c) = c
    by destruct c.
  eexists. split; [reflexivity|]. apply (reach_take p request w0 w1 claims b' c k Hr1). split; [done|by apply Hget|exists wanted; by rewrite Hfl|].
  intros Hk. destruct (Hport Hk) as [_ Hp]. move: Hp. by rewrite Hwant.
Qed.

(** ** Reservations *)

Definition node_id (c : RankChoice) : string := pn_id (rc_node c).

(** The claims of reservations placed in order. *)
Definition res_claims (placed : list RankChoice) : list (RankChoice * ClaimFor) :=
  zip placed (map ForReservation (ls_reservations (rq_launch request))).

Lemma res_claims_snoc placed c r :
  ls_reservations (rq_launch request) !! length placed = Some r → res_claims (placed ++ [c]) = res_claims placed ++ [(c, ForReservation r)].
Proof.
  rewrite /res_claims. generalize (ls_reservations (rq_launch request)) as rs. induction placed as [|x l IH]; intros [|y rs]; cbn; try done.
  - intros [= ->]. by destruct rs.
  - intros H. by rewrite IH.
Qed.

Record scan_ok (entries : list ScanEntry) : Prop := {
  so_reservations : map sc_reservation entries = ls_reservations (rq_launch request);
  so_candidates : ∀ e n, In e entries → In n (sc_candidates e) → node_may p request (ForReservation (sc_reservation e)) n;
}.

Lemma scanReservations_ok :
  yields (scanReservations p request)
    (λ r, (r = None → ls_reservations (rq_launch request) = []) ∧ ∀ entries f, r = Some (entries, f) → scan_ok entries).
Proof.
  rewrite /scanReservations. destruct (ls_reservations (rq_launch request)) as [|r0 rs0] eqn:Ers; [by apply yields_ret|]. rewrite -Ers. eapply yields_bind.
  - apply (yields_mapM _ _ (λ r e, sc_reservation e = r ∧
      ∀ n, In n (sc_candidates e) → in_scope (rq_reservationNodeIds request) (pn_id n) = true ∧ reservationIneligible (pl_context p) n (lr_labels r) = None)).
    intros r _. eapply yields_bind; [|by intros cm Hcm; apply yields_ret; split; [done|exact Hcm]].
    apply (yields_foldM _ _ _ (λ cm, ∀ n, In n cm.1 →
      in_scope (rq_reservationNodeIds request) (pn_id n) = true ∧ reservationIneligible (pl_context p) n (lr_labels r) = None)); [done|].
    intros cm node _ Hinv. rewrite /scan_node. apply yields_then. intros _. apply yields_ret. destruct (in_scope _ _) eqn:Esc; [|exact Hinv]. cbn [negb].
    destruct (reservationIneligible _ node _) as [[]|] eqn:Ei; try exact Hinv. intros n [?|[<-|[]]]%in_app_iff; [by apply Hinv|done].
  - intros entries Hent. have Hok : scan_ok entries.
    { split.
      - symmetry. clear -Hent. induction Hent as [|r e rs es [He _] _ IH]; cbn; [done|]. by rewrite He IH.
      - intros e n He Hn. apply list_elem_of_In, list_elem_of_lookup_1 in He as [i Hi]. destruct (Forall2_lookup_r _ _ _ _ _ Hent Hi) as (r & Hr & <- & Hc).
        split; [by eapply list_elem_of_lookup_2|by apply Hc]. }
    destruct (assignReservations _) as [[ids|i]|]; [| |apply yields_stuck]; apply yields_ret; (split; [done|]); intros es f [= <- _]; done.
Qed.

Lemma reservation_on_ok w resources preempt node (P : RankChoice → Prop) st :
  (∀ c, rc_node c = node → P c) → (∀ c, In c st.1 → P c) →
  yields (reservation_on p w request resources preempt st node) (λ st', ∀ c, In c st'.1 → P c).
Proof.
  intros Hnode Hst. rewrite /reservation_on. eapply yields_bind; [apply rankOn_ok|]. intros r Hr. apply yields_ret.
  destruct r as [choice|]; [|exact Hst]. intros c [?|[<-|[]]]%in_app_iff; [by apply Hst|]. apply Hnode. by destruct (Hr choice eq_refl).
Qed.

(** Fits worked out before are of the scan's candidates. *)
Definition fits_ok (scan : option (list ScanEntry)) (fits : ReservationFits) : Prop :=
  ∀ i choices room, fits !! i = Some (choices, room) →
  ∃ entries e, scan = Some entries ∧ entries !! i = Some e ∧ ∀ c, In c choices → In (rc_node c) (sc_candidates e).

Lemma reservationFits_ok scan w preempt : yields (reservationFits p scan w request preempt) (fits_ok scan).
Proof.
  rewrite /reservationFits. eapply yields_weaken.
  - apply (yields_mapM _ _ (λ ie f, ∀ c, In c f.1 → In (rc_node c) (sc_candidates ie.2))). intros ie _. eapply yields_bind.
    + apply (yields_foldM _ _ _ (λ st : list RankChoice * list ReservationMiss, ∀ c, In c st.1 → In (rc_node c) (sc_candidates ie.2))); [done|].
      intros st node Hn Hst. apply reservation_on_ok; [by intros c ->|done].
    + intros cm Hcm. apply yields_ret. intros c. cbn. rewrite sort_by_in. apply Hcm.
  - intros fits Hf i choices room Hi. destruct (Forall2_lookup_r _ _ _ _ _ Hf Hi) as ([j e] & Hj & Hc).
    apply indexed_at in Hj as [_ Hj]. cbn in Hj, Hc. destruct scan as [entries|]; [|done]. by exists entries, e.
Qed.

Lemma reservation_options_ok scan entries w rankNodes preempt reuse ie :
  (∀ fits changed, reuse = Some (fits, changed) → fits_ok scan fits) → scan = None ∨ scan = Some entries → entries !! ie.1 = Some ie.2 →
  yields (reservation_options p w request rankNodes preempt reuse ie)
    (λ o, o.1.1 = ie.2 ∧ ∀ c, In c o.1.2 → In (rc_node c) (sc_candidates ie.2) ∧ node_id c ∉ rankNodes).
Proof.
  intros Hreuse Hscan Hie. destruct ie as [index entry]. cbn in Hie. rewrite /reservation_options. apply yields_then. intros _.
  set reused := match reuse with Some _ => _ | None => _ end. set cm0 := match reused with Some _ => _ | None => _ end.
  set P := λ c : RankChoice, In (rc_node c) (sc_candidates entry) ∧ node_id c ∉ rankNodes.
  have H0 : ∀ c, In c cm0.1 → P c.
  { rewrite /cm0 /reused. destruct reuse as [[fits changed]|]; [|done]. destruct (fits !! index) as [[choices room]|] eqn:Ef; [|done]. cbn.
    intros c [Hc Hr]%filter_In. rewrite /reusable in Hr. split_ands. bool_to_prop. split; [|done].
    destruct (Hreuse fits changed eq_refl _ _ _ Ef) as (es & e & Hes & He & Hin). destruct Hscan as [Hs|Hs]; [congruence|].
    have ? : es = entries by congruence. subst es. rewrite Hie in He. simplify_eq. by apply Hin. }
  destruct cm0 as [choices0 misses0]. eapply yields_bind.
  - apply (yields_foldM _ _ _ (λ st : list RankChoice * list ReservationMiss, ∀ c, In c st.1 → P c)); [exact H0|].
    intros st node Hn Hst. destruct (bool_decide _); [by apply yields_ret|]. apply yields_then. intros _.
    case_bool_decide as Hrank; [by apply yields_ret|]. apply reservation_on_ok; [|done]. intros c Hc. by rewrite /P /node_id Hc.
  - intros cm Hcm. apply yields_ret. cbn. split; [done|]. intros c. rewrite sort_by_in. apply Hcm.
Qed.

(** The reservations committed so far: in order, on the assigned nodes. *)
Definition reserved_ok (w0 : Working) (claims : list (RankChoice * ClaimFor)) (rankNodes nodeIds : list string) (n : nat)
  (st : Working * list RankChoice + PlacementRefusal) : Prop :=
  ∀ w' placed, st = inl (w', placed) →
    reach p request w0 w' (claims ++ res_claims placed) ∧ length placed = n ∧ map node_id placed = take n nodeIds ∧
    ∀ c, In c placed → node_id c ∉ rankNodes.

Lemma commit_reservation_ok w0 claims rankNodes nodeIds preempt n st entry choices misses :
  (preempt = true → rq_preempt request = true) → reserved_ok w0 claims rankNodes nodeIds n st →
  ls_reservations (rq_launch request) !! n = Some (sc_reservation entry) →
  (∀ c, In c choices → node_may p request (ForReservation (sc_reservation entry)) (rc_node c) ∧ node_id c ∉ rankNodes) →
  yields (commit_reservation p request preempt nodeIds st (n, (entry, choices, misses))) (reserved_ok w0 claims rankNodes nodeIds (S n)).
Proof.
  intros Hpre Hst Hres Hch. rewrite /commit_reservation. destruct st as [[w placed]|r]; [|by apply yields_ret].
  destruct (Hst w placed eq_refl) as (Hr & Hlen & Hids & Hrank). destruct (List.find _ _) as [c0|] eqn:Ef; [|by apply yields_ret].
  apply List.find_some in Ef as [Hc0 Hid]. bool_to_prop. destruct (Hch c0 Hc0) as [Hmay Hnr].
  eapply yields_bind; [apply rankOn_ok|]. intros [choice|reason] Hok; [|by apply yields_ret].
  have Hco := Hok choice eq_refl. have Hnode := co_node _ _ _ _ _ _ _ Hco. rewrite -Hnode in Hco.
  destruct (commit_reach w0 w _ (ForReservation (sc_reservation entry)) _ _ _ Hr Hco Hpre) as (w' & Hcommit & Hr'); [by rewrite Hnode|done|].
  cbn in Hcommit. rewrite Hcommit. apply yields_ret. intros w2 placed2 [= <- <-]. have Hsn : node_id choice = node_id c0 by rewrite /node_id Hnode. split_and!.
  - by rewrite (res_claims_snoc _ _ (sc_reservation entry)) ?Hlen // app_assoc.
  - rewrite length_app /=. lia.
  - rewrite map_app Hids /= (take_S_r _ _ (node_id choice)) //. by rewrite Hsn.
  - intros c [?|[<-|[]]]%in_app_iff; [by apply Hrank|by rewrite Hsn].
Qed.

Lemma placeReservations_ok scan w0 w claims ranks preempt reuse :
  reach p request w0 w claims → (preempt = true → rq_preempt request = true) → (∀ entries, scan = Some entries → scan_ok entries) →
  (∀ fits changed, reuse = Some (fits, changed) → fits_ok scan fits) →
  yields (placeReservations p scan w request ranks preempt reuse) (λ r, ∀ w' placed, r = inl (w', placed) →
    reach p request w0 w' (claims ++ res_claims placed) ∧ length placed = length (ls_reservations (rq_launch request)) ∧
    NoDup (map node_id placed) ∧ ∀ c, In c placed → node_id c ∉ map node_id ranks).
Proof.
  intros Hr Hpre Hscan Hreuse. rewrite /placeReservations. destruct (ls_reservations (rq_launch request)) as [|r0 rs0] eqn:Ers.
  { apply yields_ret. intros w' placed [= <- <-]. rewrite /res_claims /= app_nil_r. split_and!; try done. constructor. }
  rewrite -Ers. apply (yields_bind _ _ (λ sc, ∃ entries, (∃ r, sc = inr r) ∨ sc = inl (Some entries) ∧ scan_ok entries ∧ (scan = None ∨ scan = Some entries))).
  { destruct scan as [entries|]; [apply yields_ret; exists entries; auto|]. eapply yields_bind; [apply scanReservations_ok|].
    intros [[entries [failed|]]|] [Hn Hs]; [|apply yields_ret|by rewrite Hn in Ers].
    - apply yields_then. intros r. apply yields_ret. exists entries. eauto.
    - exists entries. right. split_and!; [done|by eapply Hs|by left]. }
  intros sc (entries & [[r ->]|(-> & Hok & Hsc)]); [by apply yields_ret|]. eapply yields_bind.
  { apply (yields_mapM _ _ (λ ie o, o.1.1 = ie.2 ∧ ∀ c, In c o.1.2 → In (rc_node c) (sc_candidates ie.2) ∧ node_id c ∉ map node_id ranks)).
    intros ie Hie. apply (reservation_options_ok scan entries); [done|done|]. destruct ie as [i e]. by apply indexed_lookup. }
  intros options Hopt. have := assignReservations_spec (map (λ o, map (λ c, pn_id (rc_node c)) o.1.2) options).
  destruct (assignReservations _) as [[nodeIds|i]|]; [|by intros; apply yields_ret|done]. intros (Hlen & Hnd & _). rewrite length_map in Hlen.
  have Hlen2 : length options = length (ls_reservations (rq_launch request)).
  { rewrite -(so_reservations _ Hok) length_map -(Forall2_length _ _ _ Hopt) -(length_map snd) indexed_values. done. }
  eapply yields_weaken; [apply (yields_foldM_done _ _ _ (λ before st, reserved_ok w0 claims (map node_id ranks) nodeIds (length before) st))|].
  - intros w' placed [= <- <-]. rewrite /res_claims /= app_nil_r. by split_and!.
  - intros before [index [[entry choices] misses]] after st Hsplit Hst. apply indexed_split in Hsplit as [Hi Ho]. cbn in Hi, Ho. subst index.
    destruct (Forall2_lookup_r _ _ _ _ _ Hopt Ho) as ([j e] & [_ He]%indexed_at & Hentry & Hch). cbn in Hentry, He, Hch. subst e.
    rewrite length_app Nat.add_1_r. apply commit_reservation_ok; [done|done| |].
    + by rewrite -(so_reservations _ Hok) list_lookup_fmap He.
    + intros c Hc. destruct (Hch c Hc) as [H1 H2]. split; [|done]. apply (so_candidates _ Hok); [by eapply list_elem_of_In, list_elem_of_lookup_2|done].
  - intros st Hst w' placed ->. destruct (Hst w' placed eq_refl) as (H1 & H2 & H3 & H4). rewrite -(length_map snd) indexed_values in H2 H3.
    split_and!; [done|lia| |done]. rewrite H3 take_ge; [lia|done].
Qed.
End Sound.
