(* ===== verification/PlacementChoice.v ===== *)
(** * PlacementChoice: what the planner chooses

    [choice_ok]: a chosen placement is a run of allowed steps ([PlacementReach]) with one rank per
    node, every rank inside one fabric when there are several, and every reservation on a node of
    its own. Every search of [PlacementPlanner] yields only such choices, and so does pruning the
    stops ([choose_ok]). *)
From Stdlib Require Import ssreflect.
From S2P Require Import Prelude ClaimOverlap PlacementFit PlacementFitSafety ReservationMatching PlacementModel PlacementRules PlacementSteps PlacementPlanner.
From S2P Require Import PlacementLogic PlacementReach PlacementSound.

Definition rank_claims (ranks : list RankChoice) : list (RankChoice * ClaimFor) := map (λ ix, (ix.2, ForRank ix.1)) (indexed ranks).

Lemma rank_claims_snoc ranks c : rank_claims (ranks ++ [c]) = rank_claims ranks ++ [(c, ForRank (length ranks))].
Proof. by rewrite /rank_claims indexed_snoc map_app. Qed.

Section Choice.
Context (p : Planner) (request : PlacementRequest) (w0 : Working).
Let launch := rq_launch request.
Let reaches := reach p request w0.
Let claims_of ic := rank_claims (ic_ranks ic) ++ res_claims request (ic_reservations ic).

(** A multi-node instance's nodes are members of one fabric the launch allows. *)
Definition one_fabric (fabric : option PlacementFabric) (ns : list PlacementNode) : Prop :=
  (1 < ls_groupSize launch)%nat →
  ∃ f, fabric = Some f ∧ In f (fabricsFor (pl_context p) launch) ∧ ∀ n, In n ns → is_member f (pn_id n) = true.

Record choice_ok (ic : InstanceChoice) : Prop := {
  ch_reach : reaches (ic_working ic) (claims_of ic);
  ch_nodes : NoDup (map node_id (ic_ranks ic ++ ic_reservations ic));
  ch_ranks : length (ic_ranks ic) = ls_groupSize launch;
  ch_reservations : length (ic_reservations ic) = length (ls_reservations launch);
  ch_fabric : one_fabric (ic_fabric ic) (map rc_node (ic_ranks ic));
}.

Definition maybe_ok (o : option InstanceChoice) : Prop := ∀ ic, o = Some ic → choice_ok ic.

Section Searches.
Context (scan : option (list ScanEntry)) (Hscan : ∀ entries, scan = Some entries → scan_ok p request entries).
Context (preempt : bool) (Hpre : preempt = true → rq_preempt request = true).

(** The ranks committed so far, on distinct nodes of the candidates. *)
Record ranks_ok (candidates : list PlacementNode) (w : Working) (ranks : list RankChoice) : Prop := {
  ro_reach : reaches w (rank_claims ranks);
  ro_nodes : NoDup (map node_id ranks);
  ro_cand : ∀ c, In c ranks → In (rc_node c) candidates;
}.

(** The placement of a group's ranks and its reservations. *)
Lemma group_choice_ok candidates fabric w ranks cost leftover reuse :
  ranks_ok candidates w ranks → length ranks = ls_groupSize launch → one_fabric fabric candidates →
  (∀ fits changed, reuse = Some (fits, changed) → fits_ok scan fits) →
  yields (placeReservations p scan w request ranks preempt reuse)
    (λ r, ∀ w' placed, r = inl (w', placed) → choice_ok (mkInstanceChoice w' ranks placed fabric cost leftover)).
Proof.
  intros [Hr Hn Hc] Hlen Hf Hreuse. eapply yields_weaken; [by apply (placeReservations_ok p request scan w0 w (rank_claims ranks))|].
  intros r Hres w' placed ->. destruct (Hres w' placed eq_refl) as (H1 & H2 & H3 & H4). split; cbn; try done.
  - rewrite map_app. apply NoDup_app. split_and!; [done| |done]. intros x Hx (c & <- & Hcp)%list_elem_of_In%in_map_iff. by apply (H4 c).
  - intros Hsize. destruct (Hf Hsize) as (f & -> & Hin & Hm). exists f. split_and!; try done. intros n (c & <- & Hcr)%in_map_iff. by apply Hm, Hc.
Qed.

(** A rank committed on one more candidate. *)
Lemma commit_rank_ok candidates w ranks c :
  ranks_ok candidates w ranks → In (rc_node c) candidates → (∀ n i, In n candidates → node_may p request (ForRank i) n) →
  node_id c ∉ map node_id ranks →
  chosen_ok p request w (rc_node c) (rankResources launch (length ranks)) (wantedPort request (length ranks)) preempt true c →
  ∃ w', commitRank p w c true = (w', c) ∧ ranks_ok candidates w' (ranks ++ [c]).
Proof.
  intros [Hr Hn Hc] Hin Hmay Hnew Hok. destruct (commit_reach p request w0 w _ (ForRank (length ranks)) (wantedPort request (length ranks)) preempt c Hr Hok Hpre)
    as (w' & Hcommit & Hr'); [by apply Hmay|by intros _; rewrite /wantedPort; destruct (ls_fixedPort _)|].
  exists w'. split; [done|]. split.
  - by rewrite rank_claims_snoc.
  - rewrite map_app. apply NoDup_app. split_and!; [done| |apply NoDup_singleton]. intros x Hx ->%list_elem_of_singleton. done.
  - intros c' [?|[<-|[]]]%in_app_iff; [by apply Hc|done].
Qed.

Section Group.
Context (candidates : list PlacementNode) (Hmay : ∀ n i, In n candidates → node_may p request (ForRank i) n).
Context (fabric : option PlacementFabric) (Hfabric : one_fabric fabric candidates).

Lemma greedy_ranks_ok pool head indices w ranks reasons :
  (∀ n, In n pool → In n candidates) → ranks_ok candidates w ranks → indices = seq (length ranks) (length indices) →
  yields (greedy_ranks p request pool preempt head indices w ranks reasons)
    (λ r, ∀ w' ranks', r.1 = Some (w', ranks') → ranks_ok candidates w' ranks' ∧ length ranks' = (length ranks + length indices)%nat).
Proof.
  intros Hpool. revert w ranks reasons. induction indices as [|index indices IH]; intros w ranks reasons Hok Hidx; cbn [greedy_ranks].
  { apply yields_ret. intros w' ranks' [= <- <-]. split; [done|cbn; lia]. }
  cbn [length seq] in Hidx. injection Hidx as -> Hidx. eapply yields_bind.
  - apply (yields_foldM _ _ _ (λ st, ∀ c, st.1 = Some c → In (rc_node c) candidates ∧ node_id c ∉ map node_id ranks ∧
      chosen_ok p request w (rc_node c) (rankResources launch (length ranks)) (wantedPort request (length ranks)) preempt true c)); [done|].
    intros st node Hn Hst. rewrite /greedy_node. destruct (_ || _) eqn:Eskip; [by apply yields_ret|]. apply orb_false_iff in Eskip as [Hu _].
    bool_to_prop. eapply yields_bind; [apply rankOn_ok|]. intros [choice|reason] Hch; apply yields_ret; [|exact Hst].
    have Hco := Hch choice eq_refl. have Hnode := co_node _ _ _ _ _ _ _ _ _ Hco. intros c Hc. cbn in Hc.
    have Hcase : c = choice ∨ st.1 = Some c by destruct st.1 as [best|]; [destruct (_ <? _)|]; naive_solver.
    destruct Hcase as [-> | ?]; [|by apply Hst]. rewrite /node_id Hnode. split_and!; [by apply Hpool|done|done].
  - intros br Hbr. destruct br.1 as [best|] eqn:Ebr; [|by apply yields_ret]. destruct (Hbr best Ebr) as (Hin & Hnew & Hco).
    destruct (commit_rank_ok candidates w ranks best) as (w' & -> & Hok'); try done. eapply yields_weaken; [apply IH; [done|]|].
    + by rewrite length_app Nat.add_1_r.
    + intros r Hr w2 ranks2 H2. destruct (Hr w2 ranks2 H2) as [? Hl]. split; [done|]. rewrite length_app in Hl. cbn in *. lia.
Qed.

Lemma start_ranks_ok w : reaches w [] → ranks_ok candidates w [].
Proof. intros H. split; cbn; [done|constructor|done]. Qed.

Lemma try_option_ok w fits choice :
  reaches w [] → ls_groupSize launch = 1%nat → fits_ok scan fits → In (rc_node choice) candidates →
  chosen_ok p request w (rc_node choice) (rankResources launch 0) (wantedPort request 0) preempt true choice →
  yields (try_option p scan w request fabric preempt fits choice) maybe_ok.
Proof.
  intros Hr Hsize Hfits Hin Hco. rewrite /try_option /cloneWorkingCharged. eapply yields_bind.
  { eapply yields_bind; [apply yields_True|]. intros _ _. by apply (yields_ret w (λ w', w' = w)). }
  intros w' ->. destruct (commit_rank_ok candidates w [] choice) as (w1 & Hcommit & Hok); try done; [by apply start_ranks_ok|apply not_elem_of_nil|].
  rewrite Hcommit. eapply yields_bind.
  { apply (group_choice_ok candidates fabric w1 [choice] ZERO_COST 0); [done|done|done|]. by intros f ch [= <- <-]. }
  intros [[w2 placed]|r] Hres; [|apply yields_then; intros; by apply yields_ret].
  apply yields_ret. intros ic [= <-]. destruct (Hres w2 placed eq_refl) as [H1 H2 H3 H4 H5]. by split.
Qed.

Lemma try_options_ok w fits together options skipped :
  reaches w [] → ls_groupSize launch = 1%nat → fits_ok scan fits →
  (∀ c, In c options ∨ skipped = Some c → In (rc_node c) candidates ∧
     chosen_ok p request w (rc_node c) (rankResources launch 0) (wantedPort request 0) preempt true c) →
  yields (try_options p scan w request fabric preempt fits together options skipped) maybe_ok.
Proof.
  intros Hr Hsize Hfits. revert skipped. induction options as [|c options IH]; intros skipped Hopts; cbn [try_options].
  - destruct skipped; [|by apply yields_ret]. apply yields_then. intros. by apply yields_ret.
  - destruct (_ && _); [apply IH; naive_solver|]. destruct (Hopts c) as [Hin Hco]; [by left; left|].
    eapply yields_bind; [by apply try_option_ok|]. intros [found|] Hf; [by apply yields_ret|]. apply IH. naive_solver.
Qed.

Lemma greedyWithReservations_ok pool w head :
  (∀ n, In n pool → In n candidates) → reaches w [] → ls_groupSize launch = 1%nat →
  yields (greedyWithReservations p scan w request pool fabric preempt head) (λ r, maybe_ok r.1).
Proof.
  intros Hpool Hr Hsize. rewrite /greedyWithReservations. eapply yields_bind.
  - apply (yields_foldM _ _ _ (λ st, ∀ c, In c st.1 → In (rc_node c) candidates ∧
      chosen_ok p request w (rc_node c) (rankResources launch 0) (wantedPort request 0) preempt true c)); [done|].
    intros st node Hn Hst. destruct (match head with Some _ => _ | None => _ end); [by apply yields_ret|].
    eapply yields_bind; [apply rankOn_ok|]. intros [choice|reason] Hch; apply yields_ret; [|exact Hst].
    intros c [?|[<-|[]]]%in_app_iff; [by apply Hst|]. have Hco := Hch choice eq_refl. rewrite (co_node _ _ _ _ _ _ _ _ _ Hco). split; [by apply Hpool|done].
  - intros ors Hors. have Hs : ∀ c, In c (sort_by compareRank ors.1) → In c ors.1 by intros c; rewrite sort_by_in.
    destruct (sort_by compareRank ors.1) as [|o os] eqn:Es; [by apply yields_ret|].
    eapply yields_bind; [apply reservationFits_ok|]. intros fits Hfits. destruct (assignReservations _) as [a|]; [|apply yields_stuck].
    eapply yields_bind; [apply try_options_ok; try done|by intros r Hok; apply yields_ret]. intros c [Hc|?]; [by apply Hors, Hs|done].
Qed.

Lemma greedyGroup_ok pool seed head :
  (∀ n, In n pool → In n candidates) → wk_victims w0 = [] →
  (∀ i, seed = Some i → In i (instance_values p) ∧ preemptible p i request = true ∧ preempt = true) →
  yields (greedyGroup p scan w0 request pool fabric preempt seed head) (λ r, maybe_ok r.1).
Proof.
  intros Hpool Hv Hseed. rewrite /greedyGroup /cloneWorkingCharged. eapply yields_bind.
  { eapply yields_bind; [apply yields_True|]. intros _ _. by apply (yields_ret w0 (λ w', w' = w0)). }
  intros w ->. set w1 := match seed with Some _ => _ | None => _ end.
  have Hr : reaches w1 [].
  { rewrite /w1. destruct seed as [i|]; [|apply reach_start]. destruct (Hseed i eq_refl) as (Hi & Hpi & Hpp).
    rewrite /set_add bool_decide_eq_false_2; [rewrite Hv; apply not_elem_of_nil|]. apply (reach_stop p request w0 w0 [] i); try done; [constructor|by apply Hpre|].
    rewrite Hv. apply not_elem_of_nil. }
  destruct ((0 <? _)%nat && _) eqn:Eres.
  { split_ands. apply greedyWithReservations_ok; [done|done|]. by apply Nat.eqb_eq. }
  eapply yields_bind; [apply (greedy_ranks_ok pool); [done|by apply start_ranks_ok|by rewrite length_seq]|].
  intros gr Hgr. destruct gr.1 as [[w2 ranks]|] eqn:Egr; [|by apply yields_ret]. destruct (Hgr w2 ranks Egr) as [Hok Hlen].
  rewrite length_seq in Hlen. eapply yields_bind; [by apply (group_choice_ok candidates fabric w2 ranks ZERO_COST 0 None)|].
  intros [[w3 placed]|r] Hres; [|apply yields_then; intros; by apply yields_ret].
  apply yields_ret. intros ic [= <-]. destruct (Hres w3 placed eq_refl) as [H1 H2 H3 H4 H5]. by split.
Qed.

Lemma better_ok c best : choice_ok c → maybe_ok best → maybe_ok (better c best).
Proof. intros Hc Hb ic. rewrite /better. destruct best as [b|]; [destruct (_ <? _)|]; intros [= <-]; auto. Qed.

Lemma usableGroup_ok seed :
  wk_victims w0 = [] → (∀ i, seed = Some i → In i (instance_values p) ∧ preemptible p i request = true ∧ preempt = true) →
  yields (usableGroup p scan w0 request candidates fabric preempt seed) maybe_ok.
Proof.
  intros Hv Hseed. rewrite /usableGroup. eapply yields_bind; [by apply greedyGroup_ok|]. intros fr Hfr. apply yields_then. intros _.
  destruct fr.1 as [first|] eqn:Efr; [|by apply yields_ret]. destruct (groupProblem p first request).
  2:{ apply yields_ret. intros ic [= <-]. by apply Hfr. }
  apply yields_then. intros _. generalize (S MAX_SET_TRIES) as fuel. intros fuel.
  have : ∀ seen frontier, yields (usable_loop p request candidates
    (λ pool head, greedyGroup p scan w0 request pool fabric preempt seed head) fuel seen frontier) maybe_ok; [|by intros H].
  induction fuel as [|fuel IH]; intros seen frontier; cbn [usable_loop]; [apply yields_stuck|]. apply yields_then. intros tries.
  destruct (_ || _); [by apply yields_ret|]. apply (yields_bind _ _ (λ st : Round, maybe_ok st.2)).
  - rewrite /one_round. apply (yields_foldM _ _ _ (λ st : Round, maybe_ok st.2)); [done|]. intros st tf _ Hst.
    apply (yields_foldM _ _ _ (λ st : Round, maybe_ok st.2)); [done|]. intros [[seen' next] best] t _ Hbest. rewrite /one_trial. apply yields_then. intros tr.
    destruct (_ || _); [by apply yields_ret|]. apply yields_then. intros _. destruct (_ <? _)%nat; [by apply yields_ret|].
    eapply yields_bind; [apply greedyGroup_ok; [by intros n [? _]%filter_In|done|done]|]. intros cr Hcr.
    destruct cr.1 as [choice|] eqn:Ecr; [|by apply yields_ret]. destruct (groupProblem p choice request).
    + apply yields_then. intros _. by apply yields_ret.
    + apply yields_ret. apply better_ok; [by apply Hcr|done].
  - intros st Hst. destruct st.2 as [best|] eqn:Est; [|apply IH]. apply yields_ret. intros ic [= <-]. by apply Hst.
Qed.

Lemma seeds_ok i : In i (seeds p w0 request candidates) → In i (instance_values p) ∧ preemptible p i request = true.
Proof. rewrite /seeds sort_by_in. intros [Hi Hb]%filter_In. by split_ands. Qed.

Lemma bestGroup_ok : wk_victims w0 = [] → yields (bestGroup p scan w0 request candidates fabric preempt) maybe_ok.
Proof.
  intros Hv. rewrite /bestGroup. eapply yields_bind; [by apply usableGroup_ok|]. intros best Hbest. destruct (_ || _) eqn:Ep; [by apply yields_ret|].
  apply orb_false_iff in Ep as [Hp%negb_false_iff _].
  apply (yields_foldM _ _ _ maybe_ok); [done|]. intros b seed Hs Hb. apply seeds_ok in Hs as [Hi Hpi].
  eapply yields_bind; [apply usableGroup_ok; [done|by intros i [= <-]]|]. intros [c|] Hc; apply yields_ret; [|done]. apply better_ok; [by apply Hc|done].
Qed.
End Group.

(** *** Explicit nodes *)

Lemma explicit_nodes_ok ids ns :
  explicit_nodes p request ids = inl ns →
  Forall2 (λ id n, pn_id n = id ∧ (rq_retake request = true ∨ ineligible (pl_context p) n request = None)) ids ns.
Proof.
  revert ns. induction ids as [|id ids IH]; intros ns; cbn; [intros [= <-]; constructor|].
  destruct (map_get id (nodes p)) as [node|] eqn:En; [|done]. apply by_id_key in En as [Hid _].
  destruct (if rq_retake request then None else _) eqn:Ei; [done|]. destruct (explicit_nodes p request ids) as [ns'|] eqn:Ens; [|done].
  intros [= <-]. constructor; [|by apply IH]. split; [done|]. destruct (rq_retake request); auto.
Qed.

Lemma explicit_fabric_ok ns fabric : explicit_fabric p request ns = inl fabric → one_fabric fabric ns.
Proof.
  rewrite /explicit_fabric. destruct (Nat.leb_spec (ls_groupSize (rq_launch request)) 1) as [Hle|Hgt]; [rewrite /one_fabric /launch; intros _ ?; lia|].
  destruct (List.find _ _) as [f|] eqn:Ef; [|destruct (List.filter _ _); done]. intros [= <-] _.
  apply List.find_some in Ef as [[Hf Hm]%filter_In _]. exists f. split_and!; try done. rewrite forallb_forall in Hm. exact Hm.
Qed.

Lemma set_of_length {A} `{EqDecision A} (l : list A) : length (set_of l) = length l → NoDup l.
Proof.
  rewrite /set_of. have : ∀ s : list A, (length (fold_left (λ s x, set_add x s) l s) ≤ length s + length l)%nat ∧
    (length (fold_left (λ s x, set_add x s) l s) = (length s + length l)%nat → NoDup l ∧ ∀ x, x ∈ l → x ∉ s).
  { induction l as [|x l IH]; intros s; cbn [fold_left length]; [split; [lia|]|].
    { split; [constructor|by intros x ?%elem_of_nil]. }
    destruct (IH (set_add x s)) as [Hle Heq]. rewrite /set_add in Hle, Heq |- *. case_bool_decide as Hx; [split; [lia|intros; lia]|].
    rewrite length_app /= in Hle, Heq. split; [lia|]. intros Hl. destruct Heq as [Hn Hs]; [lia|]. split.
    - constructor; [|done]. intros Hin. apply (Hs x Hin), elem_of_app. right. by apply list_elem_of_singleton.
    - intros y [->|Hy]%elem_of_cons; [done|]. intros Hys. apply (Hs y Hy), elem_of_app. by left. }
  intros H Hl. by apply (H []).
Qed.

Lemma placeOnNodes_ok ids :
  rq_nodeIds request = Some ids → preempt = rq_preempt request →
  yields (placeOnNodes p scan w0 request ids) (λ r, ∀ ic, r = inl ic → choice_ok ic).
Proof.
  intros Hids Hpp. rewrite /placeOnNodes. destruct (_ || _) eqn:Ecount; [by apply yields_ret|].
  apply orb_false_iff in Ecount as [Hlen%negb_false_iff%Nat.eqb_eq Hset%negb_false_iff%Nat.eqb_eq]. apply set_of_length in Hset.
  destruct (explicit_nodes p request ids) as [ns|] eqn:Ens; [|by apply yields_ret]. apply explicit_nodes_ok in Ens.
  destruct (explicit_fabric p request ns) as [fabric|] eqn:Ef; [|by apply yields_ret]. apply explicit_fabric_ok in Ef.
  have Hmapids : map pn_id ns = ids by clear -Ens; induction Ens as [|id n l l' [<- _] _ IH]; cbn; [done|by rewrite IH].
  have Hnd : NoDup (map pn_id ns) by rewrite Hmapids.
  eapply yields_bind.
  - apply (yields_foldM_done _ _ _ (λ before st, ∀ w ranks, st = inl (w, ranks) →
      ranks_ok ns w ranks ∧ map rc_node ranks = map snd before)).
    { intros w ranks [= <- <-]. split; [|done]. apply start_ranks_ok, reach_start. }
    intros before [i node] after st Hsplit Hst. have [Hi Hnode] := indexed_split _ _ _ _ Hsplit. cbn in Hi, Hnode. subst i.
    rewrite /explicit_rank. destruct st as [[w ranks]|r]; [|by apply yields_ret]. destruct (Hst w ranks eq_refl) as [Hok Hmap].
    eapply yields_bind; [apply rankOn_ok|]. cbn [fst snd]. intros [choice|reason] Hch; [|by apply yields_ret].
    have Hco := Hch choice eq_refl. have Hcn := co_node _ _ _ _ _ _ _ _ _ Hco. have Hlr : length ranks = length before
      by rewrite -(length_map rc_node) Hmap length_map.
    rewrite -Hlr in Hnode Hco. rewrite -Hcn in Hco. destruct Hok as [Hr Hn Hc].
    destruct (commit_reach p request w0 w _ (ForRank (length ranks)) (wantedPort request (length ranks)) (rq_preempt request) choice Hr Hco)
      as (w' & Hcommit & Hr'); [done| |by intros _; rewrite /wantedPort; destruct (ls_fixedPort _)|].
    { rewrite /node_may Hids Hcn. destruct (Forall2_lookup_r _ _ _ _ _ Ens Hnode) as (id & Hid & <- & Hel). done. }
    cbn in Hcommit. rewrite Hcommit. apply yields_ret. intros w2 ranks2 [= <- <-]. split; [|by rewrite !map_app Hmap /= Hcn]. split.
    + by rewrite rank_claims_snoc.
    + rewrite map_app. apply NoDup_app. split_and!; [done| |apply NoDup_singleton]. intros x Hx ->%list_elem_of_singleton. move: Hx Hnd.
      rewrite -(indexed_values ns) Hsplit map_app /= map_app NoDup_app /node_id Hcn. intros Hx (_ & Hno & _). apply (Hno (pn_id node)); [|by left].
      by rewrite -(map_map rc_node pn_id) Hmap in Hx.
    + intros c [?|[<-|[]]]%in_app_iff; [by apply Hc|]. rewrite Hcn. by eapply list_elem_of_In, list_elem_of_lookup_2.
  - intros [[w ranks]|r] Hst; [|by apply yields_ret]. destruct (Hst w ranks eq_refl) as [Hok Hmap]. rewrite indexed_values in Hmap.
    rewrite -Hpp. eapply yields_bind; [apply (group_choice_ok ns fabric w ranks ZERO_COST 0 None); try done|].
    + by rewrite -(length_map rc_node) Hmap -(Forall2_length _ _ _ Ens).
    + intros [[w' placed]|r] Hres; apply yields_ret; intros ic; [|done]. intros [= <-].
      destruct (Hres w' placed eq_refl) as [H1 H2 H3 H4 H5]. by split.
Qed.
End Searches.

(** *** Automatic placement *)

Section Auto.
Context (scan : option (list ScanEntry)) (Hscan : ∀ entries, scan = Some entries → scan_ok p request entries).
Context (Hauto : rq_nodeIds request = None) (Hv : wk_victims w0 = []).

(** The nodes that may take a rank. *)
Definition auto_node (n : PlacementNode) : Prop :=
  in_scope (rq_allowedNodeIds request) (pn_id n) = true ∧ ineligible (pl_context p) n request = None.

Lemma auto_may candidates : (∀ n, In n candidates → auto_node n) → ∀ n i, In n candidates → node_may p request (ForRank i) n.
Proof. intros H n i Hn. rewrite /node_may Hauto. by apply H. Qed.

Lemma pass_ok search :
  (∀ preempt, (preempt = true → rq_preempt request = true) → yields (search preempt) maybe_ok) → yields (pass request search) maybe_ok.
Proof.
  intros Hs. rewrite /pass. apply yields_then. intros _. eapply yields_bind; [by apply Hs|]. intros plain Hplain.
  destruct (_ || _) eqn:E; [by apply yields_ret|]. apply orb_false_iff in E as [_ Hp%negb_false_iff].
  do 2 (apply yields_then; intros _). by apply Hs.
Qed.

Lemma placeAuto_ok : yields (placeAuto p scan w0 request) (λ r, ∀ ic, r = inl ic → choice_ok ic).
Proof.
  rewrite /placeAuto. eapply yields_bind.
  { apply (yields_foldM _ _ _ (λ st : list PlacementNode * list (string * RefusalReason), ∀ n, In n st.1 → auto_node n)); [done|].
    intros st node _ Hst. rewrite /check_node. apply yields_then. intros _. apply yields_ret. destruct (in_scope _ _) eqn:Esc; [|exact Hst]. cbn [negb].
    destruct (ineligible _ node request) eqn:Ei; [exact Hst|]. intros n [?|[<-|[]]]%in_app_iff; [by apply Hst|done]. }
  intros en Hen. apply yields_then. intros _. destruct (_ =? _)%nat eqn:Esize.
  - apply Nat.eqb_eq in Esize. rewrite /place_single. eapply yields_bind.
    + apply pass_ok. intros preempt Hpre. apply bestGroup_ok; [done|done|by apply auto_may|intros H; rewrite /launch in H; lia|done].
    + intros choice Hc. do 2 (apply yields_then; intros ?). apply yields_ret. intros ic. destruct choice as [c|]; [|by destruct a0].
      intros [= <-]. by apply Hc.
  - rewrite /place_multi. set fabrics := List.filter _ _. destruct (negb _); [by apply yields_ret|]. eapply yields_bind.
    + apply pass_ok. intros preempt Hpre. apply (yields_foldM _ _ _ maybe_ok); [done|]. intros best fabric Hf Hbest.
      destruct (_ <? _)%nat; [by apply yields_ret|]. eapply yields_bind.
      { apply bestGroup_ok; [done|done|apply auto_may; by intros n [Hn _]%filter_In; apply Hen| |done].
        intros _. exists fabric. split_and!; [done|by apply filter_In in Hf as [? _]|by intros n [_ ?]%filter_In]. }
      intros [c|] Hc; apply yields_ret; [|done]. apply better_ok; [by apply Hc|done].
    + intros choice Hc. destruct choice as [c|]; [apply yields_ret; intros ic [= <-]; by apply Hc|].
      apply yields_then. intros groups. destruct (List.find _ GROUP_REASONS); [by apply yields_ret|]. apply yields_then. intros fr. by apply yields_ret.
Qed.
End Auto.

(** *** Pruning stops *)

(** An instance of the planner the request may stop. *)
Definition authorized (id : string) : Prop :=
  ∃ i, In i (instance_values p) ∧ pi_id i = id ∧ preemptible p i request = true ∧ rq_preempt request = true.

Lemma replay_stops ids w :
  reaches w [] → NoDup ids → (∀ id, id ∈ ids → id ∉ wk_victims w ∧ authorized id) →
  reaches (fold_left (λ w id, freeInstance p (mkWorking (wk_budgets w) (set_add id (wk_victims w)) (wk_floors w)) id stop_mode) ids w) [].
Proof.
  revert w. induction ids as [|id ids IH]; intros w Hr Hnd Hall; cbn [fold_left]; [done|]. apply NoDup_cons in Hnd as [Hid Hnd].
  destruct (Hall id (list_elem_of_here _ _)) as [Hnew (i & Hi & <- & Hp & Hpre)]. rewrite /set_add bool_decide_eq_false_2 //.
  destruct (stopped_get p request w i Hi Hp) as (Hvic & _ & _). apply IH; [by apply (reach_stop p request w0 w [] i)|done|].
  intros id' Hin. destruct (Hall id' (list_elem_of_further _ _ _ Hin)) as [Hn Ha]. split; [|done].
  rewrite -/(stopped_also p w i) Hvic not_elem_of_app list_elem_of_singleton. split; [done|]. by intros ->.
Qed.

Lemma replay_choice_ok w claims c k wanted def w' c' :
  reaches w claims → node_may p request k (rc_node c) → port_wanted request k c →
  (for_port k = true → p_fixed wanted = Some (rc_port c)) →
  replay_choice w c (for_resources request k) wanted (for_port k) def = Some (w', c') →
  reaches w' (claims ++ [(c', k)]) ∧ rc_node c' = rc_node c.
Proof.
  intros Hr Hmay Hport Hwant. rewrite /replay_choice. destruct (map_get _ (wk_budgets w)) as [b|] eqn:Eb; [|done].
  destruct (fit_on _ _ _ _ _ _) as [port keys needs take|] eqn:Ef; [|done]. set c1 := rankChoice _ _ _ _ _ _ _ _ _. intros [= <- <-].
  split; [|done]. apply (reach_take p request w0 w claims b c1 k Hr). split; [done|done|by exists wanted|].
  intros Hk. have [_ [_ Hp]] := fit_repick _ _ _ _ _ _ _ _ _ _ Ef. destruct (Hp Hk) as [_ Hp2]. rewrite (Hwant Hk) in Hp2. cbn in Hp2 |- *.
  subst port. by apply Hport.
Qed.

Lemma fold_done {A B} (f : A → B → A) l a (Inv : list B → A → Prop) :
  Inv [] a → (∀ before x after a, l = before ++ x :: after → Inv before a → Inv (before ++ [x]) (f a x)) → Inv l (fold_left f l a).
Proof.
  intros Ha Hf. have : ∀ rest before a, l = before ++ rest → Inv before a → Inv l (fold_left f rest a); [|by intros H; apply (H l [])].
  induction rest as [|x rest IH]; intros before a' Hl Hi; cbn; [by rewrite app_nil_r in Hl; subst|].
  apply (IH (before ++ [x])); [by rewrite -app_assoc|by eapply Hf].
Qed.

Lemma replay_ranks_ok ranks w1 w' ranks' :
  (∀ i c, ranks !! i = Some c → node_may p request (ForRank i) (rc_node c) ∧ port_wanted request (ForRank i) c) →
  reaches w1 [] → fold_left (replay_rank request) (indexed ranks) (Some (w1, [])) = Some (w', ranks') →
  reaches w' (rank_claims ranks') ∧ map rc_node ranks' = map rc_node ranks.
Proof.
  intros Hold Hr1 Hfold.
  have Hinv := fold_done (replay_rank request) (indexed ranks) (Some (w1, [])) (λ before st, ∀ w2 done, st = Some (w2, done) →
    reaches w2 (rank_claims done) ∧ map rc_node done = map rc_node (map snd before)). rewrite indexed_values in Hinv.
  refine (Hinv _ _ w' ranks' Hfold); [by intros w3 d [= <- <-]|]. clear Hinv Hfold.
  intros before [i c] after st Hsplit Hst w3 done3. have [Hi Hc] := indexed_split _ _ _ _ Hsplit. cbn in Hi, Hc. subst i. rewrite /replay_rank.
  destruct st as [[w4 done4]|]; [|done]. destruct (Hst w4 done4 eq_refl) as [Hr4 Hn4]. cbn [fst snd].
  have Hlb : length done4 = length before by rewrite -(length_map rc_node) Hn4 !length_map. rewrite -Hlb in Hc |- *.
  destruct (replay_choice _ _ _ _ _ _) as [[w5 c5]|] eqn:E5; [|done]. intros [= <- <-]. destruct (Hold _ _ Hc) as [Hmay Hport].
  destruct (replay_choice_ok w4 _ c (ForRank (length done4)) (mkPort (Some (rc_port c)) None) (rc_definition c) w5 c5 Hr4 Hmay Hport) as [Hr5 Hn5]; [done|done|].
  split; [by rewrite rank_claims_snoc|]. by rewrite !map_app Hn4 /= Hn5.
Qed.

Lemma replay_reservations_ok reservations w1 claims w' placed :
  (∀ i c r, reservations !! i = Some c → ls_reservations launch !! i = Some r → node_may p request (ForReservation r) (rc_node c)) →
  reaches w1 claims → fold_left (replay_reservation request) (indexed reservations) (Some (w1, [])) = Some (w', placed) →
  reaches w' (claims ++ res_claims request placed) ∧ map rc_node placed = map rc_node reservations.
Proof.
  intros Hold Hr1 Hfold.
  have Hinv := fold_done (replay_reservation request) (indexed reservations) (Some (w1, [])) (λ before st, ∀ w2 done, st = Some (w2, done) →
    reaches w2 (claims ++ res_claims request done) ∧ map rc_node done = map rc_node (map snd before)). rewrite indexed_values in Hinv.
  refine (Hinv _ _ w' placed Hfold); [by intros w3 d [= <- <-]; rewrite /res_claims /= app_nil_r|]. clear Hinv Hfold.
  intros before [i c] after st Hsplit Hst w4 done4. have [Hi Hc] := indexed_split _ _ _ _ Hsplit. cbn in Hi, Hc. subst i. rewrite /replay_reservation.
  destruct st as [[w5 done5]|]; [|done]. destruct (Hst w5 done5 eq_refl) as [Hr5 Hn5]. cbn [fst snd].
  have Hlb : length done5 = length before by rewrite -(length_map rc_node) Hn5 !length_map. rewrite -Hlb in Hc |- *.
  destruct (ls_reservations (rq_launch request) !! length done5) as [r|] eqn:Er; [|done].
  destruct (replay_choice _ _ _ _ _ _) as [[w6 c6]|] eqn:E6; [|done]. intros [= <- <-].
  destruct (replay_choice_ok w5 _ c (ForReservation r) (mkPort None None) None w6 c6 Hr5 (Hold _ _ _ Hc Er)) as [Hr6 Hn6]; [done|done|done|].
  split; [by rewrite (res_claims_snoc _ _ _ r) // app_assoc|]. by rewrite !map_app Hn5 /= Hn6.
Qed.

(** The claims of a choice by position. *)
Lemma choice_rank_claim ic i c : ic_ranks ic !! i = Some c → In (c, ForRank i) (claims_of ic).
Proof. intros H. apply in_app_iff. left. apply in_map_iff. exists (i, c). split; [done|]. by apply indexed_lookup. Qed.

Lemma choice_reservation_claim ic i c r :
  ic_reservations ic !! i = Some c → ls_reservations launch !! i = Some r → In (c, ForReservation r) (claims_of ic).
Proof.
  intros Hc Hr. apply in_app_iff. right. apply list_elem_of_In, (list_elem_of_lookup_2 _ i), lookup_zip_with_Some. exists c, (ForReservation r).
  split_and!; [done|done|]. by rewrite list_lookup_fmap Hr.
Qed.

Lemma replayRanks_ok chosen victims :
  choice_ok chosen → wk_victims w0 = [] → NoDup victims → (∀ id, id ∈ victims → authorized id) →
  yields (replayRanks p w0 request (ic_ranks chosen) victims (ic_reservations chosen))
    (λ r, ∀ w ranks reservations, r = Some (w, ranks, reservations) → choice_ok (with_replay chosen w ranks reservations)).
Proof.
  intros [Hr Hnd Hlen Hlenr Hfab] Hv Hvnd Hvall. have Hold := reach_claims p request _ _ _ Hr.
  rewrite /replayRanks /cloneWorkingCharged. eapply yields_bind.
  { eapply yields_bind; [apply yields_True|]. intros _ _. by apply (yields_ret w0 (λ w', w' = w0)). }
  intros w ->. set w1 := fold_left _ _ w0. have Hr1 : reaches w1 [].
  { apply replay_stops; [apply reach_start| |]; first by rewrite sort_by_perm. intros id. rewrite sort_by_perm Hv. intros Hid.
    split; [apply not_elem_of_nil|by apply Hvall]. }
  apply yields_ret. intros w' ranks' res'.
  destruct (fold_left (replay_rank request) _ _) as [[w2 ranks]|] eqn:E2; [|done].
  apply replay_ranks_ok in E2 as [Hr2 Hn2]; [|by intros i c Hc; apply Hold, choice_rank_claim|done].
  destruct (fold_left (replay_reservation request) _ _) as [[w3 placed]|] eqn:E3; [|done].
  eapply replay_reservations_ok in E3 as [Hr3 Hn3]; [|by intros i c r Hc Hcr; eapply Hold, choice_reservation_claim|exact Hr2].
  intros [= <- <- <-]. have Hid : ∀ l, map node_id l = map pn_id (map rc_node l) by intros; rewrite map_map. split; cbn.
  - exact Hr3.
  - rewrite Hid map_app Hn2 Hn3 -map_app -Hid. exact Hnd.
  - by rewrite -Hlen -(length_map rc_node) Hn2 length_map.
  - by rewrite -Hlenr -(length_map rc_node) Hn3 length_map.
  - by rewrite Hn2.
Qed.

Lemma pruneVictims_ok chosen : choice_ok chosen → wk_victims w0 = [] → yields (pruneVictims p w0 request chosen) choice_ok.
Proof.
  intros Hc Hv. rewrite /pruneVictims. eapply yields_bind.
  - apply (yields_foldM _ _ _ (λ st, choice_ok st.1 ∧ NoDup st.2 ∧ ∀ id, id ∈ st.2 → authorized id)).
    + split; [done|]. split; [eapply reach_victims_NoDup; [apply Hc|rewrite Hv; constructor]|]. intros id Hid.
      destruct (reach_victims p request _ _ _ (ch_reach _ Hc) Hv id Hid) as (i & Hi & Hpi & Hpre).
      apply by_id_key in Hi as [Hidi Hin]. by exists i.
    + intros [c kept] victim _ (Hok & Hn & Ha). rewrite /prune_one. eapply yields_bind.
      { apply replayRanks_ok; [done|done|by apply NoDup_filter_bool|]. intros id. rewrite list_elem_of_In filter_In -list_elem_of_In. intros [? _]. by apply Ha. }
      intros [[[w ranks] res]|] Hrep; apply yields_ret; cbn; [|done]. split; [by apply Hrep|]. split; [by apply NoDup_filter_bool|].
      intros id. rewrite list_elem_of_In filter_In -list_elem_of_In. intros [? _]. by apply Ha.
  - intros st ([H1 H2 H3 H4 H5] & _). apply yields_ret. by split.
Qed.
(** *** Pruning on explicit nodes *)

(** A stop gives back no port. *)
Lemma freeInstance_ports w iid id b :
  map_get id (wk_budgets w) = Some b →
  ∃ b', map_get id (wk_budgets (freeInstance p w iid stop_mode)) = Some b' ∧ b_ports b' = b_ports b.
Proof.
  rewrite /freeInstance. destruct (map_get iid (instances p)) as [i|]; [|by exists b]. set stopped := bool_decide _.
  have : ∀ gs bs fl, (∃ b', map_get id bs = Some b' ∧ b_ports b' = b_ports b) →
    ∃ b', map_get id (fold_left (free_group stop_mode stopped) gs (bs, fl)).1 = Some b' ∧ b_ports b' = b_ports b.
  { induction gs as [|g gs IH]; intros bs fl Hbs; [done|]. cbn [fold_left]. rewrite /free_group.
    destruct (map_get (cg_nodeId g) bs) as [b1|] eqn:E1; [|by apply IH]. destruct (_ || _); apply IH; [done|].
    destruct Hbs as (b' & Hb' & Hports). rewrite map_get_set. case_decide as Hid; [|by exists b']. subst. rewrite E1 in Hb'. simplify_eq. by eexists. }
  intros H Hb. specialize (H (groups_of p iid) (wk_budgets w) [] (ex_intro _ b (conj Hb eq_refl))). by destruct (fold_left _ _ _) as [bs fl].
Qed.

Lemma stops_keep_ports ids w id b :
  map_get id (wk_budgets w) = Some b →
  ∃ b', map_get id (wk_budgets (fold_left (λ w id, freeInstance p (mkWorking (wk_budgets w) (set_add id (wk_victims w)) (wk_floors w)) id stop_mode) ids w)) = Some b' ∧
        b_ports b' = b_ports b.
Proof.
  revert w b. induction ids as [|iid ids IH]; intros w b Hb; cbn [fold_left]; [by exists b|].
  destruct (freeInstance_ports (mkWorking (wk_budgets w) (set_add iid (wk_victims w)) (wk_floors w)) iid id b Hb) as (b1 & Hb1 & E1).
  destruct (IH _ b1 Hb1) as (b2 & Hb2 & E2). exists b2. split; [done|]. by rewrite E2.
Qed.

(** A rank's own port is taken in the placement it is part of: no replay on top of it fits. *)
Lemma replay_on_itself chosen victims :
  planner_ok p → request_ok request → working_ok w0 → choice_ok chosen →
  yields (replayRanks p (ic_working chosen) request (ic_ranks chosen) victims (ic_reservations chosen)) (λ r, r = None).
Proof.
  intros Hp Hrq H0 Hok. have Hlen := ch_ranks _ Hok. destruct Hrq as [Hsize Hrest]. destruct (ic_ranks chosen) as [|c ranks] eqn:Er; [cbn in Hlen; rewrite /launch in Hlen; lia|].
  have [_ Hports] := reach_ports p request Hp (conj Hsize Hrest) _ _ _ (ch_reach _ Hok) H0.
  destruct (Hports c (ForRank 0)) as (_ & _ & b & _ & Hb & _ & Hhas); [|done|].
  { apply in_app_iff. left. rewrite Er. by left. }
  rewrite /replayRanks /cloneWorkingCharged. eapply yields_bind.
  { eapply yields_bind; [apply yields_True|]. intros _ _. by apply (yields_ret (ic_working chosen) (λ w', w' = ic_working chosen)). }
  intros w ->. apply yields_ret. set w1 := fold_left _ (sort_by _ _) _. destruct (stops_keep_ports (sort_by compareCodePoints victims) _ _ _ Hb) as (b' & Hb' & Eports).
  have Hnone : replay_rank request (Some (w1, [])) (0%nat, c) = None.
  { rewrite /replay_rank /replay_choice Hb'. destruct (fit_on _ _ _ _ _ _) as [port keys needs take|] eqn:Ef; [|done].
    destruct (fit_repick _ _ _ _ _ _ _ _ _ _ Ef) as (_ & _ & Hport). destruct (Hport eq_refl) as [Hfree Heq]. cbn in Heq. subst port.
    by rewrite Eports Hhas in Hfree. }
  have Hfold : ∀ l, fold_left (replay_rank request) l None = None by induction l.
  rewrite /indexed. cbn [length seq combine fold_left]. by rewrite Hnone Hfold.
Qed.

Lemma prune_explicit_ok chosen :
  planner_ok p → request_ok request → working_ok w0 → choice_ok chosen → yields (pruneVictims p (ic_working chosen) request chosen) choice_ok.
Proof.
  intros Hp Hrq H0 Hok. rewrite /pruneVictims. eapply yields_bind.
  - apply (yields_foldM _ _ _ (λ st : InstanceChoice * list string, st.1 = chosen)); [done|]. intros [c kept] victim _ Hc. cbn in Hc. subst c.
    rewrite /prune_one. eapply yields_bind; [by apply replay_on_itself|]. intros r ->. by apply yields_ret.
  - intros [c kept] Hc. cbn in Hc. subst c. apply yields_ret. destruct Hok. by split.
Qed.
End Choice.

(** ** [place()] *)

Lemma choose_ok p request free :
  planner_ok p → request_ok request → working_ok (start_working p request free) → wk_victims (start_working p request free) = [] →
  yields (choose_placement p request free) (λ r, ∀ ic, r = inl ic → choice_ok p request (start_working p request free) ic).
Proof.
  intros Hp Hrq H0 Hv. rewrite /choose_placement. apply yields_then. intros _. eapply yields_bind; [apply scanReservations_ok|]. intros scanned [_ Hs].
  have Hscan : ∀ entries, fst <$> scanned = Some entries → scan_ok p request entries.
  { intros entries. destruct scanned as [[es f]|]; [|done]. intros [= <-]. by eapply Hs. }
  have Hrest : yields (do! chosen := match rq_nodeIds request with
                                    | Some ids => placeOnNodes p (fst <$> scanned) (start_working p request free) request ids
                                    | None => placeAuto p (fst <$> scanned) (start_working p request free) request
                                    end in
      match chosen with
      | inr r => ret (inr r)
      | inl c =>
          let base := match rq_nodeIds request with Some _ => ic_working c | None => start_working p request free end in
          if (0 <? length (wk_victims (ic_working c)))%nat then do! c' := pruneVictims p base request c in ret (inl c') else ret (inl c)
      end) (λ r, ∀ ic, r = inl ic → choice_ok p request (start_working p request free) ic).
  { eapply yields_bind.
    - destruct (rq_nodeIds request) as [ids|] eqn:Eids; [by apply (placeOnNodes_ok _ _ _ _ Hscan (rq_preempt request))|by apply placeAuto_ok].
    - intros [c|r] Hc; [|by apply yields_ret]. destruct (_ <? _)%nat; [|by apply yields_ret; intros ic [= <-]; apply Hc].
      eapply yields_bind; [|intros c' Hc'; apply yields_ret; by intros ic [= <-]].
      destruct (rq_nodeIds request); [apply prune_explicit_ok; try done; by apply Hc|apply pruneVictims_ok; [by apply Hc|done]]. }
  destruct scanned as [[entries [failed|]]|]; [|exact Hrest|exact Hrest]. apply yields_then. intros r. by apply yields_ret.
Qed.

Lemma freeInstance_victims p w id mode : wk_victims (freeInstance p w id mode) = wk_victims w.
Proof.
  rewrite /freeInstance. destruct (map_get id (instances p)); [|done]. destruct (fold_left _ _ _) as [bs fl]. by destruct mode.
Qed.

Lemma start_victims p request free : wk_victims (start_working p request free) = [].
Proof. rewrite /start_working. destruct (rq_restart request); [by rewrite freeInstance_victims|done]. Qed.
