(* ===== verification/PlacementPorts.v ===== *)
(** * PlacementPorts: the dist port and the ports a commit leaves taken

    What [#distPlan] and the port bookkeeping of [#commitChoice] do: the dist port is free on
    every rank's node and in every range, a rank whose serving port is that port moves to another
    free port of its own range, and after the commit every node holds its rank's serving port and
    the dist port. *)
From Stdlib Require Import ssreflect.
From S2P Require Import Prelude ClaimOverlap PlacementFit PlacementFitSafety PlacementModel PlacementRules PlacementSteps PlacementPlanner PlacementReach.
From S2P Require Import PlacementSound PlacementChoice.

#[global] Arguments port_delete : simpl never.

(** ** Changing only ports *)

(** The same room, maybe other ports. *)
Record ports_only (b b' : Budget) : Prop := {
  po_memory : b_memoryGb b' = b_memoryGb b;
  po_gpus : b_gpus b' = b_gpus b;
  po_definitions : b_definitions b' = b_definitions b;
}.

#[export] Instance ports_only_preorder : PreOrder ports_only.
Proof. split; [by intros b|]. intros b1 b2 b3 [] []. split; congruence. Qed.

Definition same_room (m m' : jsmap string Budget) : Prop := ∀ id, option_Forall2 ports_only (map_get id m) (map_get id m').

#[export] Instance same_room_preorder : PreOrder same_room.
Proof. split; [intros m id; reflexivity|]. intros m1 m2 m3 H1 H2 id. etrans; [apply H1|apply H2]. Qed.

Lemma with_budget_get id f m id' : map_get id' (with_budget id f m) = if bool_decide (id = id') then f <$> map_get id' m else map_get id' m.
Proof.
  rewrite /with_budget. destruct (map_get id m) as [b|] eqn:E.
  - rewrite map_get_set. case_bool_decide as H; [subst; by rewrite decide_True // E|by rewrite decide_False].
  - case_bool_decide; [subst; by rewrite E|done].
Qed.

Lemma with_budget_room id f m : (∀ b, ports_only b (f b)) → same_room m (with_budget id f m).
Proof.
  intros Hf id'. rewrite with_budget_get. case_bool_decide; [|reflexivity]. destruct (map_get id' m); constructor. apply Hf.
Qed.

Lemma fold_room {A} (f : jsmap string Budget → A → jsmap string Budget) l m :
  (∀ m x, same_room m (f m x)) → same_room m (fold_left f l m).
Proof. intros Hf. revert m. induction l as [|x l IH]; intros m; cbn; [reflexivity|]. etrans; [apply Hf|apply IH]. Qed.

Lemma with_port_room port b : ports_only b (with_port port b).
Proof. done. Qed.

Lemma add_ports_room rank b : ports_only b (add_ports rank b).
Proof. rewrite /add_ports. by destruct (pr_reservation rank). Qed.

Lemma move_ports_room ranks moves m : same_room m (move_ports ranks moves m).
Proof. apply fold_room. intros m' mv. destruct (ranks !! mv.1); [|reflexivity]. by apply with_budget_room. Qed.

Lemma retake_room p request m : same_room m (retake_ports p request m).
Proof.
  rewrite /retake_ports. destruct (rq_restart request); [|reflexivity]. apply fold_room. intros m' rank. destruct (pr_nodeId rank); [|reflexivity].
  apply with_budget_room, add_ports_room.
Qed.

Lemma take_dist_room request ic bs ranks dp : take_dist request ic = inl (bs, ranks, dp) → same_room (wk_budgets (ic_working ic)) bs.
Proof.
  rewrite /take_dist. destruct (_ <=? _)%nat; [by intros [= <- _ _]|]. destruct (distPlan _ _ _ _) as [port moves|]; [|done]. intros [= <- _ _].
  etrans; [apply move_ports_room|]. apply fold_room. intros. apply with_budget_room, with_port_room.
Qed.

(** ** The dist port *)

Lemma dist_plan_at_spec w ranks port allow moves :
  dist_plan_at w ranks port allow = Some moves →
  NoDup (map_keys moves) ∧ ∀ i r, ranks !! i = Some r → ∃ move, dist_rank w port allow r = Some move ∧ map_get i moves = move.
Proof.
  intros H. set Inv := λ (before : list (nat * RankChoice)) (acc : option (list (nat * Z))), ∀ moves, acc = Some moves → NoDup (map_keys moves) ∧
        (∀ i, i ∈ map_keys moves → (i < length before)%nat) ∧
        ∀ i r, In (i, r) before → ∃ move, dist_rank w port allow r = Some move ∧ map_get i moves = move.
  have Hend : Inv (indexed ranks) (dist_plan_at w ranks port allow); [rewrite /dist_plan_at; apply (fold_done _ _ _ Inv)|].
  - intros ms [= <-]. split_and!; [constructor|by intros i ?%elem_of_nil|done].
  - intros before [i r] after acc Hsplit Hacc ms. have [Hi Hr] := indexed_split _ _ _ _ Hsplit. cbn in Hi. subst i.
    destruct acc as [ms0|]; [|done]. destruct (Hacc ms0 eq_refl) as (Hn & Hlt & Hall). cbn [fst snd].
    have Hnew : length before ∉ map_keys ms0 by intros Hin; apply Hlt in Hin; lia.
    have Hget : ∀ i m, (i < length before)%nat → map_get i (ms0 ++ [(length before, m)]) = map_get i ms0.
    { intros i m Hi. clear -Hi. induction ms0 as [|[k v] l IH]; cbn; [rewrite decide_False //; lia|]. by rewrite IH. }
    have Hin : ∀ i r', In (i, r') before → (i < length before)%nat.
    { intros i r' Hb. have Hx : In (i, r') (indexed ranks) by rewrite Hsplit; apply in_app_iff; left.
      apply list_elem_of_In, list_elem_of_lookup_1 in Hb as [j Hj]. have := lookup_lt_Some _ _ _ Hj.
      have Hij : indexed ranks !! j = Some (i, r') by rewrite Hsplit lookup_app_l //; by eapply lookup_lt_Some. apply indexed_at in Hij as [Hij _]. cbn in Hij. lia. }
    destruct (dist_rank w port allow r) as [[moved|]|] eqn:Er; [| |done]; intros [= <-]; rewrite length_app /=; split_and!.
    + rewrite /map_keys fmap_app. apply NoDup_app. split_and!; [done| |apply NoDup_singleton]. intros x Hx ->%list_elem_of_singleton. done.
    + intros x. rewrite /map_keys fmap_app elem_of_app list_elem_of_singleton. intros [Hx| ->]; [apply Hlt in Hx; lia|cbn; lia].
    + intros x r' [Hb|[[= <- <-]|[]]]%in_app_iff; [rewrite Hget; [by eapply Hin|by apply Hall]|]. exists (Some moved). split; [done|].
      clear -Hnew. induction ms0 as [|[k v] l IH]; cbn in *; [by rewrite decide_True|]. apply not_elem_of_cons in Hnew as [? ?].
      rewrite decide_False; [done|by apply IH].
    + done.
    + intros x Hx. apply Hlt in Hx. lia.
    + intros x r' [Hb|[[= <- <-]|[]]]%in_app_iff; [by apply Hall|]. exists None. split; [done|].
      destruct (map_get (length before) ms0) eqn:E; [|done]. destruct Hnew. apply map_get_keys. eauto.
  - destruct (Hend moves H) as (Hn & _ & Hall). split; [done|]. intros i r Hr. apply Hall. by apply indexed_lookup.
Qed.

Lemma first_plan_some w ranks allow ports port moves :
  first_plan w ranks allow ports = Some (port, moves) → dist_plan_at w ranks port allow = Some moves.
Proof. induction ports as [|q ports IH]; cbn; [done|]. destruct (dist_plan_at w ranks q allow) eqn:E; [by intros [= <- <-]|done]. Qed.

Lemma distPlan_at w ranks restart movable port moves :
  distPlan w ranks restart movable = DistPort port moves →
  ∃ allow, (allow = true → movable = true) ∧ dist_plan_at w ranks port allow = Some moves.
Proof.
  rewrite /distPlan. destruct (map _ ranks) as [|s0 ss]; [done|]. destruct (map _ ranks) as [|e0 es]; [done|]. destruct (_ <? _); [done|].
  set kept := match (match restart with Some _ => _ | None => _ end) with Some _ => _ | None => _ end.
  destruct kept as [[q ms]|] eqn:Ek.
  { intros [= -> ->]. exists false. split; [done|]. move: Ek. rewrite /kept. destruct (match restart with Some _ => _ | None => _ end) as [o|]; [|done].
    destruct (inRange _ _); [|done]. destruct (dist_plan_at w ranks o false) eqn:E; [|done]. by intros [= <- <-]. }
  destruct (first_plan w ranks false _) as [[q ms]|] eqn:E1; [intros [= -> ->]; exists false; split; [done|by eapply first_plan_some]|].
  destruct (if movable then _ else _) as [[q ms]|] eqn:E2; [|done]. intros [= -> ->]. exists true. destruct movable; [|done]. split; [done|by eapply first_plan_some].
Qed.

(** ** Ports that are taken *)

Definition port_taken (m : jsmap string Budget) (id : string) (port : Z) : Prop :=
  ∃ b, map_get id m = Some b ∧ port_has port (b_ports b) = true.

Definition counts_ok (m : jsmap string Budget) : Prop := ∀ id b port, map_get id m = Some b → 0 ≤ port_count port (b_ports b).

Lemma port_has_iff port ports : port_has port ports = true ↔ 0 < port_count port ports.
Proof. by rewrite /port_has Z.ltb_lt. Qed.

Lemma port_delete_count port port' ports :
  port_count port' (port_delete port ports) =
  if bool_decide (port = port') then (if 0 <? port_count port ports - 1 then port_count port ports - 1 else 0) else port_count port' ports.
Proof.
  rewrite /port_delete. destruct (0 <? port_count port ports - 1); rewrite {1}/port_count ?map_get_set ?map_get_delete; case_bool_decide as H.
  - by rewrite decide_True.
  - by rewrite decide_False.
  - by rewrite decide_True.
  - by rewrite decide_False.
Qed.

(** Adding ports of one node. *)
Definition grows_ports (f : Budget → Budget) : Prop := ∀ b port, port_count port (b_ports b) ≤ port_count port (b_ports (f b)).

Lemma with_port_grows port : grows_ports (with_port port).
Proof. intros b port'. cbn. rewrite port_add_count. destruct (bool_decide _); cbn; lia. Qed.

Lemma add_ports_grows rank : grows_ports (add_ports rank).
Proof.
  intros b port. rewrite /add_ports. destruct (pr_reservation rank); [lia|]. cbn. destruct (pr_distPort rank); rewrite !port_add_count;
    repeat destruct (bool_decide _); cbn; lia.
Qed.

Lemma taken_grows m id f id' port : grows_ports f → port_taken m id' port → port_taken (with_budget id f m) id' port.
Proof.
  intros Hf (b & Hb & Hp). rewrite /port_taken with_budget_get. case_bool_decide; [|eauto]. rewrite Hb. exists (f b). split; [done|].
  apply port_has_iff. apply port_has_iff in Hp. have := Hf b port. lia.
Qed.

Lemma taken_fold {A} (f : jsmap string Budget → A → jsmap string Budget) l m id port :
  (∀ m x, port_taken m id port → port_taken (f m x) id port) → port_taken m id port → port_taken (fold_left f l m) id port.
Proof. intros Hf. revert m. induction l as [|x l IH]; intros m Hm; cbn; [done|]. by apply IH, Hf. Qed.

Lemma retake_taken p request m id port : port_taken m id port → port_taken (retake_ports p request m) id port.
Proof.
  rewrite /retake_ports. destruct (rq_restart request); [|done]. apply taken_fold. intros m' rank. destruct (pr_nodeId rank); [|done].
  apply taken_grows, add_ports_grows.
Qed.

Lemma with_budget_counts id f m : counts_ok m → (∀ b, (∀ q, 0 ≤ port_count q (b_ports b)) → ∀ q, 0 ≤ port_count q (b_ports (f b))) → counts_ok (with_budget id f m).
Proof.
  intros Hm Hf id' b port. rewrite with_budget_get. case_bool_decide; [|apply Hm]. intros (b0 & Hb & ->)%fmap_Some. apply Hf. intros q. by eapply Hm.
Qed.

Lemma fold_counts {A} (f : jsmap string Budget → A → jsmap string Budget) l m : counts_ok m → (∀ m x, counts_ok m → counts_ok (f m x)) → counts_ok (fold_left f l m).
Proof. intros Hm Hf. revert m Hm. induction l as [|x l IH]; intros m Hm; cbn; [done|]. by apply IH, Hf. Qed.

Lemma grows_counts f : grows_ports f → ∀ b, (∀ q, 0 ≤ port_count q (b_ports b)) → ∀ q, 0 ≤ port_count q (b_ports (f b)).
Proof. intros Hf b Hb q. have := Hf b q. have := Hb q. lia. Qed.

Lemma without_port_counts port b : (∀ q, 0 ≤ port_count q (b_ports b)) → ∀ q, 0 ≤ port_count q (b_ports (without_port port b)).
Proof. intros Hb q. cbn. rewrite port_delete_count. destruct (bool_decide _); [|done]. destruct (Z.ltb_spec 0 (port_count port (b_ports b) - 1)); lia. Qed.

Lemma retake_counts p request m : counts_ok m → counts_ok (retake_ports p request m).
Proof.
  intros Hm. rewrite /retake_ports. destruct (rq_restart request); [|done]. apply fold_counts; [done|]. intros m' rank Hm'. destruct (pr_nodeId rank); [|done].
  apply with_budget_counts; [done|apply grows_counts, add_ports_grows].
Qed.

Lemma move_ports_counts ranks moves m : counts_ok m → counts_ok (move_ports ranks moves m).
Proof.
  intros Hm. apply fold_counts; [done|]. intros m' mv Hm'. destruct (ranks !! mv.1); [|done]. apply with_budget_counts; [done|].
  intros b Hb. apply grows_counts; [apply with_port_grows|]. by apply without_port_counts.
Qed.

Lemma take_dist_counts request ic bs ranks dp : counts_ok (wk_budgets (ic_working ic)) → take_dist request ic = inl (bs, ranks, dp) → counts_ok bs.
Proof.
  intros Hm. rewrite /take_dist. destruct (_ <=? _)%nat; [by intros [= <- _ _]|]. destruct (distPlan _ _ _ _) as [port moves|]; [|done]. intros [= <- _ _].
  apply fold_counts; [by apply move_ports_counts|]. intros; apply with_budget_counts; [done|apply grows_counts, with_port_grows].
Qed.

(** The moves of the other ranks do not touch a rank's node. *)
Lemma move_ports_get ranks moves m j r :
  NoDup (map node_id ranks) → NoDup (map_keys moves) → ranks !! j = Some r →
  map_get (node_id r) (move_ports ranks moves m) =
  (λ b, match map_get j moves with Some q => with_port q (without_port (rc_port r) b) | None => b end) <$> map_get (node_id r) m.
Proof.
  intros Hnd Hm Hr. revert m. rewrite /move_ports. induction moves as [|[i q] moves IH]; intros m; cbn [fold_left].
  { cbn. by destruct (map_get _ m). }
  cbn in Hm. apply NoDup_cons in Hm as [Hi Hm]. rewrite IH //. cbn [fst snd map_get]. destruct (decide (i = j)) as [->|Hne].
  - rewrite Hr with_budget_get bool_decide_eq_true_2 //. destruct (map_get j moves) eqn:E; [destruct Hi; apply map_get_keys; eauto|]. by destruct (map_get _ m).
  - destruct (ranks !! i) as [r'|] eqn:Er'; [|done]. rewrite with_budget_get bool_decide_eq_false_2 //. intros Heq. apply Hne.
    eapply (NoDup_lookup _ i j (node_id r) Hnd); rewrite list_lookup_fmap; [by rewrite Er' /= -Heq|by rewrite Hr].
Qed.

(** What one rank looks like after the dist port was taken. *)
Record rank_after (request : PlacementRequest) (wb bs : jsmap string Budget) (dp : option Z) (r r' : RankChoice) : Prop := {
  ra_node : rc_node r' = rc_node r;
  ra_keys : rc_gpuKeys r' = rc_gpuKeys r;
  ra_taken : port_taken bs (node_id r) (rc_port r');
  ra_port : rc_port r' = rc_port r ∨
    ls_fixedPort (rq_launch request) = None ∧ inRange (rc_port r') (pn_portRange (rc_node r)) = true ∧
    ∃ b, map_get (node_id r) wb = Some b ∧ port_has (rc_port r') (b_ports b) = false;
  ra_dist : ∀ d, dp = Some d → port_taken bs (node_id r) d ∧ d ≠ rc_port r' ∧ inRange d (pn_portRange (rc_node r)) = true ∧
    (d = rc_port r ∨ ∃ b, map_get (node_id r) wb = Some b ∧ port_has d (b_ports b) = false);
}.

(** The dist port added on every rank's node. *)
Lemma add_dist_taken ranks port m r :
  In r ranks → is_Some (map_get (node_id r) m) → counts_ok m →
  port_taken (fold_left (λ bs r, with_budget (pn_id (rc_node r)) (with_port port) bs) ranks m) (node_id r) port.
Proof.
  revert m. induction ranks as [|x ranks IH]; intros m Hin [b Hb] Hc; [done|]. cbn [fold_left]. destruct Hin as [->|Hin].
  - apply taken_fold; [intros; by apply taken_grows; [apply with_port_grows|]|]. exists (with_port port b).
    rewrite with_budget_get bool_decide_eq_true_2 // Hb. split; [done|]. apply port_has_iff. cbn. rewrite port_add_count bool_decide_eq_true_2 //=.
    have := Hc _ _ port Hb. lia.
  - apply IH; [done| |by apply with_budget_counts; [|apply grows_counts, with_port_grows]]. rewrite with_budget_get. case_bool_decide; rewrite Hb; eauto.
Qed.

(** A rank's port and the dist port on its node, given what [dist_rank] answered. *)
Lemma rank_moved w port allow r b move :
  map_get (node_id r) (wk_budgets w) = Some b → port_has (rc_port r) (b_ports b) = true → (∀ q, 0 ≤ port_count q (b_ports b)) →
  dist_rank w port allow r = Some move →
  let q := default (rc_port r) move in
  let b1 := match move with Some q => with_port q (without_port (rc_port r) b) | None => b end in
  port_has q (b_ports b1) = true ∧ port ≠ q ∧ inRange port (pn_portRange (rc_node r)) = true ∧
  (q = rc_port r ∨ allow = true ∧ inRange q (pn_portRange (rc_node r)) = true ∧ port_has q (b_ports b) = false) ∧
  (port = rc_port r ∨ port_has port (b_ports b) = false).
Proof.
  intros Hb Hheld Hc. rewrite /dist_rank -/(node_id r) Hb. destruct (inRange port _) eqn:Er; [|done]. cbn [negb].
  destruct (port_has port (b_ports b)) eqn:Eh; cbn [negb].
  - destruct allow; [|done]. destruct (rc_port r =? port) eqn:Ep; [|done]. apply Z.eqb_eq in Ep. cbn [orb negb].
    destruct (pn_portRange (rc_node r)) as [start last] eqn:Erange. destruct (List.find _ _) as [moved|] eqn:Ef; [|done]. intros [= <-]. cbn zeta. cbn [default].
    apply List.find_some in Ef as [Hin Hok]. apply list_elem_of_In, elem_of_seqZ in Hin. apply andb_true_iff in Hok as [Hne Hfree].
    apply negb_true_iff in Hne, Hfree. apply Z.eqb_neq in Hne. split_and!; [|intros Heq; apply Hne; by rewrite Heq|done| |by left].
    + apply port_has_iff. cbn. rewrite port_add_count bool_decide_eq_true_2 //=. have := without_port_counts (rc_port r) b Hc moved. cbn. lia.
    + right. split_and!; [done| |done]. apply andb_true_iff. rewrite !Z.leb_le. cbn. lia.
  - intros [= <-]. cbn. split_and!; try done; [|by left|by right]. intros ->. congruence.
Qed.

Lemma take_dist_spec request ic bs ranks' dp :
  NoDup (map node_id (ic_ranks ic)) → counts_ok (wk_budgets (ic_working ic)) →
  (∀ r, In r (ic_ranks ic) → port_taken (wk_budgets (ic_working ic)) (node_id r) (rc_port r)) →
  take_dist request ic = inl (bs, ranks', dp) →
  Forall2 (rank_after request (wk_budgets (ic_working ic)) bs dp) (ic_ranks ic) ranks' ∧
  (dp = None ↔ (ls_groupSize (rq_launch request) ≤ 1)%nat).
Proof.
  intros Hnd Hc Hheld. rewrite /take_dist. destruct (Nat.leb_spec (ls_groupSize (rq_launch request)) 1) as [Hle|Hgt].
  { intros [= <- <- <-]. split; [|done]. apply Forall_Forall2_diag, Forall_forall. intros r Hr%list_elem_of_In. split; [done|done|by apply Hheld|by left|done]. }
  destruct (distPlan _ _ _ _) as [port moves|] eqn:Ed; [|done]. intros [= <- <- <-]. split; [|split; [done|lia]].
  apply distPlan_at in Ed as (allow & Hallow & Hat). destruct (dist_plan_at_spec _ _ _ _ _ Hat) as [Hmn Hall].
  apply Forall2_same_length_lookup. split; [by rewrite length_map -(length_map snd) indexed_values|]. intros j r r' Hr Hr'.
  rewrite list_lookup_fmap in Hr'. apply fmap_Some in Hr' as ([i x] & [Hi Hx]%indexed_at & ->). cbn in Hi. subst i. rewrite Hr in Hx. injection Hx as Hx. cbn in Hx. subst x.
  destruct (Hall j r Hr) as (move & Hdr & Hmove). have Hin : In r (ic_ranks ic) by eapply list_elem_of_In, list_elem_of_lookup_2.
  destruct (Hheld r Hin) as (b & Hb & Hpb). destruct (rank_moved (ic_working ic) port allow r b move) as (H1 & H2 & H3 & H4 & H5); try done; [intros q; by eapply Hc|].
  set r2 := move_rank moves (j, r). have Hq : rc_port r2 = default (rc_port r) move by rewrite /r2 /move_rank /= Hmove; destruct move.
  have Hn2 : rc_node r2 = rc_node r by rewrite /r2 /move_rank /=; destruct (map_get j moves).
  have Hget : map_get (node_id r) (move_ports (ic_ranks ic) moves (wk_budgets (ic_working ic))) =
    Some (match move with Some q => with_port q (without_port (rc_port r) b) | None => b end) by rewrite (move_ports_get _ _ _ j r) // Hb /= Hmove; destruct move.
  set ranks2 := map _ (indexed _). have Hin2 : In r2 ranks2 by apply in_map; apply indexed_lookup.
  split.
  - done.
  - by rewrite /r2 /move_rank /=; destruct (map_get j moves).
  - apply taken_fold; [intros; by apply taken_grows; [apply with_port_grows|]|]. eexists. split; [exact Hget|]. by rewrite Hq.
  - rewrite Hq. destruct H4 as [-> | (Ha & Hr4 & Hf4)]; [by left|right]. split_and!; [|done|by exists b]. by apply Hallow in Ha; rewrite /dist_movable in Ha; bool_to_prop.
  - intros d [= <-]. split_and!; [|by rewrite Hq|done|destruct H5; [by left|right; by exists b]].
    have -> : node_id r = node_id r2 by rewrite /node_id Hn2. apply add_dist_taken; [done|rewrite /node_id Hn2 Hget; eauto|].
    by apply move_ports_counts.
Qed.
