(* ===== verification/PlacementSafety.v ===== *)
(** * PlacementSafety: what a placement promises

    The properties of [PlacementPlanner.place] ([placement.ts]): it always answers, never
    over-commits a node it places on, stops only what the caller may stop, puts every rank and
    reservation on a node of its own that may take it, and gives ports nobody holds. *)
From Stdlib Require Import ssreflect.
From S2P Require Import Prelude ClaimOverlap PlacementFit PlacementFitSafety ReservationMatching PlacementModel PlacementRules PlacementSteps PlacementPlanner.
From S2P Require Import PlacementLogic PlacementReach PlacementSound PlacementChoice PlacementPorts.

(** ** The state a request starts in *)

Lemma In_map_set {V} (k : string) (v : V) m x : In x (map_set k v m) → x = (k, v) ∨ In x m.
Proof. induction m as [|[k' v'] m IH]; cbn; [intros [<-|[]]; by left|]. case_decide; cbn; naive_solver. Qed.

Lemma free_group_ok mode stopped bs fl g :
  usage_ok (cg_usage g) → (∀ id b, map_get id bs = Some b → budget_ok b) → counts_ok bs →
  (∀ id us, In (id, us) fl → Forall usage_ok us.1) →
  let st := free_group mode stopped (bs, fl) g in
  (∀ id b, map_get id st.1 = Some b → budget_ok b) ∧ counts_ok st.1 ∧ ∀ id us, In (id, us) st.2 → Forall usage_ok us.1.
Proof.
  intros Hu Hb Hc Hf. rewrite /free_group. destruct (map_get (cg_nodeId g) bs) as [b|] eqn:Eb; [|done].
  have Happly : ∀ sign, (∀ id b', map_get id (map_set (cg_nodeId g) (applyUsage b (cg_usage g) sign) bs) = Some b' → budget_ok b') ∧
    counts_ok (map_set (cg_nodeId g) (applyUsage b (cg_usage g) sign) bs).
  { intros sign. split.
    - intros id b'. rewrite map_get_set. case_decide; [intros [= <-]; apply applyUsage_ok; by eapply Hb|apply Hb].
    - intros id b' port. rewrite map_get_set. case_decide; [intros [= <-]; by eapply (Hc _ _ port Eb)|apply Hc]. }
  destruct mode; cbn zeta.
  - destruct (_ || _); [done|]. cbn. split_and!; [apply Happly|apply Happly|done].
  - cbn. split_and!; [destruct (_ && _); [apply Happly|done]|destruct (_ && _); [apply Happly|done]|].
    intros id us [[= -> ->]|?]%In_map_set; [|by eapply Hf]. cbn. apply Forall_app. split; [|by apply Forall_singleton].
    destruct (map_get (cg_nodeId g) fl) as [us|] eqn:E; [eapply Hf; by apply map_get_In|constructor].
  - destruct (_ && _); [done|]. cbn. split_and!; [apply Happly|apply Happly|done].
Qed.

Lemma free_groups_ok mode stopped groups bs fl :
  (∀ g, In g groups → usage_ok (cg_usage g)) → (∀ id b, map_get id bs = Some b → budget_ok b) → counts_ok bs →
  (∀ id us, In (id, us) fl → Forall usage_ok us.1) →
  let st := fold_left (free_group mode stopped) groups (bs, fl) in
  (∀ id b, map_get id st.1 = Some b → budget_ok b) ∧ counts_ok st.1 ∧ ∀ id us, In (id, us) st.2 → Forall usage_ok us.1.
Proof.
  revert bs fl. induction groups as [|g groups IH]; intros bs fl Hg Hb Hc Hf; cbn [fold_left]; [done|].
  have := free_group_ok mode stopped bs fl g (Hg g (or_introl eq_refl)) Hb Hc Hf. destruct (free_group _ _ _ g) as [bs1 fl1]. intros (H1 & H2 & H3).
  apply IH; [|done|done|done]. intros g' Hg'. apply Hg. by right.
Qed.

Lemma free_ports_ok ranks bs :
  (∀ id b, map_get id bs = Some b → budget_ok b) → counts_ok bs →
  (∀ id b, map_get id (fold_left free_ports_rank ranks bs) = Some b → budget_ok b) ∧ counts_ok (fold_left free_ports_rank ranks bs).
Proof.
  revert bs. induction ranks as [|rank ranks IH]; intros bs Hb Hc; cbn [fold_left]; [done|]. apply IH; rewrite /free_ports_rank;
    destruct (pr_nodeId rank) as [n|]; try done; destruct (pr_reservation rank); try done.
  - intros id b. rewrite with_budget_get. case_bool_decide; [|apply Hb]. intros (b0 & Hb0 & ->)%fmap_Some. by apply (Hb id b0).
  - apply with_budget_counts; [done|]. intros b Hb0 q. cbn. have H1 := without_port_counts (pr_port rank) b Hb0. destruct (pr_distPort rank) as [d|]; [|apply H1].
    apply (without_port_counts d (without_port (pr_port rank) b) H1).
Qed.

Lemma start_floors (fl : jsmap string (list ClaimUsage * list string)) m :
  (∀ n us, In (n, us) fl → Forall usage_ok us.1) → (∀ id f, map_get id m = Some f → floor_ok f) →
  ∀ id f, map_get id (fold_left (λ m nf, map_set nf.1 (mkFloor (sumUsage nf.2.1) nf.2.2 NO_USAGE) m) fl m) = Some f → floor_ok f.
Proof.
  revert m. induction fl as [|[n us] fl IH]; intros m Hin Hm; cbn [fold_left]; [done|]. apply IH; [intros n' us' H; apply (Hin n' us'); by right|].
  intros id f. rewrite map_get_set. case_decide; [|apply Hm]. intros [= <-]. split; [apply sumUsage_ok, (Hin n us); by left|apply no_usage_ok].
Qed.

Lemma start_ok p request free : planner_ok p → working_ok (start_working p request free).
Proof.
  intros Hp. rewrite /start_working. destruct (rq_restart request) as [r|]; [|split; cbn; [apply Hp|apply Hp|done]].
  rewrite /freeInstance. destruct (map_get _ (instances p)) as [i|]; [|split; cbn; [apply Hp|apply Hp|done]].
  set mode := if free then _ else _. have := free_groups_ok mode (bool_decide (re_instanceId r ∈ pl_stopping p)) (groups_of p (re_instanceId r)) (pl_budgets p) []
    (pk_groups p Hp _) (pk_budgets p Hp) (pk_ports p Hp) (λ _ _ H, ltac:(done)). cbn [wk_budgets wk_victims wk_floors].
  destruct (fold_left (free_group _ _) _ _) as [bs fl]. cbn. intros (Hb & Hc & Hf).
  have Hfl := start_floors fl [] Hf (λ _ _ H, ltac:(done)).
  have Hports := free_ports_ok (pi_ranks i) bs Hb Hc.
  destruct mode; split; cbn; try done; apply Hports.
Qed.

(** What a successful [place()] committed. *)
Lemma place_placed p request p' start stops warnings :
  planner_ok p → request_ok request → place p request = Some (p', Placed start stops warnings) →
  ∃ ic left done, choice_ok p request (start_working p request false) ic ∧
                  commitChoice (with_work p left done) request ic = (p', Placed start stops warnings).
Proof.
  intros Hp Hrq. rewrite /place. destruct (place_choice p request (effects_of p)) as [[[ic|r]| |] s] eqn:E; try done. intros [= H]. exists ic, (ef_workLeft s), (ef_workDone s).
  split; [|done]. have Hy : yields (place_choice p request) (λ r, ∀ ic, r = inl ic → choice_ok p request (start_working p request false) ic); [|by eapply Hy].
  rewrite /place_choice /chooseOnce. eapply yields_bind; [apply yields_then; intros _; apply choose_ok; [done|done|by apply start_ok|apply start_victims]|].
  intros [c|r] Hc; [by apply yields_ret; intros ? [= <-]; apply Hc|]. destruct (rq_restart request); [|by apply yields_ret].
  destruct (_ && _); [|by apply yields_ret]. apply yields_then. intros [|]; by apply yields_ret.
Qed.

(** ** What a commit leaves *)

Lemma commit_placed p request ic p' start stops warnings :
  commitChoice p request ic = (p', Placed start stops warnings) →
  ∃ bs ranks dp, take_dist request ic = inl (bs, ranks, dp) ∧
    pl_budgets p' = retake_ports p request bs ∧ pl_groups p' = pl_groups p ∧ pl_context p' = pl_context p ∧
    st_placements start = map (placement_of (ic_fabric ic) (rq_launch request)) (indexed ranks) ∧
    st_reservations start = map (reservation_of (rq_launch request)) (indexed (ic_reservations ic)) ∧
    st_distPort start = dp ∧
    stops = map (λ v, {| ps_instanceId := pi_id v; ps_runtimeId := pi_runtimeId v |})
              (omap (λ id, map_get id (instances p)) (sort_by compareCodePoints (wk_victims (ic_working ic)))).
Proof.
  rewrite /commitChoice. destruct (take_dist request ic) as [[[bs ranks] dp]|r] eqn:E; [|done]. intros [= <- <- <- <-].
  exists bs, ranks, dp. by split_and!.
Qed.

(** The claims of a choice have the ports and the room the commit relies on. *)
Record committed (p : Planner) (request : PlacementRequest) (ic : InstanceChoice) : Prop := {
  cm_ok : choice_ok p request (start_working p request false) ic;
  cm_nodes : NoDup (map node_id (ic_ranks ic));
  cm_counts : counts_ok (wk_budgets (ic_working ic));
  cm_budgets : ∀ id b, map_get id (wk_budgets (ic_working ic)) = Some b → budget_ok b;
  cm_taken : ∀ r, In r (ic_ranks ic) → port_taken (wk_budgets (ic_working ic)) (node_id r) (rc_port r);
}.

Lemma choice_committed p request ic :
  planner_ok p → request_ok request → choice_ok p request (start_working p request false) ic → committed p request ic.
Proof.
  intros Hp Hrq Hok. have Hw := reach_ok p request Hp Hrq _ _ _ (start_ok p request false Hp) (ch_reach _ _ _ _ Hok).
  have [_ Hports] := reach_ports p request Hp Hrq _ _ _ (ch_reach _ _ _ _ Hok) (start_ok p request false Hp). split; try done.
  - have := ch_nodes _ _ _ _ Hok. rewrite map_app. by intros [? _]%NoDup_app.
  - intros id b port. apply Hw.
  - apply Hw.
  - intros r [i Hi]%list_elem_of_In%list_elem_of_lookup_1.
    destruct (Hports r (ForRank i)) as (_ & b0 & b & _ & Hb & _ & Hhas); [by apply choice_rank_claim|done|]. by exists b.
Qed.

(** The planner stays well formed. *)
Lemma place_planner_ok p request p' result : planner_ok p → request_ok request → place p request = Some (p', result) → planner_ok p'.
Proof.
  intros Hp Hrq. destruct result as [start stops warnings|r].
  - intros (ic & left & don & Hok & Hcommit)%place_placed; [|done..]. have Hcm := choice_committed p request ic Hp Hrq Hok.
    apply commit_placed in Hcommit as (bs & ranks & dp & Hdist & Hb & Hg & _). split.
    + intros id b. rewrite Hb. intros Hget. have Hr1 := take_dist_room _ _ _ _ _ Hdist id.
      have Hr2 := retake_room (with_work p left don) request bs id. rewrite Hget in Hr2. inversion Hr2 as [b1 b2 Hpo Hb1|]; subst.
      rewrite -Hb1 in Hr1. inversion Hr1 as [b3 b4 Hpo2 Hb3|]; subst. rewrite /budget_ok (po_gpus _ _ Hpo) (po_gpus _ _ Hpo2). by eapply (cm_budgets _ _ _ Hcm).
    + rewrite Hb. intros id b port. apply retake_counts. eapply take_dist_counts; [apply Hcm|exact Hdist].
    + rewrite /groups_of Hg. apply Hp.
  - rewrite /place. destruct (place_choice p request (effects_of p)) as [[[ic|r']| |] s]; try done.
    + rewrite /commitChoice. destruct (take_dist request ic) as [[[bs ranks] dp]|]; [done|]. intros [= <- _]. by split; apply Hp.
    + intros [= <- _]. by split; apply Hp.
    + intros [= <- _]. by split; apply Hp.
Qed.

(** ** Theorems *)

(** Placing always answers: the search over other node sets ends within its tries, and the
    assignment of reservations always answers, so [place()] returns a placement or a refusal for
    every planner and request (past the work budget, the refusal [placement_too_complex]). *)
Theorem place_answers p request : is_Some (place p request).
Proof. apply place_total. Qed.

(** The node a claim was placed on is not over-committed, nor is a dedicated GPU it recorded. *)
Definition capacity_kept (p : Planner) (nodeId : string) (r : Resources) : Prop :=
  ∃ b, map_get nodeId (pl_budgets p) = Some b ∧ 0 ≤ b_memoryGb b ∧
       ∀ g, In g (b_gpus b) → gb_key g ∈ default [] (rs_gpus r) → gb_unified g = false → 0 ≤ gb_freeGb g.

Lemma roomy_kept p request ic bs ranks dp left don p' c spec :
  roomy (ic_working ic) c → take_dist request ic = inl (bs, ranks, dp) → pl_budgets p' = retake_ports (with_work p left don) request bs →
  capacity_kept p' (node_id c) (recorded spec (rc_node c) (rc_gpuKeys c)).
Proof.
  intros (b & Hb & Hm & Hg) Hdist Hp'. rewrite /capacity_kept Hp'. have Hr1 := take_dist_room _ _ _ _ _ Hdist (node_id c). rewrite Hb in Hr1.
  inversion Hr1 as [b0 b1 Hpo H0 H1|]; subst. have Hr2 := retake_room (with_work p left don) request bs (node_id c). rewrite -H1 in Hr2.
  inversion Hr2 as [b2 b3 Hpo2 H2 H3|]; subst. exists b3. split; [done|]. rewrite (po_memory _ _ Hpo2) (po_memory _ _ Hpo) (po_gpus _ _ Hpo2) (po_gpus _ _ Hpo).
  split; [done|]. intros g Hin Hk Hu. apply Hg; [done| |done]. move: Hk. rewrite /recorded. by destruct (rc_gpuKeys c).
Qed.


(** The authorization rule, spelled out. *)
Record may_stop (p : Planner) (request : PlacementRequest) (i : PlacementInstance) : Prop := {
  my_preempt : rq_preempt request = true;
  my_owner : pi_ownerId i = pc_callerId (pl_context p);
  my_running : pi_running i = true ∧ pi_startable i = true;
  my_stopping : pi_id i ∉ pl_stopping p;
  my_other : pi_runtimeId i ≠ rq_runtimeId request;
  my_restart : ∀ r, rq_restart request = Some r → pi_id i ≠ re_instanceId r;
  my_agent : pc_agent (pl_context p) = true →
    pi_contributed i = false ∧ pi_interactiveStop i = false ∧
    (∀ rank, In rank (pi_ranks i) → ∃ n, pr_nodeId rank ≫= (λ id, map_get id (nodes p)) = Some n ∧ pn_trust n = Full) ∧
    ∀ id, In id (pi_cleanupNodeIds i) → ∃ n, map_get id (nodes p) = Some n ∧ pn_trust n = Full;
}.

Lemma full_trust_node p id : full_trust p id = true → ∃ n, id ≫= (λ id, map_get id (nodes p)) = Some n ∧ pn_trust n = Full.
Proof. rewrite /full_trust. destruct (id ≫= _) as [n|]; [|done]. intros H. bool_to_prop. eauto. Qed.

Lemma preemptible_may_stop p request i : preemptible p i request = true → rq_preempt request = true → may_stop p request i.
Proof.
  rewrite /preemptible. intros H Hpre. case_bool_decide as H1; [done|]. destruct (_ || _) eqn:H2; [done|].
  apply orb_false_iff in H2 as [Hs%negb_false_iff Hr%negb_false_iff]. destruct (negb (bool_decide (pi_ownerId i = _))) eqn:H3; [done|].
  apply negb_false_iff in H3. bool_to_prop. case_bool_decide as H4; [done|]. case_bool_decide as H5; [done|].
  destruct (_ =? _)%nat; [done|]. split; try done.
  - intros r Hr'. rewrite Hr' in H4. cbn in H4. congruence.
  - intros Ha. rewrite Ha in H. destruct (_ || _) eqn:H6; [done|]. apply orb_false_iff in H6 as [? ?].
    destruct (negb (forallb _ _)) eqn:H7; [done|]. apply negb_false_iff in H7. rewrite forallb_forall in H7. rewrite forallb_forall in H.
    split_and!; [done|done|by intros rank Hin; apply full_trust_node, H7|]. intros id Hin. apply (full_trust_node p (Some id)), H, Hin.
Qed.

(** C4. Only authorized stops. From a well-formed planner and for a request within the schema's
    bounds, every instance a successful [place()] plans to stop, through every node set, preemption
    seed and reservation the search tried (on explicit nodes pruning drops none of them), is a running startable instance of
    the caller's own, of another runtime, not already stopping and not the one being restarted;
    for an agent it is also not contributed, has no interactive stop, and every node it claims or
    may still run on is at Full control; and nothing is stopped unless the request allows it. *)
Theorem place_stops_authorized p request p' start stops warnings :
  planner_ok p → request_ok request → place p request = Some (p', Placed start stops warnings) →
  ∀ s, In s stops → ∃ i, map_get (ps_instanceId s) (instances p) = Some i ∧ ps_runtimeId s = pi_runtimeId i ∧ may_stop p request i.
Proof.
  intros Hp Hrq (ic & left & don & Hok & Hcommit)%place_placed; [|done..]. apply commit_placed in Hcommit as (bs & ranks & dp & _ & _ & _ & _ & _ & _ & _ & ->).
  intros s (v & <- & Hv)%in_map_iff. apply list_elem_of_In, list_elem_of_omap in Hv as (id & Hid & Hget). rewrite sort_by_perm in Hid.
  destruct (reach_victims p request _ _ _ (ch_reach _ _ _ _ Hok) (start_victims p request false) id Hid) as (i & Hi & Hpr & Hpre).
  change (instances (with_work p left don)) with (instances p) in Hget. have ? : i = v by congruence. subst i.
  exists v. apply by_id_key in Hget as [Hkey Hin]. split_and!; [cbn; by rewrite Hkey|done|by apply preemptible_may_stop].
Qed.

Lemma placement_nodes ranks fabric launch : map pp_nodeId (map (placement_of fabric launch) (indexed ranks)) = map node_id ranks.
Proof. by rewrite map_map -(map_map snd node_id) indexed_values. Qed.

Lemma reservation_nodes placed launch : map pv_nodeId (map (reservation_of launch) (indexed placed)) = map node_id placed.
Proof. by rewrite map_map -(map_map snd node_id) indexed_values. Qed.

(** Each rank's and each reservation's node is one the request lets it use. *)
Lemma placed_nodes_may p request p' start stops warnings :
  planner_ok p → request_ok request → place p request = Some (p', Placed start stops warnings) →
  (∀ i pp, st_placements start !! i = Some pp → ∃ n, pn_id n = pp_nodeId pp ∧ node_may p request (ForRank i) n) ∧
  (∀ i pv, st_reservations start !! i = Some pv → ∃ n r, pn_id n = pv_nodeId pv ∧ ls_reservations (rq_launch request) !! i = Some r ∧
     node_may p request (ForReservation r) n).
Proof.
  intros Hp Hrq (ic & left & don & Hok & Hcommit)%place_placed; [|done..]. have Hcm := choice_committed p request ic Hp Hrq Hok.
  apply commit_placed in Hcommit as (bs & ranks & dp & Hdist & _ & _ & _ & -> & -> & _).
  destruct (take_dist_spec request ic bs ranks dp (cm_nodes _ _ _ Hcm) (cm_counts _ _ _ Hcm) (cm_taken _ _ _ Hcm) Hdist) as [Hall _].
  have Hold := reach_claims p request _ _ _ (ch_reach _ _ _ _ Hok). split.
  - intros i pp. rewrite list_lookup_fmap. intros ([j c] & [Hj Hc]%indexed_at & ->)%fmap_Some. cbn in Hj, Hc. subst j.
    destruct (Forall2_lookup_r _ _ _ _ _ Hall Hc) as (c0 & Hc0 & Hra). exists (rc_node c). split; [done|]. rewrite (ra_node _ _ _ _ _ _ Hra).
    by apply Hold, choice_rank_claim.
  - intros i pv. rewrite list_lookup_fmap. intros ([j c] & [Hj Hc]%indexed_at & ->)%fmap_Some. cbn in Hj, Hc. subst j.
    have Hlt := lookup_lt_Some _ _ _ Hc. rewrite (ch_reservations _ _ _ _ Hok) in Hlt. apply lookup_lt_is_Some in Hlt as [r Hr].
    exists (rc_node c), r. split_and!; [done|done|]. by eapply Hold, choice_reservation_claim.
Qed.

(** C10. Every claim on a node of its own that may take it. From a well-formed planner and for a
    request within the schema's bounds, a successful [place()] places exactly
    [groupSize] ranks and every reservation; no two of them share a node; each rank's node is
    eligible and in the request's scope (or exactly the named node of that rank, which only the
    engine's own restart may use while ineligible), each reservation's node has its labels and is
    eligible; and the ranks of a multi-node instance are members of one fabric the launch allows,
    whose addresses they get. *)
Theorem place_on_own_nodes p request p' start stops warnings :
  planner_ok p → request_ok request → place p request = Some (p', Placed start stops warnings) →
  let launch := rq_launch request in
  length (st_placements start) = ls_groupSize launch ∧ length (st_reservations start) = length (ls_reservations launch) ∧
  NoDup (map pp_nodeId (st_placements start) ++ map pv_nodeId (st_reservations start)) ∧
  (∀ i pp, st_placements start !! i = Some pp → ∃ n, pn_id n = pp_nodeId pp ∧ node_may p request (ForRank i) n) ∧
  (∀ i pv, st_reservations start !! i = Some pv → ∃ n r, pn_id n = pv_nodeId pv ∧ ls_reservations launch !! i = Some r ∧
     node_may p request (ForReservation r) n) ∧
  ((1 < ls_groupSize launch)%nat → ∃ f, In f (fabricsFor (pl_context p) launch) ∧
     ∀ pp, In pp (st_placements start) → is_member f (pp_nodeId pp) = true ∧ pp_fabricIp pp = member_ip f (pp_nodeId pp)).
Proof.
  intros Hp Hrq Hplaced launch. destruct (placed_nodes_may p request p' start stops warnings Hp Hrq Hplaced) as [Hranks Hreservations].
  apply place_placed in Hplaced as (ic & left & don & Hok & Hcommit); [|done..]. have Hcm := choice_committed p request ic Hp Hrq Hok.
  apply commit_placed in Hcommit as (bs & ranks & dp & Hdist & _ & _ & _ & Est & Erv & _). rewrite Est in Hranks |- *. rewrite Erv in Hreservations |- *.
  destruct (take_dist_spec request ic bs ranks dp (cm_nodes _ _ _ Hcm) (cm_counts _ _ _ Hcm) (cm_taken _ _ _ Hcm) Hdist) as [Hall _].
  have Hsame : map rc_node ranks = map rc_node (ic_ranks ic).
  { clear -Hall. induction Hall as [|r r' l l' Hra _ IH]; cbn; [done|]. by rewrite IH (ra_node _ _ _ _ _ _ Hra). }
  have Hids : map node_id ranks = map node_id (ic_ranks ic) by rewrite -!(map_map rc_node pn_id) Hsame.
  split_and!.
  - by rewrite length_map -(length_map snd) indexed_values -(ch_ranks _ _ _ _ Hok) -(length_map rc_node) Hsame length_map.
  - by rewrite length_map -(length_map snd) indexed_values (ch_reservations _ _ _ _ Hok).
  - rewrite placement_nodes reservation_nodes Hids -map_app. apply Hok.
  - exact Hranks.
  - exact Hreservations.
  - intros Hsize. destruct (ch_fabric _ _ _ _ Hok Hsize) as (f & Hf & Hin & Hm). exists f. split; [done|].
    intros pp ([i c] & <- & Hc%indexed_lookup)%in_map_iff. rewrite Hf. split; [|done]. apply Hm. rewrite -Hsame. by eapply in_map, list_elem_of_In, list_elem_of_lookup_2.
Qed.

(** A port nobody else holds on a node before the request (the restarted instance's own ports
    count as free). *)
Definition free_before (p : Planner) (request : PlacementRequest) (nodeId : string) (port : Z) : Prop :=
  ∃ b, map_get nodeId (wk_budgets (start_working p request false)) = Some b ∧ port_has port (b_ports b) = false.

(** C24. Ports nobody holds. From a well-formed planner, after a successful [place()] of a request
    within the schema's bounds, every rank's port was free on its node
    and is taken there now; it is the launch's fixed port, or inside the node's range. The dist
    port of a multi-node instance was free on every rank's node, is inside every node's range, is
    no rank's serving port, and is taken on every rank's node; a single-node instance has none. *)
Theorem place_ports_free p request p' start stops warnings :
  planner_ok p → request_ok request → place p request = Some (p', Placed start stops warnings) →
  (st_distPort start = None ↔ (ls_groupSize (rq_launch request) ≤ 1)%nat) ∧
  ∀ pp, In pp (st_placements start) →
    free_before p request (pp_nodeId pp) (pp_port pp) ∧ port_taken (pl_budgets p') (pp_nodeId pp) (pp_port pp) ∧
    (∃ n, pn_id n = pp_nodeId pp ∧
       match ls_fixedPort (rq_launch request) with Some fixed => pp_port pp = fixed | None => inRange (pp_port pp) (pn_portRange n) = true end ∧
       ∀ d, st_distPort start = Some d → inRange d (pn_portRange n) = true) ∧
    ∀ d, st_distPort start = Some d → free_before p request (pp_nodeId pp) d ∧ port_taken (pl_budgets p') (pp_nodeId pp) d ∧ d ≠ pp_port pp.
Proof.
  intros Hp Hrq (ic & left & don & Hok & Hcommit)%place_placed; [|done..]. have Hcm := choice_committed p request ic Hp Hrq Hok.
  apply commit_placed in Hcommit as (bs & ranks & dp & Hdist & Hb & _ & _ & -> & _ & -> & _). rewrite Hb.
  destruct (take_dist_spec request ic bs ranks dp (cm_nodes _ _ _ Hcm) (cm_counts _ _ _ Hcm) (cm_taken _ _ _ Hcm) Hdist) as [Hall Hdp]. split; [done|].
  have [Hgrow Hports] := reach_ports p request Hp Hrq _ _ _ (ch_reach _ _ _ _ Hok) (start_ok p request false Hp).
  have Hfree : ∀ id q, (∃ b, map_get id (wk_budgets (ic_working ic)) = Some b ∧ port_has q (b_ports b) = false) → free_before p request id q.
  { intros id q (b & Hget & Hno). destruct (Hgrow id b Hget) as (b0 & Hb0 & Hle). exists b0. split; [done|].
    move: Hno. rewrite /port_has !Z.ltb_ge. have := Hle q. lia. }
  intros pp ([i c'] & <- & Hc'%indexed_lookup)%in_map_iff. destruct (Forall2_lookup_r _ _ _ _ _ Hall Hc') as (c & Hc & [Hn Hk Ht Hport Hd]).
  cbn [placement_of pp_nodeId pp_port fst snd]. rewrite -/(node_id c') /node_id Hn -/(node_id c).
  destruct (Hports c (ForRank i)) as (Hwant & b0 & b & Hb0 & Hbw & Hno & Hhas); [by apply choice_rank_claim|done|].
  have Hown : free_before p request (node_id c) (rc_port c) by exists b0. split_and!.
  - destruct Hport as [-> | (_ & _ & Hf)]; [done|by apply Hfree].
  - by apply retake_taken.
  - exists (rc_node c). split_and!; [done| |by intros d Hd'; apply Hd]. destruct Hport as [-> | (Hnone & Hr & _)]; [by apply Hwant|by rewrite Hnone].
  - intros d Hd'. destruct (Hd d Hd') as (H1 & H2 & _ & H4). split_and!; [|by apply retake_taken|done]. destruct H4 as [-> |?]; [done|by apply Hfree].
Qed.
