(* ===== verification/PlacementReplay.v ===== *)
(** * PlacementReplay: what a new planner counts

    The constructor of [PlacementPlanner] ([placement.ts]) replays every claim into the nodes'
    budgets and then gives back what an instance's old and new claims count twice. Here: the
    planner it builds is well formed ([new_planner_ok]) and its budgets are the hardware less, for
    each instance and node, the overlap of its claims there, except what a stop already planned
    frees ([replay_counts_overlap]). *)
From Stdlib Require Import ssreflect.
From S2P Require Import Prelude ClaimOverlap PlacementFit PlacementFitSafety ClaimHolds PlacementModel PlacementRules PlacementSteps PlacementPlanner.
From S2P Require Import PlacementReach PlacementSound PlacementChoice PlacementPorts PlacementSafety.

(** ** Claims *)

Lemma hold_on_ok c key d : 0 ≤ dc_vramGb c → NoDup (map_keys d) ∧ (∀ k, 0 ≤ gpu_at k d) →
  NoDup (map_keys (hold_on c key d)) ∧ ∀ k, 0 ≤ gpu_at k (hold_on c key d).
Proof.
  intros Hc [Hn Hg]. split; [by apply map_set_NoDup|]. intros k. have := hold_on_le c key d k. have := Hg k. lia.
Qed.

Lemma onEvery_ok c gs v d : 0 ≤ dc_vramGb c → NoDup (map_keys d) ∧ (∀ k, 0 ≤ gpu_at k d) →
  NoDup (map_keys (onEveryDedicated c gs v d)) ∧ ∀ k, 0 ≤ gpu_at k (onEveryDedicated c gs v d).
Proof.
  intros Hc. rewrite /onEveryDedicated. revert d. induction (candidates c gs v) as [|g l IH]; intros d Hd; cbn [fold_left]; [done|].
  apply IH. destruct (gb_unified g); [done|by apply hold_on_ok].
Qed.

Lemma claimVramHolds_ok c gs : 0 ≤ dc_vramGb c →
  0 ≤ h_shared (claimVramHolds c gs) ∧ NoDup (map_keys (h_dedicated (claimVramHolds c gs))) ∧ ∀ k, 0 ≤ gpu_at k (h_dedicated (claimVramHolds c gs)).
Proof.
  intros Hc. have Hnil : NoDup (map_keys (K:=string) (V:=Z) []) ∧ ∀ k, 0 ≤ gpu_at k [] by split; [constructor|done].
  rewrite /claimVramHolds. destruct (_ =? _)%nat; [by split|]. destruct (dc_recorded c) as [l|].
  - have Hfold : ∀ keys s d m, 0 ≤ s → NoDup (map_keys d) ∧ (∀ k, 0 ≤ gpu_at k d) →
      let st := fold_left (hold_key c gs) keys (s, d, m) in 0 ≤ st.1.1 ∧ NoDup (map_keys st.1.2) ∧ ∀ k, 0 ≤ gpu_at k st.1.2.
    { induction keys as [|key keys IH]; intros s d m Hs Hd; cbn [fold_left]; [by split|]. rewrite /hold_key. set s1 := if bool_decide _ then _ else _.
      have Hs1 : 0 ≤ s1 by rewrite /s1; destruct (bool_decide _); lia.
      destruct (find_gpu key gs) as [g|]; [destruct (gb_unified g)|]; apply IH; try done; [by apply hold_on_ok|by apply onEvery_ok]. }
    have := Hfold (recorded_keys c) 0 [] [] (Z.le_refl 0) Hnil. destruct (fold_left (hold_key c gs) _ _) as [[s d] m]. cbn. intros (Hs & Hd). split; [|done].
    clear Hfold Hd. revert s Hs. induction m as [|vc m IH]; intros s Hs; cbn [fold_left]; [done|]. apply IH. nia.
  - cbn. split; [|by apply onEvery_ok]. destruct (_ =? _)%nat; nia.
Qed.

Lemma claim_usage_ok b r : needs_ok (resource_needs r) → usage_ok (claim_usage b r).
Proof.
  intros [Hm Hv]. rewrite /claim_usage /claimUsage. destruct (_ =? _)%nat; [split; cbn; [constructor|done|done]|].
  have Hh : ∀ c, discrete_claim r = Some c → 0 ≤ dc_vramGb c.
  { intros c. rewrite /discrete_claim. move: Hv. rewrite /resource_needs. destruct (rs_spec r) as [[]|]; try done. by intros Hv [= <-]. }
  destruct (discrete_claim r) as [c|].
  - destruct (claimVramHolds_ok c (b_gpus b) (Hh c eq_refl)) as (H1 & H2 & H3). split; cbn; [done|lia|done].
  - split; cbn; [constructor|lia|done].
Qed.

(** ** Well-formed contexts *)

(** Node ids, instance ids and the GPU keys of a node are distinct; declared amounts are not
    negative. *)
Record context_ok (context : PlacementContext) : Prop := {
  xo_nodes : NoDup (map pn_id (pc_nodes context));
  xo_gpus : ∀ n, In n (pc_nodes context) → NoDup (map pg_key (pn_gpus n));
  xo_ids : NoDup (map pi_id (pc_instances context));
  xo_claims : ∀ i rank, In i (pc_instances context) → In rank (pi_ranks i) → needs_ok (resource_needs (pr_resources rank));
}.

(** Budgets of distinct GPUs and counted ports. *)
Definition budgets_ok (bs : jsmap string Budget) : Prop := (∀ id b, map_get id bs = Some b → budget_ok b) ∧ counts_ok bs.

Lemma budgets_ok_set id b bs : budgets_ok bs → budget_ok b → (∀ q, 0 ≤ port_count q (b_ports b)) → budgets_ok (map_set id b bs).
Proof.
  intros [H1 H2] Hb Hc. split.
  - intros id' b'. rewrite map_get_set. case_decide; [by intros [= <-]|apply H1].
  - intros id' b' q. rewrite map_get_set. case_decide; [by intros [= <-]|apply H2].
Qed.

Lemma node_budget_ok n : NoDup (map pg_key (pn_gpus n)) → budget_ok (node_budget n).
Proof.
  intros H. rewrite /budget_ok /node_budget /= map_map /=. by rewrite (Permutation_map pg_key (sort_by_perm _ (pn_gpus n))).
Qed.

Lemma start_budgets_ok ns : (∀ n, In n ns → NoDup (map pg_key (pn_gpus n))) →
  budgets_ok (fold_left (λ m n, map_set (pn_id n) (node_budget n) m) ns []).
Proof.
  intros H. have : ∀ m, budgets_ok m → budgets_ok (fold_left (λ m n, map_set (pn_id n) (node_budget n) m) ns m); [|by intros Hf; apply Hf; split].
  induction ns as [|n ns IH]; intros m Hm; cbn [fold_left]; [done|]. apply IH; [by intros n' Hn'; apply H; right|].
  apply budgets_ok_set; [done|by apply node_budget_ok, H; left|done].
Qed.

(** ** The replay of claims *)

(** One amount of a budget: memory, or the free VRAM of one GPU. *)
Definition room (k : option string) (b : Budget) : Z :=
  match k with None => b_memoryGb b | Some key => match find_gpu key (b_gpus b) with Some g => gb_freeGb g | None => 0 end end.

(** The same amount of a usage. *)
Definition uses (k : option string) (u : ClaimUsage) : Z :=
  match k with None => memoryGb u | Some key => gpu_at key (gpus u) end.

Definition known (k : option string) (b : Budget) : Prop :=
  match k with None => True | Some key => key ∈ map gb_key (b_gpus b) end.

Lemma find_gpu_map key (f : GpuBudget → GpuBudget) gs :
  (∀ g, gb_key (f g) = gb_key g) → find_gpu key (map f gs) = f <$> find_gpu key gs.
Proof. intros Hf. induction gs as [|g gs IH]; cbn; [done|]. rewrite Hf. by destruct (bool_decide _). Qed.

Lemma room_apply k b u sign : budget_ok b → NoDup (map_keys (gpus u)) → known k b → room k (applyUsage b u sign) = room k b - sign * uses k u.
Proof.
  intros Hb Hu. destruct k as [key|]; cbn [known]; [|done]. intros Hin. rewrite /applyUsage. cbn [room uses b_gpus].
  rewrite apply_gpus; [done..|]. rewrite find_gpu_map //. apply list_elem_of_In, in_map_iff in Hin as (g & <- & Hg). by rewrite (find_gpu_In b).
Qed.

Lemma known_apply k b u sign : known k (applyUsage b u sign) ↔ known k b.
Proof. destruct k as [key|]; cbn [known]; [|done]. by rewrite applyUsage_keys. Qed.

Fixpoint amount {A} (f : A → Z) (l : list A) : Z := match l with [] => 0 | x :: l => f x + amount f l end.

Lemma amount_app {A} (f : A → Z) l l' : amount f (l ++ l') = amount f l + amount f l'.
Proof. induction l as [|x l IH]; cbn; [lia|]. rewrite IH. lia. Qed.

Lemma amount_ext {A} (f g : A → Z) l : (∀ x, In x l → f x = g x) → amount f l = amount g l.
Proof. induction l as [|x l IH]; cbn; [done|]. intros H. rewrite H; [by left|]. rewrite IH; [auto|done]. Qed.

Lemma amount_perm {A} (f : A → Z) l l' : l ≡ₚ l' → amount f l = amount f l'.
Proof. induction 1; cbn in *; lia. Qed.

Lemma amount_map {A B} (f : B → Z) (h : A → B) l : amount f (map h l) = amount (λ x, f (h x)) l.
Proof. induction l as [|x l IH]; cbn; [done|]. by rewrite IH. Qed.

Lemma amount_set {K V} `{EqDecision K} (f : K * V → Z) k v (m : jsmap K V) :
  NoDup (map_keys m) → amount f (map_set k v m) = amount f m + f (k, v) - match map_get k m with Some old => f (k, old) | None => 0 end.
Proof.
  induction m as [|[k' v'] m IH]; intros Hn; cbn; [lia|]. cbn in Hn. apply NoDup_cons in Hn as [Hk Hn]. case_decide as He; cbn.
  - subst. lia.
  - rewrite IH //. lia.
Qed.

Lemma uses_sum k us : Forall usage_ok us → uses k (sumUsage us) = amount (uses k) us.
Proof.
  intros Hu. have Hfold : ∀ (f : ClaimUsage → Z) us x, fold_left (λ x u, x + f u) us x = x + amount f us.
  { intros f. induction us0 as [|u us' IH]; intros x; cbn; [lia|]. rewrite IH. lia. }
  destruct k as [key|]; cbn [uses]; [rewrite sumUsage_gpu //|rewrite sumUsage_memory //]; rewrite Hfold; done.
Qed.

Lemma uses_subtract k a b : usage_ok b → uses k (subtractUsage a b) = uses k a - uses k b.
Proof. intros Hb. destruct k as [key|]; cbn [uses]; [by apply subtractUsage_gpu|done]. Qed.

Lemma overlap_ok cur old : Forall usage_ok cur → Forall usage_ok old → usage_ok (overlapUsage cur old).
Proof. intros Hc Ho. rewrite /overlapUsage. destruct old as [|o old]; [by apply sumUsage_ok|]. by apply maxUsage_ok; apply sumUsage_ok. Qed.

Section Replay.
Context (stopping : list string) (id : string) (k : option string).

(** The amount of a node in a map of budgets, when the node has it. *)
Definition room_at (bs : jsmap string Budget) (x : Z) : Prop := ∃ b, map_get id bs = Some b ∧ known k b ∧ room k b = x.

Definition freed (iid : string) (held : bool) : bool := bool_decide (iid ∈ stopping) && held.

(** What the replay counts for one claim on the node. *)
Definition claim_charge (iid : string) (us : jsmap (string * nat) ClaimUsage) (ix : nat * PlacementRank) : Z :=
  match pr_nodeId ix.2, map_get (iid, ix.1) us with
  | Some n, Some u => if bool_decide (n = id) && negb (freed iid (isHeld ix.2)) then uses k u else 0
  | _, _ => 0
  end.

Definition usages_ok (us : jsmap (string * nat) ClaimUsage) : Prop := ∀ key u, map_get key us = Some u → usage_ok u.

Lemma replay_claim_step iid bs us ix x :
  budgets_ok bs → usages_ok us → needs_ok (resource_needs (pr_resources ix.2)) → map_get (iid, ix.1) us = None →
  let st := replay_claim stopping iid (bs, us) ix in
  budgets_ok st.1 ∧ usages_ok st.2 ∧ (∀ key, key ≠ (iid, ix.1) → map_get key st.2 = map_get key us) ∧
  (room_at bs x → room_at st.1 (x - claim_charge iid st.2 ix)).
Proof.
  intros Hb Hu Hn Hnew. rewrite /replay_claim. destruct ix as [i rank]. cbn [fst snd] in *. destruct (pr_nodeId rank) as [n|] eqn:En.
  2:{ split_and!; try done. by rewrite /claim_charge /= En Z.sub_0_r. }
  destruct (map_get n bs) as [bn|] eqn:Ebn.
  2:{ split_and!; try done. by rewrite /claim_charge /= En Hnew Z.sub_0_r. }
  set b1 := add_ports rank bn. have Hb1 : budget_ok b1 by rewrite /budget_ok (po_gpus _ _ (add_ports_room rank bn)); eapply Hb.
  have Hcb : ∀ q, 0 ≤ port_count q (b_ports b1) by apply grows_counts; [apply add_ports_grows|]; intros q; by eapply Hb.
  set u := claim_usage b1 (pr_resources rank). have Hou : usage_ok u by apply claim_usage_ok. fold (freed iid (isHeld rank)).
  set b2 := if freed iid (isHeld rank) then b1 else applyUsage b1 u 1. cbn [fst snd]. split_and!.
  - apply budgets_ok_set; [done|rewrite /b2; destruct (freed _ _); [done|by apply applyUsage_ok]|rewrite /b2; by destruct (freed _ _)].
  - intros key u'. rewrite map_get_set. case_decide; [by intros [= <-]|apply Hu].
  - intros key Hne. rewrite map_get_set decide_False //.
  - intros (b & Hget & Hk & Hx). rewrite /claim_charge /= En map_get_set decide_True //. case_bool_decide as Hid; cbn [andb].
    + subst n. rewrite Hget in Ebn. simplify_eq. exists b2. rewrite map_get_set decide_True //.
      have Hk1 : known k b1 by rewrite /b1; destruct k as [key|]; [cbn; by rewrite (po_gpus _ _ (add_ports_room rank bn))|].
      have Hr1 : room k b1 = room k bn by rewrite /b1; destruct k as [key|]; cbn; rewrite ?(po_gpus _ _ (add_ports_room rank bn)) ?(po_memory _ _ (add_ports_room rank bn)).
      split; [done|]. rewrite /b2. destruct (freed iid (isHeld rank)); cbn [negb]; [by rewrite Z.sub_0_r|].
      rewrite known_apply room_apply //; [apply Hou|]. rewrite Hr1. split; [done|lia].
    + exists b. rewrite map_get_set decide_False // Z.sub_0_r. done.
Qed.

(** The claims of one instance. *)
Lemma replay_claims iid ixs st x :
  NoDup (map fst ixs) → (∀ ix, In ix ixs → needs_ok (resource_needs (pr_resources ix.2)) ∧ map_get (iid, ix.1) st.2 = None) →
  budgets_ok st.1 → usages_ok st.2 →
  let st' := fold_left (replay_claim stopping iid) ixs st in
  budgets_ok st'.1 ∧ usages_ok st'.2 ∧ (∀ key, key.1 ≠ iid ∨ key.2 ∉ map fst ixs → map_get key st'.2 = map_get key st.2) ∧
  (room_at st.1 x → room_at st'.1 (x - amount (claim_charge iid st'.2) ixs)).
Proof.
  revert st x. induction ixs as [|ix ixs IH]; intros [bs us] x Hnd Hix Hb Hu; cbn [fold_left amount].
  { split_and!; try done. by rewrite Z.sub_0_r. }
  cbn in Hnd. apply NoDup_cons in Hnd as [Hnew Hnd]. destruct (Hix ix (or_introl eq_refl)) as [Hn Hnone].
  destruct (replay_claim_step iid bs us ix x Hb Hu Hn Hnone) as (Hb1 & Hu1 & Hk1 & Hx1).
  set st1 := replay_claim stopping iid (bs, us) ix in Hb1 Hu1 Hk1 Hx1 |- *.
  have Hin : ∀ ix', In ix' ixs → ix'.1 ∈ map fst ixs by intros ix' ?; apply list_elem_of_In, in_map.
  have Hrest : ∀ ix', In ix' ixs → needs_ok (resource_needs (pr_resources ix'.2)) ∧ map_get (iid, ix'.1) st1.2 = None.
  { intros ix' Hix'. rewrite Hk1; [intros [= He]; apply Hnew; rewrite -He; auto|]. apply Hix. by right. }
  destruct (IH st1 (x - claim_charge iid st1.2 ix) Hnd Hrest Hb1 Hu1) as (H1 & H2 & H3 & H4).
  split_and!; [done|done| |].
  - intros key Hkey. rewrite H3; [|apply Hk1].
    + destruct Hkey as [?|Hnot]; [by left|right]. intros Hm. apply Hnot. by right.
    + intros ->. cbn in Hkey. destruct Hkey as [?|Hnot]; [done|]. apply Hnot. by left.
  - have -> : claim_charge iid (fold_left (replay_claim stopping iid) ixs st1).2 ix = claim_charge iid st1.2 ix.
    { rewrite /claim_charge H3 //. by right. }
    rewrite Z.sub_add_distr. auto.
Qed.

(** What the replay counts for an instance on the node. *)
Definition instance_charge (us : jsmap (string * nat) ClaimUsage) (i : PlacementInstance) : Z :=
  amount (claim_charge (pi_id i) us) (indexed (pi_ranks i)).

Lemma indexed_fst {A} (l : list A) : map fst (indexed l) = seq 0 (length l).
Proof. rewrite /indexed. generalize 0%nat. induction l as [|y l IH]; intros n; cbn; [done|]. by rewrite IH. Qed.

Lemma replay_instances ins st x :
  NoDup (map pi_id ins) → (∀ i rank, In i ins → In rank (pi_ranks i) → needs_ok (resource_needs (pr_resources rank))) →
  (∀ i n, In i ins → map_get (pi_id i, n) st.2 = None) →
  budgets_ok st.1 → usages_ok st.2 →
  let st' := fold_left (replay_instance stopping) ins st in
  budgets_ok st'.1 ∧ usages_ok st'.2 ∧ (∀ key, key.1 ∉ map pi_id ins → map_get key st'.2 = map_get key st.2) ∧
  (room_at st.1 x → room_at st'.1 (x - amount (instance_charge st'.2) ins)).
Proof.
  revert st x. induction ins as [|i ins IH]; intros st x Hnd Hn Hnone Hb Hu; cbn [fold_left amount].
  { split_and!; try done. by rewrite Z.sub_0_r. }
  cbn in Hnd. apply NoDup_cons in Hnd as [Hnew Hnd]. rewrite {1 3 5 7}/replay_instance.
  destruct (replay_claims (pi_id i) (indexed (pi_ranks i)) st x) as (H1 & H2 & H3 & H4); [rewrite indexed_fst; apply NoDup_seq| |done..|].
  { intros [n rank] Hin. cbn. split; [|apply Hnone; by left]. apply (Hn i); [by left|].
    rewrite -(indexed_values (pi_ranks i)). by apply (in_map snd) in Hin. }
  set st1 := fold_left (replay_claim stopping (pi_id i)) _ st in H1 H2 H3 H4 |- *.
  have Hne : ∀ i', In i' ins → pi_id i' ≠ pi_id i by intros i' Hi' He; apply Hnew; rewrite -He; apply list_elem_of_In, in_map.
  have Hrest : ∀ i' n, In i' ins → map_get (pi_id i', n) st1.2 = None.
  { intros i' n Hi'. rewrite H3; [left; by apply Hne|]. apply Hnone. by right. }
  destruct (IH st1 (x - instance_charge st1.2 i) Hnd (λ i' rank Hi', Hn i' rank (or_intror Hi')) Hrest H1 H2) as (G1 & G2 & G3 & G4).
  split_and!; [done|done| |].
  - intros key Hkey. rewrite G3; [|apply H3; left]; intros Hm; apply Hkey; [by right|]. rewrite Hm. by left.
  - have -> : instance_charge (fold_left (replay_instance stopping) ins st1).2 i = instance_charge st1.2 i.
    { apply amount_ext. intros ix _. by rewrite /claim_charge G3. }
    rewrite Z.sub_add_distr. auto.
Qed.

(** *** What was counted twice *)

(** A group's claims are its node's and kind's. *)
Definition collecting_ok (m : jsmap (string * RankClaim) Collecting) : Prop :=
  NoDup (map_keys m) ∧
  ∀ key c, map_get key m = Some c → cl_nodeId c = key.1 ∧ cl_held c = bool_decide (key.2 = Held) ∧ Forall usage_ok ((cl_claims c).1 ++ (cl_claims c).2).

(** The replay's charge of a group. *)
Definition group_charge (iid : string) (c : Collecting) : Z :=
  if bool_decide (cl_nodeId c = id) && negb (freed iid (cl_held c)) then amount (uses k) ((cl_claims c).1 ++ (cl_claims c).2) else 0.

Lemma push_amount previous u claims :
  let c := push_claim previous u claims in amount (uses k) (c.1 ++ c.2) = amount (uses k) (claims.1 ++ claims.2) + uses k u.
Proof. rewrite /push_claim. destruct previous; cbn; rewrite !amount_app /=; lia. Qed.

Lemma push_Forall previous u claims :
  usage_ok u → Forall usage_ok (claims.1 ++ claims.2) → Forall usage_ok ((push_claim previous u claims).1 ++ (push_claim previous u claims).2).
Proof. intros Hu. rewrite /push_claim. destruct previous; cbn; rewrite !Forall_app Forall_singleton; naive_solver. Qed.

Lemma collect_step us iid m ix :
  usages_ok us → collecting_ok m →
  collecting_ok (collect us iid m ix) ∧
  amount (λ kc, group_charge iid kc.2) (collect us iid m ix) = amount (λ kc, group_charge iid kc.2) m + claim_charge iid us ix.
Proof.
  intros Hu [Hnd Hm]. rewrite /collect /claim_charge. destruct (pr_nodeId ix.2) as [n|]; [|rewrite Z.add_0_r; by split].
  destruct (map_get (iid, ix.1) us) as [u|] eqn:Eu; [|rewrite Z.add_0_r; by split]. set key := (n, pr_claim ix.2).
  set g := default _ (map_get key m). set g' := mkCollecting _ _ _ _. have Hou := Hu _ _ Eu.
  have Hg : cl_nodeId g = n ∧ cl_held g = isHeld ix.2 ∧ Forall usage_ok ((cl_claims g).1 ++ (cl_claims g).2).
  { rewrite /g. destruct (map_get key m) as [c|] eqn:Ec; [by apply (Hm key)|]. by split_and!; [..|constructor]. }
  destruct Hg as (Hgn & Hgh & Hgo). split; [split; [by apply map_set_NoDup|]|].
  - intros key' c. rewrite map_get_set. case_decide as Hk; [|by apply Hm]. subst key'. intros [= <-]. split_and!; [done|done|]. by apply push_Forall.
  - rewrite amount_set //. cbn [snd]. have -> : match map_get key m with Some old => group_charge iid old | None => 0 end = group_charge iid g.
    { rewrite /g. destruct (map_get key m); [done|]. rewrite /group_charge /=. by destruct (_ && _). }
    rewrite /group_charge /= Hgn Hgh push_amount. fold (isHeld ix.2). destruct (_ && _); lia.
Qed.

Lemma collect_all us iid ixs m :
  usages_ok us → collecting_ok m →
  let m' := fold_left (collect us iid) ixs m in
  collecting_ok m' ∧ amount (λ kc, group_charge iid kc.2) m' = amount (λ kc, group_charge iid kc.2) m + amount (claim_charge iid us) ixs.
Proof.
  intros Hu. revert m. induction ixs as [|ix ixs IH]; intros m Hm; cbn [fold_left amount]; [split; [done|lia]|].
  destruct (collect_step us iid m ix Hu Hm) as [H1 H2]. destruct (IH _ H1) as [H3 H4]. split; [done|]. rewrite H4 H2. lia.
Qed.

Lemma collected_ok us i :
  usages_ok us →
  Forall (λ c, Forall usage_ok ((cl_claims c).1 ++ (cl_claims c).2)) (collected us i) ∧
  amount (group_charge (pi_id i)) (collected us i) = instance_charge us i.
Proof.
  intros Hu. destruct (collect_all us (pi_id i) (indexed (pi_ranks i)) [] Hu) as [[Hnd H1] H2]; [by split; [constructor|]|].
  rewrite /collected amount_map H2. split; [|done]. apply List.Forall_forall. intros c ([key c'] & <- & Hin)%in_map_iff. eapply H1. by apply map_get_NoDup.
Qed.

(** What a group counts for once the give-back is done. *)
Definition group_count (iid : string) (g : ClaimGroup) : Z :=
  if bool_decide (cg_nodeId g = id) && negb (freed iid (cg_held g)) then uses k (cg_usage g) else 0.

Lemma give_back_step iid bs c x :
  Forall usage_ok ((cl_claims c).1 ++ (cl_claims c).2) → budgets_ok bs →
  budgets_ok (give_back stopping iid bs c) ∧
  (room_at bs x → room_at (give_back stopping iid bs c) (x + group_charge iid c - group_count iid (group_of c))).
Proof.
  intros Hc Hb. rewrite /give_back. fold (freed iid (cl_held c)). set over := overlapUsage _ _. set back := subtractUsage _ over.
  rewrite /group_charge /group_count. cbn [group_of cg_nodeId cg_held cg_usage]. fold over.
  destruct (freed iid (cl_held c)); cbn [negb]; [rewrite andb_false_r Z.add_0_r Z.sub_0_r; by split|]. rewrite andb_true_r.
  have [H1 H2] : Forall usage_ok (cl_claims c).1 ∧ Forall usage_ok (cl_claims c).2 by apply Forall_app.
  have Hover : usage_ok over by apply overlap_ok. have Hkeys : NoDup (map_keys (gpus back)) by apply merge_keys, sumUsage_ok.
  rewrite /with_budget. destruct (map_get (cl_nodeId c) bs) as [b|] eqn:Eb.
  - split; [apply budgets_ok_set; [done|apply applyUsage_ok, (proj1 Hb _ _ Eb)|intros q; exact (proj2 Hb _ _ q Eb)]|].
    intros (b' & Hget & Hk & Hx). rewrite /room_at map_get_set. case_bool_decide as Hid.
    + rewrite Hid decide_True //. rewrite Hid Hget in Eb. simplify_eq. eexists. split; [done|]. rewrite known_apply. split; [done|].
      rewrite room_apply //; [by eapply Hb|]. rewrite uses_subtract // uses_sum //. lia.
    + rewrite decide_False // Z.add_0_r Z.sub_0_r. by exists b'.
  - split; [done|]. intros (b' & Hget & Hk & Hx). rewrite bool_decide_eq_false_2; [congruence|]. rewrite Z.add_0_r Z.sub_0_r. by exists b'.
Qed.

Lemma give_back_all iid cs bs x :
  Forall (λ c, Forall usage_ok ((cl_claims c).1 ++ (cl_claims c).2)) cs → budgets_ok bs →
  let bs' := fold_left (give_back stopping iid) cs bs in
  budgets_ok bs' ∧
  (room_at bs x → room_at bs' (x + amount (group_charge iid) cs - amount (group_count iid) (map group_of cs))).
Proof.
  intros Hcs. revert bs x. induction Hcs as [|c cs Hc Hcs IH]; intros bs x Hb; cbn [fold_left amount map]; [by rewrite Z.add_0_r Z.sub_0_r|].
  destruct (give_back_step iid bs c x Hc Hb) as [H1 H2]. destruct (IH _ (x + group_charge iid c - group_count iid (group_of c)) H1) as [H3 H4]. split; [done|].
  intros Hx. have := H4 (H2 Hx). by have -> : ∀ a b c d, x + a - b + c - d = x + (a + c) - (b + d) by lia.
Qed.

(** The groups kept for the instances, and what they count on the node. *)
Lemma overlap_instances us ins st x :
  NoDup (map pi_id ins) → usages_ok us → budgets_ok st.1 →
  let st' := fold_left (overlap_instance stopping us) ins st in
  budgets_ok st'.1 ∧
  (∀ iid, map_get iid st'.2 = match List.find (λ i, bool_decide (pi_id i = iid)) ins with
                              | Some i => Some (map group_of (collected us i)) | None => map_get iid st.2 end) ∧
  (room_at st.1 x → room_at st'.1 (x + amount (instance_charge us) ins - amount (λ i, amount (group_count (pi_id i)) (map group_of (collected us i))) ins)).
Proof.
  intros Hnd Hu. revert st x Hnd. induction ins as [|i ins IH]; intros st x Hnd Hb; cbn [fold_left amount]; [by rewrite Z.add_0_r Z.sub_0_r|].
  cbn in Hnd. apply NoDup_cons in Hnd as [Hnew Hnd]. destruct (collected_ok us i Hu) as [Hcs Hsum].
  destruct (give_back_all (pi_id i) (collected us i) st.1 x Hcs Hb) as [H1 H2]. rewrite Hsum in H2.
  set st1 := overlap_instance stopping us st i. set x1 := (x + instance_charge us i - _) in H2.
  destruct (IH st1 x1 Hnd H1) as (H3 & H4 & H5). split_and!; [done| |].
  - intros iid. rewrite H4. cbn [List.find]. case_bool_decide as Hid; [|rewrite /st1 /= map_get_set decide_False //].
    destruct (List.find _ ins) as [i'|] eqn:Ef.
    + apply find_some in Ef as [Hin He%bool_decide_eq_true]. destruct Hnew. rewrite Hid -He. by apply list_elem_of_In, in_map.
    + by rewrite /st1 /= map_get_set decide_True.
  - intros Hx. have := H5 (H2 Hx). rewrite /x1. by have -> : ∀ a b c d, x + a - b + c - d = x + (a + c) - (b + d) by lia.
Qed.
End Replay.

(** ** The new planner *)

Lemma find_instance_unique (ins : list PlacementInstance) i :
  NoDup (map pi_id ins) → In i ins → List.find (λ j, bool_decide (pi_id j = pi_id i)) ins = Some i.
Proof.
  intros Hnd Hin. induction ins as [|j ins IH]; [done|]. cbn in Hnd |- *. apply NoDup_cons in Hnd as [Hnew Hnd].
  destruct Hin as [->|Hin]; [by rewrite bool_decide_eq_true_2|]. rewrite bool_decide_eq_false_2; [|by apply IH].
  intros He. apply Hnew. rewrite He. by apply list_elem_of_In, in_map.
Qed.

Lemma start_get ns n m :
  NoDup (map pn_id ns) → In n ns → map_get (pn_id n) (fold_left (λ m n, map_set (pn_id n) (node_budget n) m) ns m) = Some (node_budget n).
Proof.
  intros Hnd Hin. revert m Hnd. induction ns as [|n' ns IH]; intros m Hnd; [done|]. cbn in Hnd |- *. apply NoDup_cons in Hnd as [Hnew Hnd].
  destruct Hin as [->|Hin]; [|by apply IH]. clear IH Hnd.
  have : ∀ m, map_get (pn_id n) m = Some (node_budget n) → map_get (pn_id n) (fold_left (λ m n, map_set (pn_id n) (node_budget n) m) ns m) = Some (node_budget n).
  { clear m. induction ns as [|n' ns IH]; intros m Hm; cbn; [done|]. cbn in Hnew. apply not_elem_of_cons in Hnew as [Hne Hnew].
    apply IH; [done|]. by rewrite map_get_set decide_False. }
  intros H. apply H. by rewrite map_get_set decide_True.
Qed.

(** The budgets and groups the constructor leaves. *)
Lemma new_planner_spec context id k x :
  context_ok context →
  let p := new_planner context in
  budgets_ok (pl_budgets p) ∧ (∀ iid g, In g (groups_of p iid) → usage_ok (cg_usage g)) ∧
  (room_at id k (fold_left (λ m n, map_set (pn_id n) (node_budget n) m) (pc_nodes context) []) x →
   room_at id k (pl_budgets p)
     (x - amount (λ i, amount (group_count (pl_stopping p) id k (pi_id i)) (groups_of p (pi_id i))) (pc_instances context))).
Proof.
  intros [Hnodes Hgpus Hids Hclaims]. rewrite /new_planner. set bs0 := fold_left _ (pc_nodes context) []. set stopping := stopping_of context.
  set ins := sort_by _ (pc_instances context). have Hperm : ins ≡ₚ pc_instances context by apply sort_by_perm.
  have Hnd : NoDup (map pi_id ins) by rewrite Hperm.
  have Hneeds : ∀ i rank, In i ins → In rank (pi_ranks i) → needs_ok (resource_needs (pr_resources rank)).
  { intros i rank Hi. apply Hclaims. by rewrite -list_elem_of_In -Hperm list_elem_of_In. }
  destruct (replay_instances stopping id k ins (bs0, []) x Hnd Hneeds) as (H1 & H2 & _ & H4); [done|by apply start_budgets_ok|done|].
  destruct (fold_left (replay_instance stopping) ins (bs0, [])) as [bs1 us]. cbn [fst snd] in *.
  destruct (overlap_instances stopping id k us ins (bs1, []) (x - amount (instance_charge stopping id k us) ins) Hnd H2 H1) as (H5 & H6 & H7).
  destruct (fold_left (overlap_instance stopping us) ins (bs1, [])) as [bs2 gs]. cbn [fst snd pl_budgets pl_stopping] in *.
  rewrite /groups_of. cbn [pl_groups]. split_and!; [done| |].
  - intros iid g. rewrite H6. destruct (List.find _ ins) as [i|]; [|done]. cbn. intros (c & <- & Hc)%in_map_iff.
    destruct (collected_ok stopping id k us i H2) as [Hcs _]. rewrite List.Forall_forall in Hcs. have := Hcs c Hc. intros [? ?]%Forall_app. by apply overlap_ok.
  - intros Hx. have := H7 (H4 Hx). rewrite -(amount_perm _ ins _ Hperm). rewrite Z.sub_add. erewrite amount_ext; [done|].
    intros i Hi. cbn. rewrite H6. rewrite (find_instance_unique ins i) //.
Qed.

(** The planner the constructor builds is well formed. *)
Lemma new_planner_ok context : context_ok context → planner_ok (new_planner context).
Proof.
  intros H. destruct (new_planner_spec context "" None 0 H) as ([Hb Hc] & Hg & _). split; [done|exact Hc|exact Hg].
Qed.

(** A new planner counts each instance's claims once. In every node's budget the constructor
    leaves, the memory and the VRAM of each GPU are the hardware's less, for every instance and
    each of its claim groups on the node, the overlap of its current and previous claims
    ([max(Σcurrent, Σprevious)]); groups already freed by a planned stop count nothing. *)
Theorem replay_counts_overlap context n k :
  context_ok context → In n (pc_nodes context) → known k (node_budget n) →
  let p := new_planner context in
  ∃ b, map_get (pn_id n) (pl_budgets p) = Some b ∧
    room k b = room k (node_budget n) -
      amount (λ i, amount (λ g, if bool_decide (cg_nodeId g = pn_id n) && negb (freed (pl_stopping p) (pi_id i) (cg_held g)) then uses k (cg_usage g) else 0)
                     (groups_of p (pi_id i))) (pc_instances context).
Proof.
  intros H Hn Hk. destruct (new_planner_spec context (pn_id n) k (room k (node_budget n)) H) as (_ & _ & Hroom).
  destruct Hroom as (b & Hb & _ & Hr); [|by exists b]. exists (node_budget n). split; [by apply start_get; [apply H|]|done].
Qed.
