(* ===== verification/PlacementExample.v ===== *)
(** * PlacementExample: placement on concrete nodes

    First a node with two discrete GPUs and a unified one, for the theorems of budgets and
    claims; then a node with a dedicated GPU and one without, on one fabric, with an instance
    being restarted that holds an old and a new claim on the GPU, for those of [place()]. *)
From Stdlib Require Import ssreflect.
From S2P Require Import Prelude ClaimOverlap PlacementFit PlacementSearch PlacementFitSafety ClaimHolds PlacementModel PlacementRules PlacementSteps.
From S2P Require Import PlacementPlanner PlacementReach PlacementPorts PlacementSafety PlacementReplay.

Definition two_gpus : list GpuBudget :=
  [mkGpu "nvidia:0" nvidia 2400 false; mkGpu "nvidia:1" nvidia 1600 false; mkGpu "amd:0" amd 0 true].

Definition small_node : Budget := mkBudget 6400 two_gpus [(8000, 1)] [].

Definition one_gpu : option RuntimeResource := Some (Rdiscrete 1 2000 (Some 400) None).
Definition two_nvidia : option RuntimeResource := Some (Rdiscrete 2 2000 None (Some nvidia)).

Lemma small_node_ok : budget_ok small_node.
Proof. rewrite /budget_ok /small_node /two_gpus. cbn. repeat (constructor; [set_solver|]). constructor. Qed.

Definition usage (m g : Z) : ClaimUsage := mkUsage m [("nvidia:0", g)].

Lemma usage_is_ok m g : 0 ≤ m → 0 ≤ g → usage_ok (usage m g).
Proof.
  intros Hm Hg. split; cbn; [repeat constructor; set_solver|done|]. intros k. rewrite gpu_at_cons. case_bool_decide; [done|].
  rewrite /gpu_at. cbn. lia.
Qed.

(** A restart from 20 + 4 GiB to 12 + 16 GiB takes 4 GiB more on the node. *)
Lemma restart_costs_growth_witness :
  memoryGb (sumUsage [usage 2000 800; usage 400 800]) +
    total memoryGb (place_all (sumUsage [usage 2000 800; usage 400 800]) NO_USAGE [usage 1200 1000; usage 1600 1000]) =
  memoryGb (overlapUsage [usage 1200 1000; usage 1600 1000] [usage 2000 800; usage 400 800]).
Proof.
  refine (proj1 (proj2 (restart_costs_growth [usage 2000 800; usage 400 800] [usage 1200 1000; usage 1600 1000] _ _ _))); [| |done].
  - repeat (constructor; [by apply usage_is_ok|]). constructor.
  - repeat (constructor; [by apply usage_is_ok|]). constructor.
Defined.

(** 20 GiB of VRAM fits the first GPU only; port 8000 is claimed, so the claim gets 8001. *)
Lemma fit_within_budget_witness :
  ∃ take, fit (8000, 8010) small_node one_gpu (mkPort None None) true None = FitOk 8001 ["nvidia:0"] (resourceNeeds one_gpu) take ∧
  fits_right small_node (8000, 8010) (mkPort None None) true (resourceNeeds one_gpu) 8001 ["nvidia:0"] take.
Proof.
  exists (mkUsage 400 [("nvidia:0", 2000)]). have Hfit : fit (8000, 8010) small_node one_gpu (mkPort None None) true None =
    FitOk 8001 ["nvidia:0"] (resourceNeeds one_gpu) (mkUsage 400 [("nvidia:0", 2000)]) by vm_compute.
  split; [exact Hfit|].
  refine (proj2 (fit_within_budget _ _ _ _ _ None _ _ _ _ small_node_ok _ _ Hfit)); [by split|by intros f ?].
Defined.

(** Two NVIDIA GPUs with 20 GiB each are refused, and rightly so. *)
Lemma fit_refusal_exact_witness :
  fit (8000, 8010) small_node two_nvidia (mkPort None None) true None = FitRefused not_enough_memory ∧
  freshFits small_node (resourceNeeds two_nvidia) ["nvidia:0"; "nvidia:1"] = false.
Proof.
  split; [by vm_compute|].
  apply (fit_refusal_exact (8000, 8010) small_node two_nvidia (mkPort None None) true ["nvidia:0"; "nvidia:1"] small_node_ok).
  - by split.
  - intros v. apply Nat.leb_le. destruct v; by vm_compute.
  - by vm_compute.
  - repeat (constructor; [set_solver|]). constructor.
  - done.
  - exists nvidia. intros k [->|[->|?%elem_of_nil]%elem_of_cons]%elem_of_cons; [| |done].
    + exists (mkGpu "nvidia:0" nvidia 2400 false). split_and!; try done. by left.
    + exists (mkGpu "nvidia:1" nvidia 1600 false). split_and!; try done. by right; left.
Defined.

(** A claim recorded on a GPU the node no longer reports: the process may be on either NVIDIA
    GPU, and the node counts it on both. *)
Definition lost_gpu : DiscreteClaim :=
  {| dc_vramGb := 2000; dc_gpuCount := 1; dc_vendor := None; dc_recorded := Some ["nvidia:9"]; dc_unifiedGpus := Some [] |}.

Lemma claim_never_undercounted_witness :
  2000 ≤ gpu_at "nvidia:1" (h_dedicated (claimVramHolds lost_gpu two_gpus)).
Proof.
  refine (proj2 (claim_never_undercounted lost_gpu two_gpus (λ _, mkGpu "nvidia:1" nvidia 1600 false) small_node_ok _ _ _ _) "nvidia:9" _ _);
    try (by vm_compute); [by eexists| |by left].
  have Hr : recorded_keys lost_gpu = ["nvidia:9"] by vm_compute. split; rewrite Hr.
  - by intros k g ->%list_elem_of_singleton.
  - intros k ->%list_elem_of_singleton _. vm_compute. by right; left.
  - by intros k k' ->%list_elem_of_singleton ->%list_elem_of_singleton.
Defined.

(** * Two nodes, three instances: concrete runs of the planner *)

Definition rack_node (id : string) (memory : Z) (gpus : list PlacementGpu) : PlacementNode := {|
  pn_id := id; pn_slug := id; pn_online := true; pn_trust := Full; pn_held := false; pn_labels := ["rack"]; pn_portRange := (8000, 8009);
  pn_heldVersionIds := []; pn_requiredVersionIds := []; pn_frozenFabrics := NotFrozen; pn_memoryGb := memory; pn_gpus := gpus;
  pn_liveFreeMemoryGb := None; pn_launch := None |}.

Definition claim_on (node : string) (r : RuntimeResource) (keys : option (list string)) (port : Z) (previous : bool) : PlacementRank := {|
  pr_nodeId := Some node; pr_port := port; pr_distPort := None; pr_resources := mkResources (Some r) keys None; pr_claim := Held;
  pr_reservation := false; pr_previous := previous |}.

Definition own_instance (id : string) (ranks : list PlacementRank) : PlacementInstance := {|
  pi_id := id; pi_runtimeId := id; pi_ownerId := "u"; pi_startable := true; pi_running := true; pi_ranks := ranks; pi_contributed := false;
  pi_interactiveStop := false; pi_cleanupNodeIds := [] |}.

Definition rack_gpu : PlacementGpu := {| pg_key := "nvidia:0"; pg_vendor := nvidia; pg_vramGb := 2400; pg_unified := false |}.

Definition rack : PlacementContext := {|
  pc_callerId := "u"; pc_agent := true;
  pc_nodes := [rack_node "n1" 1000 [rack_gpu]; rack_node "n2" 800 []];
  pc_instances := [
    own_instance "i1" [claim_on "n1" (Runified 600) None 8000 false];
    own_instance "i2" [claim_on "n2" (Runified 300) None 8000 false];
    own_instance "i3" [claim_on "n1" (Rdiscrete 1 1000 None None) (Some ["nvidia:0"]) 8002 true;
                       claim_on "n1" (Rdiscrete 1 1600 None None) (Some ["nvidia:0"]) 8003 false]];
  pc_fabrics := [{| pf_id := "f"; pf_name := "f"; pf_members := [("n1", "10.0.0.1"); ("n2", "10.0.0.2")] |}];
  pc_stopping := []; pc_workBudget := None |}.

Definition rack_launch (size : nat) (r : RuntimeResource) (reservations : list LaunchReservation) : LaunchShape := {|
  ls_groupSize := size; ls_resources := [r]; ls_labels := []; ls_fixedPort := None; ls_fabric := None; ls_reservations := reservations;
  ls_needs := mkLaunchNeeds None None None |}.

Definition rack_request (launch : LaunchShape) : PlacementRequest := {|
  rq_runtimeId := "r"; rq_versionId := "v"; rq_launch := launch; rq_nodeIds := None; rq_restart := None; rq_allowedNodeIds := None;
  rq_reservationNodeIds := None; rq_retake := false; rq_checkFrozen := false; rq_nodeOrigin := false; rq_preempt := true |}.

(** Two ranks of 5 GiB: they fit only if the first instance stops. *)
Definition pair : PlacementRequest := rack_request (rack_launch 2 (Runified 500) []).

(** A rank on the GPU and a reservation on the other node. *)
Definition helped : PlacementRequest := rack_request (rack_launch 1 (Rdiscrete 1 800 None None) [{| lr_labels := ["rack"]; lr_resources := Rcpu 400 |}]).

Ltac distinct := repeat (apply NoDup_cons; split; [set_solver|]); apply NoDup_nil; done.

Lemma rack_ok : context_ok rack.
Proof.
  split.
  - cbn. distinct.
  - intros n [<-|[<-|[]]]; cbn; distinct.
  - cbn. distinct.
  - intros i rank [<-|[<-|[<-|[]]]] Hr; cbn in Hr; destruct Hr as [<-|Hr]; try (by split); by destruct Hr as [<-|[]].
Qed.

Lemma pair_ok : request_ok pair.
Proof. split; [cbn; lia|]. split; [by intros r ->%list_elem_of_singleton|by intros r ?%elem_of_nil]. Qed.

Lemma helped_ok : request_ok helped.
Proof. split; [cbn; lia|]. split; intros r ->%list_elem_of_singleton; done. Qed.


Lemma place_stops_authorized_witness :
  ∃ p' start stops warnings, place (new_planner rack) pair = Some (p', Placed start stops warnings) ∧
    map ps_instanceId stops = ["i1"] ∧
    ∀ s, In s stops → ∃ i, map_get (ps_instanceId s) (instances (new_planner rack)) = Some i ∧ ps_runtimeId s = pi_runtimeId i ∧ may_stop (new_planner rack) pair i.
Proof.
  do 4 eexists. split; [vm_compute; reflexivity|]. split; [reflexivity|]. eapply (place_stops_authorized (new_planner rack) pair _ _ _ _ (new_planner_ok rack rack_ok) pair_ok). vm_compute. reflexivity.
Defined.

Lemma place_on_own_nodes_witness :
  ∃ p' start stops warnings, place (new_planner rack) helped = Some (p', Placed start stops warnings) ∧
    map pp_nodeId (st_placements start) = ["n1"] ∧ map pv_nodeId (st_reservations start) = ["n2"] ∧
    NoDup (map pp_nodeId (st_placements start) ++ map pv_nodeId (st_reservations start)).
Proof.
  do 4 eexists. split; [vm_compute; reflexivity|]. do 2 (split; [reflexivity|]).
  refine (proj1 (proj2 (proj2 (place_on_own_nodes (new_planner rack) helped _ _ _ _ (new_planner_ok rack rack_ok) helped_ok _)))). vm_compute. reflexivity.
Defined.

Lemma place_ports_free_witness :
  ∃ p' start stops warnings, place (new_planner rack) pair = Some (p', Placed start stops warnings) ∧ is_Some (st_distPort start) ∧
    (st_distPort start = None ↔ (ls_groupSize (rq_launch pair) ≤ 1)%nat).
Proof.
  do 4 eexists. split; [vm_compute; reflexivity|]. split; [eexists; reflexivity|].
  refine (proj1 (place_ports_free (new_planner rack) pair _ _ _ _ (new_planner_ok rack rack_ok) pair_ok _)). vm_compute. reflexivity.
Defined.

(** 24 GiB of VRAM less the larger of the old and the new claim. *)
Lemma replay_counts_overlap_witness :
  ∃ b, map_get "n1" (pl_budgets (new_planner rack)) = Some b ∧ room (Some "nvidia:0") b = 2400 - 1600.
Proof.
  refine (replay_counts_overlap rack (rack_node "n1" 1000 [rack_gpu]) (Some "nvidia:0") rack_ok _ _).
  - by left.
  - cbn. set_solver.
Defined.

(** ** Stops on explicit nodes *)

(** An instance on one node and one on both; two ranks fit once the second is stopped. *)
Definition shared_rack : PlacementContext := {|
  pc_callerId := "u"; pc_agent := true;
  pc_nodes := [rack_node "n1" 1000 []; rack_node "n2" 1000 []];
  pc_instances := [
    own_instance "A" [claim_on "n1" (Runified 300) None 8000 false];
    own_instance "B" [claim_on "n1" (Runified 300) None 8001 false; claim_on "n2" (Runified 600) None 8001 false]];
  pc_fabrics := [{| pf_id := "f"; pf_name := "f"; pf_members := [("n1", "10.0.0.1"); ("n2", "10.0.0.2")] |}];
  pc_stopping := []; pc_workBudget := None |}.

Definition large_pair (nodeIds : option (list string)) : PlacementRequest :=
  let r := rack_request (rack_launch 2 (Runified 650) []) in
  {| rq_runtimeId := rq_runtimeId r; rq_versionId := rq_versionId r; rq_launch := rq_launch r; rq_nodeIds := nodeIds; rq_restart := None;
     rq_allowedNodeIds := None; rq_reservationNodeIds := None; rq_retake := false; rq_checkFrozen := false; rq_nodeOrigin := false; rq_preempt := true |}.

Definition planned_stops (request : PlacementRequest) : option (list string) :=
  match place (new_planner shared_rack) request with
  | Some (_, Placed _ stops _) => Some (map ps_instanceId stops)
  | _ => None
  end.

(** The automatic search stops what it needs; on explicit nodes the stop of [A] stays although
    stopping [B] makes the room for both ranks: the pruning never drops a stop there. *)
Example explicit_nodes_keep_stops :
  planned_stops (large_pair None) = Some ["B"%string] ∧ planned_stops (large_pair (Some ["n1"; "n2"]%string)) = Some ["A"; "B"]%string.
Proof. split; vm_compute; reflexivity. Qed.
