(* ===== verification/Utf8.v ===== *)
(** * Utf8: the text encoder and decoder of the wire formats

    [TextEncoder] and the streaming [TextDecoder("utf-8", {fatal: true})], as the Encoding
    Standard defines them. Texts are sequences of Unicode scalar values; bytes are integers
    below 256. The decoder is a byte automaton, so decoding in pieces is decoding the whole
    ([decode_app]); it accepts exactly the encodings ([decode_sound], [decode_encode]). *)
From Stdlib Require Import ssreflect.
From S2P Require Import Prelude JsString.

(** ** Encoding *)

Definition text : Type := list Z.

Definition scalar (c : Z) : bool := in_range 0 55295 c || in_range 57344 1114111 c.

Definition byte (b : Z) : Prop := 0 ≤ b < 256.

Definition utf8 (c : Z) : list Z :=
  if c <? 128 then [c]
  else if c <? 2048 then [192 + c / 64; 128 + c mod 64]
  else if c <? 65536 then [224 + c / 4096; 128 + c / 64 mod 64; 128 + c mod 64]
  else [240 + c / 262144; 128 + c / 4096 mod 64; 128 + c / 64 mod 64; 128 + c mod 64].

(** [new TextEncoder().encode(text)]. *)
Fixpoint encode (t : text) : list Z := match t with [] => [] | c :: t' => utf8 c ++ encode t' end.

Definition byteLength (t : text) : Z := Z.of_nat (length (encode t)).

(** ** The decoder *)

(** The bytes still needed for the current character, its value so far, and the range of the
    next byte. *)
Record Partial : Type := mkPartial { needed : nat; value : Z; lower : Z; upper : Z }.

Definition idle : Partial := mkPartial 0 0 128 191.

(** One byte; [None] is the fatal error. *)
Definition decode_byte (p : Partial) (b : Z) : option (Partial * list Z) :=
  match needed p with
  | O =>
      if in_range 0 127 b then Some (idle, [b])
      else if in_range 194 223 b then Some (mkPartial 1 (b - 192) 128 191, [])
      else if in_range 224 239 b then
        Some (mkPartial 2 (b - 224) (if b =? 224 then 160 else 128) (if b =? 237 then 159 else 191), [])
      else if in_range 240 244 b then
        Some (mkPartial 3 (b - 240) (if b =? 240 then 144 else 128) (if b =? 244 then 143 else 191), [])
      else None
  | S n =>
      if in_range (lower p) (upper p) b then
        let v := value p * 64 + (b - 128) in
        match n with O => Some (idle, [v]) | S _ => Some (mkPartial n v 128 191, []) end
      else None
  end.

Fixpoint decode (p : Partial) (bs : list Z) : option (Partial * text) :=
  match bs with
  | [] => Some (p, [])
  | b :: bs' =>
      match decode_byte p b with
      | None => None
      | Some (p', out) => match decode p' bs' with Some (p'', rest) => Some (p'', out ++ rest) | None => None end
      end
  end.

(** * Lemmas *)

Ltac div_lia := Z.to_euclidean_division_equations; lia.

Lemma decode_app p a b :
  decode p (a ++ b) =
  match decode p a with
  | Some (p', t) => match decode p' b with Some (p'', t') => Some (p'', t ++ t') | None => None end
  | None => None
  end.
Proof.
  revert p. induction a as [|x a IH]; intros p; cbn [app decode]; [by destruct (decode p b) as [[? ?]|]|].
  destruct (decode_byte p x) as [[p' out]|]; [|done]. rewrite IH. destruct (decode p' a) as [[p2 t]|]; [|done].
  destruct (decode p2 b) as [[p3 t']|]; [|done]. by rewrite app_assoc.
Qed.

Lemma encode_app a b : encode (a ++ b) = encode a ++ encode b.
Proof. induction a as [|c a IH]; cbn; [done|]. by rewrite IH app_assoc. Qed.

Lemma byteLength_app a b : byteLength (a ++ b) = byteLength a + byteLength b.
Proof. rewrite /byteLength encode_app length_app. lia. Qed.

Lemma utf8_length c : (1 ≤ length (utf8 c) ≤ 4)%nat.
Proof. rewrite /utf8. repeat case_match; cbn; lia. Qed.

Lemma byteLength_cons c t : byteLength (c :: t) = Z.of_nat (length (utf8 c)) + byteLength t.
Proof. rewrite /byteLength /= length_app. lia. Qed.

Lemma byteLength_nonneg t : 0 ≤ byteLength t.
Proof. rewrite /byteLength. lia. Qed.

Lemma byteLength_ascii c t : 0 ≤ c < 128 → byteLength (c :: t) = 1 + byteLength t.
Proof. intros H. rewrite byteLength_cons /utf8. by rewrite (proj2 (Z.ltb_lt c 128)); [lia|]. Qed.

(** ** Decoding an encoding *)

Lemma scalar_spec c : scalar c = true ↔ 0 ≤ c ≤ 55295 ∨ 57344 ≤ c ≤ 1114111.
Proof. rewrite /scalar /in_range orb_true_iff !andb_true_iff !Z.leb_le. lia. Qed.

Lemma in_range_true a b c : a ≤ c ≤ b → in_range a b c = true.
Proof. rewrite /in_range andb_true_iff !Z.leb_le. lia. Qed.

Lemma in_range_false a b c : c < a ∨ b < c → in_range a b c = false.
Proof. rewrite /in_range andb_false_iff !Z.leb_gt. lia. Qed.

(** Decides the ranges of a byte. *)
Ltac ranges :=
  repeat match goal with
  | |- context [in_range ?a ?b ?c] =>
      first [rewrite (in_range_true a b c); [lia|] | rewrite (in_range_false a b c); [lia|]]
  end.

(** A scalar value by its base-64 digits. *)
Lemma scalar_digits c : 0 ≤ c →
  let a := c / 262144 in let b := c / 4096 mod 64 in let d := c / 64 mod 64 in let e := c mod 64 in
  c = 262144 * a + 4096 * b + 64 * d + e ∧ 0 ≤ a ∧ 0 ≤ b < 64 ∧ 0 ≤ d < 64 ∧ 0 ≤ e < 64 ∧
  c / 4096 = 64 * a + b ∧ c / 64 = 4096 * a + 64 * b + d.
Proof. intros H. cbn zeta. Z.to_euclidean_division_equations. lia. Qed.

Ltac step_decode := cbn [decode app]; rewrite /decode_byte; repeat (progress (cbn [needed idle lower upper value app]; ranges)).

Lemma decode_utf8 c : scalar c = true → decode idle (utf8 c) = Some (idle, [c]).
Proof.
  rewrite scalar_spec /utf8. intros Hc. destruct (scalar_digits c ltac:(lia)) as (H1 & H2 & H3 & H4 & H5 & H6 & H7).
  set a := c / 262144 in H1 H2 H6 H7 |- *. set b := c / 4096 mod 64 in H1 H3 H6 H7 |- *. set d := c / 64 mod 64 in H1 H4 H7 |- *.
  set e := c mod 64 in H1 H5 |- *. rewrite H6 H7. clearbody a b d e.
  destruct (Z.ltb_spec c 128); [by step_decode|].
  destruct (Z.ltb_spec c 2048).
  { step_decode. do 3 f_equal. lia. }
  destruct (Z.ltb_spec c 65536).
  { step_decode. destruct (Z.eqb_spec (224 + (64 * a + b)) 224), (Z.eqb_spec (224 + (64 * a + b)) 237); step_decode; do 3 f_equal; lia. }
  step_decode. destruct (Z.eqb_spec (240 + a) 240), (Z.eqb_spec (240 + a) 244); step_decode; do 3 f_equal; lia.
Qed.

Lemma decode_encode t : Forall (λ c, scalar c = true) t → decode idle (encode t) = Some (idle, t).
Proof. induction 1 as [|c t Hc _ IH]; cbn [encode]; [done|]. by rewrite decode_app decode_utf8 // IH. Qed.

(** ** What was decoded *)

Lemma in_range_spec a b c : in_range a b c = true ↔ a ≤ c ≤ b.
Proof. by rewrite /in_range andb_true_iff !Z.leb_le. Qed.

(** A continuation byte, and what it adds to the character. *)
Lemma decode_byte_next n v lo hi b r :
  decode_byte (mkPartial (S n) v lo hi) b = Some r →
  lo ≤ b ≤ hi ∧ r = match n with O => (idle, [v * 64 + (b - 128)]) | S _ => (mkPartial n (v * 64 + (b - 128)) 128 191, []) end.
Proof.
  rewrite /decode_byte. cbn [needed lower upper value]. destruct (in_range lo hi b) eqn:E; [|done]. apply in_range_spec in E.
  destruct n; by intros [= <-].
Qed.

(** A byte that starts a character. *)
Lemma decode_byte_first b p out :
  decode_byte idle b = Some (p, out) →
  (0 ≤ b < 128 ∧ p = idle ∧ out = [b]) ∨
  (194 ≤ b ≤ 223 ∧ p = mkPartial 1 (b - 192) 128 191 ∧ out = []) ∨
  (224 ≤ b ≤ 239 ∧ p = mkPartial 2 (b - 224) (if b =? 224 then 160 else 128) (if b =? 237 then 159 else 191) ∧ out = []) ∨
  (240 ≤ b ≤ 244 ∧ p = mkPartial 3 (b - 240) (if b =? 240 then 144 else 128) (if b =? 244 then 143 else 191) ∧ out = []).
Proof.
  rewrite /decode_byte. cbn [needed idle]. destruct (in_range 0 127 b) eqn:E1; [apply in_range_spec in E1; intros [= <- <-]; left; split_and!; [lia..|done|done]|].
  destruct (in_range 194 223 b) eqn:E2; [apply in_range_spec in E2; intros [= <- <-]; right; left; by split_and!; try lia|].
  destruct (in_range 224 239 b) eqn:E3; [apply in_range_spec in E3; intros [= <- <-]; right; right; left; by split_and!; try lia|].
  destruct (in_range 240 244 b) eqn:E4; [|done]. apply in_range_spec in E4; intros [= <- <-]; right; right; right; by split_and!; try lia.
Qed.

(** The decoder either waits for the rest of one character or has read a whole one. *)
Lemma decode_cases bs p t :
  decode idle bs = Some (p, t) →
  (bs = [] ∧ p = idle ∧ t = []) ∨ (bs ≠ [] ∧ needed p ≠ O ∧ t = []) ∨
  ∃ c bs' t', bs = utf8 c ++ bs' ∧ scalar c = true ∧ t = c :: t' ∧ decode idle bs' = Some (p, t').
Proof.
  destruct bs as [|b0 bs]; cbn [decode]; [intros [= <- <-]; by left|].
  destruct (decode_byte idle b0) as [[p1 o1]|] eqn:E0; [|done]. intros H. right.
  apply decode_byte_first in E0 as [(Hb & -> & ->)|[(Hb & -> & ->)|[(Hb & -> & ->)|(Hb & -> & ->)]]].
  - right. destruct (decode idle bs) as [[p2 t']|] eqn:E; [|done]. injection H as <- <-. exists b0, bs, t'. split_and!; try done.
    + rewrite /utf8. by rewrite (proj2 (Z.ltb_lt _ _)); [lia|].
    + apply scalar_spec. lia.
  - destruct bs as [|b1 bs]; [injection H as <- <-; by left|]. cbn [decode] in H. destruct (decode_byte _ b1) as [r|] eqn:E1; [|done].
    apply decode_byte_next in E1 as [H1 ->]. right. destruct (decode idle bs) as [[p2 t']|] eqn:E; [|done]. injection H as <- <-.
    exists ((b0 - 192) * 64 + (b1 - 128)), bs, t'. set c := (_ * 64 + _). split_and!; [|apply scalar_spec; lia|done|done].
    rewrite /utf8. destruct (Z.ltb_spec c 128); [lia|]. rewrite (proj2 (Z.ltb_lt c 2048)); [lia|].
    cbn [app]. have -> : c / 64 = b0 - 192 by subst c; div_lia. have -> : c mod 64 = b1 - 128 by subst c; div_lia. do 2 f_equal; lia.
  - destruct bs as [|b1 bs]; [injection H as <- <-; by left|]. cbn [decode] in H. destruct (decode_byte _ b1) as [r|] eqn:E1; [|done].
    apply decode_byte_next in E1 as [H1 ->]. destruct bs as [|b2 bs]; [injection H as <- <-; by left|]. cbn [decode] in H.
    destruct (decode_byte _ b2) as [r|] eqn:E2; [|done]. apply decode_byte_next in E2 as [H2 ->].
    right. destruct (decode idle bs) as [[p2 t']|] eqn:E; [|done]. injection H as <- <-.
    exists (((b0 - 224) * 64 + (b1 - 128)) * 64 + (b2 - 128)), bs, t'. set c := (_ * 64 + _).
    have Hc : 2048 ≤ c < 65536 ∧ (c ≤ 55295 ∨ 57344 ≤ c) by subst c; destruct (Z.eqb_spec b0 224), (Z.eqb_spec b0 237); lia.
    split_and!; [|apply scalar_spec; lia|done|done].
    rewrite /utf8. destruct (Z.ltb_spec c 128); [lia|]. destruct (Z.ltb_spec c 2048); [lia|]. rewrite (proj2 (Z.ltb_lt c 65536)); [lia|]. cbn [app].
    have Hb1 : 128 ≤ b1 ≤ 191 by destruct (b0 =? 224), (b0 =? 237); lia.
    have -> : c / 4096 = b0 - 224 by subst c; div_lia. have -> : c / 64 mod 64 = b1 - 128 by subst c; div_lia.
    have -> : c mod 64 = b2 - 128 by subst c; div_lia. do 3 f_equal; lia.
  - destruct bs as [|b1 bs]; [injection H as <- <-; by left|]. cbn [decode] in H. destruct (decode_byte _ b1) as [r|] eqn:E1; [|done].
    apply decode_byte_next in E1 as [H1 ->]. destruct bs as [|b2 bs]; [injection H as <- <-; by left|]. cbn [decode] in H.
    destruct (decode_byte _ b2) as [r|] eqn:E2; [|done]. apply decode_byte_next in E2 as [H2 ->].
    destruct bs as [|b3 bs]; [injection H as <- <-; by left|]. cbn [decode] in H.
    destruct (decode_byte _ b3) as [r|] eqn:E3; [|done]. apply decode_byte_next in E3 as [H3 ->].
    right. destruct (decode idle bs) as [[p2 t']|] eqn:E; [|done]. injection H as <- <-.
    exists ((((b0 - 240) * 64 + (b1 - 128)) * 64 + (b2 - 128)) * 64 + (b3 - 128)), bs, t'. set c := (_ * 64 + _).
    have Hc : 65536 ≤ c ≤ 1114111 by subst c; destruct (Z.eqb_spec b0 240), (Z.eqb_spec b0 244); lia.
    split_and!; [|apply scalar_spec; lia|done|done].
    rewrite /utf8. destruct (Z.ltb_spec c 128); [lia|]. destruct (Z.ltb_spec c 2048); [lia|]. destruct (Z.ltb_spec c 65536); [lia|]. cbn [app].
    have Hb1 : 128 ≤ b1 ≤ 191 by destruct (b0 =? 240), (b0 =? 244); lia.
    have -> : c / 262144 = b0 - 240 by subst c; div_lia. have -> : c / 4096 mod 64 = b1 - 128 by subst c; div_lia.
    have -> : c / 64 mod 64 = b2 - 128 by subst c; div_lia. have -> : c mod 64 = b3 - 128 by subst c; div_lia. do 4 f_equal; lia.
Qed.

(** What was decoded is what the bytes encode, up to the bytes of a character not yet whole. *)
Lemma decode_sound bs p t :
  decode idle bs = Some (p, t) →
  ∃ rest, bs = encode t ++ rest ∧ Forall (λ c, scalar c = true) t ∧ (needed p = O ↔ rest = []) ∧ decode idle rest = Some (p, []).
Proof.
  revert t. remember (length bs) as n eqn:Hn. revert bs Hn. induction (lt_wf n) as [n _ IH]. intros bs -> t H.
  destruct (decode_cases bs p t H) as [(-> & -> & ->)|[(Hne & Hp & ->)|(c & bs' & t' & -> & Hc & -> & H')]].
  - exists []. split_and!; [done|constructor|done|done].
  - exists bs. split_and!; [done|constructor|by split|done].
  - have Hlen := utf8_length c. destruct (IH (length bs') ltac:(rewrite length_app; lia) bs' eq_refl t' H') as (rest & -> & Ht & Hr & Hd).
    exists rest. split_and!; [by rewrite /= app_assoc|by constructor|done|done].
Qed.

(** A stream that ends on a whole character is the encoding of its text. *)
Lemma decode_whole bs p t : decode idle bs = Some (p, t) → needed p = O → bs = encode t ∧ Forall (λ c, scalar c = true) t ∧ p = idle.
Proof.
  intros (rest & -> & Ht & Hr & Hd)%decode_sound Hn. apply Hr in Hn as ->. rewrite app_nil_r. injection Hd as <-. done.
Qed.
