(* ===== verification/Sse.v ===== *)
(** * Sse: the incremental server-sent events decoder

    [SseDecoder] ([protocols/sse.ts]): chunks of bytes go in, records with the byte offset of
    their end come out. Strings are sequences of scalar values: the decoder only produces whole
    characters, and every search, slice and comparison here is on ASCII characters. *)
From Stdlib Require Import ssreflect.
From S2P Require Import Prelude JsString Utf8.

(** ** Data *)

Record SseRecord : Type := mkSse { event : option text; data : text; id : option text }.

Inductive SseError : Type :=
  | stream_closed
  | invalid_utf8
  | stream_buffer_exceeded
  | truncated_stream
  | unsupported_sse_field (field : text).

(** [TextDecoder] with its byte order mark handling: the first character, if it is one, is
    dropped. *)
Record TextDecoder : Type := mkTextDecoder { td_partial : Partial; td_started : bool }.

Record SseDecoder : Type := mkDecoder {
  decoder : TextDecoder;
  maxBufferBytes : Z;
  buffer : text;
  finished : bool;
  consumedBytes : Z;
  prefix : list Z;
}.

Definition new_decoder (maxBufferBytes : Z) : SseDecoder :=
  mkDecoder (mkTextDecoder idle false) maxBufferBytes [] false 0 [].

Definition strip_bom (started : bool) (t : text) : text :=
  match t with
  | c :: t' => if negb started && (c =? 65279) then t' else t
  | [] => []
  end.

(** [decode(chunk, { stream: true })]. *)
Definition decode_stream (d : TextDecoder) (chunk : list Z) : option (TextDecoder * text) :=
  match decode (td_partial d) chunk with
  | Some (p, t) => Some (mkTextDecoder p (td_started d || negb (bool_decide (t = []))), strip_bom (td_started d) t)
  | None => None
  end.

(** [decode()]: the end of the stream; an unfinished character is an error. *)
Definition decode_end (d : TextDecoder) : option text := if (needed (td_partial d) =? 0)%nat then Some [] else None.

(** ** Records *)

(** [/\r\n\r\n|\n\n|\r\r/] at the start: the length of the match. *)
Definition separator_at (s : text) : nat :=
  if startsWith [13; 10; 13; 10] s then 4%nat
  else if startsWith [10; 10] s then 2%nat
  else if startsWith [13; 13] s then 2%nat
  else O.

(** The leftmost match: its index and length. *)
Fixpoint separator (s : text) : option (nat * nat) :=
  match separator_at s with
  | S n => Some (O, S n)
  | O => match s with
         | [] => None
         | _ :: s' => (λ m : nat * nat, (S m.1, m.2)) <$> separator s'
         end
  end.

(** [replaceAll("\r\n", "\n")]. *)
Fixpoint replace_crlf (s : text) : text :=
  match s with
  | c :: (d :: s'') as s' => if (c =? 13) && (d =? 10) then 10 :: replace_crlf s'' else c :: replace_crlf s'
  | _ => s
  end.

(** [replaceAll("\r", "\n")]. *)
Definition replace_cr (s : text) : text := map (λ c, if c =? 13 then 10 else c) s.

Record Fields : Type := mkFields { f_event : option text; f_id : option text; f_data : list text }.

(** One line of a record. *)
Definition parse_line (f : Fields) (line : text) : SseError + Fields :=
  if bool_decide (line = []) || startsWith (js ":") line then inr f
  else
    let '(field, value) :=
      match indexOf (js ":") line with
      | None => (line, [])
      | Some colon => (take colon line, drop (S colon) line)
      end in
    let value := if startsWith (js " ") value then drop 1 value else value in
    if bool_decide (field = js "event") then inr (mkFields (Some value) (f_id f) (f_data f))
    else if bool_decide (field = js "data") then inr (mkFields (f_event f) (f_id f) (f_data f ++ [value]))
    else if bool_decide (field = js "id") && negb (existsb (Z.eqb 0) value) then inr (mkFields (f_event f) (Some value) (f_data f))
    else if negb (bool_decide (field = js "id")) then inl (unsupported_sse_field field)
    else inr f.

Fixpoint parse_lines (f : Fields) (lines : list text) : SseError + Fields :=
  match lines with
  | [] => inr f
  | line :: lines' => match parse_line f line with inl e => inl e | inr f' => parse_lines f' lines' end
  end.

Definition parseRecord (raw : text) : SseError + option SseRecord :=
  match parse_lines (mkFields None None []) (split [10] raw) with
  | inl e => inl e
  | inr f =>
      inr (match f_data f with
           | [] => None
           | _ => Some (mkSse (f_event f) (join [10] (f_data f)) (f_id f))
           end)
  end.

(** ** The decoder *)

Definition buffer_guard (d : SseDecoder) : bool := byteLength (buffer d) <=? maxBufferBytes d.

(** A record with the offset it was observed at. *)
Definition Observed : Type := SseRecord * Z.

(** One frame: its bounds, then its record; the buffer and the offset move past it. *)
Definition take_frame (d : SseDecoder) (at_ len : nat) : SseError + SseDecoder * list Observed :=
  let frame := take (at_ + len) (buffer d) in
  let raw := replace_cr (replace_crlf (take at_ (buffer d))) in
  if maxBufferBytes d <? byteLength raw then inl stream_buffer_exceeded
  else
    let consumed := consumedBytes d + byteLength frame in
    let d' := mkDecoder (decoder d) (maxBufferBytes d) (drop (at_ + len) (buffer d)) (finished d) consumed (prefix d) in
    match parseRecord raw with
    | inl e => inl e
    | inr None => inr (d', [])
    | inr (Some record) => inr (d', [(record, consumed)])
    end.

(** The loop of [#drain]; each turn shortens the buffer, whose length is the fuel. *)
Fixpoint drain_loop (fuel : nat) (d : SseDecoder) (records : list Observed) : SseError + SseDecoder * list Observed :=
  match fuel, separator (buffer d) with
  | S fuel', Some (at_, len) =>
      match take_frame d at_ len with
      | inl e => inl e
      | inr (d', out) => drain_loop fuel' d' (records ++ out)
      end
  | _, _ => inr (d, records)
  end.

Definition drain (final : bool) (d : SseDecoder) : SseError + SseDecoder * list Observed :=
  match drain_loop (length (buffer d)) d [] with
  | inl e => inl e
  | inr (d', records) => if final && negb (bool_decide (buffer d' = [])) then inl truncated_stream else inr (d', records)
  end.

(** The first bytes, and the byte order mark counted among the consumed ones. *)
Definition note_prefix (d : SseDecoder) (chunk : list Z) : list Z * Z :=
  if (length (prefix d) <? 3)%nat then
    let p := prefix d ++ take (3 - length (prefix d)) chunk in
    (p, if bool_decide (p = [239; 187; 191]) then consumedBytes d + 3 else consumedBytes d)
  else (prefix d, consumedBytes d).

Definition push (d : SseDecoder) (chunk : list Z) : SseError + SseDecoder * list Observed :=
  if finished d then inl stream_closed
  else
    let '(p, consumed) := note_prefix d chunk in
    match decode_stream (decoder d) chunk with
    | None => inl invalid_utf8
    | Some (td, t) =>
        match drain false (mkDecoder td (maxBufferBytes d) (buffer d ++ t) false consumed p) with
        | inl e => inl e
        | inr (d', records) => if buffer_guard d' then inr (d', records) else inl stream_buffer_exceeded
        end
    end.

Definition finish (d : SseDecoder) : SseError + SseDecoder * list Observed :=
  if finished d then inr (d, [])
  else
    match decode_end (decoder d) with
    | None => inl invalid_utf8
    | Some t =>
        match drain true (mkDecoder (decoder d) (maxBufferBytes d) (buffer d ++ t) true (consumedBytes d) (prefix d)) with
        | inl e => inl e
        | inr (d', records) => if buffer_guard d' then inr (d', records) else inl stream_buffer_exceeded
        end
    end.

(** ** Streams *)

(** A stream pushed chunk by chunk. *)
Fixpoint push_all (d : SseDecoder) (chunks : list (list Z)) : SseError + SseDecoder * list Observed :=
  match chunks with
  | [] => inr (d, [])
  | chunk :: chunks' =>
      match push d chunk with
      | inl e => inl e
      | inr (d', records) =>
          match push_all d' chunks' with inl e => inl e | inr (d'', more) => inr (d'', records ++ more) end
      end
  end.

(** The records of a whole stream. *)
Definition read_stream (max : Z) (chunks : list (list Z)) : SseError + list Observed :=
  match push_all (new_decoder max) chunks with
  | inl e => inl e
  | inr (d, records) => match finish d with inl e => inl e | inr (_, more) => inr (records ++ more) end
  end.

(** [encodePayload] of [protocols/streams.ts], before the encoding: the event's name, if it has one,
    and the text of its data, which is what [JSON.stringify] gives or [[DONE]]. *)
Definition render_event (e : option text * text) : text :=
  match e.1 with Some name => js "event: " ++ name ++ [10] | None => [] end ++ js "data: " ++ e.2 ++ [10; 10].

(** * Frames of a text *)

(** The specification the decoder is compared with: the text cut at its separators, at once. *)

Lemma startsWith_cut p s b : startsWith p (s ++ b) = true → startsWith p s = true ∨ ∃ k, (k < length p)%nat ∧ s = take k p.
Proof.
  revert s. induction p as [|a p IH]; intros s; cbn [startsWith]; [by left|]. destruct s as [|c s]; cbn [app startsWith].
  - intros _. right. exists O. split; [cbn; lia|done].
  - destruct (Z.eqb_spec a c) as [->|]; cbn [andb]; [|done]. intros [?|(k & Hk & ->)]%IH; [by left|]. right. exists (S k). split; [cbn; lia|done].
Qed.

Lemma separator_unfold s :
  separator s = match separator_at s with
                | S n => Some (O, S n)
                | O => match s with [] => None | _ :: s' => (λ m : nat * nat, (S m.1, m.2)) <$> separator s' end
                end.
Proof. by destruct s. Qed.

Lemma separator_at_app a b n : separator_at a = S n → separator_at (a ++ b) = S n.
Proof.
  rewrite /separator_at. destruct (startsWith [13; 10; 13; 10] a) eqn:E1; [by rewrite (startsWith_app_r _ _ _ E1)|].
  destruct (startsWith [10; 10] a) eqn:E2.
  { apply startsWith_spec in E2 as [t ->]. done. }
  destruct (startsWith [13; 13] a) eqn:E3; [|done]. apply startsWith_spec in E3 as [t ->]. done.
Qed.

(** A separator that only appears with more text is not before one already there. *)
Lemma separator_at_late c a b m : separator_at (c :: a) = O → separator a = Some m → separator_at (c :: a ++ b) = O.
Proof.
  rewrite /separator_at. intros H0 Ha. change (c :: a ++ b) with ((c :: a) ++ b).
  destruct (startsWith [13; 10; 13; 10] (c :: a)) eqn:E1; [done|]. destruct (startsWith [10; 10] (c :: a)) eqn:E2; [done|].
  destruct (startsWith [13; 13] (c :: a)) eqn:E3; [done|].
  have Hno : ∀ p, startsWith p (c :: a) = false → (∀ k, (k < length p)%nat → separator (drop 1 (take k p)) = None) → startsWith p ((c :: a) ++ b) = false.
  { intros p Hp Hk. destruct (startsWith p ((c :: a) ++ b)) eqn:E; [|done]. apply startsWith_cut in E as [?|(k & Hlt & Heq)]; [congruence|].
    have := Hk k Hlt. rewrite -Heq /= drop_0 Ha. done. }
  rewrite (Hno [13; 10; 13; 10]); [exact E1| |rewrite (Hno [10; 10]); [exact E2| |rewrite (Hno [13; 13]); [exact E3| |done]]];
    intros k Hk; cbn [length] in Hk; destruct k as [|[|[|[|k]]]]; try reflexivity; lia.
Qed.

Lemma separator_app a b m : separator a = Some m → separator (a ++ b) = Some m.
Proof.
  revert m. induction a as [|c a IH]; intros m; [done|]. rewrite (separator_unfold (c :: a)) (separator_unfold ((c :: a) ++ b)).
  destruct (separator_at (c :: a)) as [|n] eqn:E.
  - destruct (separator a) as [m'|] eqn:Ea; [|intros H; discriminate H]. cbn [fmap option_fmap option_map]. intros [= <-]. cbn [app].
    by rewrite (separator_at_late c a b m') // (IH m').
  - intros [= <-]. by rewrite (separator_at_app _ b n).
Qed.

Lemma separator_at_bound s n : separator_at s = S n → (S n ≤ length s)%nat.
Proof.
  rewrite /separator_at. destruct (startsWith _ s) eqn:E1; [apply startsWith_spec in E1 as [t ->]; cbn; lia|].
  destruct (startsWith [10; 10] s) eqn:E2; [apply startsWith_spec in E2 as [t ->]; cbn; lia|].
  destruct (startsWith [13; 13] s) eqn:E3; [apply startsWith_spec in E3 as [t ->]; cbn; lia|done].
Qed.

Lemma separator_bound s i n : separator s = Some (i, n) → (2 ≤ n ∧ i + n ≤ length s)%nat.
Proof.
  revert i. induction s as [|c s IH]; intros i; rewrite separator_unfold; destruct (separator_at _) as [|m] eqn:E; [done| |cbn|].
  - intros [= <- <-]. have := separator_at_bound _ _ E. cbn. lia.
  - intros ([i' n'] & Hs & [= -> ->])%fmap_Some. apply IH in Hs. lia.
  - intros [= <- <-]. have := separator_at_bound _ _ E. move: E. rewrite /separator_at. repeat case_match; intros [= <-]; lia.
Qed.

(** The frames of a text (what is before a separator, and the separator) and what is left. *)
Fixpoint scan_go (fuel : nat) (t : text) : list (text * text) * text :=
  match fuel, separator t with
  | S fuel', Some (i, n) =>
      let '(frames, rest) := scan_go fuel' (drop (i + n) t) in ((take i t, take n (drop i t)) :: frames, rest)
  | _, _ => ([], t)
  end.

Definition scan (t : text) : list (text * text) * text := scan_go (length t) t.

Definition frame_text (f : text * text) : text := f.1 ++ f.2.

Lemma scan_go_fuel n m t : (length t ≤ n)%nat → (length t ≤ m)%nat → scan_go n t = scan_go m t.
Proof.
  revert m t. induction n as [|n IH]; intros m t Hn Hm.
  - destruct t; [|cbn in Hn; lia]. by destruct m.
  - destruct m as [|m]; [destruct t; [done|cbn in Hm; lia]|]. cbn [scan_go]. destruct (separator t) as [[i k]|] eqn:E; [|done].
    apply separator_bound in E. rewrite (IH m) //; rewrite length_drop; lia.
Qed.

Lemma scan_unfold t :
  scan t = match separator t with
           | Some (i, n) => let '(frames, rest) := scan (drop (i + n) t) in ((take i t, take n (drop i t)) :: frames, rest)
           | None => ([], t)
           end.
Proof.
  rewrite /scan. destruct t as [|c t]; [done|]. cbn [length scan_go]. destruct (separator (c :: t)) as [[i n]|] eqn:E; [|done].
  apply separator_bound in E. rewrite (scan_go_fuel (length t) (length (drop (i + n) (c :: t)))) //. rewrite length_drop. cbn [length] in *. lia.
Qed.

(** Induction on the frames of a text. *)
Lemma scan_ind (P : list Z → Prop) :
  (∀ t : list Z, separator t = None → P t) → (∀ (t : list Z) i n, separator t = Some (i, n) → P (drop (i + n) t) → P t) → ∀ t : list Z, P t.
Proof.
  intros H0 H1 t. remember (length t) as k eqn:Hk. revert t Hk. induction (lt_wf k) as [k _ IH]. intros t ->.
  destruct (separator t) as [[i n]|] eqn:E; [|by apply H0]. apply (H1 t i n E). apply separator_bound in E as Hb.
  eapply IH; [|done]. rewrite length_drop. lia.
Qed.

Lemma scan_rest (t : list Z) : separator (scan t).2 = None.
Proof.
  induction t as [t H|t i n H IH] using scan_ind; rewrite scan_unfold H //. by destruct (scan (drop (i + n) t)).
Qed.

(** More text only adds frames after those already whole. *)
Lemma scan_app (a b : list Z) : scan (a ++ b) = ((scan a).1 ++ (scan ((scan a).2 ++ b)).1, (scan ((scan a).2 ++ b)).2).
Proof.
  induction a as [a H|a i n H IH] using scan_ind.
  - rewrite (scan_unfold a) H. cbn [fst snd app]. by destruct (scan (a ++ b)).
  - rewrite (scan_unfold a) H. rewrite (scan_unfold (a ++ b)) (separator_app a b _ H). have [_ Hb] := separator_bound a i n H.
    rewrite drop_app_le // IH. destruct (scan (drop (i + n) a)) as [fs r]. cbn [fst snd app].
    rewrite take_app_le; [lia|]. rewrite (drop_app_le a b i); [lia|]. rewrite take_app_le //. rewrite length_drop. lia.
Qed.

Lemma scan_text (t : list Z) : concat (map frame_text (scan t).1) ++ (scan t).2 = t.
Proof.
  induction t as [t H|t i n H IH] using scan_ind; rewrite scan_unfold H //.
  destruct (scan (drop (i + n) t)) as [fs r]. cbn [fst snd map concat] in *. by rewrite /frame_text /= take_take_drop -app_assoc IH take_drop.
Qed.

(** A separator is found within its own text. *)
Lemma separator_cut (s : list Z) i n : separator s = Some (i, n) → separator (take (i + n) s) = Some (i, n).
Proof.
  revert i. induction s as [|c s IH]; intros i; [done|]. rewrite (separator_unfold (c :: s)). destruct (separator_at (c :: s)) as [|m] eqn:E.
  - intros ([i' n'] & Hs & [= -> ->])%fmap_Some. cbn [Nat.add take]. rewrite separator_unfold.
    have -> : separator_at (c :: take (i' + n') s) = O; [|by rewrite (IH i')].
    destruct (separator_at (c :: take (i' + n') s)) as [|m] eqn:E'; [done|]. apply (separator_at_app _ (drop (i' + n') s)) in E'.
    cbn [app] in E'. rewrite take_drop E in E'. done.
  - intros [= <- <-]. move: E. rewrite /separator_at. destruct (startsWith _ _) eqn:E1; [apply startsWith_spec in E1 as [t ->]; by intros [= <-]|].
    destruct (startsWith [10; 10] _) eqn:E2; [apply startsWith_spec in E2 as [t ->]; by intros [= <-]|].
    destruct (startsWith [13; 13] _) eqn:E3; [apply startsWith_spec in E3 as [t ->]; by intros [= <-]|done].
Qed.

(** An unfinished frame is the start of the next one. *)
Lemma scan_rest_prefix r b : separator r = None → (scan (r ++ b)).2 = [] → r = [] ∨ ∃ f fs x, (scan (r ++ b)).1 = f :: fs ∧ frame_text f = r ++ x.
Proof.
  intros Hr. rewrite scan_unfold. destruct (separator (r ++ b)) as [[i n]|] eqn:E.
  - right. destruct (scan (drop (i + n) (r ++ b))) as [fs rest]. eexists _, fs, (drop (length r) (take (i + n) (r ++ b))). split; [done|].
    rewrite /frame_text /=. have [_ Hb] := separator_bound _ _ _ E.
    have Hlen : (length r ≤ i + n)%nat.
    { destruct (decide (length r ≤ i + n)%nat) as [|Hlt]; [done|]. exfalso.
      have Hs := separator_cut _ _ _ E. rewrite take_app_le in Hs; [lia|]. apply (separator_app _ (drop (i + n) r)) in Hs.
      rewrite take_drop Hr in Hs. done. }
    by rewrite take_take_drop take_app_ge // drop_app_length.
  - cbn. intros ?%app_eq_nil. left. by destruct H.
Qed.
