(* ===== verification/SseStream.v ===== *)
(** * SseStream: what the event decoder reads does not depend on the chunks

    [SseDecoder] fed in any pieces reads the same records ([sse_chunking_irrelevant]), the
    offsets it reports cut the stream exactly after a record ([sse_offset_exact]), and it reads
    back what the server writes ([sse_round_trip]). *)
From Stdlib Require Import ssreflect.
From S2P Require Import Prelude JsString Utf8 Sse.

Section Stream.
Context (max : Z).

(** ** The specification: all the frames at once *)

Definition raw_of (f : text * text) : text := replace_cr (replace_crlf f.1).

(** The records of frames that start at an offset. *)
Fixpoint process (at_ : Z) (frames : list (text * text)) : SseError + list Observed :=
  match frames with
  | [] => inr []
  | f :: frames' =>
      if max <? byteLength (raw_of f) then inl stream_buffer_exceeded
      else
        let next := at_ + byteLength (frame_text f) in
        match parseRecord (raw_of f) with
        | inl e => inl e
        | inr r =>
            match process next frames' with
            | inl e => inl e
            | inr out => inr (match r with Some record => (record, next) :: out | None => out end)
            end
        end
  end.

Definition frames_length (frames : list (text * text)) : Z := byteLength (concat (map frame_text frames)).

Lemma frames_length_cons f fs : frames_length (f :: fs) = byteLength (frame_text f) + frames_length fs.
Proof. by rewrite /frames_length /= byteLength_app. Qed.

Lemma process_app at_ a b :
  process at_ (a ++ b) =
  match process at_ a with
  | inl e => inl e
  | inr out => match process (at_ + frames_length a) b with inl e => inl e | inr out' => inr (out ++ out') end
  end.
Proof.
  revert at_. induction a as [|f a IH]; intros at_; cbn [app process].
  - rewrite /frames_length /= Z.add_0_r. by destruct (process at_ b).
  - destruct (_ <? _); [done|]. destruct (parseRecord _) as [e|r]; [done|]. rewrite IH frames_length_cons Z.add_assoc.
    destruct (process _ a) as [e|out]; [done|]. destruct (process _ b) as [e|out']; [done|]. by destruct r.
Qed.

Definition bom (bs : list Z) : Z := if bool_decide (take 3 bs = [239; 187; 191]) then 3 else 0.

(** A whole stream. *)
Definition whole (bs : list Z) : SseError + list Observed :=
  match decode idle bs with
  | None => inl invalid_utf8
  | Some (p, t) =>
      if (needed p =? 0)%nat then
        match process (bom bs) (scan (strip_bom false t)).1 with
        | inl e => inl e
        | inr out => if bool_decide ((scan (strip_bom false t)).2 = []) then inr out else inl truncated_stream
        end
      else inl invalid_utf8
  end.

(** ** The drain loop *)

Definition moved (d : SseDecoder) (b : text) (consumed : Z) : SseDecoder :=
  mkDecoder (decoder d) (maxBufferBytes d) b (finished d) consumed (prefix d).

Lemma drain_loop_scan fuel d records :
  maxBufferBytes d = max → (length (buffer d) ≤ fuel)%nat →
  drain_loop fuel d records =
  match process (consumedBytes d) (scan (buffer d)).1 with
  | inl e => inl e
  | inr out => inr (moved d (scan (buffer d)).2 (consumedBytes d + frames_length (scan (buffer d)).1), records ++ out)
  end.
Proof.
  revert d records. induction fuel as [|fuel IH]; intros d records Hmax Hfuel.
  - destruct d as [td mx b fin c p]. cbn in Hfuel |- *. destruct b; [|cbn in Hfuel; lia]. rewrite /moved /frames_length /= app_nil_r Z.add_0_r //.
  - cbn [drain_loop]. rewrite scan_unfold. destruct (separator (buffer d)) as [[i n]|] eqn:E.
    2:{ rewrite /moved /frames_length /= app_nil_r Z.add_0_r. by destruct d. }
    rewrite /take_frame Hmax. destruct (scan (drop (i + n) (buffer d))) as [fs rest] eqn:Es. cbn [fst snd process].
    rewrite /raw_of /=. destruct (max <? _); [done|]. destruct (parseRecord _) as [e|r]; [done|].
    have [Hn Hb] := separator_bound _ _ _ E. rewrite /frame_text /= take_take_drop frames_length_cons /frame_text /= take_take_drop.
    set d' := mkDecoder _ _ (drop _ _) _ _ _.
    have Hd : ∀ rec, drain_loop fuel d' rec = match process (consumedBytes d') fs with inl e => inl e | inr out => inr (moved d' rest (consumedBytes d' + frames_length fs), rec ++ out) end.
    { intros rec. rewrite IH //; [cbn; rewrite length_drop; lia|]. cbn [buffer d']. by rewrite Es. }
    destruct r as [r|]; rewrite Hd; cbn [consumedBytes d']; (destruct (process _ fs) as [e|out]; [done|]); rewrite Z.add_assoc /moved Hmax.
    + by rewrite -app_assoc.
    + by rewrite app_nil_r.
Qed.

(** ** The state after some bytes *)

(** The decoder has read exactly these bytes. *)
Record reading (bs : list Z) (d : SseDecoder) (out : list Observed) : Prop := {
  rd_text : ∃ p t, decode idle bs = Some (p, t) ∧ decoder d = mkTextDecoder p (negb (bool_decide (t = []))) ∧
    process (bom bs) (scan (strip_bom false t)).1 = inr out ∧ buffer d = (scan (strip_bom false t)).2 ∧
    consumedBytes d = bom bs + frames_length (scan (strip_bom false t)).1;
  rd_max : maxBufferBytes d = max;
  rd_open : finished d = false;
  rd_prefix : prefix d = take 3 bs;
}.

Lemma reading_new : reading [] (new_decoder max) [].
Proof. split; try done. by exists idle, []. Qed.

Lemma strip_app t u : strip_bom false (t ++ u) = strip_bom false t ++ strip_bom (negb (bool_decide (t = []))) u.
Proof. destruct t as [|c t]; [done|]. rewrite (bool_decide_eq_false_2 (c :: t = [])) //=. have -> : strip_bom true u = u by destruct u. by destruct (_ =? _). Qed.

(** The byte order mark is counted once, with nothing consumed before it. *)
Lemma bom_noted bs d out chunk : reading bs d out →
  note_prefix d chunk = (take 3 (bs ++ chunk), bom (bs ++ chunk) + (consumedBytes d - bom bs)).
Proof.
  intros [(p & t & Hd & _ & _ & _ & Hc) _ _ Hp]. rewrite /note_prefix Hp length_take.
  destruct (Nat.ltb_spec (Nat.min 3 (length bs)) 3) as [Hlt|Hge].
  - have Hbs : take 3 bs = bs by apply take_ge; lia. rewrite Hbs /bom Hbs. have -> : Nat.min 3 (length bs) = length bs by lia.
    have -> : bs ++ take (3 - length bs) chunk = take 3 (bs ++ chunk) by rewrite take_app Hbs.
    rewrite (bool_decide_eq_false_2 (bs = _)); [intros ->; cbn in Hlt; lia|]. rewrite Z.sub_0_r. f_equal. destruct (bool_decide _); lia.
  - have Hle : (3 ≤ length bs)%nat by lia. rewrite take_app_le // /bom take_app_le //. f_equal. lia.
Qed.

(** A byte order mark completed by a chunk comes before any text. *)
Lemma bom_stable bs chunk p t : decode idle bs = Some (p, t) → bom (bs ++ chunk) = bom bs ∨ t = [].
Proof.
  intros Hd. rewrite /bom. destruct (decide (3 ≤ length bs)%nat) as [Hle|Hlt]; [rewrite take_app_le //; by left|].
  rewrite (bool_decide_eq_false_2 (take 3 bs = _)). { intros H. have := f_equal length H. rewrite length_take. cbn [length]. intros ?. lia. }
  case_bool_decide as Hb; [right|by left]. destruct bs as [|a [|b [|c bs]]]; [..|cbn in Hlt; lia];
    cbn in Hb; try (injection Hb as -> ->); try (injection Hb as ->); vm_compute in Hd; by injection Hd.
Qed.

(** One more chunk: the decoder moves on, or the specification refuses the longer text too, or
    the buffer is over its bound. *)
Lemma push_reading bs d out chunk :
  reading bs d out →
  match push d chunk with
  | inr (d', more) => reading (bs ++ chunk) d' (out ++ more)
  | inl e =>
      (e = stream_buffer_exceeded ∧ ∃ p t, decode idle (bs ++ chunk) = Some (p, t) ∧ max < byteLength (scan (strip_bom false t)).2) ∨
      ∀ tail, ∃ e, whole (bs ++ chunk ++ tail) = inl e
  end.
Proof.
  intros Hr. have Hnote := bom_noted _ _ _ chunk Hr. destruct Hr as [(p & t & Hd & Htd & Hproc & Hbuf & Hcon) Hmax Hopen Hpre].
  rewrite /push Hopen Hnote /decode_stream Htd /=. have Happ := decode_app idle bs chunk. rewrite Hd in Happ.
  destruct (decode p chunk) as [[p' u]|] eqn:Eu.
  2:{ right. intros tail. exists invalid_utf8. by rewrite /whole app_assoc decode_app Happ. }
  have Hstrip := strip_app t u. set v := strip_bom (negb _) u in Hstrip |- *.
  have Hscan := scan_app (strip_bom false t) v. rewrite -Hstrip -Hbuf in Hscan.
  have Hprev : process (bom (bs ++ chunk)) (scan (strip_bom false t)).1 = inr out.
  { destruct (bom_stable bs chunk p t Hd) as [->| ->]; [done|]. cbn in Hproc |- *. by injection Hproc as <-. }
  have Hall := process_app (bom (bs ++ chunk)) (scan (strip_bom false t)).1 (scan (buffer d ++ v)).1. rewrite Hprev in Hall.
  rewrite /drain drain_loop_scan //. cbn [consumedBytes buffer]. have -> : consumedBytes d - bom bs = frames_length (scan (strip_bom false t)).1 by lia.
  destruct (process _ (scan (buffer d ++ v)).1) as [e|more] eqn:Emore.
  - right. intros tail. rewrite /whole app_assoc decode_app Happ. destruct (decode p' tail) as [[p2 w]|]; [|by eexists].
    destruct (needed p2 =? 0)%nat; [|by eexists]. rewrite strip_app scan_app Hscan. cbn [fst].
    have Herr : process (bom ((bs ++ chunk) ++ tail)) ((scan (strip_bom false t)).1 ++ (scan (buffer d ++ v)).1) = inl e.
    { destruct (bom_stable (bs ++ chunk) tail p' (t ++ u) Happ) as [->|Hnil]; [done|]. rewrite Hnil in Hscan. have := f_equal fst Hscan. cbn [fst]. by intros Hx; rewrite -Hx in Hall. }
    rewrite process_app Herr. by eexists.
  - rewrite andb_false_l /buffer_guard /moved. cbn [buffer maxBufferBytes decoder finished prefix consumedBytes app]. rewrite Hmax.
    destruct (Z.leb_spec (byteLength (scan (buffer d ++ v)).2) max) as [Hle|Hgt].
    + split; try done. exists p', (t ++ u). cbn [decoder buffer consumedBytes]. rewrite Happ Hscan. cbn [fst snd]. split_and!; try done.
      * f_equal. by destruct t.
      * rewrite /frames_length map_app concat_app byteLength_app. lia.
    + left. split; [done|]. exists p', (t ++ u). by rewrite Happ Hscan.
Qed.

(** ** Whole streams *)

Lemma push_all_reading chunks bs d out :
  reading bs d out →
  match push_all d chunks with
  | inr (d', more) => reading (bs ++ concat chunks) d' (out ++ more)
  | inl e =>
      (e = stream_buffer_exceeded ∧ ∃ front tail p t, bs ++ concat chunks = front ++ tail ∧
         decode idle front = Some (p, t) ∧ max < byteLength (scan (strip_bom false t)).2) ∨
      ∃ e, whole (bs ++ concat chunks) = inl e
  end.
Proof.
  revert bs d out. induction chunks as [|chunk chunks IH]; intros bs d out Hr; cbn [push_all concat]; [by rewrite !app_nil_r|].
  have Hp := push_reading bs d out chunk Hr. destruct (push d chunk) as [e|[d' more]].
  - destruct Hp as [(-> & p & t & Hd & Hlt)|Hbad]; [|by right].
    left. split; [done|]. exists (bs ++ chunk), (concat chunks), p, t. by rewrite app_assoc.
  - have := IH _ _ _ Hp. destruct (push_all d' chunks) as [e|[d'' more']]; by rewrite -?app_assoc.
Qed.

(** Nothing is left for [finish] to read. *)
Lemma finish_reading bs d out :
  reading bs d out →
  match finish d with
  | inr (_, more) => more = [] ∧ whole bs = inr out ∧ 0 ≤ max
  | inl e => (e = stream_buffer_exceeded ∧ max < 0) ∨ ∃ e, whole bs = inl e
  end.
Proof.
  intros [(p & t & Hd & Htd & Hproc & Hbuf & Hcon) Hmax Hopen Hpre]. rewrite /finish Hopen /decode_end Htd /whole Hd Hproc. cbn [td_partial].
  destruct (needed p =? 0)%nat; [|right; by eexists]. rewrite app_nil_r /drain drain_loop_scan //. cbn [buffer consumedBytes].
  have Hnone : scan (buffer d) = ([], buffer d) by rewrite scan_unfold Hbuf scan_rest. rewrite Hnone. cbn [fst snd process moved buffer]. rewrite andb_true_l Hbuf.
  destruct (bool_decide ((scan (strip_bom false t)).2 = [])) eqn:Er; cbn [negb]; [|right; by eexists]. apply bool_decide_eq_true in Er as Hr.
  rewrite /buffer_guard /= Hmax.
  have -> : byteLength (scan (strip_bom false t)).2 = 0 by rewrite Hr. destruct (Z.leb_spec 0 max); [done|]. by left.
Qed.

Lemma read_stream_whole chunks out : read_stream max chunks = inr out → whole (concat chunks) = inr out ∧ 0 ≤ max.
Proof.
  rewrite /read_stream. have := push_all_reading chunks [] _ _ reading_new. destruct (push_all _ chunks) as [e|[d more]]; [done|]. cbn [app].
  intros Hr. have := finish_reading _ _ _ Hr. destruct (finish d) as [e|[d' more']]; [done|]. intros (-> & Hw & Hm) [= <-]. by rewrite app_nil_r.
Qed.

Lemma whole_read_stream chunks out :
  whole (concat chunks) = inr out →
  read_stream max chunks = inr out ∨
  read_stream max chunks = inl stream_buffer_exceeded ∧
  (max < 0 ∨ ∃ front tail p t, concat chunks = front ++ tail ∧ decode idle front = Some (p, t) ∧ max < byteLength (scan (strip_bom false t)).2).
Proof.
  intros Hw. rewrite /read_stream. have := push_all_reading chunks [] _ _ reading_new. destruct (push_all _ chunks) as [e|[d more]]; cbn [app].
  - intros [(-> & Hover)|(e' & He')]; [|congruence]. right. split; [done|]. by right.
  - intros Hr. have := finish_reading _ _ _ Hr. destruct (finish d) as [e|[d' more']].
    + intros [(-> & Hneg)|(e' & He')]; [|congruence]. right. split; [done|]. by left.
    + intros (-> & Hw' & _). left. rewrite app_nil_r. congruence.
Qed.
(** One chunk holds the whole stream: nothing is left in the buffer. *)
Lemma read_one bs out : whole bs = inr out → 0 ≤ max → read_stream max [bs] = inr out.
Proof.
  intros Hw Hmax. have Hp := push_reading [] _ _ bs reading_new. rewrite /read_stream /=. cbn [app] in Hp.
  destruct (push (new_decoder max) bs) as [e|[d more]].
  - destruct Hp as [(_ & p & t & Hd & Hlt)|Hbad].
    + move: Hw. rewrite /whole Hd. destruct (_ =? _)%nat; [|done]. destruct (process _ _); [done|]. case_bool_decide as Hr; [|done].
      rewrite Hr in Hlt. change (byteLength []) with 0 in Hlt. lia.
    + destruct (Hbad []) as [e' He']. rewrite app_nil_r in He'. congruence.
  - rewrite app_nil_r. have := finish_reading _ _ _ Hp. destruct (finish d) as [e|[d' more']].
    + intros [(_ & ?)|(e' & He')]; [lia|congruence].
    + intros (-> & Hw' & _). rewrite app_nil_r. congruence.
Qed.

(** The byte order mark is the character the decoder drops. *)
Lemma bom_text t : Forall (λ c, scalar c = true) t → bom (encode t) = byteLength t - byteLength (strip_bom false t).
Proof.
  intros Hs. rewrite /bom. destruct t as [|c t]; [done|]. cbn [strip_bom negb andb]. destruct (Z.eqb_spec c 65279) as [->|Hne].
  - rewrite bool_decide_eq_true_2 //. rewrite byteLength_cons. change (length (utf8 65279)) with 3%nat. lia.
  - rewrite bool_decide_eq_false_2; [|lia]. intros Ht. apply Hne. have := decode_encode _ Hs.
    rewrite -(take_drop 3 (encode (c :: t))) Ht decode_app. change (decode idle [239; 187; 191]) with (Some (idle, [65279])). cbn [app].
    destruct (decode idle _) as [[p u]|]; [|done]. by intros [= _ <- _].
Qed.

(** The frames up to one of them are the frames of the text up to it. *)
Lemma scan_front fa fb r t : scan t = (fa ++ fb, r) → scan (concat (map frame_text fa)) = (fa, []).
Proof.
  revert t. induction fa as [|f fa IH]; intros t Hs; [done|]. rewrite scan_unfold in Hs. destruct (separator t) as [[i n]|] eqn:E; [|done].
  destruct (scan (drop (i + n) t)) as [fs rest] eqn:Es. injection Hs as <- -> ->. have HA := IH _ Es. have [Hn Hb] := separator_bound _ _ _ E.
  cbn [map concat]. have -> : frame_text (take i t, take n (drop i t)) = take (i + n) t by rewrite /frame_text /= take_take_drop.
  set A := concat (map frame_text fa) in HA |- *. rewrite scan_unfold (separator_app _ A (i, n)); [by apply separator_cut|].
  have Hlen : length (take (i + n) t) = (i + n)%nat by rewrite length_take; lia.
  rewrite drop_app_length' // HA. f_equal. f_equal. f_equal.
  - rewrite take_app_le; [lia|]. rewrite take_take. f_equal. lia.
  - rewrite drop_app_le; [lia|]. rewrite take_app_le; [rewrite length_drop; lia|]. rewrite -take_drop_commute take_take. f_equal. lia.
Qed.

(** The frame a record comes from. *)
Lemma process_split at_ frames out i r o :
  process at_ frames = inr out → out !! i = Some (r, o) →
  ∃ fa fb, frames = fa ++ fb ∧ process at_ fa = inr (take (S i) out) ∧ o = at_ + frames_length fa.
Proof.
  revert at_ out i. induction frames as [|f frames IH]; intros at_ out i; cbn [process]; [by intros [= <-]|].
  destruct (max <? _) eqn:Em; [done|]. destruct (parseRecord _) as [e|rec] eqn:Ep; [done|]. destruct (process _ frames) as [e|out'] eqn:Eo; [done|].
  intros [= <-]. set next := at_ + _ in Eo |- *.
  have Hmore : ∀ j, out' !! j = Some (r, o) → ∃ fa fb, f :: frames = fa ++ fb ∧
    process at_ fa = inr (match rec with Some record => [(record, next)] | None => [] end ++ take (S j) out') ∧ o = at_ + frames_length fa.
  { intros j Hj. destruct (IH next out' j Eo Hj) as (fa & fb & -> & Hp & ->). exists (f :: fa), fb. split_and!; [done| |].
    - cbn [process]. rewrite Em Ep -/next Hp. by destruct rec.
    - rewrite frames_length_cons /next. lia. }
  destruct rec as [rec|]; [|apply Hmore]. destruct i as [|i]; [|apply Hmore]. cbn. intros [= -> <-]. exists [f], frames. split_and!; [done| |].
  - cbn [process]. by rewrite Em Ep take_0.
  - rewrite frames_length_cons /next. change (frames_length []) with 0. lia.
Qed.
End Stream.

(** ** Theorems *)

(** C22. How a stream is cut into chunks does not matter. If one way of feeding the bytes to
    [SseDecoder] reads records to the end, every other way reads the same records at the same
    offsets, or stops at the buffer bound (a bound on the chunk's unfinished event, the only part
    of the outcome that depends on the cuts). *)
Theorem sse_chunking_irrelevant max chunks chunks' out :
  concat chunks = concat chunks' → read_stream max chunks = inr out →
  read_stream max chunks' = inr out ∨ read_stream max chunks' = inl stream_buffer_exceeded.
Proof.
  intros Heq [Hw _]%read_stream_whole. rewrite Heq in Hw. destruct (whole_read_stream max chunks' out Hw) as [?|[? _]]; auto.
Qed.

(** C?. The reported offsets are exact: cutting the stream at the offset reported with a record
    leaves a whole stream (no event is split, a byte order mark included) that reads exactly the
    records up to that one. *)
Theorem sse_offset_exact max chunks out i r o :
  read_stream max chunks = inr out → out !! i = Some (r, o) →
  0 ≤ o ≤ Z.of_nat (length (concat chunks)) ∧ read_stream max [take (Z.to_nat o) (concat chunks)] = inr (take (S i) out).
Proof.
  intros [Hw Hmax]%read_stream_whole Hi. set bs := concat chunks in Hw |- *. move: Hw. rewrite /whole.
  destruct (decode idle bs) as [[p t]|] eqn:Ed; [|done]. destruct (Nat.eqb_spec (needed p) 0) as [Hp|]; [|done].
  destruct (process max (bom bs) _) as [e|out'] eqn:Eo; [done|]. case_bool_decide as Hr; [|done]. intros [= ->].
  destruct (decode_whole bs p t Ed Hp) as (Hbs & Hs & _). destruct (process_split _ _ _ _ _ _ _ Eo Hi) as (fa & fb & Hf & Hpa & ->).
  destruct (scan (strip_bom false t)) as [fs rest] eqn:Es. cbn [fst snd] in Hf, Hr. subst fs rest.
  have HA := scan_front _ _ _ _ Es. have Htext := scan_text (strip_bom false t). rewrite Es map_app concat_app app_nil_r in Htext. cbn [fst] in Htext.
  remember (concat (map frame_text fa)) as A eqn:HAeq. remember (concat (map frame_text fb)) as B eqn:HBeq.
  (* the characters up to the frame, the byte order mark included *)
  have [pre [Hpre Hstrip]] : ∃ pre, t = pre ++ A ++ B ∧ strip_bom false (pre ++ A) = A.
  { destruct t as [|c t]; [apply app_eq_nil in Htext as [-> ->]; by exists []|]. cbn [strip_bom negb andb] in Htext.
    destruct (Z.eqb_spec c 65279) as [->|Hne]; [exists [65279]; by rewrite Htext|]. exists []. split; [done|]. cbn [app]. destruct A as [|a A']; [done|].
    cbn [app] in Htext. injection Htext as -> _. cbn. by rewrite (proj2 (Z.eqb_neq c 65279)). }
  have HsA : Forall (λ c, scalar c = true) (pre ++ A) by move: Hs; rewrite Hpre app_assoc; intros [? _]%Forall_app.
  have Hlen : bom bs + frames_length fa = byteLength (pre ++ A).
  { rewrite Hbs bom_text // -Htext Hpre !byteLength_app /frames_length -HAeq. lia. }
  have Hcut : take (Z.to_nat (byteLength (pre ++ A))) bs = encode (pre ++ A).
  { by rewrite Hbs Hpre app_assoc encode_app /byteLength Nat2Z.id take_app_length. }
  have Hbom : bom (encode (pre ++ A)) = bom bs.
  { rewrite !bom_text // Hstrip. rewrite Hbs bom_text // -Htext Hpre !byteLength_app. lia. }
  rewrite Hlen Hcut. split.
  - rewrite Hbs Hpre app_assoc encode_app length_app /byteLength. lia.
  - apply read_one; [|done]. rewrite /whole decode_encode //. cbn [needed idle Nat.eqb]. by rewrite Hstrip HA Hbom Hpa.
Qed.

(** ** Reading what was written *)

(** Every event fits the buffer: no way of cutting the stream is over the bound. *)
Lemma bounded_accepted max chunks out t p :
  whole max (concat chunks) = inr out → 0 ≤ max → decode idle (concat chunks) = Some (p, t) →
  (∀ f, In f (scan (strip_bom false t)).1 → byteLength (frame_text f) ≤ max) → read_stream max chunks = inr out.
Proof.
  intros Hw Hmax Hd Hf. destruct (whole_read_stream max chunks out Hw) as [?|[_ [?|(front & tail & p0 & t0 & Hcat & Hd0 & Hlt)]]]; [done|lia|].
  exfalso. move: Hw. rewrite /whole Hd. destruct (_ =? _)%nat; [|done]. destruct (process _ _ _); [done|]. case_bool_decide as Hr; [|done]. intros _.
  move: Hd. rewrite Hcat decode_app Hd0. destruct (decode p0 tail) as [[p1 t1]|]; [|done]. intros [= -> <-].
  rewrite strip_app in Hr Hf. set u := strip_bom _ t1 in Hr Hf. rewrite scan_app in Hr Hf. cbn [fst snd] in Hr, Hf.
  destruct (scan_rest_prefix _ u (scan_rest (strip_bom false t0)) Hr) as [Hnil|(f & fs & x & Hfs & Hft)].
  - rewrite Hnil in Hlt. change (byteLength []) with 0 in Hlt. lia.
  - have := Hf f. rewrite in_app_iff Hfs Hft byteLength_app. have := byteLength_nonneg x. intros ? H. have := H (or_intror (or_introl eq_refl)). lia.
Qed.

(** A line: neither a line feed nor a carriage return. *)
Definition line (w : text) : Prop := Forall (λ c, scalar c = true ∧ c ≠ 10 ∧ c ≠ 13) w.

Definition event_ok (e : option text * text) : Prop := (∀ name, e.1 = Some name → line name) ∧ line e.2.

(** The event before its separator. *)
Definition event_body (e : option text * text) : text :=
  match e.1 with Some name => js "event: " ++ name ++ [10] | None => [] end ++ js "data: " ++ e.2.

Definition event_record (e : option text * text) : SseRecord := mkSse e.1 e.2 None.

(** The records of the events, each at the offset of its end. *)
Fixpoint records_at (at_ : Z) (es : list (option text * text)) : list Observed :=
  match es with
  | [] => []
  | e :: es' => let next := at_ + byteLength (render_event e) in (event_record e, next) :: records_at next es'
  end.

Lemma ascii_line s : forallb (λ c, scalar c && negb (c =? 10) && negb (c =? 13)) (js s) = true → line (js s).
Proof.
  rewrite forallb_forall. intros H. apply List.Forall_forall. intros c Hc. have := H c Hc. rewrite !andb_true_iff !negb_true_iff !Z.eqb_neq. tauto.
Qed.

Lemma separator_at_other c s : c ≠ 10 → c ≠ 13 → separator_at (c :: s) = O.
Proof. intros H1 H2. rewrite /separator_at. cbn [startsWith]. by rewrite !(proj2 (Z.eqb_neq _ c)). Qed.

Lemma separator_line w s : line w → separator (w ++ s) = (λ m : nat * nat, ((length w + m.1)%nat, m.2)) <$> separator s.
Proof.
  induction 1 as [|c w (_ & H1 & H2) _ IH]; cbn [app length Nat.add]; [by destruct (separator s) as [[? ?]|]|].
  rewrite separator_unfold separator_at_other // IH. by destruct (separator s).
Qed.

Lemma separator_event e s : event_ok e → separator (event_body e ++ 10 :: 10 :: s) = Some (length (event_body e), 2%nat).
Proof.
  intros [Hname Hdata]. have Hd : line (js "data: " ++ e.2) by apply Forall_app; split; [by apply ascii_line|done].
  have Hlast : separator ((js "data: " ++ e.2) ++ 10 :: 10 :: s) = Some (length (js "data: " ++ e.2), 2%nat) by rewrite separator_line // separator_unfold /= Nat.add_0_r.
  rewrite /event_body. destruct e.1 as [name|]; [|done].
  have -> : ((js "event: " ++ name ++ [10]) ++ js "data: " ++ e.2) ++ 10 :: 10 :: s = (js "event: " ++ name) ++ ([10] ++ (js "data: " ++ e.2) ++ 10 :: 10 :: s)
    by rewrite -!app_assoc.
  rewrite separator_line; [apply Forall_app; split; [by apply ascii_line|by apply Hname]|].
  rewrite separator_unfold. have -> : separator_at ([10] ++ (js "data: " ++ e.2) ++ 10 :: 10 :: s) = O by done. cbn [app].
  rewrite Hlast. cbn. by rewrite !length_app /= -!Nat.add_assoc.
Qed.

Lemma crlf_other c s : c ≠ 13 → replace_crlf (c :: s) = c :: replace_crlf s.
Proof. intros H. destruct s as [|d s]; [done|]. by rewrite /= (proj2 (Z.eqb_neq c 13)). Qed.

Lemma crlf_none w : Forall (λ c, c ≠ 13) w → replace_crlf w = w.
Proof. induction 1 as [|c w Hc _ IH]; [done|]. by rewrite crlf_other // IH. Qed.

Lemma raw_body w : Forall (λ c, c ≠ 13) w → replace_cr (replace_crlf w) = w.
Proof.
  intros H. rewrite crlf_none // /replace_cr -{2}(map_id w). apply map_ext_in. intros c Hc.
  rewrite List.Forall_forall in H. by rewrite (proj2 (Z.eqb_neq c 13)); [apply H|].
Qed.

Lemma line_not_cr w : line w → Forall (λ c, c ≠ 13) w.
Proof. rewrite /line !List.Forall_forall. intros H c Hc. by apply H. Qed.

Lemma line_not_lf w : line w → ∀ d, In d w → d ≠ 10.
Proof. rewrite /line List.Forall_forall. intros H d Hd. by apply H. Qed.

Lemma line_scalars w : line w → Forall (λ c, scalar c = true) w.
Proof. rewrite /line !List.Forall_forall. intros H c Hc. by apply H. Qed.

Lemma render_scalars e : event_ok e → Forall (λ c, scalar c = true) (render_event e).
Proof.
  intros [Hname Hdata]. rewrite /render_event. repeat apply Forall_app_2; try (by apply line_scalars, ascii_line); [|by apply line_scalars|by repeat constructor].
  destruct e.1 as [name|]; [|constructor]. repeat apply Forall_app_2; [by apply line_scalars, ascii_line|by apply line_scalars, Hname|by constructor].
Qed.

Lemma event_body_not_cr e : event_ok e → Forall (λ c, c ≠ 13) (event_body e).
Proof.
  intros [Hname Hdata]. rewrite /event_body. apply Forall_app. split; [|apply Forall_app; split; [by apply line_not_cr, ascii_line|by apply line_not_cr]].
  destruct e.1 as [name|]; [|constructor]. apply Forall_app. split; [by apply line_not_cr, ascii_line|]. apply Forall_app. split; [by apply line_not_cr, Hname|].
  by constructor.
Qed.

Lemma parse_event e : event_ok e → parseRecord (event_body e) = inr (Some (event_record e)).
Proof.
  intros [Hname Hdata]. have Hd : ∀ c, In c (js "data: " ++ e.2) → c ≠ 10.
  { apply line_not_lf, Forall_app. split; [by apply ascii_line|done]. }
  rewrite /parseRecord /event_body /event_record. destruct e.1 as [name|] eqn:Ee.
  - have -> : (js "event: " ++ name ++ [10]) ++ js "data: " ++ e.2 = join [10] [js "event: " ++ name; js "data: " ++ e.2] by rewrite /= -!app_assoc.
    rewrite split_join_char //. intros s d [<-|[<-|[]]] Hin; [|by apply Hd]. move: Hin. apply line_not_lf, Forall_app. split; [by apply ascii_line|by apply Hname].
  - cbn [app]. change (js "data: " ++ e.2) with (join [10] [js "data: " ++ e.2]). rewrite split_join_char //. by intros s d [<-|[]]; apply Hd.
Qed.

Lemma render_body e : render_event e = frame_text (event_body e, [10; 10]).
Proof. by rewrite /render_event /frame_text /event_body /= -!app_assoc. Qed.

(** The frames of written events are the events. *)
Lemma scan_events es : Forall event_ok es → scan (concat (map render_event es)) = (map (λ e, (event_body e, [10; 10])) es, []).
Proof.
  induction 1 as [|e es He _ IH]; [done|]. cbn [map concat]. rewrite render_body /frame_text /= -app_assoc. cbn [app].
  rewrite scan_unfold separator_event // drop_app_add' //. cbn [drop]. rewrite IH. rewrite take_app_length drop_app_length. done.
Qed.

Lemma process_events max at_ es :
  Forall event_ok es → Forall (λ e, byteLength (render_event e) ≤ max) es →
  process max at_ (map (λ e, (event_body e, [10; 10])) es) = inr (records_at at_ es).
Proof.
  intros Hes. revert at_. induction Hes as [|e es He _ IH]; intros at_ Hlen; [done|]. apply Forall_cons in Hlen as [Hle Hlen].
  cbn [map process records_at]. rewrite /raw_of /= raw_body; [by apply event_body_not_cr|]. rewrite render_body in Hle |- *.
  have Hraw : byteLength (event_body e) ≤ max by move: Hle; rewrite /frame_text /= byteLength_app; have := byteLength_nonneg [10; 10]; lia.
  rewrite (proj2 (Z.ltb_ge _ _)) // parse_event // IH //.
Qed.

(** C33. The decoder reads back what the server's stream writer writes: events whose name and data
    text have no line break (the protocols' names and the text of [JSON.stringify] never do), each no
    longer than the buffer bound, written one after another and cut into chunks in any way (inside
    a character or a separator too), read as exactly those events, each at the offset where it
    ends. *)
Theorem sse_round_trip max es chunks :
  0 ≤ max → Forall event_ok es → Forall (λ e, byteLength (render_event e) ≤ max) es →
  concat chunks = encode (concat (map render_event es)) → read_stream max chunks = inr (records_at 0 es).
Proof.
  intros Hmax Hes Hlen Hcat. set t := concat (map render_event es) in Hcat.
  have Hs : Forall (λ c, scalar c = true) t.
  { rewrite /t. clear -Hes. induction Hes as [|e es He _ IH]; cbn [map concat]; [constructor|]. apply Forall_app. split; [by apply render_scalars|done]. }
  have Hstrip : strip_bom false t = t by destruct es as [|[[name|] d] es].
  have Hd := decode_encode t Hs. rewrite -Hcat in Hd. apply (bounded_accepted max chunks _ t idle); [|done|done|].
  - rewrite /whole Hd. cbn [needed idle Nat.eqb]. rewrite Hstrip scan_events //= process_events //=.
    rewrite Hcat bom_text // Hstrip Z.sub_diag. done.
  - rewrite Hstrip scan_events //=. intros f (e & <- & He)%in_map_iff. rewrite -render_body. rewrite List.Forall_forall in Hlen. by apply Hlen.
Qed.
