(* ===== verification/RelayFrames.v ===== *)
(** * RelayFrames: the binary frames of the relay

    [encodeRelayBinaryFrame], [splitBinaryFrame] and [parseRelayBinaryFrame]
    ([relay/protocol.ts]): a 4-byte big-endian metadata length, the metadata as JSON text, the
    body. JSON and the frame schemas are parameters. *)
From Stdlib Require Import ssreflect.
From S2P Require Import Prelude JsString Utf8 Sse.

Definition RELAY_JSON_CONTROL_MAX_BYTES : Z := 64 * 1024.
Definition RELAY_BINARY_CHUNK_MAX_BYTES : Z := 1024 * 1024.
Definition STT_AUDIO_FRAME_MAX_BYTES : Z := 32 * 1024.

Inductive RelayError : Type :=
  | body_too_large
  | metadata_refused
  | stt_audio_refused
  | metadata_too_large
  | missing_length
  | invalid_length
  | not_well_formed
  | not_json
  | schema_refused.

(** [setUint32(0, n, false)] and [getUint32(0, false)]. *)
Definition setUint32 (n : Z) : list Z := [n / 16777216 mod 256; n / 65536 mod 256; n / 256 mod 256; n mod 256].

Definition getUint32 (bs : list Z) : Z :=
  match bs with b0 :: b1 :: b2 :: b3 :: _ => ((b0 * 256 + b1) * 256 + b2) * 256 + b3 | _ => 0 end.

Definition sttAudioBodyValid (bytes : Z) : bool := (0 <? bytes) && (bytes <=? STT_AUDIO_FRAME_MAX_BYTES) && (bytes mod 2 =? 0).

(** [new TextDecoder().decode]: an error becomes U+FFFD and the byte that broke a character is
    read again; the byte order mark is dropped. *)
Definition lossy_byte (p : Partial) (b : Z) : Partial * text :=
  match decode_byte p b with
  | Some r => r
  | None =>
      match needed p with
      | O => (idle, [65533])
      | S _ => match decode_byte idle b with Some (p', out) => (p', 65533 :: out) | None => (idle, [65533; 65533]) end
      end
  end.

Fixpoint lossy_go (p : Partial) (bs : list Z) : text :=
  match bs with
  | [] => match needed p with O => [] | S _ => [65533] end
  | b :: bs' => let '(p', out) := lossy_byte p b in out ++ lossy_go p' bs'
  end.

Definition decode_lossy (bs : list Z) : text := strip_bom false (lossy_go idle bs).

Section Codec.
(** A frame's metadata; [isSttAudio] is [metadata.type === "stt.audio"]. *)
Context {Metadata NodeMetadata Json : Type}.
Context (isSttAudio : Metadata → bool).
(** [serverToNodeBinaryMetadataSchema.safeParse(metadata).success]. *)
Context (serverMetadataValid : Metadata → bool).
(** [stringifyWellFormed]: [None] when a string of the metadata has an unpaired surrogate. *)
Context (stringifyWellFormed : Metadata → option text).
(** [JSON.parse], and [nodeToServerBinaryMetadataSchema.parse]. *)
Context (json_parse : text → option Json) (nodeMetadata : Json → option NodeMetadata).

Definition encodeRelayBinaryFrame (metadata : Metadata) (body : list Z) : RelayError + list Z :=
  let bodyLength := Z.of_nat (length body) in
  if RELAY_BINARY_CHUNK_MAX_BYTES <? bodyLength then inl body_too_large
  else if negb (serverMetadataValid metadata) then inl metadata_refused
  else if isSttAudio metadata && negb (sttAudioBodyValid bodyLength) then inl stt_audio_refused
  else
    match stringifyWellFormed metadata with
    | None => inl not_well_formed
    | Some t =>
        let metadataBytes := encode t in
        if RELAY_JSON_CONTROL_MAX_BYTES <? Z.of_nat (length metadataBytes) then inl metadata_too_large
        else inr (setUint32 (Z.of_nat (length metadataBytes)) ++ metadataBytes ++ body)
    end.

Definition splitBinaryFrame (frame : list Z) : RelayError + text * list Z :=
  if Z.of_nat (length frame) <? 4 then inl missing_length
  else
    let metadataLength := getUint32 frame in
    if RELAY_JSON_CONTROL_MAX_BYTES <? metadataLength then inl metadata_too_large
    else
      let bodyLength := Z.of_nat (length frame) - 4 - metadataLength in
      if bodyLength <? 0 then inl invalid_length
      else if RELAY_BINARY_CHUNK_MAX_BYTES <? bodyLength then inl body_too_large
      else
        let rest := drop 4 frame in
        inr (decode_lossy (take (Z.to_nat metadataLength) rest), drop (Z.to_nat metadataLength) rest).

Definition parseRelayBinaryFrame (frame : list Z) : RelayError + NodeMetadata * list Z :=
  match splitBinaryFrame frame with
  | inl e => inl e
  | inr (metadataText, body) =>
      match json_parse metadataText with
      | None => inl not_json
      | Some json => match nodeMetadata json with None => inl schema_refused | Some metadata => inr (metadata, body) end
      end
  end.
End Codec.

(** * Lemmas *)

Lemma getUint32_set n rest : 0 ≤ n < 2 ^ 32 → getUint32 (setUint32 n ++ rest) = n.
Proof. intros H. rewrite /setUint32. cbn [app getUint32]. div_lia. Qed.

Lemma setUint32_get frame :
  (4 ≤ length frame)%nat → Forall byte frame → setUint32 (getUint32 frame) = take 4 frame ∧ 0 ≤ getUint32 frame < 2 ^ 32.
Proof.
  destruct frame as [|b0 [|b1 [|b2 [|b3 frame]]]]; cbn [length]; [lia..|]. intros _ Hb.
  have H : byte b0 ∧ byte b1 ∧ byte b2 ∧ byte b3 by rewrite !Forall_cons in Hb; tauto.
  rewrite /byte in H. cbn [getUint32 take]. rewrite take_0 /setUint32. split; [|lia]. f_equal; [div_lia|f_equal; [div_lia|f_equal; [div_lia|f_equal; div_lia]]].
Qed.

(** Where the strict decoder reads, the lenient one reads the same. *)
Lemma lossy_decode p bs q t : decode p bs = Some (q, t) → needed q = O → lossy_go p bs = t.
Proof.
  revert p t. induction bs as [|b bs IH]; intros p t; cbn [decode lossy_go].
  - intros [= <- <-] Hq. by rewrite Hq.
  - rewrite /lossy_byte. destruct (decode_byte p b) as [[p' out]|]; [|done]. destruct (decode p' bs) as [[p'' rest]|] eqn:E; [|done].
    intros [= <- <-] Hq. by rewrite (IH p' rest).
Qed.

Lemma decode_lossy_encode t : Forall (λ c, scalar c = true) t → decode_lossy (encode t) = strip_bom false t.
Proof. intros Ht. by rewrite /decode_lossy (lossy_decode idle _ idle t (decode_encode t Ht)). Qed.

(** * Theorems *)

(** C?. Frames read back exactly: whatever metadata and body [encodeRelayBinaryFrame] accepts,
    the frame it builds splits into the metadata's JSON text and the same body, byte for byte. *)
Theorem relay_frame_round_trip {Metadata} isSttAudio serverMetadataValid (stringify : Metadata → option text) m t body frame :
  stringify m = Some t → Forall (λ c, scalar c = true) t → head t = Some 123 →
  encodeRelayBinaryFrame isSttAudio serverMetadataValid stringify m body = inr frame →
  splitBinaryFrame frame = inr (t, body).
Proof.
  intros Hm Ht Hhead. rewrite /encodeRelayBinaryFrame Hm. destruct (Z.ltb_spec RELAY_BINARY_CHUNK_MAX_BYTES (Z.of_nat (length body))) as [|Hbody]; [done|].
  destruct (negb _); [done|]. destruct (_ && _); [done|]. set meta := encode t.
  destruct (Z.ltb_spec RELAY_JSON_CONTROL_MAX_BYTES (Z.of_nat (length meta))) as [|Hmeta]; [done|]. intros [= <-].
  rewrite /RELAY_BINARY_CHUNK_MAX_BYTES /RELAY_JSON_CONTROL_MAX_BYTES in Hbody, Hmeta. rewrite /splitBinaryFrame getUint32_set; [lia|].
  have Hlen : length (setUint32 (Z.of_nat (length meta)) ++ meta ++ body) = (4 + length meta + length body)%nat by rewrite !length_app.
  rewrite Hlen. destruct (Z.ltb_spec (Z.of_nat (4 + length meta + length body)) 4); [lia|]. rewrite (proj2 (Z.ltb_ge _ _)); [rewrite /RELAY_JSON_CONTROL_MAX_BYTES; lia|].
  rewrite (proj2 (Z.ltb_ge _ 0)); [lia|]. rewrite (proj2 (Z.ltb_ge RELAY_BINARY_CHUNK_MAX_BYTES _)); [rewrite /RELAY_BINARY_CHUNK_MAX_BYTES; lia|].
  rewrite Nat2Z.id. change (drop 4 (setUint32 (Z.of_nat (length meta)) ++ meta ++ body)) with (meta ++ body).
  rewrite take_app_length drop_app_length /meta decode_lossy_encode //. destruct t as [|c t]; [done|]. cbn in Hhead. by injection Hhead as ->.
Qed.

(** C35. Which frames are accepted: [splitBinaryFrame] answers exactly for a frame that is a
    4-byte length, that many bytes (at most 64 KiB) and a body of at most 1 MiB; the parts it
    returns are those; and no shorter, longer or lying frame is read past its end. *)
Theorem relay_frame_split_exact frame t body :
  Forall byte frame →
  splitBinaryFrame frame = inr (t, body) ↔
  ∃ meta, frame = setUint32 (Z.of_nat (length meta)) ++ meta ++ body ∧ t = decode_lossy meta ∧
          Z.of_nat (length meta) ≤ RELAY_JSON_CONTROL_MAX_BYTES ∧ Z.of_nat (length body) ≤ RELAY_BINARY_CHUNK_MAX_BYTES.
Proof.
  intros Hb. rewrite /splitBinaryFrame. split.
  - destruct (Z.ltb_spec (Z.of_nat (length frame)) 4); [done|]. destruct (setUint32_get frame ltac:(lia) Hb) as [Hset Hrange].
    set n := getUint32 frame in Hset Hrange |- *. destruct (Z.ltb_spec RELAY_JSON_CONTROL_MAX_BYTES n); [done|].
    destruct (Z.ltb_spec (Z.of_nat (length frame) - 4 - n) 0); [done|]. destruct (Z.ltb_spec RELAY_BINARY_CHUNK_MAX_BYTES (Z.of_nat (length frame) - 4 - n)); [done|].
    intros [= <- <-]. exists (take (Z.to_nat n) (drop 4 frame)).
    have Hlen : Z.of_nat (length (take (Z.to_nat n) (drop 4 frame))) = n by rewrite length_take length_drop; lia.
    rewrite Hlen Hset take_drop take_drop. split_and!; [done|done|lia|]. rewrite !length_drop. lia.
  - intros (meta & -> & -> & Hm & Hbody). rewrite /RELAY_JSON_CONTROL_MAX_BYTES /RELAY_BINARY_CHUNK_MAX_BYTES in Hm, Hbody |- *. rewrite getUint32_set; [lia|].
    have Hlen : length (setUint32 (Z.of_nat (length meta)) ++ meta ++ body) = (4 + length meta + length body)%nat by rewrite !length_app.
    rewrite Hlen. rewrite !(proj2 (Z.ltb_ge _ _)); [lia..|].
    rewrite Nat2Z.id. change (drop 4 (setUint32 (Z.of_nat (length meta)) ++ meta ++ body)) with (meta ++ body). by rewrite take_app_length drop_app_length.
Qed.
