(* ===== verification/ProviderEgress.v ===== *)
(** * ProviderEgress: which addresses a provider request may reach

    [packages/api/src/lib/provider-egress.ts]: the classification of resolved addresses, the
    checks of a provider URL, the headers that go out, and the DNS answers a connection may use.
    Node's [isIP] and the URL parser are parameters; 32-bit operations wrap as JavaScript's. *)
From Stdlib Require Import ssreflect.
From S2P Require Import Prelude JsString IpLiteral.

(** ** 32-bit integers *)

(** [ToInt32], [x << n], [x >>> 0]. *)
Definition int32 (x : Z) : Z := (x + 2 ^ 31) mod 2 ^ 32 - 2 ^ 31.
Definition shl32 (x n : Z) : Z := int32 (int32 x * 2 ^ n).
Definition uint32 (x : Z) : Z := x mod 2 ^ 32.
Definition and32 (x y : Z) : Z := Z.land (int32 x) (int32 y).

(** ** Text of addresses *)

Definition toLowerCase (s : jstr) : jstr := map (λ c, if is_upper c then c + 32 else c) s.

Definition includes_char (c : Z) (s : jstr) : bool := existsb (Z.eqb c) s.

(** [s.lastIndexOf(c)], for a character. *)
Fixpoint lastIndexOf (c : Z) (s : jstr) : option nat :=
  match s with
  | [] => None
  | d :: s' =>
      match lastIndexOf c s' with
      | Some i => Some (S i)
      | None => if d =? c then Some O else None
      end
  end.

Definition ipv4Number (address : jstr) : Z :=
  uint32 (fold_left (λ value octet, shl32 value 8 + parse_digits 10 octet) (split (js ".") address) 0).

Definition stripIpBrackets (address : jstr) : jstr :=
  let withoutZone := default [] (split (js "%") address !! 0%nat) in
  if startsWith (js "[") withoutZone && bool_decide (last withoutZone = Some 93)
  then drop 1 (take (length withoutZone - 1) withoutZone)
  else withoutZone.

(** ** Classification *)

Definition ipv4_special : list (jstr * Z) :=
  [(js "0.0.0.0", 8); (js "10.0.0.0", 8); (js "100.64.0.0", 10); (js "127.0.0.0", 8); (js "169.254.0.0", 16);
   (js "172.16.0.0", 12); (js "192.0.0.0", 24); (js "192.0.2.0", 24); (js "192.88.99.2", 32); (js "192.168.0.0", 16);
   (js "198.18.0.0", 15); (js "198.51.100.0", 24); (js "203.0.113.0", 24); (js "224.0.0.0", 4); (js "240.0.0.0", 4)].

Definition in_range4 (value : Z) (base : jstr) (bits : Z) : bool :=
  let mask := if bits =? 0 then 0 else uint32 (shl32 4294967295 (32 - bits)) in
  and32 value mask =? and32 (ipv4Number base) mask.

Definition bytesInPrefix (bytes prefix : list Z) (bits : Z) : bool :=
  let wholeBytes := Z.to_nat (bits / 8) in
  let remaining := bits mod 8 in
  forallb (λ i, default 0 (bytes !! i) =? default 0 (prefix !! i)) (seq 0 wholeBytes)
  && (if remaining =? 0 then true
      else
        let mask := Z.land (shl32 255 (8 - remaining)) 255 in
        Z.land (default 0 (bytes !! wholeBytes)) mask =? Z.land (default 0 (prefix !! wholeBytes)) mask).

Definition ipv6_special : list (list Z * Z) :=
  [([0], 8); ([1; 0], 64); ([1; 0; 0; 0; 0; 0; 0; 1], 64); ([32; 1; 0; 2], 48); ([32; 1; 0], 23); ([32; 1; 13; 184], 32); ([32; 2], 16);
   ([63; 255], 20); ([95; 0], 16); ([0; 100; 255; 155; 0; 1], 48); ([252], 7); ([254; 128], 10); ([254; 192], 10); ([255], 8)].

Section Classify.
(** [isIP] of [node:net]: 4, 6 or 0. *)
Context (isIP : jstr → Z).

(** The words of an IPv6 text without a dotted tail. *)
Definition half_words (half : option jstr) : list jstr :=
  match half with
  | None | Some [] => []
  | Some h => split (js ":") h
  end.

Definition ipv6Bytes (address : jstr) : option (list Z) :=
  let literal := toLowerCase (stripIpBrackets address) in
  if negb (isIP literal =? 6) then None
  else
    let hexadecimal :=
      if includes_char 46 literal then
        let cut := default O (lastIndexOf 58 literal) in
        let dotted := drop (S cut) literal in
        if negb (isIP dotted =? 4) then None
        else
          let octets := map (parse_digits 10) (split (js ".") dotted) in
          let octet i := default 0 (octets !! i) in
          Some (take cut literal ++ js ":" ++ toString 16 (Z.lor (shl32 (octet 0%nat) 8) (octet 1%nat))
                ++ js ":" ++ toString 16 (Z.lor (shl32 (octet 2%nat) 8) (octet 3%nat)))
      else Some literal in
    match hexadecimal with
    | None => None
    | Some hexadecimal =>
        let halves := split (js "::") hexadecimal in
        if (2 <? length halves)%nat then None
        else
          let left := half_words (halves !! 0%nat) in
          let right := half_words (halves !! 1%nat) in
          let missing := 8 - Z.of_nat (length left) - Z.of_nat (length right) in
          if ((length halves =? 1)%nat && negb (missing =? 0)) || (missing <? 0) then None
          else
            let words := left ++ replicate (Z.to_nat missing) (js "0") ++ right in
            if negb (length words =? 8)%nat then None
            else Some (flat_map (λ word, let value := parse_digits 16 word in [Z.shiftr value 8 mod 256; Z.land value 255]) words)
    end.

Definition dotted_of (bytes : list Z) : jstr := join (js ".") (map (λ i, str_of_int (default 0 (bytes !! i))) [12; 13; 14; 15]%nat).

(** [isPrivateOrSpecialAddress]; [self] is the call on an embedded IPv4 address. *)
Definition classify (self : jstr → bool) (address : jstr) : bool :=
  let literal := stripIpBrackets address in
  let family := isIP literal in
  if family =? 4 then existsb (λ '(base, bits), in_range4 (ipv4Number literal) base bits) ipv4_special
  else if family =? 6 then
    match ipv6Bytes literal with
    | None => true
    | Some bytes =>
        let firstTenZero := forallb (Z.eqb 0) (take 10 bytes) in
        let compatible := forallb (Z.eqb 0) (take 12 bytes) in
        if compatible || (firstTenZero && bool_decide (bytes !! 10%nat = Some 255) && bool_decide (bytes !! 11%nat = Some 255))
        then self (dotted_of bytes)
        else if bytesInPrefix bytes [0; 100; 255; 155] 96 then self (dotted_of bytes)
        else existsb (λ '(prefix, bits), bytesInPrefix bytes prefix bits) ipv6_special
    end
  else true.

(** An embedded address is a dotted quad: one call deep is all there is. *)
Definition isPrivateOrSpecialAddress (address : jstr) : bool := classify (classify (λ _, true)) address.

(** ** Requests *)

(** [Millis] is a number that is an integer, [NotFinite] an infinity or NaN. *)
Inductive Timeout : Type := Millis (ms : Z) | NotFinite.

Record ProviderEgressPolicy : Type := { allowPrivateNetworks : bool; egressEnabled : bool; timeoutMs : option Timeout }.

Inductive EgressError : Type :=
  | ProviderEgressError
  | LookupFailed
  | InvalidUrl
  | NotHttps
  | HasCredentials
  | HasQuery
  | PrivateNetworkRejected.

Definition assertResolvedAddressesSafe (addresses : list jstr) (policy : ProviderEgressPolicy) : bool :=
  negb (length addresses =? 0)%nat && (allowPrivateNetworks policy || negb (existsb isPrivateOrSpecialAddress addresses)).

(** What the checks read of a parsed [URL]. *)
Record Url : Type := { protocol : jstr; username : jstr; password : jstr; hash : jstr; search : jstr; hostname : jstr }.

(** [new URL(text)]. *)
Context (parse_url : jstr → option Url).

Definition validateProviderBaseUrl (rawUrl : jstr) (policy : ProviderEgressPolicy) : EgressError + Url :=
  match parse_url rawUrl with
  | None => inl InvalidUrl
  | Some url =>
      if negb (str_eqb (protocol url) (js "https:")) && negb (allowPrivateNetworks policy && str_eqb (protocol url) (js "http:")) then inl NotHttps
      else if negb (str_eqb (username url) []) || negb (str_eqb (password url) []) then inl HasCredentials
      else if negb (str_eqb (hash url) []) || negb (str_eqb (search url) []) then inl HasQuery
      else if negb (isIP (stripIpBrackets (hostname url)) =? 0) && negb (allowPrivateNetworks policy) && isPrivateOrSpecialAddress (hostname url)
           then inl PrivateNetworkRejected
      else inr url
  end.

Definition resolveAndValidateProviderUrl (rawUrl : jstr) (policy : ProviderEgressPolicy) (dns : jstr → option (list jstr)) : EgressError + Url :=
  match validateProviderBaseUrl rawUrl policy with
  | inl e => inl e
  | inr url =>
      match dns (hostname url) with
      | None => inl LookupFailed
      | Some addresses => if assertResolvedAddressesSafe addresses policy then inr url else inl ProviderEgressError
      end
  end.

(** The [lookup] of a connection: the addresses it may connect to, from the DNS answer. *)
Definition egress_lookup (policy : ProviderEgressPolicy) (answer : option (list jstr)) : EgressError + list jstr :=
  match answer with
  | None => inl ProviderEgressError
  | Some resolved => if assertResolvedAddressesSafe resolved policy then inr resolved else inl ProviderEgressError
  end.

(** ** Headers *)

Inductive ProviderProtocol : Type := openai | anthropic.

Definition COMMON_REQUEST_HEADERS : list jstr := [js "accept"; js "content-type"].
Definition PROTOCOL_REQUEST_HEADERS (p : ProviderProtocol) : list jstr :=
  match p with openai => [] | anthropic => [js "anthropic-beta"; js "anthropic-version"] end.

Definition allowed_header (p : ProviderProtocol) (name : jstr) : bool :=
  bool_decide (name ∈ COMMON_REQUEST_HEADERS) || bool_decide (name ∈ PROTOCOL_REQUEST_HEADERS p).

Definition sanitizeProviderHeaders (headers : list (jstr * jstr)) (p : ProviderProtocol) : jsmap jstr jstr :=
  fold_left (λ m nv, let name := toLowerCase nv.1 in if allowed_header p name then map_set name nv.2 m else m) headers [].

Inductive ProviderEgressAuth : Type := API_KEY (apiKey : jstr) | BEARER (token : jstr) | NONE.

Definition providerAuthHeaders (auth : ProviderEgressAuth) : option (list (jstr * jstr)) :=
  match auth with
  | API_KEY [] | BEARER [] => None
  | API_KEY key => Some [(js "x-api-key", key)]
  | BEARER token => Some [(js "authorization", js "Bearer " ++ token)]
  | NONE => Some []
  end.

(** [{ ...sanitized, ...auth }]. *)
Definition request_headers (headers : list (jstr * jstr)) (p : ProviderProtocol) (auth : ProviderEgressAuth) : option (jsmap jstr jstr) :=
  match providerAuthHeaders auth with
  | None => None
  | Some own => Some (fold_left (λ m nv, map_set nv.1 nv.2 m) own (sanitizeProviderHeaders headers p))
  end.

Definition REQUEST_OPTION_NAMES : list jstr :=
  [js "method"; js "path"; js "headers"; js "signal"; js "ca"; js "family"; js "autoSelectFamily"; js "body"].

(** An own key of the options: a string or a symbol. *)
Inductive OptionKey : Type := StringKey (name : jstr) | SymbolKey.

Definition option_known (key : OptionKey) : bool :=
  match key with StringKey name => bool_decide (name ∈ REQUEST_OPTION_NAMES) | SymbolKey => false end.

Definition timeout_valid (t : option Timeout) : bool :=
  match t with None => true | Some NotFinite => false | Some (Millis ms) => negb (ms <? 0) end.

(** The start of [providerHttpsRequest], up to the connection: the URL and the headers. *)
Definition open_request (policy : ProviderEgressPolicy) (rawUrl : jstr) (keys : list OptionKey) (headers : list (jstr * jstr))
  (p : ProviderProtocol) (auth : ProviderEgressAuth) (aborted : bool) : EgressError + Url * jsmap jstr jstr :=
  if negb (egressEnabled policy) then inl ProviderEgressError
  else if existsb (λ key, negb (option_known key)) keys then inl ProviderEgressError
  else if negb (timeout_valid (timeoutMs policy)) then inl ProviderEgressError
  else
    match validateProviderBaseUrl rawUrl policy with
    | inl e => inl e
    | inr url =>
        if aborted then inl ProviderEgressError
        else match request_headers headers p auth with None => inl ProviderEgressError | Some hs => inr (url, hs) end
    end.
End Classify.
