(* ===== verification/EgressSafety.v ===== *)
(** * EgressSafety: the classification is by the address, not by its spelling

    [isPrivateOrSpecialAddress] answers exactly whether the 32- or 128-bit address is in one of
    the special blocks, however it is written ([private_address_exact]); without the private
    network switch no connection can use such an address ([egress_never_private]), and no header
    but the allowed ones and the request's own credential goes out ([egress_headers_exact]). *)
From Stdlib Require Import ssreflect.
From S2P Require Import Prelude JsString IpLiteral Utf8 ProviderEgress.

(** ** 32-bit arithmetic *)

Lemma int32_range x : - 2 ^ 31 ≤ int32 x < 2 ^ 31.
Proof. rewrite /int32. have := Z.mod_pos_bound (x + 2 ^ 31) (2 ^ 32) ltac:(done). lia. Qed.

Lemma int32_small x : 0 ≤ x < 2 ^ 32 → int32 x = if x <? 2 ^ 31 then x else x - 2 ^ 32.
Proof.
  intros H. rewrite /int32. destruct (Z.ltb_spec x (2 ^ 31)); [rewrite Z.mod_small; lia|].
  replace (x + 2 ^ 31) with ((x - 2 ^ 31) + 1 * 2 ^ 32) by lia. rewrite Z.mod_add // Z.mod_small; lia.
Qed.

Lemma int32_mod x : int32 x mod 2 ^ 32 = x mod 2 ^ 32.
Proof. rewrite /int32. rewrite Zminus_mod_idemp_l. f_equal. lia. Qed.

Lemma split_octets s os : parseIpv4 s = Some os → map (parse_digits 10) (split (js ".") s) = os.
Proof.
  rewrite /parseIpv4. destruct (negb _); [done|]. intros H%mapM_Some. induction H as [|p o ps os Hp _ IH]; cbn [map]; [done|]. rewrite IH. f_equal.
  move: Hp. rewrite /parse_octet. destruct (negb _); [done|]. destruct (255 <? _); [done|]. by intros [= <-].
Qed.

(** The numeric value of a dotted quad. *)
Lemma ipv4Number_octets s os : parseIpv4 s = Some os → ipv4Number s = ip_number (V4 os).
Proof.
  intros H. have Hs := split_octets _ _ H. apply parseIpv4_exact in H as [[Hl Ho] _].
  do 5 (destruct os as [|? os]; try done). rewrite !Forall_cons in Ho. destruct Ho as (Ha & Hb & Hc & Hd & _). rewrite /ipv4Number /ip_number.
  destruct (split (js ".") s) as [|p0 [|p1 [|p2 [|p3 [|? ?]]]]]; try done. cbn [fold_left]. injection Hs as -> -> -> ->.
  have Hshl : ∀ x, 0 ≤ x < 2 ^ 23 → shl32 x 8 = x * 256.
  { intros x Hx. rewrite /shl32 (int32_small x); [lia|]. rewrite (proj2 (Z.ltb_lt x (2 ^ 31))); [lia|]. rewrite int32_small; [lia|].
    by rewrite (proj2 (Z.ltb_lt _ _)); [lia|]. }
  rewrite (Hshl 0); [lia|]. rewrite (Hshl (0 * 256 + z)); [lia|]. rewrite (Hshl ((0 * 256 + z) * 256 + z0)); [lia|].
  set x := (_ * 256 + z1). have Hx : 0 ≤ x < 2 ^ 24 by subst x; lia.
  rewrite /uint32 /shl32 -Zplus_mod_idemp_l int32_mod Zplus_mod_idemp_l Z.mod_small; rewrite (int32_small x); try lia;
    rewrite (proj2 (Z.ltb_lt x (2 ^ 31))); lia.
Qed.

Lemma land_high x k : 0 ≤ k → Z.land x (- 2 ^ k) = 2 ^ k * (x / 2 ^ k).
Proof.
  intros Hk. have -> : - 2 ^ k = Z.lnot (Z.ones k) by rewrite Z.ones_equiv /Z.lnot; lia.
  rewrite -Z.ldiff_land Z.ldiff_ones_r // Z.shiftl_mul_pow2 // Z.shiftr_div_pow2 //. lia.
Qed.

Lemma mask_value bits : 1 ≤ bits ≤ 32 → int32 (uint32 (shl32 4294967295 (32 - bits))) = - 2 ^ (32 - bits).
Proof.
  intros H. have [k Hk] : ∃ k, bits = Z.of_nat k by exists (Z.to_nat bits); lia. subst.
  do 33 (destruct k as [|k]; [first [lia|reflexivity]|]). lia.
Qed.

(** A masked comparison is one of prefixes. *)
Lemma masked_block v b k : 0 ≤ k ≤ 31 → 0 ≤ v < 2 ^ 32 → 0 ≤ b < 2 ^ 32 →
  Z.land (int32 v) (- 2 ^ k) = Z.land (int32 b) (- 2 ^ k) ↔ v / 2 ^ k = b / 2 ^ k.
Proof.
  intros Hk Hv Hb. rewrite !land_high; [lia..|]. have Hp : 0 < 2 ^ k by apply Z.pow_pos_nonneg; lia.
  have Hsplit : 2 ^ 32 = 2 ^ k * (2 * 2 ^ (31 - k)) by rewrite -Z.pow_succ_r; [lia|]; rewrite -Z.pow_add_r; [lia..|]; f_equal; lia.
  have Hhalf : 2 ^ 31 = 2 ^ k * 2 ^ (31 - k) by rewrite -Z.pow_add_r; [lia..|]; f_equal; lia.
  set q := 2 ^ (31 - k) in Hsplit Hhalf. have Hq : 0 < q by apply Z.pow_pos_nonneg; lia.
  have Hdiv : ∀ x, 0 ≤ x < 2 ^ 32 → int32 x / 2 ^ k = if x <? 2 ^ 31 then x / 2 ^ k else x / 2 ^ k - 2 * q.
  { intros x Hx. rewrite int32_small //. destruct (x <? 2 ^ 31); [done|]. rewrite Hsplit.
    replace (x - 2 ^ k * (2 * q)) with (x + (- (2 * q)) * 2 ^ k) by lia. rewrite Z.div_add; lia. }
  have Hlow : ∀ x, 0 ≤ x → x < 2 ^ 31 ↔ x / 2 ^ k < q.
  { intros x Hx. rewrite Hhalf. split; intros H; [by apply Z.div_lt_upper_bound|]. have := Z.mul_succ_div_gt x (2 ^ k) Hp. nia. }
  rewrite !Hdiv //. have Hv' := Hlow v ltac:(lia). have Hb' := Hlow b ltac:(lia).
  have Hv0 : 0 ≤ v / 2 ^ k < 2 * q by split; [apply Z.div_pos; lia|apply Z.div_lt_upper_bound; lia].
  have Hb0 : 0 ≤ b / 2 ^ k < 2 * q by split; [apply Z.div_pos; lia|apply Z.div_lt_upper_bound; lia].
  destruct (Z.ltb_spec v (2 ^ 31)), (Z.ltb_spec b (2 ^ 31)); split; intros He; nia.
Qed.

(** ** IPv4 blocks *)

(** The special blocks of IPv4, as numbers. *)
Definition quad (a b c d : Z) : Z := ip_number (V4 [a; b; c; d]).

Definition special_blocks4 : list (Z * Z) :=
  [(quad 0 0 0 0, 8); (quad 10 0 0 0, 8); (quad 100 64 0 0, 10); (quad 127 0 0 0, 8); (quad 169 254 0 0, 16); (quad 172 16 0 0, 12);
   (quad 192 0 0 0, 24); (quad 192 0 2 0, 24); (quad 192 88 99 2, 32); (quad 192 168 0 0, 16); (quad 198 18 0 0, 15);
   (quad 198 51 100 0, 24); (quad 203 0 113 0, 24); (quad 224 0 0 0, 4); (quad 240 0 0 0, 4)].

Definition special4 (n : Z) : Prop := ∃ base len, In (base, len) special_blocks4 ∧ in_block 32 base len n.

Lemma special_blocks4_bases : map (λ bl, (ipv4Number bl.1, bl.2)) ipv4_special = special_blocks4.
Proof. vm_compute. reflexivity. Qed.

Lemma in_range4_block v base bits :
  0 ≤ v < 2 ^ 32 → 0 ≤ ipv4Number base < 2 ^ 32 → 1 ≤ bits ≤ 32 → in_range4 v base bits = true ↔ in_block 32 (ipv4Number base) bits v.
Proof.
  intros Hv Hb Hbits. rewrite /in_range4 /in_block /and32. destruct (Z.eqb_spec bits 0); [lia|]. rewrite mask_value // Z.eqb_eq.
  rewrite masked_block; [lia..|]. rewrite !Z.shiftr_div_pow2; [lia..|]. done.
Qed.

Lemma ipv4Number_range s : 0 ≤ ipv4Number s < 2 ^ 32.
Proof. by apply Z.mod_pos_bound. Qed.

Lemma ipv4_special_exact v : 0 ≤ v < 2 ^ 32 → existsb (λ '(base, bits), in_range4 v base bits) ipv4_special = true ↔ special4 v.
Proof.
  intros Hv. rewrite existsb_exists /special4 -special_blocks4_bases. split.
  - intros ([base bits] & Hin & H). exists (ipv4Number base), bits. split; [by apply (in_map (λ bl, (ipv4Number bl.1, bl.2))) in Hin|].
    apply in_range4_block; [done|apply ipv4Number_range| |done]. cbn in Hin. repeat destruct Hin as [[= <- <-]|Hin]; [lia..|done].
  - intros (b & len & ([base bits] & [= <- <-] & Hin)%in_map_iff & H). exists (base, bits). split; [done|].
    apply in_range4_block; [done|apply ipv4Number_range| |done]. cbn in Hin. repeat destruct Hin as [[= <- <-]|Hin]; [lia..|done].
Qed.

(** ** Prefixes of byte strings *)

Fixpoint bytes_number (bs : list Z) : Z := match bs with [] => 0 | b :: bs' => b * 2 ^ (8 * Z.of_nat (length bs')) + bytes_number bs' end.

Lemma bytes_number_range bs : Forall byte bs → 0 ≤ bytes_number bs < 2 ^ (8 * Z.of_nat (length bs)).
Proof.
  induction 1 as [|b bs Hb _ IH]; cbn [bytes_number length]; [done|]. have Hpow : 2 ^ (8 * Z.of_nat (S (length bs))) = 256 * 2 ^ (8 * Z.of_nat (length bs)).
  { replace (8 * Z.of_nat (S (length bs))) with (8 + 8 * Z.of_nat (length bs)) by lia. rewrite Z.pow_add_r; [lia..|done]. }
  rewrite Hpow. rewrite /byte in Hb. nia.
Qed.

(** A prefix, zero-filled to a length. *)
Definition padded (n : nat) (prefix : list Z) : list Z := map (λ i, default 0 (prefix !! i)) (seq 0 n).

Lemma padded_cons n p prefix : padded (S n) (p :: prefix) = p :: padded n prefix.
Proof. rewrite /padded. cbn [seq map]. by rewrite -seq_shift map_map. Qed.

Lemma padded_nil n : padded (S n) [] = 0 :: padded n [].
Proof. rewrite /padded. cbn [seq map]. by rewrite -seq_shift map_map. Qed.

(** The comparison byte by byte. *)
Fixpoint prefix_eq (bs ps : list Z) (whole : nat) (remaining : Z) : bool :=
  match bs, ps, whole with
  | b :: bs', p :: ps', S w => (b =? p) && prefix_eq bs' ps' w remaining
  | b :: _, p :: _, O =>
      if remaining =? 0 then true
      else let mask := Z.land (shl32 255 (8 - remaining)) 255 in Z.land b mask =? Z.land p mask
  | _, _, _ => true
  end.

Lemma forallb_mapped {A B} (f : B → bool) (g : A → B) l : forallb f (map g l) = forallb (λ x, f (g x)) l.
Proof. induction l as [|x l IH]; cbn; [done|]. by rewrite IH. Qed.

Lemma bytesInPrefix_eq bs prefix bits :
  0 ≤ bits → (bits < 8 * Z.of_nat (length bs)) →
  bytesInPrefix bs prefix bits = prefix_eq bs (padded (length bs) prefix) (Z.to_nat (bits / 8)) (bits mod 8).
Proof.
  intros H0 Hlt. rewrite /bytesInPrefix. have Hw : (Z.to_nat (bits / 8) < length bs)%nat by apply Nat2Z.inj_lt; rewrite Z2Nat.id; div_lia.
  generalize (bits mod 8) as r. intros r. generalize dependent (Z.to_nat (bits / 8)). clear H0 Hlt. intros w Hw. revert bs prefix Hw.
  induction w as [|w IH]; intros bs prefix Hw; destruct bs as [|b bs]; [cbn in Hw; lia| |cbn in Hw; lia|].
  - cbn [length seq forallb andb]. destruct prefix as [|p prefix]; [rewrite padded_nil|rewrite padded_cons]; done.
  - cbn [length] in Hw |- *. have Hseq : seq 0 (S w) = 0%nat :: map S (seq 0 w) by rewrite seq_shift. rewrite Hseq. cbn [forallb].
    rewrite forallb_mapped -andb_assoc. cbn [lookup list_lookup default].
    destruct prefix as [|p prefix]; [rewrite padded_nil|rewrite padded_cons]; cbn [prefix_eq]; f_equal.
    + rewrite -(IH bs []); [lia|]. done.
    + rewrite -(IH bs prefix); [lia|]. done.
Qed.

(** The high bits of a byte. *)
Lemma high_bits b p r : byte b → byte p → 1 ≤ r < 8 →
  (Z.land b (Z.land (shl32 255 (8 - r)) 255) = Z.land p (Z.land (shl32 255 (8 - r)) 255)) ↔ b / 2 ^ (8 - r) = p / 2 ^ (8 - r).
Proof.
  intros Hb Hp Hr. have Hmask : ∀ x, byte x → Z.land x (Z.land (shl32 255 (8 - r)) 255) = 2 ^ (8 - r) * (x / 2 ^ (8 - r)).
  { intros x Hx. have Hall : forallb (λ x, forallb (λ r, Z.land x (Z.land (shl32 255 (8 - r)) 255) =? 2 ^ (8 - r) * (x / 2 ^ (8 - r))) (seqZ 1 7)) (seqZ 0 256) = true
      by vm_compute.
    rewrite forallb_forall in Hall. have := Hall x. rewrite -list_elem_of_In elem_of_seqZ forallb_forall. intros H.
    have := H ltac:(rewrite /byte in Hx; lia) r. rewrite -list_elem_of_In elem_of_seqZ. intros H'. by apply Z.eqb_eq, H'; lia. }
  rewrite !Hmask //. have : 0 < 2 ^ (8 - r) by apply Z.pow_pos_nonneg; lia. nia.
Qed.

Lemma number_split b n m k : 0 ≤ m < 2 ^ n → 0 ≤ k ≤ n → (b * 2 ^ n + m) / 2 ^ (n - k) = b * 2 ^ k + m / 2 ^ (n - k).
Proof.
  intros Hm Hk. have -> : 2 ^ n = 2 ^ k * 2 ^ (n - k) by rewrite -Z.pow_add_r; [lia..|]; f_equal; lia.
  rewrite Z.mul_assoc Z.div_add_l //. apply Z.pow_nonzero; lia.
Qed.

Lemma number_high b n m j : 0 ≤ n → 0 ≤ m < 2 ^ n → 0 ≤ j → (b * 2 ^ n + m) / 2 ^ (n + j) = b / 2 ^ j.
Proof.
  intros Hn Hm Hj. have H1 : 0 < 2 ^ n by apply Z.pow_pos_nonneg. have H2 : 0 < 2 ^ j by apply Z.pow_pos_nonneg.
  rewrite Z.pow_add_r // -Z.div_div; [lia|lia|]. rewrite Z.div_add_l; [lia|]. rewrite (Z.div_small m); [lia|]. by rewrite Z.add_0_r.
Qed.

Lemma prefix_number bs ps w r :
  Forall byte bs → Forall byte ps → length bs = length ps → (w < length bs)%nat → 0 ≤ r < 8 →
  let k := 8 * Z.of_nat (length bs) - (8 * Z.of_nat w + r) in
  prefix_eq bs ps w r = true ↔ bytes_number bs / 2 ^ k = bytes_number ps / 2 ^ k.
Proof.
  intros Hbs. revert ps w. induction Hbs as [|b bs Hb Hbs IH]; intros ps w Hps Hlen Hw Hr; [cbn in Hw; lia|].
  destruct Hps as [|p ps Hp Hps]; [done|]. injection Hlen as Hlen. cbn [bytes_number length] in *.
  have Rb := bytes_number_range bs Hbs. have Rp := bytes_number_range ps Hps. rewrite -Hlen in Rp. rewrite -Hlen.
  set n := 8 * Z.of_nat (length bs) in Rb Rp |- *. replace (8 * Z.of_nat (S (length bs))) with (n + 8) by lia.
  destruct w as [|w]; cbn [prefix_eq].
  - replace (n + 8 - (8 * Z.of_nat 0 + r)) with (n + (8 - r)) by lia. rewrite !number_high; [lia..|].
    destruct (Z.eqb_spec r 0) as [->|Hr0]; [|rewrite Z.eqb_eq; apply high_bits; [done|done|lia]].
    change (2 ^ (8 - 0)) with 256. rewrite /byte in Hb, Hp. rewrite !Z.div_small; [lia..|done].
  - have Hk : 0 ≤ 8 * Z.of_nat w + r ≤ n by lia. replace (n + 8 - (8 * Z.of_nat (S w) + r)) with (n - (8 * Z.of_nat w + r)) by lia.
    rewrite !number_split //. rewrite andb_true_iff Z.eqb_eq. rewrite IH //; [lia|]. cbn zeta.
    set q := 2 ^ (8 * Z.of_nat w + r). set d := 2 ^ (n - (8 * Z.of_nat w + r)).
    have Hq : q * d = 2 ^ n by rewrite /q /d -Z.pow_add_r; [lia..|]; f_equal; lia. have Hd0 : 0 < d by apply Z.pow_pos_nonneg; lia.
    have Hq0 : 0 < q by apply Z.pow_pos_nonneg; lia.
    have H1 : 0 ≤ bytes_number bs / d < q by split; [apply Z.div_pos; lia|apply Z.div_lt_upper_bound; lia].
    have H2 : 0 ≤ bytes_number ps / d < q by split; [apply Z.div_pos; lia|apply Z.div_lt_upper_bound; lia]. split; [by intros [-> ->]|].
    intros He. apply (Z.div_mod_unique q b p); [by left|by left|lia].
Qed.

(** ** IPv6 blocks *)

(** The special blocks of IPv6, as numbers. *)
Definition block6 (groups : list Z) : Z := ip_number (V6 (groups ++ replicate (8 - length groups) 0)).

Definition special_blocks6 : list (Z * Z) :=
  [(block6 [], 8); (block6 [256], 64); (block6 [256; 0; 0; 1], 64); (block6 [8193; 2], 48); (block6 [8193], 23); (block6 [8193; 3512], 32);
   (block6 [8194], 16); (block6 [16383], 20); (block6 [24320], 16); (block6 [100; 65435; 1], 48); (block6 [64512], 7); (block6 [65152], 10);
   (block6 [65216], 10); (block6 [65280], 8)].

(** Addresses that carry an IPv4 address: IPv4-compatible, IPv4-mapped, and NAT64. *)
Definition embeds4 (n : Z) : Prop := in_block 128 0 96 n ∨ in_block 128 (block6 [0; 0; 0; 0; 0; 65535]) 96 n ∨ in_block 128 (block6 [100; 65435]) 96 n.

Definition special6 (n : Z) : Prop :=
  (embeds4 n ∧ special4 (n mod 2 ^ 32)) ∨ (¬ embeds4 n ∧ ∃ base len, In (base, len) special_blocks6 ∧ in_block 128 base len n).

Lemma special_blocks6_bases : map (λ pl, (bytes_number (padded 16 pl.1), pl.2)) ipv6_special = special_blocks6.
Proof. vm_compute. reflexivity. Qed.

Lemma padded_byte n prefix : Forall byte prefix → Forall byte (padded n prefix).
Proof.
  intros H. apply List.Forall_forall. intros x (i & <- & _)%in_map_iff. destruct (prefix !! i) as [b|] eqn:E; [|done].
  rewrite Forall_lookup in H. by eapply H.
Qed.

Lemma bytesInPrefix_block bs prefix bits :
  Forall byte bs → length bs = 16%nat → Forall byte prefix → 0 ≤ bits < 128 →
  bytesInPrefix bs prefix bits = true ↔ in_block 128 (bytes_number (padded 16 prefix)) bits (bytes_number bs).
Proof.
  intros Hbs Hlen Hp Hbits. rewrite bytesInPrefix_eq; [lia|lia|]. rewrite prefix_number //; [by apply padded_byte|by rewrite /padded length_map length_seq|..].
  - apply Nat2Z.inj_lt. rewrite Z2Nat.id; div_lia.
  - by apply Z.mod_pos_bound.
  - cbn zeta. rewrite Hlen Z2Nat.id; [div_lia|]. rewrite -Z.div_mod //. rewrite /in_block !Z.shiftr_div_pow2; [lia..|]. done.
Qed.

(** The two bytes of each group. *)
Definition group_bytes (gs : list Z) : list Z := flat_map (λ g, [g / 256; g mod 256]) gs.

Lemma group_bytes_length gs : length (group_bytes gs) = (2 * length gs)%nat.
Proof. rewrite /group_bytes. induction gs as [|g gs IH]; cbn [flat_map app length]; [done|]. rewrite IH. lia. Qed.

Lemma group_bytes_number gs a :
  fold_left (λ a g, a * 65536 + g) gs a = a * 2 ^ (8 * Z.of_nat (length (group_bytes gs))) + bytes_number (group_bytes gs).
Proof.
  revert a. induction gs as [|g gs IH]; intros a; cbn [fold_left]; [rewrite /=; lia|]. rewrite IH. set n := length (group_bytes gs).
  have -> : group_bytes (g :: gs) = g / 256 :: g mod 256 :: group_bytes gs by done. cbn [bytes_number length]. fold n.
  have H1 : 2 ^ (8 * Z.of_nat (S n)) = 256 * 2 ^ (8 * Z.of_nat n) by rewrite Nat2Z.inj_succ Z.mul_succ_r Z.pow_add_r; lia.
  have H2 : 2 ^ (8 * Z.of_nat (S (S n))) = 65536 * 2 ^ (8 * Z.of_nat n) by rewrite Nat2Z.inj_succ Z.mul_succ_r Z.pow_add_r; lia.
  rewrite H1 H2. have Hg := Z.div_mod g 256 ltac:(done). set q := 2 ^ _. nia.
Qed.

Lemma group_bytes_ok gs : ip_wf (V6 gs) →
  Forall byte (group_bytes gs) ∧ length (group_bytes gs) = 16%nat ∧ bytes_number (group_bytes gs) = ip_number (V6 gs).
Proof.
  intros [Hl Hg]. split_and!.
  - apply List.Forall_forall. intros b (g & Hin & Hb)%in_flat_map. rewrite List.Forall_forall in Hg. have := Hg g Hin.
    destruct Hb as [<-|[<-|[]]]; rewrite /byte; intros; div_lia.
  - by rewrite group_bytes_length Hl.
  - rewrite /ip_number group_bytes_number. lia.
Qed.

(** ** Text *)

(** The address an IPv6 text means: a dotted tail is two groups. *)
Definition v6_value (s : jstr) : option (list Z) :=
  let t := toLowerCase s in
  if includes_char 46 t then
    match lastIndexOf 58 t with
    | None => None
    | Some cut =>
        match parseIpv4 (drop (S cut) t) with
        | Some [a; b; c; d] => parseIpv6 (take cut t ++ js ":" ++ toString 16 (a * 256 + b) ++ js ":" ++ toString 16 (c * 256 + d))
        | _ => None
        end
    end
  else parseIpv6 t.

(** What [isIP] answers for a text without a zone: the family of the address it means. *)
Record isIP_ok (isIP : jstr → Z) : Prop := {
  ip_v4 : ∀ s, isIP s = 4 ↔ is_Some (parseIpv4 s);
  ip_v6 : ∀ s, includes_char 37 s = false → isIP s = 6 ↔ parseIpv4 s = None ∧ is_Some (v6_value s);
}.

Lemma lower_idempotent s : toLowerCase (toLowerCase s) = toLowerCase s.
Proof.
  rewrite /toLowerCase map_map. apply map_ext. intros c. rewrite /is_upper. destruct (in_range 65 90 c) eqn:E; [|by rewrite E].
  rewrite /in_range andb_true_iff !Z.leb_le in E. by rewrite in_range_false; [lia|].
Qed.

Lemma includes_In c s : includes_char c s = true ↔ In c s.
Proof. rewrite /includes_char existsb_exists. setoid_rewrite Z.eqb_eq. naive_solver. Qed.

Lemma includes_lower c s : is_lower c = false → is_upper c = false → includes_char c (toLowerCase s) = includes_char c s.
Proof.
  rewrite /is_lower /is_upper => H1 H2. apply eq_bool_prop_intro. rewrite !Is_true_true !includes_In /toLowerCase in_map_iff. split.
  - intros (d & Hd & Hin). destruct (is_upper d) eqn:E; [|by subst]. exfalso. move: E H1. rewrite /is_upper -Hd. intros E%in_range_spec. by rewrite in_range_true; [lia|].
  - intros Hin. exists c. rewrite /is_upper H2. done.
Qed.

(** The characters of a text that means an address. *)
Lemma parseIpv6_head t gs c : parseIpv6 t = Some gs → head t = Some c → is_hex c = true ∨ c = 58.
Proof.
  rewrite /parseIpv6. destruct (ipv6_chars t) eqn:E; [|done]. intros _. rewrite /ipv6_chars !andb_true_iff forallb_forall in E.
  destruct t as [|d t]; [done|]. intros [= ->]. destruct E as [[E _] _]. have := E c (or_introl eq_refl). rewrite orb_true_iff Z.eqb_eq. done.
Qed.

Lemma v6_head s gs : v6_value s = Some gs → startsWith (js "[") s = false.
Proof.
  intros Hv. destruct (startsWith (js "[") s) eqn:E; [|done]. apply startsWith_spec in E as [u ->]. exfalso.
  have Hlow : ∃ u', toLowerCase (js "[" ++ u) = 91 :: u' by exists (toLowerCase u). destruct Hlow as [u' Hlow]. move: Hv. rewrite /v6_value Hlow.
  have Hbad : ∀ w g, parseIpv6 (91 :: w) = Some g → False by intros w g H; destruct (parseIpv6_head _ _ 91 H eq_refl).
  destruct (includes_char 46 _); [|by intros ?%Hbad]. cbn [lastIndexOf]. destruct (lastIndexOf 58 u') as [i|]; [|done].
  destruct (parseIpv4 _) as [[|a [|b [|c [|d [|? ?]]]]]|]; done.
Qed.

Lemma strip_plain s : includes_char 37 s = false → startsWith (js "[") s = false → stripIpBrackets s = s.
Proof.
  intros Hz Hb. have Hs : split (js "%") s = [s].
  { apply split_None; [done|]. apply indexOf_char_None. intros d Hd ->. apply not_true_iff_false in Hz. by apply Hz, includes_In. }
  rewrite /stripIpBrackets Hs. change (default [] ([s] !! 0%nat)) with s. by rewrite Hb.
Qed.

Lemma In_take {A} (l : list A) n x : In x (take n l) → In x l.
Proof. intros H. rewrite -(take_drop n l). apply in_or_app. by left. Qed.

Lemma In_drop {A} (l : list A) n x : In x (drop n l) → In x l.
Proof. intros H. rewrite -(take_drop n l). apply in_or_app. by right. Qed.

(** The first part of a split has no separator. *)
Lemma first_part_free c s : ¬ In c (default [] (split [c] s !! 0%nat)).
Proof.
  have H : ∀ s, match indexOf [c] s with Some i => ¬ In c (take i s) | None => ¬ In c s end.
  { clear s. induction s as [|d s IH]; [by intros []|]. rewrite indexOf_unfold. cbn [startsWith]. rewrite andb_true_r.
    destruct (Z.eqb_spec c d) as [->|Hne]; [by intros []|]. destruct (indexOf [c] s) as [i|]; cbn; intros [->|?]; auto. }
  rewrite split_unfold //. have := H s. by destruct (indexOf [c] s).
Qed.

(** A stripped address has no zone. *)
Lemma strip_no_zone s : includes_char 37 (stripIpBrackets s) = false.
Proof.
  apply not_true_iff_false. rewrite includes_In /stripIpBrackets. have Hf := first_part_free 37 s. change (js "%") with [37].
  destruct (_ && _); [|done]. intros Hin. apply Hf. set w := default [] _ in Hin |- *.
  apply (In_take _ (length w - 1)). by apply (In_drop _ 1).
Qed.

Lemma lor_shl a b : 0 ≤ a < 256 → 0 ≤ b < 256 → Z.lor (shl32 a 8) b = a * 256 + b.
Proof.
  intros Ha Hb. have Hall : forallb (λ a, forallb (λ b, Z.lor (shl32 a 8) b =? a * 256 + b) (seqZ 0 256)) (seqZ 0 256) = true by vm_compute.
  rewrite forallb_forall in Hall. have := Hall a. rewrite -list_elem_of_In elem_of_seqZ forallb_forall. intros H.
  have := H ltac:(lia) b. rewrite -list_elem_of_In elem_of_seqZ. intros H'. by apply Z.eqb_eq, H'; lia.
Qed.

(** The words of a text the reader accepts are its groups. *)
Lemma hex_words h gs : parseIpv6 h = Some gs →
  let halves := split (js "::") h in
  let left := half_words (halves !! 0%nat) in let right := half_words (halves !! 1%nat) in
  let missing := 8 - Z.of_nat (length left) - Z.of_nat (length right) in
  (length halves ≤ 2)%nat ∧ (length halves = 1%nat → missing = 0) ∧ 0 ≤ missing ∧
  map (parse_digits 16) (left ++ replicate (Z.to_nat missing) (js "0") ++ right) = gs.
Proof.
  rewrite /parseIpv6. destruct (negb _); [done|]. set halves := split (js "::") h. destruct (Nat.ltb_spec 2 (length halves)) as [|Hle]; [done|].
  have Hhalf : ∀ o : option jstr, half_words o = ipv6_half (default [] o) by intros [[|? ?]|]. cbn zeta. rewrite !Hhalf.
  set left := ipv6_half (default [] (halves !! 0%nat)).
  have Hright : ipv6_half (default [] (halves !! 1%nat)) = if (length halves =? 2)%nat then ipv6_half (default [] (halves !! 1%nat)) else [].
  { destruct (Nat.eqb_spec (length halves) 2) as [|Hn]; [done|]. have Hle1 : (length halves ≤ 1)%nat by clear -Hle Hn; clearbody halves; lia.
    by rewrite lookup_ge_None_2. }
  rewrite -Hright. set right := ipv6_half (default [] (halves !! 1%nat)). clear Hright Hhalf.
  destruct (existsb _ _); [done|]. destruct (_ && negb _) eqn:E1; [done|]. destruct (_ && (7 <? _)%nat) eqn:E2; [done|]. intros [= <-].
  rewrite length_app in E1 E2 |- *. have Hne : (1 ≤ length halves)%nat by have := split_nonempty (js "::") h ltac:(done); rewrite -/halves; destruct halves; cbn; [done|lia].
  have H1 : length halves = 1%nat → (length left + length right)%nat = 8%nat.
  { intros Hl. rewrite Hl Nat.eqb_refl in E1. by apply negb_false_iff, Nat.eqb_eq in E1. }
  have H2 : length halves = 2%nat → (length left + length right ≤ 7)%nat.
  { intros Hl. rewrite Hl Nat.eqb_refl in E2. by apply Nat.ltb_ge in E2. }
  have Hcases : length halves = 1%nat ∨ length halves = 2%nat by lia.
  split_and!; [done|intros Hl; have := H1 Hl; lia|destruct Hcases as [Hl|Hl]; [have := H1 Hl|have := H2 Hl]; lia|].
  have Hzeros : ∀ n, map (parse_digits 16) (replicate n (js "0")) = replicate n 0 by intros n; apply (fmap_replicate (parse_digits 16)).
  rewrite !map_app Hzeros. do 2 f_equal. destruct Hcases as [Hl|Hl]; rewrite Hl /=.
  - have := H1 Hl. intros ?. by have -> : Z.to_nat (8 - Z.of_nat (length left) - Z.of_nat (length right)) = O by lia.
  - f_equal. have := H2 Hl. lia.
Qed.

(** A dotted quad has no letters, so lower case changes nothing. *)
Lemma lower_fixed s : (∀ c, In c (toLowerCase s) → is_lower c = false) → toLowerCase s = s.
Proof.
  induction s as [|c s IH]; intros H; [done|]. cbn [toLowerCase map] in H |- *. f_equal; [|apply IH; intros d Hd; apply H; by right].
  have := H _ (or_introl eq_refl). destruct (is_upper c) eqn:E; [|done]. move: E. rewrite /is_upper /is_lower. intros E%in_range_spec. by rewrite in_range_true; [lia|].
Qed.

Lemma quad_chars s os c : parseIpv4 s = Some os → In c s → is_digit c = true ∨ c = 46.
Proof.
  intros [[_ Hw] ->]%parseIpv4_exact [[<-|[]]|(w & Hin & Hc)]%join_In; [by right|left].
  apply list_elem_of_In, list_elem_of_fmap in Hin as (o & -> & Ho). rewrite Forall_forall in Hw. eapply str_of_int_digits; [by apply Hw|done].
Qed.

Lemma quad_lower s : parseIpv4 s = None → parseIpv4 (toLowerCase s) = None.
Proof.
  intros Hs. destruct (parseIpv4 (toLowerCase s)) as [os|] eqn:E; [|done]. have Hfix : toLowerCase s = s; [|congruence]. apply lower_fixed.
  intros c Hc. destruct (quad_chars _ _ _ E Hc) as [Hd| ->]; [|done]. move: Hd. rewrite /is_digit /is_lower. intros Hd%in_range_spec. by apply in_range_false; lia.
Qed.

Lemma v6_value_wf s gs : v6_value s = Some gs → ip_wf (V6 gs).
Proof.
  rewrite /v6_value. destruct (includes_char 46 _); [|apply parseIpv6_wf]. destruct (lastIndexOf 58 _) as [cut|]; [|done].
  destruct (parseIpv4 _) as [[|a [|b [|c [|d [|? ?]]]]]|]; try done. apply parseIpv6_wf.
Qed.

Section Exact.
Context (isIP : jstr → Z) (Hip : isIP_ok isIP).

Lemma v6_lower s : v6_value (toLowerCase s) = v6_value s.
Proof. by rewrite /v6_value lower_idempotent. Qed.

(** The bytes the classifier reads are those of the address the text means. *)
Lemma ipv6Bytes_value s gs :
  includes_char 37 s = false → isIP s = 6 → v6_value s = Some gs → ipv6Bytes isIP s = Some (group_bytes gs).
Proof.
  intros Hz H6 Hv. rewrite /ipv6Bytes strip_plain //; [by eapply v6_head|]. set t := toLowerCase s.
  have Hzt : includes_char 37 t = false by rewrite includes_lower.
  have H6t : isIP t = 6.
  { apply Hip; [done|]. split; [by apply quad_lower, Hip|by rewrite v6_lower Hv]. }
  rewrite H6t. cbn [Z.eqb negb].
  set hexadecimal := (if includes_char 46 t then _ else _).
  have [h [Hh Hp]] : ∃ h, hexadecimal = Some h ∧ parseIpv6 h = Some gs.
  { move: Hv. rewrite /v6_value /hexadecimal -/t. destruct (includes_char 46 t); [|by intros ?; exists t].
    destruct (lastIndexOf 58 t) as [cut|]; [|done]. cbn [default]. destruct (parseIpv4 (drop (S cut) t)) as [os|] eqn:E4; [|done].
    destruct os as [|a [|b [|c [|d [|? ?]]]]]; try done. intros Hp. eexists. split; [|exact Hp].
    have -> : isIP (drop (S cut) t) = 4 by apply Hip. cbn [Z.eqb negb]. have Ho := split_octets _ _ E4. change (js ".") with [46] in Ho |- *. rewrite Ho.
    apply parseIpv4_exact in E4 as [[_ Hw] _]. rewrite !Forall_cons in Hw. destruct Hw as (Ha & Hb & Hc & Hd & _). cbn [lookup list_lookup default].
    by rewrite !lor_shl. }
  rewrite Hh. destruct (hex_words h gs Hp) as (Hle & Hone & Hmiss & Hwords). cbn zeta in Hone, Hmiss, Hwords.
  set halves := split (js "::") h in Hle Hone Hmiss Hwords |- *. set left := half_words (halves !! 0%nat) in Hone Hmiss Hwords |- *.
  set right := half_words (halves !! 1%nat) in Hone Hmiss Hwords |- *. set missing := 8 - _ - _ in Hone Hmiss Hwords |- *.
  rewrite (proj2 (Nat.ltb_ge 2 (length halves))) //. rewrite (proj2 (Z.ltb_ge missing 0)) // orb_false_r.
  have -> : (length halves =? 1)%nat && negb (missing =? 0) = false.
  { destruct (Nat.eqb_spec (length halves) 1) as [Hl|]; [|done]. by rewrite (Hone Hl). }
  have [Hl8 Hwf] := parseIpv6_wf _ _ Hp. have Hlen := f_equal length Hwords. rewrite length_map Hl8 in Hlen. rewrite Hlen Nat.eqb_refl. cbn [negb].
  f_equal. rewrite /group_bytes -Hwords flat_map_concat_map flat_map_concat_map map_map. f_equal.
  apply map_ext_in. intros w Hin. rewrite -Hwords in Hwf. rewrite List.Forall_forall in Hwf. have := Hwf (parse_digits 16 w) (in_map _ _ _ Hin). intros Hr.
  rewrite Z.shiftr_div_pow2 // (Z.mod_small (_ / _)); [div_lia|]. change 255 with (Z.ones 8). by rewrite Z.land_ones.
Qed.
(** The address a text means. *)
Definition means (s : jstr) (ip : IpLiteral) : Prop :=
  match ip with
  | V4 octets => parseIpv4 s = Some octets
  | V6 groups => parseIpv4 s = None ∧ v6_value s = Some groups
  end.

Definition special (ip : IpLiteral) : Prop := match ip with V4 _ => special4 (ip_number ip) | V6 _ => special6 (ip_number ip) end.

Lemma means_family s ip : includes_char 37 s = false → means s ip → isIP s = match ip with V4 _ => 4 | V6 _ => 6 end.
Proof.
  intros Hz. destruct ip as [os|gs]; cbn [means]; [intros H; apply Hip; by rewrite H|]. intros [H4 H6]. apply Hip; [done|]. by rewrite H6.
Qed.

Lemma quad_number s os : parseIpv4 s = Some os → 0 ≤ ip_number (V4 os) < 2 ^ 32.
Proof. intros H. rewrite -(ipv4Number_octets _ _ H). apply ipv4Number_range. Qed.

Lemma quad_plain s os : parseIpv4 s = Some os → stripIpBrackets s = s.
Proof.
  intros H. apply strip_plain.
  - apply not_true_iff_false. rewrite includes_In. intros Hin. destruct (quad_chars _ _ _ H Hin) as [?|?]; done.
  - destruct (startsWith _ s) eqn:E; [|done]. apply startsWith_spec in E as [u ->]. destruct (quad_chars _ _ 91 H) as [?|?]; [by left|done..].
Qed.

(** An IPv4 literal. *)
Lemma classify_v4 self address os :
  parseIpv4 (stripIpBrackets address) = Some os → classify isIP self address = true ↔ special4 (ip_number (V4 os)).
Proof.
  intros H. rewrite /classify. have -> : isIP (stripIpBrackets address) = 4 by apply Hip. cbn [Z.eqb].
  rewrite (ipv4Number_octets _ _ H). apply ipv4_special_exact. by eapply quad_number.
Qed.

Lemma bytes_number_app a b : bytes_number (a ++ b) = bytes_number a * 2 ^ (8 * Z.of_nat (length b)) + bytes_number b.
Proof.
  induction a as [|x a IH]; cbn [app bytes_number]; [lia|]. rewrite IH length_app.
  have -> : 2 ^ (8 * Z.of_nat (length a + length b)) = 2 ^ (8 * Z.of_nat (length a)) * 2 ^ (8 * Z.of_nat (length b)) by rewrite -Z.pow_add_r; [lia..|]; f_equal; lia.
  lia.
Qed.

(** The embedded address. *)
Lemma classify_embedded self bs :
  Forall byte bs → length bs = 16%nat → classify isIP self (dotted_of bs) = true ↔ special4 (bytes_number bs mod 2 ^ 32).
Proof.
  intros Hbs Hlen. have Hq : parseIpv4 (dotted_of bs) = Some (drop 12 bs).
  { apply parseIpv4_exact. split; [split; [by rewrite length_drop Hlen|by apply Forall_drop]|]. rewrite /dotted_of /ip_print. f_equal.
    do 17 (destruct bs as [|? bs]; try done). }
  rewrite (classify_v4 self (dotted_of bs) (drop 12 bs)); [by rewrite (quad_plain _ _ Hq)|].
  have -> : bytes_number bs mod 2 ^ 32 = ip_number (V4 (drop 12 bs)); [|done].
  rewrite -{1}(take_drop 12 bs) bytes_number_app length_drop Hlen. change (8 * Z.of_nat (16 - 12)) with 32. rewrite Z.add_comm Z.mod_add //.
  have Hd : Forall byte (drop 12 bs) by apply Forall_drop. have Hl : length (drop 12 bs) = 4%nat by rewrite length_drop Hlen.
  have Hr := bytes_number_range _ Hd. rewrite Hl in Hr. rewrite Z.mod_small //. destruct (drop 12 bs) as [|a [|b [|c [|d [|? ?]]]]]; try done.
  cbn [bytes_number length ip_number fold_left]. lia.
Qed.

Lemma eqb_some (a b : Z) : (a =? b) = bool_decide (Some a = Some b).
Proof. destruct (Z.eqb_spec a b) as [->|H]; [by rewrite bool_decide_eq_true_2|]. rewrite bool_decide_eq_false_2 //. congruence. Qed.

Lemma embeds_bytes bs : Forall byte bs → length bs = 16%nat →
  (forallb (Z.eqb 0) (take 12 bs) || (forallb (Z.eqb 0) (take 10 bs) && bool_decide (bs !! 10%nat = Some 255) && bool_decide (bs !! 11%nat = Some 255))
   || bytesInPrefix bs [0; 100; 255; 155] 96 = true) ↔ embeds4 (bytes_number bs).
Proof.
  intros Hbs Hlen. rewrite /embeds4 (orb_true_iff (_ || _)) (orb_true_iff (forallb _ (take 12 bs))).
  have Hbits : (Z.to_nat (96 / 8) = 12%nat) by done. have Hmod : 96 mod 8 = 0 by done.
  have H1 : bytesInPrefix bs [] 96 = forallb (Z.eqb 0) (take 12 bs).
  { rewrite /bytesInPrefix Hbits Hmod. cbn [Z.eqb]. do 17 (destruct bs as [|? bs]; try done).
    cbn [seq forallb lookup list_lookup from_option id take]. by rewrite !(Z.eqb_sym _ 0) ?andb_true_r. }
  have H2 : bytesInPrefix bs [0; 0; 0; 0; 0; 0; 0; 0; 0; 0; 255; 255] 96 =
    forallb (Z.eqb 0) (take 10 bs) && bool_decide (bs !! 10%nat = Some 255) && bool_decide (bs !! 11%nat = Some 255).
  { rewrite /bytesInPrefix Hbits Hmod. cbn [Z.eqb]. do 17 (destruct bs as [|? bs]; try done). cbn [seq forallb lookup list_lookup from_option id take].
    by rewrite !(Z.eqb_sym _ 0) -!eqb_some !andb_true_r !andb_assoc. }
  rewrite -H1 -H2 !bytesInPrefix_block //; [by repeat (constructor; [by rewrite /byte|])..|].
  have -> : bytes_number (padded 16 []) = 0 by vm_compute.
  have -> : bytes_number (padded 16 [0; 0; 0; 0; 0; 0; 0; 0; 0; 0; 255; 255]) = block6 [0; 0; 0; 0; 0; 65535] by vm_compute.
  have -> : bytes_number (padded 16 [0; 100; 255; 155]) = block6 [100; 65435] by vm_compute. tauto.
Qed.
Lemma special6_bytes bs : Forall byte bs → length bs = 16%nat →
  existsb (λ '(prefix, bits), bytesInPrefix bs prefix bits) ipv6_special = true ↔ ∃ base len, In (base, len) special_blocks6 ∧ in_block 128 base len (bytes_number bs).
Proof.
  intros Hbs Hlen. rewrite existsb_exists -special_blocks6_bases.
  have Hok : ∀ prefix bits, In (prefix, bits) ipv6_special → Forall byte prefix ∧ 0 ≤ bits < 128.
  { intros prefix bits Hin. have Hall : forallb (λ pl, forallb (λ b, (0 <=? b) && (b <? 256)) pl.1 && (0 <=? pl.2) && (pl.2 <? 128)) ipv6_special = true by vm_compute.
    rewrite forallb_forall in Hall. have := Hall _ Hin. rewrite /= !andb_true_iff forallb_forall Z.leb_le Z.ltb_lt. intros [[Hp H1] H2]. split; [|done].
    apply List.Forall_forall. intros b Hb. have := Hp b Hb. rewrite andb_true_iff Z.leb_le Z.ltb_lt. done. }
  split.
  - intros ([prefix bits] & Hin & H). exists (bytes_number (padded 16 prefix)), bits. split; [by apply (in_map (λ pl, (bytes_number (padded 16 pl.1), pl.2))) in Hin|].
    destruct (Hok _ _ Hin). by apply bytesInPrefix_block.
  - intros (b & len & ([prefix bits] & [= <- <-] & Hin)%in_map_iff & H). exists (prefix, bits). split; [done|]. destruct (Hok _ _ Hin). by apply bytesInPrefix_block.
Qed.

Lemma classify_v6 address gs :
  isIP (stripIpBrackets address) = 6 → v6_value (stripIpBrackets address) = Some gs → ip_wf (V6 gs) →
  isPrivateOrSpecialAddress isIP address = true ↔ special6 (ip_number (V6 gs)).
Proof.
  intros H6 Hv Hwf. have Hz := strip_no_zone address. rewrite /isPrivateOrSpecialAddress {1}/classify H6. cbn [Z.eqb].
  rewrite (ipv6Bytes_value _ _ Hz H6 Hv). destruct (group_bytes_ok gs Hwf) as (Hb & Hl & <-). set bs := group_bytes gs in Hb Hl |- *.
  have He := embeds_bytes bs Hb Hl. rewrite /special6. destruct (forallb (Z.eqb 0) (take 12 bs) || _) eqn:E1.
  - have He' : embeds4 (bytes_number bs) by apply He. rewrite classify_embedded //. tauto.
  - cbn [orb] in He. destruct (bytesInPrefix bs [0; 100; 255; 155] 96) eqn:E2.
    + have He' : embeds4 (bytes_number bs) by apply He. rewrite classify_embedded //. tauto.
    + have He' : ¬ embeds4 (bytes_number bs) by rewrite -He. rewrite special6_bytes //. tauto.
Qed.
End Exact.

Lemma private_exact isIP address :
  isIP_ok isIP → isPrivateOrSpecialAddress isIP address = true ↔ ∀ ip, means (stripIpBrackets address) ip → special ip.
Proof.
  intros Hip. have Hz := strip_no_zone address. destruct (parseIpv4 (stripIpBrackets address)) as [os|] eqn:E4.
  - rewrite /isPrivateOrSpecialAddress (classify_v4 isIP Hip _ _ os E4). split; [|by intros H; apply (H (V4 os))].
    intros H [os'|gs]; cbn [means]; [|by intros [? _]; congruence]. rewrite E4. by intros [= <-].
  - destruct (v6_value (stripIpBrackets address)) as [gs|] eqn:E6.
    + have H6 : isIP (stripIpBrackets address) = 6 by apply Hip; [|rewrite E6].
      rewrite (classify_v6 isIP Hip _ gs H6 E6); [by eapply v6_value_wf|].
      split; [|by intros H; apply (H (V6 gs))]. intros H [os'|gs']; cbn [means]; [congruence|]. rewrite E6. by intros [_ [= <-]].
    + split; [intros _ [os'|gs']; cbn [means]; [congruence|by intros [_ ?]; congruence]|]. intros _. rewrite /isPrivateOrSpecialAddress /classify.
      destruct (Z.eqb_spec (isIP (stripIpBrackets address)) 4) as [H%Hip|]; [rewrite E4 in H; by destruct H|].
      destruct (Z.eqb_spec (isIP (stripIpBrackets address)) 6) as [H|]; [|done]. apply Hip in H as [_ H]; [|done]. rewrite E6 in H. by destruct H.
Qed.

(** A safe address means an address outside every special block. *)
Lemma safe_address isIP a : isIP_ok isIP → isPrivateOrSpecialAddress isIP a = false → ∃ ip, means (stripIpBrackets a) ip ∧ ¬ special ip.
Proof.
  intros Hip Hf. have Hx := private_exact isIP a Hip.
  have [ip Hm] : ∃ ip, means (stripIpBrackets a) ip.
  { destruct (parseIpv4 (stripIpBrackets a)) as [os|] eqn:E4; [by exists (V4 os)|].
    destruct (v6_value (stripIpBrackets a)) as [gs|] eqn:E6; [by exists (V6 gs)|]. have : isPrivateOrSpecialAddress isIP a = true; [|congruence].
    apply Hx. intros [os|gs]; cbn [means]; [congruence|]. intros [_ ?]. congruence. }
  exists ip. split; [done|]. intros Hs. have : isPrivateOrSpecialAddress isIP a = true; [|congruence]. apply Hx.
  intros ip' Hm'. have -> : ip' = ip; [|done]. destruct ip as [os|gs], ip' as [os'|gs']; cbn [means] in Hm, Hm'; naive_solver congruence.
Qed.

(** ** Theorems *)

(** The classification is by the address, not by its spelling: [isPrivateOrSpecialAddress]
    answers true exactly when the address the text means (brackets, zone, letter case,
    compression and a dotted tail aside) lies in a special block of its family, an IPv6 address
    that carries an IPv4 one (IPv4-compatible, IPv4-mapped, NAT64) being judged by that one; and
    a text that means no address counts as special. *)
Theorem private_address_exact isIP address :
  isIP_ok isIP → isPrivateOrSpecialAddress isIP address = true ↔ ∀ ip, means (stripIpBrackets address) ip → special ip.
Proof. apply private_exact. Qed.

(** C17. Without the private network switch nothing private is reached: a request that opens uses
    HTTPS, carries no credentials, query or fragment in its URL and no option outside the known
    ones (so no agent, socket or TLS override), and every address its
    connection may use (the DNS answers, checked all together, and a literal host) means an
    address outside every special block; when one answer is special, none is used. *)
Theorem egress_never_private isIP parse_url policy rawUrl keys headers p auth aborted url hs :
  isIP_ok isIP → allowPrivateNetworks policy = false →
  open_request isIP parse_url policy rawUrl keys headers p auth aborted = inr (url, hs) →
  (∀ key, In key keys → option_known key = true) ∧ protocol url = js "https:" ∧ username url = [] ∧ password url = [] ∧ hash url = [] ∧ search url = [] ∧
  (isIP (stripIpBrackets (hostname url)) ≠ 0 → ∃ ip, means (stripIpBrackets (hostname url)) ip ∧ ¬ special ip) ∧
  ∀ answer addresses, egress_lookup isIP policy answer = inr addresses →
    addresses ≠ [] ∧ answer = Some addresses ∧ ∀ a, In a addresses → ∃ ip, means (stripIpBrackets a) ip ∧ ¬ special ip.
Proof.
  intros Hip Hpriv. rewrite /open_request. destruct (negb _); [done|]. destruct (existsb _ keys) eqn:E0; [done|]. destruct (negb _); [done|]. rewrite /validateProviderBaseUrl Hpriv. destruct (parse_url rawUrl) as [u|]; [|done].
  destruct (str_eqb (protocol u) (js "https:")) eqn:E1; [|done]. cbn [negb andb]. destruct (_ || _) eqn:E2; [done|]. destruct (negb (str_eqb (hash u) []) || _) eqn:E3; [done|].
  destruct (_ && _) eqn:E4; [done|]. destruct aborted; [done|]. destruct (request_headers headers p auth); [|done]. intros [= <- <-].
  apply str_eqb_eq in E1. apply orb_false_iff in E2 as [E2 E2']. apply orb_false_iff in E3 as [E3 E3']. apply negb_false_iff, str_eqb_eq in E2, E2', E3, E3'.
  split_and!; try done.
  - intros key Hin. destruct (option_known key) eqn:E; [done|]. have : existsb (λ key, negb (option_known key)) keys = true; [|congruence].
    apply existsb_exists. exists key. by rewrite E.
  - intros Hne. apply (safe_address isIP); [done|]. apply andb_false_iff in E4 as [E4|E4]; [|done]. rewrite andb_true_r negb_false_iff Z.eqb_eq in E4. done.
  - intros [answer|] addresses; rewrite /egress_lookup; [|done]. destruct (assertResolvedAddressesSafe isIP answer policy) eqn:E5; [|done]. intros [= <-].
    rewrite /assertResolvedAddressesSafe Hpriv orb_false_l in E5. apply andb_true_iff in E5 as [E5 E6]. split_and!; [by intros ->|done|]. intros a Ha. apply (safe_address isIP); [done|].
    destruct (isPrivateOrSpecialAddress isIP a) eqn:E; [|done]. move: E6. rewrite negb_true_iff. intros E6. have : existsb (isPrivateOrSpecialAddress isIP) answer = true; [|congruence].
    apply existsb_exists. eauto.
Qed.

(** C?. Only allowed headers go out: every header of the request is on the allow list (in lower
    case, with a value the caller gave for it), or is the one credential header of the request's
    own authentication, which nothing the caller passes can set or replace. *)
Theorem egress_headers_exact headers p auth hs name value :
  request_headers headers p auth = Some hs → map_get name hs = Some value →
  (allowed_header p name = true ∧ ∃ raw, In (raw, value) headers ∧ toLowerCase raw = name) ∨
  (∃ key, auth = API_KEY key ∧ key ≠ [] ∧ name = js "x-api-key" ∧ value = key) ∨
  (∃ token, auth = BEARER token ∧ token ≠ [] ∧ name = js "authorization" ∧ value = js "Bearer " ++ token).
Proof.
  rewrite /request_headers. destruct (providerAuthHeaders auth) as [own|] eqn:Ea; [|done]. intros [= <-].
  have Hsan : ∀ n v, map_get n (sanitizeProviderHeaders headers p) = Some v → allowed_header p n = true ∧ ∃ raw, In (raw, v) headers ∧ toLowerCase raw = n.
  { rewrite /sanitizeProviderHeaders. have Hgen : ∀ l m, (∀ n v, map_get n m = Some v → allowed_header p n = true ∧ ∃ raw, In (raw, v) headers ∧ toLowerCase raw = n) →
      (∀ nv, In nv l → In nv headers) → ∀ n v, map_get n (fold_left (λ m nv, let name := toLowerCase nv.1 in if allowed_header p name then map_set name nv.2 m else m) l m) = Some v →
      allowed_header p n = true ∧ ∃ raw, In (raw, v) headers ∧ toLowerCase raw = n.
    { induction l as [|[n0 v0] l IH]; intros m Hm Hl n v; cbn [fold_left]; [apply Hm|]. apply IH; [|by intros; apply Hl; right].
      cbn [fst snd]. destruct (allowed_header p (toLowerCase n0)) eqn:E; [|done]. intros n' v'. rewrite map_get_set. case_decide as Hn; [|apply Hm].
      intros [= <-]. subst. split; [done|]. exists n0. split; [apply Hl; by left|done]. }
    by apply (Hgen headers []). }
  destruct auth as [[|c key]|[|c token]|]; try done; injection Ea as <-; cbn [fold_left fst snd]; [| |by intros H; left; apply Hsan].
  - rewrite map_get_set. case_decide as Hn; [|by intros H; left; apply Hsan]. intros [= <-]. right. left. by exists (c :: key).
  - rewrite map_get_set. case_decide as Hn; [|by intros H; left; apply Hsan]. intros [= <-]. right. right. by exists (c :: token).
Qed.
