(* ===== verification/WireExample.v ===== *)
(** * WireExample: concrete streams, frames and addresses

    Runs of the event decoder, the relay's binary frames and the egress checks for the theorems
    about them. *)
From Stdlib Require Import ssreflect.
From S2P Require Import Prelude JsString IpLiteral Utf8 Sse SseStream RelayFrames ProviderEgress EgressSafety.

(** ** Events *)

(** Two events: a named one with a character of two bytes, and one without a name. *)
Definition two_events : list (option text * text) := [(Some (js "ping"), js "caf" ++ [233]); (None, js "[DONE]")].

Definition two_bytes : list Z := encode (concat (map render_event two_events)).

(** Cut inside the character and inside a separator. *)
Definition cut_chunks : list (list Z) := [take 22 two_bytes; take 2 (drop 22 two_bytes); drop 24 two_bytes].

Lemma sse_chunking_irrelevant_witness :
  read_stream 100 [two_bytes] = inr (records_at 0 two_events) ∧
  (read_stream 100 cut_chunks = inr (records_at 0 two_events) ∨ read_stream 100 cut_chunks = inl stream_buffer_exceeded).
Proof.
  split; [vm_compute; reflexivity|]. apply (sse_chunking_irrelevant 100 [two_bytes] cut_chunks); vm_compute; reflexivity.
Defined.

(** The first event ends after 25 bytes. *)
Lemma sse_offset_exact_witness :
  read_stream 100 [take 25 (concat cut_chunks)] = inr (take 1 (records_at 0 two_events)).
Proof.
  refine (proj2 (sse_offset_exact 100 cut_chunks (records_at 0 two_events) 0 (event_record (Some (js "ping"), js "caf" ++ [233])) 25 _ _)); vm_compute; reflexivity.
Defined.

Lemma two_events_ok : Forall event_ok two_events.
Proof.
  repeat constructor; cbn; try done; intros name [= <-]; repeat constructor; done.
Qed.

Lemma sse_round_trip_witness : read_stream 64 cut_chunks = inr (records_at 0 two_events).
Proof.
  apply (sse_round_trip 64 two_events cut_chunks); [lia|exact two_events_ok| |vm_compute; reflexivity].
  repeat constructor; vm_compute; discriminate.
Defined.

(** ** Frames *)

Definition small_meta : text := js "{t:1}".

Definition example_frame : list Z := [0; 0; 0; 5; 123; 116; 58; 49; 125; 7; 8].

Lemma relay_frame_round_trip_witness :
  encodeRelayBinaryFrame (λ _ : unit, false) (λ _, true) (λ _, Some small_meta) tt [7; 8] = inr example_frame ∧
  splitBinaryFrame example_frame = inr (small_meta, [7; 8]).
Proof.
  split; [reflexivity|].
  apply (relay_frame_round_trip (λ _ : unit, false) (λ _, true) (λ _, Some small_meta) tt); [reflexivity|repeat constructor|reflexivity|reflexivity].
Defined.

Lemma relay_frame_split_exact_witness :
  ∃ meta, example_frame = setUint32 (Z.of_nat (length meta)) ++ meta ++ [7; 8] ∧ small_meta = decode_lossy meta ∧
          Z.of_nat (length meta) ≤ RELAY_JSON_CONTROL_MAX_BYTES ∧ Z.of_nat (length [7; 8]) ≤ RELAY_BINARY_CHUNK_MAX_BYTES.
Proof.
  apply (relay_frame_split_exact example_frame small_meta [7; 8]); [|reflexivity]. repeat (constructor; [by rewrite /byte|]). constructor.
Defined.

(** ** Addresses *)

Definition node_isIP (s : jstr) : Z :=
  match parseIpv4 s with Some _ => 4 | None => match v6_value s with Some _ => 6 | None => 0 end end.

Lemma node_isIP_ok : isIP_ok node_isIP.
Proof.
  split; intros s; rewrite /node_isIP.
  - destruct (parseIpv4 s); [done|]. destruct (v6_value s); split; [done|by intros []|done|by intros []].
  - intros _. destruct (parseIpv4 s); [split; [done|by intros []]|]. destruct (v6_value s); split; [done|done|done|by intros [_ []]].
Qed.

(** A private address in IPv4-mapped hexadecimal. *)
Lemma private_address_exact_witness :
  isPrivateOrSpecialAddress node_isIP (js "[::ffff:C0A8:1]") = true ∧
  ∀ ip, means (stripIpBrackets (js "[::ffff:C0A8:1]")) ip → special ip.
Proof.
  have H : isPrivateOrSpecialAddress node_isIP (js "[::ffff:C0A8:1]") = true by vm_compute. split; [exact H|].
  exact (proj1 (private_address_exact node_isIP (js "[::ffff:C0A8:1]") node_isIP_ok) H).
Defined.

Definition example_url : Url := {| protocol := js "https:"; username := []; password := []; hash := []; search := []; hostname := js "api.example.com" |}.

Definition public_only : ProviderEgressPolicy := {| allowPrivateNetworks := false; egressEnabled := true; timeoutMs := Some (Millis 30000) |}.

Definition example_headers : list (jstr * jstr) := [(js "Accept", js "text/event-stream"); (js "Authorization", js "Bearer stolen")].

Lemma egress_never_private_witness :
  ∃ hs, open_request node_isIP (λ _, Some example_url) public_only [] [StringKey (js "headers")] example_headers openai (BEARER (js "k")) false = inr (example_url, hs) ∧
    egress_lookup node_isIP public_only (Some [js "8.8.8.8"]) = inr [js "8.8.8.8"] ∧
    ∃ ip, means (stripIpBrackets (js "8.8.8.8")) ip ∧ ¬ special ip.
Proof.
  eexists. split; [vm_compute; reflexivity|]. split; [vm_compute; reflexivity|].
  destruct (egress_never_private node_isIP (λ _, Some example_url) public_only [] [StringKey (js "headers")] example_headers openai (BEARER (js "k")) false example_url _ node_isIP_ok eq_refl eq_refl)
    as (_ & _ & _ & _ & _ & _ & _ & Hlookup).
  destruct (Hlookup (Some [js "8.8.8.8"]) [js "8.8.8.8"]) as (_ & _ & H); [vm_compute; reflexivity|]. apply H. by left.
Defined.

Lemma egress_headers_exact_witness :
  ∃ hs, request_headers example_headers openai (BEARER (js "k")) = Some hs ∧ map_get (js "authorization") hs = Some (js "Bearer k") ∧
    ((allowed_header openai (js "authorization") = true ∧ ∃ raw, In (raw, js "Bearer k") example_headers ∧ toLowerCase raw = js "authorization") ∨
     (∃ key, BEARER (js "k") = API_KEY key ∧ key ≠ [] ∧ js "authorization" = js "x-api-key" ∧ js "Bearer k" = key) ∨
     ∃ token, BEARER (js "k") = BEARER token ∧ token ≠ [] ∧ js "authorization" = js "authorization" ∧ js "Bearer k" = js "Bearer " ++ token).
Proof.
  eexists. split; [reflexivity|]. split; [reflexivity|]. eapply (egress_headers_exact example_headers openai (BEARER (js "k"))); reflexivity.
Defined.
