(* ===== verification/JsNumber.v ===== *)
(** * JsNumber: JavaScript numbers as IEEE 754 binary64

    A [number] of the language is a binary64 value: the Standard Library's executable
    specification of floating point ([spec_float], precision 53, exponent bound 1024), so that
    sums, quotients and [Math.round] have the rounding of the code. Its comparisons are a total
    order on what is not NaN, up to the sign of zero. *)
From Stdlib Require Import ssreflect SpecFloat.
From S2P Require Import Prelude.

Definition num : Type := spec_float.

#[global] Instance num_eq_dec : EqDecision num.
Proof. solve_decision. Defined.

Definition num_of_Z (z : Z) : num := binary_normalize 53 1024 z 0 false.
Definition num_add : num → num → num := SFadd 53 1024.
Definition num_sub : num → num → num := SFsub 53 1024.
Definition num_mul : num → num → num := SFmul 53 1024.
Definition num_div : num → num → num := SFdiv 53 1024.

(** [a < b] and [a <= b]: false when one is NaN. *)
Definition num_lt : num → num → bool := SFltb.
Definition num_le : num → num → bool := SFleb.

(** [Number.isFinite]. *)
Definition num_finite (x : num) : bool := match x with S754_zero _ | S754_finite _ _ _ => true | _ => false end.

(** [Math.round]: the nearest integer, halves upwards. *)
Definition num_round (x : num) : num :=
  match x with
  | S754_finite s m e =>
      if 0 <=? e then x
      else
        let unit := 2 ^ (- e) in
        let q := (2 * cond_Zopp s (Z.pos m) + unit) / (2 * unit) in
        if q =? 0 then S754_zero s else num_of_Z q
  | _ => x
  end.

(** The decimal literal [n/d]. *)
Definition num_ratio (n d : Z) : num := num_div (num_of_Z n) (num_of_Z d).

(** ** Order *)

(** The place of a number among the others; only the signs of zero share one. *)
Definition num_rank (x : num) : option (Z * (Z * Z)) :=
  match x with
  | S754_nan => None
  | S754_infinity s => Some (if s then -2 else 2, (0, 0))
  | S754_zero _ => Some (0, (0, 0))
  | S754_finite s m e => Some (if s then (-1, (- e, Z.neg m)) else (1, (e, Z.pos m)))
  end.

Definition lex (c d : comparison) : comparison := match c with Eq => d | _ => c end.
Definition rank_compare (a b : Z * (Z * Z)) : comparison :=
  lex (a.1 ?= b.1) (lex (a.2.1 ?= b.2.1) (a.2.2 ?= b.2.2)).

Lemma SFcompare_rank x y :
  SFcompare x y = match num_rank x, num_rank y with Some a, Some b => Some (rank_compare a b) | _, _ => None end.
Proof.
  destruct x as [sx|sx| |sx mx ex], y as [sy|sy| |sy my ey]; cbn [SFcompare num_rank]; try done; try (by destruct sx); try (by destruct sy); try (by destruct sx, sy).
  f_equal. destruct sx, sy; try done; rewrite /rank_compare /lex; cbn [fst snd].
  - change (-1 ?= -1) with Eq. rewrite Z.compare_opp (Z.compare_antisym ex ey). by destruct (ex ?= ey).
  - change (1 ?= 1) with Eq. by destruct (ex ?= ey).
Qed.

Definition rank_lt (a b : Z * (Z * Z)) : Prop :=
  a.1 < b.1 ∨ (a.1 = b.1 ∧ (a.2.1 < b.2.1 ∨ (a.2.1 = b.2.1 ∧ a.2.2 < b.2.2))).

Lemma rank_compare_spec a b :
  match rank_compare a b with Lt => rank_lt a b | Gt => rank_lt b a | Eq => a = b end.
Proof.
  destruct a as [a1 [a2 a3]], b as [b1 [b2 b3]]. rewrite /rank_compare /rank_lt /lex. cbn [fst snd].
  destruct (Z.compare_spec a1 b1), (Z.compare_spec a2 b2), (Z.compare_spec a3 b3); subst; try done; lia.
Qed.

Definition num_nan (x : num) : bool := match x with S754_nan => true | _ => false end.

Lemma num_finite_nan x : num_finite x = true → num_nan x = false.
Proof. by destruct x. Qed.

Lemma num_rank_Some x : num_nan x = false → ∃ a, num_rank x = Some a.
Proof. destruct x as [|[]| |[] m e]; try done; eauto. Qed.

Lemma num_lt_rank x y a b : num_rank x = Some a → num_rank y = Some b → num_lt x y = true ↔ rank_lt a b.
Proof.
  intros Hx Hy. rewrite /num_lt /SFltb SFcompare_rank Hx Hy. pose proof (rank_compare_spec a b) as H.
  destruct (rank_compare a b); split; try done; [subst; unfold rank_lt; lia|unfold rank_lt in *; lia].
Qed.

Lemma num_le_rank x y a b : num_rank x = Some a → num_rank y = Some b → num_le x y = true ↔ ¬ rank_lt b a.
Proof.
  intros Hx Hy. rewrite /num_le /SFleb SFcompare_rank Hx Hy. pose proof (rank_compare_spec a b) as H.
  destruct (rank_compare a b); split; try done; unfold rank_lt in *; subst; lia.
Qed.

(** The same place: what no comparison tells apart. *)
Definition num_same (x y : num) : Prop := num_rank x = num_rank y.

#[export] Instance num_lt_proper : Proper (num_same ==> num_same ==> eq) num_lt.
Proof. intros x x' Hx y y' Hy. by rewrite /num_lt /SFltb !SFcompare_rank Hx Hy. Qed.
#[export] Instance num_le_proper : Proper (num_same ==> num_same ==> eq) num_le.
Proof. intros x x' Hx y y' Hy. by rewrite /num_le /SFleb !SFcompare_rank Hx Hy. Qed.

Section Order.
Context (x y z : num) (Hx : num_nan x = false) (Hy : num_nan y = false) (Hz : num_nan z = false).

Lemma num_lt_irrefl : num_lt x x = false.
Proof.
  destruct (num_rank_Some x Hx) as [a Ha]. apply not_true_is_false. rewrite (num_lt_rank x x a a Ha Ha). unfold rank_lt. lia.
Qed.

(** Not less either way: the same place. *)
Lemma num_lt_antisym : num_lt x y = false → num_lt y x = false → num_same x y.
Proof.
  destruct (num_rank_Some x Hx) as [[a1 [a2 a3]] Ha], (num_rank_Some y Hy) as [[b1 [b2 b3]] Hb].
  intros H1%not_true_iff_false H2%not_true_iff_false. rewrite (num_lt_rank _ _ _ _ Ha Hb) in H1. rewrite (num_lt_rank _ _ _ _ Hb Ha) in H2.
  rewrite /num_same Ha Hb. unfold rank_lt in *. cbn in *. repeat f_equal; lia.
Qed.

(** Not less is transitive. *)
Lemma num_nlt_trans : num_lt y x = false → num_lt z y = false → num_lt z x = false.
Proof.
  destruct (num_rank_Some x Hx) as [a Ha], (num_rank_Some y Hy) as [b Hb], (num_rank_Some z Hz) as [c Hc].
  rewrite -!not_true_iff_false (num_lt_rank _ _ _ _ Hb Ha) (num_lt_rank _ _ _ _ Hc Hb) (num_lt_rank _ _ _ _ Hc Ha). unfold rank_lt. lia.
Qed.

Lemma num_lt_asym : num_lt x y = true → num_lt y x = false.
Proof.
  destruct (num_rank_Some x Hx) as [a Ha], (num_rank_Some y Hy) as [b Hb].
  rewrite -not_true_iff_false (num_lt_rank _ _ _ _ Hb Ha) (num_lt_rank _ _ _ _ Ha Hb). unfold rank_lt. lia.
Qed.
End Order.
