(* ===== verification/MetricRouting.v ===== *)
(** * MetricRouting: routing rules over a node's metrics

    [packages/api/src/lib/metric-routing.ts]: the rules of a pool and their stored rows, the
    series a [node.metrics] sample and an [endpoint.load] reading flatten to, and the evaluation
    of the rules against one member's series. Numbers are binary64 ([JsNumber]), times
    milliseconds. [Date.parse] is a parameter. *)
From Stdlib Require Import ssreflect.
From S2P Require Import Prelude JsString JsNumber.

(** [/^[A-Za-z0-9_.:-]{1,64}$/] *)
Definition metric_char (c : Z) : bool :=
  is_upper c || is_lower c || is_digit c || (c =? 95) || (c =? 46) || (c =? 58) || (c =? 45).
Definition METRIC_NAME_PATTERN (s : jstr) : bool :=
  (1 <=? length s)%nat && (length s <=? 64)%nat && forallb metric_char s.

Definition ROUTING_RULES_MAX : nat := 16.
Definition ROUTING_RULE_LABELS_MAX : nat := 16.
Definition RESERVED_METRIC_PREFIXES : list jstr := [js "node."; js "endpoint."].
Definition NODE_METRICS_STALE_AFTER_MS : Z := 90000.
Definition ENDPOINT_LOAD_STALE_AFTER_MS : Z := 15000.
Definition CUSTOM_STALE_INTERVALS : Z := 3.
Definition CUSTOM_DEFAULT_INTERVAL_SECS : Z := 30.

(** ** Rules *)

Inductive RuleOp : Type := op_gt | op_ge | op_lt | op_le.
Inductive RuleEffect : Type := effect_full | effect_avoid.
Inductive RuleAggregate : Type := agg_max | agg_min | agg_avg.

#[global] Instance RuleOp_eq_dec : EqDecision RuleOp.
Proof. solve_decision. Defined.
#[global] Instance RuleAggregate_eq_dec : EqDecision RuleAggregate.
Proof. solve_decision. Defined.
#[global] Instance RuleEffect_eq_dec : EqDecision RuleEffect.
Proof. solve_decision. Defined.

Definition op_text (o : RuleOp) : jstr := match o with op_gt => js ">" | op_ge => js ">=" | op_lt => js "<" | op_le => js "<=" end.
Definition effect_text (e : RuleEffect) : jstr := match e with effect_full => js "full" | effect_avoid => js "avoid" end.
Definition aggregate_text (a : RuleAggregate) : jstr := match a with agg_max => js "max" | agg_min => js "min" | agg_avg => js "avg" end.

(** [z.enum(...)]: the value a text names. *)
Definition ROUTING_RULE_OPS (s : jstr) : option RuleOp := List.find (λ o, str_eqb (op_text o) s) [op_gt; op_ge; op_lt; op_le].
Definition ROUTING_RULE_EFFECTS (s : jstr) : option RuleEffect := List.find (λ e, str_eqb (effect_text e) s) [effect_full; effect_avoid].
Definition ROUTING_RULE_AGGREGATES (s : jstr) : option RuleAggregate := List.find (λ a, str_eqb (aggregate_text a) s) [agg_max; agg_min; agg_avg].

Definition Labels : Type := jsmap jstr jstr.

(** A rule as the schema outputs it; a member id is [None] for null and undefined. *)
Record RoutingRule : Type := mkRule {
  r_metric : jstr;
  r_labels : option Labels;
  r_aggregate : RuleAggregate;
  r_op : RuleOp;
  r_threshold : num;
  r_effect : RuleEffect;
  r_memberId : option jstr;
  r_excludeMemberId : option jstr;
}.

(** The [labels] a rule is parsed from: undefined, an object (each value a string or something
    else), or another value. *)
Inductive LabelsInput : Type :=
  | LabelsUndefined
  | LabelsObject (entries : list (jstr * option jstr))
  | LabelsOther.

Record RuleInput : Type := mkInput {
  i_metric : jstr;
  i_labels : LabelsInput;
  i_aggregate : option jstr;
  i_op : jstr;
  i_threshold : num;
  i_effect : jstr;
  i_memberId : option jstr;
  i_excludeMemberId : option jstr;
}.

Definition RESERVED_LABEL_KEYS : list jstr := [js "__proto__"].

(** [z.record(metricNameSchema, metricNameSchema)] on the entries. *)
Fixpoint label_entries (entries : list (jstr * option jstr)) : option Labels :=
  match entries with
  | [] => Some []
  | (k, v) :: rest =>
      match v, label_entries rest with
      | Some text, Some m => if METRIC_NAME_PATTERN k && METRIC_NAME_PATTERN text then Some ((k, text) :: m) else None
      | _, _ => None
      end
  end.

Definition labelsSchema (labels : LabelsInput) : option (option Labels) :=
  match labels with
  | LabelsUndefined => Some None
  | LabelsOther => None
  | LabelsObject entries =>
      if existsb (λ key, existsb (λ e : jstr * option jstr, str_eqb e.1 key) entries) RESERVED_LABEL_KEYS then None
      else match label_entries entries with
           | Some m => if (length m <=? ROUTING_RULE_LABELS_MAX)%nat then Some (Some m) else None
           | None => None
           end
  end.

(** [idSchema.nullable().optional()]. *)
Definition optionalMemberId (id : option jstr) : bool := match id with Some s => (1 <=? length s)%nat | None => true end.

(** A present, non-empty id. *)
Definition truthy (id : option jstr) : bool := match id with Some (_ :: _) => true | _ => false end.

Definition routingRuleSchema (i : RuleInput) : option RoutingRule :=
  match labelsSchema (i_labels i), ROUTING_RULE_AGGREGATES (default (js "max") (i_aggregate i)), ROUTING_RULE_OPS (i_op i), ROUTING_RULE_EFFECTS (i_effect i) with
  | Some labels, Some aggregate, Some op, Some effect =>
      if METRIC_NAME_PATTERN (i_metric i) && num_finite (i_threshold i) && optionalMemberId (i_memberId i) && optionalMemberId (i_excludeMemberId i)
         && negb (truthy (i_memberId i) && truthy (i_excludeMemberId i))
      then Some (mkRule (i_metric i) labels aggregate op (i_threshold i) effect (i_memberId i) (i_excludeMemberId i))
      else None
  | _, _, _, _ => None
  end.

(** The schema on every element. *)
Fixpoint parse_all (inputs : list RuleInput) : option (list RoutingRule) :=
  match inputs with
  | [] => Some []
  | i :: inputs' => match routingRuleSchema i, parse_all inputs' with Some r, Some rs => Some (r :: rs) | _, _ => None end
  end.

(** [None] is a value that is not a list of such objects. *)
Definition parseStoredRoutingRules (value : option (list RuleInput)) : list RoutingRule :=
  match value with
  | Some inputs => if (length inputs <=? ROUTING_RULES_MAX)%nat then default [] (parse_all inputs) else []
  | None => []
  end.

(** ** Stored rows *)

(** The JSON value of the labels column. *)
Inductive LabelsColumn : Type := ColNull | ColObject (entries : list (jstr * option jstr)) | ColOther.

Record StoredRoutingRuleRow : Type := mkRow {
  w_position : option Z;
  w_metric : jstr;
  w_labels : LabelsColumn;
  w_aggregate : option jstr;
  w_op : jstr;
  w_threshold : num;
  w_effect : jstr;
  w_memberId : option jstr;
  w_exclude : bool;
}.

Definition labelsFromStored (c : LabelsColumn) : LabelsInput :=
  match c with ColObject entries => LabelsObject entries | ColNull | ColOther => LabelsUndefined end.

Definition rule_input (row : StoredRoutingRuleRow) : RuleInput :=
  mkInput (w_metric row) (labelsFromStored (w_labels row)) (Some (default (js "max") (w_aggregate row))) (w_op row) (w_threshold row) (w_effect row)
    (if w_exclude row then None else w_memberId row) (if w_exclude row then w_memberId row else None).

(** The loop over the ordered rows; [parsed] is in order. *)
Fixpoint collect_rules (parsed : list RoutingRule) (rows : list StoredRoutingRuleRow) : list RoutingRule :=
  match rows with
  | [] => parsed
  | row :: rows' =>
      if (ROUTING_RULES_MAX <=? length parsed)%nat then parsed
      else match routingRuleSchema (rule_input row) with
           | Some rule => collect_rules (parsed ++ [rule]) rows'
           | None => collect_rules parsed rows'
           end
  end.

Definition row_order (a b : StoredRoutingRuleRow) : Z := default 0 (w_position a) - default 0 (w_position b).

Definition routingRulesFromRows (rows : list StoredRoutingRuleRow) : list RoutingRule :=
  collect_rules [] (sort_by row_order rows).

Definition store_labels (labels : option Labels) : LabelsColumn :=
  match labels with None => ColNull | Some m => ColObject (map (λ e : jstr * jstr, (e.1, Some e.2)) m) end.

Definition stored_row (position : nat) (rule : RoutingRule) : StoredRoutingRuleRow :=
  mkRow (Some (Z.of_nat position)) (r_metric rule) (store_labels (r_labels rule)) (Some (aggregate_text (r_aggregate rule)))
    (op_text (r_op rule)) (r_threshold rule) (effect_text (r_effect rule))
    (match r_memberId rule with Some id => Some id | None => r_excludeMemberId rule end) (truthy (r_excludeMemberId rule)).

Definition toStoredRoutingRuleRows (value : option (list RuleInput)) : list StoredRoutingRuleRow :=
  imap stored_row (parseStoredRoutingRules value).

(** Member ids a rule list names, in order of first mention. *)
Definition add_id (ids : list jstr) (id : option jstr) : list jstr :=
  match id with Some (c :: s) => if bool_decide ((c :: s) ∈ ids) then ids else ids ++ [c :: s] | _ => ids end.
Definition scopedRoutingMemberIds (rules : list RoutingRule) : list jstr :=
  fold_left (λ ids rule, add_id (add_id ids (r_memberId rule)) (r_excludeMemberId rule)) rules [].

(** ** Samples and series *)

(** The optional numbers of a sample: [None] for null and undefined. *)
Record CpuSample : Type := mkCpu { usagePercent : option num; load1 : option num; load5 : option num; load15 : option num }.
Record MemorySample : Type := mkMemory { totalMiB : option num; availableMiB : option num; swapFreeMiB : option num }.
Record DiskSample : Type := mkDisk { mount : jstr; freeMiB : option num }.
Record GpuSample : Type := mkGpuSample {
  gpu_index : Z;
  vramUsedMiB : option num;
  vramTotalMiB : option num;
  gttUsedMiB : option num;
  utilizationPercent : option num;
  temperatureC : option num;
  powerW : option num;
}.
Record CustomSample : Type := mkCustom { c_source : jstr; c_name : jstr; c_labels : option Labels; c_value : num; c_ts : jstr }.
Record SourceSample : Type := mkSource { src_name : jstr; src_state : jstr; src_intervalSecs : option Z }.

Record NodeMetricsSample : Type := mkSample {
  m_ts : option jstr;
  m_cpu : option CpuSample;
  m_memory : option MemorySample;
  m_disks : list DiskSample;
  m_gpus : list GpuSample;
  m_custom : list CustomSample;
  m_sources : list SourceSample;
}.

Inductive SeriesOrigin : Type := builtin | endpoint | custom.

Record MetricSeries : Type := mkSeries {
  s_name : jstr;
  s_labels : Labels;
  s_value : num;
  s_ageMs : Z;
  s_staleAfterMs : Z;
  s_origin : SeriesOrigin;
}.

Definition isStale (s : MetricSeries) : bool := s_staleAfterMs s <? s_ageMs s.

(** [round]: to hundredths. *)
Definition round_hundredths (x : num) : num := num_div (num_round (num_mul x (num_of_Z 100))) (num_of_Z 100).

Definition built_in (since : Z) (name : jstr) (value : option num) (labels : Labels) : list MetricSeries :=
  match value with
  | Some v => if num_finite v then [mkSeries name labels v since NODE_METRICS_STALE_AFTER_MS builtin] else []
  | None => []
  end.

(** A total above zero and a part of it, both finite. *)
Definition usable_pair (total part : option num) : option (num * num) :=
  match total, part with
  | Some t, Some p => if num_finite t && num_lt (num_of_Z 0) t && num_finite p then Some (t, p) else None
  | _, _ => None
  end.

Definition memory_used_percent (m : option MemorySample) : option num :=
  match usable_pair (m ≫= totalMiB) (m ≫= availableMiB) with
  | Some (t, a) => Some (round_hundredths (num_mul (num_div (num_sub t a) t) (num_of_Z 100)))
  | None => None
  end.

Definition vram_used_percent (g : GpuSample) : option num :=
  match usable_pair (vramTotalMiB g) (vramUsedMiB g) with
  | Some (t, u) => Some (round_hundredths (num_mul (num_div u t) (num_of_Z 100)))
  | None => None
  end.

Definition gpu_series (since : Z) (g : GpuSample) : list MetricSeries :=
  let labels := [(js "gpu", str_of_int (gpu_index g))] in
  built_in since (js "node.gpu.vram_used_mib") (vramUsedMiB g) labels
  ++ built_in since (js "node.gpu.vram_used_percent") (vram_used_percent g) labels
  ++ built_in since (js "node.gpu.gtt_used_mib") (gttUsedMiB g) labels
  ++ built_in since (js "node.gpu.utilization_percent") (utilizationPercent g) labels
  ++ built_in since (js "node.gpu.temperature_c") (temperatureC g) labels
  ++ built_in since (js "node.gpu.power_w") (powerW g) labels.

(** The interval of each source that runs. *)
Definition source_intervals (sources : list SourceSample) : jsmap jstr Z :=
  fold_left (λ m source,
    if negb (str_eqb (src_state source) (js "active")) && negb (str_eqb (src_state source) (js "failing")) then m
    else match src_intervalSecs source with Some secs => map_set (src_name source) secs m | None => m end) sources [].

Section Series.
(** [Date.parse]; [None] for NaN. *)
Context (Date_parse : jstr → option Z).

Definition parseTime (value : option jstr) : option Z :=
  match value with Some (c :: s) => Date_parse (c :: s) | _ => None end.

Definition custom_series (since : Z) (frameTs : option Z) (intervals : jsmap jstr Z) (c : CustomSample) : list MetricSeries :=
  if negb (num_finite (c_value c)) then []
  else if negb (METRIC_NAME_PATTERN (c_name c)) then []
  else if existsb (λ prefix, startsWith prefix (c_name c)) RESERVED_METRIC_PREFIXES then []
  else
    let ageAtFrameMs := match frameTs, parseTime (Some (c_ts c)) with Some f, Some s => Z.max 0 (f - s) | _, _ => 0 end in
    let intervalSecs := default CUSTOM_DEFAULT_INTERVAL_SECS (map_get (c_source c) intervals) in
    [mkSeries (c_name c) (default [] (c_labels c)) (c_value c) (ageAtFrameMs + since) (CUSTOM_STALE_INTERVALS * intervalSecs * 1000) custom].

Definition nodeMetricSeries (sample : NodeMetricsSample) (receivedAt now : Z) : list MetricSeries :=
  let since := Z.max 0 (now - receivedAt) in
  let memory := m_memory sample in
  let root := List.find (λ disk, str_eqb (mount disk) (js "/")) (m_disks sample) in
  built_in since (js "node.cpu.usage_percent") (m_cpu sample ≫= usagePercent) []
  ++ built_in since (js "node.cpu.load1") (m_cpu sample ≫= load1) []
  ++ built_in since (js "node.cpu.load5") (m_cpu sample ≫= load5) []
  ++ built_in since (js "node.cpu.load15") (m_cpu sample ≫= load15) []
  ++ built_in since (js "node.memory.available_mib") (memory ≫= availableMiB) []
  ++ built_in since (js "node.memory.used_percent") (memory_used_percent memory) []
  ++ built_in since (js "node.swap.free_mib") (memory ≫= swapFreeMiB) []
  ++ built_in since (js "node.disk.free_mib") (root ≫= freeMiB) []
  ++ concat (map (gpu_series since) (m_gpus sample))
  ++ concat (map (custom_series since (parseTime (m_ts sample)) (source_intervals (m_sources sample))) (m_custom sample)).
End Series.

Record EndpointLoadSample : Type := mkLoad {
  l_endpointSlug : jstr;
  l_modelSlug : option jstr;
  l_running : num;
  l_waiting : option num;
  l_kvUsage : option num;
  l_kvOccupancy : option num;
  l_slotsBusy : option num;
  l_deferred : option num;
  l_source : option jstr;
  l_waitingStreak : option Z;
  l_receivedAt : Z;
}.

Definition pickEndpointLoad (loads : list EndpointLoadSample) (endpointSlug : jstr) (modelSlug : option jstr) : option EndpointLoadSample :=
  let forEndpoint := List.filter (λ l, str_eqb (l_endpointSlug l) endpointSlug) loads in
  let exact := if truthy modelSlug then List.find (λ l, bool_decide (l_modelSlug l = modelSlug)) forEndpoint else None in
  match exact with
  | Some l => Some l
  | None => List.find (λ l, bool_decide (l_modelSlug l = None)) forEndpoint
  end.

Definition endpoint_series (ageMs : Z) (name : jstr) (value : option num) : list MetricSeries :=
  match value with
  | Some v => if num_finite v then [mkSeries name [] v ageMs ENDPOINT_LOAD_STALE_AFTER_MS endpoint] else []
  | None => []
  end.

Definition endpointLoadSeries (loads : list EndpointLoadSample) (endpointSlug : jstr) (modelSlug : option jstr) (now : Z) : list MetricSeries :=
  match pickEndpointLoad loads endpointSlug modelSlug with
  | None => []
  | Some load =>
      let ageMs := Z.max 0 (now - l_receivedAt load) in
      endpoint_series ageMs (js "endpoint.running") (Some (l_running load))
      ++ endpoint_series ageMs (js "endpoint.waiting") (l_waiting load)
      ++ endpoint_series ageMs (js "endpoint.kv_usage") (l_kvUsage load)
      ++ endpoint_series ageMs (js "endpoint.kv_occupancy") (l_kvOccupancy load)
      ++ endpoint_series ageMs (js "endpoint.slots_busy") (l_slotsBusy load)
      ++ endpoint_series ageMs (js "endpoint.deferred") (l_deferred load)
  end.

(** ** Evaluation *)

Inductive RuleState : Type := rule_triggered | rule_clear | rule_stale.
Inductive RoutingVerdict : Type := verdict_none | verdict_avoid | verdict_full.

#[global] Instance RoutingVerdict_eq_dec : EqDecision RoutingVerdict.
Proof. solve_decision. Defined.

Record RoutingEvaluation : Type := mkEvaluation { e_verdict : RoutingVerdict; e_ruleStates : list RuleState; e_expiresAt : Z }.

Definition labelsMatch (series : Labels) (wanted : option Labels) : bool :=
  match wanted with
  | None => true
  | Some w => forallb (λ kv : jstr * jstr, bool_decide (map_get kv.1 series = Some kv.2)) w
  end.

Definition rule_compare (value : num) (op : RuleOp) (threshold : num) : bool :=
  match op with
  | op_gt => num_lt threshold value
  | op_ge => num_le threshold value
  | op_lt => num_lt value threshold
  | op_le => num_le value threshold
  end.

Definition remainingMs (s : MetricSeries) : Z := Z.max 0 (s_staleAfterMs s - s_ageMs s).

Definition ruleAppliesToMember (rule : RoutingRule) (poolMemberId : option jstr) : bool :=
  if truthy (r_memberId rule) then bool_decide (r_memberId rule = poolMemberId)
  else if truthy (r_excludeMemberId rule) then negb (bool_decide (r_excludeMemberId rule = poolMemberId))
  else true.

(** [Number.POSITIVE_INFINITY] is [None]. *)
Definition min_expiry (a : option Z) (b : Z) : option Z := match a with None => Some b | Some x => Some (Z.min x b) end.
(** [Number.NEGATIVE_INFINITY] is [None]. *)
Definition max_expiry (a : option Z) (b : Z) : option Z := match a with None => Some b | Some x => Some (Z.max x b) end.

Definition pick_best (aggregate : RuleAggregate) (best entry : MetricSeries) : MetricSeries :=
  if match aggregate with agg_min => num_lt (s_value entry) (s_value best) | _ => num_lt (s_value best) (s_value entry) end
  then entry else best.

(** [None] only for no series, which the caller rules out. *)
Definition aggregateMatching (matching : list MetricSeries) (aggregate : RuleAggregate) (nowMs : Z) : option (num * Z) :=
  match matching with
  | [] => None
  | first :: _ =>
      match aggregate with
      | agg_avg =>
          let sum := fold_left (λ sum entry, num_add sum (s_value entry)) matching (num_of_Z 0) in
          let earliest := fold_left (λ e entry, min_expiry e (nowMs + remainingMs entry)) matching None in
          Some (num_div sum (num_of_Z (Z.of_nat (length matching))), default 0 earliest)
      | _ =>
          let best := fold_left (pick_best aggregate) matching first in
          Some (s_value best, nowMs + remainingMs best)
      end
  end.

(** The state of one rule, with its expiry when it consulted fresh series. *)
Definition rule_matches (rule : RoutingRule) (s : MetricSeries) : bool :=
  str_eqb (s_name s) (r_metric rule) && labelsMatch (s_labels s) (r_labels rule) && negb (isStale s).

Definition evaluate_rule (rule : RoutingRule) (series : list MetricSeries) (nowMs : Z) (poolMemberId : option jstr) : RuleState * option Z :=
  if negb (ruleAppliesToMember rule poolMemberId) then (rule_clear, None)
  else
    match aggregateMatching (List.filter (rule_matches rule) series) (r_aggregate rule) nowMs with
    | None => (rule_stale, None)
    | Some (value, expiresAtMs) =>
        if rule_compare value (r_op rule) (r_threshold rule) then (rule_triggered, Some expiresAtMs) else (rule_clear, Some expiresAtMs)
    end.

(** What the loop over the rules carries. *)
Record EvalState : Type := mkEval {
  ev_states : list RuleState;
  ev_full : bool;
  ev_avoid : bool;
  ev_any : option Z;
  ev_decisive : list (RuleEffect * Z);
}.

Definition evaluate_step (series : list MetricSeries) (nowMs : Z) (poolMemberId : option jstr) (st : EvalState) (rule : RoutingRule) : EvalState :=
  match evaluate_rule rule series nowMs poolMemberId with
  | (state, None) => mkEval (ev_states st ++ [state]) (ev_full st) (ev_avoid st) (ev_any st) (ev_decisive st)
  | (rule_triggered, Some expiresAtMs) =>
      mkEval (ev_states st ++ [rule_triggered])
        (bool_decide (r_effect rule = effect_full) || ev_full st) (bool_decide (r_effect rule = effect_avoid) || ev_avoid st)
        (min_expiry (ev_any st) expiresAtMs) (ev_decisive st ++ [(r_effect rule, expiresAtMs)])
  | (state, Some expiresAtMs) =>
      mkEval (ev_states st ++ [state]) (ev_full st) (ev_avoid st) (min_expiry (ev_any st) expiresAtMs) (ev_decisive st)
  end.

Definition effect_verdict (e : RuleEffect) : RoutingVerdict := match e with effect_full => verdict_full | effect_avoid => verdict_avoid end.

Definition evaluateRoutingRules (rules : list RoutingRule) (series : list MetricSeries) (now : Z) (poolMemberId : option jstr) : RoutingEvaluation :=
  let st := fold_left (evaluate_step series now poolMemberId) rules (mkEval [] false false None []) in
  let verdict := if ev_full st then verdict_full else if ev_avoid st then verdict_avoid else verdict_none in
  let deciding := fold_left (λ d entry, if bool_decide (effect_verdict entry.1 = verdict) then max_expiry d entry.2 else d) (ev_decisive st) None in
  mkEvaluation verdict (ev_states st)
    (if bool_decide (verdict = verdict_none) then default now (ev_any st) else default 0 deciding).
