(* ===== verification/EngineLoad.v ===== *)
(** * EngineLoad: live engine load as a FULL signal

    [packages/api/src/lib/engine-load.ts], the engine-load gate of a runtime version
    ([gateFacts]), its combination with the rule verdict ([combineWithEngineLoad]) and the
    verdict of one (member, target) pair as [MetricRoutingEvaluator.evaluate] computes it. *)
From Stdlib Require Import ssreflect.
From S2P Require Import Prelude JsString JsNumber MetricRouting.

Definition DEFAULT_KV_FULL_THRESHOLD : num := num_ratio 95 100.
Definition WAITING_SUSTAINED_FRAMES : Z := 2.

Inductive EngineKind : Type := GENERIC | LLAMA_CPP | VLLM | SGLANG | OLLAMA | LM_STUDIO.
Inductive EngineLoadMode : Type := mode_AUTO | mode_OFF.
Inductive CustomEngineLoadMode : Type := OBSERVE | ENFORCE.
Inductive EngineLoadSource : Type := load_builtin | load_custom.

#[global] Instance EngineKind_eq_dec : EqDecision EngineKind.
Proof. solve_decision. Defined.
#[global] Instance CustomEngineLoadMode_eq_dec : EqDecision CustomEngineLoadMode.
Proof. solve_decision. Defined.
#[global] Instance EngineLoadSource_eq_dec : EqDecision EngineLoadSource.
Proof. solve_decision. Defined.

Inductive EngineLoadState : Type :=
  | load_off | load_none | load_stale | load_clear | full_waiting | full_kv | full_slots | full_deferred.

Definition CUSTOM_FULL_SIGNALS : list jstr := [js "waiting"; js "kvUsage"; js "slotsBusy"; js "deferred"].

Record EngineLoadFacts : Type := mkFacts {
  engineKind : option EngineKind;
  engineSlots : option num;
  engineMode : EngineLoadMode;
  kvFullThreshold : option num;
  loadSource : option EngineLoadSource;
  signals : list jstr;
  customMode : option CustomEngineLoadMode;
}.

Record EngineLoadReading : Type := mkReading {
  rd_waiting : option num;
  rd_kvUsage : option num;
  rd_slotsBusy : option num;
  rd_deferred : option num;
  rd_source : option jstr;
  rd_waitingStreak : Z;
  rd_receivedAt : Z;
}.

Record EngineLoadVerdict : Type := mkVerdict { ev_state : EngineLoadState; ev_isFull : bool; ev_enforced : bool; ev_expiresAt : option Z }.

Definition isCustomLoad (facts : EngineLoadFacts) (reading : option EngineLoadReading) : bool :=
  bool_decide (loadSource facts = Some load_custom) || bool_decide ((reading ≫= rd_source) = Some (js "custom")).

(** [engineHasLoadSignal]; [custom] gives the signals of a custom adapter. *)
Definition engineHasLoadSignal (kind : option EngineKind) (custom : option (list jstr)) : bool :=
  match custom with
  | Some declared => existsb (λ signal, bool_decide (signal ∈ CUSTOM_FULL_SIGNALS)) declared
  | None => bool_decide (kind = Some LLAMA_CPP) || bool_decide (kind = Some VLLM) || bool_decide (kind = Some SGLANG)
  end.

Definition effectiveKvFullThreshold (value : option num) : num :=
  match value with
  | Some v => if num_finite v && num_lt (num_of_Z 0) v && num_le v (num_of_Z 1) then v else DEFAULT_KV_FULL_THRESHOLD
  | None => DEFAULT_KV_FULL_THRESHOLD
  end.

Definition idleVerdict (state : EngineLoadState) : EngineLoadVerdict := mkVerdict state false false None.

Definition slots_full (facts : EngineLoadFacts) (r : EngineLoadReading) : bool :=
  match engineSlots facts, rd_slotsBusy r with
  | Some slots, Some busy => num_lt (num_of_Z 0) slots && num_le slots busy
  | _, _ => false
  end.

Definition deferred_some (r : EngineLoadReading) : bool :=
  match rd_deferred r with Some d => num_lt (num_of_Z 0) d | None => false end.

Definition waiting_sustained (r : EngineLoadReading) : bool :=
  num_lt (num_of_Z 0) (default (num_of_Z 0) (rd_waiting r)) && (WAITING_SUSTAINED_FRAMES <=? rd_waitingStreak r).

Definition kv_full (facts : EngineLoadFacts) (r : EngineLoadReading) : bool :=
  match rd_kvUsage r with Some kv => num_le (effectiveKvFullThreshold (kvFullThreshold facts)) kv | None => false end.

(** The checks of a fresh reading: the first that holds. *)
Definition load_signal (facts : EngineLoadFacts) (custom : bool) (r : EngineLoadReading) : option EngineLoadState :=
  if custom then
    if slots_full facts r then Some full_slots
    else if deferred_some r then Some full_deferred
    else if waiting_sustained r then Some full_waiting
    else if kv_full facts r then Some full_kv
    else None
  else if bool_decide (engineKind facts = Some LLAMA_CPP) then
    if slots_full facts r then Some full_slots
    else if deferred_some r then Some full_deferred
    else None
  else
    if waiting_sustained r then Some full_waiting
    else if kv_full facts r then Some full_kv
    else None.

Definition evaluateEngineLoad (facts : EngineLoadFacts) (reading : option EngineLoadReading) (now : Z) : EngineLoadVerdict :=
  match engineMode facts with
  | mode_OFF => idleVerdict load_off
  | mode_AUTO =>
      let custom := isCustomLoad facts reading in
      if negb (engineHasLoadSignal (engineKind facts) (if custom then Some (signals facts) else None)) then idleVerdict load_none
      else
        match reading with
        | None => idleVerdict load_stale
        | Some r =>
            let ageMs := Z.max 0 (now - rd_receivedAt r) in
            if ENDPOINT_LOAD_STALE_AFTER_MS <? ageMs then idleVerdict load_stale
            else
              let expiresAt := rd_receivedAt r + ENDPOINT_LOAD_STALE_AFTER_MS in
              let enforced := negb custom || bool_decide (customMode facts = Some ENFORCE) in
              match load_signal facts custom r with
              | Some state => mkVerdict state true enforced (Some expiresAt)
              | None => idleVerdict load_clear
              end
        end
  end.

(** ** The verdict of a pair *)

Definition combineWithEngineLoad (rules : RoutingEvaluation) (engine : EngineLoadVerdict) : RoutingEvaluation :=
  match ev_expiresAt engine with
  | Some engineExpiresAt =>
      if negb (ev_isFull engine) || negb (ev_enforced engine) then rules
      else
        let expiresAt :=
          if bool_decide (e_verdict rules = verdict_full) && (engineExpiresAt <? e_expiresAt rules) then e_expiresAt rules else engineExpiresAt in
        mkEvaluation verdict_full (e_ruleStates rules) expiresAt
  | None => rules
  end.

(** The engine vocabulary of a runtime version. *)
Definition ENGINE_TO_KIND (engine : jstr) : option EngineKind :=
  map_get engine [(js "VLLM", VLLM); (js "SGLANG", SGLANG); (js "LLAMA_CPP", LLAMA_CPP); (js "OLLAMA", OLLAMA); (js "LM_STUDIO", LM_STUDIO); (js "OTHER", GENERIC)].

Definition gateFacts (gate : option jstr) : EngineLoadMode * CustomEngineLoadMode :=
  if bool_decide (gate = Some (js "OBSERVE")) then (mode_OFF, OBSERVE)
  else if bool_decide (gate = Some (js "ENFORCE")) then (mode_AUTO, ENFORCE)
  else (mode_AUTO, OBSERVE).

(** What [evaluate] selects of a target's instance. *)
Record InstanceFacts : Type := mkInstance {
  in_handle : jstr;
  in_engineSlots : option num;
  in_loadSignals : list jstr;
  in_engine : option jstr;
  in_engineLoadGate : option jstr;
  in_kvFullThreshold : option num;
}.

Definition source_of (reading : option EndpointLoadSample) : EngineLoadSource :=
  match reading ≫= l_source with
  | Some s => if str_eqb s (js "route") || str_eqb s (js "command") then load_custom else load_builtin
  | None => load_builtin
  end.

Definition engine_facts (inst : InstanceFacts) (reading : option EndpointLoadSample) : EngineLoadFacts :=
  let gate := gateFacts (in_engineLoadGate inst) in
  mkFacts (ENGINE_TO_KIND (default [] (in_engine inst))) (in_engineSlots inst) gate.1 (in_kvFullThreshold inst)
    (Some (source_of reading)) (in_loadSignals inst) (Some gate.2).

(** [historyEngineFacts]: saturation whatever the gate. *)
Definition historyEngineFacts (inst : InstanceFacts) (readingSource : option jstr) : EngineLoadFacts :=
  mkFacts (ENGINE_TO_KIND (default [] (in_engine inst))) (in_engineSlots inst) mode_AUTO (in_kvFullThreshold inst)
    (Some match readingSource with
          | Some s => if str_eqb s (js "route") || str_eqb s (js "command") then load_custom else load_builtin
          | None => load_builtin
          end) (in_loadSignals inst) (Some ENFORCE).

Definition load_reading (l : EndpointLoadSample) : EngineLoadReading :=
  mkReading (l_waiting l) (l_kvUsage l) (l_slotsBusy l) (l_deferred l) (l_source l) (default 0 (l_waitingStreak l)) (l_receivedAt l).

(** The live inputs of a node. *)
Record RoutingEvaluationInputs : Type := mkInputs { in_nodeMetrics : option (NodeMetricsSample * Z); in_runtimeLoad : list EndpointLoadSample }.

Section Pair.
Context (Date_parse : jstr → option Z).

Definition node_series (inputs : RoutingEvaluationInputs) (now : Z) : list MetricSeries :=
  match in_nodeMetrics inputs with Some (sample, receivedAt) => nodeMetricSeries Date_parse sample receivedAt now | None => [] end.

Definition target_engine (inputs : RoutingEvaluationInputs) (inst : InstanceFacts) (modelSlug : jstr) (now : Z) : EngineLoadVerdict :=
  let reading := pickEndpointLoad (in_runtimeLoad inputs) (in_handle inst) (Some modelSlug) in
  evaluateEngineLoad (engine_facts inst reading) (load_reading <$> reading) now.

Definition member_evaluation (inputs : RoutingEvaluationInputs) (inst : InstanceFacts) (modelSlug memberId : jstr) (rules : list RoutingRule) (now : Z) : RoutingEvaluation :=
  let series := node_series inputs now ++ endpointLoadSeries (in_runtimeLoad inputs) (in_handle inst) (Some modelSlug) now in
  combineWithEngineLoad
    (match rules with [] => mkEvaluation verdict_none [] now | _ => evaluateRoutingRules rules series now (Some memberId) end)
    (target_engine inputs inst modelSlug now).
End Pair.
