(* ===== verification/MetricRoutingSafety.v ===== *)
(** * MetricRoutingSafety: how long a routing verdict holds, and what storing rules keeps

    A verdict is stored with its [expiresAt] and used until then without being computed again.
    The first part shows that this is sound: on the inputs it was computed from, computing it
    again at any moment up to [expiresAt] answers the same, or a stricter verdict where an
    [avoid] was stored. The second part shows that rules survive their storage as rows. *)
From Stdlib Require Import ssreflect.
From S2P Require Import Prelude JsString JsNumber MetricRouting EngineLoad.

Create HintDb aging.

(** ** Series that age *)

(** The same series, at most [d] milliseconds older. *)
Record older (d : Z) (s s' : MetricSeries) : Prop := {
  old_name : s_name s' = s_name s;
  old_labels : s_labels s' = s_labels s;
  old_value : s_value s' = s_value s;
  old_limit : s_staleAfterMs s' = s_staleAfterMs s;
  old_age : s_ageMs s ≤ s_ageMs s' ≤ s_ageMs s + d;
}.

Definition finite_series (s : MetricSeries) : Prop := num_finite (s_value s) = true.

Lemma Forall2_concat_map {A B} (R : B → B → Prop) (f g : A → list B) l :
  (∀ x, Forall2 R (f x) (g x)) → Forall2 R (concat (map f l)) (concat (map g l)).
Proof. intros H. induction l as [|x l IH]; cbn; [constructor|]. by apply Forall2_app. Qed.

Lemma Forall_concat_map {A B} (P : B → Prop) (f : A → list B) l :
  (∀ x, Forall P (f x)) → Forall P (concat (map f l)).
Proof. intros H. induction l as [|x l IH]; cbn; [constructor|]. by apply Forall_app_2. Qed.

Section Aging.
Context (Date_parse : jstr → option Z) (now t : Z) (Hle : now ≤ t).

Lemma since_older r : Z.max 0 (now - r) ≤ Z.max 0 (t - r) ≤ Z.max 0 (now - r) + (t - now).
Proof. lia. Qed.

Lemma built_in_older r name v labels :
  Forall2 (older (t - now)) (built_in (Z.max 0 (now - r)) name v labels) (built_in (Z.max 0 (t - r)) name v labels).
Proof.
  rewrite /built_in. destruct v as [v|]; [|constructor]. destruct (num_finite v); repeat constructor; cbn; apply since_older.
Qed.

Lemma endpoint_series_older r name v :
  Forall2 (older (t - now)) (endpoint_series (Z.max 0 (now - r)) name v) (endpoint_series (Z.max 0 (t - r)) name v).
Proof.
  rewrite /endpoint_series. destruct v as [v|]; [|constructor]. destruct (num_finite v); repeat constructor; cbn; apply since_older.
Qed.

Lemma custom_series_older r frame intervals c :
  Forall2 (older (t - now)) (custom_series Date_parse (Z.max 0 (now - r)) frame intervals c) (custom_series Date_parse (Z.max 0 (t - r)) frame intervals c).
Proof.
  rewrite /custom_series. destruct (negb _); [constructor|]. destruct (negb _); [constructor|]. destruct (existsb _ _); [constructor|].
  repeat constructor; cbn [s_ageMs]; pose proof (since_older r); lia.
Qed.

Hint Resolve built_in_older endpoint_series_older custom_series_older : aging.

Lemma nodeMetricSeries_older sample r :
  Forall2 (older (t - now)) (nodeMetricSeries Date_parse sample r now) (nodeMetricSeries Date_parse sample r t).
Proof.
  rewrite /nodeMetricSeries. repeat (apply Forall2_app; [solve [auto with aging]|]).
  apply Forall2_app; apply Forall2_concat_map; intros x; [|auto with aging].
  rewrite /gpu_series. repeat (apply Forall2_app; [solve [auto with aging]|]). auto with aging.
Qed.

Lemma endpointLoadSeries_older loads e m :
  Forall2 (older (t - now)) (endpointLoadSeries loads e m now) (endpointLoadSeries loads e m t).
Proof.
  rewrite /endpointLoadSeries. destruct (pickEndpointLoad loads e m) as [l|]; [|constructor].
  repeat (apply Forall2_app; [solve [auto with aging]|]). auto with aging.
Qed.
End Aging.

Section Finite.
Context (Date_parse : jstr → option Z).

Lemma built_in_finite since name v labels : Forall finite_series (built_in since name v labels).
Proof. rewrite /built_in. destruct v as [v|]; [|constructor]. destruct (num_finite v) eqn:E; repeat constructor. done. Qed.

Lemma endpoint_series_finite age name v : Forall finite_series (endpoint_series age name v).
Proof. rewrite /endpoint_series. destruct v as [v|]; [|constructor]. destruct (num_finite v) eqn:E; repeat constructor. done. Qed.

Lemma custom_series_finite since frame intervals c : Forall finite_series (custom_series Date_parse since frame intervals c).
Proof.
  rewrite /custom_series. destruct (num_finite _) eqn:E; [|constructor]. cbn [negb]. destruct (negb _); [constructor|]. destruct (existsb _ _); [constructor|].
  by repeat constructor.
Qed.

Hint Resolve built_in_finite endpoint_series_finite custom_series_finite : aging.

Lemma nodeMetricSeries_finite sample r now : Forall finite_series (nodeMetricSeries Date_parse sample r now).
Proof.
  rewrite /nodeMetricSeries. repeat (apply Forall_app_2; [solve [auto with aging]|]).
  apply Forall_app_2; apply Forall_concat_map; intros x; [|auto with aging].
  rewrite /gpu_series. repeat (apply Forall_app_2; [solve [auto with aging]|]). auto with aging.
Qed.

Lemma endpointLoadSeries_finite loads e m now : Forall finite_series (endpointLoadSeries loads e m now).
Proof.
  rewrite /endpointLoadSeries. destruct (pickEndpointLoad loads e m) as [l|]; [|constructor].
  repeat (apply Forall_app_2; [solve [auto with aging]|]). auto with aging.
Qed.
End Finite.

(** ** One rule *)

Definition fresh_after (d : Z) (s : MetricSeries) : Prop := s_ageMs s + d ≤ s_staleAfterMs s.

Lemma rule_matches_older rule d s s' : older d s s' → rule_matches rule s' = true → rule_matches rule s = true.
Proof.
  intros [Hn Hl Hv Hs Ha]. rewrite /rule_matches /isStale Hn Hl Hs !andb_true_iff !negb_true_iff !Z.ltb_ge. intros [[-> ->] ?].
  split_and!; try done. lia.
Qed.

Lemma rule_matches_fresh rule d s s' : older d s s' → fresh_after d s → rule_matches rule s = true → rule_matches rule s' = true.
Proof.
  intros [Hn Hl Hv Hs Ha] Hf. rewrite /rule_matches /isStale Hn Hl Hs !andb_true_iff !negb_true_iff !Z.ltb_ge. intros [[-> ->] ?].
  split_and!; try done. rewrite /fresh_after in Hf. lia.
Qed.

Lemma rule_matches_remaining rule s now d : rule_matches rule s = true → now + d ≤ now + remainingMs s → fresh_after d s.
Proof. rewrite /rule_matches /isStale /remainingMs /fresh_after !andb_true_iff negb_true_iff Z.ltb_ge. lia. Qed.

(** What matches later matched before, and what stays fresh still matches. *)
Lemma filter_later rule d S S' s' :
  Forall2 (older d) S S' → In s' (List.filter (rule_matches rule) S') → ∃ s, In s (List.filter (rule_matches rule) S) ∧ older d s s'.
Proof.
  intros H [Hin Hm]%filter_In. induction H as [|x x' S S' Hx H IH]; [done|]. destruct Hin as [->|Hin].
  - exists x. split; [|done]. apply filter_In. split; [by left|]. by eapply rule_matches_older.
  - destruct (IH Hin) as (s & [? ?]%filter_In & ?). exists s. split; [|done]. apply filter_In. split; [by right|done].
Qed.

Lemma filter_before rule d S S' s :
  Forall2 (older d) S S' → In s (List.filter (rule_matches rule) S) → fresh_after d s →
  ∃ s', In s' (List.filter (rule_matches rule) S') ∧ older d s s'.
Proof.
  intros H [Hin Hm]%filter_In Hf. induction H as [|x x' S S' Hx H IH]; [done|]. destruct Hin as [->|Hin].
  - exists x'. split; [|done]. apply filter_In. split; [by left|]. by eapply rule_matches_fresh.
  - destruct (IH Hin) as (s' & [? ?]%filter_In & ?). exists s'. split; [|done]. apply filter_In. split; [by right|done].
Qed.

Lemma filter_all_fresh rule d S S' :
  Forall2 (older d) S S' → (∀ s, In s (List.filter (rule_matches rule) S) → fresh_after d s) →
  Forall2 (older d) (List.filter (rule_matches rule) S) (List.filter (rule_matches rule) S').
Proof.
  intros H. induction H as [|x x' S S' Hx H IH]; intros Hf; [constructor|]. cbn [List.filter] in *.
  destruct (rule_matches rule x) eqn:E.
  - rewrite (rule_matches_fresh rule d x x' Hx (Hf x (or_introl eq_refl)) E). constructor; [done|]. apply IH. intros s Hs. apply Hf. by right.
  - destruct (rule_matches rule x') eqn:E'; [|by apply IH]. by rewrite (rule_matches_older rule d x x' Hx E') in E.
Qed.

(** [b] is better than [a] for the aggregate. *)
Definition beats (agg : RuleAggregate) (a b : MetricSeries) : bool :=
  match agg with agg_min => num_lt (s_value b) (s_value a) | _ => num_lt (s_value a) (s_value b) end.

Lemma beats_irrefl agg a : finite_series a → beats agg a a = false.
Proof. intros H%num_finite_nan. destruct agg; by apply num_lt_irrefl. Qed.

(** Not being better is transitive. *)
Lemma beats_ntrans agg a b c : finite_series a → finite_series b → finite_series c → beats agg a b = false → beats agg b c = false → beats agg a c = false.
Proof.
  intros Ha%num_finite_nan Hb%num_finite_nan Hc%num_finite_nan. destruct agg; intros H1 H2; cbn [beats] in *.
  all: first [by apply (num_nlt_trans (s_value c) (s_value b) (s_value a))|by apply (num_nlt_trans (s_value a) (s_value b) (s_value c))].
Qed.

Lemma beats_asym agg a b : finite_series a → finite_series b → beats agg a b = true → beats agg b a = false.
Proof. intros Ha%num_finite_nan Hb%num_finite_nan. destruct agg; by apply num_lt_asym. Qed.

Lemma beats_antisym agg a b : finite_series a → finite_series b → beats agg a b = false → beats agg b a = false → num_same (s_value a) (s_value b).
Proof. intros Ha%num_finite_nan Hb%num_finite_nan. destruct agg; intros H1 H2; by apply num_lt_antisym. Qed.

(** The running best: one of the series, and none is better. *)
Lemma pick_best_spec agg l b0 :
  finite_series b0 → Forall finite_series l →
  let b := fold_left (pick_best agg) l b0 in
  (b = b0 ∨ In b l) ∧ finite_series b ∧ beats agg b b0 = false ∧ ∀ x, In x l → beats agg b x = false.
Proof.
  intros H0 Hl. revert b0 H0. induction Hl as [|x l Hx Hl IH]; intros b0 H0; cbn [fold_left].
  - split_and!; [by left|done|by apply beats_irrefl|done].
  - have Hp : pick_best agg b0 x = if beats agg b0 x then x else b0 by rewrite /pick_best; destruct agg.
    rewrite Hp. destruct (beats agg b0 x) eqn:E.
    + destruct (IH x Hx) as (Hb & Hf & Hbest & Hall). split_and!; [destruct Hb as [->|Hb]; right; [by left|by right]|done| |].
      * by apply (beats_ntrans agg _ x); [..|apply beats_asym].
      * intros y [->|Hy]; [done|by apply Hall].
    + destruct (IH b0 H0) as (Hb & Hf & Hbest & Hall). split_and!; [destruct Hb as [->|Hb]; [by left|right; by right]|done|done|].
      intros y [->|Hy]; [by apply (beats_ntrans agg _ b0)|by apply Hall].
Qed.

Lemma min_expiry_fold (f : MetricSeries → Z) l a :
  (∀ z, a = Some z → default 0 (fold_left (λ e s, min_expiry e (f s)) l a) ≤ z) ∧
  ∀ s, In s l → default 0 (fold_left (λ e s, min_expiry e (f s)) l a) ≤ f s.
Proof.
  revert a. induction l as [|x l IH]; intros a; cbn [fold_left].
  - split; [intros z ->; cbn; lia|done].
  - destruct (IH (min_expiry a (f x))) as [H1 H2]. split.
    + intros z ->. etransitivity; [by apply (H1 (Z.min z (f x)))|lia].
    + intros s [->|Hs]; [|by apply H2]. destruct a as [z|]; [etransitivity; [by apply (H1 (Z.min z (f s)))|lia]|by apply H1].
Qed.

Lemma sum_older d l l' a :
  Forall2 (older d) l l' → fold_left (λ sum e, num_add sum (s_value e)) l' a = fold_left (λ sum e, num_add sum (s_value e)) l a.
Proof. intros H. revert a. induction H as [|x x' l l' Hx H IH]; intros a; cbn [fold_left]; [done|]. by rewrite (old_value _ _ _ Hx) IH. Qed.

Lemma filter_finite rule S : Forall finite_series S → Forall finite_series (List.filter (rule_matches rule) S).
Proof. rewrite !List.Forall_forall. intros H s [Hs _]%filter_In. by apply H. Qed.

Section Rule.
Context (rule : RoutingRule) (now d : Z) (S S' : list MetricSeries).
Context (Hold : Forall2 (older d) S S') (Hfin : Forall finite_series S) (Hfin' : Forall finite_series S').

Notation M := (List.filter (rule_matches rule) S).
Notation M' := (List.filter (rule_matches rule) S').

(** No fresh series now, none later. *)
Lemma aggregate_none agg : aggregateMatching M agg now = None → aggregateMatching M' agg (now + d) = None.
Proof.
  intros H. have HM : M = [] by destruct M; [|destruct agg]. destruct M' as [|s' l] eqn:E; [done|].
  destruct (filter_later rule d S S' s') as (s & Hs & _); [done|rewrite E; by left|]. by rewrite HM in Hs.
Qed.

(** The aggregate keeps its value until it expires: its deciding series stays fresh. *)
Lemma aggregate_persists agg v E :
  aggregateMatching M agg now = Some (v, E) → now + d ≤ E →
  ∃ v' E', aggregateMatching M' agg (now + d) = Some (v', E') ∧ num_same v v'.
Proof.
  intros Ha Hd. pose proof (filter_finite rule S Hfin) as HfM. pose proof (filter_finite rule S' Hfin') as HfM'.
  destruct M as [|first rest] eqn:EM; [done|]. rewrite -EM in HfM, Ha. destruct (decide (agg = agg_avg)) as [->|Hagg].
  - have Hall : Forall2 (older d) M M'.
    { apply filter_all_fresh; [done|]. intros s Hs. rewrite EM in Ha. injection Ha as _ <-.
      apply (rule_matches_remaining rule s now); [by apply filter_In in Hs as [_ ?]|].
      etransitivity; [exact Hd|]. rewrite EM in Hs. exact (proj2 (min_expiry_fold (λ s, now + remainingMs s) (first :: rest) None) s Hs). }
    have Hlen := Forall2_length _ _ _ Hall. have Hsum := sum_older d M M' (num_of_Z 0) Hall.
    rewrite EM in Ha Hlen Hsum. destruct M' as [|s' l']; [done|].
    apply (inj Some), pair_equal_spec in Ha as [<- <-]. eexists _, _. split; [reflexivity|]. by rewrite Hsum Hlen.
  - rewrite EM in Ha HfM. set best := fold_left (pick_best agg) (first :: rest) first in Ha.
    have HE : s_value best = v ∧ now + remainingMs best = E by (destruct agg; [| |done]; injection Ha as <- <-; done).
    destruct HE as [<- <-]. clear Ha.
    destruct (pick_best_spec agg (first :: rest) first) as (Hb & Hfb & _ & Hbest); [by inversion HfM|done|]. fold best in Hb, Hfb, Hbest.
    rewrite -EM in Hb, Hbest. have Hin : In best M by (destruct Hb as [->|?]; [rewrite EM; by left|done]).
    have Hfr : fresh_after d best by (apply (rule_matches_remaining rule best now); [by apply filter_In in Hin as [_ ?]|lia]).
    destruct (filter_before rule d S S' best Hold Hin Hfr) as (best1 & Hin1 & Hold1).
    destruct M' as [|first' rest'] eqn:EM'; [done|]. rewrite -EM' in HfM'.
    set best' := fold_left (pick_best agg) (first' :: rest') first'.
    destruct (pick_best_spec agg (first' :: rest') first') as (Hb' & Hfb' & _ & Hbest'); [rewrite EM' in HfM'; by inversion HfM'|by rewrite -EM'|].
    fold best' in Hb', Hfb', Hbest'. exists (s_value best'), (now + d + remainingMs best'). split; [by destruct agg|].
    have Hin' : In best' M' by (rewrite EM'; destruct Hb' as [->|?]; [by left|done]).
    destruct (filter_later rule d S S' best' Hold Hin') as (o & Ho & Holdo).
    have H1 := Hbest o Ho. have H2 := Hbest' best1 Hin1.
    have Hv1 := old_value _ _ _ Hold1. have Hvo := old_value _ _ _ Holdo.
    apply (beats_antisym agg); [done|done| |].
    + move: H1. destruct agg; cbn [beats]; by rewrite -Hvo.
    + move: H2. destruct agg; cbn [beats]; by rewrite Hv1.
Qed.

Lemma rule_compare_same v v' op threshold : num_same v v' → rule_compare v op threshold = rule_compare v' op threshold.
Proof.
  intros H. have Hr : num_same threshold threshold by done.
  destruct op; cbn [rule_compare]; [exact (num_lt_proper _ _ Hr _ _ H)|exact (num_le_proper _ _ Hr _ _ H)|exact (num_lt_proper _ _ H _ _ Hr)|exact (num_le_proper _ _ H _ _ Hr)].
Qed.

(** A rule keeps its state until its expiry; one that consulted nothing keeps it for good. *)
Lemma rule_persists memberId st E :
  evaluate_rule rule S now memberId = (st, E) → (∀ e, E = Some e → now + d ≤ e) →
  ∃ E', evaluate_rule rule S' (now + d) memberId = (st, E') ∧ (is_Some E ↔ is_Some E').
Proof.
  rewrite /evaluate_rule. destruct (negb _); [intros [= <- <-] _; eexists; split; [done|done]|].
  destruct (aggregateMatching M (r_aggregate rule) now) as [[v e]|] eqn:Ea.
  - intros Hst Hd. have He : now + d ≤ e by (apply Hd; destruct (rule_compare _ _ _); by injection Hst).
    destruct (aggregate_persists (r_aggregate rule) v e Ea He) as (v' & e' & -> & Hv). rewrite -(rule_compare_same v v' _ _ Hv).
    destruct (rule_compare _ _ _); injection Hst as <- <-; eexists; (split; [done|]); split; eauto.
  - intros [= <- <-] _. rewrite aggregate_none; [done|]. by eexists.
Qed.
End Rule.

(** ** All rules *)

Section Evaluation.
Context (S : list MetricSeries) (now : Z) (m : option jstr).

Notation ev r := (evaluate_rule r S now m).
Notation loop := (fold_left (evaluate_step S now m)).
Notation has eff l := (existsb (λ x : RuleEffect * Z, bool_decide (x.1 = eff)) l).

Lemma triggered_expiry r E : ev r = (rule_triggered, E) → is_Some E.
Proof.
  rewrite /evaluate_rule. destruct (negb _); [done|]. destruct (aggregateMatching _ _ _) as [[v e]|]; [|done].
  destruct (rule_compare _ _ _); intros [= <-]; eauto.
Qed.

(** The flags say what the decisive entries are. *)
Definition flags_ok (st : EvalState) : Prop :=
  ev_full st = has effect_full (ev_decisive st) ∧ ev_avoid st = has effect_avoid (ev_decisive st).

Lemma loop_flags rules st : flags_ok st → flags_ok (loop rules st).
Proof.
  revert st. induction rules as [|r rules IH]; intros st [H1 H2]; [done|]. apply IH. rewrite /evaluate_step /flags_ok.
  destruct (ev r) as [[] [e|]]; try done. cbn [ev_full ev_avoid ev_decisive]. rewrite !existsb_app H1 H2. cbn [existsb fst].
  rewrite !orb_false_r. by split; apply orb_comm.
Qed.

Lemma loop_decisive rules st x :
  In x (ev_decisive (loop rules st)) ↔ In x (ev_decisive st) ∨ ∃ r, In r rules ∧ r_effect r = x.1 ∧ ev r = (rule_triggered, Some x.2).
Proof.
  revert st. induction rules as [|r rules IH]; intros st; cbn [fold_left].
  - split; [by left|]. intros [?|(r & [] & _)]. done.
  - rewrite IH {1}/evaluate_step. split.
    + intros [Hx|(r' & Hr & He)]; [|right; exists r'; split; [by right|done]].
      destruct (ev r) as [[] [e|]] eqn:E; cbn [ev_decisive] in Hx; try (by left). apply in_app_or in Hx as [Hx|[<-|[]]]; [by left|].
      right. exists r. split; [by left|done].
    + intros [Hx|(r' & [->|Hr] & He & Hev)]; [left| |right; by exists r'].
      * destruct (ev r) as [[] [e|]]; cbn [ev_decisive]; try done. apply in_or_app. by left.
      * left. rewrite Hev. cbn [ev_decisive]. apply in_or_app. right. left. rewrite He. by destruct x.
Qed.

Lemma loop_any rules st :
  (∀ z, ev_any (loop rules st) = Some z → (∀ r s e, In r rules → ev r = (s, Some e) → z ≤ e) ∧ ∀ z0, ev_any st = Some z0 → z ≤ z0) ∧
  (ev_any (loop rules st) = None → ev_any st = None ∧ ∀ r s e, In r rules → ev r ≠ (s, Some e)).
Proof.
  revert st. induction rules as [|r rules IH]; intros st; cbn [fold_left].
  - split; [intros z ->; split; [done|]; intros z0 [= ->]; lia|done].
  - destruct (IH (evaluate_step S now m st r)) as [H1 H2]. clear IH.
    have Hany : ev_any (evaluate_step S now m st r) = match (ev r).2 with Some e => min_expiry (ev_any st) e | None => ev_any st end.
    { rewrite /evaluate_step. by destruct (ev r) as [[] [e|]]. }
    rewrite Hany in H1, H2. split.
    + intros z Hz. destruct (H1 z Hz) as [H3 H4]. split.
      * intros r' s e [->|Hr] Hev; [|by eapply H3]. rewrite Hev in H4. cbn [snd] in H4.
        destruct (ev_any st) as [z0|]; cbn [min_expiry] in H4; [specialize (H4 _ eq_refl); lia|by apply H4].
      * intros z0 Hz0. rewrite Hz0 in H4. destruct (ev r).2 as [e|]; cbn [min_expiry] in H4; [specialize (H4 _ eq_refl); lia|by apply H4].
    + intros Hz. destruct (H2 Hz) as [H3 H4]. destruct (ev r) as [s0 [e0|]] eqn:E; cbn [snd] in H3; [by destruct (ev_any st)|].
      split; [done|]. intros r' s e [->|Hr]; [by rewrite E|by apply H4].
Qed.

Lemma deciding_attained v l a z :
  fold_left (λ d (entry : RuleEffect * Z), if bool_decide (effect_verdict entry.1 = v) then max_expiry d entry.2 else d) l a = z →
  (z = a ∧ ∀ x, In x l → effect_verdict x.1 ≠ v) ∨
  (∃ e, z = Some e ∧ (a = Some e ∨ ∃ eff, effect_verdict eff = v ∧ In (eff, e) l)).
Proof.
  revert a. induction l as [|[eff e] l IH]; intros a; cbn [fold_left fst snd]; [by left|].
  case_bool_decide as Hv; intros Hz; destruct (IH _ Hz) as [[-> Hno]|(e' & -> & Hat)].
  - right. destruct a as [z0|]; cbn [max_expiry]; [|by exists e; split; [|right; exists eff; split; [|left]]].
    exists (Z.max z0 e). split; [done|]. destruct (Z.max_spec z0 e) as [[? ->]|[? ->]]; [right; exists eff; by split; [|left]|by left].
  - right. exists e'. split; [done|]. destruct Hat as [Hat|(eff' & ? & ?)]; [|right; exists eff'; split; [done|by right]].
    destruct a as [z0|]; injection Hat as <-; [|right; exists eff; by split; [|left]].
    destruct (Z.max_spec z0 e) as [[? ->]|[? ->]]; [right; exists eff; by split; [|left]|by left].
  - left. split; [done|]. intros x [<-|Hx]; [done|by apply Hno].
  - right. exists e'. split; [done|]. destruct Hat as [?|(eff' & ? & ?)]; [by left|right; exists eff'; split; [done|by right]].
Qed.

(** What the evaluation answers: a rule of the verdict's effect that decides its expiry, or no
    triggered rule and an expiry no later than any rule's. *)
Lemma evaluation_verdict rules :
  let r := evaluateRoutingRules rules S now m in
  match e_verdict r with
  | verdict_none => ∀ rule s E, In rule rules → ev rule = (s, E) → s ≠ rule_triggered ∧ ∀ e, E = Some e → e_expiresAt r ≤ e
  | v => (∃ rule, In rule rules ∧ effect_verdict (r_effect rule) = v ∧ ev rule = (rule_triggered, Some (e_expiresAt r)))
  end ∧
  (∀ rule E, In rule rules → ev rule = (rule_triggered, E) → e_verdict r = verdict_full ∨ e_verdict r = effect_verdict (r_effect rule)).
Proof.
  rewrite /evaluateRoutingRules. set st0 := mkEval [] false false None []. set st := loop rules st0. cbn zeta. cbn [e_verdict e_expiresAt].
  destruct (loop_flags rules st0) as [Hfull Havoid]; [done|]. fold st in Hfull, Havoid.
  have Hdec : ∀ x, In x (ev_decisive st) ↔ ∃ r, In r rules ∧ r_effect r = x.1 ∧ ev r = (rule_triggered, Some x.2).
  { intros x. rewrite /st loop_decisive. split; [by intros [[]|?]|by right]. }
  destruct (loop_any rules st0) as [Hany Hnone]. fold st in Hany, Hnone.
  have Hhas : ∀ eff, has eff (ev_decisive st) = true ↔ ∃ rule E, In rule rules ∧ r_effect rule = eff ∧ ev rule = (rule_triggered, E).
  { intros eff. rewrite existsb_exists. split.
    - intros (x & Hx & He%bool_decide_eq_true). apply Hdec in Hx as (r & ? & ? & ?). exists r, (Some x.2). split_and!; [done|congruence|done].
    - intros (r & E & Hr & <- & Hev). destruct (triggered_expiry r E Hev) as [e ->]. exists (r_effect r, e). split; [apply Hdec; by exists r|].
      by apply bool_decide_eq_true. }
  have Hex : ∀ v d, fold_left (λ d (entry : RuleEffect * Z), if bool_decide (effect_verdict entry.1 = v) then max_expiry d entry.2 else d) (ev_decisive st) None = d →
      (∃ eff, effect_verdict eff = v ∧ has eff (ev_decisive st) = true) →
      ∃ rule, In rule rules ∧ effect_verdict (r_effect rule) = v ∧ ev rule = (rule_triggered, Some (default 0 d)).
  { intros v d Hd (eff & Heff & Hh). destruct (deciding_attained _ _ _ _ Hd) as [[_ Hno]|(e & -> & [?|(eff' & Heff' & Hin)])]; [|done|].
    - apply existsb_exists in Hh as (x & Hx & Hxe%bool_decide_eq_true). destruct (Hno x Hx). by rewrite Hxe.
    - apply Hdec in Hin as (r & Hr & Hre & Hev). exists r. split_and!; [done|by rewrite Hre|done]. }
  destruct (ev_full st) eqn:Ef.
  - rewrite bool_decide_eq_false_2; [done|]. split; [|by intros; left]. apply Hex; [done|]. by exists effect_full.
  - destruct (ev_avoid st) eqn:Ea.
    + rewrite bool_decide_eq_false_2; [done|]. split; [apply Hex; [done|]; by exists effect_avoid|].
      intros rule E Hr Hev. destruct (r_effect rule) eqn:Ee; [|by right]. by rewrite (proj2 (Hhas effect_full)) in Hfull; [exists rule, E|].
    + rewrite bool_decide_eq_true_2; [done|].
      have Hno : ∀ rule E, In rule rules → ev rule ≠ (rule_triggered, E).
      { intros rule E Hr Hev. destruct (r_effect rule) eqn:Ee.
        - by rewrite (proj2 (Hhas effect_full)) in Hfull; [exists rule, E|].
        - by rewrite (proj2 (Hhas effect_avoid)) in Havoid; [exists rule, E|]. }
      split; [|intros rule E Hr Hev; by destruct (Hno rule E Hr)].
      intros rule s E Hr Hev. split; [intros ->; by destruct (Hno rule E Hr)|]. intros e ->.
      destruct (ev_any st) as [z|] eqn:Ez; [by eapply (proj1 (Hany z eq_refl))|]. by destruct (proj2 (Hnone eq_refl) rule s e Hr).
Qed.
End Evaluation.

(** ** Verdicts hold until they expire *)

(** [v'] is [v], or stricter when [v] only avoids. *)
Definition verdict_kept (v v' : RoutingVerdict) : Prop :=
  match v with verdict_avoid => v' ≠ verdict_none | _ => v' = v end.

Lemma evaluation_persists rules S S' now d m :
  Forall2 (older d) S S' → Forall finite_series S → Forall finite_series S' →
  now + d ≤ e_expiresAt (evaluateRoutingRules rules S now m) →
  verdict_kept (e_verdict (evaluateRoutingRules rules S now m)) (e_verdict (evaluateRoutingRules rules S' (now + d) m)).
Proof.
  intros Hold Hf Hf' Hd. destruct (evaluation_verdict S now m rules) as [H _]. destruct (evaluation_verdict S' (now + d) m rules) as [H' Hev'].
  set r := evaluateRoutingRules rules S now m in Hd H |- *. set r' := evaluateRoutingRules rules S' (now + d) m in H' Hev' |- *.
  have Hkeep : ∀ rule, In rule rules → evaluate_rule rule S now m = (rule_triggered, Some (e_expiresAt r)) →
      e_verdict r' = verdict_full ∨ e_verdict r' = effect_verdict (r_effect rule).
  { intros rule Hr Hev. destruct (rule_persists rule now d S S' Hold Hf Hf' m _ _ Hev) as (E' & Hev1 & _); [by intros e [= <-]|]. by apply (Hev' rule E'). }
  destruct (e_verdict r) eqn:Ev; cbn [verdict_kept].
  - destruct (e_verdict r') eqn:Ev'; [done| |]; exfalso; destruct H' as (rule & Hr & _ & Hev1).
    all: destruct (evaluate_rule rule S now m) as [s E] eqn:Hev; destruct (H rule s E Hr Hev) as [Hs He].
    all: destruct (rule_persists rule now d S S' Hold Hf Hf' m _ _ Hev) as (E' & Hev2 & _); [intros e HE; specialize (He e HE); lia|].
    all: rewrite Hev1 in Hev2; by injection Hev2 as <- _.
  - destruct H as (rule & Hr & He & Hev). destruct (Hkeep rule Hr Hev) as [->| ->]; [done|by rewrite He].
  - destruct H as (rule & Hr & He & Hev). destruct (Hkeep rule Hr Hev) as [->| ->]; [done|by rewrite He].
Qed.

(** An enforced engine verdict holds until it expires, and none appears without a new reading. *)
Definition gating (v : EngineLoadVerdict) : bool := ev_isFull v && ev_enforced v && bool_decide (is_Some (ev_expiresAt v)).

Lemma engine_persists facts reading now t :
  now ≤ t →
  (gating (evaluateEngineLoad facts reading now) = false → gating (evaluateEngineLoad facts reading t) = false) ∧
  ∀ e, ev_expiresAt (evaluateEngineLoad facts reading now) = Some e → t ≤ e → evaluateEngineLoad facts reading t = evaluateEngineLoad facts reading now.
Proof.
  intros Hle. rewrite /evaluateEngineLoad. destruct (engineMode facts); [|done]. destruct (negb _); [done|]. destruct reading as [r|]; [|done].
  set custom := isCustomLoad _ _. rewrite /ENDPOINT_LOAD_STALE_AFTER_MS. destruct (Z.ltb_spec 15000 (Z.max 0 (now - rd_receivedAt r))) as [H|H].
  - rewrite (proj2 (Z.ltb_lt _ _)); [lia|]. done.
  - split.
    + destruct (Z.ltb_spec 15000 (Z.max 0 (t - rd_receivedAt r))); [done|]. by destruct (load_signal facts custom r).
    + intros e He Ht. rewrite (proj2 (Z.ltb_ge _ _)); [|done]. destruct (load_signal facts custom r); [|done]. injection He as <-. lia.
Qed.

Lemma combine_gating rules engine :
  combineWithEngineLoad rules engine =
  if gating engine
  then mkEvaluation verdict_full (e_ruleStates rules)
         (if bool_decide (e_verdict rules = verdict_full) && (default 0 (ev_expiresAt engine) <? e_expiresAt rules) then e_expiresAt rules else default 0 (ev_expiresAt engine))
  else rules.
Proof.
  rewrite /combineWithEngineLoad /gating. destruct engine as [st full enf [e|]]; cbn [ev_isFull ev_enforced ev_expiresAt].
  - rewrite (bool_decide_eq_true_2 (is_Some (Some e))); [by eexists|]. by destruct full, enf.
  - rewrite bool_decide_eq_false_2; [by intros [? ?]|]. by rewrite andb_false_r.
Qed.

(** C16. A stored verdict may be used until it expires: whatever the inputs of a (member, target)
    pair (node metrics, engine load, rules, engine-load gate), evaluating the pair again at any
    moment up to the [expiresAt] of an evaluation, without new metrics, answers the same verdict,
    or for [avoid] possibly [full]; so the pair is never treated as full, avoided or free on the
    strength of a reading that went stale. *)
Theorem verdict_holds_until_expiry Date_parse inputs inst modelSlug memberId rules now t :
  now ≤ t → t ≤ e_expiresAt (member_evaluation Date_parse inputs inst modelSlug memberId rules now) →
  verdict_kept (e_verdict (member_evaluation Date_parse inputs inst modelSlug memberId rules now))
               (e_verdict (member_evaluation Date_parse inputs inst modelSlug memberId rules t)).
Proof.
  intros Hle. rewrite /member_evaluation. set series := λ u, node_series Date_parse inputs u ++ endpointLoadSeries (in_runtimeLoad inputs) (in_handle inst) (Some modelSlug) u.
  have Hold : Forall2 (older (t - now)) (series now) (series t).
  { apply Forall2_app; [|by apply endpointLoadSeries_older]. rewrite /node_series. destruct (in_nodeMetrics inputs) as [[? ?]|]; [by apply nodeMetricSeries_older|done]. }
  have Hf : ∀ u, Forall finite_series (series u).
  { intros u. apply Forall_app_2; [|by apply endpointLoadSeries_finite]. rewrite /node_series. destruct (in_nodeMetrics inputs) as [[? ?]|]; [by apply nodeMetricSeries_finite|done]. }
  set rule_part := λ u, match rules with [] => mkEvaluation verdict_none [] u | _ => evaluateRoutingRules rules (series u) u (Some memberId) end.
  have Hrules : t ≤ e_expiresAt (rule_part now) → verdict_kept (e_verdict (rule_part now)) (e_verdict (rule_part t)).
  { rewrite /rule_part. destruct rules as [|r rules]; [done|]. intros Ht. replace t with (now + (t - now)) at 2 by lia. apply evaluation_persists; try done. lia. }
  change (t ≤ e_expiresAt (combineWithEngineLoad (rule_part now) (target_engine inputs inst modelSlug now)) →
    verdict_kept (e_verdict (combineWithEngineLoad (rule_part now) (target_engine inputs inst modelSlug now)))
      (e_verdict (combineWithEngineLoad (rule_part t) (target_engine inputs inst modelSlug t)))).
  destruct (engine_persists (engine_facts inst (pickEndpointLoad (in_runtimeLoad inputs) (in_handle inst) (Some modelSlug)))
    (load_reading <$> pickEndpointLoad (in_runtimeLoad inputs) (in_handle inst) (Some modelSlug)) now t Hle) as [Hoff Hon].
  change (evaluateEngineLoad _ _ ?u) with (target_engine inputs inst modelSlug u) in Hoff, Hon.
  set en := target_engine inputs inst modelSlug now in Hoff Hon |- *. set et := target_engine inputs inst modelSlug t in Hoff Hon |- *.
  rewrite !combine_gating. destruct (gating en) eqn:Eg.
  - have [e He] : is_Some (ev_expiresAt en) by (rewrite /gating in Eg; apply andb_true_iff in Eg as [_ Eg]; by apply bool_decide_eq_true in Eg).
    rewrite He. cbn [default e_expiresAt e_verdict verdict_kept]. destruct (decide (t ≤ e)) as [Hte|Hte]; [by intros _; rewrite (Hon e He Hte) Eg|].
    destruct (bool_decide_reflect (e_verdict (rule_part now) = verdict_full)) as [Hv|]; [|done]. cbn [andb id].
    destruct (e <? e_expiresAt (rule_part now)); [|by intros Ht; destruct (Hte Ht)]. intros Ht. destruct (gating et); [done|]. specialize (Hrules Ht). by rewrite Hv in Hrules.
  - rewrite (Hoff eq_refl). exact Hrules.
Qed.

(** ** Rules survive their storage *)

Lemma label_entries_inv entries m : label_entries entries = Some m → entries = map (λ e : jstr * jstr, (e.1, Some e.2)) m.
Proof.
  revert m. induction entries as [|[k [v|]] rest IH]; intros m; cbn; [by intros [= <-]| |done].
  destruct (label_entries rest) as [m'|]; [|done]. destruct (_ && _); [|done]. intros [= <-]. cbn. by rewrite -(IH m').
Qed.

Lemma labels_stored labels l : labelsSchema labels = Some l → labelsSchema (labelsFromStored (store_labels l)) = Some l.
Proof.
  destruct labels as [|entries|]; cbn [labelsSchema]; [by intros [= <-]| |done]. destruct (existsb _ _) eqn:Eres; [done|].
  destruct (label_entries entries) as [m|] eqn:Em; [|done]. destruct (_ <=? _)%nat eqn:El; [|done]. intros [= <-].
  cbn [store_labels labelsFromStored labelsSchema]. rewrite -(label_entries_inv _ _ Em) Eres Em El. done.
Qed.

Lemma enum_aggregate a : ROUTING_RULE_AGGREGATES (aggregate_text a) = Some a.
Proof. by destruct a. Qed.
Lemma enum_op o : ROUTING_RULE_OPS (op_text o) = Some o.
Proof. by destruct o. Qed.
Lemma enum_effect e : ROUTING_RULE_EFFECTS (effect_text e) = Some e.
Proof. by destruct e. Qed.

Lemma rule_stored i r n : routingRuleSchema i = Some r → routingRuleSchema (rule_input (stored_row n r)) = Some r.
Proof.
  rewrite {1}/routingRuleSchema. destruct (labelsSchema (i_labels i)) as [l|] eqn:El; [|done].
  destruct (ROUTING_RULE_AGGREGATES _) as [a|]; [|done]. destruct (ROUTING_RULE_OPS _) as [o|]; [|done]. destruct (ROUTING_RULE_EFFECTS _) as [e|]; [|done].
  destruct (_ && _ && _ && _ && _) eqn:Ec; [|done]. intros [= <-]. apply andb_true_iff in Ec as [Ec Eboth].
  rewrite /routingRuleSchema /rule_input /stored_row.
  cbn [i_labels i_aggregate i_op i_effect i_metric i_threshold i_memberId i_excludeMemberId w_labels w_aggregate w_op w_effect w_metric w_threshold w_memberId w_exclude r_labels r_aggregate r_op r_effect r_metric r_threshold r_memberId r_excludeMemberId].
  rewrite (labels_stored _ _ El) /= enum_aggregate enum_op enum_effect.
  destruct (i_memberId i) as [[|c m]|], (i_excludeMemberId i) as [[|c' x]|]; cbn in *; rewrite ?andb_false_r ?andb_true_r in Ec |- *; try done; rewrite Ec; done.
Qed.

Lemma collect_stored acc rules n :
  Forall (λ r, ∃ i, routingRuleSchema i = Some r) rules → (length acc + length rules ≤ ROUTING_RULES_MAX)%nat →
  collect_rules acc (imap (stored_row ∘ Nat.add n) rules) = acc ++ rules.
Proof.
  intros Hall. revert acc n. induction Hall as [|r rules [i Hi] _ IH]; intros acc n Hlen; cbn [collect_rules imap]; [by rewrite app_nil_r|].
  cbn [length] in Hlen. rewrite (proj2 (Nat.leb_gt _ _)); [lia|]. rewrite /compose (rule_stored _ _ _ Hi).
  have -> : imap (λ m, stored_row (n + S m)) rules = imap (stored_row ∘ Nat.add (S n)) rules.
  { apply imap_ext. intros m x _. cbn. f_equal. lia. }
  rewrite IH; [rewrite length_app; cbn; lia|]. by rewrite -app_assoc.
Qed.

Lemma stored_sorted rules n : sorted_by row_order (imap (stored_row ∘ Nat.add n) rules).
Proof.
  revert n. induction rules as [|r rules IH]; intros n; cbn [imap sorted_by]; [done|].
  have Heq : imap ((stored_row ∘ Nat.add n) ∘ S) rules = imap (stored_row ∘ Nat.add (S n)) rules.
  { apply imap_ext. intros m x _. cbn. f_equal. lia. }
  rewrite Heq. split; [|apply IH]. intros y Hy. apply list_elem_of_In, list_elem_of_lookup in Hy as [m Hm]. rewrite list_lookup_imap in Hm.
  destruct (rules !! m); [|done]. injection Hm as <-. rewrite /row_order /=. lia.
Qed.

Lemma parse_all_valid inputs rules :
  parse_all inputs = Some rules → length rules = length inputs ∧ Forall (λ r, ∃ i, routingRuleSchema i = Some r) rules.
Proof.
  revert rules. induction inputs as [|i inputs IH]; intros rules; cbn [parse_all]; [by intros [= <-]|].
  destruct (routingRuleSchema i) as [r|] eqn:Er; [|done]. destruct (parse_all inputs) as [rs|]; [|done]. intros [= <-].
  destruct (IH rs eq_refl) as [? ?]. split; [cbn; congruence|]. constructor; eauto.
Qed.

(** Rules survive their storage: whatever value is stored as a pool's rules, the rows
    [toStoredRoutingRuleRows] writes for it read back with [routingRulesFromRows] as exactly the
    rules the value parses to (order, labels, scope and thresholds included). *)
Theorem routing_rules_round_trip value : routingRulesFromRows (toStoredRoutingRuleRows value) = parseStoredRoutingRules value.
Proof.
  rewrite /routingRulesFromRows /toStoredRoutingRuleRows. set rules := parseStoredRoutingRules value.
  have [Hlen Hall] : (length rules ≤ ROUTING_RULES_MAX)%nat ∧ Forall (λ r, ∃ i, routingRuleSchema i = Some r) rules.
  { rewrite /rules /parseStoredRoutingRules. destruct value as [inputs|]; [|by split; [apply Nat.le_0_l|]].
    destruct (Nat.leb_spec (length inputs) ROUTING_RULES_MAX) as [Hl|]; [|by split; [apply Nat.le_0_l|]].
    destruct (parse_all inputs) as [rs|] eqn:Ep; [|by split; [apply Nat.le_0_l|]]. destruct (parse_all_valid _ _ Ep) as [Hn ?]. split; [cbn; lia|done]. }
  rewrite (sort_by_id _ _ (stored_sorted rules 0)). exact (collect_stored [] rules 0 Hall Hlen).
Qed.
