(* ===== verification/RoutingVerdicts.v ===== *)
(** * RoutingVerdicts: publishing routing verdicts and using them

    [relay/metric-routing-evaluator.ts]: one evaluation pass of a node's session
    ([MetricRoutingEvaluator.evaluate] with [publish_verdict] and [retractIfRulesChanged]) and
    [clearPool], as programs of atomic statements ([Interleave]) on the [routing_verdict] table,
    the pools' rules and the targets; and [model-api/metric-routing-order.ts], which orders a
    request's candidates by the stored verdicts. A value that the code prints only to compare it
    ([rulesKey], [overrideKey], the key of a written verdict) is compared as it is. The field
    [ghost] is not in the code: it records what the statements did, for the proofs. *)
From Stdlib Require Import ssreflect.
From S2P Require Import Prelude JsString JsNumber MetricRouting EngineLoad Interleave.

Local Open Scope js_scope.

Inductive DbVerdict : Type := V_NONE | V_AVOID | V_FULL.
#[global] Instance DbVerdict_eq_dec : EqDecision DbVerdict.
Proof. solve_decision. Defined.

Definition VERDICT_TO_DB (v : RoutingVerdict) : DbVerdict :=
  match v with verdict_none => V_NONE | verdict_avoid => V_AVOID | verdict_full => V_FULL end.

#[global] Instance RoutingRule_eq_dec : EqDecision RoutingRule.
Proof. solve_decision. Defined.
#[global] Instance RuleState_eq_dec : EqDecision RuleState.
Proof. solve_decision. Defined.
#[global] Instance EngineLoadState_eq_dec : EqDecision EngineLoadState.
Proof. solve_decision. Defined.

(** ** The tables *)

Record VerdictData : Type := mkData {
  v_publisherId : jstr;
  v_userId : jstr;
  v_poolId : jstr;
  v_nodeId : jstr;
  v_verdict : DbVerdict;
  v_ruleStates : list RuleState;
  v_engineState : EngineLoadState;
  v_evaluatedAt : Z;
  v_expiresAt : Z;
}.

(** (poolMemberId, executionTargetId), the primary key. *)
Definition Pair : Type := jstr * jstr.

Record Member : Type := mkMember { mb_id : jstr; mb_poolId : jstr }.
Record Pool : Type := mkPool { po_userId : jstr; po_rules : list StoredRoutingRuleRow }.
Record Target : Type := mkTarget {
  tg_id : jstr;
  tg_instanceModel : bool;
  tg_userId : jstr;
  tg_runtimeNodeId : option jstr;
  tg_ranks : list (Z * jstr);
  tg_instance : option InstanceFacts;
  tg_model : option (jstr * list Member);
}.

(** What the statements did: who wrote a row from which rules, which rows a pass has yet to
    check again, which edit has yet to clear which pool. *)
Record Ghost : Type := mkGhost {
  g_used : gmap Pair (nat * list RoutingRule);
  g_open : nat → gset Pair;
  g_clearing : nat → option jstr;
}.

Record Store : Type := mkStore {
  verdicts : gmap Pair VerdictData;
  pools : gmap jstr Pool;
  targets : list Target;
  closed : gset jstr;
  clearEpoch : Z;
  ghost : Ghost;
}.

Definition with_verdicts (f : gmap Pair VerdictData → gmap Pair VerdictData) (g : Ghost → Ghost) (s : Store) : Store :=
  mkStore (f (verdicts s)) (pools s) (targets s) (closed s) (clearEpoch s) (g (ghost s)).

Definition with_ghost (g : Ghost → Ghost) (s : Store) : Store := with_verdicts id g s.

Definition note_write (tok : nat) (k : Pair) (rules : list RoutingRule) (g : Ghost) : Ghost :=
  mkGhost (<[k := (tok, rules)]> (g_used g)) (λ t, if bool_decide (t = tok) then g_open g t ∪ {[k]} else g_open g t) (g_clearing g).
Definition set_open (tok : nat) (ks : gset Pair) (g : Ghost) : Ghost :=
  mkGhost (g_used g) (λ t, if bool_decide (t = tok) then ks else g_open g t) (g_clearing g).
Definition close_one (tok : nat) (k : Pair) (g : Ghost) : Ghost := set_open tok (g_open g tok ∖ {[k]}) g.
Definition set_clearing (tok : nat) (p : option jstr) (g : Ghost) : Ghost :=
  mkGhost (g_used g) (g_open g) (λ t, if bool_decide (t = tok) then p else g_clearing g t).

(** ** A session and its passes *)

Record WrittenKey : Type := mkKey {
  k_verdict : RoutingVerdict;
  k_ruleStates : list RuleState;
  k_engineState : EngineLoadState;
  k_enforced : bool;
  k_rules : list RoutingRule;
  k_override : jstr * option num;
}.
#[global] Instance WrittenKey_eq_dec : EqDecision WrittenKey.
Proof. solve_decision. Defined.

Record Written : Type := mkWritten { wr_key : WrittenKey; wr_writtenAtMs : Z; wr_epoch : Z }.

Record RoutingEvaluationState : Type := mkSession {
  st_publisherId : jstr;
  st_userId : jstr;
  st_nodeId : jstr;
  st_written : jsmap Pair Written;
  st_probed : list Pair;
}.

Definition createRoutingEvaluationState (publisherId userId nodeId : jstr) : RoutingEvaluationState :=
  mkSession publisherId userId nodeId [] [].

Definition VERDICT_REFRESH_MS : Z := 5000.

Definition overrideKey (gate : option jstr) (kvFullThreshold : option num) : jstr * option num := (default [] gate, kvFullThreshold).

Record PublishedEntry : Type := mkPublished {
  pe_memberId : jstr;
  pe_targetId : jstr;
  pe_poolId : jstr;
  pe_rulesKey : list RoutingRule;
  pe_overrideKey : jstr * option num;
}.
Definition pe_pair (e : PublishedEntry) : Pair := (pe_memberId e, pe_targetId e).

(** ** publish_verdict *)

Definition replaceable (data row : VerdictData) : bool :=
  (v_evaluatedAt row <? v_evaluatedAt data)
  || ((v_evaluatedAt row =? v_evaluatedAt data) && bool_decide (v_publisherId row = v_publisherId data)).

(** [updateMany({ where: replaceable, data })]: whether a row was replaced. *)
Definition update_verdict (tok : nat) (k : Pair) (rules : list RoutingRule) (data : VerdictData) (s : Store) : bool * Store :=
  match verdicts s !! k with
  | Some row => if replaceable data row then (true, with_verdicts (insert k data) (note_write tok k rules) s) else (false, s)
  | None => (false, s)
  end.

(** [create]: [false] is the unique violation P2002. *)
Definition create_verdict (tok : nat) (k : Pair) (rules : list RoutingRule) (data : VerdictData) (s : Store) : bool * Store :=
  match verdicts s !! k with
  | Some _ => (false, s)
  | None => (true, with_verdicts (insert k data) (note_write tok k rules) s)
  end.

Definition publish_verdict (tok : nat) (k : Pair) (rules : list RoutingRule) (data : VerdictData) : prog Store bool :=
  let? updated := stmt (update_verdict tok k rules data) in
  if (updated : bool) then Done true
  else
    let? created := stmt (create_verdict tok k rules data) in
    if (created : bool) then Done true
    else stmt (update_verdict tok k rules data).

(** ** evaluate *)

Definition headOnNode (userId nodeId : jstr) (t : Target) : bool :=
  tg_instanceModel t && bool_decide (tg_userId t = userId) && bool_decide (is_Some (tg_instance t))
  && (bool_decide (tg_runtimeNodeId t = Some nodeId) || existsb (λ r : Z * jstr, (r.1 =? 0) && bool_decide (r.2 = nodeId)) (tg_ranks t)).

Definition pool_rules (p : Pool) : list RoutingRule := routingRulesFromRows (po_rules p).

(** A (target, member) pair as the query selects it, with the member's pool. *)
Record Selected : Type := mkSelected {
  sl_targetId : jstr;
  sl_instance : InstanceFacts;
  sl_modelSlug : jstr;
  sl_member : Member;
  sl_pool : Pool;
}.

Definition select_target (s : Store) (t : Target) : list Selected :=
  match tg_instance t, tg_model t with
  | Some inst, Some (slug, members) =>
      omap (λ m, (λ p, mkSelected (tg_id t) inst slug m p) <$> pools s !! mb_poolId m) members
  | _, _ => []
  end.

Definition find_targets (userId nodeId : jstr) (s : Store) : list Selected * Store :=
  (concat (map (select_target s) (List.filter (headOnNode userId nodeId) (targets s))), s).

Definition evaluationClosed (publisherId : jstr) (s : Store) : bool * Store := (bool_decide (publisherId ∈ closed s), s).

(** What the loop carries; [ls_closed] is the early return. *)
Record LoopState : Type := mkLoop {
  ls_session : RoutingEvaluationState;
  ls_seen : list Pair;
  ls_published : list PublishedEntry;
  ls_closed : bool;
}.

Section Evaluate.
Context (Date_parse : jstr → option Z).

Definition set_written (k : Pair) (w : option Written) (probe : bool) (st : RoutingEvaluationState) : RoutingEvaluationState :=
  mkSession (st_publisherId st) (st_userId st) (st_nodeId st)
    (match w with Some x => map_set k x (st_written st) | None => map_delete k (st_written st) end)
    (if probe then (if bool_decide (k ∈ st_probed st) then st_probed st else st_probed st ++ [k]) else List.filter (λ k', negb (bool_decide (k' = k))) (st_probed st)).

Definition verdict_data (st : RoutingEvaluationState) (sel : Selected) (evaluation : RoutingEvaluation) (engine : EngineLoadVerdict) (now : Z) : VerdictData :=
  mkData (st_publisherId st) (po_userId (sl_pool sel)) (mb_poolId (sl_member sel)) (st_nodeId st) (VERDICT_TO_DB (e_verdict evaluation))
    (e_ruleStates evaluation) (ev_state engine) now (e_expiresAt evaluation).

(** One member of one target. *)
Definition evaluate_pair (tok : nat) (inputs : RoutingEvaluationInputs) (now epoch : Z) (ls : LoopState) (sel : Selected) : prog Store LoopState :=
  if ls_closed ls then Done ls
  else
    let st := ls_session ls in
    let inst := sl_instance sel in
    let engine := target_engine inputs inst (sl_modelSlug sel) now in
    let rules := pool_rules (sl_pool sel) in
    let k := (mb_id (sl_member sel), sl_targetId sel) in
    let previous := map_get k (st_written st) in
    let ls := mkLoop st (ls_seen ls ++ [k]) (ls_published ls) false in
    if bool_decide (rules = []) && negb (ev_isFull engine) && bool_decide (previous = None) && bool_decide (k ∈ st_probed st) then Done ls
    else
      let evaluation := member_evaluation Date_parse inputs inst (sl_modelSlug sel) (mb_id (sl_member sel)) rules now in
      let override := overrideKey (in_engineLoadGate inst) (in_kvFullThreshold inst) in
      let key := mkKey (e_verdict evaluation) (e_ruleStates evaluation) (ev_state engine) (ev_enforced engine) rules override in
      let unchanged :=
        match previous with
        | Some p => bool_decide (wr_key p = key) && (wr_epoch p =? epoch) && (now - wr_writtenAtMs p <? VERDICT_REFRESH_MS)
        | None => false
        end in
      if unchanged then Done ls
      else
        let? isClosed := stmt (evaluationClosed (st_publisherId st)) in
        if (isClosed : bool) then Done (mkLoop st (ls_seen ls) (ls_published ls) true)
        else
          let? stored := publish_verdict tok k rules (verdict_data st sel evaluation engine now) in
          if (stored : bool) then
            let w := if bool_decide (rules = []) && bool_decide (e_verdict evaluation = verdict_none) then None else Some (mkWritten key now epoch) in
            Done (mkLoop (set_written k w true st) (ls_seen ls)
                    (ls_published ls ++ [mkPublished (mb_id (sl_member sel)) (sl_targetId sel) (mb_poolId (sl_member sel)) rules override]) false)
          else Done ls.

(** ** retractIfRulesChanged *)

(** The rules now stored for each published pool. *)
Definition rules_changed (s : Store) (e : PublishedEntry) : bool :=
  negb (bool_decide ((pool_rules <$> pools s !! pe_poolId e) = Some (pe_rulesKey e))).

Definition read_pools (tok : nat) (published : list PublishedEntry) (s : Store) : list bool * Store :=
  (map (rules_changed s) published,
   with_ghost (set_open tok (list_to_set (map pe_pair (List.filter (rules_changed s) published)))) s).

(** The engine-load gate now stored for each published target. *)
Definition override_changed (s : Store) (e : PublishedEntry) : bool :=
  match List.find (λ t, bool_decide (tg_id t = pe_targetId e)) (targets s) with
  | None => true
  | Some t =>
      let current := match tg_instance t with
                     | Some inst => overrideKey (in_engineLoadGate inst) (in_kvFullThreshold inst)
                     | None => overrideKey None None
                     end in
      negb (bool_decide (current = pe_overrideKey e))
  end.

Definition read_targets (published : list PublishedEntry) (s : Store) : list bool * Store := (map (override_changed s) published, s).

(** [deleteMany]: the row, when it is this evaluation's own and gates. *)
Definition own_gating (publisherId : jstr) (evaluatedAt : Z) (row : VerdictData) : bool :=
  (v_evaluatedAt row =? evaluatedAt) && bool_decide (v_publisherId row = publisherId) && negb (bool_decide (v_verdict row = V_NONE)).

Definition retract_one (tok : nat) (publisherId : jstr) (evaluatedAt : Z) (k : Pair) (s : Store) : unit * Store :=
  (tt, with_verdicts (λ vs, match vs !! k with
                            | Some row => if own_gating publisherId evaluatedAt row then delete k vs else vs
                            | None => vs
                            end) (close_one tok k) s).

Definition retract_entry (tok : nat) (evaluatedAt : Z) (st : RoutingEvaluationState) (e : PublishedEntry) : prog Store RoutingEvaluationState :=
  let? _ := stmt (retract_one tok (st_publisherId st) evaluatedAt (pe_pair e)) in
  Done (set_written (pe_pair e) None false st).

Definition retractIfRulesChanged (tok : nat) (published : list PublishedEntry) (evaluatedAt : Z) (st : RoutingEvaluationState) : prog Store RoutingEvaluationState :=
  match published with
  | [] => Done st
  | _ =>
      let? rulesChanged := stmt (read_pools tok published) in
      let? overrideChanged := stmt (read_targets published) in
      let stale := omap (λ x : PublishedEntry * (bool * bool), if x.2.1 || x.2.2 then Some x.1 else None)
                     (zip published (zip rulesChanged overrideChanged)) in
      prog_fold (retract_entry tok evaluatedAt) st stale
  end.

Definition prune_session (seen : list Pair) (st : RoutingEvaluationState) : RoutingEvaluationState :=
  mkSession (st_publisherId st) (st_userId st) (st_nodeId st)
    (List.filter (λ kv : Pair * Written, bool_decide (kv.1 ∈ seen)) (st_written st)) (List.filter (λ k, bool_decide (k ∈ seen)) (st_probed st)).

(** A pass: the session's memory after it, and whether the session ended during it. *)
Definition evaluate (tok : nat) (st : RoutingEvaluationState) (inputs : RoutingEvaluationInputs) (now : Z) : prog Store (RoutingEvaluationState * bool) :=
  let? epoch := stmt (λ s, (clearEpoch s, s)) in
  let? selected := stmt (find_targets (st_userId st) (st_nodeId st)) in
  let? isClosed := stmt (evaluationClosed (st_publisherId st)) in
  if (isClosed : bool) then Done (st, true)
  else
    let? ls := prog_fold (evaluate_pair tok inputs now epoch) (mkLoop st [] [] false) selected in
    if ls_closed ls then Done (ls_session ls, true)
    else
      let? st' := retractIfRulesChanged tok (ls_published ls) now (ls_session ls) in
      Done (prune_session (ls_seen ls) st', false).
End Evaluate.

(** ** clearPool *)

Definition gates (row : VerdictData) : bool := negb (bool_decide (v_verdict row = V_NONE)).

Definition bump_epoch (s : Store) : unit * Store :=
  (tt, mkStore (verdicts s) (pools s) (targets s) (closed s) (clearEpoch s + 1) (ghost s)).

Definition delete_pool (tok : nat) (poolId : jstr) (s : Store) : unit * Store :=
  (tt, with_verdicts (filter (λ kv : Pair * VerdictData, negb (bool_decide (v_poolId kv.2 = poolId) && gates kv.2) = true)) (set_clearing tok None) s).

Definition clearPool (tok : nat) (poolId : jstr) : prog Store unit :=
  let? _ := stmt bump_epoch in
  stmt (delete_pool tok poolId).
