(* ===== verification/RoutingVerdictsSafety.v ===== *)
(** * RoutingVerdictsSafety: stored verdicts follow the rules

    Passes of any number of sessions, rule edits (each followed by [clearPool]), target edits and
    session ends interleave, one statement at a time. A pass reads rules, computes, writes, and
    re-reads the rules; an edit commits and then clears. The invariant says who is still to act
    on a gating verdict computed from rules that are no longer the pool's: the edit that has not
    cleared yet, or the pass that has not re-read yet. When all are done, nobody is, and every
    gating verdict is the one of the rules in force. *)
From Stdlib Require Import ssreflect.
From S2P Require Import Prelude JsString JsNumber MetricRouting EngineLoad Interleave RoutingVerdicts.

Local Open Scope js_scope.

(** ** The jobs that run *)

Inductive Job : Type :=
  | Pass (st : RoutingEvaluationState) (inputs : RoutingEvaluationInputs) (now : Z)
  | EditRules (poolId : jstr) (rows : list StoredRoutingRuleRow)
  | EditTargets (ts : list Target)
  | EndSession (publisherId : jstr).

(** A committed rule edit, then [onPoolRoutingRulesChanged]. *)
Definition commit_rules (tok : nat) (poolId : jstr) (rows : list StoredRoutingRuleRow) (s : Store) : unit * Store :=
  (tt, mkStore (verdicts s) (alter (λ p, mkPool (po_userId p) rows) poolId (pools s)) (targets s) (closed s) (clearEpoch s)
         (set_clearing tok (Some poolId) (ghost s))).

Section Jobs.
Context (Date_parse : jstr → option Z).

(** The answer is whether a pass was cut short by the end of its session. *)
Definition job_prog (tok : nat) (j : Job) : prog Store bool :=
  match j with
  | Pass st inputs now => prog_map snd (evaluate Date_parse tok st inputs now)
  | EditRules poolId rows =>
      let? _ := stmt (commit_rules tok poolId rows) in
      let? _ := clearPool tok poolId in
      Done false
  | EditTargets ts => stmt (λ s, (false, mkStore (verdicts s) (pools s) ts (closed s) (clearEpoch s) (ghost s)))
  | EndSession publisherId => stmt (λ s, (false, mkStore (verdicts s) (pools s) (targets s) ({[publisherId]} ∪ closed s) (clearEpoch s) (ghost s)))
  end.

Definition start (jobs : list Job) : list (prog Store bool) := imap job_prog jobs.

(** ** The invariant *)

Context (jobs : list Job).

(** The row is the verdict of the pair under rules [u], as pass [tok] computes it. *)
Definition row_of (tok : nat) (k : Pair) (u : list RoutingRule) (row : VerdictData) : Prop :=
  ∃ st inputs inst slug,
    jobs !! tok = Some (Pass st inputs (v_evaluatedAt row)) ∧ v_publisherId row = st_publisherId st ∧
    let e := member_evaluation Date_parse inputs inst slug k.1 u (v_evaluatedAt row) in
    v_verdict row = VERDICT_TO_DB (e_verdict e) ∧ v_expiresAt row = e_expiresAt e.

Definition current (s : Store) (poolId : jstr) (u : list RoutingRule) : Prop := (pool_rules <$> pools s !! poolId) = Some u.

Definition row_ok (s : Store) (k : Pair) (row : VerdictData) : Prop :=
  ∃ tok u, g_used (ghost s) !! k = Some (tok, u) ∧ row_of tok k u row ∧
    (current s (v_poolId row) u ∨ (∃ t, g_clearing (ghost s) t = Some (v_poolId row)) ∨ k ∈ g_open (ghost s) tok).

Record inv (s : Store) : Prop := {
  inv_rows : ∀ k row, verdicts s !! k = Some row → gates row = true → row_ok s k row;
  inv_idle : ∀ t, (length jobs ≤ t)%nat → g_open (ghost s) t = ∅ ∧ g_clearing (ghost s) t = None;
}.

(** What only program [i] changes: its own notes, and rows noted as its own appear by it alone.
    Sessions that ended stay ended. *)
Record Rely (i : nat) (s s' : Store) : Prop := {
  rely_open : g_open (ghost s') i = g_open (ghost s) i;
  rely_clearing : g_clearing (ghost s') i = g_clearing (ghost s) i;
  rely_own : ∀ k u row, g_used (ghost s') !! k = Some (i, u) → verdicts s' !! k = Some row →
                        g_used (ghost s) !! k = Some (i, u) ∧ verdicts s !! k = Some row;
  rely_closed : closed s ⊆ closed s';
}.

#[local] Instance Rely_preorder i : PreOrder (Rely i).
Proof.
  split; [by split|]. intros s1 s2 s3 [H1 H2 H3 ?] [H4 H5 H6 ?]. split; [congruence|congruence| |by transitivity (closed s2)].
  intros k u row Hu Hr. destruct (H6 k u row Hu Hr). by apply H3.
Qed.

Notation rsafe := (rsafe inv Rely).

(** The session of pass [i] has ended. *)
Definition session_over (i : nat) (s : Store) : Prop :=
  ∃ st inputs now, jobs !! i = Some (Pass st inputs now) ∧ st_publisherId st ∈ closed s.

(** Program [i] leaves nothing behind, or was cut short by the end of its session. *)
Definition settled (i : nat) (s : Store) (cut : bool) : Prop :=
  g_clearing (ghost s) i = None ∧ if cut then session_over i s else g_open (ghost s) i = ∅.

Lemma session_over_stable i s s' : closed s ⊆ closed s' → session_over i s → session_over i s'.
Proof. intros Hc (st & inputs & now & Hj & Hin). exists st, inputs, now. split; [done|]. by apply Hc. Qed.

Lemma settled_stable i : rstable Rely i (settled i).
Proof.
  intros s s' a [H1 H2 _ H3] [Hc Ha]. split; [by rewrite H2|]. destruct a; [by eapply session_over_stable|by rewrite H1].
Qed.

(** ** Statements *)

(** A statement that leaves verdicts, rules and notes alone. *)
Lemma inv_frame s s' : verdicts s' = verdicts s → pools s' = pools s → ghost s' = ghost s → inv s → inv s'.
Proof. intros Hv Hp Hg [H1 H2]. split; rewrite ?Hg; [|done]. intros k row. rewrite Hv /row_ok /current Hp Hg. apply H1. Qed.

Lemma rely_frame j s s' : verdicts s' = verdicts s → ghost s' = ghost s → closed s ⊆ closed s' → Rely j s s'.
Proof. intros Hv Hg Hc. split; rewrite ?Hg ?Hv; done. Qed.

(** A write of program [i]. *)
Lemma write_row i k u data s :
  (i < length jobs)%nat → row_of i k u data → inv s →
  let s' := with_verdicts (insert k data) (note_write i k u) s in
  inv s' ∧ (∀ j, j ≠ i → Rely j s s') ∧
  g_open (ghost s') i = g_open (ghost s) i ∪ {[k]} ∧ g_clearing (ghost s') i = g_clearing (ghost s) i ∧
  (∀ k' u' row, g_used (ghost s') !! k' = Some (i, u') → verdicts s' !! k' = Some row →
     (k' = k ∧ u' = u ∧ row = data) ∨ (g_used (ghost s) !! k' = Some (i, u') ∧ verdicts s !! k' = Some row)).
Proof.
  intros Hi Hrow [H1 H2] s'. split_and!.
  - split; cbn.
    + intros k' row. destruct (decide (k' = k)) as [->|Hne].
      * rewrite lookup_insert_eq. intros [= <-] _. exists i, u. cbn. rewrite lookup_insert_eq. split_and!; [done|done|].
        right. right. rewrite bool_decide_eq_true_2; [done|]. set_solver.
      * rewrite lookup_insert_ne; [done|]. intros Hr Hg. destruct (H1 k' row Hr Hg) as (tok & u' & Hu & Hro & Hd).
        exists tok, u'. cbn. rewrite lookup_insert_ne; [done|]. split_and!; [done|done|]. destruct Hd as [?|[?|?]]; [by left|by right; left|].
        right. right. case_bool_decide; [set_solver|done].
    + intros t Ht. destruct (H2 t Ht). rewrite bool_decide_eq_false_2; [lia|done].
  - intros j Hj. split; cbn; [by rewrite bool_decide_eq_false_2|done| |done]. intros k' u' row. destruct (decide (k' = k)) as [->|Hne].
    + rewrite lookup_insert_eq. by intros [= ? _].
    + by rewrite !lookup_insert_ne.
  - cbn. by rewrite bool_decide_eq_true_2.
  - done.
  - cbn. intros k' u' row. destruct (decide (k' = k)) as [->|Hne].
    + rewrite !lookup_insert_eq. intros [= <-] [= <-]. by left.
    + rewrite !lookup_insert_ne; [done..|]. by right.
Qed.

(** ** A pass *)

(** What pass [i] knows: the rows noted as its own are among those it published. *)
Record own (i : nat) (P : list PublishedEntry) (s : Store) : Prop := {
  own_clearing : g_clearing (ghost s) i = None;
  own_open : ∀ k, k ∈ g_open (ghost s) i → In k (map pe_pair P);
  own_rows : ∀ k u row, g_used (ghost s) !! k = Some (i, u) → verdicts s !! k = Some row →
                        ∃ e, In e P ∧ pe_pair e = k ∧ pe_rulesKey e = u ∧ pe_poolId e = v_poolId row;
}.

Lemma own_stable i P s s' : Rely i s s' → own i P s → own i P s'.
Proof.
  intros [H1 H2 H3 _] [H4 H5 H6]. split; rewrite ?H1 ?H2; [done|done|]. intros k u row Hu Hr. destruct (H3 k u row Hu Hr). by eapply H6.
Qed.

Lemma own_more i P e s : own i P s → own i (P ++ [e]) s.
Proof.
  intros [H4 H5 H6]. split; [done| |].
  - intros k Hk. rewrite map_app. apply in_or_app. left. by apply H5.
  - intros k u row Hu Hr. destruct (H6 k u row Hu Hr) as (x & ? & ?). exists x. split; [apply in_or_app; by left|done].
Qed.

(** A statement that writes the row or does nothing. *)
Definition writes (i : nat) (k : Pair) (u : list RoutingRule) (data : VerdictData) (f : Store → bool * Store) : Prop :=
  ∀ s, f s = (true, with_verdicts (insert k data) (note_write i k u) s) ∨ f s = (false, s).

Lemma update_writes i k u data : writes i k u data (update_verdict i k u data).
Proof. intros s. rewrite /update_verdict. destruct (verdicts s !! k) as [row|]; [destruct (replaceable data row); auto|auto]. Qed.

Lemma create_writes i k u data : writes i k u data (create_verdict i k u data).
Proof. intros s. rewrite /create_verdict. destruct (verdicts s !! k); auto. Qed.

Section Publish.
Context (i : nat) (Hi : (i < length jobs)%nat) (P : list PublishedEntry) (e : PublishedEntry) (data : VerdictData).
Context (Hrow : row_of i (pe_pair e) (pe_rulesKey e) data) (Hpool : pe_poolId e = v_poolId data).

Definition after_write (s : Store) (stored : bool) : Prop := own i (if stored then P ++ [e] else P) s.

Lemma attempt_safe f s : writes i (pe_pair e) (pe_rulesKey e) data f → own i P s → rsafe i after_write (stmt f) s.
Proof.
  intros Hf Hown s1 Hinv HR. apply (own_stable _ _ _ _ HR) in Hown. destruct (Hf s1) as [-> | ->]; cbn [fst snd rsafe].
  - destruct (write_row i (pe_pair e) (pe_rulesKey e) data s1 Hi Hrow Hinv) as (H1 & H2 & H3 & H4 & H5). split_and!; [done|done|].
    destruct Hown as [H6 H7 H8]. split; [by rewrite H4| |].
    + intros k. rewrite H3 map_app in_app_iff elem_of_union elem_of_singleton. intros [?| ->]; [left; by apply H7|right; by left].
    + intros k u row Hu Hr. destruct (H5 k u row Hu Hr) as [(-> & -> & ->)|[Hu' Hr']].
      * exists e. split_and!; [apply in_or_app; right; by left|done..].
      * destruct (H8 k u row Hu' Hr') as (x & ? & ?). exists x. split; [apply in_or_app; by left|done].
  - split_and!; [done| |done]. intros j _. by apply rely_frame.
Qed.

Lemma publish_safe s : own i P s → rsafe i after_write (publish_verdict i (pe_pair e) (pe_rulesKey e) data) s.
Proof.
  intros Hown. rewrite /publish_verdict. eapply rsafe_bind; [apply attempt_safe; [apply update_writes|done]|]. intros [] s1 H1; [done|].
  eapply rsafe_bind; [apply attempt_safe; [apply create_writes|done]|]. intros [] s2 H2; [done|].
  apply attempt_safe; [apply update_writes|done].
Qed.
End Publish.

(** A statement that only reads. *)
Lemma read_safe {B} i (f : Store → B * Store) (Q : Store → Prop) s :
  (∀ s, (f s).2 = s) → (∀ s s', Rely i s s' → Q s → Q s') → Q s → rsafe i (λ s _, Q s) (stmt f) s.
Proof.
  intros Hf HQ Hs s1 Hinv HR. rewrite Hf. split_and!; [done| |by apply (HQ s)]. intros j _. by apply rely_frame.
Qed.

Section Pass.
Context (i : nat) (st0 : RoutingEvaluationState) (inputs : RoutingEvaluationInputs) (now : Z).
Context (Hjob : jobs !! i = Some (Pass st0 inputs now)).

Lemma pass_lt : (i < length jobs)%nat.
Proof. by eapply lookup_lt_Some. Qed.

(** Between two pairs; the publisher of a session does not change. *)
Definition looping (s : Store) (ls : LoopState) : Prop :=
  st_publisherId (ls_session ls) = st_publisherId st0 ∧
  if ls_closed ls then settled i s true else own i (ls_published ls) s.

(** The check that the session is open, before a write. *)
Lemma closed_safe P s :
  own i P s →
  rsafe i (λ s (c : bool), if c then settled i s true else own i P s) (stmt (evaluationClosed (st_publisherId st0))) s.
Proof.
  intros Hown s1 Hinv HR. cbn. split_and!; [done|intros j _; by apply rely_frame|]. apply (own_stable _ _ _ _ HR) in Hown.
  case_bool_decide as Hc; [|done]. split; [apply Hown|]. by exists st0, inputs, now.
Qed.

Lemma evaluate_pair_safe epoch ls sel s :
  looping s ls → rsafe i looping (evaluate_pair Date_parse i inputs now epoch ls sel) s.
Proof.
  intros [Hpub Hown]. rewrite /evaluate_pair. destruct (ls_closed ls) eqn:Ec; [by split; [|rewrite Ec]|].
  destruct (bool_decide _ && _ && _ && _); [done|]. destruct (match map_get _ _ with Some _ => _ | None => _ end); [done|].
  rewrite Hpub. eapply rsafe_bind; [by apply (closed_safe (ls_published ls))|].
  cbn beta. intros [] s1 Hown1; [by split|].
  set e := mkPublished _ _ _ _ _. set data := verdict_data _ _ _ _ _.
  eapply rsafe_bind; [apply (publish_safe i pass_lt (ls_published ls) e data)|]; [|done|done|].
  - exists st0, inputs, (sl_instance sel), (sl_modelSlug sel). by rewrite Hjob.
  - intros [] s2 Hown2; [|by split]. by split.
Qed.

(** Deleting the rows of the stale entries, one after another. *)
Definition retracting (rest : list PublishedEntry) (s : Store) (st : RoutingEvaluationState) : Prop :=
  st_publisherId st = st_publisherId st0 ∧ g_clearing (ghost s) i = None ∧ ∀ k, k ∈ g_open (ghost s) i → In k (map pe_pair rest).

Lemma retract_inv k s : inv s → let s' := (retract_one i (st_publisherId st0) now k s).2 in inv s' ∧ (∀ j, j ≠ i → Rely j s s').
Proof.
  intros [H1 H2] s'. split; [split|].
  - intros k' row Hr Hg. cbn in Hr.
    have Hin : verdicts s !! k' = Some row ∧ (k' = k → own_gating (st_publisherId st0) now row = false).
    { destruct (verdicts s !! k) as [row0|] eqn:E; [|split; [done|intros ->; by rewrite E in Hr]].
      destruct (own_gating _ _ row0) eqn:Eo.
      - apply lookup_delete_Some in Hr as [? ?]. split; [done|congruence].
      - split; [done|]. intros ->. rewrite E in Hr. by injection Hr as <-. }
    destruct Hin as [Hin Hnot]. destruct (H1 k' row Hin Hg) as (tok & u & Hu & Hro & Hd). exists tok, u. split_and!; [done|done|].
    destruct Hd as [?|[?|Hop]]; [by left|by right; left|]. right. right. cbn. case_bool_decide as Ht; [|done]. subst tok.
    apply elem_of_difference. split; [done|]. rewrite elem_of_singleton. intros ->. specialize (Hnot eq_refl).
    destruct Hro as (st & inp & inst & slug & Hj & Hp & _). rewrite Hjob in Hj. injection Hj as -> -> Hnow.
    rewrite /own_gating -Hnow Z.eqb_refl Hp bool_decide_eq_true_2 in Hnot; [done|]. by rewrite /gates in Hg; rewrite Hg in Hnot.
  - intros t Ht. destruct (H2 t Ht). cbn. rewrite bool_decide_eq_false_2; [pose proof pass_lt; lia|done].
  - intros j Hj. split; cbn; [by rewrite bool_decide_eq_false_2|done| |done]. intros k' u row Hu. split; [done|].
    destruct (verdicts s !! k) as [row0|] eqn:E; [|done]. destruct (own_gating _ _ row0); [|done]. by apply lookup_delete_Some in H as [_ ?].
Qed.

Lemma retract_entry_safe e rest s st : retracting (e :: rest) s st → rsafe i (retracting rest) (retract_entry i now st e) s.
Proof.
  intros (Hpub & Hcl & Hop). rewrite /retract_entry. cbn [prog_bind stmt rsafe]. intros s1 Hinv [HR1 HR2 _ _]. rewrite Hpub.
  destruct (retract_inv (pe_pair e) s1 Hinv) as [H1 H2]. split_and!; [done|done|]. split_and!; [done|by cbn; rewrite HR2|].
  intros k. cbn. rewrite bool_decide_eq_true_2; [done|]. rewrite elem_of_difference elem_of_singleton HR1. intros [Hk Hne].
  destruct (Hop k Hk) as [?|?]; [congruence|done].
Qed.

(** After the rules were read again: what is still open is flagged. *)
Definition flagged (P : list PublishedEntry) (s : Store) (flags : list bool) : Prop :=
  g_clearing (ghost s) i = None ∧ length flags = length P ∧
  ∀ k, k ∈ g_open (ghost s) i → ∃ n e, P !! n = Some e ∧ flags !! n = Some true ∧ pe_pair e = k.

Lemma flagged_stable P flags s s' : Rely i s s' → flagged P s flags → flagged P s' flags.
Proof. intros [H1 H2 _ _] (? & ? & ?). rewrite /flagged H1 H2. done. Qed.

Lemma read_pools_safe P s : own i P s → rsafe i (flagged P) (stmt (read_pools i P)) s.
Proof.
  intros Hown s1 [H1 H2] HR. destruct (own_stable _ _ _ _ HR Hown) as [Hcl Hop Hrows]. cbn [fst snd read_pools rsafe]. split_and!.
  - split.
    + intros k row Hr Hg. destruct (H1 k row Hr Hg) as (tok & u & Hu & Hro & Hd). exists tok, u. split_and!; [done|done|].
      destruct Hd as [?|[?|Hk]]; [by left|by right; left|]. cbn. case_bool_decide as Ht; [subst tok|by right; right].
      destruct (Hrows k u row Hu Hr) as (e & He & <- & <- & Hpool). destruct (rules_changed s1 e) eqn:Ech.
      * right. right. apply elem_of_list_to_set, list_elem_of_In, in_map, filter_In. done.
      * left. rewrite /rules_changed negb_false_iff bool_decide_eq_true Hpool in Ech. done.
    + intros t Ht. destruct (H2 t Ht). cbn. rewrite bool_decide_eq_false_2; [pose proof pass_lt; lia|done].
  - intros j Hj. split; cbn; [by rewrite bool_decide_eq_false_2|done|done|done].
  - split_and!; [done|by rewrite length_map|]. intros k. cbn. rewrite bool_decide_eq_true_2; [done|].
    rewrite elem_of_list_to_set list_elem_of_In in_map_iff. intros (e & <- & [He Hch]%filter_In).
    apply list_elem_of_In, list_elem_of_lookup in He as [n Hn]. exists n, e. split_and!; [done| |done].
    change (map (rules_changed s1) P) with (rules_changed s1 <$> P). by rewrite list_lookup_fmap Hn /= Hch.
Qed.

Lemma stale_of_flag (P : list PublishedEntry) flags others n e :
  length others = length P → P !! n = Some e → flags !! n = Some true →
  In e (omap (λ x : PublishedEntry * (bool * bool), if x.2.1 || x.2.2 then Some x.1 else None) (zip P (zip flags others))).
Proof.
  intros Hlen HP Hf. apply list_elem_of_In, list_elem_of_omap.
  have [b Hb] : is_Some (others !! n) by (apply lookup_lt_is_Some; rewrite Hlen; by eapply lookup_lt_Some).
  exists (e, (true, b)). split; [|done]. apply list_elem_of_lookup. exists n. rewrite lookup_zip_with HP /= lookup_zip_with Hf /= Hb. done.
Qed.

Lemma retract_safe P s st :
  st_publisherId st = st_publisherId st0 → own i P s → rsafe i (retracting []) (retractIfRulesChanged i P now st) s.
Proof.
  intros Hpub Hown. rewrite /retractIfRulesChanged. destruct P as [|e0 P']; [destruct Hown; by split_and!|].
  set P := e0 :: P' in Hown |- *. eapply rsafe_bind; [by apply read_pools_safe|]. intros flags s1 Hfl.
  eapply (rsafe_bind _ _ _ (λ s others, flagged P s flags ∧ length others = length P)).
  { intros s2 Hinv HR. split_and!; [done|intros j _; by apply rely_frame|]. split; [by eapply flagged_stable|by cbn; rewrite length_map]. }
  intros others s2 [(Hcl & Hlen & Hopen) Hlo]. apply rsafe_fold; [|intros b a l s3; apply retract_entry_safe].
  split_and!; [done|done|]. intros k Hk. destruct (Hopen k Hk) as (n & e & Hn & Hf & <-). apply in_map. by eapply stale_of_flag.
Qed.

Lemma evaluate_safe s :
  g_open (ghost s) i = ∅ → g_clearing (ghost s) i = None → (∀ k u, g_used (ghost s) !! k ≠ Some (i, u)) →
  rsafe i (λ s r, settled i s r.2) (evaluate Date_parse i st0 inputs now) s.
Proof.
  intros Hop Hcl Hus. have Hown : own i [] s by (split; [done|rewrite Hop; set_solver|intros k u row Hu; by destruct (Hus k u)]).
  rewrite /evaluate. eapply rsafe_bind; [apply (read_safe i _ (own i [])); [done|apply own_stable|done]|]. cbn beta. intros epoch s1 H1.
  eapply rsafe_bind; [apply (read_safe i _ (own i [])); [done|apply own_stable|done]|]. cbn beta. intros selected s2 H2.
  eapply rsafe_bind; [by apply (closed_safe [])|]. cbn beta. intros [] s3 H3; [done|].
  eapply rsafe_bind; [apply (rsafe_fold _ _ i (λ _, looping)); [by split|]|].
  { intros ls sel rest s4 H4. by apply evaluate_pair_safe. }
  intros ls s4 [Hpub H4]. destruct (ls_closed ls); [done|].
  eapply rsafe_bind; [by apply retract_safe|]. intros st s5 (_ & Hcl5 & Hop5). split; [done|].
  apply set_eq. intros k. split; [intros Hk; by destruct (Hop5 k Hk)|set_solver].
Qed.
End Pass.

(** ** Edits *)

Section Edit.
Context (i : nat) (Hi : (i < length jobs)%nat) (poolId : jstr).

Lemma commit_safe rows s :
  g_open (ghost s) i = ∅ → g_clearing (ghost s) i = None →
  rsafe i (λ s _, g_open (ghost s) i = ∅ ∧ g_clearing (ghost s) i = Some poolId) (stmt (commit_rules i poolId rows)) s.
Proof.
  intros Hop Hcl s1 [H1 H2] [HR1 HR2 _ _]. cbn [fst snd commit_rules rsafe]. split_and!; [split| |by cbn; rewrite HR1|by cbn; rewrite bool_decide_eq_true_2].
  - intros k row Hr Hg. destruct (H1 k row Hr Hg) as (tok & u & Hu & Hro & Hd). exists tok, u. split_and!; [done|done|].
    destruct (decide (v_poolId row = poolId)) as [Hp|Hp].
    + right. left. exists i. cbn. rewrite bool_decide_eq_true_2; [done|by rewrite Hp].
    + destruct Hd as [Hc|[[t Ht]|Ho]]; [left| |by right; right].
      * rewrite /current /=. by rewrite lookup_alter_ne.
      * right. left. exists t. cbn. case_bool_decide as E; [|done]. subst t. congruence.
  - intros t Ht. cbn. rewrite bool_decide_eq_false_2; [lia|]. by apply H2.
  - intros j Hj. split; cbn; [done|by rewrite bool_decide_eq_false_2|done|done].
Qed.

Lemma clear_safe s :
  g_open (ghost s) i = ∅ → g_clearing (ghost s) i = Some poolId →
  rsafe i (λ s _, g_open (ghost s) i = ∅ ∧ g_clearing (ghost s) i = None) (clearPool i poolId) s.
Proof.
  intros Hop Hcl. rewrite /clearPool. cbn [prog_bind stmt rsafe]. intros s1 Hinv1 [HR1 HR2 _ _].
  split_and!; [by apply (inv_frame s1)|intros j _; by apply rely_frame|]. intros s2 [H1 H2] [HR3 HR4 _ _]. cbn [fst snd delete_pool rsafe].
  split_and!; [split| |by cbn; rewrite HR3 HR1|by cbn; rewrite bool_decide_eq_true_2].
  - intros k row Hr Hg. cbn in Hr. apply map_lookup_filter_Some in Hr as [Hr Hkeep]. cbn in Hkeep.
    destruct (H1 k row Hr Hg) as (tok & u & Hu & Hro & Hd). exists tok, u. split_and!; [done|done|].
    destruct Hd as [?|[[t Ht]|?]]; [by left| |by right; right]. right. left. exists t. cbn. destruct (bool_decide_reflect (t = i)) as [->|]; [|done].
    exfalso. cbn in HR2. rewrite HR4 /= HR2 Hcl in Ht. injection Ht as Hp. rewrite Hg -Hp bool_decide_eq_true_2 in Hkeep; done.
  - intros t Ht. cbn. rewrite bool_decide_eq_false_2; [lia|]. by apply H2.
  - intros j Hj. split; cbn; [done|by rewrite bool_decide_eq_false_2| |done]. intros k u row Hu Hr. by apply map_lookup_filter_Some in Hr as [? _].
Qed.
End Edit.

(** ** All together *)

Lemma job_safe i j s :
  jobs !! i = Some j → g_open (ghost s) i = ∅ → g_clearing (ghost s) i = None → (∀ k u, g_used (ghost s) !! k ≠ Some (i, u)) →
  rsafe i (settled i) (job_prog i j) s.
Proof.
  intros Hj Hop Hcl Hus. have Hi : (i < length jobs)%nat by eapply lookup_lt_Some. destruct j as [st inputs now|poolId rows|ts|publisherId].
  - eapply rsafe_bind; [by eapply evaluate_safe|]. by intros a s1 H1.
  - eapply rsafe_bind; [by apply commit_safe|]. cbn beta. intros _ s1 [H1 H2]. eapply rsafe_bind; [by apply clear_safe|]. by intros _ s2 [H3 H4].
  - intros s1 Hinv [HR1 HR2 _ _]. split_and!; [by apply (inv_frame s1)|intros j _; by apply rely_frame|]. split; cbn; congruence.
  - intros s1 Hinv [HR1 HR2 _ _]. split_and!; [by apply (inv_frame s1)| |split; cbn; congruence].
    intros j _. apply rely_frame; [done|done|]. cbn. set_solver.
Qed.

(** No gating verdict stored yet, and nothing noted. *)
Definition fresh_store (s : Store) : Prop :=
  (∀ k row, verdicts s !! k = Some row → gates row = false) ∧ ghost s = mkGhost ∅ (λ _, ∅) (λ _, None).

Lemma jobs_settle s s' ps' :
  fresh_store s → rtc step (s, start jobs) (s', ps') → (∀ i, (i < length jobs)%nat → ∃ cut, ps' !! i = Some (Done cut)) →
  ∀ k row, verdicts s' !! k = Some row → gates row = true →
  ∃ tok u, row_of tok k u row ∧ (current s' (v_poolId row) u ∨ (ps' !! tok = Some (Done true) ∧ session_over tok s')).
Proof.
  intros [Hrows Hg] Hsteps Hdone.
  destruct (rsafe_sound inv Rely settled s (start jobs) s' ps') as [[H1 H2] Hset]; [apply settled_stable|done| | |].
  - split; [intros k row Hr Hgr; by rewrite (Hrows k row Hr) in Hgr|]. intros t _. by rewrite Hg.
  - intros i p. rewrite /start list_lookup_imap. destruct (jobs !! i) as [j|] eqn:Ej; [|done]. intros [= <-]. by apply job_safe; rewrite ?Hg.
  - intros k row Hr Hgr. destruct (H1 k row Hr Hgr) as (tok & u & Hu & Hro & [Hc|[[t Ht]|Hk]]).
    + exists tok, u. auto.
    + destruct (decide (t < length jobs)%nat) as [Hlt|Hlt]; [|destruct (H2 t); [lia|congruence]].
      destruct (Hdone t Hlt) as [cut Hcut]. destruct (Hset t cut Hcut). congruence.
    + destruct (decide (tok < length jobs)%nat) as [Hlt|Hlt]; [|destruct (H2 tok) as [E _]; [lia|]; rewrite E in Hk; set_solver].
      destruct (Hdone tok Hlt) as [[] Hcut]; destruct (Hset tok _ Hcut) as [_ Hs]; [exists tok, u; auto|].
      rewrite Hs in Hk. set_solver.
Qed.
End Jobs.

(** ** Rows only advance *)

(** What one statement may do to a row: nothing, replace it by a later evaluation (or the same
    publisher's at the same moment), or delete it when it gates. *)
Definition advances (s s' : Store) : Prop :=
  ∀ k row, verdicts s !! k = Some row →
    match verdicts s' !! k with
    | Some row' => row' = row ∨ replaceable row' row = true
    | None => gates row = true
    end.

Lemma advances_same s s' : verdicts s' = verdicts s → advances s s'.
Proof. intros Hv k row Hr. rewrite Hv Hr. by left. Qed.

Lemma update_advances tok k u data s : advances s (update_verdict tok k u data s).2.
Proof.
  rewrite /update_verdict. destruct (verdicts s !! k) as [row|] eqn:E; [|by apply advances_same]. destruct (replaceable data row) eqn:Er; [|by apply advances_same].
  intros k' row' Hr. cbn. destruct (decide (k' = k)) as [->|Hne]; [|rewrite lookup_insert_ne; [done|]; rewrite Hr; by left].
  rewrite lookup_insert_eq. right. congruence.
Qed.

Lemma create_advances tok k u data s : advances s (create_verdict tok k u data s).2.
Proof.
  rewrite /create_verdict. destruct (verdicts s !! k) as [row|] eqn:E; [by apply advances_same|].
  intros k' row' Hr. cbn. rewrite lookup_insert_ne; [congruence|]. rewrite Hr. by left.
Qed.

Lemma retract_advances tok publisherId at_ k s : advances s (retract_one tok publisherId at_ k s).2.
Proof.
  intros k' row Hr. cbn. destruct (verdicts s !! k) as [row0|] eqn:E; [|rewrite Hr; by left]. destruct (own_gating _ _ row0) eqn:Eo; [|rewrite Hr; by left].
  destruct (decide (k' = k)) as [->|Hne]; [|rewrite lookup_delete_ne; [done|]; rewrite Hr; by left].
  rewrite lookup_delete_eq. rewrite E in Hr. injection Hr as <-. by apply andb_true_iff in Eo as [_ ?].
Qed.

Lemma delete_pool_advances tok poolId s : advances s (delete_pool tok poolId s).2.
Proof.
  intros k row Hr. cbn. destruct (filter _ (verdicts s) !! k) as [row'|] eqn:E.
  - apply map_lookup_filter_Some in E as [E _]. left. congruence.
  - apply map_lookup_filter_None in E as [E|E]; [congruence|]. specialize (E row Hr). cbn in E.
    destruct (gates row); [done|]. by rewrite andb_false_r in E.
Qed.

Lemma job_advances Date_parse tok j : each advances (job_prog Date_parse tok j).
Proof.
  have Hread : ∀ {B} (f : Store → B * Store), (∀ s, verdicts (f s).2 = verdicts s) → each advances (stmt f).
  { intros B f Hf. apply each_stmt. intros s. by apply advances_same. }
  destruct j as [st inputs now|poolId rows|ts|publisherId]; [| |by apply Hread|by apply Hread].
  - apply each_bind; [|done]. apply each_bind; [by apply Hread|]. intros epoch. apply each_bind; [by apply Hread|]. intros selected.
    apply each_bind; [by apply Hread|]. intros []; [done|]. apply each_bind.
    + apply each_fold. intros ls sel. rewrite /evaluate_pair. destruct (ls_closed ls); [done|]. destruct (_ && _ && _ && _); [done|].
      destruct (match map_get _ _ with Some _ => _ | None => _ end); [done|]. apply each_bind; [by apply Hread|]. intros []; [done|].
      apply each_bind; [|by intros []]. apply each_bind; [apply each_stmt, update_advances|]. intros []; [done|].
      apply each_bind; [apply each_stmt, create_advances|]. intros []; [done|]. apply each_stmt, update_advances.
    + intros ls. destruct (ls_closed ls); [done|]. apply each_bind; [|done]. rewrite /retractIfRulesChanged. destruct (ls_published ls); [done|].
      apply each_bind; [by apply Hread|]. intros flags. apply each_bind; [by apply Hread|]. intros others. apply each_fold. intros st' e.
      apply each_bind; [apply each_stmt; intros s; apply retract_advances|done].
  - apply each_bind; [by apply Hread|]. intros _. apply each_bind; [|done]. apply each_bind; [by apply Hread|]. intros _.
    apply each_stmt. intros s. apply delete_pool_advances.
Qed.

(** C8. Stored verdicts follow the rules. However evaluation passes of any sessions, rule edits
    (each committed and then cleared with [clearPool]), target edits and session ends interleave,
    once all have finished, every gating verdict in the table is the evaluation of that pair at its
    [evaluatedAt], with that evaluation's expiry, by one of the passes, under the pool's rules now
    in force: none computed from replaced rules is left. The one exception is a verdict of a pass
    that the end of its own session cut short before it read the rules again: that verdict may
    follow rules replaced meanwhile, until it expires. *)
Theorem gating_verdicts_follow_rules Date_parse jobs s s' ps' k row :
  fresh_store s → rtc step (s, start Date_parse jobs) (s', ps') →
  (∀ i, (i < length jobs)%nat → ∃ cut, ps' !! i = Some (Done cut)) →
  verdicts s' !! k = Some row → gates row = true →
  ∃ rules i st inputs inst slug,
    jobs !! i = Some (Pass st inputs (v_evaluatedAt row)) ∧
    (let e := member_evaluation Date_parse inputs inst slug k.1 rules (v_evaluatedAt row) in
     v_verdict row = VERDICT_TO_DB (e_verdict e) ∧ v_expiresAt row = e_expiresAt e) ∧
    ((pool_rules <$> pools s' !! v_poolId row) = Some rules ∨
     (ps' !! i = Some (Done true) ∧ v_publisherId row = st_publisherId st ∧ st_publisherId st ∈ closed s')).
Proof.
  intros Hf Hs Hd Hr Hg.
  destruct (jobs_settle Date_parse jobs s s' ps' Hf Hs Hd k row Hr Hg) as (tok & u & (st & inputs & inst & slug & Hj & Hp & He) & Hc).
  exists u, tok, st, inputs, inst, slug. split_and!; try done. destruct Hc as [Hc|[Hcut (st' & ? & ? & Hj' & Hin)]]; [by left|right].
  split_and!; [done..|]. congruence.
Qed.

(** C?. A stored verdict is never replaced by an older one: in any interleaving of passes, edits
    and session ends, one step leaves a row alone, replaces it by a verdict evaluated later (or
    by the same publisher at the same moment), or deletes it when it gates; a row without effect
    (NONE), the fence against verdicts still in flight, is never deleted. *)
Theorem verdict_rows_only_advance Date_parse jobs s s1 ps1 s2 ps2 :
  rtc step (s, start Date_parse jobs) (s1, ps1) → step (s1, ps1) (s2, ps2) → advances s1 s2.
Proof.
  apply each_steps. intros i p. rewrite /start list_lookup_imap. destruct (jobs !! i); [|done]. intros [= <-]. apply job_advances.
Qed.
