(* ===== verification/MetricOrder.v ===== *)
(** * MetricOrder: a request's candidates ordered by the stored verdicts

    [model-api/metric-routing-order.ts] and [metricFullPairs] of the capacity store: reading the
    fresh gating verdicts, dropping full routes unless all are, and moving avoided ones last. The file
    ends with a node at 95% CPU and a rule that makes a member full above 80%, for the theorems
    of the routing files. *)
From Stdlib Require Import ssreflect.
From S2P Require Import Prelude Interleave JsString JsNumber MetricRouting EngineLoad MetricRoutingSafety RoutingVerdicts RoutingVerdictsSafety.

(** [`${poolMemberId}:${executionTargetId}`]. *)
Definition route_key (poolMemberId executionTargetId : jstr) : jstr := poolMemberId ++ js ":" ++ executionTargetId.

Record MetricOrderResult (T : Type) : Type := mkOrder { mo_candidates : list T; mo_droppedFull : list jstr; mo_allFull : bool }.
Arguments mkOrder {T}.
Arguments mo_candidates {T}.
Arguments mo_droppedFull {T}.
Arguments mo_allFull {T}.

Section Order.
Context {T : Type} (memberIdOf executionTargetId : T → jstr).

Definition candidate_key (c : T) : jstr := route_key (memberIdOf c) (executionTargetId c).

(** The rows of the query; [table] is the [routing_verdict] table in the order it answers. *)
Definition verdict_rows (table : list (Pair * VerdictData)) (now : Z) (candidates : list T) : list (Pair * VerdictData) :=
  List.filter (λ r : Pair * VerdictData,
    bool_decide (r.1.1 ∈ map memberIdOf candidates) && gates r.2 && (now <? v_expiresAt r.2)) table.

(** [new Map(rows.map((row) => [key(row), row.verdict]))]. *)
Definition verdict_map (rows : list (Pair * VerdictData)) : jsmap jstr DbVerdict :=
  fold_left (λ m (r : Pair * VerdictData), map_set (route_key r.1.1 r.1.2) (v_verdict r.2) m) rows [].

(** [None] is a failed read. *)
Definition applyMetricRoutingVerdicts (read : option (list (Pair * VerdictData))) (now : Z) (candidates : list T) : MetricOrderResult T :=
  let unchanged := mkOrder candidates [] false in
  match candidates with
  | [] => unchanged
  | _ =>
      match read with
      | None => unchanged
      | Some table =>
          match verdict_rows table now candidates with
          | [] => unchanged
          | rows =>
              let verdicts := verdict_map rows in
              let verdictOf c := map_get (candidate_key c) verdicts in
              let full := List.filter (λ c, bool_decide (verdictOf c = Some V_FULL)) candidates in
              let allFull := (length full =? length candidates)%nat in
              let kept := if allFull then candidates else List.filter (λ c, negb (bool_decide (verdictOf c = Some V_FULL))) candidates in
              let avoided := List.filter (λ c, bool_decide (verdictOf c = Some V_AVOID)) kept in
              let preferred := List.filter (λ c, negb (bool_decide (verdictOf c = Some V_AVOID))) kept in
              mkOrder (preferred ++ avoided) (if allFull then [] else map candidate_key full) allFull
          end
      end
  end.

(** [metricFullPairs]: the keys of the pairs that are full now. *)
Definition metricFullPairs (table : list (Pair * VerdictData)) (pairs : list Pair) (now : Z) : list jstr :=
  match pairs with
  | [] => []
  | _ => map (λ r : Pair * VerdictData, route_key r.1.1 r.1.2)
           (List.filter (λ r : Pair * VerdictData,
              bool_decide (r.1.1 ∈ map fst pairs) && bool_decide (v_verdict r.2 = V_FULL) && (now <? v_expiresAt r.2)) table)
  end.

(** ** What the order is *)

(** The fresh gating verdict stored for a candidate. *)
Definition stored_verdict (table : list (Pair * VerdictData)) (now : Z) (c : T) (v : DbVerdict) : Prop :=
  ∃ row, In ((memberIdOf c, executionTargetId c), row) table ∧ gates row = true ∧ now < v_expiresAt row ∧ v_verdict row = v.

(** Ids do not contain a colon (they are generated identifiers), so keys are pairs. *)
Definition plain_id (s : jstr) : Prop := ¬ In 58 s.

Lemma route_key_inj a b a' b' : plain_id a → plain_id a' → route_key a b = route_key a' b' → a = a' ∧ b = b'.
Proof.
  rewrite /route_key. revert a'. induction a as [|c a IH]; intros [|c' a'] Ha Ha' H; cbn in H.
  - by injection H as ->.
  - injection H as H1 H2. destruct Ha'. by left.
  - injection H as H1 H2. destruct Ha. by left.
  - injection H as -> H. destruct (IH a') as [-> ->]; [|by intros ?; apply Ha'; right|done|done]. intros ?. apply Ha. by right.
Qed.

Lemma verdict_map_get rows k v :
  NoDup (map (λ r : Pair * VerdictData, route_key r.1.1 r.1.2) rows) →
  map_get k (verdict_map rows) = Some v ↔ ∃ r, In r rows ∧ route_key r.1.1 r.1.2 = k ∧ v_verdict r.2 = v.
Proof.
  rewrite /verdict_map. intros Hnd.
  have Hgen : ∀ m, (∀ r, In r rows → map_get (route_key r.1.1 r.1.2) m = None) →
      map_get k (fold_left (λ m (r : Pair * VerdictData), map_set (route_key r.1.1 r.1.2) (v_verdict r.2) m) rows m) = Some v ↔
      map_get k m = Some v ∨ ∃ r, In r rows ∧ route_key r.1.1 r.1.2 = k ∧ v_verdict r.2 = v.
  { induction rows as [|r rows IH]; intros m Hm; cbn [fold_left].
    - split; [by left|]. by intros [?|(? & [] & _)].
    - apply NoDup_cons in Hnd as [Hr Hnd]. rewrite IH; [done| |].
      + intros r' Hr'. rewrite map_get_set_ne; [|by apply Hm; right]. intros E. apply Hr. rewrite E. apply list_elem_of_In. by apply (in_map (λ r : Pair * VerdictData, route_key r.1.1 r.1.2)).
      + destruct (decide (route_key r.1.1 r.1.2 = k)) as [E|E]; [rewrite E map_get_set_eq|rewrite map_get_set_ne; [done|]].
        * split.
          -- intros [[= <-]|(r' & ? & ?)]; right; [exists r; by split; [left|]|exists r'; by split; [right|]].
          -- intros [Hk|(r' & [->|Hr'] & Hk & Hv)]; [|left; by rewrite -Hv|right; by exists r'].
             rewrite -E Hm in Hk; [by left|done].
        * split.
          -- intros [?|(r' & ? & ?)]; [by left|right; exists r'; by split; [right|]].
          -- intros [?|(r' & [->|Hr'] & Hk & Hv)]; [by left|done|right; by exists r']. }
  rewrite (Hgen []); [done|]. split; [by intros [?|?]|by right].
Qed.

Section Exact.
Context (table : list (Pair * VerdictData)) (now : Z) (candidates : list T).
Context (Hkey : NoDup (map fst table)) (Hids : ∀ r, In r table → plain_id r.1.1) (Hcids : ∀ c, In c candidates → plain_id (memberIdOf c)).

Notation rows := (verdict_rows table now candidates).

Lemma rows_NoDup : NoDup (map (λ r : Pair * VerdictData, route_key r.1.1 r.1.2) rows).
Proof.
  have Hsub : ∀ r, In r rows → In r table by (intros r Hr; apply filter_In in Hr as [? _]).
  have Hnd : NoDup (map fst rows).
  { rewrite /verdict_rows. move: Hkey. clear. induction table as [|r l IH]; cbn; [done|]. intros [Hr Hl]%NoDup_cons.
    destruct (_ && _ && _); [|by apply IH]. cbn. apply NoDup_cons. split; [|by apply IH]. contradict Hr.
    apply list_elem_of_In, in_map_iff in Hr as (x & <- & [Hx _]%filter_In). apply list_elem_of_In. by apply in_map. }
  induction rows as [|r l IH]; cbn; [constructor|]. apply NoDup_cons in Hnd as [Hr Hnd]. apply NoDup_cons. split; [|by apply IH; [intros ? ?; apply Hsub; right|]].
  contradict Hr. apply list_elem_of_In, in_map_iff in Hr as (x & Heq & Hx). apply list_elem_of_In, in_map_iff. exists x. split; [|done].
  destruct (route_key_inj _ _ _ _ (Hids x (Hsub x (or_intror Hx))) (Hids r (Hsub r (or_introl eq_refl))) Heq).
  destruct x as [[] ?], r as [[] ?]. cbn in *. congruence.
Qed.

Lemma verdict_of c v : In c candidates → map_get (candidate_key c) (verdict_map rows) = Some v ↔ stored_verdict table now c v.
Proof.
  intros Hc. rewrite (verdict_map_get _ _ _ rows_NoDup). split.
  - intros ([[m t] row] & Hr & Heq & Hv). apply filter_In in Hr as [Hin Hok]. cbn in *.
    apply andb_true_iff in Hok as [[_ Hg]%andb_true_iff Hexp%Z.ltb_lt].
    destruct (route_key_inj _ _ _ _ (Hids _ Hin) (Hcids c Hc) Heq) as [Hm Ht]. cbn in Hm, Ht. subst m t. by exists row.
  - intros (row & Hin & Hg & Hexp & Hv). exists ((memberIdOf c, executionTargetId c), row). split_and!; [|done|done].
    apply filter_In. split; [done|]. cbn. rewrite Hg (proj2 (Z.ltb_lt _ _) Hexp) bool_decide_eq_true_2 //.
    apply list_elem_of_In. by apply in_map.
Qed.

Lemma no_rows c v : rows = [] → In c candidates → ¬ stored_verdict table now c v.
Proof. intros Hr Hc H. apply (verdict_of c v Hc) in H. by rewrite Hr in H. Qed.
End Exact.
End Order.

Lemma bool_filter_sublist {A} (p : A → bool) (l : list A) : List.filter p l `sublist_of` l.
Proof. induction l as [|x l IH]; cbn; [done|]. destruct (p x); [by apply sublist_skip|by apply sublist_cons]. Qed.

Lemma filter_length_all {A} (p : A → bool) (l : list A) : length (List.filter p l) = length l ↔ ∀ x, In x l → p x = true.
Proof.
  induction l as [|x l IH]; cbn; [done|]. destruct (p x) eqn:E; cbn.
  - split; [intros [= H] y [<-|Hy]; [done|by apply IH]|]. intros H. f_equal. apply IH. intros y Hy. apply H. by right.
  - split; [|intros H; specialize (H x (or_introl eq_refl)); congruence]. intros H. pose proof (filter_length_le p l). lia.
Qed.

(** The order for any two verdict tests. *)
Section Kept.
Context {T : Type} (full avoid : T → bool) (candidates : list T).

Definition kept : list T :=
  if (length (List.filter full candidates) =? length candidates)%nat then candidates else List.filter (λ c, negb (full c)) candidates.
Definition ordered : list T := List.filter (λ c, negb (avoid c)) kept ++ List.filter avoid kept.

Lemma kept_sublist : kept `sublist_of` candidates.
Proof. rewrite /kept. destruct (_ =? _)%nat; [done|apply bool_filter_sublist]. Qed.

Lemma In_kept c : In c kept ↔ In c candidates ∧ ¬ (full c = true ∧ ∃ c', In c' candidates ∧ full c' = false).
Proof.
  rewrite /kept. destruct (Nat.eqb_spec (length (List.filter full candidates)) (length candidates)) as [Hall|Hall].
  - pose proof (proj1 (filter_length_all _ _) Hall) as Hf. split; [|by intros [? _]]. intros Hc. split; [done|].
    intros [_ (c' & Hc' & Hn)]. rewrite Hf in Hn; done.
  - rewrite filter_In negb_true_iff. split; [intros [Hc Hn]; split; [done|intros [? _]; congruence]|]. intros [Hc Hn]. split; [done|].
    destruct (full c) eqn:E; [|done]. destruct Hall. apply filter_length_all. intros c' Hc'. destruct (full c') eqn:E'; [done|].
    destruct Hn. split; [done|]. by exists c'.
Qed.

Lemma In_ordered c : In c ordered ↔ In c kept.
Proof. rewrite /ordered in_app_iff !filter_In. destruct (avoid c); cbn; naive_solver. Qed.

Lemma ordered_nonempty : candidates ≠ [] → ordered ≠ [].
Proof.
  intros Hne Hnil. have Hempty : ∀ c, ¬ In c kept by (intros c Hc; apply In_ordered in Hc; by rewrite Hnil in Hc).
  destruct candidates as [|c0 cs] eqn:Ecs; [done|]. apply (Hempty c0), In_kept. rewrite Ecs. split; [by left|].
  intros [_ (c' & Hc' & Hn)]. apply (Hempty c'), In_kept. rewrite Ecs. split; [done|]. intros [? _]. congruence.
Qed.
End Kept.

Section Formula.
Context {T : Type} (memberIdOf executionTargetId : T → jstr).

Definition tests (table : list (Pair * VerdictData)) (now : Z) (candidates : list T) (v : DbVerdict) (c : T) : bool :=
  bool_decide (map_get (candidate_key memberIdOf executionTargetId c) (verdict_map (verdict_rows memberIdOf table now candidates)) = Some v).

Lemma filter_true {A} (l : list A) : List.filter (λ _, true) l = l.
Proof. induction l as [|x l IH]; cbn; [done|by rewrite IH]. Qed.

Lemma apply_ordered table now candidates :
  mo_candidates (applyMetricRoutingVerdicts memberIdOf executionTargetId (Some table) now candidates) =
  ordered (tests table now candidates V_FULL) (tests table now candidates V_AVOID) candidates.
Proof.
  rewrite /applyMetricRoutingVerdicts /ordered /kept /tests. destruct candidates as [|c0 cs]; [done|]. set candidates := c0 :: cs.
  destruct (verdict_rows memberIdOf table now candidates) as [|r rs]; [|done]. cbn [mo_candidates].
  change (verdict_map []) with ([] : jsmap jstr DbVerdict). cbn [map_get].
  rewrite (filter_none (λ _, bool_decide (None = Some V_FULL)) candidates); [done|]. cbn [length Nat.eqb candidates].
  rewrite !filter_true filter_none; [done|]. by rewrite app_nil_r.
Qed.
End Formula.

(** Metric verdicts order and drop candidates, and never leave a request without one: a
    candidate is dropped exactly when a fresh FULL verdict is stored for it and some other
    candidate has none; the others keep their order, those with a fresh AVOID verdict after the
    rest; expired verdicts, and a failed read, change nothing. *)
Theorem metric_order_exact {T} (memberIdOf executionTargetId : T → jstr) table now candidates :
  NoDup (map fst table) → (∀ r, In r table → plain_id r.1.1) → (∀ c, In c candidates → plain_id (memberIdOf c)) →
  let full c := stored_verdict memberIdOf executionTargetId table now c V_FULL in
  let avoid c := stored_verdict memberIdOf executionTargetId table now c V_AVOID in
  let r := applyMetricRoutingVerdicts memberIdOf executionTargetId (Some table) now candidates in
  (∀ c, In c (mo_candidates r) ↔ In c candidates ∧ ¬ (full c ∧ ∃ c', In c' candidates ∧ ¬ full c')) ∧
  (candidates ≠ [] → mo_candidates r ≠ []) ∧
  (∃ preferred avoided, mo_candidates r = preferred ++ avoided ∧ preferred `sublist_of` candidates ∧ avoided `sublist_of` candidates ∧
     (∀ c, In c preferred → ¬ avoid c) ∧ (∀ c, In c avoided → avoid c)) ∧
  mo_candidates (applyMetricRoutingVerdicts memberIdOf executionTargetId None now candidates) = candidates.
Proof.
  intros Hkey Hids Hcids full avoid r.
  have Hv := verdict_of memberIdOf executionTargetId table now candidates Hkey Hids Hcids.
  rewrite /r apply_ordered. set isv := tests memberIdOf executionTargetId table now candidates.
  have Hisv : ∀ v c, In c candidates → isv v c = true ↔ stored_verdict memberIdOf executionTargetId table now c v.
  { intros v c Hc. rewrite /isv /tests bool_decide_eq_true. by apply Hv. }
  have Hnot : ∀ v c, In c candidates → isv v c = false ↔ ¬ stored_verdict memberIdOf executionTargetId table now c v.
  { intros v c Hc. rewrite -(Hisv v c Hc). by destruct (isv v c). }
  split_and!.
  - intros c. rewrite In_ordered In_kept. split; intros [Hc Hn]; (split; [done|]); contradict Hn; destruct Hn as [Hf (c' & Hc' & Hf')].
    + split; [by apply Hisv|]. exists c'. split; [done|by apply Hnot].
    + split; [by apply Hisv|]. exists c'. split; [done|by apply Hnot].
  - apply ordered_nonempty.
  - exists (List.filter (λ c, negb (isv V_AVOID c)) (kept (isv V_FULL) candidates)), (List.filter (isv V_AVOID) (kept (isv V_FULL) candidates)).
    have Hin : ∀ c, In c (kept (isv V_FULL) candidates) → In c candidates by (intros c Hc; by apply In_kept in Hc as [? _]).
    split_and!; [done|by etransitivity; [apply bool_filter_sublist|apply kept_sublist]..| |].
    + intros c [Hc Hn%negb_true_iff]%filter_In. by apply Hnot; [apply Hin|].
    + intros c [Hc Hn]%filter_In. by apply Hisv; [apply Hin|].
  - by destruct candidates.
Qed.

(** * Verdicts and their order on concrete inputs *)

Definition busy_sample : NodeMetricsSample :=
  mkSample None (Some (mkCpu (Some (num_of_Z 95)) None None None)) None [] [] [] [].
Definition busy_inputs : RoutingEvaluationInputs := mkInputs (Some (busy_sample, 1000)) [].
Definition no_dates : jstr → option Z := λ _, None.
Definition engine_less : InstanceFacts := mkInstance (js "chat-1") None [] (Some (js "OTHER")) None None.

Definition cpu_row : StoredRoutingRuleRow :=
  mkRow (Some 0) (js "node.cpu.usage_percent") ColNull None (js ">") (num_of_Z 80) (js "full") None false.
Definition cpu_rules : list RoutingRule := routingRulesFromRows [cpu_row].

(** Full from 2 s until the metrics go stale at 91 s. *)
Lemma verdict_holds_until_expiry_witness :
  e_verdict (member_evaluation no_dates busy_inputs engine_less (js "m") (js "member") cpu_rules 2000) = verdict_full ∧
  e_expiresAt (member_evaluation no_dates busy_inputs engine_less (js "m") (js "member") cpu_rules 2000) = 91000 ∧
  verdict_kept (e_verdict (member_evaluation no_dates busy_inputs engine_less (js "m") (js "member") cpu_rules 2000))
               (e_verdict (member_evaluation no_dates busy_inputs engine_less (js "m") (js "member") cpu_rules 91000)).
Proof.
  split_and!; [vm_compute; reflexivity|vm_compute; reflexivity|].
  apply (verdict_holds_until_expiry no_dates busy_inputs engine_less (js "m") (js "member") cpu_rules 2000 91000); [lia|vm_compute; discriminate].
Defined.

Definition example_target : Target :=
  mkTarget (js "target") true (js "owner") (Some (js "node")) [] (Some engine_less) (Some (js "m", [mkMember (js "member") (js "pool")])).
Definition example_store : Store :=
  mkStore ∅ {[js "pool" := mkPool (js "owner") [cpu_row]]} [example_target] ∅ 0 (mkGhost ∅ (λ _, ∅) (λ _, None)).
Definition example_session : RoutingEvaluationState := createRoutingEvaluationState (js "pub") (js "owner") (js "node").
Definition example_jobs : list Job := [Pass example_session busy_inputs 2000].
Definition example_after : Store := (run (job_prog no_dates 0 (Pass example_session busy_inputs 2000)) example_store).2.
Definition example_row : VerdictData :=
  mkData (js "pub") (js "owner") (js "pool") (js "node") V_FULL [rule_triggered] load_none 2000 91000.

Lemma example_steps : rtc step (example_store, start no_dates example_jobs) (example_after, [Done false]).
Proof. exact (steps_run (job_prog no_dates 0 (Pass example_session busy_inputs 2000)) example_store (start no_dates example_jobs) 0 eq_refl). Qed.

Lemma gating_verdicts_follow_rules_witness :
  verdicts example_after !! (js "member", js "target") = Some example_row ∧
  ∃ rules st inputs inst slug,
    (pool_rules <$> pools example_after !! js "pool") = Some rules ∧ In (Pass st inputs 2000) example_jobs ∧
    let e := member_evaluation no_dates inputs inst slug (js "member") rules 2000 in
    V_FULL = VERDICT_TO_DB (e_verdict e) ∧ 91000 = e_expiresAt e.
Proof.
  split; [vm_compute; reflexivity|].
  destruct (gating_verdicts_follow_rules no_dates example_jobs example_store example_after [Done false] (js "member", js "target") example_row)
    as (rules & i & st & inputs & inst & slug & Hj & He & Hc).
  - split; [|done]. intros k row. by rewrite lookup_empty.
  - exact example_steps.
  - intros [|i] Hi; [by exists false|cbn in Hi; lia].
  - vm_compute. reflexivity.
  - done.
  - destruct Hc as [Hc|[Hcut _]]; [|by destruct i as [|[|i]]].
    exists rules, st, inputs, inst, slug. split_and!; [exact Hc|by eapply list_elem_of_In, list_elem_of_lookup_2|apply He..].
Defined.

(** The session ends: the stored row stays. *)
Definition ended (s : Store) : bool * Store :=
  (false, mkStore (verdicts s) (pools s) (targets s) ({[js "pub"]} ∪ closed s) (clearEpoch s) (ghost s)).

Lemma example_end :
  step (example_after, [Done false; job_prog no_dates 1 (EndSession (js "pub"))]) ((ended example_after).2, [Done false; Done false]).
Proof. exact (step_stmt example_after [Done false; job_prog no_dates 1 (EndSession (js "pub"))] 1 bool ended Done eq_refl). Qed.

Lemma verdict_rows_only_advance_witness : advances example_after (ended example_after).2.
Proof.
  apply (verdict_rows_only_advance no_dates (example_jobs ++ [EndSession (js "pub")]) example_store example_after
           [Done false; job_prog no_dates 1 (EndSession (js "pub"))] _ [Done false; Done false]).
  - exact (steps_run (job_prog no_dates 0 (Pass example_session busy_inputs 2000)) example_store
             (start no_dates (example_jobs ++ [EndSession (js "pub")])) 0 eq_refl).
  - exact example_end.
Defined.

(** Two routes, one full: the other is left. *)
Lemma metric_order_exact_witness :
  let table := [((js "member", js "target"), example_row)] in
  let candidates := [(js "member", js "target"); (js "member", js "other")] in
  mo_candidates (applyMetricRoutingVerdicts fst snd (Some table) 5000 candidates) = [(js "member", js "other")] ∧
  mo_candidates (applyMetricRoutingVerdicts fst snd (Some table) 5000 candidates) ≠ [] ∧
  mo_candidates (applyMetricRoutingVerdicts fst snd (Some table) 91000 candidates) = candidates.
Proof.
  split_and!; [vm_compute; reflexivity| |vm_compute; reflexivity].
  apply (metric_order_exact fst snd [((js "member", js "target"), example_row)] 5000 [(js "member", js "target"); (js "member", js "other")]).
  - by apply NoDup_singleton.
  - intros r [<-|[]]. vm_compute. naive_solver.
  - intros c [<-|[<-|[]]]; vm_compute; naive_solver.
  - done.
Defined.
