(* ===== verification/McpAdmission.v ===== *)
(** * McpAdmission: the MCP admission gate

    [mcp/admission.ts]: [createMcpAdmissionGate] as a state machine. A permit is named by its
    number, a [close()] call by the caller's; the effects are what the gate makes happen outside:
    the shutdown fence ([onClosed]), the abort of a permit's controller, the resolution of a
    [close()] promise. *)
From Stdlib Require Import ssreflect.
From S2P Require Import Prelude.

Record Gate : Type := mkGate {
  gt_closed : bool;
  gt_outstanding : Z;
  gt_waiters : list nat;
  gt_controllers : list nat;
  gt_released : list nat;
  gt_next : nat;
}.

Inductive GateEffect : Type := Fenced | Aborted (permit : nat) | Resolved (call : nat).

Definition createMcpAdmissionGate : Gate := mkGate false 0 [] [] [] 0.

Definition settleIfDrained (g : Gate) : Gate * list GateEffect :=
  if gt_closed g && (gt_outstanding g =? 0)
  then (mkGate (gt_closed g) (gt_outstanding g) [] (gt_controllers g) (gt_released g) (gt_next g), map Resolved (gt_waiters g))
  else (g, []).

(** [None] once the gate is closed. *)
Definition gate_enter (g : Gate) : option nat * Gate :=
  if gt_closed g then (None, g)
  else (Some (gt_next g),
        mkGate (gt_closed g) (gt_outstanding g + 1) (gt_waiters g) (gt_controllers g ++ [gt_next g]) (gt_released g) (S (gt_next g))).

(** The [release] of a permit. *)
Definition gate_release (permit : nat) (g : Gate) : Gate * list GateEffect :=
  if bool_decide (permit ∈ gt_released g) then (g, [])
  else settleIfDrained (mkGate (gt_closed g) (gt_outstanding g - 1) (gt_waiters g)
                          (List.filter (λ c, negb (bool_decide (c = permit))) (gt_controllers g)) (permit :: gt_released g) (gt_next g)).

Definition gate_close (call : nat) (g : Gate) : Gate * list GateEffect :=
  let firstClose := negb (gt_closed g) in
  let toAbort := gt_controllers g in
  let g1 := mkGate true (gt_outstanding g) (gt_waiters g) [] (gt_released g) (gt_next g) in
  let fence := if firstClose then [Fenced] else [] in
  let '(g2, resolved) := settleIfDrained g1 in
  if gt_outstanding g2 =? 0 then (g2, fence ++ map Aborted toAbort ++ resolved ++ [Resolved call])
  else (mkGate (gt_closed g2) (gt_outstanding g2) (gt_waiters g2 ++ [call]) (gt_controllers g2) (gt_released g2) (gt_next g2),
        fence ++ map Aborted toAbort ++ resolved).

(** ** Runs *)

(** What callers do: ask for admission, release a permit they were given, close. *)
Inductive GateOp : Type := Enter | Release (permit : nat) | Close (call : nat).

(** What happened, in order: the calls and their effects. *)
Inductive GateEvent : Type := Entered (permit : option nat) | ReleaseCalled (permit : nat) | CloseCalled (call : nat) | Did (e : GateEffect).

Definition gate_step (g : Gate) (op : GateOp) : Gate * list GateEvent :=
  match op with
  | Enter => let '(p, g') := gate_enter g in (g', [Entered p])
  | Release permit =>
      if (permit <? gt_next g)%nat then let '(g', es) := gate_release permit g in (g', ReleaseCalled permit :: map Did es) else (g, [])
  | Close call => let '(g', es) := gate_close call g in (g', CloseCalled call :: map Did es)
  end.

Fixpoint gate_run (g : Gate) (ops : list GateOp) : Gate * list GateEvent :=
  match ops with
  | [] => (g, [])
  | op :: ops' => let '(g', es) := gate_step g op in let '(g'', es') := gate_run g' ops' in (g'', es ++ es')
  end.

(** ** What a history says *)

Definition entered (h : list GateEvent) : list nat := omap (λ e, match e with Entered (Some p) => Some p | _ => None end) h.
Definition released (h : list GateEvent) : list nat := omap (λ e, match e with ReleaseCalled p => Some p | _ => None end) h.
Definition closing (h : list GateEvent) : list nat := omap (λ e, match e with CloseCalled c => Some c | _ => None end) h.
Definition resolved (h : list GateEvent) : list nat := omap (λ e, match e with Did (Resolved c) => Some c | _ => None end) h.
Definition aborted (h : list GateEvent) : list nat := omap (λ e, match e with Did (Aborted p) => Some p | _ => None end) h.
Definition fences (h : list GateEvent) : nat := length (List.filter (λ e, match e with Did Fenced => true | _ => false end) h).

(** The permits given and not released. *)
Definition live (h : list GateEvent) : list nat := List.filter (λ p, negb (bool_decide (p ∈ released h))) (entered h).

(** The gate's state is what its history says. *)
Record gate_pre (g : Gate) (h : list GateEvent) : Prop := {
  ok_entered : entered h = seq 0 (gt_next g);
  ok_released : ∀ p, p ∈ gt_released g ↔ p ∈ released h;
  ok_known : ∀ p, p ∈ released h → (p < gt_next g)%nat;
  ok_outstanding : gt_outstanding g = Z.of_nat (length (live h));
  ok_closed : gt_closed g = true ↔ closing h ≠ [];
  ok_fences : fences h = if gt_closed g then 1%nat else 0%nat;
  ok_controllers : gt_closed g = false → gt_controllers g = live h;
  ok_controllers' : gt_closed g = true → gt_controllers g = [];
  ok_aborted : gt_closed g = true → ∀ p, p ∈ live h → p ∈ aborted h;
  ok_waiters : closing h ≡ₚ resolved h ++ gt_waiters g;
}.

(** Nobody waits for a drained gate. *)
Definition gate_ok (g : Gate) (h : list GateEvent) : Prop :=
  gate_pre g h ∧ (gt_closed g = true → gt_outstanding g = 0 → gt_waiters g = []).

(** ** Histories that grow *)

Lemma entered_app h h' : entered (h ++ h') = entered h ++ entered h'.
Proof. apply omap_app. Qed.
Lemma released_app h h' : released (h ++ h') = released h ++ released h'.
Proof. apply omap_app. Qed.
Lemma closing_app h h' : closing (h ++ h') = closing h ++ closing h'.
Proof. apply omap_app. Qed.
Lemma resolved_app h h' : resolved (h ++ h') = resolved h ++ resolved h'.
Proof. apply omap_app. Qed.
Lemma aborted_app h h' : aborted (h ++ h') = aborted h ++ aborted h'.
Proof. apply omap_app. Qed.
Lemma fences_app h h' : fences (h ++ h') = (fences h + fences h')%nat.
Proof. by rewrite /fences List.filter_app length_app. Qed.

Lemma omap_none {A B} (f : A → option B) l : (∀ x, In x l → f x = None) → omap f l = [].
Proof. induction l as [|x l IH]; cbn; [done|]. intros H. rewrite (H x); [by left|]. apply IH. intros y Hy. apply H. by right. Qed.

(** Effects are not calls. *)
Lemma did_entered es : entered (map Did es) = [].
Proof. apply omap_none. by intros x (e & <- & _)%in_map_iff. Qed.
Lemma did_released es : released (map Did es) = [].
Proof. apply omap_none. by intros x (e & <- & _)%in_map_iff. Qed.
Lemma did_closing es : closing (map Did es) = [].
Proof. apply omap_none. by intros x (e & <- & _)%in_map_iff. Qed.
Lemma did_resolved es : resolved (map Did (map Resolved es)) = es.
Proof. induction es as [|c es IH]; cbn; [done|]. by f_equal. Qed.
Lemma did_aborted es : aborted (map Did (map Aborted es)) = es.
Proof. induction es as [|c es IH]; cbn; [done|]. by f_equal. Qed.
Lemma aborted_resolved es : aborted (map Did (map Resolved es)) = [].
Proof. by induction es. Qed.
Lemma resolved_aborted es : resolved (map Did (map Aborted es)) = [].
Proof. by induction es. Qed.
Lemma fences_aborted es : fences (map Did (map Aborted es)) = 0%nat.
Proof. by induction es. Qed.
Lemma fences_resolved es : fences (map Did (map Resolved es)) = 0%nat.
Proof. by induction es. Qed.

#[local] Hint Rewrite entered_app released_app closing_app resolved_app aborted_app fences_app did_entered did_released did_closing did_resolved did_aborted
  aborted_resolved resolved_aborted fences_aborted fences_resolved app_nil_r : history.

Lemma live_did h es : live (h ++ map Did es) = live h.
Proof. rewrite /live. by autorewrite with history. Qed.

Lemma filter_all_true {A} (l : list A) : List.filter (λ _, true) l = l.
Proof. induction l as [|x l IH]; cbn; [done|by rewrite IH]. Qed.

Lemma live_enter h n : n ∉ released h → live (h ++ [Entered (Some n)]) = live h ++ [n].
Proof.
  intros Hn. rewrite /live. autorewrite with history. cbn. rewrite List.filter_app. cbn. by rewrite (bool_decide_eq_false_2 _ Hn).
Qed.

Lemma live_release h p : live (h ++ [ReleaseCalled p]) = List.filter (λ c, negb (bool_decide (c = p))) (live h).
Proof.
  rewrite /live. autorewrite with history. cbn. rewrite ?app_nil_r filter_filter. apply List.filter_ext. intros c.
  rewrite -!bool_decide_not -bool_decide_and. apply bool_decide_ext. set_solver.
Qed.

(** ** Each operation keeps the state true to the history *)

Lemma enter_ok g h : gate_ok g h → gate_ok (gate_enter g).2 (h ++ [Entered (gate_enter g).1]).
Proof.
  intros [[H1 H2 H2' H3 H4 H5 H6 H7 H8 H9] H10]. rewrite /gate_enter. destruct (gt_closed g) eqn:Ec; cbn [fst snd].
  - have Hl : live (h ++ [Entered None]) = live h by rewrite /live; autorewrite with history.
    split; [split|by rewrite Ec]; rewrite ?Hl ?Ec; autorewrite with history; cbn; rewrite ?app_nil_r ?Nat.add_0_r; try done; by apply H8.
  - have Hl : live (h ++ [Entered (Some (gt_next g))]) = live h ++ [gt_next g] by (apply live_enter; intros Hin%H2'; lia).
    split; [split|done]; rewrite ?Hl; cbn [gt_next gt_released gt_outstanding gt_closed gt_controllers gt_waiters]; autorewrite with history; cbn;
      rewrite ?app_nil_r ?Nat.add_0_r; try done.
    + rewrite H1. exact (eq_sym (List.seq_S (gt_next g) 0)).
    + intros p Hp%H2'. lia.
    + rewrite length_app. cbn. lia.
    + intros _. by rewrite H6.
Qed.

Lemma settle_ok g h : gate_pre g h → gate_ok (settleIfDrained g).1 (h ++ map Did (settleIfDrained g).2).
Proof.
  intros [H1 H2 H2' H3 H4 H5 H6 H7 H8 H9]. rewrite /settleIfDrained. destruct (gt_closed g && (gt_outstanding g =? 0)) eqn:E; cbn [fst snd].
  - split; [split|done]; rewrite ?live_did; cbn [gt_next gt_released gt_outstanding gt_closed gt_controllers gt_waiters]; autorewrite with history; try done; by rewrite Nat.add_0_r.
  - cbn. rewrite app_nil_r. split; [by split|]. intros Hc Ho. by rewrite Hc Ho in E.
Qed.

(** The gate with one permit less, before it settles. *)
Definition gate_less (p : nat) (g : Gate) : Gate :=
  mkGate (gt_closed g) (gt_outstanding g - 1) (gt_waiters g) (List.filter (λ c, negb (bool_decide (c = p))) (gt_controllers g)) (p :: gt_released g) (gt_next g).

Lemma In_live h q : In q (live h) ↔ q ∉ released h ∧ In q (entered h).
Proof. rewrite /live filter_In negb_true_iff bool_decide_eq_false. tauto. Qed.

Lemma filter_one_less (p : nat) l : NoDup l → In p l → length l = S (length (List.filter (λ c, negb (bool_decide (c = p))) l)).
Proof.
  induction l as [|x l IH]; cbn; [done|]. intros [Hx Hnd]%NoDup_cons [->|Hp].
  - rewrite (bool_decide_eq_true_2 (p = p)); [done|]. cbn. f_equal. rewrite -{1}(filter_all_true l). f_equal. apply filter_ext_In. intros q Hq.
    symmetry. apply negb_true_iff, bool_decide_eq_false. intros ->. apply Hx. by apply list_elem_of_In.
  - rewrite (bool_decide_eq_false_2 (x = p)); [intros ->; apply Hx; by apply list_elem_of_In|]. cbn. f_equal. by apply IH.
Qed.

Lemma release_pre g h p : (p < gt_next g)%nat → p ∉ gt_released g → gate_pre g h → gate_pre (gate_less p g) (h ++ [ReleaseCalled p]).
Proof.
  intros Hp Hin [H1 H2 H2' H3 H4 H5 H6 H7 H8 H9].
  have Hlen : length (live h) = S (length (live (h ++ [ReleaseCalled p]))).
  { rewrite live_release. apply filter_one_less; [apply NoDup_filter_bool; rewrite H1; apply NoDup_ListNoDup, seq_NoDup|].
    apply In_live. split; [by rewrite -H2|rewrite H1; apply in_seq; lia]. }
  split; cbn [gt_next gt_released gt_outstanding gt_closed gt_controllers gt_waiters gate_less]; autorewrite with history; cbn; rewrite ?app_nil_r ?Nat.add_0_r; try done.
  - intros q. rewrite elem_of_cons elem_of_app list_elem_of_singleton H2. tauto.
  - intros q. rewrite elem_of_app list_elem_of_singleton. intros [Hq| ->]; [by apply H2'|done].
  - lia.
  - intros Hc. by rewrite live_release H6.
  - intros Hc. by rewrite H7.
  - intros Hc q. rewrite live_release. intros Hq. apply H8; [done|]. by apply list_elem_of_In, filter_In in Hq as [?%list_elem_of_In _].
Qed.

Lemma release_again g h p : p ∈ gt_released g → gate_ok g h → gate_ok g (h ++ [ReleaseCalled p]).
Proof.
  intros Hin [[H1 H2 H2' H3 H4 H5 H6 H7 H8 H9] H10].
  have Hl : live (h ++ [ReleaseCalled p]) = live h.
  { rewrite live_release. rewrite -{2}(filter_all_true (live h)). apply filter_ext_In. intros q Hq. apply negb_true_iff, bool_decide_eq_false. intros ->.
    apply In_live in Hq as [Hq _]. apply Hq. by apply H2. }
  split; [split|done]; rewrite ?Hl; autorewrite with history; cbn; rewrite ?app_nil_r ?Nat.add_0_r; try done.
  - intros q. rewrite H2. apply H2 in Hin. set_solver.
  - intros q. rewrite elem_of_app list_elem_of_singleton. intros [Hq| ->]; [by apply H2'|by apply H2', H2].
Qed.

(** Closing: the gate closed with the call among its waiters, settled. *)
Lemma gate_close_alt call g :
  let g1 := mkGate true (gt_outstanding g) (gt_waiters g ++ [call]) [] (gt_released g) (gt_next g) in
  gate_close call g = ((settleIfDrained g1).1, (if negb (gt_closed g) then [Fenced] else []) ++ map Aborted (gt_controllers g) ++ (settleIfDrained g1).2).
Proof.
  rewrite /gate_close /settleIfDrained. cbn. destruct (gt_outstanding g =? 0) eqn:E; cbn; rewrite E /=; [|done].
  by rewrite map_app.
Qed.

(** The gate closed with the call among its waiters, before it settles. *)
Definition gate_shut (call : nat) (g : Gate) : Gate := mkGate true (gt_outstanding g) (gt_waiters g ++ [call]) [] (gt_released g) (gt_next g).
Definition fence_of (g : Gate) : list GateEffect := if negb (gt_closed g) then [Fenced] else [].

Lemma close_pre g h call : gate_pre g h → gate_pre (gate_shut call g) (h ++ CloseCalled call :: map Did (fence_of g ++ map Aborted (gt_controllers g))).
Proof.
  intros [H1 H2 H2' H3 H4 H5 H6 H7 H8 H9]. rewrite /gate_shut. set fence := fence_of g. have Hfence : fence = if negb (gt_closed g) then [Fenced] else [] by done. clearbody fence.
  have Hl : live (h ++ CloseCalled call :: map Did (fence ++ map Aborted (gt_controllers g))) = live h.
  { rewrite (cons_middle _ h) app_assoc live_did /live. by autorewrite with history. }
  rewrite (cons_middle _ h) in Hl |- *. split; rewrite ?Hl; cbn [gt_next gt_released gt_outstanding gt_closed gt_controllers gt_waiters];
    autorewrite with history; cbn [app]; try done.
  - split; [|done]. intros _ Hnil. by apply app_eq_nil in Hnil as [_ ?].
  - rewrite H5 map_app fences_app fences_aborted Hfence. by destruct (gt_closed g).
  - intros _ p Hp. rewrite map_app aborted_app did_aborted elem_of_app elem_of_app. destruct (gt_closed g) eqn:Ec; [left; by apply H8|].
    right. right. apply elem_of_app. right. by rewrite H6.
  - rewrite map_app resolved_app resolved_aborted app_nil_r. have -> : resolved (map Did fence) = [] by rewrite Hfence; destruct (negb _).
    cbn. rewrite app_nil_r H9. by rewrite app_assoc.
Qed.

(** ** What each event may follow *)

(** A permit is given only before any close; an abort comes after the fence; a [close()] promise
    resolves only after it was asked for and once no permit is out. *)
Definition event_follows (h : list GateEvent) (e : GateEvent) : Prop :=
  match e with
  | Entered (Some _) => closing h = []
  | Did (Aborted _) => fences h = 1%nat
  | Did (Resolved call) => live h = [] ∧ call ∈ closing h
  | _ => True
  end.

Definition history_ok (h : list GateEvent) : Prop := ∀ h1 e h2, h = h1 ++ e :: h2 → event_follows h1 e.

Lemma history_snoc h e : history_ok h → event_follows h e → history_ok (h ++ [e]).
Proof.
  intros Hh He h1 e1 h2 Heq. destruct (list_snoc_cases h2) as [-> | (h2' & x & ->)].
  - by apply app_inj_tail in Heq as [<- <-].
  - rewrite app_comm_cons app_assoc in Heq. apply app_inj_tail in Heq as [-> _]. by apply (Hh h1 e1 h2').
Qed.

Lemma history_aborts h ab : history_ok h → (ab ≠ [] → fences h = 1%nat) → history_ok (h ++ map Did (map Aborted ab)).
Proof.
  intros Hh Hf. induction ab as [|p ab IH] using rev_ind; [by cbn; rewrite app_nil_r|]. rewrite !map_app app_assoc.
  have H1 : fences h = 1%nat by (apply Hf; by destruct ab). apply history_snoc; [by apply IH|]. cbn. by rewrite fences_app fences_aborted Nat.add_0_r.
Qed.

Lemma history_resolves h res : history_ok h → (res ≠ [] → live h = []) → (∀ c, c ∈ res → c ∈ closing h) → history_ok (h ++ map Did (map Resolved res)).
Proof.
  intros Hh Hl Hc. induction res as [|c res IH] using rev_ind; [by cbn; rewrite app_nil_r|]. rewrite !map_app app_assoc.
  have H1 : live h = [] by (apply Hl; by destruct res). apply history_snoc.
  - apply IH; [done|]. intros x Hx. apply Hc. set_solver.
  - cbn. rewrite live_did closing_app did_closing app_nil_r. split; [done|]. apply Hc. set_solver.
Qed.

Lemma settle_effects g : ∃ res, (settleIfDrained g).2 = map Resolved res ∧ (res = [] ∨ (res = gt_waiters g ∧ gt_outstanding g = 0)).
Proof.
  rewrite /settleIfDrained. destruct (gt_closed g); cbn [andb]; [|by exists []; split; [|left]]. destruct (Z.eqb_spec (gt_outstanding g) 0); [|by exists []; split; [|left]].
  exists (gt_waiters g). by split; [|right].
Qed.

Lemma live_nil g h : gate_pre g h → gt_outstanding g = 0 → live h = [].
Proof. intros [_ _ _ H _ _ _ _ _ _] Ho. rewrite H in Ho. by destruct (live h). Qed.

Lemma waiters_closing g h c : gate_pre g h → c ∈ gt_waiters g → c ∈ closing h.
Proof. intros [_ _ _ _ _ _ _ _ _ H] Hc. rewrite H. set_solver. Qed.

Lemma settle_history g h : gate_pre g h → history_ok h → history_ok (h ++ map Did (settleIfDrained g).2).
Proof.
  intros Hpre Hh. destruct (settle_effects g) as (res & -> & Hres). apply history_resolves; [done| |].
  - intros Hne. destruct Hres as [->|[_ Ho]]; [done|]. by apply (live_nil g).
  - intros c Hc. destruct Hres as [->|[-> _]]; [by apply not_elem_of_nil in Hc|]. by apply (waiters_closing g).
Qed.

Lemma step_ok g h op :
  gate_ok g h → history_ok h → gate_ok (gate_step g op).1 (h ++ (gate_step g op).2) ∧ history_ok (h ++ (gate_step g op).2).
Proof.
  intros Hok Hh. destruct op as [|p|call]; cbn [gate_step].
  - pose proof (enter_ok g h Hok) as H. destruct (gate_enter g) as [o g'] eqn:E. split; [done|]. apply history_snoc; [done|].
    move: E. rewrite /gate_enter. destruct (gt_closed g) eqn:Ec; intros [= <- <-]; [done|]. cbn.
    destruct Hok as [[_ _ _ _ H4 _ _ _ _ _] _]. destruct (closing h) eqn:Ecl; [done|]. rewrite Ec in H4. have Habs : false = true by (apply H4; done). done.
  - destruct (Nat.ltb_spec p (gt_next g)) as [Hp|]; [|by cbn; rewrite app_nil_r]. have Hsnoc : history_ok (h ++ [ReleaseCalled p]) by apply history_snoc.
    rewrite /gate_release. case_bool_decide as Hin; [by split; [apply release_again|]|]. have Hpre := release_pre g h p Hp Hin (proj1 Hok).
    fold (gate_less p g). pose proof (settle_ok _ _ Hpre) as H. pose proof (settle_history _ _ Hpre Hsnoc) as H'.
    destruct (settleIfDrained (gate_less p g)) as [g2 es]. cbn in *. by rewrite (cons_middle _ h) app_assoc.
  - rewrite gate_close_alt. fold (gate_shut call g). fold (fence_of g). have Hpre := close_pre g h call (proj1 Hok).
    have Hh1 : history_ok (h ++ CloseCalled call :: map Did (fence_of g ++ map Aborted (gt_controllers g))).
    { rewrite (cons_middle _ h) app_assoc map_app app_assoc. apply history_aborts.
      - have Hc : history_ok (h ++ [CloseCalled call]) by apply history_snoc. rewrite /fence_of. destruct (negb _); [by apply history_snoc|by cbn; rewrite app_nil_r].
      - intros Hne. rewrite !fences_app. destruct Hok as [[_ _ _ _ _ H5 _ H7 _ _] _]. rewrite H5 /fence_of. destruct (gt_closed g); [by rewrite H7 in Hne|done]. }
    pose proof (settle_ok _ _ Hpre) as H. pose proof (settle_history _ _ Hpre Hh1) as H'. destruct (settleIfDrained (gate_shut call g)) as [g2 es]. cbn in *.
    rewrite app_assoc map_app app_comm_cons app_assoc. done.
Qed.

Lemma run_ok ops g h : gate_ok g h → history_ok h → gate_ok (gate_run g ops).1 (h ++ (gate_run g ops).2) ∧ history_ok (h ++ (gate_run g ops).2).
Proof.
  revert g h. induction ops as [|op ops IH]; intros g h Hok Hh; cbn; [by rewrite app_nil_r|]. destruct (step_ok g h op Hok Hh) as [H1 H2].
  destruct (gate_step g op) as [g1 es]. cbn in *. specialize (IH g1 (h ++ es) H1 H2). destruct (gate_run g1 ops) as [g2 es2]. cbn in *. by rewrite app_assoc.
Qed.

(** The admission gate keeps its promises, whatever the order of admissions, releases
    (repeated ones included) and closes: [outstanding] counts the permits out; a permit is given
    only while no [close()] was called; the shutdown fence is armed exactly once, before any
    abort; once closed, every permit still out has been aborted; and a [close()] promise
    resolves only when no permit is out, and all of them, once each, as soon as none is. *)
Theorem mcp_gate_correct ops :
  let '(g, h) := gate_run createMcpAdmissionGate ops in
  gt_outstanding g = Z.of_nat (length (live h)) ∧
  fences h = (if bool_decide (closing h = []) then 0%nat else 1%nat) ∧
  (closing h ≠ [] → ∀ p, p ∈ live h → p ∈ aborted h) ∧
  (closing h ≠ [] → live h = [] → resolved h ≡ₚ closing h) ∧
  history_ok h.
Proof.
  have Hok : gate_ok createMcpAdmissionGate [] by (split; [split; cbn; try done; intros p Hp; by apply not_elem_of_nil in Hp|done]).
  destruct (run_ok ops _ [] Hok) as [[[_ _ _ H3 H4 H5 _ _ H8 H9] H10] Hh]; [by intros h1 e h2 Heq; destruct h1|].
  destruct (gate_run createMcpAdmissionGate ops) as [g h]. cbn [fst snd app] in *. split_and!; [done| | | |done].
  - rewrite H5. case_bool_decide as Hc; [rewrite Hc in H4; destruct (gt_closed g); [by destruct (proj1 H4)|done]|]. by rewrite (proj2 H4).
  - intros Hc. by apply H8, H4.
  - intros Hc Hl. rewrite H9 H10; [by apply H4|rewrite H3 Hl; done|]. by rewrite app_nil_r.
Qed.
