(* ===== verification/Shutdown.v ===== *)
(** * Shutdown: the graceful shutdown of the server process

    [graceful-shutdown.ts], [shutdown-timeouts.ts], [shutDownUserDeletionSweep] and the wiring of
    [server-shutdown.ts]. A piece of work is what its promise does: settle after some
    milliseconds, in success or failure, or never settle. A step starts at a time and answers
    when the sequence goes on, if it does. Where a promise settles at the very moment of its
    deadline, the work is taken to have won. *)
From Stdlib Require Import ssreflect.
From S2P Require Import Prelude.

Definition USER_DELETION_SWEEP_JOIN_TIMEOUT_MS : Z := 7500.
Definition USER_DELETION_SWEEP_DISCONNECT_TIMEOUT_MS : Z := 1000.
Definition SHARED_DISCONNECT_TIMEOUT_MS : Z := 2000.
Definition PERIODIC_JOBS_STOP_TIMEOUT_MS : Z := 2000.
Definition HTTP_DRAIN_TIMEOUT_MS : Z := 10000.
Definition RELAY_CLOSE_TIMEOUT_MS : Z := 5000.
Definition CAPACITY_RUNTIME_CLOSE_TIMEOUT_MS : Z := 5000.
Definition MCP_CLOSE_SHADOW_AWAIT_MS : Z := 10000.
Definition PROCESS_SHUTDOWN_DEADLINE_MS : Z := 47000.

(** ** Work *)

Inductive Work : Type := Settles (ms : N) (ok : bool) | Never.

(** [Promise.all]: rejects with the first rejection, resolves with the last resolution. *)
Definition both (a b : Work) : Work :=
  match a, b with
  | Settles x true, Settles y true => Settles (N.max x y) true
  | Settles x false, Settles y false => Settles (N.min x y) false
  | Settles x false, _ | _, Settles x false => Settles x false
  | _, _ => Never
  end.
Definition all_of (ws : list Work) : Work := fold_left both ws (Settles 0 true).

(** [await a; await b], where a rejection of the first skips the second. *)
Definition and_then (a b : Work) : Work :=
  match a with
  | Settles x true => match b with Settles y ok => Settles (x + y) ok | Never => Never end
  | Settles x false => Settles x false
  | Never => Never
  end.

Inductive Raced : Type := done_ | timeout_.
#[global] Instance Raced_eq_dec : EqDecision Raced.
Proof. solve_decision. Defined.

(** What is seen from outside: steps starting, sockets forced closed, a pool quarantined. *)
Inductive StepName : Type :=
  | stopPeriodicJobs | closeBrowserSockets | drainHttp | closeRelaySessions | closeCapacityRuntimes | closeMcpHandler | disconnectPrisma.
Inductive ShutdownEvent : Type := Began (step : StepName) | Forced | Quarantined | Warned | LoggedError.

(** A part of the sequence started at a time: its events, and when it ends, if it does. *)
Definition Timed : Type := Z → list (Z * ShutdownEvent) * option Z.

(** [runWithDeadline]. *)
Definition runWithDeadline (work : Work) (timeoutMs : Z) (t : Z) : list (Z * ShutdownEvent) * Z * Raced :=
  match work with
  | Settles ms ok =>
      if Z.of_N ms <=? timeoutMs
      then ((if ok then [] else [(t + Z.of_N ms, LoggedError)]), t + Z.of_N ms, done_)
      else ([(t + timeoutMs, Warned)], t + timeoutMs, timeout_)
  | Never => ([(t + timeoutMs, Warned)], t + timeoutMs, timeout_)
  end.

Definition bounded (work : Work) (timeoutMs : Z) : Timed :=
  λ t, let '(es, t', _) := runWithDeadline work timeoutMs t in (es, Some t').

(** A step awaited without a bound; its failure is logged. *)
Definition awaited (work : Work) : Timed :=
  λ t, match work with
       | Settles ms ok => ((if ok then [] else [(t + Z.of_N ms, LoggedError)]), Some (t + Z.of_N ms))
       | Never => ([], None)
       end.

(** ** The HTTP drain *)

Record HttpDrain : Type := mkDrain { hd_stopAdmission : Work; hd_closeIdle : Work; hd_forceOk : bool }.

Definition drainHttpWithDeadline (d : HttpDrain) (timeoutMs : Z) : Timed := λ t,
  let deadline := t + timeoutMs in
  let '(es1, t1, _) := runWithDeadline (hd_closeIdle d) timeoutMs t in
  match hd_stopAdmission d with
  | Settles ms ok =>
      if Z.of_N ms <=? timeoutMs
      then (es1 ++ (if ok then [] else [(t + Z.of_N ms, LoggedError)]), Some (Z.max t1 (t + Z.of_N ms)))
      else (es1 ++ [(deadline, Warned); (deadline, Forced)] ++ (if hd_forceOk d then [] else [(deadline, LoggedError)]), Some deadline)
  | Never => (es1 ++ [(deadline, Warned); (deadline, Forced)] ++ (if hd_forceOk d then [] else [(deadline, LoggedError)]), Some deadline)
  end.

(** ** The database clients *)

Definition shutDownUserDeletionSweep (stopped disconnect : Work) : Timed := λ t,
  let '(es1, t1, joined) := runWithDeadline stopped USER_DELETION_SWEEP_JOIN_TIMEOUT_MS t in
  let q1 := if bool_decide (joined = done_) then [] else [(t1, Quarantined)] in
  let '(es2, t2, disconnected) := runWithDeadline disconnect USER_DELETION_SWEEP_DISCONNECT_TIMEOUT_MS t1 in
  let q2 := if bool_decide (disconnected = done_) then [] else [(t2, Quarantined)] in
  (es1 ++ q1 ++ es2 ++ q2, Some t2).

Definition disconnectDatabaseClients (stopped sweepDisconnect shared : Work) : Timed := λ t,
  let '(es1, end1) := shutDownUserDeletionSweep stopped sweepDisconnect t in
  match end1 with
  | None => (es1, None)
  | Some t1 =>
      let '(es2, t2, raced) := runWithDeadline shared SHARED_DISCONNECT_TIMEOUT_MS t1 in
      (es1 ++ es2 ++ (if bool_decide (raced = timeout_) then [(t2, Warned)] else []), Some t2)
  end.

(** ** The sequence *)

(** What [installServerShutdown] is given, each as what it does. *)
Record ServerShutdownDeps : Type := mkDeps {
  sd_periodicJobStops : list Work;
  sd_stopMaintenance : Work;
  sd_browserSockets : Work;
  sd_http : HttpDrain;
  sd_closeRelay : Work;
  sd_flushRealtimeMetering : Work;
  sd_flushAgentAudit : Work;
  sd_capacityClose : Work;
  sd_diagnosticsClose : Work;
  sd_mcpGateClose : Work;
  sd_mcpHandlerClose : Work;
  sd_sweepStopped : Work;
  sd_sweepDisconnect : Work;
  sd_sharedDisconnect : Work;
}.

(** The steps in their order, each with what it runs. *)
Definition shutdown_steps (d : ServerShutdownDeps) : list (StepName * Timed) :=
  [(stopPeriodicJobs, bounded (all_of (sd_periodicJobStops d ++ [sd_stopMaintenance d])) PERIODIC_JOBS_STOP_TIMEOUT_MS);
   (closeBrowserSockets, awaited (sd_browserSockets d));
   (drainHttp, drainHttpWithDeadline (sd_http d) HTTP_DRAIN_TIMEOUT_MS);
   (closeRelaySessions, bounded (and_then (sd_closeRelay d) (and_then (sd_flushRealtimeMetering d) (sd_flushAgentAudit d))) RELAY_CLOSE_TIMEOUT_MS);
   (closeCapacityRuntimes, bounded (all_of [sd_capacityClose d; sd_diagnosticsClose d]) CAPACITY_RUNTIME_CLOSE_TIMEOUT_MS);
   (closeMcpHandler, awaited (all_of [sd_mcpGateClose d; sd_mcpHandlerClose d]));
   (disconnectPrisma, disconnectDatabaseClients (sd_sweepStopped d) (sd_sweepDisconnect d) (sd_sharedDisconnect d))].

(** Each step starts when the one before went on; a step that never does stops the sequence. *)
Fixpoint run_steps (steps : list (StepName * Timed)) (t : Z) : list (Z * ShutdownEvent) * option Z :=
  match steps with
  | [] => ([], Some t)
  | (name, step) :: rest =>
      let '(es, e) := step t in
      match e with
      | None => ((t, Began name) :: es, None)
      | Some t' => let '(es', e') := run_steps rest t' in ((t, Began name) :: es ++ es', e')
      end
  end.

Definition runGracefulShutdownSequence (d : ServerShutdownDeps) : Timed := run_steps (shutdown_steps d).

(** [runProcessShutdown]: when the process exits, and with which status. *)
Definition runProcessShutdown (d : ServerShutdownDeps) (t : Z) : Z * Z :=
  match (runGracefulShutdownSequence d t).2 with
  | Some e => if e <? t + PROCESS_SHUTDOWN_DEADLINE_MS then (e, 0) else (t + PROCESS_SHUTDOWN_DEADLINE_MS, 1)
  | None => (t + PROCESS_SHUTDOWN_DEADLINE_MS, 1)
  end.

(** The first signal shuts the process down; later ones are ignored. *)
Definition on_signal (d : ServerShutdownDeps) (isShuttingDown : bool) (t : Z) : bool * option (Z * Z) :=
  if isShuttingDown then (true, None) else (true, Some (runProcessShutdown d t)).

(** ** Bounds *)

(** A step that goes on within [limit] of its start, never before. *)
Definition within (limit : Z) (step : Timed) : Prop := ∀ t, ∃ es t', step t = (es, Some t') ∧ t ≤ t' ≤ t + limit.

Lemma runWithDeadline_within work limit t : 0 ≤ limit → t ≤ (runWithDeadline work limit t).1.2 ≤ t + limit.
Proof. intros H. rewrite /runWithDeadline. destruct work as [ms ok|]; [|cbn; lia]. destruct (Z.leb_spec (Z.of_N ms) limit); cbn; lia. Qed.

Lemma bounded_within work limit : 0 ≤ limit → within limit (bounded work limit).
Proof.
  intros H t. rewrite /bounded. pose proof (runWithDeadline_within work limit t H) as Hw. destruct (runWithDeadline work limit t) as [[es t'] r].
  by exists es, t'.
Qed.

Lemma awaited_within ms ok limit : Z.of_N ms ≤ limit → within limit (awaited (Settles ms ok)).
Proof. intros H t. eexists _, _. split; [done|]. lia. Qed.

Lemma drain_within d limit : 0 ≤ limit → within limit (drainHttpWithDeadline d limit).
Proof.
  intros H t. rewrite /drainHttpWithDeadline. pose proof (runWithDeadline_within (hd_closeIdle d) limit t H) as Hw.
  destruct (runWithDeadline (hd_closeIdle d) limit t) as [[es1 t1] r1]. cbn in Hw.
  destruct (hd_stopAdmission d) as [ms ok|]; [destruct (Z.leb_spec (Z.of_N ms) limit)|]; eexists _, _; (split; [done|]); lia.
Qed.

Lemma disconnect_within a b c :
  within (USER_DELETION_SWEEP_JOIN_TIMEOUT_MS + USER_DELETION_SWEEP_DISCONNECT_TIMEOUT_MS + SHARED_DISCONNECT_TIMEOUT_MS) (disconnectDatabaseClients a b c).
Proof.
  intros t. rewrite /disconnectDatabaseClients /shutDownUserDeletionSweep.
  pose proof (runWithDeadline_within a USER_DELETION_SWEEP_JOIN_TIMEOUT_MS t ltac:(done)) as H1. destruct (runWithDeadline a _ t) as [[es1 t1] r1]. cbn in H1.
  pose proof (runWithDeadline_within b USER_DELETION_SWEEP_DISCONNECT_TIMEOUT_MS t1 ltac:(done)) as H2. destruct (runWithDeadline b _ t1) as [[es2 t2] r2]. cbn in H2.
  pose proof (runWithDeadline_within c SHARED_DISCONNECT_TIMEOUT_MS t2 ltac:(done)) as H3. destruct (runWithDeadline c _ t2) as [[es3 t3] r3]. cbn in H3.
  eexists _, _. split; [done|]. lia.
Qed.

(** The steps that began. *)
Definition began (es : list (Z * ShutdownEvent)) : list StepName := omap (λ e, match e.2 with Began s => Some s | _ => None end) es.

Lemma began_app es es' : began (es ++ es') = began es ++ began es'.
Proof. apply omap_app. Qed.

(** A step announces no other. *)
Definition quiet (step : Timed) : Prop := ∀ t, began (step t).1 = [].

(** The steps that begin are the first ones of the order, and all of them when the sequence ends. *)
Lemma run_steps_order steps t :
  Forall (λ s, quiet s.2) steps →
  let r := run_steps steps t in
  began r.1 `prefix_of` map fst steps ∧ (is_Some r.2 → began r.1 = map fst steps).
Proof.
  intros Hq. revert t. induction Hq as [|[name step] steps Hs Hq IH]; intros t; cbn [run_steps]; [done|]. specialize (Hs t). cbn [snd] in Hs.
  destruct (step t) as [es [t'|]]; cbn [fst snd map] in Hs |- *.
  - specialize (IH t'). destruct (run_steps steps t') as [es' e']. cbn [fst snd] in *.
    have -> : began ((t, Began name) :: es ++ es') = name :: began es' by (change (name :: began (es ++ es') = name :: began es'); by rewrite began_app Hs).
    destruct IH as [H1 H2]. split; [by apply prefix_cons|]. intros He. by rewrite H2.
  - have -> : began ((t, Began name) :: es) = [name] by (change (name :: began es = [name]); by rewrite Hs).
    split; [apply prefix_cons, prefix_nil|by intros [? ?]].
Qed.

Lemma runWithDeadline_quiet work limit t : began (runWithDeadline work limit t).1.1 = [].
Proof. rewrite /runWithDeadline. destruct work as [ms []|]; [destruct (_ <=? _)..|]; done. Qed.

Ltac quiet_race work :=
  match goal with |- context [runWithDeadline work ?l ?u] => 
    let H := fresh "H" in pose proof (runWithDeadline_quiet work l u) as H; destruct (runWithDeadline work l u) as [[? ?] ?]; cbn [fst snd] in H
  end.

Lemma steps_quiet d : Forall (λ s, quiet s.2) (shutdown_steps d).
Proof.
  have Hb : ∀ w l, quiet (bounded w l) by (intros w l t; rewrite /bounded; quiet_race w).
  have Ha : ∀ w, quiet (awaited w) by (intros [ms []|] t).
  repeat (apply Forall_cons; split; [first [apply Hb|apply Ha|cbn [snd]]|]); [| |constructor].
  - intros t. rewrite /drainHttpWithDeadline. quiet_race (hd_closeIdle (sd_http d)).
    destruct (hd_stopAdmission _) as [ms []|]; [destruct (_ <=? _)..|]; cbn [fst]; rewrite began_app H; by try destruct (hd_forceOk _).
  - intros t. rewrite /disconnectDatabaseClients /shutDownUserDeletionSweep. quiet_race (sd_sweepStopped d). quiet_race (sd_sweepDisconnect d).
    quiet_race (sd_sharedDisconnect d). cbn [fst]. rewrite !began_app H H0 H1. by repeat case_bool_decide.
Qed.

(** When each step goes on within its limit, the sequence ends within their sum. *)
Lemma run_steps_within steps limits t :
  Forall2 (λ s l, within l s.2) steps limits → ∃ es t', run_steps steps t = (es, Some t') ∧ t ≤ t' ≤ t + foldr Z.add 0 limits.
Proof.
  intros H. revert t. induction H as [|[name step] l steps limits Hs H IH]; intros t; cbn [run_steps foldr]; [eexists _, _; split; [done|lia]|].
  cbn [snd] in Hs. destruct (Hs t) as (es & t1 & -> & Ht1). destruct (IH t1) as (es' & t2 & -> & Ht2). eexists _, _. split; [done|]. lia.
Qed.

Lemma run_steps_later steps t e : Forall (λ s, ∀ t es t', s.2 t = (es, Some t') → t ≤ t') steps → (run_steps steps t).2 = Some e → t ≤ e.
Proof.
  intros H. revert t. induction H as [|[name step] steps Hs H IH]; intros t; cbn [run_steps]; [intros [= <-]; lia|].
  cbn [snd] in Hs. destruct (step t) as [es [t1|]] eqn:E; [|done]. specialize (IH t1). destruct (run_steps steps t1) as [es' e']. cbn [snd] in *.
  intros He. specialize (IH He). specialize (Hs t es t1 E). lia.
Qed.

Lemma within_later l step : within l step → ∀ t es t', step t = (es, Some t') → t ≤ t'.
Proof. intros H t es t' E. destruct (H t) as (? & ? & E' & ?). rewrite E in E'. injection E' as -> ->. lia. Qed.

Lemma steps_later d : Forall (λ s, ∀ t es t', s.2 t = (es, Some t') → t ≤ t') (shutdown_steps d).
Proof.
  have Hb : ∀ w l, 0 ≤ l → ∀ t es t', bounded w l t = (es, Some t') → t ≤ t' by (intros w l Hl; apply (within_later l), bounded_within).
  have Ha : ∀ w t es t', awaited w t = (es, Some t') → t ≤ t' by (intros [ms ok|] t es t'; [intros [= _ <-]; lia|done]).
  repeat (apply Forall_cons; split; [first [by apply Hb|apply Ha|cbn [snd]]|]); [| |constructor].
  - apply (within_later HTTP_DRAIN_TIMEOUT_MS). by apply drain_within.
  - eapply within_later, disconnect_within.
Qed.

(** C23. The process always exits: at the shutdown deadline at the latest, whatever any step does
    (fails, hangs, is slow). The steps start in their order, each after the one before went on.
    And when the two steps without a bound of their own settle in time (the browser sockets
    within the margin, the MCP close within its term), successfully or not, every step runs and
    the process exits with status 0 before the watchdog, however the bounded steps fail or
    hang. *)
Theorem shutdown_exits d t :
  let '(exit, status) := runProcessShutdown d t in
  let order := [stopPeriodicJobs; closeBrowserSockets; drainHttp; closeRelaySessions; closeCapacityRuntimes; closeMcpHandler; disconnectPrisma] in
  t ≤ exit ≤ t + PROCESS_SHUTDOWN_DEADLINE_MS ∧
  began (runGracefulShutdownSequence d t).1 `prefix_of` order ∧
  ∀ b okb m okm,
    sd_browserSockets d = Settles b okb → Z.of_N b < 4500 →
    all_of [sd_mcpGateClose d; sd_mcpHandlerClose d] = Settles m okm → Z.of_N m ≤ MCP_CLOSE_SHADOW_AWAIT_MS →
    status = 0 ∧ began (runGracefulShutdownSequence d t).1 = order.
Proof.
  destruct (run_steps_order (shutdown_steps d) t (steps_quiet d)) as [Hprefix Hall]. rewrite /runProcessShutdown.
  pose proof (run_steps_later (shutdown_steps d) t) as Hlater.
  have Hend : ∀ b okb m okm, sd_browserSockets d = Settles b okb → Z.of_N b < 4500 →
      all_of [sd_mcpGateClose d; sd_mcpHandlerClose d] = Settles m okm → Z.of_N m ≤ MCP_CLOSE_SHADOW_AWAIT_MS →
      ∃ e, (runGracefulShutdownSequence d t).2 = Some e ∧ e < t + PROCESS_SHUTDOWN_DEADLINE_MS.
  { intros b okb m okm Hb Hlt Hm Hle.
    destruct (run_steps_within (shutdown_steps d) [2000; Z.of_N b; 10000; 5000; 5000; 10000; 10500] t) as (es & e & Hrun & He).
    - rewrite /shutdown_steps Hb Hm. repeat constructor; cbn [snd].
      + by apply bounded_within.
      + by apply awaited_within.
      + by apply drain_within.
      + by apply bounded_within.
      + by apply bounded_within.
      + by apply awaited_within.
      + apply disconnect_within.
    - exists e. rewrite /runGracefulShutdownSequence Hrun. split; [done|]. cbn [foldr] in He. rewrite /PROCESS_SHUTDOWN_DEADLINE_MS. lia. }
  rewrite /runGracefulShutdownSequence /PROCESS_SHUTDOWN_DEADLINE_MS in Hend |- *. set r := run_steps (shutdown_steps d) t in Hprefix Hall Hlater Hend |- *. destruct r as [es [e|]]; cbn [fst snd] in *.
  - specialize (Hlater e (steps_later d) eq_refl). destruct (Z.ltb_spec e (t + 47000)) as [He|He]; split_and!; try done; try lia.
    + intros b okb m okm _ _ _ _. split; [done|]. by apply Hall.
    + intros b okb m okm H1 H2 H3 H4. destruct (Hend b okb m okm H1 H2 H3 H4) as (e' & [= <-] & ?). lia.
  - split_and!; try done; try lia. intros b okb m okm H1 H2 H3 H4. by destruct (Hend b okb m okm H1 H2 H3 H4) as (e' & ? & _).
Qed.
