(* ===== verification/JsRound.v ===== *)
(** * JsRound: [Math.min], [Math.max], [Math.floor], [Math.ceil] and the rounding of products

    The functions of [Math] on binary64 numbers, and what the components need of binary64
    rounding: integers below 2^53 are exact and keep their order, a product lies within one unit
    of the last place of the exact product and is exact when that is representable, and no
    operation on finite numbers yields NaN. *)
From Stdlib Require Import ssreflect SpecFloat.
From S2P Require Import Prelude JsNumber.

(** ** Functions of [Math] *)

Definition num_max (x y : num) : num :=
  if num_nan x || num_nan y then S754_nan
  else if num_lt x y then y
  else if num_lt y x then x
  else match x with S754_zero true => y | _ => x end.

Definition num_min (x y : num) : num :=
  if num_nan x || num_nan y then S754_nan
  else if num_lt x y then x
  else if num_lt y x then y
  else match x with S754_zero false => y | _ => x end.

Definition num_floor (x : num) : num :=
  match x with
  | S754_finite s m e =>
      if 0 <=? e then x
      else
        let q := cond_Zopp s (Z.pos m) / 2 ^ (- e) in
        if q =? 0 then S754_zero s else num_of_Z q
  | _ => x
  end.

Definition num_ceil (x : num) : num :=
  match x with
  | S754_finite s m e =>
      if 0 <=? e then x
      else
        let q := - (- cond_Zopp s (Z.pos m) / 2 ^ (- e)) in
        if q =? 0 then S754_zero s else num_of_Z q
  | _ => x
  end.

(** The integer of a finite number, rounded down. *)
Definition num_floor_Z (x : num) : Z :=
  match x with
  | S754_finite s m e => if 0 <=? e then cond_Zopp s (Z.pos m) * 2 ^ e else cond_Zopp s (Z.pos m) / 2 ^ (- e)
  | _ => 0
  end.

(** [Number.isInteger]. *)
Definition num_is_integer (x : num) : bool :=
  match x with
  | S754_zero _ => true
  | S754_finite _ m e => (0 <=? e) || (Z.pos m mod 2 ^ (- e) =? 0)
  | _ => false
  end.

(** ** Shifts and rounding *)

Lemma digits2_log2 p : Z.pos (digits2_pos p) = Z.log2 (Z.pos p) + 1.
Proof.
  induction p as [p IH|p IH|]; cbn [digits2_pos]; rewrite ?Pos2Z.inj_succ ?IH; last done.
  - rewrite (Pos2Z.inj_xI p) Z.log2_succ_double; lia.
  - rewrite (Pos2Z.inj_xO p) Z.log2_double; lia.
Qed.

Lemma iter_pos_iter {A} (f : A → A) n x : SpecFloat.iter_pos f n x = Pos.iter f x n.
Proof. revert x; induction n as [n IH|n IH|]; intros x; cbn [SpecFloat.iter_pos]; rewrite ?IH // !Pos.iter_swap //. Qed.

Lemma pos_iter_xO m d : Z.pos (Pos.iter xO m d) = Z.pos m * 2 ^ Z.pos d.
Proof.
  revert m. induction d as [|d IH] using Pos.peano_ind; intros m; first (cbn; lia).
  rewrite Pos.iter_succ Pos2Z.inj_xO IH Pos2Z.inj_succ Z.pow_succ_r; lia.
Qed.

(** A shift right divides, and drops nothing when the division is exact. *)
Lemma shr_1_m r : 0 ≤ shr_m r → shr_m (shr_1 r) = shr_m r / 2.
Proof.
  destruct r as [[|[p|p|]|p] b s]; cbn [shr_1 shr_m]; try lia; try done; intros _.
  - rewrite (Pos2Z.inj_xI p). apply Z.div_unique with 1; lia.
  - rewrite (Pos2Z.inj_xO p) Z.mul_comm Z.div_mul; lia.
Qed.

Lemma shr_1_exact a : 0 ≤ a → shr_1 (Build_shr_record (2 * a) false false) = Build_shr_record a false false.
Proof. by destruct a. Qed.

Lemma shr_iter_m n r : 0 ≤ shr_m r → shr_m (SpecFloat.iter_pos shr_1 n r) = shr_m r / 2 ^ Z.pos n.
Proof.
  rewrite iter_pos_iter. induction n as [|n IH] using Pos.peano_ind; intros Hr; first by rewrite /= shr_1_m.
  rewrite Pos.iter_succ shr_1_m IH //; first (apply Z.div_pos; lia).
  rewrite Pos2Z.inj_succ Z.pow_succ_r // Z.mul_comm Z.div_div; lia.
Qed.

Lemma shr_iter_exact n a : 0 ≤ a → SpecFloat.iter_pos shr_1 n (Build_shr_record (a * 2 ^ Z.pos n) false false) = Build_shr_record a false false.
Proof.
  rewrite iter_pos_iter. revert a. induction n as [|n IH] using Pos.peano_ind; intros a Ha.
  - cbn [Pos.iter]. rewrite (_ : a * 2 ^ 1 = 2 * a); [lia|by apply shr_1_exact].
  - rewrite Pos.iter_succ_r Pos2Z.inj_succ Z.pow_succ_r //.
    rewrite (_ : a * (2 * 2 ^ Z.pos n) = 2 * (a * 2 ^ Z.pos n)); first lia. rewrite shr_1_exact ?IH //. lia.
Qed.

(** What a shift by the precision leaves. *)
Lemma shr_shape r e k : 0 ≤ shr_m r →
  (shr r e k).2 = e + Z.max 0 k ∧ shr_m (shr r e k).1 = shr_m r / 2 ^ Z.max 0 k.
Proof.
  intros Hr. destruct k as [|k|k]; cbn [shr fst]; rewrite ?Z.add_0_r ?Z.pow_0_r ?Z.div_1_r //.
  by rewrite Z.max_r // shr_iter_m.
Qed.

Lemma shr_exact m e k : 0 ≤ m → m mod 2 ^ Z.max 0 k = 0 →
  shr (Build_shr_record m false false) e k = (Build_shr_record (m / 2 ^ Z.max 0 k) false false, e + Z.max 0 k).
Proof.
  intros Hm Hd. destruct k as [|k|k]; cbn [shr]; rewrite ?Z.add_0_r ?Z.pow_0_r ?Z.div_1_r //.
  rewrite Z.max_r // in Hd |- *. f_equal.
  rewrite {1}(Z.div_mod m (2 ^ Z.pos k)); first lia. rewrite Hd Z.add_0_r Z.mul_comm shr_iter_exact //. apply Z.div_pos; lia.
Qed.

Lemma round_nearest_even_near q l : q ≤ round_nearest_even q l ≤ q + 1.
Proof. destruct l as [|[]]; cbn; try lia. destruct (Z.even q); lia. Qed.

Lemma fexp_shift m e : 0 < m → fexp 53 1024 (Zdigits2 m + e) - e = Z.max (Z.log2 m - 52) (-1074 - e).
Proof.
  intros Hm. destruct m as [|p|p]; try lia. cbn [Zdigits2]. rewrite digits2_log2 /fexp (_ : emin 53 1024 = -1074) //. lia.
Qed.

Lemma log2_52 q : 2 ^ 52 ≤ q < 2 ^ 53 → Z.log2 q = 52.
Proof. intros Hq. by apply Z.log2_unique. Qed.

Lemma log2_quotient m k : 0 ≤ k → 2 ^ 52 ≤ m → k = Z.log2 m - 52 → 2 ^ 52 ≤ m / 2 ^ k < 2 ^ 53.
Proof.
  intros Hk Hm ->. pose proof (Z.log2_spec m ltac:(lia)) as Hl.
  assert (H52 : 2 ^ Z.log2 m = 2 ^ 52 * 2 ^ (Z.log2 m - 52)) by (rewrite -Z.pow_add_r; [lia|lia|f_equal; lia]).
  rewrite Z.pow_succ_r in Hl; first lia. assert (0 < 2 ^ (Z.log2 m - 52)) by lia.
  split; [apply Z.div_le_lower_bound|apply Z.div_lt_upper_bound]; lia.
Qed.

(** The second pass of a rounding: at most one more halving, of an even mantissa. *)
Lemma round_carry q e :
  2 ^ 52 ≤ q ≤ 2 ^ 53 → -1074 ≤ e → ∃ q' e',
  shr_fexp 53 1024 q e loc_Exact = (Build_shr_record q' false false, e') ∧
  2 ^ 52 ≤ q' < 2 ^ 53 ∧ e ≤ e' ≤ e + 1 ∧ q' * 2 ^ (e' - e) = q ∧ (q < 2 ^ 53 → q' = q ∧ e' = e).
Proof.
  intros Hq He. rewrite /shr_fexp fexp_shift; first lia. cbn [shr_record_of_loc].
  destruct (decide (q = 2 ^ 53)) as [->|Hne].
  - exists (2 ^ 52), (e + 1). rewrite (_ : Z.max _ _ = 1); first (change (Z.log2 (2 ^ 53)) with 53; lia).
    rewrite (_ : e + 1 - e = 1); first lia. repeat split; done || lia.
  - exists q, e. rewrite log2_52; first lia. rewrite (_ : Z.max _ _ = 0); first lia. rewrite Z.sub_diag. repeat split; done || lia.
Qed.

(** Rounding a mantissa of at least 53 bits: the result is normal and within one unit of the last
    place, exact when nothing is dropped. *)
Lemma round_aux_normal s m e (k := Z.log2 m - 52) :
  2 ^ 52 ≤ m → -1074 ≤ e + k < 971 → ∃ q e',
  binary_round_aux 53 1024 s m e loc_Exact = S754_finite s q e' ∧ 2 ^ 52 ≤ Z.pos q < 2 ^ 53 ∧ e + k ≤ e' ≤ e + k + 1 ∧
  m / 2 ^ k * 2 ^ k ≤ Z.pos q * 2 ^ (e' - e) ≤ (m / 2 ^ k + 1) * 2 ^ k ∧
  (m mod 2 ^ k = 0 → Z.pos q = m / 2 ^ k ∧ e' = e + k).
Proof.
  intros Hm He. assert (Hk : 0 ≤ k) by (pose proof (Z.log2_le_mono _ _ Hm); change (Z.log2 (2 ^ 52)) with 52 in *; lia).
  pose proof (log2_quotient m k Hk Hm eq_refl) as Hq.
  rewrite /binary_round_aux. destruct (shr_fexp 53 1024 m e loc_Exact) as [r e1] eqn:Hr.
  rewrite /shr_fexp fexp_shift in Hr; first lia. rewrite (_ : Z.max _ _ = k) in Hr; first lia. cbn [shr_record_of_loc] in Hr.
  destruct (shr_shape (Build_shr_record m false false) e k ltac:(cbn; lia)) as [H2 H1]. rewrite Hr Z.max_r // in H1 H2. cbn [fst snd shr_m] in H1, H2. subst e1.
  pose proof (round_nearest_even_near (shr_m r) (loc_of_shr_record r)) as Hn. rewrite H1 in Hn |- *.
  set (q1 := round_nearest_even _ _) in *.
  destruct (round_carry q1 (e + k) ltac:(lia) ltac:(lia)) as (q' & e' & -> & Hq' & He' & Hv & Hx). cbn [shr_m].
  destruct q' as [|q'|q']; try lia. exists q', e'. rewrite (_ : (e' <=? 1024 - 53) = true); first lia.
  split; first done. split; first done. split; first done.
  assert (Hval : Z.pos q' * 2 ^ (e' - e) = q1 * 2 ^ k).
  { rewrite -Hv -Z.mul_assoc -Z.pow_add_r; [lia|lia|]. do 2 f_equal. lia. }
  split. { rewrite Hval. assert (0 < 2 ^ k) by lia. nia. }
  intros Hd. assert (Hq1 : q1 = m / 2 ^ k).
  { rewrite shr_exact ?Z.max_r // in Hr; first lia. injection Hr as <-. done. }
  destruct (Hx ltac:(lia)) as [-> ->]. done.
Qed.

(** ** Integers *)

Definition safe_scale (n : Z) : Z := 52 - Z.log2 n.

Lemma safe_scale_bounds n : 0 < n < 2 ^ 53 → 0 ≤ safe_scale n ∧ 2 ^ 52 ≤ n * 2 ^ safe_scale n < 2 ^ 53.
Proof.
  intros Hn. unfold safe_scale. pose proof (Z.log2_spec n ltac:(lia)) as Hl. rewrite Z.pow_succ_r in Hl; first apply Z.log2_nonneg.
  assert (Z.log2 n < 53) by (apply Z.log2_lt_pow2; lia). split; first lia.
  assert (0 < 2 ^ (52 - Z.log2 n)) by lia.
  assert (Hp : 2 ^ 52 = 2 ^ Z.log2 n * 2 ^ (52 - Z.log2 n)).
  { rewrite -Z.pow_add_r; [apply Z.log2_nonneg|lia|f_equal; lia]. }
  change (2 ^ 53) with (2 * 2 ^ 52). nia.
Qed.

(** A positive integer below 2^53 is its own number. *)
Lemma num_of_Z_normal n : 0 < n < 2 ^ 53 →
  ∃ q, num_of_Z n = S754_finite false q (- safe_scale n) ∧ Z.pos q = n * 2 ^ safe_scale n.
Proof.
  intros Hn. destruct (safe_scale_bounds n Hn) as [Hs Hb]. destruct n as [|n|n]; try lia.
  cbn [num_of_Z binary_normalize]. rewrite /num_of_Z /binary_normalize /binary_round.
  assert (Hz : ∃ mz, shl_align n 0 (fexp 53 1024 (Z.pos (digits2_pos n) + 0)) = (mz, - safe_scale (Z.pos n)) ∧
    Z.pos mz = Z.pos n * 2 ^ safe_scale (Z.pos n)).
  { pose proof (fexp_shift (Z.pos n) 0 ltac:(lia)) as Hf. cbn [Zdigits2] in Hf.
    rewrite (_ : Z.max _ _ = - safe_scale (Z.pos n)) in Hf; first (pose proof (Z.log2_nonneg (Z.pos n)); unfold safe_scale in *; lia).
    rewrite /shl_align Hf. destruct (safe_scale (Z.pos n)) as [|d|d]; try lia.
    - exists n. split; [done|lia].
    - cbn [Z.opp]. exists (Pos.iter xO n d). split; [f_equal; lia|apply pos_iter_xO]. }
  destruct Hz as (mz & -> & Hmz).
  destruct (round_aux_normal false (Z.pos mz) (- safe_scale (Z.pos n))) as (q & e' & -> & _ & _ & _ & Hx).
  { lia. } { rewrite log2_52; first lia. unfold safe_scale in *. pose proof (Z.log2_nonneg (Z.pos n)). lia. }
  rewrite log2_52 in Hx; first lia. rewrite Z.sub_diag Z.pow_0_r Z.mod_1_r Z.div_1_r Z.add_0_r in Hx.
  destruct (Hx eq_refl) as [Hq ->]. exists q. split; [done|lia].
Qed.

(** Normal numbers compare as their values do. *)
Lemma normal_lt q1 e1 q2 e2 c :
  2 ^ 52 ≤ Z.pos q1 < 2 ^ 53 → 2 ^ 52 ≤ Z.pos q2 < 2 ^ 53 → c ≤ e1 → c ≤ e2 →
  num_lt (S754_finite false q1 e1) (S754_finite false q2 e2) = (Z.pos q1 * 2 ^ (e1 - c) <? Z.pos q2 * 2 ^ (e2 - c)).
Proof.
  intros H1 H2 Hc1 Hc2. apply eq_true_iff_eq. rewrite (num_lt_rank _ _ (1, (e1, Z.pos q1)) (1, (e2, Z.pos q2))) // /rank_lt Z.ltb_lt. cbn [fst snd].
  assert (Hgap : ∀ p q a b, 2 ^ 52 ≤ p < 2 ^ 53 → 2 ^ 52 ≤ q < 2 ^ 53 → c ≤ a → a < b → p * 2 ^ (a - c) < q * 2 ^ (b - c)).
  { intros p q a b Hp Hq Ha Hab. rewrite (_ : b - c = (a - c) + (1 + (b - a - 1))); first lia.
    rewrite (Z.pow_add_r _ (a - c)); [lia..|]. rewrite (Z.pow_add_r _ 1); [lia..|]. assert (0 < 2 ^ (a - c)) by lia. assert (0 < 2 ^ (b - a - 1)) by lia.
    assert (p < q * (2 ^ 1 * 2 ^ (b - a - 1))) by nia. nia. }
  destruct (Z.lt_trichotomy e1 e2) as [H|[->|H]].
  - split; [intros _; by apply Hgap|lia].
  - assert (0 < 2 ^ (e2 - c)) by lia. split; [intros [|[]]; nia|intros ?; right; split; [done|right; split; [done|nia]]].
  - pose proof (Hgap _ _ e2 e1 H2 H1 Hc2 H). lia.
Qed.

Lemma num_of_Z_0 : num_of_Z 0 = S754_zero false.
Proof. done. Qed.

Lemma num_of_Z_pos n : 0 < n < 2 ^ 53 → ∃ q e, num_of_Z n = S754_finite false q e.
Proof. intros Hn. destruct (num_of_Z_normal n Hn) as (q & H & _). eauto. Qed.

(** The order of the integers below 2^53. *)
Lemma num_of_Z_lt a b : 0 ≤ a < 2 ^ 53 → 0 ≤ b < 2 ^ 53 → num_lt (num_of_Z a) (num_of_Z b) = (a <? b).
Proof.
  intros Ha Hb. destruct (decide (a = 0)) as [->|Ha0].
  { rewrite num_of_Z_0. destruct (decide (b = 0)) as [->|]; first done.
    destruct (num_of_Z_pos b ltac:(lia)) as (q & e & ->). symmetry. cbn. lia. }
  destruct (num_of_Z_normal a ltac:(lia)) as (qa & Hqa & Hva), (safe_scale_bounds a ltac:(lia)) as [Hsa Hba]. rewrite Hqa.
  destruct (decide (b = 0)) as [->|Hb0]; first by symmetry; cbn; lia.
  destruct (num_of_Z_normal b ltac:(lia)) as (qb & Hqb & Hvb), (safe_scale_bounds b ltac:(lia)) as [Hsb Hbb]. rewrite Hqb.
  set (c := - (safe_scale a + safe_scale b)).
  rewrite (normal_lt _ _ _ _ c); [lia|lia|lia|lia|]. rewrite Hva Hvb -!Z.mul_assoc -Z.pow_add_r; [lia..|]. rewrite -Z.pow_add_r; [lia..|].
  rewrite (_ : safe_scale b + (- safe_scale b - c) = safe_scale a + (- safe_scale a - c)); first lia.
  assert (0 < 2 ^ (safe_scale a + (- safe_scale a - c))) by lia. apply eq_true_iff_eq. rewrite !Z.ltb_lt. nia.
Qed.

Lemma num_of_Z_nan n : 0 ≤ n < 2 ^ 53 → num_nan (num_of_Z n) = false.
Proof.
  intros Hn. destruct (decide (n = 0)) as [->|]; first done. by destruct (num_of_Z_pos n ltac:(lia)) as (q & e & ->).
Qed.

(** ** No NaN *)

Lemma num_le_nlt x y : num_nan x = false → num_nan y = false → num_le x y = negb (num_lt y x).
Proof.
  intros [a Ha]%num_rank_Some [b Hb]%num_rank_Some. apply eq_true_iff_eq.
  rewrite negb_true_iff -not_true_iff_false (num_lt_rank _ _ _ _ Hb Ha) (num_le_rank _ _ _ _ Ha Hb). done.
Qed.

Lemma shr_fexp_m m e l : 0 ≤ m → 0 ≤ shr_m (shr_fexp 53 1024 m e l).1 ∧ (l = loc_Exact → shr_m (shr_fexp 53 1024 m e l).1 < 2 ^ 53).
Proof.
  intros Hm. rewrite /shr_fexp. assert (Hr : shr_m (shr_record_of_loc m l) = m) by (by destruct l as [|[]]).
  destruct (shr_shape (shr_record_of_loc m l) e (fexp 53 1024 (Zdigits2 m + e) - e)) as [_ ->]; first lia. rewrite Hr.
  split; first (apply Z.div_pos; lia). intros _. destruct (decide (m = 0)) as [->|]; first by rewrite Z.div_0_l; lia.
  rewrite fexp_shift; first lia. set (k := Z.max 0 _). assert (Hk : 0 ≤ k ∧ Z.log2 m - 52 ≤ k) by lia.
  apply Z.div_lt_upper_bound; first lia. pose proof (Z.log2_spec m ltac:(lia)) as [_ Hl].
  rewrite -Z.pow_add_r; [lia..|]. eapply Z.lt_le_trans; [exact Hl|apply Z.pow_le_mono_r; lia].
Qed.

(** Any rounding: the sign is kept, the mantissa fits 53 bits and the result is a number. *)
Lemma round_aux_shape s m e l : 0 ≤ m →
  match binary_round_aux 53 1024 s m e l with
  | S754_nan => False
  | S754_finite s' q _ => s' = s ∧ Z.pos q < 2 ^ 53
  | S754_zero s' | S754_infinity s' => s' = s
  end.
Proof.
  intros Hm. rewrite /binary_round_aux. destruct (shr_fexp_m m e l Hm) as [Hr _].
  destruct (shr_fexp 53 1024 m e l) as [r e1]. cbn [fst] in Hr.
  pose proof (round_nearest_even_near (shr_m r) (loc_of_shr_record r)) as Hn. set (q1 := round_nearest_even _ _) in *.
  destruct (shr_fexp_m q1 e1 loc_Exact ltac:(lia)) as [Hr2 Hb]. specialize (Hb eq_refl).
  destruct (shr_fexp 53 1024 q1 e1 loc_Exact) as [r2 e2]. cbn [fst] in Hr2, Hb.
  destruct (shr_m r2) as [|q|q]; try done. by destruct (e2 <=? 1024 - 53).
Qed.

Lemma normalize_nan m e : num_nan (binary_normalize 53 1024 m e false) = false.
Proof.
  assert (H : ∀ s p, num_nan (binary_round 53 1024 s p e) = false).
  { intros s p. rewrite /binary_round. destruct (shl_align _ _ _) as [mz ez].
    pose proof (round_aux_shape s (Z.pos mz) ez loc_Exact ltac:(lia)) as H. by destruct (binary_round_aux _ _ _ _ _ _). }
  destruct m; cbn [binary_normalize]; auto.
Qed.

Lemma num_of_Z_number n : num_nan (num_of_Z n) = false.
Proof. apply normalize_nan. Qed.

Lemma num_mul_number s m e y : num_nan y = false → num_nan (num_mul (S754_finite s m e) y) = false.
Proof.
  destruct y as [sy|sy| |sy my ey]; try done; intros _. cbn [num_mul SFmul]. rewrite /num_mul /SFmul.
  pose proof (round_aux_shape (xorb s sy) (Z.pos (m * my)) (e + ey) loc_Exact ltac:(lia)) as H. by destruct (binary_round_aux _ _ _ _ _ _).
Qed.

Lemma num_sub_number x y : num_finite x = true → num_nan y = false → num_nan (num_sub x y) = false.
Proof.
  destruct x as [sx| | |sx mx ex], y as [sy|sy| |sy my ey]; try done; intros _ _.
  - rewrite /num_sub /SFsub. by destruct sx, sy.
  - rewrite /num_sub /SFsub. apply normalize_nan.
Qed.

Lemma num_add_number x y : num_finite x = true → num_nan y = false → num_nan (num_add x y) = false.
Proof.
  destruct x as [sx| | |sx mx ex], y as [sy|sy| |sy my ey]; try done; intros _ _.
  - rewrite /num_add /SFadd. by destruct sx, sy.
  - rewrite /num_add /SFadd. apply normalize_nan.
Qed.

Lemma num_max_number x y : num_nan x = false → num_nan y = false → num_nan (num_max x y) = false.
Proof. intros Hx Hy. rewrite /num_max Hx Hy /=. repeat case_match; done. Qed.

Lemma num_min_number x y : num_nan x = false → num_nan y = false → num_nan (num_min x y) = false.
Proof. intros Hx Hy. rewrite /num_min Hx Hy /=. repeat case_match; done. Qed.

Lemma num_floor_number x : num_nan x = false → num_nan (num_floor x) = false.
Proof. destruct x; try done. intros _. cbn [num_floor]. repeat case_match; try done. apply num_of_Z_number. Qed.

(** ** Products by one half and by nine tenths *)

Definition num_half : num := num_ratio 1 2.
Definition num_nine_tenths : num := num_sub (num_of_Z 1) (num_ratio 1 10).

Lemma num_half_val : num_half = S754_finite false 4503599627370496 (-53).
Proof. by vm_compute. Qed.
Lemma num_nine_tenths_val : num_nine_tenths = S754_finite false 8106479329266893 (-53).
Proof. by vm_compute. Qed.

(** The product of a 53-bit mantissa with a normal number. *)
Lemma num_mul_normal q e (p : positive) f :
  2 ^ 52 ≤ Z.pos q < 2 ^ 53 → 2 ^ 52 ≤ Z.pos p < 2 ^ 53 → -1000 ≤ e + f ≤ 0 → ∃ k r e',
  52 ≤ k ≤ 53 ∧ num_mul (S754_finite false q e) (S754_finite false p f) = S754_finite false r e' ∧
  2 ^ 52 ≤ Z.pos r < 2 ^ 53 ∧ e + f + k ≤ e' ∧
  Z.pos q * Z.pos p / 2 ^ k * 2 ^ k ≤ Z.pos r * 2 ^ (e' - (e + f)) ≤ (Z.pos q * Z.pos p / 2 ^ k + 1) * 2 ^ k ∧
  ((Z.pos q * Z.pos p) mod 2 ^ k = 0 → Z.pos r = Z.pos q * Z.pos p / 2 ^ k ∧ e' = e + f + k).
Proof.
  intros Hq Hp He. rewrite /num_mul /SFmul Pos2Z.inj_mul. cbn [xorb].
  assert (Hm : 2 ^ 104 ≤ Z.pos q * Z.pos p < 2 ^ 106).
  { change (2 ^ 104) with (2 ^ 52 * 2 ^ 52). change (2 ^ 106) with (2 ^ 53 * 2 ^ 53). nia. }
  assert (Hl : 104 ≤ Z.log2 (Z.pos q * Z.pos p) < 106).
  { split; [apply Z.log2_le_pow2; lia|apply Z.log2_lt_pow2; lia]. }
  destruct (round_aux_normal false (Z.pos q * Z.pos p) (e + f)) as (r & e' & Hr & Hb & He' & Hv & Hx); [lia..|].
  exists (Z.log2 (Z.pos q * Z.pos p) - 52), r, e'. repeat split; lia || tauto.
Qed.

(** A product by a power of two is exact. *)
Lemma num_mul_pow2 q e f : 2 ^ 52 ≤ Z.pos q < 2 ^ 53 → -1000 ≤ e + f ≤ 0 →
  num_mul (S754_finite false q e) (S754_finite false 4503599627370496 f) = S754_finite false q (e + f + 52).
Proof.
  intros Hq He. rewrite /num_mul /SFmul. cbn [xorb].
  assert (Hl : Z.log2 (Z.pos (q * 4503599627370496)) = 104).
  { apply Z.log2_unique; first lia. rewrite Pos2Z.inj_mul. change (2 ^ Z.succ 104) with (2 ^ 53 * 2 ^ 52). change (2 ^ 104) with (2 ^ 52 * 2 ^ 52). lia. }
  destruct (round_aux_normal false (Z.pos (q * 4503599627370496)) (e + f)) as (r & e' & -> & _ & _ & _ & Hx).
  { rewrite Pos2Z.inj_mul. lia. } { rewrite Hl. lia. }
  rewrite Hl Pos2Z.inj_mul (_ : 104 - 52 = 52) // (_ : Z.pos 4503599627370496 = 2 ^ 52) // in Hx.
  rewrite Z.mod_mul // Z.div_mul // in Hx. destruct (Hx eq_refl) as [Hr ->]. f_equal. lia.
Qed.

Lemma safe_scale_le n : safe_scale n ≤ 52.
Proof. unfold safe_scale. pose proof (Z.log2_nonneg n). lia. Qed.

Lemma num_mul_one n : 0 < n < 2 ^ 53 → num_mul (num_of_Z n) (num_of_Z 1) = num_of_Z n.
Proof.
  intros Hn. destruct (num_of_Z_normal n Hn) as (q & -> & Hq), (safe_scale_bounds n Hn) as [Hs Hb].
  rewrite (_ : num_of_Z 1 = S754_finite false 4503599627370496 (-52)) //. pose proof (safe_scale_le n).
  rewrite num_mul_pow2; [lia..|]. f_equal. lia.
Qed.

(** An integer is its own floor. *)
Lemma num_floor_int n : 0 < n < 2 ^ 53 → num_floor (num_of_Z n) = num_of_Z n.
Proof.
  intros Hn. destruct (num_of_Z_normal n Hn) as (q & Hn' & Hq), (safe_scale_bounds n Hn) as [Hs Hb]. rewrite {1}Hn'. cbn [num_floor].
  destruct (Z.leb_spec 0 (- safe_scale n)); first done. rewrite /cond_Zopp Hq Z.opp_involutive Z.div_mul; [lia|].
  by rewrite (_ : (n =? 0) = false); first lia.
Qed.

Lemma num_is_integer_int n : 0 < n < 2 ^ 53 → num_is_integer (num_of_Z n) = true.
Proof.
  intros Hn. destruct (num_of_Z_normal n Hn) as (q & -> & Hq), (safe_scale_bounds n Hn) as [Hs Hb]. cbn [num_is_integer].
  rewrite Hq Z.opp_involutive Z.mod_mul ?orb_true_r //. lia.
Qed.

(** [Math.ceil(n * 0.5)] is the integer half, rounded up. *)
Lemma num_ceil_half n : 0 < n < 2 ^ 53 → num_ceil (num_mul (num_of_Z n) num_half) = num_of_Z ((n + 1) / 2).
Proof.
  intros Hn. destruct (num_of_Z_normal n Hn) as (q & -> & Hq), (safe_scale_bounds n Hn) as [Hs Hb]. rewrite num_half_val.
  pose proof (safe_scale_le n). rewrite num_mul_pow2; [lia..|].
  cbn [num_ceil]. rewrite (_ : (0 <=? _) = false); first lia. rewrite /cond_Zopp Hq.
  rewrite (_ : - (- safe_scale n + -53 + 52) = 1 + safe_scale n); first lia.
  rewrite Z.pow_add_r; [lia..|]. rewrite -Z.mul_opp_l Z.div_mul_cancel_r; [lia..|].
  change (2 ^ 1) with 2. rewrite (_ : - (- n / 2) = (n + 1) / 2); first (Z.to_euclidean_division_equations; lia).
  rewrite (_ : ((n + 1) / 2 =? 0) = false) //. apply Z.eqb_neq. Z.to_euclidean_division_equations; lia.
Qed.

(** [n * 0.9 < t] on integers is decided exactly. *)
Lemma nine_tenths_lt n t : 0 < n < 2 ^ 31 → 0 ≤ t < 2 ^ 53 →
  num_lt (num_mul (num_of_Z n) num_nine_tenths) (num_of_Z t) = (9 * n <? 10 * t).
Proof.
  intros Hn Ht. destruct (num_of_Z_normal n ltac:(lia)) as (q & -> & Hq), (safe_scale_bounds n ltac:(lia)) as [Hs Hb].
  assert (Hs22 : 22 ≤ safe_scale n ≤ 52).
  { unfold safe_scale. assert (Z.log2 n < 31) by (apply Z.log2_lt_pow2; lia). pose proof (Z.log2_nonneg n). lia. }
  rewrite num_nine_tenths_val.
  destruct (num_mul_normal q (- safe_scale n) 8106479329266893 (-53)) as (k & r & e' & Hk & -> & Hr & He' & Hv & _); [lia..|].
  destruct (decide (t = 0)) as [->|Ht0]. { symmetry. apply Z.ltb_ge. lia. }
  destruct (num_of_Z_normal t ltac:(lia)) as (qt & -> & Hqt), (safe_scale_bounds t ltac:(lia)) as [Hst Hbt].
  assert (Hts : safe_scale t ≤ 52) by (unfold safe_scale; pose proof (Z.log2_nonneg t); lia).
  rewrite (normal_lt _ _ _ _ (- safe_scale n + -53)); [lia..|].
  rewrite Hqt -Z.mul_assoc -Z.pow_add_r; [lia..|]. rewrite (_ : safe_scale t + _ = safe_scale n + 53); first lia.
  rewrite Z.pow_add_r; [lia..|]. set (V := Z.pos r * _) in *. set (s := 2 ^ safe_scale n) in *.
  assert (Hs0 : 2 ^ 22 ≤ s) by (apply Z.pow_le_mono_r; lia).
  set (m := Z.pos q * 8106479329266893) in *. assert (Hm : 10 * m = n * s * (9 * 2 ^ 53 + 2)) by (unfold m; rewrite Hq; lia).
  assert (Hp : 0 < 2 ^ k ≤ 2 ^ 53) by (split; [lia|apply Z.pow_le_mono_r; lia]).
  pose proof (Z.div_mod m (2 ^ k) ltac:(lia)) as Hd. pose proof (Z.mod_pos_bound m (2 ^ k) ltac:(lia)) as Hmod.
  destruct (Z.ltb_spec (9 * n) (10 * t)) as [Hlt|Hge]; [apply Z.ltb_lt|apply Z.ltb_ge].
  - assert (HV : 10 * V ≤ 10 * m + 10 * 2 ^ 53) by lia.
    assert (Hw : (9 * n + 1) * (s * 2 ^ 53) ≤ 10 * t * (s * 2 ^ 53)) by (apply Z.mul_le_mono_nonneg_r; lia).
    rewrite Hm in HV. lia.
  - assert (Hmul : t * (s * 2 ^ 53) = t * s * 2 ^ (53 - k) * 2 ^ k) by (rewrite -(Z.mul_assoc (t * s)) -Z.pow_add_r; [lia..|]; rewrite (_ : 53 - k + k = 53); lia).
    assert (Hle : t * (s * 2 ^ 53) ≤ m) by nia. rewrite Hmul in Hle |- *.
    assert (t * s * 2 ^ (53 - k) ≤ m / 2 ^ k) by (apply Z.div_le_lower_bound; lia).
    transitivity (m / 2 ^ k * 2 ^ k); [apply Z.mul_le_mono_nonneg_r; lia|lia].
Qed.
