(* ===== verification/KvEviction.v ===== *)
(** * KvEviction: eviction feedback on the KV budget

    [packages/api/src/lib/kv-eviction-budget.ts] (the cut of a member's KV budget after
    evictions, its decay, and the continuations that step it) and the upsert of
    [apps/server/src/model-api/kv-eviction-feedback.ts] that keeps one row per capacity.
    Fractions are binary64 numbers, times milliseconds ([None]: an invalid [Date]), session ids
    their UTF-16 code units. *)
From Stdlib Require Import ssreflect SpecFloat.
From S2P Require Import Prelude JsString JsNumber JsRound.

(** A [Date] by its time value. *)
Definition date : Type := option Z.

Definition KV_EVICTION_STEP : num := num_ratio 5 100.
Definition KV_EVICTION_MAX_CUT : num := num_ratio 5 10.
Definition KV_EVICTION_RECOVERY_MS : Z := 1800000.
Definition KV_EVICTION_MAX_OBSERVATIONS_PER_FLUSH : nat := 10.
Definition KV_EVICTION_SESSION_CAP : nat := 16.
Definition KV_EVICTION_MISS_RATIO : num := num_ratio 15 100.
Definition KV_EVICTION_FLOOR_FRACTION : num := num_sub (num_of_Z 1) KV_EVICTION_MAX_CUT.
Definition KV_EVICTION_DECAY_PER_MS : num := num_div KV_EVICTION_MAX_CUT (num_of_Z KV_EVICTION_RECOVERY_MS).

Inductive KvEvictionContinuationKind : Type := kv_hit | kv_miss.

Definition is_miss (k : KvEvictionContinuationKind) : bool := match k with kv_miss => true | kv_hit => false end.

(** Optional fields are [None] when absent. *)
Record KvEvictionState : Type := mkKv {
  ke_cutFraction : num;
  ke_observedAt : date;
  ke_expiresAt : option date;
  ke_sessionIds : option (list jstr);
  ke_missCount : option Z;
  ke_continuationCount : option Z;
}.

(** [===] on numbers. *)
Definition num_eq (x y : num) : bool := SFeqb x y.

Definition liveKvEvictionState (state : option KvEvictionState) (now : Z) : option KvEvictionState :=
  match state with
  | None => None
  | Some s =>
      match ke_expiresAt s with
      | None => Some s
      | Some None => None
      | Some (Some expiry) => if expiry <=? now then None else Some s
      end
  end.

Definition boundedCut (cut : num) : num :=
  if num_nan cut then KV_EVICTION_MAX_CUT else num_min KV_EVICTION_MAX_CUT (num_max (num_of_Z 0) cut).

(** A session id the module counts: non-empty, at most 128 code units. *)
Definition usable_session (s : jstr) : bool := negb (bool_decide (s = [])) && (length s <=? 128)%nat.

Fixpoint bounded_sessions_go (seen out ids : list jstr) : list jstr :=
  match ids with
  | [] => out
  | s :: rest =>
      if negb (usable_session s) || bool_decide (s ∈ seen) then bounded_sessions_go seen out rest
      else if (KV_EVICTION_MAX_OBSERVATIONS_PER_FLUSH <=? length (out ++ [s]))%nat then out ++ [s]
      else bounded_sessions_go (s :: seen) (out ++ [s]) rest
  end.
Definition boundedKvEvictionSessions (sessionIds : list jstr) : list jstr := bounded_sessions_go [] [] sessionIds.

Definition kvEvictionCutsApply (evictionFeedbackEnabled : option bool) : bool := bool_decide (evictionFeedbackEnabled ≠ Some false).

(** [now.getTime() - observedAt.getTime()]; [None]: NaN. *)
Definition elapsed_ms (state : KvEvictionState) (now : Z) : option Z := (λ t, now - t) <$> ke_observedAt state.

Definition effectiveKvCut (state : option KvEvictionState) (now : Z) (evictionFeedbackEnabled : option bool) : num :=
  if negb (kvEvictionCutsApply evictionFeedbackEnabled) then num_of_Z 0
  else match state with
  | None => num_of_Z 0
  | Some s =>
      let elapsed := match elapsed_ms s now with Some e => num_of_Z (Z.max 0 e) | None => num_of_Z 0 end in
      num_max (num_of_Z 0) (num_sub (boundedCut (ke_cutFraction s)) (num_mul KV_EVICTION_DECAY_PER_MS elapsed))
  end.

Definition recovered_by (state : KvEvictionState) (now : Z) : bool :=
  match elapsed_ms state now with Some e => KV_EVICTION_RECOVERY_MS <=? e | None => false end.

Definition isActiveCut (state : KvEvictionState) (now : Z) : bool :=
  num_lt (num_of_Z 0) (effectiveKvCut (Some state) now None) && negb (recovered_by state now).

Definition emptyKvEvictionState (now : Z) : KvEvictionState :=
  mkKv (num_of_Z 0) (Some now) None (Some []) (Some 0) (Some 0).

Definition sessionSet (state : option KvEvictionState) : list jstr :=
  match state with Some s => default [] (ke_sessionIds s) | None => [] end.

Definition liveOrArmedKvEvictionState (state : option KvEvictionState) (now : Z) : option KvEvictionState :=
  match liveKvEvictionState state now with
  | None => None
  | Some live => if isActiveCut live now || num_eq (boundedCut (ke_cutFraction live)) (num_of_Z 0) then Some live else None
  end.

Record KvItem : Type := mkItem { it_sessionId : jstr; it_kind : KvEvictionContinuationKind }.

(** [missCount / continuationCount >= KV_EVICTION_MISS_RATIO], on a miss, from the second miss. *)
Definition should_step (kind : KvEvictionContinuationKind) (missCount continuationCount : Z) : bool :=
  is_miss kind && (2 <=? missCount) && num_le KV_EVICTION_MISS_RATIO (num_div (num_of_Z missCount) (num_of_Z continuationCount)).

Definition next_cut (current : KvEvictionState) (now : Z) : num :=
  if isActiveCut current now then num_add (effectiveKvCut (Some current) now None) KV_EVICTION_STEP
  else if num_eq (boundedCut (ke_cutFraction current)) (num_of_Z 0) then KV_EVICTION_STEP
  else num_of_Z 0.

(** One item of the loop; [accepted] counts the items taken. *)
Definition continuation_step (now : Z) (acc : KvEvictionState * nat) (item : KvItem) : KvEvictionState * nat :=
  let '(current, accepted) := acc in
  let known := default [] (ke_sessionIds current) in
  if (KV_EVICTION_MAX_OBSERVATIONS_PER_FLUSH <=? accepted)%nat then acc
  else if negb (usable_session (it_sessionId item)) then acc
  else if bool_decide (it_sessionId item ∈ known) || (KV_EVICTION_SESSION_CAP <=? length known)%nat then acc
  else
    let continuationCount := default 0 (ke_continuationCount current) + 1 in
    let missCount := default 0 (ke_missCount current) + (if is_miss (it_kind item) then 1 else 0) in
    let step := should_step (it_kind item) missCount continuationCount in
    let cutFraction := if step then num_min KV_EVICTION_MAX_CUT (next_cut current now) else ke_cutFraction current in
    let observedAt :=
      if step then Some (match ke_observedAt current with Some previous => Z.max previous now | None => now end)
      else ke_observedAt current in
    (mkKv cutFraction observedAt None (Some (known ++ [it_sessionId item])) (Some missCount) (Some continuationCount),
     S accepted).

Definition applyKvEvictionContinuations (state : option KvEvictionState) (items : list KvItem) (now : Z) : KvEvictionState :=
  let current :=
    match liveOrArmedKvEvictionState state now with
    | Some live =>
        mkKv (ke_cutFraction live) (ke_observedAt live) (ke_expiresAt live) (Some (sessionSet (Some live)))
          (Some (default 0 (ke_missCount live))) (Some (default 0 (ke_continuationCount live)))
    | None => emptyKvEvictionState now
    end in
  (fold_left (continuation_step now) items (current, 0%nat)).1.

Definition applyKvEvictionObservations (state : option KvEvictionState) (sessionIds : list jstr) (now : Z) : KvEvictionState :=
  applyKvEvictionContinuations state (map (λ s, mkItem s kv_miss) (boundedKvEvictionSessions sessionIds)) now.

(** A budget is a number of JavaScript: a malformed one is neither an integer nor in range. *)
Definition valid_budget (reported : num) : bool :=
  num_is_integer reported && num_lt (num_of_Z 0) reported && num_le reported (num_of_Z 2147483647).

Inductive ProtectionEngineKind : Type := GENERIC | LLAMA_CPP | VLLM | SGLANG | OLLAMA | LM_STUDIO.

#[global] Instance ProtectionEngineKind_eq_dec : EqDecision ProtectionEngineKind.
Proof. solve_decision. Defined.

Definition protectionKvBudgetTokens (engineKind : option ProtectionEngineKind) (kvBudgetTokens : option num) : option num :=
  if bool_decide (engineKind = Some LLAMA_CPP) then None
  else match kvBudgetTokens with
  | Some k => if valid_budget k then Some k else None
  | None => None
  end.

Definition effectiveKvBudgetTokens (reported : option num) (state : option KvEvictionState) (now : Z)
    (evictionFeedbackEnabled : option bool) : option num :=
  match reported with
  | None => None
  | Some k =>
      if negb (valid_budget k) then None
      else if negb (kvEvictionCutsApply evictionFeedbackEnabled) then Some k
      else
        let cut := effectiveKvCut state now None in
        Some (num_min k (num_max (num_ceil (num_mul k KV_EVICTION_FLOOR_FRACTION))
                           (num_floor (num_mul k (num_sub (num_of_Z 1) cut)))))
  end.

(** ** The row of a capacity and its upsert *)

Record KvRow : Type := mkRow {
  kr_userId : jstr;
  kr_cutFraction : num;
  kr_observedAt : Z;
  kr_expiresAt : Z;
  kr_sessionIds : list jstr;
  kr_missCount : Z;
  kr_continuationCount : Z;
}.

Definition kv_table : Type := jsmap jstr KvRow.

(** Comparison of [double precision] values: NaN is above every number. *)
Definition pg_lt (x y : num) : bool := if num_nan x then false else if num_nan y then true else num_lt x y.
Definition pg_greatest (x y : num) : num := if pg_lt x y then y else x.
Definition pg_least (x y : num) : num := if pg_lt y x then y else x.

(** [EXTRACT(EPOCH FROM (now - observedAt))::double precision * 1000]: the seconds as a double, times 1000. *)
Definition elapsedSql (existing : KvRow) (now : Z) : num :=
  num_mul (num_div (num_of_Z (now - kr_observedAt existing)) (num_of_Z 1000)) (num_of_Z 1000).

Definition liveCutSql (existing : KvRow) (now : Z) : num :=
  pg_greatest (num_of_Z 0)
    (num_sub (pg_least KV_EVICTION_MAX_CUT (pg_greatest (num_of_Z 0) (kr_cutFraction existing)))
       (num_mul KV_EVICTION_DECAY_PER_MS (pg_greatest (num_of_Z 0) (elapsedSql existing now)))).

Definition missInc (kind : KvEvictionContinuationKind) : Z := if is_miss kind then 1 else 0.
Definition newMissSql (existing : KvRow) (kind : KvEvictionContinuationKind) : Z := kr_missCount existing + missInc kind.
Definition newContSql (existing : KvRow) : Z := kr_continuationCount existing + 1.

Definition shouldStepSql (existing : KvRow) (kind : KvEvictionContinuationKind) : bool :=
  (missInc kind =? 1) && (2 <=? newMissSql existing kind) && (0 <? newContSql existing) &&
  negb (pg_lt (num_div (num_of_Z (newMissSql existing kind)) (num_of_Z (newContSql existing))) KV_EVICTION_MISS_RATIO).

Definition recoveredSql (existing : KvRow) (now : Z) : bool :=
  pg_lt (num_of_Z 0) (kr_cutFraction existing) &&
  (negb (pg_lt (num_of_Z 0) (liveCutSql existing now)) || negb (pg_lt (elapsedSql existing now) (num_of_Z KV_EVICTION_RECOVERY_MS))).

Definition newLifetimeSql (existing : KvRow) (now : Z) : bool := (kr_expiresAt existing <=? now) || recoveredSql existing now.

Definition nextCutSql (existing : KvRow) (now : Z) : num :=
  pg_least KV_EVICTION_MAX_CUT
    (if pg_lt (num_of_Z 0) (liveCutSql existing now) && pg_lt (elapsedSql existing now) (num_of_Z KV_EVICTION_RECOVERY_MS)
     then num_add (liveCutSql existing now) KV_EVICTION_STEP
     else if pg_lt (num_of_Z 0) (kr_cutFraction existing) then num_of_Z 0
     else KV_EVICTION_STEP).

Definition kv_on_conflict (existing : KvRow) (sessionId : jstr) (kind : KvEvictionContinuationKind) (now : Z) : KvRow :=
  let fresh := newLifetimeSql existing now in
  let step := shouldStepSql existing kind in
  mkRow (kr_userId existing)
    (if fresh then num_of_Z 0 else if step then nextCutSql existing now else kr_cutFraction existing)
    (if fresh then now else if step then Z.max (kr_observedAt existing) now else kr_observedAt existing)
    (Z.max (kr_expiresAt existing) (now + KV_EVICTION_RECOVERY_MS))
    (if fresh then [sessionId] else kr_sessionIds existing ++ [sessionId])
    (if fresh then missInc kind else newMissSql existing kind)
    (if fresh then 1 else newContSql existing).

(** [upsertKvEvictionSession]: insert, or update the row of the same owner. *)
Definition upsertKvEvictionSession (capacityId ownerId sessionId : jstr) (now : Z) (kind : KvEvictionContinuationKind)
    (db : kv_table) : kv_table :=
  match map_get capacityId db with
  | None => map_set capacityId (mkRow ownerId (num_of_Z 0) now (now + KV_EVICTION_RECOVERY_MS) [sessionId] (missInc kind) 1) db
  | Some existing =>
      if bool_decide (kr_userId existing = ownerId) &&
         (newLifetimeSql existing now ||
          (bool_decide (sessionId ∉ kr_sessionIds existing) && (length (kr_sessionIds existing) <? KV_EVICTION_SESSION_CAP)%nat))
      then map_set capacityId (kv_on_conflict existing sessionId kind now) db
      else db
  end.

(** [recordKvEvictionObservations]; [fenced k]: the shutdown fence is armed at its [k]-th reading. *)
Fixpoint record_sessions (capacityId ownerId : jstr) (now : Z) (kind : KvEvictionContinuationKind) (fenced : nat → bool) (k : nat)
    (sessions : list jstr) (db : kv_table) : kv_table :=
  match sessions with
  | [] => db
  | s :: rest =>
      if fenced k then db
      else record_sessions capacityId ownerId now kind fenced (S k) rest (upsertKvEvictionSession capacityId ownerId s now kind db)
  end.

Definition recordKvEvictionObservations (capacityId ownerId : jstr) (sessionIds : list jstr) (now : date)
    (kind : KvEvictionContinuationKind) (fenced : nat → bool) (db : kv_table) : kv_table :=
  let sessions := boundedKvEvictionSessions sessionIds in
  if fenced 0%nat || bool_decide (capacityId = []) || (128 <? length capacityId)%nat || bool_decide (ownerId = []) then db
  else match now with
  | None => db
  | Some t => match sessions with [] => db | _ => record_sessions capacityId ownerId t kind fenced 1 sessions db end
  end.

(** A row as the pure module reads it. *)
Definition row_state (r : KvRow) : KvEvictionState :=
  mkKv (kr_cutFraction r) (Some (kr_observedAt r)) (Some (Some (kr_expiresAt r))) (Some (kr_sessionIds r))
    (Some (kr_missCount r)) (Some (kr_continuationCount r)).
