(* ===== verification/KvEvictionSafety.v ===== *)
(** * KvEvictionSafety: the eviction row follows the pure module, and what the budget may lose

    The upsert of a capacity's row is the pure module's step; every row that upserts build counts
    a session once, within its bound, and keeps its cut at most one half; the effective budget
    stays between half the reported budget and the whole of it. *)
From Stdlib Require Import ssreflect SpecFloat.
From S2P Require Import Prelude JsString JsNumber JsRound KvEviction.

(** ** Comparisons of the database and of the language *)

Lemma pg_lt_num x y : num_nan x = false → num_nan y = false → pg_lt x y = num_lt x y.
Proof. by rewrite /pg_lt => -> ->. Qed.

Lemma pg_greatest_max x : num_nan x = false → pg_greatest (num_of_Z 0) x = num_max (num_of_Z 0) x.
Proof.
  intros Hx. rewrite /pg_greatest pg_lt_num // /num_max Hx num_of_Z_0 /=. case_match; first done. by case_match.
Qed.

Lemma max_cut_val : KV_EVICTION_MAX_CUT = S754_finite false 4503599627370496 (-53).
Proof. by vm_compute. Qed.
Lemma step_val : KV_EVICTION_STEP = S754_finite false 7205759403792794 (-57).
Proof. by vm_compute. Qed.
Lemma decay_val : ∃ q e, KV_EVICTION_DECAY_PER_MS = S754_finite false q e.
Proof. eexists _, _. by vm_compute. Qed.
Lemma floor_fraction_val : KV_EVICTION_FLOOR_FRACTION = num_half.
Proof. by vm_compute. Qed.

Lemma pg_least_min x : num_nan x = false → pg_least KV_EVICTION_MAX_CUT x = num_min KV_EVICTION_MAX_CUT x.
Proof.
  intros Hx. assert (Hm : num_nan KV_EVICTION_MAX_CUT = false) by done.
  rewrite /pg_least pg_lt_num // /num_min Hx Hm orb_false_r.
  destruct (num_lt KV_EVICTION_MAX_CUT x) eqn:H1; first by rewrite (num_lt_asym _ _ Hm Hx H1).
  destruct (num_lt x KV_EVICTION_MAX_CUT); first done. by rewrite max_cut_val.
Qed.

Lemma zero_number : num_nan (num_of_Z 0) = false.
Proof. done. Qed.

Lemma boundedCut_pg c : pg_least KV_EVICTION_MAX_CUT (pg_greatest (num_of_Z 0) c) = boundedCut c.
Proof.
  rewrite /boundedCut. destruct (num_nan c) eqn:Hc; first by destruct c.
  rewrite pg_greatest_max // pg_least_min //. by apply num_max_number.
Qed.

(** A bounded cut is finite, zero exactly when the stored one is not positive. *)
Lemma boundedCut_finite c : num_finite (boundedCut c) = true.
Proof.
  rewrite /boundedCut. destruct (num_nan c) eqn:Hc; first done.
  assert (Hx : num_nan (num_max (num_of_Z 0) c) = false) by by apply num_max_number.
  rewrite /num_min Hx. assert (Hm : num_nan KV_EVICTION_MAX_CUT = false) by done. rewrite Hm orb_false_r.
  destruct (num_lt KV_EVICTION_MAX_CUT (num_max _ _)) eqn:H1; first done.
  destruct (num_lt (num_max _ _) KV_EVICTION_MAX_CUT) eqn:H2; last by rewrite max_cut_val.
  revert H1 H2. rewrite /num_max Hc num_of_Z_0 max_cut_val. destruct c as [[]|[]| |[] m e]; done.
Qed.

Lemma boundedCut_zero c : num_eq (boundedCut c) (num_of_Z 0) = negb (pg_lt (num_of_Z 0) c).
Proof.
  rewrite /boundedCut. destruct (num_nan c) eqn:Hc; first by destruct c.
  rewrite pg_lt_num // /num_max Hc num_of_Z_0. destruct (num_lt (S754_zero false) c) eqn:H0.
  - cbn [negb orb num_nan]. rewrite /num_min Hc. assert (Hm : num_nan KV_EVICTION_MAX_CUT = false) by done. rewrite Hm orb_false_r.
    destruct (num_lt KV_EVICTION_MAX_CUT c) eqn:H1; first by rewrite max_cut_val. destruct (num_lt c KV_EVICTION_MAX_CUT) eqn:H2; last by rewrite max_cut_val.
    by destruct c as [[]|[]| |[] m e].
  - cbn [negb orb num_nan]. destruct (num_lt c (S754_zero false)); by vm_compute.
Qed.

(** ** Negative elapsed times *)

Definition num_negative (x : num) : bool :=
  match x with S754_zero true | S754_finite true _ _ | S754_infinity true => true | _ => false end.

Lemma round_negative m e l : 0 ≤ m → num_negative (binary_round_aux 53 1024 true m e l) = true.
Proof.
  intros Hm. pose proof (round_aux_shape true m e l Hm) as H. destruct (binary_round_aux _ _ _ _ _ _); cbn; try done; try by subst. by destruct H as [-> _].
Qed.

Lemma num_of_Z_negative n : n < 0 → num_negative (num_of_Z n) = true.
Proof.
  destruct n as [|n|n]; try lia; intros _. rewrite /num_of_Z /binary_normalize /binary_round.
  destruct (shl_align _ _ _). by apply round_negative.
Qed.

Lemma num_mul_negative x s m e : num_negative x = true → s = false → num_negative (num_mul x (S754_finite s m e)) = true.
Proof. intros Hx ->. destruct x as [[]|[]| |[] mx ex]; try done. cbn [num_mul SFmul xorb]. by apply round_negative. Qed.

Lemma num_div_negative x s m e : num_negative x = true → s = false → num_negative (num_div x (S754_finite s m e)) = true.
Proof.
  intros Hx ->. destruct x as [[]|[]| |[] mx ex]; try done. rewrite /num_div /SFdiv /SFdiv_core_binary. cbn [xorb].
  set (m' := match _ with Z0 => _ | Zpos _ => _ | Zneg _ => _ end).
  assert (Hm : 0 ≤ m') by (unfold m'; case_match; try lia; by apply Z.shiftl_nonneg).
  destruct (Z.div_eucl m' (Z.pos m)) as [q r] eqn:Hd. apply round_negative.
  rewrite (_ : q = m' / Z.pos m); first by rewrite /Z.div Hd. apply Z.div_pos; lia.
Qed.

Lemma pg_greatest_negative x : num_negative x = true → pg_greatest (num_of_Z 0) x = num_of_Z 0.
Proof. rewrite num_of_Z_0. by destruct x as [[]|[]| |[] m e]. Qed.

Lemma negative_lt n x : 0 < n < 2 ^ 53 → num_negative x = true → pg_lt x (num_of_Z n) = true.
Proof. intros Hn. destruct (num_of_Z_pos n Hn) as (q & e & ->). by destruct x as [[]|[]| |[] m e']. Qed.

(** ** The upsert is the pure step *)

(** The conversion of the elapsed time to a double of seconds and back is exact. *)
Definition elapsed_exact (r : KvRow) (now : Z) : Prop :=
  now - kr_observedAt r < 2 ^ 53 ∧ (0 ≤ now - kr_observedAt r → elapsedSql r now = num_of_Z (now - kr_observedAt r)).

Lemma elapsed_negative r now : now - kr_observedAt r < 0 → num_negative (elapsedSql r now) = true.
Proof.
  intros He. rewrite /elapsedSql (_ : num_of_Z 1000 = S754_finite false 8796093022208000 (-43)); first by vm_compute.
  apply num_mul_negative; last done. apply num_div_negative; [by apply num_of_Z_negative|done].
Qed.

Lemma elapsed_clamped r now : elapsed_exact r now → pg_greatest (num_of_Z 0) (elapsedSql r now) = num_of_Z (Z.max 0 (now - kr_observedAt r)).
Proof.
  intros [Hb Hx]. destruct (Z.lt_ge_cases (now - kr_observedAt r) 0) as [He|He].
  - rewrite pg_greatest_negative; first by apply elapsed_negative. by rewrite Z.max_l; first lia.
  - rewrite Hx // Z.max_r //. rewrite /pg_greatest pg_lt_num; [done|apply num_of_Z_number|].
    rewrite num_of_Z_lt; [lia..|]. destruct (Z.ltb_spec 0 (now - kr_observedAt r)); first done. f_equal. lia.
Qed.

Lemma elapsed_recovered r now : elapsed_exact r now →
  negb (pg_lt (elapsedSql r now) (num_of_Z KV_EVICTION_RECOVERY_MS)) = recovered_by (row_state r) now.
Proof.
  intros [Hb Hx]. rewrite /recovered_by /elapsed_ms. cbn [fmap option_fmap option_map row_state ke_observedAt]. destruct (Z.lt_ge_cases (now - kr_observedAt r) 0) as [He|He].
  - rewrite negative_lt; [done|by apply elapsed_negative|]. unfold KV_EVICTION_RECOVERY_MS. symmetry. apply Z.leb_gt. lia.
  - rewrite Hx // pg_lt_num; [apply num_of_Z_number..|]. unfold KV_EVICTION_RECOVERY_MS. rewrite num_of_Z_lt; [lia..|]. lia.
Qed.

Lemma cut_sub_number r x : num_nan x = false →
  num_nan (num_sub (boundedCut (kr_cutFraction r)) (num_mul KV_EVICTION_DECAY_PER_MS x)) = false.
Proof.
  intros Hx. apply num_sub_number; first apply boundedCut_finite.
  destruct decay_val as (q & e & ->). by apply num_mul_number.
Qed.

Lemma liveCutSql_pure r now : elapsed_exact r now → liveCutSql r now = effectiveKvCut (Some (row_state r)) now None.
Proof.
  intros He. rewrite /liveCutSql elapsed_clamped // boundedCut_pg /effectiveKvCut /elapsed_ms. cbn [fmap option_fmap option_map row_state ke_observedAt ke_cutFraction kvEvictionCutsApply].
  rewrite pg_greatest_max //. apply cut_sub_number, num_of_Z_number.
Qed.

Lemma effectiveKvCut_number s now fb : num_nan (effectiveKvCut s now fb) = false.
Proof.
  rewrite /effectiveKvCut. destruct (kvEvictionCutsApply fb); last done. destruct s as [s|]; last done. cbn [negb].
  apply num_max_number; first done. apply num_sub_number; first apply boundedCut_finite.
  destruct decay_val as (q & e & ->). apply num_mul_number. destruct (elapsed_ms s now); [apply num_of_Z_number|done].
Qed.

Lemma live_active r now : elapsed_exact r now →
  pg_lt (num_of_Z 0) (liveCutSql r now) && pg_lt (elapsedSql r now) (num_of_Z KV_EVICTION_RECOVERY_MS) = isActiveCut (row_state r) now.
Proof.
  intros He. rewrite -(negb_involutive (pg_lt (elapsedSql r now) _)) elapsed_recovered // liveCutSql_pure // pg_lt_num //.
  apply effectiveKvCut_number.
Qed.

Lemma recovered_pure r now : elapsed_exact r now →
  recoveredSql r now = negb (isActiveCut (row_state r) now || num_eq (boundedCut (kr_cutFraction r)) (num_of_Z 0)).
Proof.
  intros He. rewrite /recoveredSql -live_active // boundedCut_zero.
  by destruct (pg_lt (num_of_Z 0) (kr_cutFraction r)), (pg_lt (num_of_Z 0) (liveCutSql r now)), (pg_lt (elapsedSql r now) _).
Qed.

Lemma newLifetime_pure r now : elapsed_exact r now →
  newLifetimeSql r now = bool_decide (liveOrArmedKvEvictionState (Some (row_state r)) now = None).
Proof.
  intros He. rewrite /newLifetimeSql recovered_pure // /liveOrArmedKvEvictionState /liveKvEvictionState. cbn [row_state ke_expiresAt].
  destruct (kr_expiresAt r <=? now); first done. cbn [orb]. change (ke_cutFraction _) with (kr_cutFraction r).
  by destruct (isActiveCut _ _ || _).
Qed.

Lemma live_is_row r now live : liveOrArmedKvEvictionState (Some (row_state r)) now = Some live → live = row_state r.
Proof.
  rewrite /liveOrArmedKvEvictionState /liveKvEvictionState. cbn [row_state ke_expiresAt].
  destruct (kr_expiresAt r <=? now); first done. case_match; congruence.
Qed.

Lemma num_div_number a b : 0 ≤ a < 2 ^ 53 → 0 < b < 2 ^ 53 → num_nan (num_div (num_of_Z a) (num_of_Z b)) = false.
Proof.
  intros Ha Hb. destruct (num_of_Z_pos b Hb) as (qb & eb & ->).
  destruct (decide (a = 0)) as [->|]; first done. destruct (num_of_Z_pos a ltac:(lia)) as (qa & ea & ->).
  rewrite /num_div /SFdiv /SFdiv_core_binary. set (m' := match _ with Z0 => _ | Zpos _ => _ | Zneg _ => _ end).
  assert (Hm : 0 ≤ m') by (unfold m'; case_match; try lia; by apply Z.shiftl_nonneg).
  destruct (Z.div_eucl m' (Z.pos qb)) as [q r] eqn:Hd.
  assert (Hq : 0 ≤ q) by (rewrite (_ : q = m' / Z.pos qb); [by rewrite /Z.div Hd|apply Z.div_pos; lia]).
  match goal with |- num_nan (binary_round_aux 53 1024 ?s q ?e ?l) = _ => pose proof (round_aux_shape s q e l Hq) as H end.
  by destruct (binary_round_aux _ _ _ _ _ _).
Qed.

(** What every row of the table keeps: a session is counted once, the counts are the sessions',
    and a cut needs two misses. *)
Record kv_row_ok (r : KvRow) : Prop := {
  ok_sessions : NoDup (kr_sessionIds r);
  ok_cap : (length (kr_sessionIds r) ≤ KV_EVICTION_SESSION_CAP)%nat;
  ok_counted : kr_continuationCount r = Z.of_nat (length (kr_sessionIds r));
  ok_misses : 0 ≤ kr_missCount r ≤ kr_continuationCount r;
  ok_armed : kr_missCount r < 2 → kr_cutFraction r = num_of_Z 0;
  ok_cut : num_le (kr_cutFraction r) KV_EVICTION_MAX_CUT = true;
}.

Lemma row_counts r kind : kv_row_ok r → 0 ≤ newMissSql r kind < 2 ^ 53 ∧ 0 < newContSql r < 2 ^ 53.
Proof.
  intros [_ Hcap Hc Hm _ _]. rewrite /newMissSql /newContSql /missInc. unfold KV_EVICTION_SESSION_CAP in Hcap.
  destruct (is_miss kind); lia.
Qed.

Lemma shouldStep_pure r kind : kv_row_ok r → shouldStepSql r kind = should_step kind (newMissSql r kind) (newContSql r).
Proof.
  intros Hr. destruct (row_counts r kind Hr) as [Hm Hc]. rewrite /shouldStepSql /should_step.
  rewrite (_ : (0 <? newContSql r) = true); first lia. rewrite (_ : (missInc kind =? 1) = is_miss kind); first by destruct kind.
  rewrite andb_true_r pg_lt_num //; first by apply num_div_number. rewrite num_le_nlt //. by apply num_div_number.
Qed.

Lemma next_cut_number s now : num_nan (next_cut s now) = false.
Proof.
  rewrite /next_cut. case_match; last by case_match. rewrite step_val.
  pose proof (effectiveKvCut_number (Some s) now None) as Hn. set (c := effectiveKvCut _ _ _) in *.
  destruct c as [|sc| |]; try done; rewrite /num_add /SFadd; by [destruct sc|apply normalize_nan].
Qed.

Lemma nextCutSql_pure r now : elapsed_exact r now → nextCutSql r now = num_min KV_EVICTION_MAX_CUT (next_cut (row_state r) now).
Proof.
  intros He. rewrite -pg_least_min; first apply next_cut_number. rewrite /nextCutSql live_active // /next_cut liveCutSql_pure //.
  change (ke_cutFraction (row_state r)) with (kr_cutFraction r). rewrite boundedCut_zero.
  case_match; first done. by destruct (pg_lt (num_of_Z 0) (kr_cutFraction r)).
Qed.

(** What the upsert maintains of a state; the expiry is the database's own. *)
Definition kv_core (s : KvEvictionState) : num * date * option (list jstr) * option Z * option Z :=
  (ke_cutFraction s, ke_observedAt s, ke_sessionIds s, ke_missCount s, ke_continuationCount s).

Lemma apply_fresh st s kind now : usable_session s = true → liveOrArmedKvEvictionState st now = None →
  kv_core (applyKvEvictionContinuations st [mkItem s kind] now) =
  kv_core (row_state (mkRow [] (num_of_Z 0) now 0 [s] (missInc kind) 1)).
Proof.
  intros Hs Hn. rewrite /applyKvEvictionContinuations Hn. cbn [fold_left continuation_step emptyKvEvictionState].
  cbn [ke_sessionIds ke_missCount ke_continuationCount ke_observedAt ke_cutFraction default it_sessionId it_kind]. rewrite Hs.
  rewrite (_ : should_step _ _ _ = false); first by destruct kind. done.
Qed.

Lemma apply_live r s kind now : usable_session s = true → kv_row_ok r → elapsed_exact r now →
  liveOrArmedKvEvictionState (Some (row_state r)) now = Some (row_state r) →
  s ∉ kr_sessionIds r → (length (kr_sessionIds r) < KV_EVICTION_SESSION_CAP)%nat →
  kv_core (applyKvEvictionContinuations (Some (row_state r)) [mkItem s kind] now) =
  (if shouldStepSql r kind then nextCutSql r now else kr_cutFraction r,
   Some (if shouldStepSql r kind then Z.max (kr_observedAt r) now else kr_observedAt r),
   Some (kr_sessionIds r ++ [s]), Some (newMissSql r kind), Some (newContSql r)).
Proof.
  intros Hs Hr He Hl Hin Hcap. rewrite /applyKvEvictionContinuations Hl. cbn [fold_left continuation_step].
  cbn [row_state ke_sessionIds ke_missCount ke_continuationCount ke_observedAt ke_expiresAt ke_cutFraction default sessionSet it_sessionId it_kind id].
  rewrite Hs bool_decide_eq_false_2 // (_ : (KV_EVICTION_SESSION_CAP <=? _)%nat = false); first by apply Nat.leb_gt.
  cbn [negb orb]. rewrite (_ : (KV_EVICTION_MAX_OBSERVATIONS_PER_FLUSH <=? 0)%nat = false) //.
  fold (missInc kind). fold (newMissSql r kind). fold (newContSql r). rewrite -shouldStep_pure //.
  rewrite nextCutSql_pure // /kv_core. cbn [ke_cutFraction ke_observedAt ke_sessionIds ke_missCount ke_continuationCount].
  by destruct (shouldStepSql r kind).
Qed.

Lemma apply_refused r s kind now : kv_row_ok r →
  liveOrArmedKvEvictionState (Some (row_state r)) now = Some (row_state r) →
  s ∈ kr_sessionIds r ∨ (KV_EVICTION_SESSION_CAP ≤ length (kr_sessionIds r))%nat →
  kv_core (applyKvEvictionContinuations (Some (row_state r)) [mkItem s kind] now) = kv_core (row_state r).
Proof.
  intros Hr Hl Hin. rewrite /applyKvEvictionContinuations Hl. cbn [fold_left continuation_step].
  cbn [row_state ke_sessionIds ke_missCount ke_continuationCount ke_observedAt ke_expiresAt ke_cutFraction default sessionSet it_sessionId it_kind id].
  rewrite (_ : bool_decide _ || _ = true); last by destruct (usable_session s).
  apply orb_true_iff. destruct Hin; [left; by apply bool_decide_eq_true_2|right; by apply Nat.leb_le].
Qed.

(** C26. The row upsert is the pure module's step: for a session and an owner's row that upserts
    built, when the elapsed time converts exactly, the statement leaves exactly the cut, the
    observation time, the sessions and the counts [applyKvEvictionContinuations] computes from the
    row (or from no row), and touches no other capacity's row. *)
Theorem kv_upsert_refines capacityId ownerId sessionId now kind db :
  usable_session sessionId = true →
  (∀ r, map_get capacityId db = Some r → kr_userId r = ownerId ∧ kv_row_ok r ∧ elapsed_exact r now) →
  ∃ r', map_get capacityId (upsertKvEvictionSession capacityId ownerId sessionId now kind db) = Some r' ∧
    kr_userId r' = ownerId ∧
    kv_core (row_state r') = kv_core (applyKvEvictionContinuations (row_state <$> map_get capacityId db) [mkItem sessionId kind] now) ∧
    ∀ other, other ≠ capacityId → map_get other (upsertKvEvictionSession capacityId ownerId sessionId now kind db) = map_get other db.
Proof.
  intros Hs Hrow. rewrite /upsertKvEvictionSession. destruct (map_get capacityId db) as [r|] eqn:Hg; last first.
  { eexists. rewrite map_get_set_eq. split; [done|split; [done|split; [by rewrite apply_fresh|]]].
    intros o Ho. by rewrite map_get_set_ne. }
  destruct (Hrow r eq_refl) as (<- & Hr & He). rewrite bool_decide_eq_true_2 // newLifetime_pure //. cbn [andb fmap option_fmap option_map].
  assert (Hframe : ∀ v o, o ≠ capacityId → map_get o (map_set capacityId v db) = map_get o db) by (intros v o Ho; by rewrite map_get_set_ne).
  destruct (liveOrArmedKvEvictionState (Some (row_state r)) now) as [live|] eqn:Hl.
  - pose proof (live_is_row r now live Hl) as ->. rewrite bool_decide_eq_false_2 //. cbn [orb].
    destruct (bool_decide (sessionId ∉ kr_sessionIds r) && _) eqn:Hc.
    + apply andb_true_iff in Hc as [Hin%bool_decide_eq_true_1 Hcap%Nat.ltb_lt]. eexists. rewrite map_get_set_eq.
      split; [done|split; [done|split; [|auto]]]. rewrite apply_live // /kv_on_conflict newLifetime_pure // Hl bool_decide_eq_false_2 //.
    + exists r. split; [done|split; [done|split; [|done]]]. rewrite apply_refused //.
      apply andb_false_iff in Hc as [Hin%bool_decide_eq_false_1|Hcap%Nat.ltb_ge]; [left; by apply dec_stable|by right].
  - rewrite bool_decide_eq_true_2 //. cbn [orb]. eexists. rewrite map_get_set_eq. split; [done|split; [done|split; [|auto]]].
    rewrite apply_fresh // /kv_on_conflict newLifetime_pure // Hl bool_decide_eq_true_2 //.
Qed.

(** ** The rows of the table *)

Lemma pg_least_le x : num_le (pg_least KV_EVICTION_MAX_CUT x) KV_EVICTION_MAX_CUT = true.
Proof.
  rewrite /pg_least. destruct (pg_lt x KV_EVICTION_MAX_CUT) eqn:H; last by vm_compute.
  rewrite /pg_lt in H. destruct (num_nan x) eqn:Hx; first done. rewrite num_le_nlt //. by rewrite (num_lt_asym x _ Hx _ H).
Qed.

Lemma fresh_row_ok owner now expiry s kind : kv_row_ok (mkRow owner (num_of_Z 0) now expiry [s] (missInc kind) 1).
Proof. split; cbn; try done; [apply NoDup_singleton|unfold KV_EVICTION_SESSION_CAP; lia|destruct kind; cbn; lia]. Qed.

Lemma conflict_row_ok r s kind now : kv_row_ok r →
  newLifetimeSql r now = true ∨ (s ∉ kr_sessionIds r ∧ (length (kr_sessionIds r) < KV_EVICTION_SESSION_CAP)%nat) →
  kv_row_ok (kv_on_conflict r s kind now).
Proof.
  intros [Hd Hcap Hc Hm Ha Hcut] Hg. rewrite /kv_on_conflict. destruct (newLifetimeSql r now); first apply fresh_row_ok.
  destruct Hg as [?|[Hin Hlen]]; first done.
  assert (Hi : 0 ≤ missInc kind ≤ 1) by (by destruct kind).
  split; cbn [kr_sessionIds kr_continuationCount kr_missCount kr_cutFraction]; rewrite ?length_app /newContSql /newMissSql; cbn [length]; try lia.
  - apply NoDup_app. split_and!; [done|set_solver|apply NoDup_singleton].
  - intros Hlt. rewrite /shouldStepSql /newMissSql (_ : (2 <=? _) = false); first lia. rewrite andb_false_r. apply Ha. lia.
  - case_match; [apply pg_least_le|done].
Qed.

Definition kv_table_ok (db : kv_table) : Prop := ∀ c r, map_get c db = Some r → kv_row_ok r.

Lemma upsert_ok c o s now kind db : kv_table_ok db → kv_table_ok (upsertKvEvictionSession c o s now kind db).
Proof.
  intros Hdb. assert (Hset : ∀ v, kv_row_ok v → kv_table_ok (map_set c v db)).
  { intros v Hv c' r. rewrite map_get_set. case_decide; [by intros [= <-]|apply Hdb]. }
  rewrite /upsertKvEvictionSession. destruct (map_get c db) as [r|] eqn:Hg; last apply Hset, fresh_row_ok.
  destruct (bool_decide (kr_userId r = o) && _) eqn:Hc; last done. apply Hset, conflict_row_ok; first by eapply Hdb.
  apply andb_true_iff in Hc as [_ [Hf|[Hin%bool_decide_eq_true_1 Hl%Nat.ltb_lt]%andb_true_iff]%orb_true_iff]; auto.
Qed.

Lemma record_ok c o ids now kind fenced db : kv_table_ok db → kv_table_ok (recordKvEvictionObservations c o ids now kind fenced db).
Proof.
  intros Hdb. rewrite /recordKvEvictionObservations. case_match; first done. destruct now as [t|]; last done.
  destruct (boundedKvEvictionSessions ids) as [|s l]; first done. generalize (s :: l), 1%nat. clear -Hdb. intros l.
  revert db Hdb. induction l as [|s l IH]; intros db Hdb k; cbn [record_sessions]; first done.
  case_match; first done. by apply IH, upsert_ok.
Qed.

(** Observations in the order they are written. *)
Record KvObservation : Type := mkObs {
  ob_capacityId : jstr; ob_ownerId : jstr; ob_sessionIds : list jstr; ob_now : date;
  ob_kind : KvEvictionContinuationKind; ob_fenced : nat → bool;
}.

Definition run_observations (obs : list KvObservation) (db : kv_table) : kv_table :=
  fold_left (λ db o, recordKvEvictionObservations (ob_capacityId o) (ob_ownerId o) (ob_sessionIds o) (ob_now o) (ob_kind o) (ob_fenced o) db) obs db.

Lemma kv_run_ok obs db : kv_table_ok db → kv_table_ok (run_observations obs db).
Proof. revert db. induction obs as [|o obs IH]; intros db Hdb; first done. by apply IH, record_ok. Qed.

(** ** The effective budget *)

Lemma valid_budget_int k : 0 < k < 2 ^ 31 → valid_budget (num_of_Z k) = true.
Proof.
  intros Hk. rewrite /valid_budget num_is_integer_int ?num_of_Z_lt; [lia..|]. rewrite num_le_nlt; [apply num_of_Z_number..|].
  rewrite num_of_Z_lt; lia.
Qed.

(** The smaller of an integer and the floor of a product is an integer. *)
Lemma min_max_floor k c x : 0 < c ≤ k → k < 2 ^ 31 → num_nan x = false →
  (match x with S754_finite _ m _ => Z.pos m < 2 ^ 53 | _ => True end) →
  ∃ e, c ≤ e ≤ k ∧ num_min (num_of_Z k) (num_max (num_of_Z c) (num_floor x)) = num_of_Z e.
Proof.
  intros Hc Hk Hx Hm. pose proof (num_floor_number x Hx) as Hf.
  pose proof (num_of_Z_number k) as Hnk. pose proof (num_of_Z_number c) as Hnc.
  assert (Hmin : ∀ a, 0 < a < 2 ^ 53 → num_min (num_of_Z k) (num_of_Z a) = num_of_Z (Z.min k a)).
  { intros a Ha. rewrite /num_min Hnk num_of_Z_number !num_of_Z_lt; [lia..|]. cbn [orb].
    destruct (Z.ltb_spec k a); first by rewrite Z.min_l; first lia. destruct (Z.ltb_spec a k); first by rewrite Z.min_r; first lia.
    rewrite (_ : a = k); first lia. rewrite Z.min_id. by destruct (num_of_Z_pos k ltac:(lia)) as (q & e & ->). }
  rewrite /num_max Hnc Hf. cbn [orb]. destruct (num_lt (num_of_Z c) (num_floor x)) eqn:H1; last first.
  { exists c. split; first lia. rewrite (_ : (if _ then _ else _) = num_of_Z c); last (rewrite Hmin; [lia|by rewrite Z.min_r; first lia]).
    destruct (num_lt (num_floor x) _); first done. by destruct (num_of_Z_pos c ltac:(lia)) as (q & e & ->). }
  destruct (num_of_Z_normal k ltac:(lia)) as (qk & Hqk & _). destruct (num_of_Z_pos c ltac:(lia)) as (qc & ec & Hqc).
  assert (Hbig : num_lt (num_of_Z k) (num_floor x) = true → ∃ e, c ≤ e ≤ k ∧ num_min (num_of_Z k) (num_floor x) = num_of_Z e).
  { intros H. exists k. split; first lia. by rewrite /num_min Hnk Hf H. }
  destruct x as [sx|sx| |sx mx ex]; try done; cbn [num_floor] in *.
  - rewrite Hqc in H1. by destruct sx.
  - rewrite Hqc in H1. apply Hbig. rewrite Hqk. by destruct sx.
  - destruct (Z.leb_spec 0 ex) as [He|He].
    + apply Hbig. rewrite Hqk. rewrite Hqc in H1. destruct sx; first by cbn in H1.
      rewrite (num_lt_rank _ _ (1, (- safe_scale k, Z.pos qk)) (1, (ex, Z.pos mx))) // /rank_lt. cbn [fst snd].
      assert (1 ≤ safe_scale k). { unfold safe_scale. assert (Z.log2 k < 31) by (apply Z.log2_lt_pow2; lia). lia. } lia.
    + destruct (Z.eqb_spec (cond_Zopp sx (Z.pos mx) / 2 ^ (- ex)) 0) as [H0|H0]; first by rewrite Hqc in H1.
      set (q := _ / _) in *. assert (Hq : 0 < q < 2 ^ 53).
      { assert (q < 0 ∨ 0 < q) as [Hneg|Hpos] by lia.
        - pose proof (num_of_Z_negative q Hneg) as Hn. rewrite Hqc in H1. by destruct (num_of_Z q) as [[]|[]| |[] ? ?].
        - split; first done. apply (Z.le_lt_trans _ (Z.pos mx)); last done. unfold q in *. destruct sx; cbn [cond_Zopp] in *.
          + exfalso. assert (Z.neg mx / 2 ^ (- ex) < 0) by (apply Z.div_lt_upper_bound; lia). lia.
          + apply Z.div_le_upper_bound; [lia|]. assert (0 < 2 ^ (- ex)) by lia. nia. }
      rewrite num_of_Z_lt in H1; [lia..|]. exists (Z.min k q). split; [lia|by apply Hmin].
Qed.

Lemma num_mul_mantissa x y : match num_mul x y with S754_finite _ m _ => Z.pos m < 2 ^ 53 | _ => True end.
Proof.
  destruct x as [sx|sx| |sx mx ex], y as [sy|sy| |sy my ey]; try done. rewrite /num_mul /SFmul.
  pose proof (round_aux_shape (xorb sx sy) (Z.pos (mx * my)) (ex + ey) loc_Exact ltac:(lia)) as H.
  destruct (binary_round_aux _ _ _ _ _ _); try done. by destruct H.
Qed.

Lemma effective_budget_int k state now fb : 0 < k < 2 ^ 31 →
  ∃ e, (k + 1) / 2 ≤ e ≤ k ∧ effectiveKvBudgetTokens (Some (num_of_Z k)) state now fb = Some (num_of_Z e).
Proof.
  intros Hk. rewrite /effectiveKvBudgetTokens valid_budget_int //. cbn [negb].
  assert (Hhalf : 0 < (k + 1) / 2 ≤ k) by (Z.to_euclidean_division_equations; lia).
  destruct (kvEvictionCutsApply fb); last by (exists k; split; [lia|done]). cbn [negb].
  rewrite floor_fraction_val num_ceil_half; first lia.
  destruct (min_max_floor k ((k + 1) / 2) (num_mul (num_of_Z k) (num_sub (num_of_Z 1) (effectiveKvCut state now None)))) as (e & He & ->).
  - lia.
  - lia.
  - destruct (num_of_Z_pos k ltac:(lia)) as (q & ex & ->). apply num_mul_number, num_sub_number; [done|apply effectiveKvCut_number].
  - apply num_mul_mantissa.
  - eauto.
Qed.

(** A row with no cut leaves the whole budget. *)
Definition num_unsigned (x : num) : Prop :=
  match x with S754_zero sg | S754_infinity sg | S754_finite sg _ _ => sg = false | S754_nan => False end.

Lemma round_unsigned m e l : 0 ≤ m → num_unsigned (binary_round_aux 53 1024 false m e l).
Proof.
  intros Hm. pose proof (round_aux_shape false m e l Hm) as H. destruct (binary_round_aux _ _ _ _ _ _); try done. by destruct H.
Qed.

Lemma num_of_Z_unsigned n : 0 ≤ n → num_unsigned (num_of_Z n).
Proof.
  intros Hn. destruct n as [|p|p]; [done| |lia]. rewrite /num_of_Z /binary_normalize /binary_round. destruct (shl_align _ _ _).
  by apply round_unsigned.
Qed.

Lemma num_mul_unsigned q e x : num_unsigned x → num_unsigned (num_mul (S754_finite false q e) x).
Proof.
  destruct x as [sg|sg| |sg m ex]; cbn [num_unsigned]; intros H; subst; try done. rewrite /num_mul /SFmul. cbn [xorb]. by apply round_unsigned.
Qed.

Lemma zero_minus_unsigned x : num_unsigned x → num_max (S754_zero false) (num_sub (S754_zero false) x) = S754_zero false.
Proof. by destruct x as [sg|sg| |sg m ex]; cbn [num_unsigned]; intros H; subst. Qed.

Lemma no_cut_zero s now : ke_cutFraction s = num_of_Z 0 → effectiveKvCut (Some s) now None = S754_zero false.
Proof.
  intros Hc. rewrite /effectiveKvCut Hc (_ : kvEvictionCutsApply None = true) // (_ : boundedCut (num_of_Z 0) = S754_zero false) //. cbn [negb].
  apply zero_minus_unsigned. destruct decay_val as (q & e & ->). apply num_mul_unsigned.
  destruct (elapsed_ms s now); apply num_of_Z_unsigned; lia.
Qed.

Lemma no_cut_budget k s now fb : 0 < k < 2 ^ 31 → ke_cutFraction s = num_of_Z 0 →
  effectiveKvBudgetTokens (Some (num_of_Z k)) (Some s) now fb = Some (num_of_Z k).
Proof.
  intros Hk Hc. rewrite /effectiveKvBudgetTokens valid_budget_int //. cbn [negb]. destruct (kvEvictionCutsApply fb); last done. cbn [negb].
  rewrite no_cut_zero // floor_fraction_val num_ceil_half; first lia.
  rewrite (_ : num_sub (num_of_Z 1) (S754_zero false) = num_of_Z 1) // num_mul_one; first lia. rewrite num_floor_int; first lia.
  pose proof (num_of_Z_number k) as Hnk.
  assert (Hhalf : 0 < (k + 1) / 2 ≤ k) by (Z.to_euclidean_division_equations; lia).
  rewrite /num_max !num_of_Z_number !num_of_Z_lt; [lia..|]. cbn [orb].
  rewrite (_ : (if _ then _ else _) = num_of_Z k); last first.
  { rewrite /num_min Hnk num_lt_irrefl //. cbn [orb]. by destruct (num_of_Z_pos k ltac:(lia)) as (q & e & ->). }
  destruct (Z.ltb_spec ((k + 1) / 2) k); first done. rewrite (_ : (k + 1) / 2 = k); first lia. rewrite Z.ltb_irrefl.
  by destruct (num_of_Z_pos k ltac:(lia)) as (q & e & ->).
Qed.

Lemma no_row_budget k now fb : 0 < k < 2 ^ 31 → effectiveKvBudgetTokens (Some (num_of_Z k)) None now fb = Some (num_of_Z k).
Proof.
  intros Hk. transitivity (effectiveKvBudgetTokens (Some (num_of_Z k)) (Some (emptyKvEvictionState now)) now fb); last by apply no_cut_budget.
  by rewrite /effectiveKvBudgetTokens no_cut_zero.
Qed.

Lemma num_of_Z_inj a b : 0 ≤ a < 2 ^ 53 → 0 ≤ b < 2 ^ 53 → num_of_Z a = num_of_Z b → a = b.
Proof.
  intros Ha Hb Heq. pose proof (num_of_Z_lt a b Ha Hb) as H1. pose proof (num_of_Z_lt b a Hb Ha) as H2.
  rewrite Heq num_lt_irrefl in H1; first apply num_of_Z_number. rewrite Heq num_lt_irrefl in H2; first apply num_of_Z_number. lia.
Qed.

(** C27. Eviction feedback is bounded and needs evidence: whatever observations were recorded, the
    effective budget of a valid reported budget [k] is an integer between [k/2] (rounded up) and
    [k]; when it is below [k] the feedback is not frozen and the row counts at least two misses,
    each of a session of its own among at most sixteen. *)
Theorem kv_budget_bounded obs capacityId k now fb (db := run_observations obs []) :
  0 < k < 2 ^ 31 → ∃ e, (k + 1) / 2 ≤ e ≤ k ∧
  effectiveKvBudgetTokens (Some (num_of_Z k)) (row_state <$> map_get capacityId db) now fb = Some (num_of_Z e) ∧
  (e < k → fb ≠ Some false ∧ ∃ r, map_get capacityId db = Some r ∧ NoDup (kr_sessionIds r) ∧
    2 ≤ kr_missCount r ≤ Z.of_nat (length (kr_sessionIds r)) ∧ (length (kr_sessionIds r) ≤ 16)%nat).
Proof.
  intros Hk. assert (Hdb : kv_table_ok db) by by apply kv_run_ok.
  destruct (effective_budget_int k (row_state <$> map_get capacityId db) now fb Hk) as (e & He & Hb). exists e. split; [done|split; [done|]].
  intros Hlt. assert (Hwhole : effectiveKvBudgetTokens (Some (num_of_Z k)) (row_state <$> map_get capacityId db) now fb ≠ Some (num_of_Z k)).
  { assert (0 < (k + 1) / 2) by (Z.to_euclidean_division_equations; lia).
    rewrite Hb. intros [= Heq]. apply num_of_Z_inj in Heq; lia. }
  split. { intros ->. apply Hwhole. by rewrite /effectiveKvBudgetTokens valid_budget_int. }
  destruct (map_get capacityId db) as [r|] eqn:Hg; last first.
  { exfalso. apply Hwhole. by apply no_row_budget. }
  exists r. destruct (Hdb _ _ Hg) as [Hd Hcap Hc Hm Ha _]. split; [done|split; [done|split; [|exact Hcap]]].
  assert (2 ≤ kr_missCount r); last lia. destruct (Z.lt_ge_cases (kr_missCount r) 2) as [H2|H2]; last done.
  exfalso. apply Hwhole. by apply no_cut_budget, Ha.
Qed.

(** ** Examples *)

(** Two sessions miss on one capacity: the second steps the cut. *)
Definition example_obs : list KvObservation :=
  [mkObs (js "cap") (js "owner") [js "s1"] (Some 1000) kv_miss (λ _, false);
   mkObs (js "cap") (js "owner") [js "s2"] (Some 2000) kv_miss (λ _, false)].

Example example_budget :
  let st := row_state <$> map_get (js "cap") (run_observations example_obs []) in
  effectiveKvBudgetTokens (Some (num_of_Z 100000)) st 2000 None = Some (num_of_Z 95000) ∧
  effectiveKvBudgetTokens (Some (num_of_Z 100000)) st 92000 None = Some (num_of_Z 97500) ∧
  effectiveKvBudgetTokens (Some (num_of_Z 100000)) st 182000 None = Some (num_of_Z 100000).
Proof. vm_compute. done. Qed.

Lemma kv_budget_bounded_witness : ∃ e, 50000 ≤ e ≤ 100000 ∧
  effectiveKvBudgetTokens (Some (num_of_Z 100000)) (row_state <$> map_get (js "cap") (run_observations example_obs [])) 2000 None = Some (num_of_Z e).
Proof.
  destruct (kv_budget_bounded example_obs (js "cap") 100000 2000 None ltac:(lia)) as (e & He & Hb & _). exists e. split; [exact He|exact Hb].
Defined.

Lemma kv_upsert_refines_witness :
  let db := run_observations example_obs [] in
  ∃ r', map_get (js "cap") (upsertKvEvictionSession (js "cap") (js "owner") (js "s3") 4000 kv_miss db) = Some r' ∧
    kv_core (row_state r') = kv_core (applyKvEvictionContinuations (row_state <$> map_get (js "cap") db) [mkItem (js "s3") kv_miss] 4000).
Proof.
  intros db. destruct (kv_upsert_refines (js "cap") (js "owner") (js "s3") 4000 kv_miss db) as (r' & Hg & _ & Hc & _).
  - reflexivity.
  - intros r Hr. split; [|split].
    + vm_compute in Hr. by injection Hr as <-.
    + by apply (kv_run_ok example_obs [] ltac:(done) (js "cap")).
    + vm_compute in Hr. injection Hr as <-. split; [cbn; lia|intros _; vm_compute; reflexivity].
  - exists r'. split; assumption.
Defined.
