(* ===== verification/WarmProtection.v ===== *)
(** * WarmProtection: warm-session protection

    [apps/server/src/model-api/warm-protection.ts]: which warm sessions of a member's KV pool are
    protected, the state of a member for a request, the order of the members, and the step of
    [routes.ts] that applies it. Ages and token counts are integers (database columns); shares
    of the pool are binary64 numbers. *)
From Stdlib Require Import ssreflect SpecFloat.
From S2P Require Import Prelude JsString JsNumber JsRound KvEviction.

Definition PROTECTION_KV_HEADROOM : num := num_ratio 1 10.
Definition LLAMA_CPP_WINDOW_FACTOR : num := num_ratio 5 10.

(** [windowSeconds * 0.5] is exact on integers. *)
Definition protectionWindowSecondsFor (windowSeconds : Z) (engineKind : option ProtectionEngineKind) : Z :=
  if bool_decide (engineKind = Some LLAMA_CPP)
  then Z.max 1 (num_floor_Z (num_mul (num_of_Z windowSeconds) LLAMA_CPP_WINDOW_FACTOR))
  else windowSeconds.

Inductive ProtectionShareMode : Type := EQUAL_SHARE | FIRST_COME | FIXED_PERCENT.

#[global] Instance ProtectionShareMode_eq_dec : EqDecision ProtectionShareMode.
Proof. solve_decision. Defined.

Record WarmProtectionPolicy : Type := mkPolicy {
  wp_enabled : bool;
  wp_evictionFeedbackEnabled : option bool;
  wp_windowSeconds : Z;
  wp_minTokens : Z;
  wp_share : ProtectionShareMode;
  wp_fixedPercent : option Z;
}.

(** An absent and a null optional field are both [None]. *)
Record WarmSession : Type := mkSession {
  ws_userId : jstr;
  ws_ageMs : Z;
  ws_tokens : Z;
  ws_overridePercent : option Z;
  ws_inFlight : bool;
  ws_sessionId : option jstr;
  ws_sharedWithSessionId : option jstr;
  ws_sharedPrefixTokens : option Z;
}.

Record CapacityLoad : Type := mkLoad {
  cl_slots : option Z;
  cl_active : Z;
  cl_kvBudgetTokens : option num;
  cl_effectiveKvBudgetTokens : option num;
}.

Inductive MemberProtectionState : Type := FULL | PROTECTED | FREE.

#[global] Instance MemberProtectionState_eq_dec : EqDecision MemberProtectionState.
Proof. solve_decision. Defined.

Record ProtectionVerdict : Type := mkVerdict {
  pv_state : MemberProtectionState;
  pv_effectiveKvBudgetTokens : option num;
  pv_protectedSessions : Z;
  pv_idleProtectedSessions : Z;
  pv_protectedTokens : Z;
  pv_newestProtectedAgeMs : option Z;
}.

(** ** The protected sessions of one pool *)

Definition eligible (policy : WarmProtectionPolicy) (session : WarmSession) : bool :=
  (ws_ageMs session <=? wp_windowSeconds policy * 1000) && (wp_minTokens policy <=? ws_tokens session) &&
  negb (bool_decide (ws_overridePercent session = Some 0)).

(** A non-empty optional string, as a condition reads it. *)
Definition truthy_id (s : option jstr) : option jstr := match s with Some [] => None | _ => s end.

Definition billedWarmTokens (eligibleSessionIds : list jstr) (session : WarmSession) : Z :=
  let raw := Z.max 0 (ws_tokens session) in
  match ws_sharedPrefixTokens session, truthy_id (ws_sharedWithSessionId session) with
  | Some shared, Some sharer => if bool_decide (sharer ∈ eligibleSessionIds) then Z.max 0 (raw - shared) else raw
  | _, _ => raw
  end.

Record Scope : Type := mkScope { sc_count : Z; sc_tokens : Z; sc_closed : bool }.
Definition scope0 : Scope := mkScope 0 0 false.
Definition close_scope (s : Scope) : Scope := mkScope (sc_count s) (sc_tokens s) true.
Definition charge_scope (billed : Z) (s : Scope) : Scope := mkScope (sc_count s + 1) (sc_tokens s + billed) (sc_closed s).

Definition set_tokens (billed : Z) (s : WarmSession) : WarmSession :=
  mkSession (ws_userId s) (ws_ageMs s) billed (ws_overridePercent s) (ws_inFlight s) (ws_sessionId s)
    (ws_sharedWithSessionId s) (ws_sharedPrefixTokens s).

(** First loop: the eligible sessions of each user, and their ids. *)
Definition group_step (policy : WarmProtectionPolicy) (acc : jsmap jstr (list WarmSession) * list jstr) (session : WarmSession) :
    jsmap jstr (list WarmSession) * list jstr :=
  let '(byUser, ids) := acc in
  if negb (eligible policy session) then acc
  else
    let own := default [] (map_get (ws_userId session) byUser) in
    (map_set (ws_userId session) (own ++ [session]) byUser,
     match truthy_id (ws_sessionId session) with Some id => ids ++ [id] | None => ids end).

Definition fractionFor (policy : WarmProtectionPolicy) (activeUsers : nat) (override : option Z) : num :=
  match override with
  | Some o => num_div (num_of_Z o) (num_of_Z 100)
  | None =>
      match wp_share policy, wp_fixedPercent policy with
      | FIRST_COME, _ => S754_infinity false
      | FIXED_PERCENT, Some p => num_div (num_of_Z p) (num_of_Z 100)
      | _, _ => num_div (num_of_Z 1) (num_of_Z (Z.of_nat activeUsers))
      end
  end.

Definition token_mode (load : CapacityLoad) : option num :=
  match cl_kvBudgetTokens load with Some k => if num_lt (num_of_Z 0) k then Some k else None | None => None end.

Definition fits (load : CapacityLoad) (scope : Scope) (fraction : num) (tokens : Z) : bool :=
  if (sc_count scope =? 0) || negb (num_finite fraction) then true
  else match token_mode load with
  | Some k => num_le (num_of_Z (sc_tokens scope + tokens)) (num_mul k fraction)
  | None =>
      match cl_slots load with
      | Some slots => if 0 <? slots then sc_count scope <? Z.max 1 (num_floor_Z (num_mul (num_of_Z slots) fraction)) else true
      | None => true
      end
  end.

Definition newest_session_first (left right : WarmSession) : Z :=
  num_or (ws_ageMs left - ws_ageMs right) (ws_tokens right - ws_tokens left).

Record UserLoop : Type := mkLoop { ul_user : Scope; ul_buckets : jsmap (option Z) Scope; ul_protected : list WarmSession }.

(** One session of one user's newest-first list. *)
Definition protect_step (load : CapacityLoad) (bill : WarmSession → Z) (fraction : option Z → num) (userFraction : num)
    (st : UserLoop) (session : WarmSession) : UserLoop :=
  let billed := bill session in
  let override := ws_overridePercent session in
  let bucket := default scope0 (map_get override (ul_buckets st)) in
  let put b := map_set override b (ul_buckets st) in
  if sc_closed (ul_user st) || sc_closed bucket then mkLoop (ul_user st) (put bucket) (ul_protected st)
  else if negb (fits load (ul_user st) userFraction billed) then mkLoop (close_scope (ul_user st)) (put bucket) (ul_protected st)
  else if negb (fits load bucket (fraction override) billed) then mkLoop (ul_user st) (put (close_scope bucket)) (ul_protected st)
  else mkLoop (charge_scope billed (ul_user st)) (put (charge_scope billed bucket)) (ul_protected st ++ [set_tokens billed session]).

(** [Math.max(...xs)] *)
Definition num_max_list (xs : list num) : num := fold_left num_max xs (S754_infinity true).

Definition protect_user (load : CapacityLoad) (bill : WarmSession → Z) (fraction : option Z → num) (own : list WarmSession) : list WarmSession :=
  let sorted := sort_by newest_session_first own in
  let userFraction := num_max_list (map (λ s, fraction (ws_overridePercent s)) sorted) in
  ul_protected (fold_left (protect_step load bill fraction userFraction) sorted (mkLoop scope0 [] [])).

Definition protectedWarmSessions (sessions : list WarmSession) (load : CapacityLoad) (policy : WarmProtectionPolicy) : list WarmSession :=
  if negb (wp_enabled policy) then []
  else
    let '(byUser, ids) := fold_left (group_step policy) sessions ([], []) in
    concat (map (λ '(_, own), protect_user load (billedWarmTokens ids) (fractionFor policy (length byUser)) own) byUser).

Definition idleProtectedSessions (protectedSessions : list WarmSession) : list WarmSession :=
  List.filter (λ s, negb (ws_inFlight s)) protectedSessions.

(** ** The state of a member *)

Definition sum_tokens (ss : list WarmSession) : Z := fold_left (λ a s, a + ws_tokens s) ss 0.

Definition effective_budget (load : CapacityLoad) : option num :=
  match token_mode load with
  | Some k =>
      Some (match cl_effectiveKvBudgetTokens load with
            | Some e => if num_finite e && num_lt (num_of_Z 0) e then num_min k e else k
            | None => k
            end)
  | None => None
  end.

Definition memberProtectionVerdict (load : CapacityLoad) (protectedSessions : list WarmSession) (requestTokens : Z) (affine : bool) : ProtectionVerdict :=
  let protectedTokens := sum_tokens protectedSessions in
  let newest := match protectedSessions with [] => None | s :: rest => Some (fold_left (λ a s, Z.min a (ws_ageMs s)) rest (ws_ageMs s)) end in
  let idleProtected := Z.of_nat (length (idleProtectedSessions protectedSessions)) in
  let effectiveBudget := effective_budget load in
  let verdict state :=
    mkVerdict state effectiveBudget (Z.of_nat (length protectedSessions)) idleProtected protectedTokens newest in
  if match cl_slots load with Some slots => slots <=? cl_active load | None => false end then verdict FULL
  else if affine || bool_decide (length protectedSessions = 0%nat) then verdict FREE
  else match effectiveBudget with
  | Some b =>
      verdict (if num_lt (num_mul b (num_sub (num_of_Z 1) PROTECTION_KV_HEADROOM)) (num_of_Z (protectedTokens + Z.max 0 requestTokens))
               then PROTECTED else FREE)
  | None =>
      match cl_slots load with
      | Some slots =>
          if 0 <? slots then verdict (if slots - cl_active load <=? idleProtected then PROTECTED else FREE) else verdict FREE
      | None => verdict FREE
      end
  end.

Definition compareProtectedMembers (left right : ProtectionVerdict) : Z :=
  num_or (default 0 (pv_newestProtectedAgeMs right) - default 0 (pv_newestProtectedAgeMs left))
    (pv_protectedTokens left - pv_protectedTokens right).

(** ** The order of the members *)

Record ProtectionRouteCandidate : Type := mkCandidate { pc_poolMemberId : jstr; pc_affine : bool }.

Record ProtectionRouting : Type := mkRouting { pr_order : list jstr; pr_initial : list jstr; pr_externalFirst : bool }.

Definition is_protected (verdicts : jsmap jstr ProtectionVerdict) (c : ProtectionRouteCandidate) : bool :=
  negb (pc_affine c) && bool_decide (pv_state <$> map_get (pc_poolMemberId c) verdicts = Some PROTECTED).

(** The comparator of the sort; every protected candidate has a verdict. *)
Definition no_verdict : ProtectionVerdict := mkVerdict FREE None 0 0 0 None.
Definition compare_candidates (verdicts : jsmap jstr ProtectionVerdict) (left right : ProtectionRouteCandidate) : Z :=
  compareProtectedMembers (default no_verdict (map_get (pc_poolMemberId left) verdicts))
    (default no_verdict (map_get (pc_poolMemberId right) verdicts)).

Definition can_serve (verdicts : jsmap jstr ProtectionVerdict) (c : ProtectionRouteCandidate) : bool :=
  pc_affine c || bool_decide (default FREE (pv_state <$> map_get (pc_poolMemberId c) verdicts) = FREE).

Definition protectionRouting (candidates : list ProtectionRouteCandidate) (verdicts : jsmap jstr ProtectionVerdict) (externalPlan : bool) : ProtectionRouting :=
  let protectedMembers := sort_by (compare_candidates verdicts) (List.filter (is_protected verdicts) candidates) in
  let others := List.filter (λ c, negb (is_protected verdicts c)) candidates in
  let order := map pc_poolMemberId (others ++ protectedMembers) in
  if bool_decide (length protectedMembers = 0%nat) || negb externalPlan then mkRouting order order false
  else if existsb (can_serve verdicts) others then mkRouting order (map pc_poolMemberId others) false
  else mkRouting order order true.

(** ** Verdicts from one snapshot *)

Record WarmProtectionSnapshot : Type := mkSnapshot {
  sn_kvEvictionByCapacity : jsmap jstr KvEvictionState;
  sn_activeByCapacity : jsmap jstr Z;
  sn_sessionsByCapacity : jsmap jstr (list WarmSession);
}.

Record ProtectionMemberInput : Type := mkMember {
  pm_poolMemberId : jstr;
  pm_capacityId : jstr;
  pm_slots : option Z;
  pm_kvBudgetTokens : option num;
  pm_engineKind : option ProtectionEngineKind;
  pm_affine : bool;
  pm_requestTokens : Z;
}.

Definition member_load (snapshot : WarmProtectionSnapshot) (policy : WarmProtectionPolicy) (now : Z) (member : ProtectionMemberInput) : CapacityLoad :=
  let budget := protectionKvBudgetTokens (pm_engineKind member) (pm_kvBudgetTokens member) in
  mkLoad (pm_slots member) (default 0 (map_get (pm_capacityId member) (sn_activeByCapacity snapshot))) budget
    (effectiveKvBudgetTokens budget (map_get (pm_capacityId member) (sn_kvEvictionByCapacity snapshot)) now (wp_evictionFeedbackEnabled policy)).

Definition member_policy (policy : WarmProtectionPolicy) (member : ProtectionMemberInput) : WarmProtectionPolicy :=
  mkPolicy (wp_enabled policy) (wp_evictionFeedbackEnabled policy)
    (protectionWindowSecondsFor (wp_windowSeconds policy) (pm_engineKind member)) (wp_minTokens policy) (wp_share policy) (wp_fixedPercent policy).

Definition assess_member (snapshot : WarmProtectionSnapshot) (policy : WarmProtectionPolicy) (now : Z) (member : ProtectionMemberInput) : ProtectionVerdict :=
  let load := member_load snapshot policy now member in
  memberProtectionVerdict load
    (protectedWarmSessions (default [] (map_get (pm_capacityId member) (sn_sessionsByCapacity snapshot))) load (member_policy policy member))
    (pm_requestTokens member) (pm_affine member).

(** The distinct values of a list, first occurrences in order ([new Set(...)]). *)
Definition distinct_ids (l : list jstr) : list jstr := fold_left (λ acc x, if bool_decide (x ∈ acc) then acc else acc ++ [x]) l [].

(** [source.load] is the argument [load_source]. *)
Definition assessWarmProtection (load_source : list jstr → WarmProtectionSnapshot) (policy : WarmProtectionPolicy)
    (members : list ProtectionMemberInput) (now : Z) : jsmap jstr ProtectionVerdict :=
  if negb (wp_enabled policy) || bool_decide (length members = 0%nat) then []
  else
    let snapshot := load_source (distinct_ids (map pm_capacityId members)) in
    fold_left (λ verdicts member, map_set (pm_poolMemberId member) (assess_member snapshot policy now member) verdicts) members [].

(** ** The step of the request path *)

(** Candidates of type [C] with their pool member ids, as [routes.ts] applies a routing to them. *)
Section Apply.
Context {C : Type} (poolMemberId : C → jstr).

Definition resolve (routeCandidates : list C) (ids : list jstr) : list C :=
  let candidateById := fold_left (λ m c, map_set (poolMemberId c) c m) routeCandidates [] in
  omap (λ id, map_get id candidateById) ids.

(** The new route order, the candidates of the first local admission ([None]: the whole order)
    and whether the external route is tried first. *)
Definition apply_protection (routeCandidates : list C) (affine : jstr → bool) (verdicts : jsmap jstr ProtectionVerdict) (externalPlan : bool) :
    list C * option (list C) * bool :=
  let routing := protectionRouting (map (λ c, mkCandidate (poolMemberId c) (affine (poolMemberId c))) routeCandidates) verdicts externalPlan in
  (resolve routeCandidates (pr_order routing),
   if (length (pr_initial routing) =? length (pr_order routing))%nat then None else Some (resolve routeCandidates (pr_initial routing)),
   pr_externalFirst routing).
End Apply.
