(* ===== verification/WarmProtectionSafety.v ===== *)
(** * WarmProtectionSafety: protection reorders, never drops, and respects the shares

    Applying a routing keeps every candidate; a member is PROTECTED exactly past nine tenths of
    its effective budget, however the fractions round; each user's protected sessions are a
    newest-first prefix per override, within the user's share, and never none. *)
From Stdlib Require Import ssreflect SpecFloat.
From S2P Require Import Prelude JsString JsNumber JsRound KvEviction KvEvictionSafety WarmProtection.

(** ** The order of the candidates *)

#[export] Instance protected_order : CmpOrder compareProtectedMembers.
Proof.
  apply (cmp_order_lex (λ l r, default 0 (pv_newestProtectedAgeMs r) - default 0 (pv_newestProtectedAgeMs l)) (λ l r, pv_protectedTokens l - pv_protectedTokens r)); split; intros; lia.
Qed.

#[export] Instance candidate_order verdicts : CmpOrder (compare_candidates verdicts).
Proof. apply (cmp_order_contramap (λ c, default no_verdict (map_get (pc_poolMemberId c) verdicts)) compareProtectedMembers), _. Qed.

Lemma protected_cannot_serve verdicts c : is_protected verdicts c = true → can_serve verdicts c = false.
Proof.
  rewrite /is_protected /can_serve. destruct (pc_affine c); first done. cbn [negb andb orb].
  intros H%bool_decide_eq_true_1. by rewrite H.
Qed.

Section Resolve.
Context {C : Type} (poolMemberId : C → jstr) (cs : list C) (Hids : NoDup (map poolMemberId cs)).

Lemma resolve_get l : ∀ m, NoDup (map poolMemberId l) → ∀ id,
  map_get id (fold_left (λ m c, map_set (poolMemberId c) c m) l m) =
  match List.find (λ c, bool_decide (poolMemberId c = id)) l with Some c => Some c | None => map_get id m end.
Proof.
  induction l as [|c l IH]; intros m Hnd id; first done. cbn [fold_left List.find map] in *. apply NoDup_cons in Hnd as [Hc Hnd].
  rewrite IH // map_get_set. destruct (List.find _ l) as [c'|] eqn:Hf.
  - apply List.find_some in Hf as [Hin He%bool_decide_eq_true_1]. rewrite bool_decide_eq_false_2 //.
    intros Heq. apply Hc. rewrite Heq -He. by apply list_elem_of_In, in_map.
  - case_bool_decide; case_decide; congruence.
Qed.

Lemma resolve_id l : (∀ c, In c l → In c cs) → resolve poolMemberId cs (map poolMemberId l) = l.
Proof.
  rewrite /resolve. induction l as [|c l IH]; intros Hl; first done. cbn [map omap list_omap].
  rewrite resolve_get //. destruct (List.find _ cs) as [c'|] eqn:Hf.
  - apply List.find_some in Hf as [Hin He%bool_decide_eq_true_1].
    rewrite (_ : c' = c). { by apply (NoDup_map_inj poolMemberId cs); [| |apply Hl; left|]. }
    f_equal. apply IH. intros c0 H0. by apply Hl; right.
  - exfalso. pose proof (List.find_none _ _ Hf c (Hl c (or_introl eq_refl))) as Hn. by apply bool_decide_eq_false_1 in Hn.
Qed.
End Resolve.

Lemma filter_map {A B} (f : A → B) (p : B → bool) l : List.filter p (map f l) = map f (List.filter (λ a, p (f a)) l).
Proof. induction l as [|a l IH]; first done. cbn. rewrite IH. by case_match. Qed.

Section Routing.
Context {C : Type} (poolMemberId : C → jstr) (affine : jstr → bool) (verdicts : jsmap jstr ProtectionVerdict).

(** A candidate as the routing sees it. *)
Definition candidate_view (c : C) : ProtectionRouteCandidate := mkCandidate (poolMemberId c) (affine (poolMemberId c)).
Definition shielded (c : C) : bool := is_protected verdicts (candidate_view c).
Definition serves (c : C) : bool := can_serve verdicts (candidate_view c).
Definition by_age (a b : C) : Z := compare_candidates verdicts (candidate_view a) (candidate_view b).

#[local] Instance by_age_order : CmpOrder by_age.
Proof. apply (cmp_order_contramap candidate_view), _. Qed.

Lemma routing_view cs plan :
  let others := List.filter (λ c, negb (shielded c)) cs in
  let last := sort_by by_age (List.filter shielded cs) in
  protectionRouting (map candidate_view cs) verdicts plan =
  (let order := map poolMemberId (others ++ last) in
   if bool_decide (length last = 0%nat) || negb plan then mkRouting order order false
   else if existsb serves others then mkRouting order (map poolMemberId others) false
   else mkRouting order order true).
Proof.
  intros others last. rewrite /protectionRouting !filter_map (sort_by_map by_age); first done.
  rewrite -map_app !map_map length_map. fold last. fold shielded. fold others.
  rewrite (_ : existsb (can_serve verdicts) (map candidate_view others) = existsb serves others) //.
  clear. induction others as [|c l IH]; first done. cbn. by rewrite IH.
Qed.

Lemma serves_unshielded c : serves c = true → shielded c = false.
Proof. intros Hs. destruct (shielded c) eqn:Hp; last done. by rewrite /serves protected_cannot_serve in Hs. Qed.

(** C13. Protection reorders the candidates and never drops or blocks one: the new order is a
    permutation, the unprotected candidates first in their old order, then the protected ones
    with the oldest (then cheapest) protected set first; a first admission that leaves out
    the protected ones happens only with an external plan and holds a candidate that can serve;
    the external route goes first exactly when a plan exists, some candidate is protected and
    none can serve. *)
Theorem protection_never_drops cs plan :
  NoDup (map poolMemberId cs) →
  let '(order, initial, externalFirst) := apply_protection poolMemberId cs affine verdicts plan in
  order ≡ₚ cs ∧
  (∃ last, order = List.filter (λ c, negb (shielded c)) cs ++ last ∧ Forall (λ c, shielded c = true) last ∧ sorted_by by_age last) ∧
  (∀ i, initial = Some i ↔ i = List.filter (λ c, negb (shielded c)) cs ∧ plan = true ∧ existsb shielded cs = true ∧ existsb serves cs = true) ∧
  (externalFirst = true ↔ plan = true ∧ existsb shielded cs = true ∧ existsb serves cs = false).
Proof.
  intros Hids. rewrite /apply_protection. fold candidate_view. rewrite routing_view.
  set (others := List.filter (λ c, negb (shielded c)) cs). set (last := sort_by by_age (List.filter shielded cs)).
  assert (Hperm : others ++ last ≡ₚ cs).
  { rewrite Permutation_app_comm /last sort_by_perm. apply filter_split_perm. }
  assert (Hsub : ∀ c, In c (others ++ last) → In c cs) by (intros c; apply Permutation_in, Hperm).
  assert (Hlast : (length last = 0%nat) ↔ existsb shielded cs = false).
  { rewrite /last (Permutation_length (sort_by_perm _ _)). rewrite -not_true_iff_false existsb_exists.
    split.
    - intros Hl (c & Hin & Hc). destruct (List.filter shielded cs) as [|] eqn:Hf; last done.
      assert (In c (List.filter shielded cs)) as Hx by by apply filter_In. by rewrite Hf in Hx.
    - intros Hn. rewrite filter_none //. intros c Hc. destruct (shielded c) eqn:E; last done. exfalso. apply Hn. eauto. }
  assert (Hserve : existsb serves others = existsb serves cs).
  { apply eq_true_iff_eq. rewrite !existsb_exists. split; intros (c & Hin & Hc); exists c; split; try done.
    - by apply filter_In in Hin as [].
    - apply filter_In. split; [done|by rewrite serves_unshielded]. }
  assert (Horder : ∃ l, others ++ last = others ++ l ∧ Forall (λ c, shielded c = true) l ∧ sorted_by by_age l).
  { exists last. split; [done|split]; last (apply sort_by_sorted, cmp_order_comparator, by_age_order). apply Forall_forall. intros c Hc%list_elem_of_In.
    apply sort_by_in in Hc. by apply filter_In in Hc as []. }
  assert (Hres : resolve poolMemberId cs (map poolMemberId (others ++ last)) = others ++ last) by by apply resolve_id.
  assert (Hsame : ∀ n, (n =? n)%nat = true) by (intros n; apply Nat.eqb_refl).
  destruct (bool_decide_reflect (length last = 0%nat)) as [Hl|Hl].
  { cbn [orb pr_order pr_initial pr_externalFirst]. rewrite Hsame Hres. apply Hlast in Hl. rewrite Hl. naive_solver. }
  assert (Hp : existsb shielded cs = true) by (apply not_false_is_true; by rewrite -Hlast). rewrite Hp -Hserve.
  destruct plan; last by (cbn [orb negb pr_order pr_initial pr_externalFirst]; rewrite Hsame Hres; naive_solver).
  destruct (existsb serves others) eqn:Hs; cbn [orb negb pr_order pr_initial pr_externalFirst].
  - assert (Hr2 : resolve poolMemberId cs (map poolMemberId others) = others).
    { apply resolve_id; first done. intros c Hc. by apply filter_In in Hc as []. }
    rewrite Hres Hr2 (_ : (_ =? _)%nat = false); first (rewrite !length_map length_app; apply Nat.eqb_neq; lia).
    split; [done|split; [done|split; [|naive_solver]]]. intros i. split; [by intros [= <-]|by intros [-> _]].
  - rewrite Hsame Hres. naive_solver.
Qed.
End Routing.

(** ** The threshold *)

Lemma num_finite_int n : 0 < n < 2 ^ 53 → num_finite (num_of_Z n) = true.
Proof. intros Hn. by destruct (num_of_Z_pos n Hn) as (q & e & ->). Qed.

Lemma effective_budget_ints slots active k e : 0 < e ≤ k → k < 2 ^ 31 →
  effective_budget (mkLoad slots active (Some (num_of_Z k)) (Some (num_of_Z e))) = Some (num_of_Z e).
Proof.
  intros He Hk. rewrite /effective_budget /token_mode. cbn [cl_kvBudgetTokens cl_effectiveKvBudgetTokens].
  rewrite num_of_Z_lt; [lia..|]. rewrite (_ : (0 <? k) = true); first lia.
  rewrite num_finite_int ?num_of_Z_lt; [lia..|]. rewrite (_ : (0 <? e) = true); first lia. cbn [andb].
  rewrite /num_min !num_of_Z_number !num_of_Z_lt; [lia..|]. cbn [orb].
  rewrite (_ : (k <? e) = false); first lia. destruct (Z.ltb_spec e k); first done.
  rewrite (_ : e = k); first lia. by destruct (num_of_Z_pos k ltac:(lia)) as (q & x & ->).
Qed.

Lemma token_mode_effective slots active k eff : token_mode (mkLoad slots active k eff) = token_mode (mkLoad slots active k None).
Proof. done. Qed.

(** Which sessions are protected does not depend on the effective budget. *)
Lemma protected_ignores_effective ss slots active k eff policy :
  protectedWarmSessions ss (mkLoad slots active k eff) policy = protectedWarmSessions ss (mkLoad slots active k None) policy.
Proof. done. Qed.

(** C15. Past nine tenths of the effective budget, exactly. For a member (of an engine other than
    llama.cpp) with a reported budget of [k] tokens, let [e] be its effective budget, the answer of
    [effectiveKvBudgetTokens] on the capacity's eviction row at this moment: an integer between half
    of [k] (rounded up) and [k], equal to [k] when feedback is frozen or no eviction row exists. Then
    the member is FULL when its slots are taken; else FREE for a member with an affinity hit or
    without protected sessions; else PROTECTED exactly when the protected tokens (of the set computed
    on [k]) and the request's together pass [9e/10]. *)
Theorem protected_threshold_exact snapshot policy now member k :
  0 < k < 2 ^ 31 → pm_kvBudgetTokens member = Some (num_of_Z k) → pm_engineKind member ≠ Some LLAMA_CPP →
  let active := default 0 (map_get (pm_capacityId member) (sn_activeByCapacity snapshot)) in
  let row := map_get (pm_capacityId member) (sn_kvEvictionByCapacity snapshot) in
  let sessions := default [] (map_get (pm_capacityId member) (sn_sessionsByCapacity snapshot)) in
  let ps := protectedWarmSessions sessions (mkLoad (pm_slots member) active (Some (num_of_Z k)) None) (member_policy policy member) in
  let w := sum_tokens ps + Z.max 0 (pm_requestTokens member) in
  0 ≤ w < 2 ^ 53 → ∃ e,
  effectiveKvBudgetTokens (Some (num_of_Z k)) row now (wp_evictionFeedbackEnabled policy) = Some (num_of_Z e) ∧
  (k + 1) / 2 ≤ e ≤ k ∧
  (wp_evictionFeedbackEnabled policy = Some false ∨ row = None → e = k) ∧
  pv_state (assess_member snapshot policy now member) =
    if match pm_slots member with Some slots => slots <=? active | None => false end then FULL
    else if pm_affine member || bool_decide (length ps = 0%nat) then FREE
    else if 9 * e <? 10 * w then PROTECTED else FREE.
Proof.
  intros Hk Hb Hkind active row sessions ps w Hw.
  destruct (effective_budget_int k row now (wp_evictionFeedbackEnabled policy) Hk) as (e & He & Heff).
  assert (Hhalf : 0 < (k + 1) / 2) by (Z.to_euclidean_division_equations; lia).
  exists e. split; [done|]. split; [done|split].
  { intros [Hf|Hr].
    - rewrite Hf /effectiveKvBudgetTokens valid_budget_int // in Heff. injection Heff as Heff. apply num_of_Z_inj in Heff; lia.
    - rewrite Hr no_row_budget // in Heff. injection Heff as Heff. apply num_of_Z_inj in Heff; lia. }
  assert (Hload : member_load snapshot policy now member = mkLoad (pm_slots member) active (Some (num_of_Z k)) (Some (num_of_Z e))).
  { rewrite /member_load /protectionKvBudgetTokens bool_decide_eq_false_2 // Hb valid_budget_int // -Heff //. }
  rewrite /assess_member Hload protected_ignores_effective. fold sessions. fold ps.
  rewrite /memberProtectionVerdict effective_budget_ints; [lia..|]. cbn [cl_slots cl_active].
  destruct (match pm_slots member with Some _ => _ | None => _ end); first done.
  destruct (pm_affine member || _); first done. fold w.
  change (num_sub (num_of_Z 1) PROTECTION_KV_HEADROOM) with num_nine_tenths. rewrite nine_tenths_lt; [lia|done|done].
Qed.

(** ** The shares *)

(** A list of protected sessions keeps within a fraction of the pool: at most one session, or no
    bound, or its tokens (token mode) or its count (slot mode) within the share. *)
Definition within_share (load : CapacityLoad) (fraction : num) (ss : list WarmSession) : Prop :=
  (length ss ≤ 1)%nat ∨ num_finite fraction = false ∨
  match token_mode load with
  | Some k => num_le (num_of_Z (sum_tokens ss)) (num_mul k fraction) = true
  | None => ∀ slots, cl_slots load = Some slots → 0 < slots →
      Z.of_nat (length ss) ≤ Z.max 1 (num_floor_Z (num_mul (num_of_Z slots) fraction))
  end.

Lemma sum_tokens_snoc ss s : sum_tokens (ss ++ [s]) = sum_tokens ss + ws_tokens s.
Proof. by rewrite /sum_tokens fold_left_app. Qed.

Lemma fits_within load scope fraction billed ss s :
  sc_count scope = Z.of_nat (length ss) → sc_tokens scope = sum_tokens ss → ws_tokens s = billed →
  fits load scope fraction billed = true → within_share load fraction (ss ++ [s]).
Proof.
  intros Hc Ht Hb. rewrite /fits /within_share sum_tokens_snoc length_app Hc Ht Hb. cbn [length].
  destruct (Z.eqb_spec (Z.of_nat (length ss)) 0); first (intros _; left; lia).
  destruct (num_finite fraction); last by (intros _; right; left). cbn [orb negb]. intros Hf. right. right.
  destruct (token_mode load); first done. intros slots Hs Hp. rewrite Hs (_ : (0 <? slots) = true) in Hf; lia.
Qed.

Section UserLoop.
Context (load : CapacityLoad) (bill : WarmSession → Z) (fraction : option Z → num) (userFraction : num).

Definition in_bucket (b : option Z) (s : WarmSession) : bool := bool_decide (ws_overridePercent s = b).
Definition billed (s : WarmSession) : WarmSession := set_tokens (bill s) s.
Definition bucket_of (st : UserLoop) (b : option Z) : Scope := default scope0 (map_get b (ul_buckets st)).
Definition counts (sc : Scope) (ss : list WarmSession) : Prop := sc_count sc = Z.of_nat (length ss) ∧ sc_tokens sc = sum_tokens ss.

(** After the sessions [seen] of a user: the scopes count what is protected, the protected
    sessions of each bucket are a prefix of the seen ones (all of them while open), within the
    shares, and not none. *)
Record loop_ok (seen : list WarmSession) (st : UserLoop) : Prop := {
  lo_user : counts (ul_user st) (ul_protected st);
  lo_bucket : ∀ b, counts (bucket_of st b) (List.filter (in_bucket b) (ul_protected st));
  lo_prefix : ∀ b, ∃ n, (n ≤ length (List.filter (in_bucket b) seen))%nat ∧
    List.filter (in_bucket b) (ul_protected st) = map billed (take n (List.filter (in_bucket b) seen)) ∧
    (sc_closed (ul_user st) = false → sc_closed (bucket_of st b) = false → n = length (List.filter (in_bucket b) seen));
  lo_user_share : within_share load userFraction (ul_protected st);
  lo_bucket_share : ∀ b, within_share load (fraction b) (List.filter (in_bucket b) (ul_protected st));
  lo_some : seen ≠ [] → ul_protected st ≠ [];
}.

Lemma bucket_put st u b v p b' :
  bucket_of (mkLoop u (map_set b v (ul_buckets st)) p) b' = if bool_decide (b = b') then v else bucket_of st b'.
Proof. rewrite /bucket_of. cbn [ul_buckets]. rewrite map_get_set. case_decide; [by rewrite bool_decide_eq_true_2|by rewrite bool_decide_eq_false_2]. Qed.

Lemma filter_snoc {A} (p : A → bool) l x : List.filter p (l ++ [x]) = List.filter p l ++ (if p x then [x] else []).
Proof. by rewrite List.filter_app. Qed.

(** A session left out: the protected list stands and its bucket or the user is closed. *)
Lemma loop_skip seen st s user' v : loop_ok seen st → ul_protected st ≠ [] →
  sc_count user' = sc_count (ul_user st) → sc_tokens user' = sc_tokens (ul_user st) →
  (sc_closed (ul_user st) = true → sc_closed user' = true) →
  sc_count v = sc_count (bucket_of st (ws_overridePercent s)) → sc_tokens v = sc_tokens (bucket_of st (ws_overridePercent s)) →
  (sc_closed (bucket_of st (ws_overridePercent s)) = true → sc_closed v = true) →
  sc_closed user' = true ∨ sc_closed v = true →
  loop_ok (seen ++ [s]) (mkLoop user' (map_set (ws_overridePercent s) v (ul_buckets st)) (ul_protected st)).
Proof.
  intros [Hu Hb Hp Hus Hbs _] Hne Hc1 Ht1 Hcl1 Hc2 Ht2 Hcl2 Hclosed.
  split; try done; cbn [ul_user ul_protected].
  - rewrite /counts Hc1 Ht1. apply Hu.
  - intros b. rewrite bucket_put. case_bool_decide as Hd; last apply Hb. subst b. rewrite /counts Hc2 Ht2. apply Hb.
  - intros b. destruct (Hp b) as (n & Hn & Heq & Hall). exists n. rewrite filter_snoc length_app. split; first lia.
    split; first by rewrite take_app_le. rewrite bucket_put. intros Hcu Hcb. change (in_bucket b s) with (bool_decide (ws_overridePercent s = b)). destruct (bool_decide_reflect (ws_overridePercent s = b)) as [Hd|Hd].
    + destruct Hclosed; congruence.
    + cbn [length]. rewrite Nat.add_0_r. apply Hall; last done.
      destruct (sc_closed (ul_user st)); [by rewrite Hcl1 in Hcu|done].
Qed.

Lemma loop_take seen st s : loop_ok seen st →
  sc_closed (ul_user st) = false → sc_closed (bucket_of st (ws_overridePercent s)) = false →
  fits load (ul_user st) userFraction (bill s) = true → fits load (bucket_of st (ws_overridePercent s)) (fraction (ws_overridePercent s)) (bill s) = true →
  loop_ok (seen ++ [s]) (mkLoop (charge_scope (bill s) (ul_user st))
    (map_set (ws_overridePercent s) (charge_scope (bill s) (bucket_of st (ws_overridePercent s))) (ul_buckets st)) (ul_protected st ++ [billed s])).
Proof.
  intros [Hu Hb Hp Hus Hbs _] Hcu Hcb Hf1 Hf2.
  assert (Hcharge : ∀ sc ss, counts sc ss → counts (charge_scope (bill s) sc) (ss ++ [billed s])).
  { intros sc ss [H1 H2]. rewrite /counts sum_tokens_snoc length_app. cbn. lia. }
  split; cbn [ul_user ul_protected].
  - by apply Hcharge.
  - intros b. rewrite bucket_put filter_snoc. change (in_bucket b (billed s)) with (bool_decide (ws_overridePercent s = b)).
    case_bool_decide as Hd; [subst b; apply Hcharge, Hb|rewrite app_nil_r; apply Hb].
  - intros b. destruct (Hp b) as (n & Hn & Heq & Hall). rewrite !filter_snoc bucket_put.
    change (in_bucket b (billed s)) with (bool_decide (ws_overridePercent s = b)). change (in_bucket b s) with (bool_decide (ws_overridePercent s = b)). case_bool_decide as Hd.
    + subst b. pose proof (Hall Hcu Hcb) as ->. exists (S (length (List.filter (in_bucket (ws_overridePercent s)) seen))).
      rewrite length_app Nat.add_1_r. split; first done. split; last done.
      rewrite take_ge; first by (rewrite length_app; cbn; lia). rewrite map_app Heq take_ge //.
    + rewrite !app_nil_r. exists n. auto.
  - eapply fits_within; [apply Hu..|done|done].
  - intros b. rewrite filter_snoc. change (in_bucket b (billed s)) with (bool_decide (ws_overridePercent s = b)). case_bool_decide as Hd.
    + subst b. eapply fits_within; [apply Hb..|done|done].
    + rewrite app_nil_r. apply Hbs.
  - intros _ H. by apply app_eq_nil in H as [_ H].
Qed.

Lemma fits_empty scope f t : sc_count scope = 0 → fits load scope f t = true.
Proof. by rewrite /fits => ->. Qed.

Lemma loop_step seen st s : loop_ok seen st → (seen = [] → st = mkLoop scope0 [] []) →
  loop_ok (seen ++ [s]) (protect_step load bill fraction userFraction st s).
Proof.
  intros Hok Hinit. rewrite /protect_step. fold (bucket_of st (ws_overridePercent s)).
  destruct (decide (seen = [])) as [->|Hne].
  { rewrite (Hinit eq_refl) in Hok |- *. cbn [ul_user sc_closed]. rewrite /bucket_of. cbn [map_get ul_buckets default sc_closed scope0 orb]. rewrite !fits_empty //.
    cbn [negb]. by apply (loop_take [] (mkLoop scope0 [] []) s). }
  pose proof (lo_some _ _ Hok Hne) as Hp.
  destruct (sc_closed (ul_user st)) eqn:Hcu; first by (apply loop_skip; auto).
  destruct (sc_closed (bucket_of st (ws_overridePercent s))) eqn:Hcb; first by (apply loop_skip; auto).
  cbn [orb]. destruct (fits load (ul_user st) _ _) eqn:Hf1; last by (apply loop_skip; auto; rewrite ?Hcb).
  destruct (fits load (bucket_of _ _) _ _) eqn:Hf2; last by (apply loop_skip; auto).
  by apply loop_take.
Qed.

Lemma loop_init : loop_ok [] (mkLoop scope0 [] []).
Proof. split; try done; intros; try (by left; cbn; lia). exists 0%nat. done. Qed.

Lemma loop_all l : loop_ok l (fold_left (protect_step load bill fraction userFraction) l (mkLoop scope0 [] [])).
Proof.
  induction l as [|s l IH] using rev_ind; first apply loop_init.
  rewrite fold_left_app. apply loop_step; first done. by intros ->.
Qed.
End UserLoop.

Lemma protect_user_ids load bill fraction own s : In s (protect_user load bill fraction own) → ∃ s0, In s0 own ∧ ws_userId s = ws_userId s0.
Proof.
  rewrite /protect_user. set (uf := num_max_list _). intros Hs.
  destruct (lo_prefix _ _ _ _ _ _ (loop_all load bill fraction uf (sort_by newest_session_first own)) (ws_overridePercent s)) as (n & _ & Heq & _).
  assert (Hin : In s (List.filter (in_bucket (ws_overridePercent s)) (ul_protected (fold_left (protect_step load bill fraction uf) (sort_by newest_session_first own) (mkLoop scope0 [] []))))).
  { apply filter_In. split; first done. by apply bool_decide_eq_true_2. }
  rewrite Heq in Hin. apply in_map_iff in Hin as (s0 & <- & Hin). exists s0. split; last done.
  apply (sort_by_in newest_session_first), (filter_In (in_bucket (ws_overridePercent (billed bill s0)))).
  rewrite -(take_drop n (List.filter _ _)). apply in_or_app. by left.
Qed.

(** ** The groups *)

Definition of_user (policy : WarmProtectionPolicy) (u : jstr) (s : WarmSession) : bool := eligible policy s && bool_decide (ws_userId s = u).

(** The ids the eligible sessions carry. *)
Definition eligible_ids (policy : WarmProtectionPolicy) (sessions : list WarmSession) : list jstr :=
  omap (λ s, truthy_id (ws_sessionId s)) (List.filter (eligible policy) sessions).

(** The users with an eligible session. *)
Definition active_users (policy : WarmProtectionPolicy) (sessions : list WarmSession) : list jstr :=
  map_keys (fold_left (group_step policy) sessions ([], [])).1.

Record groups_ok (policy : WarmProtectionPolicy) (seen : list WarmSession) (acc : jsmap jstr (list WarmSession) * list jstr) : Prop := {
  gr_nodup : NoDup (map_keys acc.1);
  gr_own : ∀ u, default [] (map_get u acc.1) = List.filter (of_user policy u) seen;
  gr_some : ∀ u own, map_get u acc.1 = Some own → own ≠ [];
  gr_ids : acc.2 = eligible_ids policy seen;
}.

Lemma group_all policy sessions : groups_ok policy sessions (fold_left (group_step policy) sessions ([], [])).
Proof.
  induction sessions as [|s l IH] using rev_ind; first by (split; try done; constructor).
  rewrite fold_left_app. cbn [fold_left]. destruct (fold_left (group_step policy) l ([], [])) as [m ids]. destruct IH as [Hnd Hown Hsome Hids]. cbn [fst snd] in *.
  cbn [group_step]. destruct (eligible policy s) eqn:He; cbn [negb].
  - split; cbn [fst snd].
    + by apply map_set_NoDup.
    + intros u. rewrite map_get_set List.filter_app. cbn [List.filter]. rewrite {2}/of_user He. case_decide as Hu.
      * subst u. rewrite bool_decide_eq_true_2 //. cbn [default andb id]. f_equal. apply Hown.
      * rewrite bool_decide_eq_false_2 // app_nil_r. apply Hown.
    + intros u own. rewrite map_get_set. case_decide; last apply Hsome. intros [= <-] Hn. by apply app_eq_nil in Hn as [].
    + rewrite Hids /eligible_ids List.filter_app omap_app. cbn [List.filter]. rewrite He. cbn. destruct (truthy_id _); [done|by rewrite app_nil_r].
  - split; cbn [fst snd]; try done.
    + intros u. rewrite List.filter_app. cbn [List.filter]. rewrite /of_user He app_nil_r. apply Hown.
    + by rewrite Hids /eligible_ids List.filter_app; cbn [List.filter]; rewrite He app_nil_r.
Qed.

Lemma filter_concat {A} (p : A → bool) (ls : list (list A)) : List.filter p (concat ls) = concat (map (List.filter p) ls).
Proof. induction ls as [|l ls IH]; first done. cbn. by rewrite List.filter_app IH. Qed.

(** Among groups with distinct keys whose outputs carry the key, a key's output is its group's. *)
Lemma concat_group {V} (f : V → list WarmSession) (m : jsmap jstr V) u :
  NoDup (map_keys m) → (∀ k v s, In (k, v) m → In s (f v) → ws_userId s = k) →
  List.filter (λ s, bool_decide (ws_userId s = u)) (concat (map (λ '(_, v), f v) m)) =
  match map_get u m with Some v => f v | None => [] end.
Proof.
  intros Hnd Hk. rewrite filter_concat map_map. induction m as [|[k v] m IH]; first done. cbn [map concat map_get].
  cbn [map_keys fmap list_fmap fst] in Hnd. apply NoDup_cons in Hnd as [Hn Hnd].
  rewrite IH //; first (intros k' v' s Hin; apply Hk; by right). case_decide as Hu.
  - subst k. rewrite (_ : map_get u m = None); last rewrite app_nil_r.
    { apply eq_None_not_Some. by rewrite map_get_keys. }
    rewrite (filter_ext_In _ (λ _, true)); last by (clear; induction (f v); [done|cbn; f_equal]).
    intros s Hs. apply bool_decide_eq_true_2. apply (Hk u v); [by left|done].
  - rewrite filter_none //. intros s Hs. apply bool_decide_eq_false_2. intros He. apply Hu. rewrite -He. symmetry. apply (Hk k v); [by left|done].
Qed.

Lemma protected_of_user sessions load policy u : wp_enabled policy = true →
  let own := List.filter (of_user policy u) sessions in
  List.filter (λ s, bool_decide (ws_userId s = u)) (protectedWarmSessions sessions load policy) =
  match own with
  | [] => []
  | _ => protect_user load (billedWarmTokens (eligible_ids policy sessions)) (fractionFor policy (length (active_users policy sessions))) own
  end.
Proof.
  intros He own. rewrite /protectedWarmSessions He. cbn [negb]. rewrite /active_users.
  pose proof (group_all policy sessions) as [Hnd Hown Hsome Hids].
  destruct (fold_left (group_step policy) sessions ([], [])) as [m ids]. cbn [fst snd] in *. subst ids. rewrite length_fmap.
  rewrite (concat_group (λ own, protect_user load (billedWarmTokens (eligible_ids policy sessions)) (fractionFor policy (length m)) own)) //.
  - intros k v s Hin Hs. apply protect_user_ids in Hs as (s0 & Hs0 & ->).
    assert (Hg : map_get k m = Some v) by by apply map_get_NoDup.
    specialize (Hown k). rewrite Hg in Hown. cbn [default id] in Hown. rewrite Hown in Hs0.
    apply filter_In in Hs0 as [_ Hs0]. apply andb_true_iff in Hs0 as [_ Hs0]. by apply bool_decide_eq_true_1 in Hs0.
  - specialize (Hown u). fold own in Hown. destruct (map_get u m) as [l|] eqn:Hg; cbn [default id] in Hown; last by rewrite -Hown.
    rewrite -Hown. pose proof (Hsome _ _ Hg). by destruct l.
Qed.

(** C25. Shares of the pool: of each user with an eligible session some session is protected; the
    protected sessions of each override value are a newest-first prefix of the user's eligible
    sessions with that value, billed once for a shared prefix, and stay within that value's
    fraction of the pool (or are one session), and all of the user's stay within the largest of the
    user's fractions (or are one session). *)
Theorem protected_shares sessions load policy u :
  wp_enabled policy = true →
  let own := sort_by newest_session_first (List.filter (of_user policy u) sessions) in
  let out := List.filter (λ s, bool_decide (ws_userId s = u)) (protectedWarmSessions sessions load policy) in
  let bill := billedWarmTokens (eligible_ids policy sessions) in
  let fraction := fractionFor policy (length (active_users policy sessions)) in
  (own ≠ [] → out ≠ []) ∧
  within_share load (num_max_list (map (λ s, fraction (ws_overridePercent s)) own)) out ∧
  ∀ b, within_share load (fraction b) (List.filter (in_bucket b) out) ∧
    ∃ n, List.filter (in_bucket b) out = map (billed bill) (take n (List.filter (in_bucket b) own)).
Proof.
  intros He own out bill fraction.
  assert (Hout : out = ul_protected (fold_left (protect_step load bill fraction (num_max_list (map (λ s, fraction (ws_overridePercent s)) own))) own (mkLoop scope0 [] []))).
  { rewrite /out (protected_of_user _ _ _ _ He) /own. by destruct (List.filter (of_user policy u) sessions). }
  destruct (loop_all load bill fraction (num_max_list (map (λ s, fraction (ws_overridePercent s)) own)) own) as [_ _ Hp Hus Hbs Hs].
  rewrite -Hout in Hp, Hus, Hbs, Hs. split; [done|split; [done|]]. intros b. split; first done.
  destruct (Hp b) as (n & _ & Hn & _). by exists n.
Qed.

(** ** Examples *)

Definition example_policy : WarmProtectionPolicy := mkPolicy true None 300 8000 EQUAL_SHARE None.

Definition warm_example (user id : string) (age tokens : Z) : WarmSession :=
  mkSession (js user) age tokens None false (Some (js id)) None None.

(** Two users; the first one's third session is past half the pool. *)
Definition example_sessions : list WarmSession :=
  [warm_example "ann" "a1" 3000 25000; warm_example "bob" "b1" 1000 20000; warm_example "ann" "a2" 1000 10000;
   warm_example "ann" "a3" 2000 20000; warm_example "bob" "b2" 1000 4000].

Definition example_load : CapacityLoad := mkLoad (Some 4) 1 (Some (num_of_Z 100000)) None.

Example example_protected :
  map ws_sessionId (protectedWarmSessions example_sessions example_load example_policy) = [Some (js "a2"); Some (js "a3"); Some (js "b1")].
Proof. vm_compute. done. Qed.

Lemma protected_shares_witness :
  let out := List.filter (λ s, bool_decide (ws_userId s = js "ann")) (protectedWarmSessions example_sessions example_load example_policy) in
  out ≠ [] ∧ num_le (num_of_Z (sum_tokens out)) (num_mul (num_of_Z 100000) (num_ratio 1 2)) = true.
Proof.
  intros out. destruct (protected_shares example_sessions example_load example_policy (js "ann") eq_refl) as (Hsome & Hw & _).
  split; first by (apply Hsome; vm_compute). fold out in Hw.
  destruct Hw as [Hw|[Hw|Hw]]; [exfalso; vm_compute in Hw; lia|by vm_compute in Hw|exact Hw].
Defined.

Definition example_snapshot : WarmProtectionSnapshot :=
  mkSnapshot [] [(js "cap", 1)] [(js "cap", example_sessions)].

Definition example_member (r : Z) : ProtectionMemberInput :=
  mkMember (js "m1") (js "cap") (Some 4) (Some (num_of_Z 100000)) (Some VLLM) false r.

(** The same capacity with a cut of a quarter, just observed: 75000 tokens count. *)
Definition example_cut_snapshot : WarmProtectionSnapshot :=
  mkSnapshot [(js "cap", mkKv (num_ratio 1 4) (Some 0) None (Some []) (Some 2) (Some 2))] [(js "cap", 1)] [(js "cap", example_sessions)].

(** 50000 protected tokens and a request of 40000: exactly nine tenths, still free; after the cut
    a request of 17501 is past nine tenths. *)
Lemma protected_threshold_exact_witness :
  pv_state (assess_member example_snapshot example_policy 0 (example_member 40000)) = FREE ∧
  pv_state (assess_member example_snapshot example_policy 0 (example_member 40001)) = PROTECTED ∧
  pv_state (assess_member example_cut_snapshot example_policy 0 (example_member 17500)) = FREE ∧
  pv_state (assess_member example_cut_snapshot example_policy 0 (example_member 17501)) = PROTECTED.
Proof.
  assert (Hcut : ∀ r, 0 ≤ r < 1000000 → 
    pv_state (assess_member example_cut_snapshot example_policy 0 (example_member r)) = if 9 * 75000 <? 10 * (50000 + r) then PROTECTED else FREE).
  { intros r Hr.
    set (ps := protectedWarmSessions example_sessions (mkLoad (Some 4) 1 (Some (num_of_Z 100000)) None) (member_policy example_policy (example_member r))).
    assert (Hps : sum_tokens ps = 50000) by by vm_compute.
    destruct (protected_threshold_exact example_cut_snapshot example_policy 0 (example_member r) 100000 ltac:(lia) eq_refl ltac:(done)) as (e & He & Hb & _ & Hs).
    - change (0 ≤ sum_tokens ps + Z.max 0 r < 2 ^ 53). rewrite Hps. lia.
    - rewrite (_ : effectiveKvBudgetTokens _ _ _ _ = Some (num_of_Z 75000)) in He; first by vm_compute.
      change ((100000 + 1) / 2) with 50000 in Hb. assert (e = 75000) as -> by (apply num_of_Z_inj; [lia..|congruence]). rewrite Hs.
      change (sum_tokens _ + Z.max 0 (pm_requestTokens (example_member r))) with (sum_tokens ps + Z.max 0 r). rewrite Hps (Z.max_r 0 r); first lia. done. }
  split_and!.
  - destruct (protected_threshold_exact example_snapshot example_policy 0 (example_member 40000) 100000 ltac:(lia) eq_refl ltac:(done)) as (e & _ & _ & He & Hs);
      first by vm_compute. rewrite Hs He; first by right. by vm_compute.
  - destruct (protected_threshold_exact example_snapshot example_policy 0 (example_member 40001) 100000 ltac:(lia) eq_refl ltac:(done)) as (e & _ & _ & He & Hs);
      first by vm_compute. rewrite Hs He; first by right. by vm_compute.
  - by rewrite Hcut.
  - by rewrite Hcut.
Defined.

Definition example_verdict (state : MemberProtectionState) (tokens age : Z) : ProtectionVerdict := mkVerdict state None 1 1 tokens (Some age).

Definition example_verdicts : jsmap jstr ProtectionVerdict :=
  [(js "m1", example_verdict PROTECTED 50000 1000); (js "m2", example_verdict FREE 0 0); (js "m3", example_verdict PROTECTED 10000 2000)].

Lemma protection_never_drops_witness :
  apply_protection id [js "m1"; js "m2"; js "m3"] (λ _, false) example_verdicts true = ([js "m2"; js "m3"; js "m1"], Some [js "m2"], false) ∧
  [js "m2"; js "m3"; js "m1"] ≡ₚ [js "m1"; js "m2"; js "m3"].
Proof.
  split; first by vm_compute.
  assert (Hids : NoDup (map id [js "m1"; js "m2"; js "m3"])) by (by repeat constructor; set_solver).
  destruct (protection_never_drops id (λ _, false) example_verdicts [js "m1"; js "m2"; js "m3"] true Hids) as (Hp & _). exact Hp.
Defined.

(** Rounding of a percentage: 58% of 50 slots is 29, the product rounds below it. *)
Example percent_rounds_down : num_floor_Z (num_mul (num_of_Z 50) (num_div (num_of_Z 58) (num_of_Z 100))) = 28.
Proof. by vm_compute. Qed.
