(* ===== verification/KvFeedback.v ===== *)
(** * KvFeedback: which continuations count, the resets that fence them, and the write buffer

    [apps/server/src/model-api/kv-eviction-feedback.ts]: the classification of a continuation as
    a hit or a miss, the fixed-size ledger of engine resets, and the in-memory buffer that
    writes observations at most once a second per capacity. One synchronous turn reads one clock
    value and one answer of the shutdown fence. *)
From Stdlib Require Import ssreflect SpecFloat.
From S2P Require Import Prelude JsString JsNumber JsRound KvEviction WarmProtection.

(** ** The ledger of resets *)

Definition MAX_RESET_CAPACITIES : nat := 1024.

(** [ms] and [generation] of a retained reset. *)
Record Reset : Type := mkReset { rs_ms : Z; rs_generation : Z }.

(** A time or minus infinity. *)
Definition time_max (a b : option Z) : option Z :=
  match a, b with Some x, Some y => Some (Z.max x y) | Some x, None => Some x | None, y => y end.

Record Ledger : Type := mkLedger {
  lg_resetAtByCapacity : jsmap jstr Reset;
  lg_generation : Z;
  lg_prunedThrough : Z;
  lg_prunedResetMs : option Z;
}.

Definition createKvEvictionResetLedger : Ledger := mkLedger [] 0 0 None.

Definition snapshot (l : Ledger) : Z := lg_generation l.

Inductive ResetMs : Type := reset_undefined | reset_at (ms : Z) | reset_infinity.

Definition resetMs (l : Ledger) (capacityId : jstr) (requestGeneration : Z) : ResetMs :=
  let retained := map_get capacityId (lg_resetAtByCapacity l) in
  if (requestGeneration <? lg_prunedThrough l) ||
     match retained with Some r => requestGeneration <? rs_generation r | None => false end
  then reset_infinity
  else match time_max (rs_ms <$> retained) (lg_prunedResetMs l) with Some ms => reset_at ms | None => reset_undefined end.

Definition note_one (ms : Z) (l : Ledger) (capacityId : jstr) : Ledger :=
  if bool_decide (capacityId = []) || (128 <? length capacityId)%nat then l
  else
    let previous := map_get capacityId (lg_resetAtByCapacity l) in
    let floor := match previous with Some p => Some (rs_ms p) | None => lg_prunedResetMs l end in
    let generation := lg_generation l + 1 in
    let entry := mkReset (default ms (time_max (Some ms) floor)) generation in
    let resets := map_set capacityId entry (map_delete capacityId (lg_resetAtByCapacity l)) in
    if (MAX_RESET_CAPACITIES <? length resets)%nat then
      match resets with
      | (oldest, r) :: _ =>
          mkLedger (map_delete oldest resets) generation (Z.max (lg_prunedThrough l) (rs_generation r))
            (time_max (lg_prunedResetMs l) (Some (rs_ms r)))
      | [] => mkLedger resets generation (lg_prunedThrough l) (lg_prunedResetMs l)
      end
    else mkLedger resets generation (lg_prunedThrough l) (lg_prunedResetMs l).

Definition note (capacityIds : list jstr) (now : date) (l : Ledger) : Ledger :=
  match now with None => l | Some ms => fold_left (note_one ms) capacityIds l end.

(** ** Hits and misses *)

Definition EVICTION_MISS_FRACTION : num := num_ratio 5 100.

Record Usage : Type := mkUsage { us_cacheReadTokens : option num; us_promptTokens : option num }.
Record Evidence : Type := mkEvidence { ev_tokens : num; ev_lastUsedAt : date; ev_confirmed : bool }.

Record ContinuationInput : Type := mkContinuation {
  ci_policy : WarmProtectionPolicy;
  ci_engineKind : option ProtectionEngineKind;
  ci_kvBudgetTokens : option num;
  ci_ok : bool;
  ci_usage : Usage;
  ci_evidence : option Evidence;
  ci_now : Z;
  ci_resetAtMs : ResetMs;
}.

Definition isQualifyingContinuation (i : ContinuationInput) : bool :=
  let policy := ci_policy i in
  let minTokens := num_of_Z (wp_minTokens policy) in
  wp_enabled policy && default true (wp_evictionFeedbackEnabled policy) &&
  bool_decide (is_Some (protectionKvBudgetTokens (ci_engineKind i) (ci_kvBudgetTokens i))) && ci_ok i &&
  match us_cacheReadTokens (ci_usage i) with Some c => num_finite c && num_le (num_of_Z 0) c | None => false end &&
  match us_promptTokens (ci_usage i) with Some p => num_finite p && num_le minTokens p | None => false end &&
  match ci_evidence i with
  | None => false
  | Some e =>
      num_finite (ev_tokens e) && num_le minTokens (ev_tokens e) &&
      match ev_lastUsedAt e with
      | None => false
      | Some t =>
          match ci_resetAtMs i with reset_undefined => true | reset_at ms => ms <=? t | reset_infinity => false end &&
          (Z.max 0 (ci_now i - t) <=? protectionWindowSecondsFor (wp_windowSeconds policy) (ci_engineKind i) * 1000)
      end && ev_confirmed e
  end.

Definition evictionContinuationKind (i : ContinuationInput) : option KvEvictionContinuationKind :=
  if isQualifyingContinuation i then
    match us_cacheReadTokens (ci_usage i), us_promptTokens (ci_usage i) with
    | Some cacheRead, Some prompt => Some (if num_le cacheRead (num_mul EVICTION_MISS_FRACTION prompt) then kv_miss else kv_hit)
    | _, _ => None
    end
  else None.

Definition qualifiesAsEvictionEvidence (i : ContinuationInput) : bool :=
  match evictionContinuationKind i with Some kv_miss => true | _ => false end.

(** ** The buffer *)

Definition KV_EVICTION_FLUSH_MIN_INTERVAL_MS : Z := 1000.
Definition MAX_PENDING_CAPACITIES : nat := 1024.

(** [pe_timer]: when the armed timer is due. *)
Record Pending : Type := mkPending {
  pe_ownerId : jstr;
  pe_items : list KvItem;
  pe_lastFlush : option Z;
  pe_timer : option Z;
  pe_writing : bool;
}.

(** The asynchronous part of a flush: the items still to write, and whether it passed its first check. *)
Record Flight : Type := mkFlight { fl_capacityId : jstr; fl_ownerId : jstr; fl_now : Z; fl_items : list KvItem; fl_begun : bool }.

(** [fb_flushes] and [fb_written] record the flushes and the calls of [write]. *)
Record Feedback : Type := mkFeedback {
  fb_pending : jsmap jstr Pending;
  fb_stopped : bool;
  fb_lastLog : option Z;
  fb_flights : list Flight;
  fb_flushes : list (jstr * Z);
  fb_written : list (jstr * jstr * KvItem * Z);
}.

Definition createKvEvictionFeedback : Feedback := mkFeedback [] false None [] [] [].

Definition stop_feedback (f : Feedback) : Feedback := mkFeedback [] true (fb_lastLog f) (fb_flights f) (fb_flushes f) (fb_written f).

Definition set_pending (f : Feedback) (m : jsmap jstr Pending) : Feedback :=
  mkFeedback m (fb_stopped f) (fb_lastLog f) (fb_flights f) (fb_flushes f) (fb_written f).

Definition flush_delay (entry : Pending) (clock : Z) : Z :=
  if pe_writing entry then KV_EVICTION_FLUSH_MIN_INTERVAL_MS
  else match pe_lastFlush entry with
  | Some last => Z.max 1 (KV_EVICTION_FLUSH_MIN_INTERVAL_MS - Z.max 0 (clock - last))
  | None => 1
  end.

(** [schedule] of an entry of a buffer that is not stopped. *)
Definition arm (entry : Pending) (clock : Z) : Pending :=
  match pe_timer entry with
  | Some _ => entry
  | None => mkPending (pe_ownerId entry) (pe_items entry) (pe_lastFlush entry) (Some (clock + flush_delay entry clock)) (pe_writing entry)
  end.

Definition schedule_flush (capacityId : jstr) (entry : Pending) (clock : Z) (f : Feedback) : Feedback :=
  if fb_stopped f then f else set_pending f (map_set capacityId (arm entry clock) (fb_pending f)).

Definition flush (capacityId : jstr) (entry : Pending) (clock : Z) (shutdown : bool) (f : Feedback) : Feedback :=
  if fb_stopped f || shutdown then stop_feedback f
  else
    let entry' := mkPending (pe_ownerId entry) [] (Some clock) (pe_timer entry) true in
    schedule_flush capacityId entry' clock
      (mkFeedback (fb_pending f) (fb_stopped f) (fb_lastLog f)
         (fb_flights f ++ [mkFlight capacityId (pe_ownerId entry) clock (pe_items entry) false])
         (fb_flushes f ++ [(capacityId, clock)]) (fb_written f)).

Definition clear_timer (entry : Pending) : Pending :=
  mkPending (pe_ownerId entry) (pe_items entry) (pe_lastFlush entry) None (pe_writing entry).

(** The callback of the timer of a pending entry. *)
Definition timer_fired (capacityId : jstr) (clock : Z) (shutdown : bool) (f : Feedback) : Feedback :=
  match map_get capacityId (fb_pending f) with
  | None => f
  | Some entry0 =>
      let entry := clear_timer entry0 in
      if fb_stopped f || shutdown then stop_feedback f
      else if pe_writing entry then schedule_flush capacityId entry clock f
      else match pe_items entry with
      | [] => set_pending f (map_delete capacityId (fb_pending f))
      | _ => flush capacityId entry clock shutdown f
      end
  end.

Definition since_flush (entry : Pending) (clock : Z) : bool :=
  match pe_lastFlush entry with Some last => KV_EVICTION_FLUSH_MIN_INTERVAL_MS <=? clock - last | None => true end.

Definition observe (capacityId ownerId sessionId : jstr) (kind : KvEvictionContinuationKind) (clock : Z) (shutdown : bool) (f : Feedback) : Feedback :=
  if fb_stopped f || shutdown then stop_feedback f
  else if bool_decide (capacityId = []) || (128 <? length capacityId)%nat || bool_decide (ownerId = []) || negb (usable_session sessionId) then f
  else
    let found := map_get capacityId (fb_pending f) in
    if bool_decide (found = None) && (MAX_PENDING_CAPACITIES <=? length (fb_pending f))%nat then f
    else
      let entry := default (mkPending ownerId [] None None false) found in
      if negb (bool_decide (pe_ownerId entry = ownerId)) then f
      else
        let items :=
          if negb (existsb (λ i, bool_decide (it_sessionId i = sessionId)) (pe_items entry)) &&
             (length (pe_items entry) <? KV_EVICTION_MAX_OBSERVATIONS_PER_FLUSH)%nat
          then pe_items entry ++ [mkItem sessionId kind] else pe_items entry in
        let entry' := mkPending (pe_ownerId entry) items (pe_lastFlush entry) (pe_timer entry) (pe_writing entry) in
        let f' := set_pending f (map_set capacityId entry' (fb_pending f)) in
        match items with
        | [] => f'
        | _ =>
            if negb (pe_writing entry) && since_flush entry clock then flush capacityId (clear_timer entry') clock shutdown f'
            else schedule_flush capacityId entry' clock f'
        end.

(** [finally]: the entry of the flight, if still pending, may flush again. *)
Definition end_flight (i : nat) (f : Feedback) : Feedback :=
  match fb_flights f !! i with
  | None => f
  | Some fl =>
      let pending :=
        match map_get (fl_capacityId fl) (fb_pending f) with
        | Some e => map_set (fl_capacityId fl) (mkPending (pe_ownerId e) (pe_items e) (pe_lastFlush e) (pe_timer e) false) (fb_pending f)
        | None => fb_pending f
        end in
      mkFeedback pending (fb_stopped f) (fb_lastLog f) (delete i (fb_flights f)) (fb_flushes f) (fb_written f)
  end.

Definition set_flight (f : Feedback) (i : nat) (fl : Flight) (w : list (jstr * jstr * KvItem * Z)) : Feedback :=
  mkFeedback (fb_pending f) (fb_stopped f) (fb_lastLog f) (<[i := fl]> (fb_flights f)) (fb_flushes f) (fb_written f ++ w).

(** The flight's next turn: its first check, then one write after another; [ok] is the outcome of
    the write in progress, and a failure is logged at most once a minute. *)
Definition flight_turn (i : nat) (ok : bool) (clock : Z) (shutdown : bool) (f : Feedback) : Feedback :=
  match fb_flights f !! i with
  | None => f
  | Some fl =>
      if negb (fl_begun fl) then
        if fb_stopped f || shutdown then end_flight i f
        else set_flight f i (mkFlight (fl_capacityId fl) (fl_ownerId fl) (fl_now fl) (fl_items fl) true) []
      else match fl_items fl with
      | [] => end_flight i f
      | item :: rest =>
          let w := [(fl_capacityId fl, fl_ownerId fl, item, fl_now fl)] in
          let f' := set_flight f i (mkFlight (fl_capacityId fl) (fl_ownerId fl) (fl_now fl) rest true) w in
          if ok then f'
          else
            let log := match fb_lastLog f with Some last => 60000 <=? clock - last | None => true end in
            end_flight i (mkFeedback (fb_pending f') (fb_stopped f') (if log then Some clock else fb_lastLog f') (fb_flights f') (fb_flushes f') (fb_written f'))
      end
  end.

Inductive FeedbackEvent : Type :=
| Observed (capacityId ownerId sessionId : jstr) (kind : KvEvictionContinuationKind)
| TimerFired (capacityId : jstr)
| FlightTurn (i : nat) (ok : bool)
| Stopped.

(** An event at a clock reading; a timer fires when it is due. *)
Definition feedback_step (f : Feedback) (ev : FeedbackEvent * Z * bool) : Feedback :=
  let '(e, clock, shutdown) := ev in
  match e with
  | Observed c o s k => observe c o s k clock shutdown f
  | TimerFired c =>
      match map_get c (fb_pending f) with
      | Some entry => match pe_timer entry with Some due => if due <=? clock then timer_fired c clock shutdown f else f | None => f end
      | None => f
      end
  | FlightTurn i ok => flight_turn i ok clock shutdown f
  | Stopped => stop_feedback f
  end.

Definition feedback_run (evs : list (FeedbackEvent * Z * bool)) : Feedback := fold_left feedback_step evs createKvEvictionFeedback.
