(* ===== verification/KvFeedbackSafety.v ===== *)
(** * KvFeedbackSafety: reset evidence stays fenced, and the buffer stays bounded and paced

    No continuation counts against a capacity whose engine was reset after the request began, nor
    on evidence older than a reset, however many resets the fixed-size ledger has pruned; the
    write buffer keeps its bounds, one flush in flight per capacity, and a second between flushes. *)
From Stdlib Require Import ssreflect SpecFloat.
From S2P Require Import Prelude JsString JsNumber JsRound KvEviction WarmProtection KvFeedback.

(** ** The ledger *)

(** A time or minus infinity, at most another. *)
Definition time_le (ms : Z) (t : option Z) : Prop := match t with Some x => ms ≤ x | None => False end.

Lemma time_le_max_l ms a b : time_le ms a → time_le ms (time_max a b).
Proof. destruct a, b; cbn; lia. Qed.
Lemma time_le_max_r ms a b : time_le ms b → time_le ms (time_max a b).
Proof. destruct a, b; cbn; lia. Qed.

Definition usable_capacity (c : jstr) : bool := negb (bool_decide (c = []) || (128 <? length c)%nat).

(** One reset of the past: its capacity, time and generation. *)
Definition Noted : Type := jstr * Z * Z.

(** A past reset is covered: by the entry of its capacity or by the pruned frontier. *)
Definition reset_covered (l : Ledger) (n : Noted) : Prop :=
  let '(c, ms, g) := n in
  (∃ r, map_get c (lg_resetAtByCapacity l) = Some r ∧ g ≤ rs_generation r ∧ ms ≤ rs_ms r) ∨
  (g ≤ lg_prunedThrough l ∧ time_le ms (lg_prunedResetMs l)).

Record ledger_ok (h : list Noted) (l : Ledger) : Prop := {
  lk_covered : ∀ n, In n h → reset_covered l n;
  lk_past : ∀ c ms g, In (c, ms, g) h → g ≤ lg_generation l;
  lk_entries : ∀ c r, map_get c (lg_resetAtByCapacity l) = Some r → rs_generation r ≤ lg_generation l;
  lk_size : (length (lg_resetAtByCapacity l) ≤ MAX_RESET_CAPACITIES)%nat;
}.

Lemma delete_length {K V} `{!EqDecision K} (k : K) (m : jsmap K V) : (length (map_delete k m) ≤ length m)%nat.
Proof. induction m as [|[k' v] m IH]; first done. cbn. case_decide; cbn; lia. Qed.

Lemma set_length {K V} `{!EqDecision K} (k : K) (v : V) (m : jsmap K V) : (length (map_set k v m) ≤ S (length m))%nat.
Proof. induction m as [|[k' v'] m IH]; first done. cbn. case_decide; cbn; lia. Qed.

(** The ledger before its oldest entry is pruned. *)
Definition extended (ms : Z) (l : Ledger) (c : jstr) : Ledger :=
  let floor := match map_get c (lg_resetAtByCapacity l) with Some p => Some (rs_ms p) | None => lg_prunedResetMs l end in
  mkLedger (map_set c (mkReset (default ms (time_max (Some ms) floor)) (lg_generation l + 1)) (map_delete c (lg_resetAtByCapacity l)))
    (lg_generation l + 1) (lg_prunedThrough l) (lg_prunedResetMs l).

Lemma extended_get ms l c c' :
  map_get c' (lg_resetAtByCapacity (extended ms l c)) =
  if bool_decide (c = c') then map_get c (lg_resetAtByCapacity (extended ms l c)) else map_get c' (lg_resetAtByCapacity l).
Proof.
  case_bool_decide as Hc; first by subst. rewrite /extended. cbn [lg_resetAtByCapacity]. rewrite map_get_set_ne // map_get_delete.
  case_decide; congruence.
Qed.

Lemma extended_self ms l c : ∃ r, map_get c (lg_resetAtByCapacity (extended ms l c)) = Some r ∧ rs_generation r = lg_generation l + 1 ∧ ms ≤ rs_ms r ∧
  ∀ p, map_get c (lg_resetAtByCapacity l) = Some p → rs_ms p ≤ rs_ms r.
Proof.
  rewrite /extended. cbn [lg_resetAtByCapacity]. rewrite map_get_set_eq. eexists. split; [done|split; [done|]]. cbn [rs_ms].
  destruct (map_get c (lg_resetAtByCapacity l)) as [p|] eqn:Hp.
  - cbn. split; [lia|]. intros p' [= <-]. lia.
  - destruct (lg_prunedResetMs l); cbn; split; try lia; done.
Qed.

Lemma extended_covers h ms l c n : ledger_ok h l → In n ((c, ms, lg_generation l + 1) :: h) → reset_covered (extended ms l c) n.
Proof.
  intros Hok Hn. destruct (extended_self ms l c) as (r & Hr & Hg & Hms & Hprev). destruct n as [[c' ms'] g'].
  destruct Hn as [[= <- <- <-]|Hn]; first (left; exists r; split; [done|lia]).
  destruct (lk_covered _ _ Hok _ Hn) as [(p & Hp & Hpg & Hpm)|Hpr]; last by right.
  left. rewrite extended_get. case_bool_decide as Hc; last by exists p. subst c'. exists r. split; first done.
  pose proof (Hprev _ Hp). pose proof (lk_past _ _ Hok _ _ _ Hn). lia.
Qed.

Lemma prune_covers l k r rest n : lg_resetAtByCapacity l = (k, r) :: rest →
  reset_covered l n → reset_covered (mkLedger (map_delete k (lg_resetAtByCapacity l)) (lg_generation l) (Z.max (lg_prunedThrough l) (rs_generation r)) (time_max (lg_prunedResetMs l) (Some (rs_ms r)))) n.
Proof.
  intros Hl. destruct n as [[c ms] g]. intros [(p & Hp & Hg & Hm)|[Hg Hm]].
  - cbn [reset_covered lg_resetAtByCapacity lg_prunedThrough lg_prunedResetMs]. rewrite map_get_delete. destruct (decide (k = c)) as [->|Hne].
    + right. rewrite Hl in Hp. cbn [map_get] in Hp. rewrite decide_True // in Hp. injection Hp as ->. split; [lia|by apply time_le_max_r].
    + left. exists p. done.
  - right. cbn. split; [lia|by apply time_le_max_l].
Qed.

Lemma note_one_ok h ms l c : ledger_ok h l →
  ledger_ok (if usable_capacity c then (c, ms, lg_generation l + 1) :: h else h) (note_one ms l c) ∧
  lg_generation (note_one ms l c) = lg_generation l + (if usable_capacity c then 1 else 0).
Proof.
  intros Hok. rewrite /note_one /usable_capacity. destruct (bool_decide (c = []) || _); cbn [negb]; first (split; [done|lia]).
  fold (extended ms l c). change (map_set c _ _) with (lg_resetAtByCapacity (extended ms l c)).
  assert (Hpast : ∀ c' ms' g', In (c', ms', g') ((c, ms, lg_generation l + 1) :: h) → g' ≤ lg_generation l + 1).
  { intros c' ms' g' [[= <- <- <-]|Hin]; first lia. pose proof (lk_past _ _ Hok _ _ _ Hin). lia. }
  assert (Hentries : ∀ c' r, map_get c' (lg_resetAtByCapacity (extended ms l c)) = Some r → rs_generation r ≤ lg_generation l + 1).
  { intros c' r. rewrite extended_get. case_bool_decide.
    - destruct (extended_self ms l c) as (r' & -> & Hg & _). intros [= <-]. lia.
    - intros Hr. pose proof (lk_entries _ _ Hok _ _ Hr). lia. }
  assert (Hlen : (length (lg_resetAtByCapacity (extended ms l c)) ≤ S MAX_RESET_CAPACITIES)%nat).
  { rewrite /extended. cbn [lg_resetAtByCapacity]. etransitivity; first apply set_length. apply le_n_S. etransitivity; [apply delete_length|apply Hok]. }
  destruct (Nat.ltb_spec MAX_RESET_CAPACITIES (length (lg_resetAtByCapacity (extended ms l c)))) as [Hbig|Hsmall].
  - destruct (lg_resetAtByCapacity (extended ms l c)) as [|[k r] rest] eqn:Hm; first (cbn [length] in Hbig; lia).
    split; last done. split; cbn [lg_resetAtByCapacity lg_generation lg_prunedThrough lg_prunedResetMs].
    + intros n Hn. rewrite -Hm. apply (prune_covers (extended ms l c) k r rest); [done|by eapply extended_covers].
    + exact Hpast.
    + intros c' r'. rewrite map_get_delete. case_decide; [done|apply Hentries].
    + cbn [map_delete]. rewrite decide_True //. etransitivity; first apply delete_length. cbn [length] in Hlen. lia.
  - split; last done. split; [|exact Hpast|exact Hentries|exact Hsmall]. intros n Hn. by eapply extended_covers.
Qed.

Definition note_reset (l : Ledger) (e : jstr * Z) : Ledger := note_one e.2 l e.1.

(** The calls of [note] in order, and the single resets they make. *)
Definition note_all (ns : list (list jstr * date)) (l : Ledger) : Ledger := fold_left (λ l n, note n.1 n.2 l) ns l.
Definition resets_of (ns : list (list jstr * date)) : list (jstr * Z) :=
  flat_map (λ n, match n.2 with Some ms => map (λ c, (c, ms)) n.1 | None => [] end) ns.

Lemma note_all_resets ns l : note_all ns l = fold_left note_reset (resets_of ns) l.
Proof.
  rewrite /note_all /resets_of. revert l. induction ns as [|[cs t] ns IH]; intros l; first done. cbn [fold_left flat_map fst snd].
  rewrite IH fold_left_app. f_equal. destruct t as [ms|]; last done. rewrite /note. clear.
  revert l. induction cs as [|c cs IH]; intros l; first done. cbn. apply IH.
Qed.

Lemma resets_ok evs : ∀ h l, ledger_ok h l → ∃ h',
  ledger_ok (h' ++ h) (fold_left note_reset evs l) ∧ lg_generation l ≤ lg_generation (fold_left note_reset evs l) ∧
  ∀ c ms, In (c, ms) evs → usable_capacity c = true → ∃ g, lg_generation l < g ∧ In (c, ms, g) h'.
Proof.
  induction evs as [|[c ms] evs IH]; intros h l Hok; first by exists [].
  cbn [fold_left]. destruct (note_one_ok h ms l c Hok) as [Hok' Hg].
  destruct (IH _ _ Hok') as (h' & Hok'' & Hg' & Hin). change (note_one ms l c) with (note_reset l (c, ms)) in *.
  destruct (usable_capacity c) eqn:Hu.
  - exists (h' ++ [(c, ms, lg_generation l + 1)]). rewrite -app_assoc. split; [done|split; [lia|]]. intros c' ms' [[= <- <-]|Hin'] Hu'.
    + exists (lg_generation l + 1). split; [lia|]. apply in_or_app. right. by left.
    + destruct (Hin _ _ Hin' Hu') as (g & Hlt & Hg''). exists g. split; [lia|]. apply in_or_app. by left.
  - exists h'. split; [done|split; [lia|]]. intros c' ms' [[= <- <-]|Hin'] Hu'; first congruence.
    destruct (Hin _ _ Hin' Hu') as (g & Hlt & Hg''). exists g. split; [lia|done].
Qed.

Lemma empty_ledger_ok : ledger_ok [] createKvEvictionResetLedger.
Proof. split; try done. cbn. lia. Qed.

(** What the ledger answers for a covered reset. *)
Lemma covered_answer l c ms g g' : reset_covered l (c, ms, g) →
  (g' < g → resetMs l c g' = reset_infinity) ∧
  (resetMs l c g' = reset_infinity ∨ ∃ m, resetMs l c g' = reset_at m ∧ ms ≤ m).
Proof.
  intros Hc. rewrite /resetMs. split.
  - intros Hlt. rewrite (_ : _ || _ = true) //. apply orb_true_iff. destruct Hc as [(r & -> & Hg & _)|[Hg _]]; [right; apply Z.ltb_lt; lia|left; apply Z.ltb_lt; lia].
  - case_match; first by left. right.
    assert (Ht : time_le ms (time_max (rs_ms <$> map_get c (lg_resetAtByCapacity l)) (lg_prunedResetMs l))).
    { destruct Hc as [(r & -> & _ & Hm)|[_ Hm]]; [by apply time_le_max_l|by apply time_le_max_r]. }
    destruct (time_max _ _) as [m|]; last done. by exists m.
Qed.

(** What a counted continuation proves of the ledger's answer. *)
Lemma qualifying_reset i : isQualifyingContinuation i = true →
  ∃ e t, ci_evidence i = Some e ∧ ev_lastUsedAt e = Some t ∧
  match ci_resetAtMs i with reset_undefined => True | reset_at ms => ms ≤ t | reset_infinity => False end.
Proof.
  rewrite /isQualifyingContinuation. intros H. apply andb_true_iff in H as [_ H]. destruct (ci_evidence i) as [e|]; last done.
  apply andb_true_iff in H as [[_ H]%andb_true_iff _]. destruct (ev_lastUsedAt e) as [t|] eqn:Ht; last done.
  apply andb_true_iff in H as [H _]. exists e, t. split; [done|split; [done|]]. destruct (ci_resetAtMs i); [done|lia|done].
Qed.

(** C32. A reset fences the evidence before it, forever: whatever resets were noted before and after
    a request took its snapshot, and however many of them the ledger (of at most 1024 entries) has pruned, a
    continuation counts as a hit or a miss only if its capacity was not reset since the snapshot
    and its evidence is not older than any reset of the capacity. *)
Theorem reset_fences_evidence before after capacityId i :
  let l0 := note_all before createKvEvictionResetLedger in
  let l := note_all after l0 in
  ci_resetAtMs i = resetMs l capacityId (snapshot l0) → is_Some (evictionContinuationKind i) →
  usable_capacity capacityId = true →
  (length (lg_resetAtByCapacity l) ≤ 1024)%nat ∧
  (∀ ms, ¬ In (capacityId, ms) (resets_of after)) ∧
  ∃ e t, ci_evidence i = Some e ∧ ev_lastUsedAt e = Some t ∧ ∀ ms, In (capacityId, ms) (resets_of before) → ms ≤ t.
Proof.
  intros l0 l Hr Hk Hu. rewrite /evictionContinuationKind in Hk. destruct (isQualifyingContinuation i) eqn:Hq; last by destruct Hk.
  destruct (resets_ok (resets_of before) [] _ empty_ledger_ok) as (h0 & Hok0 & _ & Hin0). rewrite -note_all_resets app_nil_r in Hok0. fold l0 in Hok0.
  destruct (resets_ok (resets_of after) _ l0 Hok0) as (h1 & Hok1 & _ & Hin1). rewrite -note_all_resets in Hok1. fold l in Hok1.
  destruct (qualifying_reset i Hq) as (e & t & He & Ht & Hlt). rewrite Hr in Hlt.
  split; [apply Hok1|split].
  - intros ms Hin. destruct (Hin1 _ _ Hin Hu) as (g & Hg & Hh).
    destruct (covered_answer l capacityId ms g (snapshot l0)) as [Hinf _]; first (apply Hok1, in_or_app; by left).
    by rewrite Hinf in Hlt.
  - exists e, t. split; [done|split; [done|]]. intros ms Hin. destruct (Hin0 _ _ Hin Hu) as (g & _ & Hh).
    destruct (covered_answer l capacityId ms g (snapshot l0)) as [_ [Hinf|(m & Hm & Hle)]]; first (apply Hok1, in_or_app; by right).
    + by rewrite Hinf in Hlt.
    + rewrite Hm in Hlt. lia.
Qed.

(** ** The buffer *)

Definition flying_capacities (f : Feedback) : list jstr := map fl_capacityId (fb_flights f).

Record pending_ok (now : Z) (flying : list jstr) (c : jstr) (e : Pending) : Prop := {
  eo_bounded : (length (pe_items e) ≤ KV_EVICTION_MAX_OBSERVATIONS_PER_FLUSH)%nat;
  eo_distinct : NoDup (map it_sessionId (pe_items e));
  eo_armed : ∃ due, pe_timer e = Some due ∧ ∀ last, pe_lastFlush e = Some last → last ≤ now ∧ last + KV_EVICTION_FLUSH_MIN_INTERVAL_MS ≤ due;
  eo_writing : pe_writing e = true ↔ c ∈ flying;
}.

(** Two flushes of one capacity, the earlier first. *)
Definition flush_spaced (a b : jstr * Z) : Prop := a.1 = b.1 → a.2 + KV_EVICTION_FLUSH_MIN_INTERVAL_MS ≤ b.2.

Record feedback_ok (now : Z) (f : Feedback) : Prop := {
  fo_size : (length (fb_pending f) ≤ MAX_PENDING_CAPACITIES)%nat;
  fo_entries : ∀ c e, map_get c (fb_pending f) = Some e → pending_ok now (flying_capacities f) c e;
  fo_flights : NoDup (flying_capacities f);
  fo_flying : fb_stopped f = false → ∀ c, c ∈ flying_capacities f → is_Some (map_get c (fb_pending f));
  fo_past : fb_stopped f = false → ∀ c t, In (c, t) (fb_flushes f) →
    (∃ e last, map_get c (fb_pending f) = Some e ∧ pe_lastFlush e = Some last ∧ t ≤ last) ∨ t + KV_EVICTION_FLUSH_MIN_INTERVAL_MS ≤ now;
  fo_spaced : ForallOrdPairs flush_spaced (fb_flushes f);
  fo_stopped : fb_stopped f = true → fb_pending f = [];
}.

Lemma feedback_later now clock f : now ≤ clock → feedback_ok now f → feedback_ok clock f.
Proof.
  intros Hle [H1 H2 H3 H4 H5 H6 H7]. split; try done.
  - intros c e He. destruct (H2 c e He) as [Hb Hd (due & Hdue & Hl) Hw]. split; try done. exists due. split; first done.
    intros last Hlast. pose proof (Hl _ Hlast). lia.
  - intros Hs c t Hin. destruct (H5 Hs c t Hin) as [H|H]; [by left|right; lia].
Qed.

Lemma stop_feedback_ok now f : feedback_ok now f → feedback_ok now (stop_feedback f).
Proof. intros H. split; cbn; try done; [lia|apply H|apply H]. Qed.

Lemma map_set_set {K V} `{!EqDecision K} (k : K) (v w : V) m : map_set k v (map_set k w m) = map_set k v m.
Proof.
  induction m as [|[k' v'] m IH]; cbn; first by rewrite decide_True.
  case_decide; cbn; [by rewrite decide_True|rewrite decide_False //; by f_equal].
Qed.

Lemma set_length_in {K V} `{!EqDecision K} (k : K) (v : V) m : is_Some (map_get k m) → length (map_set k v m) = length m.
Proof.
  induction m as [|[k' v'] m IH]; cbn; first by intros [].
  case_decide; cbn; [done|]. intros Hk. by rewrite IH.
Qed.

Lemma FOP_snoc {A} (R : A → A → Prop) l x : ForallOrdPairs R l → (∀ a, In a l → R a x) → ForallOrdPairs R (l ++ [x]).
Proof.
  intros H. induction H as [|a l Ha Hl IH]; cbn; intros Hx; first by repeat constructor.
  constructor; last by (apply IH; auto). apply Forall_app. split; [done|by constructor; auto].
Qed.

(** Replacing the entry of a capacity whose flight and flushes stand. *)
Lemma put_ok now f c e : feedback_ok now f → fb_stopped f = false →
  (is_Some (map_get c (fb_pending f)) ∨ (length (fb_pending f) < MAX_PENDING_CAPACITIES)%nat) →
  pending_ok now (flying_capacities f) c e →
  (∀ t, In (c, t) (fb_flushes f) → (∃ last, pe_lastFlush e = Some last ∧ t ≤ last) ∨ t + KV_EVICTION_FLUSH_MIN_INTERVAL_MS ≤ now) →
  feedback_ok now (set_pending f (map_set c e (fb_pending f))).
Proof.
  intros [H1 H2 H3 H4 H5 H6 H7] Hs Hroom He Ht. split; cbn [set_pending fb_pending fb_stopped fb_flushes]; try done.
  - destruct Hroom as [Hin|Hroom]; [by rewrite set_length_in|etransitivity; [apply set_length|lia]].
  - intros c' e'. rewrite map_get_set. case_decide; [by intros [= <-]; subst|apply H2].
  - intros _ c' Hc'. rewrite map_get_set. case_decide; [by eauto|by apply H4].
  - intros _ c' t Hin. rewrite map_get_set. case_decide as Hc; last by apply H5.
    subst c'. destruct (Ht t Hin) as [(last & Hl & Hle)|Hle]; [left; eauto|by right].
  - intros ?. congruence.
Qed.

Lemma arm_ok clock flying c e :
  (length (pe_items e) ≤ KV_EVICTION_MAX_OBSERVATIONS_PER_FLUSH)%nat → NoDup (map it_sessionId (pe_items e)) →
  pe_timer e = None → (∀ last, pe_lastFlush e = Some last → last ≤ clock) → (pe_writing e = true ↔ c ∈ flying) →
  pending_ok clock flying c (arm e clock).
Proof.
  intros Hb Hd Ht Hl Hw. rewrite /arm Ht. split; try done. eexists. split; first done. cbn [pe_lastFlush]. intros last Hlast.
  pose proof (Hl _ Hlast). rewrite /flush_delay Hlast. unfold KV_EVICTION_FLUSH_MIN_INTERVAL_MS in *. destruct (pe_writing e); lia.
Qed.

(** A flush of an idle entry a second after the capacity's last one. *)
Lemma flush_ok clock f c e : feedback_ok clock f → fb_stopped f = false →
  (is_Some (map_get c (fb_pending f)) ∨ (length (fb_pending f) < MAX_PENDING_CAPACITIES)%nat) →
  pe_timer e = None → c ∉ flying_capacities f →
  (∀ t, In (c, t) (fb_flushes f) → t + KV_EVICTION_FLUSH_MIN_INTERVAL_MS ≤ clock) →
  feedback_ok clock (flush c e clock false f).
Proof.
  intros Hok Hs Hroom Htimer Hidle Hpast. rewrite /flush Hs. cbn [orb].
  set (f' := mkFeedback _ _ _ _ _ _). set (e' := mkPending _ _ _ _ _). rewrite /schedule_flush (_ : fb_stopped f' = false) //.
  assert (Hfly : flying_capacities f' = flying_capacities f ++ [c]) by rewrite /flying_capacities map_app //.
  destruct Hok as [H1 H2 H3 H4 H5 H6 H7].
  assert (He' : pending_ok clock (flying_capacities f') c (arm e' clock)).
  { apply arm_ok; try done; [cbn; lia|constructor|by intros last [= <-]|]. rewrite Hfly. cbn. set_solver. }
  split; cbn [set_pending fb_pending fb_stopped fb_flushes]; try done.
  - change (fb_pending f') with (fb_pending f). destruct Hroom as [Hin|Hroom]; [by rewrite set_length_in|etransitivity; [apply set_length|lia]].
  - intros c' e0. rewrite map_get_set. case_decide as Hc; first by (intros [= <-]; subst).
    intros He0. destruct (H2 c' e0 He0) as [Hb Hd Ha Hw]. split; try done.
    change (flying_capacities (set_pending f' _)) with (flying_capacities f'). rewrite Hfly Hw. set_solver.
  - change (flying_capacities (set_pending f' _)) with (flying_capacities f'). rewrite Hfly. apply NoDup_app. split_and!; [done|set_solver|apply NoDup_singleton].
  - intros _ c' Hc'. rewrite map_get_set. case_decide; first by eauto.
    change (flying_capacities (set_pending f' _)) with (flying_capacities f') in Hc'. rewrite Hfly in Hc'. apply H4; [done|set_solver].
  - intros _ c' t Hin. cbn [f' fb_flushes] in Hin. apply in_app_or in Hin as [Hin|[[= <- <-]|[]]].
    + rewrite map_get_set. case_decide as Hc; last by apply H5. subst c'. right. by apply Hpast.
    + left. rewrite map_get_set_eq. eexists _, clock. split; [done|]. rewrite /arm /e' Htimer. done.
  - cbn [f' fb_flushes]. apply FOP_snoc; first done. intros [c' t] Hin. rewrite /flush_spaced. cbn [fst snd]. intros ->. by apply Hpast.
Qed.

Lemma flush_pending f c e clock x : flush c e clock false (set_pending f (map_set c x (fb_pending f))) = flush c e clock false f ∨ fb_stopped f = true.
Proof.
  destruct (fb_stopped f) eqn:Hs; first by right. left. rewrite /flush /schedule_flush. cbn [set_pending fb_stopped]. rewrite Hs. cbn [orb set_pending fb_stopped fb_pending].
  rewrite /set_pending. cbn. by rewrite map_set_set.
Qed.

(** The items of an entry with one more session. *)
Definition more_items (e : Pending) (s : jstr) (k : KvEvictionContinuationKind) : list KvItem :=
  if negb (existsb (λ i, bool_decide (it_sessionId i = s)) (pe_items e)) && (length (pe_items e) <? KV_EVICTION_MAX_OBSERVATIONS_PER_FLUSH)%nat
  then pe_items e ++ [mkItem s k] else pe_items e.

Lemma more_items_ok e s k : (length (pe_items e) ≤ KV_EVICTION_MAX_OBSERVATIONS_PER_FLUSH)%nat → NoDup (map it_sessionId (pe_items e)) →
  (length (more_items e s k) ≤ KV_EVICTION_MAX_OBSERVATIONS_PER_FLUSH)%nat ∧ NoDup (map it_sessionId (more_items e s k)) ∧ more_items e s k ≠ [].
Proof.
  intros Hb Hd. rewrite /more_items. destruct (existsb _ _) eqn:Hex; cbn [negb andb].
  { split; [done|split; [done|]]. intros Hn. by rewrite Hn in Hex. }
  destruct (Nat.ltb_spec (length (pe_items e)) KV_EVICTION_MAX_OBSERVATIONS_PER_FLUSH) as [Hlt|Hge].
  - rewrite length_app map_app. split; first (cbn; lia). split; last by intros []%app_eq_nil.
    apply NoDup_app. split_and!; [done| |apply NoDup_singleton]. intros x Hx Hxs%list_elem_of_singleton. subst x.
    apply not_true_iff_false in Hex. apply Hex, existsb_exists. apply list_elem_of_In, in_map_iff in Hx as (it & Hit & Hin).
    exists it. split; [done|by apply bool_decide_eq_true_2].
  - split; [done|split; [done|]]. intros Hn. rewrite Hn in Hge. cbn in Hge. unfold KV_EVICTION_MAX_OBSERVATIONS_PER_FLUSH in Hge. lia.
Qed.

(** The entry of a capacity, with one more session, back in the buffer. *)
Lemma refill_ok clock f c e items : feedback_ok clock f → fb_stopped f = false → map_get c (fb_pending f) = Some e →
  (length items ≤ KV_EVICTION_MAX_OBSERVATIONS_PER_FLUSH)%nat → NoDup (map it_sessionId items) →
  let e' := mkPending (pe_ownerId e) items (pe_lastFlush e) (pe_timer e) (pe_writing e) in
  feedback_ok clock (schedule_flush c e' clock (set_pending f (map_set c e' (fb_pending f)))).
Proof.
  intros Hok Hs He Hb Hd e'. destruct (fo_entries _ _ Hok c e He) as [_ _ (due & Hdue & Hl) Hw].
  rewrite /schedule_flush. cbn [set_pending fb_stopped fb_pending]. rewrite Hs map_set_set (_ : arm e' clock = e'); first by rewrite /arm /e' /= Hdue.
  apply (put_ok clock f c e'); try done; [by left; eauto| |].
  - split; try done. by exists due.
  - intros t Ht. destruct (fo_past _ _ Hok Hs c t Ht) as [(e0 & last & He0 & Hl0 & Hle)|Hle]; [left|by right].
    rewrite He in He0. injection He0 as <-. by exists last.
Qed.

Lemma observe_ok clock c o s k sh f : feedback_ok clock f → feedback_ok clock (observe c o s k clock sh f).
Proof.
  intros Hok. rewrite /observe. destruct (fb_stopped f) eqn:Hs; first by apply stop_feedback_ok. destruct sh; first by apply stop_feedback_ok. cbn [orb].
  case_match; first done. destruct (map_get c (fb_pending f)) as [e|] eqn:He.
  - rewrite bool_decide_eq_false_2 //. cbn [andb default id]. case_match; first done. fold (more_items e s k).
    destruct (fo_entries _ _ Hok c e He) as [Hb Hd (due & Hdue & Hl) Hw]. destruct (more_items_ok e s k Hb Hd) as (Hb' & Hd' & Hne).
    destruct (more_items e s k) as [|it l] eqn:Hit; first done. rewrite -Hit. rewrite -Hit in Hb', Hd'.
    destruct (negb (pe_writing e) && since_flush e clock) eqn:Hfl; last by apply refill_ok.
    apply andb_true_iff in Hfl as [Hwr%negb_true_iff Hsf].
    destruct (flush_pending f c (clear_timer (mkPending (pe_ownerId e) (more_items e s k) (pe_lastFlush e) (pe_timer e) (pe_writing e))) clock
      (mkPending (pe_ownerId e) (more_items e s k) (pe_lastFlush e) (pe_timer e) (pe_writing e))) as [->|]; last congruence.
    apply flush_ok; try done; [by left; eauto|by rewrite -Hw Hwr|].
    intros t Ht. destruct (fo_past _ _ Hok Hs c t Ht) as [(e0 & last & He0 & Hl0 & Hle)|Hle]; last done.
    rewrite He in He0. injection He0 as <-. rewrite /since_flush Hl0 in Hsf. lia.
  - rewrite bool_decide_eq_true_2 //. cbn [andb]. destruct (Nat.leb_spec MAX_PENDING_CAPACITIES (length (fb_pending f))) as [|Hroom]; first done.
    cbn [default id pe_ownerId]. rewrite bool_decide_eq_true_2 //. cbn [negb pe_items existsb length andb pe_writing pe_lastFlush pe_timer app since_flush].
    rewrite (_ : (0 <? KV_EVICTION_MAX_OBSERVATIONS_PER_FLUSH)%nat = true) //. cbn [since_flush pe_lastFlush].
    destruct (flush_pending f c (clear_timer (mkPending o [mkItem s k] None None false)) clock (mkPending o [mkItem s k] None None false)) as [->|]; last congruence.
    apply flush_ok; try done; [by right| |].
    + intros Hin. destruct (fo_flying _ _ Hok Hs c Hin) as [e He']. congruence.
    + intros t Ht. destruct (fo_past _ _ Hok Hs c t Ht) as [(e0 & last & He0 & _)|Hle]; [congruence|done].
Qed.

Lemma timer_ok clock c e due sh f : feedback_ok clock f → map_get c (fb_pending f) = Some e → pe_timer e = Some due → due ≤ clock →
  feedback_ok clock (timer_fired c clock sh f).
Proof.
  intros Hok He Hdue Hle. rewrite /timer_fired He. destruct (fb_stopped f) eqn:Hs; first by apply stop_feedback_ok. destruct sh; first by apply stop_feedback_ok. cbn [orb].
  destruct (fo_entries _ _ Hok c e He) as [Hb Hd (due' & Hdue' & Hl) Hw]. rewrite Hdue in Hdue'. injection Hdue' as <-.
  assert (Hpast : ∀ t, In (c, t) (fb_flushes f) → t + KV_EVICTION_FLUSH_MIN_INTERVAL_MS ≤ clock).
  { intros t Ht. destruct (fo_past _ _ Hok Hs c t Ht) as [(e0 & last & He0 & Hl0 & Hle0)|Hle0]; last done.
    rewrite He in He0. injection He0 as <-. pose proof (Hl _ Hl0). lia. }
  cbn [clear_timer pe_writing pe_items]. destruct (pe_writing e) eqn:Hwr; [|destruct (pe_items e) as [|it l] eqn:Hit].
  - rewrite /schedule_flush Hs. apply put_ok; try done; [by left; eauto| |by intros t Ht; right; auto].
    apply arm_ok; try done; [|by cbn; rewrite Hwr Hw]. intros last Hlast. by apply Hl.
  - destruct Hok as [H1 H2 H3 H4 H5 H6 H7]. split; cbn [set_pending fb_pending fb_stopped fb_flushes]; try done.
    + etransitivity; [apply delete_length|done].
    + intros c' e'. rewrite map_get_delete. case_decide; [done|apply H2].
    + intros _ c' Hc'. rewrite map_get_delete. case_decide; last by apply H4. subst c'. apply Hw in Hc'. done.
    + intros _ c' t Hin. rewrite map_get_delete. case_decide; last by apply H5. subst c'. right. by apply Hpast.
    + intros ?. congruence.
  - apply flush_ok; try done; [by left; eauto|by rewrite -Hw].
Qed.

Lemma delete_fmap {A B} (g : A → B) i (l : list A) : map g (delete i l) = delete i (map g l).
Proof. revert i. induction l as [|a l IH]; intros [|i]; cbn; try done. by rewrite IH. Qed.

Lemma NoDup_delete {A} `{!EqDecision A} i (l : list A) x : NoDup l → l !! i = Some x → NoDup (delete i l) ∧ x ∉ delete i l ∧ ∀ y, y ≠ x → y ∈ delete i l ↔ y ∈ l.
Proof.
  revert i. induction l as [|a l IH]; intros [|i] Hnd Hi; try done; apply NoDup_cons in Hnd as [Ha Hnd]; cbn in *.
  - injection Hi as ->. split; [done|split; [done|]]. intros y Hy. set_solver.
  - destruct (IH i Hnd Hi) as (H1 & H2 & H3). split; [|split].
    + constructor; last done. intros Hin. destruct (decide (a = x)) as [->|Hne]; [done|]. apply Ha. by apply (H3 a Hne).
    + assert (x ∈ l) by by eapply list_elem_of_lookup_2. set_solver.
    + intros y Hy. specialize (H3 y Hy). set_solver.
Qed.

Lemma end_flight_ok now i f : feedback_ok now f → feedback_ok now (end_flight i f).
Proof.
  intros Hok. rewrite /end_flight. destruct (fb_flights f !! i) as [fl|] eqn:Hfl; last done.
  destruct Hok as [H1 H2 H3 H4 H5 H6 H7].
  assert (Hi : flying_capacities f !! i = Some (fl_capacityId fl)).
  { rewrite /flying_capacities. by rewrite list_lookup_fmap Hfl. }
  destruct (NoDup_delete i (flying_capacities f) (fl_capacityId fl) H3 Hi) as (Hnd & Hout & Hiff).
  set (c := fl_capacityId fl) in *. set (m := match map_get c _ with Some _ => _ | None => _ end).
  assert (Hm : ∀ c', map_get c' m = (λ e, if bool_decide (c = c') then mkPending (pe_ownerId e) (pe_items e) (pe_lastFlush e) (pe_timer e) false else e) <$> map_get c' (fb_pending f)).
  { intros c'. unfold m. destruct (map_get c (fb_pending f)) as [e|] eqn:He.
    - rewrite map_get_set. case_decide as Hc; [subst c'; rewrite He bool_decide_eq_true_2 //|]. rewrite bool_decide_eq_false_2 //. by destruct (map_get c' _).
    - case_bool_decide as Hc; [by subst c'; rewrite He|by destruct (map_get c' _)]. }
  assert (Hlen : length m = length (fb_pending f)).
  { unfold m. destruct (map_get c (fb_pending f)) as [e|] eqn:He; [apply set_length_in; eauto|done]. }
  assert (Hfly : flying_capacities (mkFeedback m (fb_stopped f) (fb_lastLog f) (delete i (fb_flights f)) (fb_flushes f) (fb_written f)) = delete i (flying_capacities f)) by apply delete_fmap.
  split; rewrite ?Hfly; cbn [fb_pending fb_stopped fb_flushes]; try done.
  - by rewrite Hlen.
  - intros c' e'. rewrite Hm. destruct (map_get c' (fb_pending f)) as [e|] eqn:He; last done. cbn. intros [= <-].
    destruct (H2 c' e He) as [Hb Hd Ha Hw]. case_bool_decide as Hc; split; try done; cbn [pe_writing].
    + subst c'. done.
    + rewrite Hw Hiff //.
  - intros Hs c' Hc'. rewrite Hm. assert (Hin : c' ∈ flying_capacities f).
    { destruct (decide (c' = c)) as [->|Hne]; [done|by apply Hiff]. }
    destruct (H4 Hs c' Hin) as [e ->]. eauto.
  - intros Hs c' t Ht. destruct (H5 Hs c' t Ht) as [(e & last & He & Hl & Hle)|Hle]; [left|by right].
    rewrite Hm He. cbn. eexists _, last. split; [done|]. by case_bool_decide.
  - intros Hs. unfold m. by rewrite (H7 Hs).
Qed.

Lemma set_flight_ok now f i fl fl' w : feedback_ok now f → fb_flights f !! i = Some fl → fl_capacityId fl' = fl_capacityId fl →
  feedback_ok now (set_flight f i fl' w).
Proof.
  intros [H1 H2 H3 H4 H5 H6 H7] Hfl Hc.
  assert (Hfly : flying_capacities (set_flight f i fl' w) = flying_capacities f).
  { rewrite /flying_capacities /set_flight. cbn [fb_flights]. change (map fl_capacityId) with (fmap (M:=list) fl_capacityId).
    rewrite list_fmap_insert Hc list_insert_id // list_lookup_fmap Hfl //. }
  split; rewrite ?Hfly //.
Qed.

Lemma log_ok now f l : feedback_ok now f → feedback_ok now (mkFeedback (fb_pending f) (fb_stopped f) l (fb_flights f) (fb_flushes f) (fb_written f)).
Proof. by intros []; split. Qed.

Lemma feedback_step_ok now f e clock sh : feedback_ok now f → now ≤ clock → feedback_ok clock (feedback_step f (e, clock, sh)).
Proof.
  intros Hok Hle. apply (feedback_later _ clock) in Hok; last done. destruct e as [c o s k|c|i ok|]; cbn [feedback_step].
  - by apply observe_ok.
  - destruct (map_get c (fb_pending f)) as [e|] eqn:He; last done. destruct (pe_timer e) as [due|] eqn:Hd; last done.
    destruct (Z.leb_spec due clock); [by eapply timer_ok|done].
  - rewrite /flight_turn. destruct (fb_flights f !! i) as [fl|] eqn:Hfl; last done.
    destruct (fl_begun fl); cbn [negb].
    + destruct (fl_items fl); first by apply end_flight_ok. destruct ok; first by eapply set_flight_ok.
      apply end_flight_ok, log_ok. by eapply set_flight_ok.
    + destruct (fb_stopped f || sh); first by apply end_flight_ok. by eapply set_flight_ok.
  - by apply stop_feedback_ok.
Qed.

(** The clock of the events never goes back. *)
Fixpoint clock_ordered (t : Z) (evs : list (FeedbackEvent * Z * bool)) : Prop :=
  match evs with [] => True | e :: rest => t ≤ e.1.2 ∧ clock_ordered e.1.2 rest end.

Lemma feedback_run_ok evs : ∀ t f, feedback_ok t f → clock_ordered t evs → ∃ t', feedback_ok t' (fold_left feedback_step evs f).
Proof.
  induction evs as [|[[e clock] sh] evs IH]; intros t f Hok Hc; first by exists t.
  destruct Hc as [Hle Hc]. apply (IH clock); last done. by eapply feedback_step_ok.
Qed.

Lemma feedback_init_ok t : feedback_ok t createKvEvictionFeedback.
Proof. split; try done; [cbn; lia|apply NoDup_nil_2|set_solver|constructor]. Qed.

(** C?. The feedback buffer is bounded and paced: after any events whose clock does not go back, it
    holds at most 1024 capacities with at most ten distinct sessions each, every capacity has an
    armed timer, at most one flush is in flight per capacity, two flushes of a capacity
    are at least a second apart, and a stopped buffer holds nothing. *)
Theorem feedback_bounded_and_paced t evs (f := feedback_run evs) :
  clock_ordered t evs →
  (length (fb_pending f) ≤ 1024)%nat ∧
  (∀ c e, map_get c (fb_pending f) = Some e →
    (length (pe_items e) ≤ 10)%nat ∧ NoDup (map it_sessionId (pe_items e)) ∧ is_Some (pe_timer e)) ∧
  NoDup (map fl_capacityId (fb_flights f)) ∧
  (∀ i j c t1 t2, (i < j)%nat → fb_flushes f !! i = Some (c, t1) → fb_flushes f !! j = Some (c, t2) → t1 + 1000 ≤ t2) ∧
  (fb_stopped f = true → fb_pending f = []).
Proof.
  intros Hc. destruct (feedback_run_ok evs t _ (feedback_init_ok t) Hc) as [t' [H1 H2 H3 _ _ H6 H7]].
  split; [done|split; [|split; [done|split; [|done]]]].
  - intros c e He. destruct (H2 c e He) as [Hb Hd (due & Hdue & _) _]. eauto.
  - fold (feedback_run evs) in H6. fold f in H6. clear -H6. induction H6 as [|a l Ha Hl IH]; first by intros [].
    intros [|i] [|j] c t1 t2 Hij Hi Hj; try lia; cbn in Hi, Hj.
    + injection Hi as ->. rewrite Forall_forall in Ha. apply (Ha (c, t2)); last done. by eapply list_elem_of_lookup_2.
    + apply (IH i j c t1 t2); [lia|done|done].
Qed.

(** ** Examples *)

(** A session observed three times in two seconds on one capacity: two flushes. *)
Definition buffer_events : list (FeedbackEvent * Z * bool) :=
  [(Observed (js "cap") (js "owner") (js "s1") kv_miss, 0, false);
   (Observed (js "cap") (js "owner") (js "s2") kv_hit, 200, false);
   (FlightTurn 0 true, 210, false); (FlightTurn 0 true, 220, false); (FlightTurn 0 true, 230, false);
   (TimerFired (js "cap"), 1000, false)].

Example buffer_flushes : fb_flushes (feedback_run buffer_events) = [(js "cap", 0); (js "cap", 1000)].
Proof. vm_compute. done. Qed.

Lemma feedback_bounded_and_paced_witness : clock_ordered 0 buffer_events ∧ NoDup (map fl_capacityId (fb_flights (feedback_run buffer_events))).
Proof.
  assert (Hc : clock_ordered 0 buffer_events) by (cbn; lia). split; first exact Hc.
  exact (proj1 (proj2 (proj2 (feedback_bounded_and_paced 0 buffer_events Hc)))).
Defined.

(** A miss on a capacity reset before the evidence. *)
Definition reset_input : ContinuationInput :=
  mkContinuation (mkPolicy true None 300 1000 EQUAL_SHARE None) (Some VLLM) (Some (num_of_Z 100000)) true
    (mkUsage (Some (num_of_Z 0)) (Some (num_of_Z 20000))) (Some (mkEvidence (num_of_Z 20000) (Some 60000) true)) 90000
    (resetMs (note [js "other"] (Some 80000) (note [js "cap"] (Some 50000) createKvEvictionResetLedger)) (js "cap") 1).

Lemma reset_fences_evidence_witness : evictionContinuationKind reset_input = Some kv_miss ∧
  ∃ e t, ci_evidence reset_input = Some e ∧ ev_lastUsedAt e = Some t ∧ 50000 ≤ t.
Proof.
  split; first by vm_compute.
  destruct (reset_fences_evidence [([js "cap"], Some 50000)] [([js "other"], Some 80000)] (js "cap") reset_input) as (_ & _ & e & t & He & Ht & Hall).
  - reflexivity.
  - vm_compute; eauto.
  - reflexivity.
  - exists e, t. split; [done|split; [done|]]. apply Hall. by left.
Defined.
