(* ===== verification/Fences.v ===== *)
(** * Fences: the global lock order of transactions

    [packages/db/src/capacity-lock-order.ts] ([fence], [fences], [acquireFences],
    [requireOwnerFences], [fenceCapacityAdmission]) and the database function it calls,
    [wsmp_acquire_fences] ([packages/db/prisma/schema-hardening.sql]): advisory locks named
    [LL:kind:id], taken in ascending order and before the first row of a transaction. Fence names
    are byte strings (ids are ASCII, where the order of [sort()] and of the collation "C" agree);
    the hash of a name is a parameter of
    the lock key.

    Any number of transactions run, one step at a time: a call that takes fences, one iteration
    of its loop, a row lock, the end. The wait-for graph has an edge for a fence and for a row. *)
From Stdlib Require Import ssreflect Ascii.
From S2P Require Import Prelude.

(** ** Names *)

Definition name_compare (a b : string) : Z := code_units_compare (code_units a) (code_units b).
Definition name_lt (a b : string) : bool := name_compare a b <? 0.

Fixpoint has_char (c : Ascii.ascii) (s : string) : bool :=
  match s with EmptyString => false | String d s' => bool_decide (c = d) || has_char c s' end.

(** [fence]: [None] when it throws. *)
Definition fence (level kind id : string) : option string :=
  if bool_decide (id = EmptyString) || has_char ","%char id then None else Some (level +:+ ":" +:+ kind +:+ ":" +:+ id)%string.

Inductive FenceName : Type :=
| owner_fence (userId : string)
| admissionAttempt (attemptId : string)
| spendAttempt (attemptId : string)
| targetIdentity (identity : string)
| spendCap (capId : string)
| spendAccount (providerAccountId : string)
| spendShare (shareId : string)
| pricing (userId providerModelId : string)
| capacityPolicy (executionTargetId : string)
| concurrencyScope (scope scopeId : string)
| capacity_fence (capacityId : string)
| cacheAffinity (ownerUserId poolId : string).

Definition fences (f : FenceName) : option string :=
  match f with
  | owner_fence u => fence "00" "owner" u
  | admissionAttempt a => fence "01" "admission-attempt" a
  | spendAttempt a => fence "01" "spend-attempt" a
  | targetIdentity i => fence "02" "execution-target" i
  | spendCap c => fence "04" "spend-cap" c
  | spendAccount p => fence "04" "spend-account" p
  | spendShare s => fence "04" "spend-share" s
  | pricing u m => fence "05" "provider-pricing" (u +:+ ":" +:+ m)
  | capacityPolicy t => fence "06" "capacity-policy" t
  | concurrencyScope s i => fence "07" "concurrency" (s +:+ ":" +:+ i)
  | capacity_fence c => fence "08" "capacity" c
  | cacheAffinity o p => fence "09" "cache-affinity" (o +:+ ":" +:+ p)
  end.

(** ['^[0-9]{2}:[a-z][a-z-]*:[^,]+$'] *)
Definition ascii_in (lo hi : Z) (c : Ascii.ascii) : bool := let n := Z.of_nat (Ascii.nat_of_ascii c) in (lo <=? n) && (n <=? hi).
Definition is_dec (c : Ascii.ascii) : bool := ascii_in 48 57 c.
Definition is_low (c : Ascii.ascii) : bool := ascii_in 97 122 c.

Definition id_part (s : string) : bool := negb (bool_decide (s = EmptyString)) && negb (has_char ","%char s).

(** The rest of the kind, its colon and the id. *)
Fixpoint kind_rest (s : string) : bool :=
  match s with
  | EmptyString => false
  | String c s' => if bool_decide (c = ":"%char) then id_part s' else (is_low c || bool_decide (c = "-"%char)) && kind_rest s'
  end.

Definition well_formed (f : string) : bool :=
  match f with
  | String a (String b (String c (String k rest))) => is_dec a && is_dec b && bool_decide (c = ":"%char) && is_low k && kind_rest rest
  | _ => false
  end.

(** [new Set] *)
Definition distinct_names (l : list string) : list string := fold_left (λ acc x, if bool_decide (x ∈ acc) then acc else acc ++ [x]) l [].

(** [[...new Set(requested)].sort()] *)
Definition ordered_fences (requested : list string) : list string := sort_by name_compare (distinct_names requested).

(** [hashtextextended(substr(fence, 4), 0)] *)
Definition lock_key (hashtextextended : string → Z) (f : string) : Z := hashtextextended (String.substring 3 (String.length f - 3) f).

(** ** Transactions *)

Inductive FenceRefusal : Type := WMPF1 | WMPF2 | WMPF3.

Record FenceCall : Type := mkCall { fc_rest : list string; fc_wait : bool }.

(** How a transaction's last call ended. *)
Inductive CallAnswer : Type := no_call | took_all | found_busy | refused (r : FenceRefusal).

(** [tx_held], [tx_last]: the settings [wsmp.fences] and [wsmp.fence_last]; [tx_xid]: an assigned
    transaction id. A refused call or an end gives everything back. *)
Record FenceTx : Type := mkTx {
  tx_held : list string;
  tx_last : option string;
  tx_xid : bool;
  tx_rows : list string;
  tx_call : option FenceCall;
  tx_rowWait : option string;
  tx_answer : CallAnswer;
}.

Definition fresh_tx : FenceTx := mkTx [] None false [] None None no_call.

Definition with_call (t : FenceTx) (c : option FenceCall) (a : CallAnswer) : FenceTx :=
  mkTx (tx_held t) (tx_last t) (tx_xid t) (tx_rows t) c (tx_rowWait t) a.

Section Run.
Context (key : string → Z).

Definition FenceWorld : Type := list FenceTx.

(** Whether another transaction holds the advisory lock of the name. *)
Definition holds_key (f : string) (t : FenceTx) : bool := existsb (λ g, key g =? key f) (tx_held t).

Fixpoint others_from (i k : nat) (p : FenceTx → bool) (w : FenceWorld) : bool :=
  match w with
  | [] => false
  | t :: rest => (negb (i =? k)%nat && p t) || others_from i (S k) p rest
  end.

(** Some transaction other than [i] satisfies [p]. *)
Definition another (i : nat) (p : FenceTx → bool) (w : FenceWorld) : bool := others_from i 0 p w.

Definition busy (i : nat) (f : string) (w : FenceWorld) : bool := another i (holds_key f) w.

(** The start of [acquireFences]. *)
Definition request_fences (requested : list string) (wait : bool) (t : FenceTx) : FenceTx :=
  match ordered_fences requested with
  | [] => with_call t None took_all
  | l => if tx_xid t then with_call fresh_tx None (refused WMPF1) else with_call t (Some (mkCall l wait)) no_call
  end.

(** One iteration of the loop of [wsmp_acquire_fences]; a busy fence of a waiting call stands. *)
Definition acquire_next (i : nat) (w : FenceWorld) (t : FenceTx) : FenceTx :=
  match tx_call t with
  | None => t
  | Some c =>
      match fc_rest c with
      | [] => with_call t None took_all
      | f :: rest =>
          if negb (well_formed f) then with_call fresh_tx None (refused WMPF3)
          else if bool_decide (f ∈ tx_held t) then with_call t (Some (mkCall rest (fc_wait c))) no_call
          else if match tx_last t with Some l => negb (name_lt l f) | None => false end then with_call fresh_tx None (refused WMPF2)
          else if busy i f w then (if fc_wait c then t else with_call t None found_busy)
          else mkTx (tx_held t ++ [f]) (Some f) (tx_xid t) (tx_rows t) (Some (mkCall rest (fc_wait c))) (tx_rowWait t) no_call
      end
  end.

Definition row_busy (i : nat) (r : string) (w : FenceWorld) : bool := another i (λ t, bool_decide (r ∈ tx_rows t)) w.

(** A row lock or write: it assigns the transaction id, and waits for the row. *)
Definition lock_row (i : nat) (r : string) (w : FenceWorld) (t : FenceTx) : FenceTx :=
  if row_busy i r w then mkTx (tx_held t) (tx_last t) true (tx_rows t) None (Some r) (tx_answer t)
  else mkTx (tx_held t) (tx_last t) true (r :: tx_rows t) None None (tx_answer t).

Inductive Action : Type :=
| Request (requested : list string) (wait : bool)
| Advance
| LockRow (row : string)
| EndTx.

(** A transaction runs one statement at a time. *)
Definition tx_idle (t : FenceTx) : bool := bool_decide (tx_rowWait t = None) && match tx_call t with None => true | Some _ => false end.

Definition act (i : nat) (a : Action) (w : FenceWorld) (t : FenceTx) : FenceTx :=
  match a with
  | Request l wait => if tx_idle t then request_fences l wait t else t
  | Advance =>
      match tx_rowWait t with
      | Some r => lock_row i r w t
      | None => acquire_next i w t
      end
  | LockRow r => if tx_idle t then lock_row i r w t else t
  | EndTx => if tx_idle t then fresh_tx else t
  end.

Definition world_step (w : FenceWorld) (e : nat * Action) : FenceWorld :=
  match w !! e.1 with Some t => <[e.1 := act e.1 e.2 w t]> w | None => w end.

Definition world_run (n : nat) (es : list (nat * Action)) : FenceWorld := fold_left world_step es (repeat fresh_tx n).
End Run.

(** ** The owners' fences and the admission's *)

Inductive OwnerFences : Type := owners_fenced | MissingOwnerFence (userIds : list string) | owner_id_throws.

(** [held]: the names of [wsmp.fences]; ["*"] is the wildcard of the test fixtures. *)
Definition requireOwnerFences (held userIds : list string) : OwnerFences :=
  let wanted := distinct_names userIds in
  if bool_decide ("*"%string ∈ held) then owners_fenced
  else if existsb (λ u, match fences (owner_fence u) with Some _ => false | None => true end) wanted then owner_id_throws
  else
    match List.filter (λ u, match fences (owner_fence u) with Some f => negb (bool_decide (f ∈ held)) | None => true end) wanted with
    | [] => owners_fenced
    | missing => MissingOwnerFence missing
    end.

(** [fenceOwners]: the names it asks for; [None] when a constructor throws. *)
Definition fenceOwners (userIds : list string) : option (list string) := mapM (λ u, fences (owner_fence u)) (distinct_names userIds).

(** [scopeFence] of the waiters [readScopes] returns, and the scope fences held. *)
Definition scope_fences (waiters : list (string * string)) : option (list string) := mapM (λ w, fences (concurrencyScope w.1 w.2)) waiters.

(** The one ascending call of [fenceCapacityAdmission]. *)
Definition admission_request (heldScopes capacityIds : list string) : option (list string) :=
  option_map (app heldScopes) (mapM (λ c, fences (capacity_fence c)) capacityIds).

Inductive AdmissionFences : Type := fences_held | fences_busy | FenceSetChanged | admission_id_throws.

(** [fenceCapacityAdmission]: [before] and [after] what the two reads return (both empty without
    capacities), [acquire] the answer of [acquireFences]. *)
Definition fenceCapacityAdmission (before after : list (string * string)) (capacityIds additional : list string) (acquire : list string → bool) (wait : bool) : AdmissionFences :=
  match scope_fences before with
  | None => admission_id_throws
  | Some scopes =>
      let heldScopes := distinct_names (scopes ++ additional) in
      match admission_request heldScopes capacityIds with
      | None => admission_id_throws
      | Some requested =>
          if negb (acquire requested) then fences_busy
          else match scope_fences after with
          | None => admission_id_throws
          | Some now => if existsb (λ f, negb (bool_decide (f ∈ heldScopes))) now then (if wait then FenceSetChanged else fences_busy) else fences_held
          end
      end
  end.
