(* ===== verification/FencesSafety.v ===== *)
(** * FencesSafety: no wait for a fence is part of a deadlock

    The wait-for graph over every reachable state of any number of transactions: a transaction
    waiting for a fence holds no row and only lower fences, one that holds a row asks for no
    fence; so no cycle passes through a fence wait, and every chain of fence waits ends in a
    transaction that can go on or waits for a row. *)
From Stdlib Require Import ssreflect.
From stdpp Require Import relations.
From S2P Require Import Prelude Fences.

(** ** The order of names *)

#[export] Instance name_order : CmpOrder name_compare.
Proof. apply (cmp_order_contramap code_units code_units_compare _). Qed.

Lemma name_lt_trans a b c : name_lt a b = true → name_lt b c = true → name_lt a c = true.
Proof. rewrite /name_lt !Z.ltb_lt. intros H1 H2. apply (cmp_lt_le_trans name_compare a b c); [done|lia]. Qed.

Lemma name_lt_irrefl a : name_lt a a = false.
Proof. rewrite /name_lt. pose proof (cmp_antisym (cmp:=name_compare) a a). apply Z.ltb_ge. lia. Qed.

Lemma fence_shape level kind id n : fence level kind id = Some n → id_part id = true ∧ n = (level +:+ ":" +:+ kind +:+ ":" +:+ id)%string.
Proof.
  rewrite /fence /id_part. destruct (bool_decide (id = "")), (has_char _ id); cbn [orb negb andb]; try done. by intros [= <-].
Qed.

(** Every constructed fence has the form the database accepts. *)
Lemma fence_well_formed f n : fences f = Some n → well_formed n = true.
Proof.
  destruct f; cbn [fences]; intros [Hp ->]%fence_shape; match goal with Hp : id_part ?x = true |- _ => revert Hp; generalize x end;
    intros x Hp; cbn -[id_part]; exact Hp.
Qed.

(** ** The state of a transaction *)

Section Deadlock.
Context (key : string → Z).

Record tx_ok (t : FenceTx) : Prop := {
  to_call : ∀ c, tx_call t = Some c → tx_xid t = false ∧ tx_rowWait t = None;
  to_rows : tx_xid t = false → tx_rows t = [] ∧ tx_rowWait t = None;
  to_last : ∀ f, In f (tx_held t) → ∃ l, tx_last t = Some l ∧ (f = l ∨ name_lt f l = true);
}.

Lemma fresh_ok a : tx_ok (with_call fresh_tx None a).
Proof. by split. Qed.

Lemma request_fences_ok l wait t : tx_ok t → tx_idle t = true → tx_ok (request_fences l wait t).
Proof.
  intros [H1 H2 H3] Hidle. rewrite /request_fences. destruct (ordered_fences l); first by split.
  destruct (tx_xid t) eqn:Hx; first apply fresh_ok. split; cbn; rewrite ?Hx //. intros c _. split; [done|by apply H2].
Qed.

Lemma acquire_ok i w t : tx_ok t → tx_ok (acquire_next key i w t).
Proof.
  intros [H1 H2 H3]. rewrite /acquire_next. destruct (tx_call t) as [c|] eqn:Hc; last by split; rewrite ?Hc.
  destruct (H1 c eq_refl) as [Hx Hr]. destruct (fc_rest c) as [|f rest]; first by split.
  destruct (well_formed f); last apply fresh_ok. cbn [negb]. case_bool_decide; first by split.
  assert (Hstay : tx_ok (if fc_wait c then t else with_call t None found_busy)).
  { destruct (fc_wait c); split; rewrite ?Hc //. }
  assert (Htake : match tx_last t with Some l => name_lt l f = true | None => True end →
    tx_ok (mkTx (tx_held t ++ [f]) (Some f) (tx_xid t) (tx_rows t) (Some (mkCall rest (fc_wait c))) (tx_rowWait t) no_call)).
  { intros Hl. split; cbn; [by intros _ _|done|]. intros g Hg. exists f. split; first done.
    apply in_app_or in Hg as [Hg|[<-|[]]]; last by left. right. destruct (H3 g Hg) as (l' & Hl' & [->|Hgl]); rewrite Hl' in Hl; [done|by eapply name_lt_trans]. }
  destruct (tx_last t) as [l|]; [destruct (name_lt l f) eqn:Hlt; cbn [negb]; last apply fresh_ok|].
  all: destruct (busy key i f w); [done|by apply Htake].
Qed.

Lemma lock_row_ok i r w t : tx_ok t → tx_ok (lock_row i r w t).
Proof. intros [H1 H2 H3]. rewrite /lock_row. case_match; split; try done; apply H3. Qed.

Lemma act_ok i a w t : tx_ok t → tx_ok (act key i a w t).
Proof.
  intros Ht. destruct a as [l wait| |r|]; cbn [act].
  - case_match eqn:Hi; [by apply request_fences_ok|done].
  - destruct (tx_rowWait t); [by apply lock_row_ok|by apply acquire_ok].
  - case_match; [by apply lock_row_ok|done].
  - case_match; [by apply (fresh_ok no_call)|done].
Qed.

Definition fence_world_ok (w : FenceWorld) : Prop := ∀ i t, w !! i = Some t → tx_ok t.

Lemma step_world_ok w e : fence_world_ok w → fence_world_ok (world_step key w e).
Proof.
  intros Hw. rewrite /world_step. destruct (w !! e.1) as [t|] eqn:Ht; last done. intros i t' Hi.
  apply list_lookup_insert_Some in Hi as [(<- & <- & _)|[_ Hi]]; [apply act_ok|]; by eapply Hw.
Qed.

(** ** Waiting *)

(** [i] waits for a fence [f] that [j] holds. *)
Definition waits_fence (w : FenceWorld) (i : nat) (f : string) (j : nat) : Prop :=
  ∃ t c rest u, w !! i = Some t ∧ tx_call t = Some c ∧ fc_rest c = f :: rest ∧ fc_wait c = true ∧
    f ∉ tx_held t ∧ match tx_last t with Some l => name_lt l f = true | None => True end ∧
    w !! j = Some u ∧ j ≠ i ∧ holds_key key f u = true.

(** [i] waits for a row that [j] has locked. *)
Definition waits_row (w : FenceWorld) (i j : nat) : Prop :=
  ∃ t u r, w !! i = Some t ∧ tx_rowWait t = Some r ∧ w !! j = Some u ∧ j ≠ i ∧ r ∈ tx_rows u.

Definition waits_for (w : FenceWorld) (i j : nat) : Prop := (∃ f, waits_fence w i f j) ∨ waits_row w i j.

(** A transaction that waits for a fence. *)
Definition fence_waiter (w : FenceWorld) (i : nat) : Prop := ∃ f j, waits_fence w i f j.

(** The names of this state hash apart. *)
Definition names (t : FenceTx) : list string := tx_held t ++ match tx_call t with Some c => fc_rest c | None => [] end.
Definition collision_free (w : FenceWorld) : Prop :=
  ∀ i j t u f g, w !! i = Some t → w !! j = Some u → f ∈ names t → g ∈ names u → key f = key g → f = g.

Section Chains.
Context (w : FenceWorld) (Hw : fence_world_ok w) (Hcf : collision_free w).

(** A fence a transaction waits for is above all it holds, so waits rise along a chain. *)
Lemma wait_rises i f j g k : waits_fence w i f j → waits_fence w j g k → name_lt f g = true.
Proof.
  intros (t & c & rest & u & Hi & Hc & Hr & _ & _ & _ & Hj & Hne & Hk) (u' & c' & rest' & v & Hj' & Hc' & Hr' & _ & _ & Hl' & _).
  rewrite Hj in Hj'. injection Hj' as <-. apply existsb_exists in Hk as (f' & Hf' & Heq%Z.eqb_eq).
  assert (f' = f) as ->.
  { eapply (Hcf j i u t); try done; rewrite /names; apply elem_of_app; [left; by apply list_elem_of_In|right]. rewrite Hc Hr. by left. }
  destruct (to_last _ (Hw j u Hj) f Hf') as (l & Hl & Hfl). rewrite Hl in Hl'. destruct Hfl as [->|Hfl]; [done|by eapply name_lt_trans].
Qed.

(** Whoever holds a row asks for no fence. *)
Lemma row_holder i j : waits_row w i j → ¬ fence_waiter w j.
Proof.
  intros (t & u & r & _ & _ & Hj & _ & Hr) (f & k & u' & c & rest & v & Hj' & Hc & _). rewrite Hj in Hj'. injection Hj' as <-.
  destruct (to_call _ (Hw j u Hj) c Hc) as [Hx _]. destruct (to_rows _ (Hw j u Hj) Hx) as [Hrows _]. rewrite Hrows in Hr. by apply not_elem_of_nil in Hr.
Qed.

Lemma fence_not_row i k : fence_waiter w i → ¬ waits_row w i k.
Proof.
  intros (f & j & t & c & rest & u & Hi & Hc & _) (t' & v & r & Hi' & Hr & _). rewrite Hi in Hi'. injection Hi' as <-.
  destruct (to_call _ (Hw i t Hi) c Hc) as [_ Hn]. congruence.
Qed.

(** A chain that leaves the fences never returns to them. *)
Lemma row_chain i j : tc (waits_for w) i j → ¬ fence_waiter w i → ¬ fence_waiter w j.
Proof.
  induction 1 as [i j Hij|i j l Hij _ IH]; intros Hi.
  - destruct Hij as [[f Hf]|Hr]; [by destruct Hi; exists f, j|by eapply row_holder].
  - apply IH. destruct Hij as [[f Hf]|Hr]; [by destruct Hi; exists f, j|by eapply row_holder].
Qed.

Lemma chain_rises i j : tc (waits_for w) i j → ∀ g k, waits_fence w j g k → fence_waiter w i →
  ∃ f m, waits_fence w i f m ∧ name_lt f g = true.
Proof.
  induction 1 as [i j Hij|i m j Hij Hmj IH]; intros g k Hg Hi.
  - destruct Hij as [[f Hf]|Hr]; [|by destruct (fence_not_row i j Hi)]. exists f, j. split; [done|by eapply wait_rises].
  - destruct Hij as [[f Hf]|Hr]; [|by destruct (fence_not_row i m Hi)]. exists f, m. split; first done.
    assert (Hm : fence_waiter w m).
    { destruct Hmj as [m j Hmj|m n j Hmj Hnj]; destruct Hmj as [[f' Hf']|Hr]; try by eexists _, _.
      - exfalso. eapply (row_holder m j); [done|by eexists _, _].
      - exfalso. eapply (row_chain n j Hnj); [by eapply row_holder|by eexists _, _]. }
    destruct (IH g k Hg Hm) as (f' & m' & Hf' & Hlt). eapply name_lt_trans; [by eapply wait_rises|done].
Qed.

(** One transaction waits for one fence at a time. *)
Lemma one_fence i f g j k : waits_fence w i f j → waits_fence w i g k → f = g.
Proof. intros (t & c & rest & u & Hi & Hc & Hr & _) (t' & c' & rest' & u' & Hi' & Hc' & Hr' & _). congruence. Qed.

Lemma no_fence_cycle i : fence_waiter w i → ¬ tc (waits_for w) i i.
Proof.
  intros Hi Hc. destruct Hi as (g & k & Hg). destruct (chain_rises i i Hc g k Hg) as (f & m & Hf & Hlt); first by eexists _, _.
  rewrite (one_fence i f g m k Hf Hg) name_lt_irrefl in Hlt. done.
Qed.
End Chains.

(** ** Mutual exclusion *)

Lemma others_spec i p w k : others_from i k p w = true ↔ ∃ j t, w !! j = Some t ∧ (k + j)%nat ≠ i ∧ p t = true.
Proof.
  revert k. induction w as [|t w IH]; intros k; cbn; first by split; [done|intros (j & t & Hj & _)].
  rewrite orb_true_iff andb_true_iff negb_true_iff Nat.eqb_neq IH. split.
  - intros [[Hk Hp]|(j & t' & Hj & Hne & Hp)]; [exists 0%nat, t; split; [done|split; [lia|done]]|exists (S j), t'; split; [done|split; [lia|done]]].
  - intros ([|j] & t' & Hj & Hne & Hp); cbn in Hj; [injection Hj as <-; left; split; [lia|done]|right; exists j, t'; split; [done|split; [lia|done]]].
Qed.

Lemma another_spec i p w : another i p w = true ↔ ∃ j t, w !! j = Some t ∧ j ≠ i ∧ p t = true.
Proof. rewrite /another others_spec. done. Qed.

Definition exclusive (w : FenceWorld) : Prop :=
  ∀ i j t u f g, w !! i = Some t → w !! j = Some u → i ≠ j → f ∈ tx_held t → g ∈ tx_held u → key f ≠ key g.

Lemma fresh_held f a : f ∉ tx_held (with_call fresh_tx None a).
Proof. apply not_elem_of_nil. Qed.

(** A step takes at most one fence, and only a free one. *)
Lemma act_held i a w t f : f ∈ tx_held (act key i a w t) → f ∈ tx_held t ∨ busy key i f w = false.
Proof.
  destruct a as [l wait| |r|]; cbn [act].
  - case_match; last by left. rewrite /request_fences. destruct (ordered_fences l); first by left. destruct (tx_xid t); [by intros []%fresh_held|by left].
  - destruct (tx_rowWait t); first by (rewrite /lock_row; case_match; left).
    rewrite /acquire_next. destruct (tx_call t) as [c|]; last by left. destruct (fc_rest c) as [|g rest]; first by left.
    destruct (negb (well_formed g)); first by intros []%fresh_held. case_bool_decide; first by left.
    destruct (match tx_last t with Some l => _ | None => _ end); first by intros []%fresh_held.
    destruct (busy key i g w) eqn:Hb; first by (case_match; left). cbn [tx_held].
    intros [Hf|Hf]%elem_of_app; [by left|]. apply list_elem_of_singleton in Hf. subst. by right.
  - case_match; last by left. rewrite /lock_row. case_match; by left.
  - case_match; [by intros []%not_elem_of_nil|by left].
Qed.

Lemma step_exclusive w e : exclusive w → exclusive (world_step key w e).
Proof.
  intros Hex. rewrite /world_step. destruct (w !! e.1) as [t0|] eqn:Ht0; last done.
  assert (Hone : ∀ j u f g, j ≠ e.1 → w !! j = Some u → f ∈ tx_held (act key e.1 e.2 w t0) → g ∈ tx_held u → key f ≠ key g).
  { intros j u f g Hne Hj Hf Hg Heq. destruct (act_held _ _ _ _ _ Hf) as [Hf0|Hb].
    - apply (Hex e.1 j t0 u f g); auto.
    - apply not_true_iff_false in Hb. apply Hb. apply another_spec. exists j, u. split; [done|split; [done|]].
      apply existsb_exists. exists g. split; [by apply list_elem_of_In|by apply Z.eqb_eq]. }
  intros i j t u f g Hi Hj Hne Hf Hg.
  apply list_lookup_insert_Some in Hi as [(<- & <- & _)|[Hi' Hi]]; apply list_lookup_insert_Some in Hj as [(<- & <- & _)|[Hj' Hj]].
  - done.
  - by eapply Hone.
  - intros Heq. symmetry in Heq. revert Heq. by eapply Hone.
  - exact (Hex i j t u f g Hi Hj Hne Hf Hg).
Qed.

Lemma fence_run_ok n es : fence_world_ok (world_run key n es) ∧ exclusive (world_run key n es).
Proof.
  rewrite /world_run. assert (H0 : fence_world_ok (repeat fresh_tx n) ∧ exclusive (repeat fresh_tx n)).
  { split.
    - intros i t Hi. apply list_elem_of_lookup_2, list_elem_of_In, repeat_spec in Hi. subst t. apply (fresh_ok no_call).
    - intros i j t u f g Hi _ _ Hf. apply list_elem_of_lookup_2, list_elem_of_In, repeat_spec in Hi. subst t. by apply not_elem_of_nil in Hf. }
  revert H0. generalize (repeat fresh_tx n). induction es as [|e es IH]; intros w [Hw Hx]; first done.
  apply IH. split; [by apply step_world_ok|by apply step_exclusive].
Qed.

(** ** Progress *)

(** The fence a transaction waits for, if any. *)
Definition waiting_on (w : FenceWorld) (i : nat) : option string :=
  match w !! i with
  | Some t =>
      match tx_call t with
      | Some c =>
          match fc_rest c with
          | f :: _ =>
              if fc_wait c && negb (bool_decide (f ∈ tx_held t)) && match tx_last t with Some l => name_lt l f | None => true end && busy key i f w
              then Some f else None
          | [] => None
          end
      | None => None
      end
  | None => None
  end.

Lemma waiting_on_spec w i f : waiting_on w i = Some f ↔ ∃ j, waits_fence w i f j.
Proof.
  rewrite /waiting_on /waits_fence. split.
  - destruct (w !! i) as [t|]; last done. destruct (tx_call t) as [c|] eqn:Hc; last done. destruct (fc_rest c) as [|g rest] eqn:Hr; first done.
    case_match eqn:Hb; last done. intros [= <-]. apply andb_true_iff in Hb as [[[Hwt Hin%negb_true_iff%bool_decide_eq_false_1]%andb_true_iff Hl]%andb_true_iff Hb].
    apply another_spec in Hb as (j & u & Hj & Hne & Hk). exists j, t, c, rest, u. split_and!; try done. by destruct (tx_last t).
  - intros (j & t & c & rest & u & Hi & Hc & Hr & Hwt & Hin & Hl & Hj & Hne & Hk). rewrite Hi Hc Hr Hwt bool_decide_eq_false_2 //.
    rewrite (_ : busy key i f w = true); first (apply another_spec; eauto). destruct (tx_last t); [by rewrite Hl|done].
Qed.

Lemma fence_waiter_dec w i : fence_waiter w i ∨ ¬ fence_waiter w i.
Proof.
  destruct (waiting_on w i) as [f|] eqn:Hf.
  - left. apply waiting_on_spec in Hf as [j Hj]. by exists f, j.
  - right. intros (f & j & Hj). assert (waiting_on w i = Some f) by (apply waiting_on_spec; eauto). congruence.
Qed.

(** How many names of the state are above one. *)
Definition all_names (w : FenceWorld) : list string := concat (map names w).
Definition above (w : FenceWorld) (f : string) : nat := length (List.filter (name_lt f) (all_names w)).

Lemma above_decreases w f g : name_lt f g = true → g ∈ all_names w → (above w g < above w f)%nat.
Proof.
  intros Hlt Hin. rewrite /above. revert Hin. induction (all_names w) as [|x l IH]; intros Hin; first by apply not_elem_of_nil in Hin.
  assert (Hsub : (length (List.filter (name_lt g) l) ≤ length (List.filter (name_lt f) l))%nat).
  { clear IH Hin. induction l as [|y l IH]; first done. cbn. destruct (name_lt g y) eqn:Hy.
    - rewrite (name_lt_trans f g y Hlt Hy). cbn. lia.
    - destruct (name_lt f y); cbn; lia. }
  cbn. apply elem_of_cons in Hin as [<-|Hin].
  - rewrite name_lt_irrefl Hlt. cbn. lia.
  - specialize (IH Hin). destruct (name_lt g x) eqn:Hy; [rewrite (name_lt_trans f g x Hlt Hy)|destruct (name_lt f x)]; cbn; lia.
Qed.

Lemma waited_name w i f j : waits_fence w i f j → f ∈ all_names w.
Proof.
  intros (t & c & rest & u & Hi & Hc & Hr & _). apply list_elem_of_In. apply in_concat. exists (names t). split.
  - apply in_map, list_elem_of_In. by eapply list_elem_of_lookup_2.
  - rewrite /names Hc Hr. apply in_or_app. right. by left.
Qed.

Lemma chain_ends w i : fence_world_ok w → collision_free w → fence_waiter w i → ∃ j, tc (waits_for w) i j ∧ ¬ fence_waiter w j.
Proof.
  intros Hw Hcf (f & j & Hf). remember (above w f) as m eqn:Hm. revert i f j Hf Hm.
  induction m as [m IH] using lt_wf_ind. intros i f j Hf ->.
  destruct (fence_waiter_dec w j) as [(g & k & Hg)|Hn]; last by exists j; split; [apply tc_once; left; exists f|].
  destruct (IH (above w g)) with (i := j) (f := g) (j := k) as (l & Hl & Hnl); try done.
  { apply above_decreases; [by eapply wait_rises|by eapply waited_name]. }
  exists l. split; last done. eapply tc_l; [left; by exists f|done].
Qed.

End Deadlock.

(** C6. The fence protocol is exclusive and free of deadlock: in every state that any number of
    transactions reach, one advisory lock has one holder; a transaction that has locked a row
    waits for no fence; and where the names in use hash apart, no cycle of the wait-for graph,
    fences and rows together, passes through a transaction that waits for a fence, and its wait
    leads to one that does not. *)
Theorem fences_never_deadlock (hashtextextended : string → Z) n es (key := lock_key hashtextextended) (w := world_run key n es) :
  exclusive key w ∧
  (∀ i t, w !! i = Some t → tx_rows t ≠ [] → ¬ fence_waiter key w i) ∧
  (collision_free key w → ∀ i, fence_waiter key w i → ¬ tc (waits_for key w) i i ∧ ∃ j, tc (waits_for key w) i j ∧ ¬ fence_waiter key w j).
Proof.
  destruct (fence_run_ok key n es) as [Hw Hx]. split; [done|split].
  - intros i t Hi Hr (f & j & t' & c & rest & u & Hi' & Hc & _). unfold w in Hi. rewrite Hi in Hi'. injection Hi' as <-.
    destruct (to_call _ (Hw i t Hi) c Hc) as [Hxid _]. by destruct (to_rows _ (Hw i t Hi) Hxid) as [? _].
  - intros Hcf i Hi. split; [by apply no_fence_cycle|by apply chain_ends].
Qed.

(** ** The admission's fences *)

Lemma distinct_names_elem x l : x ∈ distinct_names l ↔ x ∈ l.
Proof.
  rewrite /distinct_names. enough (H : ∀ acc, x ∈ fold_left (λ acc y, if bool_decide (y ∈ acc) then acc else acc ++ [y]) l acc ↔ x ∈ acc ∨ x ∈ l).
  { rewrite H. set_solver. }
  induction l as [|y l IH]; intros acc; cbn [fold_left]; first set_solver. rewrite IH. case_bool_decide; set_solver.
Qed.

(** An admission goes on only under the scope fence of every durable waiter of its capacities, as
    read under the capacity fences, and under those: the call asked for all of them. *)
Lemma admission_covers_waiters before after capacityIds additional acquire wait :
  fenceCapacityAdmission before after capacityIds additional acquire wait = fences_held →
  ∃ requested, acquire requested = true ∧
    (∀ scope id f, (scope, id) ∈ after → fences (concurrencyScope scope id) = Some f → f ∈ requested) ∧
    (∀ c f, c ∈ capacityIds → fences (capacity_fence c) = Some f → f ∈ requested) ∧
    (∀ f, f ∈ additional → f ∈ requested).
Proof.
  rewrite /fenceCapacityAdmission /admission_request. destruct (scope_fences before) as [scopes|]; last done.
  destruct (mapM _ capacityIds) as [caps|] eqn:Hc; last done. cbn [option_map]. set (held := distinct_names (scopes ++ additional)).
  destruct (acquire (held ++ caps)) eqn:Ha; last done. cbn [negb].
  destruct (scope_fences after) as [now|] eqn:Hn; last done. destruct (existsb _ now) eqn:He; first by destruct wait.
  intros _. exists (held ++ caps). split; first done. apply mapM_Some in Hc, Hn. split_and!.
  - intros scope id f Hin Hf. apply elem_of_app. left. apply list_elem_of_lookup_1 in Hin as [k Hk].
    destruct (Forall2_lookup_l _ _ _ _ _ Hn Hk) as (g & Hg & Heq). cbn [fst snd] in Heq. rewrite Hf in Heq. injection Heq as <-.
    apply list_elem_of_lookup_2, list_elem_of_In in Hg. destruct (decide (f ∈ held)) as [|Hno]; first done.
    enough (existsb (λ f, negb (bool_decide (f ∈ held))) now = true) by congruence.
    apply existsb_exists. exists f. split; first done. by rewrite bool_decide_eq_false_2.
  - intros c f Hin Hf. apply elem_of_app. right. apply list_elem_of_lookup_1 in Hin as [k Hk].
    destruct (Forall2_lookup_l _ _ _ _ _ Hc Hk) as (g & Hg & Heq). cbn [fst snd] in Heq. rewrite Hf in Heq. injection Heq as <-. by eapply list_elem_of_lookup_2.
  - intros f Hf. apply elem_of_app. left. apply distinct_names_elem, elem_of_app. by right.
Qed.

(** ** Examples *)

Definition text_key (s : string) : Z := fold_left (λ a c, a * 257 + c) (code_units s) 0.

(** The first transaction holds two fences; the second holds a higher one and is refused the lower; the third waits. *)
Definition two_fences : list (nat * Action) :=
  [(0%nat, Request ["08:capacity:i1"; "00:owner:u1"] true); (0%nat, Advance); (0%nat, Advance);
   (1%nat, Request ["08:capacity:i2"] true); (1%nat, Advance); (1%nat, Advance); (1%nat, Request ["00:owner:u1"] true); (1%nat, Advance);
   (2%nat, Request ["00:owner:u1"] true); (2%nat, Advance)].

Example two_fences_run :
  map (λ t, (tx_held t, tx_answer t)) (world_run (lock_key text_key) 3 two_fences) =
  [(["00:owner:u1"; "08:capacity:i1"], no_call); ([], refused WMPF2); ([], no_call)].
Proof. vm_compute. done. Qed.

Lemma fences_never_deadlock_witness :
  fence_waiter (lock_key text_key) (world_run (lock_key text_key) 3 two_fences) 2 ∧ ¬ tc (waits_for (lock_key text_key) (world_run (lock_key text_key) 3 two_fences)) 2%nat 2%nat.
Proof.
  assert (Hwait : fence_waiter (lock_key text_key) (world_run (lock_key text_key) 3 two_fences) 2).
  { exists "00:owner:u1"%string. apply (proj1 (waiting_on_spec (lock_key text_key) _ _ _)). by vm_compute. }
  split; first exact Hwait.
  assert (Hcf : collision_free (lock_key text_key) (world_run (lock_key text_key) 3 two_fences)).
  { intros i j t u f g Hi Hj Hf Hg. vm_compute in Hi, Hj.
    destruct i as [|[|[|i]]]; try done; injection Hi as <-; destruct j as [|[|[|j]]]; try done; injection Hj as <-; cbn in Hf, Hg;
      repeat match goal with H : _ ∈ _ |- _ => apply list_elem_of_In in H; cbn in H end;
      repeat match goal with H : _ ∨ _ |- _ => destruct H as [<-|H] end; try done. }
  exact (proj1 (proj2 (proj2 (fences_never_deadlock text_key 3 two_fences)) Hcf 2%nat Hwait)).
Defined.
