(* ===== verification/CanonicalJson.v ===== *)
(** * CanonicalJson: the text hashes are taken of

    [packages/api/src/lib/canonical-json.ts], and the hashes over it of [runtime-launch-hash.ts]
    and [preview-fingerprint.ts]. Strings are UTF-16 code units. A number that is not an integer is
    given by what [Number::toString] prints it from: its shortest digits [d1 ... dk] and the place
    [n] of the point, for [0.d1...dk * 10^n]. SHA-256 is a parameter. *)
From Stdlib Require Import ssreflect.
From S2P Require Import Prelude JsString.

(** ** Values *)

Inductive JsNum : Type :=
| NotFinite
| NegativeZero
| Integer (n : Z)
| Fraction (negative : bool) (digits : list Z) (point : Z).

(** [JUndefined] as a member or item; [JUnsupported] a bigint, symbol or function; [JExotic] an object
    of another prototype. Members are in the order of [Object.entries]. *)
Inductive Json : Type :=
| JNull
| JBool (b : bool)
| JNumber (x : JsNum)
| JString (s : jstr)
| JArray (items : list Json)
| JObject (members : list (jstr * Json))
| JUndefined
| JUnsupported
| JExotic.

Inductive CanonicalRefusal : Type :=
| non_finite | unsafe_integer | outside_range | lone_surrogate | lone_surrogate_key | undefined_item | not_plain | unsupported.

(** [CanonicalJsonError]: what is refused, and where. *)
Record CanonicalJsonError : Type := mkJsonError { je_message : CanonicalRefusal; je_path : jstr }.

(** ** Strings *)

Definition is_high (c : Z) : bool := in_range 55296 56319 c.
Definition is_low_surrogate (c : Z) : bool := in_range 56320 57343 c.

(** [Array.from(s, c => c.codePointAt(0))]. *)
Fixpoint code_points (s : jstr) : list Z :=
  match s with
  | [] => []
  | c :: s' =>
      match s' with
      | d :: s'' => if is_high c && is_low_surrogate d then (65536 + (c - 55296) * 1024 + (d - 56320)) :: code_points s'' else c :: code_points s'
      | [] => [c]
      end
  end.

(** The loop of [compareCodePoints]. *)
Fixpoint points_compare (a b : list Z) : Z :=
  match a, b with
  | x :: a', y :: b' => num_or (x - y) (points_compare a' b')
  | _, _ => Z.of_nat (length a) - Z.of_nat (length b)
  end.

Definition compareCodePoints16 (left right : jstr) : Z := points_compare (code_points left) (code_points right).

(** [LONE_SURROGATE.test(s)]; [previous] says whether a high surrogate comes before. *)
Fixpoint lone_from (previous : bool) (s : jstr) : bool :=
  match s with
  | [] => false
  | c :: s' =>
      (is_high c && negb match s' with d :: _ => is_low_surrogate d | [] => false end)
      || (is_low_surrogate c && negb previous)
      || lone_from (is_high c) s'
  end.

Definition has_lone_surrogate (s : jstr) : bool := lone_from false s.

(** [JSON.stringify] of a string: one code unit, and the whole. *)
Definition escape_unit (c : Z) : jstr :=
  if c =? 34 then [chr_backslash; chr_dquote]
  else if c =? 92 then [chr_backslash; chr_backslash]
  else if c =? 8 then js "\b"
  else if c =? 9 then js "\t"
  else if c =? 10 then js "\n"
  else if c =? 12 then js "\f"
  else if c =? 13 then js "\r"
  else if c <? 32 then js "\u00" ++ [digit_char (c / 16); digit_char (c mod 16)]
  else [c].

Definition quote (s : jstr) : jstr := 34 :: concat (map escape_unit s) ++ [34].

(** ** Numbers *)

Definition MAX_SAFE_INTEGER : Z := 2 ^ 53 - 1.

(** [String(x)] of a fraction of the canonical range, by [Number::toString]. *)
Definition str_of_fraction (negative : bool) (digits : list Z) (point : Z) : jstr :=
  let ds := map digit_char digits in
  (if negative then [45] else [])
  ++ (if point <=? 0 then js "0." ++ repeat 48 (Z.to_nat (- point)) ++ ds
      else take (Z.to_nat point) ds ++ js "." ++ drop (Z.to_nat point) ds).

(** [1e-6 <= |x| < 1e15] of [0.d1...dk * 10^n] with [d1] not zero. *)
Definition in_canonical_range (point : Z) : bool := (-5 <=? point) && (point <=? 15).

Definition canonicalNumber (x : JsNum) (path : jstr) : jstr + CanonicalJsonError :=
  match x with
  | NotFinite => inr (mkJsonError non_finite path)
  | NegativeZero => inl (js "0")
  | Integer n => if (Z.abs n <=? MAX_SAFE_INTEGER) then inl (str_of_int n) else inr (mkJsonError unsafe_integer path)
  | Fraction negative digits point =>
      if negb (in_canonical_range point) then inr (mkJsonError outside_range path) else inl (str_of_fraction negative digits point)
  end.

(** ** Writing *)

Definition is_undefined (v : Json) : bool := match v with JUndefined => true | _ => false end.

(** What is written between the brackets: the texts with commas, or the first refusal. *)
Fixpoint comma_texts (l : list (jstr + CanonicalJsonError)) : jstr + CanonicalJsonError :=
  match l with
  | [] => inl []
  | inr e :: _ => inr e
  | [inl t] => inl t
  | inl t :: l' => match comma_texts l' with inl r => inl (t ++ js "," ++ r) | inr e => inr e end
  end.

(** One entry of an object, from its key and what writing its value gives. *)
Definition write_entry (path key : jstr) (value : jstr + CanonicalJsonError) : jstr + CanonicalJsonError :=
  if has_lone_surrogate key then inr (mkJsonError lone_surrogate_key path)
  else match value with inl t => inl (quote key ++ js ":" ++ t) | inr e => inr e end.

Definition bracket (open close : string) (r : jstr + CanonicalJsonError) : jstr + CanonicalJsonError :=
  match r with inl t => inl (js open ++ t ++ js close) | inr e => inr e end.

Definition item_path (path : jstr) (index : nat) : jstr := path ++ js "[" ++ str_of_int (Z.of_nat index) ++ js "]".
Definition member_path (path key : jstr) : jstr := path ++ js "." ++ key.

(** The members that are not undefined, by key. *)
Definition by_key {A} (entries : list (jstr * A)) : list (jstr * A) := sort_by (λ a b, compareCodePoints16 a.1 b.1) entries.

Fixpoint write (v : Json) (path : jstr) : jstr + CanonicalJsonError :=
  match v with
  | JNull => inl (js "null")
  | JBool b => inl (if b then js "true" else js "false")
  | JNumber x => canonicalNumber x path
  | JString s => if has_lone_surrogate s then inr (mkJsonError lone_surrogate path) else inl (quote s)
  | JArray items =>
      bracket "[" "]" (comma_texts
        ((fix go index (l : list Json) := match l with
          | [] => []
          | x :: l' => (if is_undefined x then inr (mkJsonError undefined_item (item_path path index)) else write x (item_path path index)) :: go (S index) l'
          end) O items))
  | JObject members =>
      let written :=
        (fix go (l : list (jstr * Json)) := match l with
         | [] => []
         | (k, x) :: l' => if is_undefined x then go l' else (k, write x (member_path path k)) :: go l'
         end) members in
      bracket "{" "}" (comma_texts (map (λ e, write_entry path e.1 e.2) (by_key written)))
  | JUndefined | JUnsupported => inr (mkJsonError unsupported path)
  | JExotic => inr (mkJsonError not_plain path)
  end.

Definition canonicalJson (v : Json) : jstr + CanonicalJsonError := write v [].

(** ** Hashes *)

(** [value.key]; [undefined] for a value without members. *)
Definition json_get (key : jstr) (v : Json) : Json := match v with JObject l => default JUndefined (map_get key l) | _ => JUndefined end.

(** [const { key: _, ...rest } = value] and [{ ...value, key: x }]. *)
Definition json_without (key : jstr) (v : Json) : Json := match v with JObject l => JObject (List.filter (λ e, negb (bool_decide (e.1 = key))) l) | _ => v end.
Definition json_set (key : jstr) (x v : Json) : Json := match v with JObject l => JObject (map_set key x l) | _ => v end.

Definition is_falsy (v : Json) : bool := match v with JNull | JUndefined | JBool false => true | JNumber (Integer 0) | JNumber NegativeZero => true | JString [] => true | _ => false end.

(** [nodeRuntimeSpec] *)
Definition nodeRuntimeSpec (spec : Json) : Json :=
  let launch := json_get (js "launch") spec in
  if is_falsy launch || is_undefined (json_get (js "reservations") launch) then spec
  else json_set (js "launch") (json_without (js "reservations") launch) spec.

Section Hashes.
Context (sha256Hex : jstr → string).

Definition json_hash (v : Json) : string + CanonicalJsonError := match canonicalJson v with inl t => inl (sha256Hex t) | inr e => inr e end.

Definition runtimeLaunchHash (spec : Json) : string + CanonicalJsonError := json_hash (nodeRuntimeSpec spec).

(** [compat] with at least one key is hashed. *)
Definition runtimeContentHash (rest : list (jstr * Json)) (compat : option (list (jstr * Json))) : string + CanonicalJsonError :=
  json_hash (JObject match compat with Some (_ :: _ as c) => map_set (js "compat") (JObject c) rest | _ => rest end).

Definition nodeMetricCommandsHash (commands : list Json) : string + CanonicalJsonError := json_hash (JArray commands).
Definition nodeFabricsHash (sets : Json) : string + CanonicalJsonError := json_hash sets.

(** [previewFingerprint] *)
Definition previewFingerprint (preview : Json) : string + CanonicalJsonError := json_hash (json_without (js "warnings") (json_without (js "fingerprint") preview)).
End Hashes.
