(* ===== verification/CanonicalJsonSafety.v ===== *)
(** * CanonicalJsonSafety: equal canonical texts are equal values

    The text of [canonicalJson] is a prefix code: what follows a value's text is determined, so two
    values with one text agree on every string, number and item, and on their members up to order;
    and values that agree so are written alike. What is refused is what the module's rules name. *)
From Stdlib Require Import ssreflect.
From S2P Require Import Prelude JsString CanonicalJson.

(** ** Values of the language *)

Definition units_ok (s : jstr) : Prop := ∀ c, In c s → 0 ≤ c < 65536.

(** The shortest digits of a number that is not an integer. *)
Definition fraction_ok (digits : list Z) (point : Z) : Prop :=
  (∀ d, In d digits → 0 ≤ d < 10) ∧ (∃ d r, digits = d :: r ∧ d ≠ 0) ∧ point < Z.of_nat (length digits).

Definition num_ok (x : JsNum) : Prop := match x with Fraction _ digits point => fraction_ok digits point | _ => True end.

Fixpoint js_value (v : Json) : Prop :=
  match v with
  | JNumber x => num_ok x
  | JString s => units_ok s
  | JArray items => (fix go l := match l with [] => True | x :: l' => js_value x ∧ go l' end) items
  | JObject members =>
      NoDup (map fst members) ∧ (fix go (l : list (jstr * Json)) := match l with [] => True | e :: l' => (units_ok e.1 ∧ js_value e.2) ∧ go l' end) members
  | _ => True
  end.

Lemma json_items_ind (P : Json → Prop) :
  P JNull → (∀ b, P (JBool b)) → (∀ x, P (JNumber x)) → (∀ s, P (JString s)) → (∀ l, Forall P l → P (JArray l)) →
  (∀ l, Forall (λ e, P e.2) l → P (JObject l)) → P JUndefined → P JUnsupported → P JExotic → ∀ v, P v.
Proof.
  intros H1 H2 H3 H4 H5 H6 H7 H8 H9. fix IH 1. intros [ |b|x|s|items|members| | | ].
  1: exact H1. 1: exact (H2 b). 1: exact (H3 x). 1: exact (H4 s). 3: exact H7. 3: exact H8. 3: exact H9.
  - apply H5. induction items as [|x l IHl]; constructor; [apply IH|exact IHl].
  - apply H6. induction members as [|[k x] l IHl]; constructor; [apply IH|exact IHl].
Qed.

Lemma js_value_items l : js_value (JArray l) ↔ Forall js_value l.
Proof. cbn. induction l as [|x l IH]; [by split|]. rewrite Forall_cons -IH. done. Qed.

Lemma js_value_members l : js_value (JObject l) ↔ NoDup (map fst l) ∧ Forall (λ e, units_ok e.1 ∧ js_value e.2) l.
Proof.
  cbn. apply and_iff_compat_l. induction l as [|e l IH]; [by split|]. rewrite Forall_cons -IH. done.
Qed.

(** Equal as values: [-0] is [0], the order of members and undefined members do not count. *)
Definition plain_num (x : JsNum) : JsNum := match x with NegativeZero => Integer 0 | _ => x end.

Definition defined (members : list (jstr * Json)) : list (jstr * Json) := List.filter (λ e, negb (is_undefined e.2)) members.

Inductive same_json : Json → Json → Prop :=
| same_null : same_json JNull JNull
| same_bool b : same_json (JBool b) (JBool b)
| same_number x y : plain_num x = plain_num y → same_json (JNumber x) (JNumber y)
| same_string s : same_json (JString s) (JString s)
| same_array l l' : Forall2 same_json l l' → same_json (JArray l) (JArray l')
| same_object l l' m m' :
    defined l ≡ₚ m → defined l' ≡ₚ m' → Forall2 (λ a b, a.1 = b.1 ∧ same_json a.2 b.2) m m' → same_json (JObject l) (JObject l').

(** ** Splitting texts *)

Lemma app_sep_inj (x : Z) a a' b b' :
  (∀ c, In c a → c ≠ x) → (∀ c, In c a' → c ≠ x) → a ++ x :: b = a' ++ x :: b' → a = a' ∧ b = b'.
Proof.
  revert a'. induction a as [|c a IH]; intros [|c' a'] Ha Ha' E; cbn in E.
  - by injection E as ->.
  - injection E as E1 E2. exfalso. apply (Ha' c'); [by left|done].
  - injection E as E1 E2. exfalso. apply (Ha c); [by left|done].
  - injection E as E1 E2. destruct (IH a') as [-> ->]; [by intros; apply Ha; right|by intros; apply Ha'; right|done|]. by rewrite E1.
Qed.

(** Texts made of one class of characters, each followed by something outside it. *)
Lemma class_prefix (p : Z → bool) a a' b b' :
  (∀ c, In c a → p c = true) → (∀ c, In c a' → p c = true) →
  match b with c :: _ => p c = false | [] => True end → match b' with c :: _ => p c = false | [] => True end →
  a ++ b = a' ++ b' → a = a' ∧ b = b'.
Proof.
  revert a'. induction a as [|c a IH]; intros [|c' a'] Ha Ha' Hb Hb'; cbn.
  - done.
  - intros ->. rewrite Ha' in Hb; [by left|done].
  - intros <-. rewrite Ha in Hb'; [by left|done].
  - intros [= -> E]. destruct (IH a') as [-> ->]; try done; intros; [apply Ha|apply Ha']; by right.
Qed.

(** ** Strings *)

Lemma escape_unit_cases c : 0 ≤ c → (c < 32 ∨ c = 34 ∨ c = 92) ∨ (escape_unit c = [c] ∧ c ≠ 34 ∧ c ≠ 92 ∧ 32 ≤ c).
Proof.
  intros Hc. destruct (decide (c < 32 ∨ c = 34 ∨ c = 92)) as [H|H]; [by left|right]. rewrite /escape_unit.
  repeat match goal with |- context [?a =? ?b] => rewrite (proj2 (Z.eqb_neq a b)); first lia end. rewrite (proj2 (Z.ltb_ge c 32)); first lia. split_and!; [done|lia..].
Qed.

Definition special_units : list Z := 34 :: 92 :: map Z.of_nat (seq 0 32).

Lemma special_unit c : 0 ≤ c → c < 32 ∨ c = 34 ∨ c = 92 → In c special_units.
Proof.
  intros H0 [H|[-> | ->]]; [|by left|by right; left]. do 2 right. apply in_map_iff. exists (Z.to_nat c). split; [lia|]. apply in_seq. lia.
Qed.

(** An escape begins with a backslash, and no two are prefixes of one another. *)
Lemma special_escapes c d : In c special_units → In d special_units → ∀ x y, escape_unit c ++ x = escape_unit d ++ y → c = d.
Proof.
  intros Hc Hd. assert (H : forallb (λ c, forallb (λ d, bool_decide (c = d) || negb (startsWith (take (length (escape_unit c)) (escape_unit d)) (escape_unit c))
    && negb (startsWith (take (length (escape_unit d)) (escape_unit c)) (escape_unit d))) special_units) special_units = true) by (vm_compute; done).
  rewrite forallb_forall in H. specialize (H c Hc). rewrite forallb_forall in H. specialize (H d Hd). intros x y E. apply orb_true_iff in H as [H|H]; first by bool_to_prop.
  exfalso. apply andb_true_iff in H as [H1%negb_true_iff H2%negb_true_iff].
  assert (Hp : ∀ a b u v : jstr, a ++ u = b ++ v → startsWith (take (length a) b) a = true ∨ startsWith (take (length b) a) b = true).
  { clear. intros a. induction a as [|z a IH]; intros [|z' b] u v E; cbn; try by left. injection E as -> E. rewrite !Z.eqb_refl. by eapply IH. }
  destruct (Hp _ _ _ _ E) as [E'|E']; congruence.
Qed.

Lemma special_backslash c : In c special_units → ∃ r, escape_unit c = 92 :: r.
Proof.
  intros Hc. assert (H : forallb (λ c, match escape_unit c with 92 :: _ => true | _ => false end) special_units = true) by (vm_compute; done).
  rewrite forallb_forall in H. specialize (H c Hc). destruct (escape_unit c) as [|z r]; [done|]. exists r. f_equal.
  destruct (decide (z = 92)); [done|]. exfalso. revert H. clear -n. repeat (case_match; try done).
Qed.

Lemma escape_unit_inj c d x y : 0 ≤ c → 0 ≤ d → escape_unit c ++ x = escape_unit d ++ y → c = d ∧ x = y.
Proof.
  intros Hc Hd E. assert (c = d) as ->.
  { destruct (escape_unit_cases c Hc) as [H1|(E1 & ? & ? & ?)], (escape_unit_cases d Hd) as [H2|(E2 & ? & ? & ?)].
    - by eapply special_escapes; [apply special_unit..|exact E].
    - apply special_unit, special_backslash in H1 as [r Hr]; [|done]. rewrite Hr E2 in E. injection E as ? ?. lia.
    - apply special_unit, special_backslash in H2 as [r Hr]; [|done]. rewrite Hr E1 in E. injection E as ? ?. lia.
    - rewrite E1 E2 in E. by injection E. }
  split; [done|]. by apply app_inv_head in E.
Qed.

Lemma escape_not_quote c x y : 0 ≤ c → escape_unit c ++ x ≠ 34 :: y.
Proof.
  intros Hc E. destruct (escape_unit_cases c Hc) as [H1|(E1 & ? & ? & ?)].
  - apply special_unit, special_backslash in H1 as [r Hr]; [|done]. rewrite Hr in E. injection E as ? ?. lia.
  - rewrite E1 in E. injection E as ? ?. lia.
Qed.

Lemma quote_prefix s s' r r' : units_ok s → units_ok s' → quote s ++ r = quote s' ++ r' → s = s' ∧ r = r'.
Proof.
  rewrite /quote. intros Hs Hs' [= E]. rewrite -!app_assoc in E. revert s' Hs Hs' E.
  induction s as [|c s IH]; intros [|c' s'] Hs Hs' E; cbn [map concat app] in E.
  - injection E as ->. done.
  - rewrite -app_assoc in E. symmetry in E. exfalso. eapply escape_not_quote; [|exact E]. apply (Hs' c'). by left.
  - rewrite -app_assoc in E. exfalso. eapply escape_not_quote; [|exact E]. apply (Hs c). by left.
  - rewrite -!app_assoc in E. apply escape_unit_inj in E as [-> E]; [|apply (Hs c); by left|apply (Hs' c'); by left].
    apply IH in E as [-> ->]; [done| |]; intros z Hz; [apply Hs|apply Hs']; by right.
Qed.

(** ** Numbers *)

Definition is_num (c : Z) : bool := is_digit c || (c =? 45) || (c =? 46).

Lemma digit_char_digit d : 0 ≤ d < 10 → is_digit (digit_char d) = true ∧ digit_char d = 48 + d.
Proof. intros Hd. rewrite /digit_char (proj2 (Z.ltb_lt d 10)); first lia. rewrite /is_digit /in_range. split; [apply andb_true_iff; rewrite !Z.leb_le; lia|done]. Qed.

Lemma digits_text ds : (∀ d, In d ds → 0 ≤ d < 10) → ∀ c, In c (map digit_char ds) → is_digit c = true.
Proof. intros H c (d & <- & Hd)%in_map_iff. by apply digit_char_digit, H. Qed.

Lemma digit_chars_inj ds ds' : (∀ d, In d ds → 0 ≤ d < 10) → (∀ d, In d ds' → 0 ≤ d < 10) → map digit_char ds = map digit_char ds' → ds = ds'.
Proof.
  revert ds'. induction ds as [|d ds IH]; intros [|d' ds'] H H'; cbn; try done. intros [= E1 E2].
  rewrite (proj2 (digit_char_digit d (H d (or_introl eq_refl)))) (proj2 (digit_char_digit d' (H' d' (or_introl eq_refl)))) in E1.
  rewrite (IH ds'); [by intros; apply H; right|by intros; apply H'; right|done|]. f_equal. lia.
Qed.

Lemma is_digit_not_point c : is_digit c = true → c ≠ 46 ∧ c ≠ 45.
Proof. rewrite /is_digit /in_range andb_true_iff !Z.leb_le. lia. Qed.

Lemma int_digits n c : 0 ≤ n → In c (str_of_int n) → is_digit c = true.
Proof. intros Hn Hc. destruct (toString_digits 10 n) as [_ H]; [lia|done|]. destruct (H c Hc) as (d & -> & Hd). by apply digit_char_digit. Qed.

Lemma int_text n : (0 ≤ n ∧ str_of_int n ≠ []) ∨ (n < 0 ∧ str_of_int n = 45 :: str_of_int (- n)).
Proof.
  destruct (decide (n < 0)) as [Hn|Hn]; [right|left].
  - split; [done|]. rewrite /str_of_int /toString (proj2 (Z.ltb_lt n 0)) // (proj2 (Z.ltb_ge (- n) 0)) //. lia.
  - split; [lia|]. apply toString_digits; lia.
Qed.

Lemma int_inj n m : str_of_int n = str_of_int m → n = m.
Proof.
  intros E. assert (Hpos : ∀ n m, 0 ≤ n → 0 ≤ m → str_of_int n = str_of_int m → n = m).
  { clear. intros n m Hn Hm E. apply (f_equal (parse_digits 10)) in E. rewrite /str_of_int !parse_toString in E; lia. }
  destruct (int_text n) as [[Hn _]|[Hn En]], (int_text m) as [[Hm _]|[Hm Em]].
  - by apply Hpos.
  - exfalso. rewrite Em in E. destruct (is_digit_not_point 45) as [_ ?]; [|done]. eapply (int_digits n); [done|]. rewrite E. by left.
  - exfalso. rewrite En in E. destruct (is_digit_not_point 45) as [_ ?]; [|done]. eapply (int_digits m); [done|]. rewrite -E. by left.
  - rewrite En Em in E. injection E as E. apply Hpos in E; lia.
Qed.

(** A fraction's text: its sign, the digits before the point, those after it. *)
Definition whole_part (ds : list Z) (point : Z) : jstr := if point <=? 0 then [48] else take (Z.to_nat point) (map digit_char ds).
Definition fraction_part (ds : list Z) (point : Z) : jstr := if point <=? 0 then repeat 48 (Z.to_nat (- point)) ++ map digit_char ds else drop (Z.to_nat point) (map digit_char ds).

Lemma fraction_text neg ds point : str_of_fraction neg ds point = (if neg then [45] else []) ++ whole_part ds point ++ 46 :: fraction_part ds point.
Proof. rewrite /str_of_fraction /whole_part /fraction_part. by destruct (point <=? 0). Qed.

Lemma whole_digits ds point c : fraction_ok ds point → In c (whole_part ds point) → is_digit c = true.
Proof.
  intros (Hd & _ & _). rewrite /whole_part. case_match; [by intros [<-|[]]|]. intros Hc. eapply digits_text; [exact Hd|].
  rewrite -(take_drop (Z.to_nat point) (map digit_char ds)). apply in_or_app. by left.
Qed.

Lemma fraction_digits ds point c : fraction_ok ds point → In c (fraction_part ds point) → is_digit c = true.
Proof.
  intros (Hd & _ & _). rewrite /fraction_part. case_match.
  - intros [->%repeat_spec|Hc]%in_app_or; [done|by eapply digits_text].
  - intros Hc. eapply digits_text; [exact Hd|]. rewrite -(take_drop (Z.to_nat point) (map digit_char ds)). apply in_or_app. by right.
Qed.

(** The whole part is not empty, and is [0] only below one. *)
Lemma whole_head ds point : fraction_ok ds point → ∃ c r, whole_part ds point = c :: r ∧ (point ≤ 0 ↔ c = 48).
Proof.
  intros (Hd & (d & r & -> & Hd0) & _). rewrite /whole_part. destruct (point <=? 0) eqn:Hp.
  - exists 48, []. split; [done|]. apply Z.leb_le in Hp. by split.
  - apply Z.leb_gt in Hp. destruct (Z.to_nat point) as [|k] eqn:Hk; [lia|]. eexists _, _. split; [done|].
    destruct (digit_char_digit d) as [_ ->]; [apply Hd; by left|]. lia.
Qed.

Lemma leading_zeros a b s s' c c' : c ≠ 48 → c' ≠ 48 → repeat 48 a ++ c :: s = repeat 48 b ++ c' :: s' → a = b ∧ c :: s = c' :: s'.
Proof.
  revert b. induction a as [|a IH]; intros [|b] Hc Hc'; cbn [repeat app]; intros E.
  - done.
  - injection E as E ?. congruence.
  - injection E as E ?. congruence.
  - injection E as E. apply IH in E as [-> E]; done.
Qed.

Lemma fraction_parts_inj ds p ds' p' : fraction_ok ds p → fraction_ok ds' p' →
  whole_part ds p = whole_part ds' p' → fraction_part ds p = fraction_part ds' p' → ds = ds' ∧ p = p'.
Proof.
  intros Hok Hok' Ew Ef. destruct (whole_head ds p Hok) as (c & r & Hc & Hz), (whole_head ds' p' Hok') as (c' & r' & Hc' & Hz').
  assert (Hsame : p ≤ 0 ↔ p' ≤ 0) by (rewrite Hz Hz'; rewrite Hc Hc' in Ew; by injection Ew as -> _).
  destruct Hok as (Hd & (d & l & -> & Hd0) & Hlen), Hok' as (Hd' & (d' & l' & -> & Hd0') & Hlen'). rewrite /whole_part /fraction_part in Ew Ef.
  destruct (decide (p ≤ 0)) as [Hp|Hp].
  - rewrite (proj2 (Z.leb_le p 0)) // (proj2 (Z.leb_le p' 0)) in Ef; [tauto|]. cbn [map] in Ef.
    assert (Hnz : ∀ z, 0 ≤ z < 10 → z ≠ 0 → digit_char z ≠ 48) by (intros z Hz1 ?; rewrite (proj2 (digit_char_digit z Hz1)); lia).
    apply leading_zeros in Ef as [Ep Ef]; [|apply Hnz; [apply Hd; by left|done]|apply Hnz; [apply Hd'; by left|done]].
    split; [by apply digit_chars_inj|]. assert (p' ≤ 0) by tauto. lia.
  - assert (Hp' : ¬ p' ≤ 0) by tauto. rewrite (proj2 (Z.leb_gt p 0)) ?(proj2 (Z.leb_gt p' 0)) in Ew, Ef; try lia.
    assert (d :: l = d' :: l') as E. { apply digit_chars_inj; [done|done|]. rewrite -(take_drop (Z.to_nat p) (map digit_char (d :: l))) Ew Ef. by rewrite take_drop. }
    split; [done|]. apply (f_equal length) in Ew. rewrite !length_take !length_map in Ew. rewrite E in Ew Hlen. lia.
Qed.

Lemma number_chars x path t : num_ok x → canonicalNumber x path = inl t → t ≠ [] ∧ ∀ c, In c t → is_num c = true.
Proof.
  intros Hok. assert (Hnum : ∀ c, is_digit c = true → is_num c = true) by (intros c; rewrite /is_num; by intros ->).
  destruct x as [ | |n|neg ds p]; cbn [canonicalNumber]; try done.
  - intros [= <-]. split; [done|]. by intros c [<-|[]].
  - case_match; [|done]. intros [= <-]. destruct (int_text n) as [[Hn Hne]|[Hn ->]].
    + split; [done|]. intros c Hc. by eapply Hnum, (int_digits n).
    + split; [done|]. intros c [<-|Hc]; [done|]. eapply Hnum, (int_digits (- n)); [lia|done].
  - case_match; [done|]. intros [= <-]. rewrite fraction_text. split.
    + destruct (whole_head ds p Hok) as (? & ? & -> & _). by destruct neg.
    + intros c [Hc|[Hc|[<-|Hc]]%in_app_or]%in_app_or.
      * destruct neg; [|done]. by destruct Hc as [<-|[]].
      * by eapply Hnum, whole_digits.
      * done.
      * by eapply Hnum, fraction_digits.
Qed.

(** The point tells a fraction from an integer, the sign and the digits the fraction. *)
Lemma number_inj x y p q t : num_ok x → num_ok y → canonicalNumber x p = inl t → canonicalNumber y q = inl t → plain_num x = plain_num y.
Proof.
  intros Hx Hy. assert (Hint : ∀ z r, canonicalNumber z r = inl t → (∃ n, plain_num z = Integer n ∧ t = str_of_int n) ∨
      ∃ neg ds k, z = Fraction neg ds k ∧ t = str_of_fraction neg ds k).
  { intros z r. destruct z as [ | |n|neg ds k]; cbn [canonicalNumber]; try done.
    - intros [= <-]. left. by exists 0.
    - case_match; [|done]. intros [= <-]. left. by exists n.
    - case_match; [done|]. intros [= <-]. right. by exists neg, ds, k. }
  assert (Hnopoint : ∀ n, ¬ In 46 (str_of_int n)).
  { intros n Hin. destruct (int_text n) as [[Hn _]|[Hn En]].
    - by destruct (is_digit_not_point 46 (int_digits n 46 Hn Hin)).
    - rewrite En in Hin. destruct Hin as [|Hin]; [done|]. assert (Hn' : 0 ≤ - n) by lia. by destruct (is_digit_not_point 46 (int_digits (- n) 46 Hn' Hin)). }
  assert (Hpoint : ∀ neg ds k, In 46 (str_of_fraction neg ds k)).
  { intros neg ds k. rewrite fraction_text. apply in_or_app. right. apply in_or_app. right. by left. }
  intros [(n & -> & En)|(neg & ds & k & -> & Ef)]%Hint [(m & -> & Em)|(neg' & ds' & k' & -> & Ef')]%Hint.
  - f_equal. apply int_inj. congruence.
  - exfalso. apply (Hnopoint n). rewrite -En Ef'. apply Hpoint.
  - exfalso. apply (Hnopoint m). rewrite -Em Ef. apply Hpoint.
  - rewrite Ef in Ef'. rewrite !fraction_text in Ef'. clear Ef Hint Hnopoint Hpoint. cbn in Hx, Hy.
    destruct (whole_head ds k Hx) as (c & r & Hc & _), (whole_head ds' k' Hy) as (c' & r' & Hc' & _).
    assert (Hd : is_digit c = true) by (eapply whole_digits; [exact Hx|rewrite Hc; by left]).
    assert (Hd' : is_digit c' = true) by (eapply whole_digits; [exact Hy|rewrite Hc'; by left]).
    assert (neg = neg') as ->.
    { apply is_digit_not_point in Hd as [_ ?], Hd' as [_ ?]. rewrite Hc Hc' in Ef'. destruct neg, neg'; try done; cbn in Ef'; injection Ef' as ? ?; congruence. }
    apply app_inv_head, app_sep_inj in Ef' as [Ew Ef].
    + by destruct (fraction_parts_inj ds k ds' k' Hx Hy Ew Ef) as [-> ->].
    + intros z Hz. by apply is_digit_not_point, (whole_digits ds k z Hx).
    + intros z Hz. by apply is_digit_not_point, (whole_digits ds' k' z Hy).
Qed.

(** ** The order of keys *)

#[export] Instance points_order : CmpOrder points_compare.
Proof.
  split.
  - intros x. induction x as [|a x IH]; intros [|b y]; cbn -[Z.of_nat]; try lia.
    specialize (IH y). unfold num_or. destruct (Z.eqb_spec (b - a) 0), (Z.eqb_spec (a - b) 0); lia.
  - intros x. induction x as [|a x IH]; intros [|b y] [|c z]; cbn -[Z.of_nat]; try lia.
    specialize (IH y z). unfold num_or. destruct (Z.eqb_spec (a - b) 0), (Z.eqb_spec (b - c) 0), (Z.eqb_spec (a - c) 0); lia.
Qed.

#[export] Instance key_order : CmpOrder compareCodePoints16.
Proof. apply (cmp_order_contramap code_points points_compare _). Qed.

#[export] Instance entry_order {A} : CmpOrder (λ a b : jstr * A, compareCodePoints16 a.1 b.1).
Proof. apply (cmp_order_contramap fst compareCodePoints16 _). Qed.

Lemma points_compare_eq a b : points_compare a b = 0 → a = b.
Proof.
  revert b. induction a as [|x a IH]; intros [|y b]; cbn -[Z.of_nat]; try lia; [done|].
  unfold num_or. destruct (Z.eqb_spec (x - y) 0); [|lia]. intros ->%IH. f_equal. lia.
Qed.

(** The code units of a sequence of code points. *)
Definition point_units (p : Z) : jstr := if p <? 65536 then [p] else [55296 + (p - 65536) / 1024; 56320 + (p - 65536) mod 1024].

Lemma code_points_units s : units_ok s → concat (map point_units (code_points s)) = s.
Proof.
  remember (length s) as n eqn:Hn. revert s Hn. induction n as [n IH] using lt_wf_ind. intros [|c s] -> Hs; [done|].
  assert (Hc : 0 ≤ c < 65536) by (apply Hs; by left). assert (Hone : point_units c = [c]) by (rewrite /point_units (proj2 (Z.ltb_lt _ _)) //; lia).
  destruct s as [|d s]; first by cbn; rewrite Hone. rewrite (_ : code_points (c :: d :: s) = if is_high c && is_low_surrogate d then (65536 + (c - 55296) * 1024 + (d - 56320)) :: code_points s else c :: code_points (d :: s)) //.
  destruct (is_high c && is_low_surrogate d) eqn:Hp.
  - apply andb_true_iff in Hp as [Hh Hl]. rewrite /is_high /is_low_surrogate /in_range !andb_true_iff !Z.leb_le in Hh Hl.
    cbn [map concat]. rewrite (IH (length s)) //; [cbn; lia|by intros z Hz; apply Hs; right; right|].
    rewrite /point_units (proj2 (Z.ltb_ge _ _)); first lia. rewrite (_ : 65536 + (c - 55296) * 1024 + (d - 56320) - 65536 = (c - 55296) * 1024 + (d - 56320)); first lia.
    rewrite -(Z.div_unique ((c - 55296) * 1024 + (d - 56320)) 1024 (c - 55296) (d - 56320)); [lia..|].
    rewrite -(Z.mod_unique ((c - 55296) * 1024 + (d - 56320)) 1024 (c - 55296) (d - 56320)); [lia..|]. cbn. f_equal; [lia|]. f_equal. lia.
  - cbn [map concat]. rewrite Hone (IH (length (d :: s))) //; [cbn; lia|]. by intros z Hz; apply Hs; right.
Qed.

Lemma key_compare_eq a b : units_ok a → units_ok b → compareCodePoints16 a b = 0 → a = b.
Proof. intros Ha Hb E%points_compare_eq. rewrite -(code_points_units a Ha) -(code_points_units b Hb). by rewrite E. Qed.

Section Keys.
Context {A : Type}.
Implicit Types (l m : list (jstr * A)).

Definition keys_ok l : Prop := NoDup (map fst l) ∧ Forall (λ e, units_ok e.1) l.

Lemma keys_ok_perm l m : l ≡ₚ m → keys_ok l → keys_ok m.
Proof. intros Hp [H1 H2]. split; [by rewrite -Hp|by rewrite -Hp]. Qed.

Lemma keys_ok_tail e l : keys_ok (e :: l) → keys_ok l.
Proof. intros [[_ H1]%NoDup_cons [_ H2]%Forall_cons]. by split. Qed.

Lemma sorted_head_eq (a b : jstr * A) l m : keys_ok (a :: l) → a :: l ≡ₚ b :: m →
  sorted_by (λ a b, compareCodePoints16 a.1 b.1) (a :: l) → sorted_by (λ a b, compareCodePoints16 a.1 b.1) (b :: m) → a = b.
Proof.
  intros [Hnd Hu] Hp [Ha _] [Hb _]. assert (Hin : In a (b :: m)) by (eapply Permutation_in; [exact Hp|by left]).
  assert (Hin' : In b (a :: l)) by (eapply Permutation_in; [symmetry; exact Hp|by left]).
  destruct Hin as [|Hin]; [done|]. destruct Hin' as [|Hin']; [done|]. exfalso.
  assert (E : a.1 = b.1).
  { apply key_compare_eq; [by apply Forall_cons in Hu as [? _]| |].
    - rewrite Forall_forall in Hu. apply Hu, list_elem_of_In. by right.
    - pose proof (Ha b Hin') as H1. pose proof (Hb a Hin) as H2. pose proof (cmp_antisym (cmp:=compareCodePoints16) a.1 b.1). cbn in H1, H2. lia. }
  cbn [map] in Hnd. apply NoDup_cons in Hnd as [Hno _]. apply Hno. rewrite E. apply list_elem_of_In, in_map_iff. by exists b.
Qed.

Lemma sorted_perm_eq l m : keys_ok l → l ≡ₚ m → sorted_by (λ a b, compareCodePoints16 a.1 b.1) l → sorted_by (λ a b, compareCodePoints16 a.1 b.1) m → l = m.
Proof.
  revert m. induction l as [|a l IH]; intros m Hk Hp Hl Hm; first by apply Permutation_nil_l in Hp.
  destruct m as [|b m]; first by symmetry in Hp; apply Permutation_nil_l in Hp.
  assert (a = b) as -> by by eapply sorted_head_eq. f_equal. apply IH; [by eapply keys_ok_tail|by eapply Permutation_cons_inv|apply Hl|apply Hm].
Qed.

(** The order of the members does not matter. *)
Lemma by_key_perm l m : keys_ok l → l ≡ₚ m → by_key l = by_key m.
Proof.
  intros Hk Hp. apply sorted_perm_eq; [|by rewrite /by_key !sort_by_perm|apply sort_by_sorted, _|apply sort_by_sorted, _].
  eapply keys_ok_perm; [symmetry; apply sort_by_perm|done].
Qed.

(** Entries with the same keys are sorted alike. *)
Lemma by_key_forall2 (R : jstr * A → jstr * A → Prop) l m :
  Forall2 (λ a b, a.1 = b.1 ∧ R a b) l m → Forall2 (λ a b, a.1 = b.1 ∧ R a b) (by_key l) (by_key m).
Proof.
  assert (Hins : ∀ a b l m, a.1 = b.1 ∧ R a b → Forall2 (λ a b, a.1 = b.1 ∧ R a b) l m →
    Forall2 (λ a b, a.1 = b.1 ∧ R a b) (insert_by (λ a b, compareCodePoints16 a.1 b.1) a l) (insert_by (λ a b, compareCodePoints16 a.1 b.1) b m)).
  { intros a b l0 m0 Hab. induction 1 as [|x y l0 m0 Hxy Hlm IH]; cbn; [by constructor|]. destruct Hab as [Ek Hab], Hxy as [Ex Hxy]. rewrite Ek Ex.
    destruct (_ <=? 0); constructor; try done. by constructor. }
  induction 1 as [|a b l m Hab Hlm IH]; cbn; [constructor|]. by apply Hins.
Qed.
End Keys.

(** ** What is written *)

Lemma comma_texts_inl l t : comma_texts l = inl t → ∃ ts, l = map inl ts ∧ t = join [44] ts.
Proof.
  revert t. induction l as [|[x|e] l IH]; intros t; cbn [comma_texts].
  - intros [= <-]. by exists [].
  - destruct l as [|y l]; first (intros [= <-]; by exists [x]). destruct (comma_texts (y :: l)) as [r|]; [|done]. intros [= <-].
    destruct (IH r eq_refl) as (ts & Hts & ->). exists (x :: ts). split; [by rewrite Hts|]. by destruct ts.
  - done.
Qed.

Lemma comma_texts_join ts : comma_texts (map inl ts) = inl (join [44] ts).
Proof. induction ts as [|t ts IH]; [done|]. destruct ts as [|t' ts]; [done|]. cbn [map comma_texts] in *. by rewrite IH. Qed.

Fixpoint write_items (path : jstr) (index : nat) (l : list Json) : list (jstr + CanonicalJsonError) :=
  match l with
  | [] => []
  | x :: l' => (if is_undefined x then inr (mkJsonError undefined_item (item_path path index)) else write x (item_path path index)) :: write_items path (S index) l'
  end.

Lemma write_array l path : write (JArray l) path = bracket "[" "]" (comma_texts (write_items path 0 l)).
Proof. cbn [write]. do 2 f_equal. generalize O. induction l as [|x l IH]; intros i; cbn; [done|]. by rewrite IH. Qed.

Definition entry_text (path : jstr) (e : jstr * Json) : jstr + CanonicalJsonError := write_entry path e.1 (write e.2 (member_path path e.1)).

Lemma write_object l path : write (JObject l) path = bracket "{" "}" (comma_texts (map (entry_text path) (by_key (defined l)))).
Proof.
  cbn [write]. do 2 f_equal. match goal with |- map _ (by_key ?w) = _ => assert (w = map (λ e, (e.1, write e.2 (member_path path e.1))) (defined l)) as -> end.
  { induction l as [|[k x] l IH]; cbn; [done|]. destruct (is_undefined x); cbn; by rewrite IH. }
  rewrite /by_key (sort_by_map (λ a b, compareCodePoints16 a.1 b.1)) // map_map. done.
Qed.

(** The items' texts, and the entries'. *)
Lemma array_text l path t : write (JArray l) path = inl t →
  ∃ ts, t = 91 :: join [44] ts ++ [93] ∧ Forall2 (λ x u, ∃ p, write x p = inl u) l ts.
Proof.
  rewrite write_array /bracket. destruct (comma_texts _) as [r|] eqn:Hr; [|done]. intros [= <-]. apply comma_texts_inl in Hr as (ts & Hts & ->).
  exists ts. split; [done|]. revert ts Hts. generalize O. induction l as [|x l IH]; intros i [|u ts] Hts; cbn in Hts; try done.
  injection Hts as H1 H2. constructor; [|by eapply IH]. destruct (is_undefined x); [done|]. eauto.
Qed.

Definition writes_entry (e : jstr * Json) (u : jstr) : Prop := ∃ p v, has_lone_surrogate e.1 = false ∧ write e.2 p = inl v ∧ u = quote e.1 ++ 58 :: v.

Lemma object_text l path t : write (JObject l) path = inl t →
  ∃ ts, t = 123 :: join [44] ts ++ [125] ∧ Forall2 writes_entry (by_key (defined l)) ts.
Proof.
  rewrite write_object /bracket. destruct (comma_texts _) as [r|] eqn:Hr; [|done]. intros [= <-]. apply comma_texts_inl in Hr as (ts & Hts & ->).
  exists ts. split; [done|]. revert ts Hts. induction (by_key (defined l)) as [|e m IH]; intros [|u ts] Hts; cbn in Hts; try done.
  injection Hts as H1 H2. constructor; [|by eapply IH]. rewrite /entry_text /write_entry in H1. destruct (has_lone_surrogate e.1) eqn:Hl; [done|].
  destruct (write e.2 _) as [v|] eqn:Hv; [|done]. injection H1 as <-. by exists (member_path path e.1), v.
Qed.

(** The first character tells the kind of the value. *)
Definition starts_as (v : Json) (c : Z) : Prop :=
  match v with
  | JNull => c = 110
  | JBool b => c = if b then 116 else 102
  | JNumber _ => is_num c = true
  | JString _ => c = 34
  | JArray _ => c = 91
  | JObject _ => c = 123
  | _ => False
  end.

Lemma write_head v path t : js_value v → write v path = inl t → ∃ c r, t = c :: r ∧ starts_as v c.
Proof.
  intros Hv. destruct v as [ |[]|x|s|l|l| | | ]; try done.
  - intros [= <-]. eexists _, _. by split.
  - intros [= <-]. eexists _, _. by split.
  - intros [= <-]. eexists _, _. by split.
  - intros [Hne Hc]%number_chars; [|done]. destruct t as [|c r]; [done|]. exists c, r. split; [done|]. apply Hc. by left.
  - cbn. destruct (has_lone_surrogate s); [done|]. intros [= <-]. eexists _, _. by split.
  - intros (ts & -> & _)%array_text. eexists _, _. by split.
  - intros (ts & -> & _)%object_text. eexists _, _. by split.
Qed.

(** ** A prefix code *)

Definition stops (r : jstr) : Prop := match r with c :: _ => is_num c = false | [] => True end.

(** [a]'s text is told from every other's, whatever follows. *)
Definition coded {A} (R : A → A → Prop) (text : A → jstr → Prop) (a : A) (B : A → Prop) : Prop :=
  ∀ b t u r r', B b → text a t → text b u → stops r → stops r' → t ++ r = u ++ r' → R a b ∧ r = r'.

(** Texts between commas, up to a closing character. *)
Lemma join_coded {A} (R : A → A → Prop) (text : A → jstr → Prop) (B : A → Prop) (close : Z) l l' ts ts' r r' :
  is_num close = false → close ≠ 44 →
  (∀ a t, text a t → B a → ∃ c w, t = c :: w ∧ c ≠ close) →
  Forall (λ a, B a ∧ coded R text a B) l → Forall B l' → Forall2 text l ts → Forall2 text l' ts' →
  join [44] ts ++ close :: r = join [44] ts' ++ close :: r' → Forall2 R l l' ∧ r = r'.
Proof.
  intros Hclose Hcomma Hhead Hl Hl' Ht Ht' E. revert l' ts' Hl' Ht' E.
  assert (Hrest : ∀ (us : list jstr) w, ∃ z, match us with [] => close :: w | _ => 44 :: join [44] us ++ close :: w end = z ∧ stops z) by (intros [|u us] w; eexists; by split).
  assert (Hsplit : ∀ (t : jstr) us w, join [44] (t :: us) ++ close :: w = t ++ match us with [] => close :: w | _ => 44 :: join [44] us ++ close :: w end).
  { intros t [|u us] w; [done|]. cbn [join]. by rewrite -!app_assoc. }
  induction Ht as [|a t l ts Hat Hlt IH]; intros l' ts' Hl' Ht' E.
  - destruct Ht' as [|b u l' ts' Hbu _]; [injection E as ->; by split|]. rewrite Hsplit in E. cbn [join app] in E.
    apply Forall_cons in Hl' as [Hb _]. destruct (Hhead b u Hbu Hb) as (c & w & -> & Hc). injection E as E _. congruence.
  - apply Forall_cons in Hl as [[Ha Hcode] Hl]. destruct Ht' as [|b u l' ts' Hbu Hlt'].
    { rewrite Hsplit in E. cbn [join app] in E. destruct (Hhead a t Hat Ha) as (c & w & -> & Hc). injection E as E _. congruence. }
    apply Forall_cons in Hl' as [Hb Hl']. rewrite !Hsplit in E.
    destruct (Hrest ts r) as (z & Ez & Hz), (Hrest ts' r') as (z' & Ez' & Hz'). rewrite Ez Ez' in E.
    destruct (Hcode b t u z z' Hb Hat Hbu Hz Hz' E) as [HR E']. rewrite -Ez -Ez' in E'.
    destruct Hlt as [|a2 t2 l2 ts2 Ha2 Hlt2], Hlt' as [|b2 u2 l2' ts2' Hb2 Hlt2'].
    + injection E' as ->. split; [by repeat constructor|done].
    + injection E' as E' _. congruence.
    + injection E' as E' _. congruence.
    + injection E' as E'. destruct (IH Hl _ (u2 :: ts2') Hl') as [HF ->]; [by constructor|exact E'|]. split; [by constructor|done].
Qed.

Definition writes (v : Json) (t : jstr) : Prop := ∃ p, write v p = inl t.

Lemma starts_apart c (a b : Json) : starts_as a c → starts_as b c →
  match a, b with
  | JNull, JNull | JNumber _, JNumber _ | JString _, JString _ | JArray _, JArray _ | JObject _, JObject _ => True
  | JBool x, JBool y => x = y
  | _, _ => False
  end.
Proof.
  destruct a as [ |[]| | | | | | | ], b as [ |[]| | | | | | | ]; cbn; intros H1 H2; try done; subst; try done; try (vm_compute in H1; done); try (vm_compute in H2; done).
Qed.

Lemma defined_ok l : js_value (JObject l) → keys_ok (defined l) ∧ Forall (λ e, units_ok e.1 ∧ js_value e.2) (defined l).
Proof.
  intros [Hnd Hall]%js_value_members. rewrite /defined. assert (Hall' : Forall (λ e, units_ok e.1 ∧ js_value e.2) (List.filter (λ e, negb (is_undefined e.2)) l)).
  { rewrite !Forall_forall in Hall |- *. intros e He%list_elem_of_In%filter_In. apply Hall, list_elem_of_In. by destruct He. }
  split; [|done]. split; [|by eapply Forall_impl; [exact Hall'|]; intros e []].
  clear Hall Hall'. induction l as [|e l IH]; cbn; [constructor|]. cbn [map] in Hnd. apply NoDup_cons in Hnd as [Hno Hnd].
  destruct (negb (is_undefined e.2)); [|by apply IH]. cbn [map]. apply NoDup_cons. split; [|by apply IH].
  intros (e' & Ee & [He' _]%filter_In)%list_elem_of_In%in_map_iff. apply Hno. rewrite -Ee. apply list_elem_of_In. by apply in_map.
Qed.

(** The entries of an object tell one another apart as their values do. *)
Lemma entry_coded e : units_ok e.1 → coded same_json writes e.2 js_value →
  coded (λ a b, a.1 = b.1 ∧ same_json a.2 b.2) writes_entry e (λ e, units_ok e.1 ∧ js_value e.2).
Proof.
  intros Hk Hcode e' t u r r' [Hk' Hv'] (p & v & _ & Hv & ->) (q & v' & _ & Hw & ->) Hr Hr'. rewrite -!app_assoc. intros E.
  apply quote_prefix in E as [E1 E2]; [|done|done]. cbn in E2. injection E2 as E2.
  destruct (Hcode e'.2 v v' r r' Hv') as [Hs ->]; try done; by eexists.
Qed.

(** A value's text is read in one way, whatever follows it. *)
Lemma value_coded a : js_value a → coded same_json writes a js_value.
Proof.
  induction a as [ |b|x|s|l IH|l IH| | | ] using json_items_ind; intros Ha b' t u r r' Hb [p Ht] [q Hu] Hr Hr' E; try done;
    (destruct (write_head _ _ _ Ha Ht) as (c & w & Ec & Hc), (write_head _ _ _ Hb Hu) as (c' & w' & Ec' & Hc'));
    assert (c' = c) as -> by (rewrite Ec Ec' in E; by injection E as ->); pose proof (starts_apart c _ _ Hc Hc') as Hkind; clear Ec Ec' Hc Hc' w w' c.
  - destruct b'; try done. injection Ht as <-. injection Hu as <-. split; [constructor|by apply app_inv_head in E].
  - destruct b'; try done. subst. injection Ht as <-. injection Hu as <-. split; [constructor|by apply app_inv_head in E].
  - destruct b' as [ | |y| | | | | | ]; try done. cbn in Ht, Hu, Ha, Hb. destruct (number_chars x p t Ha Ht) as [_ H1], (number_chars y q u Hb Hu) as [_ H2].
    destruct (class_prefix is_num t u r r') as [<- <-]; try done. split; [constructor; by eapply number_inj|done].
  - destruct b' as [ | | |s'| | | | | ]; try done. cbn in Ht, Hu, Ha, Hb. destruct (has_lone_surrogate s), (has_lone_surrogate s'); try done.
    injection Ht as <-. injection Hu as <-. destruct (quote_prefix s s' r r') as [-> ->]; try done. split; [constructor|done].
  - destruct b' as [ | | | |l'| | | | ]; try done. apply array_text in Ht as (ts & -> & Hts), Hu as (us & -> & Hus).
    apply js_value_items in Ha. apply js_value_items in Hb. cbn in E. injection E as E. rewrite -!app_assoc in E.
    destruct (join_coded same_json writes js_value 93 l l' ts us r r') as [HF ->]; try done.
    + intros v t [p' Ht] Hv. destruct (write_head v p' t Hv Ht) as (c & w & -> & Hc). exists c, w. split; [done|]. intros ->. destruct v as [ |[]| | | | | | | ]; done.
    + rewrite !Forall_forall in IH Ha |- *. intros v Hv. split; [by apply Ha|]. apply IH; [done|by apply Ha].
    + split; [by constructor|done].
  - destruct b' as [ | | | | |l'| | | ]; try done. apply object_text in Ht as (ts & -> & Hts), Hu as (us & -> & Hus).
    destruct (defined_ok l Ha) as [_ Hd], (defined_ok l' Hb) as [_ Hd']. cbn in E. injection E as E. rewrite -!app_assoc in E.
    assert (Hper : ∀ m, by_key (defined m) ≡ₚ defined m) by (intros m; apply sort_by_perm).
    destruct (join_coded (λ a b, a.1 = b.1 ∧ same_json a.2 b.2) writes_entry (λ e, units_ok e.1 ∧ js_value e.2) 125 (by_key (defined l)) (by_key (defined l')) ts us r r')
      as [HF ->]; try done.
    + intros e t (p' & v & _ & _ & ->) _. rewrite /quote. eexists _, _. by split.
    + rewrite (Hper l). rewrite !Forall_forall in IH Hd |- *. intros e He. split; [by apply Hd|]. apply entry_coded; [by apply Hd|]. apply IH; [|by apply Hd].
      apply list_elem_of_In. apply list_elem_of_In, filter_In in He. by destruct He.
    + by rewrite (Hper l').
    + split; [|done]. by eapply same_object; [symmetry; apply Hper|symmetry; apply Hper|].
Qed.

(** ** Equal values are written alike *)

Lemma array_write l ts q : Forall2 (λ x u, ∀ p, write x p = inl u) l ts → write (JArray l) q = inl (91 :: join [44] ts ++ [93]).
Proof.
  intros H. rewrite write_array. enough (E : ∀ i, write_items q i l = map inl ts) by by rewrite E comma_texts_join.
  induction H as [|x u l ts Hx H IH]; intros i; cbn; [done|]. rewrite IH Hx. by destruct x; try done; specialize (Hx []).
Qed.

Lemma object_write l ts q :
  Forall2 (λ e u, has_lone_surrogate e.1 = false ∧ ∃ v, (∀ p, write e.2 p = inl v) ∧ u = quote e.1 ++ 58 :: v) (by_key (defined l)) ts →
  write (JObject l) q = inl (123 :: join [44] ts ++ [125]).
Proof.
  intros H. rewrite write_object. enough (E : map (entry_text q) (by_key (defined l)) = map inl ts) by by rewrite E comma_texts_join.
  induction H as [|e u m ts (Hl & v & Hv & ->) H IH]; cbn; [done|]. by rewrite IH /entry_text /write_entry Hl Hv.
Qed.

Lemma same_written a : ∀ b p t, same_json a b → js_value a → js_value b → write a p = inl t → ∀ q, write b q = inl t.
Proof.
  induction a as [ |x|x|s|l IH|l IH| | | ] using json_items_ind; intros b p t Hs Ha Hb Ht q; inversion Hs; subst; try done.
  - cbn in Ht |- *. revert Ht. match goal with H : plain_num _ = _ |- _ => revert H end. destruct x as [ | |n|], y as [ | |m|]; cbn; try done.
    + intros [= <-]. done.
    + intros [= ->]. by intros [= <-].
    + intros [= ->]. by repeat case_match.
    + intros [= -> -> ->]. by repeat case_match.
  - cbn in Ht |- *. by destruct (has_lone_surrogate s).
  - apply array_text in Ht as (ts & -> & Hts). apply array_write. apply js_value_items in Ha. apply js_value_items in Hb. match goal with H : Forall2 same_json l _ |- _ => rename H into HF end. clear Hs.
    revert ts Hts. induction HF as [|x y l l' Hxy HF IHF]; intros ts Hts; inversion Hts as [|? u ? ts' [p' Hu] Hts']; subst; constructor.
    + apply Forall_cons in IH as [IH _], Ha as [Ha _], Hb as [Hb _]. by eapply IH.
    + apply Forall_cons in IH as [_ IH], Ha as [_ Ha], Hb as [_ Hb]. by apply IHF.
  - apply object_text in Ht as (ts & -> & Hts). destruct (defined_ok l Ha) as [Hk Hd], (defined_ok l' Hb) as [Hk' Hd']. apply object_write.
    match goal with H1 : defined l ≡ₚ ?m, H2 : defined l' ≡ₚ ?m', H3 : Forall2 _ ?m ?m' |- _ =>
      pose proof (by_key_forall2 (λ a b, same_json a.2 b.2) m m' H3) as HF; rewrite -(by_key_perm _ _ Hk H1) -(by_key_perm _ _ Hk' H2) in HF end.
    assert (IH' : Forall (λ e, js_value e.2 ∧ ∀ b p t, same_json e.2 b → js_value e.2 → js_value b → write e.2 p = inl t → ∀ q, write b q = inl t) (by_key (defined l))).
    { rewrite /by_key sort_by_perm. rewrite !Forall_forall in IH Hd |- *. intros e He. split; [by apply Hd|]. apply IH. apply list_elem_of_In.
      apply list_elem_of_In, filter_In in He. by destruct He. }
    assert (Hval : Forall (λ e, js_value e.2) (by_key (defined l'))) by (rewrite /by_key sort_by_perm; eapply Forall_impl; [exact Hd'|]; by intros e []).
    clear -HF IH' Hval Hts. revert ts Hts IH' Hval.
    induction HF as [|x y m m' [Hk Hxy] HF IHF]; intros ts Hts IH' Hval; inversion Hts as [|? u ? ts' (p' & v & Hl & Hv & ->) Hts']; subst; constructor.
    + apply Forall_cons in IH' as [[Hx IH'] _], Hval as [Hy _]. rewrite -Hk. split; [done|]. exists v. split; [|done]. by eapply IH'.
    + apply Forall_cons in IH' as [_ IH'], Hval as [_ Hval]. by apply IHF.
Qed.

(** ** What is accepted *)

Definition num_canonical (x : JsNum) : bool :=
  match x with NotFinite => false | NegativeZero => true | Integer n => Z.abs n <=? MAX_SAFE_INTEGER | Fraction _ _ point => in_canonical_range point end.

Fixpoint canonical (v : Json) : bool :=
  match v with
  | JNull | JBool _ => true
  | JNumber x => num_canonical x
  | JString s => negb (has_lone_surrogate s)
  | JArray items => forallb canonical items
  | JObject members => forallb (λ e, is_undefined e.2 || (negb (has_lone_surrogate e.1) && canonical e.2)) members
  | JUndefined | JUnsupported | JExotic => false
  end.

Definition is_text {E} (r : jstr + E) : bool := match r with inl _ => true | inr _ => false end.

Lemma comma_texts_text l : is_text (comma_texts l) = forallb is_text l.
Proof.
  induction l as [|[x|e] l IH]; cbn [comma_texts forallb]; [done| |done]. destruct l as [|y l]; [done|]. cbn [is_text andb]. rewrite -IH. by destruct (comma_texts (y :: l)).
Qed.

Lemma bracket_text o c r : is_text (bracket o c r) = is_text r.
Proof. by destruct r. Qed.

Lemma accepted_exact v path : is_text (write v path) = canonical v.
Proof.
  revert path. induction v as [ |x|x|s|l IH|l IH| | | ] using json_items_ind; intros path; try done.
  - destruct x as [ | |n|neg ds pt]; cbn [write canonicalNumber canonical num_canonical]; [done|done| |]; [by destruct (Z.abs n <=? MAX_SAFE_INTEGER)|by destruct (in_canonical_range pt)].
  - cbn. by destruct (has_lone_surrogate s).
  - rewrite write_array bracket_text comma_texts_text. cbn [canonical]. generalize O. induction IH as [|x l Hx IH IHl]; intros i; cbn; [done|]. rewrite IHl. f_equal.
    destruct (is_undefined x) eqn:Hun; [by destruct x|apply Hx].
  - rewrite write_object bracket_text comma_texts_text. cbn [canonical].
    assert (Hperm : ∀ (f : jstr * Json → bool) m m', m ≡ₚ m' → forallb f m = forallb f m').
    { clear. intros f m m' H. induction H as [| | |]; cbn; [done|by rewrite IHPermutation| |congruence]. by rewrite !andb_assoc (andb_comm (f y)). }
    assert (Hmap : ∀ (m : list (jstr * Json)), forallb is_text (map (entry_text path) m) = forallb (λ e, is_text (entry_text path e)) m) by (induction m as [|e m IHm]; cbn; [done|by rewrite IHm]).
    rewrite Hmap (Hperm _ _ (defined l)); [apply sort_by_perm|]. clear Hmap Hperm.
    induction IH as [|e l He IH IHl]; cbn; [done|]. destruct (is_undefined e.2); cbn [negb]; [exact IHl|]. cbn [forallb orb]. rewrite IHl. f_equal.
    rewrite /entry_text /write_entry. destruct (has_lone_surrogate e.1); [done|]. cbn. rewrite -(He (member_path path e.1)). by destruct (write e.2 _).
Qed.

Lemma canonical_same a b : js_value a → js_value b → canonical a = true → canonicalJson a = canonicalJson b ↔ same_json a b.
Proof.
  intros Ha Hb Hc. rewrite /canonicalJson. pose proof (accepted_exact a []) as Hat. rewrite Hc in Hat. destruct (write a []) as [t|] eqn:Ht; [|done]. split.
  - intros Hu. symmetry in Hu. destruct (value_coded a Ha b t t [] []) as [Hs _]; try done; by exists [].
  - intros Hs. symmetry. by eapply same_written.
Qed.

(** C14. Canonical JSON identifies values. A value has a canonical text exactly when it and all its
    parts are canonical (no lone surrogate, no undefined item, plain, integers safe, other numbers
    within the range), and two values of the language have the same text exactly when they are
    equal up to the order of members, undefined members and the sign of zero. *)
Theorem canonical_json_exact a b :
  js_value a → js_value b →
  (is_text (canonicalJson a) = canonical a) ∧
  (canonical a = true → (canonicalJson a = canonicalJson b ↔ same_json a b)).
Proof.
  intros Ha Hb. split; [apply accepted_exact|]. by apply canonical_same.
Qed.

(** ** Hashes *)

(** A hash identifies the value it is taken of, where SHA-256 tells the two texts apart. *)
Lemma hash_identifies sha a b h : js_value a → js_value b →
  (∀ t u, canonicalJson a = inl t → canonicalJson b = inl u → sha t = sha u → t = u) →
  json_hash sha a = inl h → json_hash sha b = inl h ↔ same_json a b.
Proof.
  intros Ha Hb Hsha. rewrite /json_hash. destruct (canonicalJson a) as [t|] eqn:Ht; [|done]. intros [= <-].
  assert (Hc : canonical a = true) by by rewrite -(accepted_exact a []) -/(canonicalJson a) Ht.
  rewrite -(canonical_same a b Ha Hb Hc) Ht. destruct (canonicalJson b) as [u|] eqn:Hu; [|by split]. split.
  - intros [= E]. f_equal. by apply Hsha.
  - by intros [= ->].
Qed.

Lemma member_ok k x l : js_value (JObject l) → map_get k l = Some x → units_ok k ∧ js_value x.
Proof. intros [_ Hall]%js_value_members Hg%map_get_In. rewrite Forall_forall in Hall. exact (Hall (k, x) (proj2 (list_elem_of_In _ _) Hg)). Qed.

Lemma without_ok k v : js_value v → js_value (json_without k v).
Proof.
  destruct v as [ | | | | |l| | | ]; try done. intros [Hnd Hall]%js_value_members. apply js_value_members. split.
  - clear Hall. induction l as [|e l IH]; cbn; [constructor|]. cbn [map] in Hnd. apply NoDup_cons in Hnd as [Hno Hnd].
    destruct (negb _); [|by apply IH]. cbn [map]. apply NoDup_cons. split; [|by apply IH].
    intros (e' & Ee & [He' _]%filter_In)%list_elem_of_In%in_map_iff. apply Hno. rewrite -Ee. apply list_elem_of_In. by apply in_map.
  - rewrite !Forall_forall in Hall |- *. intros e [He _]%list_elem_of_In%filter_In. by apply Hall, list_elem_of_In.
Qed.

Lemma set_ok k x v : js_value v → units_ok k → js_value x → js_value (json_set k x v).
Proof.
  destruct v as [ | | | | |l| | | ]; try done. intros [Hnd Hall]%js_value_members Hk Hx. apply js_value_members. split; [by apply map_set_NoDup|].
  clear Hnd. induction Hall as [|[k' y] l He Hall IH]; cbn; [by constructor; [split|constructor]|]. destruct (decide _); by constructor.
Qed.

Lemma node_spec_ok spec : js_value spec → js_value (nodeRuntimeSpec spec).
Proof.
  intros Hv. rewrite /nodeRuntimeSpec. destruct (_ || _); [done|]. destruct spec as [ | | | | |l| | | ]; try done.
  unfold json_get. destruct (map_get (js "launch") l) as [x|] eqn:Hg; cbn [default].
  - destruct (member_ok _ _ _ Hv Hg) as [Hk Hx]. by apply set_ok, without_ok.
  - apply set_ok; [done| |done]. intros c Hc. vm_compute in Hc. repeat (destruct Hc as [<-|Hc]; [done|]). done.
Qed.

(** Two versions with one launch hash are one spec to a node: they differ in reservations at most. *)
Lemma launch_hash_identifies sha a b h : js_value a → js_value b →
  (∀ t u, canonicalJson (nodeRuntimeSpec a) = inl t → canonicalJson (nodeRuntimeSpec b) = inl u → sha t = sha u → t = u) →
  runtimeLaunchHash sha a = inl h → runtimeLaunchHash sha b = inl h ↔ same_json (nodeRuntimeSpec a) (nodeRuntimeSpec b).
Proof. intros Ha Hb Hsha. apply hash_identifies; [by apply node_spec_ok..|done]. Qed.

(** ** Examples *)

Definition launch_example : Json :=
  JObject [(js "b", JArray [JNumber (Integer 2); JNumber (Fraction true [5] 0); JNull]); (js "a", JString [34; 10; 233]); (js "z", JUndefined)].

Example launch_example_text :
  canonicalJson launch_example = inl (js "{" ++ quote (js "a") ++ js ":" ++ [34; 92; 34; 92; 110; 233; 34] ++ js "," ++ quote (js "b") ++ js ":[2,-0.5,null]}").
Proof. vm_compute. done. Qed.

Definition launch_reordered : Json :=
  JObject [(js "a", JString [34; 10; 233]); (js "b", JArray [JNumber (Integer 2); JNumber (Fraction true [5] 0); JNull])].

Lemma canonical_json_exact_witness : same_json launch_example launch_reordered ∧ canonicalJson launch_example ≠ canonicalJson (JObject [(js "a", JNull)]).
Proof.
  assert (Hv : js_value launch_example ∧ js_value launch_reordered ∧ js_value (JObject [(js "a", JNull)])).
  { assert (Hf : fraction_ok [5] 0) by (split_and!; [by intros d [<-|[]]|by exists 5, []|done]).
    assert (Hu : ∀ s, forallb (in_range 0 65535) s = true → units_ok s).
    { intros s H c Hc. rewrite forallb_forall in H. specialize (H c Hc). rewrite /in_range andb_true_iff !Z.leb_le in H. lia. }
    assert (Hn : ∀ l : list jstr, bool_decide (NoDup l) = true → NoDup l) by (intros l; apply bool_decide_eq_true_1).
    split_and!; cbn -[units_ok fraction_ok js]; split_and!; try done; try exact Hf; try (by apply Hu); by apply Hn. }
  destruct Hv as (H1 & H2 & H3). split.
  - apply (proj2 (canonical_json_exact launch_example launch_reordered H1 H2)); by vm_compute.
  - by vm_compute.
Defined.
