(* ===== verification/Profiles.v ===== *)
(** * Profiles: what applying a profile does

    [packages/api/src/profiles/plan.ts], [lib/profile-holds.ts], [lib/profile-save.ts] and the
    definition warnings of [lib/runtime-spec.ts]: the hold changes of an apply, the rule for hold
    lines on a save, and the plan (what is kept, what stops, what starts where) on the placement
    planner. Message texts of refusals are left out; details of warnings are kept, which [dedupeWarnings]
    compares. *)
From Stdlib Require Import ssreflect.
From S2P Require Import Prelude JsString PlacementFit PlacementModel PlacementRules PlacementPlanner.

(** ** Holds *)

Record NodeHoldState : Type := mkHoldState { nh_holdAt : option Z; nh_profileId : option string }.

Record ProfileHoldLine : Type := mkLine { hl_nodeId : string; hl_hold : bool; hl_note : option string }.

Inductive Caller : Type := person | agent.
#[export] Instance Caller_eq : EqDecision Caller.
Proof. solve_decision. Defined.

Inductive ProfileHoldPlan : Type :=
| HoldsPlanned (hold : list (string * option string)) (release keep : list string)
| HoldsRefused (nodeIds : list string).

(** The four lists of the loop of [planProfileHolds]. *)
Record HoldLists : Type := mkHolds { ho_hold : list (string * option string); ho_release : list string; ho_keep : list string; ho_refused : list string }.

Definition is_held (state : option NodeHoldState) : bool := match state with Some s => bool_decide (is_Some (nh_holdAt s)) | None => false end.

Definition hold_line (profileId : string) (caller : Caller) (current : jsmap string NodeHoldState) (h : HoldLists) (line : ProfileHoldLine) : HoldLists :=
  let state := map_get (hl_nodeId line) current in
  let held := is_held state in
  let ours := held && match state with Some s => bool_decide (nh_profileId s = Some profileId) | None => false end in
  if hl_hold line then
    if negb held || ours then mkHolds (ho_hold h ++ [(hl_nodeId line, hl_note line)]) (ho_release h) (ho_keep h) (ho_refused h)
    else mkHolds (ho_hold h) (ho_release h) (ho_keep h ++ [hl_nodeId line]) (ho_refused h)
  else if negb held then h
  else if ours || bool_decide (caller = person) then mkHolds (ho_hold h) (ho_release h ++ [hl_nodeId line]) (ho_keep h) (ho_refused h)
  else mkHolds (ho_hold h) (ho_release h) (ho_keep h) (ho_refused h ++ [hl_nodeId line]).

Definition planProfileHolds (profileId : string) (caller : Caller) (lines : list ProfileHoldLine) (current : jsmap string NodeHoldState) : ProfileHoldPlan :=
  let h := fold_left (hold_line profileId caller current) lines (mkHolds [] [] [] []) in
  match ho_refused h with [] => HoldsPlanned (ho_hold h) (ho_release h) (ho_keep h) | refused => HoldsRefused refused end.

(** ** Hold lines of a save *)

Definition HoldLine : Type := string * option string.

Inductive SaveRefusal : Type := human_only | duplicate_hold | hold_not_owned.

Inductive ProfileSavePlan : Type :=
| SavePlanned (holds : list HoldLine)
| SaveRefused (reason : SaveRefusal) (nodeIds : list string).

(** [key]: an absent note and an empty one are one. *)
Definition line_key (line : HoldLine) : string * string := (line.1, default "" line.2).

(** The lines whose node an earlier line has. *)
Fixpoint duplicate_lines (seen : list string) (l : list HoldLine) : list HoldLine :=
  match l with
  | [] => []
  | line :: l' => if bool_decide (line.1 ∈ seen) then line :: duplicate_lines seen l' else duplicate_lines (seen ++ [line.1]) l'
  end.

Definition planProfileSave (caller : Caller) (before : list HoldLine) (nodeIds : list string) (requested : option (list HoldLine)) : ProfileSavePlan :=
  let holds := default before requested in
  let changed :=
    map fst (List.filter (λ l, negb (bool_decide (line_key l ∈ map line_key holds))) before
             ++ List.filter (λ l, negb (bool_decide (line_key l ∈ map line_key before))) holds) in
  let dropped := map fst (List.filter (λ l, negb (bool_decide (l.1 ∈ nodeIds))) before) in
  if bool_decide (caller = agent) && negb (bool_decide (changed = [])) then SaveRefused human_only (set_of changed)
  else if bool_decide (caller = agent) && negb (bool_decide (dropped = [])) then SaveRefused human_only dropped
  else
    match duplicate_lines [] holds with
    | _ :: _ as duplicates => SaveRefused duplicate_hold (map fst duplicates)
    | [] =>
        match map fst (List.filter (λ l, negb (bool_decide (l.1 ∈ nodeIds))) holds) with
        | _ :: _ as stray => SaveRefused hold_not_owned stray
        | [] => SavePlanned holds
        end
    end.

(** ** Definition warnings *)

Inductive CommandLine : Type := LineText (s : jstr) | LineArgv (argv : list jstr).

Definition commandLineText (command : CommandLine) : jstr := match command with LineText s => s | LineArgv argv => join (js " ") argv end.

(** One rank's commands: the lines present among [COMMAND_FIELDS], and the values of [interactive]. *)
Record RankCommands : Type := mkCommands { cm_lines : list CommandLine; cm_interactive : list bool }.

Record PlanLaunch : Type := mkLaunch { la_shape : LaunchShape; la_commands : list RankCommands }.
Record PlanSpec : Type := mkSpec { sp_baseUrl : option jstr; sp_launch : option PlanLaunch }.

(** The characters that may stand before an address, and after it. *)
Definition opens_address (c : Z) : bool := js_space c || bool_decide (c ∈ [61; 58; 39; 34; 40; 44; 47]).
Definition closes_address (c : Z) : bool := js_space c || bool_decide (c ∈ [58; 39; 34; 47; 41; 44; 93]).

Definition all_interfaces_at (s : jstr) : bool :=
  existsb (λ lit, startsWith lit s && match drop (length lit) s with [] => true | c :: _ => closes_address c end) [js "0.0.0.0"; js "[::]"; js "::"].

(** [ALL_INTERFACES.test]. *)
Fixpoint all_interfaces (boundary : bool) (s : jstr) : bool :=
  (boundary && all_interfaces_at s) || match s with [] => false | c :: s' => all_interfaces (opens_address c) s' end.

Definition ends_command (c : Z) : bool := bool_decide (c ∈ [59; 38; 124]).
Definition is_word (c : Z) : bool := is_digit c || is_lower c || is_upper c || (c =? 95).

(** The lookahead: a host option before the command ends. *)
Fixpoint host_ahead (s : jstr) : bool :=
  (startsWith (js "--host") s && match drop 6 s with c :: _ => js_space c || (c =? 61) | [] => false end)
  || match s with c :: s' => negb (ends_command c) && host_ahead s' | [] => false end.

Fixpoint skip_spaces (s : jstr) : jstr := match s with c :: s' => if js_space c then skip_spaces s' else s | [] => [] end.

Definition vllm_serve_at (s : jstr) : bool :=
  startsWith (js "vllm") s
  && match drop 4 s with
     | c :: _ as r =>
         js_space c && startsWith (js "serve") (skip_spaces r)
         && (let rest := drop 5 (skip_spaces r) in
             match rest with c :: _ => negb (is_word c) | [] => true end && negb (host_ahead rest))
     | [] => false
     end.

(** [VLLM_SERVE_WITHOUT_HOST.test]. *)
Fixpoint vllm_serve (boundary : bool) (s : jstr) : bool :=
  (boundary && vllm_serve_at s) || match s with [] => false | c :: s' => vllm_serve (js_space c || ends_command c) s' end.

(** Whether [runtimeSpecWarnings] answers [binds_all_interfaces], its one warning. *)
Definition runtimeSpecWarnings (spec : PlanSpec) : bool :=
  let texts := match sp_baseUrl spec with Some u => [u] | None => [] end
               ++ concat (map (λ c, map commandLineText (cm_lines c)) (match sp_launch spec with Some l => la_commands l | None => [] end)) in
  existsb (λ t, all_interfaces true t || vllm_serve true t) texts.

(** ** The plan *)

Record PlanNode : Type := mkPlanNode {
  pd_id : string;
  pd_slug : string;
  pd_online : bool;
  pd_trust : NodeTrust;
  pd_labels : list string;
  pd_hold : NodeHoldState;
  pd_portRange : Z * Z;
  pd_heldVersionIds : list string;
  pd_requiredVersionIds : list string;
  pd_frozenFabrics : FrozenFabrics;
  pd_memoryGb : Z;
  pd_gpus : list PlacementGpu;
  pd_liveFreeMemoryGb : option Z;
  pd_launch : option LaunchCapabilities;
}.

Record PlanInstance : Type := mkPlanInstance {
  pe_id : string;
  pe_runtimeId : string;
  pe_launchVersionId : string;
  pe_desiredRunning : bool;
  pe_rankNodeIds : list string;
  pe_reservationNodeIds : list string;
  pe_agentBlockedNodeId : option string;
}.

Record PlanItem : Type := mkItem {
  pt_id : string;
  pt_position : Z;
  pt_runtimeId : string;
  pt_versionId : string;
  pt_count : Z;
  pt_nodeIds : list string;
}.

Record PlanVersion : Type := mkVersion {
  pw_id : string;
  pw_runtimeId : string;
  pw_runtimeSlug : string;
  pw_currentVersionId : option string;
  pw_spec : option PlanSpec;
  pw_nodeOrigin : bool;
}.

Record PlanInput : Type := mkPlanInput {
  in_profileId : string;
  in_owned : list ProfileHoldLine;
  in_nodes : jsmap string PlanNode;
  in_items : list PlanItem;
  in_versions : jsmap string PlanVersion;
  in_instances : list PlanInstance;
  in_claimants : list PlacementInstance;
  in_callerId : string;
  in_fabrics : list PlacementFabric;
  in_agentRules : bool;
}.

(** The preview: refusals without their texts. *)
Inductive PlanReason : Type := of_placement (r : RefusalReason) | definition_missing.

Record PlanRefusal : Type := mkPlanRefusal { rl_reason : PlanReason; rl_subjectId : option string; rl_which : option (nat * list string * option string) }.

Inductive PlanWarningCode : Type := of_warning (c : WarningCode) | pins_outdated | definition_not_on_node | binds_all_interfaces.

Record PlanWarning : Type := mkWarning { wn_code : PlanWarningCode; wn_nodeId : option string; wn_detail : string }.

Record PreviewStart : Type := mkPreviewStart {
  sv_runtimeId : string;
  sv_versionId : string;
  sv_placements : list PlannedPlacement;
  sv_reservations : list PlannedReservation;
  sv_fabric : option (string * string * string);
  sv_distPort : option Z;
}.

Inductive HoldChangeKind : Type := change_hold | change_release | change_keep.
Inductive HeldBy : Type := this_profile | by_person | other_profile.
Record HoldChange : Type := mkChange { hc_nodeId : string; hc_change : HoldChangeKind; hc_heldBy : option HeldBy; hc_note : option string }.

(** A stop is the instance and its runtime; its reason is always [profile_owned_node]. *)
Record Preview : Type := mkPreview {
  vw_starts : list PreviewStart;
  vw_stops : list (string * string);
  vw_kept : list string;
  vw_holds : list HoldChange;
  vw_warnings : list PlanWarning;
  vw_refusals : list PlanRefusal;
}.

Record ProfilePlan : Type := mkPlan {
  pa_preview : Preview;
  pa_holdNodeIds : list string;
  pa_releaseNodeIds : list string;
  pa_blockedBy : list (list string);
}.

Definition plan_refusal (reason : RefusalReason) (subjectId : option string) : PlanRefusal := mkPlanRefusal (of_placement reason) subjectId None.

Definition instanceServesItem (instance : PlanInstance) (item : PlanItem) (ownedIds holdLines : list string) : bool :=
  if negb (bool_decide (pe_runtimeId instance = pt_runtimeId item)) || negb (bool_decide (pe_launchVersionId instance = pt_versionId item)) then false
  else if bool_decide (pe_rankNodeIds instance = []) then false
  else
    let free := List.filter (λ id, negb (bool_decide (id ∈ holdLines))) in
    let allowed := free (match pt_nodeIds item with [] => ownedIds | ids => ids end) in
    if negb (forallb (λ id, bool_decide (id ∈ allowed)) (pe_rankNodeIds instance)) then false
    else forallb (λ id, bool_decide (id ∈ free ownedIds)) (pe_reservationNodeIds instance).

Definition profileHoldsFor (input : PlanInput) : ProfileHoldPlan :=
  planProfileHolds (in_profileId input) (if in_agentRules input then agent else person) (in_owned input)
    (fold_left (λ m e, map_set (pd_id e.2) (pd_hold e.2) m) (in_nodes input) []).

Definition heldBy (profileId : string) (hold : option NodeHoldState) : option HeldBy :=
  match hold with
  | Some (mkHoldState (Some _) None) => Some by_person
  | Some (mkHoldState (Some _) (Some p)) => Some (if bool_decide (p = profileId) then this_profile else other_profile)
  | _ => None
  end.

Definition node_hold (input : PlanInput) (id : string) : option NodeHoldState := option_map pd_hold (map_get id (in_nodes input)).

Definition holdChanges (input : PlanInput) (holds : ProfileHoldPlan) : list HoldChange :=
  match holds with
  | HoldsRefused _ => []
  | HoldsPlanned hold release keep =>
      let notes := fold_left (λ m line, map_set (hl_nodeId line) (hl_note line) m) (in_owned input) [] in
      let change kind nodeId :=
        mkChange nodeId kind (heldBy (in_profileId input) (node_hold input nodeId))
          (match kind with change_hold => default None (map_get nodeId notes) | _ => None end) in
      sort_by (λ a b, compareCodePoints (hc_nodeId a) (hc_nodeId b))
        (map (λ l, change change_hold l.1) hold ++ map (change change_release) release ++ map (change change_keep) keep)
  end.

(** *** Keep or stop *)

Record KeepState : Type := mkKeep {
  ks_slots : jsmap string Z;
  ks_kept : list string;
  ks_stops : list (string * string);
  ks_keptPerItem : jsmap string Z;
  ks_refusals : list PlanRefusal;
}.

Definition slots_of (k : KeepState) (id : string) : Z := default 0 (map_get id (ks_slots k)).
Definition kept_of (k : KeepState) (id : string) : Z := default 0 (map_get id (ks_keptPerItem k)).

Definition keep_step (input : PlanInput) (ownedIds holdLines : list string) (k : KeepState) (instance : PlanInstance) : KeepState :=
  if negb (pe_desiredRunning instance) then k
  else
    match List.find (λ candidate, (0 <? slots_of k (pt_id candidate)) && instanceServesItem instance candidate ownedIds holdLines) (in_items input) with
    | Some item =>
        mkKeep (map_set (pt_id item) (slots_of k (pt_id item) - 1) (ks_slots k)) (ks_kept k ++ [pe_id instance]) (ks_stops k)
          (map_set (pt_id item) (kept_of k (pt_id item) + 1) (ks_keptPerItem k)) (ks_refusals k)
    | None =>
        mkKeep (ks_slots k) (ks_kept k) (ks_stops k ++ [(pe_id instance, pe_runtimeId instance)]) (ks_keptPerItem k)
          (ks_refusals k ++
           match pe_agentBlockedNodeId instance with
           | Some node => if in_agentRules input && negb (bool_decide (node = EmptyString)) && negb (bool_decide (node ∈ ownedIds)) then [plan_refusal R_trust_relay (Some node)] else []
           | None => []
           end)
    end.

Definition keep_all (input : PlanInput) (ownedIds holdLines : list string) : KeepState :=
  fold_left (keep_step input ownedIds holdLines) (sort_by (λ a b, compareCodePoints (pe_id a) (pe_id b)) (in_instances input))
    (mkKeep (fold_left (λ m item, map_set (pt_id item) (pt_count item) m) (in_items input) []) [] [] [] []).

(** *** Starts *)

Definition placement_node (node : PlanNode) : PlacementNode :=
  {| pn_id := pd_id node; pn_slug := pd_slug node; pn_online := pd_online node; pn_trust := pd_trust node; pn_held := false; pn_labels := pd_labels node;
     pn_portRange := pd_portRange node; pn_heldVersionIds := pd_heldVersionIds node; pn_requiredVersionIds := pd_requiredVersionIds node;
     pn_frozenFabrics := pd_frozenFabrics node; pn_memoryGb := pd_memoryGb node; pn_gpus := pd_gpus node;
     pn_liveFreeMemoryGb := pd_liveFreeMemoryGb node; pn_launch := pd_launch node |}.

Definition plan_context (input : PlanInput) (stopping : list string) : PlacementContext :=
  {| pc_callerId := in_callerId input; pc_agent := in_agentRules input; pc_nodes := map (λ e, placement_node e.2) (in_nodes input);
     pc_instances := in_claimants input; pc_fabrics := in_fabrics input; pc_stopping := stopping; pc_workBudget := None |}.

Record StartState : Type := mkStarts {
  ss_planner : Planner;
  ss_starts : list PreviewStart;
  ss_blockedBy : list (list string);
  ss_refusals : list PlanRefusal;
  ss_warnings : list PlanWarning;
}.

Definition start_request (item : PlanItem) (version : PlanVersion) (launch : PlanLaunch) (placeable : list string) : PlacementRequest :=
  {| rq_runtimeId := pt_runtimeId item; rq_versionId := pt_versionId item; rq_launch := la_shape launch; rq_nodeIds := None; rq_restart := None;
     rq_allowedNodeIds := Some (set_of (List.filter (λ id, bool_decide (id ∈ placeable)) (match pt_nodeIds item with [] => placeable | ids => ids end)));
     rq_reservationNodeIds := Some placeable; rq_retake := false; rq_checkFrozen := true; rq_nodeOrigin := pw_nodeOrigin version; rq_preempt := false |}.

(** The planner's fixed texts. *)
Definition warning_detail (c : WarningCode) : string :=
  match c with
  | low_free_memory => "The node reports less free memory than this rank declares."
  | interactive_needs_person => "A stopped instance has a stop step a person runs in a terminal."
  | waits_for_stop => "An instance that is already stopping holds room on this node; this start waits until the node releases it."
  end.

Definition not_on_node (input : PlanInput) (version : PlanVersion) (placement : PlannedPlacement) : list PlanWarning :=
  match map_get (pp_nodeId placement) (in_nodes input) with
  | Some node =>
      if bool_decide (pd_trust node = Full) && negb (bool_decide (pw_id version ∈ pd_heldVersionIds node))
      then [mkWarning definition_not_on_node (Some (pd_id node)) (pw_runtimeSlug version +:+ " is sent to " +:+ pd_slug node +:+ " before it starts.")] else []
  | None => []
  end.

(** The starts an item still misses; a refusal ends them. [None] when the planner does not answer. *)
Fixpoint start_missing (input : PlanInput) (item : PlanItem) (version : PlanVersion) (request : PlacementRequest) (missing : nat) (s : StartState) : option StartState :=
  match missing with
  | O => Some s
  | S missing' =>
      match place (ss_planner s) request with
      | None => None
      | Some (p, Refused r) =>
          Some (mkStarts p (ss_starts s) (ss_blockedBy s)
                  (ss_refusals s ++ [mkPlanRefusal (of_placement (rf_reason r)) (Some (default (pt_runtimeId item) (rf_subjectId r))) (rf_reservation r)]) (ss_warnings s))
      | Some (p, Placed start _ warnings) =>
          start_missing input item version request missing'
            (mkStarts p
               (ss_starts s ++ [mkPreviewStart (pt_runtimeId item) (pt_versionId item) (st_placements start) (st_reservations start) (st_fabric start) (st_distPort start)])
               (ss_blockedBy s ++ [st_blockedBy start]) (ss_refusals s)
               (ss_warnings s ++ map (λ w, mkWarning (of_warning w.1) w.2 (warning_detail w.1)) warnings ++ concat (map (not_on_node input version) (st_placements start))))
      end
  end.

(** The warnings of a pinned version. *)
Definition version_warnings (item : PlanItem) (version : PlanVersion) (spec : PlanSpec) (launch : PlanLaunch) : list PlanWarning :=
  (match pw_currentVersionId version with
   | Some current => if negb (bool_decide (current = pt_versionId item)) then [mkWarning pins_outdated None (pw_runtimeSlug version +:+ " has a newer version than the pin.")] else []
   | None => []
   end)
  ++ (if runtimeSpecWarnings spec then [mkWarning binds_all_interfaces None (pw_runtimeSlug version +:+ " binds every interface.")] else [])
  ++ (if existsb (λ c, existsb id (cm_interactive c)) (la_commands launch)
      then [mkWarning (of_warning interactive_needs_person) None (pw_runtimeSlug version +:+ " has a step a person runs in a terminal.")] else []).

Definition start_item (input : PlanInput) (placeable : list string) (k : KeepState) (s : StartState) (item : PlanItem) : option StartState :=
  match map_get (pt_versionId item) (in_versions input) with
  | Some version =>
      match pw_spec version with
      | Some spec =>
          match sp_launch spec with
          | Some launch =>
              start_missing input item version (start_request item version launch placeable) (Z.to_nat (pt_count item - kept_of k (pt_id item)))
                (mkStarts (ss_planner s) (ss_starts s) (ss_blockedBy s) (ss_refusals s) (ss_warnings s ++ version_warnings item version spec launch))
          | None => Some (mkStarts (ss_planner s) (ss_starts s) (ss_blockedBy s) (ss_refusals s ++ [mkPlanRefusal definition_missing (Some (pt_runtimeId item)) None]) (ss_warnings s))
          end
      | None => Some (mkStarts (ss_planner s) (ss_starts s) (ss_blockedBy s) (ss_refusals s ++ [mkPlanRefusal definition_missing (Some (pt_runtimeId item)) None]) (ss_warnings s))
      end
  | None => Some (mkStarts (ss_planner s) (ss_starts s) (ss_blockedBy s) (ss_refusals s ++ [mkPlanRefusal definition_missing (Some (pt_runtimeId item)) None]) (ss_warnings s))
  end.

Definition start_items (input : PlanInput) (placeable : list string) (k : KeepState) (items : list PlanItem) (s : StartState) : option StartState :=
  fold_left (λ st item, st ≫= λ s, start_item input placeable k s item) items (Some s).

(** [dedupeWarnings] *)
Definition warning_code_name (c : PlanWarningCode) : string :=
  match c with
  | of_warning low_free_memory => "low_free_memory"
  | of_warning interactive_needs_person => "interactive_needs_person"
  | of_warning waits_for_stop => "waits_for_stop"
  | pins_outdated => "pins_outdated"
  | definition_not_on_node => "definition_not_on_node"
  | binds_all_interfaces => "binds_all_interfaces"
  end.

Definition warning_key (w : PlanWarning) : string := warning_code_name (wn_code w) +:+ "|" +:+ default "null" (wn_nodeId w) +:+ "|" +:+ wn_detail w.

Fixpoint dedupe_from (seen : list string) (l : list PlanWarning) : list PlanWarning :=
  match l with
  | [] => []
  | w :: l' => if bool_decide (warning_key w ∈ seen) then dedupe_from seen l' else w :: dedupe_from (seen ++ [warning_key w]) l'
  end.

Definition dedupeWarnings (l : list PlanWarning) : list PlanWarning := dedupe_from [] l.

(** *** [profilePlan] *)

Definition owned_ids (input : PlanInput) : list string := sort_by compareCodePoints (map hl_nodeId (in_owned input)).
Definition hold_lines (input : PlanInput) : list string := map hl_nodeId (List.filter hl_hold (in_owned input)).

(** Agents may not apply a profile that owns a Relay-only node. *)
Definition trust_refusals (input : PlanInput) : list PlanRefusal :=
  concat (map (λ id, match map_get id (in_nodes input) with
                     | Some node => if in_agentRules input && bool_decide (pd_trust node = Relay) then [plan_refusal R_trust_relay (Some id)] else []
                     | None => []
                     end) (owned_ids input)).

Definition hold_refusals (holds : ProfileHoldPlan) : list PlanRefusal :=
  match holds with HoldsRefused ids => map (λ id, plan_refusal R_node_held (Some id)) ids | HoldsPlanned _ _ _ => [] end.

Definition hold_ids (holds : ProfileHoldPlan) : list string := match holds with HoldsPlanned hold _ _ => sort_by compareCodePoints (map fst hold) | HoldsRefused _ => [] end.
Definition release_ids (holds : ProfileHoldPlan) : list string := match holds with HoldsPlanned _ release _ => sort_by compareCodePoints release | HoldsRefused _ => [] end.

(** The nodes starts may use. *)
Definition placeable_nodes (input : PlanInput) (released : list string) : list string :=
  set_of (List.filter (λ id, negb (bool_decide (id ∈ hold_lines input)) && (negb (is_held (node_hold input id)) || bool_decide (id ∈ released))) (owned_ids input)).

Definition profilePlan (input : PlanInput) : option ProfilePlan :=
  let holds := profileHoldsFor input in
  let placeable := placeable_nodes input (release_ids holds) in
  let k := keep_all input (owned_ids input) (hold_lines input) in
  let refusals := trust_refusals input ++ hold_refusals holds ++ ks_refusals k in
  let planner := new_planner (plan_context input (set_of (map fst (ks_stops k)))) in
  s ← start_items input placeable k (sort_by (λ a b, pt_position a - pt_position b) (in_items input)) (mkStarts planner [] [] refusals []);
  Some (mkPlan
    (mkPreview (ss_starts s) (sort_by (λ a b, compareCodePoints a.1 b.1) (ks_stops k)) (sort_by compareCodePoints (ks_kept k))
       (holdChanges input holds) (dedupeWarnings (ss_warnings s)) (ss_refusals s))
    (hold_ids holds) (release_ids holds) (ss_blockedBy s)).
