(* ===== verification/ProfileStore.v ===== *)
(** * ProfileStore: saving, deleting and applying a profile

    The procedures of [packages/api/src/profiles/procedures.ts] with [contracts/auth-context.ts],
    [lib/caller-actor.ts], [markInstancesStopping] and [writePlannedStarts] of [lib/runtime-store.ts]
    and [occupiesNodesWhere] of [lib/instance-occupancy.ts], on the tables they read and write. A procedure is a function from
    tables to tables or the error that rolled its transaction back. An apply plans on the tables as
    it reads them and writes to the tables as they are when it has locked the rows: two arguments.
    Ids the database or the process draws, the clock and the fingerprint of a preview are arguments. *)
From Stdlib Require Import ssreflect.
From S2P Require Import Prelude PlacementModel PlacementPlanner Profiles.

(** ** Callers *)

Inductive AgentLevel : Type := READ | FULL.
#[export] Instance AgentLevel_eq : EqDecision AgentLevel.
Proof. solve_decision. Defined.

Inductive CallerAuth : Type :=
| cookie_session (csrfVerified : bool)
| agent_token (level : AgentLevel)
| oauth_access_token (level : AgentLevel)
| api_key
| anonymous.

Definition isHumanCaller (auth : CallerAuth) : bool := match auth with cookie_session v => v | _ => false end.
Definition isAgentCaller (auth : CallerAuth) : bool := match auth with agent_token _ | oauth_access_token _ => true | _ => false end.
Definition agentRulesApply (auth : CallerAuth) : bool := negb (isHumanCaller auth).

(** [callerMayReach] of the access level [agent]. *)
Definition mayReachAgent (auth : CallerAuth) : bool := match auth with cookie_session _ => true | _ => isAgentCaller auth end.

Inductive Actor : Type := USER | AGENT.

Inductive ProfileError : Type :=
| not_reachable
| read_only_agent
| csrf_header_needed
| node_listed_twice
| unknown_node (missing : option string)
| profile_not_found
| save_refused (reason : SaveRefusal)
| runtime_not_found (id : string)
| not_startable
| pins_and_version
| version_not_found (id : string)
| no_version_yet
| item_node_not_owned
| profile_changed
| slug_taken
| delete_human_only
| preview_required
| preview_stale
| plan_refused (r : PlanRefusal)
| node_held (id : string)
| plan_failed.

(** [assertMayWrite]: whether it throws. *)
Definition mayWrite (auth : CallerAuth) : bool := match auth with agent_token l | oauth_access_token l => bool_decide (l = FULL) | _ => true end.

Definition callerActor (auth : CallerAuth) : Actor + ProfileError :=
  if negb (mayWrite auth) then inr read_only_agent
  else match auth with
       | agent_token _ | oauth_access_token _ => inl AGENT
       | cookie_session true => inl USER
       | _ => inr csrf_header_needed
       end.

(** ** Tables *)

Record NodeRow : Type := mkNodeRow { no_id : string; no_userId : string; no_holdAt : option Z; no_holdNote : option string; no_holdProfileId : option string }.

(** A profile with its [profile_node] and [profile_item] rows. *)
Record ProfileRow : Type := mkProfileRow {
  po_id : string;
  po_userId : string;
  po_slug : string;
  po_name : string;
  po_editor : Actor;
  po_updatedAt : Z;
  po_lines : list ProfileHoldLine;
  po_items : list PlanItem;
}.

(** [nodeOrigin]: the origin is NODE. *)
Record RuntimeRow : Type := mkRuntimeRow { ru_id : string; ru_userId : string; ru_startable : bool; ru_currentVersionId : option string; ru_slug : string; ru_nodeOrigin : bool }.

(** [spec]: what [runtimeSpecSchema.safeParse] makes of the column. *)
Record VersionRow : Type := mkVersionRow { ve_id : string; ve_runtimeId : string; ve_spec : option PlanSpec }.

Inductive ClaimStateValue : Type := HELD | HELD_UNKNOWN | RELEASED.
#[export] Instance ClaimStateValue_eq : EqDecision ClaimStateValue.
Proof. solve_decision. Defined.

(** The rank and the reservation rows of an instance; the node is null once it was deleted. *)
Record OccupancyRank : Type := mkOccupancyRank { oc_nodeId : option string; oc_claim : ClaimStateValue }.
Record OccupancyReservation : Type := mkOccupancyReservation { ov_nodeId : option string; ov_supersededGeneration : option Z }.

(** [desired]: [Some true] is RUNNING, [Some false] STOPPED, [None] an always-on instance's null. *)
Record InstanceRow : Type := mkInstanceRow {
  ir_id : string;
  ir_userId : string;
  ir_runtimeId : string;
  ir_launchVersionId : string;
  ir_desired : option bool;
  ir_operationId : option string;
  ir_ranks : list OccupancyRank;
  ir_reservations : list OccupancyReservation;
  ir_blockedBy : list string;
}.

Record ProfileTables : Type := mkTables {
  tb_nodes : list NodeRow;
  tb_profiles : list ProfileRow;
  tb_runtimes : list RuntimeRow;
  tb_versions : list VersionRow;
  tb_instances : list InstanceRow;
}.

Definition with_nodes (ns : list NodeRow) (db : ProfileTables) : ProfileTables := mkTables ns (tb_profiles db) (tb_runtimes db) (tb_versions db) (tb_instances db).
Definition with_profiles (ps : list ProfileRow) (db : ProfileTables) : ProfileTables := mkTables (tb_nodes db) ps (tb_runtimes db) (tb_versions db) (tb_instances db).
Definition with_instances (rows : list InstanceRow) (db : ProfileTables) : ProfileTables := mkTables (tb_nodes db) (tb_profiles db) (tb_runtimes db) (tb_versions db) rows.

Definition find_profile (db : ProfileTables) (userId profileId : string) : option ProfileRow :=
  List.find (λ p, bool_decide (po_id p = profileId) && bool_decide (po_userId p = userId)) (tb_profiles db).

Definition with_hold (holdAt : option Z) (note profileId : option string) (n : NodeRow) : NodeRow := mkNodeRow (no_id n) (no_userId n) holdAt note profileId.

(** [updateMany]: the rows, and how many changed. *)
Definition updateMany {A} (p : A → bool) (f : A → A) (l : list A) : list A * nat := (map (λ x, if p x then f x else x) l, length (List.filter p l)).

(** ** Save *)

Record ItemInput : Type := mkItemInput { ii_runtimeId : string; ii_versionId : option string; ii_count : Z; ii_nodeIds : option (list string) }.

Record SaveInput : Type := mkSaveInput {
  si_profileId : option string;
  si_slug : string;
  si_name : string;
  si_nodeIds : list string;
  si_holds : option (list HoldLine);
  si_items : list ItemInput;
  si_updatePins : bool;
}.

(** A pin taken out of the previous ones. *)
Fixpoint take_pin (runtimeId : string) (pins : list (string * string)) : option string * list (string * string) :=
  match pins with
  | [] => (None, [])
  | (r, v) :: pins' => if bool_decide (r = runtimeId) then (Some v, pins') else let '(found, rest) := take_pin runtimeId pins' in (found, (r, v) :: rest)
  end.

Section Save.
Context (userId : string) (updatePins : bool) (nodeIds : list string) (newItemId : Z → string) (db : ProfileTables).

(** The version an item pins, and the pins left. *)
Definition item_version (runtime : RuntimeRow) (item : ItemInput) (pins : list (string * string)) : (string * list (string * string)) + ProfileError :=
  match ii_versionId item with
  | Some v =>
      if existsb (λ row, bool_decide (ve_id row = v) && bool_decide (ve_runtimeId row = ru_id runtime)) (tb_versions db) then inl (v, pins)
      else inr (version_not_found v)
  | None =>
      let '(found, pins') := take_pin (ru_id runtime) pins in
      match (if updatePins then None else found), ru_currentVersionId runtime with
      | Some v, _ => inl (v, pins')
      | None, Some v => inl (v, pins')
      | None, None => inr no_version_yet
      end
  end.

Fixpoint save_items (position : Z) (pins : list (string * string)) (items : list ItemInput) : list PlanItem + ProfileError :=
  match items with
  | [] => inl []
  | item :: items' =>
      match List.find (λ r, bool_decide (ru_id r = ii_runtimeId item) && bool_decide (ru_userId r = userId)) (tb_runtimes db) with
      | None => inr (runtime_not_found (ii_runtimeId item))
      | Some runtime =>
          if negb (ru_startable runtime) then inr not_startable
          else if updatePins && bool_decide (is_Some (ii_versionId item)) then inr pins_and_version
          else match item_version runtime item pins with
          | inr e => inr e
          | inl (v, pins') =>
              let itemNodes := set_of (default [] (ii_nodeIds item)) in
              if negb (forallb (λ id, bool_decide (id ∈ nodeIds)) itemNodes) then inr item_node_not_owned
              else match save_items (position + 1) pins' items' with
                   | inr e => inr e
                   | inl rest => inl (mkItem (newItemId position) position (ru_id runtime) v (ii_count item) itemNodes :: rest)
                   end
          end
      end
  end.
End Save.

Definition hold_line_rows (nodeIds : list string) (holds : list HoldLine) : list ProfileHoldLine :=
  map (λ id, match List.find (λ l, bool_decide (l.1 = id)) holds with
             | Some l => mkLine id true l.2
             | None => mkLine id false None
             end) nodeIds.

Definition stored_holds (p : ProfileRow) : list HoldLine := map (λ l, (hl_nodeId l, hl_note l)) (List.filter hl_hold (po_lines p)).

(** A person's save releases this profile's holds on nodes it drops. *)
Definition release_dropped (userId profileId : string) (nodeIds : list string) (ns : list NodeRow) : list NodeRow :=
  (updateMany (λ n, bool_decide (no_userId n = userId) && bool_decide (no_holdProfileId n = Some profileId) && negb (bool_decide (no_id n ∈ nodeIds))) (with_hold None None None) ns).1.

Definition save (auth : CallerAuth) (userId : string) (input : SaveInput) (now : Z) (newProfileId : string) (newItemId : Z → string) (db : ProfileTables) : ProfileTables + ProfileError :=
  if negb (mayReachAgent auth) then inr not_reachable
  else if negb (mayWrite auth) then inr read_only_agent
  else match callerActor auth with
  | inr e => inr e
  | inl actor =>
    let nodeIds := set_of (si_nodeIds input) in
    if negb (length nodeIds =? length (si_nodeIds input))%nat then inr node_listed_twice
    else
      let owned := List.filter (λ n, bool_decide (no_userId n = userId) && bool_decide (no_id n ∈ nodeIds)) (tb_nodes db) in
      if negb (length owned =? length nodeIds)%nat then inr (unknown_node (List.find (λ id, negb (bool_decide (id ∈ map no_id owned))) nodeIds))
      else
        let existing := si_profileId input ≫= find_profile db userId in
        if bool_decide (is_Some (si_profileId input)) && negb (bool_decide (is_Some (option_map po_id existing))) then inr profile_not_found
        else match planProfileSave (if isHumanCaller auth then person else agent) (match existing with Some p => stored_holds p | None => [] end) nodeIds (si_holds input) with
        | SaveRefused reason _ => inr (save_refused reason)
        | SavePlanned holds =>
          match save_items userId (si_updatePins input) nodeIds newItemId db 0 (match existing with Some p => map (λ i, (pt_runtimeId i, pt_versionId i)) (po_items p) | None => [] end) (si_items input) with
          | inr e => inr e
          | inl items =>
            let id := match existing with Some p => po_id p | None => newProfileId end in
            let row := mkProfileRow id userId (si_slug input) (si_name input) actor now (hold_line_rows nodeIds holds) items in
            (* A unique violation: the slug, or a drawn id that is taken. *)
            if existsb (λ p, bool_decide (po_userId p = userId) && bool_decide (po_slug p = si_slug input) && negb (bool_decide (po_id p = id))) (tb_profiles db)
               || match existing with None => existsb (λ p, bool_decide (po_id p = id)) (tb_profiles db) | Some _ => false end then inr slug_taken
            else
              let '(profiles, count) := match existing with
                | Some old => updateMany (λ p, bool_decide (po_id p = id) && bool_decide (po_userId p = userId) && (po_updatedAt p =? po_updatedAt old)) (λ _, row) (tb_profiles db)
                | None => (tb_profiles db ++ [row], 1%nat)
                end in
              if (count =? 0)%nat then inr profile_changed
              else
                let nodes := if isHumanCaller auth then release_dropped userId id nodeIds (tb_nodes db) else tb_nodes db in
                inl (with_nodes nodes (with_profiles profiles db))
          end
        end
  end.

(** ** Delete *)

(** The foreign key's [SET NULL]. *)
Definition forget_profile (profileId : string) (n : NodeRow) : NodeRow :=
  if bool_decide (no_holdProfileId n = Some profileId) then with_hold (no_holdAt n) (no_holdNote n) None n else n.

Definition delete (auth : CallerAuth) (userId profileId : string) (db : ProfileTables) : ProfileTables + ProfileError :=
  if negb (mayReachAgent auth) then inr not_reachable
  else if negb (mayWrite auth) then inr read_only_agent
  else match find_profile db userId profileId with
  | None => inr profile_not_found
  | Some profile =>
      let holding := existsb (λ n, bool_decide (no_userId n = userId) && bool_decide (no_holdProfileId n = Some profileId)) (tb_nodes db) in
      if agentRulesApply auth && (existsb hl_hold (po_lines profile) || holding) then inr delete_human_only
      else inl (with_nodes (map (forget_profile profileId) (tb_nodes db))
                  (with_profiles (List.filter (λ p, negb (bool_decide (po_id p = profileId) && bool_decide (po_userId p = userId))) (tb_profiles db)) db))
  end.

(** ** Apply *)

(** [occupiesNodesWhere]: a rank claim there that is not released, or a reservation there while
    one of the instance's ranks holds. *)
Definition rank_holds (k : OccupancyRank) : bool := negb (bool_decide (oc_claim k = RELEASED)).
Definition node_among (nodeIds : list string) (nodeId : option string) : bool :=
  match nodeId with Some id => bool_decide (id ∈ nodeIds) | None => false end.
Definition occupiesNodesWhere (nodeIds : list string) (i : InstanceRow) : bool :=
  existsb (λ k, node_among nodeIds (oc_nodeId k) && rank_holds k) (ir_ranks i)
  || (existsb (λ v, node_among nodeIds (ov_nodeId v)) (ir_reservations i) && existsb rank_holds (ir_ranks i)).

(** The caller's startable instances that occupy one of these nodes. *)
Definition runningInstancesOn (db : ProfileTables) (userId : string) (nodeIds : list string) : list InstanceRow :=
  match nodeIds with
  | [] => []
  | _ => List.filter (λ i, bool_decide (ir_userId i = userId)
           && existsb (λ r, bool_decide (ru_id r = ir_runtimeId i) && ru_startable r) (tb_runtimes db)
           && occupiesNodesWhere nodeIds i) (tb_instances db)
  end.

(** [planInstanceNodes]: every rank's node, and the current reservations'. *)
Definition rank_nodes (i : InstanceRow) : list string := omap oc_nodeId (ir_ranks i).
Definition current_reservation_nodes (i : InstanceRow) : list string :=
  omap ov_nodeId (List.filter (λ v, bool_decide (ov_supersededGeneration v = None)) (ir_reservations i)).

Definition desired_running (i : InstanceRow) : bool := bool_decide (ir_desired i = Some true).

Definition plan_instance (blocked : string → option string) (i : InstanceRow) : PlanInstance :=
  mkPlanInstance (ir_id i) (ir_runtimeId i) (ir_launchVersionId i) (desired_running i) (rank_nodes i) (current_reservation_nodes i) (blocked (ir_id i)).

(** The versions the items name, of the user's runtimes, by id. *)
Definition plan_version (db : ProfileTables) (userId : string) (v : VersionRow) : option PlanVersion :=
  option_map (λ r, mkVersion (ve_id v) (ve_runtimeId v) (ru_slug r) (ru_currentVersionId r) (ve_spec v) (ru_nodeOrigin r))
    (List.find (λ r, bool_decide (ru_id r = ve_runtimeId v) && bool_decide (ru_userId r = userId)) (tb_runtimes db)).
Definition plan_versions (db : ProfileTables) (userId : string) (versionIds : list string) : jsmap string PlanVersion :=
  fold_left (λ m v, match plan_version db userId v with Some w => map_set (ve_id v) w m | None => m end)
    (List.filter (λ v, bool_decide (ve_id v ∈ versionIds)) (tb_versions db)) [].

(** What the plan reads beside these tables: the nodes' placement data, the claims on them, the
    fabrics, and the node an agent's stop of an instance would be refused for. *)
Record PlanFacts : Type := mkFacts {
  fa_nodes : list PlanNode;
  fa_claimants : list PlacementInstance;
  fa_fabrics : list PlacementFabric;
  fa_agentBlockedNodeId : string → option string;
}.

Definition hold_of (n : NodeRow) : NodeHoldState := mkHoldState (no_holdAt n) (no_holdProfileId n).

Definition with_plan_hold (h : NodeHoldState) (n : PlanNode) : PlanNode :=
  mkPlanNode (pd_id n) (pd_slug n) (pd_online n) (pd_trust n) (pd_labels n) h (pd_portRange n) (pd_heldVersionIds n) (pd_requiredVersionIds n)
    (pd_frozenFabrics n) (pd_memoryGb n) (pd_gpus n) (pd_liveFreeMemoryGb n) (pd_launch n).

(** The rows of the user's nodes among these. *)
Definition node_rows (db : ProfileTables) (userId : string) (ids : list string) : list NodeRow :=
  List.filter (λ n, bool_decide (no_userId n = userId) && bool_decide (no_id n ∈ ids)) (tb_nodes db).

Definition loadPlanInput (auth : CallerAuth) (userId profileId : string) (facts : PlanFacts) (db : ProfileTables) : PlanInput + ProfileError :=
  match find_profile db userId profileId with
  | None => inr profile_not_found
  | Some profile =>
      let nodes := omap (λ row, option_map (λ n, (no_id row, with_plan_hold (hold_of row) n)) (List.find (λ n, bool_decide (pd_id n = no_id row)) (fa_nodes facts)))
                     (node_rows db userId (map hl_nodeId (po_lines profile))) in
      (* Only an agent's apply is refused on a blocked node: looked up only then. *)
      let blocked id := if agentRulesApply auth then fa_agentBlockedNodeId facts id else None in
      let instances := map (plan_instance blocked) (runningInstancesOn db userId (map hl_nodeId (po_lines profile))) in
      inl (mkPlanInput (po_id profile) (po_lines profile) nodes (sort_by (λ a b, pt_position a - pt_position b) (po_items profile))
             (plan_versions db userId (map pt_versionId (po_items profile))) instances (fa_claimants facts) userId (fa_fabrics facts) (agentRulesApply auth))
  end.

(** [sameIds], and the key of a line; no id or note has a NUL. *)
Definition nul : string := String Ascii.zero EmptyString.
Definition sort_text (l : list string) : list string := sort_by (λ a b, code_units_compare (code_units a) (code_units b)) l.
Definition sameIds (a b : list string) : bool := (length a =? length b)%nat && bool_decide (String.concat nul (sort_text a) = String.concat nul (sort_text b)).
Definition lineKey (line : ProfileHoldLine) : string := hl_nodeId line +:+ nul +:+ (if hl_hold line then "true" else "false") +:+ nul +:+ default "" (hl_note line).

(** The hold writes: each must change one row. *)
Fixpoint write_holds (userId profileId : string) (now : Z) (holds : list (string * option string)) (ns : list NodeRow) : list NodeRow + string :=
  match holds with
  | [] => inl ns
  | (id, note) :: holds' =>
      let '(ns', count) := updateMany (λ n, bool_decide (no_id n = id) && bool_decide (no_userId n = userId)
          && (bool_decide (no_holdAt n = None) || bool_decide (no_holdProfileId n = Some profileId))) (with_hold (Some now) note (Some profileId)) ns in
      if negb (count =? 1)%nat then inr id else write_holds userId profileId now holds' ns'
  end.

Fixpoint write_releases (userId : string) (current : list NodeRow) (ids : list string) (ns : list NodeRow) : list NodeRow + string :=
  match ids with
  | [] => inl ns
  | id :: ids' =>
      let was := List.find (λ n, bool_decide (no_id n = id)) current in
      let '(ns', count) := updateMany (λ n, bool_decide (no_id n = id) && bool_decide (no_userId n = userId) && bool_decide (is_Some (no_holdAt n))
          && bool_decide (no_holdProfileId n = was ≫= no_holdProfileId)) (with_hold None None None) ns in
      if negb (count =? 1)%nat then inr id else write_releases userId current ids' ns'
  end.

(** [markInstancesStopping]: the running instances of these told to stop, and how many. *)
Definition markInstancesStopping (userId : string) (ids : list string) (operationId : string) (rows : list InstanceRow) : list InstanceRow * nat :=
  updateMany (λ i, bool_decide (ir_id i ∈ ids) && bool_decide (ir_userId i = userId) && bool_decide (ir_desired i = Some true))
    (λ i, mkInstanceRow (ir_id i) (ir_userId i) (ir_runtimeId i) (ir_launchVersionId i) (Some false) (Some operationId) (ir_ranks i) (ir_reservations i) (ir_blockedBy i)) rows.

(** [writePlannedStarts] for new instances, with the ids drawn for them. *)
Definition planned_start (userId operationId : string) (newInstanceId : nat → string) (ix : nat * (PreviewStart * list string)) : InstanceRow :=
  let '(i, (start, blocked)) := ix in
  mkInstanceRow (newInstanceId i) userId (sv_runtimeId start) (sv_versionId start) (Some true) (Some operationId)
    (map (λ pl, mkOccupancyRank (Some (pp_nodeId pl)) HELD) (sv_placements start))
    (map (λ rv, mkOccupancyReservation (Some (pv_nodeId rv)) None) (sv_reservations start)) blocked.

Definition writePlannedStarts (userId operationId : string) (newInstanceId : nat → string) (starts : list PreviewStart) (blockedBy : list (list string)) : list InstanceRow :=
  map (planned_start userId operationId newInstanceId) (indexed (combine starts blockedBy)).

Record ApplyNames : Type := mkNames { an_now : Z; an_operationId : string; an_instanceId : nat → string }.

Section Apply.
Context (fingerprint : Preview → string).

(** The hold writes on the rows as they are now. *)
Definition apply_holds (userId : string) (input : PlanInput) (plan : ProfilePlan) (now : Z) (db : ProfileTables) : list NodeRow + ProfileError :=
  let rows := node_rows db userId (map hl_nodeId (in_owned input)) in
  match planProfileHolds (in_profileId input) (if in_agentRules input then agent else person) (in_owned input) (map (λ n, (no_id n, hold_of n)) rows) with
  | HoldsRefused ids => inr (node_held (List.hd (in_profileId input) ids))
  | HoldsPlanned hold release _ =>
      let raced id := if in_agentRules input then node_held id else preview_stale in
      if negb (sameIds (map fst hold) (pa_holdNodeIds plan)) || negb (sameIds release (pa_releaseNodeIds plan)) then inr preview_stale
      else match write_holds userId (in_profileId input) now hold (tb_nodes db) with
           | inr id => inr (raced id)
           | inl ns => match write_releases userId rows release ns with inr id => inr (raced id) | inl ns' => inl ns' end
           end
  end.

(** The transaction's work after the plan. *)
Definition apply_write (auth : CallerAuth) (userId : string) (confirmed : option string) (names : ApplyNames) (input : PlanInput) (plan : ProfilePlan) (db : ProfileTables) : ProfileTables + ProfileError :=
  if match confirmed with Some f => negb (bool_decide (f = fingerprint (pa_preview plan))) | None => false end then inr preview_stale
  else match vw_refusals (pa_preview plan) with
  | r :: _ => inr (plan_refused r)
  | [] =>
    match callerActor auth with
    | inr e => inr e
    | inl _ =>
      let lines := match find_profile db userId (in_profileId input) with Some p => po_lines p | None => [] end in
      if negb (sameIds (map lineKey lines) (map lineKey (in_owned input))) then inr preview_stale
      else match apply_holds userId input plan (an_now names) db with
      | inr e => inr e
      | inl nodes =>
          let stopIds := map fst (vw_stops (pa_preview plan)) in
          let '(stopped, count) := markInstancesStopping userId stopIds (an_operationId names) (tb_instances db) in
          if negb (count =? length stopIds)%nat then inr preview_stale
          else inl (with_nodes nodes (with_instances
                 (stopped ++ writePlannedStarts userId (an_operationId names) (an_instanceId names) (vw_starts (pa_preview plan)) (pa_blockedBy plan)) db))
      end
    end
  end.

(** [apply] without [preview]: planned on [planned_on], written to [db]. *)
Definition apply (auth : CallerAuth) (userId profileId : string) (confirmed : option string) (facts : PlanFacts) (names : ApplyNames) (planned_on db : ProfileTables) : ProfileTables + ProfileError :=
  if negb (mayReachAgent auth) then inr not_reachable
  else if negb (mayWrite auth) then inr read_only_agent
  else if isHumanCaller auth && bool_decide (confirmed = None) then inr preview_required
  else match loadPlanInput auth userId profileId facts planned_on with
  | inr e => inr e
  | inl input => match profilePlan input with Some plan => apply_write auth userId confirmed names input plan db | None => inr plan_failed end
  end.

(** [apply] with [preview]. *)
Definition preview (auth : CallerAuth) (userId profileId : string) (facts : PlanFacts) (db : ProfileTables) : option Preview + ProfileError :=
  match loadPlanInput auth userId profileId facts db with
  | inr e => inr e
  | inl input => inl (option_map pa_preview (profilePlan input))
  end.
End Apply.

(** ** The view *)

(** An instance of the view: the plan's, with its phase. *)
Record RunningInstance : Type := mkRunning { rn_instance : PlanInstance; rn_active : bool }.

Definition view_running (owned : list string) (i : RunningInstance) : bool :=
  pe_desiredRunning (rn_instance i) && rn_active i
  && existsb (λ id, bool_decide (id ∈ owned)) (pe_rankNodeIds (rn_instance i) ++ pe_reservationNodeIds (rn_instance i)).

(** The instances each item counts, in the order of the items. *)
Fixpoint view_items (ownedIds holdLines : list string) (running : list PlanInstance) (matched : list string) (items : list PlanItem) : list (PlanItem * list string) * list string :=
  match items with
  | [] => ([], matched)
  | item :: items' =>
      let matches := List.filter (λ i, negb (bool_decide (pe_id i ∈ matched)) && instanceServesItem i item ownedIds holdLines) running in
      let counted := map pe_id (take (Z.to_nat (pt_count item)) matches) in
      let '(rest, all) := view_items ownedIds holdLines running (matched ++ counted) items' in
      ((item, counted) :: rest, all)
  end.

(** [toProfileView]: what runs per item, and whether the profile is satisfied. *)
Definition toProfileView (row : ProfileRow) (instances : list RunningInstance) : list (PlanItem * list string) * bool :=
  let ownedIds := map hl_nodeId (po_lines row) in
  let holdLines := map hl_nodeId (List.filter hl_hold (po_lines row)) in
  let running := map rn_instance (List.filter (view_running ownedIds) instances) in
  let '(items, matched) := view_items ownedIds holdLines running [] (po_items row) in
  (items, forallb (λ i, pt_count i.1 <=? Z.of_nat (length i.2)) items && forallb (λ i, bool_decide (pe_id i ∈ matched)) running).
