(* ===== verification/ProfilesSafety.v ===== *)
(** * ProfilesSafety: holds, plans and applies

    No sequence of agents' saves, deletes and applies releases a person's hold or one a hold line
    stands for; a successful apply reaches the profile, with starts only on nodes nobody holds
    afterwards; a person's apply does what the confirmed preview showed. *)
From Stdlib Require Import ssreflect.
From S2P Require Import Prelude JsString PlacementModel PlacementRules PlacementPlanner PlacementReach PlacementSafety Profiles ProfileStore.

(** ** The hold plan *)

Definition line_held (current : jsmap string NodeHoldState) (l : ProfileHoldLine) : bool := is_held (map_get (hl_nodeId l) current).
Definition line_ours (profileId : string) (current : jsmap string NodeHoldState) (l : ProfileHoldLine) : bool :=
  line_held current l && match map_get (hl_nodeId l) current with Some s => bool_decide (nh_profileId s = Some profileId) | None => false end.

Section Plan.
Context (profileId : string) (caller : Caller) (current : jsmap string NodeHoldState).

Definition to_hold (l : ProfileHoldLine) : bool := hl_hold l && (negb (line_held current l) || line_ours profileId current l).
Definition to_keep (l : ProfileHoldLine) : bool := hl_hold l && negb (negb (line_held current l) || line_ours profileId current l).
Definition to_release (l : ProfileHoldLine) : bool := negb (hl_hold l) && line_held current l && (line_ours profileId current l || bool_decide (caller = person)).
Definition to_refuse (l : ProfileHoldLine) : bool := negb (hl_hold l) && line_held current l && negb (line_ours profileId current l || bool_decide (caller = person)).

Lemma hold_lines_lists lines h :
  fold_left (hold_line profileId caller current) lines h =
  mkHolds (ho_hold h ++ map (λ l, (hl_nodeId l, hl_note l)) (List.filter to_hold lines)) (ho_release h ++ map hl_nodeId (List.filter to_release lines))
    (ho_keep h ++ map hl_nodeId (List.filter to_keep lines)) (ho_refused h ++ map hl_nodeId (List.filter to_refuse lines)).
Proof.
  revert h. induction lines as [|l lines IH]; intros h; cbn [fold_left List.filter map]; first by rewrite !app_nil_r; destruct h.
  rewrite IH /hold_line /to_hold /to_keep /to_release /to_refuse /line_ours /line_held.
  destruct (hl_hold l), (is_held (map_get (hl_nodeId l) current)); cbn [andb orb negb];
    try destruct (match map_get (hl_nodeId l) current with Some s => _ | None => false end); cbn [andb orb negb];
    try destruct (bool_decide (caller = person)); cbn [andb orb negb ho_hold ho_release ho_keep ho_refused map]; rewrite -?app_assoc; done.
Qed.

Lemma holds_planned lines : planProfileHolds profileId caller lines current =
  match map hl_nodeId (List.filter to_refuse lines) with
  | [] => HoldsPlanned (map (λ l, (hl_nodeId l, hl_note l)) (List.filter to_hold lines)) (map hl_nodeId (List.filter to_release lines)) (map hl_nodeId (List.filter to_keep lines))
  | refused => HoldsRefused refused
  end.
Proof. by rewrite /planProfileHolds hold_lines_lists. Qed.

Lemma planned_lists lines hold release keep : planProfileHolds profileId caller lines current = HoldsPlanned hold release keep →
  hold = map (λ l, (hl_nodeId l, hl_note l)) (List.filter to_hold lines) ∧ release = map hl_nodeId (List.filter to_release lines) ∧
  keep = map hl_nodeId (List.filter to_keep lines) ∧ ∀ l, In l lines → to_refuse l = false.
Proof.
  rewrite holds_planned. destruct (map hl_nodeId (List.filter to_refuse lines)) as [|x r] eqn:E; [|done]. intros [= <- <- <-]. split_and!; try done.
  intros l Hl. destruct (to_refuse l) eqn:Hr; [|done]. apply map_eq_nil in E.
  assert (Hin : In l (List.filter to_refuse lines)) by by apply filter_In. by rewrite E in Hin.
Qed.
End Plan.

(** ** Writes of node rows *)

Definition same_node (n n' : NodeRow) : Prop := no_id n' = no_id n ∧ no_userId n' = no_userId n.

Definition row_held (n : NodeRow) : Prop := is_Some (no_holdAt n).

(** [ns'] is [ns] row by row, each related to what it was. *)
Definition rows_become (R : NodeRow → NodeRow → Prop) (ns ns' : list NodeRow) : Prop := Forall2 (λ n n', same_node n n' ∧ R n n') ns ns'.

Lemma rows_ids R ns ns' : rows_become R ns ns' → map no_id ns' = map no_id ns.
Proof. induction 1 as [|n n' ns ns' [[Hid _] _] _ IH]; cbn; [done|]. by rewrite Hid IH. Qed.

Lemma rows_trans R S T ns1 ns2 ns3 :
  (∀ a b c, In a ns1 → same_node a b → same_node b c → R a b → S b c → T a c) → rows_become R ns1 ns2 → rows_become S ns2 ns3 → rows_become T ns1 ns3.
Proof.
  intros H H1. revert ns3. induction H1 as [|a b l1 l2 [Hs HR] _ IH]; intros ns3 H2; inversion H2 as [|? c ? l3 [Hs' HS] H3]; subst; constructor.
  - split; [destruct Hs, Hs'; split; congruence|]. eapply (H a b c); try done. by left.
  - apply IH; [|done]. intros. eapply H; try done. by right.
Qed.

Lemma rows_lookup R ns ns' n : rows_become R ns ns' → In n ns → ∃ n', In n' ns' ∧ same_node n n' ∧ R n n'.
Proof.
  induction 1 as [|a b ns ns' [Hs HR] _ IH]; [done|]. intros [->|Hin]; [by exists b; split; [left|]|].
  destruct (IH Hin) as (n' & ? & ?). exists n'. by split; [right|].
Qed.

Lemma rows_origin R ns ns' n' : rows_become R ns ns' → In n' ns' → ∃ n, In n ns ∧ same_node n n' ∧ R n n'.
Proof.
  induction 1 as [|a b ns ns' [Hs HR] _ IH]; [done|]. intros [->|Hin]; [by exists a; split; [left|]|].
  destruct (IH Hin) as (n & ? & ?). exists n. by split; [right|].
Qed.

Lemma node_by_id (ns : list NodeRow) a b : NoDup (map no_id ns) → In a ns → In b ns → no_id a = no_id b → a = b.
Proof. intros Hnd Ha Hb E. by eapply (NoDup_map_inj no_id ns). Qed.

(** A write that changes the one row of an id. *)
Lemma update_one (p : NodeRow → bool) f id ns ns' :
  NoDup (map no_id ns) → (∀ n, p n = true → no_id n = id) → (∀ n, same_node n (f n)) → updateMany p f ns = (ns', 1%nat) →
  rows_become (λ n n', match decide (no_id n = id) with left _ => p n = true ∧ n' = f n | right _ => n' = n end) ns ns'.
Proof.
  intros Hnd Hp Hf [= <- Hone]. assert (Hall : ∀ n, In n ns → no_id n = id → p n = true).
  { destruct (List.filter p ns) as [|m r] eqn:E; [done|]. assert (Hm : In m (List.filter p ns)) by (rewrite E; by left). apply filter_In in Hm as [Hm Hpm].
    intros n Hn Hid. by rewrite (node_by_id ns n m Hnd Hn Hm); [rewrite Hid (Hp m Hpm)|]. }
  clear Hnd Hone. induction ns as [|n ns IH]; cbn; constructor.
  - destruct (decide (no_id n = id)) as [Hid|Hid].
    + assert (p n = true) as -> by (apply Hall; [by left|done]). split; [apply Hf|done].
    + destruct (p n) eqn:Hpn; [by apply Hp in Hpn|]. split; [by split|done].
  - apply IH. intros m Hm. apply Hall. by right.
Qed.

Lemma with_hold_same at' note pid n : same_node n (with_hold at' note pid n).
Proof. by split. Qed.

(** What the hold writes do to a row. *)
Definition after_holds (userId profileId : string) (ids : list string) (n n' : NodeRow) : Prop :=
  match decide (no_id n ∈ ids) with
  | left _ => no_userId n = userId ∧ (no_holdAt n = None ∨ no_holdProfileId n = Some profileId) ∧ row_held n' ∧ no_holdProfileId n' = Some profileId
  | right _ => n' = n
  end.

Lemma write_holds_rows userId profileId now holds ns ns' :
  NoDup (map no_id ns) → write_holds userId profileId now holds ns = inl ns' → rows_become (after_holds userId profileId (map fst holds)) ns ns'.
Proof.
  revert ns. induction holds as [|[id note] holds IH]; intros ns Hnd; cbn [write_holds map fst].
  { intros [= <-]. clear Hnd. induction ns as [|n ns IH]; constructor; [|done]. split; [by split|]. rewrite /after_holds. destruct (decide _) as [Hx|]; [by apply not_elem_of_nil in Hx|done]. }
  destruct (updateMany _ _ ns) as [ns1 count] eqn:Hu. destruct (count =? 1)%nat eqn:Hc; [|done]. apply Nat.eqb_eq in Hc. subst count. cbn [negb]. intros Hw.
  apply (update_one _ _ id) in Hu; [|done| |intros n; apply with_hold_same].
  2: { intros n [[? _]%andb_true_iff _]%andb_true_iff. by bool_to_prop. }
  pose proof (rows_ids _ _ _ Hu) as Hids. specialize (IH ns1 ltac:(by rewrite Hids) Hw). eapply rows_trans; [|exact Hu|exact IH].
  intros a b c _ [Hab Hub] _ H1 H2. rewrite /after_holds in H2 |- *. rewrite Hab Hub in H2. destruct (decide (no_id a = id)) as [E|E].
  - destruct (decide (no_id a ∈ id :: _)) as [_|Hn]; [|exfalso; apply Hn; rewrite E; by left]. destruct H1 as [Hp ->]. apply andb_true_iff in Hp as [[_ Hu']%andb_true_iff Hg]. bool_to_prop.
    apply orb_true_iff in Hg. rewrite !bool_decide_eq_true in Hg.
    destruct (decide (no_id a ∈ map fst holds)) as [Hin|Hin]; [destruct H2 as (_ & _ & ? & ?)|subst c]; split_and!; try done. by eexists.
  - subst b. destruct (decide (no_id a ∈ map fst holds)) as [Hin|Hin].
    + destruct (decide (no_id a ∈ id :: _)) as [_|Hn]; [done|exfalso; apply Hn; by right].
    + destruct (decide (no_id a ∈ id :: _)) as [Hn|_]; [by apply elem_of_cons in Hn as [?|?]|done].
Qed.

Definition after_releases (userId : string) (ids : list string) (n n' : NodeRow) : Prop :=
  match decide (no_id n ∈ ids) with left _ => no_userId n = userId ∧ row_held n ∧ no_holdAt n' = None | right _ => n' = n end.

Lemma write_releases_rows userId current ids ns ns' :
  NoDup (map no_id ns) → write_releases userId current ids ns = inl ns' → rows_become (after_releases userId ids) ns ns'.
Proof.
  revert ns. induction ids as [|id ids IH]; intros ns Hnd; cbn [write_releases].
  { intros [= <-]. clear Hnd. induction ns as [|n ns IH]; constructor; [|done]. split; [by split|]. rewrite /after_releases. destruct (decide _) as [Hx|]; [by apply not_elem_of_nil in Hx|done]. }
  destruct (updateMany _ _ ns) as [ns1 count] eqn:Hu. destruct (count =? 1)%nat eqn:Hc; [|done]. apply Nat.eqb_eq in Hc. subst count. cbn [negb]. intros Hw.
  apply (update_one _ _ id) in Hu; [|done| |intros n; apply with_hold_same].
  2: { intros n [[[? _]%andb_true_iff _]%andb_true_iff _]%andb_true_iff. by bool_to_prop. }
  pose proof (rows_ids _ _ _ Hu) as Hids. specialize (IH ns1 ltac:(by rewrite Hids) Hw). eapply rows_trans; [|exact Hu|exact IH].
  intros a b c _ [Hab Hub] _ H1 H2. rewrite /after_releases in H2 |- *. rewrite Hab Hub in H2. destruct (decide (no_id a = id)) as [E|E].
  - destruct (decide (no_id a ∈ id :: _)) as [_|Hn]; [|exfalso; apply Hn; rewrite E; by left]. destruct H1 as [Hp ->]. apply andb_true_iff in Hp as [[[_ Hu']%andb_true_iff Hh]%andb_true_iff _]. bool_to_prop.
    destruct (decide (no_id a ∈ ids)) as [Hin|Hin]; [destruct H2 as (_ & [? ?] & _); done|subst c]. done.
  - subst b. destruct (decide (no_id a ∈ ids)) as [Hin|Hin].
    + destruct (decide (no_id a ∈ id :: _)) as [_|Hn]; [done|exfalso; apply Hn; by right].
    + destruct (decide (no_id a ∈ id :: _)) as [Hn|_]; [by apply elem_of_cons in Hn as [?|?]|done].
Qed.

(** ** Comparing sets of ids *)

Definition no_nul (s : string) : Prop := ¬ In 0 (code_units s).

Lemma code_units_append a b : code_units (a +:+ b) = code_units a ++ code_units b.
Proof. induction a as [|c a IH]; [done|]. change (String c a +:+ b) with (String c (a +:+ b)). cbn [code_units app]. by rewrite IH. Qed.

Lemma code_units_eq a b : code_units a = code_units b → a = b.
Proof.
  revert b. induction a as [|c a IH]; intros [|d b]; cbn -[Z.of_nat]; try done. intros [= E1 E2]. apply Nat2Z.inj in E1. f_equal; [|by apply IH].
  by rewrite -(Ascii.ascii_nat_embedding c) -(Ascii.ascii_nat_embedding d) E1.
Qed.

Lemma concat_nul l : code_units (String.concat nul l) = join [0] (map code_units l).
Proof. induction l as [|s l IH]; [done|]. destruct l as [|s' l]; [done|]. cbn [String.concat map join]. rewrite !code_units_append. by rewrite IH. Qed.

Lemma join_nul_inj (l l' : list jstr) : (∀ s, In s l → ¬ In 0 s) → (∀ s, In s l' → ¬ In 0 s) → l ≠ [] → l' ≠ [] → join [0] l = join [0] l' → l = l'.
Proof.
  intros Hl Hl' Hne Hne' E. assert (E1 : split [0] (join [0] l) = l) by (apply split_join_char; [done|]; intros s d Hs Hd ->; by apply (Hl s)).
  assert (E2 : split [0] (join [0] l') = l') by (apply split_join_char; [done|]; intros s d Hs Hd ->; by apply (Hl' s)). congruence.
Qed.

Lemma same_ids_perm a b : (∀ s, In s a → no_nul s) → (∀ s, In s b → no_nul s) → sameIds a b = true → a ≡ₚ b.
Proof.
  intros Ha Hb [Hlen%Nat.eqb_eq He%bool_decide_eq_true]%andb_true_iff. destruct a as [|x a], b as [|y b]; try done.
  assert (Hin : ∀ l, (∀ s, In s l → no_nul s) → ∀ s, In s (map code_units (sort_text l)) → ¬ In 0 s).
  { intros l Hl s (t & <- & Ht)%in_map_iff. apply Hl. by apply sort_by_in in Ht. }
  assert (Hne : ∀ l : list string, l ≠ [] → map code_units (sort_text l) ≠ []).
  { intros l Hl E%map_eq_nil. pose proof (sort_by_perm (λ a b, code_units_compare (code_units a) (code_units b)) l) as Hp. rewrite -/(sort_text l) E in Hp. by apply Permutation_nil in Hp. }
  apply (f_equal code_units) in He. rewrite !concat_nul in He. apply join_nul_inj in He; [|by apply Hin|by apply Hin|by apply Hne|by apply Hne].
  assert (E : sort_text (x :: a) = sort_text (y :: b)).
  { revert He. generalize (sort_text (x :: a)) (sort_text (y :: b)). clear. intros l. induction l as [|s l IH]; intros [|t l']; cbn; try done. intros [= E1%code_units_eq E2]. by rewrite E1 (IH l'). }
  transitivity (sort_text (x :: a)); [symmetry; apply sort_by_perm|]. rewrite E. apply sort_by_perm.
Qed.

Definition line_text (l : ProfileHoldLine) : Prop := no_nul (hl_nodeId l) ∧ no_nul (default "" (hl_note l)).

Definition line_parts (l : ProfileHoldLine) : list jstr := [code_units (hl_nodeId l); code_units (if hl_hold l then "true" else "false"); code_units (default "" (hl_note l))].

Lemma line_key_parts ls : join [0] (map (λ l, code_units (lineKey l)) ls) = join [0] (concat (map line_parts ls)).
Proof.
  induction ls as [|l ls IH]; [done|]. cbn [map concat]. assert (E : code_units (lineKey l) = join [0] (line_parts l)).
  { rewrite /lineKey !code_units_append. done. }
  destruct ls as [|l' ls]; [by rewrite /= E|]. cbn [map] in *. cbn [join]. cbn [join] in IH. rewrite IH E. cbn [concat map line_parts app]. cbn [join]. by rewrite -!app_assoc.
Qed.

(** The same lines: every line of one has its node and flag in the other. *)
Lemma same_lines a b : Forall line_text a → Forall line_text b → sameIds (map lineKey a) (map lineKey b) = true →
  ∀ l, In l a → ∃ l', In l' b ∧ hl_nodeId l' = hl_nodeId l ∧ hl_hold l' = hl_hold l.
Proof.
  intros Ha Hb [Hlen%Nat.eqb_eq He%bool_decide_eq_true]%andb_true_iff l Hl. rewrite !length_map in Hlen.
  destruct (Permutation_map_inv lineKey (l1 := sort_text (map lineKey a)) a) as (a' & Ea & Hpa); [apply sort_by_perm|].
  destruct (Permutation_map_inv lineKey (l1 := sort_text (map lineKey b)) b) as (b' & Eb & Hpb); [apply sort_by_perm|].
  rewrite Ea Eb in He. apply (f_equal code_units) in He. rewrite !concat_nul !map_map !line_key_parts in He.
  assert (Hin : ∀ ls, Forall line_text ls → ∀ s, In s (concat (map line_parts ls)) → ¬ In 0 s).
  { intros ls Hls s (p & Hp & Hs)%in_concat. apply in_map_iff in Hp as (m & <- & Hm). rewrite Forall_forall in Hls.
    destruct (Hls m (proj2 (list_elem_of_In _ _) Hm)) as [H1 H2]. destruct Hs as [<-|[<-|[<-|[]]]]; [done| |done]. destruct (hl_hold m); intros Hz; vm_compute in Hz; repeat (destruct Hz as [Hz|Hz]; [done|]); done. }
  assert (Hne : ∀ ls, ls ≠ [] → concat (map line_parts ls) ≠ []) by by intros [|? ?].
  assert (a' ≠ []) by (intros ->; apply Permutation_nil_r in Hpa; by subst a).
  assert (Hlen' : length a' = length b') by (rewrite -(Permutation_length Hpa) -(Permutation_length Hpb); done).
  apply join_nul_inj in He; [|apply Hin; by rewrite -Hpa|apply Hin; by rewrite -Hpb|by apply Hne|by apply Hne; intros ->; destruct a'].
  assert (Hin' : In l a') by (eapply Permutation_in; [exact Hpa|done]). enough (∃ l', In l' b' ∧ hl_nodeId l' = hl_nodeId l ∧ hl_hold l' = hl_hold l) as (l' & Hl' & ?).
  { exists l'. split; [|done]. eapply Permutation_in; [symmetry; exact Hpb|done]. }
  clear -He Hin' Hlen'. revert b' He Hin' Hlen'. induction a' as [|m a' IH]; intros [|m' b'] He Hin' Hlen'; try done. cbn -[Z.of_nat code_units] in He.
  injection He as E1 E2 E3 He. destruct Hin' as [->|Hin'].
  - exists m'. split; [by left|]. split; [symmetry; by apply code_units_eq|]. apply code_units_eq in E2. by destruct (hl_hold l), (hl_hold m').
  - destruct (IH b' He Hin') as (l' & ? & ?); [by injection Hlen'|]. exists l'. split; [by right|done].
Qed.

(** ** The tables *)

Lemma set_of_spec {A} `{EqDecision A} (l : list A) : NoDup (set_of l) ∧ ∀ x, x ∈ set_of l ↔ x ∈ l.
Proof.
  rewrite /set_of. enough (H : ∀ acc : list A, NoDup acc → NoDup (fold_left (λ s x, set_add x s) l acc) ∧ ∀ x, x ∈ fold_left (λ s x, set_add x s) l acc ↔ x ∈ acc ∨ x ∈ l).
  { destruct (H []) as [H1 H2]; [constructor|]. split; [done|]. intros x. rewrite H2. set_solver. }
  induction l as [|y l IH]; intros acc Hacc; cbn [fold_left]; [split; [done|]; set_solver|].
  destruct (IH (set_add y acc)) as [H1 H2].
  { rewrite /set_add. case_bool_decide as Hy; [done|]. apply NoDup_app. split_and!; [done| |apply NoDup_singleton]. intros x Hx ->%list_elem_of_singleton. done. }
  split; [done|]. intros x. rewrite H2 /set_add. case_bool_decide; set_solver.
Qed.

Record tables_ok (db : ProfileTables) : Prop := {
  tk_nodes : NoDup (map no_id (tb_nodes db));
  tk_text : ∀ n, In n (tb_nodes db) → no_nul (no_id n);
  tk_profiles : NoDup (map po_id (tb_profiles db));
  tk_lines : ∀ p, In p (tb_profiles db) → NoDup (map hl_nodeId (po_lines p)) ∧ Forall line_text (po_lines p);
}.

(** A person's hold, or one a hold line of the profile that set it stands for. *)
Definition protected (db : ProfileTables) (n : NodeRow) : Prop :=
  In n (tb_nodes db) ∧ row_held n ∧
  (no_holdProfileId n = None ∨
   ∃ p l, In p (tb_profiles db) ∧ no_holdProfileId n = Some (po_id p) ∧ po_userId p = no_userId n ∧ In l (po_lines p) ∧ hl_nodeId l = no_id n ∧ hl_hold l = true).

Definition keeps_holds (db db' : ProfileTables) : Prop :=
  tables_ok db' ∧ ∀ n, protected db n → ∃ n', protected db' n' ∧ same_node n n' ∧ no_holdProfileId n' = no_holdProfileId n.

Lemma find_profile_spec db userId pid p : find_profile db userId pid = Some p → In p (tb_profiles db) ∧ po_id p = pid ∧ po_userId p = userId.
Proof. intros [Hin [H1 H2]%andb_true_iff]%find_some. by bool_to_prop. Qed.

Lemma find_profile_unique db p : tables_ok db → In p (tb_profiles db) → find_profile db (po_userId p) (po_id p) = Some p.
Proof.
  intros Hok Hp. destruct (find_profile db (po_userId p) (po_id p)) as [q|] eqn:E.
  - apply find_profile_spec in E as (Hq & Eq & _). f_equal. by eapply (NoDup_map_inj po_id), Eq; [apply Hok|..].
  - exfalso. eapply find_none in E; [|exact Hp]. by rewrite !bool_decide_eq_true_2 in E.
Qed.

Lemma line_unique p l l' : NoDup (map hl_nodeId p) → In l p → In l' p → hl_nodeId l = hl_nodeId l' → l = l'.
Proof. intros Hnd Hl Hl' E. by eapply (NoDup_map_inj hl_nodeId). Qed.

(** *** Apply *)

Lemma load_input auth userId pid facts db input : loadPlanInput auth userId pid facts db = inl input →
  ∃ p, find_profile db userId pid = Some p ∧ in_profileId input = pid ∧ in_owned input = po_lines p ∧ in_agentRules input = agentRulesApply auth.
Proof.
  rewrite /loadPlanInput. destruct (find_profile db userId pid) as [p|] eqn:E; [|done]. intros [= <-]. exists p. split_and!; try done.
  by apply find_profile_spec in E as (_ & ? & _).
Qed.

(** The holds of the rows as they are, by node. *)
Lemma current_hold db userId ids n : tables_ok db → In n (tb_nodes db) → no_userId n = userId → no_id n ∈ ids →
  map_get (no_id n) (map (λ n, (no_id n, hold_of n)) (node_rows db userId ids)) = Some (hold_of n).
Proof.
  intros Hok Hn Hu Hi. apply map_get_NoDup.
  - rewrite /map_keys /node_rows. pose proof (tk_nodes db Hok) as Hnd. revert Hnd. clear. rewrite -!list_fmap_compose. induction (tb_nodes db) as [|m l IH]; cbn; [done|].
    intros [Hm Hnd]%NoDup_cons. destruct (_ && _); cbn; [|by apply IH]. apply NoDup_cons. split; [|by apply IH].
    intros (z & Hz & Hin)%list_elem_of_fmap. apply Hm. apply list_elem_of_In, filter_In in Hin as [Hin _]. cbn in Hz. rewrite Hz. by apply list_elem_of_In, in_map.
  - apply in_map_iff. exists n. split; [done|]. apply filter_In. split; [done|]. by rewrite !bool_decide_eq_true_2.
Qed.

(** What a successful apply does to the nodes: the plan of the holds as they are, written. *)
Lemma apply_holds_rows userId input plan now db ns :
  tables_ok db → apply_holds userId input plan now db = inl ns →
  let current := map (λ n, (no_id n, hold_of n)) (node_rows db userId (map hl_nodeId (in_owned input))) in
  let caller := if in_agentRules input then agent else person in
  (∀ l, In l (in_owned input) → to_refuse (in_profileId input) caller current l = false) ∧
  ∃ ns1, rows_become (after_holds userId (in_profileId input) (map hl_nodeId (List.filter (to_hold (in_profileId input) current) (in_owned input)))) (tb_nodes db) ns1 ∧
    rows_become (after_releases userId (map hl_nodeId (List.filter (to_release (in_profileId input) caller current) (in_owned input)))) ns1 ns.
Proof.
  intros Hok. rewrite /apply_holds. destruct (planProfileHolds _ _ _ _) as [hold release keep|] eqn:Hp; [|done]. apply planned_lists in Hp as (-> & -> & _ & Href).
  destruct (_ || _); [done|]. destruct (write_holds _ _ _ _ _) as [ns1|] eqn:H1; [|done]. destruct (write_releases _ _ _ ns1) as [ns2|] eqn:H2; [|done]. intros [= <-].
  cbn zeta. split; [exact Href|]. exists ns1. apply write_holds_rows in H1; [|apply Hok]. rewrite map_map in H1. split; [exact H1|].
  apply write_releases_rows in H2; [done|]. rewrite (rows_ids _ _ _ H1). apply Hok.
Qed.

Lemma apply_write_inv fp auth userId confirmed names input plan db db' : apply_write fp auth userId confirmed names input plan db = inl db' →
  ∃ ns, apply_holds userId input plan (an_now names) db = inl ns ∧ tb_nodes db' = ns ∧ tb_profiles db' = tb_profiles db ∧ vw_refusals (pa_preview plan) = [] ∧
    (∃ rows, markInstancesStopping userId (map fst (vw_stops (pa_preview plan))) (an_operationId names) (tb_instances db) = (rows, length (vw_stops (pa_preview plan))) ∧
       tb_instances db' = rows ++ writePlannedStarts userId (an_operationId names) (an_instanceId names) (vw_starts (pa_preview plan)) (pa_blockedBy plan)) ∧
    sameIds (map lineKey (match find_profile db userId (in_profileId input) with Some p => po_lines p | None => [] end)) (map lineKey (in_owned input)) = true ∧
    (∀ f, confirmed = Some f → f = fp (pa_preview plan)).
Proof.
  rewrite /apply_write. destruct (match confirmed with Some _ => _ | None => _ end) eqn:Hf; [done|]. destruct (vw_refusals _) as [|r rs] eqn:Hr; [|done].
  destruct (callerActor auth) as [a|]; [|done]. destruct (sameIds _ _) eqn:Hs; [|done]. cbn [negb]. destruct (apply_holds _ _ _ _ _) as [ns|] eqn:Hh; [|done].
  destruct (markInstancesStopping _ _ _ _) as [rows count] eqn:Hm. destruct (count =? _)%nat eqn:Hc; [|done]. apply Nat.eqb_eq in Hc. rewrite length_map in Hc. subst count. cbn [negb].
  intros [= <-]. exists ns. split_and!; try done; [by exists rows|]. intros f ->. apply negb_false_iff in Hf. by bool_to_prop.
Qed.

Lemma apply_inv fp auth userId pid confirmed facts names db0 db db' : apply fp auth userId pid confirmed facts names db0 db = inl db' →
  ∃ input plan, loadPlanInput auth userId pid facts db0 = inl input ∧ profilePlan input = Some plan ∧ apply_write fp auth userId confirmed names input plan db = inl db' ∧
    (isHumanCaller auth = true → is_Some confirmed).
Proof.
  rewrite /apply. destruct (negb (mayReachAgent auth)); [done|]. destruct (negb (mayWrite auth)); [done|]. destruct (_ && _) eqn:Hh; [done|].
  destruct (loadPlanInput _ _ _ _ _) as [input|]; [|done]. destruct (profilePlan input) as [plan|] eqn:Hplan; [|done]. intros H. exists input, plan. split_and!; try done.
  intros Hhum. rewrite Hhum in Hh. cbn in Hh. destruct confirmed; [by eexists|]. by rewrite bool_decide_eq_true_2 in Hh.
Qed.

(** An agent's apply keeps every protected hold. *)
Lemma agent_apply_keeps fp auth userId pid confirmed facts names db0 db db' :
  tables_ok db0 → tables_ok db → agentRulesApply auth = true → apply fp auth userId pid confirmed facts names db0 db = inl db' → keeps_holds db db'.
Proof.
  intros Hok0 Hok Hagent (input & plan & Hload & _ & Hw & _)%apply_inv. apply load_input in Hload as (p0 & Hp0 & Hpid & Hown & Hrules).
  apply apply_write_inv in Hw as (ns & Hh & Hns & Hps & _ & _ & Hsame & _). rewrite Hagent in Hrules.
  apply find_profile_spec in Hp0 as (Hin0 & _ & _). destruct (tk_lines db0 Hok0 p0 Hin0) as [Hnd0 Htext0]. rewrite -Hown in Hnd0 Htext0.
  apply apply_holds_rows in Hh as (_ & ns1 & H1 & H2); [|done]. rewrite Hrules Hpid in H1 H2. rewrite Hpid in Hsame. set (current := map (λ n, (no_id n, hold_of n)) _) in H1, H2.
  set (hol := map hl_nodeId (List.filter (to_hold pid current) _)) in H1. set (rel := map hl_nodeId (List.filter (to_release pid agent current) _)) in H2. split.
  { split; rewrite ?Hns ?Hps; [|..|apply Hok|apply Hok].
    - rewrite (rows_ids _ _ _ H2) (rows_ids _ _ _ H1). apply Hok.
    - intros n (n1 & Hn1 & [E1 _] & _)%(rows_origin _ _ _ _ H2). apply (rows_origin _ _ _ _ H1) in Hn1 as (n0 & Hn0 & [E0 _] & _). rewrite E1 E0. by apply Hok. }
  intros n (Hn & Hheld & Hwho). destruct (rows_lookup _ _ _ n H1 Hn) as (n1 & Hn1 & [Hid1 Hu1] & R1), (rows_lookup _ _ _ n1 H2 Hn1) as (n2 & Hn2 & [Hid2 Hu2] & R2).
  rewrite /after_holds in R1. rewrite /after_releases in R2. rewrite Hid1 Hu1 in R2.
  assert (Hrel : no_id n ∉ rel).
  { intros Hin. destruct (decide (no_id n ∈ rel)) as [_|Hx]; [|done]. apply list_elem_of_fmap in Hin as (l & El & [Hl Hto]%list_elem_of_In%filter_In).
    destruct R2 as (Huser & _ & _). rewrite /to_release /line_ours /line_held (bool_decide_eq_false_2 (agent = person)) // orb_false_r -El in Hto.
    rewrite (current_hold db userId _ n Hok Hn Huser) in Hto; [rewrite El; by apply list_elem_of_In, in_map|].
    apply andb_true_iff in Hto as [[Hnh _]%andb_true_iff [_ Hours]%andb_true_iff]. apply negb_true_iff in Hnh. apply bool_decide_eq_true in Hours. cbn in Hours.
    destruct Hwho as [Hnone|(p & l' & Hp & Hpp & Hpu & Hl' & Hl'id & Hl'h)]; [congruence|]. assert (po_id p = pid) as Epid by congruence.
    rewrite -Epid -Huser -Hpu (find_profile_unique db p Hok Hp) in Hsame.
    destruct (same_lines (po_lines p) (in_owned input) (proj2 (tk_lines db Hok p Hp)) Htext0 Hsame l' Hl') as (l2 & Hl2 & E2 & Hh2).
    assert (l2 = l) as -> by (apply (line_unique (in_owned input)); [done|done|done|congruence]). congruence. }
  destruct (decide (no_id n ∈ rel)) as [Hx|_]; [done|]. subst n2.
  exists n1. assert (Hsn : same_node n n1) by done. assert (Hkept : row_held n1 ∧ no_holdProfileId n1 = no_holdProfileId n).
  { destruct (decide (no_id n ∈ hol)) as [Hx|Hx]; [|by subst n1]. destruct R1 as (_ & [Hnone|Hpidn] & Hh1 & Hp1); [destruct Hheld; congruence|]. split; [done|congruence]. }
  destruct Hkept as [Hk1 Hk2]. split; [|done]. split; [by rewrite Hns|]. split; [done|]. rewrite Hk2 Hps Hid1 Hu1. exact Hwho.
Qed.

(** *** Save *)

(** An agent's accepted lines have every stored one, and no node of one is dropped. *)
Lemma agent_save_lines before nodeIds requested holds : planProfileSave agent before nodeIds requested = SavePlanned holds →
  holds = default before requested ∧ ∀ l, In l before → l.1 ∈ nodeIds ∧ ∃ h, In h holds ∧ h.1 = l.1.
Proof.
  rewrite /planProfileSave bool_decide_eq_true_2 //. cbn [andb]. case_bool_decide as Hch; [|done]. cbn [negb]. case_bool_decide as Hdr; [|done]. cbn [negb].
  case_match; [|done]. case_match; [|done]. intros [= <-]. split; [done|].
  intros l Hl. apply map_eq_nil in Hch. apply app_eq_nil in Hch as [Hch _]. apply map_eq_nil in Hdr. split.
  - destruct (decide (l.1 ∈ nodeIds)) as [|Hno]; [done|]. exfalso. assert (Hin : In l (List.filter (λ l, negb (bool_decide (l.1 ∈ nodeIds))) before)).
    { apply filter_In. split; [done|]. by rewrite bool_decide_eq_false_2. }
    by rewrite Hdr in Hin.
  - destruct (decide (line_key l ∈ map line_key (default before requested))) as [Hin|Hno].
    + apply list_elem_of_In, in_map_iff in Hin as (h & Eh & Hh). exists h. split; [done|]. by injection Eh.
    + exfalso. assert (Hin : In l (List.filter (λ l, negb (bool_decide (line_key l ∈ map line_key (default before requested)))) before)).
      { apply filter_In. split; [done|]. by rewrite bool_decide_eq_false_2. }
      by rewrite Hch in Hin.
Qed.

Lemma save_lines_subset caller before nodeIds requested holds : planProfileSave caller before nodeIds requested = SavePlanned holds → holds = default before requested.
Proof. rewrite /planProfileSave. repeat (case_match; try done). by intros [= <-]. Qed.

Lemma hold_row_ids nodeIds holds : map hl_nodeId (hold_line_rows nodeIds holds) = nodeIds.
Proof. rewrite /hold_line_rows map_map -{2}(map_id nodeIds). apply map_ext. intros id. by case_match. Qed.

Lemma hold_row_held nodeIds holds h : h.1 ∈ nodeIds → In h holds → ∃ l, In l (hold_line_rows nodeIds holds) ∧ hl_nodeId l = h.1 ∧ hl_hold l = true.
Proof.
  intros Hin Hh. destruct (List.find (λ l, bool_decide (l.1 = h.1)) holds) as [g|] eqn:Hg.
  - exists (mkLine h.1 true g.2). split_and!; try done. apply in_map_iff. exists h.1. rewrite Hg. split; [done|]. by apply list_elem_of_In.
  - exfalso. eapply find_none in Hg; [|exact Hh]. by rewrite bool_decide_eq_true_2 in Hg.
Qed.

Lemma hold_row_texts nodeIds holds : (∀ id, id ∈ nodeIds → no_nul id) → (∀ h, In h holds → no_nul (default "" h.2)) → Forall line_text (hold_line_rows nodeIds holds).
Proof.
  intros Hi Hh. apply Forall_forall. intros l (id & <- & Hid)%list_elem_of_In%in_map_iff. apply list_elem_of_In in Hid.
  destruct (List.find _ holds) as [g|] eqn:Hg; (split; [by apply Hi|]); [|by vm_compute]. apply find_some in Hg as [Hg _]. by apply Hh.
Qed.

(** A profile lists only nodes there are. *)
Lemma owned_all ns userId nodeIds : NoDup (map no_id ns) → NoDup nodeIds →
  length (List.filter (λ n, bool_decide (no_userId n = userId) && bool_decide (no_id n ∈ nodeIds)) ns) = length nodeIds → ∀ id, id ∈ nodeIds → ∃ n, In n ns ∧ no_id n = id.
Proof.
  intros Hns Hids Hlen id Hid. set (owned := List.filter _ ns) in Hlen. assert (Hincl : incl nodeIds (map no_id owned)).
  { apply NoDup_length_incl.
    - apply NoDup_ListNoDup. subst owned. clear Hlen. induction ns as [|n l IH]; cbn; [constructor|]. cbn in Hns. apply NoDup_cons in Hns as [Hn Hns].
      destruct (_ && _); [|by apply IH]. cbn. apply NoDup_cons. split; [|by apply IH]. intros (m & Em & [Hm _]%filter_In)%list_elem_of_In%in_map_iff.
      apply Hn. rewrite -Em. by apply list_elem_of_In, in_map.
    - rewrite length_map Hlen. done.
    - intros x (m & <- & [_ Hm]%filter_In)%in_map_iff. apply andb_true_iff in Hm as [_ Hm]. bool_to_prop. by apply list_elem_of_In. }
  apply list_elem_of_In, Hincl, in_map_iff in Hid as (n & <- & [Hn _]%filter_In). by exists n.
Qed.

Definition save_texts (input : SaveInput) : Prop := ∀ hs h, si_holds input = Some hs → In h hs → no_nul (default "" h.2).

Lemma stored_text p : Forall line_text (po_lines p) → ∀ h, In h (stored_holds p) → no_nul (default "" h.2).
Proof. intros Hall h (l & <- & [Hl _]%filter_In)%in_map_iff. rewrite Forall_forall in Hall. by destruct (Hall l (proj2 (list_elem_of_In _ _) Hl)). Qed.

(** What a save writes. *)
Lemma save_inv auth userId input now pid iid db db' : save auth userId input now pid iid db = inl db' →
  ∃ nodeIds holds row existing, let id := match existing with Some p => po_id p | None => pid end in
    nodeIds = set_of (si_nodeIds input) ∧
    length (List.filter (λ n, bool_decide (no_userId n = userId) && bool_decide (no_id n ∈ nodeIds)) (tb_nodes db)) = length nodeIds ∧
    (∀ p, existing = Some p → In p (tb_profiles db) ∧ po_userId p = userId) ∧
    planProfileSave (if isHumanCaller auth then person else agent) (match existing with Some p => stored_holds p | None => [] end) nodeIds (si_holds input) = SavePlanned holds ∧
    po_id row = id ∧ po_userId row = userId ∧ po_lines row = hold_line_rows nodeIds holds ∧
    (existing = None → ∀ p, In p (tb_profiles db) → po_id p ≠ id) ∧
    tb_profiles db' = match existing with
      | Some old => map (λ p, if bool_decide (po_id p = id) && bool_decide (po_userId p = userId) && (po_updatedAt p =? po_updatedAt old) then row else p) (tb_profiles db)
      | None => tb_profiles db ++ [row] end ∧
    tb_nodes db' = if isHumanCaller auth then release_dropped userId id nodeIds (tb_nodes db) else tb_nodes db.
Proof.
  rewrite /save. destruct (negb (mayReachAgent auth)); [done|]. destruct (negb (mayWrite auth)); [done|]. destruct (callerActor auth) as [a|]; [|done].
  destruct (length (set_of _) =? length (si_nodeIds input))%nat; [|done]. cbn [negb]. destruct (length (List.filter _ (tb_nodes db)) =? length _)%nat eqn:H2; [|done]. cbn [negb]. apply Nat.eqb_eq in H2.
  destruct (si_profileId input ≫= find_profile db userId) as [old|] eqn:Hold.
  - cbn [option_map]. rewrite (bool_decide_eq_true_2 (is_Some (Some _))); [by eexists|]. rewrite andb_false_r. destruct (planProfileSave _ _ _ _) as [holds|] eqn:Hp; [|done].
    destruct (save_items _ _ _ _ _ _ _ _) as [items|]; [|done]. destruct (existsb _ _ || _); [done|].
    destruct (updateMany _ _ _) as [profiles count] eqn:Hu. destruct (count =? 0)%nat; [done|]. injection Hu as <- _. intros [= <-].
    apply bind_Some in Hold as (q & _ & Hf). apply find_profile_spec in Hf as (Hin & _ & Hou).
    exists (set_of (si_nodeIds input)), holds, (mkProfileRow (po_id old) userId (si_slug input) (si_name input) a now (hold_line_rows (set_of (si_nodeIds input)) holds) items), (Some old).
    cbn zeta. split_and!; try done. by intros p [= <-].
  - destruct (_ && negb _); [done|]. destruct (planProfileSave _ _ _ _) as [holds|] eqn:Hp; [|done].
    destruct (save_items _ _ _ _ _ _ _ _) as [items|]; [|done]. destruct (existsb _ (tb_profiles db) || _) eqn:Hfresh; [done|]. apply orb_false_iff in Hfresh as [_ Hfresh].
    cbn [Nat.eqb]. intros [= <-].
    exists (set_of (si_nodeIds input)), holds, (mkProfileRow pid userId (si_slug input) (si_name input) a now (hold_line_rows (set_of (si_nodeIds input)) holds) items), None.
    cbn zeta. split_and!; try done. intros _ p Hp' Eq. assert (Ht : existsb (λ p, bool_decide (po_id p = pid)) (tb_profiles db) = true).
    { apply existsb_exists. exists p. split; [done|]. by apply bool_decide_eq_true_2. }
    congruence.
Qed.

Lemma map_update_ids (f : ProfileRow → bool) row ps : (∀ p, f p = true → po_id p = po_id row) → map po_id (map (λ p, if f p then row else p) ps) = map po_id ps.
Proof. intros Hf. induction ps as [|p ps IH]; cbn; [done|]. rewrite IH. f_equal. destruct (f p) eqn:E; [|done]. by rewrite (Hf p E). Qed.

(** A save leaves well-formed tables. *)
Lemma save_ok auth userId input now pid iid db db' : tables_ok db → save_texts input → save auth userId input now pid iid db = inl db' → tables_ok db'.
Proof.
  intros Hok Htxt (nodeIds & holds & row & existing & HnodeIds & Hlen & Hex & Hplan & Hid & _ & Hlines & Hfresh & Hps & Hns)%save_inv. cbn zeta in *.
  assert (Hnd : NoDup nodeIds) by (subst nodeIds; apply set_of_spec).
  assert (Hrow : NoDup (map hl_nodeId (po_lines row)) ∧ Forall line_text (po_lines row)).
  { rewrite Hlines hold_row_ids. split; [done|]. apply hold_row_texts.
    - intros id (n & Hn & <-)%(owned_all (tb_nodes db) userId nodeIds (tk_nodes db Hok) Hnd Hlen). by apply Hok.
    - apply save_lines_subset in Hplan as ->. intros h Hh. destruct (si_holds input) as [hs|] eqn:Hs; cbn in Hh; [by eapply Htxt|].
      destruct existing as [p|]; [|done]. eapply stored_text; [|exact Hh]. by apply Hok, Hex. }
  assert (Hnodes : map no_id (tb_nodes db') = map no_id (tb_nodes db)).
  { rewrite Hns. destruct (isHumanCaller auth); [|done]. rewrite /release_dropped map_map. apply map_ext. intros n. by destruct (_ && _). }
  split; [rewrite Hnodes; apply Hok| | |].
  - intros n Hn. assert (Hin : In (no_id n) (map no_id (tb_nodes db))) by (rewrite -Hnodes; by apply in_map). apply in_map_iff in Hin as (m & <- & Hm). by apply Hok.
  - rewrite Hps. destruct existing as [old|].
    + rewrite map_update_ids; [|apply Hok]. intros p [[Hp _]%andb_true_iff _]%andb_true_iff. bool_to_prop. congruence.
    + rewrite map_app. apply NoDup_app. split_and!; [apply Hok| |apply NoDup_singleton]. cbn. intros x (p & <- & Hp)%list_elem_of_In%in_map_iff E%list_elem_of_singleton.
      apply (Hfresh eq_refl p Hp). congruence.
  - rewrite Hps. destruct existing as [old|].
    + intros p (q & <- & Hq)%in_map_iff. destruct (_ && _); [done|by apply Hok].
    + intros p [Hp|[<-|[]]]%in_app_or; [by apply Hok|done].
Qed.

Lemma agent_save_keeps auth userId input now pid iid db db' :
  tables_ok db → save_texts input → agentRulesApply auth = true → save auth userId input now pid iid db = inl db' → keeps_holds db db'.
Proof.
  intros Hok Htxt Hagent Hsave. pose proof (save_ok _ _ _ _ _ _ _ _ Hok Htxt Hsave) as Hok'. split; [exact Hok'|].
  apply save_inv in Hsave as (nodeIds & holds & row & existing & _ & _ & Hex & Hplan & Hid & Huser & Hlines & _ & Hps & Hns). cbn zeta in *.
  apply negb_true_iff in Hagent. rewrite Hagent in Hns Hplan. intros n (Hn & Hheld & Hwho). exists n. split; [|by split; [split|]]. split; [by rewrite Hns|]. split; [done|].
  destruct Hwho as [Hnone|(p & l & Hp & Hpp & Hpu & Hl & Hlid & Hlh)]; [by left|]. right. rewrite Hps. destruct existing as [old|]; last first.
  { exists p, l. split_and!; try done. apply in_or_app. by left. }
  destruct (Hex old eq_refl) as [Hold Holdu]. destruct (bool_decide (po_id p = po_id old) && bool_decide (po_userId p = userId) && (po_updatedAt p =? po_updatedAt old)) eqn:Hfp.
  - assert (p = old) as -> by (apply andb_true_iff in Hfp as [[E _]%andb_true_iff _]; bool_to_prop; by eapply (NoDup_map_inj po_id); [apply Hok|..]).
    apply agent_save_lines in Hplan as [_ Hall]. destruct (Hall (hl_nodeId l, hl_note l)) as (Hin & h & Hh & Eh).
    { apply in_map_iff. exists l. split; [done|]. by apply filter_In. }
    cbn in Eh, Hin. destruct (hold_row_held nodeIds holds h) as (l' & Hl' & E1 & E2); [by rewrite Eh|done|].
    exists row, l'. split_and!; [apply in_map_iff; exists old; by rewrite Hfp|congruence|congruence|by rewrite Hlines|congruence|done].
  - exists p, l. split_and!; try done. apply in_map_iff. exists p. by rewrite Hfp.
Qed.

(** *** Delete *)

Lemma agent_delete_keeps auth userId pid db db' : tables_ok db → agentRulesApply auth = true → delete auth userId pid db = inl db' → keeps_holds db db'.
Proof.
  intros Hok Hagent. rewrite /delete Hagent. destruct (negb (mayReachAgent auth)); [done|]. destruct (negb (mayWrite auth)); [done|].
  destruct (find_profile db userId pid) as [prof|] eqn:Hf; [|done]. cbn [andb]. destruct (_ || existsb _ (tb_nodes db)) eqn:Hg; [done|]. apply orb_false_iff in Hg as [_ Hnone].
  apply find_profile_spec in Hf as (Hin & Hpid & Hpu). intros [= <-].
  assert (Hids : map no_id (map (forget_profile pid) (tb_nodes db)) = map no_id (tb_nodes db)).
  { rewrite map_map. apply map_ext. intros n. rewrite /forget_profile. by case_bool_decide. }
  split.
  - split; cbn; [rewrite Hids; apply Hok| | |].
    + intros n Hn. assert (Hin' : In (no_id n) (map no_id (tb_nodes db))) by (rewrite -Hids; by apply in_map). apply in_map_iff in Hin' as (m & <- & Hm). by apply Hok.
    + pose proof (tk_profiles db Hok) as Hnd. revert Hnd. clear. induction (tb_profiles db) as [|p ps IH]; cbn; [done|]. intros [Hp Hnd]%NoDup_cons.
      destruct (negb _); [|by apply IH]. cbn. apply NoDup_cons. split; [|by apply IH]. intros (q & Eq & [Hq _]%filter_In)%list_elem_of_In%in_map_iff. apply Hp. rewrite -Eq. by apply list_elem_of_In, in_map.
    + intros p [Hp _]%filter_In. by apply Hok.
  - intros n (Hn & Hheld & Hwho). assert (Hnot : no_holdProfileId n ≠ Some pid).
    { intros E. destruct Hwho as [?|(p & l & Hp & Hpp & Hpu' & _)]; [congruence|]. assert (p = prof) as -> by (eapply (NoDup_map_inj po_id); [apply Hok|done|done|congruence]).
      assert (Ht : existsb (λ n, bool_decide (no_userId n = userId) && bool_decide (no_holdProfileId n = Some pid)) (tb_nodes db) = true).
      { apply existsb_exists. exists n. split; [done|]. rewrite !bool_decide_eq_true_2 //. congruence. }
      congruence. }
    assert (Hsame : forget_profile pid n = n) by by rewrite /forget_profile bool_decide_eq_false_2.
    exists n. split; [|done]. split; [cbn; apply in_map_iff; by exists n|]. split; [done|]. destruct Hwho as [?|(p & l & Hp & Hpp & Hpu' & Hl)]; [by left|right].
    exists p, l. split_and!; try apply Hl; try done. cbn. apply filter_In. split; [done|]. rewrite (bool_decide_eq_false_2 (po_id p = pid)) //. congruence.
Qed.

(** ** What agents do *)

Inductive ProfileOp : Type :=
| OpSave (auth : CallerAuth) (userId : string) (input : SaveInput) (now : Z) (newProfileId : string) (newItemId : Z → string)
| OpDelete (auth : CallerAuth) (userId profileId : string)
| OpApply (auth : CallerAuth) (userId profileId : string) (confirmed : option string) (facts : PlanFacts) (names : ApplyNames) (planned_on : ProfileTables).

Definition op_result (fp : Preview → string) (db : ProfileTables) (op : ProfileOp) : ProfileTables + ProfileError :=
  match op with
  | OpSave auth userId input now pid iid => save auth userId input now pid iid db
  | OpDelete auth userId pid => delete auth userId pid db
  | OpApply auth userId pid confirmed facts names db0 => apply fp auth userId pid confirmed facts names db0 db
  end.

(** A refused operation rolls back. *)
Definition op_step (fp : Preview → string) (db : ProfileTables) (op : ProfileOp) : ProfileTables := match op_result fp db op with inl db' => db' | inr _ => db end.
Definition run_ops (fp : Preview → string) (ops : list ProfileOp) (db : ProfileTables) : ProfileTables := fold_left (op_step fp) ops db.

Definition op_auth (op : ProfileOp) : CallerAuth := match op with OpSave a _ _ _ _ _ | OpDelete a _ _ | OpApply a _ _ _ _ _ _ => a end.

(** Texts of the database have no NUL, and an apply planned on tables there were. *)
Definition op_ok (op : ProfileOp) : Prop := match op with OpSave _ _ input _ _ _ => save_texts input | OpDelete _ _ _ => True | OpApply _ _ _ _ _ _ db0 => tables_ok db0 end.

Lemma agent_step_keeps fp db op : tables_ok db → op_ok op → agentRulesApply (op_auth op) = true → keeps_holds db (op_step fp db op).
Proof.
  intros Hok Hop Hag. rewrite /op_step. destruct (op_result fp db op) as [db'|] eqn:E; [|split; [done|]; intros n Hn; by exists n].
  destruct op; cbn in *; [by eapply agent_save_keeps|by eapply agent_delete_keeps|by eapply agent_apply_keeps].
Qed.

(** C9. Agents release no person's hold. Over every sequence of saves, deletes and applies by callers
    who are not a verified person, each applied to a plan made at any earlier time, a node held by a
    person, or held by a profile whose hold line for it stands, stays held by the same holder. *)
Theorem agents_keep_holds fp ops db n :
  tables_ok db → Forall (λ op, op_ok op ∧ agentRulesApply (op_auth op) = true) ops → protected db n →
  ∃ n', In n' (tb_nodes (run_ops fp ops db)) ∧ no_id n' = no_id n ∧ row_held n' ∧ no_holdProfileId n' = no_holdProfileId n.
Proof.
  intros Hok Hops. revert db n Hok. induction Hops as [|op ops [Hop Hag] _ IH]; intros db n Hok Hn; cbn [run_ops fold_left].
  - exists n. split; [apply Hn|]. split; [done|]. split; [apply Hn|done].
  - destruct (agent_step_keeps fp db op Hok Hop Hag) as [Hok' Hkeep]. destruct (Hkeep n Hn) as (n1 & Hn1 & [E1 _] & E2).
    destruct (IH _ n1 Hok' Hn1) as (n2 & H1 & H2 & H3 & H4). exists n2. split_and!; [exact H1|congruence|done|congruence].
Qed.
