(* ===== verification/ProfileApply.v ===== *)
(** * ProfileApply: an apply reaches its profile

    What the plan keeps, stops and starts, and what a successful apply leaves in the tables: each
    item's count of instances made up of those kept for it and those started, everything else on
    the owned nodes told to stop, starts on nodes nobody holds, holds as the lines say; and a
    person's apply is the preview that was confirmed. The file ends with a profile over two nodes:
    applies by an agent and by a person, a hold agents cannot release, and a profile shown as
    satisfied whose apply stops an instance it needs. *)
From Stdlib Require Import ssreflect.
From S2P Require Import Prelude JsString PlacementFit PlacementModel PlacementRules PlacementPlanner PlacementReach PlacementSafety PlacementReplay.
From S2P Require Import Profiles ProfileStore ProfilesSafety.

(** ** Kept and stopped *)

Lemma fold_set_get {A V} (key : A → string) (val : A → V) l m x :
  NoDup (map key l) → In x l → map_get (key x) (fold_left (λ m x, map_set (key x) (val x) m) l m) = Some (val x).
Proof.
  revert m. induction l as [|y l IH]; intros m; [done|]. cbn [map fold_left]. intros [Hy Hnd]%NoDup_cons [->|Hx]; [|by apply IH].
  enough (H : ∀ m, map_get (key x) m = Some (val x) → map_get (key x) (fold_left (λ m x, map_set (key x) (val x) m) l m) = Some (val x)) by apply H, map_get_set_eq.
  clear IH Hnd m. induction l as [|z l IH]; intros m Hm; [done|]. cbn [fold_left]. cbn [map] in Hy. apply not_elem_of_cons in Hy as [Hne Hy]. apply IH; [done|].
  by rewrite map_get_set_ne.
Qed.

(** How many instances are kept for an item. *)
Definition kept_count (kept : list (PlanInstance * PlanItem)) (id : string) : Z := Z.of_nat (length (List.filter (λ a, bool_decide (pt_id a.2 = id)) kept)).

Lemma kept_count_snoc kept i t id : kept_count (kept ++ [(i, t)]) id = kept_count kept id + (if bool_decide (pt_id t = id) then 1 else 0).
Proof. rewrite /kept_count List.filter_app length_app Nat2Z.inj_add. cbn. by destruct (bool_decide _). Qed.

Section Keep.
Context (input : PlanInput) (ownedIds holdLines : list string) (slots0 : jsmap string Z).

Record keep_inv (xs : list PlanInstance) (k : KeepState) (kept : list (PlanInstance * PlanItem)) (stopped : list PlanInstance) : Prop := {
  ki_kept : ks_kept k = map (λ a, pe_id a.1) kept;
  ki_stops : ks_stops k = map (λ i, (pe_id i, pe_runtimeId i)) stopped;
  ki_all : map fst kept ++ stopped ≡ₚ List.filter pe_desiredRunning xs;
  ki_serves : ∀ i t, In (i, t) kept → In t (in_items input) ∧ instanceServesItem i t ownedIds holdLines = true;
  ki_count : ∀ id, kept_of k id = kept_count kept id;
  ki_slots : ∀ id, slots_of k id + kept_of k id = default 0 (map_get id slots0);
  ki_pos : (∀ id, 0 ≤ default 0 (map_get id slots0)) → ∀ id, 0 ≤ slots_of k id;
}.

Lemma slots_set k id v kept' stops keptPer refs id' : slots_of (mkKeep (map_set id v (ks_slots k)) kept' stops keptPer refs) id' = if bool_decide (id = id') then v else slots_of k id'.
Proof. rewrite /slots_of /=. case_bool_decide as E; [subst; by rewrite map_get_set_eq|by rewrite map_get_set_ne]. Qed.

Lemma kept_set k id v slots kept' stops refs id' : kept_of (mkKeep slots kept' stops (map_set id v (ks_keptPerItem k)) refs) id' = if bool_decide (id = id') then v else kept_of k id'.
Proof. rewrite /kept_of /=. case_bool_decide as E; [subst; by rewrite map_get_set_eq|by rewrite map_get_set_ne]. Qed.

Lemma keep_step_inv xs k kept stopped i : keep_inv xs k kept stopped → ∃ kept' stopped', keep_inv (xs ++ [i]) (keep_step input ownedIds holdLines k i) kept' stopped'.
Proof.
  intros [H1 H2 H3 H4 H5 H6 H7]. rewrite /keep_step. destruct (pe_desiredRunning i) eqn:Hd; cbn [negb]; last first.
  { exists kept, stopped. split; try done. by rewrite List.filter_app /= Hd app_nil_r. }
  destruct (List.find _ (in_items input)) as [t|] eqn:Hf.
  - apply find_some in Hf as [Ht [Hslot%Z.ltb_lt Hs]%andb_true_iff]. exists (kept ++ [(i, t)]), stopped. split; cbn [ks_kept ks_stops].
    + by rewrite map_app H1.
    + done.
    + rewrite map_app List.filter_app /= Hd -H3. cbn. rewrite -!app_assoc. apply Permutation_app_head. by rewrite Permutation_app_comm.
    + intros j u [Hj|[[= <- <-]|[]]]%in_app_or; [by apply H4|done].
    + intros id. rewrite kept_set kept_count_snoc -H5. case_bool_decide; subst; lia.
    + intros id. rewrite slots_set kept_set. specialize (H6 id). case_bool_decide; subst; lia.
    + intros Hpos id. rewrite slots_set. specialize (H7 Hpos id). case_bool_decide; subst; lia.
  - exists kept, (stopped ++ [i]). split; cbn [ks_kept ks_stops]; try done.
    + by rewrite map_app H2.
    + by rewrite List.filter_app /= Hd -H3 app_assoc.
Qed.

Lemma keep_fold_inv ys xs k kept stopped : keep_inv xs k kept stopped →
  ∃ kept' stopped', keep_inv (xs ++ ys) (fold_left (keep_step input ownedIds holdLines) ys k) kept' stopped'.
Proof.
  revert xs k kept stopped. induction ys as [|y ys IH]; intros xs k kept stopped Hk; cbn [fold_left]; [exists kept, stopped; by rewrite app_nil_r|].
  destruct (keep_step_inv xs k kept stopped y Hk) as (kept' & stopped' & Hk'). destruct (IH _ _ _ _ Hk') as (k2 & s2 & H2). exists k2, s2. by rewrite -app_assoc in H2.
Qed.
End Keep.

Definition item_slots (input : PlanInput) : jsmap string Z := fold_left (λ m item, map_set (pt_id item) (pt_count item) m) (in_items input) [].

Lemma keep_all_spec input ownedIds holdLines : ∃ kept stopped,
  keep_inv input ownedIds holdLines (item_slots input) (sort_by (λ a b, compareCodePoints (pe_id a) (pe_id b)) (in_instances input)) (keep_all input ownedIds holdLines) kept stopped.
Proof.
  destruct (keep_fold_inv input ownedIds holdLines (item_slots input) (sort_by (λ a b, compareCodePoints (pe_id a) (pe_id b)) (in_instances input)) []
    (mkKeep (item_slots input) [] [] [] []) [] []) as (kept & stopped & H); [|by exists kept, stopped].
  split; try done. intros id. rewrite /slots_of /kept_of /= Z.add_0_r. done.
Qed.

Lemma item_slots_get input t : NoDup (map pt_id (in_items input)) → In t (in_items input) → map_get (pt_id t) (item_slots input) = Some (pt_count t).
Proof. intros Hnd Ht. by apply (fold_set_get pt_id pt_count). Qed.

Lemma item_slots_pos input : (∀ t, In t (in_items input) → 0 ≤ pt_count t) → ∀ id, 0 ≤ default 0 (map_get id (item_slots input)).
Proof.
  intros Hc id. rewrite /item_slots. enough (H : ∀ l m, (∀ t, In t l → 0 ≤ pt_count t) → (∀ id, 0 ≤ default 0 (map_get id m)) →
    0 ≤ default 0 (map_get id (fold_left (λ m item, map_set (pt_id item) (pt_count item) m) l m))) by by apply H.
  clear. intros l. induction l as [|t l IH]; intros m Hl Hm; cbn [fold_left]; [apply Hm|]. apply IH; [by intros; apply Hl; right|].
  intros id'. destruct (decide (pt_id t = id')) as [<-|Hne]; [rewrite map_get_set_eq; apply Hl; by left|by rewrite map_get_set_ne].
Qed.

(** ** Starts *)

Definition start_nodes (s : PreviewStart) : list string := map pp_nodeId (sv_placements s) ++ map pv_nodeId (sv_reservations s).

(** A start of the item, inside the scope. *)
Definition start_for (placeable : list string) (item : PlanItem) (s : PreviewStart) : Prop :=
  sv_runtimeId s = pt_runtimeId item ∧ sv_versionId s = pt_versionId item ∧ ∀ id, id ∈ start_nodes s → id ∈ placeable.

Lemma placed_in_scope p item version launch placeable p' start stops warnings :
  planner_ok p → request_ok (start_request item version launch placeable) → place p (start_request item version launch placeable) = Some (p', Placed start stops warnings) →
  ∀ id, id ∈ map pp_nodeId (st_placements start) ++ map pv_nodeId (st_reservations start) → id ∈ placeable.
Proof.
  intros Hp Hrq Hplace id. destruct (placed_nodes_may _ _ _ _ _ _ Hp Hrq Hplace) as [Hr Hv]. intros [Hin|Hin]%elem_of_app.
  - apply list_elem_of_fmap in Hin as (pp & -> & [i Hi]%list_elem_of_lookup). destruct (Hr i pp Hi) as (n & <- & [Hscope _]). cbn in Hscope. bool_to_prop.
    rewrite (proj2 (set_of_spec _)) in Hscope. by apply list_elem_of_In, filter_In in Hscope as [_ ?%bool_decide_eq_true].
  - apply list_elem_of_fmap in Hin as (pv & -> & [i Hi]%list_elem_of_lookup). destruct (Hv i pv Hi) as (n & r & <- & _ & _ & Hscope & _). cbn in Hscope. by bool_to_prop.
Qed.

(** What a run of starts adds when nothing is refused. *)
Record started (placeable : list string) (counts : list (PlanItem * nat)) (s s' : StartState) : Prop := {
  sd_planner : planner_ok (ss_planner s');
  sd_refusals : ss_refusals s' = [] → ss_refusals s = [];
  sd_starts : ss_refusals s' = [] → ∃ added, ss_starts s' = ss_starts s ++ concat added ∧
    Forall2 (λ c l, length l = c.2 ∧ Forall (start_for placeable c.1) l) counts added ∧
    (length (ss_blockedBy s) = length (ss_starts s) → length (ss_blockedBy s') = length (ss_starts s'));
}.

Lemma started_snoc placeable item n s s1 s' start b : start_for placeable item start →
  ss_starts s1 = ss_starts s ++ [start] → ss_blockedBy s1 = ss_blockedBy s ++ [b] → ss_refusals s1 = ss_refusals s →
  started placeable [(item, n)] s1 s' → started placeable [(item, S n)] s s'.
Proof.
  intros Hst E1 E2 E3 [H1 H2 H3]. rewrite E1 E2 E3 in H2 H3. split; [done|done|]. intros Hr. destruct (H3 Hr) as (added & E & Hall & Hb).
  inversion Hall as [|? l ? ? [Hlen Hl] Hnil]; subst. inversion Hnil; subst. exists [start :: l]. cbn in E |- *. rewrite E -app_assoc. split_and!; [done| |].
  - constructor; [|constructor]. cbn. split; [by rewrite Hlen|by constructor].
  - intros Hlb. rewrite Hb; [rewrite !length_app /=; lia|]. by rewrite E -app_assoc.
Qed.

Lemma start_missing_started input item version launch placeable n s s' :
  planner_ok (ss_planner s) → request_ok (start_request item version launch placeable) →
  start_missing input item version (start_request item version launch placeable) n s = Some s' → started placeable [(item, n)] s s'.
Proof.
  intros Hp Hrq. revert s Hp. induction n as [|n IH]; intros s Hp; cbn [start_missing].
  { intros [= <-]. split; [done|done|]. intros _. exists [[]]. cbn. rewrite app_nil_r. split_and!; try done. by constructor. }
  destruct (place (ss_planner s) _) as [[p [start stops warnings|r]]|] eqn:Hplace; [| |done].
  - set (s1 := mkStarts p _ _ _ _). intros Hrest.
    set (st := mkPreviewStart (pt_runtimeId item) (pt_versionId item) (st_placements start) (st_reservations start) (st_fabric start) (st_distPort start)).
    apply (started_snoc placeable item n s s1 s' st (st_blockedBy start)); try done; [|apply IH; [exact (place_planner_ok _ _ _ _ Hp Hrq Hplace)|exact Hrest]].
    split_and!; [done|done|]. exact (placed_in_scope _ _ _ _ _ _ _ _ _ Hp Hrq Hplace).
  - intros [= <-]. split; cbn; [exact (place_planner_ok _ _ _ _ Hp Hrq Hplace)|by intros [_ ?]%app_eq_nil|by intros [_ ?]%app_eq_nil].
Qed.

Lemma started_trans placeable c1 c2 s1 s2 s3 : started placeable c1 s1 s2 → started placeable c2 s2 s3 → started placeable (c1 ++ c2) s1 s3.
Proof.
  intros [A1 A2 A3] [B1 B2 B3]. split; [done|by auto|]. intros Hr. destruct (B3 Hr) as (l2 & E2 & H2 & L2), (A3 (B2 Hr)) as (l1 & E1 & H1 & L1).
  exists (l1 ++ l2). split_and!; [by rewrite E2 E1 concat_app app_assoc|by apply Forall2_app|by auto].
Qed.

(** The versions' launches are ones the planner counts right. *)
Definition versions_ok (input : PlanInput) : Prop :=
  ∀ id v spec launch, map_get id (in_versions input) = Some v → pw_spec v = Some spec → sp_launch spec = Some launch →
    (1 ≤ ls_groupSize (la_shape launch))%nat ∧
    (∀ r, r ∈ ls_resources (la_shape launch) → resource_ok r) ∧ ∀ r, r ∈ ls_reservations (la_shape launch) → resource_ok (lr_resources r).

Definition missing_of (k : KeepState) (item : PlanItem) : nat := Z.to_nat (pt_count item - kept_of k (pt_id item)).

Lemma started_none placeable item n p starts blocked refs ws r ws' : planner_ok p →
  started placeable [(item, n)] (mkStarts p starts blocked refs ws) (mkStarts p starts blocked (refs ++ [r]) ws').
Proof. intros Hp. split; cbn; [done|by intros [_ ?]%app_eq_nil|by intros [_ ?]%app_eq_nil]. Qed.

Lemma start_item_started input placeable k s item s' : versions_ok input → planner_ok (ss_planner s) →
  start_item input placeable k s item = Some s' → started placeable [(item, missing_of k item)] s s'.
Proof.
  intros Hv Hp. destruct s as [p starts blocked refs ws]. rewrite /start_item. cbn [ss_planner ss_starts ss_blockedBy ss_refusals ss_warnings] in *.
  destruct (map_get _ (in_versions input)) as [version|] eqn:E1; [|intros [= <-]; by apply started_none].
  destruct (pw_spec version) as [spec|] eqn:E2; [|intros [= <-]; by apply started_none]. destruct (sp_launch spec) as [launch|] eqn:E3; [|intros [= <-]; by apply started_none].
  intros H. apply start_missing_started in H; [|done|exact (Hv _ _ _ _ E1 E2 E3)]. destruct H as [H1 H2 H3]. by split.
Qed.

Lemma start_items_started input placeable k items s s' : versions_ok input → planner_ok (ss_planner s) →
  start_items input placeable k items s = Some s' → started placeable (map (λ t, (t, missing_of k t)) items) s s'.
Proof.
  intros Hv. revert s. induction items as [|t items IH]; intros s Hp; cbn [start_items fold_left map].
  { intros [= <-]. split; [done|done|]. intros _. exists []. cbn. rewrite app_nil_r. by split_and!; try done. }
  rewrite /start_items. cbn [mbind option_bind]. destruct (start_item input placeable k s t) as [s1|] eqn:E; last first.
  { intros H. exfalso. revert H. clear. induction items as [|t items IH]; [done|]. exact IH. }
  intros H. pose proof (start_item_started _ _ _ _ _ _ Hv Hp E) as H1. apply (started_trans placeable [(t, missing_of k t)] _ s s1); [done|]. apply IH; [apply H1|exact H].
Qed.

(** ** The plan *)

(** The nodes, GPUs and claims the plan reads are ones the planner counts right. *)
Definition input_ok (input : PlanInput) : Prop := context_ok (plan_context input []) ∧ versions_ok input ∧ NoDup (map pt_id (in_items input)) ∧ ∀ t, In t (in_items input) → 0 ≤ pt_count t.

Lemma context_stopping input stopping : context_ok (plan_context input []) → context_ok (plan_context input stopping).
Proof. intros [H1 H2 H3 H4]. by split. Qed.

(** Which nodes starts may use. *)
Lemma placeable_line input released id : id ∈ placeable_nodes input released → ∃ l, In l (in_owned input) ∧ hl_nodeId l = id ∧ id ∉ hold_lines input.
Proof.
  rewrite /placeable_nodes (proj2 (set_of_spec _)). intros [Hin [Hno _]%andb_true_iff]%list_elem_of_In%filter_In. rewrite /owned_ids sort_by_in in Hin.
  apply in_map_iff in Hin as (l & <- & Hl). exists l. split_and!; [done|done|]. apply negb_true_iff in Hno. by bool_to_prop.
Qed.

Record plan_reaches (input : PlanInput) (plan : ProfilePlan) (kept : list (PlanInstance * PlanItem)) (stopped : list PlanInstance) (added : list (list PreviewStart)) : Prop := {
  pr_all : map fst kept ++ stopped ≡ₚ List.filter pe_desiredRunning (in_instances input);
  pr_serves : ∀ i t, In (i, t) kept → In t (in_items input) ∧ instanceServesItem i t (owned_ids input) (hold_lines input) = true;
  pr_kept : vw_kept (pa_preview plan) ≡ₚ map (λ a, pe_id a.1) kept;
  pr_stops : map fst (vw_stops (pa_preview plan)) ≡ₚ map pe_id stopped;
  pr_starts : vw_starts (pa_preview plan) = concat added;
  pr_counts : Forall2 (λ t l, kept_count kept (pt_id t) + Z.of_nat (length l) = pt_count t ∧
    Forall (start_for (placeable_nodes input (pa_releaseNodeIds plan)) t) l) (sort_by (λ a b, pt_position a - pt_position b) (in_items input)) added;
  pr_blocked : length (pa_blockedBy plan) = length (vw_starts (pa_preview plan));
}.

Lemma plan_spec input plan : input_ok input → profilePlan input = Some plan → vw_refusals (pa_preview plan) = [] → ∃ kept stopped added, plan_reaches input plan kept stopped added.
Proof.
  intros (Hctx & Hv & Hnd & Hc). rewrite /profilePlan. destruct (keep_all_spec input (owned_ids input) (hold_lines input)) as (kept & stopped & Hk).
  set (k := keep_all _ _ _) in *. set (placeable := placeable_nodes _ _). set (s0 := mkStarts _ _ _ _ _).
  destruct (start_items _ _ _ _ s0) as [s|] eqn:Hs; [|done]. cbn [mbind option_bind]. intros [= <-] Href. cbn in Href.
  apply start_items_started in Hs as [_ _ H3]; [|done|by apply new_planner_ok, context_stopping]. destruct (H3 Href) as (added & Est & Hall & Hlen).
  exists kept, stopped, added. destruct Hk as [K1 K2 K3 K4 K5 K6 K7]. split; cbn.
  - rewrite K3. clear. induction (in_instances input) as [|i l IH]; [done|]. cbn [sort_by List.filter].
    assert (Hf : ∀ a b : list PlanInstance, a ≡ₚ b → List.filter pe_desiredRunning a ≡ₚ List.filter pe_desiredRunning b).
    { intros a b H. induction H as [|x a b H IH'|x y a|a b c H1 IH1 H2 IH2]; cbn; [done| | |by etrans].
      - destruct (pe_desiredRunning x); [by constructor|done].
      - destruct (pe_desiredRunning x), (pe_desiredRunning y); try done. apply perm_swap. }
    rewrite (Hf _ _ (insert_by_perm _ i _)). cbn [List.filter]. by destruct (pe_desiredRunning i); rewrite IH.
  - exact K4.
  - rewrite sort_by_perm. by rewrite K1.
  - rewrite sort_by_perm. by rewrite K2 map_map.
  - by rewrite Est.
  - apply Forall2_fmap_l in Hall. assert (Hin : ∀ t, t ∈ sort_by (λ a b, pt_position a - pt_position b) (in_items input) → In t (in_items input)).
    { intros t Ht. by apply list_elem_of_In, sort_by_in in Ht. }
    clear Est Hlen. revert Hall Hin. generalize (sort_by (λ a b, pt_position a - pt_position b) (in_items input)). intros items Hall. induction Hall as [|t l items added' [Hl HF] Hall IH]; intros Hin; constructor.
    + cbn in Hl. split; [|done]. rewrite Hl /missing_of. specialize (K6 (pt_id t)). rewrite (item_slots_get input t Hnd) /= in K6; [apply Hin; by left|].
      pose proof (K7 (item_slots_pos input Hc) (pt_id t)). rewrite -K5. lia.
    + apply IH. intros u Hu. apply Hin. by right.
  - rewrite Hlen; done.
Qed.

(** ** What an apply leaves *)

(** A line is among the selected ones exactly when it is selected: nodes are listed once. *)
Lemma selected_line (f : ProfileHoldLine → bool) lines l : NoDup (map hl_nodeId lines) → In l lines → hl_nodeId l ∈ map hl_nodeId (List.filter f lines) ↔ f l = true.
Proof.
  intros Hnd Hl. split.
  - intros (l' & E & [Hl' Hf]%list_elem_of_In%filter_In)%list_elem_of_fmap. by rewrite (line_unique lines l l').
  - intros Hf. apply list_elem_of_fmap. exists l. split; [done|]. by apply list_elem_of_In, filter_In.
Qed.

Section Holds.
Context (userId : string) (input : PlanInput) (plan : ProfilePlan) (now : Z) (db : ProfileTables) (ns : list NodeRow).
Context (Hok : tables_ok db) (Hlines : NoDup (map hl_nodeId (in_owned input))) (Happly : apply_holds userId input plan now db = inl ns).

(** What becomes of the row of an owned node. *)
Lemma row_after line n' : In line (in_owned input) → In n' ns → no_id n' = hl_nodeId line → no_userId n' = userId →
  ∃ n, In n (tb_nodes db) ∧ same_node n n' ∧
    if hl_hold line then row_held n' else no_holdAt n' = None ∧
      (row_held n → hl_nodeId line ∈ map hl_nodeId (List.filter (to_release (in_profileId input) (if in_agentRules input then agent else person)
         (map (λ n, (no_id n, hold_of n)) (node_rows db userId (map hl_nodeId (in_owned input))))) (in_owned input))).
Proof.
  intros Hl Hn' Hid Hu. destruct (apply_holds_rows userId input plan now db ns Hok Happly) as (Href & ns1 & H1 & H2).
  set (current := map (λ n, (no_id n, hold_of n)) _) in *. set (caller := if in_agentRules input then agent else person) in *.
  destruct (rows_origin _ _ _ n' H2 Hn') as (n1 & Hn1 & [E2 U2] & R2), (rows_origin _ _ _ n1 H1 Hn1) as (n & Hn & [E1 U1] & R1).
  exists n. split; [done|]. split; [split; congruence|]. rewrite /after_releases E1 -E1 -E2 Hid in R2. rewrite /after_holds -E1 -E2 Hid in R1.
  assert (Hcur : map_get (hl_nodeId line) current = Some (hold_of n)).
  { rewrite -Hid E2 E1. apply current_hold; [done|done|congruence|]. rewrite -E1 -E2 Hid. by apply list_elem_of_In, in_map. }
  assert (Hheld : line_held current line = true ↔ row_held n) by (rewrite /line_held Hcur /= bool_decide_eq_true; done).
  pose proof (selected_line (to_hold (in_profileId input) current) _ _ Hlines Hl) as Sh. pose proof (selected_line (to_release (in_profileId input) caller current) _ _ Hlines Hl) as Sr.
  specialize (Href line Hl). destruct (hl_hold line) eqn:Hh.
  - assert (Hr : to_release (in_profileId input) caller current line = false) by by rewrite /to_release Hh.
    destruct (decide (hl_nodeId line ∈ map hl_nodeId (List.filter (to_release _ _ _) _))) as [Hin|_]; [rewrite Sr in Hin; congruence|]. subst n'.
    destruct (decide (hl_nodeId line ∈ _)) as [_|Hno]; [by destruct R1 as (_ & _ & ? & _)|]. subst n1. apply Hheld.
    destruct (line_held current line) eqn:Hlh; [done|]. exfalso. apply Hno, Sh. by rewrite /to_hold Hh Hlh.
  - assert (Hno : to_hold (in_profileId input) current line = false) by by rewrite /to_hold Hh.
    destruct (decide (hl_nodeId line ∈ map hl_nodeId (List.filter (to_hold _ _) _))) as [Hin|_]; [rewrite Sh in Hin; congruence|]. subst n1.
    rewrite /to_refuse Hh in Href. cbn [negb andb] in Href. destruct (line_held current line) eqn:Hlh.
    + cbn in Href. assert (Hr : to_release (in_profileId input) caller current line = true) by (rewrite /to_release Hh Hlh; cbn; by apply negb_false_iff in Href).
      destruct (decide (hl_nodeId line ∈ _)) as [Hin|Hout]; [|by rewrite Sr in Hout]. destruct R2 as (_ & _ & ?). by split.
    + assert (Hr : to_release (in_profileId input) caller current line = false) by by rewrite /to_release Hh Hlh.
      destruct (decide (hl_nodeId line ∈ _)) as [Hin|_]; [rewrite Sr in Hin; congruence|]. subst n'.
      destruct (no_holdAt n) as [t|] eqn:Ht; [|split; [done|]; intros [? ?]; congruence]. assert (false = true) by (apply Hheld; by exists t). done.
Qed.
End Holds.

(** What becomes of any node's row. *)
Lemma row_kept_unless userId input plan now db ns : tables_ok db → apply_holds userId input plan now db = inl ns →
  ∀ n n', In n (tb_nodes db) → In n' ns → no_id n' = no_id n →
  (row_held n → ¬ row_held n' → ∃ l, In l (in_owned input) ∧ hl_nodeId l = no_id n ∧ hl_hold l = false ∧
     (in_agentRules input = true → no_holdProfileId n = Some (in_profileId input))) ∧
  (no_id n ∉ map hl_nodeId (in_owned input) → n' = n).
Proof.
  intros Hok Happly n n' Hn Hn' Hid. destruct (apply_holds_rows userId input plan now db ns Hok Happly) as (_ & ns1 & H1 & H2).
  set (current := map (λ n, (no_id n, hold_of n)) _) in *. set (caller := if in_agentRules input then agent else person) in *.
  destruct (rows_origin _ _ _ n' H2 Hn') as (n1 & Hn1 & [E2 _] & R2), (rows_origin _ _ _ n1 H1 Hn1) as (m & Hm & [E1 _] & R1).
  assert (m = n) as -> by (eapply node_by_id; [apply Hok|done|done|congruence]). rewrite /after_holds in R1. rewrite /after_releases E1 in R2. split.
  - intros Hheld Hnot. destruct (decide (no_id n ∈ map hl_nodeId (List.filter (to_release _ _ _) _))) as [Hin|Hno]; last first.
    { subst n'. exfalso. apply Hnot. destruct (decide (no_id n ∈ _)) as [_|_]; [by destruct R1 as (_ & _ & ? & _)|by subst n1]. }
    apply list_elem_of_fmap in Hin as (l & El & [Hl Hto]%list_elem_of_In%filter_In). exists l. destruct R2 as (Huser & _ & _).
    assert (Hu : no_userId n = userId) by (destruct (decide (no_id n ∈ _)) as [_|_]; [by destruct R1|by subst n1]).
    rewrite /to_release /line_ours /line_held -El (current_hold db userId _ n Hok Hn Hu) in Hto; [rewrite El; by apply list_elem_of_In, in_map|].
    apply andb_true_iff in Hto as [[Hnh _]%andb_true_iff Hwho]. apply negb_true_iff in Hnh. split_and!; [done|done|done|].
    intros Ha. rewrite /caller Ha (bool_decide_eq_false_2 (agent = person)) // orb_false_r in Hwho. apply andb_true_iff in Hwho as [_ Hours]. by apply bool_decide_eq_true in Hours.
  - intros Hout.
    assert (Hsub : ∀ f : ProfileHoldLine → bool, no_id n ∉ map hl_nodeId (List.filter f (in_owned input))).
    { intros f (l & El & [Hl _]%list_elem_of_In%filter_In)%list_elem_of_fmap. apply Hout. rewrite El. by apply list_elem_of_In, in_map. }
    destruct (decide (no_id n ∈ map hl_nodeId (List.filter (to_release _ _ _) _))) as [Hin|_]; [by destruct (Hsub _ Hin)|].
    destruct (decide (no_id n ∈ map hl_nodeId (List.filter (to_hold _ _) _))) as [Hin|_]; [by destruct (Hsub _ Hin)|]. congruence.
Qed.

(** The running instances the plan sees are the rows the query finds. *)
Lemma load_running auth userId pid facts db input : loadPlanInput auth userId pid facts db = inl input →
  map pe_id (List.filter pe_desiredRunning (in_instances input)) =
  map ir_id (List.filter desired_running (runningInstancesOn db userId (map hl_nodeId (in_owned input)))).
Proof.
  rewrite /loadPlanInput. destruct (find_profile db userId pid) as [p|]; [|done]. intros [= <-]. cbn [in_instances in_owned].
  induction (runningInstancesOn db userId (map hl_nodeId (po_lines p))) as [|i l IH]; [done|]. cbn. destruct (desired_running i); cbn; by rewrite IH.
Qed.

(** Stops that all land: each instance's row is told to stop. *)
Lemma stops_land userId ids op rows rows' : NoDup (map ir_id rows) → markInstancesStopping userId ids op rows = (rows', length ids) →
  ∀ id, id ∈ ids → ∃ r, In r rows' ∧ ir_id r = id ∧ ir_userId r = userId ∧ ir_desired r = Some false ∧ ir_operationId r = Some op.
Proof.
  intros Hnd [= <- Hlen] id Hid. set (p := λ i, _ && _) in Hlen.
  assert (Hincl : incl ids (map ir_id (List.filter p rows))).
  { apply NoDup_length_incl.
    - apply NoDup_ListNoDup. clear Hlen. induction rows as [|r l IH]; cbn; [constructor|]. cbn in Hnd. apply NoDup_cons in Hnd as [Hr Hnd]. destruct (p r); [|by apply IH].
      cbn. apply NoDup_cons. split; [|by apply IH]. intros (q & Eq & [Hq _]%filter_In)%list_elem_of_In%in_map_iff. apply Hr. rewrite -Eq. by apply list_elem_of_In, in_map.
    - by rewrite length_map Hlen.
    - intros x (r & <- & [_ [[Hr _]%andb_true_iff _]%andb_true_iff]%filter_In)%in_map_iff. bool_to_prop. by apply list_elem_of_In. }
  apply list_elem_of_In, Hincl, in_map_iff in Hid as (r & <- & [Hr Hp]%filter_In). eexists. split; [apply in_map_iff; exists r; split; [by rewrite -/(p r) Hp|done]|].
  apply andb_true_iff in Hp as [[_ Hu]%andb_true_iff _]. bool_to_prop. done.
Qed.

(** The row of a new instance. *)
Definition start_row (s : PreviewStart) (r : InstanceRow) : Prop :=
  ir_runtimeId r = sv_runtimeId s ∧ ir_launchVersionId r = sv_versionId s ∧ ir_desired r = Some true ∧ rank_nodes r ++ current_reservation_nodes r = start_nodes s.

Lemma planned_start_nodes s :
  omap oc_nodeId (map (λ pl, mkOccupancyRank (Some (pp_nodeId pl)) HELD) (sv_placements s)) ++
  omap ov_nodeId (List.filter (λ v, bool_decide (ov_supersededGeneration v = None))
                    (map (λ rv, mkOccupancyReservation (Some (pv_nodeId rv)) None) (sv_reservations s))) = start_nodes s.
Proof.
  rewrite /start_nodes. f_equal; [induction (sv_placements s) as [|x l IH]|induction (sv_reservations s) as [|x l IH]]; try done; cbn in IH |- *; by rewrite IH.
Qed.

Lemma planned_rows userId op new starts blocked : length blocked = length starts → Forall2 start_row starts (writePlannedStarts userId op new starts blocked).
Proof.
  rewrite /writePlannedStarts /indexed. generalize O. revert blocked. induction starts as [|s starts IH]; intros [|b blocked] i; cbn; try done. intros [= H].
  constructor; [|by apply IH]. split_and!; try done. apply planned_start_nodes.
Qed.

Lemma forall2_concat {A B} (R : A → B → Prop) ls rows : Forall2 R (concat ls) rows → ∃ new, rows = concat new ∧ Forall2 (Forall2 R) ls new.
Proof.
  revert rows. induction ls as [|l ls IH]; intros rows; cbn [concat].
  - intros ->%Forall2_nil_inv_l. by exists [].
  - intros (r1 & r2 & H1 & H2 & ->)%Forall2_app_inv_l. destruct (IH r2 H2) as (new & -> & H3). exists (r1 :: new). split; [done|by constructor].
Qed.

(** C11. A successful apply reaches the profile. Every instance with desired state RUNNING that
    occupied an owned node when the apply was planned is kept for one item it serves or told to
    stop; for every item, the instances kept for it and the new ones make up its count exactly, and
    the new ones are its version's; they are on owned nodes that nobody holds afterwards; each owned
    node is held afterwards exactly when its line says so, although holds may have changed since the
    tables the apply was planned on; a hold it releases is on a node whose line does not hold, and
    was set by this profile unless the caller is a verified person, whose apply releases any; and
    the rows of all other nodes are as they were. [input_ok]: ids are unique, counts and sizes not
    negative, launches have a rank. *)
Theorem apply_reaches_profile fp auth userId pid confirmed facts names db0 db db' :
  tables_ok db0 → tables_ok db → NoDup (map ir_id (tb_instances db)) →
  (∀ input, loadPlanInput auth userId pid facts db0 = inl input → input_ok input) →
  apply fp auth userId pid confirmed facts names db0 db = inl db' →
  ∃ input kept stopped old new,
    loadPlanInput auth userId pid facts db0 = inl input ∧
    (map (λ a, pe_id a.1) kept ++ map pe_id stopped ≡ₚ
     map ir_id (List.filter desired_running (runningInstancesOn db0 userId (map hl_nodeId (in_owned input))))) ∧
    (∀ i t, In (i, t) kept → In t (in_items input) ∧ instanceServesItem i t (owned_ids input) (hold_lines input) = true) ∧
    tb_instances db' = old ++ concat new ∧
    (∀ i, In i stopped → ∃ r, In r old ∧ ir_id r = pe_id i ∧ ir_userId r = userId ∧ ir_desired r = Some false) ∧
    Forall2 (λ t rows, kept_count kept (pt_id t) + Z.of_nat (length rows) = pt_count t ∧
      Forall (λ r, ir_runtimeId r = pt_runtimeId t ∧ ir_launchVersionId r = pt_versionId t ∧ ir_desired r = Some true ∧
        ∀ id, id ∈ rank_nodes r ++ current_reservation_nodes r → (∃ l, In l (in_owned input) ∧ hl_nodeId l = id ∧ hl_hold l = false) ∧
          ∀ n, In n (tb_nodes db') → no_id n = id → no_userId n = userId → no_holdAt n = None) rows)
      (sort_by (λ a b, pt_position a - pt_position b) (in_items input)) new ∧
    (∀ l n, In l (in_owned input) → In n (tb_nodes db') → no_id n = hl_nodeId l → no_userId n = userId → row_held n ↔ hl_hold l = true) ∧
    (∀ n n', In n (tb_nodes db) → In n' (tb_nodes db') → no_id n' = no_id n →
       (row_held n → ¬ row_held n' → (∃ l, In l (in_owned input) ∧ hl_nodeId l = no_id n ∧ hl_hold l = false) ∧
          (isHumanCaller auth = true ∨ no_holdProfileId n = Some pid)) ∧
       (no_id n ∉ map hl_nodeId (in_owned input) → n' = n)).
Proof.
  intros Hok0 Hok Hir Hin (input & plan & Hload & Hplan & Hw & _)%apply_inv. pose proof (Hin input Hload) as Hinput.
  apply apply_write_inv in Hw as (ns & Hh & Hns & _ & Href & (rows & Hstop & Hinst) & _ & _).
  destruct (plan_spec input plan Hinput Hplan Href) as (kept & stopped & added & [P1 P2 P3 P4 P5 P6 P7]).
  destruct (load_input _ _ _ _ _ _ Hload) as (p0 & Hp0 & Hpid & Hown & Hrules). apply find_profile_spec in Hp0 as (Hin0 & _ & _). destruct (tk_lines db0 Hok0 p0 Hin0) as [Hnd _]. rewrite -Hown in Hnd.
  pose proof (λ line n', row_after userId input plan (an_now names) db ns Hok Hnd Hh line n') as Hrow. rewrite -Hns in Hrow.
  assert (Hafter : ∀ l n, In l (in_owned input) → In n (tb_nodes db') → no_id n = hl_nodeId l → no_userId n = userId → row_held n ↔ hl_hold l = true).
  { intros l n Hl Hn Hid Hu. destruct (Hrow l n Hl Hn Hid Hu) as (m & _ & _ & H). destruct (hl_hold l); [done|]. destruct H as [H _]. split; [|done]. intros [? ?]. congruence. }
  assert (Hfree : ∀ id, id ∈ placeable_nodes input (pa_releaseNodeIds plan) → (∃ l, In l (in_owned input) ∧ hl_nodeId l = id ∧ hl_hold l = false) ∧
    ∀ n, In n (tb_nodes db') → no_id n = id → no_userId n = userId → no_holdAt n = None).
  { intros id (l & Hl & <- & Hno)%placeable_line. assert (Hhl : hl_hold l = false).
    { destruct (hl_hold l) eqn:E; [|done]. exfalso. apply Hno. apply list_elem_of_fmap. exists l. split; [done|]. by apply list_elem_of_In, filter_In. }
    split; [by exists l|]. intros n Hn Hid Hu. destruct (Hrow l n Hl Hn Hid Hu) as (m & _ & _ & H). rewrite Hhl in H. apply H. }
  pose proof (planned_rows userId (an_operationId names) (an_instanceId names) _ _ P7) as Hrows. rewrite {1}P5 in Hrows. apply forall2_concat in Hrows as (new & Enew & HF).
  exists input, kept, stopped, rows, new. split_and!; try done; [|by rewrite Hinst Enew| | |].
  - rewrite -(load_running _ _ _ _ _ _ Hload) -P1 map_app map_map. done.
  - intros i Hi. rewrite -(length_map fst) in Hstop. destruct (stops_land userId _ _ _ _ Hir Hstop (pe_id i)) as (r & ? & ? & ? & ? & _); [|by exists r].
    rewrite P4. apply list_elem_of_fmap. exists i. split; [done|]. by apply list_elem_of_In.
  - clear -P6 HF Hfree. revert new HF. induction P6 as [|t l items added [Hc Hl] _ IH]; intros new HF; inversion HF as [|? r ? new' Hr HF']; subst; constructor; [|by apply IH].
    split; [by rewrite -(Forall2_length _ _ _ Hr)|]. clear Hc HF HF' IH. induction Hr as [|s row l r (E1 & E2 & E3 & E4) _ IH]; constructor.
    + apply Forall_cons in Hl as [(F1 & F2 & F3) _]. split_and!; [congruence|congruence|done|]. intros id Hid. apply Hfree, F3. by rewrite -E4.
    + apply IH. by apply Forall_cons in Hl as [_ ?].
  - intros n n' Hn Hn' Hid. rewrite Hns in Hn'. destruct (row_kept_unless userId input plan (an_now names) db ns Hok Hh n n' Hn Hn' Hid) as [Hr Hk]. split; [|done].
    intros Hheld Hnot. destruct (Hr Hheld Hnot) as (l & Hl & El & Hhl & Hwho). split; [by exists l|]. rewrite Hrules Hpid /agentRulesApply in Hwho.
    destruct (isHumanCaller auth); [by left|right; by apply Hwho].
Qed.

(** ** What a person confirmed *)

(** Equal but for the warnings, which the fingerprint leaves out. *)
Definition same_shown (a b : Preview) : Prop :=
  vw_starts a = vw_starts b ∧ vw_stops a = vw_stops b ∧ vw_kept a = vw_kept b ∧ vw_holds a = vw_holds b ∧ vw_refusals a = vw_refusals b.

Lemma plan_holds input plan : profilePlan input = Some plan →
  pa_holdNodeIds plan = hold_ids (profileHoldsFor input) ∧ pa_releaseNodeIds plan = release_ids (profileHoldsFor input) ∧ vw_holds (pa_preview plan) = holdChanges input (profileHoldsFor input).
Proof. rewrite /profilePlan. destruct (start_items _ _ _ _ _) as [s|]; [|done]. by intros [= <-]. Qed.

Lemma shown_release input holds id : id ∈ release_ids holds → ∃ c, In c (holdChanges input holds) ∧ hc_nodeId c = id ∧ hc_change c = change_release.
Proof.
  destruct holds as [hold release keep|]; cbn; [|by intros ?%elem_of_nil]. rewrite sort_by_perm. intros Hin. eexists. split; [|split].
  - apply sort_by_in, in_or_app. right. apply in_or_app. left. apply in_map_iff. exists id. split; [reflexivity|]. by apply list_elem_of_In.
  - done.
  - done.
Qed.

Lemma shown_hold input holds id : id ∈ hold_ids holds → ∃ c, In c (holdChanges input holds) ∧ hc_nodeId c = id ∧ hc_change c = change_hold.
Proof.
  destruct holds as [hold release keep|]; cbn; [|by intros ?%elem_of_nil]. rewrite sort_by_perm. intros (l & -> & Hin)%list_elem_of_fmap. eexists. split; [|split].
  - apply sort_by_in, in_or_app. left. apply in_map_iff. exists l. split; [reflexivity|]. by apply list_elem_of_In.
  - done.
  - done.
Qed.

Lemma plan_ids_owned input id : id ∈ hold_ids (profileHoldsFor input) ∨ id ∈ release_ids (profileHoldsFor input) → id ∈ map hl_nodeId (in_owned input).
Proof.
  rewrite /profileHoldsFor. destruct (planProfileHolds _ _ _ _) as [hold release keep|] eqn:Hp; cbn; [|by intros [?%elem_of_nil|?%elem_of_nil]].
  apply planned_lists in Hp as (-> & -> & _ & _). rewrite !sort_by_perm map_map. cbn.
  intros [(l & -> & [Hl _]%list_elem_of_In%filter_In)%list_elem_of_fmap|(l & -> & [Hl _]%list_elem_of_In%filter_In)%list_elem_of_fmap]; by apply list_elem_of_In, in_map.
Qed.

(** The hold writes are the plan's. *)
Lemma apply_holds_planned userId input plan now db ns :
  Forall line_text (in_owned input) → profilePlan input = Some plan → apply_holds userId input plan now db = inl ns →
  let current := map (λ n, (no_id n, hold_of n)) (node_rows db userId (map hl_nodeId (in_owned input))) in
  (∀ id, id ∈ map hl_nodeId (List.filter (to_hold (in_profileId input) current) (in_owned input)) → id ∈ pa_holdNodeIds plan) ∧
  (∀ id, id ∈ map hl_nodeId (List.filter (to_release (in_profileId input) (if in_agentRules input then agent else person) current) (in_owned input)) → id ∈ pa_releaseNodeIds plan).
Proof.
  intros Htxt (E1 & E2 & _)%plan_holds. rewrite /apply_holds. destruct (planProfileHolds _ _ _ _) as [hold release keep|] eqn:Hp; [|done]. apply planned_lists in Hp as (-> & -> & _ & _).
  destruct (negb _ || negb _) eqn:Hs; [done|]. apply orb_false_iff in Hs as [S1%negb_false_iff S2%negb_false_iff]. intros _. rewrite map_map in S1. cbn in S1.
  assert (Hn : ∀ ids : list string, (∀ id, id ∈ ids → id ∈ map hl_nodeId (in_owned input)) → ∀ s, In s ids → no_nul s).
  { intros ids Hids s Hin. apply list_elem_of_In, Hids, list_elem_of_fmap in Hin as (l & -> & Hl). rewrite Forall_forall in Htxt. by apply (Htxt l Hl). }
  assert (Hsub : ∀ (f : ProfileHoldLine → bool) id, id ∈ map hl_nodeId (List.filter f (in_owned input)) → id ∈ map hl_nodeId (in_owned input)).
  { intros f id (l & -> & [Hl _]%list_elem_of_In%filter_In)%list_elem_of_fmap. by apply list_elem_of_In, in_map. }
  apply same_ids_perm in S1; [|by apply Hn, Hsub|apply Hn; intros id; rewrite E1; by intros; apply plan_ids_owned; left].
  apply same_ids_perm in S2; [|by apply Hn, Hsub|apply Hn; intros id; rewrite E2; by intros; apply plan_ids_owned; right].
  cbn zeta. split; intros id; [by rewrite S1|by rewrite S2].
Qed.

(** C19. A person applies what they confirmed. Without a confirmed preview a person's apply is refused.
    With one, where no other preview has its fingerprint, a successful apply stops the instances and
    writes the starts the confirmed preview showed, that preview had no refusal, and every node
    whose hold it releases or sets was shown with that change. *)
Theorem person_applies_preview fp auth userId pid facts names db0 db shown :
  (∀ b, fp b = fp shown → same_shown shown b) → tables_ok db0 → tables_ok db → isHumanCaller auth = true →
  apply fp auth userId pid None facts names db0 db = inr preview_required ∧
  ∀ db', apply fp auth userId pid (Some (fp shown)) facts names db0 db = inl db' →
    vw_refusals shown = [] ∧
    (∃ rows blocked, markInstancesStopping userId (map fst (vw_stops shown)) (an_operationId names) (tb_instances db) = (rows, length (vw_stops shown)) ∧
       tb_instances db' = rows ++ writePlannedStarts userId (an_operationId names) (an_instanceId names) (vw_starts shown) blocked) ∧
    ∀ n n', In n (tb_nodes db) → In n' (tb_nodes db') → no_id n' = no_id n →
      (row_held n → no_holdAt n' = None → ∃ c, In c (vw_holds shown) ∧ hc_nodeId c = no_id n ∧ hc_change c = change_release) ∧
      (no_holdAt n = None → row_held n' → ∃ c, In c (vw_holds shown) ∧ hc_nodeId c = no_id n ∧ hc_change c = change_hold).
Proof.
  intros Hfp Hok0 Hok Hhum. split; [destruct auth as [[]| | | | ]; done|]. intros db' (input & plan & Hload & Hplan & Hw & _)%apply_inv.
  apply apply_write_inv in Hw as (ns & Hh & Hns & _ & Href & (rows & Hstop & Hinst) & _ & Hconf). specialize (Hconf _ eq_refl). symmetry in Hconf. apply Hfp in Hconf as (F1 & F2 & _ & F4 & F5).
  rewrite F5 F1 F2 F4. split; [done|]. split; [by exists rows, (pa_blockedBy plan)|]. destruct (load_input _ _ _ _ _ _ Hload) as (p0 & Hp0 & _ & Hown & _).
  apply find_profile_spec in Hp0 as (Hin0 & _ & _). destruct (tk_lines db0 Hok0 p0 Hin0) as [_ Htxt]. rewrite -Hown in Htxt.
  destruct (apply_holds_planned _ _ _ _ _ _ Htxt Hplan Hh) as [Hset Hrel]. destruct (plan_holds input plan Hplan) as (P1 & P2 & P3). rewrite P3.
  destruct (apply_holds_rows _ _ _ _ _ _ Hok Hh) as (_ & ns1 & H1 & H2). set (current := map (λ n, (no_id n, hold_of n)) _) in *.
  intros n n' Hn Hn' Hid. rewrite Hns in Hn'. destruct (rows_origin _ _ _ n' H2 Hn') as (n1 & Hn1 & [E2 _] & R2), (rows_origin _ _ _ n1 H1 Hn1) as (m & Hm & [E1 _] & R1).
  assert (m = n) as -> by (eapply node_by_id; [apply Hok|done|done|congruence]). rewrite /after_holds in R1. rewrite /after_releases E1 in R2. split.
  - intros Hheld Hnone. apply shown_release. rewrite -P2. apply Hrel. destruct (decide (no_id n ∈ map hl_nodeId (List.filter (to_release _ _ _) _))) as [Hin|Hno]; [done|]. subst n'.
    exfalso. destruct (decide (no_id n ∈ _)) as [_|_]; [destruct R1 as (_ & _ & [? ?] & _)|subst n1; destruct Hheld]; congruence.
  - intros Hnone Hheld. apply shown_hold. rewrite -P1. apply Hset. destruct (decide (no_id n ∈ map hl_nodeId (List.filter (to_hold _ _) _))) as [Hin|Hno]; [done|]. subst n1.
    exfalso. destruct (decide (no_id n ∈ _)) as [_|_]; [destruct R2 as (_ & _ & ?)|subst n']; destruct Hheld; congruence.
Qed.

(** * A profile over two nodes *)

Definition home_node (id : string) : PlanNode :=
  mkPlanNode id id true Full [] (mkHoldState None None) (8000, 8009) [] [] NotFrozen 1000 [] None None.

Definition home_shape : LaunchShape := {|
  ls_groupSize := 1; ls_resources := [Runified 600]; ls_labels := []; ls_fixedPort := None; ls_fabric := None; ls_reservations := [];
  ls_needs := mkLaunchNeeds None None None |}.

Definition home_version : VersionRow := mkVersionRow "v1" "r1" (Some (mkSpec None (Some (mkLaunch home_shape [])))).

Definition on_node (id runtimeId versionId node : string) : InstanceRow :=
  mkInstanceRow id "u" runtimeId versionId (Some true) None [mkOccupancyRank (Some node) HELD] [] [].

Definition home_claim (id node : string) (gb : Z) : PlacementInstance := {|
  pi_id := id; pi_runtimeId := "r2"; pi_ownerId := "u"; pi_startable := true; pi_running := true;
  pi_ranks := [{| pr_nodeId := Some node; pr_port := 8000; pr_distPort := None; pr_resources := mkResources (Some (Runified gb)) None None; pr_claim := Held;
                  pr_reservation := false; pr_previous := false |}];
  pi_contributed := false; pi_interactiveStop := false; pi_cleanupNodeIds := [] |}.

(** The old instance takes 7 of the node's 10 GiB: the new one fits only once it stops. *)
Definition home_facts : PlanFacts :=
  mkFacts [home_node "n1"; home_node "n2"] [home_claim "i9" "n1" 700] [] (λ _, None).

Definition home_item : PlanItem := mkItem "t1" 0 "r1" "v1" 1 [].
Definition home_profile : ProfileRow := mkProfileRow "p" "u" "evening" "Evening" USER 1 [mkLine "n1" false None; mkLine "n2" true (Some "games")] [home_item].

Definition home : ProfileTables :=
  mkTables [mkNodeRow "n1" "u" (Some 5) None (Some "p"); mkNodeRow "n2" "u" None None None; mkNodeRow "n3" "u" (Some 7) None None] [home_profile]
    [mkRuntimeRow "r1" "u" true (Some "v1"%string) "llm" false; mkRuntimeRow "r2" "u" true (Some "v9"%string) "old" false] [home_version]
    [on_node "i9" "r2" "v9" "n1"].

Definition home_names : ApplyNames := mkNames 9 "op" (λ i, if (i =? 0)%nat then "new0" else "new")%string.

Ltac in_cases := repeat match goal with H : _ ∨ _ |- _ => destruct H as [<-|H] | H : False |- _ => destruct H end.

Lemma home_ok : tables_ok home.
Proof.
  assert (Hn : ∀ s : string, forallb (λ c, negb (c =? 0)) (code_units s) = true → no_nul s).
  { intros s H Hin. rewrite forallb_forall in H. by specialize (H 0 Hin). }
  assert (Hd : ∀ l : list string, bool_decide (NoDup l) = true → NoDup l) by (intros l; apply bool_decide_eq_true_1).
  split.
  - by apply Hd.
  - intros n H. cbn in H. in_cases; by apply Hn.
  - by apply Hd.
  - intros p H. cbn in H. in_cases. split; [by apply Hd|]. constructor; [|constructor; [|done]]; split; by apply Hn.
Qed.

Lemma home_input_ok auth input : loadPlanInput auth "u" "p" home_facts home = inl input → input_ok input.
Proof.
  intros [= <-]. assert (Hd : ∀ l : list string, bool_decide (NoDup l) = true → NoDup l) by (intros l; apply bool_decide_eq_true_1).
  split_and!.
  - split; [by apply Hd| |by apply Hd|].
    + intros n H. cbn in H. in_cases; by apply Hd.
    + intros i rank H Hr. cbn in H. in_cases. cbn in Hr. in_cases. by split.
  - intros id v spec launch Hg Hs Hl. apply map_get_In in Hg. cbn in Hg. destruct Hg as [[= <- <-]|[]]. injection Hs as <-. injection Hl as <-.
    split_and!; [done|by intros r ->%list_elem_of_singleton|by intros r ?%elem_of_nil].
  - by apply Hd.
  - intros t H. cbn in H. by in_cases.
Qed.

Definition no_print (p : Preview) : string := EmptyString.

(** The agent's apply frees the first node and holds the second; the person's hold on the third stays. *)
Example home_applied :
  match apply no_print (agent_token FULL) "u" "p" None home_facts home_names home home with
  | inl db => (map (λ n, (no_id n, no_holdAt n, no_holdProfileId n)) (tb_nodes db), map (λ i, (ir_id i, ir_desired i, rank_nodes i, ir_blockedBy i)) (tb_instances db))
  | inr _ => ([], [])
  end = ([("n1", None, None); ("n2", Some 9, Some "p"); ("n3", Some 7, None)]%string,
         [("i9", Some false, ["n1"], []); ("new0", Some true, ["n1"], ["i9"])]%string).
Proof. vm_compute. done. Qed.

(** *** Agents and a person's hold *)

(** An agent tries to drop the hold line, then the profile, then applies it. *)
Definition agent_tries : list ProfileOp :=
  [OpSave (agent_token FULL) "u" (mkSaveInput (Some "p"%string) "evening" "Evening" ["n1"; "n2"]%string (Some []) [] false) 2 "q" (λ _, "t"%string);
   OpDelete (agent_token FULL) "u" "p";
   OpApply (agent_token FULL) "u" "p" None home_facts home_names home].

Lemma agents_keep_holds_witness :
  ∃ n', In n' (tb_nodes (run_ops no_print agent_tries home)) ∧ no_id n' = "n3"%string ∧ row_held n' ∧ no_holdProfileId n' = None.
Proof.
  refine (agents_keep_holds no_print agent_tries home (mkNodeRow "n3" "u" (Some 7) None None) home_ok _ _).
  - apply Forall_cons; split; [split; [by intros hs h [= <-] []|done]|]. apply Forall_cons; split; [by split|]. apply Forall_cons; split; [|by constructor]. split; [exact home_ok|done].
  - split; [right; right; by left|]. split; [by exists 7|by left].
Defined.

Lemma apply_reaches_profile_witness :
  ∃ db', apply no_print (agent_token FULL) "u" "p" None home_facts home_names home home = inl db' ∧
    ∃ input (kept : list (PlanInstance * PlanItem)) stopped old new, loadPlanInput (agent_token FULL) "u" "p" home_facts home = inl input ∧
      (map (λ a, pe_id a.1) kept ++ map pe_id stopped ≡ₚ ["i9"%string]) ∧ tb_instances db' = old ++ concat new.
Proof.
  eexists. split; [vm_compute; reflexivity|].
  edestruct (apply_reaches_profile no_print (agent_token FULL) "u" "p" None home_facts home_names home home) as (input & kept & stopped & old & new & H1 & H2 & _ & H4 & _).
  - exact home_ok.
  - exact home_ok.
  - cbn. apply NoDup_singleton.
  - exact (home_input_ok (agent_token FULL)).
  - vm_compute. reflexivity.
  - exists input, kept, stopped, old, new. injection H1 as <-. by split_and!.
Defined.

(** *** What a person confirmed *)

#[local] Instance RuntimeResource_eq : EqDecision RuntimeResource.
Proof. solve_decision. Defined.
#[local] Instance Resources_eq : EqDecision Resources.
Proof. solve_decision. Defined.
#[local] Instance PlannedPlacement_eq : EqDecision PlannedPlacement.
Proof. solve_decision. Defined.
#[local] Instance PlannedReservation_eq : EqDecision PlannedReservation.
Proof. solve_decision. Defined.
#[local] Instance PreviewStart_eq : EqDecision PreviewStart.
Proof. solve_decision. Defined.
#[local] Instance HoldChangeKind_eq : EqDecision HoldChangeKind.
Proof. solve_decision. Defined.
#[local] Instance HeldBy_eq : EqDecision HeldBy.
Proof. solve_decision. Defined.
#[local] Instance HoldChange_eq : EqDecision HoldChange.
Proof. solve_decision. Defined.
#[local] Instance PlanReason_eq : EqDecision PlanReason.
Proof. solve_decision. Defined.
#[local] Instance PlanRefusal_eq : EqDecision PlanRefusal.
Proof. solve_decision. Defined.

Definition shown_eqb (a b : Preview) : bool :=
  bool_decide (vw_starts a = vw_starts b) && bool_decide (vw_stops a = vw_stops b) && bool_decide (vw_kept a = vw_kept b)
  && bool_decide (vw_holds a = vw_holds b) && bool_decide (vw_refusals a = vw_refusals b).

Definition home_preview : Preview :=
  match preview (cookie_session true) "u" "p" home_facts home with inl (Some v) => v | _ => mkPreview [] [] [] [] [] [] end.

(** A fingerprint that tells the confirmed preview from every other. *)
Definition print_of (shown p : Preview) : string := if shown_eqb shown p then "confirmed" else "other".

Lemma print_tells shown b : print_of shown b = print_of shown shown → same_shown shown b.
Proof.
  assert (Hself : shown_eqb shown shown = true) by by rewrite /shown_eqb !bool_decide_eq_true_2.
  rewrite /print_of Hself. destruct (shown_eqb shown b) eqn:E; [|done]. intros _. apply andb_true_iff in E as [[[[H1 H2]%andb_true_iff H3]%andb_true_iff H4]%andb_true_iff H5].
  bool_to_prop. done.
Qed.

(** The person's preview shows the first node released; the apply that confirms it releases it. *)
Lemma person_applies_preview_witness :
  ∃ db', apply (print_of home_preview) (cookie_session true) "u" "p" (Some (print_of home_preview home_preview)) home_facts home_names home home = inl db' ∧
    ∃ c, In c (vw_holds home_preview) ∧ hc_nodeId c = "n1"%string ∧ hc_change c = change_release.
Proof.
  eexists. split; [vm_compute; reflexivity|].
  destruct (person_applies_preview (print_of home_preview) (cookie_session true) "u" "p" home_facts home_names home home home_preview (print_tells home_preview) home_ok home_ok eq_refl) as [_ H].
  destruct (H _ ltac:(vm_compute; reflexivity)) as (_ & _ & Hn).
  apply (proj1 (Hn (mkNodeRow "n1" "u" (Some 5) None (Some "p"%string)) (mkNodeRow "n1" "u" None None None) ltac:(by left) ltac:(by left) eq_refl) ltac:(by exists 5) eq_refl).
Defined.

(** *** Satisfied, and still stopped *)

(** Two items of one version, the second pinned to the first node; an instance on each node. *)
Definition pair_items : list PlanItem := [mkItem "t1" 0 "r1" "v1" 1 []; mkItem "t2" 1 "r1" "v1" 1 ["n1"%string]].
Definition pair_profile : ProfileRow := mkProfileRow "p" "u" "pair" "Pair" USER 1 [mkLine "n1" false None; mkLine "n2" false None] pair_items.

Definition pair_facts : PlanFacts :=
  mkFacts [home_node "n1"; home_node "n2"] [home_claim "i1" "n1" 600; home_claim "i2" "n2" 600] [] (λ _, None).

Definition pair_tables : ProfileTables :=
  mkTables [mkNodeRow "n1" "u" None None None; mkNodeRow "n2" "u" None None None] [pair_profile]
    [mkRuntimeRow "r1" "u" true (Some "v1"%string) "llm" false] [home_version] [on_node "i2" "r1" "v1" "n2"; on_node "i1" "r1" "v1" "n1"].

(** The view counts each instance for an item and says satisfied; the plan gives the instance that
    the pinned item needs to the other item and stops the second one. *)
Example satisfied_apply_stops :
  (toProfileView pair_profile (map (λ i, mkRunning (plan_instance (λ _, None) i) true) (runningInstancesOn pair_tables "u" ["n1"; "n2"]%string))).2 = true ∧
  match preview (cookie_session true) "u" "p" pair_facts pair_tables with
  | inl (Some v) => vw_kept v = ["i1"%string] ∧ map fst (vw_stops v) = ["i2"%string]
  | _ => False
  end.
Proof. vm_compute. done. Qed.

(** A profile without hold lines is deleted for a cookie session without the CSRF header, which may save nothing. *)
Example unverified_delete :
  (∃ db, delete (cookie_session false) "u" "p" pair_tables = inl db ∧ tb_profiles db = []) ∧
  ∀ input now pid iid db, save (cookie_session false) "u" input now pid iid db = inr csrf_header_needed.
Proof. split; [eexists; split; by vm_compute|done]. Qed.

(** A person's apply releases a hold a person set by hand on the first node, against the header of
    [plan.ts], which says that such a hold stays. *)
Definition home_person_held : ProfileTables := with_nodes [mkNodeRow "n1" "u" (Some 5) None None; mkNodeRow "n2" "u" None None None] home.

Example person_apply_releases_persons_hold :
  match preview (cookie_session true) "u" "p" home_facts home_person_held with
  | inl (Some v) =>
      match apply (print_of v) (cookie_session true) "u" "p" (Some (print_of v v)) home_facts home_names home_person_held home_person_held with
      | inl db => map (λ n, (no_id n, no_holdAt n)) (tb_nodes db) = [("n1", None); ("n2", Some 9)]%string
      | inr _ => False
      end
  | _ => False
  end.
Proof. vm_compute. done. Qed.
